(* ===== verification/_CoqProject ===== *)
-Q . S2P
Prelude.v
Api.v
Claims.v
Ledger.v
KVPlan.v
Placement.v
Reservations.v
Backoff.v
Runtime.v
ArrangeCard.v
PoolPolicy.v
Division.v
MakeRoom.v
Rfc3339.v
WakeTurn.v
SleepEngine.v
WakeHandler.v
RoomHandler.v
Calls.v
WakeFacts.v
RoomFacts.v
PodWatch.v
PoolTick.v
Engines.v
InstanceHealth.v
HealthFacts.v
Activation.v
ActivationFacts.v
Reconcile.v
EngineCalls.v
ReconcileFacts.v
Storm.v
StormSync.v
StormFacts.v
StormRollout.v
StormRevision.v
StormStatus.v
StormExample.v
PodTypes.v
RolePods.v
RoleRender.v
PodDrain.v
InPlace.v
RoleSync.v
PodSetSync.v
Rolling.v
RoleSetLoop.v
PodSetLoop.v
PodLaws.v
RoleSurge.v
RoleAvail.v
SlotAvail.v
RollingFacts.v
DrainFacts.v
InPlaceFacts.v
RoleSetFacts.v
PodSetFacts.v
RoleExample.v
PodSetExample.v
Concurrent.v
PDLeg.v
GatewayWake.v
