(* ===== verification/Prelude.v ===== *)
(** * AIBrix: the control plane and parts of the gateway.

    AIBrix serves language models on Kubernetes.  A ModelClaim asks for a model
    to run on the warm GPU pods of a pool; several engines share a card, each
    held to a limit on its KV cache by the runtime sidecar of its pod.  A
    StormService asks for RoleSets, and a RoleSet for the pods of its roles, which
    serve a model together.
    The gateway sends requests to the engines, and asks for one that sleeps.
    This development verifies the ModelClaim controller
    ([src/pkg/controller/modelclaim]) as a whole, the StormService controller
    ([src/pkg/controller/stormservice], [src/pkg/controller/util]), the RoleSet and
    PodSet controllers ([src/pkg/controller/roleset], [src/pkg/controller/podset],
    [src/pkg/controller/drain]), and of the gateway ([src/pkg/plugins/gateway]) the
    state of a prefill/decode leg and the wake requests, with the API types and
    readers they use.

    ** The parts and how they interact

    A pass of the ModelClaim controller reads the claims and the runtimes,
    builds an account of each card, asks the account whether a waiting claim
    fits, ranks the cards that can take it, divides the chosen card, records the
    instance and starts the engine.  A claim that fits nowhere waits, or has
    room made for it by putting idle engines to sleep.  The pass then checks the
    engines of the claim, routes those that are ready and held to their limit,
    wakes those that a request asks for, writes the status, runs the policies of
    the pools, and divides the cards that are due.

    Shared foundations:
    - [Prelude]: results, int64 arithmetic, the clock, sums, stable sorting and
      comparison chains, automation.
    - [Runtime]: the runtimes and the API server as the class [Cluster] with
      [ClusterLaws]; computations [Run] that keep every world they pass through,
      with three ways to reason about them: [within] (every moment stands in a
      relation to the start), [yields] (what the value is) and [trackedAt] (what
      holds at each moment, in terms of the other moments); the readings of a
      pass (snapshot.go).
    - [Calls], [EngineCalls]: handlers that make only calls of a kind stay
      within every relation that those calls stay within.
    - [Concurrent]: goroutines that interleave, for [PDLeg] and [GatewayWake].
    - [Rfc3339]: the time layout of wake requests and drain marks.

    The ModelClaim controller:
    - [Api], [Claims]: ModelClaim, Pod and runtime snapshot records, and the
      functions that read them (modelclaim_types.go, runtime_client.go,
      utils/modelclaim.go, utils/pod.go, parallelism.go).  Kubernetes
      quantities and label selectors are the class [K8s] with its laws.
    - [Ledger]: the account of each card (ledger.go).  [podLedgersFrom] charges
      every recorded instance; an account with a hole is not judgeable.
    - [KVPlan]: how a card is divided (kvplan.go).
    - [Placement]: the gate [admissibleCandidates], the ranking of pods and the
      names of KV segments (placement.go, part of snapshot.go).
    - [Reservations]: cards held for a claim that room is being made for, and
      what engines were seen to hold asleep (makeroom.go).
    - [Backoff]: how long a refused claim waits, and what ends the wait
      (backoff.go, the order of priority.go).
    - [ArrangeCard]: carrying a division out (arrangeCard and its steps in
      modelclaim_controller.go) against that cluster.
    - [PoolPolicy], [PoolTick]: the pool policy annotation, its reclaim plan,
      the record of request activity, and one tick of the policies (pool_policy.go,
      pool_policy_controller.go).
    - [Division]: when a card is divided again, and the step of a pass that
      divides the cards that are due (division.go).
    - [MakeRoom], [RoomHandler], [RoomFacts]: which engines to put to sleep for a
      claim and on which card, the handlers that do it, and whose turn it is
      (wake.go, makeroom.go, preemption.go, priority.go).
    - [SleepEngine]: putting one engine to sleep, the routes on the pods and a
      claim's readiness (pool_policy_controller.go, modelclaim_controller.go).
    - [WakeTurn], [WakeHandler], [WakeFacts]: in which order wake requests are
      met, and the handler that meets them (wake.go).
    - [PodWatch]: which changes of a pod start a pass of which claims.
    - [Engines], [InstanceHealth], [HealthFacts]: starting and stopping engines,
      and the health check ([reconcileInstanceHealth]).
    - [Activation], [ActivationFacts]: placing a claim ([ensureActivated]).
    - [Reconcile], [ReconcileFacts]: the pass itself, with the finalizer and the
      drain of a deleted claim.

    The StormService controller:
    - [Storm]: the objects and their readers (stormservice_types.go,
      roleset_types.go, utils.go, progress.go).
    - [StormSync], [StormFacts], [StormRollout]: the scaling and the rollout of
      RoleSets (sync.go, rolesetoperations.go, orchestration/util.go).
    - [StormRevision]: controller revisions, their names and history, and
      [Reconcile] (revision.go, history, patch).
    - [StormStatus]: the status and its conditions.  [StormExample] instantiates
      the interfaces and holds the concrete runs.

    The RoleSet and PodSet controllers.  A pass over a RoleSet makes the pod groups, refreshes the record of
    the nodes that pods ran on, has a rolling manager scale the roles and then
    roll them out, each by its syncer, and reports the status.  A pod that goes
    is drained first.  A role of pod groups is made of PodSets, whose pods the
    PodSet controller creates and removes.
    - [PodTypes], [RolePods]: pods and PodSets with the parts the controller reads,
      the filters and orders of pods, the budgets of a role and its slots
      (utils.go, utils/pod.go, podset_types.go).
    - [RoleRender]: the pod a role asks for, with its labels, environment and
      affinities (utils.go, historical_node.go, controller_utils.go).
    - [PodDrain]: marking, waiting and deleting, against the class [RoleApi]
      (drain.go).
    - [InPlace]: the updates of a pod in place (inplace_update.go).
    - [RoleSync], [PodSetSync]: the syncers of stateful and stateless roles and of
      roles made of PodSets (rolesyncer.go, podset_rollsyncer.go).
    - [Rolling]: the sequential, parallel and interleaved managers (rolling.go).
    - [RoleSetLoop]: pod groups, status, finalizer and [ReconcileRoleSet] (sync.go,
      roleset_controller.go, gang_status.go, topology_policy_event.go).
    - [PodSetLoop]: the pods of a PodSet and [ReconcilePodSet]
      (podset_controller.go).
    - [PodLaws]: what is taken of the API server about pods, and which pods each
      operation may create, delete or mark.  Listings of a role's pods are
      current, which the informer cache of the code does not promise: the
      theorems are about what the controller decides on what it sees.
    - [RoleSurge], [RoleAvail], [SlotAvail], [RollingFacts], [DrainFacts],
      [InPlaceFacts], [RoleSetFacts], [PodSetFacts]: the theorems, and
      [RoleExample] and [PodSetExample] a cluster that satisfies the interfaces,
      with the concrete runs.

    The gateway:
    - [PDLeg]: the state that the goroutines of a prefill/decode request share
      (pd_leg_state.go, abort.go, decode_watchdog.go, prefill/default.go).
    - [GatewayWake]: the wake requests the gateway writes (modelclaim_wake.go).

    ** How the code is rendered

    Byte counts are integers; int64 and int32 wrap-around is written out
    ([wrap64], [wrap32]) where a figure of the code can leave the range, and
    theorems that need a figure in range say so.  Time is nanoseconds from Go's
    zero time, and differences saturate as [Time.Sub] does.  A Go map is a finite
    map, read with the zero value where a key is missing; a nil pointer is
    [None]; an error is [Err].  A call to the API server, a runtime or the clock
    is an operation of a class, with laws that state its documented behaviour;
    it may fail, and may take effect in spite of an error.  Controller-local
    state guarded by a mutex is a record that each operation takes and returns,
    since each holds the mutex for its whole body; where goroutines share state
    between such bodies, they interleave ([Concurrent]).  Messages and Events are
    kept as constructors with the figures they print; the words of a condition's
    message are a parameter.  Logs, metrics and the events of the RoleSet
    and PodSet controllers are left out.  [sort.Slice] is taken as any permutation where the
    comparison it is given is no strict order.

    ** What the theorems show

    - Memory is never promised twice: the account charges what is recorded
      ([Ledger]), the gate admits only what fits beside everything held
      ([Placement]), a plan fits its card ([KVPlan]), and at every moment of an
      arrangement, whatever calls fail, are lost or take effect in spite of an
      error, the engines are entitled to no more than before or to what fits
      ([ArrangeCard]).
    - No engine is lost: it is started only behind the finalizer and while its
      instance is on record, whatever may have started is recorded when the
      placement is over, and the finalizer goes only when the engines were
      stopped, after they were drained ([ActivationFacts], [ReconcileFacts]).
    - Routes are true: an engine is routed only as it was read, held to its
      limit, and off its route before it sleeps ([HealthFacts], [SleepEngine]).
    - A claim that stays is looked at again, placement ends, and an instance is
      dropped only when its start is known not to have happened.
    - What is admitted can be placed, engines keep what they hold, plans do not
      depend on listing order, records and limits do not contradict each other.
    - A hold is exclusive and charged to others exactly once ([Reservations]); a
      refused claim waits exactly as long as it is told ([Backoff]).
    - A card is divided once a round, and a change of engines stays a change
      until a division works ([Division]).
    - The reclaim plan fits its budget, yields to the claims, and idle times are
      real ([PoolPolicy], [PoolTick]).
    - Room is made with no more sleeps than needed, on a card held for it, and
      preemption takes only lower priorities ([MakeRoom], [RoomFacts]); wakes
      share their card in the order they were asked for, and every request is
      answered ([WakeTurn], [WakeFacts], [PodWatch], [GatewayWake]).
    - A rollout of RoleSets keeps its surge and its availability at every moment
      and converges; revision names identify templates; the status is well
      formed ([StormFacts], [StormRollout], [StormRevision], [StormStatus]).
    - A role has no more pods than its surge allows at any moment of a pass, under
      any strategy ([RoleSetFacts], from [RoleSurge]); a stateless role keeps its
      ready pods and a stateful one its ready slots down to what maxUnavailable
      allows ([RoleAvail], [SlotAvail]); the upgrade order is kept
      ([RollingFacts]); pods are drained for their timeout before they are deleted
      ([DrainFacts]); an update in place yields the template and ends when the new
      images run ([InPlaceFacts]); a RoleSet and a PodSet outlive their pods
      ([RoleSetFacts], [PodSetFacts]); and a group that is recreated has no new
      pods before the old ones have ended ([PodSetFacts]).
      The cluster is small enough that a list of its pods is counted by an int32
      ([SmallCluster]).
    - Calls on a leg never panic or hang, and the outcome of the prefill is
      announced ([PDLeg]).
    - Theorems that state defects: KV segment names collide
      ([ipcNameFor_collides]), two unbounded settings of the pool policy overflow
      ([reclaim_share_overflows], [lifecycle_seconds_overflow]), and an interleaved
      rollout in steps of one pod does not begin while a pod is not ready
      ([interleaved_rollout_stalls]).

    ** Bounds and fuel

    [handOut] of [KVPlan] hands left over bytes round the engines and is given
    one round of the list for each byte, which is enough, since every round
    places a byte; [planKVLimits_decides] proves that its fuel never runs out.
    [dropAll] of [Api] drops a byte or more a round and is given the length of
    the string.  [placeAll] of [Activation] is given a round for each admissible
    pod and one more, and [placement_ends] proves that this is enough; its
    callers treat the exhausted case as one that does not occur.  [SlowStartBatch]
    of [StormSync] is given one round more than there are calls, and
    [createControllerRevision] of [StormRevision] a number of probes that
    [createControllerRevision_ends] bounds.  Loops over a claim's instances count
    them down.  Every other function is structurally recursive.

    ** What is not modelled

    The decoding of the policy's JSON is an input of [parsePoolPolicy].  The HTTP
    client of the runtimes and its silence window are the errors that calls may
    answer with.  The deadlines of calls show as such errors.  The request path of
    the gateway and its routers, the cache and the prefix indexers, the
    autoscaler, the Ray and adapter controllers, the webhooks, the
    generated clients and the Python services are outside this development. *)

From stdpp Require Export base gmap strings list fin_maps sorting pretty.
From Stdlib Require Export ZArith Lia.
From Stdlib Require Import OrdersEx.

Open Scope Z_scope.

(** ** Results: a Go function that returns a value and an error. *)

Inductive result (E A : Type) : Type :=
| Ok (a : A)
| Err (e : E).
Arguments Ok {E A} a.
Arguments Err {E A} e.

#[export] Instance result_ret {E} : MRet (result E) := fun A a => Ok a.
#[export] Instance result_bind {E} : MBind (result E) :=
  fun A B f m => match m with Ok a => f a | Err e => Err e end.

Definition is_ok {E A} (r : result E A) : bool :=
  match r with Ok _ => true | Err _ => false end.

Lemma result_bind_ok {E A B} (m : result E A) (f : A → result E B) b :
  m ≫= f = Ok b ↔ ∃ a, m = Ok a ∧ f a = Ok b.
Proof. destruct m as [a|e]; simpl; [|split; [done|by intros (?&?&?)]].
  split; [by exists a|]. by intros (? & [= ->] & ?). Qed.

(** ** Machine integers: the int64 a Go expression evaluates to. *)

Definition MaxInt64 : Z := 2 ^ 63 - 1.
Definition MinInt64 : Z := - 2 ^ 63.
Definition wrap64 (z : Z) : Z := (z + 2 ^ 63) mod 2 ^ 64 - 2 ^ 63.
Definition in_int64 (z : Z) : Prop := MinInt64 ≤ z ≤ MaxInt64.

#[export] Instance in_int64_dec z : Decision (in_int64 z).
Proof. unfold in_int64; apply _. Defined.

Lemma wrap64_id z : in_int64 z → wrap64 z = z.
Proof.
  unfold in_int64, wrap64, MinInt64, MaxInt64. intros H.
  rewrite Z.mod_small; lia.
Qed.

Lemma wrap64_range z : in_int64 (wrap64 z).
Proof.
  unfold in_int64, wrap64, MinInt64, MaxInt64.
  pose proof (Z.mod_pos_bound (z + 2 ^ 63) (2 ^ 64)). lia.
Qed.

(** The int32 a Go expression evaluates to. *)
Definition wrap32 (z : Z) : Z := (z + 2 ^ 31) mod 2 ^ 32 - 2 ^ 31.
Definition in_int32 (z : Z) : Prop := - 2 ^ 31 ≤ z < 2 ^ 31.

Lemma wrap32_id z : in_int32 z → wrap32 z = z.
Proof. unfold in_int32, wrap32. intros H. rewrite Z.mod_small; lia. Qed.

Lemma wrap32_range z : in_int32 (wrap32 z).
Proof. unfold in_int32, wrap32. pose proof (Z.mod_pos_bound (z + 2 ^ 31) (2 ^ 32)). lia. Qed.

Lemma wrap32_add_l a b : wrap32 (wrap32 a + b) = wrap32 (a + b).
Proof.
  unfold wrap32. f_equal.
  replace ((a + 2 ^ 31) mod 2 ^ 32 - 2 ^ 31 + b + 2 ^ 31) with ((a + 2 ^ 31) mod 2 ^ 32 + b) by lia.
  rewrite Zplus_mod_idemp_l. f_equal. lia.
Qed.

(** Filtering with a boolean. *)
Lemma filter_length_app {A} (p : A → bool) l k :
  length (List.filter p (l ++ k)) = (length (List.filter p l) + length (List.filter p k))%nat.
Proof. by rewrite List.filter_app, length_app. Qed.

Lemma filter_length_perm {A} (p : A → bool) l k :
  l ≡ₚ k → length (List.filter p l) = length (List.filter p k).
Proof. induction 1; simpl; repeat case_match; simpl; lia. Qed.

Lemma sublist_filter_list {A} (p : A → bool) l : sublist (List.filter p l) l.
Proof. induction l as [|x l IH]; simpl; [constructor|]. destruct (p x); by constructor. Qed.

Lemma elem_of_list_filter_bool {A} (p : A → bool) l x : x ∈ List.filter p l ↔ p x = true ∧ x ∈ l.
Proof. rewrite !list_elem_of_In, List.filter_In. tauto. Qed.

Lemma filter_all {A} (p : A → bool) l : (∀ x, x ∈ l → p x = true) → List.filter p l = l.
Proof.
  induction l as [|x l IH]; intros Hp; simpl; [done|]. rewrite Hp by set_solver. f_equal. apply IH. set_solver.
Qed.

(** [l[:k]] of a slice; [None] where the bound is outside its length, which
    panics unless the slice has spare capacity. *)
Definition sliceTo {A} (l : list A) (k : Z) : option (list A) :=
  if (0 <=? k) && (k <=? Z.of_nat (length l)) then Some (take (Z.to_nat k) l) else None.

(** Wrapping commutes with sums and products, so a chain of int64 additions
    has the value of the wrapped exact sum, whatever overflowed in between. *)
Lemma wrap64_eqm z : wrap64 z mod 2 ^ 64 = z mod 2 ^ 64.
Proof.
  unfold wrap64. rewrite Zminus_mod_idemp_l.
  f_equal. lia.
Qed.

Lemma wrap64_cong a b : a mod 2 ^ 64 = b mod 2 ^ 64 → wrap64 a = wrap64 b.
Proof.
  intros H. unfold wrap64.
  rewrite <- (Zplus_mod_idemp_l a), <- (Zplus_mod_idemp_l b). by rewrite H.
Qed.

Lemma wrap64_add_l a b : wrap64 (wrap64 a + b) = wrap64 (a + b).
Proof.
  apply wrap64_cong. rewrite <- Zplus_mod_idemp_l, wrap64_eqm.
  by rewrite Zplus_mod_idemp_l.
Qed.

Lemma wrap64_sub_l a b : wrap64 (wrap64 a - b) = wrap64 (a - b).
Proof. rewrite <- !Z.add_opp_r. apply wrap64_add_l. Qed.

Lemma wrap64_sub_r a b : wrap64 (a - wrap64 b) = wrap64 (a - b).
Proof.
  apply wrap64_cong. rewrite <- Zminus_mod_idemp_r, wrap64_eqm.
  by rewrite Zminus_mod_idemp_r.
Qed.

(** ** Go's clock.  An instant counts nanoseconds from the zero [time.Time],
    and the difference of two instants saturates at the int64 range as
    [Time.Sub] documents. *)

Definition Time : Type := Z.
Definition Duration : Type := Z.
Definition zeroTime : Time := 0.
Definition Second : Duration := 10 ^ 9.
Definition Minute : Duration := 60 * Second.

Definition timeSub (t u : Time) : Duration :=
  Z.max MinInt64 (Z.min MaxInt64 (t - u)).
Definition timeAdd (t : Time) (d : Duration) : Time := t + d.

Lemma timeSub_lt t u d : 0 ≤ d ≤ MaxInt64 → timeSub t u < d ↔ t - u < d.
Proof. unfold timeSub, MinInt64, MaxInt64. lia. Qed.

(** ** Sums over lists. *)

Fixpoint sumZ {A} (f : A → Z) (l : list A) : Z :=
  match l with
  | [] => 0
  | x :: l' => f x + sumZ f l'
  end.

Lemma sumZ_app {A} (f : A → Z) l k : sumZ f (l ++ k) = sumZ f l + sumZ f k.
Proof. induction l; simpl; lia. Qed.

Lemma sumZ_perm {A} (f : A → Z) l k : l ≡ₚ k → sumZ f l = sumZ f k.
Proof. induction 1; simpl; lia. Qed.

Lemma sumZ_ext {A} (f g : A → Z) l :
  (∀ x, x ∈ l → f x = g x) → sumZ f l = sumZ g l.
Proof.
  induction l as [|x l IH]; intros H; simpl; [done|].
  rewrite (H x), IH; set_solver.
Qed.

Lemma sumZ_le {A} (f g : A → Z) l :
  (∀ x, x ∈ l → f x ≤ g x) → sumZ f l ≤ sumZ g l.
Proof.
  induction l as [|x l IH]; intros H; simpl; [done|].
  assert (sumZ f l ≤ sumZ g l) by (apply IH; set_solver).
  assert (f x ≤ g x) by set_solver. lia.
Qed.

Lemma sumZ_nonneg {A} (f : A → Z) l :
  (∀ x, x ∈ l → 0 ≤ f x) → 0 ≤ sumZ f l.
Proof.
  induction l as [|x l IH]; intros H; simpl; [done|].
  assert (0 ≤ sumZ f l) by (apply IH; set_solver).
  assert (0 ≤ f x) by set_solver. lia.
Qed.

Lemma sumZ_elem_le {A} (f : A → Z) l x :
  (∀ y, y ∈ l → 0 ≤ f y) → x ∈ l → f x ≤ sumZ f l.
Proof.
  induction l as [|y l IH]; intros H Hx; [set_solver|]. simpl.
  assert (0 ≤ sumZ f l) by (apply sumZ_nonneg; set_solver).
  apply elem_of_cons in Hx as [->|Hx]; [lia|].
  assert (f x ≤ sumZ f l) by (apply IH; set_solver).
  assert (0 ≤ f y) by set_solver. lia.
Qed.

Lemma sumZ_add {A} (f g : A → Z) l :
  sumZ (fun x => f x + g x) l = sumZ f l + sumZ g l.
Proof. induction l; simpl; lia. Qed.

Lemma sumZ_fmap {A B} (f : B → Z) (g : A → B) l :
  sumZ f (g <$> l) = sumZ (fun x => f (g x)) l.
Proof. induction l as [|x l IH]; csimpl; [done|]. by rewrite IH. Qed.

Lemma Forall2_impl_elem {A B} (P Q : A → B → Prop) l k :
  Forall2 P l k → (∀ x y, x ∈ l → y ∈ k → P x y → Q x y) → Forall2 Q l k.
Proof.
  induction 1 as [|x y l k Hxy _ IH]; intros HQ; constructor; [apply HQ; set_solver|].
  apply IH. intros; apply HQ; set_solver.
Qed.

Lemma Forall2_fmap_eq {A B C} (P : A → B → Prop) (f : B → C) (g : A → C) l k :
  Forall2 P l k → (∀ x y, P x y → f y = g x) → f <$> k = g <$> l.
Proof. intros HF Hfg. induction HF as [|x y l k Hxy HF IH]; csimpl; [done|]. by rewrite IH, (Hfg x y). Qed.

Lemma NoDup_fmap_inj_elem {A B} (f : A → B) l x y :
  NoDup (f <$> l) → x ∈ l → y ∈ l → f x = f y → x = y.
Proof.
  intros Hnd (i & Hi)%list_elem_of_lookup (j & Hj)%list_elem_of_lookup Hf.
  assert (i = j) as ->; [|congruence].
  eapply NoDup_lookup; [exact Hnd|rewrite list_lookup_fmap, Hi; done|rewrite list_lookup_fmap, Hj, Hf; done].
Qed.

Lemma gmap_fold_ext `{Countable K} {A B} (f g : K → A → B → B) b (m : gmap K A) :
  (∀ k x r, f k x r = g k x r) → map_fold f b m = map_fold g b m.
Proof. intros Hfg. rewrite !map_fold_foldr. apply foldr_ext; [|done..]. intros [k x] r. apply Hfg. Qed.

(** ** Sorting.  [sort.SliceStable] and [sort.Slice], given a less function:
    a stable insertion sort.  ([sort.Slice] leaves the order of elements that
    compare equal open; the theorems about it use distinct keys or do not
    depend on that order.) *)

Section Sort.
Context {A : Type} (less : A → A → bool).

Fixpoint insertBy (x : A) (l : list A) : list A :=
  match l with
  | [] => [x]
  | y :: l' => if less y x then y :: insertBy x l' else x :: y :: l'
  end.

Fixpoint sortBy (l : list A) : list A :=
  match l with
  | [] => []
  | x :: l' => insertBy x (sortBy l')
  end.

Lemma insertBy_perm x l : insertBy x l ≡ₚ x :: l.
Proof.
  induction l as [|y l IH]; simpl; [done|].
  destruct (less y x); [|done]. rewrite IH. by constructor.
Qed.

Lemma sortBy_perm l : sortBy l ≡ₚ l.
Proof. induction l as [|x l IH]; simpl; [done|]. by rewrite insertBy_perm, IH. Qed.

Lemma sortBy_length l : length (sortBy l) = length l.
Proof. by rewrite sortBy_perm. Qed.

Lemma elem_of_sortBy x l : x ∈ sortBy l ↔ x ∈ l.
Proof. by rewrite sortBy_perm. Qed.
End Sort.

(** What Go asks of a less function: a strict weak order. *)
Class StrictWeak {A} (less : A → A → bool) : Prop := {
  less_asym : ∀ a b, less a b = true → less b a = false;
  less_negtrans : ∀ a b c, less b a = false → less c b = false → less c a = false;
}.

Definition notAfter {A} (less : A → A → bool) (a b : A) : Prop := less b a = false.

Lemma sortBy_sorted {A} (less : A → A → bool) `{!StrictWeak less} l :
  StronglySorted (notAfter less) (sortBy less l).
Proof.
  induction l as [|x l IH]; simpl; [constructor|].
  induction IH as [|y k Hk IHk Hy]; simpl; [repeat constructor|].
  destruct (less y x) eqn:E.
  - constructor; [done|]. rewrite insertBy_perm. constructor; [|done].
    by apply less_asym.
  - constructor; [by constructor|]. constructor; [done|].
    eapply Forall_impl; [exact Hy|]. intros z Hz. by eapply less_negtrans.
Qed.

Lemma StronglySorted_lookup {A} (R : A → A → Prop) l :
  StronglySorted R l → ∀ i j x y, l !! i = Some x → l !! j = Some y → (i < j)%nat → R x y.
Proof.
  induction 1 as [|z l Hs IH Hz]; intros i j x y Hi Hj Hij; [done|].
  destruct i as [|i], j as [|j]; simpl in *; try lia; simplify_eq.
  - rewrite Forall_forall in Hz. by eapply Hz, list_elem_of_lookup_2.
  - eapply IH; [done..|lia].
Qed.

(** The first of the elements no other ranks before is the head. *)
Lemma sortBy_head_least {A} (less : A → A → bool) `{!StrictWeak less} l x k :
  sortBy less l = x :: k → ∀ y, y ∈ l → less y x = false.
Proof.
  intros Hs y Hy. pose proof (sortBy_sorted less l) as HS. rewrite Hs in HS.
  apply StronglySorted_inv in HS as [_ HF].
  apply (elem_of_sortBy less) in Hy. rewrite Hs in Hy.
  apply elem_of_cons in Hy as [->|Hy].
  - destruct (less x x) eqn:E; [|done]. pose proof (less_asym _ _ E). congruence.
  - rewrite Forall_forall in HF. by apply HF.
Qed.

(** Elements that no two of which compare equal sort one way. *)
Lemma sortBy_unique {A} (less : A → A → bool) `{!StrictWeak less} l k :
  l ≡ₚ k →
  (∀ a b, a ∈ l → b ∈ l → less a b = false → less b a = false → a = b) →
  sortBy less l = sortBy less k.
Proof.
  intros Hp Hd. apply (StronglySorted_unique_strong (notAfter less)).
  - intros a b Ha%elem_of_sortBy Hb%elem_of_sortBy H1 H2. rewrite <- Hp in Hb. by apply Hd.
  - by apply sortBy_sorted.
  - by apply sortBy_sorted.
  - by rewrite !sortBy_perm.
Qed.

(** ** Strings in Go's order: byte by byte. *)

Definition strless (a b : string) : bool := String.ltb a b.

Lemma string_compare_OT a b : String.compare a b = String_as_OT.compare a b.
Proof.
  revert b. induction a as [|x a IH]; intros [|y b]; simpl; done.
Qed.

Lemma strless_lt a b : strless a b = true ↔ String_as_OT.lt a b.
Proof.
  unfold strless, String.ltb, String_as_OT.lt. rewrite string_compare_OT.
  by destruct (String_as_OT.compare a b).
Qed.

Lemma strless_irrefl a : strless a a = false.
Proof.
  destruct (strless a a) eqn:E; [|done]. apply strless_lt in E.
  exfalso. exact (StrictOrder_Irreflexive a E).
Qed.

Lemma strless_trans a b c : strless a b = true → strless b c = true → strless a c = true.
Proof. rewrite !strless_lt. by apply transitivity. Qed.

Lemma strless_total a b : strless a b = false → strless b a = false → a = b.
Proof.
  intros H1 H2. destruct (String_as_OT.compare_spec a b) as [?|H|H]; [done|..];
    apply strless_lt in H; congruence.
Qed.

#[export] Instance strless_weak : StrictWeak strless.
Proof.
  split.
  - intros a b H. destruct (strless b a) eqn:E; [|done].
    pose proof (strless_trans _ _ _ H E) as HF. by rewrite strless_irrefl in HF.
  - intros a b c H1 H2. destruct (strless c a) eqn:E; [|done].
    destruct (strless a b) eqn:E2.
    + pose proof (strless_trans _ _ _ E E2). congruence.
    + rewrite (strless_total _ _ H1 E2) in H2. congruence.
Qed.

(** A key function carries a strict weak order back to its domain. *)
Lemma StrictWeak_key {A B} (less : B → B → bool) (key : A → B) :
  StrictWeak less → StrictWeak (fun a b => less (key a) (key b)).
Proof. intros [H1 H2]. split; eauto. Qed.

(** Go's comparison chains: the first key that tells two elements apart. *)
Definition thenBy {A} (first second : A → A → bool) (a b : A) : bool :=
  first a b || (negb (first b a) && second a b).
Definition byKey {A} (key : A → Z) (a b : A) : bool := key a <? key b.
Definition byFlag {A} (flag : A → bool) (a b : A) : bool := flag a && negb (flag b).

#[export] Instance thenBy_weak {A} (f g : A → A → bool) :
  StrictWeak f → StrictWeak g → StrictWeak (thenBy f g).
Proof.
  intros Hf Hg. unfold thenBy. split.
  - intros a b. destruct (f a b) eqn:E1; [rewrite (less_asym _ _ E1); done|]. simpl.
    destruct (f b a) eqn:E2; [done|]. simpl. apply less_asym.
  - intros a b c H1 H2.
    apply orb_false_iff in H1 as [F1 G1], H2 as [F2 G2].
    pose proof (less_negtrans _ _ _ F1 F2) as F3. rewrite F3. simpl.
    destruct (f a c) eqn:E; [done|]. simpl.
    (* neither of [a], [c] ranks before the other, so [b] is level with both *)
    assert (f a b = false) as Fab.
    { destruct (f a b) eqn:Eab; [|done].
      destruct (f c b) eqn:Ecb; [done|]. pose proof (less_negtrans _ _ _ Ecb E). congruence. }
    assert (f b c = false) as Fbc.
    { destruct (f b c) eqn:Ebc; [|done]. pose proof (less_negtrans _ _ _ E F1). congruence. }
    rewrite Fab in G1. rewrite Fbc in G2. simpl in *. by eapply less_negtrans.
Qed.

(** Elements level in a chain are level in its last comparison. *)
Lemma thenBy_level {A} (f g : A → A → bool) a b :
  thenBy f g a b = false → thenBy f g b a = false → g a b = false ∧ g b a = false.
Proof. unfold thenBy. by destruct (f a b), (f b a). Qed.

#[export] Instance byKey_weak {A} (key : A → Z) : StrictWeak (byKey key).
Proof. split; unfold byKey; intros *; rewrite ?Z.ltb_lt, ?Z.ltb_ge; lia. Qed.

#[export] Instance byFlag_weak {A} (flag : A → bool) : StrictWeak (byFlag flag).
Proof. split; unfold byFlag; intros a b; [|intros c; destruct (flag c)]; destruct (flag a), (flag b); done. Qed.

(** The running minimum of a scan is the element nothing ranks before. *)
Definition keepBest {A} (better : A → A → bool) (best : option A) (x : A) : option A :=
  match best with
  | None => Some x
  | Some b => if better x b then Some x else Some b
  end.

Lemma keepBest_least {A} (better : A → A → bool) `{!StrictWeak better} l :
  match foldl (keepBest better) None l with
  | None => l = []
  | Some b => b ∈ l ∧ ∀ x, x ∈ l → better x b = false
  end.
Proof.
  assert (∀ l start, let all := option_list start ++ l in
    match foldl (keepBest better) start l with
    | None => all = []
    | Some b => b ∈ all ∧ ∀ x, x ∈ all → better x b = false
    end) as Hgen; [|exact (Hgen l None)].
  clear l. induction l as [|y l IH]; intros start; simpl.
  - destruct start as [b|]; simpl; [|done]. split; [set_solver|].
    intros x [->|?]%elem_of_cons; [|set_solver].
    destruct (better b b) eqn:E; [|done]. by rewrite (less_asym _ _ E) in E.
  - destruct start as [b|]; simpl; [|exact (IH (Some y))].
    destruct (better y b) eqn:E.
    + specialize (IH (Some y)). destruct (foldl _ (Some y) l) as [r|]; [|done].
      destruct IH as [H1 H2]. simpl in *. split; [set_solver|].
      intros x [->|Hx]%elem_of_cons; [|by apply H2].
      apply (less_negtrans r y b); [apply H2; set_solver|by apply less_asym].
    + specialize (IH (Some b)). destruct (foldl _ (Some b) l) as [r|]; [|done].
      destruct IH as [H1 H2]. simpl in *. split; [set_solver|].
      intros x [->|[->|Hx]%elem_of_cons]%elem_of_cons; [apply H2; set_solver| |apply H2; set_solver].
      apply (less_negtrans r b y); [apply H2; set_solver|done].
Qed.

(** ** Automation. *)

(** Turn boolean tests on integers, strings and options into propositions. *)
Ltac breflect :=
  repeat match goal with
  | H : _ && _ = true |- _ => apply andb_true_iff in H as [? ?]
  | H : _ || _ = false |- _ => apply orb_false_iff in H as [? ?]
  | H : negb _ = true |- _ => apply negb_true_iff in H
  | H : negb _ = false |- _ => apply negb_false_iff in H
  | H : (_ <? _) = true |- _ => apply Z.ltb_lt in H
  | H : (_ <? _) = false |- _ => apply Z.ltb_ge in H
  | H : (_ <=? _) = true |- _ => apply Z.leb_le in H
  | H : (_ <=? _) = false |- _ => apply Z.leb_gt in H
  | H : (_ >? _) = true |- _ => rewrite Z.gtb_ltb in H; apply Z.ltb_lt in H
  | H : (_ >? _) = false |- _ => rewrite Z.gtb_ltb in H; apply Z.ltb_ge in H
  | H : (_ >=? _) = true |- _ => rewrite Z.geb_leb in H; apply Z.leb_le in H
  | H : (_ >=? _) = false |- _ => rewrite Z.geb_leb in H; apply Z.leb_gt in H
  | H : (_ =? _) = true |- _ => apply Z.eqb_eq in H
  | H : (_ =? _) = false |- _ => apply Z.eqb_neq in H
  | H : bool_decide _ = true |- _ => apply bool_decide_eq_true in H
  | H : bool_decide _ = false |- _ => apply bool_decide_eq_false in H
  end.

(** Split every [if] of the goal and reflect the conditions. *)
Ltac split_ifs :=
  repeat (match goal with
          | |- context [if ?b then _ else _] => destruct b eqn:?
          end); breflect.

Create HintDb aibrix.
Create Rewrite HintDb aibrix_rw.
#[export] Hint Resolve sumZ_nonneg wrap64_id strless_irrefl : aibrix.
#[export] Hint Rewrite @sumZ_app @sumZ_fmap @sortBy_length : aibrix_rw.
