(* ===== verification/Api.v ===== *)
(** * The objects the controller reads.

    The ModelClaim API ([api/model/v1alpha1/modelclaim_types.go]), the runtime
    sidecar's snapshot ([pkg/controller/modelclaim/runtime_client.go]) and the
    part of a Kubernetes Pod the controller looks at, with the helpers that
    read a claim's spec ([pkg/utils/modelclaim.go],
    [pkg/controller/modelclaim/parallelism.go], and the name helpers of
    [placement.go]).

    Kubernetes' [resource.Quantity] and label selectors are not part of the
    repository.  They are the parameter [K8s]; [K8sLaws] states what their
    documentation promises, and [NanoK8s] is an instance of both. *)

From Stdlib Require Import Ascii.
From S2P Require Import Prelude.

(** ** Kubernetes' own types. *)

Class K8s := {
  Quantity : Type;
  q_Sign : Quantity → Z;
  q_Cmp : Quantity → Quantity → Z;
  q_Value : Quantity → Z;
  (** [resource.NewQuantity] of an integer; the parsed constants of the source
      are such integers. *)
  q_New : Z → Quantity;
  LabelSelector : Type;
  (** [LabelSelectorAsSelector] and [Matches]: [None] is an invalid selector. *)
  selectorMatches : LabelSelector → gmap string string → option bool;
}.

(** A quantity is a fixed-point number with nine decimals.  [Value] rounds it
    up to the next integer. *)
Class K8sLaws `{K8s} := {
  q_nano : Quantity → Z;
  q_Sign_spec q : q_Sign q = Z.sgn (q_nano q);
  q_Cmp_spec p q : q_Cmp p q = Z.sgn (q_nano p - q_nano q);
  q_Value_spec q : 0 ≤ q_nano q ≤ 2 ^ 62 * 10 ^ 9 →
    q_Value q = (q_nano q + (10 ^ 9 - 1)) / 10 ^ 9;
  q_New_spec z : q_nano (q_New z) = z * 10 ^ 9;
}.

(** Quantities as integers of nanounits, and selectors as label lists that
    have to be present: one implementation of the interface. *)
Definition NanoK8s : K8s := {|
  Quantity := Z;
  q_Sign := Z.sgn;
  q_Cmp p q := Z.sgn (p - q);
  q_Value q := (q + (10 ^ 9 - 1)) / 10 ^ 9;
  q_New z := z * 10 ^ 9;
  LabelSelector := list (string * string);
  selectorMatches sel labels :=
    Some (forallb (fun kv => bool_decide (labels !! kv.1 = Some kv.2)) sel);
|}.

Definition NanoK8sLaws : @K8sLaws NanoK8s.
Proof. by refine {| q_nano := (fun q : Z => q) : @Quantity NanoK8s → Z |}. Defined.

(** ** ModelClaim. *)

Inductive ModelClaimPhase : Type :=
| ModelClaimPending
| ModelClaimScheduling
| ModelClaimLoading
| ModelClaimActivating
| ModelClaimActive
| ModelClaimSleeping
| ModelClaimFailed
| ModelClaimUnknown
(** The field is a string: an instance may carry none of the phases above. *)
| ModelClaimOtherPhase (s : string).

#[export] Instance ModelClaimPhase_eq_dec : EqDecision ModelClaimPhase.
Proof. solve_decision. Defined.

Record ModelClaimInstance : Type := MkInstance {
  inst_Pod : string;
  inst_Port : Z;
  inst_Phase : ModelClaimPhase;
  inst_KVLimitBytes : Z;
  inst_Reason : string;
}.

(** [metav1.ConditionStatus] and [metav1.Condition]. *)
Inductive ConditionStatus : Type := ConditionTrue | ConditionFalse | ConditionUnknown.
#[export] Instance ConditionStatus_eq_dec : EqDecision ConditionStatus.
Proof. solve_decision. Defined.

Record Condition : Type := MkCondition {
  cond_Type : string;
  cond_Status : ConditionStatus;
  cond_LastTransition : Time;
  cond_Reason : string;
  cond_Message : string;
}.
#[export] Instance Condition_eq_dec : EqDecision Condition.
Proof. solve_decision. Defined.

Section Api.
Context `{K8s}.

Record ModelClaimPerGPU : Type := MkPerGPU {
  MaximumFootprint : Quantity;
  KVFloor : Quantity;
}.

Record ModelClaim : Type := MkModelClaim {
  mc_Namespace : string;
  mc_Name : string;
  mc_UID : string;
  mc_Generation : Z;
  mc_CreationTimestamp : Time;
  (** A zero deletion timestamp is [None]. *)
  mc_DeletionTimestamp : option Time;
  spec_ModelName : option string;
  spec_PodSelector : option LabelSelector;
  spec_ArtifactURL : string;
  spec_Engine : string;
  spec_Replicas : option Z;
  spec_Priority : Z;
  spec_PreemptionPolicy : string;
  (** [engineConfig.args]; a missing config and one without args read alike. *)
  spec_EngineArgs : gmap string string;
  spec_PerGPU : option ModelClaimPerGPU;
  status_Phase : ModelClaimPhase;
  status_Instances : list ModelClaimInstance;
  status_Conditions : list Condition;
  status_Candidates : Z;
  status_ReadyReplicas : Z;
  status_DesiredReplicas : Z;
  mc_ResourceVersion : string;
  mc_Finalizers : list string;
}.

Definition setFinalizers (pm : ModelClaim) (finalizers : list string) : ModelClaim :=
  MkModelClaim pm.(mc_Namespace) pm.(mc_Name) pm.(mc_UID) pm.(mc_Generation) pm.(mc_CreationTimestamp)
    pm.(mc_DeletionTimestamp) pm.(spec_ModelName) pm.(spec_PodSelector) pm.(spec_ArtifactURL) pm.(spec_Engine)
    pm.(spec_Replicas) pm.(spec_Priority) pm.(spec_PreemptionPolicy) pm.(spec_EngineArgs) pm.(spec_PerGPU)
    pm.(status_Phase) pm.(status_Instances) pm.(status_Conditions) pm.(status_Candidates)
    pm.(status_ReadyReplicas) pm.(status_DesiredReplicas) pm.(mc_ResourceVersion) finalizers.

(** ** Pods. *)

Record Container : Type := MkContainer {
  c_Limits : gmap string Quantity;
  c_Requests : gmap string Quantity;
}.

Record Pod : Type := MkPod {
  pod_Namespace : string;
  pod_Name : string;
  pod_UID : string;
  pod_Labels : gmap string string;
  pod_Annotations : gmap string string;
  pod_NodeName : string;
  pod_IP : string;
  pod_Conditions : list Condition;
  pod_Containers : list Container;
  (** The kind and the name of the owner that controls it. *)
  pod_Controller : option (string * string);
  pod_Phase : string;
  (** A zero deletion timestamp is [None]. *)
  pod_DeletionTimestamp : option Time;
}.
End Api.

(** [types.NamespacedName]. *)
Record NamespacedName : Type := MkNN {
  nn_Namespace : string;
  nn_Name : string;
}.

#[export] Instance NamespacedName_eq_dec : EqDecision NamespacedName.
Proof. solve_decision. Defined.

#[export] Instance NamespacedName_countable : Countable NamespacedName.
Proof.
  by refine (inj_countable' (fun n => (nn_Namespace n, nn_Name n)) (fun p => MkNN p.1 p.2) _); intros [].
Defined.

(** ** Runtime snapshots. *)

Record ModelClaimRef : Type := MkClaimRef {
  ref_Namespace : string;
  ref_Name : string;
  ref_UID : string;
}.

Record RuntimeAcceleratorSnapshot : Type := MkAccelerator {
  acc_HBMTotalBytes : Z;
  acc_HBMFreeBytes : Z;
  acc_HBMUsableBytes : Z;
}.

Record RuntimeSnapshotModel : Type := MkSnapshotModel {
  sm_ModelName : string;
  sm_ClaimRef : option ModelClaimRef;
  sm_IPCName : string;
  sm_Phase : string;
  sm_Alive : bool;
  sm_Ready : bool;
  sm_LastTransition : option Time;
  sm_KVUsedBytes : Z;
  sm_KVCapacityBytes : Z;
  sm_KVInitialCapacityBytes : option Z;
  sm_SleepingFootprintBytes : option Z;
  sm_RequestMetricsObserved : bool;
  sm_RequestsRunning : Z;
  sm_RequestsWaiting : Z;
  sm_RequestSuccessTotal : option Z;
  sm_LastError : string;
  sm_Port : Z;
}.

Record RuntimeSnapshot : Type := MkSnapshot {
  snap_ObservedAt : Time;
  snap_Accelerators : list RuntimeAcceleratorSnapshot;
  snap_Models : list RuntimeSnapshotModel;
  snap_CachedArtifacts : list string;
}.

Definition runtimePhaseActive : string := "active".
Definition runtimePhaseFailed : string := "failed".
Definition runtimePhaseSleeping : string := "sleeping".
Definition runtimePhaseStopping : string := "stopping".

Definition DefaultRequeueDuration : Duration := 10 * Second.
Abbreviation ModelClaimFinalizer := "model.aibrix.ai/modelclaim-finalizer" (only parsing).

(** ** Go's string functions, as the helpers below use them. *)

Section GoStrings.

(** [strings.CutPrefix]. *)
Fixpoint cutPrefix (s prefix : string) : option string :=
  match prefix, s with
  | EmptyString, _ => Some s
  | String p ps, String c cs => if Ascii.eqb p c then cutPrefix cs ps else None
  | String _ _, EmptyString => None
  end.

(** [strings.Cut] at a one-byte separator: before, after, found. *)
Fixpoint cutAt (sep : ascii) (s : string) : string * string * bool :=
  match s with
  | EmptyString => ("", "", false)
  | String c cs =>
      if Ascii.eqb c sep then ("", cs, true)
      else let '(before, after, found) := cutAt sep cs in (String c before, after, found)
  end.

(** [strings.ReplaceAll] of one byte by another. *)
Fixpoint replaceByte (old new : ascii) (s : string) : string :=
  match s with
  | EmptyString => ""
  | String c cs => String (if Ascii.eqb c old then new else c) (replaceByte old new cs)
  end.

Definition bytes (l : list nat) : string :=
  String.string_of_list_ascii (ascii_of_nat <$> l).

(** The UTF-8 encodings of the characters [unicode.IsSpace] accepts. *)
Definition spaceEncodings : list string :=
  (bytes ∘ (fun n => [n]) <$> [9; 10; 11; 12; 13; 32]%nat) ++
  (bytes <$> [[194; 133]; [194; 160]; [225; 154; 128]; [226; 128; 168]; [226; 128; 169];
              [226; 128; 175]; [226; 129; 159]; [227; 128; 128]]%nat) ++
  ((fun n => bytes [226; 128; 128 + n]%nat) <$> seq 0 11).

(** [s] without the first of [encs] that is a prefix of it. *)
Fixpoint dropOne (encs : list string) (s : string) : option string :=
  match encs with
  | [] => None
  | e :: rest => match cutPrefix s e with Some s' => Some s' | None => dropOne rest s end
  end.

Fixpoint dropAll (fuel : nat) (encs : list string) (s : string) : string :=
  match fuel with
  | O => s
  | S fuel' => match dropOne encs s with Some s' => dropAll fuel' encs s' | None => s end
  end.

Definition revString (s : string) : string :=
  String.string_of_list_ascii (rev (String.list_ascii_of_string s)).

(** [strings.TrimSpace].  Each round drops a byte or more, so the length of
    the string is enough fuel. *)
Definition trimSpace (s : string) : string :=
  let l := dropAll (String.length s) spaceEncodings s in
  revString (dropAll (String.length l) (revString <$> spaceEncodings) (revString l)).

Definition digitOf (c : ascii) : option Z :=
  let n := Z.of_nat (nat_of_ascii c) in
  if (48 <=? n) && (n <=? 57) then Some (n - 48) else None.

Fixpoint parseDigits (s : string) (acc : Z) : option Z :=
  match s with
  | EmptyString => Some acc
  | String c cs => d ← digitOf c; parseDigits cs (10 * acc + d)
  end.

(** [strconv.ParseInt(s, 10, 64)]; [None] is a syntax or a range error. *)
Definition parseInt (s : string) : option Z :=
  let digits d := match d with EmptyString => None | _ => parseDigits d 0 end in
  let ranged v := if bool_decide (in_int64 v) then Some v else None in
  match s with
  | String "-"%char d => digits d ≫= fun v => ranged (- v)
  | String "+"%char d => digits d ≫= ranged
  | d => digits d ≫= ranged
  end.
End GoStrings.

(** ** Reading a claim's engine arguments. *)

Section EngineArgs.

Definition modelClaimVLLMFlagAliases : gmap string string :=
  {[ "-tp" := "--tensor-parallel-size";
     "-pp" := "--pipeline-parallel-size";
     "-dp" := "--data-parallel-size" ]}.

Definition ModelClaimEngineFlag (key : string) : string * string * bool :=
  let '(flag, value, hasValue) := cutAt "="%char (trimSpace key) in
  match modelClaimVLLMFlagAliases !! flag with
  | Some long => (long, value, hasValue)
  | None =>
      match cutPrefix flag "--" with
      | Some name => (String.append "--" (replaceByte "_"%char "-"%char name), value, hasValue)
      | None => (flag, value, hasValue)
      end
  end.

Inductive engineArgError : Type :=
| SetMoreThanOnce (flag : string)
| MemoryUtilizationIncompatible
| NotAPositiveInteger (flag : string)
| DataParallelUnsupported (data : Z)
| ParallelismOverflows.

(** [None] is a flag that is not set. *)
Definition modelClaimEngineArg (args : gmap string string) (name : string)
  : result engineArgError (option string) :=
  match filter (fun key => (ModelClaimEngineFlag key).1.1 = name) (map_to_list args).*1 with
  | [] => Ok None
  | [key] =>
      let '(_, value, hasValue) := ModelClaimEngineFlag key in
      if hasValue then Ok (Some value) else Ok (Some (default "" (args !! key)))
  | _ => Err (SetMoreThanOnce name)
  end.

Definition positiveEngineArg (args : gmap string string) (name : string)
  : result engineArgError Z :=
  raw ← modelClaimEngineArg args name;
  match raw with
  | None => Ok 1
  | Some raw =>
      match parseInt (trimSpace raw) with
      | Some value => if value <? 1 then Err (NotAPositiveInteger name) else Ok value
      | None => Err (NotAPositiveInteger name)
      end
  end.

Definition ModelClaimVLLMParallelism (args : gmap string string) : result engineArgError Z :=
  found ← modelClaimEngineArg args "--gpu-memory-utilization";
  match found with
  | Some _ => Err MemoryUtilizationIncompatible
  | None =>
      tensor ← positiveEngineArg args "--tensor-parallel-size";
      pipeline ← positiveEngineArg args "--pipeline-parallel-size";
      data ← positiveEngineArg args "--data-parallel-size";
      if negb (data =? 1) then Err (DataParallelUnsupported data)
      else if MaxInt64 `quot` pipeline <? tensor then Err ParallelismOverflows
      else Ok (wrap64 (tensor * pipeline))
  end.
End EngineArgs.
