(* ===== verification/Claims.v ===== *)
(** * Reading claims, pods and snapshots.

    The helpers every part of the controller uses to read a ModelClaim's spec
    and status, a pod's GPUs and a runtime snapshot: [pkg/utils/modelclaim.go],
    [parallelism.go], [snapshot.go], and the small readers of [placement.go],
    [ledger.go], [makeroom.go], [modelclaim_controller.go] and
    [pool_policy_controller.go] of [pkg/controller/modelclaim]. *)

From S2P Require Import Prelude Api.

Definition modelClaimMaximumDeclared : Z := 2 ^ 50.
Definition modelClaimSmallestRounded : Z := 2 ^ 20.

Inductive declarationError : Type :=
| PerGPUMissing
| NotPositive (figure : string)
| MoreThanMaximum (figure : string)
| NotWholeBytes (figure : string).

(** A claim's [spec.perGPU] in bytes. *)
Record perGPUBytes : Type := MkPerGPUBytes {
  maximumFootprintBytes : Z;
  kvFloorBytes : Z;
}.

Definition perGPU_minimumReserveBytes (p : perGPUBytes) : Z :=
  p.(maximumFootprintBytes) + p.(kvFloorBytes).

(** The label and annotation names of [pkg/constants]. *)
Definition ModelClaimWakeAnnotationPrefix : string := "wake.modelclaim.aibrix.ai/".
Definition NVIDIAGPUResourceName : string := "nvidia.com/gpu".

Section Claims.
Context `{K8s}.

Definition ModelClaimDeclaredBytes (name : string) (declared : Quantity)
  : result declarationError Z :=
  if q_Sign declared <=? 0 then Err (NotPositive name)
  else if 0 <? q_Cmp declared (q_New modelClaimMaximumDeclared) then Err (MoreThanMaximum name)
  else if (q_Cmp declared (q_New modelClaimSmallestRounded) <? 0) &&
          negb (q_Cmp declared (q_New (q_Value declared)) =? 0) then Err (NotWholeBytes name)
  else Ok (q_Value declared).

Definition perGPUBytesOf (pm : ModelClaim) : result declarationError perGPUBytes :=
  match pm.(spec_PerGPU) with
  | None => Err PerGPUMissing
  | Some declared =>
      maximumFootprint ← ModelClaimDeclaredBytes "maximumFootprint" declared.(MaximumFootprint);
      kvFloor ← ModelClaimDeclaredBytes "kvFloor" declared.(KVFloor);
      Ok (MkPerGPUBytes maximumFootprint kvFloor)
  end.

Definition servedModelName (pm : ModelClaim) : string :=
  match pm.(spec_ModelName) with
  | Some name => if bool_decide (name = "") then pm.(mc_Name) else name
  | None => pm.(mc_Name)
  end.

Definition desiredReplicas (pm : ModelClaim) : Z := default 1 pm.(spec_Replicas).

Definition isVLLMModel (pm : ModelClaim) : bool :=
  bool_decide (pm.(spec_Engine) = "") || bool_decide (pm.(spec_Engine) = "vllm").

Definition modelParallelism (pm : ModelClaim) : result engineArgError Z :=
  if negb (isVLLMModel pm) then Ok 1 else ModelClaimVLLMParallelism pm.(spec_EngineArgs).

Definition instanceGPUCount (pm : ModelClaim) : Z :=
  if negb (isVLLMModel pm) then 0
  else match modelParallelism pm with Ok parallelism => parallelism | Err _ => 0 end.

Definition ModelClaimPodGPUCount (containers : list Container) : Z :=
  foldl (fun count c =>
    match c.(c_Limits) !! NVIDIAGPUResourceName with
    | Some quantity => count + q_Value quantity
    | None => match c.(c_Requests) !! NVIDIAGPUResourceName with
              | Some quantity => count + q_Value quantity
              | None => count
              end
    end) 0 containers.

Definition podGPUCount (pod : Pod) : Z := ModelClaimPodGPUCount pod.(pod_Containers).

Definition podHasGPUs (pod : Pod) (reportedAccelerators : Z) : bool :=
  (0 <? podGPUCount pod) || (0 <? reportedAccelerators).

Definition podSupportsVLLMParallelism (pod : Pod) (parallelism : Z) : bool :=
  (podGPUCount pod =? 0) || (podGPUCount pod =? parallelism).

Definition wakeAsked (pod : option Pod) (claimName : string) : bool :=
  match pod with
  | None => false
  | Some pod => bool_decide (is_Some (pod.(pod_Annotations) !!
                  String.append ModelClaimWakeAnnotationPrefix claimName))
  end.

Definition IsPodReady (pod : Pod) : bool :=
  match list_find (fun c => c.(cond_Type) = "Ready") pod.(pod_Conditions) with
  | Some (_, condition) => bool_decide (condition.(cond_Status) = ConditionTrue)
  | None => false
  end.

(** A claim without a selector, or with an invalid one, selects nothing. *)
Definition selectsAny (claim : ModelClaim) (pods : list Pod) : bool :=
  match claim.(spec_PodSelector) with
  | None => false
  | Some selector =>
      existsb (fun pod => default false (selectorMatches selector pod.(pod_Labels))) pods
  end.

Definition selects (claim : ModelClaim) (pod : Pod) : bool := selectsAny claim [pod].

(** [None] is invalid parallelism. *)
Definition candidatePodsForClaim (claim : ModelClaim) (candidates : list Pod)
  : option (list Pod) :=
  match modelParallelism claim with
  | Err _ => None
  | Ok parallelism =>
      Some (List.filter (fun pod =>
        negb (negb (selects claim pod) ||
              (isVLLMModel claim && negb (podSupportsVLLMParallelism pod parallelism)))) candidates)
  end.

Definition priorityEligible (claim : ModelClaim) (candidates : list Pod) : bool :=
  if bool_decide (is_Some claim.(mc_DeletionTimestamp)) ||
     negb (bool_decide (claim.(status_Instances) = [])) ||
     (desiredReplicas claim <=? 0) then false
  else match perGPUBytesOf claim with
       | Err _ => false
       | Ok _ => match candidatePodsForClaim claim candidates with
                 | None => false
                 | Some shared => negb (bool_decide (length shared = 0%nat))
                 end
       end.
End Claims.

(** ** Snapshots. *)

(** [hbmUsableBytes]: [None] when a card, or the pod, could not be sized. *)
Fixpoint smallestUsable (smallest : option Z) (accelerators : list RuntimeAcceleratorSnapshot)
  : option Z :=
  match accelerators with
  | [] => smallest
  | accelerator :: rest =>
      if accelerator.(acc_HBMUsableBytes) <=? 0 then None
      else smallestUsable
             (match smallest with
              | None => Some accelerator.(acc_HBMUsableBytes)
              | Some s => Some (if accelerator.(acc_HBMUsableBytes) <? s
                                then accelerator.(acc_HBMUsableBytes) else s)
              end) rest
  end.

Definition snapshot_hbmUsableBytes (s : option RuntimeSnapshot) : option Z :=
  match s with
  | None => None
  | Some s => smallestUsable None s.(snap_Accelerators)
  end.

Definition snapshot_models (s : option RuntimeSnapshot) : list RuntimeSnapshotModel :=
  match s with None => [] | Some s => s.(snap_Models) end.

Definition reportedAccelerators (snapshot : option RuntimeSnapshot) : Z :=
  match snapshot with
  | None => 0
  | Some s =>
      let cards := Z.of_nat (length
        (List.filter (fun a => 0 <? a.(acc_HBMTotalBytes)) s.(snap_Accelerators))) in
      if 0 <? cards then cards
      else if existsb (fun m => 0 <? m.(sm_KVCapacityBytes)) s.(snap_Models) then 1 else 0
  end.

Definition sleepingFootprintOf (model : RuntimeSnapshotModel) : option Z :=
  match model.(sm_SleepingFootprintBytes) with
  | Some footprint => if footprint <=? 0 then None else Some footprint
  | None => None
  end.

Definition snapshotActivityKey (model : RuntimeSnapshotModel) : string :=
  if bool_decide (model.(sm_IPCName) = "") then model.(sm_ModelName) else model.(sm_IPCName).

(** The scan of [snapshotModelForClaim]: an engine that names its claim's UID
    is the answer; otherwise the last engine of the served name that does not
    name another claim. *)
Fixpoint findModelForClaim (claimUID served : string) (legacy : option RuntimeSnapshotModel)
    (models : list RuntimeSnapshotModel) : option RuntimeSnapshotModel :=
  match models with
  | [] => legacy
  | model :: rest =>
      let uid := match model.(sm_ClaimRef) with Some ref => ref.(ref_UID) | None => "" end in
      if negb (bool_decide (claimUID = "")) && negb (bool_decide (uid = "")) then
        if bool_decide (uid = claimUID) then Some model
        else findModelForClaim claimUID served legacy rest
      else if bool_decide (model.(sm_ModelName) = served)
           then findModelForClaim claimUID served (Some model) rest
           else findModelForClaim claimUID served legacy rest
  end.

Section ClaimSnapshots.
Context `{K8s}.

Definition snapshotModelForClaim (snapshot : option RuntimeSnapshot) (pm : ModelClaim)
    (served : string) : option RuntimeSnapshotModel :=
  match snapshot with
  | None => None
  | Some s => findModelForClaim pm.(mc_UID) served None s.(snap_Models)
  end.

Definition claimForRuntimeSnapshot (claims : list ModelClaim) (model : RuntimeSnapshotModel)
  : option ModelClaim :=
  match model.(sm_ClaimRef) with
  | None => None
  | Some ref =>
      if bool_decide (ref.(ref_UID) = "") then None
      else List.find (fun claim =>
             bool_decide (claim.(mc_Namespace) = ref.(ref_Namespace)) &&
             bool_decide (claim.(mc_Name) = ref.(ref_Name)) &&
             bool_decide (claim.(mc_UID) = ref.(ref_UID))) claims
  end.

Definition activeClaimInstancePort (pm : ModelClaim) (podName : string) : option Z :=
  inst_Port <$> List.find (fun instance =>
    bool_decide (instance.(inst_Pod) = podName) &&
    bool_decide (instance.(inst_Phase) = ModelClaimActive)) pm.(status_Instances).

(** The zero time when the claim is not Ready. *)
Definition routedSince (pm : ModelClaim) : Time :=
  match List.find (fun c => bool_decide (c.(cond_Type) = "Ready")) pm.(status_Conditions) with
  | Some ready => if bool_decide (ready.(cond_Status) = ConditionTrue) then ready.(cond_LastTransition) else zeroTime
  | None => zeroTime
  end.

Definition modelClaimPriority (claims : option (list ModelClaim)) (namespace name : string)
  : option Z :=
  match claims with
  | None => None
  | Some items =>
      spec_Priority <$> List.find (fun claim =>
        bool_decide (claim.(mc_Namespace) = namespace) && bool_decide (claim.(mc_Name) = name)) items
  end.

Inductive preemptionPolicy : Type := PreemptionNever | PreemptionSleepLowerPriority
  | PreemptionOther (s : string).

Definition preemptionPolicyOf (pm : ModelClaim) : preemptionPolicy :=
  if bool_decide (pm.(spec_PreemptionPolicy) = "") then PreemptionNever
  else if bool_decide (pm.(spec_PreemptionPolicy) = "Never") then PreemptionNever
  else if bool_decide (pm.(spec_PreemptionPolicy) = "SleepLowerPriority")
       then PreemptionSleepLowerPriority
  else PreemptionOther pm.(spec_PreemptionPolicy).
End ClaimSnapshots.

(** ** What the readers guarantee. *)

Lemma smallestUsable_spec s accs v :
  smallestUsable s accs = Some v →
  match s with
  | Some s0 => v ≤ s0 ∧ (∀ a, a ∈ accs → 0 < acc_HBMUsableBytes a ∧ v ≤ acc_HBMUsableBytes a)
               ∧ (v = s0 ∨ ∃ a, a ∈ accs ∧ v = acc_HBMUsableBytes a)
  | None => (∀ a, a ∈ accs → 0 < acc_HBMUsableBytes a ∧ v ≤ acc_HBMUsableBytes a)
            ∧ ∃ a, a ∈ accs ∧ v = acc_HBMUsableBytes a
  end.
Proof.
  revert s. induction accs as [|a accs IH]; intros s Hs; simpl in Hs.
  - destruct s; simplify_eq. split; [done|]. split; [set_solver|by left].
  - destruct (Z.leb_spec (acc_HBMUsableBytes a) 0); [done|].
    apply IH in Hs. destruct s as [s0|].
    + destruct (Z.ltb_spec (acc_HBMUsableBytes a) s0);
        destruct Hs as (? & Hall & Hex); (split; [lia|]);
        (split; [intros b [->|?]%elem_of_cons; [lia|by apply Hall]|]);
        destruct Hex as [->|(b & ? & ->)]; eauto;
        right; eexists; (split; [|done]); set_solver.
    + destruct Hs as (? & Hall & Hex). split.
      * intros b [->|?]%elem_of_cons; [lia|by apply Hall].
      * destruct Hex as [->|(b & ? & ->)]; eexists; (split; [|done]); set_solver.
Qed.

Section ClaimFacts.
Context `{K8sLaws}.

(** A declaration that is accepted is positive, at most a pebibyte, and the
    declared figure rounded up to whole bytes; a figure below a mebibyte is
    taken exactly. *)
Lemma ModelClaimDeclaredBytes_ok name q v :
  ModelClaimDeclaredBytes name q = Ok v →
  0 < v ≤ modelClaimMaximumDeclared ∧
  (v - 1) * 10 ^ 9 < q_nano q ≤ v * 10 ^ 9 ∧
  (q_nano q < modelClaimSmallestRounded * 10 ^ 9 → q_nano q = v * 10 ^ 9).
Proof.
  unfold ModelClaimDeclaredBytes. rewrite q_Sign_spec, !q_Cmp_spec, !q_New_spec.
  unfold modelClaimMaximumDeclared, modelClaimSmallestRounded. intros Hv.
  destruct (Z.leb_spec (Z.sgn (q_nano q)) 0); [done|].
  destruct (Z.ltb_spec 0 (Z.sgn (q_nano q - 2 ^ 50 * 10 ^ 9))); [done|].
  assert (0 < q_nano q ≤ 2 ^ 50 * 10 ^ 9) as Hq by
    (destruct (Z.sgn_spec (q_nano q)) as [?|[?|?]],
       (Z.sgn_spec (q_nano q - 2 ^ 50 * 10 ^ 9)) as [?|[?|?]]; lia).
  rewrite (q_Value_spec q) in * by lia.
  set (w := (q_nano q + (10 ^ 9 - 1)) / 10 ^ 9) in *.
  assert ((w - 1) * 10 ^ 9 < q_nano q ≤ w * 10 ^ 9) by
    (pose proof (Z.div_mod (q_nano q + (10 ^ 9 - 1)) (10 ^ 9));
     pose proof (Z.mod_pos_bound (q_nano q + (10 ^ 9 - 1)) (10 ^ 9)); lia).
  destruct (_ && _) eqn:E; simplify_eq.
  apply andb_false_iff in E. split; [lia|]. split; [lia|].
  intros Hlt. destruct E as [E|E]; breflect; [lia|]. lia.
Qed.

Lemma perGPUBytesOf_ok pm p :
  perGPUBytesOf pm = Ok p →
  0 < maximumFootprintBytes p ≤ modelClaimMaximumDeclared ∧
  0 < kvFloorBytes p ≤ modelClaimMaximumDeclared.
Proof.
  unfold perGPUBytesOf. destruct (spec_PerGPU pm); [|done].
  intros (mf & H1 & (kf & H2 & [= <-])%result_bind_ok)%result_bind_ok.
  apply ModelClaimDeclaredBytes_ok in H1, H2. simpl. lia.
Qed.
End ClaimFacts.
