(* ===== verification/Ledger.v ===== *)
(** * The GPU memory account ([pkg/controller/modelclaim/ledger.go]).

    One [podLedger] per candidate pod: how much its card can hold, what the
    instances recorded there are promised and what their engines hold now.
    [podLedgersFrom] builds the accounts from a listing of the claims and one
    pass of runtime snapshots.  The theorems say that the totals are the sums
    over the engines, that an account which may be acted on has no hole, and
    that the wake reserve of a sleeping engine can be put back and taken off
    without drift. *)

From S2P Require Import Prelude Api Claims.

Definition kvLimitUnknown : Z := -1.

(** ** One instance on a card. *)

Record engineOnPod : Type := MkEngine {
  eng_claimName : string;
  eng_modelName : string;
  (** Empty while no engine has been seen. *)
  eng_snapshotKey : string;
  eng_perGPU : perGPUBytes;
  eng_kvUsedBytes : Z;
  eng_kvCapacityBytes : Z;
  eng_kvInitialCapacityBytes : option Z;
  eng_kvRecordedBytes : Z;
  eng_inFlightRequests : Z;
  eng_requestsWaiting : Z;
  eng_demandUnknown : bool;
  eng_asleep : bool;
  eng_sleepingFootprintBytes : Z;
  eng_withoutWakeReserve : bool;
  eng_wakeReserveAsked : bool;
}.

Definition eng_maximumFootprintBytes (e : engineOnPod) : Z :=
  e.(eng_perGPU).(maximumFootprintBytes).
Definition eng_kvFloorBytes (e : engineOnPod) : Z := e.(eng_perGPU).(kvFloorBytes).

Definition effectiveKVFloorBytes (e : engineOnPod) : Z :=
  match e.(eng_kvInitialCapacityBytes) with
  | Some ceiling => if 0 <? ceiling then Z.min (eng_kvFloorBytes e) ceiling else eng_kvFloorBytes e
  | None => eng_kvFloorBytes e
  end.

Definition minimumReserveBytes (e : engineOnPod) : Z :=
  if e.(eng_withoutWakeReserve) then e.(eng_sleepingFootprintBytes)
  else eng_maximumFootprintBytes e + effectiveKVFloorBytes e.

Definition kvHeldBytes (e : engineOnPod) : Z :=
  if effectiveKVFloorBytes e <? e.(eng_kvUsedBytes) then e.(eng_kvUsedBytes)
  else effectiveKVFloorBytes e.

Definition heldBytes (e : engineOnPod) : Z :=
  if e.(eng_withoutWakeReserve) then e.(eng_sleepingFootprintBytes)
  else eng_maximumFootprintBytes e + kvHeldBytes e.

Definition plannedKVHeldBytes (e : engineOnPod) : Z :=
  if e.(eng_withoutWakeReserve) then e.(eng_kvUsedBytes) else kvHeldBytes e.

(** ** One card's account. *)

Inductive blockReason : Type :=
| RuntimeDidNotAnswer
| CardsNotMeasured
| RuntimeTooOld
| ClaimsNotListed
| ClaimUndeclared (claim : string) (why : declarationError)
| EngineStillExiting (model : string)
| EngineUnclaimed (model : string).

Record podLedger : Type := MkLedger {
  judgeable : bool;
  blocked : option blockReason;
  keepsNoWakeReserve : bool;
  unread : bool;
  hbmUsableBytes : Z;
  totalMinimumReserveBytes : Z;
  totalHeldBytes : Z;
  reservedBytes : Z;
  accelerators : Z;
  observedAt : Time;
  engines : list engineOnPod;
}.

Definition zeroLedger : podLedger := MkLedger false None false false 0 0 0 0 0 zeroTime [].

Definition maximumRoomBytes (l : podLedger) : Z :=
  l.(hbmUsableBytes) - l.(totalMinimumReserveBytes) - l.(reservedBytes).
Definition plannableBytes (l : podLedger) : Z := l.(hbmUsableBytes) - l.(reservedBytes).
Definition heldRoomBytes (l : podLedger) : Z :=
  l.(hbmUsableBytes) - l.(totalHeldBytes) - l.(reservedBytes).

(** Field updates. *)
Definition setWakeReserve (asked : bool) (e : engineOnPod) : engineOnPod :=
  MkEngine e.(eng_claimName) e.(eng_modelName) e.(eng_snapshotKey) e.(eng_perGPU)
    e.(eng_kvUsedBytes) e.(eng_kvCapacityBytes) e.(eng_kvInitialCapacityBytes)
    e.(eng_kvRecordedBytes) e.(eng_inFlightRequests) e.(eng_requestsWaiting)
    e.(eng_demandUnknown) e.(eng_asleep) e.(eng_sleepingFootprintBytes) (negb asked) asked.

Definition setTotals (l : podLedger) (reserve held : Z) (es : list engineOnPod) : podLedger :=
  MkLedger l.(judgeable) l.(blocked) l.(keepsNoWakeReserve) l.(unread) l.(hbmUsableBytes)
    reserve held l.(reservedBytes) l.(accelerators) l.(observedAt) es.

Definition addReserved (l : podLedger) (bytes : Z) : podLedger :=
  MkLedger l.(judgeable) l.(blocked) l.(keepsNoWakeReserve) l.(unread) l.(hbmUsableBytes)
    l.(totalMinimumReserveBytes) l.(totalHeldBytes) (l.(reservedBytes) + bytes)
    l.(accelerators) l.(observedAt) l.(engines).

Definition setAccelerators (l : podLedger) (n : Z) : podLedger :=
  MkLedger l.(judgeable) l.(blocked) l.(keepsNoWakeReserve) l.(unread) l.(hbmUsableBytes)
    l.(totalMinimumReserveBytes) l.(totalHeldBytes) l.(reservedBytes)
    n l.(observedAt) l.(engines).

Definition withHole (l : podLedger) (reason : blockReason) : podLedger :=
  MkLedger false (match l.(blocked) with None => Some reason | some => some end)
    l.(keepsNoWakeReserve) l.(unread) l.(hbmUsableBytes)
    l.(totalMinimumReserveBytes) l.(totalHeldBytes) l.(reservedBytes)
    l.(accelerators) l.(observedAt) l.(engines).

(** Whether [withWakeReserve] passes over an engine. *)
Definition keepsWakeReserve (claimName : string) (asked : bool) (e : engineOnPod) : bool :=
  negb (bool_decide (e.(eng_claimName) = claimName)) ||
  Bool.eqb e.(eng_wakeReserveAsked) asked ||
  (negb e.(eng_wakeReserveAsked) && negb e.(eng_withoutWakeReserve)).

(** The loop of [withWakeReserve]: the running totals and the copied engines. *)
Fixpoint wakeReserveLoop (claimName : string) (asked : bool) (reserve held : Z)
    (es : list engineOnPod) : Z * Z * list engineOnPod :=
  match es with
  | [] => (reserve, held, [])
  | e :: rest =>
      if keepsWakeReserve claimName asked e then
        let '(r, h, rest') := wakeReserveLoop claimName asked reserve held rest in
        (r, h, e :: rest')
      else
        let e' := setWakeReserve asked e in
        let '(r, h, rest') :=
          wakeReserveLoop claimName asked
            (reserve - minimumReserveBytes e + minimumReserveBytes e')
            (held - heldBytes e + heldBytes e') rest in
        (r, h, e' :: rest')
  end.

Definition withWakeReserve (l : podLedger) (claimName : string) (asked : bool) : podLedger :=
  let '(reserve, held, es) :=
    wakeReserveLoop claimName asked l.(totalMinimumReserveBytes) l.(totalHeldBytes) l.(engines) in
  setTotals l reserve held es.

Definition withoutAskedReserves (es : list engineOnPod) : list engineOnPod * bool :=
  ((fun e => if e.(eng_wakeReserveAsked) then setWakeReserve false e else e) <$> es,
   existsb eng_wakeReserveAsked es).

(** ** Taking in a reading. *)

Definition observe (e : engineOnPod) (model : RuntimeSnapshotModel) (instance : ModelClaimInstance)
  : engineOnPod :=
  let noInitial := match model.(sm_KVInitialCapacityBytes) with
                   | None => true | Some c => c <? 0 end in
  let starting := negb model.(sm_Ready) && noInitial &&
    (bool_decide (instance.(inst_Phase) = ModelClaimActivating) ||
     bool_decide (model.(sm_Phase) = "booting")) in
  let asleep := bool_decide (model.(sm_Phase) = runtimePhaseSleeping) in
  MkEngine e.(eng_claimName) e.(eng_modelName)
    (snapshotActivityKey model) e.(eng_perGPU)
    (Z.max model.(sm_KVUsedBytes) 0)
    (if starting then kvLimitUnknown else model.(sm_KVCapacityBytes))
    model.(sm_KVInitialCapacityBytes)
    e.(eng_kvRecordedBytes)
    (Z.max model.(sm_RequestsRunning) 0 + Z.max model.(sm_RequestsWaiting) 0)
    (Z.max model.(sm_RequestsWaiting) 0)
    (model.(sm_Ready) && negb model.(sm_RequestMetricsObserved) &&
     bool_decide (model.(sm_Phase) = runtimePhaseActive) &&
     bool_decide (instance.(inst_Phase) = ModelClaimActive))
    asleep
    (match sleepingFootprintOf model with
     | Some footprint => if asleep then footprint else e.(eng_sleepingFootprintBytes)
     | None => e.(eng_sleepingFootprintBytes)
     end)
    e.(eng_withoutWakeReserve) e.(eng_wakeReserveAsked).

Definition unmeasuredCards (snapshot : option RuntimeSnapshot) : blockReason :=
  match snapshot with
  | Some s =>
      if existsb (fun a => (0 <? a.(acc_HBMTotalBytes)) && (a.(acc_HBMUsableBytes) =? 0))
           s.(snap_Accelerators) then RuntimeTooOld else CardsNotMeasured
  | None => CardsNotMeasured
  end.

(** ** Building the accounts. *)

Section Build.
Context `{K8s}.
Context (snapshots : gmap string RuntimeSnapshot) (withoutWakeReserve : gset string).

(** The account of a pod before any instance is charged. *)
Definition emptyLedgerOf (pod : Pod) : podLedger :=
  let snapshot := snapshots !! pod.(pod_Name) in
  let keepsNone := bool_decide (pod.(pod_Name) ∈ withoutWakeReserve) in
  match snapshot with
  | None => MkLedger false (Some RuntimeDidNotAnswer) keepsNone true 0 0 0 0 0 zeroTime []
  | Some s =>
      match snapshot_hbmUsableBytes snapshot with
      | None => MkLedger false (Some (unmeasuredCards snapshot)) keepsNone false 0 0 0 0
                  (reportedAccelerators snapshot) zeroTime []
      | Some usable => MkLedger true None keepsNone false usable 0 0 0
                         (reportedAccelerators snapshot) s.(snap_ObservedAt) []
      end
  end.

Definition emptyLedgers (candidates : list Pod) : gmap string podLedger :=
  foldl (fun ledgers pod => <[pod.(pod_Name) := emptyLedgerOf pod]> ledgers) ∅ candidates.

Definition unlistedLedger (l : podLedger) : podLedger :=
  let l' := if l.(unread) then l
            else MkLedger l.(judgeable) None l.(keepsNoWakeReserve) true l.(hbmUsableBytes)
                   l.(totalMinimumReserveBytes) l.(totalHeldBytes) l.(reservedBytes)
                   l.(accelerators) l.(observedAt) l.(engines) in
  withHole l' ClaimsNotListed.

Definition podsByName (candidates : list Pod) : gmap string Pod :=
  foldl (fun pods pod => <[pod.(pod_Name) := pod]> pods) ∅ candidates.

(** What [perGPUBytesOf] returns next to an error: nothing declared. *)
Definition declaredOrZero (claim : ModelClaim) : perGPUBytes :=
  match perGPUBytesOf claim with Ok p => p | Err _ => MkPerGPUBytes 0 0 end.

(** The engine of one instance, before its wake reserve is settled, and
    whether the runtime lists it and reports it alive. *)
Definition engineOfInstance (claim : ModelClaim) (instance : ModelClaimInstance)
  : engineOnPod * option RuntimeSnapshotModel :=
  let served := servedModelName claim in
  let engine := MkEngine claim.(mc_Name) served "" (declaredOrZero claim) 0 kvLimitUnknown None
                  instance.(inst_KVLimitBytes) 0 0 false false 0 false false in
  match snapshotModelForClaim (snapshots !! instance.(inst_Pod)) claim served with
  | Some model => (observe engine model instance, Some model)
  | None => (engine, None)
  end.

Definition settleWakeReserve (keepsNone asked : bool) (e : engineOnPod) : engineOnPod :=
  MkEngine e.(eng_claimName) e.(eng_modelName) e.(eng_snapshotKey) e.(eng_perGPU)
    e.(eng_kvUsedBytes) e.(eng_kvCapacityBytes) e.(eng_kvInitialCapacityBytes)
    e.(eng_kvRecordedBytes) e.(eng_inFlightRequests) e.(eng_requestsWaiting)
    e.(eng_demandUnknown) e.(eng_asleep) e.(eng_sleepingFootprintBytes)
    (keepsNone && negb asked) (keepsNone && asked).

(** The engine an instance is charged for; [None] when its memory is back with
    the card. *)
Definition chargedEngine (pods : gmap string Pod) (claim : ModelClaim)
    (instance : ModelClaimInstance) : option engineOnPod :=
  let '(engine, model) := engineOfInstance claim instance in
  let alive := match model with Some m => m.(sm_Alive) | None => false end in
  if bool_decide (instance.(inst_Phase) = ModelClaimFailed) &&
     (bool_decide (engine.(eng_snapshotKey) = "") || negb alive) then None
  else
    let keepsNone := bool_decide (instance.(inst_Pod) ∈ withoutWakeReserve) &&
                     (0 <? engine.(eng_sleepingFootprintBytes)) in
    let asked := wakeAsked (pods !! instance.(inst_Pod)) claim.(mc_Name) in
    Some (settleWakeReserve keepsNone asked engine).

(** Charging one instance to its account. *)
Definition chargeEngine (claim : ModelClaim) (engine : engineOnPod) (l : podLedger) : podLedger :=
  let l1 := match perGPUBytesOf claim with
            | Err why => withHole l (ClaimUndeclared claim.(mc_Name) why)
            | Ok _ => l
            end in
  setTotals l1 (l1.(totalMinimumReserveBytes) + minimumReserveBytes engine)
    (l1.(totalHeldBytes) + heldBytes engine) (l1.(engines) ++ [engine]).

Definition accounts : Type := gmap string podLedger * gmap string (gset string).

Definition chargeInstance (pods : gmap string Pod) (claim : ModelClaim) (acc : accounts)
    (instance : ModelClaimInstance) : accounts :=
  let '(ledgers, accounted) := acc in
  match ledgers !! instance.(inst_Pod) with
  | None => acc
  | Some ledger =>
      let ledger := if (0 <? instance.(inst_KVLimitBytes)) && (ledger.(accelerators) =? 0)
                    then setAccelerators ledger 1 else ledger in
      let accounted :=
        match engineOfInstance claim instance with
        | (engine, Some _) =>
            <[instance.(inst_Pod) := {[engine.(eng_snapshotKey)]} ∪
                default ∅ (accounted !! instance.(inst_Pod))]> accounted
        | (_, None) => accounted
        end in
      match chargedEngine pods claim instance with
      | None => (<[instance.(inst_Pod) := ledger]> ledgers, accounted)
      | Some engine =>
          (<[instance.(inst_Pod) := chargeEngine claim engine ledger]> ledgers, accounted)
      end
  end.

Definition chargeClaim (pods : gmap string Pod) (acc : accounts) (claim : ModelClaim) : accounts :=
  foldl (chargeInstance pods claim) acc claim.(status_Instances).

(** The hole an unclaimed engine leaves, if one does: the scan stops at the
    first. *)
Fixpoint unclaimedHole (known : gset string) (models : list RuntimeSnapshotModel)
  : option blockReason :=
  match models with
  | [] => None
  | model :: rest =>
      if bool_decide (snapshotActivityKey model ∈ known) then unclaimedHole known rest
      else if bool_decide (model.(sm_Phase) = runtimePhaseStopping)
           then Some (EngineStillExiting model.(sm_ModelName))
      else if bool_decide (model.(sm_Phase) = runtimePhaseFailed) && negb model.(sm_Alive)
           then unclaimedHole known rest
      else Some (EngineUnclaimed model.(sm_ModelName))
  end.

Definition closeAccount (accounted : gmap string (gset string)) (name : string) (l : podLedger)
  : podLedger :=
  match unclaimedHole (default ∅ (accounted !! name)) (snapshot_models (snapshots !! name)) with
  | Some reason => withHole l reason
  | None => l
  end.

(** [claims] is [None] when they could not be listed. *)
Definition podLedgersFrom (claims : option (list ModelClaim)) (candidates : list Pod)
  : gmap string podLedger :=
  match claims with
  | None => unlistedLedger <$> emptyLedgers candidates
  | Some items =>
      let '(ledgers, accounted) :=
        foldl (chargeClaim (podsByName candidates)) (emptyLedgers candidates, ∅) items in
      map_imap (fun name l => Some (closeAccount accounted name l)) ledgers
  end.
End Build.

(** ** The account adds up. *)

(** The totals of an account are the sums over its engines. *)
Definition balanced (l : podLedger) : Prop :=
  l.(totalMinimumReserveBytes) = sumZ minimumReserveBytes l.(engines) ∧
  l.(totalHeldBytes) = sumZ heldBytes l.(engines).

Lemma withHole_balanced l r : balanced (withHole l r) ↔ balanced l.
Proof. done. Qed.

Lemma setAccelerators_balanced l n : balanced (setAccelerators l n) ↔ balanced l.
Proof. done. Qed.

Lemma addReserved_balanced l b : balanced (addReserved l b) ↔ balanced l.
Proof. done. Qed.

#[export] Hint Resolve <- withHole_balanced setAccelerators_balanced addReserved_balanced : aibrix.

Lemma wakeReserveLoop_sums claimName asked reserve held es r h es' :
  wakeReserveLoop claimName asked reserve held es = (r, h, es') →
  r - sumZ minimumReserveBytes es' = reserve - sumZ minimumReserveBytes es ∧
  h - sumZ heldBytes es' = held - sumZ heldBytes es.
Proof.
  revert reserve held r h es'.
  induction es as [|e es IH]; intros reserve held r h es' Hl; simpl in Hl; [by simplify_eq|].
  destruct (keepsWakeReserve claimName asked e);
    destruct (wakeReserveLoop _ _ _ _ es) as [[r1 h1] es1] eqn:E; simplify_eq;
    apply IH in E; simpl; lia.
Qed.

Lemma withWakeReserve_balanced l claimName asked :
  balanced l → balanced (withWakeReserve l claimName asked).
Proof.
  intros [H1 H2]. unfold withWakeReserve.
  destruct (wakeReserveLoop _ _ _ _ _) as [[r h] es] eqn:E.
  apply wakeReserveLoop_sums in E. split; simpl; lia.
Qed.
#[export] Hint Resolve withWakeReserve_balanced : aibrix.

(** Which engines [withWakeReserve] leaves on the account. *)
Definition reserveSet (claimName : string) (asked : bool) (e : engineOnPod) : engineOnPod :=
  if keepsWakeReserve claimName asked e then e else setWakeReserve asked e.

Lemma wakeReserveLoop_engines claimName asked reserve held es :
  (wakeReserveLoop claimName asked reserve held es).2 = reserveSet claimName asked <$> es.
Proof.
  revert reserve held. induction es as [|e es IH]; intros reserve held; simpl; [done|].
  unfold reserveSet at 1.
  destruct (keepsWakeReserve claimName asked e);
    match goal with |- context [wakeReserveLoop ?a ?b ?c ?d es] =>
      specialize (IH c d); destruct (wakeReserveLoop a b c d es) as [[? ?] ?] end;
    simpl in *; by rewrite IH.
Qed.

Lemma withWakeReserve_engines l claimName asked :
  engines (withWakeReserve l claimName asked) = reserveSet claimName asked <$> engines l.
Proof.
  unfold withWakeReserve.
  pose proof (wakeReserveLoop_engines claimName asked (totalMinimumReserveBytes l)
    (totalHeldBytes l) (engines l)) as HE.
  by destruct (wakeReserveLoop _ _ _ _ _) as [[? ?] ?].
Qed.

Lemma reserveSet_back claimName e :
  reserveSet claimName false (reserveSet claimName true e) = reserveSet claimName false e.
Proof.
  destruct e as [cn mn sk pg ku kc ki kr fl rw du sl sf wo wa].
  unfold reserveSet, keepsWakeReserve, setWakeReserve; simpl.
  destruct (bool_decide (cn = claimName)) eqn:E; simpl; rewrite ?E; simpl; [|done].
  destruct wo, wa; simpl; rewrite ?E; done.
Qed.

Lemma reserveSet_forth claimName e :
  (eng_claimName e = claimName → eng_withoutWakeReserve e = false) →
  reserveSet claimName true (reserveSet claimName false e) = e.
Proof.
  destruct e as [cn mn sk pg ku kc ki kr fl rw du sl sf wo wa].
  unfold reserveSet, keepsWakeReserve, setWakeReserve; simpl.
  destruct (bool_decide (cn = claimName)) eqn:E; simpl; rewrite ?E; simpl; [|done].
  intros Hwo. rewrite Hwo by (by apply bool_decide_eq_true in E).
  destruct wa; simpl; rewrite ?E; done.
Qed.

(** An account is determined by its engines and the card. *)
Lemma balanced_eq l l' :
  balanced l → balanced l' → engines l = engines l' →
  setTotals l 0 0 [] = setTotals l' 0 0 [] → l = l'.
Proof.
  intros [H1 H2] [H3 H4] He Hr. destruct l, l'; simpl in *. simplify_eq. by f_equal; congruence.
Qed.

Lemma withWakeReserve_rest l claimName asked :
  setTotals (withWakeReserve l claimName asked) 0 0 [] = setTotals l 0 0 [].
Proof. unfold withWakeReserve. by destruct (wakeReserveLoop _ _ _ _ _) as [[? ?] ?]. Qed.

(** Engines that hold sensible figures: what is declared is positive, and what
    a runtime measured is not negative. *)
Definition engineSane (e : engineOnPod) : Prop :=
  0 < eng_maximumFootprintBytes e ∧ 0 < eng_kvFloorBytes e ∧
  0 ≤ e.(eng_kvUsedBytes) ∧ 0 ≤ e.(eng_sleepingFootprintBytes).

Lemma effectiveKVFloor_pos e : engineSane e → 0 < effectiveKVFloorBytes e ≤ eng_kvFloorBytes e.
Proof.
  intros (_ & ? & _). unfold effectiveKVFloorBytes.
  destruct (eng_kvInitialCapacityBytes e) as [c|]; [|lia].
  destruct (Z.ltb_spec 0 c); lia.
Qed.

Lemma kvHeldBytes_max e : kvHeldBytes e = Z.max (effectiveKVFloorBytes e) (eng_kvUsedBytes e).
Proof. unfold kvHeldBytes. destruct (Z.ltb_spec (effectiveKVFloorBytes e) (eng_kvUsedBytes e)); lia. Qed.

Lemma reserve_le_held e : minimumReserveBytes e ≤ heldBytes e.
Proof.
  unfold minimumReserveBytes, heldBytes. rewrite kvHeldBytes_max.
  destruct (eng_withoutWakeReserve e); lia.
Qed.

Lemma reserve_nonneg e : engineSane e → 0 ≤ minimumReserveBytes e.
Proof.
  intros He. pose proof (effectiveKVFloor_pos e He). destruct He as (? & ? & ? & ?).
  unfold minimumReserveBytes. destruct (eng_withoutWakeReserve e); lia.
Qed.

(** What a card offers now is never more than it could ever offer. *)
Lemma heldRoom_le_maximumRoom l : balanced l → heldRoomBytes l ≤ maximumRoomBytes l.
Proof.
  intros [H1 H2]. unfold heldRoomBytes, maximumRoomBytes. rewrite H1, H2.
  pose proof (sumZ_le minimumReserveBytes heldBytes (engines l) (fun e _ => reserve_le_held e)). lia.
Qed.

(** ** What [podLedgersFrom] builds. *)

Section BuildFacts.
Context `{K8s}.
Context (snapshots : gmap string RuntimeSnapshot) (withoutWakeReserve : gset string).

(** Every instance of a listing, with its claim, in the order it is charged. *)
Definition records (items : list ModelClaim) : list (ModelClaim * ModelClaimInstance) :=
  items ≫= fun claim => (claim,.) <$> claim.(status_Instances).

Definition recordsOn (name : string) (items : list ModelClaim)
  : list (ModelClaim * ModelClaimInstance) :=
  filter (fun ci => ci.2.(inst_Pod) = name) (records items).

(** The engines charged to one card: one for each instance recorded there whose
    memory is not back with the card. *)
Definition chargedOn (pods : gmap string Pod) (name : string) (items : list ModelClaim)
  : list engineOnPod :=
  omap (fun ci => chargedEngine snapshots withoutWakeReserve pods ci.1 ci.2) (recordsOn name items).

Definition declares (claim : ModelClaim) : bool := is_ok (perGPUBytesOf claim).

Definition chargeRecord (pods : gmap string Pod) (l : podLedger)
    (ci : ModelClaim * ModelClaimInstance) : podLedger :=
  let l1 := if (0 <? ci.2.(inst_KVLimitBytes)) && (l.(accelerators) =? 0)
            then setAccelerators l 1 else l in
  match chargedEngine snapshots withoutWakeReserve pods ci.1 ci.2 with
  | None => l1
  | Some engine => chargeEngine ci.1 engine l1
  end.

Definition accountRecord (known : gset string) (ci : ModelClaim * ModelClaimInstance) : gset string :=
  match engineOfInstance snapshots ci.1 ci.2 with
  | (engine, Some _) => {[engine.(eng_snapshotKey)]} ∪ known
  | (_, None) => known
  end.

Lemma foldl_chargeClaim pods items acc :
  foldl (chargeClaim snapshots withoutWakeReserve pods) acc items =
  foldl (fun acc ci => chargeInstance snapshots withoutWakeReserve pods ci.1 acc ci.2) acc
    (records items).
Proof.
  revert acc. induction items as [|claim items IH]; intros acc; [done|].
  unfold records in *. csimpl. rewrite IH, foldl_app. f_equal. unfold chargeClaim.
  generalize (status_Instances claim). clear.
  intros l. revert acc. induction l as [|i l IH]; intros acc; csimpl; [done|]. apply IH.
Qed.

(** One pod's account depends on the records of that pod only. *)
Lemma foldl_charge_lookup pods name rs acc l0 :
  acc.1 !! name = Some l0 →
  let acc' := foldl (fun acc ci =>
    chargeInstance snapshots withoutWakeReserve pods ci.1 acc ci.2) acc rs in
  let mine := filter (fun ci : ModelClaim * ModelClaimInstance => ci.2.(inst_Pod) = name) rs in
  acc'.1 !! name = Some (foldl (chargeRecord pods) l0 mine) ∧
  default ∅ (acc'.2 !! name) = foldl accountRecord (default ∅ (acc.2 !! name)) mine.
Proof.
  revert acc l0. induction rs as [|[claim instance] rs IH]; intros [ledgers accounted] l0 Hl; [done|].
  cbn [foldl fst snd] in *.
  set (acc1 := chargeInstance snapshots withoutWakeReserve pods claim (ledgers, accounted) instance).
  destruct (decide (inst_Pod instance = name)) as [<-|Hne].
  - assert (acc1.1 !! inst_Pod instance = Some (chargeRecord pods l0 (claim, instance)) ∧
            default ∅ (acc1.2 !! inst_Pod instance) =
            accountRecord (default ∅ (accounted !! inst_Pod instance)) (claim, instance))
      as [H1 H2].
    { unfold acc1, chargeInstance, chargeRecord, accountRecord. rewrite Hl. simpl.
      destruct (engineOfInstance snapshots claim instance) as [e [m|]];
        destruct (chargedEngine _ _ _ _ _); simpl; by simplify_map_eq. }
    destruct (IH acc1 _ H1) as [IH1 IH2]. rewrite filter_cons_True by done. simpl. by rewrite <- H2.
  - rewrite filter_cons_False by done.
    assert (acc1.1 !! name = Some l0 ∧ acc1.2 !! name = accounted !! name) as [H1 H2].
    { unfold acc1, chargeInstance. destruct (ledgers !! inst_Pod instance); [|done].
      destruct (engineOfInstance snapshots claim instance) as [e [m|]];
        destruct (chargedEngine _ _ _ _ _); simpl; by simplify_map_eq. }
    destruct (IH acc1 _ H1) as [IH1 IH2]. by rewrite H2 in IH2.
Qed.

Lemma emptyLedgers_lookup candidates name :
  emptyLedgers snapshots withoutWakeReserve candidates !! name =
  emptyLedgerOf snapshots withoutWakeReserve <$> podsByName candidates !! name.
Proof.
  unfold emptyLedgers, podsByName.
  assert (∀ (m : gmap string podLedger) (p : gmap string Pod),
    m !! name = emptyLedgerOf snapshots withoutWakeReserve <$> p !! name →
    foldl (fun ledgers pod => <[pod_Name pod := emptyLedgerOf snapshots withoutWakeReserve pod]> ledgers)
      m candidates !! name =
    emptyLedgerOf snapshots withoutWakeReserve <$>
      foldl (fun pods pod => <[pod_Name pod := pod]> pods) p candidates !! name) as Hgen.
  { induction candidates as [|pod candidates IH]; intros m p Hm; simpl; [done|].
    apply IH. destruct (decide (pod_Name pod = name)) as [<-|]; by simplify_map_eq. }
  apply Hgen. by rewrite !lookup_empty.
Qed.

Lemma podsByName_name candidates name pod :
  podsByName candidates !! name = Some pod → pod_Name pod = name ∧ pod ∈ candidates.
Proof.
  unfold podsByName.
  assert (∀ p : gmap string Pod,
    (∀ n q, p !! n = Some q → pod_Name q = n ∧ q ∈ candidates) →
    ∀ cs, (∀ q, q ∈ cs → q ∈ candidates) → ∀ n q,
    foldl (fun pods pod => <[pod_Name pod := pod]> pods) p cs !! n = Some q →
    pod_Name q = n ∧ q ∈ candidates) as Hgen.
  { intros p Hp cs. revert p Hp. induction cs as [|c cs IH]; intros p Hp Hcs n q; simpl; [by apply Hp|].
    apply IH; [|set_solver]. intros n' q'. destruct (decide (pod_Name c = n')) as [<-|];
      intros; simplify_map_eq; [set_solver|by apply Hp]. }
  apply Hgen; [|done]. intros n q. by rewrite lookup_empty.
Qed.

(** What one record adds to an account. *)
Lemma chargeRecord_spec pods l0 ci :
  let l := chargeRecord pods l0 ci in
  engines l = engines l0 ++
    option_list (chargedEngine snapshots withoutWakeReserve pods ci.1 ci.2) ∧
  (balanced l0 → balanced l) ∧
  hbmUsableBytes l = hbmUsableBytes l0 ∧ reservedBytes l = reservedBytes l0 ∧
  unread l = unread l0 ∧ observedAt l = observedAt l0 ∧
  judgeable l = judgeable l0 &&
    (declares ci.1 || bool_decide (chargedEngine snapshots withoutWakeReserve pods ci.1 ci.2 = None)).
Proof.
  unfold chargeRecord. set (l1 := if _ && _ then setAccelerators l0 1 else l0).
  assert (engines l1 = engines l0 ∧ (balanced l0 → balanced l1) ∧
    hbmUsableBytes l1 = hbmUsableBytes l0 ∧ reservedBytes l1 = reservedBytes l0 ∧
    unread l1 = unread l0 ∧ observedAt l1 = observedAt l0 ∧ judgeable l1 = judgeable l0)
    as (E1 & E2 & E3 & E4 & E5 & E6 & E7) by (unfold l1; by destruct (_ && _)).
  destruct (chargedEngine _ _ _ _ _) as [e|]; simpl;
    [|rewrite orb_true_r, andb_true_r, app_nil_r; split_and!; done].
  unfold chargeEngine, declares. destruct (perGPUBytesOf ci.1) as [p|why]; simpl;
    rewrite ?andb_true_r, ?andb_false_r, E1; split_and!; try done;
    intros Hl0; destruct (E2 Hl0) as [B1 B2]; split; simpl;
    rewrite <- E1, sumZ_app; simpl; lia.
Qed.

Lemma foldl_chargeRecord pods rs l0 :
  let l := foldl (chargeRecord pods) l0 rs in
  engines l = engines l0 ++
    omap (fun ci => chargedEngine snapshots withoutWakeReserve pods ci.1 ci.2) rs ∧
  (balanced l0 → balanced l) ∧
  hbmUsableBytes l = hbmUsableBytes l0 ∧ reservedBytes l = reservedBytes l0 ∧
  unread l = unread l0 ∧ observedAt l = observedAt l0 ∧
  judgeable l = judgeable l0 && forallb (fun ci : ModelClaim * ModelClaimInstance =>
    declares ci.1 || bool_decide (chargedEngine snapshots withoutWakeReserve pods ci.1 ci.2 = None)) rs.
Proof.
  revert l0. induction rs as [|ci rs IH]; intros l0; simpl.
  { rewrite app_nil_r, andb_true_r. done. }
  destruct (IH (chargeRecord pods l0 ci)) as (-> & Hb & -> & -> & -> & -> & ->).
  destruct (chargeRecord_spec pods l0 ci) as (-> & Hb1 & -> & -> & -> & -> & ->).
  split_and!; [|auto|done..|by rewrite andb_assoc].
  rewrite <- app_assoc. f_equal. by destruct (chargedEngine _ _ _ _ _).
Qed.

Lemma podLedgersFrom_spec items candidates name l :
  podLedgersFrom snapshots withoutWakeReserve (Some items) candidates !! name = Some l →
  ∃ pod, podsByName candidates !! name = Some pod ∧
    let l0 := emptyLedgerOf snapshots withoutWakeReserve pod in
    engines l = chargedOn (podsByName candidates) name items ∧ balanced l ∧
    hbmUsableBytes l = hbmUsableBytes l0 ∧ reservedBytes l = 0 ∧
    unread l = unread l0 ∧ observedAt l = observedAt l0 ∧
    judgeable l = judgeable l0 &&
      forallb (fun ci : ModelClaim * ModelClaimInstance => declares ci.1 ||
        bool_decide (chargedEngine snapshots withoutWakeReserve (podsByName candidates) ci.1 ci.2 = None))
        (recordsOn name items) &&
      bool_decide (unclaimedHole (foldl accountRecord ∅ (recordsOn name items))
        (snapshot_models (snapshots !! name)) = None).
Proof.
  unfold podLedgersFrom. rewrite foldl_chargeClaim.
  set (pods := podsByName candidates).
  set (acc := foldl _ _ (records items)). destruct acc as [ledgers accounted] eqn:Eacc.
  rewrite map_lookup_imap. intros (l1 & Hl1 & [= <-])%bind_Some.
  assert (∃ pod, pods !! name = Some pod) as [pod Hpod].
  { destruct (pods !! name) as [pod|] eqn:Hpod; [by eauto|exfalso].
    assert (emptyLedgers snapshots withoutWakeReserve candidates !! name = None) as Hnone
      by (by rewrite emptyLedgers_lookup; fold pods; rewrite Hpod).
    assert (∀ rs a, a.1 !! name = None →
      (foldl (fun acc ci => chargeInstance snapshots withoutWakeReserve pods ci.1 acc ci.2) a rs).1
        !! name = None) as Hgen.
    { induction rs as [|[c i] rs IH]; intros [m a] Hm; simpl in *; [done|]. apply IH.
      unfold chargeInstance. destruct (m !! inst_Pod i) eqn:E; [|done].
      assert (inst_Pod i ≠ name) by (intros <-; congruence).
      destruct (engineOfInstance snapshots c i) as [? [?|]];
        destruct (chargedEngine _ _ _ _ _); simpl; by simplify_map_eq. }
    specialize (Hgen (records items) (_, ∅) Hnone). unfold acc in Eacc. rewrite Eacc in Hgen.
    simpl in Hgen. congruence. }
  exists pod. split; [done|].
  destruct (foldl_charge_lookup pods name (records items)
    (emptyLedgers snapshots withoutWakeReserve candidates, ∅)
    (emptyLedgerOf snapshots withoutWakeReserve pod)) as [H1 H2].
  { simpl. rewrite emptyLedgers_lookup. fold pods. by rewrite Hpod. }
  unfold acc in Eacc. rewrite Eacc in H1, H2. simpl in H1, H2.
  rewrite lookup_empty in H2. simpl in H2. rewrite Hl1 in H1. simplify_eq.
  fold (recordsOn name items) in *.
  destruct (foldl_chargeRecord pods (recordsOn name items)
    (emptyLedgerOf snapshots withoutWakeReserve pod)) as (F1 & F2 & F3 & F4 & F5 & F6 & F7).
  assert (balanced (emptyLedgerOf snapshots withoutWakeReserve pod) ∧
    engines (emptyLedgerOf snapshots withoutWakeReserve pod) = [] ∧
    reservedBytes (emptyLedgerOf snapshots withoutWakeReserve pod) = 0) as (G1 & G2 & G3).
  { unfold emptyLedgerOf. destruct (snapshots !! pod_Name pod) as [sn|]; [|done].
    by destruct (snapshot_hbmUsableBytes (Some sn)). }
  unfold closeAccount. rewrite H2.
  destruct (unclaimedHole _ _) as [r|]; simpl; rewrite ?andb_true_r, ?andb_false_r;
    (split_and!; [etrans; [exact F1|by rewrite G2]|by apply F2|exact F3|by etrans; [exact F4|]
       |exact F5|exact F6|try exact F7; done]).
Qed.

Lemma accountRecord_known rs known k :
  k ∈ foldl accountRecord known rs →
  k ∈ known ∨ ∃ ci m, ci ∈ rs ∧
    snapshotModelForClaim (snapshots !! inst_Pod ci.2) ci.1 (servedModelName ci.1) = Some m ∧
    snapshotActivityKey m = k.
Proof.
  revert known. induction rs as [|ci rs IH]; intros known Hk; simpl in Hk; [by left|].
  apply IH in Hk as [Hk|(ci' & m & ? & ? & ?)]; [|right; exists ci', m; set_solver].
  unfold accountRecord, engineOfInstance in Hk.
  destruct (snapshotModelForClaim _ _ _) as [m|] eqn:E; [|by left].
  apply elem_of_union in Hk as [Hk|Hk]; [|by left].
  apply elem_of_singleton in Hk. right. exists ci, m. split; [set_solver|done].
Qed.

Lemma unclaimedHole_none known models m :
  unclaimedHole known models = None → m ∈ models →
  snapshotActivityKey m ∈ known ∨ (sm_Phase m = runtimePhaseFailed ∧ sm_Alive m = false).
Proof.
  induction models as [|m' models IH]; intros Hn Hm; [set_solver|]. simpl in Hn.
  apply elem_of_cons in Hm as [->|Hm]; repeat case_bool_decide; simplify_eq/=; auto;
    destruct (sm_Alive m') eqn:Ha; simplify_eq/=; auto.
Qed.

Lemma chargedEngine_sane pods claim instance e :
  chargedEngine snapshots withoutWakeReserve pods claim instance = Some e →
  eng_claimName e = mc_Name claim ∧ eng_perGPU e = declaredOrZero claim ∧
  0 ≤ eng_kvUsedBytes e ∧ 0 ≤ eng_sleepingFootprintBytes e ∧
  (eng_withoutWakeReserve e || eng_wakeReserveAsked e = true →
   eng_asleep e = true ∧ 0 < eng_sleepingFootprintBytes e).
Proof.
  unfold chargedEngine, engineOfInstance.
  destruct (snapshotModelForClaim _ _ _) as [m|]; simpl.
  - destruct (_ && _); [done|]. intros [= <-]. simpl.
    split_and!; [done|done|lia|unfold sleepingFootprintOf..].
    + destruct (sm_SleepingFootprintBytes m) as [f|]; [|done].
      destruct (Z.leb_spec f 0); [done|]. destruct (bool_decide _); lia.
    + destruct (sm_SleepingFootprintBytes m) as [f|]; [|by rewrite !andb_false_r].
      destruct (Z.leb_spec f 0); [by rewrite !andb_false_r|].
      destruct (bool_decide (sm_Phase m = _)); [|by rewrite !andb_false_r].
      intros _. split; [done|lia].
  - destruct (_ && _); [done|]. intros [= <-]. simpl. split_and!; try done.
    by rewrite !andb_false_r.
Qed.
End BuildFacts.

(** ** Properties. *)


(** An account that may be acted on has no hole.  The card was measured in
    this pass, every engine on it belongs to a claim that declares usable
    figures of at most a pebibyte, and every engine the runtime lists is charged
    to a claim recorded there, unless it failed for good and is dead. *)
Theorem judgeable_ledger_has_no_hole `{K8sLaws} snapshots withoutWakeReserve items candidates name l :
  podLedgersFrom snapshots withoutWakeReserve (Some items) candidates !! name = Some l →
  judgeable l = true →
  (∃ s, snapshots !! name = Some s ∧
    snapshot_hbmUsableBytes (Some s) = Some (hbmUsableBytes l) ∧ 0 < hbmUsableBytes l ∧
    ∀ m, m ∈ snap_Models s →
      (sm_Phase m = runtimePhaseFailed ∧ sm_Alive m = false) ∨
      ∃ claim instance m', claim ∈ items ∧ instance ∈ status_Instances claim ∧
        inst_Pod instance = name ∧
        snapshotModelForClaim (Some s) claim (servedModelName claim) = Some m' ∧
        snapshotActivityKey m' = snapshotActivityKey m) ∧
  (∀ e, e ∈ engines l → engineSane e ∧
    eng_maximumFootprintBytes e ≤ modelClaimMaximumDeclared ∧
    eng_kvFloorBytes e ≤ modelClaimMaximumDeclared).
Proof.
  intros (pod & Hpod & HE & _ & HU & _ & _ & _ & HJ)%podLedgersFrom_spec Hj.
  rewrite HJ in Hj. apply andb_true_iff in Hj as [[Hj Hd]%andb_true_iff Hc].
  apply podsByName_name in Hpod as Hname. destruct Hname as [<- _]. split.
  - unfold emptyLedgerOf in HU, Hj. destruct (snapshots !! pod_Name pod) as [s|] eqn:Hs; [|done].
    destruct (snapshot_hbmUsableBytes (Some s)) as [u|] eqn:Hu; [|done]. simpl in HU. subst u.
    exists s. split_and!; [done|done| |].
    + apply smallestUsable_spec in Hu as [Hall (a & Ha & ->)]. by apply Hall.
    + intros m Hm. apply bool_decide_eq_true in Hc.
      destruct (unclaimedHole_none _ _ m Hc Hm) as [Hk|?]; [|by left]. right.
      apply accountRecord_known in Hk as [Hk|([claim instance] & m' & Hci & Hm' & ?)]; [set_solver|].
      unfold recordsOn in Hci. apply list_elem_of_filter in Hci as [Hp Hci].
      simpl in *. rewrite Hp, Hs in Hm'. unfold records in Hci.
      apply list_elem_of_bind in Hci as (claim' & Hin & Hcl).
      apply list_elem_of_fmap in Hin as (i & ? & Hi). simplify_eq. by eauto 10.
  - intros e He. rewrite HE in He. unfold chargedOn in He.
    apply list_elem_of_omap in He as ([claim instance] & Hci & Hch).
    rewrite forallb_forall in Hd. specialize (Hd (claim, instance)).
    rewrite <- list_elem_of_In in Hd. specialize (Hd Hci). simpl in *.
    apply orb_true_iff in Hd as [Hd|Hd]; [|apply bool_decide_eq_true in Hd; congruence].
    apply chargedEngine_sane in Hch as (_ & Hp & ? & ? & _).
    unfold engineSane, eng_maximumFootprintBytes, eng_kvFloorBytes. rewrite Hp.
    unfold declares, declaredOrZero in *.
    destruct (perGPUBytesOf claim) as [p|] eqn:Hpg; [|done].
    apply perGPUBytesOf_ok in Hpg. lia.
Qed.

(** While the claims cannot be listed, no card may be acted on: every
    account is marked unread and turned away, whatever its runtime reported. *)
Theorem unlisted_claims_block_every_pod `{K8s} snapshots withoutWakeReserve candidates name l :
  podLedgersFrom snapshots withoutWakeReserve None candidates !! name = Some l →
  judgeable l = false ∧ unread l = true ∧
  blocked l = Some (if bool_decide (is_Some (snapshots !! name)) then ClaimsNotListed
                    else RuntimeDidNotAnswer).
Proof.
  unfold podLedgersFrom. rewrite lookup_fmap, emptyLedgers_lookup.
  destruct (podsByName candidates !! name) as [pod|] eqn:Hpod; [|done].
  apply podsByName_name in Hpod as [<- _]. intros [= <-].
  unfold unlistedLedger, emptyLedgerOf.
  destruct (snapshots !! pod_Name pod) as [s|]; simpl; [|done].
  destruct (smallestUsable None (snap_Accelerators s)); simpl; split_and!; done.
Qed.

(** The wake reserve of a sleeping engine is put back and taken off without
    drift: taking off a reserve that was just put back gives the same account as
    never putting it back, putting back one that was asked for restores the
    account bit for bit, and the totals stay the sums over the engines. *)
Theorem withWakeReserve_roundtrip l claimName :
  balanced l →
  (∀ asked, balanced (withWakeReserve l claimName asked)) ∧
  withWakeReserve (withWakeReserve l claimName true) claimName false =
    withWakeReserve l claimName false ∧
  ((∀ e, e ∈ engines l → eng_claimName e = claimName → eng_withoutWakeReserve e = false) →
   withWakeReserve (withWakeReserve l claimName false) claimName true = l).
Proof.
  intros HB. split; [auto with aibrix|]. split.
  - apply balanced_eq; auto with aibrix.
    + rewrite !withWakeReserve_engines, <- list_fmap_compose.
      apply list_fmap_ext. intros i e _. apply reserveSet_back.
    + by rewrite !withWakeReserve_rest.
  - intros Hk. apply balanced_eq; auto with aibrix.
    + rewrite !withWakeReserve_engines, <- list_fmap_compose.
      rewrite <- (list_fmap_id (engines l)) at 2. apply list_fmap_ext.
      intros i e He. apply reserveSet_forth. intros Hc. eapply Hk; [|done].
      by eapply list_elem_of_lookup_2.
    + by rewrite !withWakeReserve_rest.
Qed.

(** ** A card with a sleeping engine, for the witnesses. *)

Section Witnesses.
Local Existing Instance NanoK8s.
Local Existing Instance NanoK8sLaws.

Definition exGiB : Z := 2 ^ 30.

Definition exClaim (name : string) (phase : ModelClaimPhase) : ModelClaim :=
  MkModelClaim "ns" name (String.append "uid-" name) 1 0 None None (Some []) "hf://m" "vllm" None 0 ""
    ∅ (Some (MkPerGPU (20 * exGiB * 10 ^ 9) (2 * exGiB * 10 ^ 9)))
    phase [MkInstance "pod-a" 9000 phase (8 * exGiB) ""] [] 1 1 1 "1" [ModelClaimFinalizer].

Definition exModel (name phase : string) : RuntimeSnapshotModel :=
  MkSnapshotModel name (Some (MkClaimRef "ns" name (String.append "uid-" name)))
    (String.append "kvc_" name) phase true true None (3 * exGiB) (8 * exGiB) (Some (30 * exGiB))
    (Some exGiB) true 1 0 (Some 7) "" 9000.

Definition exSnapshot : RuntimeSnapshot :=
  MkSnapshot 1000 [MkAccelerator (80 * exGiB) (40 * exGiB) (78 * exGiB)]
    [exModel "alpha" "active"; exModel "beta" "sleeping"] [].

Definition exPod : Pod :=
  MkPod "ns" "pod-a" "pod-uid" ∅ ∅ "node-1" "10.0.0.1" [] [MkContainer {["nvidia.com/gpu" := 10 ^ 9]} ∅] None "Running" None.

Definition exLedgers : gmap string podLedger :=
  podLedgersFrom {["pod-a" := exSnapshot]} {["pod-a"]}
    (Some [exClaim "alpha" ModelClaimActive; exClaim "beta" ModelClaimSleeping]) [exPod].

Definition exLedger : podLedger := default zeroLedger (exLedgers !! "pod-a").

(** One engine awake at 20 + 3 GiB held, one asleep at the 1 GiB measured. *)
Example exLedger_figures :
  (judgeable exLedger, totalMinimumReserveBytes exLedger / exGiB,
   totalHeldBytes exLedger / exGiB, heldRoomBytes exLedger / exGiB) = (true, 23, 24, 54).
Proof. vm_compute. reflexivity. Qed.

Lemma exLedger_lookup : exLedgers !! "pod-a" = Some exLedger.
Proof. vm_compute. reflexivity. Qed.


Lemma judgeable_ledger_has_no_hole_witness :
  judgeable exLedger = true ∧ ∀ e, e ∈ engines exLedger → engineSane e.
Proof.
  split; [vm_compute; reflexivity|]. intros e He.
  apply (judgeable_ledger_has_no_hole {["pod-a" := exSnapshot]} {["pod-a"]}
    [exClaim "alpha" ModelClaimActive; exClaim "beta" ModelClaimSleeping] [exPod] "pod-a" exLedger
    exLedger_lookup); [vm_compute; reflexivity|exact He].
Defined.

Lemma unlisted_claims_block_every_pod_witness :
  ∃ l, podLedgersFrom {["pod-a" := exSnapshot]} {["pod-a"]} None [exPod] !! "pod-a" = Some l ∧
    judgeable l = false.
Proof.
  eexists. split; [vm_compute; reflexivity|].
  eapply (unlisted_claims_block_every_pod {["pod-a" := exSnapshot]} {["pod-a"]} [exPod] "pod-a").
  vm_compute. reflexivity.
Defined.

Lemma withWakeReserve_roundtrip_witness :
  balanced exLedger ∧
  withWakeReserve (withWakeReserve exLedger "beta" true) "beta" false =
    withWakeReserve exLedger "beta" false.
Proof.
  assert (balanced exLedger) as HB by (split; vm_compute; reflexivity).
  split; [exact HB|]. apply (withWakeReserve_roundtrip exLedger "beta" HB).
Defined.
End Witnesses.
