(* ===== verification/KVPlan.v ===== *)
(** * Dividing a card's KV memory ([pkg/controller/modelclaim/kvplan.go]).

    [planKVLimits] gives every engine on a card what it holds and shares the
    rest out by weight; the other functions decide whether a plan is worth
    carrying out, in which order its limits are written and whether a reading
    confirms them.  Sums and products are int64 here ([wrap64]); the theorems
    carry the ranges within which nothing wraps. *)

From S2P Require Import Prelude Api Claims Ledger.

Definition boundedActivity (value : Z) : Z :=
  if value <? 0 then 0 else if 4 <? value then 4 else value.

Definition kvExtraWeight (engine : engineOnPod) : Z :=
  if engine.(eng_asleep) then 0
  else if engine.(eng_demandUnknown) then 1 + boundedActivity MaxInt64
  else 1 + boundedActivity engine.(eng_inFlightRequests).

Record plannedKVLimit : Type := MkLimit {
  lim_claimName : string;
  lim_modelName : string;
  lim_kvLimitBytes : Z;
  lim_kvCapacityBytes : Z;
  lim_kvRecordedBytes : Z;
  lim_kvInitialCapacityBytes : option Z;
}.

Definition setLimit (l : plannedKVLimit) (bytes : Z) : plannedKVLimit :=
  MkLimit l.(lim_claimName) l.(lim_modelName) bytes l.(lim_kvCapacityBytes)
    l.(lim_kvRecordedBytes) l.(lim_kvInitialCapacityBytes).

Definition lowersRecord (l : plannedKVLimit) : bool :=
  l.(lim_kvLimitBytes) <? l.(lim_kvRecordedBytes).

Definition clampKVLimit (limit : Z) (ceiling : option Z) : Z :=
  match ceiling with
  | Some c => if (0 <=? c) && (c <? limit) then c else limit
  | None => limit
  end.

Inductive planError : Type :=
| DeclaresNoCost (claim : string)
| CapacityBelowHeldKV (claim : string)
| CardOversubscribed (bytes : Z)
(** Not an error of the code: the fuel of [handOut] ran out. *)
| HandOutDidNotEnd.

(** The first loop: what is left of the card, and the weights. *)
Fixpoint planScan (unassigned total : Z) (ordered : list engineOnPod)
  : result planError (Z * Z) :=
  match ordered with
  | [] => Ok (unassigned, total)
  | engine :: rest =>
      if (eng_maximumFootprintBytes engine <=? 0) || (eng_kvFloorBytes engine <=? 0)
      then Err (DeclaresNoCost engine.(eng_claimName))
      else if clampKVLimit (plannedKVHeldBytes engine) engine.(eng_kvInitialCapacityBytes)
              <? plannedKVHeldBytes engine
      then Err (CapacityBelowHeldKV engine.(eng_claimName))
      else planScan (wrap64 (unassigned - heldBytes engine))
             (wrap64 (total + kvExtraWeight engine)) rest
  end.

(** One engine's share of the spare room. *)
Definition kvExtraBytes (unassigned total : Z) (engine : engineOnPod) : Z :=
  if 0 <? total then wrap64 (unassigned * kvExtraWeight engine) `quot` total else 0.

Definition plannedLimit (unassigned total : Z) (engine : engineOnPod) : plannedKVLimit :=
  MkLimit engine.(eng_claimName) engine.(eng_modelName)
    (wrap64 (plannedKVHeldBytes engine + kvExtraBytes unassigned total engine))
    engine.(eng_kvCapacityBytes) engine.(eng_kvRecordedBytes)
    engine.(eng_kvInitialCapacityBytes).

(** The loop that hands out the bytes integer division left over, one at a
    time, round and round among the engines that weigh anything. *)
Fixpoint handOut (fuel i : nat) (left : Z) (weights : list Z) (limits : list plannedKVLimit)
  : option (list plannedKVLimit) :=
  if left <=? 0 then Some limits
  else match fuel with
       | O => None
       | S fuel' =>
           let next := ((i + 1) `mod` length limits)%nat in
           if default 0 (weights !! i) =? 0 then handOut fuel' next left weights limits
           else handOut fuel' next (left - 1) weights
                  (alter (fun l => setLimit l (l.(lim_kvLimitBytes) + 1)) i limits)
       end.

Definition clampLimits (limits : list plannedKVLimit) : list plannedKVLimit :=
  (fun l => setLimit l (clampKVLimit l.(lim_kvLimitBytes) l.(lim_kvInitialCapacityBytes)))
    <$> limits.

Definition byClaimName (a b : engineOnPod) : bool := strless a.(eng_claimName) b.(eng_claimName).

Definition planKVLimits (hbmUsable : Z) (es : list engineOnPod)
  : result planError (list plannedKVLimit) :=
  if bool_decide (es = []) then Ok []
  else
    let ordered := sortBy byClaimName es in
    '(unassigned, total) ← planScan hbmUsable 0 ordered;
    if unassigned <? 0 then Err (CardOversubscribed (- unassigned))
    else
      let limits := plannedLimit unassigned total <$> ordered in
      let given := foldl (fun sum e => wrap64 (sum + kvExtraBytes unassigned total e)) 0 ordered in
      if total =? 0 then Ok limits
      else
        let left := wrap64 (unassigned - given) in
        match handOut (Z.to_nat left * length limits) 0 left (kvExtraWeight <$> ordered) limits with
        | Some limits' => Ok (clampLimits limits')
        | None => Err HandOutDidNotEnd
        end.

Definition minimumKVLimitChangeBytes (hbmUsable : Z) : Z :=
  let perBundleBytes := 512 * 2 ^ 20 in
  let perCard := hbmUsable `quot` 100 in
  if perBundleBytes <? perCard then perCard else perBundleBytes.

(** ** Whether a plan is carried out. *)

Definition shortOfKV (engine : engineOnPod) : bool :=
  if engine.(eng_asleep) || (engine.(eng_kvCapacityBytes) <=? 0) then false
  else (0 <? engine.(eng_requestsWaiting)) || engine.(eng_demandUnknown) ||
       (engine.(eng_kvCapacityBytes) - engine.(eng_kvCapacityBytes) `quot` 2
          <=? engine.(eng_kvUsedBytes)).

(** The map [short] of the code: the last engine of a claim that is short. *)
Definition shortEngines (es : list engineOnPod) : gmap string engineOnPod :=
  foldl (fun short e => if shortOfKV e then <[e.(eng_claimName) := e]> short else short) ∅ es.

Definition shortEnginesOwedMore (es : list engineOnPod) (limits : list plannedKVLimit)
    (minimumChangeBytes : Z) : list string :=
  omap (fun limit =>
    engine ← shortEngines es !! limit.(lim_claimName);
    let more := limit.(lim_kvLimitBytes) - engine.(eng_kvCapacityBytes) in
    if (0 <? more) && (minimumChangeBytes <=? more) then Some limit.(lim_claimName) else None)
    limits.

Definition leftUnfinished (es : list engineOnPod) : bool :=
  existsb (fun e => (0 <=? e.(eng_kvCapacityBytes)) &&
                    negb (e.(eng_kvCapacityBytes) =? e.(eng_kvRecordedBytes))) es.

Definition atRest (es : list engineOnPod) : bool :=
  forallb (fun e => e.(eng_asleep) ||
                    negb ((0 <? e.(eng_inFlightRequests)) || e.(eng_demandUnknown))) es.

Definition heldToUnderHalf (limits : list plannedKVLimit) : bool :=
  existsb (fun l => (0 <=? l.(lim_kvCapacityBytes)) &&
    (l.(lim_kvCapacityBytes) <? l.(lim_kvLimitBytes) - l.(lim_kvLimitBytes) `quot` 2)) limits.

Definition needsDividing (es : list engineOnPod) (limits : list plannedKVLimit)
    (minimumChangeBytes : Z) (owedBefore : list string) : bool * list string :=
  let owed := shortEnginesOwedMore es limits minimumChangeBytes in
  if existsb (fun name => bool_decide (name ∈ owedBefore)) owed then (true, owed)
  else (leftUnfinished es || (atRest es && heldToUnderHalf limits), owed).

Definition worthWriting (limits : list plannedKVLimit) (minimumChangeBytes : Z) : bool :=
  existsb (fun l => negb (l.(lim_kvCapacityBytes) <? 0) &&
    (minimumChangeBytes <=? Z.abs (l.(lim_kvLimitBytes) - l.(lim_kvCapacityBytes)))) limits.

(** ** Writing a plan. *)

Definition shrinks (l : plannedKVLimit) : bool :=
  (0 <=? l.(lim_kvCapacityBytes)) && (l.(lim_kvLimitBytes) <? l.(lim_kvCapacityBytes)).

Definition needsWrite (l : plannedKVLimit) : bool :=
  negb ((l.(lim_kvCapacityBytes) <? 0) || (l.(lim_kvCapacityBytes) =? l.(lim_kvLimitBytes))).

Definition writeOrder (limits : list plannedKVLimit) : list plannedKVLimit :=
  sortBy (fun a b => shrinks a && negb (shrinks b)) (List.filter needsWrite limits).

Definition shrinksAndGrows (limits : list plannedKVLimit)
  : list plannedKVLimit * list plannedKVLimit :=
  (List.filter shrinks (writeOrder limits),
   List.filter (fun l => negb (shrinks l)) (writeOrder limits)).

Inductive confirmError : Type :=
| EngineGone (model : string)
| LimitNotTaken (model : string)
| HoldsPastLimit (model : string).

Fixpoint confirmKVLimits (snapshot : option RuntimeSnapshot) (written : list plannedKVLimit)
  : result confirmError unit :=
  match written with
  | [] => Ok ()
  | limit :: rest =>
      match List.find (fun m => bool_decide (m.(sm_ModelName) = limit.(lim_modelName)))
              (snapshot_models snapshot) with
      | None => Err (EngineGone limit.(lim_modelName))
      | Some engine =>
          if negb (engine.(sm_KVCapacityBytes) =? limit.(lim_kvLimitBytes))
          then Err (LimitNotTaken limit.(lim_modelName))
          else if limit.(lim_kvLimitBytes) <? engine.(sm_KVUsedBytes)
          then Err (HoldsPastLimit limit.(lim_modelName))
          else confirmKVLimits snapshot rest
      end
  end.

(** ** The arithmetic of a plan. *)

Lemma boundedActivity_range v : 0 ≤ boundedActivity v ≤ 4.
Proof. unfold boundedActivity. split_ifs; lia. Qed.

Lemma kvExtraWeight_range e : 0 ≤ kvExtraWeight e ≤ 5 ∧ (kvExtraWeight e = 0 ↔ eng_asleep e = true).
Proof.
  unfold kvExtraWeight.
  pose proof (boundedActivity_range MaxInt64). pose proof (boundedActivity_range (eng_inFlightRequests e)).
  destruct (eng_asleep e); [lia|].
  destruct (eng_demandUnknown e); (split; [lia|split; [lia|done]]).
Qed.

Lemma clampKVLimit_le limit c : clampKVLimit limit c ≤ limit.
Proof. unfold clampKVLimit. destruct c; [split_ifs|]; lia. Qed.

Lemma clampKVLimit_ceiling limit c : 0 ≤ c → clampKVLimit limit (Some c) ≤ c.
Proof. intros. unfold clampKVLimit. split_ifs; destruct (Z.leb_spec 0 c), (Z.ltb_spec c limit); simplify_eq/=; lia. Qed.

Lemma clampKVLimit_ge limit low c :
  low ≤ limit → (∀ v, c = Some v → 0 ≤ v → low ≤ v) → low ≤ clampKVLimit limit c.
Proof.
  intros Hl Hc. unfold clampKVLimit. destruct c as [v|]; [|done].
  destruct (Z.leb_spec 0 v), (Z.ltb_spec v limit); simpl; auto with lia.
Qed.

(** What the first loop asks of an engine. *)
Definition plannable (e : engineOnPod) : Prop :=
  0 < eng_maximumFootprintBytes e ∧ 0 < eng_kvFloorBytes e ∧
  (∀ c, eng_kvInitialCapacityBytes e = Some c → 0 ≤ c → plannedKVHeldBytes e ≤ c).

Lemma clamp_keeps_held e :
  plannedKVHeldBytes e ≤ clampKVLimit (plannedKVHeldBytes e) (eng_kvInitialCapacityBytes e) ↔
  (∀ c, eng_kvInitialCapacityBytes e = Some c → 0 ≤ c → plannedKVHeldBytes e ≤ c).
Proof.
  split.
  - intros Hle c Hc ?. rewrite Hc in Hle.
    pose proof (clampKVLimit_ceiling (plannedKVHeldBytes e) c). lia.
  - intros Hc. by apply clampKVLimit_ge.
Qed.

Lemma planScan_ok u t o u' t' :
  in_int64 u → in_int64 t →
  planScan u t o = Ok (u', t') ↔
  (∀ e, e ∈ o → plannable e) ∧
  u' = wrap64 (u - sumZ heldBytes o) ∧ t' = wrap64 (t + sumZ kvExtraWeight o).
Proof.
  revert u t. induction o as [|e o IH]; intros u t Hu Ht; simpl.
  { rewrite Z.sub_0_r, Z.add_0_r, !wrap64_id by done. set_solver. }
  pose proof (clamp_keeps_held e) as Hck.
  destruct (Z.leb_spec (eng_maximumFootprintBytes e) 0) as [?|?]; simpl.
  { split; [done|]. intros [He _]. destruct (He e) as (? & _); [set_solver|lia]. }
  destruct (Z.leb_spec (eng_kvFloorBytes e) 0) as [?|?]; simpl.
  { split; [done|]. intros [He _]. destruct (He e) as (_ & ? & _); [set_solver|lia]. }
  destruct (Z.ltb_spec (clampKVLimit (plannedKVHeldBytes e) (eng_kvInitialCapacityBytes e))
    (plannedKVHeldBytes e)) as [?|?].
  { split; [done|]. intros [He _]. destruct (He e) as (_ & _ & ?%Hck); [set_solver|lia]. }
  rewrite IH by apply wrap64_range. rewrite wrap64_sub_l, wrap64_add_l.
  replace (u - heldBytes e - sumZ heldBytes o) with (u - (heldBytes e + sumZ heldBytes o)) by lia.
  replace (t + kvExtraWeight e + sumZ kvExtraWeight o)
    with (t + (kvExtraWeight e + sumZ kvExtraWeight o)) by lia.
  split; intros (He & -> & ->); (split; [|done]); intros e' He'.
  - apply elem_of_cons in He' as [->|]; [|by apply He]. split_and!; [done..|by apply Hck].
  - apply He. set_solver.
Qed.

Lemma foldl_wrap_sum {A} (f : A → Z) l s :
  in_int64 s → foldl (fun sum x => wrap64 (sum + f x)) s l = wrap64 (s + sumZ f l).
Proof.
  revert s. induction l as [|x l IH]; intros s Hs; simpl.
  - by rewrite Z.add_0_r, wrap64_id.
  - rewrite IH by apply wrap64_range. rewrite wrap64_add_l. f_equal. lia.
Qed.

(** Shares rounded down take no more than the whole, and miss it by less than
    one byte an engine. *)
Lemma share_sum {A} (w : A → Z) U W l :
  0 ≤ U → 0 < W → (∀ x, x ∈ l → 0 ≤ w x) →
  W * sumZ (fun x => U * w x / W) l ≤ U * sumZ w l ∧
  U * sumZ w l ≤ W * sumZ (fun x => U * w x / W) l + (W - 1) * Z.of_nat (length l).
Proof.
  intros HU HW Hw. induction l as [|x l IH]; simpl; [lia|].
  assert (0 ≤ w x) by set_solver.
  destruct IH as [IH1 IH2]; [set_solver|].
  pose proof (Z.div_mod (U * w x) W). pose proof (Z.mod_pos_bound (U * w x) W HW). nia.
Qed.

Lemma sumZ_alter {A} (f : A → Z) (g : A → A) l i x :
  l !! i = Some x → sumZ f (alter g i l) = sumZ f l + f (g x) - f x.
Proof.
  revert i. induction l as [|y l IH]; intros [|i] Hi; simplify_eq/=; [lia|].
  rewrite (IH i) by done. lia.
Qed.

(** What [handOut] does: it adds bytes, [left] of them in all, to engines of
    positive weight. *)
Definition raisedBy (w : Z) (l l' : plannedKVLimit) : Prop :=
  ∃ k, 0 ≤ k ∧ (w = 0 → k = 0) ∧ l' = setLimit l (lim_kvLimitBytes l + k).

Lemma raisedBy_refl w l : raisedBy w l l.
Proof. exists 0. split; [lia|]. split; [done|]. destruct l; simpl. unfold setLimit; simpl. by rewrite Z.add_0_r. Qed.

Lemma raisedBy_trans w l1 l2 l3 : raisedBy w l1 l2 → raisedBy w l2 l3 → raisedBy w l1 l3.
Proof.
  intros (k1 & ? & Hw1 & ->) (k2 & ? & Hw2 & ->). exists (k1 + k2).
  split; [lia|]. split; [intros; rewrite Hw1, Hw2; done|].
  unfold setLimit; simpl. f_equal; lia.
Qed.

Lemma handOut_spec fuel i left ws limits limits' :
  length ws = length limits → (i < length limits)%nat → 0 ≤ left →
  handOut fuel i left ws limits = Some limits' →
  length limits' = length limits ∧
  sumZ lim_kvLimitBytes limits' = sumZ lim_kvLimitBytes limits + left ∧
  ∀ j w l, ws !! j = Some w → limits !! j = Some l →
    ∃ l', limits' !! j = Some l' ∧ raisedBy w l l'.
Proof.
  intros Hlen. revert i left limits Hlen.
  induction fuel as [|fuel IH]; intros i left limits Hlen Hi Hleft Ho; simpl in Ho.
  - destruct (Z.leb_spec left 0); simplify_eq. split_and!; [done|lia|].
    intros j w l _ Hl. eauto using raisedBy_refl.
  - destruct (Z.leb_spec left 0); simplify_eq.
    { split_and!; [done|lia|]. intros j w l _ Hl. eauto using raisedBy_refl. }
    assert (((i + 1) `mod` length limits) < length limits)%nat by (apply Nat.mod_upper_bound; lia).
    destruct (lookup_lt_is_Some_2 ws i) as [wi Hwi]; [lia|].
    destruct (lookup_lt_is_Some_2 limits i) as [li Hli]; [lia|].
    rewrite Hwi in Ho. simpl in Ho. destruct (Z.eqb_spec wi 0) as [Hw0|Hw0].
    + apply IH in Ho; auto.
    + set (g := fun l => setLimit l (lim_kvLimitBytes l + 1)) in Ho.
      apply IH in Ho; [|rewrite ?length_alter; auto with lia..].
      destruct Ho as (H1 & H2 & H3). rewrite length_alter in H1.
      rewrite (sumZ_alter _ g limits i li Hli) in H2. simpl in H2.
      split_and!; [done|lia|]. intros j w l Hw Hl.
      destruct (decide (i = j)) as [<-|Hij].
      * simplify_eq. destruct (H3 i wi (g li)) as (l' & Hl' & Hr); [done|by rewrite list_lookup_alter_eq, Hli|].
        exists l'. split; [done|]. eapply raisedBy_trans; [|exact Hr].
        exists 1. split; [lia|]. done.
      * apply (H3 j w l Hw). by rewrite list_lookup_alter_ne.
Qed.

(** The loop ends: an engine of positive weight is met at least once in every
    round, so [left] rounds are enough fuel. *)
Lemma handOut_ends fuel i d left ws limits w :
  length ws = length limits → (i < length limits)%nat → (d < length limits)%nat →
  ws !! ((i + d) `mod` length limits)%nat = Some w → w ≠ 0 →
  Z.of_nat d + 1 + (left - 1) * Z.of_nat (length limits) ≤ Z.of_nat fuel →
  is_Some (handOut fuel i left ws limits).
Proof.
  revert i d left limits w.
  induction fuel as [|fuel IH]; intros i d left limits w Hlen Hi Hd Hw Hw0 Hf; simpl;
    (destruct (Z.leb_spec left 0); [done|]); [exfalso; nia|].
  set (n := length limits) in *. assert (((i + 1) `mod` n) < n)%nat by (apply Nat.mod_upper_bound; lia).
  destruct (Z.eqb_spec (default 0 (ws !! i)) 0) as [Hz|Hz].
  - destruct d as [|d].
    { rewrite Nat.add_0_r, Nat.mod_small, Hw in * by lia. done. }
    apply (IH _ d _ _ w); try done; [lia| |lia].
    rewrite Nat.Div0.add_mod_idemp_l. by replace (i + 1 + d)%nat with (i + S d)%nat by lia.
  - destruct (lookup_lt_is_Some_2 ws i) as [wi Hwi]; [lia|].
    set (g := fun l => setLimit l (lim_kvLimitBytes l + 1)).
    destruct (decide (left = 1)) as [->|Hl1].
    { destruct fuel; simpl; done. }
    rewrite Hwi in Hz. simpl in Hz.
    apply (IH _ (n - 1)%nat _ _ wi); rewrite ?length_alter; try done; fold n; [lia| |nia].
    rewrite Nat.Div0.add_mod_idemp_l. replace (i + 1 + (n - 1))%nat with (i + 1 * n)%nat by lia.
    by rewrite Nat.Div0.mod_add, Nat.mod_small.
Qed.

(** The ranges within which no sum or product of a plan wraps. *)
Definition planInRange (hbmUsable : Z) (es : list engineOnPod) : Prop :=
  0 ≤ hbmUsable ≤ 2 ^ 60 ∧ Z.of_nat (length es) ≤ 2 ^ 32 ∧ sumZ heldBytes es ≤ 2 ^ 62 ∧
  ∀ e, e ∈ es → 0 ≤ heldBytes e ∧ 0 ≤ plannedKVHeldBytes e ≤ 2 ^ 60.

Lemma planInRange_perm hbm es es' : es ≡ₚ es' → planInRange hbm es → planInRange hbm es'.
Proof.
  intros Hp (H1 & H2 & H3 & H4). split_and!; [lia..|by rewrite <- Hp|by rewrite <- (sumZ_perm _ _ _ Hp)|].
  intros e He. apply H4. by rewrite Hp.
Qed.

Lemma weight_sum_bound es : 0 ≤ sumZ kvExtraWeight es ≤ 5 * Z.of_nat (length es).
Proof.
  induction es as [|e es IH]; simpl; [lia|]. pose proof (kvExtraWeight_range e). lia.
Qed.

Lemma weight_sum_zero es : sumZ kvExtraWeight es = 0 ↔ ∀ e, e ∈ es → eng_asleep e = true.
Proof.
  induction es as [|e es IH]; simpl; [set_solver|].
  pose proof (kvExtraWeight_range e) as [? Hz]. pose proof (weight_sum_bound es). split.
  - intros Hs e' [->|He']%elem_of_cons; [apply Hz; lia|]. apply IH; [lia|done].
  - intros Hall. assert (kvExtraWeight e = 0) by (apply Hz; set_solver).
    assert (sumZ kvExtraWeight es = 0) by (apply IH; set_solver). lia.
Qed.

(** The exact share of an engine of the room [U] under total weight [W]. *)
Definition exactShare (U W : Z) (e : engineOnPod) : Z :=
  if 0 <? W then U * kvExtraWeight e / W else 0.

Lemma kvExtraBytes_exact U W e :
  0 ≤ U ≤ 2 ^ 60 → kvExtraBytes U W e = exactShare U W e.
Proof.
  intros HU. unfold kvExtraBytes, exactShare. destruct (Z.ltb_spec 0 W); [|done].
  pose proof (kvExtraWeight_range e) as [? _].
  rewrite wrap64_id by (unfold in_int64, MinInt64, MaxInt64; nia).
  apply Z.quot_div_nonneg; nia.
Qed.

Lemma exactShare_range U W e :
  0 ≤ U → kvExtraWeight e ≤ W → 0 ≤ exactShare U W e ≤ U.
Proof.
  intros HU HW. unfold exactShare. pose proof (kvExtraWeight_range e) as [? _].
  destruct (Z.ltb_spec 0 W); [|lia]. split; [apply Z.div_pos; nia|].
  apply Z.div_le_upper_bound; nia.
Qed.

Definition idealLimit (U W : Z) (e : engineOnPod) : plannedKVLimit :=
  MkLimit e.(eng_claimName) e.(eng_modelName) (plannedKVHeldBytes e + exactShare U W e)
    e.(eng_kvCapacityBytes) e.(eng_kvRecordedBytes) e.(eng_kvInitialCapacityBytes).

(** A plan before its limits are capped: every engine has what it holds and its
    rounded share, the bytes left over are with engines that weigh something,
    and nothing of the room is lost while an engine weighs anything. *)
Definition rawPlan (U W : Z) (ordered : list engineOnPod) (raw : list plannedKVLimit) : Prop :=
  Forall2 (fun e l => raisedBy (kvExtraWeight e) (idealLimit U W e) l) ordered raw ∧
  sumZ lim_kvLimitBytes raw = sumZ plannedKVHeldBytes ordered + (if W =? 0 then 0 else U).

Lemma Forall2_raised U W ordered raw :
  length raw = length ordered →
  (∀ j w l, (kvExtraWeight <$> ordered) !! j = Some w → (idealLimit U W <$> ordered) !! j = Some l →
    ∃ l', raw !! j = Some l' ∧ raisedBy w l l') →
  Forall2 (fun e l => raisedBy (kvExtraWeight e) (idealLimit U W e) l) ordered raw.
Proof.
  intros Hlen Hj. apply Forall2_same_length_lookup. split; [done|].
  intros i e l He Hl. destruct (Hj i (kvExtraWeight e) (idealLimit U W e)) as (l' & Hl' & Hr).
  - by rewrite list_lookup_fmap, He.
  - by rewrite list_lookup_fmap, He.
  - by simplify_eq.
Qed.

Lemma plan_weighed U W o :
  0 ≤ U ≤ 2 ^ 60 → W = sumZ kvExtraWeight o → 0 < W →
  let left := U - sumZ (exactShare U W) o in
  0 ≤ left ∧
  ∃ raw, handOut (Z.to_nat left * length o) 0 left (kvExtraWeight <$> o) (idealLimit U W <$> o)
           = Some raw ∧ rawPlan U W o raw.
Proof.
  intros HU HW Hpos left.
  assert (sumZ (exactShare U W) o = sumZ (fun e => U * kvExtraWeight e / W) o) as Hs.
  { apply sumZ_ext. intros e _. unfold exactShare. by rewrite (proj2 (Z.ltb_lt 0 W)). }
  assert (0 ≤ left) as Hleft.
  { unfold left. rewrite Hs.
    pose proof (share_sum kvExtraWeight U W o ltac:(lia) Hpos
      (fun e _ => proj1 (proj1 (kvExtraWeight_range e)))) as [Hle _]. rewrite <- HW in Hle. nia. }
  split; [done|].
  assert (∃ j w, (kvExtraWeight <$> o) !! j = Some w ∧ w ≠ 0) as (j & w & Hj & Hw).
  { destruct (decide (Exists (fun e => eng_asleep e ≠ true) o)) as [(e & He & Hz)%Exists_exists|Hn].
    - apply list_elem_of_lookup in He as [j Hj]. exists j, (kvExtraWeight e).
      rewrite list_lookup_fmap, Hj. split; [done|].
      intros H0. apply Hz. by apply kvExtraWeight_range.
    - exfalso. assert (sumZ kvExtraWeight o = 0); [|lia].
      apply weight_sum_zero. intros e He. destruct (eng_asleep e) eqn:Ea; [done|].
      exfalso. apply Hn, Exists_exists. exists e. by rewrite Ea. }
  assert (j < length o)%nat as Hjl.
  { apply lookup_lt_Some in Hj. by rewrite length_fmap in Hj. }
  destruct (handOut_ends (Z.to_nat left * length o) 0 j left (kvExtraWeight <$> o)
    (idealLimit U W <$> o) w) as [raw Hraw]; rewrite ?length_fmap; try done; [lia| |nia|].
  { by rewrite Nat.add_0_l, Nat.mod_small. }
  exists raw. split; [done|].
  apply handOut_spec in Hraw as (H1 & H2 & H3); rewrite ?length_fmap; try done; [|lia].
  rewrite length_fmap in H1. split; [by apply Forall2_raised|].
  rewrite H2, sumZ_fmap. simpl. rewrite sumZ_add.
  destruct (Z.eqb_spec W 0); [lia|]. unfold left. lia.
Qed.

Lemma clampLimits_id limits :
  (∀ l, l ∈ limits → ∀ c, lim_kvInitialCapacityBytes l = Some c → 0 ≤ c → lim_kvLimitBytes l ≤ c) →
  clampLimits limits = limits.
Proof.
  intros Hl. unfold clampLimits. rewrite <- (list_fmap_id limits) at 2. apply list_fmap_ext.
  intros i l Hi. apply list_elem_of_lookup_2 in Hi. specialize (Hl l Hi).
  destruct l as [cn mn lb cap rec init]; simpl in *. unfold setLimit; simpl. f_equal.
  unfold clampKVLimit. destruct init as [c|]; [|done]. specialize (Hl c eq_refl).
  destruct (Z.leb_spec 0 c), (Z.ltb_spec c lb); simpl; lia.
Qed.

(** The planner within range, step by step. *)
Section PlanInRange.
Context (hbm : Z) (es : list engineOnPod) (Hrange : planInRange hbm es).
Let U := hbm - sumZ heldBytes es.
Let W := sumZ kvExtraWeight es.
Let o := sortBy byClaimName es.

Lemma plan_order : o ≡ₚ es.
Proof. apply sortBy_perm. Qed.

Lemma plan_weight_sum : sumZ kvExtraWeight o = W.
Proof. apply sumZ_perm, plan_order. Qed.

Lemma plan_room : U ≤ 2 ^ 60 ∧ in_int64 U ∧ in_int64 W ∧ 0 ≤ W.
Proof.
  destruct Hrange as (HU & Hn & Hs & He). pose proof (weight_sum_bound es) as HWb. fold W in HWb.
  assert (0 ≤ sumZ heldBytes es) by (apply sumZ_nonneg; intros e ?; by apply He).
  unfold in_int64, MinInt64, MaxInt64, U. lia.
Qed.

Lemma plan_scan u t :
  planScan hbm 0 o = Ok (u, t) ↔ (∀ e, e ∈ es → plannable e) ∧ u = U ∧ t = W.
Proof.
  destruct plan_room as (_ & HU & HW & _). destruct Hrange as (Hh & _).
  rewrite planScan_ok by (unfold in_int64, MinInt64, MaxInt64; lia).
  rewrite plan_weight_sum, (sumZ_perm _ _ _ plan_order). fold U.
  rewrite !wrap64_id by done. by setoid_rewrite plan_order.
Qed.

Lemma plan_limits : 0 ≤ U → plannedLimit U W <$> o = idealLimit U W <$> o.
Proof.
  intros HU0. destruct plan_room as (HU & _). destruct Hrange as (_ & _ & _ & He).
  apply list_fmap_ext. intros i e Hi. unfold plannedLimit, idealLimit.
  rewrite kvExtraBytes_exact by lia. f_equal. apply wrap64_id.
  apply list_elem_of_lookup_2 in Hi. rewrite plan_order in Hi. specialize (He e Hi).
  assert (kvExtraWeight e ≤ W).
  { apply sumZ_elem_le; [|done]. intros x _. by apply kvExtraWeight_range. }
  pose proof (exactShare_range U W e HU0). unfold in_int64, MinInt64, MaxInt64. lia.
Qed.

Lemma plan_left : 0 ≤ U → W ≠ 0 →
  wrap64 (U - foldl (fun sum e => wrap64 (sum + kvExtraBytes U W e)) 0 o) =
  U - sumZ (exactShare U W) o.
Proof.
  intros HU0 HW0. destruct plan_room as (HU & _ & _ & HW).
  rewrite foldl_wrap_sum by (unfold in_int64, MinInt64, MaxInt64; lia).
  rewrite Z.add_0_l, (sumZ_ext _ (exactShare U W)) by (intros e _; apply kvExtraBytes_exact; lia).
  rewrite wrap64_sub_r. apply wrap64_id.
  destruct (plan_weighed U W o) as [Hl0 _]; [lia|by rewrite plan_weight_sum|lia|].
  assert (0 ≤ sumZ (exactShare U W) o).
  { apply sumZ_nonneg. intros e _. unfold exactShare. pose proof (kvExtraWeight_range e) as [? _].
    destruct (Z.ltb_spec 0 W); [apply Z.div_pos; nia|done]. }
  unfold in_int64, MinInt64, MaxInt64; lia.
Qed.

(** A card whose engines are all asleep keeps the limits it has. *)
Lemma plan_asleep : W = 0 → (∀ e, e ∈ es → plannable e) →
  rawPlan U W o (idealLimit U W <$> o) ∧
  clampLimits (idealLimit U W <$> o) = idealLimit U W <$> o.
Proof.
  intros HW He. split; [split|].
  - apply Forall2_fmap_r, Forall_Forall2_diag, Forall_true. intros e. apply raisedBy_refl.
  - rewrite sumZ_fmap. simpl. unfold exactShare. rewrite HW. simpl.
    rewrite Z.add_0_r. apply sumZ_ext. intros; lia.
  - apply clampLimits_id. intros l Hl c Hc Hc0. apply list_elem_of_fmap in Hl as (e & -> & Hin).
    rewrite plan_order in Hin. destruct (He e Hin) as (_ & _ & Hcap). simpl in *.
    unfold exactShare. rewrite HW. simpl. specialize (Hcap c Hc Hc0). lia.
Qed.

(** The whole planner: when it succeeds and what it plans. *)
Lemma planKVLimits_spec : es ≠ [] →
  (∀ limits, planKVLimits hbm es = Ok limits →
    (∀ e, e ∈ es → plannable e) ∧ 0 ≤ U ∧
    ∃ raw, rawPlan U W o raw ∧ limits = clampLimits raw) ∧
  ((∀ e, e ∈ es → plannable e) → 0 ≤ U → ∃ limits, planKVLimits hbm es = Ok limits).
Proof.
  intros Hne. unfold planKVLimits. rewrite bool_decide_eq_false_2 by done. fold o.
  assert (0 ≤ U → W ≠ 0 → ∃ raw, rawPlan U W o raw ∧
    handOut (Z.to_nat (U - sumZ (exactShare U W) o) * length (idealLimit U W <$> o)) 0
      (U - sumZ (exactShare U W) o) (kvExtraWeight <$> o) (idealLimit U W <$> o) = Some raw) as Hraw.
  { intros HU0 HW0. destruct plan_room as (HU & _ & _ & HW).
    destruct (plan_weighed U W o) as [_ (raw & Hraw & Hp)];
      [lia|by rewrite plan_weight_sum|lia|].
    exists raw. by rewrite length_fmap. }
  split.
  - intros limits. destruct (planScan hbm 0 o) as [[u t]|] eqn:Es; [simpl|done].
    apply plan_scan in Es as (He & -> & ->). destruct (Z.ltb_spec U 0); [done|].
    rewrite plan_limits by lia. intros Hok. split; [done|]. split; [lia|].
    destruct (Z.eqb_spec W 0) as [HW|HW].
    + injection Hok as <-. destruct (plan_asleep HW He) as [Hp Hc]. by exists (idealLimit U W <$> o).
    + rewrite plan_left in Hok by done. destruct Hraw as (raw & Hp & Hr); [lia|done|].
      rewrite Hr in Hok. injection Hok as <-. by exists raw.
  - intros He HU0. rewrite (proj2 (plan_scan U W)) by done. simpl.
    rewrite (proj2 (Z.ltb_ge U 0)), plan_limits by lia.
    destruct (Z.eqb_spec W 0) as [HW|HW]; [eauto|]. rewrite plan_left by done.
    destruct Hraw as (raw & _ & ->); eauto.
Qed.
End PlanInRange.

#[export] Instance byClaimName_weak : StrictWeak byClaimName.
Proof. apply (StrictWeak_key strless eng_claimName), strless_weak. Qed.

Lemma byClaimName_distinct es a b :
  NoDup (eng_claimName <$> es) → a ∈ es → b ∈ es →
  byClaimName a b = false → byClaimName b a = false → a = b.
Proof.
  intros Hnd Ha Hb H1 H2. pose proof (strless_total _ _ H1 H2) as Heq.
  apply list_elem_of_lookup in Ha as [i Hi], Hb as [j Hj].
  assert (i = j) as <-; [|congruence].
  eapply NoDup_lookup; [done|..]; rewrite list_lookup_fmap; [by rewrite Hi|by rewrite Hj, Heq].
Qed.

Lemma clampLimits_sum raw : sumZ lim_kvLimitBytes (clampLimits raw) ≤ sumZ lim_kvLimitBytes raw.
Proof.
  unfold clampLimits. rewrite sumZ_fmap. apply sumZ_le. intros l _. apply clampKVLimit_le.
Qed.

(** What a plan promises one engine. *)
Definition limitFor (e : engineOnPod) (l : plannedKVLimit) : Prop :=
  lim_claimName l = eng_claimName e ∧ lim_modelName l = eng_modelName e ∧
  lim_kvCapacityBytes l = eng_kvCapacityBytes e ∧ lim_kvRecordedBytes l = eng_kvRecordedBytes e ∧
  plannedKVHeldBytes e ≤ lim_kvLimitBytes l ∧
  (∀ c, eng_kvInitialCapacityBytes e = Some c → 0 ≤ c → lim_kvLimitBytes l ≤ c) ∧
  (eng_asleep e = true → lim_kvLimitBytes l = plannedKVHeldBytes e).

Lemma limitFor_clamped U W e l :
  0 ≤ U → kvExtraWeight e ≤ W → plannable e → raisedBy (kvExtraWeight e) (idealLimit U W e) l →
  limitFor e (setLimit l (clampKVLimit l.(lim_kvLimitBytes) l.(lim_kvInitialCapacityBytes))).
Proof.
  intros HU HW (_ & _ & Hcap) (k & Hk & Hw & ->). pose proof (exactShare_range U W e HU HW) as Hs.
  unfold limitFor; simpl. split_and!; try done.
  - apply clampKVLimit_ge; [lia|done].
  - intros c -> Hc. by apply clampKVLimit_ceiling.
  - intros Ha. pose proof (kvExtraWeight_range e) as [_ [_ Hz]]. rewrite (Hw (Hz Ha)).
    assert (exactShare U W e = 0) as ->.
    { unfold exactShare. rewrite (Hz Ha), Z.mul_0_r. by destruct (0 <? W). }
    rewrite !Z.add_0_r. apply Z.le_antisymm; [apply clampKVLimit_le|].
    by apply clampKVLimit_ge.
Qed.

Lemma planKVLimits_engines hbm es limits :
  planInRange hbm es → planKVLimits hbm es = Ok limits →
  Forall2 limitFor (sortBy byClaimName es) limits.
Proof.
  intros Hr Hok. destruct (decide (es = [])) as [->|Hne].
  { unfold planKVLimits in Hok. simpl in Hok. by simplify_eq. }
  apply planKVLimits_spec in Hok as (Hpl & HU & raw & [Hraw _] & ->); [|done..].
  unfold clampLimits. apply Forall2_fmap_r. eapply Forall2_impl_elem; [exact Hraw|].
  intros e l He%elem_of_sortBy _ Hl. eapply limitFor_clamped; [exact HU|..|exact Hl]; [|by apply Hpl].
  apply sumZ_elem_le; [|done]. intros x _. by apply kvExtraWeight_range.
Qed.

Lemma plan_fits hbm es limits :
  planInRange hbm es → planKVLimits hbm es = Ok limits →
  sumZ (fun e => heldBytes e - plannedKVHeldBytes e) es + sumZ lim_kvLimitBytes limits ≤ hbm.
Proof.
  intros Hr Hok. destruct (decide (es = [])) as [->|Hne].
  { unfold planKVLimits in Hok. simpl in Hok. simplify_eq. destruct Hr. simpl. lia. }
  apply planKVLimits_spec in Hok as (Hpl & HU & raw & [_ Hsum] & ->); [|done..].
  pose proof (clampLimits_sum raw). rewrite (sumZ_perm _ _ _ (plan_order es)) in Hsum.
  pose proof (sumZ_add (fun e => heldBytes e - plannedKVHeldBytes e) plannedKVHeldBytes es) as Hadd.
  rewrite (sumZ_ext _ heldBytes) in Hadd by (intros; lia).
  destruct (_ =? 0); lia.
Qed.

(** ** Writing in order. *)

#[export] Instance shrinksFirst_weak :
  StrictWeak (fun a b : plannedKVLimit => shrinks a && negb (shrinks b)).
Proof.
  split; intros *; repeat match goal with |- context [shrinks ?x] => destruct (shrinks x) end; done.
Qed.

Lemma writeOrder_elem limits l : l ∈ writeOrder limits ↔ l ∈ limits ∧ needsWrite l = true.
Proof.
  unfold writeOrder. rewrite elem_of_sortBy, !list_elem_of_In, filter_In. done.
Qed.

Lemma shrinksFirst_elem limits l :
  l ∈ (shrinksAndGrows limits).1 ↔
  l ∈ limits ∧ 0 ≤ lim_kvCapacityBytes l ∧ lim_kvLimitBytes l < lim_kvCapacityBytes l.
Proof.
  simpl. rewrite !list_elem_of_In, !filter_In, <- !list_elem_of_In, writeOrder_elem.
  unfold needsWrite, shrinks.
  destruct (Z.leb_spec 0 (lim_kvCapacityBytes l)), (Z.ltb_spec (lim_kvLimitBytes l) (lim_kvCapacityBytes l)),
    (Z.ltb_spec (lim_kvCapacityBytes l) 0), (Z.eqb_spec (lim_kvCapacityBytes l) (lim_kvLimitBytes l));
    simpl; naive_solver lia.
Qed.

Lemma growsNext_elem limits l :
  l ∈ (shrinksAndGrows limits).2 ↔
  l ∈ limits ∧ 0 ≤ lim_kvCapacityBytes l ∧ lim_kvCapacityBytes l < lim_kvLimitBytes l.
Proof.
  simpl. rewrite !list_elem_of_In, !filter_In, <- !list_elem_of_In, writeOrder_elem.
  unfold needsWrite, shrinks.
  destruct (Z.leb_spec 0 (lim_kvCapacityBytes l)), (Z.ltb_spec (lim_kvLimitBytes l) (lim_kvCapacityBytes l)),
    (Z.ltb_spec (lim_kvCapacityBytes l) 0), (Z.eqb_spec (lim_kvCapacityBytes l) (lim_kvLimitBytes l));
    simpl; naive_solver lia.
Qed.

(** A sorted write order is its shrinks followed by its grows. *)
Lemma shrinks_first ws :
  StronglySorted (notAfter (fun a b => shrinks a && negb (shrinks b))) ws →
  ws = List.filter shrinks ws ++ List.filter (fun l => negb (shrinks l)) ws.
Proof.
  induction 1 as [|w ws Hs IH Hf]; simpl; [done|].
  destruct (shrinks w) eqn:E; simpl; [by rewrite <- IH|].
  assert (List.filter shrinks ws = []) as Hnil.
  { clear IH Hs. induction Hf as [|x ws Hx Hf IH]; simpl; [done|].
    unfold notAfter in Hx. rewrite E, andb_true_r in Hx. by rewrite Hx. }
  rewrite Hnil in *. simpl in *. by rewrite <- IH.
Qed.

(** ** Properties. *)

(** C2: a division never oversubscribes the card.  What the engines hold
    besides their KV, and every limit the plan sets, together fit in the card's
    usable memory, for any mix of awake engines, sleeping engines and sleeping
    engines without a wake reserve. *)
Theorem planKVLimits_fits_card hbm es limits :
  planInRange hbm es → planKVLimits hbm es = Ok limits →
  sumZ (fun e => heldBytes e - plannedKVHeldBytes e) es + sumZ lim_kvLimitBytes limits ≤ hbm.
Proof. apply plan_fits. Qed.

(** Every engine keeps what it holds.  The plan has one limit per engine,
    in claim name order, under the engine's own names; the limit is never below
    the KV the engine keeps (its floor and every page it has mapped), never
    above a known startup capacity, and a sleeping engine is given no spare. *)
Theorem planKVLimits_keeps_held hbm es limits :
  planInRange hbm es → planKVLimits hbm es = Ok limits →
  Forall2 limitFor (sortBy byClaimName es) limits.
Proof. apply planKVLimits_engines. Qed.

(** The planner is total, and refuses for the reasons it names only: it
    returns a plan exactly when every engine declares its cost, no startup
    capacity is below the KV its engine holds, and the engines hold no more than
    the card has.  In particular the loop that hands out left over bytes ends. *)
Theorem planKVLimits_decides hbm es :
  planInRange hbm es →
  (∃ limits, planKVLimits hbm es = Ok limits) ↔
  (∀ e, e ∈ es → plannable e) ∧ sumZ heldBytes es ≤ hbm.
Proof.
  intros Hr. destruct (decide (es = [])) as [->|Hne].
  { destruct Hr as [? _]. simpl. split; [|intros _; by exists []]. intros _. split; [set_solver|lia]. }
  destruct (planKVLimits_spec hbm es Hr Hne) as [H1 H2]. split.
  - intros [limits Hok]. destruct (H1 limits Hok) as (? & ? & _). split; [done|lia].
  - intros [Hpl Hle]. apply H2; [done|lia].
Qed.

(** No byte is wasted.  While an engine on the card is awake and no startup
    capacity caps a limit, the whole card is assigned: what is held besides KV
    and the limits add up to the usable memory exactly. *)
Theorem planKVLimits_uses_whole_card hbm es limits :
  planInRange hbm es → planKVLimits hbm es = Ok limits →
  (∃ e, e ∈ es ∧ eng_asleep e = false) →
  (∀ e c, e ∈ es → eng_kvInitialCapacityBytes e = Some c → c < 0) →
  sumZ (fun e => heldBytes e - plannedKVHeldBytes e) es + sumZ lim_kvLimitBytes limits = hbm.
Proof.
  intros Hr Hok (e & He & Ha) Hcap. assert (es ≠ []) as Hne by (by intros ->; set_solver).
  apply planKVLimits_spec in Hok as (Hpl & HU & raw & [Hraw Hsum] & ->); [|done..].
  rewrite clampLimits_id, Hsum, (sumZ_perm _ _ _ (plan_order es)).
  - destruct (Z.eqb_spec (sumZ kvExtraWeight es) 0) as [Hz|Hz].
    { apply weight_sum_zero with (e := e) in Hz; congruence. }
    pose proof (sumZ_add (fun e => heldBytes e - plannedKVHeldBytes e) plannedKVHeldBytes es) as Hadd.
    rewrite (sumZ_ext _ heldBytes) in Hadd by (intros; lia). lia.
  - intros l Hl c Hc Hc0. exfalso.
    apply list_elem_of_lookup in Hl as [i Hi].
    destruct (Forall2_lookup_r _ _ _ _ _ Hraw Hi) as (e' & He' & k & _ & _ & ->). simpl in Hc.
    apply list_elem_of_lookup_2, elem_of_sortBy in He'. specialize (Hcap e' c He' Hc). lia.
Qed.

(** Two passes over the same card agree.  The plan does not depend on the
    order the account lists the engines in, when no two share a claim name. *)
Theorem planKVLimits_order_independent hbm es es' :
  es ≡ₚ es' → NoDup (eng_claimName <$> es) →
  planKVLimits hbm es = planKVLimits hbm es'.
Proof.
  intros Hp Hnd. unfold planKVLimits.
  rewrite (sortBy_unique byClaimName es es' Hp) by (intros a b; by apply byClaimName_distinct).
  assert (bool_decide (es = []) = bool_decide (es' = [])) as ->; [|done].
  apply bool_decide_ext. split; intros ->; [by apply Permutation_nil in Hp|].
  by apply symmetry, Permutation_nil in Hp.
Qed.

(** The limits are written shrinks first.  The write order holds exactly
    the limits that change something on a known engine, every shrink comes
    before every grow, and the two phases [shrinksAndGrows] separates are that
    order, cut where the first grow is. *)
Theorem writeOrder_shrinks_first limits :
  writeOrder limits ≡ₚ List.filter needsWrite limits ∧
  let '(first, second) := shrinksAndGrows limits in
  writeOrder limits = first ++ second ∧
  (∀ l, l ∈ first → lim_kvLimitBytes l < lim_kvCapacityBytes l) ∧
  (∀ l, l ∈ second → 0 ≤ lim_kvCapacityBytes l < lim_kvLimitBytes l).
Proof.
  split; [apply sortBy_perm|]. simpl. split_and!.
  - apply shrinks_first, sortBy_sorted, _.
  - intros l Hl. by apply (shrinksFirst_elem limits l) in Hl as (_ & _ & ?).
  - intros l Hl. by apply (growsNext_elem limits l) in Hl as (_ & ? & ?).
Qed.

(** ** The card of [exLedger], divided. *)

#[export] Instance planInRange_dec hbm es : Decision (planInRange hbm es).
Proof.
  refine (cast_if (decide (0 ≤ hbm ≤ 2 ^ 60 ∧ Z.of_nat (length es) ≤ 2 ^ 32 ∧
    sumZ heldBytes es ≤ 2 ^ 62 ∧
    Forall (fun e => 0 ≤ heldBytes e ∧ 0 ≤ plannedKVHeldBytes e ≤ 2 ^ 60) es)));
    unfold planInRange; by rewrite <- Forall_forall.
Defined.

Definition okOr {E A} (d : A) (r : result E A) : A := match r with Ok a => a | Err _ => d end.

Definition exHbm : Z := hbmUsableBytes exLedger.
Definition exEngines : list engineOnPod := engines exLedger.
Definition exLimits : list plannedKVLimit := okOr [] (planKVLimits exHbm exEngines).

(** The awake engine gets the 54 GiB to spare, capped at its startup 30 GiB; the
    sleeping one keeps the 3 GiB it has mapped. *)
Example exLimits_figures :
  (fun l => (lim_claimName l, lim_kvLimitBytes l / exGiB)) <$> exLimits = [("alpha", 30); ("beta", 3)].
Proof. vm_compute. reflexivity. Qed.

Lemma planKVLimits_fits_card_witness :
  planKVLimits exHbm exEngines = Ok exLimits ∧
  sumZ (fun e => heldBytes e - plannedKVHeldBytes e) exEngines + sumZ lim_kvLimitBytes exLimits ≤ exHbm.
Proof.
  assert (planKVLimits exHbm exEngines = Ok exLimits) as Hok by (vm_compute; reflexivity).
  split; [exact Hok|].
  apply (planKVLimits_fits_card exHbm exEngines exLimits); [apply (bool_decide_unpack _); vm_compute; exact I|exact Hok].
Defined.

Lemma planKVLimits_keeps_held_witness :
  length exLimits = 2%nat ∧ Forall2 limitFor (sortBy byClaimName exEngines) exLimits.
Proof.
  split; [vm_compute; reflexivity|].
  apply (planKVLimits_keeps_held exHbm exEngines exLimits);
    [apply (bool_decide_unpack _); vm_compute; exact I|vm_compute; reflexivity].
Defined.

Lemma planKVLimits_decides_witness :
  (∃ ls, planKVLimits exHbm exEngines = Ok ls) ↔ (∀ e, e ∈ exEngines → plannable e) ∧ sumZ heldBytes exEngines ≤ exHbm.
Proof.
  apply (planKVLimits_decides exHbm exEngines). apply (bool_decide_unpack _); vm_compute; exact I.
Defined.

Definition exUncapped : engineOnPod :=
  MkEngine "gamma" "gamma" "kvc_gamma" (MkPerGPUBytes (20 * exGiB) (2 * exGiB)) 0 kvLimitUnknown
    None 0 2 0 false false 0 false false.

Lemma planKVLimits_uses_whole_card_witness :
  sumZ (fun e => heldBytes e - plannedKVHeldBytes e) [exUncapped] +
  sumZ lim_kvLimitBytes (okOr [] (planKVLimits exHbm [exUncapped])) = exHbm.
Proof.
  apply (planKVLimits_uses_whole_card exHbm [exUncapped]);
    [apply (bool_decide_unpack _); vm_compute; exact I|vm_compute; reflexivity| |].
  - exists exUncapped. split; [apply list_elem_of_singleton; reflexivity|reflexivity].
  - intros e c He. apply list_elem_of_singleton in He. rewrite He. discriminate.
Defined.

Lemma planKVLimits_order_independent_witness :
  planKVLimits exHbm exEngines = planKVLimits exHbm (rev exEngines).
Proof.
  apply (planKVLimits_order_independent exHbm exEngines (rev exEngines)).
  - apply Permutation_rev.
  - apply (bool_decide_unpack _). vm_compute. exact I.
Defined.
