(* ===== verification/Placement.v ===== *)
(** * Choosing a pod ([pkg/controller/modelclaim/placement.go]).

    [admissibleCandidates] keeps the pods whose account shows room for one more
    instance, [selectPodForActivationWithState] ranks what it kept, and
    [tooLargeForEveryCard] and [summarizeRefusals] say why nothing was kept.
    The text of a refusal is not modelled; the figures it reports are.
    Also here: the summary of a reading that ranking uses
    ([placementStateFromSnapshot], [placementStatesFrom]) and the name of an
    engine's shared memory segment ([ipcNameFor]). *)

From Stdlib Require Import Ascii.
From Stdlib Require Import Floats.SpecFloat.
From S2P Require Import Prelude Api Claims Ledger KVPlan.

(** ** The admission gate. *)

(** The figures of a refusal an operator can check against the card. *)
Record cardFigures : Type := MkFigures {
  fig_hbmUsableBytes : Z;
  fig_takenBytes : Z;
  fig_instances : nat;
  fig_heldForAnother : option Z;
}.

Definition cardAccount (ledger : podLedger) (takenBytes : Z) : cardFigures :=
  MkFigures ledger.(hbmUsableBytes) takenBytes (length ledger.(engines))
    (if 0 <? ledger.(reservedBytes) then Some ledger.(reservedBytes) else None).

Inductive refusalReason : Type :=
| CouldNotBeJudged (why : option blockReason)
| ReportsOtherGPUs (reported wanted : Z)
| CanOfferAtMost (room : Z) (account : cardFigures)
| HasFree (room : Z) (account : cardFigures)
(** Met while an instance is placed: it has room, and its card could not be
    divided, or its runtime is left alone for now. *)
| CardNotDivided
| CannotBeAskedYet.

Record podRefusal : Type := MkRefusal {
  ref_pod : string;
  ref_roomBytes : Z;
  ref_known : bool;
  ref_couldHold : bool;
  ref_reason : refusalReason;
}.

Definition fitsTopology `{K8s} (pod : Pod) (ledger : podLedger) (instanceGPUs : Z) : bool :=
  (instanceGPUs =? 0) || (0 <? podGPUCount pod) || (ledger.(accelerators) =? 0) ||
  (ledger.(accelerators) =? instanceGPUs).

(** [ledgers[name]]: a pod without an account has the zero one. *)
Definition ledgerOf (ledgers : gmap string podLedger) (name : string) : podLedger :=
  default zeroLedger (ledgers !! name).

Section Gate.
Context `{K8s}.
Context (ledgers : gmap string podLedger) (minimumReserve instanceGPUs : Z).

(** What becomes of one candidate: [None] is admitted. *)
Definition refusalOf (pod : Pod) : option podRefusal :=
  let ledger := ledgerOf ledgers pod.(pod_Name) in
  if negb ledger.(unread) && negb (podHasGPUs pod ledger.(accelerators)) then None
  else if negb ledger.(judgeable) then
    Some (MkRefusal pod.(pod_Name) 0 false false (CouldNotBeJudged ledger.(blocked)))
  else if negb (fitsTopology pod ledger instanceGPUs) then
    Some (MkRefusal pod.(pod_Name) 0 false false
            (ReportsOtherGPUs ledger.(accelerators) instanceGPUs))
  else if maximumRoomBytes ledger <? minimumReserve then
    let room := Z.max (maximumRoomBytes ledger) 0 in
    Some (MkRefusal pod.(pod_Name) room true false
            (CanOfferAtMost room (cardAccount ledger ledger.(totalMinimumReserveBytes))))
  else if heldRoomBytes ledger <? minimumReserve then
    let room := Z.max (heldRoomBytes ledger) 0 in
    Some (MkRefusal pod.(pod_Name) room true true
            (HasFree room (cardAccount ledger ledger.(totalHeldBytes))))
  else None.

Fixpoint admissibleCandidates (candidates : list Pod) : list Pod * list podRefusal :=
  match candidates with
  | [] => ([], [])
  | pod :: rest =>
      let '(admissible, refusals) := admissibleCandidates rest in
      match refusalOf pod with
      | None => (pod :: admissible, refusals)
      | Some refusal => (admissible, refusal :: refusals)
      end
  end.

(** The largest card of the candidates when none could ever hold the model. *)
Fixpoint tooLargeFrom (largest : Z) (candidates : list Pod) : option Z :=
  match candidates with
  | [] => Some largest
  | pod :: rest =>
      let ledger := ledgerOf ledgers pod.(pod_Name) in
      if negb (podHasGPUs pod ledger.(accelerators)) || (ledger.(hbmUsableBytes) <=? 0) ||
         (minimumReserve <=? ledger.(hbmUsableBytes)) then None
      else tooLargeFrom (Z.max largest ledger.(hbmUsableBytes)) rest
  end.

Definition tooLargeForEveryCard (candidates : list Pod) : option Z :=
  if bool_decide (length candidates = 0%nat) then None else tooLargeFrom 0 candidates.
End Gate.

Definition withoutPod `{K8s} (pods : list Pod) (name : string) : list Pod :=
  List.filter (fun pod => negb (bool_decide (pod.(pod_Name) = name))) pods.

(** Whether a refusal replaces the roomiest one found so far. *)
Definition roomier (refusal best : podRefusal) : bool :=
  if negb refusal.(ref_known) then false
  else if negb best.(ref_known) || (refusal.(ref_couldHold) && negb best.(ref_couldHold)) then true
  else Bool.eqb refusal.(ref_couldHold) best.(ref_couldHold) &&
       (best.(ref_roomBytes) <? refusal.(ref_roomBytes)).

(** The refusal a message names and how many others it counts. *)
Definition summarizeRefusals (refusals : list podRefusal) : option (podRefusal * nat) :=
  match refusals with
  | [] => None
  | first :: _ =>
      let roomiest := foldl (fun best refusal => if roomier refusal best then refusal else best)
                        first refusals in
      Some (roomiest, (length refusals - 1)%nat)
  end.

Inductive placementMessage : Type :=
| NoAvailableCandidate
| NoPodCanHold (needs : Z) (named : option (podRefusal * nat)).

Definition noPlacementMessage `{K8s} (selectErr : placementMessage) (admissible : list Pod)
    (refusals : list podRefusal) (minimumReserve : Z) : placementMessage :=
  if bool_decide (length admissible = 0%nat) && negb (bool_decide (length refusals = 0%nat))
  then NoPodCanHold minimumReserve (summarizeRefusals refusals)
  else selectErr.

(** ** What a reading says of a pod. *)

Record PodPlacementState : Type := MkState {
  st_SnapshotKnown : bool;
  st_ArtifactCached : bool;
  st_MemoryKnown : bool;
  st_HBMFreeBytes : Z;
  st_KVUsedBytes : Z;
  st_ModelCount : Z;
  st_AwakeCount : Z;
  st_HBMUsableBytes : Z;
  st_HBMUsableKnown : bool;
  st_MaximumRoomBytes : Z;
  st_MaximumRoomKnown : bool;
}.

Definition zeroState : PodPlacementState := MkState false false false 0 0 0 0 0 false 0 false.

(** The accelerator loop: what is free where the engine would run. *)
Definition freeOn (parallelism : Z) (known : option Z) (accelerator : RuntimeAcceleratorSnapshot)
  : option Z :=
  match known with
  | None => Some accelerator.(acc_HBMFreeBytes)
  | Some free =>
      if ((parallelism =? 1) && (free <? accelerator.(acc_HBMFreeBytes))) ||
         ((1 <? parallelism) && (accelerator.(acc_HBMFreeBytes) <? free))
      then Some accelerator.(acc_HBMFreeBytes) else Some free
  end.

Definition countsAwake (model : RuntimeSnapshotModel) : bool :=
  negb (bool_decide (model.(sm_Phase) = runtimePhaseSleeping)) &&
  negb (bool_decide (model.(sm_Phase) = runtimePhaseFailed)) &&
  negb (bool_decide (model.(sm_Phase) = runtimePhaseStopping)).

Definition placementStateFromSnapshot (snapshot : RuntimeSnapshot) (artifactURL : string)
    (parallelism : Z) : PodPlacementState :=
  let cached := existsb (fun c => bool_decide (c = artifactURL)) snapshot.(snap_CachedArtifacts) in
  let count := Z.of_nat (length snapshot.(snap_Models)) in
  let parallelism := if parallelism <? 1 then 1 else parallelism in
  if (1 <? parallelism) &&
     negb (Z.of_nat (length snapshot.(snap_Accelerators)) =? parallelism)
  then MkState true cached false 0 0 count 0 0 false 0 false
  else
    let free := foldl (freeOn parallelism) None snapshot.(snap_Accelerators) in
    let usable := snapshot_hbmUsableBytes (Some snapshot) in
    MkState true cached (bool_decide (is_Some free)) (default 0 free)
      (sumZ (fun m => if m.(sm_KVUsedBytes) <? 0 then 0 else m.(sm_KVUsedBytes)) snapshot.(snap_Models))
      count
      (Z.of_nat (length (List.filter countsAwake snapshot.(snap_Models))))
      (default 0 usable) (bool_decide (is_Some usable)) 0 false.

Definition placementStatesFrom `{K8s} (snapshots : gmap string RuntimeSnapshot)
    (candidates : list Pod) (artifactURL : string) (parallelism : Z)
  : gmap string PodPlacementState :=
  foldl (fun states pod =>
    match snapshots !! pod.(pod_Name) with
    | None => states
    | Some snapshot =>
        <[pod.(pod_Name) := placementStateFromSnapshot snapshot artifactURL parallelism]> states
    end) ∅ candidates.

Definition setRoom (state : PodPlacementState) (room : Z) : PodPlacementState :=
  MkState state.(st_SnapshotKnown) state.(st_ArtifactCached) state.(st_MemoryKnown)
    state.(st_HBMFreeBytes) state.(st_KVUsedBytes) state.(st_ModelCount) state.(st_AwakeCount)
    state.(st_HBMUsableBytes) state.(st_HBMUsableKnown) room true.

(** The loop of [rankByRoom] over the map of accounts sets each pod's own
    entry, so the result does not depend on the order Go visits the map in. *)
Definition rankByRoom (states : gmap string PodPlacementState) (ledgers : gmap string podLedger)
  : gmap string PodPlacementState :=
  merge (fun state ledger =>
    match ledger with
    | Some l => if judgeable l then Some (setRoom (default zeroState state) (maximumRoomBytes l))
                else state
    | None => state
    end) states ledgers.

(** ** Ranking. *)

Definition placementStateLess (a b : PodPlacementState) : bool :=
  if negb (Bool.eqb a.(st_ArtifactCached) b.(st_ArtifactCached)) then a.(st_ArtifactCached)
  else if negb (Bool.eqb a.(st_SnapshotKnown) b.(st_SnapshotKnown)) then a.(st_SnapshotKnown)
  else if negb (Bool.eqb a.(st_MemoryKnown) b.(st_MemoryKnown)) then a.(st_MemoryKnown)
  else if negb (Bool.eqb a.(st_MaximumRoomKnown) b.(st_MaximumRoomKnown))
       then a.(st_MaximumRoomKnown)
  else if a.(st_SnapshotKnown) && negb (a.(st_AwakeCount) =? b.(st_AwakeCount))
       then a.(st_AwakeCount) <? b.(st_AwakeCount)
  else if a.(st_MaximumRoomKnown) && negb (a.(st_MaximumRoomBytes) =? b.(st_MaximumRoomBytes))
       then b.(st_MaximumRoomBytes) <? a.(st_MaximumRoomBytes)
  else if a.(st_MemoryKnown) && negb (a.(st_HBMFreeBytes) =? b.(st_HBMFreeBytes))
       then b.(st_HBMFreeBytes) <? a.(st_HBMFreeBytes)
  else if a.(st_SnapshotKnown) && negb (a.(st_KVUsedBytes) =? b.(st_KVUsedBytes))
       then a.(st_KVUsedBytes) <? b.(st_KVUsedBytes)
  else if a.(st_SnapshotKnown) && negb (a.(st_ModelCount) =? b.(st_ModelCount))
       then a.(st_ModelCount) <? b.(st_ModelCount)
  else false.

(** float64 as IEEE binary64 with its comparisons. *)
Definition float64 : Type := spec_float.

Definition rankLess (loc : float64) (load : Z) (name : string)
    (bLoc : float64) (bLoad : Z) (bName : string) : bool :=
  if negb (SFeqb loc bLoc) then SFltb loc bLoc
  else if negb (load =? bLoad) then load <? bLoad
  else strless name bName.

(** The interface [LocalityProvider], and the provider a nil one stands for. *)
Class LocalityProvider : Type := Cost : string → string → float64.
Definition uniformLocality : LocalityProvider := fun _ _ => S754_zero false.

Record rankedPod `{K8s} : Type := MkRanked {
  rk_pod : Pod;
  rk_state : PodPlacementState;
  rk_loc : float64;
  rk_load : Z;
}.

Definition ranksBefore `{K8s} (a b : rankedPod) : bool :=
  placementStateLess a.(rk_state) b.(rk_state) ||
  (negb (placementStateLess b.(rk_state) a.(rk_state)) &&
   rankLess a.(rk_loc) a.(rk_load) a.(rk_pod).(pod_Name)
            b.(rk_loc) b.(rk_load) b.(rk_pod).(pod_Name)).

Section Select.
Context `{K8s}.
Context (alreadyOn : gset string) (load : gmap string Z) (model : string)
  (locality : option LocalityProvider) (states : gmap string PodPlacementState).

Definition rankedOf (pod : Pod) : rankedPod :=
  let cost := default uniformLocality locality in
  MkRanked _ pod (default zeroState (states !! pod.(pod_Name))) (cost model pod.(pod_NodeName))
    (default 0 (load !! pod.(pod_Name))).

Definition selectPodForActivationWithState (candidates : list Pod) : option Pod :=
  rk_pod <$> foldl (fun best pod =>
    if bool_decide (pod.(pod_Name) ∈ alreadyOn) then best
    else keepBest ranksBefore best (rankedOf pod)) None candidates.
End Select.

Definition selectPodForActivation `{K8s} (candidates : list Pod) (alreadyOn : gset string)
    (load : gmap string Z) (model : string) (locality : option LocalityProvider) : option Pod :=
  selectPodForActivationWithState alreadyOn load model locality ∅ candidates.

(** ** The shared memory segment's name. *)

(** How many bytes the rune at the head of a string takes, as Go decodes UTF-8:
    a malformed sequence is one byte. *)
Definition between (lo hi : nat) (c : ascii) : bool :=
  (lo <=? nat_of_ascii c)%nat && (nat_of_ascii c <=? hi)%nat.

Definition continues (s : string) (lo hi more : nat) : bool :=
  match s with
  | String b1 rest =>
      between lo hi b1 &&
      match more, rest with
      | 0%nat, _ => true
      | 1%nat, String b2 _ => between 128 191 b2
      | 2%nat, String b2 (String b3 _) => between 128 191 b2 && between 128 191 b3
      | _, _ => false
      end
  | EmptyString => false
  end.

Definition runeWidth (c : ascii) (rest : string) : nat :=
  if between 194 223 c && continues rest 128 191 0 then 2
  else if between 224 224 c && continues rest 160 191 1 then 3
  else if between 237 237 c && continues rest 128 159 1 then 3
  else if between 225 239 c && negb (between 237 237 c) && continues rest 128 191 1 then 3
  else if between 240 240 c && continues rest 144 191 2 then 4
  else if between 241 243 c && continues rest 128 191 2 then 4
  else if between 244 244 c && continues rest 128 143 2 then 4
  else 1.

Definition ipcClean (c : ascii) : bool :=
  between 97 122 c || between 65 90 c || between 48 57 c || Ascii.eqb c "_" || Ascii.eqb c "-".

(** [skip] counts the bytes left of the rune last written. *)
Fixpoint sanitizeFrom (skip : nat) (s : string) : string :=
  match s with
  | EmptyString => ""
  | String c rest =>
      match skip with
      | S k => sanitizeFrom k rest
      | O => if ipcClean c then String c (sanitizeFrom 0 rest)
             else String "-" (sanitizeFrom (runeWidth c rest - 1) rest)
      end
  end.

Definition sanitizeIPCName (s : string) : string := sanitizeFrom 0 s.

Definition ipcNameFor `{K8s} (pm : ModelClaim) : string :=
  String.append "kvc_" (sanitizeIPCName pm.(mc_Name)).

(** ** The gate admits what fits. *)

Section GateFacts.
Context `{K8s}.
Context (ledgers : gmap string podLedger) (minimumReserve instanceGPUs : Z).

Lemma admissibleCandidates_split candidates :
  admissibleCandidates ledgers minimumReserve instanceGPUs candidates =
  (List.filter (fun pod => bool_decide (refusalOf ledgers minimumReserve instanceGPUs pod = None)) candidates,
   omap (refusalOf ledgers minimumReserve instanceGPUs) candidates).
Proof.
  induction candidates as [|pod candidates IH]; simpl; [done|]. rewrite IH.
  by destruct (refusalOf ledgers minimumReserve instanceGPUs pod).
Qed.

Lemma refusalOf_none pod :
  let l := ledgerOf ledgers (pod_Name pod) in
  refusalOf ledgers minimumReserve instanceGPUs pod = None ↔
  (unread l = false ∧ podHasGPUs pod (accelerators l) = false) ∨
  (judgeable l = true ∧ fitsTopology pod l instanceGPUs = true ∧
   minimumReserve ≤ maximumRoomBytes l ∧ minimumReserve ≤ heldRoomBytes l).
Proof.
  intros l. unfold refusalOf. fold l.
  destruct (unread l) eqn:Eu, (podHasGPUs pod (accelerators l)) eqn:Eg; simpl;
    try (split; [by left|done]);
  (destruct (judgeable l) eqn:Ej; simpl; [|split; [done|naive_solver]]);
  (destruct (fitsTopology pod l instanceGPUs) eqn:Ef; simpl; [|split; [done|naive_solver]]);
  (destruct (Z.ltb_spec (maximumRoomBytes l) minimumReserve); simpl;
    [split; [done|intros [[? ?]|(_ & _ & ? & ?)]; [done|lia]]|]);
  (destruct (Z.ltb_spec (heldRoomBytes l) minimumReserve); simpl;
    [split; [done|intros [[? ?]|(_ & _ & ? & ?)]; [done|lia]]|]); split; auto.
Qed.
End GateFacts.

(** Charging the newcomer an admitted pod was judged for. *)
Lemma admitted_newcomer_fits l reserve :
  balanced l → reserve ≤ heldRoomBytes l →
  sumZ heldBytes (engines l) + reserve ≤ plannableBytes l.
Proof. intros [_ HB] Hr. unfold heldRoomBytes, plannableBytes in *. lia. Qed.

(** ** Ranking is a strict weak order. *)

Definition stateOrder : PodPlacementState → PodPlacementState → bool :=
  thenBy (byFlag st_ArtifactCached) $ thenBy (byFlag st_SnapshotKnown) $
  thenBy (byFlag st_MemoryKnown) $ thenBy (byFlag st_MaximumRoomKnown) $
  thenBy (byKey (fun s => if st_SnapshotKnown s then st_AwakeCount s else 0)) $
  thenBy (byKey (fun s => if st_MaximumRoomKnown s then - st_MaximumRoomBytes s else 0)) $
  thenBy (byKey (fun s => if st_MemoryKnown s then - st_HBMFreeBytes s else 0)) $
  thenBy (byKey (fun s => if st_SnapshotKnown s then st_KVUsedBytes s else 0)) $
  byKey (fun s => if st_SnapshotKnown s then st_ModelCount s else 0).

Lemma thenBy_flag {A} (f : A → bool) (g : A → A → bool) a b :
  thenBy (byFlag f) g a b = if negb (Bool.eqb (f a) (f b)) then f a else g a b.
Proof. unfold thenBy, byFlag. by destruct (f a), (f b). Qed.

Lemma thenBy_key {A} (k : A → Z) (g : A → A → bool) a b :
  thenBy (byKey k) g a b = if negb (k a =? k b) then k a <? k b else g a b.
Proof.
  unfold thenBy, byKey.
  destruct (Z.ltb_spec (k a) (k b)), (Z.ltb_spec (k b) (k a)), (Z.eqb_spec (k a) (k b));
    simpl; try lia; done.
Qed.

Lemma eqb_opp x y : (- x =? - y) = (x =? y).
Proof. destruct (Z.eqb_spec (- x) (- y)), (Z.eqb_spec x y); lia. Qed.

Lemma ltb_opp x y : (- x <? - y) = (y <? x).
Proof. destruct (Z.ltb_spec (- x) (- y)), (Z.ltb_spec y x); lia. Qed.

Lemma placementStateLess_order a b : placementStateLess a b = stateOrder a b.
Proof.
  unfold placementStateLess, stateOrder. rewrite !thenBy_flag, !thenBy_key. unfold byKey.
  destruct (Bool.eqb_spec (st_ArtifactCached a) (st_ArtifactCached b)); simpl; [|done].
  destruct (Bool.eqb_spec (st_SnapshotKnown a) (st_SnapshotKnown b)) as [<-|]; simpl; [|done].
  destruct (Bool.eqb_spec (st_MemoryKnown a) (st_MemoryKnown b)) as [<-|]; simpl; [|done].
  destruct (Bool.eqb_spec (st_MaximumRoomKnown a) (st_MaximumRoomKnown b)) as [<-|]; simpl; [|done].
  destruct (st_SnapshotKnown a), (st_MaximumRoomKnown a), (st_MemoryKnown a); simpl;
    rewrite ?eqb_opp, ?ltb_opp; repeat case_match; try done;
    repeat match goal with E : negb (_ =? _) = false |- _ => apply negb_false_iff, Z.eqb_eq in E end;
    symmetry; apply Z.ltb_ge; lia.
Qed.

#[export] Instance placementStateLess_weak : StrictWeak placementStateLess.
Proof.
  assert (StrictWeak stateOrder) as [H1 H2] by apply _.
  split; intros *; rewrite !placementStateLess_order; eauto.
Qed.

(** binary64 without NaN, as three integers compared in turn. *)
Definition floatKeys (f : float64) : Z * Z * Z :=
  match f with
  | S754_nan => (3, 0, 0)
  | S754_infinity s => (if s then -2 else 2, 0, 0)
  | S754_zero _ => (0, 0, 0)
  | S754_finite s m e => if s then (-1, - e, - Zpos m) else (1, e, Zpos m)
  end.

Definition notNaN (f : float64) : bool := match f with S754_nan => false | _ => true end.

Definition floatOrder : float64 → float64 → bool :=
  thenBy (byKey (fun f => (floatKeys f).1.1))
    (thenBy (byKey (fun f => (floatKeys f).1.2)) (byKey (fun f => (floatKeys f).2))).

Lemma float_compare a b :
  notNaN a = true → notNaN b = true →
  SFltb a b = floatOrder a b ∧ SFeqb a b = negb (floatOrder a b) && negb (floatOrder b a).
Proof.
  intros Ha Hb. unfold SFltb, SFeqb, floatOrder. rewrite !thenBy_key. unfold byKey.
  destruct a as [s1|[]| |[] m1 e1]; try discriminate Ha;
  destruct b as [s2|[]| |[] m2 e2]; try discriminate Hb; try (split; reflexivity);
    cbn [SFcompare floatKeys fst snd]; change (Pos.compare_cont Eq m1 m2) with (Pos.compare m1 m2);
    rewrite ?eqb_opp, ?ltb_opp; simpl (negb (_ =? _));
    destruct (Z.compare_spec e1 e2), (Pos.compare_spec m1 m2); subst;
    repeat match goal with
    | |- context [?x =? ?y] => destruct (Z.eqb_spec x y); try lia
    | |- context [?x <? ?y] => destruct (Z.ltb_spec x y); try lia
    end; split; reflexivity.
Qed.

#[export] Instance floatOrder_weak : StrictWeak floatOrder.
Proof. apply _. Qed.

Section SelectFacts.
Context `{K8s}.

Definition rankOrder : rankedPod → rankedPod → bool :=
  thenBy (fun a b => placementStateLess (rk_state a) (rk_state b)) $
  thenBy (fun a b => floatOrder (rk_loc a) (rk_loc b)) $
  thenBy (byKey rk_load) (fun a b => strless (pod_Name (rk_pod a)) (pod_Name (rk_pod b))).

#[export] Instance rankOrder_weak : StrictWeak rankOrder.
Proof.
  apply thenBy_weak; [apply (StrictWeak_key placementStateLess rk_state), _|].
  apply thenBy_weak; [apply (StrictWeak_key floatOrder rk_loc), _|].
  apply thenBy_weak; [apply _|apply (StrictWeak_key strless (fun r => pod_Name (rk_pod r))), _].
Qed.

Lemma ranksBefore_order a b :
  notNaN (rk_loc a) = true → notNaN (rk_loc b) = true → ranksBefore a b = rankOrder a b.
Proof.
  intros Ha Hb. unfold ranksBefore, rankOrder, thenBy at 1. f_equal. f_equal.
  unfold rankLess. destruct (float_compare (rk_loc a) (rk_loc b) Ha Hb) as [-> ->].
  unfold thenBy at 1.
  destruct (floatOrder (rk_loc a) (rk_loc b)) eqn:E1; simpl; [done|].
  destruct (floatOrder (rk_loc b) (rk_loc a)) eqn:E2; simpl; [done|].
  rewrite thenBy_key. done.
Qed.

(** Two candidates of different names never tie. *)
Lemma rankOrder_total a b :
  rankOrder a b = false → rankOrder b a = false → pod_Name (rk_pod a) = pod_Name (rk_pod b).
Proof.
  unfold rankOrder. intros H1 H2.
  destruct (thenBy_level _ _ _ _ H1 H2) as [H3 H4].
  destruct (thenBy_level _ _ _ _ H3 H4) as [H5 H6].
  destruct (thenBy_level _ _ _ _ H5 H6) as [H7 H8].
  by apply strless_total.
Qed.
End SelectFacts.

Lemma foldl_keepBest_filter {A B} (better : B → B → bool) (skip : A → bool) (f : A → B) l best :
  foldl (fun best x => if skip x then best else keepBest better best (f x)) best l =
  foldl (keepBest better) best (f <$> List.filter (fun x => negb (skip x)) l).
Proof.
  revert best. induction l as [|x l IH]; intros best; simpl; [done|].
  destruct (skip x); simpl; apply IH.
Qed.

Lemma foldl_keepBest_ext {A} (f g : A → A → bool) l best :
  (∀ x y, x ∈ option_list best ++ l → y ∈ option_list best ++ l → f x y = g x y) →
  foldl (keepBest f) best l = foldl (keepBest g) best l.
Proof.
  revert best. induction l as [|x l IH]; intros best Hfg; simpl; [done|].
  assert (keepBest f best x = keepBest g best x) as ->.
  { destruct best as [b|]; simpl; [|done]. rewrite Hfg; [done|set_solver..]. }
  apply IH. intros y z Hy Hz. apply Hfg; destruct best as [b|]; simpl in *;
    try (destruct (g x b)); set_solver.
Qed.

Lemma tooLargeFrom_spec `{K8s} ledgers reserve largest candidates v :
  tooLargeFrom ledgers reserve largest candidates = Some v →
  largest ≤ v ∧
  (v = largest ∨ ∃ pod, pod ∈ candidates ∧ v = hbmUsableBytes (ledgerOf ledgers (pod_Name pod))) ∧
  ∀ pod, pod ∈ candidates →
    let l := ledgerOf ledgers (pod_Name pod) in
    podHasGPUs pod (accelerators l) = true ∧ 0 < hbmUsableBytes l < reserve ∧ hbmUsableBytes l ≤ v.
Proof.
  revert largest. induction candidates as [|pod candidates IH]; intros largest Hv; simpl in Hv.
  { simplify_eq. split; [lia|]. split; [by left|set_solver]. }
  destruct (podHasGPUs pod _) eqn:Eg; [|done]. simpl in Hv.
  destruct (Z.leb_spec (hbmUsableBytes (ledgerOf ledgers (pod_Name pod))) 0); [done|].
  destruct (Z.leb_spec reserve (hbmUsableBytes (ledgerOf ledgers (pod_Name pod)))); [done|].
  apply IH in Hv as (Hle & Hex & Hall). split; [lia|]. split.
  - destruct Hex as [->|(p & ? & ->)]; [|right; exists p; set_solver].
    destruct (Z.max_spec largest (hbmUsableBytes (ledgerOf ledgers (pod_Name pod)))) as [[_ ->]|[_ ->]];
      [right; exists pod; set_solver|by left].
  - intros p [->|Hp]%elem_of_cons; [|by apply Hall]. split_and!; [done|lia..].
Qed.

Definition refusalOrder : podRefusal → podRefusal → bool :=
  thenBy (byFlag ref_known) $ thenBy (byFlag (fun r => ref_known r && ref_couldHold r)) $
  byKey (fun r => if ref_known r then - ref_roomBytes r else 0).

Lemma roomier_order a b : roomier a b = refusalOrder a b.
Proof.
  unfold roomier, refusalOrder. rewrite !thenBy_flag. unfold byKey.
  destruct (ref_known a), (ref_known b), (ref_couldHold a), (ref_couldHold b); simpl;
    by rewrite ?ltb_opp, ?Z.ltb_irrefl.
Qed.

#[export] Instance roomier_weak : StrictWeak roomier.
Proof.
  assert (StrictWeak refusalOrder) as [H1 H2] by apply _.
  split; intros *; rewrite !roomier_order; eauto.
Qed.

Lemma foldl_if_keepBest {A} (better : A → A → bool) l b :
  Some (foldl (fun best x => if better x best then x else best) b l) =
  foldl (keepBest better) (Some b) l.
Proof.
  revert b. induction l as [|x l IH]; intros b; simpl; [done|]. rewrite IH. by destruct (better x b).
Qed.

(** ** Names. *)

Definition allClean (s : string) : bool := forallb ipcClean (String.list_ascii_of_string s).

Lemma sanitizeFrom_clean skip s : allClean (sanitizeFrom skip s) = true.
Proof.
  revert skip. induction s as [|c s IH]; intros skip; [done|]. destruct skip as [|skip]; simpl; [|apply IH].
  unfold allClean in *. destruct (ipcClean c) eqn:E; simpl; [by rewrite E, IH|apply IH].
Qed.

Lemma sanitizeIPCName_id s : allClean s = true → sanitizeIPCName s = s.
Proof.
  unfold sanitizeIPCName, allClean. induction s as [|c s IH]; simpl; [done|].
  intros [Hc Hs]%andb_true_iff. rewrite Hc. by rewrite IH.
Qed.

(** ** Properties. *)


(** The pod placement picks ranks before every other pod it could have
    picked, so the pick does not depend on the order pods are listed in; and
    none is picked exactly when the model is on every candidate already. *)
Theorem selectPod_ranks_first `{K8s} alreadyOn load model locality states candidates :
  (∀ m n, notNaN (default uniformLocality locality m n) = true) →
  NoDup (pod_Name <$> candidates) →
  let rank := rankedOf load model locality states in
  match selectPodForActivationWithState alreadyOn load model locality states candidates with
  | Some pod => pod ∈ candidates ∧ (pod_Name pod ∉ alreadyOn) ∧
      ∀ other, other ∈ candidates → pod_Name other ∉ alreadyOn → other ≠ pod →
        ranksBefore (rank pod) (rank other) = true ∧ ranksBefore (rank other) (rank pod) = false
  | None => ∀ pod, pod ∈ candidates → pod_Name pod ∈ alreadyOn
  end.
Proof.
  intros Hnan Hnd rank. unfold selectPodForActivationWithState.
  rewrite foldl_keepBest_filter, (foldl_keepBest_ext _ rankOrder).
  2:{ intros x y Hx Hy. simpl in *. apply list_elem_of_fmap in Hx as (p & -> & _).
      apply list_elem_of_fmap in Hy as (q & -> & _). apply ranksBefore_order; apply Hnan. }
  fold rank. set (free := List.filter _ candidates).
  assert (∀ p, p ∈ free ↔ p ∈ candidates ∧ pod_Name p ∉ alreadyOn) as Hfree.
  { intros p. unfold free. rewrite list_elem_of_In, filter_In, <- list_elem_of_In.
    by rewrite negb_true_iff, bool_decide_eq_false. }
  pose proof (keepBest_least rankOrder (rank <$> free)) as Hleast.
  destruct (foldl _ None _) as [best|]; simpl.
  - destruct Hleast as [(p & -> & Hp)%list_elem_of_fmap Hmin]. apply Hfree in Hp as [Hp Hpo].
    split; [done|]. split; [done|]. intros other Ho Hoo Hne.
    rewrite !ranksBefore_order by apply Hnan.
    assert (rankOrder (rank other) (rank p) = false) as Hlt.
    { apply Hmin, list_elem_of_fmap_2, Hfree. done. }
    split; [|done]. destruct (rankOrder (rank p) (rank other)) eqn:E; [done|].
    exfalso. apply Hne. pose proof (rankOrder_total _ _ Hlt E) as Hname. simpl in Hname.
    apply list_elem_of_lookup in Ho as [i Hi], Hp as [j Hj].
    assert (i = j) as <-; [|simpl; congruence].
    eapply NoDup_lookup; [exact Hnd|..]; rewrite list_lookup_fmap; [by rewrite Hi|by rewrite Hj, Hname].
  - intros pod Hpod. destruct (decide (pod_Name pod ∈ alreadyOn)); [done|].
    assert (pod ∈ free) as Hf by (by apply Hfree). destruct free; [set_solver|done].
Qed.

(** A claim is called too large only when no card could ever take it: every
    candidate has cards, each was measured and is smaller than the model needs,
    the figure reported is the largest of them, and the gate admits none. *)
Theorem tooLargeForEveryCard_sound `{K8s} ledgers reserve gpus candidates v :
  tooLargeForEveryCard ledgers reserve candidates = Some v →
  (∀ l, l ∈ (map_to_list ledgers).*2 →
     0 ≤ totalMinimumReserveBytes l ∧ 0 ≤ reservedBytes l) →
  candidates ≠ [] ∧ v < reserve ∧
  (∃ pod, pod ∈ candidates ∧ v = hbmUsableBytes (ledgerOf ledgers (pod_Name pod))) ∧
  (∀ pod, pod ∈ candidates → hbmUsableBytes (ledgerOf ledgers (pod_Name pod)) ≤ v) ∧
  (admissibleCandidates ledgers reserve gpus candidates).1 = [].
Proof.
  unfold tooLargeForEveryCard. case_bool_decide as Hlen; [done|]. intros Hv HL.
  apply tooLargeFrom_spec in Hv as (H0 & H1 & H2).
  destruct candidates as [|p0 ps]; [done|].
  destruct (H2 p0) as (_ & Hp0 & Hp0v); [set_solver|].
  assert (∃ pod, pod ∈ p0 :: ps ∧ v = hbmUsableBytes (ledgerOf ledgers (pod_Name pod))) as Hex.
  { destruct H1 as [->|?]; [lia|done]. }
  split_and!; [done| |done|intros pod Hp; by apply H2|].
  { destruct Hex as (p & Hp & ->). by apply H2. }
  rewrite admissibleCandidates_split. cbn [fst].
  destruct (List.filter _ (p0 :: ps)) as [|q qs] eqn:Ef; [done|exfalso].
  assert (q ∈ q :: qs) as Hq by set_solver. rewrite <- Ef in Hq.
  rewrite list_elem_of_In, filter_In, <- list_elem_of_In in Hq.
  destruct Hq as [Hin Hn%bool_decide_eq_true]. destruct (H2 q Hin) as (Hg & Hu & _).
  apply refusalOf_none in Hn as [[_ E2]|(_ & _ & E3 & _)]; [congruence|].
  unfold maximumRoomBytes, ledgerOf in *.
  destruct (ledgers !! pod_Name q) as [l|] eqn:El; simpl in *; [|lia].
  destruct (HL l) as [? ?]; [|lia]. apply list_elem_of_fmap. exists (pod_Name q, l).
  split; [done|]. by apply elem_of_map_to_list.
Qed.

(** The refusal an operator is told about is the one worth acting on: a
    card whose room is known before one whose room is not, then a card that
    could hold the model once engines give memory back, then the roomiest. *)
Theorem summarizeRefusals_names_roomiest refusals :
  match summarizeRefusals refusals with
  | Some (named, others) =>
      named ∈ refusals ∧ length refusals = S others ∧
      ∀ r, r ∈ refusals → ref_known r = true →
        ref_known named = true ∧
        (ref_couldHold r = true → ref_couldHold named = true) ∧
        (ref_couldHold r = ref_couldHold named → ref_roomBytes r ≤ ref_roomBytes named)
  | None => refusals = []
  end.
Proof.
  destruct refusals as [|r0 rs]; simpl; [done|].
  assert (roomier r0 r0 = false) as ->.
  { unfold roomier. destruct (ref_known r0), (ref_couldHold r0); simpl; try done; apply Z.ltb_irrefl. }
  pose proof (keepBest_least roomier (r0 :: rs)) as Hl. simpl in Hl.
  rewrite <- foldl_if_keepBest in Hl. destruct Hl as [Hin Hmin].
  revert Hin Hmin. generalize (foldl (fun best r => if roomier r best then r else best) r0 rs).
  intros named Hin Hmin. split; [done|]. split; [lia|]. intros r Hr Hk. specialize (Hmin r Hr).
  unfold roomier in Hmin. rewrite Hk in Hmin. simpl in Hmin.
  destruct (ref_known named) eqn:E1; simpl in Hmin; [|done]. split; [done|].
  destruct (ref_couldHold r), (ref_couldHold named); simpl in *; try done;
    split; intros; try done; apply Z.ltb_ge in Hmin; lia.
Qed.

(** A segment name is made of letters, digits, underscores and dashes only,
    and a claim whose name already is keeps it. *)
Theorem sanitizeIPCName_normalises s :
  allClean (sanitizeIPCName s) = true ∧
  (allClean s = true → sanitizeIPCName s = s) ∧
  sanitizeIPCName (sanitizeIPCName s) = sanitizeIPCName s.
Proof.
  split_and!; [apply sanitizeFrom_clean|apply sanitizeIPCName_id|].
  apply sanitizeIPCName_id, sanitizeFrom_clean.
Qed.

(** Segment names are not unique per claim, although they have to be unique
    per GPU: two claims of one namespace whose names differ in a dot and a dash
    only get the same segment, and the account then reads either engine's
    snapshot key as the other's. *)
Theorem ipcNameFor_collides :
  ∃ (a b : @ModelClaim NanoK8s) (ma mb : RuntimeSnapshotModel),
    mc_Namespace a = mc_Namespace b ∧ mc_Name a ≠ mc_Name b ∧
    sm_IPCName ma = @ipcNameFor NanoK8s a ∧ sm_IPCName mb = @ipcNameFor NanoK8s b ∧
    sm_ModelName ma ≠ sm_ModelName mb ∧
    snapshotActivityKey ma = snapshotActivityKey mb.
Proof.
  set (model n := MkSnapshotModel n None "kvc_qwen3-0-6b" "active" true true None 0 0 None None
                    true 0 0 None "" 9000).
  exists (exClaim "qwen3-0.6b" ModelClaimActive), (exClaim "qwen3-0-6b" ModelClaimActive),
    (model "qwen3-0.6b"), (model "qwen3-0-6b").
  split_and!; vm_compute; done.
Qed.

(** ** Witnesses. *)

Section PlacementWitnesses.
Local Existing Instance NanoK8s.

Lemma exLedgers_balanced l : l ∈ (map_to_list exLedgers).*2 → balanced l.
Proof.
  revert l. apply Forall_forall.
  assert ((map_to_list exLedgers).*2 = [exLedger]) as -> by (vm_compute; reflexivity).
  constructor; [|constructor]. split; vm_compute; reflexivity.
Qed.


Definition exPodB : Pod :=
  MkPod "ns" "pod-b" "pod-b-uid" ∅ ∅ "node-1" "10.0.0.2" [] [MkContainer {["nvidia.com/gpu" := 10 ^ 9]} ∅] None "Running" None.

Lemma selectPod_ranks_first_witness :
  pod_Name <$> selectPodForActivationWithState ∅ {["pod-a" := 2]} "m" None ∅ [exPod; exPodB]
    = Some "pod-b" ∧
  ranksBefore (rankedOf {["pod-a" := 2]} "m" None ∅ exPodB)
    (rankedOf {["pod-a" := 2]} "m" None ∅ exPod) = true.
Proof.
  assert (pod_Name <$> selectPodForActivationWithState ∅ {["pod-a" := 2]} "m" None ∅ [exPod; exPodB]
    = Some "pod-b") as Hs by (vm_compute; reflexivity).
  split; [exact Hs|].
  pose proof (selectPod_ranks_first ∅ {["pod-a" := 2]} "m" None ∅ [exPod; exPodB]) as Hsel.
  destruct (selectPodForActivationWithState ∅ {["pod-a" := 2]} "m" None ∅ [exPod; exPodB]) as [p|];
    [|discriminate Hs].
  destruct Hsel as (Hp & _ & Hall);
    [intros; reflexivity|apply (bool_decide_unpack _); vm_compute; exact I|].
  apply elem_of_cons in Hp. destruct Hp as [Hp|Hp].
  { exfalso. rewrite Hp in Hs. discriminate Hs. }
  apply list_elem_of_singleton in Hp. rewrite Hp in Hall.
  apply Hall; [apply elem_of_cons; left; reflexivity|apply not_elem_of_empty|].
  intros Heq. apply (f_equal pod_Name) in Heq. discriminate Heq.
Defined.

Lemma tooLargeForEveryCard_sound_witness :
  tooLargeForEveryCard exLedgers (90 * exGiB) [exPod] = Some (78 * exGiB) ∧
  (admissibleCandidates exLedgers (90 * exGiB) 1 [exPod]).1 = [].
Proof.
  assert (tooLargeForEveryCard exLedgers (90 * exGiB) [exPod] = Some (78 * exGiB)) as Ht
    by (vm_compute; reflexivity).
  split; [exact Ht|].
  apply (tooLargeForEveryCard_sound exLedgers (90 * exGiB) 1 [exPod] (78 * exGiB) Ht).
  apply Forall_forall.
  assert ((map_to_list exLedgers).*2 = [exLedger]) as -> by (vm_compute; reflexivity).
  constructor; [|constructor]. split; vm_compute; discriminate.
Defined.
End PlacementWitnesses.
