(* ===== verification/Reservations.v ===== *)
(** * Cards held for a claim, and what sleeping engines held
    ([pkg/controller/modelclaim/makeroom.go]).

    [cardReservations] is the controller's memory of the cards that room is
    being made on.  Every operation takes the clock, drops the holds that ran
    out and returns the new map.  [sleepingFootprints] remembers what each
    claim's engine was last seen to hold asleep.  Go visits a map in any order;
    a loop that only deletes or adds is a filter or a fold, and the theorem
    [reservations_unambiguous] says why the loops that return the first match
    have one match only. *)

From S2P Require Import Prelude Api Claims Ledger KVPlan Placement.

Definition reservationLifetime : Duration := 2 * Minute.

Record cardReservation : Type := MkReservation {
  res_claim : string;
  res_bytes : Z;
  res_until : Time;
  res_protectsWake : bool;
}.

Abbreviation cardReservations := (gmap NamespacedName cardReservation).

Definition newCardReservations : cardReservations := ∅.

(** [cardOf] of division.go. *)
Definition cardOf `{K8s} (pod : Pod) : NamespacedName := MkNN pod.(pod_Namespace) pod.(pod_Name).

(** [!now.Before(until)] is what is dropped. *)
Definition prune (held : cardReservations) (now : Time) : cardReservations :=
  filter (fun kv => now < kv.2.(res_until)) held.

Definition heldBy (namespace claim : string) (kv : NamespacedName * cardReservation) : Prop :=
  kv.1.(nn_Namespace) = namespace ∧ kv.2.(res_claim) = claim.

#[export] Instance heldBy_dec namespace claim kv : Decision (heldBy namespace claim kv).
Proof. unfold heldBy. apply _. Defined.

Definition protectWake (r : cardReservation) : cardReservation :=
  MkReservation r.(res_claim) r.(res_bytes) r.(res_until) true.

Definition holdWithWakeProtection (held : cardReservations) (card : NamespacedName)
    (claim : string) (bytes : Z) (now : Time) (protectsWake : bool) : cardReservations * bool :=
  let held := prune held now in
  match held !! card with
  | Some current =>
      if negb (bool_decide (current.(res_claim) = claim)) then (held, false)
      else if protectsWake && negb current.(res_protectsWake)
           then (<[card := protectWake current]> held, true)
           else (held, true)
  | None =>
      let held := filter (fun kv => ¬ heldBy card.(nn_Namespace) claim kv) held in
      (<[card := MkReservation claim bytes (timeAdd now reservationLifetime) protectsWake]> held, true)
  end.

Definition hold (held : cardReservations) (card : NamespacedName) (claim : string) (bytes : Z)
    (now : Time) : cardReservations * bool :=
  holdWithWakeProtection held card claim bytes now false.

Definition holdPreemption (held : cardReservations) (card : NamespacedName) (claim : string)
    (bytes : Z) (now : Time) : cardReservations * bool :=
  holdWithWakeProtection held card claim bytes now true.

(** The first match of a loop over the map, in the order of [map_to_list]. *)
Definition firstHeld (P : NamespacedName * cardReservation → bool) (held : cardReservations)
  : option NamespacedName := fst <$> List.find P (map_to_list held).

Definition heldFor (held : cardReservations) (namespace claim : string) (now : Time)
  : cardReservations * option NamespacedName :=
  let held := prune held now in
  (held, firstHeld (fun kv => bool_decide (heldBy namespace claim kv)) held).

Definition preemptionHeldFor (held : cardReservations) (namespace claim : string) (now : Time)
  : cardReservations * option NamespacedName :=
  let held := prune held now in
  (held, firstHeld (fun kv => bool_decide (heldBy namespace claim kv) && kv.2.(res_protectsWake)) held).

Definition release (held : cardReservations) (namespace claim : string) : cardReservations :=
  filter (fun kv => ¬ heldBy namespace claim kv) held.

(** Taking one hold off the account of its card. *)
Definition chargeHold (name : string) (bytes : Z) (ledgers : gmap string podLedger)
  : gmap string podLedger :=
  match ledgers !! name with
  | Some ledger => if ledger.(judgeable) then <[name := addReserved ledger bytes]> ledgers else ledgers
  | None => ledgers
  end.

Definition takeFrom (held : cardReservations) (ledgers : gmap string podLedger)
    (namespace claim : string) (now : Time) : cardReservations * gmap string podLedger :=
  let held := prune held now in
  (held, map_fold (fun card current ledgers =>
           if negb (bool_decide (card.(nn_Namespace) = namespace)) ||
              bool_decide (current.(res_claim) = claim) then ledgers
           else chargeHold card.(nn_Name) current.(res_bytes) ledgers) ledgers held).

Section Reservations.
Context `{K8s}.

(** Whether a wake goes before the claim a card is held for. *)
Definition wakesBefore (claims : option (list ModelClaim)) (waker : ModelClaim)
    (card : NamespacedName) (current : cardReservation) : bool :=
  match modelClaimPriority claims card.(nn_Namespace) current.(res_claim) with
  | Some ownerPriority => ownerPriority <? waker.(spec_Priority)
  | None => false
  end.

Definition takePreemptionsFrom (held : cardReservations) (ledgers : gmap string podLedger)
    (claims : option (list ModelClaim)) (waker : option ModelClaim) (now : Time)
  : cardReservations * gmap string podLedger :=
  match waker with
  | None => (held, ledgers)
  | Some waker =>
      let held := prune held now in
      (held, map_fold (fun card current ledgers =>
               if negb (bool_decide (card.(nn_Namespace) = waker.(mc_Namespace))) ||
                  negb current.(res_protectsWake) then ledgers
               else if wakesBefore claims waker card current then ledgers
               else chargeHold card.(nn_Name) current.(res_bytes) ledgers) ledgers held)
  end.

(** The loop over the card's engines; Go evaluates the range once. *)
Definition withoutWakesUpTo (claims : option (list ModelClaim)) (namespace : string) (priority : Z)
    (ledger : podLedger) : podLedger :=
  foldl (fun l engine =>
    if negb engine.(eng_asleep) || negb engine.(eng_wakeReserveAsked) then l
    else match modelClaimPriority claims namespace engine.(eng_claimName) with
         | Some wakerPriority =>
             if wakerPriority <=? priority then withWakeReserve l engine.(eng_claimName) false else l
         | None => l
         end) ledger ledger.(engines).

Definition keepWakesOutOfPreemption (held : cardReservations) (ledgers : gmap string podLedger)
    (claims : option (list ModelClaim)) (preemptor : option ModelClaim) (now : Time)
  : cardReservations * gmap string podLedger :=
  match preemptor with
  | None => (held, ledgers)
  | Some preemptor =>
      match preemptionHeldFor held preemptor.(mc_Namespace) preemptor.(mc_Name) now with
      | (held, None) => (held, ledgers)
      | (held, Some card) =>
          match ledgers !! card.(nn_Name) with
          | Some ledger =>
              if ledger.(judgeable) then
                (held, <[card.(nn_Name) :=
                   withoutWakesUpTo claims card.(nn_Namespace) preemptor.(spec_Priority) ledger]> ledgers)
              else (held, ledgers)
          | None => (held, ledgers)
          end
      end
  end.

(** ** What claims' engines held asleep. *)

Record claimFootprint : Type := MkFootprint {
  fp_uid : string;
  fp_bytes : Z;
}.

Abbreviation sleepingFootprints := (gmap NamespacedName claimFootprint).

Definition ObjectKeyFromObject (claim : ModelClaim) : NamespacedName :=
  MkNN claim.(mc_Namespace) claim.(mc_Name).

Definition note (byClaim : sleepingFootprints) (claim : ModelClaim) (bytes : Z) : sleepingFootprints :=
  <[ObjectKeyFromObject claim := MkFootprint claim.(mc_UID) bytes]> byClaim.

Definition seenAsleep (byClaim : sleepingFootprints) (claim : ModelClaim) : option Z :=
  match byClaim !! ObjectKeyFromObject claim with
  | Some seen => if bool_decide (seen.(fp_uid) = claim.(mc_UID)) then Some seen.(fp_bytes) else None
  | None => None
  end.

Definition forgetFootprint (byClaim : sleepingFootprints) (claim : NamespacedName)
  : sleepingFootprints := delete claim byClaim.
End Reservations.

(** ** What the holds promise. *)

Lemma prune_lookup held now card r :
  prune held now !! card = Some r ↔ held !! card = Some r ∧ now < res_until r.
Proof. apply map_lookup_filter_Some. Qed.

Lemma release_lookup held namespace claim card r :
  release held namespace claim !! card = Some r ↔
  held !! card = Some r ∧ ¬ heldBy namespace claim (card, r).
Proof. apply map_lookup_filter_Some. Qed.

(** A claim holds one card of its namespace at most. *)
Definition oneCard (held : cardReservations) : Prop :=
  ∀ c1 c2 r1 r2, held !! c1 = Some r1 → held !! c2 = Some r2 →
    nn_Namespace c1 = nn_Namespace c2 → res_claim r1 = res_claim r2 → c1 = c2.

Lemma oneCard_sub held held' :
  oneCard held → (∀ c r, held' !! c = Some r → held !! c = Some r) → oneCard held'.
Proof. intros H1 Hsub c1 c2 r1 r2 ? ?. eapply H1; by apply Hsub. Qed.

Lemma prune_oneCard held now : oneCard held → oneCard (prune held now).
Proof. intros H1. eapply oneCard_sub; [exact H1|]. intros c r Hc. by apply prune_lookup in Hc as [? _]. Qed.

Lemma release_oneCard held namespace claim : oneCard held → oneCard (release held namespace claim).
Proof. intros H1. eapply oneCard_sub; [exact H1|]. intros c r Hc. by apply release_lookup in Hc as [? _]. Qed.

Lemma hold_oneCard held card claim bytes now p :
  oneCard held → oneCard (holdWithWakeProtection held card claim bytes now p).1.
Proof.
  intros H1. apply (prune_oneCard _ now) in H1. unfold holdWithWakeProtection.
  set (h := prune held now) in *. destruct (h !! card) as [cur|] eqn:Ec.
  - case_bool_decide as Hcl; simpl; [|done]. destruct (p && _); simpl; [|done].
    intros c1 c2 r1 r2 Hc1 Hc2 Hn Hr.
    apply lookup_insert_Some in Hc1 as [[<- <-]|[? Hc1]], Hc2 as [[<- <-]|[? Hc2]];
      try done; simpl in *; by eapply H1.
  - simpl. intros c1 c2 r1 r2 Hc1 Hc2 Hn Hr.
    fold (release h (nn_Namespace card) claim) in *.
    apply lookup_insert_Some in Hc1 as [[<- <-]|[? Hc1]], Hc2 as [[<- <-]|[? Hc2]]; simpl in *; try done.
    + apply release_lookup in Hc2 as [_ []]. by split.
    + apply release_lookup in Hc1 as [_ []]. by split.
    + apply release_lookup in Hc1 as [? _], Hc2 as [? _]. by eapply H1.
Qed.

(** The operations of the controller on its holds, in any order and at any
    times. *)
Inductive resOp : Type :=
| OpHold (card : NamespacedName) (claim : string) (bytes : Z) (now : Time) (protectsWake : bool)
| OpRelease (namespace claim : string)
| OpRead (now : Time).

Definition applyOp (held : cardReservations) (op : resOp) : cardReservations :=
  match op with
  | OpHold card claim bytes now p => (holdWithWakeProtection held card claim bytes now p).1
  | OpRelease namespace claim => release held namespace claim
  | OpRead now => prune held now
  end.

Lemma reachable_oneCard ops held : oneCard held → oneCard (foldl applyOp held ops).
Proof.
  revert held. induction ops as [|op ops IH]; intros held Hh; simpl; [done|]. apply IH.
  destruct op; simpl; auto using hold_oneCard, release_oneCard, prune_oneCard.
Qed.

Lemma firstHeld_some P held card :
  firstHeld P held = Some card → ∃ r, held !! card = Some r ∧ P (card, r) = true.
Proof.
  unfold firstHeld. intros ([c r] & Hf & ->)%fmap_Some. apply find_some in Hf as [Hin HP].
  exists r. split; [|done]. by apply elem_of_map_to_list, list_elem_of_In.
Qed.

Lemma firstHeld_none P held :
  firstHeld P held = None → ∀ card r, held !! card = Some r → P (card, r) = false.
Proof.
  unfold firstHeld. intros E%fmap_None card r Hc.
  apply (find_none _ _ E). by apply list_elem_of_In, elem_of_map_to_list.
Qed.

(** Charging the holds of a namespace, each once and whatever the order. *)
Definition chargedWith (bytes : Z) (l : podLedger) : podLedger :=
  if judgeable l then addReserved l bytes else l.

Definition bytesHeld (skip : NamespacedName → cardReservation → bool) (held : cardReservations)
    (card : NamespacedName) : Z :=
  match held !! card with
  | Some r => if skip card r then 0 else res_bytes r
  | None => 0
  end.

Lemma chargedWith_0 l : chargedWith 0 l = l.
Proof.
  unfold chargedWith. destruct (judgeable l); [|done]. unfold addReserved. rewrite Z.add_0_r. by destruct l.
Qed.

Lemma chargedWith_add a b l : chargedWith a (chargedWith b l) = chargedWith (b + a) l.
Proof.
  unfold chargedWith. destruct (judgeable l) eqn:E; simpl; rewrite ?E; [|done].
  unfold addReserved; simpl. f_equal; lia.
Qed.

Lemma chargeHold_lookup name bytes ledgers n :
  chargeHold name bytes ledgers !! n =
  (if bool_decide (n = name) then chargedWith bytes <$> ledgers !! n else ledgers !! n).
Proof.
  unfold chargeHold, chargedWith. case_bool_decide as Hn.
  - subst. destruct (ledgers !! name) as [l|] eqn:El; simpl; [|done].
    destruct (judgeable l); by simplify_map_eq.
  - destruct (ledgers !! name) as [l|]; [|done]. destruct (judgeable l); by simplify_map_eq.
Qed.

Lemma chargeHolds_lookup namespace skip ledgers held name :
  map_fold (fun card current ledgers =>
    if negb (bool_decide (card.(nn_Namespace) = namespace)) || skip card current then ledgers
    else chargeHold card.(nn_Name) current.(res_bytes) ledgers) ledgers held !! name =
  chargedWith (bytesHeld skip held (MkNN namespace name)) <$> ledgers !! name.
Proof.
  set (f := fun card current ledgers => _).
  apply (map_fold_weak_ind (fun r m =>
    r !! name = chargedWith (bytesHeld skip m (MkNN namespace name)) <$> ledgers !! name) f).
  - unfold bytesHeld. rewrite lookup_empty. destruct (ledgers !! name); simpl; [|done].
    by rewrite chargedWith_0.
  - intros card cur m r Hm IH. unfold f. unfold bytesHeld in *.
    destruct (decide (card = MkNN namespace name)) as [->|Hne].
    + rewrite Hm in IH. rewrite lookup_insert_eq. simpl. rewrite bool_decide_eq_true_2 by done. simpl.
      destruct (skip _ cur); simpl; [done|].
      rewrite chargeHold_lookup, bool_decide_eq_true_2, IH by done.
      destruct (ledgers !! name); simpl; [|done]. by rewrite chargedWith_add.
    + rewrite lookup_insert_ne by done. case_bool_decide as Hns; simpl; [|exact IH].
      destruct (skip card cur); [exact IH|]. rewrite chargeHold_lookup, bool_decide_eq_false_2; [exact IH|].
      intros ->. apply Hne. destruct card; simpl in *; by subst.
Qed.

Section ReservationFacts.
Context `{K8s}.

Lemma takePreemptions_lookup held ledgers claims waker now name :
  (takePreemptionsFrom held ledgers claims (Some waker) now).2 !! name =
  chargedWith (bytesHeld
    (fun card r => negb (res_protectsWake r) || wakesBefore claims waker card r)
    (prune held now) (MkNN (mc_Namespace waker) name)) <$> ledgers !! name.
Proof.
  rewrite <- chargeHolds_lookup. simpl. f_equal. apply gmap_fold_ext.
  intros card r x. by destruct (bool_decide _), (res_protectsWake r), (wakesBefore _ _ _ _).
Qed.

(** What [withoutWakesUpTo] leaves of each engine. *)
Definition wakeTakenOff (claims : option (list ModelClaim)) (namespace : string) (priority : Z)
    (e : engineOnPod) : engineOnPod :=
  if e.(eng_wakeReserveAsked) &&
     match modelClaimPriority claims namespace e.(eng_claimName) with
     | Some p => p <=? priority | None => false end
  then setWakeReserve false e else e.

(** One round of the loop. *)
Definition wakeStep (claims : option (list ModelClaim)) (namespace : string) (priority : Z)
    (l : podLedger) (engine : engineOnPod) : podLedger :=
  if negb engine.(eng_asleep) || negb engine.(eng_wakeReserveAsked) then l
  else match modelClaimPriority claims namespace engine.(eng_claimName) with
       | Some wakerPriority =>
           if wakerPriority <=? priority then withWakeReserve l engine.(eng_claimName) false else l
       | None => l
       end.

Lemma wakeStep_balanced claims ns p l e : balanced l → balanced (wakeStep claims ns p l e).
Proof.
  intros Hb. unfold wakeStep. destruct (_ || _); [done|].
  destruct (modelClaimPriority _ _ _); [|done]. destruct (_ <=? _); auto with aibrix.
Qed.

Lemma wakeStep_engines claims ns p l e :
  (eng_wakeReserveAsked e = true → eng_asleep e = true) →
  engines (wakeStep claims ns p l e) =
  (fun x => if bool_decide (eng_claimName x = eng_claimName e) && eng_wakeReserveAsked e
            then wakeTakenOff claims ns p x else x) <$> engines l.
Proof.
  intros He. unfold wakeStep, wakeTakenOff.
  destruct (eng_wakeReserveAsked e) eqn:Ea.
  - rewrite He by done. simpl. destruct (modelClaimPriority claims ns (eng_claimName e)) as [q|] eqn:Eq.
    + destruct (q <=? p) eqn:Ele.
      * rewrite withWakeReserve_engines. apply list_fmap_ext. intros i x _.
        unfold reserveSet, keepsWakeReserve. rewrite andb_true_r.
        case_bool_decide as Hn; simpl; [|done]. rewrite Hn, Eq, Ele, andb_true_r.
        destruct (eng_wakeReserveAsked x); simpl; [done|]. by destruct (eng_withoutWakeReserve x).
      * rewrite <- (list_fmap_id (engines l)) at 1. apply list_fmap_ext. intros i x _.
        rewrite andb_true_r. case_bool_decide as Hn; [|done]. by rewrite Hn, Eq, Ele, andb_false_r.
    + rewrite <- (list_fmap_id (engines l)) at 1. apply list_fmap_ext. intros i x _.
      rewrite andb_true_r. case_bool_decide as Hn; [|done]. by rewrite Hn, Eq, andb_false_r.
  - rewrite orb_true_r. rewrite <- (list_fmap_id (engines l)) at 1. apply list_fmap_ext.
    intros i x _. by rewrite andb_false_r.
Qed.

Lemma wakeTakenOff_idem claims ns p e :
  wakeTakenOff claims ns p (wakeTakenOff claims ns p e) = wakeTakenOff claims ns p e.
Proof. unfold wakeTakenOff at 2 3. destruct (_ && _) eqn:E; [done|]. unfold wakeTakenOff. by rewrite E. Qed.

Lemma wakeTakenOff_name claims ns p e : eng_claimName (wakeTakenOff claims ns p e) = eng_claimName e.
Proof. unfold wakeTakenOff. by destruct (_ && _). Qed.

Lemma withoutWakes_fold claims ns p es l :
  (∀ e, e ∈ es → eng_wakeReserveAsked e = true → eng_asleep e = true) →
  engines (foldl (wakeStep claims ns p) l es) =
  (fun x => if existsb (fun e => bool_decide (eng_claimName x = eng_claimName e) &&
                                 eng_wakeReserveAsked e) es
            then wakeTakenOff claims ns p x else x) <$> engines l.
Proof.
  revert l. induction es as [|e es IH]; intros l Hes; simpl.
  { by rewrite list_fmap_id. }
  rewrite IH by set_solver. rewrite wakeStep_engines by set_solver.
  rewrite <- list_fmap_compose. apply list_fmap_ext. intros i x _. simpl.
  destruct (bool_decide (eng_claimName x = eng_claimName e) && eng_wakeReserveAsked e); simpl; [|done].
  rewrite wakeTakenOff_name, wakeTakenOff_idem. by destruct (existsb _ es).
Qed.

Lemma withoutWakesUpTo_spec claims ns p l :
  (∀ e, e ∈ engines l → eng_wakeReserveAsked e = true → eng_asleep e = true) →
  engines (withoutWakesUpTo claims ns p l) = wakeTakenOff claims ns p <$> engines l ∧
  (balanced l → balanced (withoutWakesUpTo claims ns p l)).
Proof.
  intros Hl. change (withoutWakesUpTo claims ns p l) with (foldl (wakeStep claims ns p) l (engines l)).
  split.
  - rewrite withoutWakes_fold by done. apply list_fmap_ext. intros i e He.
    apply list_elem_of_lookup_2 in He. destruct (existsb _ _) eqn:Ex; [done|].
    unfold wakeTakenOff. destruct (eng_wakeReserveAsked e) eqn:Ea; [exfalso|done].
    assert (existsb (fun e' => bool_decide (eng_claimName e = eng_claimName e') &&
      eng_wakeReserveAsked e') (engines l) = true); [|congruence].
    apply existsb_exists. exists e. rewrite <- list_elem_of_In, bool_decide_eq_true_2, Ea; done.
  - clear Hl. generalize (engines l). intros es. revert l.
    induction es as [|e es IH]; intros l Hb; simpl; [done|]. apply IH. by apply wakeStep_balanced.
Qed.
End ReservationFacts.

(** ** Properties. *)

(** Whatever the controller did to its holds before, a claim holds at most
    one card of its namespace, so the card a lookup finds is the card held for
    the claim, whatever order the map is visited in. *)
Theorem reservations_unambiguous ops namespace claim now :
  let held := foldl applyOp newCardReservations ops in
  match (heldFor held namespace claim now).2 with
  | Some card => ∃ r, held !! card = Some r ∧ heldBy namespace claim (card, r) ∧ now < res_until r ∧
      ∀ card' r', held !! card' = Some r' → heldBy namespace claim (card', r') → card' = card
  | None => ∀ card r, held !! card = Some r → heldBy namespace claim (card, r) → res_until r ≤ now
  end.
Proof.
  intros held. assert (oneCard held) as H1.
  { apply reachable_oneCard. intros c1 c2 r1 r2 Hc. by destruct (lookup_empty_Some c1 r1 Hc). }
  destruct (heldFor held namespace claim now).2 as [card|] eqn:Eh.
  - apply firstHeld_some in Eh as (r & [Hr Hu]%prune_lookup & Hb%bool_decide_eq_true).
    exists r. split_and!; [done..|]. intros card' r' Hr' [Hn Hc]. destruct Hb as [Hn' Hc'].
    apply (H1 card' card r' r); simpl in *; congruence.
  - intros card r Hr Hb. destruct (decide (now < res_until r)) as [Hu|]; [exfalso|lia].
    pose proof (firstHeld_none _ _ Eh card r (proj2 (prune_lookup _ _ _ _) (conj Hr Hu))) as Hf.
    apply bool_decide_eq_false in Hf. done.
Qed.

(** A hold is exclusive and does not renew itself.  It is refused exactly
    while the card is held for another claim, and then nothing changes; when it
    is granted the card is the claim's, a card it already held keeps its time
    and its bytes, and no live hold of another claim is lost. *)
Theorem hold_is_exclusive held card claim bytes now protects :
  let '(held', ok) := holdWithWakeProtection held card claim bytes now protects in
  (ok = false ↔ ∃ r, prune held now !! card = Some r ∧ res_claim r ≠ claim) ∧
  (ok = false → held' = prune held now) ∧
  (ok = true → ∃ r, held' !! card = Some r ∧ res_claim r = claim ∧
     (∀ r0, prune held now !! card = Some r0 →
        res_until r = res_until r0 ∧ res_bytes r = res_bytes r0) ∧
     (prune held now !! card = None →
        res_until r = now + reservationLifetime ∧ res_bytes r = bytes)) ∧
  (∀ other r, prune held now !! other = Some r →
     res_claim r ≠ claim → held' !! other = Some r).
Proof.
  unfold holdWithWakeProtection. set (h := prune held now).
  destruct (h !! card) as [cur|] eqn:Ec; simpl.
  - case_bool_decide as Hcl; simpl.
    + destruct (protects && _) eqn:Ep; simpl; (split_and!; [split; [done|naive_solver]|done| |]).
      * intros _. exists (protectWake cur). rewrite lookup_insert_eq. naive_solver.
      * intros other r Ho Hne. rewrite lookup_insert_ne; [done|naive_solver].
      * intros _. exists cur. naive_solver.
      * done.
    + split_and!; [split; [|done]; intros _; by exists cur|done|done|done].
  - split_and!; [split; [done|naive_solver]|done| |].
    + intros _. eexists. rewrite lookup_insert_eq. split; [done|]. simpl. split_and!; done.
    + intros other r Ho Hne. rewrite lookup_insert_ne by congruence.
      apply release_lookup. split; [done|]. intros [_ ?]. done.
Qed.

(** An account is charged the room held back from a claim exactly once: on
    each card that may be acted on, the bytes of the live hold another claim of
    the namespace has there, and nothing for the claim's own hold.  So a card
    held for one claim never looks roomier to another. *)
Theorem takeFrom_charges_others_once held ledgers namespace claim now name l :
  ledgers !! name = Some l →
  ∃ l', (takeFrom held ledgers namespace claim now).2 !! name = Some l' ∧
    reservedBytes l' = reservedBytes l +
      match prune held now !! MkNN namespace name with
      | Some r => if judgeable l && negb (bool_decide (res_claim r = claim)) then res_bytes r else 0
      | None => 0
      end ∧
    (balanced l → balanced l') ∧ engines l' = engines l ∧ judgeable l' = judgeable l ∧
    ((∀ r, r ∈ (map_to_list held).*2 → 0 ≤ res_bytes r) →
     maximumRoomBytes l' ≤ maximumRoomBytes l ∧ heldRoomBytes l' ≤ heldRoomBytes l).
Proof.
  intros Hl. unfold takeFrom. cbn [snd].
  rewrite (chargeHolds_lookup namespace (fun _ r => bool_decide (res_claim r = claim))), Hl. simpl.
  set (b := bytesHeld _ _ _). exists (chargedWith b l). split; [done|].
  assert (b = match prune held now !! MkNN namespace name with
    | Some r => if negb (bool_decide (res_claim r = claim)) then res_bytes r else 0 | None => 0 end) as Hb.
  { unfold b, bytesHeld. destruct (prune held now !! _); [|done]. by case_bool_decide. }
  unfold chargedWith. destruct (judgeable l) eqn:Ej; simpl.
  - rewrite Ej. split_and!; [by rewrite Hb|by rewrite addReserved_balanced|done..|].
    intros Hpos. assert (0 ≤ b) as Hb0; [|unfold maximumRoomBytes, heldRoomBytes; simpl; lia].
    rewrite Hb. destruct (prune held now !! _) as [r|] eqn:Er; [|lia].
    apply prune_lookup in Er as [Er _]. assert (0 ≤ res_bytes r) by
      (apply Hpos, list_elem_of_fmap; exists (MkNN namespace name, r); split; [done|];
       by apply elem_of_map_to_list). by destruct (negb _).
  - split_and!; try done; try (intros; lia). destruct (prune held now !! _); lia.
Qed.

(** A wake is charged the cards held by priority sleep, unless it is of
    strictly higher priority than the claim the card is held for: the room
    promised to a preemptor is not taken back by an equal or lower wake. *)
Theorem takePreemptionsFrom_protects `{K8s} held ledgers claims waker now name l r :
  ledgers !! name = Some l → judgeable l = true →
  prune held now !! MkNN (mc_Namespace waker) name = Some r → res_protectsWake r = true →
  ∃ l', (takePreemptionsFrom held ledgers claims (Some waker) now).2 !! name = Some l' ∧
    reservedBytes l' = reservedBytes l +
      match modelClaimPriority claims (mc_Namespace waker) (res_claim r) with
      | Some owner => if owner <? spec_Priority waker then 0 else res_bytes r
      | None => res_bytes r
      end.
Proof.
  intros Hl Hj Hr Hp. rewrite takePreemptions_lookup, Hl. simpl. eexists. split; [done|].
  unfold chargedWith, bytesHeld, wakesBefore. rewrite Hj, Hr, Hp. simpl.
  destruct (modelClaimPriority _ _ _) as [o|]; simpl; [|done]. by destruct (o <? _).
Qed.

(** The claim a card is held for is judged on the account without the
    reserves that equal or lower priority wakes put back there: exactly those
    engines lose the asked reserve, and the totals stay the sums. *)
Theorem keepWakesOutOfPreemption_settles `{K8s} held ledgers claims preemptor now card l :
  (preemptionHeldFor held (mc_Namespace preemptor) (mc_Name preemptor) now).2 = Some card →
  ledgers !! nn_Name card = Some l → judgeable l = true → balanced l →
  (∀ e, e ∈ engines l → eng_wakeReserveAsked e = true → eng_asleep e = true) →
  ∃ l', (keepWakesOutOfPreemption held ledgers claims (Some preemptor) now).2 !! nn_Name card = Some l' ∧
    balanced l' ∧
    engines l' = (fun e =>
      if eng_wakeReserveAsked e &&
         match modelClaimPriority claims (nn_Namespace card) (eng_claimName e) with
         | Some p => p <=? spec_Priority preemptor | None => false end
      then setWakeReserve false e else e) <$> engines l.
Proof.
  intros Hc Hl Hj Hb He. unfold keepWakesOutOfPreemption.
  destruct (preemptionHeldFor _ _ _ _) as [h c]. simpl in Hc. subst c. rewrite Hl, Hj. simpl.
  eexists. rewrite lookup_insert_eq. split; [done|].
  destruct (withoutWakesUpTo_spec claims (nn_Namespace card) (spec_Priority preemptor) l He) as [H1 H2].
  split; [by apply H2|exact H1].
Qed.

(** A reading of what an engine held asleep is told for that claim only:
    noting it makes it known, a claim of the same name made later does not
    inherit it, forgetting a claim drops it, and other claims keep theirs. *)
Theorem footprints_roundtrip `{K8s} m claim bytes other :
  seenAsleep (note m claim bytes) claim = Some bytes ∧
  (ObjectKeyFromObject other = ObjectKeyFromObject claim → mc_UID other ≠ mc_UID claim →
   seenAsleep (note m claim bytes) other = None) ∧
  (ObjectKeyFromObject other ≠ ObjectKeyFromObject claim →
   seenAsleep (note m claim bytes) other = seenAsleep m other) ∧
  seenAsleep (forgetFootprint m (ObjectKeyFromObject claim)) claim = None.
Proof.
  unfold seenAsleep, note, forgetFootprint. rewrite lookup_insert_eq, lookup_delete_eq. simpl.
  rewrite bool_decide_eq_true_2 by done. split_and!; try done.
  - intros -> Hu. rewrite lookup_insert_eq. simpl. by rewrite bool_decide_eq_false_2.
  - intros Hne. by rewrite lookup_insert_ne.
Qed.

(** ** Witnesses: the pod of [exLedgers] is held for claim gamma. *)

Section ReservationWitnesses.
Local Existing Instance NanoK8s.

Definition exHeld : cardReservations :=
  (holdPreemption ∅ (MkNN "ns" "pod-a") "gamma" (10 * exGiB) 500).1.

Definition exClaims : list ModelClaim :=
  [exClaim "alpha" ModelClaimActive; exClaim "beta" ModelClaimSleeping; exClaim "gamma" ModelClaimPending].

(** The same card once a request has asked for beta. *)
Definition exAskedLedger : podLedger := withWakeReserve exLedger "beta" true.

Lemma takeFrom_charges_others_once_witness :
  ∃ l', (takeFrom exHeld exLedgers "ns" "alpha" 600).2 !! "pod-a" = Some l' ∧
    reservedBytes l' = 10 * exGiB.
Proof.
  destruct (takeFrom_charges_others_once exHeld exLedgers "ns" "alpha" 600 "pod-a" exLedger
    exLedger_lookup) as (l' & Hl' & Hr & _).
  exists l'. split; [exact Hl'|]. rewrite Hr. vm_compute. reflexivity.
Defined.

Lemma takePreemptionsFrom_protects_witness :
  ∃ l', (takePreemptionsFrom exHeld exLedgers (Some exClaims)
           (Some (exClaim "beta" ModelClaimSleeping)) 600).2 !! "pod-a" = Some l' ∧
    reservedBytes l' = 10 * exGiB.
Proof.
  destruct (takePreemptionsFrom_protects exHeld exLedgers (Some exClaims)
    (exClaim "beta" ModelClaimSleeping) 600 "pod-a" exLedger
    (MkReservation "gamma" (10 * exGiB) (500 + reservationLifetime) true) exLedger_lookup)
    as (l' & Hl' & Hr); [vm_compute; reflexivity..|].
  exists l'. split; [exact Hl'|]. rewrite Hr. vm_compute. reflexivity.
Defined.

Lemma keepWakesOutOfPreemption_settles_witness :
  ∃ l', (keepWakesOutOfPreemption exHeld {["pod-a" := exAskedLedger]} (Some exClaims)
           (Some (exClaim "gamma" ModelClaimPending)) 600).2 !! "pod-a" = Some l' ∧
    balanced l' ∧ totalHeldBytes l' < totalHeldBytes exAskedLedger.
Proof.
  destruct (keepWakesOutOfPreemption_settles exHeld {["pod-a" := exAskedLedger]} (Some exClaims)
    (exClaim "gamma" ModelClaimPending) 600 (MkNN "ns" "pod-a") exAskedLedger) as (l' & Hl' & Hb & He).
  - vm_compute. reflexivity.
  - apply lookup_singleton_eq.
  - vm_compute. reflexivity.
  - split; vm_compute; reflexivity.
  - refine (proj1 (Forall_forall
      (fun e => eng_wakeReserveAsked e = true → eng_asleep e = true) _) _).
    apply (bool_decide_unpack _). vm_compute. exact I.
  - exists l'. split; [exact Hl'|]. split; [exact Hb|].
    destruct Hb as [_ Hheld]. rewrite Hheld, He. vm_compute. reflexivity.
Defined.
End ReservationWitnesses.
