(* ===== verification/Backoff.v ===== *)
(** * Waiting for a card ([pkg/controller/modelclaim/backoff.go]).

    A claim no card can hold waits, twice as long after each refusal, up to a
    minute.  It starts over when its spec changes or when the pool changes in a
    way that can help it; [roomSignatureOf] describes the pool from claim
    status, and [roomMayHaveAppeared] compares two descriptions.  The wait is
    controller memory: every operation takes the map of attempts (and the
    clock) and returns the new map. *)

From S2P Require Import Prelude Api Claims Ledger KVPlan Placement Reservations.

Definition maximumPlacementBackoff : Duration := Minute.

(** ** The pool as a waiting claim saw it. *)

Record podRoom : Type := MkRoom {
  room_instances : Z;
  room_awake : Z;
  room_undeclared : Z;
  room_promisedBytes : Z;
  room_ready : bool;
  room_unlisted : bool;
}.

(** A signature is a map; [None] is the nil map of an attempt that has none. *)
Abbreviation roomSignature := (gmap string podRoom).

Inductive whatHelps : Type := anyRoom | aPodThatAnswers | aPodThatJoined.

#[export] Instance whatHelps_eq_dec : EqDecision whatHelps.
Proof. solve_decision. Defined.

(** Whether one pod's entry counts. *)
Definition roomAppearedOn (before : roomSignature) (helps : whatHelps) (key : string) (taken : podRoom)
  : bool :=
  match before !! key with
  | None => true
  | Some was =>
      if bool_decide (helps = aPodThatJoined) then false
      else if taken.(room_ready) && negb was.(room_ready) then true
      else if bool_decide (helps = aPodThatAnswers) || (0 <? taken.(room_undeclared)) ||
              taken.(room_unlisted) || was.(room_unlisted) then false
      else (taken.(room_instances) <? was.(room_instances)) ||
           (taken.(room_awake) <? was.(room_awake)) ||
           (taken.(room_undeclared) <? was.(room_undeclared)) ||
           (taken.(room_promisedBytes) <? was.(room_promisedBytes))
  end.

Definition roomMayHaveAppeared (before now : option roomSignature) (helps : whatHelps) : bool :=
  match before, now with
  | Some before, Some now =>
      existsb (fun kt => roomAppearedOn before helps kt.1 kt.2) (map_to_list now)
  | _, _ => false
  end.

Definition setReady (taken : podRoom) (ready : bool) : podRoom :=
  MkRoom taken.(room_instances) taken.(room_awake) taken.(room_undeclared)
    taken.(room_promisedBytes) ready taken.(room_unlisted).

Definition zeroRoom : podRoom := MkRoom 0 0 0 0 false false.

(** One entry of [withThePodsSeenReady]; [was] is [None] for a pod not known
    before, whose entry reads as the zero one. *)
Definition seenReady (was : option podRoom) (taken : podRoom) : podRoom :=
  let taken' := match was with
                | Some w => if taken.(room_unlisted) && negb w.(room_unlisted)
                            then setReady w taken.(room_ready) else taken
                | None => taken
                end in
  setReady taken' (taken'.(room_ready) || (default zeroRoom was).(room_ready)).

Definition withThePodsSeenReady (room before : option roomSignature) : option roomSignature :=
  match room with
  | None => before
  | Some room =>
      Some (map_imap (fun key taken => Some (seenReady (before ≫= lookup key) taken)) room)
  end.

Section Signature.
Context `{K8s}.

Definition podKey (pod : Pod) : string :=
  String.append pod.(pod_Name) (String.append "/" pod.(pod_UID)).

(** The first loop of [roomSignatureOf]: an entry for each candidate, and the
    key each pod name goes by. *)
Definition roomOfCandidates (candidates : list Pod) (unlisted : bool)
  : roomSignature * gmap string string :=
  foldl (fun acc pod =>
    (<[podKey pod := MkRoom 0 0 0 0 (IsPodReady pod) unlisted]> acc.1,
     <[pod.(pod_Name) := podKey pod]> acc.2)) (∅, ∅) candidates.

(** Whether an instance's engine takes room. *)
Definition isLive (instance : ModelClaimInstance) : bool :=
  negb (bool_decide (instance.(inst_Phase) = ModelClaimFailed)) && negb (instance.(inst_Port) =? 0).

Definition isAwake (instance : ModelClaimInstance) : bool :=
  isLive instance && negb (bool_decide (instance.(inst_Phase) = ModelClaimSleeping)).

Definition takeRoom (claim : ModelClaim) (instance : ModelClaimInstance) (taken : podRoom) : podRoom :=
  MkRoom (taken.(room_instances) + 1)
    (if bool_decide (instance.(inst_Phase) = ModelClaimSleeping) then taken.(room_awake)
     else taken.(room_awake) + 1)
    (match perGPUBytesOf claim with Err _ => taken.(room_undeclared) + 1 | Ok _ => taken.(room_undeclared) end)
    (match perGPUBytesOf claim with
     | Err _ => taken.(room_promisedBytes)
     | Ok perGPU => taken.(room_promisedBytes) + perGPU_minimumReserveBytes perGPU
     end)
    taken.(room_ready) taken.(room_unlisted).

Definition takeInstance (keys : gmap string string) (claim : ModelClaim) (room : roomSignature)
    (instance : ModelClaimInstance) : roomSignature :=
  match keys !! instance.(inst_Pod) with
  | Some key =>
      if isLive instance
      then <[key := takeRoom claim instance (default zeroRoom (room !! key))]> room
      else room
  | None => room
  end.

Definition roomSignatureOf (candidates : list Pod) (claims : option (list ModelClaim)) : roomSignature :=
  let '(room, keys) := roomOfCandidates candidates (bool_decide (claims = None)) in
  match claims with
  | None => room
  | Some items =>
      foldl (fun room claim => foldl (takeInstance keys claim) room claim.(status_Instances)) room items
  end.

Definition liveInstances (pm : ModelClaim) : Z :=
  Z.of_nat (length (List.filter isLive pm.(status_Instances))).

Definition awakeInstances (pm : ModelClaim) : Z :=
  Z.of_nat (length (List.filter isAwake pm.(status_Instances))).

Definition freesRoom (before after : ModelClaim) : bool :=
  if (liveInstances after <? liveInstances before) || (awakeInstances after <? awakeInstances before)
  then true
  else match perGPUBytesOf after with
       | Err _ => false
       | Ok now =>
           match perGPUBytesOf before with
           | Err _ => true
           | Ok was => perGPU_minimumReserveBytes now <? perGPU_minimumReserveBytes was
           end
       end.

(** ** Orders on claims. *)

Definition olderClaim (a b : ModelClaim) : bool :=
  if negb (a.(mc_CreationTimestamp) =? b.(mc_CreationTimestamp))
  then a.(mc_CreationTimestamp) <? b.(mc_CreationTimestamp)
  else strless a.(mc_Name) b.(mc_Name).

Definition oldestFirst (claims : list ModelClaim) : list ModelClaim := sortBy olderClaim claims.

Definition priorityLess (a b : ModelClaim) : bool :=
  if negb (a.(spec_Priority) =? b.(spec_Priority)) then b.(spec_Priority) <? a.(spec_Priority)
  else if negb (a.(mc_CreationTimestamp) =? b.(mc_CreationTimestamp))
  then a.(mc_CreationTimestamp) <? b.(mc_CreationTimestamp)
  else strless a.(mc_Name) b.(mc_Name).

(** [placementPriorityFirst] of priority.go. *)
Definition placementPriorityFirst (claims : list ModelClaim) : list ModelClaim :=
  sortBy priorityLess claims.

(** The claims an event on [name] wakes; [None] is a listing that failed. *)
Definition enqueueWaitingClaims (claims : option (list ModelClaim)) (name : string)
  : list NamespacedName :=
  match claims with
  | None => []
  | Some items =>
      ObjectKeyFromObject <$> placementPriorityFirst (List.filter (fun claim =>
        negb (bool_decide (claim.(mc_Name) = name) ||
              bool_decide (is_Some claim.(mc_DeletionTimestamp)) ||
              bool_decide (claim.(status_Phase) = ModelClaimFailed) ||
              (desiredReplicas claim <=? Z.of_nat (length claim.(status_Instances))))) items)
  end.
End Signature.

(** ** Attempts. *)

Record placementAttempt : Type := MkAttempt {
  att_refusals : Z;
  att_readyAt : Time;
  att_generation : Z;
  att_room : option roomSignature;
  att_tooLarge : bool;
  att_failedToStart : bool;
  att_written : bool;
  att_unread : list string;
}.

Definition zeroAttempt : placementAttempt := MkAttempt 0 zeroTime 0 None false false false [].

Abbreviation placementBackoff := (gmap NamespacedName placementAttempt).

Definition startedOver (a : placementAttempt) : placementAttempt :=
  MkAttempt 0 zeroTime 0 a.(att_room) false false false [].

Definition helpedBy (a : placementAttempt) : whatHelps :=
  if a.(att_tooLarge) then aPodThatJoined
  else if a.(att_failedToStart) then aPodThatAnswers
  else anyRoom.

Definition setRefusals (a : placementAttempt) (n : Z) : placementAttempt :=
  MkAttempt n a.(att_readyAt) a.(att_generation) a.(att_room) a.(att_tooLarge)
    a.(att_failedToStart) a.(att_written) a.(att_unread).

Definition setWritten (a : placementAttempt) : placementAttempt :=
  MkAttempt a.(att_refusals) a.(att_readyAt) a.(att_generation) a.(att_room) a.(att_tooLarge)
    a.(att_failedToStart) true a.(att_unread).

Definition setFailedToStart (a : placementAttempt) : placementAttempt :=
  MkAttempt a.(att_refusals) a.(att_readyAt) a.(att_generation) a.(att_room) a.(att_tooLarge)
    true true a.(att_unread).

Definition setUnread (a : placementAttempt) (pods : list string) : placementAttempt :=
  MkAttempt a.(att_refusals) a.(att_readyAt) a.(att_generation) a.(att_room) a.(att_tooLarge)
    a.(att_failedToStart) a.(att_written) pods.

(** The new map, whether a try may be made, and how long is left. *)
Definition due (b : placementBackoff) (claim : NamespacedName) (generation : Z)
    (room : option roomSignature) (now : Time) : placementBackoff * (bool * Duration) :=
  match b !! claim with
  | None => (b, (true, 0))
  | Some attempt =>
      if negb (generation =? attempt.(att_generation)) ||
         roomMayHaveAppeared attempt.(att_room) room (helpedBy attempt)
      then (<[claim := startedOver attempt]> b, (true, 0))
      else if negb attempt.(att_written)
      then (<[claim := setRefusals attempt (Z.max (attempt.(att_refusals) - 1) 0)]> b, (true, 0))
      else let left := timeSub attempt.(att_readyAt) now in
           if left <=? 0 then (b, (true, 0)) else (b, (false, left))
  end.

Definition waiting (b : placementBackoff) (claim : NamespacedName) (generation : Z)
    (room : option roomSignature) (ledgers : gmap string podLedger) (now : Time) : bool :=
  match b !! claim with
  | None => false
  | Some attempt =>
      if negb attempt.(att_written) || negb (generation =? attempt.(att_generation)) ||
         roomMayHaveAppeared attempt.(att_room) room (helpedBy attempt) ||
         negb (now <? attempt.(att_readyAt)) then false
      else forallb (fun pod => match ledgers !! pod with
                               | Some ledger => ledger.(unread)
                               | None => true
                               end) attempt.(att_unread)
  end.

Definition refusedWithoutReading (b : placementBackoff) (claim : NamespacedName) (pods : list string)
  : placementBackoff :=
  match b !! claim with
  | Some attempt => <[claim := setUnread attempt pods]> b
  | None => b
  end.

Definition unreadPods `{K8s} (candidates : list Pod) (ledgers : gmap string podLedger) : list string :=
  pod_Name <$> List.filter (fun pod => (ledgerOf ledgers pod.(pod_Name)).(unread)) candidates.

(** [DefaultRequeueDuration << min(refusals-1, 16)], capped. *)
Definition backoffWait (refusals : Z) : Duration :=
  let wait := wrap64 (Z.shiftl DefaultRequeueDuration (Z.min (refusals - 1) 16)) in
  if (maximumPlacementBackoff <? wait) || (wait <=? 0) then maximumPlacementBackoff else wait.

Definition refuse (b : placementBackoff) (claim : NamespacedName) (generation : Z)
    (room : option roomSignature) (tooLarge : bool) (now : Time) : placementBackoff * Duration :=
  let attempt := default zeroAttempt (b !! claim) in
  let refusals := attempt.(att_refusals) + 1 in
  let wait := backoffWait refusals in
  (<[claim := MkAttempt refusals (timeAdd now wait) generation
                (withThePodsSeenReady room attempt.(att_room)) tooLarge false false []]> b, wait).

Definition refused (b : placementBackoff) claim generation room now : placementBackoff * Duration :=
  refuse b claim generation room false now.

Definition refusedAsTooLarge (b : placementBackoff) claim generation room now
  : placementBackoff * Duration :=
  refuse b claim generation room true now.

Definition failedToStart (b : placementBackoff) (claim : NamespacedName) (generation : Z)
    (room : option roomSignature) (now : Time) : placementBackoff * Duration :=
  let '(b, wait) := refuse b claim generation room false now in
  (<[claim := setFailedToStart (default zeroAttempt (b !! claim))]> b, wait).

Definition statusWritten (b : placementBackoff) (claim : NamespacedName) : placementBackoff :=
  match b !! claim with
  | Some attempt => if negb attempt.(att_written) then <[claim := setWritten attempt]> b else b
  | None => b
  end.

Definition waitsAfterAFailedStart (b : placementBackoff) (claim : NamespacedName) : bool :=
  (default zeroAttempt (b !! claim)).(att_failedToStart).

Definition placed (b : placementBackoff) (claim : NamespacedName) : placementBackoff := delete claim b.

Definition startOver (b : placementBackoff) (claim : NamespacedName) : placementBackoff :=
  match b !! claim with
  | Some attempt => <[claim := startedOver attempt]> b
  | None => b
  end.

(** What the controller remembers of a claim that is gone. *)
Definition forgetClaim (b : placementBackoff) (held : cardReservations)
    (footprints : gmap NamespacedName claimFootprint) (claim : NamespacedName)
  : placementBackoff * cardReservations * gmap NamespacedName claimFootprint :=
  (placed b claim, release held claim.(nn_Namespace) claim.(nn_Name), forgetFootprint footprints claim).

(** [placementRefusalWait] of modelclaim_controller.go; the reasons it tells
    apart. *)
Inductive refusedBecause : Type := TooLargeForAnyCard | MakingRoom | NoRoom.

Definition placementRefusalWait `{K8s} (b : placementBackoff) (claim : NamespacedName) (pm : ModelClaim)
    (reason : refusedBecause) (before refusedOn : option roomSignature) (now : Time)
  : placementBackoff * Duration :=
  match reason, preemptionPolicyOf pm with
  | TooLargeForAnyCard, _ => refusedAsTooLarge b claim pm.(mc_Generation) refusedOn now
  | MakingRoom, PreemptionSleepLowerPriority => (placed b claim, DefaultRequeueDuration)
  | _, _ =>
      let b := if roomMayHaveAppeared before refusedOn anyRoom then startOver b claim else b in
      refused b claim pm.(mc_Generation) refusedOn now
  end.

(** ** The wait. *)

Lemma backoffWait_min n : 1 ≤ n → backoffWait n = Z.min (DefaultRequeueDuration * 2 ^ (n - 1)) maximumPlacementBackoff.
Proof.
  intros Hn. unfold backoffWait, DefaultRequeueDuration, maximumPlacementBackoff, Minute, Second.
  rewrite Z.shiftl_mul_pow2 by lia.
  assert (2 ^ Z.min (n - 1) 16 ≤ 2 ^ 16) by (apply Z.pow_le_mono_r; lia).
  assert (0 < 2 ^ Z.min (n - 1) 16) by (apply Z.pow_pos_nonneg; lia).
  rewrite wrap64_id by (unfold in_int64, MinInt64, MaxInt64; lia).
  destruct (Z.le_gt_cases (n - 1) 16).
  - rewrite Z.min_l by lia. rewrite Z.min_l in * by lia.
    destruct (Z.ltb_spec (60 * 10 ^ 9) (10 * 10 ^ 9 * 2 ^ (n - 1))),
      (Z.leb_spec (10 * 10 ^ 9 * 2 ^ (n - 1)) 0); simpl; lia.
  - rewrite Z.min_r by lia. simpl.
    assert (2 ^ 16 ≤ 2 ^ (n - 1)) by (apply Z.pow_le_mono_r; lia). lia.
Qed.

Lemma backoffWait_range n : 1 ≤ n → DefaultRequeueDuration ≤ backoffWait n ≤ maximumPlacementBackoff.
Proof.
  intros Hn. rewrite backoffWait_min by done.
  assert (2 ^ 0 ≤ 2 ^ (n - 1)) by (apply Z.pow_le_mono_r; lia).
  unfold DefaultRequeueDuration, maximumPlacementBackoff, Minute, Second. lia.
Qed.

(** ** Comparing pools. *)

Lemma roomAppearedOn_refl was h key (m : roomSignature) :
  m !! key = Some was → roomAppearedOn m h key was = false.
Proof.
  intros Hm. unfold roomAppearedOn. rewrite Hm, !Z.ltb_irrefl.
  destruct (bool_decide _); [done|]. destruct (room_ready was); simpl; by destruct (_ || _).
Qed.

(** An entry does not count against what [withThePodsSeenReady] recorded. *)
Lemma roomAppearedOn_seen was taken h key (m : roomSignature) :
  m !! key = Some (seenReady was taken) → roomAppearedOn m h key taken = false.
Proof.
  intros Hm. unfold roomAppearedOn. rewrite Hm. destruct (bool_decide (h = aPodThatJoined)); [done|].
  assert (room_ready taken = true → room_ready (seenReady was taken) = true) as Hr.
  { unfold seenReady. intros Ht. destruct was as [w|]; simpl; [|by rewrite Ht].
    destruct (_ && _); simpl; by rewrite Ht. }
  destruct (room_ready taken && negb (room_ready (seenReady was taken))) eqn:E1.
  { apply andb_true_iff in E1 as [Ht Hn%negb_true_iff]. by rewrite Hr in Hn. }
  destruct (room_unlisted taken) eqn:Eu; [by rewrite !orb_true_r|].
  assert (seenReady was taken = setReady taken (room_ready (seenReady was taken))) as ->.
  { unfold seenReady. rewrite Eu. by destruct was. }
  simpl. rewrite !Z.ltb_irrefl. by destruct (_ || _).
Qed.

Lemma roomAppearedOn_mono before key taken :
  (roomAppearedOn before aPodThatJoined key taken = true →
   roomAppearedOn before aPodThatAnswers key taken = true) ∧
  (roomAppearedOn before aPodThatAnswers key taken = true →
   roomAppearedOn before anyRoom key taken = true).
Proof.
  unfold roomAppearedOn. destruct (before !! key) as [was|]; [|done]. simpl.
  destruct (_ && _); simpl; done.
Qed.

Lemma roomMayHaveAppeared_iff before now h :
  roomMayHaveAppeared (Some before) (Some now) h = true ↔
  ∃ key taken, now !! key = Some taken ∧ roomAppearedOn before h key taken = true.
Proof.
  simpl. rewrite existsb_exists. split.
  - intros ([k t] & Hin & Ha). rewrite <- list_elem_of_In, elem_of_map_to_list in Hin. by exists k, t.
  - intros (k & t & Hk & Ha). exists (k, t). by rewrite <- list_elem_of_In, elem_of_map_to_list.
Qed.

Lemma refuse_attempt b claim g room tl now :
  ∃ a, (refuse b claim g room tl now).1 !! claim = Some a ∧
    att_refusals a = att_refusals (default zeroAttempt (b !! claim)) + 1 ∧
    att_readyAt a = now + (refuse b claim g room tl now).2 ∧
    att_generation a = g ∧ att_written a = false ∧ att_tooLarge a = tl ∧ att_failedToStart a = false ∧
    att_room a = withThePodsSeenReady room (att_room (default zeroAttempt (b !! claim))) ∧
    (refuse b claim g room tl now).2 = backoffWait (att_refusals a).
Proof. unfold refuse. simpl. eexists. rewrite lookup_insert_eq. split; [done|]. done. Qed.

(** ** Orders. *)

Section OrderFacts.
Context `{K8s}.

#[export] Instance olderClaim_weak : StrictWeak olderClaim.
Proof.
  assert (StrictWeak (thenBy (byKey mc_CreationTimestamp) (fun a b => strless (mc_Name a) (mc_Name b))))
    as [H1 H2] by (apply thenBy_weak; [apply _|apply (StrictWeak_key strless mc_Name), _]).
  split; intros *; unfold olderClaim; rewrite <- !(thenBy_key mc_CreationTimestamp
    (fun a b => strless (mc_Name a) (mc_Name b))); eauto.
Qed.

Definition priorityOrder : ModelClaim → ModelClaim → bool :=
  thenBy (byKey (fun c => - spec_Priority c)) olderClaim.

Lemma priorityLess_order a b : priorityLess a b = priorityOrder a b.
Proof. unfold priorityLess, priorityOrder. by rewrite thenBy_key, eqb_opp, ltb_opp. Qed.

#[export] Instance priorityLess_weak : StrictWeak priorityLess.
Proof.
  assert (StrictWeak priorityOrder) as [H1 H2] by (apply thenBy_weak; apply _).
  split; intros *; rewrite !priorityLess_order; eauto.
Qed.
End OrderFacts.

(** ** What a signature counts. *)

Section SignatureFacts.
Context `{K8s}.

Lemma roomOfCandidates_keys candidates unlisted pod :
  NoDup (pod_Name <$> candidates) → NoDup (podKey <$> candidates) → pod ∈ candidates →
  (roomOfCandidates candidates unlisted).1 !! podKey pod =
    Some (MkRoom 0 0 0 0 (IsPodReady pod) unlisted) ∧
  (roomOfCandidates candidates unlisted).2 !! pod_Name pod = Some (podKey pod).
Proof.
  unfold roomOfCandidates. generalize (∅ : roomSignature, ∅ : gmap string string).
  induction candidates as [|c cs IH] using rev_ind; intros acc Hn Hk Hin; [set_solver|].
  rewrite foldl_app. simpl. rewrite fmap_app in Hn, Hk.
  apply NoDup_app in Hn as (Hn & Hn2 & _), Hk as (Hk & Hk2 & _).
  apply elem_of_app in Hin as [Hin|Hin%list_elem_of_singleton].
  - destruct (IH acc Hn Hk Hin) as [I1 I2].
    rewrite !lookup_insert_ne; [done|..].
    + intros Hne. apply (Hn2 (pod_Name pod)); [by apply list_elem_of_fmap_2|]. set_solver.
    + intros Hne. apply (Hk2 (podKey pod)); [by apply list_elem_of_fmap_2|]. set_solver.
  - subst c. by rewrite !lookup_insert_eq.
Qed.

(** Names determine keys and keys names, among the candidates. *)
Lemma roomOfCandidates_back candidates unlisted name key :
  (roomOfCandidates candidates unlisted).2 !! name = Some key →
  ∃ pod, pod ∈ candidates ∧ pod_Name pod = name ∧ podKey pod = key.
Proof.
  unfold roomOfCandidates.
  assert (∀ cs acc, (∀ n k, acc.2 !! n = Some k → ∃ pod, pod ∈ candidates ∧ pod_Name pod = n ∧ podKey pod = k) →
    (∀ c, c ∈ cs → c ∈ candidates) →
    ∀ n k, (foldl (fun (acc : roomSignature * gmap string string) pod =>
      (<[podKey pod := MkRoom 0 0 0 0 (IsPodReady pod) unlisted]> acc.1,
       <[pod_Name pod := podKey pod]> acc.2)) acc cs).2 !! n = Some k →
    ∃ pod, pod ∈ candidates ∧ pod_Name pod = n ∧ podKey pod = k) as Hgen.
  { induction cs as [|c cs IH]; intros acc Hacc Hcs; [exact Hacc|]. simpl. apply IH; [|set_solver].
    intros n k. simpl. intros [[<- <-]|[_ ?]]%lookup_insert_Some; [|by apply Hacc].
    exists c. set_solver. }
  apply Hgen; [|done]. intros n k Hn. by destruct (lookup_empty_Some n k Hn).
Qed.

(** What one claim's instance adds to a pod's entry. *)
Definition addRoom (room : podRoom) (ci : ModelClaim * ModelClaimInstance) : podRoom :=
  if isLive ci.2 then takeRoom ci.1 ci.2 room else room.

Lemma takeInstances_lookup keys key name rs room r0 :
  (∀ n, keys !! n = Some key ↔ n = name) → room !! key = Some r0 →
  foldl (fun room ci => takeInstance keys ci.1 room ci.2) room rs !! key =
  Some (foldl addRoom r0 (filter (fun ci : ModelClaim * ModelClaimInstance => ci.2.(inst_Pod) = name) rs)).
Proof.
  intros Hkey. revert room r0. induction rs as [|[claim inst] rs IH]; intros room r0 Hr; [done|].
  cbn [foldl fst snd]. unfold takeInstance at 2.
  destruct (decide (inst_Pod inst = name)) as [Hn|Hn].
  - rewrite filter_cons_True by done. rewrite (proj2 (Hkey _) Hn). cbn [foldl].
    unfold addRoom at 2. simpl. destruct (isLive inst); [|by apply IH].
    rewrite Hr. apply IH. by rewrite lookup_insert_eq.
  - rewrite filter_cons_False by done.
    destruct (keys !! inst_Pod inst) as [k|] eqn:Ek; [|by apply IH].
    destruct (isLive inst); [|by apply IH]. apply IH. rewrite lookup_insert_ne; [done|].
    intros ->. by apply Hn, Hkey.
Qed.

Definition sleepingOrNot (ci : ModelClaim * ModelClaimInstance) : Z := if isAwake ci.2 then 1 else 0.
Definition undeclaredOrNot (ci : ModelClaim * ModelClaimInstance) : Z :=
  if isLive ci.2 && negb (declares ci.1) then 1 else 0.
Definition promisedTo (ci : ModelClaim * ModelClaimInstance) : Z :=
  if isLive ci.2 then
    match perGPUBytesOf ci.1 with Ok p => perGPU_minimumReserveBytes p | Err _ => 0 end
  else 0.

Lemma addRoom_sums rs r0 :
  foldl addRoom r0 rs =
  MkRoom (room_instances r0 + sumZ (fun ci => if isLive ci.2 then 1 else 0) rs)
    (room_awake r0 + sumZ sleepingOrNot rs) (room_undeclared r0 + sumZ undeclaredOrNot rs)
    (room_promisedBytes r0 + sumZ promisedTo rs) (room_ready r0) (room_unlisted r0).
Proof.
  revert r0. induction rs as [|[claim inst] rs IH]; intros r0; simpl.
  { rewrite !Z.add_0_r. by destruct r0. }
  rewrite IH. unfold addRoom, sleepingOrNot, undeclaredOrNot, promisedTo, isAwake, declares. simpl.
  destruct (isLive inst); simpl; [|by rewrite !Z.add_0_l].
  destruct (bool_decide _), (perGPUBytesOf claim); simpl; f_equal; lia.
Qed.
End SignatureFacts.

(** ** Properties. *)

(** A claim refused again and again, its status written each time: the waits. *)
Fixpoint refusalWaits (b : placementBackoff) (claim : NamespacedName)
    (rounds : list (Z * option roomSignature * bool * Time)) : list Duration :=
  match rounds with
  | [] => []
  | (generation, room, tooLarge, now) :: rest =>
      let '(b, wait) := refuse b claim generation room tooLarge now in
      wait :: refusalWaits (statusWritten b claim) claim rest
  end.

Lemma refusalWaits_from b claim rounds k r :
  0 ≤ att_refusals (default zeroAttempt (b !! claim)) → rounds !! k = Some r →
  refusalWaits b claim rounds !! k =
  Some (backoffWait (att_refusals (default zeroAttempt (b !! claim)) + 1 + Z.of_nat k)).
Proof.
  revert b k. induction rounds as [|[[[g room] tl] now] rounds IH]; intros b k Hb Hr; [done|].
  cbn [refusalWaits]. destruct (refuse_attempt b claim g room tl now) as (a & Ha & Hn & _ & _ & Hw & _ & _ & _ & Hwait).
  destruct (refuse b claim g room tl now) as [b1 w]. simpl in Ha, Hwait.
  destruct k as [|k]; simpl in *.
  - by rewrite Hwait, Hn, Z.add_0_r.
  - unfold statusWritten. rewrite Ha, Hw. simpl. rewrite (IH _ k); rewrite ?lookup_insert_eq; simpl; [|lia|done].
    do 2 f_equal. lia.
Qed.

(** A claim that is refused over and over waits 10 s, 20 s, 40 s and then a
    minute each time: the wait doubles and is capped, however long it goes on
    and whatever the reasons were. *)
Theorem placement_wait_doubles_to_a_minute b claim rounds k r :
  b !! claim = None → rounds !! k = Some r →
  refusalWaits b claim rounds !! k =
  Some (Z.min (DefaultRequeueDuration * 2 ^ Z.of_nat k) maximumPlacementBackoff).
Proof.
  intros Hb Hr. etrans; [apply (refusalWaits_from b claim rounds k r); [by rewrite Hb|done]|].
  rewrite Hb. simpl. rewrite backoffWait_min by lia. do 4 f_equal. lia.
Qed.

(** A refused claim whose status says so waits exactly that long.  While its
    spec and the pool stay as they were at the refusal it may not try before
    the wait is over and may from then on, and asking changes nothing; the time
    left is what [due] reports. *)
Theorem refused_claim_waits_exactly b claim g room tooLarge now later :
  now ≤ later →
  0 ≤ att_refusals (default zeroAttempt (b !! claim)) →
  let '(b1, wait) := refuse b claim g (Some room) tooLarge now in
  let b2 := statusWritten b1 claim in
  DefaultRequeueDuration ≤ wait ≤ maximumPlacementBackoff ∧
  due b2 claim g (Some room) later =
    (b2, if later <? now + wait then (false, now + wait - later) else (true, 0)).
Proof.
  intros Hle Hn0.
  destruct (refuse_attempt b claim g (Some room) tooLarge now)
    as (a & Ha & Hn & Hat & Hg & Hw & Htl & Hf & Hroom & Hwait).
  destruct (refuse b claim g (Some room) tooLarge now) as [b1 wait]. simpl in *.
  assert (DefaultRequeueDuration ≤ wait ≤ maximumPlacementBackoff) as Hr.
  { rewrite Hwait. apply backoffWait_range. lia. }
  split; [done|]. unfold statusWritten. rewrite Ha, Hw. simpl. unfold due. rewrite lookup_insert_eq. simpl.
  rewrite Hg, Z.eqb_refl. simpl.
  assert (roomMayHaveAppeared (att_room a) (Some room) (helpedBy (setWritten a)) = false) as ->.
  { rewrite Hroom. apply not_true_is_false. intros (key & taken & Hk & Hap)%roomMayHaveAppeared_iff.
    erewrite roomAppearedOn_seen in Hap; [done|]. rewrite map_lookup_imap, Hk. done. }
  rewrite Hat. unfold timeSub, DefaultRequeueDuration, maximumPlacementBackoff, Minute, Second, MinInt64, MaxInt64 in *.
  destruct (Z.ltb_spec later (now + wait)).
  - rewrite (proj2 (Z.leb_gt _ 0)) by lia. do 3 f_equal. lia.
  - by rewrite (proj2 (Z.leb_le _ 0)) by lia.
Qed.

(** A refusal that never reached the claim's status is tried again at once
    and counts once: the wait after the second refusal is that of the first. *)
Theorem unwritten_refusal_counts_once b claim g room tooLarge tooLarge' now later :
  0 ≤ att_refusals (default zeroAttempt (b !! claim)) →
  let '(b1, wait) := refuse b claim g (Some room) tooLarge now in
  let '(b2, answer) := due b1 claim g (Some room) later in
  answer = (true, 0) ∧ (refuse b2 claim g (Some room) tooLarge' later).2 = wait.
Proof.
  intros Hn0.
  destruct (refuse_attempt b claim g (Some room) tooLarge now)
    as (a & Ha & Hn & Hat & Hg & Hw & Htl & Hf & Hroom & Hwait).
  destruct (refuse b claim g (Some room) tooLarge now) as [b1 wait]. simpl in *.
  unfold due. rewrite Ha, Hg, Z.eqb_refl, Hw. simpl.
  assert (roomMayHaveAppeared (att_room a) (Some room) (helpedBy a) = false) as ->.
  { rewrite Hroom. apply not_true_is_false. intros (key & taken & Hk & Hap)%roomMayHaveAppeared_iff.
    erewrite roomAppearedOn_seen in Hap; [done|]. rewrite map_lookup_imap, Hk. done. }
  simpl. rewrite lookup_insert_eq. simpl. split; [done|]. rewrite Hwait. f_equal. lia.
Qed.

(** No claim is passed over that could be tried.  When another claim counts
    as waiting, its own reconcile would not let it try either. *)
Theorem waiting_claim_is_not_due b claim g room ledgers now :
  waiting b claim g room ledgers now = true →
  (due b claim g room now).1 = b ∧ (due b claim g room now).2.1 = false ∧
  0 < (due b claim g room now).2.2.
Proof.
  unfold waiting, due. destruct (b !! claim) as [a|]; [|done].
  destruct (att_written a), (g =? att_generation a), (roomMayHaveAppeared _ _ _); simpl; try done.
  destruct (Z.ltb_spec now (att_readyAt a)); simpl; [|done]. intros _.
  unfold timeSub, MinInt64, MaxInt64. rewrite (proj2 (Z.leb_gt _ 0)) by lia. simpl.
  split_and!; [done..|lia].
Qed.

(** The comparison of pools wakes no claim for nothing.  The pool a claim
    was refused on does not wake it, whatever it had seen before; what helps a
    claim too large for any card helps one that failed to start, and what helps
    that helps one that waits for room; and a pod seen ready once stays ready in
    the record, so it does not wake the claim each time it turns ready again. *)
Theorem pool_comparison_is_stable room before h :
  roomMayHaveAppeared (withThePodsSeenReady (Some room) before) (Some room) h = false ∧
  (∀ now, roomMayHaveAppeared before now aPodThatJoined = true →
     roomMayHaveAppeared before now aPodThatAnswers = true) ∧
  (∀ now, roomMayHaveAppeared before now aPodThatAnswers = true →
     roomMayHaveAppeared before now anyRoom = true) ∧
  (∀ key was w taken, before ≫= lookup key = Some was → room_ready was = true →
     withThePodsSeenReady (Some room) before ≫= lookup key = Some w →
     room_ready w = true ∧
     (taken = setReady w (room_ready taken) →
      roomMayHaveAppeared (Some {[key := w]}) (Some {[key := taken]}) h = false)).
Proof.
  split_and!.
  - apply not_true_is_false. intros (key & taken & Hk & Hap)%roomMayHaveAppeared_iff.
    erewrite roomAppearedOn_seen in Hap; [done|]. rewrite map_lookup_imap, Hk. done.
  - intros [now|] Ha; [|by destruct before]. destruct before as [before|]; [|done].
    apply roomMayHaveAppeared_iff in Ha as (k & t & Hk & Ha). apply roomMayHaveAppeared_iff.
    exists k, t. split; [done|]. by apply roomAppearedOn_mono.
  - intros [now|] Ha; [|by destruct before]. destruct before as [before|]; [|done].
    apply roomMayHaveAppeared_iff in Ha as (k & t & Hk & Ha). apply roomMayHaveAppeared_iff.
    exists k, t. split; [done|]. by apply roomAppearedOn_mono.
  - intros key was w taken Hwas Hr Hw. simpl in Hw. rewrite map_lookup_imap in Hw.
    destruct (room !! key) as [t|]; [|done]. simpl in Hw. rewrite Hwas in Hw.
    assert (room_ready w = true) as Hready.
    { injection Hw as <-. unfold seenReady. simpl. by rewrite Hr, orb_true_r. }
    split; [done|]. intros Ht. apply not_true_is_false.
    intros (k & t' & [<- <-]%lookup_singleton_Some & Hap)%roomMayHaveAppeared_iff.
    unfold roomAppearedOn in Hap. rewrite lookup_singleton_eq, Ht, Hready in Hap. simpl in Hap.
    rewrite !Z.ltb_irrefl, andb_false_r in Hap.
    destruct (bool_decide _); [done|]. by destruct (_ || _).
Qed.

(** The description of the pool counts what takes room.  For every
    candidate it says how many instances recorded there have a started engine
    that has not failed, how many of those are awake, how many are of claims
    that declare nothing usable, and what the rest are promised. *)
Theorem roomSignatureOf_counts `{K8s} candidates items pod :
  NoDup (pod_Name <$> candidates) → NoDup (podKey <$> candidates) → pod ∈ candidates →
  let mine := recordsOn (pod_Name pod) items in
  roomSignatureOf candidates (Some items) !! podKey pod =
  Some (MkRoom (sumZ (fun ci => if isLive ci.2 then 1 else 0) mine) (sumZ sleepingOrNot mine)
          (sumZ undeclaredOrNot mine) (sumZ promisedTo mine) (IsPodReady pod) false).
Proof.
  intros Hn Hk Hp mine. unfold roomSignatureOf. rewrite bool_decide_eq_false_2 by done.
  destruct (roomOfCandidates_keys candidates false pod Hn Hk Hp) as [H1 H2].
  pose proof (roomOfCandidates_back candidates false) as Hback.
  destruct (roomOfCandidates candidates false) as [room keys]. simpl in *.
  assert (foldl (fun room claim => foldl (takeInstance keys claim) room (status_Instances claim)) room items =
    foldl (fun room ci => takeInstance keys ci.1 room ci.2) room (records items)) as ->.
  { clear. revert room. induction items as [|c items IH]; intros room; [done|].
    unfold records in *. csimpl. rewrite IH, foldl_app. f_equal.
    generalize (status_Instances c). intros l. revert room.
    induction l as [|i l IHl]; intros room; csimpl; [done|]. apply IHl. }
  rewrite (takeInstances_lookup keys (podKey pod) (pod_Name pod) (records items) room
    (MkRoom 0 0 0 0 (IsPodReady pod) false)); [| |done].
  - fold (recordsOn (pod_Name pod) items). rewrite addRoom_sums. by rewrite !Z.add_0_l.
  - intros n. split; [|by intros ->]. intros (p & Hp' & <- & Hkey)%Hback.
    apply list_elem_of_lookup in Hp as [i Hi], Hp' as [j Hj].
    assert (i = j) as <-; [|congruence].
    eapply NoDup_lookup; [exact Hk|..]; rewrite list_lookup_fmap; [by rewrite Hi|by rewrite Hj; simpl; congruence].
Qed.

(** Unplaced claims are tried highest priority first and, among equals,
    oldest first: the listing is reordered only, and of any two claims the one
    that comes first has the higher priority, or the same priority and was made
    no later.  Claims woken by an event are in that order. *)
Theorem placementPriorityFirst_orders `{K8s} claims :
  placementPriorityFirst claims ≡ₚ claims ∧
  ∀ i j a b, placementPriorityFirst claims !! i = Some a → placementPriorityFirst claims !! j = Some b →
    (i < j)%nat →
    spec_Priority b < spec_Priority a ∨
    (spec_Priority a = spec_Priority b ∧
     (mc_CreationTimestamp a < mc_CreationTimestamp b ∨
      (mc_CreationTimestamp a = mc_CreationTimestamp b ∧ strless (mc_Name b) (mc_Name a) = false))).
Proof.
  split; [apply sortBy_perm|]. intros i j a b Hi Hj Hij.
  pose proof (sortBy_sorted priorityLess claims) as HS. fold (placementPriorityFirst claims) in HS.
  pose proof (StronglySorted_lookup _ _ HS i j a b Hi Hj Hij) as Hna. unfold notAfter, priorityLess in Hna.
  destruct (Z.eqb_spec (spec_Priority b) (spec_Priority a)) as [->|Hp]; simpl in Hna; [right; split; [done|]|].
  - destruct (Z.eqb_spec (mc_CreationTimestamp b) (mc_CreationTimestamp a)) as [->|Ht]; simpl in Hna;
      [by right|left; apply Z.ltb_ge in Hna; lia].
  - left. apply Z.ltb_ge in Hna. lia.
Qed.

(** ** Witnesses. *)

Section BackoffWitnesses.
Local Existing Instance NanoK8s.

Definition exKey : NamespacedName := MkNN "ns" "gamma".
Definition exRound (now : Time) : Z * option roomSignature * bool * Time := (1, Some ∅, false, now).

Lemma placement_wait_doubles_to_a_minute_witness :
  refusalWaits ∅ exKey [exRound 0; exRound (20 * Second); exRound Minute; exRound (2 * Minute)] !! 3%nat
  = Some Minute.
Proof.
  apply (placement_wait_doubles_to_a_minute ∅ exKey
    [exRound 0; exRound (20 * Second); exRound Minute; exRound (2 * Minute)] 3%nat (exRound (2 * Minute)));
    [apply lookup_empty|reflexivity].
Defined.

Lemma refused_claim_waits_exactly_witness :
  let b := statusWritten (refuse ∅ exKey 1 (Some ∅) false 0).1 exKey in
  due b exKey 1 (Some ∅) (4 * Second) = (b, (false, 6 * Second)).
Proof.
  pose proof (refused_claim_waits_exactly ∅ exKey 1 ∅ false 0 (4 * Second)) as Hw.
  apply Hw; [discriminate|rewrite lookup_empty; discriminate].
Defined.

Lemma unwritten_refusal_counts_once_witness :
  let b1 := (refuse ∅ exKey 1 (Some ∅) false 0).1 in
  let '(b2, answer) := due b1 exKey 1 (Some ∅) Second in
  answer = (true, 0) ∧ (refuse b2 exKey 1 (Some ∅) false Second).2 = 10 * Second.
Proof.
  pose proof (unwritten_refusal_counts_once ∅ exKey 1 ∅ false false 0 Second) as Hw.
  apply Hw. rewrite lookup_empty. discriminate.
Defined.

Definition exWaiting : placementBackoff :=
  {[exKey := MkAttempt 1 (10 * Second) 1 (Some ∅) false false true ["pod-b"]]}.

Lemma waiting_claim_is_not_due_witness :
  waiting exWaiting exKey 1 (Some ∅) exLedgers Second = true ∧
  (due exWaiting exKey 1 (Some ∅) Second).2.1 = false.
Proof.
  assert (waiting exWaiting exKey 1 (Some ∅) exLedgers Second = true) as Hw by (vm_compute; reflexivity).
  split; [exact Hw|].
  apply (waiting_claim_is_not_due exWaiting exKey 1 (Some ∅) exLedgers Second Hw).
Defined.

Lemma roomSignatureOf_counts_witness :
  roomSignatureOf [exPod; exPodB] (Some exClaims) !! podKey exPod =
  Some (MkRoom 3 2 0 (66 * exGiB) false false).
Proof.
  rewrite (roomSignatureOf_counts [exPod; exPodB] exClaims exPod);
    [vm_compute; reflexivity|apply (bool_decide_unpack _); vm_compute; exact I..|].
  apply elem_of_cons. left. reflexivity.
Defined.
End BackoffWitnesses.
