(* ===== verification/Runtime.v ===== *)
(** * The world the controller acts on, and one pass's readings of it
    ([pkg/controller/modelclaim/runtime_client.go], [snapshot.go]).

    The runtime sidecars and the API server are outside the repository's
    controller: [Cluster] is the interface the controller calls them through,
    and [ClusterLaws] states what may happen during a call.  A computation
    ([Run]) threads the world and keeps the worlds it went through, so that a
    theorem can speak of every moment of a handler and not of its end only.

    [runtimeReadings] is what a pass has read: each runtime once, and again
    only after a change. *)

From S2P Require Import Prelude Api Claims Ledger KVPlan Placement Reservations.

(** ** Computations on a world. *)

Definition Run (W A : Type) : Type := W → list W * W * A.

#[export] Instance run_ret {W} : MRet (Run W) := fun A a w => ([], w, a).
#[export] Instance run_bind {W} : MBind (Run W) :=
  fun A B f m w =>
    let '(t1, w1, a) := m w in
    let '(t2, w2, b) := f a w1 in (t1 ++ t2, w2, b).

(** One call: the world it leaves is the next moment. *)
Definition call {W A} (f : W → W * A) : Run W A := fun w => let '(w', a) := f w in ([w'], w', a).

Definition visited {W A} (m : Run W A) (w : W) : list W := (m w).1.1.
Definition final {W A} (m : Run W A) (w : W) : W := (m w).1.2.
Definition value {W A} (m : Run W A) (w : W) : A := (m w).2.

(** ** The interface. *)

Inductive runtimeError : Type := RuntimeFailed.
Inductive apiError : Type := Conflict | ApiNotFound | ApiFailed.

(** What names an operation to the runtime, which runs each one once. *)
Record operationID : Type := MkOperation {
  op_kind : string;
  op_namespace : string;
  op_podUID : string;
  op_claim : string;
  op_bytes : Z;
  op_observedAt : Time;
}.

Record SetKVLimitRequest : Type := MkSetKVLimit {
  req_ModelName : string;
  req_LimitBytes : Z;
  req_OperationID : operationID;
}.

Class Cluster `{K8s} (W : Type) := {
  (** Whether the limit was applied. *)
  SetKVLimit : string → SetKVLimitRequest → W → W * result runtimeError bool;
  Snapshot : string → W → W * result runtimeError (option RuntimeSnapshot);
  GetClaim : NamespacedName → W → W * result apiError ModelClaim;
  (** The claim as the server has it then. *)
  StatusUpdate : ModelClaim → W → W * result apiError ModelClaim;
  (** [retry.RetryOnConflict] of client-go. *)
  RetryOnConflict : ∀ {A}, Run W (result apiError A) → Run W (result apiError A);
}.

(** [retried m w r]: [r] is what running [m] at [w] gives when it is run again
    after a conflict, some number of times. *)
Inductive retried {W A} (m : Run W (result apiError A)) : W → list W * W * result apiError A → Prop :=
| retried_last w : retried m w (m w)
| retried_again w t1 w1 t2 w2 r :
    m w = (t1, w1, Err Conflict) → retried m w1 (t2, w2, r) → retried m w (t1 ++ t2, w2, r).

(** What may be observed of one card: the limit in force on each engine
    ([None]: it has no KV segment), the KV it has mapped, and the limits
    recorded for a claim's instances there. *)
Class ClusterLaws `{Cluster W} := {
  limitOf : W → string → string → option Z;
  usedOf : W → string → string → Z;
  recordsOf : W → NamespacedName → list (string * Z);
  usedOf_nonneg w ip m : 0 ≤ usedOf w ip m;

  (** Between two calls an engine maps pages up to its limit, or frees some. *)
  engineGrows w w' := ∀ ip m,
    usedOf w' ip m ≤ Z.max (usedOf w ip m) (Z.max (default 0 (limitOf w ip m)) (default 0 (limitOf w' ip m)));
  limitsKept w w' := ∀ ip m, limitOf w' ip m = limitOf w ip m;
  recordsKept w w' := ∀ c, recordsOf w' c = recordsOf w c;

  (** A write reaches the engine's segment or not, whatever the call reports,
      and touches nothing else. *)
  SetKVLimit_law ip req w : let w' := (SetKVLimit ip req w).1 in
    engineGrows w w' ∧ recordsKept w w' ∧
    ∀ ip' m, limitOf w' ip' m = limitOf w ip' m ∨
      (ip' = ip ∧ m = req.(req_ModelName) ∧ is_Some (limitOf w ip' m) ∧
       limitOf w' ip' m = Some req.(req_LimitBytes));

  (** A reading changes nothing and tells the truth about the engines that have
      a segment: the limit in force, and usage that can have grown since only
      up to that limit. *)
  Snapshot_law ip w : let w' := (Snapshot ip w).1 in
    engineGrows w w' ∧ limitsKept w w' ∧ recordsKept w w' ∧
    ∀ s x, (Snapshot ip w).2 = Ok (Some s) → x ∈ snap_Models s → 0 ≤ sm_KVCapacityBytes x →
      limitOf w' ip (sm_ModelName x) = Some (sm_KVCapacityBytes x) ∧
      usedOf w' ip (sm_ModelName x) ≤ Z.max (sm_KVUsedBytes x) (sm_KVCapacityBytes x);

  (** Only this controller writes the recorded limits. *)
  GetClaim_law c w : let w' := (GetClaim c w).1 in
    engineGrows w w' ∧ limitsKept w w' ∧ recordsKept w w' ∧
    ∀ claim, (GetClaim c w).2 = Ok claim →
      ObjectKeyFromObject claim = c ∧
      recordsOf w' c = (fun i => (inst_Pod i, inst_KVLimitBytes i)) <$> status_Instances claim;

  StatusUpdate_law claim w : let w' := (StatusUpdate claim w).1 in
    let c := ObjectKeyFromObject claim in
    let recs := (fun i => (inst_Pod i, inst_KVLimitBytes i)) <$> status_Instances claim in
    engineGrows w w' ∧ limitsKept w w' ∧
    (∀ c', c' ≠ c → recordsOf w' c' = recordsOf w c') ∧
    (recordsOf w' c = recordsOf w c ∨ recordsOf w' c = recs) ∧
    (∀ stored, (StatusUpdate claim w).2 = Ok stored → recordsOf w' c = recs);

  RetryOnConflict_law {A} (m : Run W (result apiError A)) w : retried m w (RetryOnConflict m w);
}.

(** ** One pass's readings. *)

Record runtimeReading : Type := MkReading {
  rd_reply : result runtimeError (option RuntimeSnapshot);
  rd_changes : Z;
}.

Record runtimeReadings : Type := MkReadings {
  rr_byPod : gmap string runtimeReading;
  rr_changes : Z;
}.

Definition newRuntimeReadings : runtimeReadings := MkReadings ∅ 0.

Section Readings.
Context `{Cluster W}.

Definition reading_of (rr : runtimeReadings) (pod : Pod)
  : Run W (runtimeReadings * result runtimeError (option RuntimeSnapshot)) :=
  match rr.(rr_byPod) !! pod.(pod_Name) with
  | Some reading => mret (rr, reading.(rd_reply))
  | None =>
      reply ← call (Snapshot pod.(pod_IP));
      mret (MkReadings (<[pod.(pod_Name) := MkReading reply rr.(rr_changes)]> rr.(rr_byPod))
              rr.(rr_changes), reply)
  end.

Definition fresh (rr : runtimeReadings) (pod : Pod)
  : Run W (runtimeReadings * result runtimeError (option RuntimeSnapshot)) :=
  match rr.(rr_byPod) !! pod.(pod_Name) with
  | Some reading =>
      if is_ok reading.(rd_reply) && (reading.(rd_changes) <? rr.(rr_changes))
      then reading_of (MkReadings (delete pod.(pod_Name) rr.(rr_byPod)) rr.(rr_changes)) pod
      else reading_of rr pod
  | None => reading_of rr pod
  end.

(** The pods of [readUnread], each once. *)
Fixpoint unreadOf (byPod : gmap string runtimeReading) (seen : gset string) (pods : list Pod) : list Pod :=
  match pods with
  | [] => []
  | pod :: rest =>
      if bool_decide (is_Some (byPod !! pod.(pod_Name))) || bool_decide (pod.(pod_Name) ∈ seen)
      then unreadOf byPod seen rest
      else pod :: unreadOf byPod ({[pod.(pod_Name)]} ∪ seen) rest
  end.

(** The goroutines of [readUnread] call different runtimes; they are run one
    after the other, in the order of the pods. *)
Fixpoint readAll (rr : runtimeReadings) (pods : list Pod) : Run W runtimeReadings :=
  match pods with
  | [] => mret rr
  | pod :: rest =>
      reply ← call (Snapshot pod.(pod_IP));
      readAll (MkReadings (<[pod.(pod_Name) := MkReading reply rr.(rr_changes)]> rr.(rr_byPod))
                 rr.(rr_changes)) rest
  end.

Definition readUnread (rr : runtimeReadings) (pods : list Pod) : Run W runtimeReadings :=
  let unread := unreadOf rr.(rr_byPod) ∅ pods in
  if (length unread <? 2)%nat then mret rr else readAll rr unread.

Fixpoint collectReadings (rr : runtimeReadings) (snapshots : gmap string RuntimeSnapshot)
    (pods : list Pod) : Run W (runtimeReadings * gmap string RuntimeSnapshot) :=
  match pods with
  | [] => mret (rr, snapshots)
  | pod :: rest =>
      r ← reading_of rr pod;
      match r.2 with
      | Ok (Some snapshot) => collectReadings r.1 (<[pod.(pod_Name) := snapshot]> snapshots) rest
      | _ => collectReadings r.1 snapshots rest
      end
  end.

Definition ofPods (rr : runtimeReadings) (pods : list Pod)
  : Run W (runtimeReadings * gmap string RuntimeSnapshot) :=
  rr ← readUnread rr pods;
  collectReadings rr ∅ pods.

Definition replace (rr : runtimeReadings) (pod : Pod) (snapshot : RuntimeSnapshot) : runtimeReadings :=
  MkReadings (<[pod.(pod_Name) := MkReading (Ok (Some snapshot)) (rr.(rr_changes) + 1)]> rr.(rr_byPod))
    (rr.(rr_changes) + 1).

Definition forget (rr : runtimeReadings) (podName : string) : runtimeReadings :=
  MkReadings (delete podName rr.(rr_byPod)) (rr.(rr_changes) + 1).
End Readings.

(** ** Reasoning about computations: an invariant at every moment, and a
    postcondition at the end. *)

Definition holds {W A} (I : W → Prop) (m : Run W A) (w : W) (Q : A → W → Prop) : Prop :=
  Forall I (visited m w) ∧ Q (value m w) (final m w).

Lemma final_bind {W A B} (m : Run W A) (f : A → Run W B) w :
  final (m ≫= f) w = final (f (value m w)) (final m w).
Proof.
  unfold final, value, mbind, run_bind. destruct (m w) as [[t w1] a]. simpl. by destruct (f a w1) as [[t2 w2] b].
Qed.

Lemma value_bind {W A B} (m : Run W A) (f : A → Run W B) w :
  value (m ≫= f) w = value (f (value m w)) (final m w).
Proof.
  unfold final, value, mbind, run_bind. destruct (m w) as [[t w1] a]. simpl. by destruct (f a w1) as [[t2 w2] b].
Qed.

Lemma value_call {W A} (f : W → W * A) w : value (call f) w = (f w).2.
Proof. unfold value, call. by destruct (f w). Qed.

Lemma final_call {W A} (f : W → W * A) w : final (call f) w = (f w).1.
Proof. unfold final, call. by destruct (f w). Qed.

Lemma holds_ret {W A} (I : W → Prop) (a : A) w (Q : A → W → Prop) : Q a w → holds I (mret a) w Q.
Proof. split; [constructor|done]. Qed.

Lemma holds_bind {W A B} (I : W → Prop) (m : Run W A) (f : A → Run W B) w Q :
  holds I m w (fun a w1 => holds I (f a) w1 Q) → holds I (m ≫= f) w Q.
Proof.
  unfold holds, visited, value, final, mbind, run_bind.
  destruct (m w) as [[t1 w1] a]. simpl. destruct (f a w1) as [[t2 w2] b]. simpl.
  intros (H1 & H2 & H3). by rewrite Forall_app.
Qed.

Lemma holds_call {W A} (I : W → Prop) (f : W → W * A) w Q :
  I (f w).1 → Q (f w).2 (f w).1 → holds I (call f) w Q.
Proof.
  unfold holds, visited, value, final, call. destruct (f w) as [w' a]. simpl. by repeat constructor.
Qed.

Lemma holds_mono {W A} (I I' : W → Prop) (m : Run W A) w (Q Q' : A → W → Prop) :
  holds I m w Q → (∀ x, I x → I' x) → (∀ a x, Q a x → Q' a x) → holds I' m w Q'.
Proof.
  intros [H1 H2] HI HQ. split; [|by apply HQ]. eapply Forall_impl; [exact H1|exact HI].
Qed.

Lemma holds_retried {W A} (I P : W → Prop) (m : Run W (result apiError A)) w Q r :
  (∀ w1, P w1 → holds I m w1 (fun a w2 => P w2 ∧ Q a w2)) →
  retried m w r → P w → Forall I r.1.1 ∧ P r.1.2 ∧ Q r.2 r.1.2.
Proof.
  intros Hm Hr. induction Hr as [w|w t1 w1 t2 w2 r Heq Hr IH]; intros HP.
  - by destruct (Hm w HP) as (? & ? & ?).
  - destruct (Hm w HP) as (H1 & H2 & _). unfold visited, final in *. rewrite Heq in *. simpl in *.
    destruct (IH H2) as (? & ? & ?). by rewrite Forall_app.
Qed.

Lemma holds_RetryOnConflict `{ClusterLaws W} {A} (I P : W → Prop) (m : Run W (result apiError A)) w Q :
  (∀ w1, P w1 → holds I m w1 (fun a w2 => P w2 ∧ Q a w2)) → P w →
  holds I (RetryOnConflict m) w (fun a w2 => P w2 ∧ Q a w2).
Proof.
  intros Hm HP. pose proof (holds_retried I P m w Q _ Hm (RetryOnConflict_law m w) HP) as (? & ? & ?).
  by split.
Qed.

(** What holds of the moments of a computation, its value and its end together. *)
Definition runs {W A} (m : Run W A) (w : W) (Q : list W → A → W → Prop) : Prop :=
  Q (visited m w) (value m w) (final m w).

Lemma runs_ret {W A} (a : A) (w : W) (Q : list W → A → W → Prop) : Q [] a w → runs (mret a) w Q.
Proof. done. Qed.

Lemma runs_call {W A} (f : W → W * A) w (Q : list W → A → W → Prop) :
  Q [(f w).1] (f w).2 (f w).1 → runs (call f) w Q.
Proof. unfold runs, visited, value, final, call. by destruct (f w). Qed.

Lemma runs_bind {W A B} (m : Run W A) (f : A → Run W B) w (Q : list W → B → W → Prop) :
  runs m w (fun t a w1 => runs (f a) w1 (fun t' b w2 => Q (t ++ t') b w2)) → runs (m ≫= f) w Q.
Proof.
  unfold runs, visited, value, final, mbind, run_bind. destruct (m w) as [[t1 w1] a]. simpl.
  by destruct (f a w1) as [[t2 w2] b].
Qed.

Lemma runs_mono {W A} (m : Run W A) w (Q Q' : list W → A → W → Prop) :
  runs m w Q → (∀ t a w', Q t a w' → Q' t a w') → runs m w Q'.
Proof. intros HQ Himp. by apply Himp. Qed.

Lemma visited_bind {W A B} (m : Run W A) (k : A → Run W B) w :
  visited (m ≫= k) w = visited m w ++ visited (k (value m w)) (final m w).
Proof. by apply (runs_bind m k w (fun t _ _ => t = _)). Qed.

(** A computation whose moments all stand in [R] to where it starts, and that
    ends at the last of them. *)
Definition within {W A} (R : W → W → Prop) (m : Run W A) : Prop :=
  ∀ w, runs m w (fun t _ w' => Forall (R w) t ∧ R w w' ∧ w' ∈ w :: t).

Section Within.
Context {W : Type} (R : W → W → Prop) `{!PreOrder R}.

Lemma within_ret {A} (a : A) : within R (mret a).
Proof. intros w. apply runs_ret. split_and!; [done|done|left]. Qed.

Lemma within_call {A} (f : W → W * A) : (∀ w, R w (f w).1) → within R (call f).
Proof. intros Hf w. apply runs_call. split_and!; [by apply Forall_singleton|done|right; left]. Qed.

Lemma within_app (w w1 w2 : W) t t' :
  Forall (R w) t ∧ R w w1 ∧ w1 ∈ w :: t → Forall (R w1) t' ∧ R w1 w2 ∧ w2 ∈ w1 :: t' →
  Forall (R w) (t ++ t') ∧ R w w2 ∧ w2 ∈ w :: t ++ t'.
Proof.
  intros (Ha & Hb & Hin) (Hc & Hd & Hin'). rewrite Forall_app. split_and!; [done| |by etrans|].
  - eapply Forall_impl; [exact Hc|]. intros. by etrans.
  - apply elem_of_cons in Hin' as [->|Hin']; [|set_solver]. apply elem_of_cons in Hin as [->|Hin]; set_solver.
Qed.

Lemma within_bind {A B} (m : Run W A) (f : A → Run W B) : within R m → (∀ a, within R (f a)) → within R (m ≫= f).
Proof.
  intros Hm Hf w. apply runs_bind. eapply runs_mono; [apply Hm|]. intros t a w1 Ha.
  eapply runs_mono; [apply Hf|]. intros t' b w2 Hb. exact (within_app _ _ _ _ _ Ha Hb).
Qed.

Lemma within_retried {A} (m : Run W (result apiError A)) w r :
  within R m → retried m w r → Forall (R w) r.1.1 ∧ R w r.1.2 ∧ r.1.2 ∈ w :: r.1.1.
Proof.
  intros Hm Hr. induction Hr as [w|w t1 w1 t2 w2 r Heq Hr IH]; [apply Hm|]. pose proof (Hm w) as Ha.
  unfold runs, visited, final in Ha. rewrite Heq in Ha. exact (within_app _ _ _ _ _ Ha IH).
Qed.

Lemma within_RetryOnConflict `{HL : ClusterLaws W} {A} (m : Run W (result apiError A)) :
  within R m → within R (RetryOnConflict m).
Proof. intros Hm w. exact (within_retried m w _ Hm (RetryOnConflict_law m w)). Qed.
End Within.

(** Goes through a computation: the calls, and the computations proved before,
    are in the database. *)
Create HintDb within.
Ltac stays :=
  cbv beta zeta;
  lazymatch goal with
  | |- within ?R _ =>
      first
        [ solve [eauto with within]
        | apply (within_ret R)
        | apply (within_call R); intros; solve [eauto with within]
        | apply (within_bind R); [stays|intros; stays]
        | match goal with |- within _ (match ?x with _ => _ end) => destruct x; stays end ]
  end.

(** What is known of the value of a computation alone. *)
Definition yields {W A} (m : Run W A) (Y : A → Prop) : Prop := ∀ w, Y (value m w).

Lemma yields_ret {W A} (a : A) (Y : A → Prop) : Y a → yields (W := W) (mret a) Y.
Proof. by intros ? w. Qed.

Lemma yields_bind {W A B} (m : Run W A) (f : A → Run W B) (X : A → Prop) (Y : B → Prop) :
  yields m X → (∀ a, X a → yields (f a) Y) → yields (m ≫= f) Y.
Proof. intros Hm Hf w. rewrite value_bind. by apply Hf. Qed.

Lemma yields_any {W A} (m : Run W A) : yields m (fun _ => True).
Proof. done. Qed.

Lemma yields_mono {W A} (m : Run W A) (X Y : A → Prop) : yields m X → (∀ a, X a → Y a) → yields m Y.
Proof. intros Hm HXY w. apply HXY, Hm. Qed.

(** Goes through a computation to what it returns. *)
Ltac returns tac :=
  cbv beta zeta;
  lazymatch goal with
  | |- yields (mret _) _ => apply yields_ret; tac
  | |- yields (_ ≫= _) _ => apply (yields_bind _ _ (fun _ => True)); [apply yields_any|intros ? _; returns tac]
  | |- yields (match ?x with _ => _ end) _ => destruct x eqn:?; returns tac
  end.

(** ** What happens, in terms of when. *)

(** A computation whose moments stand in [R], which may speak of the moments [T]
    it belongs to, to where it starts; [P] is known before, [Q] after. *)
Section Tracked.
Context {W : Type} (R : (W → Prop) → W → W → Prop) `{!∀ T, PreOrder (R T)}.

(** [T] holds at the moments so far: each of them stands in [R T] to the start,
    and [Q] holds of the value and of the world at the end. *)
Definition trackedAt {A} (m : Run W A) (w : W) (P : (W → Prop) → Prop) (Q : (W → Prop) → A → W → Prop) : Prop :=
  runs m w (fun t r w' => ∀ T : W → Prop, P T → T w → Forall T t → T w' ∧ Forall (R T w) (w' :: t) ∧ Q T r w').

Definition trackedBy {A} (m : Run W A) (w : W) (P : (W → Prop) → Prop) (Q : (W → Prop) → A → Prop) : Prop :=
  trackedAt m w P (fun T a _ => Q T a).

Lemma at_ret {A} (a : A) w (P : (W → Prop) → Prop) Q : (∀ T, P T → T w → Q T a w) → trackedAt (mret a) w P Q.
Proof.
  intros HQ. apply runs_ret. intros T Hpre Hw _. split_and!; [done| |by apply HQ]. apply Forall_singleton. reflexivity.
Qed.

Lemma at_conseq {A} (m : Run W A) w (P P' : (W → Prop) → Prop) (Q Q' : (W → Prop) → A → W → Prop) :
  trackedAt m w P Q → (∀ T, P' T → T w → P T) → (∀ T a w', Q T a w' → T w' → Q' T a w') → trackedAt m w P' Q'.
Proof.
  unfold trackedAt. intros Hm Hpre HQ. eapply runs_mono; [exact Hm|]. intros t a w' Ht T HT Hw Hf.
  destruct (Ht T (Hpre T HT Hw) Hw Hf) as (? & ? & ?). split_and!; auto.
Qed.

Lemma at_bind {A B} (m : Run W A) (f : A → Run W B) w (P : (W → Prop) → Prop) (Q : (W → Prop) → A → W → Prop) Q' :
  trackedAt m w P Q → (∀ a w1, trackedAt (f a) w1 (fun T => Q T a w1) Q') → trackedAt (m ≫= f) w P Q'.
Proof.
  unfold trackedAt. intros Hm Hf. apply runs_bind. eapply runs_mono; [exact Hm|]. intros t a w1 Ht.
  eapply runs_mono; [apply Hf|]. intros t' b w2 Ht' T Hpre Hw [HT HT']%Forall_app.
  destruct (Ht T Hpre Hw HT) as (Hw1 & [Hc Hcs]%Forall_cons & HQ). destruct (Ht' T HQ Hw1 HT') as (Hw2 & [Hd Hds]%Forall_cons & HQ').
  split_and!; [done| |done]. apply Forall_cons. split; [by etrans|]. apply Forall_app. split; [done|].
  eapply Forall_impl; [exact Hds|]. intros x Hx. by etrans.
Qed.

Lemma at_assume {A} (X : Prop) (m : Run W A) w (P : (W → Prop) → Prop) Q :
  (∀ T, P T → T w → X) → (X → trackedAt m w P Q) → trackedAt m w P Q.
Proof. intros HX Hm T HP Hw HT. by apply (Hm (HX T HP Hw)). Qed.

(** What is known before stays known. *)
Lemma at_keeps {A} (m : Run W A) w P Q : trackedAt m w P Q → trackedAt m w P (fun T a x => P T ∧ Q T a x).
Proof. intros Hm T HT Hw Hall. destruct (Hm T HT Hw Hall) as (? & ? & ?). done. Qed.

Lemma at_then {A B} (m : Run W A) (f : A → Run W B) w (P P0 : (W → Prop) → Prop) (Q : (W → Prop) → A → W → Prop) Q' :
  trackedAt m w P0 Q → (∀ T, P T → T w → P0 T) →
  (∀ a w1, trackedAt (f a) w1 (fun T => P T ∧ Q T a w1) Q') → trackedAt (m ≫= f) w P Q'.
Proof.
  intros Hm Hpre. apply at_bind, at_keeps. by eapply at_conseq.
Qed.

Lemma at_within {A} (S : W → W → Prop) (m : Run W A) w (P : (W → Prop) → Prop) Q :
  within S m → (∀ T x, P T → T w → S w x → R T w x) → (∀ T a x, P T → T x → S w x → Q T a x) → trackedAt m w P Q.
Proof.
  intros Hm HS HQ. eapply runs_mono; [apply Hm|]. intros t a w' (Ht & Hw' & Hin) T Hpre Hw HT.
  assert (T w') as Hend by (apply elem_of_cons in Hin as [->|Hin]; [done|by eapply Forall_forall in HT]).
  split_and!; [done| |by apply HQ]. apply Forall_cons. split; [by apply HS|]. eapply Forall_impl; [exact Ht|]. intros x. by apply HS.
Qed.

Lemma at_value {A} (m : Run W A) w P (Y : A → Prop) Q :
  yields m Y → trackedAt m w P Q → trackedAt m w P (fun T a x => Y a ∧ Q T a x).
Proof.
  intros Hy Ht. unfold trackedAt, runs in *. intros T Hpre Hw HT. destruct (Ht T Hpre Hw HT) as (? & ? & ?).
  split_and!; [done..|apply Hy|done].
Qed.

(** What holds of every step holds from the start to the end. *)
Lemma at_also {A} (S : W → W → Prop) (m : Run W A) w P Q :
  within S m → trackedAt m w P Q → trackedAt m w P (fun T a x => S w x ∧ Q T a x).
Proof.
  intros Hm Ht. unfold trackedAt, runs in *. destruct (Hm w) as (_ & Hs & _). intros T Hpre Hw HT.
  destruct (Ht T Hpre Hw HT) as (? & ? & ?). done.
Qed.

(** Where it ends is reached along the relation. *)
Lemma at_end {A} (m : Run W A) w P Q : trackedAt m w P Q → trackedAt m w P (fun T a x => Q T a x ∧ R T w x).
Proof.
  intros Ht. unfold trackedAt, runs in *. intros T Hpre Hw HT. destruct (Ht T Hpre Hw HT) as (? & Hr & ?).
  split_and!; [done..|]. by apply Forall_cons in Hr as [? _].
Qed.

Lemma at_call {A} (f : W → W * A) w (P : (W → Prop) → Prop) Q :
  (∀ T, P T → T w → T (f w).1 → R T w (f w).1 ∧ Q T (f w).2 (f w).1) → trackedAt (call f) w P Q.
Proof.
  intros Hf. apply runs_call. intros T Hpre Hw [Hw' _]%Forall_cons. destruct (Hf T Hpre Hw Hw') as [Hc HQ].
  split_and!; [done| |done]. apply Forall_cons. split; [exact Hc|]. apply Forall_singleton. exact Hc.
Qed.

Lemma tracked_ret {A} (a : A) w (P : (W → Prop) → Prop) Q : (∀ T, P T → Q T a) → trackedBy (mret a) w P Q.
Proof. intros HQ. apply at_ret. auto. Qed.

Lemma tracked_conseq {A} (m : Run W A) w (P P' : (W → Prop) → Prop) (Q Q' : (W → Prop) → A → Prop) :
  trackedBy m w P Q → (∀ T, P' T → P T) → (∀ T a, Q T a → Q' T a) → trackedBy m w P' Q'.
Proof. intros Hm Hpre HQ. eapply at_conseq; [exact Hm|auto|]. simpl. auto. Qed.

Lemma tracked_bind {A B} (m : Run W A) (f : A → Run W B) w (P : (W → Prop) → Prop) (Q : (W → Prop) → A → Prop) Q' :
  trackedBy m w P Q → (∀ a w1, trackedBy (f a) w1 (fun T => Q T a) Q') → trackedBy (m ≫= f) w P Q'.
Proof. intros Hm Hf. eapply at_bind; [exact Hm|]. exact Hf. Qed.

Lemma tracked_within {A} (S : W → W → Prop) (m : Run W A) w (P : (W → Prop) → Prop) :
  within S m → (∀ T x, P T → T w → S w x → R T w x) → trackedBy m w P (fun T _ => P T).
Proof. intros Hm HS. eapply at_within; [exact Hm|exact HS|auto]. Qed.

Lemma tracked_value {A} (m : Run W A) w P (Y : A → Prop) Q :
  yields m Y → trackedBy m w P Q → trackedBy m w P (fun T a => Y a ∧ Q T a).
Proof. apply at_value. Qed.

Lemma tracked_call {A} (f : W → W * A) w (P : (W → Prop) → Prop) Q :
  (∀ T, P T → T w → R T w (f w).1 ∧ Q T (f w).2) → trackedBy (call f) w P Q.
Proof. intros Hf. apply at_call. intros T Hpre Hw _. by apply Hf. Qed.
End Tracked.
Arguments at_ret {W R _ A}.
Arguments at_conseq {W R A}.
Arguments at_bind {W R _ A B}.
Arguments at_assume {W R A}.
Arguments at_then {W R _ A B}.
Arguments at_within {W R A}.
Arguments at_value {W R A}.
Arguments at_call {W R A}.
Arguments tracked_ret {W R _ A}.
Arguments tracked_conseq {W R A}.
Arguments tracked_bind {W R _ A B}.
Arguments tracked_within {W R A}.
Arguments tracked_value {W R A}.
Arguments tracked_call {W R A}.

(** ** Readings are taken once and are never older than the last change. *)

Section ReadingFacts.
Context `{Cluster W}.

Definition readingsSane (rr : runtimeReadings) : Prop :=
  ∀ name r, rr_byPod rr !! name = Some r → rd_changes r ≤ rr_changes rr.

Lemma reading_of_spec rr pod w :
  let '(rr', reply) := value (reading_of rr pod) w in
  rr_changes rr' = rr_changes rr ∧
  (let r := default (MkReading reply (rr_changes rr)) (rr_byPod rr !! pod_Name pod) in
   rr_byPod rr' !! pod_Name pod = Some r ∧ rd_reply r = reply) ∧
  (∀ name, name ≠ pod_Name pod → rr_byPod rr' !! name = rr_byPod rr !! name).
Proof.
  unfold reading_of, value. destruct (rr_byPod rr !! pod_Name pod) as [r|] eqn:Er; simpl.
  - done.
  - unfold mbind, run_bind, call. destruct (Snapshot (pod_IP pod) w) as [w' reply]. simpl.
    split_and!; [done|by rewrite lookup_insert_eq|done|intros; by rewrite lookup_insert_ne].
Qed.

Lemma reading_of_known rr pod w r :
  rr_byPod rr !! pod_Name pod = Some r → reading_of rr pod w = ([], w, (rr, rd_reply r)).
Proof. unfold reading_of. by intros ->. Qed.
End ReadingFacts.

(** A runtime is read once a pass.  The second step to ask for a pod's
    reading is given the first one's, an error included, without a call; and
    asking for one pod does not touch what was read of another. *)
Theorem reading_is_taken_once `{Cluster W} rr pod w :
  let '(rr1, reply) := value (reading_of rr pod) w in
  (∀ w1, reading_of rr1 pod w1 = ([], w1, (rr1, reply))) ∧
  (∀ other, pod_Name other ≠ pod_Name pod →
     rr_byPod rr1 !! pod_Name other = rr_byPod rr !! pod_Name other).
Proof.
  pose proof (reading_of_spec rr pod w) as Hs. destruct (value (reading_of rr pod) w) as [rr1 reply].
  destruct Hs as (_ & [Hr <-] & Ho). split; [|intros; by apply Ho].
  intros w1. by apply reading_of_known.
Qed.

(** A fresh reading that succeeded is no older than the last change the
    pass made to any runtime, and a pod whose runtime was changed without being
    read back is read again by the next step that asks. *)
Theorem fresh_reading_is_current `{Cluster W} rr pod w :
  readingsSane rr →
  let '(rr1, reply) := value (fresh rr pod) w in
  readingsSane rr1 ∧
  (is_ok reply = true → ∃ r, rr_byPod rr1 !! pod_Name pod = Some r ∧ rd_reply r = reply ∧
     rd_changes r = rr_changes rr1) ∧
  rr_byPod (forget rr (pod_Name pod)) !! pod_Name pod = None ∧
  (∀ name r, rr_byPod (forget rr name) !! pod_Name pod = Some r → rd_changes r < rr_changes (forget rr name)).
Proof.
  intros Hs. set (rr0 := match rr_byPod rr !! pod_Name pod with
    | Some r => if is_ok (rd_reply r) && (rd_changes r <? rr_changes rr)
                then MkReadings (delete (pod_Name pod) (rr_byPod rr)) (rr_changes rr) else rr
    | None => rr end).
  assert (fresh rr pod = reading_of rr0 pod) as ->.
  { unfold fresh, rr0. destruct (rr_byPod rr !! pod_Name pod) as [r|]; [|done]. by destruct (_ && _). }
  assert (rr_changes rr0 = rr_changes rr ∧ readingsSane rr0 ∧
    (∀ r, rr_byPod rr0 !! pod_Name pod = Some r → is_ok (rd_reply r) = true → rd_changes r = rr_changes rr))
    as (Hc0 & Hs0 & Hr0).
  { unfold rr0. destruct (rr_byPod rr !! pod_Name pod) as [r|] eqn:Er.
    - destruct (is_ok (rd_reply r) && _) eqn:Ea; simpl.
      + split_and!; [done| |intros ?; by rewrite lookup_delete_eq].
        intros name r' Hr'. simpl in *. apply lookup_delete_Some in Hr' as [_ Hr']. by eapply Hs.
      + split_and!; [done..|]. intros r' Hr' Hok. simplify_eq. rewrite Hok in Ea. simpl in Ea.
        apply Z.ltb_ge in Ea. specialize (Hs _ _ Er). lia.
    - split_and!; [done..|congruence]. }
  pose proof (reading_of_spec rr0 pod w) as Hspec.
  destruct (value (reading_of rr0 pod) w) as [rr1 reply]. destruct Hspec as (H1 & [Hr Hrep] & H3).
  set (r := default _ _) in *.
  assert (rd_changes r ≤ rr_changes rr0) as Hle.
  { unfold r. destruct (rr_byPod rr0 !! pod_Name pod) as [r0|] eqn:E0; simpl; [by eapply Hs0|lia]. }
  split_and!.
  - intros name r' Hr'. rewrite H1. destruct (decide (name = pod_Name pod)) as [->|Hne]; [congruence|].
    rewrite H3 in Hr' by done. by eapply Hs0.
  - intros Hok. exists r. split_and!; [done..|]. rewrite H1, Hc0. unfold r in *.
    destruct (rr_byPod rr0 !! pod_Name pod) as [r0|] eqn:E0; simpl in *; [|done].
    apply Hr0; [done|]. by rewrite Hrep.
  - apply lookup_delete_eq.
  - intros name r' Hr'. simpl in *. apply lookup_delete_Some in Hr' as [_ Hr']. specialize (Hs _ _ Hr'). lia.
Qed.

(** ** A cluster that answers, for the witnesses. *)

Section FakeCluster.
Local Existing Instance NanoK8s.

(** Limits and usage by runtime address and model, and the claims stored. *)
Record fakeWorld : Type := MkFake {
  fw_limits : gmap (string * string) Z;
  fw_used : gmap (string * string) Z;
  fw_claims : gmap NamespacedName ModelClaim;
}.

Definition fakeModel (w : fakeWorld) (ip : string) (kv : string * string * Z) : option RuntimeSnapshotModel :=
  if bool_decide (kv.1.1 = ip) then
    Some (MkSnapshotModel kv.1.2 None kv.1.2 "active" true true None
            (Z.max 0 (default 0 (fw_used w !! kv.1))) kv.2 None None true 0 0 None "" 9000)
  else None.

(** A write of a status leaves the finalizers as they are. *)
Definition fakeStored (w : fakeWorld) (claim : ModelClaim) : ModelClaim :=
  setFinalizers claim (default [] (mc_Finalizers <$> fw_claims w !! ObjectKeyFromObject claim)).

Definition fakeCluster : Cluster fakeWorld := {|
  SetKVLimit ip req w :=
    match fw_limits w !! (ip, req_ModelName req) with
    | Some _ => (MkFake (<[(ip, req_ModelName req) := req_LimitBytes req]> (fw_limits w)) (fw_used w)
                   (fw_claims w), Ok true)
    | None => (w, Ok true)
    end;
  Snapshot ip w :=
    (w, Ok (Some (MkSnapshot 0 [] (omap (fakeModel w ip) (map_to_list (fw_limits w))) [])));
  GetClaim c w :=
    (w, match fw_claims w !! c with
        | Some claim => if bool_decide (ObjectKeyFromObject claim = c) then Ok claim else Err ApiFailed
        | None => Err ApiNotFound
        end);
  StatusUpdate claim w :=
    let stored := fakeStored w claim in
    (MkFake (fw_limits w) (fw_used w) (<[ObjectKeyFromObject claim := stored]> (fw_claims w)), Ok stored);
  RetryOnConflict A m := m;
|}.
Local Existing Instance fakeCluster.

Definition fakeRecords (claim : ModelClaim) : list (string * Z) :=
  (fun i => (inst_Pod i, inst_KVLimitBytes i)) <$> status_Instances claim.

Definition fakeLaws : ClusterLaws.
Proof.
  refine {|
    limitOf w ip m := fw_limits w !! (ip, m);
    usedOf w ip m := Z.max 0 (default 0 (fw_used w !! (ip, m)));
    recordsOf w c := match fw_claims w !! c with Some claim => fakeRecords claim | None => [] end |}.
  - intros. lia.
  - intros ip req w. simpl. destruct (fw_limits w !! (ip, req_ModelName req)) as [x|] eqn:Ex; simpl.
    + split_and!; [intros ip' m; lia|by intros c|]. intros ip' m.
      destruct (decide ((ip, req_ModelName req) = (ip', m))) as [[= <- <-]|Hne].
      * right. rewrite lookup_insert_eq, Ex. by split_and!.
      * left. by rewrite lookup_insert_ne.
    + split_and!; [intros ip' m; lia|by intros c|by left].
  - intros ip w. simpl. split_and!; [intros ip' m; lia|by intros ? ?|by intros ?|].
    intros s x [= <-] Hx _. simpl in Hx. apply list_elem_of_omap in Hx as ([[ip' m] z] & Hin & Hf).
    apply elem_of_map_to_list in Hin. unfold fakeModel in Hf. simpl in Hf.
    case_bool_decide; simplify_eq/=. split; [done|lia].
  - intros c w. simpl. split_and!; [intros ip' m; lia|by intros ? ?|by intros ?|].
    intros claim Hc. destruct (fw_claims w !! c) as [cl|] eqn:Ec; [|done].
    case_bool_decide; simplify_eq. done.
  - intros claim w. simpl. split_and!; [intros ip' m; lia|by intros ? ?|..].
    + intros c' Hc. by rewrite lookup_insert_ne.
    + right. by rewrite lookup_insert_eq.
    + intros stored _. by rewrite lookup_insert_eq.
  - intros A m w. constructor.
Defined.
Local Existing Instance fakeLaws.

(** A pass that read the pod's runtime, changed another one, and asks again. *)
Definition exReadings : runtimeReadings :=
  forget (value (reading_of newRuntimeReadings exPod) (MkFake ∅ ∅ ∅)).1 "pod-b".

Lemma exReadings_sane : readingsSane exReadings.
Proof.
  intros name r Hl. unfold exReadings, forget in Hl. simpl in Hl.
  apply lookup_delete_Some in Hl as [_ Hl]. unfold value, reading_of in Hl. simpl in Hl.
  rewrite lookup_empty in Hl. simpl in Hl. apply lookup_insert_Some in Hl as [[_ <-]|[_ Hl%lookup_empty_Some]]; [vm_compute; discriminate|done].
Qed.

Lemma fresh_reading_is_current_witness :
  let '(rr1, reply) := value (fresh exReadings exPod) (MkFake ∅ ∅ ∅) in
  readingsSane rr1 ∧ is_ok reply = true ∧ rr_changes exReadings = 1 ∧
  ∃ r, rr_byPod rr1 !! "pod-a" = Some r ∧ rd_changes r = rr_changes rr1.
Proof.
  pose proof (fresh_reading_is_current exReadings exPod (MkFake ∅ ∅ ∅) exReadings_sane) as Hf.
  destruct (value (fresh exReadings exPod) (MkFake ∅ ∅ ∅)) as [rr1 reply] eqn:Ev.
  assert (is_ok (value (fresh exReadings exPod) (MkFake ∅ ∅ ∅)).2 = true) as Hok by (vm_compute; reflexivity).
  rewrite Ev in Hok. destruct Hf as (Hs & Hr & _). destruct (Hr Hok) as (r & Hl & _ & Hc).
  split; [exact Hs|]. split; [exact Hok|]. split; [reflexivity|]. exists r. split; [exact Hl|exact Hc].
Defined.
End FakeCluster.
