(* ===== verification/ArrangeCard.v ===== *)
(** * Carrying a division out ([pkg/controller/modelclaim/modelclaim_controller.go],
    arrangeCard and what it calls).

    A plan is written in an order that never leaves two engines entitled to the
    same byte: shrinks first, confirmed by a reading, then the records, the ones
    that go down before the ones that go up, then the grows.  The theorems hold
    at every moment of the arrangement, for any way the runtimes and the API
    server may answer ([ClusterLaws]): calls that fail, writes that are lost or
    applied in spite of an error, engines that map pages all the while.

    Events and log lines are not modelled, except that an arrangement says which
    moves it announces. *)

From S2P Require Import Prelude Api Claims Ledger KVPlan Placement Reservations Runtime.

(** ** Why a card is divided (division.go). *)

Record division : Type := MkDivision {
  div_minimumChangeBytes : Z;
  div_onlyWhenNeeded : bool;
  div_owedBefore : list string;
  div_announce : bool;
}.

Definition placementDivision : division := MkDivision 0 false [] true.
Definition compositionDivision : division := MkDivision 0 false [] true.
Definition loadDivision (hbmUsable : Z) : division :=
  MkDivision (minimumKVLimitChangeBytes hbmUsable) true [] false.
Definition firstDivision (hbmUsable : Z) : division :=
  let why := loadDivision hbmUsable in
  MkDivision why.(div_minimumChangeBytes) false why.(div_owedBefore) why.(div_announce).

(** ** The steps. *)

Inductive stepError : Type :=
| SetFailed (model : string) (bytes : Z)
| ReadBackFailed
| NotConfirmed (why : confirmError).

Inductive arrangeError : Type :=
| PlanFailed (why : planError)
| ShrinkFailed (why : stepError)
| RecordFailed (claim : string) (bytes : Z) (why : apiError).

Inductive arrangement : Type :=
| Arranged (limits announced : list plannedKVLimit)
| GrowthIncomplete (limits announced : list plannedKVLimit) (why : stepError)
| CardLeftAlone (limits : list plannedKVLimit) (owed : list string)
| ArrangeFailed (why : arrangeError).

Section Arrange.
Context `{Cluster W}.
Context (pod : Pod) (ledger : podLedger).

Definition kvPlanRequest (kind : string) (limit : plannedKVLimit) (bytes : Z) : SetKVLimitRequest :=
  MkSetKVLimit limit.(lim_modelName) bytes
    (MkOperation kind pod.(pod_Namespace) pod.(pod_UID) limit.(lim_claimName) bytes ledger.(observedAt)).

(** The write loop: what it wrote, and the write that failed. *)
Fixpoint writeLimits (limits : list plannedKVLimit)
  : Run W (list plannedKVLimit * option stepError) :=
  match limits with
  | [] => mret ([], None)
  | limit :: rest =>
      ok ← call (SetKVLimit pod.(pod_IP) (kvPlanRequest "kv-plan" limit limit.(lim_kvLimitBytes)));
      if is_ok ok then
        r ← writeLimits rest;
        mret (limit :: r.1, r.2)
      else mret ([], Some (SetFailed limit.(lim_modelName) limit.(lim_kvLimitBytes)))
  end.

Definition writeAndConfirmKVLimits (readings : runtimeReadings) (limits : list plannedKVLimit)
  : Run W (runtimeReadings * list plannedKVLimit * option stepError) :=
  match limits with
  | [] => mret (readings, [], None)
  | _ =>
      r ← writeLimits limits;
      match r.2 with
      | Some err => mret (forget readings pod.(pod_Name), r.1, Some err)
      | None =>
          let readings := forget readings pod.(pod_Name) in
          reply ← call (Snapshot pod.(pod_IP));
          match reply with
          | Err _ => mret (readings, limits, Some ReadBackFailed)
          | Ok snapshot =>
              let readings := match snapshot with Some s => replace readings pod s | None => readings end in
              match confirmKVLimits snapshot limits with
              | Ok _ => mret (readings, limits, None)
              | Err why => mret (readings, limits, Some (NotConfirmed why))
              end
          end
      end
  end.

(** What an engine is held to again. *)
Definition limitBefore (limit : plannedKVLimit) : Z :=
  let before := limit.(lim_kvCapacityBytes) in
  let before := if (0 <? limit.(lim_kvRecordedBytes)) && (limit.(lim_kvRecordedBytes) <? before)
                then limit.(lim_kvRecordedBytes) else before in
  clampKVLimit before limit.(lim_kvInitialCapacityBytes).

Fixpoint takeBackKVLimits (written : list plannedKVLimit) : Run W unit :=
  match written with
  | [] => mret ()
  | limit :: rest =>
      let before := limitBefore limit in
      if before <=? limit.(lim_kvLimitBytes) then takeBackKVLimits rest
      else
        ok ← call (SetKVLimit pod.(pod_IP) (kvPlanRequest "kv-plan-back" limit before));
        if is_ok ok then takeBackKVLimits rest else mret ()
  end.

(** Writing a limit into a claim's status. *)
Definition setInstanceLimit (podName : string) (bytes : Z) (instance : ModelClaimInstance)
  : ModelClaimInstance :=
  if bool_decide (instance.(inst_Pod) = podName) && negb (instance.(inst_KVLimitBytes) =? bytes)
  then MkInstance instance.(inst_Pod) instance.(inst_Port) instance.(inst_Phase) bytes instance.(inst_Reason)
  else instance.

Definition setInstances (claim : ModelClaim) (instances : list ModelClaimInstance) : ModelClaim :=
  MkModelClaim claim.(mc_Namespace) claim.(mc_Name) claim.(mc_UID) claim.(mc_Generation)
    claim.(mc_CreationTimestamp) claim.(mc_DeletionTimestamp) claim.(spec_ModelName)
    claim.(spec_PodSelector) claim.(spec_ArtifactURL) claim.(spec_Engine) claim.(spec_Replicas)
    claim.(spec_Priority) claim.(spec_PreemptionPolicy) claim.(spec_EngineArgs) claim.(spec_PerGPU)
    claim.(status_Phase) instances claim.(status_Conditions) claim.(status_Candidates)
    claim.(status_ReadyReplicas) claim.(status_DesiredReplicas) claim.(mc_ResourceVersion) claim.(mc_Finalizers).

Definition recordOnce (claimName : string) (kvLimitBytes : Z) : Run W (result apiError ModelClaim) :=
  got ← call (GetClaim (MkNN pod.(pod_Namespace) claimName));
  match got with
  | Err e => mret (Err e)
  | Ok claim =>
      if existsb (fun i => bool_decide (i.(inst_Pod) = pod.(pod_Name)) &&
                           negb (i.(inst_KVLimitBytes) =? kvLimitBytes)) claim.(status_Instances)
      then
        let claim' := setInstances claim
          (setInstanceLimit pod.(pod_Name) kvLimitBytes <$> claim.(status_Instances)) in
        done ← call (StatusUpdate claim');
        mret done
      else mret (Ok claim)
  end.

Definition recordKVLimit (claimName : string) (kvLimitBytes : Z) : Run W (result apiError ModelClaim) :=
  RetryOnConflict (recordOnce claimName kvLimitBytes).

(** One of the two passes over the records. *)
Fixpoint recordLimits (lowering : bool) (limits : list plannedKVLimit)
  : Run W (option (string * Z * apiError)) :=
  match limits with
  | [] => mret None
  | limit :: rest =>
      if negb (Bool.eqb (lowersRecord limit) lowering) then recordLimits lowering rest
      else
        r ← recordKVLimit limit.(lim_claimName) limit.(lim_kvLimitBytes);
        match r with
        | Ok _ => recordLimits lowering rest
        | Err e => mret (Some (limit.(lim_claimName), limit.(lim_kvLimitBytes), e))
        end
  end.

(** What follows the shrinks once they are confirmed. *)
Definition recordAndGrow (readings : runtimeReadings) (why : division)
    (limits first second : list plannedKVLimit) : Run W (runtimeReadings * arrangement) :=
  down ← recordLimits true limits;
  match down with
  | Some (c, v, e) => mret (readings, ArrangeFailed (RecordFailed c v e))
  | None =>
      up ← recordLimits false limits;
      match up with
      | Some (c, v, e) => mret (readings, ArrangeFailed (RecordFailed c v e))
      | None =>
          g ← writeAndConfirmKVLimits readings second;
          match g.2 with
          | Some e => mret (g.1.1, GrowthIncomplete limits (if why.(div_announce) then first else []) e)
          | None => mret (g.1.1, Arranged limits (if why.(div_announce) then first ++ second else []))
          end
      end
  end.

Definition arrangeCard (readings : runtimeReadings) (es : list engineOnPod) (why : division)
  : Run W (runtimeReadings * arrangement) :=
  match planKVLimits (plannableBytes ledger) es with
  | Err e => mret (readings, ArrangeFailed (PlanFailed e))
  | Ok limits =>
      let '(needed, owed) := needsDividing es limits why.(div_minimumChangeBytes) why.(div_owedBefore) in
      if why.(div_onlyWhenNeeded) && negb needed then mret (readings, CardLeftAlone limits owed)
      else if (0 <? why.(div_minimumChangeBytes)) && negb (worthWriting limits why.(div_minimumChangeBytes))
      then mret (readings, CardLeftAlone limits owed)
      else
        let '(first, second) := shrinksAndGrows limits in
        s ← writeAndConfirmKVLimits readings first;
        match s.2 with
        | Some e =>
            _ ← takeBackKVLimits s.1.2;
            mret (forget s.1.1 pod.(pod_Name), ArrangeFailed (ShrinkFailed e))
        | None => recordAndGrow s.1.1 why limits first second
        end
  end.

(** ** Making room for a model being placed. *)

Inductive makeRoomError : Type :=
| CouldNotArrange (why : arrangeError)
| NothingTried
| LeftOutOfPlan.

Definition newcomerOf (pm : ModelClaim) (perGPU : perGPUBytes) : engineOnPod :=
  MkEngine pm.(mc_Name) (servedModelName pm) "" perGPU 0 kvLimitUnknown None 0 0 0 false false 0 false false.

Definition limitOfClaim (claimName : string) (limits : list plannedKVLimit) : result makeRoomError Z :=
  match List.find (fun l => bool_decide (l.(lim_claimName) = claimName)) limits with
  | Some l => Ok l.(lim_kvLimitBytes)
  | None => Err LeftOutOfPlan
  end.

Definition makeRoomOnPod (readings : runtimeReadings) (pm : ModelClaim) (perGPU : perGPUBytes)
  : Run W (runtimeReadings * result makeRoomError Z) :=
  r ← arrangeCard readings (ledger.(engines) ++ [newcomerOf pm perGPU]) placementDivision;
  mret (r.1, match r.2 with
             | Arranged limits _ => limitOfClaim pm.(mc_Name) limits
             | GrowthIncomplete limits _ _ => limitOfClaim pm.(mc_Name) limits
             | CardLeftAlone _ _ => Err NothingTried
             | ArrangeFailed e => Err (CouldNotArrange e)
             end).
End Arrange.

(** ** What is true while a card is arranged. *)

Section ArrangeFacts.
Context `{HL : ClusterLaws W}.
Context (pod : Pod) (ledger : podLedger).

(** The memory an engine can take at a moment: what it is held to, or what it
    has mapped already. *)
Definition entitled (w : W) (model : string) : Z :=
  Z.max (default 0 (limitOf w pod.(pod_IP) model)) (usedOf w pod.(pod_IP) model).

(** The limits recorded for a claim's instances on the pod. *)
Definition recorded (w : W) (claimName : string) (v : Z) : Prop :=
  (pod.(pod_Name), v) ∈ recordsOf w (MkNN pod.(pod_Namespace) claimName).

(** A step that leaves limits alone. *)
Definition quiet (w w' : W) : Prop := engineGrows w w' ∧ limitsKept w w'.

Lemma quiet_refl w : quiet w w.
Proof. split; [intros ip m; lia|by intros ip m]. Qed.

Lemma quiet_trans w1 w2 w3 : quiet w1 w2 → quiet w2 w3 → quiet w1 w3.
Proof.
  intros [G1 L1] [G2 L2]. split.
  - intros ip m. specialize (G1 ip m). specialize (G2 ip m). rewrite (L2 ip m), (L1 ip m) in *. lia.
  - intros ip m. by rewrite (L2 ip m), (L1 ip m).
Qed.

Lemma quiet_entitled w w' m : quiet w w' → entitled w' m ≤ entitled w m.
Proof.
  intros [G L]. unfold entitled. specialize (G (pod_IP pod) m). rewrite (L (pod_IP pod) m) in *. lia.
Qed.

(** ** Recording. *)

(** What recording [bytes] for a claim may have done so far. *)
Definition recording (claimName : string) (bytes : Z) (w w' : W) : Prop :=
  quiet w w' ∧
  (∀ c, c ≠ MkNN pod.(pod_Namespace) claimName → recordsOf w' c = recordsOf w c) ∧
  (∀ v, recorded w' claimName v → recorded w claimName v ∨ v = bytes).

Lemma recording_refl claimName bytes w : recording claimName bytes w w.
Proof. split_and!; [apply quiet_refl|done|by left]. Qed.

Lemma recording_trans claimName bytes w1 w2 w3 :
  recording claimName bytes w1 w2 → recording claimName bytes w2 w3 → recording claimName bytes w1 w3.
Proof.
  intros (Q1 & O1 & R1) (Q2 & O2 & R2). split_and!; [by eapply quiet_trans| |].
  - intros c Hc. by rewrite O2, O1.
  - intros v [Hv| ->]%R2; [by apply R1|by right].
Qed.

Lemma setInstanceLimit_records bytes (instances : list ModelClaimInstance) v :
  (pod_Name pod, v) ∈
    ((fun i => (inst_Pod i, inst_KVLimitBytes i)) <$> (setInstanceLimit (pod_Name pod) bytes <$> instances)) →
  v = bytes.
Proof.
  intros (i' & Hv & (i & -> & Hi)%list_elem_of_fmap)%list_elem_of_fmap.
  unfold setInstanceLimit in Hv. case_bool_decide as Hp; simpl in Hv.
  - destruct (Z.eqb_spec (inst_KVLimitBytes i) bytes); simpl in Hv; congruence.
  - congruence.
Qed.

Lemma recordOnce_holds claimName bytes w0 w :
  recording claimName bytes w0 w →
  holds (recording claimName bytes w0) (recordOnce pod claimName bytes) w
    (fun r w' => recording claimName bytes w0 w' ∧
       (is_ok r = true → ∀ v, recorded w' claimName v → v = bytes)).
Proof.
  intros Hw. unfold recordOnce. set (c := MkNN (pod_Namespace pod) claimName).
  apply holds_bind. destruct (GetClaim_law c w) as (G & L & R & Hok).
  assert (recording claimName bytes w0 (GetClaim c w).1) as Hw1.
  { eapply recording_trans; [exact Hw|]. split_and!; [by split|intros; by apply R|].
    intros v Hv. left. unfold recorded in *. by rewrite R in Hv. }
  apply holds_call; [done|]. destruct (GetClaim c w) as [w1 got]. simpl in *.
  destruct got as [claim|e]; [|by apply holds_ret].
  destruct (Hok claim eq_refl) as [Hkey Hrec].
  destruct (existsb _ _) eqn:Ex.
  - apply holds_bind. set (claim' := setInstances claim _).
    destruct (StatusUpdate_law claim' w1) as (G' & L' & O' & R' & Ok').
    assert (ObjectKeyFromObject claim' = c) as Hkey' by done. rewrite Hkey' in *.
    assert (recording claimName bytes w0 (StatusUpdate claim' w1).1) as Hw2.
    { eapply recording_trans; [exact Hw1|]. split_and!; [by split|by apply O'|].
      intros v Hv. unfold recorded in *. fold c in Hv |- *. destruct R' as [R'|R']; rewrite R' in Hv; [by left|].
      right. by apply setInstanceLimit_records in Hv. }
    apply holds_call; [done|]. destruct (StatusUpdate claim' w1) as [w2 done]. simpl in *.
    destruct done as [stored|e]; apply holds_ret; (split; [done|]); simpl; [|done].
    intros _ v Hv. unfold recorded in Hv. fold c in Hv. rewrite (Ok' stored eq_refl) in Hv.
    by apply setInstanceLimit_records in Hv.
  - apply holds_ret. split; [done|]. intros _ v Hv. unfold recorded in Hv. fold c in Hv. rewrite Hrec in Hv.
    apply list_elem_of_fmap in Hv as (i & [= Hp ->] & Hi).
    destruct (Z.eqb_spec (inst_KVLimitBytes i) bytes) as [|Hne]; [done|exfalso].
    assert (existsb (fun i => bool_decide (inst_Pod i = pod_Name pod) &&
      negb (inst_KVLimitBytes i =? bytes)) (status_Instances claim) = true); [|congruence].
    apply existsb_exists. exists i. rewrite <- list_elem_of_In, bool_decide_eq_true_2 by done.
    split; [done|]. by apply negb_true_iff, Z.eqb_neq.
Qed.

Lemma recordKVLimit_holds claimName bytes w :
  holds (recording claimName bytes w) (recordKVLimit pod claimName bytes) w
    (fun r w' => recording claimName bytes w w' ∧
       (is_ok r = true → ∀ v, recorded w' claimName v → v = bytes)).
Proof.
  unfold recordKVLimit.
  apply (holds_RetryOnConflict (recording claimName bytes w) (recording claimName bytes w)).
  - intros w1 Hw1. by apply recordOnce_holds.
  - apply recording_refl.
Qed.

(** ** One arrangement: the plan [limits], carried out from the world [w0]. *)

Context (limits : list plannedKVLimit) (w0 : W).

Definition knownLimit (l : plannedKVLimit) : Prop := l ∈ limits ∧ 0 ≤ lim_kvCapacityBytes l.

(** What the arrangement relies on at the start: engines and claims are told
    apart by name, the reading the plan was made from still describes the
    limits in force, what an engine has mapped since is within its limit, and
    the records are the ones the account read. *)
Record startsFrom : Prop := MkStarts {
  sf_models : NoDup (lim_modelName <$> limits);
  sf_claims : NoDup (lim_claimName <$> limits);
  sf_nonneg : ∀ l, l ∈ limits → 0 ≤ lim_kvLimitBytes l;
  sf_limits : ∀ l, knownLimit l →
    limitOf w0 (pod_IP pod) (lim_modelName l) = Some (lim_kvCapacityBytes l) ∧
    usedOf w0 (pod_IP pod) (lim_modelName l) ≤ Z.max (lim_kvLimitBytes l) (lim_kvCapacityBytes l);
  sf_records : ∀ l v, l ∈ limits → recorded w0 (lim_claimName l) v → v = lim_kvRecordedBytes l;
  sf_held : ∀ l, knownLimit l → 0 < lim_kvRecordedBytes l → lim_kvCapacityBytes l ≤ lim_kvRecordedBytes l;
}.
Context (Hstart : startsFrom).

Lemma same_model l l' : l ∈ limits → l' ∈ limits → lim_modelName l = lim_modelName l' → l = l'.
Proof.
  intros Hl Hl' Heq. apply list_elem_of_lookup in Hl as [i Hi], Hl' as [j Hj].
  assert (i = j) as <-; [|congruence]. eapply NoDup_lookup; [apply (sf_models Hstart)|..];
    rewrite list_lookup_fmap; [by rewrite Hi|by rewrite Hj, Heq].
Qed.

Lemma same_claim l l' : l ∈ limits → l' ∈ limits → lim_claimName l = lim_claimName l' → l = l'.
Proof.
  intros Hl Hl' Heq. apply list_elem_of_lookup in Hl as [i Hi], Hl' as [j Hj].
  assert (i = j) as <-; [|congruence]. eapply NoDup_lookup; [apply (sf_claims Hstart)|..];
    rewrite list_lookup_fmap; [by rewrite Hi|by rewrite Hj, Heq].
Qed.

(** Before the records: nothing grew, and only shrinks were written. *)
Definition early (w : W) : Prop :=
  recordsKept w0 w ∧
  ∀ l, knownLimit l → ∃ x, limitOf w (pod_IP pod) (lim_modelName l) = Some x ∧
    x ≤ lim_kvCapacityBytes l ∧
    usedOf w (pod_IP pod) (lim_modelName l) ≤ entitled w0 (lim_modelName l) ∧
    (lim_kvCapacityBytes l ≤ lim_kvLimitBytes l → x = lim_kvCapacityBytes l).

(** Once the shrinks are confirmed: every engine is inside its plan, and no
    engine has grown. *)
Definition middle (w : W) : Prop :=
  ∀ l, knownLimit l → ∃ x, limitOf w (pod_IP pod) (lim_modelName l) = Some x ∧
    x ≤ lim_kvCapacityBytes l ∧ x ≤ lim_kvLimitBytes l ∧
    usedOf w (pod_IP pod) (lim_modelName l) ≤ lim_kvLimitBytes l ∧
    (lim_kvLimitBytes l ≤ lim_kvCapacityBytes l → x = lim_kvLimitBytes l).

(** While engines grow: every engine is inside its plan. *)
Definition late (w : W) : Prop :=
  ∀ l, knownLimit l → ∃ x, limitOf w (pod_IP pod) (lim_modelName l) = Some x ∧
    x ≤ lim_kvLimitBytes l ∧ usedOf w (pod_IP pod) (lim_modelName l) ≤ lim_kvLimitBytes l ∧
    (lim_kvLimitBytes l ≤ lim_kvCapacityBytes l → x = lim_kvLimitBytes l).

Lemma middle_late w : middle w → late w.
Proof. intros Hm l Hl. destruct (Hm l Hl) as (x & ? & ? & ? & ? & ?). by exists x. Qed.

Lemma middle_quiet w w' : middle w → quiet w w' → middle w'.
Proof.
  intros Hm [G L] l Hl. destruct (Hm l Hl) as (x & Hx & H1 & H2 & H3 & H4).
  exists x. rewrite L. split_and!; try done.
  specialize (G (pod_IP pod) (lim_modelName l)). rewrite L, Hx in G. simpl in G.
  pose proof (sf_nonneg Hstart l (proj1 Hl)). lia.
Qed.

Lemma late_quiet w w' : late w → quiet w w' → late w'.
Proof.
  intros Hm [G L] l Hl. destruct (Hm l Hl) as (x & Hx & H1 & H2 & H3).
  exists x. rewrite L. split_and!; try done.
  specialize (G (pod_IP pod) (lim_modelName l)). rewrite L, Hx in G. simpl in G.
  pose proof (sf_nonneg Hstart l (proj1 Hl)). lia.
Qed.

Lemma entitled_start l : knownLimit l →
  lim_kvCapacityBytes l ≤ entitled w0 (lim_modelName l) ≤ Z.max (lim_kvLimitBytes l) (lim_kvCapacityBytes l).
Proof.
  intros Hl. destruct (sf_limits Hstart l Hl) as [H1 H2]. unfold entitled. rewrite H1. simpl. lia.
Qed.

Lemma early_start : early w0.
Proof.
  split; [by intros c|]. intros l Hl. destruct (sf_limits Hstart l Hl) as [H1 H2].
  exists (lim_kvCapacityBytes l). split_and!; [done|lia| |done]. unfold entitled. lia.
Qed.

Lemma early_quiet w w' : early w → quiet w w' → recordsKept w w' → early w'.
Proof.
  intros [R Hm] [G L] R'. split; [intros c; by rewrite R', R|]. intros l Hl.
  destruct (Hm l Hl) as (x & Hx & H1 & H2 & H3). exists x. rewrite L. split_and!; try done.
  specialize (G (pod_IP pod) (lim_modelName l)). rewrite L, Hx in G. simpl in G.
  pose proof (entitled_start l Hl). destruct Hl. lia.
Qed.

(** A write below what the engine was held to at the start, to an engine that
    shrinks. *)
Lemma early_set w l req :
  early w → knownLimit l → lim_kvLimitBytes l < lim_kvCapacityBytes l →
  req_ModelName req = lim_modelName l → req_LimitBytes req ≤ lim_kvCapacityBytes l →
  early (SetKVLimit (pod_IP pod) req w).1.
Proof.
  intros [R Hm] Hl Hs Hn Hb. destruct (SetKVLimit_law (pod_IP pod) req w) as (G & R' & L).
  split; [intros c; by rewrite R', R|]. intros l' Hl'.
  destruct (Hm l' Hl') as (x & Hx & H1 & H2 & H3).
  specialize (G (pod_IP pod) (lim_modelName l')). pose proof (entitled_start l' Hl') as HE.
  destruct (L (pod_IP pod) (lim_modelName l')) as [Hk|(_ & Hm' & _ & Hk)].
  - exists x. rewrite Hk in *. rewrite Hx in *. simpl in G. split_and!; try done. destruct Hl'. lia.
  - assert (l' = l) as -> by (apply same_model; [apply Hl'|apply Hl|congruence]).
    exists (req_LimitBytes req). rewrite Hk, Hx in *. simpl in G. split_and!; try done; [|lia].
    destruct Hl'. lia.
Qed.

(** A write of its planned limit to an engine that grows. *)
Lemma late_set w l req :
  late w → l ∈ limits → lim_kvCapacityBytes l < lim_kvLimitBytes l →
  req_ModelName req = lim_modelName l → req_LimitBytes req = lim_kvLimitBytes l →
  late (SetKVLimit (pod_IP pod) req w).1.
Proof.
  intros Hm Hl Hg Hn Hb l' Hl'. destruct (SetKVLimit_law (pod_IP pod) req w) as (G & _ & L).
  destruct (Hm l' Hl') as (x & Hx & H1 & H2 & H3).
  specialize (G (pod_IP pod) (lim_modelName l')). pose proof (sf_nonneg Hstart l' (proj1 Hl')).
  destruct (L (pod_IP pod) (lim_modelName l')) as [Hk|(_ & Hm' & _ & Hk)].
  - exists x. rewrite Hk in *. rewrite Hx in *. simpl in G. split_and!; try done. lia.
  - assert (l' = l) as -> by (apply same_model; [apply Hl'|done|congruence]).
    exists (req_LimitBytes req). rewrite Hk, Hx in *. simpl in G. split_and!; try lia. done.
Qed.

(** ** The write steps. *)

Lemma confirm_ok snapshot written :
  confirmKVLimits snapshot written = Ok () → ∀ l, l ∈ written → ∃ x, x ∈ snapshot_models snapshot ∧
    sm_ModelName x = lim_modelName l ∧ sm_KVCapacityBytes x = lim_kvLimitBytes l ∧
    sm_KVUsedBytes x ≤ lim_kvLimitBytes l.
Proof.
  induction written as [|l' written IH]; intros Hc l Hl; [set_solver|]. simpl in Hc.
  destruct (List.find _ _) as [x|] eqn:Ef; [|done].
  destruct (Z.eqb_spec (sm_KVCapacityBytes x) (lim_kvLimitBytes l')); [|done].
  destruct (Z.ltb_spec (lim_kvLimitBytes l') (sm_KVUsedBytes x)); [done|].
  apply elem_of_cons in Hl as [->|Hl]; [|by apply IH].
  apply find_some in Ef as [Hin Hn%bool_decide_eq_true]. exists x.
  by rewrite list_elem_of_In.
Qed.

Lemma writeLimits_holds (P : W → Prop) ws w :
  (∀ l x, l ∈ ws → P x → P (SetKVLimit (pod_IP pod) (kvPlanRequest pod ledger "kv-plan" l (lim_kvLimitBytes l)) x).1) →
  P w → holds P (writeLimits pod ledger ws) w (fun r w' => P w' ∧ (∀ l, l ∈ r.1 → l ∈ ws)).
Proof.
  revert w. induction ws as [|l ws IH]; intros w Hset HP; simpl.
  { apply holds_ret. simpl. split; [done|set_solver]. }
  assert (l ∈ l :: ws) as Hin by set_solver.
  apply holds_bind, holds_call; [by apply Hset|].
  pose proof (Hset l w Hin HP) as HP1.
  destruct (SetKVLimit _ _ w) as [w1 ok]. simpl in *. destruct ok.
  - apply holds_bind. eapply holds_mono; [apply IH; [|done]|done|].
    { intros l' x Hl'. apply Hset. set_solver. }
    intros [r e] w2 [HP2 Hsub]. apply holds_ret. simpl in *. split; [done|].
    intros l' [->|?]%elem_of_cons; set_solver.
  - apply holds_ret. simpl. split; [done|set_solver].
Qed.

(** A step keeps what each of its writes keeps; a step that reports no error
    has been read back. *)
Lemma writeAndConfirm_holds (P : W → Prop) readings ws w :
  (∀ l x, l ∈ ws → P x → P (SetKVLimit (pod_IP pod) (kvPlanRequest pod ledger "kv-plan" l (lim_kvLimitBytes l)) x).1) →
  (∀ x, P x → P (Snapshot (pod_IP pod) x).1) →
  (∀ l, l ∈ ws → 0 ≤ lim_kvLimitBytes l) →
  P w → holds P (writeAndConfirmKVLimits pod ledger readings ws) w
    (fun r w' => P w' ∧ (∀ l, l ∈ r.1.2 → l ∈ ws) ∧
       (r.2 = None → ∀ l, l ∈ ws →
          limitOf w' (pod_IP pod) (lim_modelName l) = Some (lim_kvLimitBytes l) ∧
          usedOf w' (pod_IP pod) (lim_modelName l) ≤ lim_kvLimitBytes l)).
Proof.
  intros Hset Hsnap Hpos HP. unfold writeAndConfirmKVLimits.
  destruct ws as [|l0 ws0] eqn:Ews; [apply holds_ret; simpl; split_and!; [done|set_solver..]|].
  rewrite <- Ews in *.
  apply holds_bind. eapply holds_mono; [by apply writeLimits_holds|done|].
  intros [r e] w1 [HP1 Hsub]. simpl in *. destruct e as [e|]; [apply holds_ret; simpl; split_and!; done|].
  apply holds_bind, holds_call; [by apply Hsnap|].
  specialize (Hsnap w1 HP1). destruct (Snapshot_law (pod_IP pod) w1) as (_ & _ & _ & Htruth).
  destruct (Snapshot (pod_IP pod) w1) as [w2 reply]. simpl in *.
  destruct reply as [snapshot|e]; [|apply holds_ret; simpl; split_and!; done].
  destruct (confirmKVLimits snapshot ws) as [[]|e] eqn:Ec; apply holds_ret; simpl; (split_and!; [done|done|]);
    [|done].
  intros _ l Hl. destruct (confirm_ok _ _ Ec l Hl) as (x & Hx & Hn & Hcap & Hu).
  destruct snapshot as [snap|]; [|set_solver]. specialize (Hpos l Hl).
  destruct (Htruth snap x eq_refl Hx) as [T1 T2]; [lia|]. rewrite <- Hn. rewrite T1, Hcap. split; [done|lia].
Qed.

Lemma takeBack_holds ws w :
  (∀ l, l ∈ ws → knownLimit l ∧ lim_kvLimitBytes l < lim_kvCapacityBytes l) →
  early w → holds early (takeBackKVLimits pod ledger ws) w (fun _ w' => early w').
Proof.
  revert w. induction ws as [|l ws IH]; intros w Hws HE; simpl; [by apply holds_ret|].
  assert (∀ l', l' ∈ ws → knownLimit l' ∧ lim_kvLimitBytes l' < lim_kvCapacityBytes l') as Hws'
    by (intros l' Hl'; apply Hws, elem_of_cons; by right).
  destruct (Z.leb_spec (limitBefore l) (lim_kvLimitBytes l)); [by apply IH|].
  destruct (Hws l) as [Hk Hs]; [apply elem_of_cons; by left|].
  assert (limitBefore l ≤ lim_kvCapacityBytes l) as Hb.
  { unfold limitBefore. etrans; [apply clampKVLimit_le|]. destruct (_ && _) eqn:E; [|lia]. breflect. lia. }
  assert (early (SetKVLimit (pod_IP pod) (kvPlanRequest pod ledger "kv-plan-back" l (limitBefore l)) w).1) as HE1
    by (by eapply early_set).
  apply holds_bind, holds_call; [done|]. destruct (SetKVLimit _ _ w) as [w1 ok]. simpl in *.
  destruct ok; [by apply IH|by apply holds_ret].
Qed.

(** ** The record passes. *)

(** Every record is the old one, for a limit that is not finished, or the
    planned one, for a limit that was touched. *)
Definition recordsIn (T F : plannedKVLimit → Prop) (w : W) : Prop :=
  ∀ l v, l ∈ limits → recorded w (lim_claimName l) v →
    (v = lim_kvRecordedBytes l ∧ ¬ F l) ∨ (v = lim_kvLimitBytes l ∧ T l).

Lemma recordsIn_weaken (T F F' : plannedKVLimit → Prop) w :
  recordsIn T F' w → (∀ l, F l → F' l) → recordsIn T F w.
Proof. intros HR HF l v Hl Hv. destruct (HR l v Hl Hv) as [[? Hn]|?]; [left|by right]. naive_solver. Qed.

Lemma recordsIn_kept T F w w' : recordsIn T F w → recordsKept w w' → recordsIn T F w'.
Proof. intros HR K l v Hl Hv. apply HR; [done|]. unfold recorded in *. by rewrite K in Hv. Qed.

Lemma recordsIn_recording T F l w w' :
  l ∈ limits → T l → ¬ F l → recordsIn T F w →
  recording (lim_claimName l) (lim_kvLimitBytes l) w w' →
  recordsIn T F w' ∧
  ((∀ v, recorded w' (lim_claimName l) v → v = lim_kvLimitBytes l) →
   recordsIn T (fun x => F x ∨ x = l) w').
Proof.
  intros Hl HT HF HR (_ & Ho & Hr).
  assert (∀ l' v, l' ∈ limits → l' ≠ l → recorded w' (lim_claimName l') v →
    recorded w (lim_claimName l') v) as Hother.
  { intros l' v Hl' Hne Hv. unfold recorded in *. rewrite Ho in Hv; [done|].
    intros [= Heq]. by apply Hne, same_claim. }
  assert (∀ l' : plannedKVLimit, l' ∈ limits → l' = l ∨ l' ≠ l) as Hdec.
  { intros l' Hl'. destruct (decide (lim_claimName l' = lim_claimName l)) as [He|Hne];
      [left; by apply same_claim|right; naive_solver]. }
  split.
  - intros l' v Hl' Hv. destruct (Hdec l' Hl') as [->|Hne]; [|by apply HR, Hother].
    destruct (Hr v Hv) as [Hv'| ->]; [by apply HR|by right].
  - intros Hdone l' v Hl' Hv. destruct (Hdec l' Hl') as [->|Hne].
    + right. split; [by apply Hdone|done].
    + destruct (HR l' v Hl' (Hother _ _ Hl' Hne Hv)) as [[? ?]|?]; [left; naive_solver|by right].
Qed.

Lemma recordLimits_holds (T F : plannedKVLimit → Prop) lowering todo w :
  (∀ l, l ∈ todo → l ∈ limits ∧ (lowersRecord l = lowering → T l ∧ ¬ F l)) → NoDup todo →
  middle w → recordsIn T F w →
  holds (fun x => middle x ∧ recordsIn T F x) (recordLimits pod lowering todo) w
    (fun r x => middle x ∧ recordsIn T F x ∧
       (r = None → recordsIn T (fun l => F l ∨ (l ∈ todo ∧ lowersRecord l = lowering)) x)).
Proof.
  revert F w. induction todo as [|l todo IH]; intros F w Htodo Hnd HM HR; simpl.
  { apply holds_ret. split_and!; [done..|]. intros _. eapply recordsIn_weaken; [exact HR|]. set_solver. }
  apply NoDup_cons in Hnd as [Hni Hnd].
  destruct (Bool.eqb_spec (lowersRecord l) lowering) as [He|He]; simpl.
  - destruct (Htodo l) as [Hl HTF]; [set_solver|]. destruct (HTF He) as [HT HF].
    apply holds_bind. eapply holds_mono; [apply recordKVLimit_holds|..].
    { intros x Hx. split; [eapply middle_quiet; [exact HM|apply Hx]|].
      by eapply recordsIn_recording. }
    intros r x [Hx Hok]. simpl in Hok.
    assert (middle x) as HMx by (eapply middle_quiet; [exact HM|apply Hx]).
    destruct (recordsIn_recording T F l w x Hl HT HF HR Hx) as [HRx HRx'].
    destruct r as [claim|e]; [|apply holds_ret; split_and!; done].
    specialize (HRx' (Hok eq_refl)).
    eapply holds_mono; [apply (IH (fun y => F y ∨ y = l) x); try done| |].
    + intros l' Hl'. destruct (Htodo l') as [? HTF']; [set_solver|]. split; [done|].
      intros He'. destruct (HTF' He') as [? ?]. split; [done|]. intros [?| ->]; done.
    + intros y [? HRy]. split; [done|]. eapply recordsIn_weaken; [exact HRy|]. by left.
    + intros r y (? & HRy & HRn). split_and!; [done| |].
      * eapply recordsIn_weaken; [exact HRy|]. by left.
      * intros Hn. eapply recordsIn_weaken; [exact (HRn Hn)|]. intros l' [?|[[->|?]%elem_of_cons ?]]; auto.
  - eapply holds_mono; [apply (IH F w); try done; set_solver|done|].
    intros r y (? & HRy & HRn). split_and!; [done..|]. intros Hn.
    eapply recordsIn_weaken; [exact (HRn Hn)|]. intros l' [?|[[->|?]%elem_of_cons ?]]; [by left|done|by right].
Qed.

(** ** Every moment of an arrangement. *)

Definition good (w : W) : Prop :=
  ((∀ l, knownLimit l → entitled w (lim_modelName l) ≤ entitled w0 (lim_modelName l)) ∨
   (∀ l, knownLimit l → entitled w (lim_modelName l) ≤ lim_kvLimitBytes l)) ∧
  ((∀ l v, l ∈ limits → recorded w (lim_claimName l) v → v ≤ lim_kvRecordedBytes l) ∨
   (∀ l v, l ∈ limits → recorded w (lim_claimName l) v → v ≤ lim_kvLimitBytes l)) ∧
  (∀ l v, knownLimit l → recorded w (lim_claimName l) v → 0 < v →
     default 0 (limitOf w (pod_IP pod) (lim_modelName l)) ≤ v).

Lemma early_good w : early w → good w.
Proof.
  intros [R HE]. assert (∀ l v, l ∈ limits → recorded w (lim_claimName l) v → v = lim_kvRecordedBytes l) as HR.
  { intros l v Hl Hv. apply (sf_records Hstart); [done|]. unfold recorded in *. by rewrite R in Hv. }
  split_and!.
  - left. intros l Hl. destruct (HE l Hl) as (x & Hx & H1 & H2 & _). pose proof (entitled_start l Hl).
    unfold entitled at 1. rewrite Hx. simpl. lia.
  - left. intros l v Hl Hv. rewrite (HR l v Hl Hv). lia.
  - intros l v Hl Hv Hpos. destruct (HE l Hl) as (x & Hx & H1 & _). rewrite Hx. simpl.
    rewrite (HR l v (proj1 Hl) Hv) in *. pose proof (sf_held Hstart l Hl Hpos). lia.
Qed.

Lemma middle_good T F w :
  middle w → recordsIn T F w →
  (∀ l, T l → lowersRecord l = true) ∨ (∀ l, lowersRecord l = true → F l) → good w.
Proof.
  intros HM HR HTF. split_and!.
  - right. intros l Hl. destruct (HM l Hl) as (x & Hx & ? & ? & ? & _). unfold entitled. rewrite Hx. simpl. lia.
  - destruct HTF as [HT|HF]; [left|right]; intros l v Hl Hv; destruct (HR l v Hl Hv) as [[-> Hn]|[-> Ht]]; try lia.
    + apply HT, Z.ltb_lt in Ht. lia.
    + destruct (lowersRecord l) eqn:E; [by apply HF in E|]. apply Z.ltb_ge in E. lia.
  - intros l v Hl Hv Hpos. destruct (HM l Hl) as (x & Hx & H1 & H2 & _). rewrite Hx. simpl.
    destruct (HR l v (proj1 Hl) Hv) as [[-> _]|[-> _]]; [|lia].
    pose proof (sf_held Hstart l Hl Hpos). lia.
Qed.

Definition allRecorded (w : W) : Prop :=
  ∀ l v, l ∈ limits → recorded w (lim_claimName l) v → v = lim_kvLimitBytes l.

Lemma late_good w : late w → allRecorded w → good w.
Proof.
  intros HM HR. split_and!.
  - right. intros l Hl. destruct (HM l Hl) as (x & Hx & ? & ? & _). unfold entitled. rewrite Hx. simpl. lia.
  - right. intros l v Hl Hv. rewrite (HR l v Hl Hv). lia.
  - intros l v Hl Hv Hpos. destruct (HM l Hl) as (x & Hx & H1 & _). rewrite Hx. simpl.
    rewrite (HR l v (proj1 Hl) Hv). done.
Qed.

(** The shrinks, once confirmed, leave every engine inside its plan. *)
Lemma confirmed_middle w :
  early w →
  (∀ l, l ∈ (shrinksAndGrows limits).1 →
     limitOf w (pod_IP pod) (lim_modelName l) = Some (lim_kvLimitBytes l) ∧
     usedOf w (pod_IP pod) (lim_modelName l) ≤ lim_kvLimitBytes l) → middle w.
Proof.
  intros [_ HE] Hc l Hl. destruct (HE l Hl) as (x & Hx & H1 & H2 & H3). pose proof (entitled_start l Hl).
  destruct (Z.lt_ge_cases (lim_kvLimitBytes l) (lim_kvCapacityBytes l)).
  - destruct (Hc l) as [Hc1 Hc2]; [apply shrinksFirst_elem; destruct Hl; auto|].
    exists (lim_kvLimitBytes l). rewrite Hc1. split_and!; [done|lia..].
  - exists x. rewrite H3 in * by lia. split_and!; [done|lia..].
Qed.

(** How the world is left. *)
Definition outcome (a : arrangement) (w : W) : Prop :=
  match a with
  | Arranged ls _ => ls = limits ∧ allRecorded w ∧ ∀ l, knownLimit l →
      limitOf w (pod_IP pod) (lim_modelName l) = Some (lim_kvLimitBytes l) ∧
      usedOf w (pod_IP pod) (lim_modelName l) ≤ lim_kvLimitBytes l
  | GrowthIncomplete ls _ _ => ls = limits ∧ allRecorded w ∧ late w
  | CardLeftAlone ls _ => ls = limits ∧ w = w0
  | ArrangeFailed (ShrinkFailed _) => early w
  | ArrangeFailed (RecordFailed _ _ _) => middle w
  | ArrangeFailed (PlanFailed _) => False
  end.

Lemma recordAndGrow_holds readings why w :
  middle w → recordsKept w0 w →
  holds good (recordAndGrow pod ledger readings why limits
                (shrinksAndGrows limits).1 (shrinksAndGrows limits).2) w (fun r w' => outcome r.2 w').
Proof.
  intros HM HK. unfold recordAndGrow.
  assert (NoDup limits) as Hnd by apply (NoDup_fmap_1 lim_claimName), (sf_claims Hstart).
  set (T := fun l => lowersRecord l = true). set (F := fun _ : plannedKVLimit => False).
  assert (recordsIn T F w) as HR.
  { intros l v Hl Hv. left. split; [|by intros []]. apply (sf_records Hstart); [done|].
    unfold recorded in *. by rewrite HK in Hv. }
  apply holds_bind. eapply holds_mono; [apply (recordLimits_holds T F true limits w); try done|..].
  { intros l Hl. split; [done|]. intros Hlow. split; [done|by intros []]. }
  { intros x [? ?]. apply (middle_good T F); try done. by left. }
  clear HM HR HK w. intros down w (HM & _ & Hn). destruct down as [[[c v] e]|]; [by apply holds_ret|].
  specialize (Hn eq_refl). set (F1 := fun l => lowersRecord l = true).
  assert (recordsIn (fun _ => True) F1 w) as HR.
  { intros l v Hl Hv. destruct (Hn l v Hl Hv) as [[-> HF]|[-> _]]; [left|by right].
    split; [done|]. intros HF1. apply HF. right. by split. }
  clear Hn. apply holds_bind. eapply holds_mono; [apply (recordLimits_holds (fun _ => True) F1 false limits w); try done|..].
  { intros l Hl. split; [done|]. intros Hlow. split; [done|]. unfold F1. by rewrite Hlow. }
  { intros x [? ?]. apply (middle_good (fun _ => True) F1); try done. by right. }
  clear HM HR w. intros up w (HM & _ & Hn). destruct up as [[[c v] e]|]; [by apply holds_ret|].
  specialize (Hn eq_refl). assert (allRecorded w) as HA.
  { intros l v Hl Hv. destruct (Hn l v Hl Hv) as [[-> HF]|[-> _]]; [|done].
    exfalso. apply HF. destruct (lowersRecord l) eqn:E; [by left|by right]. }
  apply middle_late in HM. clear Hn. apply holds_bind.
  eapply holds_mono; [apply (writeAndConfirm_holds (fun x => late x ∧ allRecorded x)); try done|..].
  - intros l x Hl [HMx HAx]. apply growsNext_elem in Hl as (Hl & Hc & Hg). split; [by eapply late_set|].
    destruct (SetKVLimit_law (pod_IP pod) (kvPlanRequest pod ledger "kv-plan" l (lim_kvLimitBytes l)) x) as (_ & R & _).
    intros l' v Hl' Hv. apply HAx; [done|]. unfold recorded in *. by rewrite R in Hv.
  - intros x [HMx HAx]. destruct (Snapshot_law (pod_IP pod) x) as (G & L & R & _).
    split; [eapply late_quiet; [exact HMx|by split]|].
    intros l' v Hl' Hv. apply HAx; [done|]. unfold recorded in *. by rewrite R in Hv.
  - intros l Hl. apply growsNext_elem in Hl as (Hl & _). by apply (sf_nonneg Hstart).
  - intros x [? ?]. by apply late_good.
  - intros [[rr ws] [e|]] x ([HMx HAx] & _ & Hconf); simpl in *; apply holds_ret; simpl; [done|].
    split_and!; [done..|]. intros l Hl. specialize (Hconf eq_refl l).
    destruct (HMx l Hl) as (y & Hy & Hy1 & Hy2 & Hy3).
    destruct (Z.lt_ge_cases (lim_kvCapacityBytes l) (lim_kvLimitBytes l)).
    + apply Hconf, growsNext_elem. destruct Hl. auto.
    + rewrite Hy3 in Hy by lia. done.
Qed.

Lemma arrange_holds readings es why :
  planKVLimits (plannableBytes ledger) es = Ok limits →
  holds good (arrangeCard pod ledger readings es why) w0 (fun r w => outcome r.2 w).
Proof.
  intros Hplan. unfold arrangeCard. rewrite Hplan.
  destruct (needsDividing _ _ _ _) as [needed owed].
  destruct (_ && _); [by apply holds_ret|]. destruct (_ && _); [by apply holds_ret|].
  destruct (shrinksAndGrows limits) as [first second] eqn:Esg.
  assert (first = (shrinksAndGrows limits).1) as -> by (by rewrite Esg).
  assert (second = (shrinksAndGrows limits).2) as -> by (by rewrite Esg). clear Esg.
  apply holds_bind.
  eapply holds_mono; [apply (writeAndConfirm_holds early)|by apply early_good|].
  - intros l x (Hl & Hc & Hs)%shrinksFirst_elem Hx. eapply early_set; try done. simpl. lia.
  - intros x Hx. destruct (Snapshot_law (pod_IP pod) x) as (G & L & R & _). by eapply early_quiet.
  - intros l (Hl & _)%shrinksFirst_elem. by apply (sf_nonneg Hstart).
  - apply early_start.
  - intros [[rr written] [e|]] x (HE & Hsub & Hconf); simpl in *.
    + apply holds_bind. eapply holds_mono; [apply takeBack_holds; [|done]|by apply early_good|].
      * intros l (Hl & Hc & Hs)%Hsub%(shrinksFirst_elem limits l). by split.
      * intros [] y Hy. by apply holds_ret.
    + apply recordAndGrow_holds; [apply confirmed_middle; [done|]|apply HE]. by apply Hconf.
Qed.
End ArrangeFacts.

(** ** From the engines of an account. *)

Section CardAsRead.
Context `{HL : ClusterLaws W}.
Context (pod : Pod) (ledger : podLedger) (es : list engineOnPod) (w0 : W).

(** The card still is what the account read: see [startsFrom]. *)
Record cardAsRead : Prop := MkAsRead {
  car_models : NoDup (eng_modelName <$> es);
  car_claims : NoDup (eng_claimName <$> es);
  car_limits : ∀ e, e ∈ es → 0 ≤ eng_kvCapacityBytes e →
    limitOf w0 (pod_IP pod) (eng_modelName e) = Some (eng_kvCapacityBytes e) ∧
    usedOf w0 (pod_IP pod) (eng_modelName e) ≤ Z.max (eng_kvUsedBytes e) (eng_kvCapacityBytes e);
  car_records : ∀ e v, e ∈ es → recorded pod w0 (eng_claimName e) v → v = eng_kvRecordedBytes e;
  car_held : ∀ e, e ∈ es → 0 ≤ eng_kvCapacityBytes e → 0 < eng_kvRecordedBytes e →
    eng_kvCapacityBytes e ≤ eng_kvRecordedBytes e;
}.

Lemma used_le_planned e : eng_kvUsedBytes e ≤ plannedKVHeldBytes e.
Proof. unfold plannedKVHeldBytes. rewrite kvHeldBytes_max. destruct (eng_withoutWakeReserve e); lia. Qed.

Context (limits : list plannedKVLimit).
Context (Hrange : planInRange (plannableBytes ledger) es)
  (Hplan : planKVLimits (plannableBytes ledger) es = Ok limits) (Hread : cardAsRead).

Lemma limit_engine l : l ∈ limits → ∃ e, e ∈ es ∧ limitFor e l.
Proof.
  intros Hl. pose proof (planKVLimits_engines _ _ _ Hrange Hplan) as HF.
  apply list_elem_of_lookup in Hl as [i Hi]. destruct (Forall2_lookup_r _ _ _ _ _ HF Hi) as (e & He & Hf).
  exists e. split; [|done]. by apply list_elem_of_lookup_2, elem_of_sortBy in He.
Qed.

Lemma limits_names {A} (f : plannedKVLimit → A) (g : engineOnPod → A) :
  (∀ e l, limitFor e l → f l = g e) → f <$> limits ≡ₚ g <$> es.
Proof.
  intros Hfg. pose proof (planKVLimits_engines _ _ _ Hrange Hplan) as HF.
  by rewrite <- (sortBy_perm byClaimName es), (Forall2_fmap_eq _ _ _ _ _ HF Hfg).
Qed.

Lemma asRead_startsFrom : startsFrom pod limits w0.
Proof.
  split.
  - rewrite (limits_names lim_modelName eng_modelName) by (intros e l (? & ? & _); done). apply car_models, Hread.
  - rewrite (limits_names lim_claimName eng_claimName) by (intros e l (? & ? & _); done). apply car_claims, Hread.
  - intros l (e & He & _ & _ & _ & _ & Hle & _)%limit_engine.
    destruct Hrange as (_ & _ & _ & Hr). destruct (Hr e He). lia.
  - intros l [Hl Hc]. apply limit_engine in Hl as (e & He & _ & -> & Hcap & _ & Hle & _).
    rewrite Hcap in *. destruct (car_limits Hread e He Hc) as [-> Hu]. split; [done|].
    pose proof (used_le_planned e). lia.
  - intros l v (e & He & -> & _ & _ & -> & _)%limit_engine. by apply (car_records Hread).
  - intros l [Hl Hc]. apply limit_engine in Hl as (e & He & _ & _ & Hcap & -> & _).
    rewrite Hcap in *. by apply (car_held Hread).
Qed.
End CardAsRead.

(** What a planned limit stands for at a moment: what its engine can take, for
    an engine whose limit is known, and the plan's own figure for one that has
    no segment yet or is only about to start. *)
Definition promised `{ClusterLaws W} (pod : Pod) (w : W) (l : plannedKVLimit) : Z :=
  if 0 <=? lim_kvCapacityBytes l then entitled pod w (lim_modelName l) else lim_kvLimitBytes l.

(** ** Properties. *)

(** C1: dividing a card never leaves two engines entitled to the same byte.  At
    every moment of an arrangement, whatever calls fail, get lost or take effect
    in spite of an error, and however far the engines map pages meanwhile:
    either no engine can take more than it could before the arrangement began,
    or what the engines hold besides KV and everything they can take, the room
    of a newcomer included, fits in the card. *)
Theorem arrangement_never_oversubscribes `{ClusterLaws W} pod ledger es limits readings why w0 w :
  planInRange (plannableBytes ledger) es →
  planKVLimits (plannableBytes ledger) es = Ok limits →
  cardAsRead pod es w0 →
  w ∈ visited (arrangeCard pod ledger readings es why) w0 →
  (∀ l, l ∈ limits → 0 ≤ lim_kvCapacityBytes l →
     entitled pod w (lim_modelName l) ≤ entitled pod w0 (lim_modelName l)) ∨
  sumZ (fun e => heldBytes e - plannedKVHeldBytes e) es + sumZ (promised pod w) limits
    ≤ plannableBytes ledger.
Proof.
  intros Hr Hp Hread Hw.
  destruct (arrange_holds pod ledger limits w0 (asRead_startsFrom _ _ _ _ _ Hr Hp Hread) readings es why Hp)
    as [Hgood _].
  rewrite Forall_forall in Hgood. destruct (Hgood w Hw) as [[Hb|Hb] _].
  - left. intros l Hl Hc. by apply Hb.
  - right. assert (sumZ (promised pod w) limits ≤ sumZ lim_kvLimitBytes limits).
    { apply sumZ_le. intros l Hl. unfold promised. destruct (Z.leb_spec 0 (lim_kvCapacityBytes l)); [|lia].
      by apply Hb. }
    pose proof (plan_fits (plannableBytes ledger) es limits Hr Hp). lia.
Qed.

(** C5: records and limits never contradict each other while a card is arranged.
    At every moment the recorded limits come to no more than they did before or
    to no more than the plan, engine by engine, since the records that go down
    are written before the ones that go up; and no engine is held to more than a
    record that is set for it. *)
Theorem arrangement_keeps_records `{ClusterLaws W} pod ledger es limits readings why w0 w :
  planInRange (plannableBytes ledger) es →
  planKVLimits (plannableBytes ledger) es = Ok limits →
  cardAsRead pod es w0 →
  w ∈ visited (arrangeCard pod ledger readings es why) w0 →
  ((∀ l v, l ∈ limits → recorded pod w (lim_claimName l) v → v ≤ lim_kvRecordedBytes l) ∨
   (∀ l v, l ∈ limits → recorded pod w (lim_claimName l) v → v ≤ lim_kvLimitBytes l)) ∧
  (∀ l v, l ∈ limits → 0 ≤ lim_kvCapacityBytes l → recorded pod w (lim_claimName l) v → 0 < v →
     default 0 (limitOf w (pod_IP pod) (lim_modelName l)) ≤ v).
Proof.
  intros Hr Hp Hread Hw.
  destruct (arrange_holds pod ledger limits w0 (asRead_startsFrom _ _ _ _ _ Hr Hp Hread) readings es why Hp)
    as [Hgood _].
  rewrite Forall_forall in Hgood. destruct (Hgood w Hw) as (_ & Hrecs & Hlim).
  split; [done|]. intros l v Hl Hc. by apply Hlim.
Qed.

(** C6: how an arrangement leaves the card.  One that succeeds leaves every
    engine with a known limit held to its planned limit, with no page mapped
    past it, and every record at the plan; one whose grows did not all succeed
    leaves every record at the plan and every engine inside it; one that failed
    at its shrinks leaves every record as it was and no engine able to take more
    than before; and a card left alone is not touched. *)
Theorem arrangement_outcome `{ClusterLaws W} pod ledger es limits readings why w0 :
  planInRange (plannableBytes ledger) es →
  planKVLimits (plannableBytes ledger) es = Ok limits →
  cardAsRead pod es w0 →
  let w := final (arrangeCard pod ledger readings es why) w0 in
  match (value (arrangeCard pod ledger readings es why) w0).2 with
  | Arranged ls _ => ls = limits ∧
      (∀ l v, l ∈ limits → recorded pod w (lim_claimName l) v → v = lim_kvLimitBytes l) ∧
      (∀ l, l ∈ limits → 0 ≤ lim_kvCapacityBytes l →
         limitOf w (pod_IP pod) (lim_modelName l) = Some (lim_kvLimitBytes l) ∧
         usedOf w (pod_IP pod) (lim_modelName l) ≤ lim_kvLimitBytes l)
  | GrowthIncomplete ls _ _ => ls = limits ∧
      (∀ l v, l ∈ limits → recorded pod w (lim_claimName l) v → v = lim_kvLimitBytes l) ∧
      (∀ l, l ∈ limits → 0 ≤ lim_kvCapacityBytes l →
         entitled pod w (lim_modelName l) ≤ lim_kvLimitBytes l)
  | CardLeftAlone ls _ => ls = limits ∧ w = w0
  | ArrangeFailed (ShrinkFailed _) =>
      (∀ c, recordsOf w c = recordsOf w0 c) ∧
      (∀ l, l ∈ limits → 0 ≤ lim_kvCapacityBytes l →
         entitled pod w (lim_modelName l) ≤ entitled pod w0 (lim_modelName l))
  | ArrangeFailed (RecordFailed _ _ _) =>
      ∀ l, l ∈ limits → 0 ≤ lim_kvCapacityBytes l → entitled pod w (lim_modelName l) ≤ lim_kvLimitBytes l
  | ArrangeFailed (PlanFailed _) => False
  end.
Proof.
  intros Hr Hp Hread w. pose proof (asRead_startsFrom _ _ _ _ _ Hr Hp Hread) as Hs.
  destruct (arrange_holds pod ledger limits w0 Hs readings es why Hp) as [_ Hout]. fold w in Hout.
  destruct (value _ w0).2 as [ls an|ls an e|ls owed|[e|e|c b e]]; simpl in Hout; try done.
  - destruct Hout as (? & ? & Hk). split_and!; try done. intros l Hl Hc. by apply Hk.
  - destruct Hout as (? & ? & Hlate). split_and!; try done. intros l Hl Hc.
    destruct (Hlate l (conj Hl Hc)) as (x & Hx & ? & ? & _). unfold entitled. rewrite Hx. simpl. lia.
  - destruct Hout as [HK HE]. split; [done|]. intros l Hl Hc.
    destruct (HE l (conj Hl Hc)) as (x & Hx & ? & ? & _).
    pose proof (entitled_start pod limits w0 Hs l (conj Hl Hc)). unfold entitled at 1. rewrite Hx. simpl. lia.
  - intros l Hl Hc. destruct (Hout l (conj Hl Hc)) as (x & Hx & ? & ? & ? & _).
    unfold entitled. rewrite Hx. simpl. lia.
Qed.

Lemma holds_anyhow {W A} (m : Run W A) w (Q : A → W → Prop) :
  (∀ a x, Q a x) → holds (fun _ => True) m w Q.
Proof. intros HQ. split; [|apply HQ]. by apply Forall_true. Qed.

(** A placement division always tries the plan it made. *)
Lemma placement_tries `{Cluster W} pod ledger es limits readings w0 :
  planKVLimits (plannableBytes ledger) es = Ok limits →
  match (value (arrangeCard pod ledger readings es placementDivision) w0).2 with
  | Arranged ls _ | GrowthIncomplete ls _ _ => ls = limits
  | ArrangeFailed (ShrinkFailed _) | ArrangeFailed (RecordFailed _ _ _) => True
  | _ => False
  end.
Proof.
  intros Hp.
  enough (holds (fun _ => True) (arrangeCard pod ledger readings es placementDivision) w0
    (fun r _ => match r.2 with
       | Arranged ls _ | GrowthIncomplete ls _ _ => ls = limits
       | ArrangeFailed (ShrinkFailed _) | ArrangeFailed (RecordFailed _ _ _) => True
       | _ => False end)) as [_ HQ] by exact HQ.
  unfold arrangeCard. rewrite Hp. destruct (needsDividing _ _ _ _) as [needed owed]. simpl.
  apply holds_bind, holds_anyhow. intros [[rr ws] [e|]] w1; simpl.
  { apply holds_bind, holds_anyhow. intros [] w2. by apply holds_ret. }
  unfold recordAndGrow. apply holds_bind, holds_anyhow. intros [[[c v] e]|] w2; [by apply holds_ret|].
  apply holds_bind, holds_anyhow. intros [[[c v] e]|] w3; [by apply holds_ret|].
  apply holds_bind, holds_anyhow. intros [[rr' ws'] [e|]] w4; by apply holds_ret.
Qed.

Lemma newcomer_figures `{K8s} pm perGPU :
  0 < maximumFootprintBytes perGPU → 0 < kvFloorBytes perGPU →
  plannable (newcomerOf pm perGPU) ∧
  heldBytes (newcomerOf pm perGPU) = perGPU_minimumReserveBytes perGPU ∧
  plannedKVHeldBytes (newcomerOf pm perGPU) = kvFloorBytes perGPU.
Proof.
  intros Hm Hk. assert (kvHeldBytes (newcomerOf pm perGPU) = kvFloorBytes perGPU) as Hh.
  { rewrite kvHeldBytes_max. unfold effectiveKVFloorBytes, eng_kvFloorBytes. simpl. lia. }
  split_and!; [done|..].
  - unfold heldBytes. simpl. rewrite Hh. done.
  - unfold plannedKVHeldBytes. simpl. done.
Qed.

(** A plan has a limit for the newcomer, and it covers the newcomer's floor. *)
Lemma planned_newcomer `{K8s} ledger pm perGPU limits :
  let es := engines ledger ++ [newcomerOf pm perGPU] in
  planInRange (plannableBytes ledger) es → planKVLimits (plannableBytes ledger) es = Ok limits →
  NoDup (eng_claimName <$> es) → plannedKVHeldBytes (newcomerOf pm perGPU) = kvFloorBytes perGPU →
  ∃ b, limitOfClaim (mc_Name pm) limits = Ok b ∧ kvFloorBytes perGPU ≤ b.
Proof.
  intros es Hr Hp Hnd Hk. unfold limitOfClaim.
  destruct (List.find _ limits) as [l|] eqn:Ef.
  - exists (lim_kvLimitBytes l). split; [done|].
    apply find_some in Ef as [Hin Hn%bool_decide_eq_true]. apply list_elem_of_In in Hin.
    destruct (limit_engine _ _ _ Hr Hp l Hin) as (e & He & Hname & _ & _ & _ & Hle & _).
    assert (e = newcomerOf pm perGPU) as ->; [|lia].
    apply list_elem_of_lookup in He as [i Hi].
    assert (newcomerOf pm perGPU ∈ es) as [j Hj]%list_elem_of_lookup by (apply elem_of_app; right; by left).
    assert (i = j) as <-; [|congruence].
    eapply NoDup_lookup; [exact Hnd|..]; rewrite list_lookup_fmap; [by rewrite Hi|].
    rewrite Hj. simpl. congruence.
  - exfalso. assert (mc_Name pm ∈ lim_claimName <$> limits) as (l & Hl & Hin)%list_elem_of_fmap.
    { rewrite (limits_names _ _ _ Hr Hp lim_claimName eng_claimName) by (intros e l (? & _); done).
      unfold es. rewrite fmap_app. apply elem_of_app. right. by left. }
    apply list_elem_of_In in Hin. pose proof (find_none _ _ Ef l Hin) as Hn.
    by apply bool_decide_eq_false in Hn.
Qed.


(** ** A card on the cluster that answers, for the witnesses. *)

Section Witnesses.
Local Existing Instance NanoK8s.
Local Existing Instance fakeCluster.
Local Existing Instance fakeLaws.

Definition exWorld : fakeWorld :=
  MkFake {[("10.0.0.1", "alpha") := 8 * exGiB; ("10.0.0.1", "beta") := 8 * exGiB]}
    {[("10.0.0.1", "alpha") := 3 * exGiB; ("10.0.0.1", "beta") := 3 * exGiB]}
    {[MkNN "ns" "alpha" := exClaim "alpha" ModelClaimActive;
      MkNN "ns" "beta" := exClaim "beta" ModelClaimSleeping]}.

Lemma exWorld_asRead : cardAsRead exPod exEngines exWorld.
Proof.
  split.
  - apply (bool_decide_unpack _). vm_compute. exact I.
  - apply (bool_decide_unpack _). vm_compute. exact I.
  - refine (proj1 (Forall_forall (fun e => 0 ≤ eng_kvCapacityBytes e →
      limitOf exWorld (pod_IP exPod) (eng_modelName e) = Some (eng_kvCapacityBytes e) ∧
      usedOf exWorld (pod_IP exPod) (eng_modelName e) ≤ Z.max (eng_kvUsedBytes e) (eng_kvCapacityBytes e)) _) _).
    apply (bool_decide_unpack _). vm_compute. exact I.
  - intros e v He Hv. revert v Hv.
    assert (Forall (fun e => Forall (fun kv => kv.1 = "pod-a" → kv.2 = eng_kvRecordedBytes e)
      (recordsOf exWorld (MkNN "ns" (eng_claimName e)))) exEngines) as Hall
      by (apply (bool_decide_unpack _); vm_compute; exact I).
    rewrite Forall_forall in Hall. specialize (Hall e He). rewrite Forall_forall in Hall.
    intros v Hv. exact (Hall _ Hv eq_refl).
  - refine (proj1 (Forall_forall (fun e => 0 ≤ eng_kvCapacityBytes e → 0 < eng_kvRecordedBytes e →
      eng_kvCapacityBytes e ≤ eng_kvRecordedBytes e) _) _).
    apply (bool_decide_unpack _). vm_compute. exact I.
Qed.

Lemma exPlan_range : planInRange (plannableBytes exLedger) exEngines.
Proof. apply (bool_decide_unpack _). vm_compute. exact I. Qed.

Lemma exPlan_ok : planKVLimits (plannableBytes exLedger) exEngines = Ok exLimits.
Proof. vm_compute. reflexivity. Qed.

Lemma exEngines_plannable e : e ∈ exEngines → plannable e.
Proof.
  assert (exEngines ≠ []) as Hne by (vm_compute; discriminate).
  destruct (planKVLimits_spec _ exEngines exPlan_range Hne) as [Hs _].
  destruct (Hs _ exPlan_ok) as [Hpl _]. apply Hpl.
Qed.

Definition exArrange : Run fakeWorld (runtimeReadings * arrangement) :=
  arrangeCard exPod exLedger newRuntimeReadings exEngines placementDivision.

(** One shrink, a reading, two records (read and written), one grow, a reading. *)
Example exArrange_moments : length (visited exArrange exWorld) = 8%nat.
Proof. vm_compute. reflexivity. Qed.

Lemma arrangement_never_oversubscribes_witness :
  Forall (fun w =>
    (∀ l, l ∈ exLimits → 0 ≤ lim_kvCapacityBytes l →
       entitled exPod w (lim_modelName l) ≤ entitled exPod exWorld (lim_modelName l)) ∨
    sumZ (fun e => heldBytes e - plannedKVHeldBytes e) exEngines + sumZ (promised exPod w) exLimits
      ≤ plannableBytes exLedger) (visited exArrange exWorld).
Proof.
  apply Forall_forall. intros w Hw.
  exact (arrangement_never_oversubscribes exPod exLedger exEngines exLimits newRuntimeReadings
    placementDivision exWorld w exPlan_range exPlan_ok exWorld_asRead Hw).
Defined.

Lemma arrangement_keeps_records_witness :
  Forall (fun w =>
    (∀ l v, l ∈ exLimits → recorded exPod w (lim_claimName l) v → v ≤ lim_kvRecordedBytes l) ∨
    (∀ l v, l ∈ exLimits → recorded exPod w (lim_claimName l) v → v ≤ lim_kvLimitBytes l))
    (visited exArrange exWorld).
Proof.
  apply Forall_forall. intros w Hw.
  exact (proj1 (arrangement_keeps_records exPod exLedger exEngines exLimits newRuntimeReadings
    placementDivision exWorld w exPlan_range exPlan_ok exWorld_asRead Hw)).
Defined.

Lemma arrangement_outcome_witness :
  limitOf (final exArrange exWorld) "10.0.0.1" "alpha" = Some (30 * exGiB) ∧
  ∃ ls an, (value exArrange exWorld).2 = Arranged ls an ∧ ls = exLimits.
Proof.
  split; [vm_compute; reflexivity|].
  pose proof (arrangement_outcome exPod exLedger exEngines exLimits newRuntimeReadings placementDivision
    exWorld exPlan_range exPlan_ok exWorld_asRead) as Hout.
  destruct (value (arrangeCard exPod exLedger newRuntimeReadings exEngines placementDivision) exWorld).2
    as [ls an|ls an e|ls owed|e] eqn:Ea.
  - exists ls, an. split; [exact Ea|]. exact (proj1 Hout).
  - exfalso. vm_compute in Ea. discriminate Ea.
  - exfalso. vm_compute in Ea. discriminate Ea.
  - exfalso. vm_compute in Ea. discriminate Ea.
Defined.

End Witnesses.
