(* ===== verification/PoolPolicy.v ===== *)
(** * The pool policy ([pkg/controller/modelclaim/pool_policy.go] and the
    controller-local record of [pool_policy_controller.go]).

    A pool may carry a policy annotation.  Its reclaim part divides one KV
    budget between the engines of a card by their request activity
    ([computePoolKVTargets]); its lifecycle part says how long an engine must
    be idle before it is put to sleep.  [poolPolicyManager] remembers, between
    passes, what each engine's request counters showed. *)

From S2P Require Import Prelude Api Claims Ledger KVPlan.

(** ** The policy. *)

Definition poolReclaimModeKVFirst : string := "kv-first".

Record poolReclaimPolicy : Type := MkReclaim {
  pol_Mode : string;
  pol_CapacityBytes : Z;
  pol_GuaranteedFloorPercent : Z;
}.

Record poolLifecyclePolicy : Type := MkLifecycle {
  pol_SleepAfterSeconds : Z;
  pol_NoWakeReserveWhileAsleep : bool;
  pol_SleepToMakeRoomAfterSeconds : option Z;
}.

Record poolPolicy : Type := MkPolicy {
  pol_Reclaim : option poolReclaimPolicy;
  pol_Lifecycle : option poolLifecyclePolicy;
}.

Definition defaultSleepToMakeRoomAfter : Duration := 30 * Second.

(** [time.Duration(seconds) * time.Second]: an int64 product. *)
Definition durationOfSeconds (seconds : Z) : Duration := wrap64 (seconds * Second).

Definition sleepToMakeRoomAfter (p : poolLifecyclePolicy) : Duration :=
  match p.(pol_SleepToMakeRoomAfterSeconds) with
  | Some seconds => durationOfSeconds seconds
  | None =>
      let sleepAfter := durationOfSeconds p.(pol_SleepAfterSeconds) in
      if (0 <? sleepAfter) && (sleepAfter <? defaultSleepToMakeRoomAfter) then sleepAfter
      else defaultSleepToMakeRoomAfter
  end.

Inductive lifecycleError : Type :=
| SleepAfterNotPositive
| MakeRoomAfterNotPositive
| MakeRoomAfterTooLong.

Definition validateLifecycle (lifecycle : poolLifecyclePolicy) : result lifecycleError unit :=
  if (lifecycle.(pol_SleepAfterSeconds) <? 0) ||
     ((lifecycle.(pol_SleepAfterSeconds) =? 0) && negb lifecycle.(pol_NoWakeReserveWhileAsleep))
  then Err SleepAfterNotPositive
  else match lifecycle.(pol_SleepToMakeRoomAfterSeconds) with
       | None => Ok ()
       | Some makeRoomAfter =>
           if makeRoomAfter <=? 0 then Err MakeRoomAfterNotPositive
           else if (0 <? lifecycle.(pol_SleepAfterSeconds)) &&
                   (lifecycle.(pol_SleepAfterSeconds) <? makeRoomAfter)
           then Err MakeRoomAfterTooLong
           else Ok ()
       end.

Inductive poolPolicyError : Type :=
| UnsupportedMode
| InvalidCapacity
| InvalidFloor
| InvalidSleep (e : lifecycleError).

(** An unset mode is the one mode there is. *)
Definition withMode (reclaim : poolReclaimPolicy) : poolReclaimPolicy :=
  if bool_decide (reclaim.(pol_Mode) = "")
  then MkReclaim poolReclaimModeKVFirst reclaim.(pol_CapacityBytes) reclaim.(pol_GuaranteedFloorPercent)
  else reclaim.

Definition validateReclaim (reclaim : poolReclaimPolicy) : result poolPolicyError poolReclaimPolicy :=
  let reclaim := withMode reclaim in
  if negb (bool_decide (reclaim.(pol_Mode) = poolReclaimModeKVFirst)) then Err UnsupportedMode
  else if reclaim.(pol_CapacityBytes) <=? 0 then Err InvalidCapacity
  else if (reclaim.(pol_GuaranteedFloorPercent) <? 0) || (100 <? reclaim.(pol_GuaranteedFloorPercent))
  then Err InvalidFloor
  else Ok reclaim.

(** What [parsePoolPolicy] makes of a policy once its JSON is decoded. *)
Definition parsePoolPolicy (policy : poolPolicy) : result poolPolicyError poolPolicy :=
  reclaim ← (match policy.(pol_Reclaim) with
             | None => Ok None
             | Some reclaim => checked ← validateReclaim reclaim; Ok (Some checked)
             end : result poolPolicyError (option poolReclaimPolicy));
  match policy.(pol_Lifecycle) with
  | None => Ok (MkPolicy reclaim None)
  | Some lifecycle =>
      match validateLifecycle lifecycle with
      | Err e => Err (InvalidSleep e)
      | Ok _ => Ok (MkPolicy reclaim (Some lifecycle))
      end
  end.

(** ** The reclaim plan. *)

Record poolRequestActivity : Type := MkActivity {
  act_Active : bool;
  act_RequestsInFlight : Z;
  act_CompletionDelta : Z;
  act_LastActive : Time;
  act_Initialized : bool;
}.

Record poolKVModel : Type := MkKVModel {
  km_Name : string;
  km_KVUsedBytes : Z;
  km_KVCapacityBytes : Z;
  km_KVInitialCapacityBytes : option Z;
  km_Activity : poolRequestActivity;
}.

Inductive poolKVError : Type :=
| CapacityNotPositive
| FloorOutOfRange
| ModelNameEmpty
| DuplicateModel (name : string)
| StartupCapacityBelowHeld (name : string)
| UsageExceedsCapacity.

Definition boundedActivity (value : Z) : Z :=
  if value <? 0 then 0 else if 4 <? value then 4 else value.

Definition percentOf (value percent : Z) : Z :=
  wrap64 (wrap64 (value `quot` 100 * percent) + wrap64 (value `rem` 100 * percent) `quot` 100).

(** What a model keeps before the rest is shared: its floor, and what it uses. *)
Definition baseOf (floorBytes : Z) (model : poolKVModel) : Z :=
  let floor := match model.(km_KVInitialCapacityBytes) with
               | Some ceiling => if 0 <? ceiling then Z.min floorBytes ceiling else floorBytes
               | None => floorBytes
               end in
  Z.max floor (Z.max model.(km_KVUsedBytes) 0).

(** The first loop.  The sum of the bases stays at most the capacity, so the
    int64 sums are exact. *)
Fixpoint poolScan (capacityBytes floorBytes : Z) (seen : gset string) (baseBytes : Z)
    (targets : gmap string Z) (models : list poolKVModel)
  : result poolKVError (Z * gmap string Z) :=
  match models with
  | [] => Ok (baseBytes, targets)
  | model :: rest =>
      let base := baseOf floorBytes model in
      if bool_decide (model.(km_Name) = "") then Err ModelNameEmpty
      else if bool_decide (model.(km_Name) ∈ seen) then Err (DuplicateModel model.(km_Name))
      else if clampKVLimit base model.(km_KVInitialCapacityBytes) <? base
      then Err (StartupCapacityBelowHeld model.(km_Name))
      else if capacityBytes - base <? baseBytes then Err UsageExceedsCapacity
      else poolScan capacityBytes floorBytes ({[ model.(km_Name) ]} ∪ seen) (baseBytes + base)
             (<[ model.(km_Name) := base ]> targets) rest
  end.

Definition activityWeight (model : poolKVModel) : Z :=
  1 + boundedActivity model.(km_Activity).(act_RequestsInFlight) +
  boundedActivity model.(km_Activity).(act_CompletionDelta).

(** [targets[name] += d]. *)
Definition addTarget (name : string) (d : Z) (targets : gmap string Z) : gmap string Z :=
  <[ name := default 0 (targets !! name) + d ]> targets.

Definition grantOf (remaining totalWeight : Z) (model : poolKVModel) : Z :=
  wrap64 (remaining * activityWeight model) `quot` totalWeight.

Fixpoint grantAll (remaining totalWeight granted : Z) (targets : gmap string Z)
    (active : list poolKVModel) : Z * gmap string Z :=
  match active with
  | [] => (granted, targets)
  | model :: rest =>
      let grant := grantOf remaining totalWeight model in
      grantAll remaining totalWeight (wrap64 (granted + grant))
        (addTarget model.(km_Name) grant targets) rest
  end.

(** The rounding remainder, byte by byte over the active models in turn. *)
Fixpoint handOutRest (bytes index : nat) (active : list poolKVModel) (targets : gmap string Z)
  : gmap string Z :=
  match bytes with
  | O => targets
  | S bytes' =>
      handOutRest bytes' (S index) active
        (match active !! (index `mod` length active)%nat with
         | Some model => addTarget model.(km_Name) 1 targets
         | None => targets
         end)
  end.

Definition capTargets (models : list poolKVModel) (targets : gmap string Z) : gmap string Z :=
  foldl (fun targets model =>
    <[ model.(km_Name) := clampKVLimit (default 0 (targets !! model.(km_Name)))
                            model.(km_KVInitialCapacityBytes) ]> targets) targets models.

Definition byModelName (a b : poolKVModel) : bool := strless a.(km_Name) b.(km_Name).

(** What is left of the budget, shared between the active models. *)
Definition shareBudget (remaining : Z) (models active : list poolKVModel) (targets : gmap string Z)
  : gmap string Z :=
  if remaining <=? 0 then targets
  else
    let active := sortBy byModelName active in
    let totalWeight := sumZ activityWeight active in
    if totalWeight =? 0 then targets
    else
      let '(granted, targets) := grantAll remaining totalWeight 0 targets active in
      let targets := handOutRest (Z.to_nat (wrap64 (remaining - granted))) 0 active targets in
      capTargets models targets.

(** [Ok None] is no plan and no error. *)
Definition computePoolKVTargets (capacityBytes guaranteedFloorPercent : Z) (models : list poolKVModel)
  : result poolKVError (option (gmap string Z)) :=
  if capacityBytes <=? 0 then Err CapacityNotPositive
  else if (guaranteedFloorPercent <? 0) || (100 <? guaranteedFloorPercent) then Err FloorOutOfRange
  else if bool_decide (length models = 0%nat) then Ok None
  else
    let floorBytes := percentOf capacityBytes guaranteedFloorPercent in
    '(baseBytes, targets) ← poolScan capacityBytes floorBytes ∅ 0 ∅ models;
    let active := List.filter (fun model => model.(km_Activity).(act_Active)) models in
    if bool_decide (length active = 0%nat) then Ok None
    else Ok (Some (shareBudget (capacityBytes - baseBytes) models active targets)).

(** ** What the controller remembers of each engine's requests. *)

Record poolActivityRecord : Type := MkActivityRecord {
  ar_successTotal : Z;
  ar_known : bool;
  ar_lastActive : Time;
  ar_lastSeen : Time;
}.

Record poolConfigRecord : Type := MkConfig {
  cfg_raw : string;
  cfg_errorClass : string;
}.

#[export] Instance poolConfigRecord_eq_dec : EqDecision poolConfigRecord.
Proof. solve_decision. Defined.

(** The clock the manager reads is the argument [now] of its operations. *)
Record poolPolicyManager : Type := MkManager {
  pm_lastRun : gmap NamespacedName Time;
  pm_activity : gmap string poolActivityRecord;
  pm_config : gmap NamespacedName poolConfigRecord;
  pm_lastSweep : Time;
}.

Definition poolActivityRetention : Duration := 5 * Minute.
Definition poolActivitySweepInterval : Duration := Minute.

Definition newPoolPolicyManager : poolPolicyManager := MkManager ∅ ∅ ∅ zeroTime.

(** The manager, whether a warning is due, and whether a recovery is. *)
Definition observeConfig (m : poolPolicyManager) (pool : NamespacedName) (raw errorClass : string)
  : poolPolicyManager * bool * bool :=
  let next := MkConfig raw errorClass in
  let previous := m.(pm_config) !! pool in
  let m' := MkManager m.(pm_lastRun) m.(pm_activity) (<[ pool := next ]> m.(pm_config)) m.(pm_lastSweep) in
  if negb (bool_decide (errorClass = "")) then (m', negb (bool_decide (previous = Some next)), false)
  else (m', false, match previous with
                   | Some p => negb (bool_decide (p.(cfg_errorClass) = ""))
                   | None => false
                   end).

Definition forgetConfig (m : poolPolicyManager) (pool : NamespacedName) : poolPolicyManager * bool :=
  (MkManager m.(pm_lastRun) m.(pm_activity) (delete pool m.(pm_config)) m.(pm_lastSweep),
   bool_decide (is_Some (m.(pm_config) !! pool))).

Definition sweepActivity (m : poolPolicyManager) (now : Time) : poolPolicyManager :=
  if timeSub now m.(pm_lastSweep) <? poolActivitySweepInterval then m
  else MkManager m.(pm_lastRun)
         (filter (fun kr => ¬ poolActivityRetention < timeSub now kr.2.(ar_lastSeen)) m.(pm_activity))
         m.(pm_config) now.

Definition begin (m : poolPolicyManager) (pool : NamespacedName) (now : Time) : poolPolicyManager * bool :=
  let m := sweepActivity m now in
  let ran := (MkManager (<[ pool := now ]> m.(pm_lastRun)) m.(pm_activity) m.(pm_config)
                m.(pm_lastSweep), true) in
  match m.(pm_lastRun) !! pool with
  | Some last => if timeSub now last <? DefaultRequeueDuration then (m, false) else ran
  | None => ran
  end.

Definition zeroActivity : poolActivityRecord := MkActivityRecord 0 false zeroTime zeroTime.

(** The record one reading leaves and the activity it shows. *)
Definition observeCounters (record : poolActivityRecord) (current running waiting : Z) (now : Time)
  : poolActivityRecord * poolRequestActivity :=
  let initialized := record.(ar_known) && (record.(ar_successTotal) <=? current) in
  let delta := if initialized then wrap64 (current - record.(ar_successTotal)) else 0 in
  let inFlight := wrap64 (Z.max running 0 + Z.max waiting 0) in
  let active := (0 <? inFlight) || (0 <? delta) in
  let lastActive := if negb initialized || active then now else record.(ar_lastActive) in
  (MkActivityRecord current true lastActive now,
   MkActivity active inFlight delta lastActive initialized).

(** [None] is an engine whose counters could not be read. *)
Definition observeEngine (m : poolPolicyManager) (key : string) (model : RuntimeSnapshotModel) (now : Time)
  : poolPolicyManager * option poolRequestActivity :=
  match model.(sm_RequestMetricsObserved), model.(sm_RequestSuccessTotal) with
  | true, Some current =>
      let '(record, activity) :=
        observeCounters (default zeroActivity (m.(pm_activity) !! key)) current
          model.(sm_RequestsRunning) model.(sm_RequestsWaiting) now in
      (MkManager m.(pm_lastRun) (<[ key := record ]> m.(pm_activity)) m.(pm_config) m.(pm_lastSweep),
       Some activity)
  | _, _ => (m, None)
  end.

Definition lastActive (m : poolPolicyManager) (key : string) : option Time :=
  match m.(pm_activity) !! key with
  | Some record => if record.(ar_known) then Some record.(ar_lastActive) else None
  | None => None
  end.

Definition servesNow (model : RuntimeSnapshotModel) : bool :=
  bool_decide (model.(sm_Phase) = runtimePhaseActive) && model.(sm_Alive) && model.(sm_Ready).

Section Observe.
Context `{K8s}.

Definition poolActivityKey (pod : Pod) (model : RuntimeSnapshotModel) : string :=
  String.append pod.(pod_UID) (String.append "/" (snapshotActivityKey model)).

(** Each observation reads the clock: [clock i] is what the [i]th one sees. *)
Fixpoint observeModels (m : poolPolicyManager) (pod : Pod) (activities : gmap string poolRequestActivity)
    (complete : bool) (clock : nat → Time) (i : nat) (models : list RuntimeSnapshotModel)
  : poolPolicyManager * gmap string poolRequestActivity * bool :=
  match models with
  | [] => (m, activities, complete)
  | model :: rest =>
      if negb (servesNow model) then observeModels m pod activities complete clock i rest
      else
        let '(m', activity) := observeEngine m (poolActivityKey pod model) model (clock i) in
        match activity with
        | None => observeModels m' pod activities false clock (S i) rest
        | Some a => observeModels m' pod (<[ snapshotActivityKey model := a ]> activities) complete
                      clock (S i) rest
        end
  end.

(** [None]: some serving engine could not be read, so no policy acts. *)
Definition observeSnapshot (m : poolPolicyManager) (pod : Pod) (snapshot : RuntimeSnapshot)
    (clock : nat → Time) : poolPolicyManager * option (gmap string poolRequestActivity) :=
  let '(m', activities, complete) := observeModels m pod ∅ true clock 0 snapshot.(snap_Models) in
  (m', if complete then Some activities else None).

(** A claim of the listing whose recorded instance on this pod runs under a
    limit; a listing that failed answers yes. *)
Definition claimHoldsAKVLimitOn (listing : option (list ModelClaim)) (pod : Pod) : bool :=
  match listing with
  | None => true
  | Some claims =>
      existsb (fun claim => existsb (fun instance =>
        bool_decide (instance.(inst_Pod) = pod.(pod_Name)) && (0 <? instance.(inst_KVLimitBytes)))
        claim.(status_Instances)) claims
  end.
End Observe.

Definition noActivity : poolRequestActivity := MkActivity false 0 0 zeroTime false.

Fixpoint kvModels (activities : gmap string poolRequestActivity) (acc : list poolKVModel)
    (models : list RuntimeSnapshotModel) : list poolKVModel :=
  match models with
  | [] => acc
  | model :: rest =>
      if negb (servesNow model) then kvModels activities acc rest
      else if model.(sm_KVCapacityBytes) <=? 0 then []
      else kvModels activities
             (acc ++ [MkKVModel model.(sm_ModelName) model.(sm_KVUsedBytes) model.(sm_KVCapacityBytes)
                        model.(sm_KVInitialCapacityBytes)
                        (default noActivity (activities !! snapshotActivityKey model))]) rest
  end.

Definition modelsForKVPolicy (snapshot : RuntimeSnapshot) (activities : gmap string poolRequestActivity)
  : list poolKVModel := kvModels activities [] snapshot.(snap_Models).

(** ** The reclaim plan fits its budget. *)

Lemma clampKVLimit_mono a b c : a ≤ b → clampKVLimit a c ≤ clampKVLimit b c.
Proof. intros. unfold clampKVLimit. destruct c; split_ifs; lia. Qed.

(** [percentOf] splits the value so that no product overflows, and is exact. *)
Lemma percentOf_exact v p :
  0 ≤ v ≤ MaxInt64 → 0 ≤ p ≤ 100 → percentOf v p = v * p / 100 ∧ 0 ≤ percentOf v p ≤ v.
Proof.
  intros Hv Hp. unfold percentOf. rewrite Z.quot_div_nonneg, Z.rem_mod_nonneg by lia.
  pose proof (Z.div_mod v 100 ltac:(lia)) as Hd. pose proof (Z.mod_pos_bound v 100 ltac:(lia)) as Hm.
  set (q := v / 100) in *. set (r := v mod 100) in *.
  assert (0 ≤ q) by lia.
  assert (0 ≤ q * p ≤ 100 * q) by nia. assert (0 ≤ r * p ≤ 100 * r) by nia.
  assert (0 ≤ r * p / 100 ≤ r) by (split; [apply Z.div_pos; lia|apply Z.div_le_upper_bound; lia]).
  unfold MaxInt64 in *.
  rewrite (wrap64_id (q * p)), (wrap64_id (r * p)) by (unfold in_int64, MinInt64, MaxInt64; lia).
  rewrite Z.quot_div_nonneg by lia. rewrite wrap64_id by (unfold in_int64, MinInt64, MaxInt64; lia).
  split; [|lia]. replace (v * p) with (r * p + q * p * 100) by nia. rewrite Z.div_add by lia. lia.
Qed.

Definition targetOf (targets : gmap string Z) (m : poolKVModel) : Z := default 0 (targets !! km_Name m).

Lemma targetOf_add n d t m :
  targetOf (addTarget n d t) m = targetOf t m + (if bool_decide (km_Name m = n) then d else 0).
Proof.
  unfold targetOf, addTarget. case_bool_decide as E.
  - subst. by rewrite lookup_insert_eq.
  - rewrite lookup_insert_ne by congruence. lia.
Qed.

Lemma sumZ_one (models : list poolKVModel) n d :
  NoDup (km_Name <$> models) → n ∈ km_Name <$> models →
  sumZ (fun m => if bool_decide (km_Name m = n) then d else 0) models = d.
Proof.
  induction models as [|m models IH]; csimpl; [set_solver|].
  intros [Hm Hnd]%NoDup_cons [->|Hn]%elem_of_cons.
  - rewrite bool_decide_eq_true_2 by done.
    rewrite (sumZ_ext _ (fun _ => 0)); [clear; induction models; simpl in *; lia|].
    intros x Hx. rewrite bool_decide_eq_false_2; [done|]. intros E. apply Hm, list_elem_of_fmap. by exists x.
  - rewrite bool_decide_eq_false_2 by (intros <-; done). by rewrite IH.
Qed.

(** From [t] to [t'] some of the active models got [d] more between them. *)
Record raised (models active : list poolKVModel) (t t' : gmap string Z) (d : Z) : Prop := MkRaised {
  raised_sum : sumZ (targetOf t') models = sumZ (targetOf t) models + d;
  raised_le m : targetOf t m ≤ targetOf t' m;
  raised_others n : n ∉ km_Name <$> active → t' !! n = t !! n;
  raised_dom n : is_Some (t !! n) → is_Some (t' !! n);
}.

Lemma raised_refl models active t : raised models active t t 0.
Proof. split; [lia|lia|done|done]. Qed.

Lemma raised_trans models active t1 t2 t3 d e :
  raised models active t1 t2 d → raised models active t2 t3 e → raised models active t1 t3 (d + e).
Proof.
  intros [S1 L1 O1 D1] [S2 L2 O2 D2]. split; [lia| |by intros n Hn; rewrite O2, O1|auto].
  intros m. specialize (L1 m). specialize (L2 m). lia.
Qed.

Lemma raised_add models active t m d :
  NoDup (km_Name <$> models) → m ∈ models → m ∈ active → 0 ≤ d →
  raised models active t (addTarget (km_Name m) d t) d.
Proof.
  intros Hnd Hm Ha Hd. split.
  - rewrite (sumZ_ext _ _ _ (fun x _ => targetOf_add _ d t x)), sumZ_add, sumZ_one; [done..|].
    by apply list_elem_of_fmap_2.
  - intros x. rewrite targetOf_add. case_bool_decide; lia.
  - intros n Hn. apply lookup_insert_ne. intros <-. apply Hn. by apply list_elem_of_fmap_2.
  - intros n [v Hv]. unfold addTarget. destruct (decide (km_Name m = n)) as [<-|].
    + by rewrite lookup_insert_eq.
    + by rewrite lookup_insert_ne, Hv.
Qed.

Lemma activityWeight_bounds m : 1 ≤ activityWeight m ≤ 9.
Proof. unfold activityWeight, boundedActivity. split_ifs; lia. Qed.

Lemma poolScan_ok cap fb seen base t models b t' :
  poolScan cap fb seen base t models = Ok (b, t') → base ≤ cap →
  NoDup (km_Name <$> models) ∧ b = base + sumZ (baseOf fb) models ∧ b ≤ cap ∧
  (∀ m, m ∈ models → km_Name m ∉ seen) ∧
  (∀ m, m ∈ models → clampKVLimit (baseOf fb m) (km_KVInitialCapacityBytes m) = baseOf fb m ∧
     t' !! km_Name m = Some (baseOf fb m)) ∧
  (∀ n, n ∉ km_Name <$> models → t' !! n = t !! n).
Proof.
  revert seen base t. induction models as [|m models IH]; intros seen base t; csimpl.
  - intros [= <- <-] Hle. split_and!; [constructor|lia|done|set_solver|set_solver|done].
  - destruct (bool_decide (km_Name m = "")); [done|].
    destruct (bool_decide (km_Name m ∈ seen)) eqn:Es; [done|].
    destruct (Z.ltb_spec (clampKVLimit (baseOf fb m) (km_KVInitialCapacityBytes m)) (baseOf fb m)) as [?|Hc]; [done|].
    destruct (Z.ltb_spec (cap - baseOf fb m) base) as [?|Hb]; [done|].
    intros Hs _. apply IH in Hs as (Hnd & -> & Hle & Hseen & Hm & Ho); [|lia].
    assert (km_Name m ∉ km_Name <$> models) as Hnew.
    { intros (x & Hx & Hin)%list_elem_of_fmap. specialize (Hseen x Hin). set_solver. }
    apply bool_decide_eq_false in Es.
    pose proof (clampKVLimit_le (baseOf fb m) (km_KVInitialCapacityBytes m)) as Hcl.
    split; [by constructor|]. split; [lia|]. split; [lia|]. split; [|split].
    + intros x [->|Hx]%elem_of_cons; [done|]. specialize (Hseen x Hx). set_solver.
    + intros x [->|Hx]%elem_of_cons; [|by apply Hm]. split; [lia|].
      rewrite Ho by done. by rewrite lookup_insert_eq.
    + intros n [Hn1 Hn2]%not_elem_of_cons. rewrite Ho by done. by rewrite lookup_insert_ne.
Qed.

Section Grants.
Context (models : list poolKVModel) (cap remaining W : Z).
Hypothesis (Hnd : NoDup (km_Name <$> models)) (Hcap : 9 * cap ≤ MaxInt64)
  (Hrem : 0 ≤ remaining ≤ cap) (HW : 0 < W).

Lemma grantOf_exact m :
  grantOf remaining W m = remaining * activityWeight m / W ∧ 0 ≤ grantOf remaining W m ∧
  remaining * activityWeight m - W < grantOf remaining W m * W ≤ remaining * activityWeight m.
Proof.
  unfold grantOf. pose proof (activityWeight_bounds m) as Hw.
  assert (0 ≤ remaining * activityWeight m ≤ MaxInt64) by (unfold MaxInt64 in *; nia).
  rewrite wrap64_id by (unfold in_int64, MinInt64, MaxInt64 in *; lia).
  rewrite Z.quot_div_nonneg by lia. split; [done|].
  pose proof (Z.div_mod (remaining * activityWeight m) W ltac:(lia)).
  pose proof (Z.mod_pos_bound (remaining * activityWeight m) W HW).
  split; [apply Z.div_pos; lia|nia].
Qed.

Lemma grantAll_raises active granted t :
  (∀ m, m ∈ active → m ∈ models) → 0 ≤ granted →
  granted * W + remaining * sumZ activityWeight active ≤ remaining * W →
  let '(g, t') := grantAll remaining W granted t active in
  raised models active t t' (g - granted) ∧ granted ≤ g ∧
  granted * W + remaining * sumZ activityWeight active - W * Z.of_nat (length active) ≤ g * W ∧
  g * W ≤ granted * W + remaining * sumZ activityWeight active.
Proof.
  revert granted t. induction active as [|m active IH]; intros granted t Hin Hg Hle; csimpl.
  - replace (granted - granted) with 0 by lia. split; [apply raised_refl|]. simpl in Hle. lia.
  - destruct (grantOf_exact m) as (_ & Hg0 & Hgl & Hgu). simpl in Hle.
    pose proof (activityWeight_bounds m).
    assert (0 ≤ sumZ activityWeight active) by
      (apply sumZ_nonneg; intros x _; pose proof (activityWeight_bounds x); lia).
    assert (granted + grantOf remaining W m ≤ remaining) by nia.
    rewrite wrap64_id by (unfold in_int64, MinInt64, MaxInt64 in *; lia).
    specialize (IH (granted + grantOf remaining W m) (addTarget (km_Name m) (grantOf remaining W m) t)).
    destruct (grantAll _ _ _ _ active) as [g t'].
    destruct IH as (Hr & Hgg & Hlo & Hhi); [intros; apply Hin; set_solver|lia|lia|].
    split; [|lia]. replace (g - granted)
      with (grantOf remaining W m + (g - (granted + grantOf remaining W m))) by lia.
    eapply raised_trans; [apply raised_add; [done|apply Hin; by left|by left|done]|].
    destruct Hr as [S1 L1 O1 D1]. split; [done|done| |done].
    intros n Hn. apply O1. intros Hn'. apply Hn. csimpl. by right.
Qed.

Lemma handOutRest_raises active bytes index t :
  active ≠ [] → (∀ m, m ∈ active → m ∈ models) →
  raised models active t (handOutRest bytes index active t) (Z.of_nat bytes).
Proof.
  intros Hne Hin. revert index t. induction bytes as [|bytes IH]; intros index t; simpl; [apply raised_refl|].
  destruct (lookup_lt_is_Some_2 active (index `mod` length active)%nat) as [m Hm].
  { apply Nat.mod_upper_bound. by destruct active. }
  rewrite Hm. replace (Z.of_nat (S bytes)) with (1 + Z.of_nat bytes) by lia.
  apply list_elem_of_lookup_2 in Hm.
  eapply raised_trans; [apply raised_add; [done|by apply Hin|done|lia]|apply IH].
Qed.
End Grants.

Lemma capTargets_lookup models t :
  NoDup (km_Name <$> models) →
  (∀ m, m ∈ models →
     capTargets models t !! km_Name m = Some (clampKVLimit (targetOf t m) (km_KVInitialCapacityBytes m))) ∧
  (∀ n, n ∉ km_Name <$> models → capTargets models t !! n = t !! n).
Proof.
  unfold capTargets. revert t. induction models as [|m models IH]; intros t; csimpl; [set_solver|].
  intros [Hm Hnd]%NoDup_cons. destruct (IH (<[km_Name m := clampKVLimit (targetOf t m)
    (km_KVInitialCapacityBytes m)]> t) Hnd) as [H1 H2]. split.
  - intros x [->|Hx]%elem_of_cons.
    + etrans; [apply H2; done|]. by rewrite lookup_insert_eq.
    + etrans; [by apply H1|]. f_equal. f_equal. unfold targetOf at 1. rewrite lookup_insert_ne; [done|].
      intros E. apply Hm. rewrite E. by apply list_elem_of_fmap_2.
  - intros n [Hn1 Hn2]%not_elem_of_cons. etrans; [by apply H2|]. by rewrite lookup_insert_ne.
Qed.

Lemma sum_weights_pos active : active ≠ [] → 0 < sumZ activityWeight active.
Proof.
  destruct active as [|m active]; [done|]. intros _. simpl. pose proof (activityWeight_bounds m).
  assert (0 ≤ sumZ activityWeight active); [|lia].
  apply sumZ_nonneg. intros x _. pose proof (activityWeight_bounds x). lia.
Qed.

(** The sharing of [remaining] bytes between the active models. *)
Lemma shared_out models cap remaining active t :
  NoDup (km_Name <$> models) → 9 * cap ≤ MaxInt64 → 0 ≤ remaining ≤ cap → active ≠ [] →
  (∀ m, m ∈ active → m ∈ models) →
  let '(granted, t1) := grantAll remaining (sumZ activityWeight active) 0 t active in
  0 ≤ wrap64 (remaining - granted) ≤ Z.of_nat (length active) ∧
  raised models active t (handOutRest (Z.to_nat (wrap64 (remaining - granted))) 0 active t1) remaining.
Proof.
  intros Hnd Hcap Hrem Hne Hin. pose proof (sum_weights_pos active Hne) as HW.
  pose proof (grantAll_raises models cap remaining (sumZ activityWeight active) Hnd Hcap Hrem HW active 0 t Hin)
    as Hg.
  destruct (grantAll _ _ 0 t active) as [g t1]. destruct Hg as (Hr & Hg0 & Hlo & Hhi); [lia..|].
  assert (g ≤ remaining) by nia. assert (remaining - g ≤ Z.of_nat (length active)) by nia.
  rewrite wrap64_id by (unfold in_int64, MinInt64, MaxInt64 in *; lia). split; [lia|].
  replace remaining with ((g - 0) + Z.of_nat (Z.to_nat (remaining - g))) at 2 by lia.
  eapply raised_trans; [exact Hr|]. by apply handOutRest_raises.
Qed.

(** What is shared out: the targets raised by what is left, then capped. *)
Lemma shareBudget_raises models cap rem active t :
  NoDup (km_Name <$> models) → 9 * cap ≤ MaxInt64 → 0 ≤ rem ≤ cap → active ≠ [] →
  (∀ m, m ∈ active → m ∈ models) →
  (∀ m, m ∈ models → t !! km_Name m = Some (clampKVLimit (targetOf t m) (km_KVInitialCapacityBytes m))) →
  ∃ raw, raised models active t raw rem ∧
    (∀ m, m ∈ models → shareBudget rem models active t !! km_Name m =
       Some (clampKVLimit (targetOf raw m) (km_KVInitialCapacityBytes m))) ∧
    (∀ n, n ∉ km_Name <$> models → shareBudget rem models active t !! n = raw !! n).
Proof.
  intros Hnd Hcap Hrem Ha Hin Ht. unfold shareBudget. destruct (Z.leb_spec rem 0) as [Hz|Hz].
  { exists t. replace rem with 0 by lia. split; [apply raised_refl|done]. }
  assert (sortBy byModelName active ≠ []) as Hne.
  { intros E. apply Ha, nil_length_inv. by rewrite <- (sortBy_length byModelName active), E. }
  pose proof (sum_weights_pos _ Hne).
  destruct (Z.eqb_spec (sumZ activityWeight (sortBy byModelName active)) 0) as [?|_]; [lia|].
  pose proof (shared_out models cap rem (sortBy byModelName active) t Hnd Hcap Hrem Hne) as Hsh.
  destruct (grantAll _ _ _ _ _) as [g t1].
  destruct Hsh as [_ [S1 L1 O1 D1]]; [intros m Hm%elem_of_sortBy; by apply Hin|].
  eexists. split; [|by apply capTargets_lookup]. split; [done|done| |done].
  intros n Hn. apply O1. by rewrite (sortBy_perm byModelName active).
Qed.

(** What a plan is made of: each model's base, and a share of the rest. *)
Lemma computePoolKVTargets_plan cap pct models targets :
  9 * cap ≤ MaxInt64 → computePoolKVTargets cap pct models = Ok (Some targets) →
  ∃ base raw, let fb := cap * pct / 100 in
    NoDup (km_Name <$> models) ∧
    (∀ m, m ∈ models → clampKVLimit (baseOf fb m) (km_KVInitialCapacityBytes m) = baseOf fb m ∧
       base !! km_Name m = Some (baseOf fb m)) ∧
    (∀ n, n ∉ km_Name <$> models → base !! n = None) ∧
    raised models (List.filter (fun m => act_Active (km_Activity m)) models) base raw
      (cap - sumZ (targetOf base) models) ∧
    (∀ m, m ∈ models →
      targets !! km_Name m = Some (clampKVLimit (targetOf raw m) (km_KVInitialCapacityBytes m))) ∧
    (∀ n, n ∉ km_Name <$> models → targets !! n = raw !! n).
Proof.
  intros Hcap. unfold computePoolKVTargets. destruct (Z.leb_spec cap 0) as [?|Hc0]; [done|].
  destruct (_ || _) eqn:Ep; [done|]. breflect. case_bool_decide; [done|].
  assert (percentOf cap pct = cap * pct / 100) as ->
    by (apply percentOf_exact; unfold MaxInt64 in *; lia).
  cbn zeta. set (fb := cap * pct / 100) in *. clearbody fb.
  intros ([b base] & Hs & Hrest)%result_bind_ok.
  apply poolScan_ok in Hs as (Hnd & -> & Hle & _ & Hm & Ho); [|lia].
  case_bool_decide as Ea; [done|]. injection Hrest as <-. rewrite Z.add_0_l in *.
  assert (sumZ (baseOf fb) models = sumZ (targetOf base) models) as Hsum.
  { apply sumZ_ext. intros m Hmm. unfold targetOf. by rewrite (proj2 (Hm m Hmm)). }
  assert (0 ≤ sumZ (baseOf fb) models) by (apply sumZ_nonneg; intros m _; unfold baseOf; lia).
  destruct (shareBudget_raises models cap (cap - sumZ (baseOf fb) models)
    (List.filter (fun m => act_Active (km_Activity m)) models) base Hnd Hcap) as (raw & Hr & Hin & Hout).
  - lia.
  - intros E. by rewrite E in Ea.
  - intros m Ha. apply list_elem_of_In, List.filter_In in Ha as [Ha _]. by apply list_elem_of_In.
  - intros m Hmm. destruct (Hm m Hmm) as [Hcl Hb]. unfold targetOf. rewrite Hb. simpl. by rewrite Hcl.
  - exists base, raw. rewrite Hsum in *. split; [done|]. split; [done|]. split; [|done].
    intros n Hn. by rewrite Ho.
Qed.

(** The reclaim plan is safe.  The targets of one card come to at most the
    pool's KV budget, and to exactly the budget when no model has a startup
    capacity; each model keeps what it uses and its guaranteed floor, never
    gets more than its startup capacity, and an idle model is left at exactly
    that base.  The budget is assumed small enough for the shares not to
    overflow an int64. *)
Theorem computePoolKVTargets_safe cap pct models targets :
  9 * cap ≤ MaxInt64 → computePoolKVTargets cap pct models = Ok (Some targets) →
  sumZ (targetOf targets) models ≤ cap ∧
  ((∀ m, m ∈ models → km_KVInitialCapacityBytes m = None) → sumZ (targetOf targets) models = cap) ∧
  (∀ n, is_Some (targets !! n) → n ∈ km_Name <$> models) ∧
  ∀ m, m ∈ models → ∃ t, targets !! km_Name m = Some t ∧
    km_KVUsedBytes m ≤ t ∧ baseOf (cap * pct / 100) m ≤ t ∧
    (∀ c, km_KVInitialCapacityBytes m = Some c → 0 ≤ c → t ≤ c) ∧
    (act_Active (km_Activity m) = false → t = baseOf (cap * pct / 100) m).
Proof.
  intros Hcap Hp. destruct (computePoolKVTargets_plan _ _ _ _ Hcap Hp)
    as (base & raw & Hnd & Hm & Ho & [Hsum Hle Hoth Hdom] & Hin & Hout).
  set (fb := cap * pct / 100) in *.
  assert (∀ m, m ∈ models → targetOf targets m = clampKVLimit (targetOf raw m) (km_KVInitialCapacityBytes m))
    as Htgt by (intros m Hmm; unfold targetOf at 1; by rewrite (Hin m Hmm)).
  split; [|split; [|split]].
  - assert (sumZ (targetOf targets) models ≤ sumZ (targetOf raw) models); [|lia].
    apply sumZ_le. intros m Hmm. rewrite Htgt by done. apply clampKVLimit_le.
  - intros Hnone. rewrite (sumZ_ext _ (targetOf raw)); [lia|].
    intros m Hmm. rewrite Htgt by done. by rewrite Hnone.
  - intros n [v Hv]. destruct (decide (n ∈ km_Name <$> models)) as [|Hn]; [done|].
    rewrite Hout in Hv by done. rewrite Hoth, Ho in Hv; [done..|].
    intros (m & -> & Ha)%list_elem_of_fmap. apply Hn, list_elem_of_fmap_2.
    apply list_elem_of_In, List.filter_In in Ha as [Ha _]. by apply list_elem_of_In.
  - intros m Hmm. exists (clampKVLimit (targetOf raw m) (km_KVInitialCapacityBytes m)).
    destruct (Hm m Hmm) as [Hcl Hb]. specialize (Hle m). unfold targetOf at 1 in Hle.
    rewrite Hb in Hle. simpl in Hle. pose proof (clampKVLimit_mono _ _ (km_KVInitialCapacityBytes m) Hle) as Hmo.
    rewrite Hcl in Hmo. split; [by apply Hin|].
    split; [unfold baseOf in Hmo; lia|]. split; [done|]. split.
    + intros c -> Hc. by apply clampKVLimit_ceiling.
    + intros Hidle. rewrite <- Hcl. f_equal. unfold targetOf. rewrite Hoth, Hb; [simpl; lia|].
      intros (x & Hx & Ha)%list_elem_of_fmap. apply list_elem_of_In, List.filter_In in Ha as [Ha Hact].
      apply list_elem_of_In in Ha. rewrite (NoDup_fmap_inj_elem km_Name models x m) in Hact; congruence.
Qed.

Definition exKVModel (name : string) (used : Z) (inFlight : Z) (ceiling : option Z) : poolKVModel :=
  MkKVModel name used (8 * exGiB) ceiling (MkActivity (0 <? inFlight) inFlight 0 zeroTime true).

(** One model at work, one idle, and one at work with a small startup capacity. *)
Definition exKVModels : list poolKVModel :=
  [exKVModel "b" (3 * exGiB) 2 None; exKVModel "a" (5 * exGiB) 0 None;
   exKVModel "c" exGiB 1 (Some (4 * exGiB))].

Definition exTargets : gmap string Z :=
  default ∅ (okOr None (computePoolKVTargets (20 * exGiB) 10 exKVModels)).

Lemma computePoolKVTargets_safe_witness :
  sumZ (targetOf exTargets) exKVModels ≤ 20 * exGiB ∧
  (targetOf exTargets <$> exKVModels) = [9 * exGiB; 5 * exGiB; 4 * exGiB].
Proof.
  split; [|vm_compute; reflexivity].
  apply (computePoolKVTargets_safe (20 * exGiB) 10 exKVModels exTargets).
  - vm_compute. discriminate.
  - vm_compute. reflexivity.
Defined.

(** The rounding loop of the reclaim plan ends.  It runs at most once for
    each active model, so the loop over bytes is short, and the rounding gives
    no model more than one byte. *)
Theorem reclaim_rounding_is_short cap remaining active targets :
  9 * cap ≤ MaxInt64 → 0 ≤ remaining ≤ cap → NoDup (km_Name <$> active) → active ≠ [] →
  let '(granted, _) := grantAll remaining (sumZ activityWeight active) 0 targets active in
  0 ≤ wrap64 (remaining - granted) ≤ Z.of_nat (length active).
Proof.
  intros Hcap Hrem Hnd Hne.
  pose proof (shared_out active cap remaining active targets Hnd Hcap Hrem Hne (fun m Hm => Hm)) as Hs.
  destruct (grantAll _ _ _ _ _) as [g t]. by destruct Hs.
Qed.

Lemma reclaim_rounding_is_short_witness :
  let '(granted, _) := grantAll (10 * exGiB + 1) (sumZ activityWeight exKVModels) 0 ∅ exKVModels in
  0 ≤ wrap64 (10 * exGiB + 1 - granted) ≤ 3.
Proof.
  apply (reclaim_rounding_is_short (20 * exGiB) (10 * exGiB + 1) exKVModels ∅).
  - vm_compute. discriminate.
  - vm_compute. split; discriminate.
  - apply (bool_decide_unpack _). vm_compute. exact I.
  - discriminate.
Defined.

(** A reclaim budget that is accepted can overflow the shares.  With
    [capacityBytes] 2^62 and one active model of weight 3 the share wraps to a
    negative number, and the loop that hands out the rounding remainder is to
    run more than 2^62 times. *)
Theorem reclaim_share_overflows :
  let model := exKVModel "a" 0 2 None in
  is_ok (parsePoolPolicy (MkPolicy (Some (MkReclaim "" (2 ^ 62) 0)) None)) = true ∧
  poolScan (2 ^ 62) (percentOf (2 ^ 62) 0) ∅ 0 ∅ [model] = Ok (0, {[ "a" := 0 ]}) ∧
  let '(granted, _) := grantAll (2 ^ 62) (activityWeight model) 0 {[ "a" := 0 ]} [model] in
  granted < 0 ∧ 2 ^ 62 < wrap64 (2 ^ 62 - granted).
Proof. vm_compute. split; [reflexivity|]. split; [reflexivity|]. split; reflexivity. Qed.

(** ** Lifecycle. *)

Definition maxSeconds : Z := MaxInt64 / Second.

Lemma durationOfSeconds_exact s : 0 ≤ s ≤ maxSeconds → durationOfSeconds s = s * Second.
Proof.
  intros Hs. unfold durationOfSeconds. apply wrap64_id.
  assert (maxSeconds = 9223372036) as Hmax by reflexivity.
  unfold in_int64, MinInt64, MaxInt64, Second. lia.
Qed.

(** A lifecycle that is accepted, with times that a duration can hold, has
    a positive make-room time; it is the configured one when there is one, is
    at most thirty seconds otherwise, and is never longer than the idle time
    after which an engine sleeps anyway. *)
Theorem validated_lifecycle_waits p :
  validateLifecycle p = Ok () →
  pol_SleepAfterSeconds p ≤ maxSeconds → default 0 (pol_SleepToMakeRoomAfterSeconds p) ≤ maxSeconds →
  0 < sleepToMakeRoomAfter p ∧
  (0 < pol_SleepAfterSeconds p ∨ pol_NoWakeReserveWhileAsleep p = true) ∧
  (0 < pol_SleepAfterSeconds p → sleepToMakeRoomAfter p ≤ pol_SleepAfterSeconds p * Second) ∧
  match pol_SleepToMakeRoomAfterSeconds p with
  | Some s => sleepToMakeRoomAfter p = s * Second
  | None => sleepToMakeRoomAfter p ≤ defaultSleepToMakeRoomAfter
  end.
Proof.
  unfold validateLifecycle, sleepToMakeRoomAfter. intros Hv H1 H2.
  destruct (_ || _) eqn:E; [done|]. apply orb_false_iff in E as [E1 E2]. breflect.
  assert (0 < pol_SleepAfterSeconds p ∨ pol_NoWakeReserveWhileAsleep p = true) as Hdo.
  { apply andb_false_iff in E2 as [E2|E2]; breflect; [left; lia|by right]. }
  clear E2. destruct (pol_SleepToMakeRoomAfterSeconds p) as [s|].
  - destruct (Z.leb_spec s 0); [done|]. destruct (_ && _) eqn:E; [done|].
    rewrite durationOfSeconds_exact by (simpl in H2; lia). unfold Second.
    split; [lia|]. split; [done|]. split; [|lia]. intros Hp. apply andb_false_iff in E as [E|E]; breflect; lia.
  - rewrite durationOfSeconds_exact by lia. unfold defaultSleepToMakeRoomAfter, Second in *.
    destruct (_ && _) eqn:E; breflect.
    + split; [lia|]. split; [done|]. split; [lia|]. lia.
    + split; [lia|]. split; [done|]. split; [|lia]. intros Hp.
      apply andb_false_iff in E as [E|E]; breflect; lia.
Qed.

Definition exLifecycle : poolLifecyclePolicy := MkLifecycle 20 true None.

Lemma validated_lifecycle_waits_witness :
  0 < sleepToMakeRoomAfter exLifecycle ∧ sleepToMakeRoomAfter exLifecycle = 20 * Second.
Proof.
  split; [|reflexivity].
  apply (validated_lifecycle_waits exLifecycle); [reflexivity|vm_compute; discriminate|vm_compute; discriminate].
Defined.

(** A lifecycle that is accepted can ask for an idle time that wraps to a
    negative duration, under which an engine may be put to sleep at once. *)
Theorem lifecycle_seconds_overflow :
  let p := MkLifecycle 0 true (Some 9999999999) in
  is_ok (parsePoolPolicy (MkPolicy None (Some p))) = true ∧ sleepToMakeRoomAfter p < 0.
Proof. vm_compute. split; reflexivity. Qed.

(** ** The record of activity. *)

(** One engine, read again and again. *)
Definition observeAll (m : poolPolicyManager) (key : string) (readings : list (RuntimeSnapshotModel * Time))
  : poolPolicyManager :=
  foldl (fun m reading => (observeEngine m key reading.1 reading.2).1) m readings.

(** The request counters of a reading, when it could read them. *)
Definition countersOf (model : RuntimeSnapshotModel) : option Z :=
  if sm_RequestMetricsObserved model then sm_RequestSuccessTotal model else None.

(** Counters that count: not negative, and far from the end of an int64. *)
Definition saneCounters (model : RuntimeSnapshotModel) : Prop :=
  0 ≤ default 0 (sm_RequestSuccessTotal model) ≤ MaxInt64 ∧
  sm_RequestsRunning model ≤ 2 ^ 62 - 1 ∧ sm_RequestsWaiting model ≤ 2 ^ 62 - 1.

#[export] Instance saneCounters_dec model : Decision (saneCounters model).
Proof. unfold saneCounters. apply _. Defined.

Definition quietSince (total : Z) (model : RuntimeSnapshotModel) : Prop :=
  countersOf model = None ∨
  (countersOf model = Some total ∧ sm_RequestsRunning model ≤ 0 ∧ sm_RequestsWaiting model ≤ 0).

Lemma observeEngine_unread m key model now :
  countersOf model = None → observeEngine m key model now = (m, None).
Proof. unfold countersOf, observeEngine. by destruct (sm_RequestMetricsObserved model), (sm_RequestSuccessTotal model). Qed.

Lemma observeEngine_read m key model now total :
  countersOf model = Some total →
  pm_activity (observeEngine m key model now).1 !! key =
    Some (observeCounters (default zeroActivity (pm_activity m !! key)) total
            (sm_RequestsRunning model) (sm_RequestsWaiting model) now).1.
Proof.
  unfold countersOf, observeEngine. destruct (sm_RequestMetricsObserved model), (sm_RequestSuccessTotal model);
    intros [=]; simplify_eq. destruct (observeCounters _ _ _ _ _). simpl. by rewrite lookup_insert_eq.
Qed.

(** A reading that does not move the activity of a known engine shows no
    request in flight and the same total. *)
Lemma observeCounters_quiet r total running waiting now :
  ar_known r = true → 0 ≤ ar_successTotal r ≤ MaxInt64 → 0 ≤ total ≤ MaxInt64 →
  running ≤ 2 ^ 62 - 1 → waiting ≤ 2 ^ 62 - 1 →
  let r' := (observeCounters r total running waiting now).1 in
  ar_known r' = true ∧ ar_successTotal r' = total ∧
  (ar_lastActive r' = now ∨
   (ar_lastActive r' = ar_lastActive r ∧ total = ar_successTotal r ∧ running ≤ 0 ∧ waiting ≤ 0)).
Proof.
  intros Hk Hs Ht Hr Hw. unfold observeCounters. rewrite Hk. simpl.
  destruct (Z.leb_spec (ar_successTotal r) total); simpl; [|by eauto].
  rewrite !wrap64_id by (unfold in_int64, MinInt64, MaxInt64 in *; lia).
  destruct (Z.ltb_spec 0 (Z.max running 0 + Z.max waiting 0)); simpl; [by eauto|].
  destruct (Z.ltb_spec 0 (total - ar_successTotal r)); simpl; [by eauto|].
  split; [done|]. split; [done|]. right. split; [done|]. lia.
Qed.

Lemma observeAll_inv m key readings :
  pm_activity m !! key = None → Forall (fun r => saneCounters r.1) readings →
  match pm_activity (observeAll m key readings) !! key with
  | None => True
  | Some r => ar_known r = true ∧ 0 ≤ ar_successTotal r ≤ MaxInt64 ∧
      ∃ pre model post, readings = pre ++ (model, ar_lastActive r) :: post ∧
        countersOf model = Some (ar_successTotal r) ∧
        Forall (fun x => quietSince (ar_successTotal r) x.1) post
  end.
Proof.
  intros Hm. induction readings as [|[model now] readings IH] using rev_ind;
    [unfold observeAll; simpl; by rewrite Hm|].
  intros [HF [Hsane _]%Forall_cons]%Forall_app. specialize (IH HF).
  unfold observeAll in *. rewrite foldl_snoc. simpl. set (m1 := foldl _ m readings) in *.
  destruct (countersOf model) as [total|] eqn:Ec; [|].
  - rewrite (observeEngine_read _ _ _ _ _ Ec).
    assert (0 ≤ total ≤ MaxInt64 ∧ sm_RequestsRunning model ≤ 2 ^ 62 - 1 ∧ sm_RequestsWaiting model ≤ 2 ^ 62 - 1)
      as (Ht & Hr & Hw).
    { destruct Hsane as (Ht & Hr & Hw). split; [|done]. revert Ht Ec. simpl. unfold countersOf.
      destruct (sm_RequestMetricsObserved model), (sm_RequestSuccessTotal model); intros Ht [=]; by simplify_eq/=. }
    destruct (pm_activity m1 !! key) as [r|]; simpl default.
    + destruct IH as (Hk & Hs & pre & x & post & -> & Hx & Hq).
      pose proof (observeCounters_quiet r total _ _ now Hk Hs Ht Hr Hw) as Hobs.
      destruct (observeCounters _ _ _ _ _) as [r' a]. simpl in *.
      destruct Hobs as (Hk' & -> & Hcase). split; [done|]. split; [done|].
      destruct Hcase as [->|(-> & -> & ? & ?)].
      * exists (pre ++ (x, ar_lastActive r) :: post), model, []. by rewrite Forall_nil.
      * exists pre, x, (post ++ [(model, now)]). split; [by rewrite <- app_assoc|]. split; [exact Hx|].
        apply Forall_app. split; [done|]. apply Forall_singleton. by right.
    + split; [done|]. split; [done|]. exists readings, model, []. by rewrite Forall_nil.
  - rewrite (observeEngine_unread _ _ _ _ Ec). simpl fst. destruct (pm_activity m1 !! key) as [r|]; [|done].
    destruct IH as (Hk & Hs & pre & x & post & -> & Hx & Hq). split; [done|]. split; [done|].
    exists pre, x, (post ++ [(model, now)]). split; [by rewrite <- app_assoc|]. split; [exact Hx|].
    apply Forall_app. split; [done|]. apply Forall_singleton. by left.
Qed.

(** The idle time of an engine is real.  When the policy says an engine has
    been idle since some moment, it read the engine's counters at that moment,
    and every reading since that could see the counters saw no request running
    or waiting and none completed. *)
Theorem idle_since_is_sound m key readings since :
  pm_activity m !! key = None → Forall (fun r => saneCounters r.1) readings →
  lastActive (observeAll m key readings) key = Some since →
  ∃ pre model post total, readings = pre ++ (model, since) :: post ∧
    countersOf model = Some total ∧ Forall (fun x => quietSince total x.1) post.
Proof.
  intros Hm HF Hl. pose proof (observeAll_inv m key readings Hm HF) as Hinv. unfold lastActive in Hl.
  destruct (pm_activity (observeAll m key readings) !! key) as [r|]; [|done].
  destruct Hinv as (Hk & _ & pre & model & post & -> & Hc & Hq). rewrite Hk in Hl. injection Hl as <-.
  by exists pre, model, post, (ar_successTotal r).
Qed.

Definition exReading (total running : Z) : RuntimeSnapshotModel :=
  MkSnapshotModel "alpha" None "alpha" "active" true true None 0 exGiB None None true running 0 (Some total) "" 9000.

Definition exReadings3 : list (RuntimeSnapshotModel * Time) :=
  [(exReading 4 0, 10 * Second); (exReading 5 0, 20 * Second); (exReading 5 0, 30 * Second)].

Lemma idle_since_is_sound_witness :
  ∃ pre model post total, exReadings3 = pre ++ (model, 20 * Second) :: post ∧
    countersOf model = Some total ∧ Forall (fun x => quietSince total x.1) post.
Proof.
  apply (idle_since_is_sound newPoolPolicyManager "k").
  - reflexivity.
  - apply (bool_decide_unpack _). vm_compute. exact I.
  - vm_compute. reflexivity.
Defined.
