(* ===== verification/Division.v ===== *)
(** * When a card is divided again ([pkg/controller/modelclaim/division.go]).

    [cardDivisionState] remembers, for each card, when a division was last tried
    and which engines it was divided for, so that a card is divided at once when
    its engines change and once a round otherwise.  [cardComposition] is how a
    card's engines are told apart.  [divideCards] is the step of a pass that
    divides the cards that are due; its effect on the state is a run of the
    state's operations, and the theorems about those runs say what a card may
    rely on. *)

From Stdlib Require Import Ascii.
From S2P Require Import Prelude Api Claims Ledger KVPlan Placement Reservations Runtime ArrangeCard PoolPolicy.

Definition stuckDivisionTries : Z := 3.
Definition stuckDivisionWarningEvery : Z := 30.

#[export] Instance declarationError_eq_dec : EqDecision declarationError.
Proof. solve_decision. Defined.
#[export] Instance blockReason_eq_dec : EqDecision blockReason.
Proof. solve_decision. Defined.

(** ** What is remembered of the cards.  The clock is the argument [now]. *)

Record cardDivisionState : Type := MkDivisionState {
  ds_lastRound : gmap NamespacedName Time;
  ds_dividedFor : gmap NamespacedName string;
  ds_attemptedFor : gmap NamespacedName string;
  ds_failures : gmap NamespacedName Z;
  ds_lastFailure : gmap NamespacedName Time;
  ds_owed : gmap NamespacedName (list string);
  ds_undividedFor : gmap NamespacedName (option blockReason);
  ds_asked : gset NamespacedName;
  ds_lastPruned : Time;
}.

Definition newCardDivisionState : cardDivisionState := MkDivisionState ∅ ∅ ∅ ∅ ∅ ∅ ∅ ∅ zeroTime.

Definition divisionHorizon : Duration := 30 * DefaultRequeueDuration.

(** The entries of a map that [pruneLocked] keeps. *)
Definition pruned {A} (s : cardDivisionState) (m : gmap NamespacedName A) : gmap NamespacedName A :=
  filter (fun kv => kv.1 ∈ s.(ds_asked) ∨ s.(ds_lastRound) !! kv.1 = None) m.

Definition pruneDivisions (s : cardDivisionState) (now : Time) : cardDivisionState :=
  if timeSub now s.(ds_lastPruned) <? divisionHorizon then s
  else MkDivisionState (pruned s s.(ds_lastRound)) (pruned s s.(ds_dividedFor))
         (pruned s s.(ds_attemptedFor)) (pruned s s.(ds_failures)) (pruned s s.(ds_lastFailure))
         (pruned s s.(ds_owed)) (pruned s s.(ds_undividedFor)) ∅ now.

Definition setAsked (s : cardDivisionState) (card : NamespacedName) : cardDivisionState :=
  MkDivisionState s.(ds_lastRound) s.(ds_dividedFor) s.(ds_attemptedFor) s.(ds_failures)
    s.(ds_lastFailure) s.(ds_owed) s.(ds_undividedFor) ({[ card ]} ∪ s.(ds_asked)) s.(ds_lastPruned).

Definition setAttempt (s : cardDivisionState) (card : NamespacedName) (composition : string) (now : Time)
  : cardDivisionState :=
  MkDivisionState (<[card := now]> s.(ds_lastRound)) s.(ds_dividedFor)
    (<[card := composition]> s.(ds_attemptedFor)) s.(ds_failures)
    s.(ds_lastFailure) s.(ds_owed) s.(ds_undividedFor) s.(ds_asked) s.(ds_lastPruned).

Definition setOwed (s : cardDivisionState) (owed : gmap NamespacedName (list string)) : cardDivisionState :=
  MkDivisionState s.(ds_lastRound) s.(ds_dividedFor) s.(ds_attemptedFor) s.(ds_failures)
    s.(ds_lastFailure) owed s.(ds_undividedFor) s.(ds_asked) s.(ds_lastPruned).

Definition setUndivided (s : cardDivisionState) (undivided : gmap NamespacedName (option blockReason))
  : cardDivisionState :=
  MkDivisionState s.(ds_lastRound) s.(ds_dividedFor) s.(ds_attemptedFor) s.(ds_failures)
    s.(ds_lastFailure) s.(ds_owed) undivided s.(ds_asked) s.(ds_lastPruned).

Definition changedSince (s : cardDivisionState) (card : NamespacedName) (composition : string) : bool :=
  match s.(ds_dividedFor) !! card with
  | Some previous => negb (bool_decide (previous = composition))
  | None => false
  end.

Definition attempted (s : cardDivisionState) (card : NamespacedName) (composition : string) : bool :=
  bool_decide (default "" (s.(ds_attemptedFor) !! card) = composition).

Definition inRound (s : cardDivisionState) (card : NamespacedName) (now : Time) : bool :=
  match s.(ds_lastRound) !! card with
  | Some last => timeSub now last <? DefaultRequeueDuration
  | None => false
  end.

(** The state, whether the card is to be divided, and whether it changed. *)
Definition divisionDue (s : cardDivisionState) (card : NamespacedName) (composition : string) (now : Time)
  : cardDivisionState * bool * bool :=
  let s := pruneDivisions (setAsked s card) now in
  let changed := changedSince s card composition in
  if changed && negb (attempted s card composition) then (setAttempt s card composition now, true, true)
  else if inRound s card now then (s, false, false)
  else (setAttempt s card composition now, true, changed).

Definition mayBeDue (s : cardDivisionState) (card : NamespacedName) (composition : string) (now : Time)
  : bool :=
  if changedSince s card composition && negb (attempted s card composition) then true
  else match s.(ds_lastRound) !! card with
       | None => true
       | Some last => DefaultRequeueDuration <=? timeSub now last
       end.

Definition noted (s : cardDivisionState) (card : NamespacedName) : bool :=
  bool_decide (is_Some (s.(ds_dividedFor) !! card)).

Definition leftAlone (s : cardDivisionState) (card : NamespacedName) (composition : string)
    (owed : list string) : cardDivisionState :=
  MkDivisionState s.(ds_lastRound) (<[card := composition]> s.(ds_dividedFor)) s.(ds_attemptedFor)
    s.(ds_failures) s.(ds_lastFailure) (<[card := owed]> s.(ds_owed)) s.(ds_undividedFor)
    s.(ds_asked) s.(ds_lastPruned).

Definition owedBefore (s : cardDivisionState) (card : NamespacedName) : list string :=
  default [] (s.(ds_owed) !! card).

Definition noteOwed (s : cardDivisionState) (card : NamespacedName) (owed : list string)
  : cardDivisionState := setOwed s (<[card := owed]> s.(ds_owed)).

Definition divided (s : cardDivisionState) (card : NamespacedName) (composition : string) (now : Time)
  : cardDivisionState :=
  MkDivisionState (<[card := now]> s.(ds_lastRound)) (<[card := composition]> s.(ds_dividedFor))
    (<[card := composition]> s.(ds_attemptedFor)) (delete card s.(ds_failures))
    (delete card s.(ds_lastFailure)) (delete card s.(ds_owed)) s.(ds_undividedFor)
    s.(ds_asked) s.(ds_lastPruned).

(** The state, and whether the reason is news. *)
Definition leftUndivided (s : cardDivisionState) (card : NamespacedName) (why : option blockReason)
  : cardDivisionState * bool :=
  let s := setOwed s (delete card s.(ds_owed)) in
  if bool_decide (default None (s.(ds_undividedFor) !! card) = why) then (s, false)
  else (setUndivided s (<[card := why]> s.(ds_undividedFor)), true).

Definition accountedFor (s : cardDivisionState) (card : NamespacedName) : cardDivisionState :=
  setUndivided s (delete card s.(ds_undividedFor)).

(** The state, and how many divisions have failed in a row. *)
Definition failedAgain (s : cardDivisionState) (card : NamespacedName) (now : Time)
  : cardDivisionState * Z :=
  let failures := match s.(ds_lastFailure) !! card with
                  | Some last => if stuckDivisionWarningEvery * DefaultRequeueDuration <? timeSub now last
                                 then delete card s.(ds_failures) else s.(ds_failures)
                  | None => s.(ds_failures)
                  end in
  let count := default 0 (failures !! card) + 1 in
  (MkDivisionState s.(ds_lastRound) s.(ds_dividedFor) s.(ds_attemptedFor) (<[card := count]> failures)
     (<[card := now]> s.(ds_lastFailure)) s.(ds_owed) s.(ds_undividedFor) s.(ds_asked) s.(ds_lastPruned),
   count).

Definition owedBy (ledger : podLedger) : list string :=
  match planKVLimits (plannableBytes ledger) ledger.(engines) with
  | Err _ => []
  | Ok limits => shortEnginesOwedMore ledger.(engines) limits
                   (minimumKVLimitChangeBytes ledger.(hbmUsableBytes))
  end.

(** ** What a card is remembered by. *)

(** [strings.Join]. *)
Fixpoint joinWith (sep : string) (entries : list string) : string :=
  match entries with
  | [] => ""
  | [entry] => entry
  | entry :: rest => String.append entry (String.append sep (joinWith sep rest))
  end.

Section Composition.
Context `{K8s}.

Definition entryState (phase : ModelClaimPhase) (asked : bool) : string :=
  match phase with
  | ModelClaimSleeping => if asked then "asleep-asked" else "asleep"
  | ModelClaimFailed => "failed"
  | _ => "awake"
  end.

Definition entryDeclared (claim : ModelClaim) : string :=
  match claim.(spec_PerGPU) with
  | None => "undeclared"
  | Some d => String.append (pretty (q_Value d.(MaximumFootprint)))
                (String.append "+" (pretty (q_Value d.(KVFloor))))
  end.

Definition compositionEntry (claim : ModelClaim) (phase : ModelClaimPhase) (asked : bool) : string :=
  String.append claim.(mc_Name) (String.append "/" (String.append (entryState phase asked)
    (String.append "/" (entryDeclared claim)))).

(** The instances of a listing that are recorded on a pod. *)
Definition instancesOn (claims : list ModelClaim) (pod : Pod) : list (ModelClaim * ModelClaimInstance) :=
  claims ≫= fun claim =>
    pair claim <$> List.filter (fun i => bool_decide (i.(inst_Pod) = pod.(pod_Name))) claim.(status_Instances).

Definition cardComposition (claims : option (list ModelClaim)) (pod : Pod) (extra : list string) : string :=
  let entries := extra ++
    ((fun ci => compositionEntry ci.1 ci.2.(inst_Phase) (wakeAsked (Some pod) ci.1.(mc_Name)))
       <$> instancesOn (default [] claims) pod) in
  joinWith "," (sortBy strless entries).
End Composition.

(** ** What a pass reads besides the runtimes. *)

(** A pool's Deployment, with its policy annotation, the empty string when there
    is none, and what the JSON decoder reads in it, or why it does not decode. *)
Record Deployment : Type := MkDeployment {
  dep_Namespace : string;
  dep_Name : string;
  dep_PolicyText : string;
  dep_Decoded : result string poolPolicy;
}.

Record ReplicaSet : Type := MkReplicaSet {
  rs_Controller : option (string * string);
}.

Definition lifecycleOf (deployment : Deployment) : option poolLifecyclePolicy :=
  if bool_decide (deployment.(dep_PolicyText) = "") then None
  else match deployment.(dep_Decoded) with
       | Err _ => None
       | Ok raw => match parsePoolPolicy raw with Ok policy => policy.(pol_Lifecycle) | Err _ => None end
       end.

Definition poolKeepsNoWakeReserve (deployment : Deployment) : bool :=
  match lifecycleOf deployment with
  | Some lifecycle => lifecycle.(pol_NoWakeReserveWhileAsleep)
  | None => false
  end.

Class ClusterReads `{Cluster W} := {
  (** A namespace's claims, from the API server and from the cache. *)
  ListClaims : string → W → W * result apiError (list ModelClaim);
  ListCachedClaims : string → W → W * result apiError (list ModelClaim);
  GetReplicaSet : NamespacedName → W → W * result apiError ReplicaSet;
  GetDeployment : NamespacedName → W → W * result apiError Deployment;
  Now : W → W * Time;
}.

Section DivideCards.
Context `{ClusterReads W}.

(** The Deployment that controls a pod, through its ReplicaSet. *)
Definition poolDeploymentForPod (pod : Pod) : Run W (result apiError (option Deployment)) :=
  match pod.(pod_Controller) with
  | Some (kind, name) =>
      if negb (bool_decide (kind = "ReplicaSet")) then mret (Ok None)
      else
        got ← call (GetReplicaSet (MkNN pod.(pod_Namespace) name));
        match got with
        | Err e => mret (Err e)
        | Ok replicaSet =>
            match replicaSet.(rs_Controller) with
            | Some (kind, name) =>
                if negb (bool_decide (kind = "Deployment")) then mret (Ok None)
                else
                  got ← call (GetDeployment (MkNN pod.(pod_Namespace) name));
                  mret (match got with Ok deployment => Ok (Some deployment) | Err e => Err e end)
            | None => mret (Ok None)
            end
        end
  | None => mret (Ok None)
  end.

(** [pools] is what this pass found of each pool already. *)
Fixpoint withoutReserve (pools : gmap NamespacedName bool) (without : gset string) (pods : list Pod)
  : Run W (gset string) :=
  match pods with
  | [] => mret without
  | pod :: rest =>
      got ← poolDeploymentForPod pod;
      match got with
      | Ok (Some deployment) =>
          let pool := MkNN deployment.(dep_Namespace) deployment.(dep_Name) in
          let keepsNone := default (poolKeepsNoWakeReserve deployment) (pools !! pool) in
          withoutReserve (<[pool := keepsNone]> pools)
            (if keepsNone then {[ pod.(pod_Name) ]} ∪ without else without) rest
      | _ => withoutReserve pools without rest
      end
  end.

Definition podsWithoutWakeReserve (pods : list Pod) : Run W (gset string) := withoutReserve ∅ ∅ pods.

(** One account per candidate, for [forClaim]: the holds of the other claims are
    charged. *)
Definition collectPodLedgers (held : cardReservations) (namespace : string) (candidates : list Pod)
    (snapshots : gmap string RuntimeSnapshot) (forClaim : string)
  : Run W (cardReservations * gmap string podLedger) :=
  listed ← call (ListClaims namespace);
  without ← podsWithoutWakeReserve candidates;
  now ← call Now;
  let claims := match listed with Ok items => Some items | Err _ => None end in
  mret (takeFrom held (podLedgersFrom snapshots without claims candidates) namespace forClaim now).

(** A card that is due, as the first loop of [divideCardsAsListed] notes it. *)
Record dueCard : Type := MkDue {
  due_pod : Pod;
  due_changed : bool;
  due_firstSeen : bool;
  due_composition : string;
}.

Fixpoint collectDue (claims : list ModelClaim) (s : cardDivisionState) (pods : list Pod)
  : Run W (cardDivisionState * list dueCard) :=
  match pods with
  | [] => mret (s, [])
  | pod :: rest =>
      let composition := cardComposition (Some claims) pod [] in
      if bool_decide (composition = "") then collectDue claims s rest
      else
        now ← call Now;
        let '(s, divide, changed) := divisionDue s (cardOf pod) composition now in
        let card := MkDue pod changed (negb (noted s (cardOf pod))) composition in
        r ← collectDue claims s rest;
        mret (r.1, if divide then card :: r.2 else r.2)
  end.

(** Why a due card is divided. *)
Definition whyDivided (s : cardDivisionState) (card : dueCard) (ledger : podLedger) : division :=
  if card.(due_changed) then compositionDivision
  else if card.(due_firstSeen) then firstDivision ledger.(hbmUsableBytes)
  else
    let why := loadDivision ledger.(hbmUsableBytes) in
    MkDivision why.(div_minimumChangeBytes) why.(div_onlyWhenNeeded)
      (owedBefore s (cardOf card.(due_pod))) why.(div_announce).

(** A card that cannot hold every reserve put back is planned without them. *)
Definition enginesToDivide (ledger : podLedger) : list engineOnPod :=
  match planKVLimits (plannableBytes ledger) ledger.(engines) with
  | Ok _ => ledger.(engines)
  | Err _ => let '(eased, found) := withoutAskedReserves ledger.(engines) in
             if found then eased else ledger.(engines)
  end.

(** What one card of the second loop leaves in the state. *)
Definition noteArrangement (s : cardDivisionState) (card : dueCard) (ledger : podLedger)
    (outcome : arrangement) : Run W cardDivisionState :=
  let key := cardOf card.(due_pod) in
  match outcome with
  | CardLeftAlone _ owed => mret (leftAlone s key card.(due_composition) owed)
  | Arranged _ _ =>
      now ← call Now;
      mret (divided s key card.(due_composition) now)
  | GrowthIncomplete _ _ _ | ArrangeFailed _ =>
      let s := noteOwed s key (owedBy ledger) in
      now ← call Now;
      mret (failedAgain s key now).1
  end.

Definition divideOne (claims : list ModelClaim) (withoutWakeReserve : gset string)
    (s : cardDivisionState) (held : cardReservations) (readings : runtimeReadings) (card : dueCard)
  : Run W (cardDivisionState * cardReservations * runtimeReadings) :=
  let pod := card.(due_pod) in
  r ← fresh readings pod;
  let reading := match r.2 with
                 | Ok (Some snapshot) => {[ pod.(pod_Name) := snapshot ]}
                 | _ => ∅
                 end in
  let ledgers := podLedgersFrom reading withoutWakeReserve (Some claims) [pod] in
  now ← call Now;
  let '(held, ledgers) := takeFrom held ledgers pod.(pod_Namespace) "" now in
  let ledger := ledgerOf ledgers pod.(pod_Name) in
  if bool_decide (length ledger.(engines) = 0%nat) || negb (podHasGPUs pod ledger.(accelerators))
  then mret (s, held, r.1)
  else if negb ledger.(judgeable)
  then mret ((leftUndivided s (cardOf pod) ledger.(blocked)).1, held, r.1)
  else
    let s := accountedFor s (cardOf pod) in
    a ← arrangeCard pod ledger r.1 (enginesToDivide ledger) (whyDivided s card ledger);
    s ← noteArrangement s card ledger a.2;
    mret (s, held, a.1).

Fixpoint divideDue (claims : list ModelClaim) (withoutWakeReserve : gset string)
    (s : cardDivisionState) (held : cardReservations) (readings : runtimeReadings) (cards : list dueCard)
  : Run W (cardDivisionState * cardReservations * runtimeReadings) :=
  match cards with
  | [] => mret (s, held, readings)
  | card :: rest =>
      r ← divideOne claims withoutWakeReserve s held readings card;
      divideDue claims withoutWakeReserve r.1.1 r.1.2 r.2 rest
  end.

Definition divideCardsAsListed (s : cardDivisionState) (held : cardReservations)
    (readings : runtimeReadings) (candidates : list Pod)
  : Run W (cardDivisionState * cardReservations * runtimeReadings) :=
  match candidates with
  | [] => mret (s, held, readings)
  | first :: _ =>
      listed ← call (ListClaims first.(pod_Namespace));
      match listed with
      | Err _ => mret (s, held, readings)
      | Ok claims =>
          d ← collectDue claims s candidates;
          if bool_decide (length d.2 = 0%nat) then mret (d.1, held, readings)
          else
            without ← podsWithoutWakeReserve (due_pod <$> d.2);
            divideDue claims without d.1 held readings d.2
      end
  end.

Fixpoint mayAnyBeDue (s : cardDivisionState) (cached : list ModelClaim) (pods : list Pod) : Run W bool :=
  match pods with
  | [] => mret false
  | pod :: rest =>
      let composition := cardComposition (Some cached) pod [] in
      if bool_decide (composition = "") then mayAnyBeDue s cached rest
      else
        now ← call Now;
        if mayBeDue s (cardOf pod) composition now then mret true else mayAnyBeDue s cached rest
  end.

Definition anyCardMayBeDue (s : cardDivisionState) (first : Pod) (candidates : list Pod) : Run W bool :=
  listed ← call (ListCachedClaims first.(pod_Namespace));
  match listed with
  | Err _ => mret true
  | Ok cached => mayAnyBeDue s cached candidates
  end.

Definition divideCards (s : cardDivisionState) (held : cardReservations)
    (readings : runtimeReadings) (candidates : list Pod)
  : Run W (cardDivisionState * cardReservations * runtimeReadings) :=
  match candidates with
  | [] => mret (s, held, readings)
  | first :: _ =>
      any ← anyCardMayBeDue s first candidates;
      if any : bool then divideCardsAsListed s held readings candidates else mret (s, held, readings)
  end.
End DivideCards.

(** ** What a card may rely on. *)

Lemma pruned_asked {A} s (m : gmap NamespacedName A) card :
  card ∈ ds_asked s → pruned s m !! card = m !! card.
Proof.
  intros Ha. unfold pruned. rewrite map_lookup_filter. destruct (m !! card); simpl; [|done].
  rewrite option_guard_True; [done|]. by left.
Qed.

(** What a question about [card] leaves of the maps at [card]. *)
Lemma asking_keeps s card now :
  let s' := pruneDivisions (setAsked s card) now in
  ds_lastRound s' !! card = ds_lastRound s !! card ∧ ds_dividedFor s' !! card = ds_dividedFor s !! card ∧
  ds_attemptedFor s' !! card = ds_attemptedFor s !! card.
Proof.
  unfold pruneDivisions. destruct (_ <? _); [done|]. simpl.
  assert (card ∈ ds_asked (setAsked s card)) by (simpl; set_solver).
  by rewrite !pruned_asked.
Qed.

Lemma inRound_due s card now :
  inRound s card now = match ds_lastRound s !! card with
                       | None => false
                       | Some last => negb (DefaultRequeueDuration <=? timeSub now last)
                       end.
Proof. unfold inRound. destruct (ds_lastRound s !! card); [|done]. by rewrite Z.ltb_antisym. Qed.

(** A pass learns from the cache, without taking the round, exactly what
    asking for the card would answer, whatever the asking forgets of other
    cards. *)
Theorem mayBeDue_agrees_with_due s card composition now :
  mayBeDue s card composition now = (divisionDue s card composition now).1.2.
Proof.
  unfold mayBeDue, divisionDue. destruct (asking_keeps s card now) as (H1 & H2 & H3).
  set (s' := pruneDivisions _ now) in *.
  assert (changedSince s' card composition = changedSince s card composition) as Hc
    by (unfold changedSince; by rewrite H2).
  assert (attempted s' card composition = attempted s card composition) as Ha
    by (unfold attempted; by rewrite H3).
  rewrite inRound_due, H1, Hc, Ha. destruct (_ && _); [done|].
  destruct (ds_lastRound s !! card); [|done]. by destruct (_ <=? _).
Qed.

(** The operations of the state, as the reconciler makes them. *)
Inductive divisionOp : Type :=
| AskDue (card : NamespacedName) (composition : string) (now : Time)
| NoteLeftAlone (card : NamespacedName) (composition : string) (owed : list string)
| NoteOwed (card : NamespacedName) (owed : list string)
| NoteDivided (card : NamespacedName) (composition : string) (now : Time)
| NoteUndivided (card : NamespacedName) (why : option blockReason)
| NoteAccounted (card : NamespacedName)
| NoteFailed (card : NamespacedName) (now : Time).

Definition applyDivision (s : cardDivisionState) (op : divisionOp) : cardDivisionState :=
  match op with
  | AskDue card composition now => (divisionDue s card composition now).1.1
  | NoteLeftAlone card composition owed => leftAlone s card composition owed
  | NoteOwed card owed => noteOwed s card owed
  | NoteDivided card composition now => divided s card composition now
  | NoteUndivided card why => (leftUndivided s card why).1
  | NoteAccounted card => accountedFor s card
  | NoteFailed card now => (failedAgain s card now).1
  end.

Definition runDivision (s : cardDivisionState) (ops : list divisionOp) : cardDivisionState :=
  foldl applyDivision s ops.

(** An operation at a moment of [t1, t2] that does not give [card] other
    engines than [composition]. *)
Definition opOf (card : NamespacedName) (composition : string) (t1 t2 : Time) (op : divisionOp) : Prop :=
  match op with
  | AskDue c comp now | NoteDivided c comp now => t1 ≤ now ≤ t2 ∧ (c = card → comp = composition)
  | NoteLeftAlone c comp _ => c = card → comp = composition
  | _ => True
  end.

Section Round.
Context (card : NamespacedName) (composition : string) (t1 t2 : Time).
Hypothesis (Hnear : t2 - t1 < DefaultRequeueDuration).

(** The round [t1] began is still on at [card]. *)
Record roundOn (s : cardDivisionState) : Prop := MkRoundOn {
  on_round : ∃ t : Time, ds_lastRound s !! card = Some t ∧ t1 ≤ t;
  on_attempt : ds_attemptedFor s !! card = Some composition;
  on_asked : card ∈ ds_asked s ∨ t1 ≤ ds_lastPruned s;
}.

Lemma roundOn_inRound s now : roundOn s → now ≤ t2 → inRound s card now = true.
Proof.
  intros [(t & Ht & Hle) _ _] Hn. unfold inRound. rewrite Ht. apply Z.ltb_lt, timeSub_lt; [|lia].
  unfold DefaultRequeueDuration, Second, MaxInt64. lia.
Qed.

(** Nothing that is asked in the round forgets [card]. *)
Lemma roundOn_asked s c now :
  roundOn s → t1 ≤ now ≤ t2 → roundOn (pruneDivisions (setAsked s c) now).
Proof.
  intros [Hr Ha Hk] Hn. unfold pruneDivisions. destruct (Z.ltb_spec (timeSub now (ds_lastPruned (setAsked s c))) divisionHorizon) as [Hlt|Hge].
  - split; simpl; [done|done|]. destruct Hk; [left; set_solver|by right].
  - assert (card ∈ ds_asked (setAsked s c)) as Hin.
    { destruct Hk as [?|Hp]; [simpl; set_solver|]. exfalso. simpl in Hge.
      unfold timeSub, divisionHorizon, DefaultRequeueDuration, Second, MinInt64, MaxInt64 in *. lia. }
    split; simpl; [by rewrite pruned_asked|by rewrite pruned_asked|right; lia].
Qed.

Lemma roundOn_other s c comp now :
  c ≠ card → roundOn s → roundOn (setAttempt s c comp now).
Proof. intros Hne [Hr Ha Hk]. split; simpl; [by rewrite lookup_insert_ne|by rewrite lookup_insert_ne|done]. Qed.

Lemma roundOn_step s op : opOf card composition t1 t2 op → roundOn s → roundOn (applyDivision s op).
Proof.
  intros Hop Hs. destruct op as [c comp now|c comp owed|c owed|c comp now|c why|c|c now]; simpl in *.
  - destruct Hop as [Hn Hc]. pose proof (roundOn_asked s c now Hs Hn) as Hp.
    unfold divisionDue. set (s' := pruneDivisions _ now) in *.
    destruct (decide (c = card)) as [->|Hne].
    + rewrite (Hc eq_refl). assert (attempted s' card composition = true) as ->
        by (unfold attempted; rewrite (on_attempt _ Hp); by apply bool_decide_eq_true).
      rewrite andb_false_r. rewrite roundOn_inRound; [done|done|lia].
    + destruct (_ && _); [by apply roundOn_other|]. destruct (inRound s' c now); [done|by apply roundOn_other].
  - by destruct Hs.
  - by destruct Hs.
  - destruct Hop as [Hn Hc]. destruct Hs as [Hr Ha Hk]. destruct (decide (c = card)) as [->|Hne].
    + split; simpl; [rewrite lookup_insert_eq; exists now; auto with lia|rewrite lookup_insert_eq; by rewrite Hc|done].
    + split; simpl; [by rewrite lookup_insert_ne|by rewrite lookup_insert_ne|done].
  - unfold leftUndivided. destruct Hs. by case_bool_decide.
  - by destruct Hs.
  - by destruct Hs.
Qed.

Lemma roundOn_run s ops :
  Forall (opOf card composition t1 t2) ops → roundOn s → roundOn (runDivision s ops).
Proof.
  unfold runDivision. intros HF. revert s. induction HF as [|op ops Ho _ IH]; intros s Hs; simpl; [done|].
  apply IH. by apply roundOn_step.
Qed.
End Round.

(** A card is divided once a round.  When a pass is told to divide a card,
    then for as long as the card's engines stay the same no pass is told so
    again within ten seconds, however many claims on the card ask, whatever is
    noted of the card, and whatever other cards are divided or forgotten. *)
Theorem division_round_is_kept s card composition t1 t2 ops :
  (divisionDue s card composition t1).1.2 = true →
  t1 ≤ t2 → t2 - t1 < DefaultRequeueDuration → Forall (opOf card composition t1 t2) ops →
  (divisionDue (runDivision (divisionDue s card composition t1).1.1 ops) card composition t2).1.2 = false.
Proof.
  intros Hdue Hle Hnear Hops. rewrite <- mayBeDue_agrees_with_due. unfold mayBeDue.
  assert (roundOn card composition t1 (divisionDue s card composition t1).1.1) as Hs.
  { revert Hdue. unfold divisionDue.
    assert (card ∈ ds_asked (pruneDivisions (setAsked s card) t1) ∨
            t1 ≤ ds_lastPruned (pruneDivisions (setAsked s card) t1)) as Hk
      by (unfold pruneDivisions; destruct (_ <? _); simpl; [left; set_solver|right; lia]).
    destruct (_ && _); [|destruct (inRound _ _ _)]; simpl; intros; try done;
      (split; simpl; [exists t1; rewrite lookup_insert_eq; auto with lia|by rewrite lookup_insert_eq|done]). }
  pose proof (roundOn_run card composition t1 t2 Hnear _ _ Hops Hs) as Hr.
  set (s' := runDivision _ ops) in *.
  assert (attempted s' card composition = true) as ->
    by (unfold attempted; rewrite (on_attempt _ _ _ _ Hr); by apply bool_decide_eq_true).
  rewrite andb_false_r. pose proof (roundOn_inRound card composition t1 t2 Hnear s' t2 Hr ltac:(lia)) as Hin.
  rewrite inRound_due in Hin. destruct (ds_lastRound s' !! card); [|done].
  by apply negb_true_iff in Hin.
Qed.

Definition exCard : NamespacedName := MkNN "ns" "pod-a".
Definition exBusy : list divisionOp :=
  [AskDue exCard "a/awake/2+1" (101 * Second); NoteFailed exCard (102 * Second);
   AskDue (MkNN "ns" "pod-b") "b/awake/2+1" (103 * Second); NoteOwed exCard ["a"]].

Lemma division_round_is_kept_witness :
  (divisionDue (runDivision (divisionDue newCardDivisionState exCard "a/awake/2+1" (100 * Second)).1.1 exBusy)
     exCard "a/awake/2+1" (109 * Second)).1.2 = false.
Proof.
  apply (division_round_is_kept newCardDivisionState exCard "a/awake/2+1" (100 * Second) (109 * Second) exBusy).
  - vm_compute. reflexivity.
  - vm_compute. discriminate.
  - vm_compute. reflexivity.
  - unfold exBusy, opOf, Second. repeat constructor; try lia; intros [=].
Defined.

(** Nothing says that [card] was divided, or needs no division. *)
Definition notSettled (card : NamespacedName) (op : divisionOp) : Prop :=
  match op with
  | NoteDivided c _ _ | NoteLeftAlone c _ _ => c ≠ card
  | _ => True
  end.

Lemma pruned_some {A} s (m : gmap NamespacedName A) card v :
  pruned s m !! card = Some v → m !! card = Some v.
Proof. intros Hl. by apply map_lookup_filter_Some in Hl as [? _]. Qed.

(** An unsettled card is remembered as it was, or not at all. *)
Lemma dividedFor_unsettled s card op previous :
  notSettled card op → ds_dividedFor (applyDivision s op) !! card = Some previous →
  ds_dividedFor s !! card = Some previous.
Proof.
  destruct op as [c comp now|c comp owed|c owed|c comp now|c why|c|c now]; simpl; intros Hn Hl.
  - revert Hl. unfold divisionDue. set (s' := pruneDivisions _ now).
    assert (ds_dividedFor s' !! card = Some previous → ds_dividedFor s !! card = Some previous).
    { unfold s', pruneDivisions. destruct (_ <? _); [done|]. simpl. apply pruned_some. }
    destruct (_ && _); [done|]. by destruct (inRound s' c now).
  - by rewrite lookup_insert_ne in Hl.
  - done.
  - by rewrite lookup_insert_ne in Hl.
  - unfold leftUndivided in Hl. by case_bool_decide.
  - done.
  - done.
Qed.

Lemma dividedFor_run s card ops previous :
  Forall (notSettled card) ops → ds_dividedFor (runDivision s ops) !! card = Some previous →
  ds_dividedFor s !! card = Some previous.
Proof.
  unfold runDivision. intros HF. revert s. induction HF as [|op ops Ho _ IH]; intros s; simpl; [done|].
  intros Hl. by eapply dividedFor_unsettled, IH.
Qed.

(** A change of a card's engines stays a change until a division for it
    works.  The first pass to see it divides the card at once, as for a change;
    and however often that fails, whenever a pass is next told to divide the
    card, it is told that the engines changed, unless the card was forgotten
    for want of anyone asking about it. *)
Theorem engine_change_stays_a_change s card previous composition t1 t2 ops :
  ds_dividedFor s !! card = Some previous → previous ≠ composition →
  Forall (notSettled card) ops →
  let s' := runDivision s ops in
  ((attempted s card composition = false → (divisionDue s card composition t1).1.2 = true ∧
      (divisionDue s card composition t1).2 = true)) ∧
  (noted s' card = true → (divisionDue s' card composition t2).1.2 = true →
     (divisionDue s' card composition t2).2 = true).
Proof.
  intros Hd Hne Hops s'.
  assert (∀ s0 t, ds_dividedFor s0 !! card = Some previous →
    changedSince (pruneDivisions (setAsked s0 card) t) card composition = true) as Hch.
  { intros s0 t H0. unfold changedSince. destruct (asking_keeps s0 card t) as (_ & -> & _). rewrite H0.
    apply negb_true_iff. by apply bool_decide_eq_false. }
  split.
  - intros Ha. unfold divisionDue. rewrite (Hch _ _ Hd).
    assert (attempted (pruneDivisions (setAsked s card) t1) card composition = false) as ->; [|done].
    rewrite <- Ha. unfold attempted. by destruct (asking_keeps s card t1) as (_ & _ & ->).
  - intros [prev Hp]%bool_decide_eq_true. pose proof (dividedFor_run _ _ _ _ Hops Hp) as Hs.
    rewrite Hd in Hs. injection Hs as <-. unfold divisionDue. rewrite (Hch _ _ Hp). simpl.
    destruct (negb _); [done|]. by destruct (inRound _ _ _).
Qed.

Definition exNoted : cardDivisionState :=
  divided newCardDivisionState exCard "a/awake/2+1" (50 * Second).

Lemma engine_change_stays_a_change_witness :
  let s' := runDivision exNoted exBusy in
  (divisionDue exNoted exCard "a/asleep/2+1" (100 * Second)).2 = true ∧
  (divisionDue s' exCard "a/asleep/2+1" (120 * Second)).2 = true.
Proof.
  intros s'.
  destruct (engine_change_stays_a_change exNoted exCard "a/awake/2+1" "a/asleep/2+1" (100 * Second)
    (120 * Second) exBusy) as [H1 H2].
  - reflexivity.
  - discriminate.
  - unfold exBusy, notSettled. repeat constructor.
  - split; [apply H1; vm_compute; reflexivity|apply H2; vm_compute; reflexivity].
Defined.

(** ** A composition tells a card's engines apart. *)

Definition freeOf (c : ascii) (s : string) : bool :=
  forallb (fun x => negb (Ascii.eqb x c)) (String.list_ascii_of_string s).

Lemma freeOf_append c a b : freeOf c (String.append a b) = freeOf c a && freeOf c b.
Proof. unfold freeOf. induction a as [|x a IH]; simpl; [done|]. by rewrite IH, andb_assoc. Qed.

Lemma cutAt_at c a b : freeOf c a = true → cutAt c (String.append a (String c b)) = (a, b, true).
Proof.
  unfold freeOf. induction a as [|x a IH]; simpl; [by rewrite Ascii.eqb_refl|].
  intros [Hx Ha]%andb_true_iff. apply negb_true_iff in Hx. by rewrite Hx, IH.
Qed.

Lemma cutAt_none c a : freeOf c a = true → cutAt c a = (a, "", false).
Proof.
  unfold freeOf. induction a as [|x a IH]; simpl; [done|].
  intros [Hx Ha]%andb_true_iff. apply negb_true_iff in Hx. by rewrite Hx, IH.
Qed.

Lemma append_split c a b a' b' :
  freeOf c a = true → freeOf c a' = true →
  String.append a (String c b) = String.append a' (String c b') → a = a' ∧ b = b'.
Proof.
  intros Ha Ha' He. apply (f_equal (cutAt c)) in He. rewrite !cutAt_at in He by done. by simplify_eq.
Qed.

Lemma free_not_joined c a b x :
  freeOf c a = true → freeOf c b = true → a ≠ String.append b (String c x).
Proof.
  intros Ha Hb He. pose proof (cutAt_none c a Ha) as Hn. rewrite He, (cutAt_at c b x Hb) in Hn. done.
Qed.

Lemma joinWith_inj l k :
  Forall (fun s => freeOf "," s = true ∧ s ≠ "") l → Forall (fun s => freeOf "," s = true ∧ s ≠ "") k →
  joinWith "," l = joinWith "," k → l = k.
Proof.
  revert k. induction l as [|a l IH]; intros [|b k] Hl Hk He.
  - done.
  - apply Forall_cons in Hk as [[_ Hb] _]. destruct k; simpl in He; [by subst|]. by destruct b.
  - apply Forall_cons in Hl as [[_ Ha] _]. destruct l; simpl in He; [by subst|]. by destruct a.
  - apply Forall_cons in Hl as [[Ha Hna] Hl], Hk as [[Hb Hnb] Hk].
    destruct l as [|a' l], k as [|b' k]; simpl in He.
    + by subst.
    + exfalso. by eapply (free_not_joined "," a b).
    + exfalso. by eapply (free_not_joined "," b a).
    + apply append_split in He as [-> He]; [|done..]. f_equal. by apply IH.
Qed.

(** A character that no printed integer has. *)
Definition notInNumbers (c : ascii) : bool := freeOf c "0123456789-".

Lemma pretty_N_go_free c x s : notInNumbers c = true → freeOf c s = true → freeOf c (pretty_N_go x s) = true.
Proof.
  intros Hc. revert s. induction x as [x IH] using (well_founded_induction N.lt_wf_0). intros s Hs.
  destruct (decide (x = 0%N)) as [->|Hx]; [by rewrite pretty_N_go_0|].
  rewrite pretty_N_go_step by lia. apply IH; [by apply N.div_lt; lia|].
  change (negb (Ascii.eqb (pretty_N_char (x mod 10)) c) && freeOf c s = true). rewrite Hs, andb_true_r.
  clear IH Hx Hs. unfold notInNumbers, freeOf in Hc. cbn [String.list_ascii_of_string forallb] in Hc.
  apply negb_true_iff. repeat (apply andb_true_iff in Hc as [?%negb_true_iff Hc]).
  unfold pretty_N_char. by repeat case_match.
Qed.

Lemma pretty_Z_free c (z : Z) : notInNumbers c = true → freeOf c (pretty z) = true.
Proof.
  intros Hc. assert (∀ n : N, freeOf c (pretty n) = true) as HN.
  { intros n. unfold pretty, pretty_N. case_decide; [|by apply pretty_N_go_free].
    clear -Hc. unfold notInNumbers, freeOf in *. simpl in *. by apply andb_true_iff in Hc as [-> _]. }
  destruct z as [|p|p].
  - exact (HN 0%N).
  - exact (HN (Npos p)).
  - change (pretty (Z.neg p)) with (String.append "-" (pretty (Npos p))). rewrite freeOf_append, HN, andb_true_r.
    clear -Hc. unfold notInNumbers, freeOf in *. simpl in *.
    repeat (apply andb_true_iff in Hc as [? Hc]). by rewrite andb_true_r.
Qed.

Lemma fmap_eq_inj {A B} (f : A → B) (l k : list A) :
  (∀ a b, a ∈ l → b ∈ k → f a = f b → a = b) → f <$> l = f <$> k → l = k.
Proof.
  revert k. induction l as [|a l IH]; intros [|b k] Hf; csimpl; try done. intros [= Hab Hlk]. f_equal.
  - apply Hf; [by left|by left|done].
  - apply IH; [|done]. intros x y Hx Hy. apply Hf; by right.
Qed.

Lemma fmap_perm_inj {A B} (f : A → B) (l k : list A) :
  (∀ a b, a ∈ l → b ∈ k → f a = f b → a = b) → f <$> l ≡ₚ f <$> k → l ≡ₚ k.
Proof.
  intros Hf (l' & He & Hp)%Permutation_map_inv. rewrite Hp. apply reflexive_eq, (fmap_eq_inj f); [|done].
  intros a b Ha Hb. apply Hf; [done|by rewrite Hp].
Qed.

Section CompositionFacts.
Context `{K8s}.

(** What a division depends on, of each instance recorded on a card. *)
Definition describe (claims : list ModelClaim) (pod : Pod) : list (string * string * option (Z * Z)) :=
  (fun ci => (mc_Name ci.1, entryState (inst_Phase ci.2) (wakeAsked (Some pod) (mc_Name ci.1)),
     (fun d => (q_Value (MaximumFootprint d), q_Value (KVFloor d))) <$> spec_PerGPU ci.1))
    <$> instancesOn claims pod.

(** An object name: no commas, no slashes. *)
Definition cleanName (claim : ModelClaim) : bool := freeOf "," (mc_Name claim) && freeOf "/" (mc_Name claim).

Definition printEntry (d : string * string * option (Z * Z)) : string :=
  String.append d.1.1 (String.append "/" (String.append d.1.2 (String.append "/"
    match d.2 with
    | None => "undeclared"
    | Some (m, k) => String.append (pretty m) (String.append "+" (pretty k))
    end))).

Definition wellNamed (d : string * string * option (Z * Z)) : Prop :=
  freeOf "," d.1.1 = true ∧ freeOf "/" d.1.1 = true ∧ freeOf "," d.1.2 = true ∧ freeOf "/" d.1.2 = true.

Lemma printEntry_ok d : wellNamed d → freeOf "," (printEntry d) = true ∧ printEntry d ≠ "".
Proof.
  destruct d as [[n s] o]. intros (Hn & _ & Hs & _). cbn [fst snd] in *. unfold printEntry. cbn [fst snd].
  split; [|by destruct n]. rewrite !freeOf_append, Hn, Hs.
  destruct o as [[m k]|]; [rewrite !freeOf_append, !pretty_Z_free|]; done.
Qed.

Lemma printEntry_inj d d' : wellNamed d → wellNamed d' → printEntry d = printEntry d' → d = d'.
Proof.
  destruct d as [[n s] o], d' as [[n' s'] o'].
  intros (_ & Hn & _ & Hs) (_ & Hn' & _ & Hs') He. simpl in *. unfold printEntry in He. simpl in He.
  apply append_split in He as [-> He]; [|done..]. apply append_split in He as [-> He]; [|done..].
  do 2 f_equal. destruct o as [[m k]|], o' as [[m' k']|].
  - apply append_split in He as [?%pretty_Z_inj ?%pretty_Z_inj]; [|by apply pretty_Z_free..]. by subst.
  - exfalso. by eapply (free_not_joined "+" "undeclared" (pretty m)); [..|apply pretty_Z_free|symmetry].
  - exfalso. by eapply (free_not_joined "+" "undeclared" (pretty m')); [..|apply pretty_Z_free|].
  - done.
Qed.

Lemma describe_wellNamed claims pod :
  forallb cleanName claims = true → Forall wellNamed (describe claims pod).
Proof.
  intros Hc. apply Forall_fmap, Forall_forall. intros [claim i] Hin. unfold instancesOn in Hin.
  apply list_elem_of_bind in Hin as (c & Hin & Hc').
  apply list_elem_of_fmap in Hin as (j & [= -> ->] & _).
  apply list_elem_of_In in Hc'. rewrite forallb_forall in Hc. specialize (Hc _ Hc').
  apply andb_true_iff in Hc as [H1 H2]. split; [done|]. split; [done|].
  cbn [fst snd]. unfold entryState. set (asked := wakeAsked _ _).
  by destruct (inst_Phase j), asked.
Qed.

Lemma cardComposition_prints claims pod :
  cardComposition (Some claims) pod [] = joinWith "," (sortBy strless (printEntry <$> describe claims pod)).
Proof.
  unfold cardComposition, describe. simpl. do 2 f_equal. rewrite <- list_fmap_compose.
  apply list_fmap_ext. intros _ [claim i] _. unfold compositionEntry, printEntry, entryDeclared. simpl.
  by destruct (spec_PerGPU claim).
Qed.
End CompositionFacts.

(** A composition says what a division depends on, and nothing else.  Two
    listings describe a card by the same string exactly when the card has the
    same engines by claim, state, and declared figures, in whatever order the
    listings give them. *)
Theorem cardComposition_tells_engines `{K8s} claims claims' pod pod' :
  forallb cleanName claims = true → forallb cleanName claims' = true →
  cardComposition (Some claims) pod [] = cardComposition (Some claims') pod' [] ↔
  describe claims pod ≡ₚ describe claims' pod'.
Proof.
  intros Hc Hc'. pose proof (describe_wellNamed claims pod Hc) as Hw.
  pose proof (describe_wellNamed claims' pod' Hc') as Hw'. rewrite !cardComposition_prints. split.
  - intros He. apply joinWith_inj in He;
      [|rewrite sortBy_perm; apply Forall_fmap; eapply Forall_impl; [done|]; apply printEntry_ok..].
    assert (printEntry <$> describe claims pod ≡ₚ printEntry <$> describe claims' pod') as Hp
      by (rewrite <- (sortBy_perm strless (printEntry <$> describe claims pod)), He; apply sortBy_perm).
    apply (fmap_perm_inj printEntry); [|done]. rewrite Forall_forall in Hw, Hw'.
    intros d d' Hd Hd'. apply printEntry_inj; [by apply Hw|by apply Hw'].
  - intros Hp. apply (f_equal (joinWith ",")), (sortBy_unique strless).
    + by apply fmap_Permutation.
    + intros a b _ _. apply strless_total.
Qed.

Section Witness.
Local Existing Instance NanoK8s.

Lemma cardComposition_tells_engines_witness :
  cardComposition (Some [exClaim "beta" ModelClaimSleeping; exClaim "alpha" ModelClaimActive]) exPod [] =
  cardComposition (Some [exClaim "alpha" ModelClaimActive; exClaim "beta" ModelClaimSleeping]) exPod [] ∧
  cardComposition (Some [exClaim "beta" ModelClaimSleeping]) exPod [] ≠ "".
Proof.
  split; [|vm_compute; discriminate].
  apply (cardComposition_tells_engines
    [exClaim "beta" ModelClaimSleeping; exClaim "alpha" ModelClaimActive]
    [exClaim "alpha" ModelClaimActive; exClaim "beta" ModelClaimSleeping] exPod exPod).
  - vm_compute. reflexivity.
  - vm_compute. reflexivity.
  - vm_compute. constructor.
Defined.
End Witness.

(** ** A pass is a run of the state's operations. *)

Definition opCard (op : divisionOp) : NamespacedName :=
  match op with
  | AskDue c _ _ | NoteLeftAlone c _ _ | NoteOwed c _ | NoteDivided c _ _ | NoteUndivided c _
  | NoteAccounted c | NoteFailed c _ => c
  end.

(** The card was asked about, for these engines, and is to be divided. *)
Definition told (s : cardDivisionState) (asks : list divisionOp) (card : NamespacedName) (composition : string)
  : Prop :=
  ∃ pre now post, asks = pre ++ AskDue card composition now :: post ∧
    (divisionDue (runDivision s pre) card composition now).1.2 = true.

Lemma told_cons s op asks card composition :
  told (applyDivision s op) asks card composition → told s (op :: asks) card composition.
Proof. intros (pre & now & post & -> & Hd). by exists (op :: pre), now, post. Qed.

Section PassFacts.
Context `{ClusterReads W}.

(** What a pass may note: a card it was told to divide, under the name its
    engines have in the listing. *)
Definition noteOf (claims : list ModelClaim) (s : cardDivisionState) (asks : list divisionOp)
    (candidates : list Pod) (op : divisionOp) : Prop :=
  ∃ pod, pod ∈ candidates ∧ opCard op = cardOf pod ∧
    told s asks (cardOf pod) (cardComposition (Some claims) pod []) ∧
    match op with
    | AskDue _ _ _ => False
    | NoteDivided _ c _ | NoteLeftAlone _ c _ => c = cardComposition (Some claims) pod []
    | _ => True
    end.

Definition occupied (claims : list ModelClaim) (pods : list Pod) : list Pod :=
  List.filter (fun pod => negb (bool_decide (cardComposition (Some claims) pod [] = ""))) pods.

(** One question for each card that has engines recorded, and no other. *)
Definition asksOf (claims : list ModelClaim) (candidates : list Pod) (asks : list divisionOp) : Prop :=
  Forall2 (fun pod op => ∃ now, op = AskDue (cardOf pod) (cardComposition (Some claims) pod []) now)
    (occupied claims candidates) asks.

Lemma collectDue_runs claims s pods w :
  holds (fun _ => True) (collectDue claims s pods) w (fun r _ =>
    ∃ asks, r.1 = runDivision s asks ∧ asksOf claims pods asks ∧
      ∀ d, d ∈ r.2 → due_pod d ∈ pods ∧ due_composition d = cardComposition (Some claims) (due_pod d) [] ∧
        told s asks (cardOf (due_pod d)) (due_composition d)).
Proof.
  revert s w. induction pods as [|pod pods IH]; intros s w; cbn [collectDue].
  { apply holds_ret. exists []. split; [done|]. split; [constructor|]. simpl. set_solver. }
  unfold asksOf, occupied. cbn [List.filter]. case_bool_decide as Ec; simpl.
  { eapply holds_mono; [apply IH|done|]. intros [s' ds] _ (asks & -> & Ha & Hd). exists asks.
    split; [done|]. split; [done|]. intros d Hdd. destruct (Hd d Hdd) as (? & ? & ?). set_solver. }
  apply holds_bind, holds_call; [done|]. set (now := (Now w).2). generalize (Now w).1. intros w1.
  destruct (divisionDue s (cardOf pod) (cardComposition (Some claims) pod []) now) as [[s1 divide] changed] eqn:Ed.
  apply holds_bind. eapply holds_mono; [apply (IH s1)|done|].
  intros [s' ds] w2 (asks & -> & Ha & Hd). apply holds_ret. cbn [fst snd] in *.
  assert (applyDivision s (AskDue (cardOf pod) (cardComposition (Some claims) pod []) now) = s1) as Hs1
    by (simpl; by rewrite Ed).
  exists (AskDue (cardOf pod) (cardComposition (Some claims) pod []) now :: asks).
  split; [simpl; by rewrite Ed|]. split; [constructor; [by eexists|done]|].
  assert (∀ d, d ∈ ds → due_pod d ∈ pod :: pods ∧
    due_composition d = cardComposition (Some claims) (due_pod d) [] ∧
    told s (AskDue (cardOf pod) (cardComposition (Some claims) pod []) now :: asks)
      (cardOf (due_pod d)) (due_composition d)) as Hrest.
  { intros d Hdd. destruct (Hd d Hdd) as (? & ? & ?). split; [by right|]. split; [done|].
    apply told_cons. by rewrite Hs1. }
  destruct divide; [|done]. intros d [->|Hdd]%elem_of_cons; [|by apply Hrest]. simpl.
  split; [by left|]. split; [done|]. exists [], now, asks. split; [done|].
  change (runDivision s []) with s. by rewrite Ed.
Qed.

Lemma divideOne_runs claims without s0 asks candidates s held rr card w :
  due_pod card ∈ candidates → due_composition card = cardComposition (Some claims) (due_pod card) [] →
  told s0 asks (cardOf (due_pod card)) (due_composition card) →
  holds (fun _ => True) (divideOne claims without s held rr card) w (fun r _ =>
    ∃ notes, r.1.1 = runDivision s notes ∧ Forall (noteOf claims s0 asks candidates) notes).
Proof.
  intros Hp Hc Ht. rewrite Hc in Ht.
  assert (∀ op, opCard op = cardOf (due_pod card) →
    match op with AskDue _ _ _ => False
    | NoteDivided _ c _ | NoteLeftAlone _ c _ => c = cardComposition (Some claims) (due_pod card) []
    | _ => True end → noteOf claims s0 asks candidates op) as Hnote
    by (intros op Ho Hm; exists (due_pod card); done).
  unfold divideOne. apply holds_bind, holds_anyhow. intros r w1.
  apply holds_bind, holds_call; [done|]. destruct (takeFrom _ _ _ _ _) as [held' ledgers].
  set (ledger := ledgerOf ledgers _). destruct (_ || _).
  { apply holds_ret. by exists []. }
  destruct (negb (judgeable ledger)).
  { apply holds_ret. exists [NoteUndivided (cardOf (due_pod card)) (blocked ledger)].
    split; [done|]. by apply Forall_singleton, Hnote. }
  apply holds_bind, holds_anyhow. intros [rr' outcome] w2. apply holds_bind. cbn [fst snd].
  set (s1 := accountedFor s _). apply (holds_mono (fun _ => True) (fun _ => True) _ _ (fun s' _ => ∃ notes,
    s' = runDivision s1 notes ∧ Forall (noteOf claims s0 asks candidates) notes)); [|done|].
  - unfold noteArrangement. destruct outcome as [ls an|ls an e|ls owed|e].
    + apply holds_bind, holds_call; [done|]. apply holds_ret.
      exists [NoteDivided (cardOf (due_pod card)) (due_composition card) (Now w2).2].
      split; [done|]. by apply Forall_singleton, Hnote.
    + apply holds_bind, holds_call; [done|]. apply holds_ret.
      exists [NoteOwed (cardOf (due_pod card)) (owedBy ledger); NoteFailed (cardOf (due_pod card)) (Now w2).2].
      split; [done|]. by repeat constructor; apply Hnote.
    + apply holds_ret. exists [NoteLeftAlone (cardOf (due_pod card)) (due_composition card) owed].
      split; [done|]. by apply Forall_singleton, Hnote.
    + apply holds_bind, holds_call; [done|]. apply holds_ret.
      exists [NoteOwed (cardOf (due_pod card)) (owedBy ledger); NoteFailed (cardOf (due_pod card)) (Now w2).2].
      split; [done|]. by repeat constructor; apply Hnote.
  - intros s' w3 (notes & -> & HF). apply holds_ret.
    exists (NoteAccounted (cardOf (due_pod card)) :: notes). split; [done|]. constructor; [by apply Hnote|done].
Qed.

Lemma divideDue_runs claims without s0 asks candidates s held rr cards w :
  (∀ d, d ∈ cards → due_pod d ∈ candidates ∧ due_composition d = cardComposition (Some claims) (due_pod d) [] ∧
     told s0 asks (cardOf (due_pod d)) (due_composition d)) →
  holds (fun _ => True) (divideDue claims without s held rr cards) w (fun r _ =>
    ∃ notes, r.1.1 = runDivision s notes ∧ Forall (noteOf claims s0 asks candidates) notes).
Proof.
  revert s held rr w. induction cards as [|card cards IH]; intros s held rr w Hd; simpl.
  { apply holds_ret. by exists []. }
  destruct (Hd card) as (Hp & Hc & Ht); [by left|]. apply holds_bind.
  eapply holds_mono; [by apply divideOne_runs|done|]. intros [[s1 held1] rr1] w1 (notes & -> & HF).
  eapply holds_mono; [apply IH; intros d Hdd; apply Hd; by right|done|].
  intros [[s2 held2] rr2] w2 (notes2 & -> & HF2). exists (notes ++ notes2). simpl.
  unfold runDivision. rewrite foldl_app. split; [done|]. by apply Forall_app.
Qed.
End PassFacts.


Section PassWitness.
Local Existing Instance NanoK8s.
Local Existing Instance fakeCluster.

(** The cluster of the other witnesses, which lists its claims and has a clock
    that stands still. *)
Definition fakeReads : ClusterReads (W := fakeWorld) := {|
  ListClaims namespace w := (w, Ok (snd <$> map_to_list (fw_claims w)));
  ListCachedClaims namespace w := (w, Ok (snd <$> map_to_list (fw_claims w)));
  GetReplicaSet name w := (w, Err ApiFailed);
  GetDeployment name w := (w, Err ApiFailed);
  Now w := (w, 100 * Second);
|}.
Local Existing Instance fakeReads.

End PassWitness.
