(* ===== verification/MakeRoom.v ===== *)
(** * Whom to put to sleep to make room ([pkg/controller/modelclaim/wake.go],
    [makeroom.go] and [preemption.go]).

    When no card has room for a model, the controller looks for engines that
    serve no request and would give enough memory back if they slept.  Here are
    the choices it makes from one reading of the pool: which engines are idle
    ([idleEnginesOf]) or may be preempted ([victimsOf]), how many of them have
    to sleep on a card ([planSleeps], [planSleepPreemptionOnPod]), and which
    card is best ([betterPlan], [betterSleepPreemptionPlan]). *)

From S2P Require Import Prelude Api Claims Ledger KVPlan Placement Reservations PoolPolicy.

Abbreviation footprintsByClaim := (gmap NamespacedName claimFootprint).

Section MakeRoom.
Context `{K8s}.

(** ** Idle engines. *)

Record idleEngine : Type := MkIdle {
  idle_claim : ModelClaim;
  idle_model : RuntimeSnapshotModel;
  idle_port : Z;
  idle_since : Time;
}.

(** An engine that serves, whose requests could be read, and that has none. *)
Definition requestIdle (model : RuntimeSnapshotModel) : bool :=
  servesNow model && model.(sm_RequestMetricsObserved) &&
  (model.(sm_RequestsRunning) <=? 0) && (model.(sm_RequestsWaiting) <=? 0).

(** Since when: the latest of the last activity seen, the engine's last change
    of phase, and the claim's last routing. *)
Definition idleSinceOf (seen : Time) (model : RuntimeSnapshotModel) (claim : ModelClaim) : Time :=
  let since := match model.(sm_LastTransition) with
               | Some t => if seen <? t then t else seen
               | None => seen
               end in
  if since <? routedSince claim then routedSince claim else since.

(** The engine of one listed model, when it may sleep for [forClaim].  [now] is
    the clock as it is read for this model. *)
Definition idleEngineOf (manager : poolPolicyManager) (claims : list ModelClaim) (forClaim : ModelClaim)
    (pod : Pod) (idleFor : Duration) (now : Time) (model : RuntimeSnapshotModel) : option idleEngine :=
  if negb (requestIdle model) then None
  else
    claim ← claimForRuntimeSnapshot claims model;
    if bool_decide (claim.(mc_Name) = forClaim.(mc_Name)) || negb (isVLLMModel claim) then None
    else
      port ← activeClaimInstancePort claim pod.(pod_Name);
      seen ← lastActive manager (poolActivityKey pod model);
      let since := idleSinceOf seen model claim in
      if timeSub now since <? idleFor then None
      else Some (MkIdle claim model port since).

Definition idleLess (a b : idleEngine) : bool :=
  if negb (a.(idle_since) =? b.(idle_since)) then a.(idle_since) <? b.(idle_since)
  else strless a.(idle_claim).(mc_Name) b.(idle_claim).(mc_Name).

(** [idleEngines], from the reading and the listing it makes: [clock i] is the
    time when the [i]th model is looked at. *)
Definition idleEnginesOf (manager : poolPolicyManager) (claims : list ModelClaim) (forClaim : ModelClaim)
    (pod : Pod) (idleFor : Duration) (clock : nat → Time) (snapshot : RuntimeSnapshot) : list idleEngine :=
  sortBy idleLess
    (omap (fun im => idleEngineOf manager claims forClaim pod idleFor (clock im.1) im.2)
       (imap pair snapshot.(snap_Models))).

Definition idleEnginesAtOrBelowPriority (idle : list idleEngine) (priority : Z) : list idleEngine :=
  List.filter (fun engine => engine.(idle_claim).(spec_Priority) <=? priority) idle.

(** ** How many have to sleep. *)

(** The charge of each claim's engine: [charged] holds the last one. *)
Definition chargedTo (ledger : podLedger) (claimName : string) : option engineOnPod :=
  foldl (fun found engine => if bool_decide (engine.(eng_claimName) = claimName) then Some engine else found)
    None ledger.(engines).

Section Plans.
Context (footprints : footprintsByClaim) (ledger : podLedger).

(** What the sleep of a charged engine gives back, by its floor and by what it
    holds, when it is taken to hold [asleep] then. *)
Definition givenBack (engine : engineOnPod) (asleep : Z) : Z * Z :=
  (minimumReserveBytes engine - asleep, heldBytes engine - asleep).

Fixpoint sleepersMakeRoom (floors holding : Z) (sleepers : list idleEngine) : bool :=
  match sleepers with
  | [] => false
  | sleeper :: rest =>
      match chargedTo ledger sleeper.(idle_claim).(mc_Name) with
      | None => sleepersMakeRoom floors holding rest
      | Some engine =>
          let '(f, h) := givenBack engine (default 0 (seenAsleep footprints sleeper.(idle_claim))) in
          if (0 <=? floors + f) && (0 <=? holding + h) then true
          else sleepersMakeRoom (floors + f) (holding + h) rest
      end
  end.

Definition sleepsMakeRoom (sleepers : list idleEngine) (need : Z) : bool :=
  let floors := maximumRoomBytes ledger - need in
  let holding := heldRoomBytes ledger - need in
  if (0 <=? floors) && (0 <=? holding) then true else sleepersMakeRoom floors holding sleepers.

(** The sleeps of a [roomPlan], in order, and whether the plan is known; [None]
    is no plan. *)
Fixpoint planSleeps (seat floors holding : Z) (idle : list idleEngine) : option (list idleEngine * bool) :=
  match idle with
  | [] => None
  | sleeper :: rest =>
      match chargedTo ledger sleeper.(idle_claim).(mc_Name) with
      | None => planSleeps seat floors holding rest
      | Some engine =>
          match seenAsleep footprints sleeper.(idle_claim) with
          | None => Some ([sleeper], false)
          | Some asleep =>
              let '(f, h) := givenBack engine asleep in
              if (seat <=? floors + f) && (seat <=? holding + h) then Some ([sleeper], true)
              else '(sleeps, known) ← planSleeps seat (floors + f) (holding + h) rest;
                   Some (sleeper :: sleeps, known)
          end
      end
  end.
End Plans.

Record roomPlan : Type := MkRoomPlan {
  plan_pod : Pod;
  plan_sleeps : list idleEngine;
  plan_known : bool;
  plan_room : Z;
}.

(** [planRoom] on a card where room can be made, from the idle engines there. *)
Definition planRoomWith (footprints : footprintsByClaim) (pod : Pod) (ledger : podLedger) (seat : Z)
    (idle : list idleEngine) : option roomPlan :=
  if negb (sleepsMakeRoom footprints ledger idle seat) then None
  else '(sleeps, known) ← planSleeps footprints ledger seat (maximumRoomBytes ledger) (heldRoomBytes ledger) idle;
       Some (MkRoomPlan pod sleeps known (heldRoomBytes ledger)).

Definition firstIdleSince (sleeps : list idleEngine) : Time :=
  match sleeps with sleeper :: _ => sleeper.(idle_since) | [] => zeroTime end.

(** Plans have at least one sleep, so the first is there. *)
Definition betterPlan (plan than : roomPlan) : bool :=
  if negb (Bool.eqb plan.(plan_known) than.(plan_known)) then plan.(plan_known)
  else if plan.(plan_known) && negb (length plan.(plan_sleeps) =? length than.(plan_sleeps))%nat
  then (length plan.(plan_sleeps) <? length than.(plan_sleeps))%nat
  else if negb plan.(plan_known) && negb (plan.(plan_room) =? than.(plan_room))
  then than.(plan_room) <? plan.(plan_room)
  else firstIdleSince plan.(plan_sleeps) <? firstIdleSince than.(plan_sleeps).

(** The choice over the pods of a pool. *)
Definition bestRoomPlan (plans : list roomPlan) : option roomPlan := foldl (keepBest betterPlan) None plans.

(** ** Preemption. *)

Record sleepPreemptionVictim : Type := MkVictim {
  vic_idle : idleEngine;
  vic_priority : Z;
}.

(** A listed model whose engine [preemptor] may put to sleep. *)
Definition victimOf (manager : poolPolicyManager) (claims : list ModelClaim) (preemptor : ModelClaim)
    (pod : Pod) (model : RuntimeSnapshotModel) : option sleepPreemptionVictim :=
  if negb (requestIdle model) then None
  else
    claim ← claimForRuntimeSnapshot claims model;
    if negb (bool_decide (claim.(mc_Namespace) = preemptor.(mc_Namespace))) ||
       bool_decide (claim.(mc_Name) = preemptor.(mc_Name)) ||
       bool_decide (is_Some claim.(mc_DeletionTimestamp)) || negb (isVLLMModel claim) ||
       (preemptor.(spec_Priority) <=? claim.(spec_Priority)) then None
    else
      port ← activeClaimInstancePort claim pod.(pod_Name);
      seen ← lastActive manager (poolActivityKey pod model);
      Some (MkVictim (MkIdle claim model port (idleSinceOf seen model claim)) claim.(spec_Priority)).

Definition victimLess (a b : sleepPreemptionVictim) : bool :=
  if negb (a.(vic_priority) =? b.(vic_priority)) then a.(vic_priority) <? b.(vic_priority)
  else idleLess a.(vic_idle) b.(vic_idle).

Definition victimsOf (manager : poolPolicyManager) (claims : list ModelClaim) (preemptor : ModelClaim)
    (pod : Pod) (snapshot : RuntimeSnapshot) : list sleepPreemptionVictim :=
  sortBy victimLess (omap (victimOf manager claims preemptor pod) snapshot.(snap_Models)).

Definition preemptionVictimsCanMakeRoom (footprints : footprintsByClaim) (ledger : podLedger)
    (victims : list sleepPreemptionVictim) (seat : Z) : bool :=
  sleepsMakeRoom footprints ledger (vic_idle <$> victims) seat.

Record sleepPreemptionPlan : Type := MkPreemption {
  pre_pod : Pod;
  pre_victims : list sleepPreemptionVictim;
  pre_estimatedVictims : list sleepPreemptionVictim;
  pre_known : bool;
  pre_artifactCached : bool;
}.

Definition victimsForComparison (p : sleepPreemptionPlan) : list sleepPreemptionVictim :=
  match p.(pre_estimatedVictims) with [] => p.(pre_victims) | estimated => estimated end.

Fixpoint planVictims (footprints : footprintsByClaim) (ledger : podLedger) (seat floors holding : Z)
    (uncertain : bool) (taken estimated victims : list sleepPreemptionVictim)
  : option (list sleepPreemptionVictim * list sleepPreemptionVictim * bool) :=
  match victims with
  | [] => None
  | victim :: rest =>
      match chargedTo ledger victim.(vic_idle).(idle_claim).(mc_Name) with
      | None => planVictims footprints ledger seat floors holding uncertain taken estimated rest
      | Some engine =>
          let estimated := estimated ++ [victim] in
          let taken := if uncertain then taken else taken ++ [victim] in
          let '(asleep, uncertain) := match seenAsleep footprints victim.(vic_idle).(idle_claim) with
                                      | Some asleep => (asleep, uncertain)
                                      | None => (0, true)
                                      end in
          let '(f, h) := givenBack engine asleep in
          if (seat <=? floors + f) && (seat <=? holding + h) then Some (taken, estimated, negb uncertain)
          else planVictims footprints ledger seat (floors + f) (holding + h) uncertain taken estimated rest
      end
  end.

Definition planSleepPreemptionOnPod (footprints : footprintsByClaim) (pod : Pod) (ledger : podLedger)
    (victims : list sleepPreemptionVictim) (seat : Z) : option sleepPreemptionPlan :=
  '(taken, estimated, known) ←
    planVictims footprints ledger seat (maximumRoomBytes ledger) (heldRoomBytes ledger) false [] [] victims;
  Some (MkPreemption pod taken estimated known false).

Definition sleepPreemptionPriority (victims : list sleepPreemptionVictim) : Z * Z :=
  match victims with
  | [] => (0, 0)
  | v :: rest => (foldl (fun maximum x => if maximum <? x.(vic_priority) then x.(vic_priority) else maximum)
                    v.(vic_priority) rest,
                  sumZ vic_priority victims)
  end.

Fixpoint namesBefore (a b : list sleepPreemptionVictim) : bool :=
  match a, b with
  | x :: a', y :: b' =>
      let nx := x.(vic_idle).(idle_claim).(mc_Name) in
      let ny := y.(vic_idle).(idle_claim).(mc_Name) in
      if negb (bool_decide (nx = ny)) then strless nx ny else namesBefore a' b'
  | _, _ => false
  end.

Definition firstVictimSince (victims : list sleepPreemptionVictim) : Time :=
  firstIdleSince (vic_idle <$> victims).

Definition betterSleepPreemptionPlan (plan than : sleepPreemptionPlan) : bool :=
  let planVictims := victimsForComparison plan in
  let thanVictims := victimsForComparison than in
  let '(planMax, planSum) := sleepPreemptionPriority planVictims in
  let '(thanMax, thanSum) := sleepPreemptionPriority thanVictims in
  if negb (planMax =? thanMax) then planMax <? thanMax
  else if negb (planSum =? thanSum) then planSum <? thanSum
  else if negb (Bool.eqb plan.(pre_known) than.(pre_known)) then plan.(pre_known)
  else if negb (length planVictims =? length thanVictims)%nat
  then (length planVictims <? length thanVictims)%nat
  else if negb (firstVictimSince planVictims =? firstVictimSince thanVictims)
  then firstVictimSince planVictims <? firstVictimSince thanVictims
  else if negb (Bool.eqb plan.(pre_artifactCached) than.(pre_artifactCached)) then plan.(pre_artifactCached)
  else if negb (bool_decide (plan.(pre_pod).(pod_Name) = than.(pre_pod).(pod_Name)))
  then strless plan.(pre_pod).(pod_Name) than.(pre_pod).(pod_Name)
  else namesBefore planVictims thanVictims.

Definition bestPreemption (plans : list sleepPreemptionPlan) : option sleepPreemptionPlan :=
  foldl (keepBest betterSleepPreemptionPlan) None plans.
End MakeRoom.

(** ** A plan makes room, and no sleep of it is spare. *)

Section PlanFacts.
Context `{K8s} (fp : footprintsByClaim) (ledger : podLedger).

(** What the sleep of an engine gives back by the figures known of it; an
    engine not seen asleep is counted at its whole charge. *)
Definition backOf (sleeper : idleEngine) : Z * Z :=
  match chargedTo ledger (mc_Name (idle_claim sleeper)) with
  | Some engine => givenBack engine (default 0 (seenAsleep fp (idle_claim sleeper)))
  | None => (0, 0)
  end.

Definition isCharged (sleeper : idleEngine) : bool :=
  bool_decide (is_Some (chargedTo ledger (mc_Name (idle_claim sleeper)))).

Definition seenBefore (sleeper : idleEngine) : Prop := is_Some (seenAsleep fp (idle_claim sleeper)).

(** Both checks of placement, once the engines of [sleepers] sleep. *)
Definition fitsAfter (seat floors holding : Z) (sleepers : list idleEngine) : bool :=
  (seat <=? floors + sumZ (fun s => (backOf s).1) sleepers) &&
  (seat <=? holding + sumZ (fun s => (backOf s).2) sleepers).

Lemma fitsAfter_cons seat floors holding s l :
  fitsAfter seat floors holding (s :: l) = fitsAfter seat (floors + (backOf s).1) (holding + (backOf s).2) l.
Proof. unfold fitsAfter. simpl. by rewrite !Z.add_assoc. Qed.

(** The shortest prefix of [l] after which the seat fits. *)
Definition shortest (seat floors holding : Z) (l sleeps : list idleEngine) : Prop :=
  ∃ rest, l = sleeps ++ rest ∧ sleeps ≠ [] ∧
    ∀ pre post, sleeps = pre ++ post → pre ≠ [] → post ≠ [] → fitsAfter seat floors holding pre = false.

Lemma shortest_one seat floors holding s l : shortest seat floors holding (s :: l) [s].
Proof.
  exists l. split; [done|]. split; [done|]. intros [|x pre] post Heq; [done|].
  injection Heq as <- Heq. symmetry in Heq. apply app_eq_nil in Heq as [-> ->]. done.
Qed.

Lemma shortest_cons seat floors holding s l sleeps :
  fitsAfter seat floors holding [s] = false →
  shortest seat (floors + (backOf s).1) (holding + (backOf s).2) l sleeps →
  shortest seat floors holding (s :: l) (s :: sleeps).
Proof.
  intros Hs (rest & -> & Hne & Hmin). exists rest. split; [done|]. split; [done|].
  intros [|x pre] post Heq; [done|]. injection Heq as <- Heq. intros _ Hpost. destruct pre as [|y pre]; [done|].
  rewrite fitsAfter_cons. by apply (Hmin (y :: pre) post).
Qed.

Lemma fitsAfter_one seat floors holding s :
  fitsAfter seat floors holding [s] = (seat <=? floors + (backOf s).1) && (seat <=? holding + (backOf s).2).
Proof. unfold fitsAfter. simpl. by rewrite !Z.add_0_r. Qed.

Lemma planSleeps_spec seat floors holding idle :
  match planSleeps fp ledger seat floors holding idle with
  | None => Forall seenBefore (List.filter isCharged idle) ∧
      ∀ pre post, List.filter isCharged idle = pre ++ post → pre ≠ [] → fitsAfter seat floors holding pre = false
  | Some (sleeps, known) =>
      shortest seat floors holding (List.filter isCharged idle) sleeps ∧
      if known then Forall seenBefore sleeps ∧ fitsAfter seat floors holding sleeps = true
      else ∃ before last, sleeps = before ++ [last] ∧ Forall seenBefore before ∧
             seenAsleep fp (idle_claim last) = None
  end.
Proof.
  revert floors holding. induction idle as [|s idle IH]; intros floors holding; simpl.
  { split; [constructor|]. intros [|x pre] post Heq; [done|]. discriminate Heq. }
  assert (isCharged s = bool_decide (is_Some (chargedTo ledger (mc_Name (idle_claim s))))) as Hch by done.
  destruct (chargedTo ledger (mc_Name (idle_claim s))) as [engine|] eqn:Ec.
  2:{ rewrite bool_decide_eq_false_2 in Hch by apply is_Some_None. rewrite Hch. apply IH. }
  rewrite bool_decide_eq_true_2 in Hch by done. rewrite Hch.
  destruct (seenAsleep fp (idle_claim s)) as [asleep|] eqn:Es.
  2:{ split; [apply shortest_one|]. exists [], s. by rewrite Forall_nil. }
  set (f := minimumReserveBytes engine - asleep). set (h := heldBytes engine - asleep).
  assert (backOf s = (f, h)) as Hb by (unfold backOf; by rewrite Ec, Es).
  assert (seenBefore s) as Hseen by (unfold seenBefore; by rewrite Es).
  pose proof (fitsAfter_one seat floors holding s) as H1.
  rewrite Hb in H1. cbn [fst snd] in H1.
  destruct ((seat <=? floors + f) && (seat <=? holding + h)) eqn:Ef; cbn [mbind option_bind].
  { split; [apply shortest_one|]. by rewrite Forall_singleton. }
  specialize (IH (floors + f) (holding + h)).
  destruct (planSleeps fp ledger seat (floors + f) (holding + h) idle) as [[sleeps known]|]; simpl.
  - destruct IH as [Hshort Hknown]. split; [apply shortest_cons; [done|by rewrite Hb]|]. destruct known.
    + destruct Hknown as [HF Hfit]. split; [by constructor|]. rewrite fitsAfter_cons, Hb. done.
    + destruct Hknown as (before & last & -> & HF & Hl). exists (s :: before), last. split; [done|].
      split; [by constructor|done].
  - destruct IH as [HF Hno]. split; [by constructor|]. intros [|x pre] post Heq; [done|].
    injection Heq as <- Heq. intros _. destruct pre as [|y pre]; [done|].
    rewrite fitsAfter_cons, Hb. by eapply (Hno (y :: pre)).
Qed.

Lemma sleepersMakeRoom_spec floors holding sleepers :
  sleepersMakeRoom fp ledger floors holding sleepers = true ↔
  ∃ pre post, List.filter isCharged sleepers = pre ++ post ∧ pre ≠ [] ∧ fitsAfter 0 floors holding pre = true.
Proof.
  revert floors holding. induction sleepers as [|s sleepers IH]; intros floors holding; cbn [sleepersMakeRoom].
  { split; [done|]. intros ([|x pre] & post & Heq & Hne & _); [done|discriminate Heq]. }
  assert (isCharged s = bool_decide (is_Some (chargedTo ledger (mc_Name (idle_claim s))))) as Hch by done.
  cbn [List.filter]. destruct (chargedTo ledger (mc_Name (idle_claim s))) as [engine|] eqn:Ec.
  2:{ rewrite bool_decide_eq_false_2 in Hch by apply is_Some_None. rewrite Hch. apply IH. }
  rewrite bool_decide_eq_true_2 in Hch by done. rewrite Hch.
  assert (backOf s = givenBack engine (default 0 (seenAsleep fp (idle_claim s)))) as Hb
    by (unfold backOf; by rewrite Ec).
  destruct (givenBack _ _) as [f h]. pose proof (fitsAfter_one 0 floors holding s) as H1.
  rewrite Hb in H1. cbn [fst snd] in H1.
  destruct ((0 <=? floors + f) && (0 <=? holding + h)) eqn:Ef.
  - split; [|done]. intros _. by exists [s], (List.filter isCharged sleepers).
  - rewrite IH. split.
    + intros (pre & post & Heq & Hne & Hfit). exists (s :: pre), post. rewrite Heq. split; [done|].
      split; [done|]. rewrite fitsAfter_cons, Hb. done.
    + intros ([|x pre] & post & Heq & Hne & Hfit); [done|]. injection Heq as <- Heq.
      destruct pre as [|y pre]; [congruence|]. exists (y :: pre), post. split; [done|]. split; [done|].
      by rewrite fitsAfter_cons, Hb in Hfit.
Qed.

Lemma fitsAfter_shift seat a b l : fitsAfter 0 (a - seat) (b - seat) l = fitsAfter seat a b l.
Proof.
  unfold fitsAfter. f_equal; apply eq_true_iff_eq; rewrite !Z.leb_le; lia.
Qed.

(** The card has no seat for the model as it is. *)
Definition noSeatNow (seat : Z) : Prop := maximumRoomBytes ledger < seat ∨ heldRoomBytes ledger < seat.

Lemma sleepsMakeRoom_spec sleepers seat :
  noSeatNow seat →
  sleepsMakeRoom fp ledger sleepers seat = true ↔
  ∃ pre post, List.filter isCharged sleepers = pre ++ post ∧ pre ≠ [] ∧
    fitsAfter seat (maximumRoomBytes ledger) (heldRoomBytes ledger) pre = true.
Proof.
  intros Hno. unfold sleepsMakeRoom.
  destruct (_ && _) eqn:E; [breflect; unfold noSeatNow in Hno; lia|]. rewrite sleepersMakeRoom_spec.
  by setoid_rewrite fitsAfter_shift.
Qed.
End PlanFacts.

(** A plan to make room spares no one for nothing.  The engines it puts to
    sleep are charged on the card and taken in order, the ones idle longest;
    when each of them was seen asleep before, their sleeping leaves the model
    its seat by the floors and by what is held; and no fewer of them would do.
    A plan that is not known ends at the first engine never seen asleep. *)
Theorem planRoom_sleeps_are_needed `{K8s} fp pod ledger seat idle plan :
  planRoomWith fp pod ledger seat idle = Some plan →
  let fits := fitsAfter fp ledger seat (maximumRoomBytes ledger) (heldRoomBytes ledger) in
  (∃ rest, List.filter (isCharged ledger) idle = plan_sleeps plan ++ rest) ∧ plan_sleeps plan ≠ [] ∧
  (∀ pre post, plan_sleeps plan = pre ++ post → pre ≠ [] → post ≠ [] → fits pre = false) ∧
  (if plan_known plan then Forall (seenBefore fp) (plan_sleeps plan) ∧ fits (plan_sleeps plan) = true
   else ∃ before last, plan_sleeps plan = before ++ [last] ∧ Forall (seenBefore fp) before ∧
          seenAsleep fp (idle_claim last) = None).
Proof.
  unfold planRoomWith. destruct (negb _); [done|].
  pose proof (planSleeps_spec fp ledger seat (maximumRoomBytes ledger) (heldRoomBytes ledger) idle) as Hs.
  destruct (planSleeps _ _ _ _ _ idle) as [[sleeps known]|]; simpl; [|done]. intros [= <-]. simpl.
  destruct Hs as [(rest & Hr & Hne & Hmin) Hk]. split; [by exists rest|done].
Qed.

(** A plan is found whenever there is one.  On a card without a seat for
    the model, a plan to make room exists exactly when the idle engines the
    card is charged for, taken in order, could give enough back, counting an
    engine never seen asleep at all it is charged. *)
Theorem planRoom_finds_a_plan `{K8s} fp pod ledger seat idle :
  noSeatNow ledger seat →
  is_Some (planRoomWith fp pod ledger seat idle) ↔
  ∃ pre post, List.filter (isCharged ledger) idle = pre ++ post ∧ pre ≠ [] ∧
    fitsAfter fp ledger seat (maximumRoomBytes ledger) (heldRoomBytes ledger) pre = true.
Proof.
  intros Hno. rewrite <- sleepsMakeRoom_spec by done. unfold planRoomWith.
  destruct (sleepsMakeRoom fp ledger idle seat) eqn:E; simpl; [|by split; [intros []%is_Some_None|]].
  pose proof (planSleeps_spec fp ledger seat (maximumRoomBytes ledger) (heldRoomBytes ledger) idle) as Hs.
  destruct (planSleeps _ _ _ _ _ idle) as [[sleeps known]|]; simpl; [done|]. exfalso.
  apply sleepsMakeRoom_spec in E as (pre & post & Heq & Hne & Hfit); [|done].
  destruct Hs as [_ Hs]. rewrite (Hs pre post Heq Hne) in Hfit. done.
Qed.

(** ** Preemption takes the lowest priorities first. *)

Section VictimFacts.
Context `{K8s} (fp : footprintsByClaim) (ledger : podLedger).

Definition victimCharged (v : sleepPreemptionVictim) : bool := isCharged ledger (vic_idle v).
Definition victimsFit (seat floors holding : Z) (vs : list sleepPreemptionVictim) : bool :=
  fitsAfter fp ledger seat floors holding (vic_idle <$> vs).

(** What the loop over the victims does to its two lists. *)
Record chosen (seat floors holding : Z) (uncertain : bool) (vs tk ch : list sleepPreemptionVictim)
    (known : bool) : Prop := MkChosen {
  ch_prefix : ∃ rest, vs = ch ++ rest;
  ch_some : ch ≠ [];
  ch_fits : victimsFit seat floors holding ch = true;
  ch_least : ∀ pre post, ch = pre ++ post → pre ≠ [] → post ≠ [] → victimsFit seat floors holding pre = false;
  ch_taken : ∃ rest, ch = tk ++ rest;
  ch_first : uncertain = false → tk ≠ [];
  ch_known : known = true → tk = ch ∧ Forall (fun v => seenBefore fp (vic_idle v)) ch;
}.

Lemma chosen_one seat floors holding (uncertain : bool) v vs tk known :
  victimsFit seat floors holding [v] = true → tk = (if uncertain then [] else [v]) →
  (known = true → uncertain = false ∧ seenBefore fp (vic_idle v)) →
  chosen seat floors holding uncertain (v :: vs) tk [v] known.
Proof.
  intros Hf -> Hk. split; [by exists vs|done|done| | | |].
  - intros [|x pre] post Heq; [done|]. injection Heq as <- Heq. symmetry in Heq.
    apply app_eq_nil in Heq as [-> ->]. done.
  - destruct uncertain; [by exists [v]|by exists []].
  - by intros ->.
  - intros [-> Hs]%Hk. by rewrite Forall_singleton.
Qed.

Lemma chosen_cons seat floors holding f h uncertain uncertain' v vs tk ch known :
  victimsFit seat floors holding [v] = false → backOf fp ledger (vic_idle v) = (f, h) →
  uncertain' = (uncertain || bool_decide (seenAsleep fp (idle_claim (vic_idle v)) = None)) →
  (uncertain' = true → tk = []) →
  chosen seat (floors + f) (holding + h) uncertain' vs tk ch known →
  chosen seat floors holding uncertain (v :: vs) (if uncertain then [] else v :: tk) (v :: ch)
    (if uncertain then false else if uncertain' then false else known).
Proof.
  intros Hf Hb Hu Htk [[rest ->] Hne Hfit Hmin [rest' ->] Hfirst Hknown]. split.
  - by exists rest.
  - done.
  - unfold victimsFit in *. csimpl. rewrite fitsAfter_cons, Hb. done.
  - intros [|x pre] post Heq; [done|]. injection Heq as <- Heq. intros _ Hpost. destruct pre as [|y pre]; [done|].
    unfold victimsFit in *. csimpl. rewrite fitsAfter_cons, Hb. by apply (Hmin (y :: pre) post).
  - destruct uncertain; [by eexists|]. by exists rest'.
  - by intros ->.
  - destruct uncertain, uncertain'; intros Hk; try done. destruct (Hknown Hk) as [Heq HF].
    rewrite <- Heq in *. split; [done|]. constructor; [|done]. unfold seenBefore.
    destruct (seenAsleep fp (idle_claim (vic_idle v))); [done|]. by rewrite bool_decide_eq_true_2 in Hu.
Qed.

Lemma planVictims_spec seat floors holding uncertain taken estimated vs :
  match planVictims fp ledger seat floors holding uncertain taken estimated vs with
  | None => True
  | Some (t, e, known) => ∃ tk ch, t = taken ++ tk ∧ e = estimated ++ ch ∧ (uncertain = true → tk = []) ∧
      (uncertain = true → known = false) ∧
      chosen seat floors holding uncertain (List.filter victimCharged vs) tk ch known
  end.
Proof.
  revert floors holding uncertain taken estimated.
  induction vs as [|v vs IH]; intros floors holding uncertain taken estimated; [done|].
  cbn [planVictims List.filter].
  assert (victimCharged v = bool_decide (is_Some (chargedTo ledger (mc_Name (idle_claim (vic_idle v)))))) as Hch by done.
  destruct (chargedTo ledger (mc_Name (idle_claim (vic_idle v)))) as [engine|] eqn:Ec.
  2:{ rewrite bool_decide_eq_false_2 in Hch by apply is_Some_None. rewrite Hch. apply IH. }
  rewrite bool_decide_eq_true_2 in Hch by done. rewrite Hch.
  assert (backOf fp ledger (vic_idle v) =
    givenBack engine (default 0 (seenAsleep fp (idle_claim (vic_idle v))))) as Hb by (unfold backOf; by rewrite Ec).
  set (uncertain' := uncertain || bool_decide (seenAsleep fp (idle_claim (vic_idle v)) = None)).
  assert (match seenAsleep fp (idle_claim (vic_idle v)) with
          | Some asleep => (asleep, uncertain) | None => (0, true) end =
          (default 0 (seenAsleep fp (idle_claim (vic_idle v))), uncertain')) as ->.
  { unfold uncertain'. destruct (seenAsleep fp (idle_claim (vic_idle v))) as [a|]; simpl.
    - by rewrite orb_false_r.
    - by rewrite orb_true_r. }
  destruct (givenBack _ _) as [f h].
  assert (victimsFit seat floors holding [v] = (seat <=? floors + f) && (seat <=? holding + h)) as Hf
    by (unfold victimsFit; csimpl; by rewrite fitsAfter_one, Hb).
  destruct ((seat <=? floors + f) && (seat <=? holding + h)) eqn:Ef.
  - exists (if uncertain then [] else [v]), [v]. split; [by destruct uncertain; rewrite ?app_nil_r|].
    split; [done|]. split; [by intros ->|]. split; [unfold uncertain'; by intros ->|].
    apply chosen_one; [done|done|]. unfold uncertain'. intros [Hu Hs]%negb_true_iff%orb_false_iff.
    split; [done|]. apply bool_decide_eq_false in Hs. unfold seenBefore. by apply not_eq_None_Some.
  - specialize (IH (floors + f) (holding + h) uncertain' (if uncertain then taken else taken ++ [v])
      (estimated ++ [v])).
    destruct (planVictims _ _ _ _ _ _ _ _ vs) as [[[t e] known]|]; [|done].
    destruct IH as (tk & ch & -> & -> & Htk & Hkn & Hc).
    exists (if uncertain then [] else v :: tk), (v :: ch).
    split; [destruct uncertain; [by rewrite Htk|by rewrite <- app_assoc]|].
    split; [by rewrite <- app_assoc|]. split; [by intros ->|]. split; [intros ->; by apply Hkn|].
    pose proof (chosen_cons _ _ _ _ _ uncertain uncertain' _ _ _ _ _ Hf Hb eq_refl Htk Hc) as Hcc.
    assert ((if uncertain then false else if uncertain' then false else known) = known) as Hk; [|by rewrite Hk in Hcc].
    unfold uncertain' in *. destruct uncertain; [by rewrite Hkn|].
    simpl in *. destruct (bool_decide _); [by rewrite Hkn|done].
Qed.
End VictimFacts.

Lemma StronglySorted_filter {A} (R : A → A → Prop) (f : A → bool) l :
  StronglySorted R l → StronglySorted R (List.filter f l).
Proof.
  induction 1 as [|x l Hs IH Hx]; simpl; [constructor|]. destruct (f x); [|done]. constructor; [done|].
  rewrite Forall_forall in *. intros y Hy. apply Hx. apply list_elem_of_In, List.filter_In in Hy as [Hy _].
  by apply list_elem_of_In.
Qed.

Lemma StronglySorted_app_l {A} (R : A → A → Prop) l k x y :
  StronglySorted R (l ++ k) → x ∈ l → y ∈ k → R x y.
Proof.
  induction l as [|z l IH]; intros Hs Hx Hy; [set_solver|]. simpl in Hs. apply StronglySorted_inv in Hs as [Hs HF].
  apply elem_of_cons in Hx as [->|Hx]; [|by apply IH]. rewrite Forall_forall in HF. apply HF. set_solver.
Qed.

Section Orders.
Context `{K8s}.

Definition victimOrder : sleepPreemptionVictim → sleepPreemptionVictim → bool :=
  thenBy (byKey vic_priority) (thenBy (byKey (fun v => idle_since (vic_idle v)))
    (fun a b => strless (mc_Name (idle_claim (vic_idle a))) (mc_Name (idle_claim (vic_idle b))))).

Lemma victimLess_order a b : victimLess a b = victimOrder a b.
Proof. unfold victimLess, idleLess, victimOrder. by rewrite !thenBy_key. Qed.

#[export] Instance victimLess_weak : StrictWeak victimLess.
Proof.
  assert (StrictWeak victimOrder) as [H1 H2].
  { apply thenBy_weak; [apply _|]. apply thenBy_weak; [apply _|]. apply (StrictWeak_key strless), _. }
  split; intros *; rewrite !victimLess_order; eauto.
Qed.

Lemma victimLess_priority a b : notAfter victimLess a b → vic_priority a ≤ vic_priority b.
Proof.
  unfold notAfter, victimLess. destruct (Z.eqb_spec (vic_priority b) (vic_priority a)) as [->|]; [done|].
  simpl. rewrite Z.ltb_ge. done.
Qed.

Lemma victimsOf_elem manager claims preemptor pod snapshot v :
  v ∈ victimsOf manager claims preemptor pod snapshot →
  requestIdle (idle_model (vic_idle v)) = true ∧ vic_priority v = spec_Priority (idle_claim (vic_idle v)) ∧
  vic_priority v < spec_Priority preemptor ∧ mc_Namespace (idle_claim (vic_idle v)) = mc_Namespace preemptor ∧
  mc_DeletionTimestamp (idle_claim (vic_idle v)) = None ∧
  is_Some (lastActive manager (poolActivityKey pod (idle_model (vic_idle v)))).
Proof.
  unfold victimsOf. rewrite elem_of_sortBy. intros (model & _ & Hv)%list_elem_of_omap. revert Hv. unfold victimOf.
  destruct (requestIdle model) eqn:Er; simpl; [|done].
  destruct (claimForRuntimeSnapshot claims model) as [claim|]; simpl; [|done].
  destruct (_ || _) eqn:E; [done|]. destruct (activeClaimInstancePort claim _); simpl; [|done].
  destruct (lastActive manager _) eqn:El; simpl; [|done]. intros [= <-]. simpl. breflect.
  split; [done|]. split; [done|]. split; [done|]. split; [done|]. split; [|by rewrite El].
  by apply eq_None_not_Some.
Qed.
End Orders.

(** Preemption puts to sleep only engines of strictly lower priority, in the
    same namespace, that serve no request and whose idle time is on record; it
    takes them lowest priority first and stops as soon as the model would have
    its seat, so an engine that is spared never has a lower priority than one
    that is not.  The engines it may put to sleep now are the first of these,
    and all of them when each was seen asleep before. *)
Theorem preemption_takes_the_lowest `{K8s} fp pod ledger seat manager claims preemptor snapshot plan :
  let victims := victimsOf manager claims preemptor pod snapshot in
  planSleepPreemptionOnPod fp pod ledger victims seat = Some plan →
  let estimated := pre_estimatedVictims plan in
  let fits := victimsFit fp ledger seat (maximumRoomBytes ledger) (heldRoomBytes ledger) in
  pre_victims plan ≠ [] ∧ (∃ later, estimated = pre_victims plan ++ later) ∧
  (pre_known plan = true → pre_victims plan = estimated) ∧
  fits estimated = true ∧
  (∀ pre post, estimated = pre ++ post → pre ≠ [] → post ≠ [] → fits pre = false) ∧
  (∀ v, v ∈ estimated → vic_priority v < spec_Priority preemptor ∧
     vic_priority v = spec_Priority (idle_claim (vic_idle v)) ∧
     mc_Namespace (idle_claim (vic_idle v)) = mc_Namespace preemptor ∧
     requestIdle (idle_model (vic_idle v)) = true) ∧
  (∀ v u, v ∈ estimated → u ∈ victims → victimCharged ledger u = true → u ∉ estimated →
     vic_priority v ≤ vic_priority u).
Proof.
  intros victims. unfold planSleepPreemptionOnPod.
  pose proof (planVictims_spec fp ledger seat (maximumRoomBytes ledger) (heldRoomBytes ledger) false [] [] victims) as Hs.
  destruct (planVictims _ _ _ _ _ _ _ _ victims) as [[[t e] known]|]; simpl; [|done]. intros [= <-]. simpl.
  destruct Hs as (tk & ch & -> & -> & _ & _ & [[rest Hr] Hne Hfit Hmin Htk Hfirst Hknown]). simpl.
  split; [by apply Hfirst|]. split; [done|]. split; [intros Hk; by apply Hknown|]. split; [done|]. split; [done|].
  assert (∀ v, v ∈ List.filter (victimCharged ledger) victims → v ∈ victims) as Hsub.
  { intros v [Hv _]%list_elem_of_In%List.filter_In. by apply list_elem_of_In. }
  split.
  - intros v Hv. assert (v ∈ victims) as Hin by (apply Hsub; rewrite Hr; set_solver).
    by destruct (victimsOf_elem _ _ _ _ _ _ Hin) as (? & ? & ? & ? & _).
  - intros v u Hv Hu Hc Hnot. assert (u ∈ ch ++ rest) as Hin.
    { rewrite <- Hr. apply list_elem_of_In, List.filter_In. split; [by apply list_elem_of_In|done]. }
    apply elem_of_app in Hin as [?|Hin]; [done|]. apply victimLess_priority.
    eapply (StronglySorted_app_l _ ch rest); [|done..]. rewrite <- Hr. apply StronglySorted_filter.
    apply sortBy_sorted, _.
Qed.

(** ** The best card. *)

(** Victims in claim-name order, the shorter list first. *)
Fixpoint namesOrder (a b : list string) : bool :=
  match a, b with
  | x :: a', y :: b' => if bool_decide (x = y) then namesOrder a' b' else strless x y
  | [], _ :: _ => true
  | _, [] => false
  end.

Lemma namesOrder_total a b : namesOrder a b = false → namesOrder b a = false → a = b.
Proof.
  revert b. induction a as [|x a IH]; intros [|y b]; simpl; try done.
  destruct (decide (x = y)) as [->|Hne].
  - rewrite bool_decide_eq_true_2 by done. intros. f_equal. by apply IH.
  - rewrite !bool_decide_eq_false_2 by congruence. intros H1 H2. by destruct Hne; apply strless_total.
Qed.

Lemma namesOrder_irrefl a : namesOrder a a = false.
Proof. induction a as [|x a IH]; simpl; [done|]. by rewrite bool_decide_eq_true_2. Qed.

Lemma namesOrder_trans a b c : namesOrder a b = true → namesOrder b c = true → namesOrder a c = true.
Proof.
  revert b c. induction a as [|x a IH]; intros [|y b] [|z c]; simpl; try done.
  destruct (decide (x = y)) as [->|Hxy], (decide (y = z)) as [->|Hyz].
  - rewrite !bool_decide_eq_true_2 by done. apply IH.
  - rewrite bool_decide_eq_true_2, !bool_decide_eq_false_2 by done. done.
  - rewrite !(bool_decide_eq_false_2 (x = z)) by done. by rewrite bool_decide_eq_true_2.
  - rewrite !bool_decide_eq_false_2 by done. intros H1 H2. pose proof (strless_trans _ _ _ H1 H2) as H3.
    rewrite bool_decide_eq_false_2; [done|]. intros ->. by rewrite strless_irrefl in H3.
Qed.

(** A total order is a strict weak one. *)
Lemma StrictWeak_total {A} (less : A → A → bool) :
  (∀ a, less a a = false) → (∀ a b c, less a b = true → less b c = true → less a c = true) →
  (∀ a b, less a b = false → less b a = false → a = b) → StrictWeak less.
Proof.
  intros Hi Ht Htot. split.
  - intros a b Hab. destruct (less b a) eqn:E; [|done]. rewrite <- (Hi a). symmetry. by apply (Ht _ b).
  - intros a b c H1 H2. destruct (less c a) eqn:E; [|done]. destruct (less a b) eqn:Eab.
    + rewrite <- H2. symmetry. by apply (Ht _ a).
    + rewrite (Htot _ _ Eab H1) in E. congruence.
Qed.

#[export] Instance namesOrder_weak : StrictWeak namesOrder.
Proof. apply StrictWeak_total; [apply namesOrder_irrefl|apply namesOrder_trans|apply namesOrder_total]. Qed.

Lemma Nat2Z_eqb n m : (Z.of_nat n =? Z.of_nat m) = (n =? m)%nat.
Proof. destruct (Z.eqb_spec (Z.of_nat n) (Z.of_nat m)), (Nat.eqb_spec n m); lia || done. Qed.

Lemma Nat2Z_ltb n m : (Z.of_nat n <? Z.of_nat m) = (n <? m)%nat.
Proof. destruct (Z.ltb_spec (Z.of_nat n) (Z.of_nat m)), (Nat.ltb_spec n m); lia || done. Qed.

Section Best.
Context `{K8s}.

Definition planOrder : roomPlan → roomPlan → bool :=
  thenBy (byFlag plan_known) $
  thenBy (byKey (fun p => if plan_known p then Z.of_nat (length (plan_sleeps p)) else - plan_room p)) $
  byKey (fun p => firstIdleSince (plan_sleeps p)).

Lemma betterPlan_order a b : betterPlan a b = planOrder a b.
Proof.
  unfold betterPlan, planOrder. rewrite thenBy_flag, thenBy_key. unfold byKey.
  destruct (plan_known a), (plan_known b); simpl; try done.
  - rewrite Nat2Z_eqb, Nat2Z_ltb. done.
  - by rewrite eqb_opp, ltb_opp.
Qed.

#[export] Instance betterPlan_weak : StrictWeak betterPlan.
Proof.
  assert (StrictWeak planOrder) as [H1 H2] by (repeat (apply thenBy_weak; [apply _|]); apply _).
  split; intros *; rewrite !betterPlan_order; eauto.
Qed.

Definition victimNames (p : sleepPreemptionPlan) : list string :=
  (fun v => mc_Name (idle_claim (vic_idle v))) <$> victimsForComparison p.

Definition preemptionOrder : sleepPreemptionPlan → sleepPreemptionPlan → bool :=
  thenBy (byKey (fun p => (sleepPreemptionPriority (victimsForComparison p)).1)) $
  thenBy (byKey (fun p => (sleepPreemptionPriority (victimsForComparison p)).2)) $
  thenBy (byFlag pre_known) $
  thenBy (byKey (fun p => Z.of_nat (length (victimsForComparison p)))) $
  thenBy (byKey (fun p => firstVictimSince (victimsForComparison p))) $
  thenBy (byFlag pre_artifactCached) $
  thenBy (fun a b => strless (pod_Name (pre_pod a)) (pod_Name (pre_pod b))) $
  fun a b => namesOrder (victimNames a) (victimNames b).

Lemma thenBy_name {A} (k : A → string) (g : A → A → bool) a b :
  thenBy (fun a b => strless (k a) (k b)) g a b =
  if negb (bool_decide (k a = k b)) then strless (k a) (k b) else g a b.
Proof.
  unfold thenBy. destruct (decide (k a = k b)) as [He|Hne].
  - rewrite bool_decide_eq_true_2, He, strless_irrefl by done. done.
  - rewrite bool_decide_eq_false_2 by done. simpl. destruct (strless (k a) (k b)) eqn:E1; [done|].
    destruct (strless (k b) (k a)) eqn:E2; [done|]. by destruct Hne; apply strless_total.
Qed.

Lemma namesBefore_order a b :
  length a = length b →
  namesBefore a b = namesOrder ((fun v => mc_Name (idle_claim (vic_idle v))) <$> a)
                      ((fun v => mc_Name (idle_claim (vic_idle v))) <$> b).
Proof.
  revert b. induction a as [|x a IH]; intros [|y b] Hl; simpl in *; try done.
  destruct (bool_decide _); simpl; [|done]. apply IH. lia.
Qed.

Lemma betterPreemption_order a b : betterSleepPreemptionPlan a b = preemptionOrder a b.
Proof.
  unfold betterSleepPreemptionPlan, preemptionOrder.
  rewrite !thenBy_key, !thenBy_flag, thenBy_key, thenBy_key, thenBy_flag, thenBy_name.
  destruct (sleepPreemptionPriority (victimsForComparison a)) as [am asum].
  destruct (sleepPreemptionPriority (victimsForComparison b)) as [bm bsum]. simpl.
  rewrite Nat2Z_eqb, Nat2Z_ltb. repeat case_match; try done.
  apply namesBefore_order. by breflect; apply Nat.eqb_eq.
Qed.

#[export] Instance betterPreemption_weak : StrictWeak betterSleepPreemptionPlan.
Proof.
  assert (StrictWeak preemptionOrder) as [H1 H2].
  { do 6 (apply thenBy_weak; [apply _|]).
    apply thenBy_weak; [apply (StrictWeak_key strless), _|apply (StrictWeak_key namesOrder), _]. }
  split; intros *; rewrite !betterPreemption_order; eauto.
Qed.
End Best.

Lemma foldl_max {A} (k : A → Z) l m :
  let r := foldl (fun maximum x => if maximum <? k x then k x else maximum) m l in
  m ≤ r ∧ (∀ x, x ∈ l → k x ≤ r) ∧ (r = m ∨ ∃ x, x ∈ l ∧ r = k x).
Proof.
  revert m. induction l as [|x l IH]; intros m; simpl; [split; [lia|]; split; [set_solver|by left]|].
  destruct (Z.ltb_spec m (k x)) as [Hlt|Hge].
  - destruct (IH (k x)) as (H1 & H2 & H3). split; [lia|]. split.
    + intros y [->|Hy]%elem_of_cons; [done|by apply H2].
    + right. destruct H3 as [->|(y & Hy & ->)]; [exists x|exists y]; set_solver.
  - destruct (IH m) as (H1 & H2 & H3). split; [lia|]. split.
    + intros y [->|Hy]%elem_of_cons; [lia|by apply H2].
    + destruct H3 as [->|(y & Hy & ->)]; [by left|right; exists y; set_solver].
Qed.

Lemma sleepPreemptionPriority_max `{K8s} vs :
  vs ≠ [] → (∀ v, v ∈ vs → vic_priority v ≤ (sleepPreemptionPriority vs).1) ∧
  ∃ v, v ∈ vs ∧ vic_priority v = (sleepPreemptionPriority vs).1.
Proof.
  destruct vs as [|v vs]; [done|]. intros _. simpl.
  destruct (foldl_max vic_priority vs (vic_priority v)) as (H1 & H2 & H3). split.
  - intros u [->|Hu]%elem_of_cons; [done|by apply H2].
  - destruct H3 as [H3|(u & Hu & H3)]; [exists v|exists u]; set_solver.
Qed.

Lemma byKey_first {A} (k : A → Z) (g : A → A → bool) a b : thenBy (byKey k) g a b = false → k b ≤ k a.
Proof. rewrite thenBy_key. destruct (Z.eqb_spec (k a) (k b)) as [->|]; [done|]. simpl. rewrite Z.ltb_ge. done. Qed.

(** The card preemption takes is one where the engines it would have to put
    to sleep matter least: on every other card that could be taken, there is an
    engine to put to sleep that is at least as important as any here. *)
Theorem best_preemption_protects `{K8s} plans best :
  (∀ p, p ∈ plans → victimsForComparison p ≠ []) → bestPreemption plans = Some best →
  best ∈ plans ∧
  (∀ p v, p ∈ plans → v ∈ victimsForComparison best →
     ∃ u, u ∈ victimsForComparison p ∧ vic_priority v ≤ vic_priority u) ∧
  (∀ p, p ∈ plans → betterSleepPreemptionPlan p best = false).
Proof.
  intros Hne Hb. pose proof (keepBest_least betterSleepPreemptionPlan plans) as Hl.
  unfold bestPreemption in Hb. rewrite Hb in Hl. destruct Hl as [Hin Hleast]. split; [done|]. split; [|done].
  intros p v Hp Hv. specialize (Hleast p Hp). rewrite betterPreemption_order in Hleast. apply byKey_first in Hleast.
  destruct (sleepPreemptionPriority_max (victimsForComparison p) (Hne p Hp)) as (_ & u & Hu & Hmax).
  destruct (sleepPreemptionPriority_max (victimsForComparison best) (Hne best Hin)) as [Hall _].
  exists u. split; [done|]. specialize (Hall v Hv). lia.
Qed.

(** Room is made where it is surest.  Of the plans a pool offers, the one
    taken is known whenever any is, and then no known plan has fewer sleeps. *)
Theorem best_room_plan_is_surest `{K8s} plans best :
  bestRoomPlan plans = Some best →
  best ∈ plans ∧ ∀ p, p ∈ plans → plan_known p = true →
    plan_known best = true ∧ (length (plan_sleeps best) ≤ length (plan_sleeps p))%nat.
Proof.
  unfold bestRoomPlan. intros Hb. pose proof (keepBest_least betterPlan plans) as Hl. rewrite Hb in Hl.
  destruct Hl as [Hin Hleast]. split; [done|]. intros p Hp Hk. specialize (Hleast p Hp).
  rewrite betterPlan_order in Hleast. unfold planOrder in Hleast. rewrite thenBy_flag, Hk in Hleast.
  destruct (plan_known best) eqn:Ek; [|done]. simpl in Hleast. apply byKey_first in Hleast. split; [done|].
  rewrite Hk, Ek in Hleast. lia.
Qed.

(** ** A card for the witnesses: two idle engines, one seen asleep before. *)

Section Witnesses.
Local Existing Instance NanoK8s.

Definition exIdle (name : string) (since : Time) : idleEngine :=
  MkIdle (exClaim name ModelClaimActive) (exReading 5 0) 8000 since.

Definition exFootprints : footprintsByClaim :=
  note ∅ (exClaim "alpha" ModelClaimActive) exGiB.

Definition exSeat : Z := 1 + Z.max (maximumRoomBytes exLedger) (heldRoomBytes exLedger).

Lemma planRoom_sleeps_are_needed_witness :
  ∃ plan, planRoomWith exFootprints exPod exLedger exSeat [exIdle "alpha" 10] = Some plan ∧
    plan_known plan = true ∧
    fitsAfter exFootprints exLedger exSeat (maximumRoomBytes exLedger) (heldRoomBytes exLedger) (plan_sleeps plan) = true.
Proof.
  destruct (planRoomWith exFootprints exPod exLedger exSeat [exIdle "alpha" 10]) as [plan|] eqn:Ep.
  - exists plan. split; [reflexivity|].
    pose proof (planRoom_sleeps_are_needed exFootprints exPod exLedger exSeat [exIdle "alpha" 10] plan Ep) as Hp.
    assert (option_map plan_known (planRoomWith exFootprints exPod exLedger exSeat [exIdle "alpha" 10]) = Some true)
      as Hk by (vm_compute; reflexivity).
    rewrite Ep in Hk. injection Hk as Hk. split; [exact Hk|].
    destruct Hp as (_ & _ & _ & Hf). rewrite Hk in Hf. exact (proj2 Hf).
  - exfalso. apply (f_equal (option_map plan_known)) in Ep. vm_compute in Ep. discriminate Ep.
Defined.

Lemma planRoom_finds_a_plan_witness :
  is_Some (planRoomWith exFootprints exPod exLedger exSeat [exIdle "beta" 5; exIdle "alpha" 10]).
Proof.
  apply (planRoom_finds_a_plan exFootprints exPod exLedger exSeat [exIdle "beta" 5; exIdle "alpha" 10]).
  - left. vm_compute. reflexivity.
  - exists [exIdle "beta" 5; exIdle "alpha" 10], []. split; [|split; [discriminate|vm_compute; reflexivity]].
    assert (isCharged exLedger (exIdle "beta" 5) = true) as Hb by (vm_compute; reflexivity).
    assert (isCharged exLedger (exIdle "alpha" 10) = true) as Ha by (vm_compute; reflexivity).
    cbn [List.filter]. rewrite Hb, Ha. reflexivity.
Defined.

(** The engine of [alpha], with no request running. *)
Definition exIdleModel (name : string) : RuntimeSnapshotModel :=
  MkSnapshotModel name (Some (MkClaimRef "ns" name (String.append "uid-" name)))
    (String.append "kvc_" name) "active" true true None (3 * exGiB) (8 * exGiB) (Some (30 * exGiB))
    None true 0 0 (Some 7) "" 9000.

Definition exManager : poolPolicyManager :=
  observeAll newPoolPolicyManager "pod-uid/kvc_alpha" [(exIdleModel "alpha", 50 * Second)].

Definition exPreemptor : ModelClaim :=
  MkModelClaim "ns" "gamma" "uid-gamma" 1 0 None None (Some []) "hf://m" "vllm" None 5 "SleepLowerPriority"
    ∅ (Some (MkPerGPU (20 * exGiB * 10 ^ 9) (2 * exGiB * 10 ^ 9))) ModelClaimPending [] [] 0 0 1 "1" [ModelClaimFinalizer].

Definition exVictims : list sleepPreemptionVictim :=
  victimsOf exManager [exClaim "alpha" ModelClaimActive] exPreemptor exPod
    (MkSnapshot 1000 [] [exIdleModel "alpha"] []).

Lemma preemption_takes_the_lowest_witness :
  ∃ plan, planSleepPreemptionOnPod exFootprints exPod exLedger exVictims exSeat = Some plan ∧
    pre_victims plan ≠ [] ∧ ∀ v, v ∈ pre_estimatedVictims plan → vic_priority v < 5.
Proof.
  destruct (planSleepPreemptionOnPod exFootprints exPod exLedger exVictims exSeat) as [plan|] eqn:Ep.
  - exists plan. split; [reflexivity|].
    destruct (preemption_takes_the_lowest exFootprints exPod exLedger exSeat exManager
      [exClaim "alpha" ModelClaimActive] exPreemptor (MkSnapshot 1000 [] [exIdleModel "alpha"] []) plan Ep)
      as (Hne & _ & _ & _ & _ & Hv & _).
    split; [exact Hne|]. intros v Hin. exact (proj1 (Hv v Hin)).
  - exfalso. apply (f_equal (option_map pre_known)) in Ep. vm_compute in Ep. discriminate Ep.
Defined.

Definition exPreemption (pod : Pod) (priorities : list Z) : sleepPreemptionPlan :=
  MkPreemption pod [] ((fun p => MkVictim (exIdle "alpha" p) p) <$> priorities) true false.

Lemma best_preemption_protects_witness :
  exPreemption exPodB [1; 2] ∈ [exPreemption exPod [3]; exPreemption exPodB [1; 2]] ∧
  ∃ u, u ∈ victimsForComparison (exPreemption exPod [3]) ∧ 2 ≤ vic_priority u.
Proof.
  destruct (best_preemption_protects [exPreemption exPod [3]; exPreemption exPodB [1; 2]]
    (exPreemption exPodB [1; 2])) as (Hin & Hv & _).
  - intros p [->|[->|Hp]%elem_of_cons]%elem_of_cons; [discriminate|discriminate|].
    exfalso. apply elem_of_nil in Hp. exact Hp.
  - reflexivity.
  - split; [exact Hin|].
    apply (Hv (exPreemption exPod [3]) (MkVictim (exIdle "alpha" 2) 2)); [left|right; left].
Defined.

Lemma best_room_plan_is_surest_witness :
  let known := MkRoomPlan exPod [exIdle "alpha" 10; exIdle "beta" 20] true 5 in
  let guess := MkRoomPlan exPodB [exIdle "beta" 5] false 9 in
  known ∈ [guess; known] ∧ plan_known known = true.
Proof.
  intros known guess.
  destruct (best_room_plan_is_surest [guess; known] known eq_refl) as [Hin Hk].
  split; [exact Hin|]. apply (Hk known); [right; left|reflexivity].
Defined.
End Witnesses.
