(* ===== verification/Rfc3339.v ===== *)
(** * Times in RFC 3339, as Go's [time] package reads and writes them.

    The gateway writes the time of a wake request on a pod
    ([now.UTC().Format(time.RFC3339)]), and the controller reads it back
    ([time.Parse(time.RFC3339, at)]) to order the requests.  [parseRFC3339] is
    what [Parse] accepts for that layout, a one-digit hour, a fraction after a
    point or a comma and any two-digit zone offset included; [formatRFC3339] is
    [Format] of a time in UTC, whose year has four digits.  A time is in
    nanoseconds since 1970. *)

From Stdlib Require Import Ascii.
From S2P Require Import Prelude Api.

Section Calendar.

Definition isLeap (year : Z) : bool :=
  (year mod 4 =? 0) && (negb (year mod 100 =? 0) || (year mod 400 =? 0)).

Definition daysIn (month year : Z) : Z :=
  if (month =? 2) && isLeap year then 29
  else nth (Z.to_nat (month - 1)) [31; 28; 31; 30; 31; 30; 31; 31; 30; 31; 30; 31] 0.

(** Days of a common year before a month. *)
Definition daysBefore (month : Z) : Z :=
  nth (Z.to_nat (month - 1)) [0; 31; 59; 90; 120; 151; 181; 212; 243; 273; 304; 334] 0.

(** The day of a date, counted from 1970-01-01. *)
Definition dayNumber (year month day : Z) : Z :=
  let y := year - 1 in
  365 * y + y / 4 - y / 100 + y / 400 + daysBefore month +
  (if (2 <? month) && isLeap year then 1 else 0) + (day - 1) - 719162.

(** The month and the day of a day of a year, counted from zero. *)
Definition monthDay (leap : bool) (yday : Z) : Z * Z :=
  if leap && (yday =? 31 + 29 - 1) then (2, 29)
  else
    let day := if leap && (31 + 29 - 1 <? yday) then yday - 1 else yday in
    let month := day / 31 in
    let last := if month =? 11 then 365 else daysBefore (month + 2) in
    if last <=? day then (month + 2, day - last + 1) else (month + 1, day - daysBefore (month + 1) + 1).

(** The date of a day: the cycles of 400, 100, 4 years and one year since year 1.
    The last cycle of 100 years of 400, and the last year of 4, are a day longer. *)
Definition dateOf (n : Z) : Z * Z * Z :=
  let d := n + 719162 in
  let n400 := d / 146097 in
  let d := d mod 146097 in
  let n100 := d / 36524 - d / 36524 / 4 in
  let d := d - 36524 * n100 in
  let n4 := d / 1461 in
  let d := d mod 1461 in
  let n1 := d / 365 - d / 365 / 4 in
  let yday := d - 365 * n1 in
  let year := 400 * n400 + 100 * n100 + 4 * n4 + n1 + 1 in
  let '(month, day) := monthDay (isLeap year) yday in (year, month, day).
End Calendar.

Definition unixTime (year month day hour minute second nanos : Z) : Time :=
  (((dayNumber year month day * 24 + hour) * 60 + minute) * 60 + second) * Second + nanos.

Section Parse.

Definition oneDigit (s : string) : option (Z * string) :=
  match s with String a r => d ← digitOf a; Some (d, r) | EmptyString => None end.

(** [getnum(s, true)]. *)
Definition twoDigits (s : string) : option (Z * string) :=
  '(a, r) ← oneDigit s; '(b, r) ← oneDigit r; Some (10 * a + b, r).

(** [getnum(s, false)]. *)
Definition oneOrTwoDigits (s : string) : option (Z * string) :=
  '(a, r) ← oneDigit s;
  match oneDigit r with Some (b, r') => Some (10 * a + b, r') | None => Some (a, r) end.

Definition fourDigits (s : string) : option (Z * string) :=
  '(a, r) ← twoDigits s; '(b, r) ← twoDigits r; Some (100 * a + b, r).

Definition expect (c : ascii) (s : string) : option string :=
  match s with String a r => if Ascii.eqb a c then Some r else None | EmptyString => None end.

Definition inRange (lo hi v : Z) : option unit := if (lo <=? v) && (v <=? hi) then Some () else None.

(** The digits of a fraction: the first nine count. *)
Fixpoint fractionDigits (weight : Z) (s : string) : Z * string :=
  match oneDigit s, s with
  | Some (d, _), String _ r => let '(v, rest) := fractionDigits (weight / 10) r in (d * weight + v, rest)
  | _, _ => (0, s)
  end.

Definition fraction (s : string) : Z * string :=
  match s with
  | String c r =>
      if (Ascii.eqb c "."%char || Ascii.eqb c ","%char) && bool_decide (is_Some (oneDigit r))
      then fractionDigits 100000000 r else (0, s)
  | EmptyString => (0, s)
  end.

(** The zone's offset in seconds. *)
Definition zone (s : string) : option (Z * string) :=
  match s with
  | String "Z"%char r => Some (0, r)
  | String sign r =>
      '(hr, r) ← twoDigits r;
      r ← expect ":"%char r;
      '(mm, r) ← twoDigits r;
      let offset := (hr * 60 + mm) * 60 in
      if Ascii.eqb sign "+"%char then Some (offset, r)
      else if Ascii.eqb sign "-"%char then Some (- offset, r) else None
  | EmptyString => None
  end.

Definition parseRFC3339 (s : string) : option Time :=
  '(year, r) ← fourDigits s;
  r ← expect "-"%char r;
  '(month, r) ← twoDigits r;
  _ ← inRange 1 12 month;
  r ← expect "-"%char r;
  '(day, r) ← twoDigits r;
  r ← expect "T"%char r;
  '(hour, r) ← oneOrTwoDigits r;
  _ ← inRange 0 23 hour;
  r ← expect ":"%char r;
  '(minute, r) ← twoDigits r;
  _ ← inRange 0 59 minute;
  r ← expect ":"%char r;
  '(second, r) ← twoDigits r;
  _ ← inRange 0 59 second;
  let '(nanos, r) := fraction r in
  '(offset, r) ← zone r;
  match r with
  | EmptyString =>
      _ ← inRange 1 (daysIn month year) day;
      Some (unixTime year month day hour minute second nanos - offset * Second)
  | String _ _ => None
  end.
End Parse.

Section Format.
Definition digit (d : Z) : ascii := ascii_of_nat (Z.to_nat (48 + d)).
Definition put2 (v : Z) (s : string) : string := String (digit (v / 10)) (String (digit (v mod 10)) s).
Definition put4 (v : Z) (s : string) : string := put2 (v / 100) (put2 (v mod 100) s).

Definition formatRFC3339 (t : Time) : string :=
  let secs := t / Second in
  let '(year, month, day) := dateOf (secs / 86400) in
  let s := secs mod 86400 in
  put4 year (String "-"%char (put2 month (String "-"%char (put2 day (String "T"%char
    (put2 (s / 3600) (String ":"%char (put2 (s / 60 mod 60) (String ":"%char (put2 (s mod 60) "Z")))))))))).
End Format.

(** ** The calendar. *)

Definition validDate (ymd : Z * Z * Z) : bool :=
  let '(y, m, d) := ymd in (1 <=? m) && (m <=? 12) && (1 <=? d) && (d <=? daysIn m y).

Definition monthDayOk (leap : bool) (yday : Z) : bool :=
  let '(m, d) := monthDay leap yday in
  let y := if leap then 4 else 1 in
  validDate (y, m, d) &&
  (daysBefore m + (if (2 <? m) && leap then 1 else 0) + (d - 1) =? yday).

Lemma monthDay_checked :
  forallb (monthDayOk false) (seqZ 0 365) && forallb (monthDayOk true) (seqZ 0 366) = true.
Proof. vm_compute. reflexivity. Qed.

Lemma monthDay_ok (leap : bool) yday : 0 ≤ yday < (if leap then 366 else 365) → monthDayOk leap yday = true.
Proof.
  intros Hr. pose proof monthDay_checked as [Hf Ht]%andb_true_iff. rewrite forallb_forall in Hf, Ht.
  destruct leap; [apply Ht|apply Hf]; apply list_elem_of_In, elem_of_seqZ; lia.
Qed.

Lemma isLeap_cycles a b c e :
  0 ≤ b ≤ 3 → 0 ≤ c ≤ 24 → 0 ≤ e ≤ 3 →
  isLeap (400 * a + 100 * b + 4 * c + e + 1) = (e =? 3) && (negb (c =? 24) || (b =? 3)).
Proof.
  intros Hb Hc He. unfold isLeap.
  assert ((400 * a + 100 * b + 4 * c + e + 1) mod 4 = (e + 1) mod 4) as ->.
  { replace (400 * a + 100 * b + 4 * c + e + 1) with (e + 1 + (100 * a + 25 * b + c) * 4) by lia. apply Z_mod_plus_full. }
  assert ((400 * a + 100 * b + 4 * c + e + 1) mod 100 = (4 * c + e + 1) mod 100) as ->.
  { replace (400 * a + 100 * b + 4 * c + e + 1) with (4 * c + e + 1 + (4 * a + b) * 100) by lia. apply Z_mod_plus_full. }
  assert ((400 * a + 100 * b + 4 * c + e + 1) mod 400 = (100 * b + 4 * c + e + 1) mod 400) as ->.
  { replace (400 * a + 100 * b + 4 * c + e + 1) with (100 * b + 4 * c + e + 1 + a * 400) by lia. apply Z_mod_plus_full. }
  destruct (Z.eqb_spec e 3) as [->|]; cbn [andb].
  - change ((3 + 1) mod 4 =? 0) with true. cbn [andb]. destruct (Z.eqb_spec c 24) as [->|]; cbn [negb orb].
    + change ((4 * 24 + 3 + 1) mod 100 =? 0) with true. cbn [negb orb]. destruct (Z.eqb_spec b 3) as [->|]; [done|].
      rewrite Z.mod_small by lia. apply Z.eqb_neq. lia.
    + rewrite (Z.mod_small (4 * c + 3 + 1) 100) by lia. rewrite (proj2 (Z.eqb_neq (4 * c + 3 + 1) 0)) by lia. done.
  - rewrite (Z.mod_small (e + 1) 4) by lia. rewrite (proj2 (Z.eqb_neq (e + 1) 0)) by lia. done.
Qed.

Lemma dayNumber_cycles a b c e month day :
  0 ≤ b ≤ 3 → 0 ≤ c ≤ 24 → 0 ≤ e ≤ 3 →
  dayNumber (400 * a + 100 * b + 4 * c + e + 1) month day =
  146097 * a + 36524 * b + 1461 * c + 365 * e +
  (daysBefore month + (if (2 <? month) && isLeap (400 * a + 100 * b + 4 * c + e + 1) then 1 else 0) + (day - 1)) - 719162.
Proof.
  intros Hb Hc He. unfold dayNumber.
  replace (400 * a + 100 * b + 4 * c + e + 1 - 1) with (400 * a + 100 * b + 4 * c + e) by lia.
  assert ((400 * a + 100 * b + 4 * c + e) / 4 = 100 * a + 25 * b + c) as -> by (Z.to_euclidean_division_equations; lia).
  assert ((400 * a + 100 * b + 4 * c + e) / 100 = 4 * a + b) as -> by (Z.to_euclidean_division_equations; lia).
  assert ((400 * a + 100 * b + 4 * c + e) / 400 = a) as -> by (Z.to_euclidean_division_equations; lia).
  lia.
Qed.

Lemma daysIn_leap m y y' : isLeap y = isLeap y' → daysIn m y = daysIn m y'.
Proof. unfold daysIn. by intros ->. Qed.

(** Every day has a date, and the date is that day's. *)
Lemma dateOf_spec n :
  let '(y, m, d) := dateOf n in validDate (y, m, d) = true ∧ dayNumber y m d = n.
Proof.
  unfold dateOf.
  set (a := (n + 719162) / 146097). set (d0 := (n + 719162) mod 146097).
  assert (0 ≤ d0 < 146097) by (apply Z.mod_pos_bound; lia).
  assert (n + 719162 = 146097 * a + d0) by (subst a d0; apply Z.div_mod; lia).
  set (b := d0 / 36524 - d0 / 36524 / 4). set (d1 := d0 - 36524 * b).
  assert (0 ≤ b ≤ 3 ∧ 0 ≤ d1 < 36524 + (if b =? 3 then 1 else 0)) as [Hb Hd1].
  { subst b d1. clear -H. destruct (Z.eqb_spec (d0 / 36524 - d0 / 36524 / 4) 3); Z.to_euclidean_division_equations; lia. }
  set (c := d1 / 1461). set (d2 := d1 mod 1461).
  assert (0 ≤ c ≤ 24 ∧ 0 ≤ d2 < 1461 ∧ d1 = 1461 * c + d2) as (Hc & Hd2 & Hd12).
  { subst c d2. destruct (b =? 3); Z.to_euclidean_division_equations; lia. }
  set (e := d2 / 365 - d2 / 365 / 4). set (yday := d2 - 365 * e).
  assert (0 ≤ e ≤ 3 ∧ 0 ≤ yday < 365 + (if e =? 3 then 1 else 0)) as [He Hyd].
  { subst e yday. clear -Hd2. destruct (Z.eqb_spec (d2 / 365 - d2 / 365 / 4) 3); Z.to_euclidean_division_equations; lia. }
  pose proof (isLeap_cycles a b c e Hb Hc He) as Hleap. set (year := 400 * a + 100 * b + 4 * c + e + 1) in *.
  assert (0 ≤ yday < (if isLeap year then 366 else 365)) as Hy.
  { rewrite Hleap. destruct (Z.eqb_spec e 3) as [He3|]; cbn [andb]; [|lia].
    destruct (Z.eqb_spec c 24) as [->|]; cbn [negb orb]; [|lia]. destruct (Z.eqb_spec b 3); lia. }
  pose proof (monthDay_ok _ _ Hy) as Hok. unfold monthDayOk in Hok.
  destruct (monthDay (isLeap year) yday) as [m d]. apply andb_true_iff in Hok as [Hv Hday%Z.eqb_eq]. split.
  - unfold validDate in *. rewrite (daysIn_leap m year (if isLeap year then 4 else 1)); [done|by destruct (isLeap year)].
  - unfold year. rewrite dayNumber_cycles by done. fold year. lia.
Qed.

(** The years of four digits. *)
Definition fourDigitYear (t : Time) : Prop := -62167219200 * Second ≤ t < 253402300800 * Second.

Lemma dateOf_year n : -719528 ≤ n < 2932897 → 0 ≤ (dateOf n).1.1 ≤ 9999.
Proof.
  intros Hn. unfold dateOf.
  set (a := (n + 719162) / 146097). set (d0 := (n + 719162) mod 146097).
  assert (0 ≤ d0 < 146097) by (apply Z.mod_pos_bound; lia).
  assert (n + 719162 = 146097 * a + d0) by (subst a d0; apply Z.div_mod; lia).
  set (b := d0 / 36524 - d0 / 36524 / 4). set (d1 := d0 - 36524 * b). assert (d1 = d0 - 36524 * b) as Hd01 by done.
  assert (0 ≤ b ≤ 3 ∧ 0 ≤ d1 < 36525) as [Hb Hd1].
  { subst b d1. clear -H. Z.to_euclidean_division_equations; lia. }
  set (c := d1 / 1461). set (d2 := d1 mod 1461).
  assert (0 ≤ c ≤ 24 ∧ 0 ≤ d2 < 1461 ∧ d1 = 1461 * c + d2) as (Hc & Hd2 & Hd12).
  { subst c d2. clear -Hd1. Z.to_euclidean_division_equations; lia. }
  set (e := d2 / 365 - d2 / 365 / 4).
  assert (0 ≤ e ≤ 3 ∧ 365 * e ≤ d2 ∧ (d2 < 365 * e + 365 ∨ e = 3)) as (He & Hyd & Hlast).
  { subst e. clear -Hd2. Z.to_euclidean_division_equations; lia. }
  destruct (monthDay _ _) as [m d]. cbn [fst]. assert (-1 ≤ a ≤ 24) by lia.
  clearbody a b c e d0 d1 d2. lia.
Qed.

(** ** What was written is read. *)

Lemma digit_checked : forallb (fun d => bool_decide (digitOf (digit d) = Some d)) (seqZ 0 10) = true.
Proof. reflexivity. Qed.

Lemma digitOf_digit d : 0 ≤ d ≤ 9 → digitOf (digit d) = Some d.
Proof.
  intros Hd. pose proof digit_checked as Hc. rewrite forallb_forall in Hc.
  eapply bool_decide_eq_true_1, Hc, list_elem_of_In, elem_of_seqZ. lia.
Qed.

Lemma oneDigit_digit d s : 0 ≤ d ≤ 9 → oneDigit (String (digit d) s) = Some (d, s).
Proof. intros Hd. unfold oneDigit. by rewrite digitOf_digit. Qed.

Lemma digits_of v : 0 ≤ v ≤ 99 → 0 ≤ v / 10 ≤ 9 ∧ 0 ≤ v mod 10 ≤ 9 ∧ 10 * (v / 10) + v mod 10 = v.
Proof. intros. Z.to_euclidean_division_equations; lia. Qed.

Lemma twoDigits_put2 v s : 0 ≤ v ≤ 99 → twoDigits (put2 v s) = Some (v, s).
Proof.
  intros (H1 & H2 & H3)%digits_of. unfold twoDigits, put2. rewrite oneDigit_digit by done. cbn [mbind option_bind].
  rewrite oneDigit_digit by done. cbn [mbind option_bind]. by rewrite H3.
Qed.

Lemma oneOrTwoDigits_put2 v s : 0 ≤ v ≤ 99 → oneOrTwoDigits (put2 v s) = Some (v, s).
Proof.
  intros (H1 & H2 & H3)%digits_of. unfold oneOrTwoDigits, put2. rewrite oneDigit_digit by done. cbn [mbind option_bind].
  rewrite oneDigit_digit by done. by rewrite H3.
Qed.

Lemma fourDigits_put4 v s : 0 ≤ v ≤ 9999 → fourDigits (put4 v s) = Some (v, s).
Proof.
  intros Hv. assert (0 ≤ v / 100 ≤ 99 ∧ 0 ≤ v mod 100 ≤ 99 ∧ 100 * (v / 100) + v mod 100 = v) as (H1 & H2 & H3)
    by (Z.to_euclidean_division_equations; lia).
  unfold fourDigits, put4. rewrite twoDigits_put2 by done. cbn [mbind option_bind].
  rewrite twoDigits_put2 by done. cbn [mbind option_bind]. by rewrite H3.
Qed.

Lemma expect_eq c s : expect c (String c s) = Some s.
Proof. simpl. by rewrite Ascii.eqb_refl. Qed.

Lemma inRange_in lo hi v : lo ≤ v ≤ hi → inRange lo hi v = Some ().
Proof. intros [H1 H2]. unfold inRange. by rewrite (proj2 (Z.leb_le _ _) H1), (proj2 (Z.leb_le _ _) H2). Qed.

Lemma daysIn_max m y : daysIn m y ≤ 31.
Proof.
  unfold daysIn. destruct (_ && _); [lia|]. generalize (Z.to_nat (m - 1)). intros n.
  do 12 (destruct n as [|n]; [simpl; lia|]). by destruct n.
Qed.

(** The time a date gives, when it is written with the zone [Z]. *)
Lemma parse_written y m d h mi s :
  0 ≤ y ≤ 9999 → validDate (y, m, d) = true → 0 ≤ h ≤ 23 → 0 ≤ mi ≤ 59 → 0 ≤ s ≤ 59 →
  parseRFC3339 (put4 y (String "-"%char (put2 m (String "-"%char (put2 d (String "T"%char
    (put2 h (String ":"%char (put2 mi (String ":"%char (put2 s "Z"))))))))))) = Some (unixTime y m d h mi s 0).
Proof.
  intros Hy Hv Hh Hmi Hs. unfold validDate in Hv. rewrite !andb_true_iff, !Z.leb_le in Hv.
  destruct Hv as [[[Hm1 Hm2] Hd1] Hd2]. pose proof (daysIn_max m y). unfold parseRFC3339.
  rewrite fourDigits_put4 by lia. cbn [mbind option_bind]. rewrite expect_eq. cbn [mbind option_bind].
  rewrite twoDigits_put2 by lia. cbn [mbind option_bind]. rewrite inRange_in by lia. cbn [mbind option_bind].
  rewrite expect_eq. cbn [mbind option_bind]. rewrite twoDigits_put2 by lia. cbn [mbind option_bind].
  rewrite expect_eq. cbn [mbind option_bind]. rewrite oneOrTwoDigits_put2 by lia. cbn [mbind option_bind].
  rewrite inRange_in by lia. cbn [mbind option_bind]. rewrite expect_eq. cbn [mbind option_bind].
  rewrite twoDigits_put2 by lia. cbn [mbind option_bind]. rewrite inRange_in by lia. cbn [mbind option_bind].
  rewrite expect_eq. cbn [mbind option_bind]. rewrite twoDigits_put2 by lia. cbn [mbind option_bind].
  rewrite inRange_in by lia. cbn [mbind option_bind fraction zone].
  change (Ascii.eqb "Z" "." || Ascii.eqb "Z" ",") with false. cbn [andb mbind option_bind].
  rewrite inRange_in by lia. change (zone "Z") with (Some (0, "")). cbn [mbind option_bind]. f_equal. apply Z.sub_0_r.
Qed.

(** The time the gateway writes on a pod for a wake request is the second it
    was asked, as the controller reads it. *)
Lemma wake_request_time_roundtrip t :
  fourDigitYear t → parseRFC3339 (formatRFC3339 t) = Some (t / Second * Second).
Proof.
  intros Ht. unfold fourDigitYear, Second in Ht. unfold formatRFC3339.
  set (secs := t / Second). set (n := secs / 86400). set (s := secs mod 86400).
  assert (0 ≤ s < 86400) as Hs by (apply Z.mod_pos_bound; lia).
  assert (secs = 86400 * n + s) as Hsec by (apply Z.div_mod; lia).
  assert (-719528 ≤ n < 2932897) as Hn.
  { assert (-62167219200 ≤ secs < 253402300800) as Hse; [split|clearbody s n; lia].
    - apply Z.div_le_lower_bound; unfold Second; lia.
    - apply Z.div_lt_upper_bound; unfold Second; lia. }
  pose proof (dateOf_year n Hn) as Hy. pose proof (dateOf_spec n) as Hd. destruct (dateOf n) as [[y m] d].
  destruct Hd as [Hv Hday]. cbn [fst] in Hy.
  assert (0 ≤ s / 3600 ≤ 23 ∧ 0 ≤ s / 60 mod 60 ≤ 59 ∧ 0 ≤ s mod 60 ≤ 59 ∧
    s = 3600 * (s / 3600) + 60 * (s / 60 mod 60) + s mod 60) as (H1 & H2 & H3 & H4).
  { clearbody s. clear -Hs. Z.to_euclidean_division_equations; lia. }
  rewrite parse_written by done. f_equal. unfold unixTime. rewrite Hday. lia.
Qed.

Lemma wake_request_time_roundtrip_witness :
  parseRFC3339 (formatRFC3339 1709210096789000000) = Some (1709210096 * Second) ∧
  formatRFC3339 1709210096789000000 = "2024-02-29T12:34:56Z".
Proof.
  split; [|vm_compute; reflexivity].
  apply (wake_request_time_roundtrip 1709210096789000000). vm_compute. split; [discriminate|reflexivity].
Defined.
