(* ===== verification/WakeTurn.v ===== *)
(** * Whose turn it is to wake on a card ([wakeTurnOn] of
    [pkg/controller/modelclaim/wake.go]).

    Requests to wake sleeping engines stand on a card's pod as annotations, each
    with the time it was asked.  They are taken in that order: a request the
    card has room for wakes, the first one that room can be made for makes room,
    and one that no room can be made for does not hold up the others.  [turns]
    judges them all, and [wakeTurnWith], the loop of the code, finds the turn of
    one. *)

From S2P Require Import Prelude Api Claims Ledger KVPlan Placement Reservations PoolPolicy MakeRoom Rfc3339.

Record wakeRequest : Type := MkWake {
  wr_claim : string;
  wr_at : string;
}.

Definition askedBefore (at_ name otherAt otherName : string) : bool :=
  match parseRFC3339 at_, parseRFC3339 otherAt with
  | None, None => strless name otherName
  | None, Some _ => true
  | Some _, None => false
  | Some asked, Some otherAsked =>
      if negb (asked =? otherAsked) then asked <? otherAsked else strless name otherName
  end.

Definition requestBefore (a b : wakeRequest) : bool := askedBefore (wr_at a) (wr_claim a) (wr_at b) (wr_claim b).

Inductive wakeTurn : Type := wakeNow | wakeMakesRoom | wakeWaitsBehind | wakeCannotFit.

#[export] Instance wakeTurn_eq_dec : EqDecision wakeTurn.
Proof. solve_decision. Defined.

Section Turns.
Context `{K8s}.

Definition sleepsOn (ledger : podLedger) (claim : string) : bool :=
  existsb (fun engine => eng_asleep engine && bool_decide (eng_claimName engine = claim)) (engines ledger).

(** The requests in the annotations of a pod: for the engines asleep on its
    card, and for [waker]. *)
Definition requestOf (waker : string) (ledger : podLedger) (annotation : string * string) : option wakeRequest :=
  claim ← cutPrefix annotation.1 ModelClaimWakeAnnotationPrefix;
  if sleepsOn ledger claim || bool_decide (claim = waker) then Some (MkWake claim annotation.2) else None.

Definition wakeRequestsOn (waker : string) (pod : Pod) (ledger : podLedger) : list wakeRequest :=
  sortBy requestBefore (omap (requestOf waker ledger) (map_to_list pod.(pod_Annotations))).

(** The account without the reserves of the requests. *)
Definition withoutReserves (ledger : podLedger) (requests : list wakeRequest) : podLedger :=
  foldl (fun judged req => withWakeReserve judged (wr_claim req) false) ledger requests.

Section Judge.
Context (footprints : footprintsByClaim) (claims : option (list ModelClaim)) (namespace : string).
(** Whether room can be made on the card, and by whose sleep. *)
Context (canMakeRoom : bool) (idle : list idleEngine).

(** The turn of a request, judged by the account with its reserve, and whether
    room is being made on the card by then. *)
Definition judgeRequest (withIt : podLedger) (claim : string) (roomMade : bool) : wakeTurn * bool :=
  if (0 <=? maximumRoomBytes withIt) && (0 <=? heldRoomBytes withIt) then (wakeNow, roomMade)
  else
    match modelClaimPriority claims namespace claim with
    | Some priority =>
        if canMakeRoom && sleepsMakeRoom footprints withIt (idleEnginesAtOrBelowPriority idle priority) 0
        then (if roomMade then wakeWaitsBehind else wakeMakesRoom, true)
        else (wakeCannotFit, roomMade)
    | None => (wakeCannotFit, roomMade)
    end.

Definition judgedAfter (turn : wakeTurn) (withIt judged : podLedger) : podLedger :=
  if bool_decide (turn = wakeCannotFit) then judged else withIt.

Fixpoint judgeUntil (waker : string) (ledger judged : podLedger) (roomMade : bool) (requests : list wakeRequest)
  : wakeTurn * podLedger :=
  match requests with
  | [] => (wakeCannotFit, ledger)
  | req :: rest =>
      let withIt := withWakeReserve judged (wr_claim req) true in
      let '(turn, roomMade) := judgeRequest withIt (wr_claim req) roomMade in
      if bool_decide (wr_claim req = waker) then (turn, withIt)
      else judgeUntil waker ledger (judgedAfter turn withIt judged) roomMade rest
  end.

(** [wakeTurnOn], once the pool's policy and the idle engines are known. *)
Definition wakeTurnWith (waker : string) (pod : Pod) (ledger : podLedger) : wakeTurn * podLedger :=
  let requests := wakeRequestsOn waker pod ledger in
  judgeUntil waker ledger (withoutReserves ledger requests) false requests.

(** ** All the requests of a card. *)

Record judgement : Type := MkJudgement {
  jd_claim : string;
  jd_turn : wakeTurn;
  jd_account : podLedger;
}.

Fixpoint turns (judged : podLedger) (roomMade : bool) (requests : list wakeRequest) : list judgement :=
  match requests with
  | [] => []
  | req :: rest =>
      let withIt := withWakeReserve judged (wr_claim req) true in
      let '(turn, roomMade) := judgeRequest withIt (wr_claim req) roomMade in
      MkJudgement (wr_claim req) turn withIt :: turns (judgedAfter turn withIt judged) roomMade rest
  end.

Lemma judgeUntil_turns waker ledger judged roomMade requests :
  judgeUntil waker ledger judged roomMade requests =
  match List.find (fun j => bool_decide (jd_claim j = waker)) (turns judged roomMade requests) with
  | Some j => (jd_turn j, jd_account j)
  | None => (wakeCannotFit, ledger)
  end.
Proof.
  revert judged roomMade. induction requests as [|req rest IH]; intros judged roomMade; simpl; [done|].
  destruct (judgeRequest _ _ _) as [turn rm]. simpl. case_bool_decide; [done|]. apply IH.
Qed.

(** The requests before the [i]th that the card can meet. *)
Definition metBefore (i : nat) (ts : list judgement) : list string :=
  jd_claim <$> List.filter (fun j => negb (bool_decide (jd_turn j = wakeCannotFit))) (take i ts).

Definition reserveAll (judged : podLedger) (claims : list string) : podLedger :=
  foldl (fun l c => withWakeReserve l c true) judged claims.

(** Each request is judged with the reserves of those before it that the card
    can meet, and its own. *)
Lemma turns_account judged roomMade requests i j :
  turns judged roomMade requests !! i = Some j →
  jd_account j = reserveAll judged (metBefore i (turns judged roomMade requests) ++ [jd_claim j]).
Proof.
  revert judged roomMade i. induction requests as [|req rest IH]; intros judged roomMade i; simpl; [done|].
  destruct (judgeRequest _ _ _) as [turn rm] eqn:Ej. destruct i as [|i]; simpl; [by intros [= <-]|].
  intros Hi. rewrite (IH _ _ _ Hi). unfold metBefore. cbn [take List.filter jd_turn].
  unfold judgedAfter. by case_bool_decide.
Qed.

Definition short (account : podLedger) : Prop := maximumRoomBytes account < 0 ∨ heldRoomBytes account < 0.

Lemma judgeRequest_spec withIt claim roomMade turn roomMade' :
  judgeRequest withIt claim roomMade = (turn, roomMade') →
  match turn with
  | wakeNow => 0 ≤ maximumRoomBytes withIt ∧ 0 ≤ heldRoomBytes withIt ∧ roomMade' = roomMade
  | wakeMakesRoom => short withIt ∧ roomMade = false ∧ roomMade' = true ∧ canMakeRoom = true ∧
      ∃ priority, modelClaimPriority claims namespace claim = Some priority ∧
        sleepsMakeRoom footprints withIt (idleEnginesAtOrBelowPriority idle priority) 0 = true
  | wakeWaitsBehind => short withIt ∧ roomMade = true ∧ roomMade' = true
  | wakeCannotFit => short withIt ∧ roomMade' = roomMade
  end.
Proof.
  unfold judgeRequest, short. destruct (Z.leb_spec 0 (maximumRoomBytes withIt)), (Z.leb_spec 0 (heldRoomBytes withIt));
    simpl; [by intros [= <- <-]|..].
  all: destruct (modelClaimPriority claims namespace claim) as [priority|] eqn:Ep; [|intros [= <- <-]; auto].
  all: destruct canMakeRoom; simpl; [|intros [= <- <-]; auto].
  all: destruct (sleepsMakeRoom _ _ _ _) eqn:Es; [|intros [= <- <-]; auto].
  all: destruct roomMade; intros [= <- <-]; split_and!; eauto.
Qed.

(** What is known of a turn. *)
Definition turnFact (roomMade : bool) (ts : list judgement) (i : nat) (j : judgement) : Prop :=
  match jd_turn j with
  | wakeNow => 0 ≤ maximumRoomBytes (jd_account j) ∧ 0 ≤ heldRoomBytes (jd_account j)
  | wakeMakesRoom => roomMade = false ∧ short (jd_account j) ∧ canMakeRoom = true ∧
      (∃ priority, modelClaimPriority claims namespace (jd_claim j) = Some priority ∧
         sleepsMakeRoom footprints (jd_account j) (idleEnginesAtOrBelowPriority idle priority) 0 = true) ∧
      ∀ k x, ts !! k = Some x → (k < i)%nat → jd_turn x = wakeNow ∨ jd_turn x = wakeCannotFit
  | wakeWaitsBehind => short (jd_account j) ∧
      (roomMade = true ∨ ∃ k x, ts !! k = Some x ∧ (k < i)%nat ∧ jd_turn x = wakeMakesRoom)
  | wakeCannotFit => short (jd_account j)
  end.

Lemma turns_fact judged roomMade requests i j :
  turns judged roomMade requests !! i = Some j → turnFact roomMade (turns judged roomMade requests) i j.
Proof.
  revert judged roomMade i. induction requests as [|req rest IH]; intros judged roomMade i; simpl; [done|].
  set (withIt := withWakeReserve judged (wr_claim req) true).
  destruct (judgeRequest withIt (wr_claim req) roomMade) as [turn rm] eqn:Ej. apply judgeRequest_spec in Ej.
  set (head := MkJudgement _ _ _). set (tail := turns _ _ _).
  destruct i as [|i].
  - intros [= <-]. unfold turnFact. simpl. destruct turn; [|destruct Ej as (? & -> & _ & ? & ?)| |]; try tauto.
    split_and!; auto. intros k x _ Hk. lia.
  - intros Hi. pose proof (IH _ _ _ Hi) as Hf. fold tail in Hf. unfold turnFact in *.
    destruct (jd_turn j); [done| | |done].
    + destruct Hf as (-> & Hs & Hc & Hsl & Hf). assert (roomMade = false ∧ (turn = wakeNow ∨ turn = wakeCannotFit)) as [-> Ht].
      { destruct turn; [destruct Ej as (_ & _ & <-)|destruct Ej as (_ & _ & [=] & _)|destruct Ej as (_ & _ & [=])|destruct Ej as [_ <-]]; auto. }
      split_and!; auto. intros [|k] x; simpl; [by intros [= <-]|]. intros Hx Hk. apply (Hf k); [done|lia].
    + destruct Hf as [Hs Hf]. split; [done|]. destruct Hf as [->|(k & x & Hx & Hk & Hm)].
      * destruct turn; [left; destruct Ej as (_ & _ & <-); done| |left; apply Ej|left; destruct Ej as [_ <-]; done]. right. exists 0%nat, head. split; [done|]. split; [lia|done].
      * right. exists (S k), x. split; [done|]. split; [lia|done].
Qed.
End Judge.

(** ** The order of the requests. *)

Lemma cutPrefix_Some s p r : cutPrefix s p = Some r → s = String.append p r.
Proof.
  revert s. induction p as [|c p IH]; intros s; [destruct s; intros Hc; injection Hc as <-; reflexivity|].
  destruct s as [|c' s]; [done|]. cbn [cutPrefix]. destruct (Ascii.eqb_spec c c') as [->|]; [|done].
  intros Hc%IH. exact (f_equal (String c') Hc).
Qed.

Definition unreadable (r : wakeRequest) : bool := bool_decide (parseRFC3339 (wr_at r) = None).
Definition requestOrder : wakeRequest → wakeRequest → bool :=
  thenBy (byFlag unreadable) (thenBy (byKey (fun r => default 0 (parseRFC3339 (wr_at r))))
    (fun a b => strless (wr_claim a) (wr_claim b))).

Lemma requestBefore_order a b : requestBefore a b = requestOrder a b.
Proof.
  unfold requestBefore, askedBefore, requestOrder, thenBy, byFlag, byKey, unreadable.
  destruct (parseRFC3339 (wr_at a)) as [x|], (parseRFC3339 (wr_at b)) as [y|]; simpl.
  - destruct (Z.eqb_spec x y) as [->|]; simpl; [by rewrite Z.ltb_irrefl|].
    destruct (Z.ltb_spec x y), (Z.ltb_spec y x); try done. lia.
  - done.
  - done.
  - done.
Qed.

#[export] Instance requestBefore_weak : StrictWeak requestBefore.
Proof.
  assert (StrictWeak requestOrder) as [H1 H2].
  { apply thenBy_weak; [apply _|]. apply thenBy_weak; [apply _|]. apply (StrictWeak_key strless wr_claim), _. }
  split; intros *; rewrite !requestBefore_order; eauto.
Qed.

Lemma requestBefore_level a b : requestBefore a b = false → requestBefore b a = false → wr_claim a = wr_claim b.
Proof.
  rewrite !requestBefore_order. intros H1 H2. apply thenBy_level in H1 as [H1 H3]; [|done].
  apply thenBy_level in H1 as [H1 H4]; [|done]. by apply strless_total.
Qed.

Lemma requestOf_key waker ledger kv r :
  requestOf waker ledger kv = Some r → kv = (String.append ModelClaimWakeAnnotationPrefix (wr_claim r), wr_at r).
Proof.
  unfold requestOf. destruct (cutPrefix kv.1 _) as [claim|] eqn:Ec; simpl; [|done].
  destruct (_ || _); [|done]. intros [= <-]. simpl. apply cutPrefix_Some in Ec. destruct kv; simpl in *. by subst.
Qed.

(** Go ranges over the annotations in any order. *)
Lemma wakeRequestsOn_any_order waker pod ledger l :
  l ≡ₚ map_to_list (pod_Annotations pod) →
  sortBy requestBefore (omap (requestOf waker ledger) l) = wakeRequestsOn waker pod ledger.
Proof.
  intros Hp. apply sortBy_unique; [apply _|by rewrite Hp|].
  intros a b (ka & Ha & Hra)%list_elem_of_omap (kb & Hb & Hrb)%list_elem_of_omap H1 H2.
  pose proof (requestBefore_level _ _ H1 H2) as Hc. apply requestOf_key in Hra, Hrb. subst ka kb. rewrite Hc in Ha.
  rewrite Hp, elem_of_map_to_list in Ha, Hb. rewrite Ha in Hb. destruct a, b; simpl in *. congruence.
Qed.

Lemma requests_distinct waker pod ledger : NoDup (wr_claim <$> wakeRequestsOn waker pod ledger).
Proof.
  unfold wakeRequestsOn. rewrite sortBy_perm. pose proof (NoDup_fst_map_to_list (pod_Annotations pod)) as Hnd.
  revert Hnd. generalize (map_to_list (pod_Annotations pod)). intros l. induction l as [|kv l IH]; [constructor|].
  cbn [fmap list_fmap omap list_omap]. intros [Hni Hnd]%NoDup_cons.
  destruct (requestOf waker ledger kv) as [r|] eqn:Er; [|by apply IH]. cbn [fmap list_fmap].
  apply NoDup_cons. split; [|by apply IH]. intros (r' & Hc & (kv' & Hin & Hr')%list_elem_of_omap)%list_elem_of_fmap.
  destruct Hni. apply requestOf_key in Er, Hr'. subst kv kv'. simpl. rewrite Hc.
  by apply (list_elem_of_fmap_2 fst) in Hin.
Qed.

(** ** What an account charges. *)

(** The engines of a claim are charged their whole seat. *)
Definition charged (account : podLedger) (claim : string) : Prop :=
  ∀ e, e ∈ engines account → eng_claimName e = claim → eng_withoutWakeReserve e = false.

Definition askedCharged (names : list string) (account : podLedger) : Prop :=
  ∀ e, e ∈ engines account → eng_claimName e ∈ names → eng_wakeReserveAsked e = true →
    eng_withoutWakeReserve e = false.

Lemma elem_of_withWakeReserve l c asked e :
  e ∈ engines (withWakeReserve l c asked) → ∃ e0, e0 ∈ engines l ∧ e = reserveSet c asked e0 ∧
    eng_claimName e = eng_claimName e0.
Proof.
  rewrite withWakeReserve_engines. intros (e0 & -> & He0)%list_elem_of_fmap. exists e0. split; [done|].
  split; [done|]. unfold reserveSet. by destruct (keepsWakeReserve _ _ _).
Qed.

Lemma askedCharged_reserve names l c : askedCharged names l → askedCharged names (withWakeReserve l c true).
Proof.
  intros Ha e (e0 & He0 & -> & _)%elem_of_withWakeReserve. unfold reserveSet.
  destruct (keepsWakeReserve c true e0); [by apply Ha|done].
Qed.

Lemma charged_reserve l c c' : charged l c' → charged (withWakeReserve l c true) c'.
Proof.
  intros Hc e (e0 & He0 & -> & _)%elem_of_withWakeReserve. unfold reserveSet.
  destruct (keepsWakeReserve c true e0); [by apply Hc|done].
Qed.

Lemma charged_own names l c : askedCharged names l → c ∈ names → charged (withWakeReserve l c true) c.
Proof.
  intros Ha Hc e (e0 & He0 & -> & Hn)%elem_of_withWakeReserve Hname. unfold reserveSet in *.
  destruct (keepsWakeReserve c true e0) eqn:Ek; [|done]. unfold keepsWakeReserve in Ek.
  rewrite bool_decide_eq_true_2 in Ek by done. simpl in Ek.
  destruct (eng_wakeReserveAsked e0) eqn:Easked; simpl in Ek; [apply (Ha e0); congruence|].
  by destruct (eng_withoutWakeReserve e0).
Qed.

(** Taking the reserves off leaves no engine of a request with one asked. *)
Lemma withoutReserves_asked l reqs :
  ∀ e, e ∈ engines (withoutReserves l reqs) → eng_claimName e ∈ (wr_claim <$> reqs) → eng_wakeReserveAsked e = false.
Proof.
  unfold withoutReserves. induction reqs as [|r reqs IH] using rev_ind; [set_solver|].
  intros e. rewrite foldl_snoc. intros (e0 & He0 & -> & Hn)%elem_of_withWakeReserve.
  rewrite fmap_app, elem_of_app, Hn. intros [Hin|Hin].
  - unfold reserveSet. destruct (keepsWakeReserve _ _ _); [by apply IH|done].
  - apply list_elem_of_singleton in Hin. unfold reserveSet. destruct (keepsWakeReserve _ _ _) eqn:Ek; [|done].
    unfold keepsWakeReserve in Ek. rewrite bool_decide_eq_true_2 in Ek by done. simpl in Ek.
    by destruct (eng_wakeReserveAsked e0).
Qed.

Lemma reserveAll_charged names l cs c :
  askedCharged names l → (∀ x, x ∈ cs → x ∈ names) → c ∈ cs → charged (reserveAll l cs) c.
Proof.
  intros Ha Hsub Hc. assert (askedCharged names (reserveAll l cs) ∧ ∀ x, x ∈ cs → charged (reserveAll l cs) x) as [_ Hall];
    [|by apply Hall]. clear Hc. induction cs as [|x cs IH] using rev_ind; [split; [done|set_solver]|].
  destruct IH as [IHa IHc]; [set_solver|]. unfold reserveAll in *. rewrite foldl_snoc.
  split; [by apply askedCharged_reserve|]. intros y [Hy|Hy%list_elem_of_singleton]%elem_of_app.
  - by apply charged_reserve, IHc.
  - subst y. apply (charged_own names); [done|]. set_solver.
Qed.

(** ** One card, many requests. *)

(** The requests of the engines asleep on a card. *)
Definition cardRequests (pod : Pod) (ledger : podLedger) : list wakeRequest :=
  sortBy requestBefore (omap (fun kv =>
    claim ← cutPrefix kv.1 ModelClaimWakeAnnotationPrefix;
    if sleepsOn ledger claim then Some (MkWake claim kv.2) else None) (map_to_list pod.(pod_Annotations))).

Lemma wakeRequestsOn_asleep waker pod ledger :
  sleepsOn ledger waker = true → wakeRequestsOn waker pod ledger = cardRequests pod ledger.
Proof.
  intros Hs. unfold wakeRequestsOn, cardRequests. f_equal. apply list_omap_ext, Forall2_same_length_lookup.
  split; [done|]. intros i x y Hx Hy. simplify_eq. unfold requestOf. destruct (cutPrefix x.1 _) as [c|]; simpl; [|done].
  case_bool_decide as E; [subst c; by rewrite Hs|]. by rewrite orb_false_r.
Qed.

Section Card.
Context (footprints : footprintsByClaim) (claims : option (list ModelClaim)) (namespace : string).
Context (canMakeRoom : bool) (idle : list idleEngine) (pod : Pod) (ledger : podLedger).

Abbreviation turnOf := (wakeTurnWith footprints claims namespace canMakeRoom idle).
Abbreviation requests := (cardRequests pod ledger).
Abbreviation cardTurns := (turns footprints claims namespace canMakeRoom idle (withoutReserves ledger requests) false requests).

(** A claim that asks to wake: its engine sleeps there, and the request is on the pod. *)
Definition asks (claim : string) : Prop :=
  sleepsOn ledger claim = true ∧ claim ∈ (wr_claim <$> requests).

Lemma turns_claims judged roomMade reqs :
  jd_claim <$> turns footprints claims namespace canMakeRoom idle judged roomMade reqs = wr_claim <$> reqs.
Proof.
  revert judged roomMade. induction reqs as [|r reqs IH]; intros judged roomMade; simpl; [done|].
  destruct (judgeRequest _ _ _ _ _ _ _ _) as [t rm]. simpl. by rewrite IH.
Qed.

(** The loop of the code finds the claim's entry. *)
Lemma turnOf_entry claim :
  asks claim →
  ∃ i j, cardTurns !! i = Some j ∧ jd_claim j = claim ∧ turnOf claim pod ledger = (jd_turn j, jd_account j).
Proof.
  intros [Hs Hc]. unfold wakeTurnWith. rewrite (wakeRequestsOn_asleep claim pod ledger Hs), judgeUntil_turns.
  rewrite <-(turns_claims (withoutReserves ledger requests) false requests) in Hc.
  apply list_elem_of_fmap in Hc as (x & -> & Hx).
  destruct (List.find _ _) as [j|] eqn:Ef.
  - apply List.find_some in Ef as [Hin%list_elem_of_In Hj%bool_decide_eq_true].
    apply list_elem_of_lookup in Hin as [i Hi]. by exists i, j.
  - apply list_elem_of_In, (List.find_none _ _ Ef) in Hx as Hf%bool_decide_eq_false. done.
Qed.

Lemma entry_unique i k x y :
  cardTurns !! i = Some x → cardTurns !! k = Some y → jd_claim x = jd_claim y → i = k.
Proof.
  intros Hx Hy Hc. assert (NoDup (jd_claim <$> cardTurns)) as Hnd.
  { rewrite turns_claims. destruct (decide (requests = [])) as [->|Hne]; [constructor|].
    destruct requests as [|r rs] eqn:Er; [done|]. assert (sleepsOn ledger (wr_claim r) = true) as Hs.
    { assert (r ∈ requests) as Hin by (rewrite Er; left). unfold cardRequests in Hin. rewrite elem_of_sortBy in Hin.
      apply list_elem_of_omap in Hin as (kv & _ & Hr). destruct (cutPrefix _ _) as [c|]; simpl in Hr; [|done].
      destruct (sleepsOn ledger c) eqn:E; [|done]. by injection Hr as <-. }
    rewrite <-Er, <-(wakeRequestsOn_asleep _ pod ledger Hs). apply requests_distinct. }
  eapply NoDup_lookup; [exact Hnd| |]; rewrite list_lookup_fmap; [by rewrite Hx|by rewrite Hy, Hc].
Qed.

(** The account of a request charges the requests before it that can be met, and its own. *)
Lemma entry_charges i k x y :
  cardTurns !! i = Some x → cardTurns !! k = Some y → (k ≤ i)%nat → (k = i ∨ jd_turn y ≠ wakeCannotFit) →
  charged (jd_account x) (jd_claim y).
Proof.
  intros Hx Hy Hk Ht. rewrite (turns_account _ _ _ _ _ _ _ _ _ _ Hx).
  apply (reserveAll_charged (wr_claim <$> requests)).
  - intros e He Hn Ha. pose proof (withoutReserves_asked _ _ e He Hn). congruence.
  - intros c. rewrite <-(turns_claims (withoutReserves ledger requests) false requests), elem_of_app. unfold metBefore.
    intros [(z & -> & Hz)%list_elem_of_fmap|Hz%list_elem_of_singleton].
    + apply list_elem_of_In, List.filter_In in Hz as [Hz%list_elem_of_In _]. apply list_elem_of_fmap_2.
      apply list_elem_of_lookup in Hz as [n Hn]. rewrite lookup_take_Some in Hn. destruct Hn as [Hn _].
      by eapply list_elem_of_lookup_2.
    + subst c. apply list_elem_of_fmap_2. by eapply list_elem_of_lookup_2.
  - apply elem_of_app. destruct (decide (k = i)) as [->|Hne]; [right; simplify_eq; apply list_elem_of_singleton; done|left].
    destruct Ht as [?|Ht]; [done|]. unfold metBefore. apply list_elem_of_fmap_2, list_elem_of_In, List.filter_In.
    split; [|by rewrite bool_decide_eq_false_2]. apply list_elem_of_In. eapply (list_elem_of_lookup_2 _ k).
    rewrite lookup_take_Some. split; [done|lia].
Qed.

Definition askedAt (claim : string) : option string :=
  pod.(pod_Annotations) !! String.append ModelClaimWakeAnnotationPrefix claim.
Definition askedFirst (a b : string) : Prop :=
  ∃ at_a at_b, askedAt a = Some at_a ∧ askedAt b = Some at_b ∧ askedBefore at_a a at_b b = true.

Lemma request_at r : r ∈ requests → askedAt (wr_claim r) = Some (wr_at r) ∧ sleepsOn ledger (wr_claim r) = true.
Proof.
  unfold cardRequests. rewrite elem_of_sortBy. intros (kv & Hin & Hr)%list_elem_of_omap.
  destruct (cutPrefix kv.1 _) as [c|] eqn:Ec; simpl in Hr; [|done]. destruct (sleepsOn ledger c) eqn:Es; [|done].
  injection Hr as <-. simpl. split; [|done]. apply cutPrefix_Some in Ec. unfold askedAt. rewrite <-Ec.
  apply elem_of_map_to_list. by destruct kv.
Qed.

(** An entry that comes earlier was not asked later. *)
Lemma entry_order i k x y :
  cardTurns !! i = Some x → cardTurns !! k = Some y → askedFirst (jd_claim x) (jd_claim y) → (i ≤ k)%nat.
Proof.
  intros Hx Hy (at_x & at_y & Hatx & Haty & Hb). destruct (decide (i ≤ k)%nat) as [|Hlt]; [done|].
  assert (∀ n z, cardTurns !! n = Some z → ∃ r, requests !! n = Some r ∧ wr_claim r = jd_claim z) as Hreq.
  { intros n z Hz. assert ((wr_claim <$> requests) !! n = Some (jd_claim z)) as Hn
      by (rewrite <-(turns_claims (withoutReserves ledger requests) false requests), list_lookup_fmap, Hz; done).
    rewrite list_lookup_fmap, fmap_Some in Hn. destruct Hn as (r & ? & ?). by exists r. }
  destruct (Hreq _ _ Hx) as (rx & Hrx & Hcx), (Hreq _ _ Hy) as (ry & Hry & Hcy).
  pose proof (StronglySorted_lookup _ _ (sortBy_sorted requestBefore _) _ _ _ _ Hry Hrx ltac:(lia)) as Hn.
  unfold notAfter, requestBefore in Hn.
  destruct (request_at rx) as [Hrat _]; [by eapply list_elem_of_lookup_2|]. rewrite Hcx, Hatx in Hrat.
  destruct (request_at ry) as [Hrbt _]; [by eapply list_elem_of_lookup_2|]. rewrite Hcy, Haty in Hrbt.
  injection Hrat as ->. injection Hrbt as ->. rewrite Hcx, Hcy in Hn. congruence.
Qed.

Lemma entry_asks i x : cardTurns !! i = Some x → asks (jd_claim x).
Proof.
  intros Hx. assert (jd_claim x ∈ (wr_claim <$> requests)) as Hc.
  { rewrite <-(turns_claims (withoutReserves ledger requests) false requests). apply list_elem_of_fmap_2.
    by eapply list_elem_of_lookup_2. }
  split; [|done]. apply list_elem_of_fmap in Hc as (r & -> & Hr). by apply request_at.
Qed.
End Card.

End Turns.

(** ** Three requests on a card that has room for two. *)

Section TurnWitness.
Local Existing Instance NanoK8s.

Definition exAsleep (name : string) : engineOnPod :=
  MkEngine name name name (MkPerGPUBytes 20 4) 2 0 None 0 0 0 false true 5 true false.

Definition exCard : podLedger :=
  MkLedger true None true false 60 15 15 0 1 1000 [exAsleep "alpha"; exAsleep "beta"; exAsleep "gamma"].

Definition exWakePod : Pod :=
  MkPod "ns" "pod-a" "pod-uid" ∅
    {[ String.append ModelClaimWakeAnnotationPrefix "alpha" := "2026-03-01T10:00:02Z";
       String.append ModelClaimWakeAnnotationPrefix "beta" := "2026-03-01T12:00:01+02:00";
       String.append ModelClaimWakeAnnotationPrefix "gamma" := "2026-03-01T10:00:07Z" ]}
    "node-1" "10.0.0.1" [] [] None "Running" None.

Definition exTurn (claim : string) : wakeTurn * podLedger := wakeTurnWith ∅ None "ns" false [] claim exWakePod exCard.

Example exTurns :
  (exTurn "alpha").1 = wakeNow ∧ (exTurn "beta").1 = wakeNow ∧ (exTurn "gamma").1 = wakeCannotFit.
Proof. vm_compute. done. Qed.

Lemma exAsks : asks exWakePod exCard "alpha" ∧ asks exWakePod exCard "beta".
Proof.
  assert (wr_claim <$> cardRequests exWakePod exCard = ["beta"; "alpha"; "gamma"]) as Hr by (vm_compute; reflexivity).
  split; (split; [vm_compute; reflexivity|]); rewrite Hr; apply list_elem_of_lookup; [by exists 1%nat|by exists 0%nat].
Qed.

End TurnWitness.
