(* ===== verification/SleepEngine.v ===== *)
(** * Putting an engine to sleep ([putEngineToSleep] of
    [pkg/controller/modelclaim/pool_policy_controller.go]) and what a claim's
    status says of its instances ([recomputeReadiness]).

    An engine's route is an annotation on its pod, which the gateway reads.  It
    is taken back before the engine is put to sleep, the engine is read again,
    and the route is put back when the sleep did not happen.  [PodApi] is what
    is called besides [Cluster], and [PodLaws] what these calls do. *)

From Stdlib Require Import Ascii.
From S2P Require Import Prelude Api Claims Ledger KVPlan Placement Reservations Runtime ArrangeCard PoolPolicy Division MakeRoom.

(** ** Routes. *)

Record ModelClaimRoute : Type := MkRoute {
  mr_Model : string;
  mr_Port : Z;
  mr_State : string;
  mr_WakeByRequest : bool;
  mr_Reason : string;
}.

Abbreviation ModelClaimPodAnnotationPrefix := "route.claim.model.aibrix.ai/" (only parsing).
Abbreviation ModelClaimRoutingStateActive := "active" (only parsing).
Abbreviation ModelClaimRoutingStateActivating := "activating" (only parsing).
Abbreviation ModelClaimRoutingStateSleeping := "sleeping" (only parsing).
Abbreviation ModelClaimRoutingStateFailed := "failed" (only parsing).

Section Json.
Definition concat (l : list string) : string := foldr String.append "" l.
Definition hexDigit (n : nat) : ascii := default "0"%char (String.get n "0123456789abcdef").
Definition quoteChar : string := String (ascii_of_nat 34) "".
Definition backslash (s : string) : string := String (ascii_of_nat 92) s.

(** How [encoding/json] writes one byte of a valid UTF-8 string. *)
Definition escapeByte (c : ascii) : string :=
  let n := nat_of_ascii c in
  let hex := backslash (String.append "u00" (String (hexDigit (n / 16)) (String (hexDigit (n mod 16)) ""))) in
  match n with
  | 34 => backslash quoteChar
  | 92 => backslash (backslash "")
  | 8 => backslash "b"
  | 9 => backslash "t"
  | 10 => backslash "n"
  | 12 => backslash "f"
  | 13 => backslash "r"
  | 38 | 60 | 62 => hex
  | _ => if (n <? 32)%nat then hex else String c ""
  end%nat.

(** The line separators are escaped too. *)
Definition separator (c d e : ascii) : option string :=
  match nat_of_ascii c, nat_of_ascii d, nat_of_ascii e with
  | 226, 128, 168 => Some (backslash "u2028")
  | 226, 128, 169 => Some (backslash "u2029")
  | _, _, _ => None
  end%nat.

Fixpoint escape (s : string) : string :=
  match s with
  | String c rest =>
      match rest with
      | String d (String e rest') =>
          match separator c d e with
          | Some escaped => String.append escaped (escape rest')
          | None => String.append (escapeByte c) (escape rest)
          end
      | _ => String.append (escapeByte c) (escape rest)
      end
  | EmptyString => ""
  end.

Definition quote (s : string) : string := concat [quoteChar; escape s; quoteChar].
Definition field (name value : string) : string := concat [quote name; ":"; value].

(** [json.Marshal] of a route: the fields that may be left out when they are
    empty are. *)
Definition marshalRoute (r : ModelClaimRoute) : string :=
  let optional name (v : string) := if bool_decide (v = "") then "" else String.append "," (field name (quote v)) in
  concat ["{"; field "model" (quote r.(mr_Model)); ","; field "port" (pretty r.(mr_Port));
    optional "state" r.(mr_State);
    if r.(mr_WakeByRequest) then String.append "," (field "wakeByRequest" "true") else "";
    optional "reason" r.(mr_Reason); "}"].
End Json.

(** ** The calls. *)

(** Why a call to a runtime failed: the chain of errors that wrap each other. *)
Inductive errorLayer : Type :=
| runtimeRefusal (message : string)
| errRuntimeSilent
| UrlError (op : string)
| NetOpError (op : string)
| OtherError (message : string).

Definition callError : Type := list errorLayer.

(** [errors.As]: the outermost error of a kind. *)
Definition errorsAs {A} (kind : errorLayer → option A) (err : callError) : option A := head (omap kind err).

Definition refusedByRuntime (err : callError) : bool :=
  bool_decide (is_Some (errorsAs (fun e => match e with runtimeRefusal m => Some m | _ => None end) err)).

Definition callNotDone (err : callError) : bool :=
  if refusedByRuntime err then true
  else if bool_decide (is_Some (errorsAs (fun e => match e with errRuntimeSilent => Some () | _ => None end) err)) then true
  else if bool_decide (errorsAs (fun e => match e with UrlError op => Some op | _ => None end) err = Some "parse") then true
  else bool_decide (errorsAs (fun e => match e with NetOpError op => Some op | _ => None end) err = Some "dial").

Record SleepRequest : Type := MkSleepRequest {
  slr_ModelName : string;
  slr_Level : Z;
  slr_OperationID : string;
}.

Record WakeRequest : Type := MkWakeRequest {
  wkr_ModelName : string;
  wkr_OperationID : string;
}.

Class PodApi `{ClusterReads W} := {
  GetPod : NamespacedName → W → W * result apiError Pod;
  (** A merge patch of a pod from one version to another, and the pod as the
      server has it then. *)
  PatchPod : Pod → Pod → W → W * result apiError Pod;
  (** Whether the call was the one that was applied. *)
  Sleep : string → SleepRequest → W → W * result callError bool;
  Wake : string → WakeRequest → W → W * result callError bool;
  (** [meta.SetStatusCondition] of apimachinery, which reads the clock. *)
  SetStatusCondition : list Condition → Condition → W → W * list Condition;
}.

(** ** A claim's readiness. *)

Abbreviation instanceReasonWaitingForRoom := "WaitingForRoom" (only parsing).
Abbreviation instanceReasonNoRoomToWake := "NoRoomToWake" (only parsing).
Abbreviation instanceReasonWakeFailed := "WakeFailed" (only parsing).
Abbreviation readyReasonWaitingForRoom := "WaitingForRoom" (only parsing).
Abbreviation readyReasonMoving := "Moving" (only parsing).

Definition movingReason (reason : string) : bool :=
  bool_decide (reason = instanceReasonNoRoomToWake) || bool_decide (reason = instanceReasonWakeFailed).

Section Readiness.
Context `{K8s}.

Definition setStatus (claim : ModelClaim) (phase : ModelClaimPhase) (ready : Z) (conditions : list Condition) : ModelClaim :=
  MkModelClaim claim.(mc_Namespace) claim.(mc_Name) claim.(mc_UID) claim.(mc_Generation)
    claim.(mc_CreationTimestamp) claim.(mc_DeletionTimestamp) claim.(spec_ModelName)
    claim.(spec_PodSelector) claim.(spec_ArtifactURL) claim.(spec_Engine) claim.(spec_Replicas)
    claim.(spec_Priority) claim.(spec_PreemptionPolicy) claim.(spec_EngineArgs) claim.(spec_PerGPU)
    phase claim.(status_Instances) conditions claim.(status_Candidates)
    ready claim.(status_DesiredReplicas) claim.(mc_ResourceVersion) claim.(mc_Finalizers).

Definition countPhase (pm : ModelClaim) (phase : ModelClaimPhase) (more : ModelClaimInstance → bool) : Z :=
  Z.of_nat (length (List.filter (fun inst => bool_decide (inst.(inst_Phase) = phase) && more inst) pm.(status_Instances))).

Definition ConditionReady : string := "Ready".
Definition readyOf (conditions : list Condition) : option Condition :=
  List.find (fun c => bool_decide (c.(cond_Type) = ConditionReady)) conditions.

(** The time is set by [SetStatusCondition]. *)
Definition readyCondition (status : ConditionStatus) (reason message : string) : Condition :=
  MkCondition ConditionReady status zeroTime reason message.

(** The phase of a claim, and its Ready condition when it is to be set. *)
Definition readinessOf (pm : ModelClaim) : ModelClaimPhase * option Condition :=
  let n := Z.of_nat (length pm.(status_Instances)) in
  let any := fun _ : ModelClaimInstance => true in
  let active := countPhase pm ModelClaimActive any in
  let sleeping := countPhase pm ModelClaimSleeping any in
  let failed := countPhase pm ModelClaimFailed any in
  let moving := countPhase pm ModelClaimFailed (fun inst => movingReason inst.(inst_Reason)) in
  let waiting := countPhase pm ModelClaimSleeping (fun inst => bool_decide (inst.(inst_Reason) = instanceReasonWaitingForRoom)) in
  if (0 <? failed) && (moving =? failed) then
    (ModelClaimFailed, Some (readyCondition ConditionFalse readyReasonMoving
       "the model could not wake on its pod, and is moving to another pod"))
  else if 0 <? failed then
    (ModelClaimFailed, Some (readyCondition ConditionFalse "EngineFailed"
       "one or more model engine instances exhausted local restart attempts"))
  else if (0 <? n) && (active =? n) then
    (ModelClaimActive, Some (readyCondition ConditionTrue "ModelClaimActive" "model is active on at least one warm pod"))
  else if (0 <? sleeping) && (0 <? waiting) then
    (ModelClaimSleeping, Some (readyCondition ConditionFalse readyReasonWaitingForRoom
       "a request asked for the model, and its card cannot take it back yet"))
  else if 0 <? sleeping then
    (ModelClaimSleeping, Some (readyCondition ConditionFalse "EngineSleeping"
       "one or more model engine instances are sleeping and non-routable"))
  else if 0 <? n then
    (ModelClaimActivating, Some (readyCondition ConditionFalse "EngineStarting"
       "engine(s) spawned, waiting for readiness probe"))
  else
    (ModelClaimPending,
     match readyOf pm.(status_Conditions) with
     | Some ready =>
         if bool_decide (ready.(cond_Status) = ConditionFalse) then None
         else Some (readyCondition ConditionFalse "NotPlaced"
                "no engine is placed for the model; the Scheduled condition says why")
     | None => None
     end).
End Readiness.

(** ** Putting an engine to sleep. *)

Inductive sleepError : Type :=
| RouteNotTakenBack
| EngineServing
| EngineNotRead
| EngineNotListed
| SleepFailed (why : callError)
| SleepNotRecorded (why : apiError).

(** What a pass keeps in memory, as far as sleeps are concerned. *)
Record passState : Type := MkPass {
  ps_readings : runtimeReadings;
  ps_manager : poolPolicyManager;
  ps_footprints : footprintsByClaim;
}.

Section Sleep.
Context `{PodApi W}.

Definition recomputeReadiness (pm : ModelClaim) : Run W ModelClaim :=
  let '(phase, condition) := readinessOf pm in
  let active := countPhase pm ModelClaimActive (fun _ => true) in
  match condition with
  | Some c =>
      conditions ← call (SetStatusCondition pm.(status_Conditions) c);
      mret (setStatus pm phase (wrap32 active) conditions)
  | None => mret (setStatus pm phase (wrap32 active) pm.(status_Conditions))
  end.

Definition setAnnotations (pod : Pod) (annotations : gmap string string) : Pod :=
  MkPod pod.(pod_Namespace) pod.(pod_Name) pod.(pod_UID) pod.(pod_Labels) annotations pod.(pod_NodeName)
    pod.(pod_IP) pod.(pod_Conditions) pod.(pod_Containers) pod.(pod_Controller) pod.(pod_Phase)
    pod.(pod_DeletionTimestamp).

Definition routeKey (claimName : string) : string := String.append ModelClaimPodAnnotationPrefix claimName.
Definition routeValue (pm : ModelClaim) (port : Z) (state reason : string) : string :=
  marshalRoute (MkRoute (servedModelName pm) port state true reason).

(** The pod is changed in place: after a patch that failed it has the new
    annotation all the same. *)
Definition annotateWarmPodWithState (pm : ModelClaim) (pod : Pod) (port : Z) (state reason : string)
  : Run W (Pod * result apiError unit) :=
  let key := routeKey pm.(mc_Name) in
  let value := routeValue pm port state reason in
  if bool_decide (pod.(pod_Annotations) !! key = Some value) then mret (pod, Ok ())
  else
    let changed := setAnnotations pod (<[key := value]> pod.(pod_Annotations)) in
    answer ← call (PatchPod pod changed);
    mret (match answer with Ok patched => (patched, Ok ()) | Err e => (changed, Err e) end).

(** The first instance on a pod, marked as sleeping, and whether that changed it. *)
Fixpoint markSleeping (podName : string) (instances : list ModelClaimInstance) : list ModelClaimInstance * bool :=
  match instances with
  | [] => ([], false)
  | inst :: rest =>
      if bool_decide (inst.(inst_Pod) = podName) then
        if bool_decide (inst.(inst_Phase) = ModelClaimSleeping) then (inst :: rest, false)
        else (MkInstance inst.(inst_Pod) inst.(inst_Port) ModelClaimSleeping inst.(inst_KVLimitBytes)
                inst.(inst_Reason) :: rest, true)
      else let '(rest', changed) := markSleeping podName rest in (inst :: rest', changed)
  end.

Definition markClaimInstanceSleeping (pm : ModelClaim) (podName : string) : Run W (result apiError unit) :=
  got ← call (GetClaim (MkNN pm.(mc_Namespace) pm.(mc_Name)));
  match got with
  | Err e => mret (Err e)
  | Ok latest =>
      let '(instances, changed) := markSleeping podName latest.(status_Instances) in
      if negb changed then mret (Ok ())
      else
        latest ← recomputeReadiness (setInstances latest instances);
        updated ← call (StatusUpdate latest);
        mret (match updated with Ok _ => Ok () | Err e => Err e end)
  end.

Definition setReadings (s : passState) (rr : runtimeReadings) : passState := MkPass rr s.(ps_manager) s.(ps_footprints).
Definition forgetReading (s : passState) (podName : string) : passState := setReadings s (forget s.(ps_readings) podName).

Definition readPod (s : passState) (pod : Pod) : Run W (passState * result runtimeError (option RuntimeSnapshot)) :=
  '(rr, reply) ← reading_of s.(ps_readings) pod;
  mret (setReadings s rr, reply).

(** An engine that was read to have no request, and to have completed none. *)
Definition engineIsQuiet (s : passState) (pod : Pod) (claim : ModelClaim) (modelName : string)
  : Run W (passState * result sleepError unit) :=
  '(s, reply) ← readPod s pod;
  match reply with
  | Err _ => mret (s, Err EngineNotRead)
  | Ok snapshot =>
      match snapshotModelForClaim snapshot claim modelName with
      | None => mret (s, Err EngineNotListed)
      | Some model =>
          if negb model.(sm_RequestMetricsObserved) || (0 <? model.(sm_RequestsRunning)) || (0 <? model.(sm_RequestsWaiting))
          then mret (s, Err EngineServing)
          else
            now ← call Now;
            let '(manager, activity) := observeEngine s.(ps_manager) (poolActivityKey pod model) model now in
            let s := MkPass s.(ps_readings) manager s.(ps_footprints) in
            mret (s, match activity with
                     | Some a => if a.(act_Active) then Err EngineServing else Ok ()
                     | None => Ok ()
                     end)
      end
  end.

Definition putEngineToSleep (s : passState) (claim : ModelClaim) (pod : Pod) (port : Z) (modelName operationID : string)
  : Run W (passState * Pod * result sleepError unit) :=
  '(pod, taken) ← annotateWarmPodWithState claim pod 0 ModelClaimRoutingStateSleeping "";
  match taken with
  | Err _ => mret (s, pod, Err RouteNotTakenBack)
  | Ok _ =>
      '(s, quiet) ← engineIsQuiet (forgetReading s pod.(pod_Name)) pod claim modelName;
      match quiet with
      | Err e =>
          '(pod, _) ← annotateWarmPodWithState claim pod port ModelClaimRoutingStateActive "";
          mret (s, pod, Err e)
      | Ok _ =>
          answer ← call (Sleep pod.(pod_IP) (MkSleepRequest modelName 1 operationID));
          let s := forgetReading s pod.(pod_Name) in
          match answer with
          | Err why =>
              '(pod, _) ← annotateWarmPodWithState claim pod port ModelClaimRoutingStateActive "";
              mret (s, pod, Err (SleepFailed why))
          | Ok _ =>
              marked ← markClaimInstanceSleeping claim pod.(pod_Name);
              mret (s, pod, match marked with Ok _ => Ok () | Err e => Err (SleepNotRecorded e) end)
          end
      end
  end.

Definition sleptEngine (s : passState) (pod : Pod) (claim : ModelClaim) : Run W (passState * option RuntimeSnapshotModel) :=
  '(s, reply) ← readPod s pod;
  mret (s, match reply with
           | Err _ => None
           | Ok snapshot => snapshotModelForClaim snapshot claim (servedModelName claim)
           end).

Definition noteFootprint (s : passState) (claim : ModelClaim) (asleep : option RuntimeSnapshotModel) : passState :=
  match asleep ≫= sleepingFootprintOf with
  | Some footprint => MkPass s.(ps_readings) s.(ps_manager) (note s.(ps_footprints) claim footprint)
  | None => s
  end.

Definition slashes (l : list string) : string :=
  match l with [] => "" | first :: rest => String.append first (concat (String.append "/" <$> rest)) end.

Definition makeRoomOperation (idle : idleEngine) (pod : Pod) (forClaim : ModelClaim) : string :=
  slashes ["make-room"; pod.(pod_UID); snapshotActivityKey idle.(idle_model); forClaim.(mc_UID); pretty idle.(idle_since)].

(** To make room for [forClaim]; whether it was put to sleep. *)
Definition putIdleEngineToSleep (s : passState) (idle : idleEngine) (pod : Pod) (forClaim : ModelClaim)
  : Run W (passState * Pod * bool) :=
  '(s, pod, slept) ← putEngineToSleep s idle.(idle_claim) pod idle.(idle_port) idle.(idle_model).(sm_ModelName)
    (makeRoomOperation idle pod forClaim);
  match slept with
  | Err _ => mret (s, pod, false)
  | Ok _ =>
      '(s, asleep) ← sleptEngine s pod idle.(idle_claim);
      mret (noteFootprint s idle.(idle_claim) asleep, pod, true)
  end.
End Sleep.

(** ** What the calls do. *)

(** The routes on the pods, by pod and claim, which only this controller
    writes, and which engines sleep. *)
Class PodLaws `{PodApi W} := {
  routeAt : W → NamespacedName → string → option string;
  asleepAt : W → string → string → bool;
  podKept w w' := (∀ p c, routeAt w' p c = routeAt w p c) ∧ (∀ ip m, asleepAt w' ip m = asleepAt w ip m);

  Snapshot_podKept ip w : podKept w (Snapshot ip w).1;
  GetClaim_podKept c w : podKept w (GetClaim c w).1;
  StatusUpdate_podKept claim w : podKept w (StatusUpdate claim w).1;
  Now_podKept w : podKept w (Now w).1;
  SetStatusCondition_podKept cs c w : podKept w (SetStatusCondition cs c w).1;

  (** A patch reaches the server or not; when it says so it has. *)
  PatchPod_law old new w : let w' := (PatchPod old new w).1 in
    let key := MkNN old.(pod_Namespace) old.(pod_Name) in
    (∀ ip m, asleepAt w' ip m = asleepAt w ip m) ∧
    (∀ p c, routeAt w' p c = routeAt w p c ∨
       (p = key ∧ old.(pod_Annotations) !! routeKey c ≠ new.(pod_Annotations) !! routeKey c ∧
        routeAt w' p c = new.(pod_Annotations) !! routeKey c)) ∧
    ∀ patched, (PatchPod old new w).2 = Ok patched →
      patched.(pod_Namespace) = old.(pod_Namespace) ∧ patched.(pod_Name) = old.(pod_Name) ∧ patched.(pod_IP) = old.(pod_IP) ∧
      (∀ c, patched.(pod_Annotations) !! routeKey c = routeAt w' key c) ∧
      ∀ c, old.(pod_Annotations) !! routeKey c ≠ new.(pod_Annotations) !! routeKey c →
        routeAt w' key c = new.(pod_Annotations) !! routeKey c;

  (** A sleep touches its engine only, and nothing when it is known not to have
      been done. *)
  Sleep_law ip req w : let w' := (Sleep ip req w).1 in
    (∀ p c, routeAt w' p c = routeAt w p c) ∧
    (∀ ip' m, asleepAt w' ip' m = asleepAt w ip' m ∨ (ip' = ip ∧ m = req.(slr_ModelName))) ∧
    ∀ why, (Sleep ip req w).2 = Err why → callNotDone why = true → ∀ ip' m, asleepAt w' ip' m = asleepAt w ip' m;
}.

Section SleepFacts.
Context `{PodLaws W}.

#[local] Instance podKept_preorder : PreOrder podKept.
Proof. split; [done|]. intros w w1 w2 [Ha Hb] [Hc Hd]. split; intros; [by rewrite Hc|by rewrite Hd]. Qed.

(** A computation that touches no route and no engine's sleep. *)
#[local] Abbreviation leavesPods := (within podKept) (only parsing).

#[local] Hint Resolve Snapshot_podKept GetClaim_podKept StatusUpdate_podKept Now_podKept SetStatusCondition_podKept : within.

Lemma recomputeReadiness_leaves pm : leavesPods (recomputeReadiness pm).
Proof. unfold recomputeReadiness. stays. Qed.
#[local] Hint Resolve recomputeReadiness_leaves : within.

Lemma markClaimInstanceSleeping_leaves pm podName : leavesPods (markClaimInstanceSleeping pm podName).
Proof. unfold markClaimInstanceSleeping. stays. Qed.

(** A pod's copy shows a claim's route. *)
Definition showsRoute (pod : Pod) (claim : string) (w : W) : Prop :=
  pod.(pod_Annotations) !! routeKey claim = routeAt w (MkNN pod.(pod_Namespace) pod.(pod_Name)) claim.
Definition samePod (pod pod' : Pod) : Prop :=
  pod'.(pod_Namespace) = pod.(pod_Namespace) ∧ pod'.(pod_Name) = pod.(pod_Name) ∧ pod'.(pod_IP) = pod.(pod_IP).

Lemma annotate_runs claim pod port state reason w :
  showsRoute pod claim.(mc_Name) w →
  let key := MkNN pod.(pod_Namespace) pod.(pod_Name) in
  let value := routeValue claim port state reason in
  runs (annotateWarmPodWithState claim pod port state reason) w (fun t r w' =>
    (∀ x, x ∈ t → x = w') ∧ w' ∈ w :: t ∧ (∀ ip m, asleepAt w' ip m = asleepAt w ip m) ∧ samePod pod r.1 ∧
    (routeAt w' key claim.(mc_Name) = routeAt w key claim.(mc_Name) ∨ routeAt w' key claim.(mc_Name) = Some value) ∧
    (r.2 = Ok () → routeAt w' key claim.(mc_Name) = Some value ∧ showsRoute r.1 claim.(mc_Name) w')).
Proof.
  intros Hshow key value. unfold annotateWarmPodWithState. fold value. case_bool_decide as E.
  - apply runs_ret. cbn [fst snd]. split_and!; [set_solver|left|done|done|by left|]. intros _. split; [|done].
    unfold showsRoute in Hshow. fold key in Hshow. by rewrite <-Hshow.
  - apply runs_bind, runs_call. set (changed := setAnnotations _ _). destruct (PatchPod_law pod changed w) as (Hsl & Hrt & Hok).
    fold key in Hrt, Hok. apply runs_ret. assert (pod_Annotations changed !! routeKey (mc_Name claim) = Some value) as Hc
      by apply lookup_insert_eq.
    assert (pod_Annotations pod !! routeKey (mc_Name claim) ≠ pod_Annotations changed !! routeKey (mc_Name claim)) as Hne
      by congruence.
    split_and!.
    + intros x. rewrite app_nil_r. intros ->%list_elem_of_singleton. done.
    + rewrite app_nil_r. right. left.
    + done.
    + destruct (PatchPod pod changed w).2 as [patched|e] eqn:Ea; [|done]. destruct (Hok _ eq_refl) as (? & ? & ? & _). done.
    + destruct (Hrt key (mc_Name claim)) as [?|(_ & _ & Hr)]; [by left|right]. by rewrite Hr.
    + destruct (PatchPod pod changed w).2 as [patched|e] eqn:Ea; [|done]. intros _.
      destruct (Hok _ eq_refl) as (Hns & Hn & Hip & Hann & Hset). rewrite Hset by done. split; [done|].
      unfold showsRoute. cbn [fst]. by rewrite Hns, Hn, Hann.
Qed.

(** The engine's runtime, read at this moment, has no request for it. *)
Definition quietAt (pod : Pod) (claim : ModelClaim) (modelName : string) (w : W) : Prop :=
  ∃ snapshot x, (Snapshot pod.(pod_IP) w).2 = Ok snapshot ∧ snapshotModelForClaim snapshot claim modelName = Some x ∧
    sm_RequestMetricsObserved x = true ∧ sm_RequestsRunning x ≤ 0 ∧ sm_RequestsWaiting x ≤ 0.

Lemma engineIsQuiet_runs s pod claim modelName w :
  runs (engineIsQuiet (forgetReading s pod.(pod_Name)) pod claim modelName) w (fun t r w' =>
    Forall (podKept w) t ∧ podKept w w' ∧
    match r.2 with
    | Ok _ => quietAt pod claim modelName w
    | Err e => e = EngineNotRead ∨ e = EngineNotListed ∨ e = EngineServing
    end).
Proof.
  unfold engineIsQuiet, readPod, reading_of. cbn [ps_readings forgetReading setReadings forget rr_byPod].
  rewrite lookup_delete_eq. do 3 apply runs_bind. apply runs_call. apply runs_ret. cbn [app]. apply runs_ret. cbn [app].
  pose proof (Snapshot_podKept (pod_IP pod) w) as Hk. destruct (Snapshot (pod_IP pod) w) as [w1 reply] eqn:Es. cbn [fst snd] in *.
  destruct reply as [snapshot|e]; [|apply runs_ret; split_and!; [by apply Forall_singleton|done|simpl; tauto]].
  destruct (snapshotModelForClaim snapshot claim modelName) as [x|] eqn:Ex;
    [|apply runs_ret; split_and!; [by apply Forall_singleton|done|simpl; tauto]].
  destruct (negb _ || _ || _) eqn:Eq; [apply runs_ret; split_and!; [by apply Forall_singleton|done|simpl; tauto]|].
  apply runs_bind, runs_call. pose proof (Now_podKept w1) as Hn. destruct (Now w1) as [w2 now]. cbn [fst snd] in *.
  destruct (observeEngine _ _ _ _) as [manager activity]. apply runs_ret. cbn [app fst snd].
  split_and!; [repeat (apply Forall_cons; split; [by etrans|]); done|by etrans|].
  assert (quietAt pod claim modelName w) as Hq; [|destruct activity as [a|]; [destruct (act_Active a)|]; cbn [snd]; auto].
  exists snapshot, x. rewrite Es. apply orb_false_iff in Eq as [[Ho Hr%Z.ltb_ge]%orb_false_iff Hw%Z.ltb_ge].
  apply negb_false_iff in Ho. done.
Qed.

Lemma showsRoute_kept pod pod' claim w w' :
  podKept w w' → samePod pod pod' → pod_Annotations pod' = pod_Annotations pod → showsRoute pod claim w → showsRoute pod' claim w'.
Proof. intros [Hr _] (Hns & Hn & _) Ha. unfold showsRoute. by rewrite Ha, Hns, Hn, Hr. Qed.

(** What happens between the engine found quiet, off its route, and the end. *)
Lemma asleep_or_back claim pod port modelName operationID s w :
  showsRoute pod claim.(mc_Name) w →
  let key := MkNN pod.(pod_Namespace) pod.(pod_Name) in
  let off := Some (routeValue claim 0 ModelClaimRoutingStateSleeping "") in
  let on := Some (routeValue claim port ModelClaimRoutingStateActive "") in
  routeAt w key claim.(mc_Name) = off →
  runs (answer ← call (Sleep pod.(pod_IP) (MkSleepRequest modelName 1 operationID));
        let s := forgetReading s pod.(pod_Name) in
        match answer with
        | Err why =>
            '(pod, _) ← annotateWarmPodWithState claim pod port ModelClaimRoutingStateActive "";
            mret (s, pod, Err (SleepFailed why))
        | Ok _ =>
            marked ← markClaimInstanceSleeping claim pod.(pod_Name);
            mret (s, pod, match marked with Ok _ => Ok () | Err e => Err (SleepNotRecorded e) end)
        end) w (fun t r w' =>
    match r.2 with
    | Ok _ | Err (SleepNotRecorded _) => Forall (fun x => routeAt x key claim.(mc_Name) = off) (w' :: t)
    | Err (SleepFailed why) =>
        (routeAt w' key claim.(mc_Name) = off ∨ routeAt w' key claim.(mc_Name) = on) ∧
        (callNotDone why = true → ∀ x, x ∈ t → ∀ ip e, asleepAt x ip e = asleepAt w ip e)
    | _ => False
    end).
Proof.
  intros Hshow key off on Hoff. apply runs_bind, runs_call.
  destruct (Sleep_law (pod_IP pod) (MkSleepRequest modelName 1 operationID) w) as (Hr & _ & Hun).
  destruct (Sleep _ _ w) as [w1 answer]. cbn [fst snd] in *.
  assert (routeAt w1 key (mc_Name claim) = off) as Hoff1 by (by rewrite Hr).
  destruct answer as [applied|why].
  - apply runs_bind. eapply runs_mono; [apply markClaimInstanceSleeping_leaves|]. intros t marked w2 (Ht & Hk & _).
    apply runs_ret. cbn [snd]. assert (Forall (λ x, routeAt x key (mc_Name claim) = off) (w2 :: [w1] ++ t ++ [])).
    { apply Forall_cons. split; [by rewrite (proj1 Hk)|]. rewrite app_nil_r. apply Forall_cons. split; [done|].
      eapply Forall_impl; [exact Ht|]. intros x Hx. by rewrite (proj1 Hx). }
    by destruct marked.
  - apply runs_bind. eapply runs_mono; [apply annotate_runs; unfold showsRoute in *; fold key; rewrite Hr; exact Hshow|].
    intros t [pod' r] w2 (Ht & _ & Hsl & _ & Hroute & _). apply runs_ret. cbn [snd]. fold key in Hroute. rewrite Hoff1 in Hroute.
    split; [exact Hroute|]. intros Hnot x. rewrite app_nil_r. intros [->|Hx]%elem_of_cons; [by apply (Hun why)|].
    rewrite (Ht x Hx). intros ip e. rewrite Hsl. by apply (Hun why).
Qed.

End SleepFacts.

(** ** What a claim's status says. *)

(** [meta.SetStatusCondition] sets the condition of the type it is given, and
    touches no other. *)
Class ConditionLaws `{PodApi W} := {
  SetStatusCondition_law cs c w :
    ∃ c', List.find (fun x => bool_decide (x.(cond_Type) = c.(cond_Type))) (SetStatusCondition cs c w).2 = Some c' ∧
      c'.(cond_Status) = c.(cond_Status) ∧ c'.(cond_Reason) = c.(cond_Reason) ∧ c'.(cond_Message) = c.(cond_Message);
}.

Section ReadinessFacts.
Context `{ConditionLaws W}.

(** There is an instance, and every instance serves. *)
Definition serving (pm : ModelClaim) : Prop :=
  status_Instances pm ≠ [] ∧ Forall (fun i => inst_Phase i = ModelClaimActive) (status_Instances pm).

Lemma countPhase_pos pm phase more :
  0 < countPhase pm phase more ↔
  Exists (fun i => inst_Phase i = phase ∧ more i = true) (status_Instances pm).
Proof.
  unfold countPhase. induction (status_Instances pm) as [|i l IH]; simpl; [split; [lia|by intros ?%Exists_nil]|].
  rewrite Exists_cons, <-IH. case_bool_decide; simpl; [destruct (more i); simpl|]; naive_solver lia.
Qed.

Lemma countPhase_all pm phase :
  countPhase pm phase (fun _ => true) = Z.of_nat (length (status_Instances pm)) ↔
  Forall (fun i => inst_Phase i = phase) (status_Instances pm).
Proof.
  unfold countPhase. induction (status_Instances pm) as [|i l IH]; [done|]. rewrite Forall_cons, <-IH.
  pose proof (filter_length_le (fun i => bool_decide (inst_Phase i = phase) && true) l).
  cbn [List.filter length]. case_bool_decide; cbn [andb length]; split; try intros [? ?]; try split; try done; lia.
Qed.

Lemma serving_none_else pm phase :
  serving pm → phase ≠ ModelClaimActive → ¬ 0 < countPhase pm phase (fun _ => true).
Proof.
  intros [_ Hall] Hp (i & Hi & Hip & _)%countPhase_pos%Exists_exists. rewrite Forall_forall in Hall.
  apply Hp. rewrite <-Hip. by apply Hall.
Qed.

Lemma serving_counts pm :
  serving pm ↔ (0 <? Z.of_nat (length (status_Instances pm))) &&
    (countPhase pm ModelClaimActive (fun _ => true) =? Z.of_nat (length (status_Instances pm))) = true.
Proof.
  rewrite andb_true_iff, Z.ltb_lt, Z.eqb_eq, countPhase_all. unfold serving.
  destruct (status_Instances pm); simpl; naive_solver lia.
Qed.

(** The phase and the condition that are set, in terms of the instances. *)
Lemma readinessOf_spec pm :
  let '(phase, condition) := readinessOf pm in
  (phase = ModelClaimActive ↔ serving pm) ∧
  (phase = ModelClaimFailed ↔ Exists (fun i => inst_Phase i = ModelClaimFailed) (status_Instances pm)) ∧
  (phase = ModelClaimPending ↔ status_Instances pm = []) ∧
  match condition with
  | Some c => cond_Type c = ConditionReady ∧ (cond_Status c = ConditionTrue ↔ serving pm)
  | None => ¬ serving pm ∧
      ∀ c, readyOf (status_Conditions pm) = Some c → cond_Status c = ConditionFalse
  end.
Proof.
  assert (0 < countPhase pm ModelClaimFailed (fun _ => true) ↔
    Exists (fun i => inst_Phase i = ModelClaimFailed) (status_Instances pm)) as Hf
    by (rewrite countPhase_pos, !Exists_exists; naive_solver).
  pose proof (serving_counts pm) as Hs. pose proof (serving_none_else pm ModelClaimFailed) as Hn.
  assert (status_Instances pm = [] → ¬ 0 < countPhase pm ModelClaimFailed (fun _ => true) ∧
    ¬ 0 < countPhase pm ModelClaimSleeping (fun _ => true)) as Hnil
    by (unfold countPhase; intros ->; simpl; lia).
  assert (0 < Z.of_nat (length (status_Instances pm)) ↔ status_Instances pm ≠ []) as Hlen
    by (destruct (status_Instances pm); simpl; naive_solver lia).
  set (anyFailed := Exists _ (status_Instances pm)) in *. clearbody anyFailed.
  unfold readinessOf. cbv zeta. destruct (_ && (_ =? Z.of_nat _)) eqn:Es.
  - assert (serving pm) as Hsv by (by apply Hs). pose proof (Hn Hsv ltac:(done)) as Hn0.
    rewrite (proj2 (Z.ltb_ge 0 (countPhase pm ModelClaimFailed (fun _ => true)))) by lia. simpl.
    destruct Hsv. split_and!; naive_solver.
  - assert (¬ serving pm) as Hsv by (rewrite Hs; congruence). clear Hs Hn Es.
    destruct (Z.ltb_spec 0 (countPhase pm ModelClaimFailed (fun _ => true))); simpl;
      [destruct (_ =? _); simpl; split_and!; naive_solver|].
    destruct (Z.ltb_spec 0 (countPhase pm ModelClaimSleeping (fun _ => true))); simpl;
      [destruct (0 <? _); simpl; split_and!; naive_solver lia|].
    destruct (Z.ltb_spec 0 (Z.of_nat (length (status_Instances pm)))); simpl;
      [split_and!; naive_solver lia|].
    split_and!; [naive_solver|naive_solver lia|destruct (status_Instances pm); [done|simpl in *; lia]|].
    destruct (readyOf _) as [c|]; [case_bool_decide|]; naive_solver.
Qed.

(** What a claim's status says of its instances, once [recomputeReadiness]
    has run: the phase is Active, and the Ready condition True, exactly when
    there is an instance and every instance serves; the phase is Failed exactly
    when one failed, and Pending exactly when none is placed; the ready replicas
    are the instances that serve; and the instances themselves are kept. *)
Theorem readiness_is_of_the_instances pm w :
  let pm' := value (recomputeReadiness pm) w in
  (status_Phase pm' = ModelClaimActive ↔ serving pm) ∧
  ((∃ c, readyOf (status_Conditions pm') = Some c ∧ cond_Status c = ConditionTrue) ↔ serving pm) ∧
  (status_Phase pm' = ModelClaimFailed ↔ Exists (fun i => inst_Phase i = ModelClaimFailed) (status_Instances pm)) ∧
  (status_Phase pm' = ModelClaimPending ↔ status_Instances pm = []) ∧
  status_ReadyReplicas pm' =
    wrap32 (Z.of_nat (length (List.filter (fun i => bool_decide (inst_Phase i = ModelClaimActive)) (status_Instances pm)))) ∧
  status_Instances pm' = status_Instances pm.
Proof.
  assert (∀ l, List.filter (fun i => bool_decide (inst_Phase i = ModelClaimActive) && true) l =
    List.filter (fun i => bool_decide (inst_Phase i = ModelClaimActive)) l) as Hcount
    by (intros l; apply filter_ext; intros; apply andb_true_r).
  pose proof (readinessOf_spec pm) as Hspec. unfold recomputeReadiness.
  destruct (readinessOf pm) as [phase [c|]]; destruct Hspec as (Ha & Hf & Hp & Hc); unfold value; cbn.
  - destruct Hc as [Ht Hc]. destruct (SetStatusCondition_law (status_Conditions pm) c w) as (c' & Hfind & Hst & _).
    unfold mbind, run_bind, call. destruct (SetStatusCondition _ c w) as [w1 conditions]. cbn in *.
    rewrite Ht in Hfind. split_and!; try done; [|by rewrite <-Hcount].
    unfold readyOf. rewrite Hfind. rewrite <-Hc, <-Hst. naive_solver.
  - destruct Hc as [Hn Hc]. split_and!; try done; [|by rewrite <-Hcount].
    split; [|done]. intros (c & Hr & Hst). rewrite (Hc c Hr) in Hst. done.
Qed.
End ReadinessFacts.

(** ** A cluster with pods, for the witnesses. *)

Section PodWitness.
Local Existing Instance NanoK8s.

(** The cluster of the other witnesses, its pods, the engines that sleep,
    whether the answers of the runtimes arrive, and the engines started. *)
Record podWorld : Type := MkPodWorld {
  pw_cards : fakeWorld;
  pw_pods : gmap NamespacedName Pod;
  pw_asleep : gset (string * string);
  pw_answers : bool;
  pw_engines : gset (string * NamespacedName);
}.

(** An answer that did not arrive in time. *)
Definition deadlinePassed : callError := [OtherError "sleep"; UrlError "Post"; OtherError "context deadline exceeded"].

Definition onCards {A} (f : fakeWorld → fakeWorld * A) (w : podWorld) : podWorld * A :=
  let '(cards, a) := f w.(pw_cards) in (MkPodWorld cards w.(pw_pods) w.(pw_asleep) w.(pw_answers) w.(pw_engines), a).

Definition podCluster : Cluster podWorld := {|
  SetKVLimit ip req := onCards (SetKVLimit (Cluster := fakeCluster) ip req);
  Snapshot ip := onCards (Snapshot (Cluster := fakeCluster) ip);
  GetClaim c := onCards (GetClaim (Cluster := fakeCluster) c);
  StatusUpdate claim := onCards (StatusUpdate (Cluster := fakeCluster) claim);
  RetryOnConflict A m := m;
|}.
Local Existing Instance podCluster.

Definition podReads : ClusterReads (W := podWorld) := {|
  ListClaims namespace := onCards (ListClaims (ClusterReads := fakeReads) namespace);
  ListCachedClaims namespace := onCards (ListCachedClaims (ClusterReads := fakeReads) namespace);
  GetReplicaSet name w := (w, Ok (MkReplicaSet (Some ("Deployment", "pool"))));
  GetDeployment name w := (w, Ok (MkDeployment "ns" "pool" "{}" (Ok (MkPolicy None (Some exLifecycle)))));
  Now w := (w, 100 * Second);
|}.
Local Existing Instance podReads.

(** A merge patch: what differs between two versions is written. *)
Definition patchOf (old new : gmap string string) : gmap string (option string) :=
  merge (fun o n => if bool_decide (o = n) then None else Some n) old new.
Definition applyPatch (patch : gmap string (option string)) (at_server : gmap string string) : gmap string string :=
  merge (fun p s => match p with Some n => n | None => s end) patch at_server.

Lemma applyPatch_lookup old new at_server k :
  applyPatch (patchOf old new) at_server !! k = if bool_decide (old !! k = new !! k) then at_server !! k else new !! k.
Proof.
  unfold applyPatch, patchOf. rewrite !lookup_merge. destruct (old !! k) as [o|], (new !! k) as [n|]; simpl;
    repeat (case_bool_decide; simplify_eq); simpl; destruct (at_server !! k); done.
Qed.

(** Each pod's address. *)
Definition exAddress (name : string) : string :=
  if bool_decide (name = "pod-a") then "10.0.0.1" else if bool_decide (name = "pod-b") then "10.0.0.2"
  else String.append "address of " name.

Definition podApi : PodApi (W := podWorld) := {|
  GetPod key w :=
    (w, match w.(pw_pods) !! key with
        | Some pod =>
            if bool_decide (MkNN pod.(pod_Namespace) pod.(pod_Name) = key) && bool_decide (pod.(pod_IP) = exAddress key.(nn_Name))
            then Ok pod else Err ApiFailed
        | None => Err ApiNotFound
        end);
  PatchPod old new w :=
    let key := MkNN old.(pod_Namespace) old.(pod_Name) in
    match w.(pw_pods) !! key with
    | None => (w, Err ApiFailed)
    | Some pod =>
        let annotations := applyPatch (patchOf old.(pod_Annotations) new.(pod_Annotations)) pod.(pod_Annotations) in
        let patched := setAnnotations old annotations in
        (MkPodWorld w.(pw_cards) (<[key := patched]> w.(pw_pods)) w.(pw_asleep) w.(pw_answers) w.(pw_engines), Ok patched)
    end;
  Sleep ip req w :=
    (MkPodWorld w.(pw_cards) w.(pw_pods) ({[(ip, req.(slr_ModelName))]} ∪ w.(pw_asleep)) w.(pw_answers) w.(pw_engines),
     if w.(pw_answers) then Ok true else Err deadlinePassed);
  Wake ip req w :=
    (MkPodWorld w.(pw_cards) w.(pw_pods) (w.(pw_asleep) ∖ {[(ip, req.(wkr_ModelName))]}) w.(pw_answers) w.(pw_engines),
     if w.(pw_answers) then Ok true else Err deadlinePassed);
  SetStatusCondition cs c w := (w, c :: List.filter (fun c' => negb (bool_decide (c'.(cond_Type) = c.(cond_Type)))) cs);
|}.
Local Existing Instance podApi.

Definition podLaws : PodLaws.
Proof.
  refine {| routeAt w p c := w.(pw_pods) !! p ≫= fun pod => pod.(pod_Annotations) !! routeKey c;
            asleepAt w ip m := bool_decide ((ip, m) ∈ w.(pw_asleep)) |}.
  1-5: intros; by split.
  - intros old new w. cbn. set (key := MkNN _ _). destruct (pw_pods w !! key) as [pod|] eqn:Ep; cbn; [|by split_and!; [| |]; auto].
    split; [done|]. split.
    + intros p c. destruct (decide (p = key)) as [->|]; [|left; by rewrite lookup_insert_ne].
      rewrite lookup_insert_eq, Ep. cbn. rewrite applyPatch_lookup. case_bool_decide; [by left|by right].
    + intros patched [= <-]. cbn. rewrite lookup_insert_eq. cbn. split_and!; [done..|]. intros c Hc.
      rewrite applyPatch_lookup. by rewrite bool_decide_false.
  - intros ip req w. cbn. split; [done|]. split.
    + intros ip' m. destruct (decide ((ip', m) = (ip, slr_ModelName req))) as [[= -> ->]|Hne]; [by right|left].
      apply bool_decide_ext. set_solver.
    + intros why Hw Hn. destruct (pw_answers w); simplify_eq.
Defined.
Local Existing Instance podLaws.

Definition exRouted : Pod :=
  setAnnotations exPod {[routeKey "alpha" := routeValue (exClaim "alpha" ModelClaimActive) 9000 ModelClaimRoutingStateActive ""]}.
Definition exPods (answers : bool) : podWorld := MkPodWorld exWorld {[MkNN "ns" "pod-a" := exRouted]} ∅ answers ∅.
Definition exPass : passState := MkPass newRuntimeReadings newPoolPolicyManager ∅.
Definition exSleep : Run podWorld (passState * Pod * result sleepError unit) :=
  putEngineToSleep exPass (exClaim "alpha" ModelClaimActive) exRouted 9000 "alpha" "op".


Definition podConditions : ConditionLaws.
Proof. constructor. intros cs c w. exists c. simpl. by rewrite bool_decide_true. Defined.
Local Existing Instance podConditions.

(** One of two instances sleeps. *)
Definition exHalf : ModelClaim :=
  setInstances (exClaim "alpha" ModelClaimActive)
    [MkInstance "pod-a" 9000 ModelClaimActive 0 ""; MkInstance "pod-b" 9000 ModelClaimSleeping 0 ""].

Lemma readiness_is_of_the_instances_witness :
  let pm' := value (recomputeReadiness exHalf) (exPods true) in
  status_Phase pm' = ModelClaimSleeping ∧ status_ReadyReplicas pm' = 1 ∧
  (status_Phase pm' = ModelClaimActive ↔ serving exHalf) ∧ ¬ serving exHalf.
Proof.
  split; [vm_compute; reflexivity|]. split; [vm_compute; reflexivity|].
  pose proof (proj1 (readiness_is_of_the_instances exHalf (exPods true))) as Hi. split; [exact Hi|].
  intros [_ [_ [Hs _]%Forall_cons]%Forall_cons]. vm_compute in Hs. discriminate Hs.
Defined.

(** A sleep that happened, and whose answer did not arrive: the engine sleeps
    and its route is put back, so that requests are sent to it. *)
Example lost_sleep_is_routed :
  let w := final exSleep (exPods false) in
  (value exSleep (exPods false)).2 = Err (SleepFailed deadlinePassed) ∧ asleepAt w "10.0.0.1" "alpha" = true ∧
  routeAt w (MkNN "ns" "pod-a") "alpha" = Some (routeValue (exClaim "alpha" ModelClaimActive) 9000 ModelClaimRoutingStateActive "").
Proof. vm_compute. split; [reflexivity|]. split; reflexivity. Qed.
End PodWitness.
