(* ===== verification/WakeHandler.v ===== *)
(** * Waking the engines that requests ask for ([wakeRequested] of
    [pkg/controller/modelclaim/wake.go]).

    A pass over a claim takes its instances one by one.  An instance asleep
    whose pod carries a request is judged by its card's account: it wakes, has a
    neighbour put to sleep, moves to another pod, or waits.  Before it wakes, its
    neighbours are held to their shares again ([cardArrangedForWake]).

    The claim and the pod are changed in place by the code: each operation
    returns them.  Events and log lines are left out. *)

From S2P Require Import Prelude Api Claims Ledger KVPlan Placement Reservations Runtime ArrangeCard PoolPolicy Division MakeRoom Rfc3339 WakeTurn SleepEngine.

Section WakeRecords.
Context `{K8s}.

(** What a pass works with: its readings, what the pools were seen to do, the
    rooms held, when each request was first seen, and the claims once they were
    listed for the accounts. *)
Record wakeState : Type := MkWakeState {
  ws_pass : passState;
  ws_held : cardReservations;
  ws_seen : gmap string Time;
  ws_listed : option (option (list ModelClaim));
}.

Definition onPass (s : wakeState) (pass : passState) : wakeState :=
  MkWakeState pass s.(ws_held) s.(ws_seen) s.(ws_listed).

(** ** When a request was first seen. *)

Definition wakeRequestLifetime : Duration := 5 * Minute.

Definition firstSeen (seen : gmap string Time) (request : string) (now : Time) : gmap string Time * Time :=
  let seen := filter (fun known => negb (2 * wakeRequestLifetime <? timeSub now known.2) = true) seen in
  match seen !! request with
  | Some at_ => (seen, at_)
  | None => (<[request := now]> seen, now)
  end.

Definition wakeRequestKey (pod : Pod) (key requestedAt : string) : string :=
  String.append pod.(pod_UID) (String.append "/" (String.append key (String.append "/" requestedAt))).

(** ** The claim's own record. *)

Definition bindingReason (inst : ModelClaimInstance) : string :=
  if bool_decide (inst.(inst_Phase) = ModelClaimSleeping) && bool_decide (inst.(inst_Reason) = instanceReasonWaitingForRoom)
  then readyReasonWaitingForRoom
  else if bool_decide (inst.(inst_Phase) = ModelClaimFailed) && movingReason inst.(inst_Reason) then readyReasonMoving
  else "".

Definition setPhase (inst : ModelClaimInstance) (phase : ModelClaimPhase) (reason : string) : ModelClaimInstance :=
  MkInstance inst.(inst_Pod) inst.(inst_Port) phase inst.(inst_KVLimitBytes) reason.

Definition setSlot (pm : ModelClaim) (slot : nat) (inst : ModelClaimInstance) : ModelClaim :=
  setInstances pm (<[slot := inst]> pm.(status_Instances)).

Definition setResourceVersion (pm : ModelClaim) (version : string) : ModelClaim :=
  MkModelClaim pm.(mc_Namespace) pm.(mc_Name) pm.(mc_UID) pm.(mc_Generation)
    pm.(mc_CreationTimestamp) pm.(mc_DeletionTimestamp) pm.(spec_ModelName)
    pm.(spec_PodSelector) pm.(spec_ArtifactURL) pm.(spec_Engine) pm.(spec_Replicas)
    pm.(spec_Priority) pm.(spec_PreemptionPolicy) pm.(spec_EngineArgs) pm.(spec_PerGPU)
    pm.(status_Phase) pm.(status_Instances) pm.(status_Conditions) pm.(status_Candidates)
    pm.(status_ReadyReplicas) pm.(status_DesiredReplicas) version pm.(mc_Finalizers).

(** The limits recorded for one pod, taken over from a fresh copy. *)
Definition takeLimits (podName : string) (fresh : list ModelClaimInstance) (instances : list ModelClaimInstance)
  : list ModelClaimInstance :=
  foldl (fun instances recorded =>
    if negb (bool_decide (recorded.(inst_Pod) = podName)) then instances
    else (fun inst => if bool_decide (inst.(inst_Pod) = podName)
                      then MkInstance inst.(inst_Pod) inst.(inst_Port) inst.(inst_Phase)
                             recorded.(inst_KVLimitBytes) inst.(inst_Reason)
                      else inst) <$> instances) instances fresh.

(** [planned] is a Go map: the last limit of a claim stands, and a claim without
    one has 0. *)
Definition plannedFor (limits : list plannedKVLimit) (claimName : string) : Z :=
  foldl (fun found limit => if bool_decide (limit.(lim_claimName) = claimName) then limit.(lim_kvLimitBytes) else found)
    0 limits.

Definition heldAsPlannedForWake (engines : list engineOnPod) (limits : list plannedKVLimit) (waking : string) : bool :=
  forallb (fun engine =>
    if engine.(eng_kvCapacityBytes) <? 0 then true
    else
      let limit := plannedFor limits engine.(eng_claimName) in
      negb ((limit <? engine.(eng_kvCapacityBytes)) ||
            (bool_decide (engine.(eng_claimName) = waking) && (engine.(eng_kvCapacityBytes) <? limit)))) engines.

Definition wakeDivision : division := MkDivision 0 false [] true.
End WakeRecords.

(** ** The handler. *)

Section Wake.
Context `{PodApi W}.

Definition wakeRequestExpired (s : wakeState) (pod : Pod) (key requestedAt : string) : Run W (wakeState * bool) :=
  now ← call Now;
  let '(seen, at_) := firstSeen s.(ws_seen) (wakeRequestKey pod key requestedAt) now in
  mret (MkWakeState s.(ws_pass) s.(ws_held) seen s.(ws_listed), wakeRequestLifetime <? timeSub now at_).

Definition takeBackWakeRequest (pod : Pod) (key : string) : Run W Pod :=
  let changed := setAnnotations pod (delete key pod.(pod_Annotations)) in
  answer ← call (PatchPod pod changed);
  mret (match answer with Ok patched => patched | Err _ => changed end).

Definition setWaitingForRoom (pm : ModelClaim) (slot : nat) (pod : Pod) (waiting : bool) : Run W (ModelClaim * Pod) :=
  match pm.(status_Instances) !! slot with
  | None => mret (pm, pod)
  | Some inst =>
      if negb (bool_decide (inst.(inst_Phase) = ModelClaimSleeping)) ||
         Bool.eqb (bool_decide (inst.(inst_Reason) = instanceReasonWaitingForRoom)) waiting then mret (pm, pod)
      else
        let inst := setPhase inst inst.(inst_Phase) (if waiting then instanceReasonWaitingForRoom else "") in
        let pm := setSlot pm slot inst in
        '(pod, _) ← annotateWarmPodWithState pm pod 0 ModelClaimRoutingStateSleeping (bindingReason inst);
        mret (pm, pod)
  end.

(** The account of each pod, with the room that preemptions hold back from this
    claim charged.  The claims are listed once in a pass. *)
Definition ledgersOf (s : wakeState) (pm : ModelClaim) (pods : list Pod) : Run W (wakeState * gmap string podLedger) :=
  listed ← match s.(ws_listed) with
           | Some claims => mret claims
           | None => answer ← call (ListClaims pm.(mc_Namespace));
                     mret (match answer with Ok items => Some items | Err _ => None end)
           end;
  '(readings, snapshots) ← ofPods s.(ws_pass).(ps_readings) pods;
  without ← podsWithoutWakeReserve pods;
  now ← call Now;
  let '(held, ledgers) := takePreemptionsFrom s.(ws_held) (podLedgersFrom snapshots without listed pods) listed (Some pm) now in
  mret (MkWakeState (setReadings s.(ws_pass) readings) held s.(ws_seen) (Some listed), ledgers).

Definition ledgerOf (s : wakeState) (pm : ModelClaim) (pod : Pod) : Run W (wakeState * podLedger) :=
  '(s, ledgers) ← ledgersOf s pm [pod];
  mret (s, default zeroLedger (ledgers !! pod.(pod_Name))).

Definition canPlaceElsewhere (s : wakeState) (pm : ModelClaim) (candidates : list Pod) : Run W (wakeState * bool) :=
  match perGPUBytesOf pm with
  | Err _ => mret (s, false)
  | Ok perGPU =>
      let others := List.filter (fun candidate => negb (existsb (fun inst => bool_decide (inst.(inst_Pod) = candidate.(pod_Name)))
        pm.(status_Instances))) candidates in
      match others with
      | [] => mret (s, false)
      | _ =>
          '(s, ledgers) ← ledgersOf s pm others;
          let admissible := (admissibleCandidates ledgers (perGPU_minimumReserveBytes perGPU) (instanceGPUCount pm) others).1 in
          mret (s, (0 <? length admissible)%nat)
      end
  end.

(** The mark is written before anything is done to the engine. *)
Definition markMoving (pm : ModelClaim) (slot : nat) (pod : Pod) (reason : string)
  : Run W (ModelClaim * Pod * option apiError) :=
  match pm.(status_Instances) !! slot with
  | None => mret (pm, pod, None)
  | Some was =>
      updated ← call (StatusUpdate (setSlot pm slot (setPhase was ModelClaimFailed reason)));
      match updated with
      | Err e => mret (pm, pod, Some e)
      | Ok pm =>
          '(pod, _) ← annotateWarmPodWithState pm pod 0 ModelClaimRoutingStateFailed readyReasonMoving;
          mret (pm, pod, None)
      end
  end.

Definition callOffMove (s : wakeState) (pm : ModelClaim) (slot : nat) (pod : Pod)
  : Run W (wakeState * ModelClaim * Pod * option apiError) :=
  match pm.(status_Instances) !! slot with
  | None => mret (s, pm, pod, None)
  | Some inst =>
      if negb (bool_decide (inst.(inst_Phase) = ModelClaimFailed)) ||
         negb (bool_decide (inst.(inst_Reason) = instanceReasonNoRoomToWake)) || bool_decide (pod.(pod_IP) = "")
      then mret (s, pm, pod, None)
      else
        '(pass, reply) ← readPod s.(ws_pass) pod;
        let s := onPass s pass in
        match reply with
        | Err _ => mret (s, pm, pod, None)
        | Ok snapshot =>
            match snapshotModelForClaim snapshot pm (servedModelName pm) with
            | None => mret (s, pm, pod, None)
            | Some engine =>
                if negb engine.(sm_Alive) || negb (bool_decide (engine.(sm_Phase) = runtimePhaseSleeping))
                then mret (s, pm, pod, None)
                else
                  '(s, ledger) ← ledgerOf s pm pod;
                  if negb ledger.(judgeable) || (maximumRoomBytes ledger <? 0) || (heldRoomBytes ledger <? 0)
                  then mret (s, pm, pod, None)
                  else
                    updated ← call (StatusUpdate (setSlot pm slot (setPhase inst ModelClaimSleeping "")));
                    match updated with
                    | Err e => mret (s, pm, pod, Some e)
                    | Ok pm =>
                        '(pod, _) ← annotateWarmPodWithState pm pod 0 ModelClaimRoutingStateSleeping
                           (match pm.(status_Instances) !! slot with Some inst => bindingReason inst | None => "" end);
                        mret (s, pm, pod, None)
                    end
            end
        end
  end.

(** ** Making room on a card. *)

Definition poolLifecycleOf (pod : Pod) : Run W (option poolLifecyclePolicy) :=
  got ← poolDeploymentForPod pod;
  mret (match got with Ok (Some deployment) => lifecycleOf deployment | _ => None end).

Definition roomCanBeMadeOn (forClaim : ModelClaim) (pod : Pod) (ledger : podLedger) : Run W (option poolLifecyclePolicy) :=
  if 0 <? ledger.(reservedBytes) then mret None
  else
    lifecycle ← poolLifecycleOf pod;
    mret (match lifecycle with
          | None => None
          | Some policy =>
              if negb policy.(pol_NoWakeReserveWhileAsleep) then None
              else if existsb (fun engine => negb (bool_decide (engine.(eng_claimName) = forClaim.(mc_Name))) &&
                                engine.(eng_asleep) && (engine.(eng_sleepingFootprintBytes) =? 0)) ledger.(engines)
              then None else Some policy
          end).

(** The clock, once for each of [n] models. *)
Fixpoint readClock (n : nat) : Run W (list Time) :=
  match n with
  | O => mret []
  | S n => now ← call Now; rest ← readClock n; mret (now :: rest)
  end.

Definition idleEngines (s : passState) (forClaim : ModelClaim) (pod : Pod) (idleFor : Duration)
  : Run W (passState * list idleEngine) :=
  '(s, reply) ← readPod s pod;
  match reply with
  | Ok (Some snapshot) =>
      claims ← call (ListCachedClaims pod.(pod_Namespace));
      match claims with
      | Err _ => mret (s, [])
      | Ok claims =>
          times ← readClock (length snapshot.(snap_Models));
          mret (s, idleEnginesOf s.(ps_manager) claims forClaim pod idleFor (fun i => default zeroTime (times !! i)) snapshot)
      end
  | _ => mret (s, [])
  end.

Definition wakeIdleEngines (s : passState) (waker : ModelClaim) (pod : Pod) (idleFor : Duration)
  : Run W (passState * list idleEngine) :=
  '(s, idle) ← idleEngines s waker pod idleFor;
  mret (s, idleEnginesAtOrBelowPriority idle waker.(spec_Priority)).

Definition wakeTurnOn (s : passState) (waker : ModelClaim) (pod : Pod) (ledger : podLedger) (claims : option (list ModelClaim))
  : Run W (passState * wakeTurn * podLedger) :=
  lifecycle ← roomCanBeMadeOn waker pod ledger;
  '(s, idle) ← match lifecycle with
               | Some policy => idleEngines s waker pod (sleepToMakeRoomAfter policy)
               | None => mret (s, [])
               end;
  let canMakeRoom := bool_decide (is_Some lifecycle) in
  mret (s, (wakeTurnWith s.(ps_footprints) claims pod.(pod_Namespace) canMakeRoom idle waker.(mc_Name) pod ledger).1,
        (wakeTurnWith s.(ps_footprints) claims pod.(pod_Namespace) canMakeRoom idle waker.(mc_Name) pod ledger).2).

Definition sleepToMakeRoom (s : passState) (waker : ModelClaim) (pod : Pod) (ledger : podLedger) : Run W (passState * Pod * bool) :=
  lifecycle ← roomCanBeMadeOn waker pod ledger;
  match lifecycle with
  | None => mret (s, pod, false)
  | Some policy =>
      '(s, idle) ← wakeIdleEngines s waker pod (sleepToMakeRoomAfter policy);
      match idle with
      | [] => mret (s, pod, false)
      | first :: _ => putIdleEngineToSleep s first pod waker
      end
  end.

(** ** The card an engine wakes into. *)

Definition catchUpWithRecordedLimit (pm : ModelClaim) (podName : string) : Run W (ModelClaim * bool) :=
  got ← call (GetClaim (ObjectKeyFromObject pm));
  match got with
  | Err _ => mret (pm, false)
  | Ok fresh =>
      let pm := setInstances pm (takeLimits podName fresh.(status_Instances) pm.(status_Instances)) in
      mret (setResourceVersion pm fresh.(mc_ResourceVersion), true)
  end.

Definition cardArrangedForWake (readings : runtimeReadings) (pm : ModelClaim) (pod : Pod) (ledger : podLedger)
  : Run W (runtimeReadings * ModelClaim * bool) :=
  if negb ledger.(judgeable) || negb (podHasGPUs pod ledger.(accelerators)) then mret (readings, pm, true)
  else
    match planKVLimits (plannableBytes ledger) ledger.(engines) with
    | Err _ => mret (readings, pm, false)
    | Ok limits =>
        if heldAsPlannedForWake ledger.(engines) limits pm.(mc_Name) then mret (readings, pm, true)
        else
          '(readings, outcome) ← arrangeCard pod ledger readings ledger.(engines) wakeDivision;
          match outcome with
          | Arranged _ _ =>
              '(pm, caughtUp) ← catchUpWithRecordedLimit pm pod.(pod_Name);
              mret (readings, pm, caughtUp)
          | _ => mret (readings, pm, false)
          end
    end.

(** ** One instance. *)

Section Instances.
(** What the pass fixes when it begins: the annotation that asks for the claim,
    the model it serves, and the pods it could go to. *)
Context (key served : string) (candidates : list Pod).

Definition wakeOutcome : Type := wakeState * ModelClaim * bool * option apiError.

Definition moveOrElse (s : wakeState) (pm : ModelClaim) (slot : nat) (pod : Pod) (reason : string)
    (woke : bool) (otherwise : wakeState → Run W wakeOutcome) : Run W wakeOutcome :=
  '(s, elsewhere) ← canPlaceElsewhere s pm candidates;
  if elsewhere : bool then
    '(pm, _, err) ← markMoving pm slot pod reason;
    mret (s, pm, woke, err)
  else otherwise s.

Definition wakeOperation (pod : Pod) (pm : ModelClaim) (requestedAt : string) : string :=
  slashes ["controller-wake"; pod.(pod_UID); pm.(mc_UID); requestedAt].

(** The card has room: it is arranged, and the engine woken. *)
Definition wakeNowOn (s : wakeState) (pm : ModelClaim) (slot : nat) (pod : Pod) (requestedAt : string)
    (ledger : podLedger) (woke : bool) : Run W wakeOutcome :=
  '(pm, pod) ← setWaitingForRoom pm slot pod false;
  '(readings, pm, arranged) ← cardArrangedForWake s.(ws_pass).(ps_readings) pm pod ledger;
  let s := onPass s (setReadings s.(ws_pass) readings) in
  if negb arranged then mret (s, pm, woke, None)
  else
    answer ← call (Wake pod.(pod_IP) (MkWakeRequest served (wakeOperation pod pm requestedAt)));
    let s := onPass s (forgetReading s.(ws_pass) pod.(pod_Name)) in
    match answer with
    | Ok _ => mret (s, pm, true, None)
    | Err why =>
        if negb (refusedByRuntime why) then mret (s, pm, woke, None)
        else
          moveOrElse s pm slot pod instanceReasonWakeFailed woke (fun s =>
            _ ← takeBackWakeRequest pod key;
            mret (s, pm, woke, None))
    end.

(** The card has no room. *)
Definition wakeWithoutRoom (s : wakeState) (pm : ModelClaim) (slot : nat) (pod : Pod) (ledger : podLedger)
    (turn : wakeTurn) (woke : bool) : Run W wakeOutcome :=
  '(pass, pod, slept) ← (if bool_decide (turn = wakeMakesRoom) then sleepToMakeRoom s.(ws_pass) pm pod ledger
                         else mret (s.(ws_pass), pod, false));
  let s := onPass s pass in
  if slept : bool then
    '(pm, _) ← setWaitingForRoom pm slot pod true;
    mret (s, pm, true, None)
  else
    moveOrElse s pm slot pod instanceReasonNoRoomToWake woke (fun s =>
      '(pm, _) ← setWaitingForRoom pm slot pod true;
      mret (s, pm, woke, None)).

(** An instance asleep that a request asks for. *)
Definition wakeAsleep (s : wakeState) (pm : ModelClaim) (slot : nat) (pod : Pod) (requestedAt : string)
    (woke : bool) : Run W wakeOutcome :=
  if bool_decide (pod.(pod_IP) = "") then mret (s, pm, woke, None)
  else
    '(s, expired) ← wakeRequestExpired s pod key requestedAt;
    if expired : bool then
      pod ← takeBackWakeRequest pod key;
      '(pm, _) ← setWaitingForRoom pm slot pod false;
      mret (s, pm, woke, None)
    else
      '(s, ledger) ← ledgerOf s pm pod;
      if negb ledger.(judgeable) && podHasGPUs pod ledger.(accelerators) && ledger.(keepsNoWakeReserve) then
        '(pm, _) ← setWaitingForRoom pm slot pod true;
        mret (s, pm, woke, None)
      else
        '(pass, turn, ledger) ← (if ledger.(judgeable) then wakeTurnOn s.(ws_pass) pm pod ledger (default None s.(ws_listed))
                                 else mret (s.(ws_pass), wakeNow, ledger));
        let s := onPass s pass in
        if negb (bool_decide (turn = wakeNow)) then wakeWithoutRoom s pm slot pod ledger turn woke
        else wakeNowOn s pm slot pod requestedAt ledger woke.

Definition wakeInstance (s : wakeState) (pm : ModelClaim) (slot : nat) (woke : bool) : Run W wakeOutcome :=
  match pm.(status_Instances) !! slot with
  | None => mret (s, pm, woke, None)
  | Some inst =>
      got ← call (GetPod (MkNN pm.(mc_Namespace) inst.(inst_Pod)));
      match got with
      | Err _ => mret (s, pm, woke, None)
      | Ok pod =>
          '(s, pm, pod, err) ← callOffMove s pm slot pod;
          match err with
          | Some e => mret (s, pm, woke, Some e)
          | None =>
              match pod.(pod_Annotations) !! key with
              | None => '(pm, _) ← setWaitingForRoom pm slot pod false; mret (s, pm, woke, None)
              | Some requestedAt =>
                  match inst_Phase <$> pm.(status_Instances) !! slot with
                  | Some ModelClaimSleeping => wakeAsleep s pm slot pod requestedAt woke
                  | Some ModelClaimActivating =>
                      '(s, expired) ← wakeRequestExpired s pod key requestedAt;
                      _ ← (if expired : bool then takeBackWakeRequest pod key else mret pod);
                      mret (s, pm, woke, None)
                  | _ => _ ← takeBackWakeRequest pod key; mret (s, pm, woke, None)
                  end
              end
          end
      end
  end.

(** The instances from [slot] on, [n] of them. *)
Fixpoint wakeInstances (s : wakeState) (pm : ModelClaim) (slot n : nat) (woke : bool)
  : Run W wakeOutcome :=
  match n with
  | O => mret (s, pm, woke, None)
  | S n =>
      '(s, pm, woke, err) ← wakeInstance s pm slot woke;
      match err with
      | Some e => mret (s, pm, woke, Some e)
      | None => wakeInstances s pm (S slot) n woke
      end
  end.

End Instances.

Definition wakeKey (claimName : string) : string := String.append ModelClaimWakeAnnotationPrefix claimName.

Definition wakeRequested (pass : passState) (held : cardReservations) (seen : gmap string Time) (pm : ModelClaim)
    (candidates : list Pod) : Run W wakeOutcome :=
  wakeInstances (wakeKey pm.(mc_Name)) (servedModelName pm) candidates (MkWakeState pass held seen None) pm 0
    (length pm.(status_Instances)) false.
End Wake.

(** ** The card is held before an engine wakes into it. *)

Lemma plannedFor_in limits l :
  NoDup (lim_claimName <$> limits) → l ∈ limits → plannedFor limits (lim_claimName l) = lim_kvLimitBytes l.
Proof.
  unfold plannedFor. generalize 0 as init. induction limits as [|l' limits IH]; intros init Hnd Hl; [by apply not_elem_of_nil in Hl|].
  simpl in Hnd. apply NoDup_cons in Hnd as [Hni Hnd]. simpl. apply elem_of_cons in Hl as [->|Hl].
  - rewrite bool_decide_true by done. clear IH. revert Hni. generalize (lim_kvLimitBytes l') as v.
    induction limits as [|l'' limits IH]; intros v Hni; [done|]. simpl in *. apply not_elem_of_cons in Hni as [Hne Hni].
    rewrite bool_decide_false by done. apply IH; [|done]. by apply NoDup_cons in Hnd as [_ ?].
  - by apply IH.
Qed.

Section CardHeld.
Context `{HL : ClusterLaws W} (pod : Pod) (es : list engineOnPod) (limits : list plannedKVLimit).

(** Every engine with a segment is held inside its planned limit. *)
Definition insidePlan (w : W) : Prop :=
  ∀ l, l ∈ limits → 0 ≤ lim_kvCapacityBytes l → entitled pod w (lim_modelName l) ≤ lim_kvLimitBytes l.

Lemma insidePlan_quiet w w' : quiet w w' → insidePlan w → insidePlan w'.
Proof. intros Hq Hin l Hl Hc. etrans; [by apply quiet_entitled|by apply Hin]. Qed.

Lemma insidePlan_fits usable w :
  planInRange usable es → planKVLimits usable es = Ok limits → insidePlan w →
  sumZ (fun e => heldBytes e - plannedKVHeldBytes e) es + sumZ (promised pod w) limits ≤ usable.
Proof.
  intros Hr Hp Hin. pose proof (plan_fits usable es limits Hr Hp).
  assert (sumZ (promised pod w) limits ≤ sumZ lim_kvLimitBytes limits); [|lia].
  apply sumZ_le. intros l Hl. unfold promised. destruct (Z.leb_spec 0 (lim_kvCapacityBytes l)); [by apply Hin|lia].
Qed.

Context (ledger : podLedger) (waking : string) (w0 : W).
Context (Hrange : planInRange (plannableBytes ledger) es)
  (Hplan : planKVLimits (plannableBytes ledger) es = Ok limits) (Hread : cardAsRead pod es w0).

Lemma limits_claims : NoDup (lim_claimName <$> limits).
Proof.
  rewrite (limits_names ledger es limits Hrange Hplan lim_claimName eng_claimName); [apply (car_claims _ _ _ Hread)|].
  by intros e l [? _].
Qed.

Lemma heldAsPlanned_inside :
  heldAsPlannedForWake es limits waking = true →
  insidePlan w0 ∧
  ∀ l, l ∈ limits → lim_claimName l = waking → 0 ≤ lim_kvCapacityBytes l →
    limitOf w0 (pod_IP pod) (lim_modelName l) = Some (lim_kvLimitBytes l).
Proof.
  intros Hheld. unfold heldAsPlannedForWake in Hheld. rewrite forallb_forall in Hheld.
  assert (∀ l, l ∈ limits → 0 ≤ lim_kvCapacityBytes l → ∃ e, e ∈ es ∧ limitFor e l ∧
    eng_kvCapacityBytes e ≤ lim_kvLimitBytes l ∧
    (lim_claimName l = waking → eng_kvCapacityBytes e = lim_kvLimitBytes l)) as Hl.
  { intros l Hl Hc. destruct (limit_engine ledger es limits Hrange Hplan l Hl) as (e & He & Hf). exists e.
    destruct Hf as (Hn & Hm & Hcap & Hrest). split; [done|]. split; [done|].
    specialize (Hheld e ltac:(by apply list_elem_of_In)). rewrite <-Hn, (plannedFor_in _ _ limits_claims Hl) in Hheld.
    destruct (Z.ltb_spec (eng_kvCapacityBytes e) 0); [lia|]. apply negb_true_iff, orb_false_iff in Hheld as [Ha%Z.ltb_ge Hb].
    split; [lia|]. intros Hw. rewrite bool_decide_true in Hb by done. simpl in Hb. apply Z.ltb_ge in Hb. lia. }
  split.
  - intros l Hin Hc. destruct (Hl l Hin Hc) as (e & He & (Hn & Hm & Hcap & _ & Hh & _) & Hle & _).
    destruct (car_limits _ _ _ Hread e He ltac:(lia)) as [Hlim Hused]. unfold entitled. rewrite Hm, Hlim. simpl.
    pose proof (used_le_planned e). lia.
  - intros l Hin Hw Hc. destruct (Hl l Hin Hc) as (e & He & (Hn & Hm & Hcap & _) & _ & Heq).
    destruct (car_limits _ _ _ Hread e He ltac:(lia)) as [Hlim _]. by rewrite Hm, Hlim, (Heq Hw).
Qed.
End CardHeld.

(** What a waking engine finds: everybody inside the plan, itself at its limit. *)
Definition readyCard `{HL : ClusterLaws W} (pod : Pod) (limits : list plannedKVLimit) (waking : string) (w : W) : Prop :=
  insidePlan pod limits w ∧
  ∀ l, l ∈ limits → lim_claimName l = waking → 0 ≤ lim_kvCapacityBytes l →
    limitOf w (pod_IP pod) (lim_modelName l) = Some (lim_kvLimitBytes l).

Lemma readyCard_quiet `{HL : ClusterLaws W} pod limits waking w w' :
  quiet w w' → readyCard pod limits waking w → readyCard pod limits waking w'.
Proof.
  intros Hq [Hin Hown]. split; [by eapply insidePlan_quiet|]. intros l Hl Hw Hc. rewrite (proj2 Hq). by apply Hown.
Qed.

(** The outcome of the division that precedes a wake. *)
Lemma wakeDivision_ready `{HL : ClusterLaws W} pod ledger limits readings waking w0 :
  planInRange (plannableBytes ledger) (engines ledger) →
  planKVLimits (plannableBytes ledger) (engines ledger) = Ok limits → cardAsRead pod (engines ledger) w0 →
  runs (arrangeCard pod ledger readings (engines ledger) wakeDivision) w0 (fun _ r w =>
    match r.2 with Arranged _ _ => readyCard pod limits waking w | _ => True end).
Proof.
  intros Hr Hp Hread. pose proof (asRead_startsFrom _ _ _ _ _ Hr Hp Hread) as Hs.
  destruct (arrange_holds pod ledger limits w0 Hs readings (engines ledger) wakeDivision Hp) as [_ Hout].
  unfold runs. destruct (value _ w0).2; try done. destruct Hout as (_ & _ & Hk).
  split; [|intros l Hl _ Hc; by apply Hk]. intros l Hl Hc. destruct (Hk l (conj Hl Hc)) as [Hlim Hused].
  unfold entitled. rewrite Hlim. simpl. lia.
Qed.

Lemma cardArrangedForWake_ready `{HL : ClusterLaws W} readings pm pod ledger w :
  judgeable ledger = true → podHasGPUs pod (accelerators ledger) = true →
  planInRange (plannableBytes ledger) (engines ledger) → cardAsRead pod (engines ledger) w →
  runs (cardArrangedForWake readings pm pod ledger) w (fun _ r w' =>
    r.2 = true → ∃ limits, planKVLimits (plannableBytes ledger) (engines ledger) = Ok limits ∧
      readyCard pod limits (mc_Name pm) w').
Proof.
  intros Hj Hg Hr Hread. unfold cardArrangedForWake. rewrite Hj, Hg. simpl.
  destruct (planKVLimits _ _) as [limits|] eqn:Hp; [|by apply runs_ret].
  destruct (heldAsPlannedForWake _ _ _) eqn:Eh.
  { apply runs_ret. intros _. exists limits. split; [done|]. by eapply heldAsPlanned_inside. }
  apply runs_bind. eapply runs_mono; [by apply (wakeDivision_ready pod ledger limits readings (mc_Name pm))|].
  intros t [rr out] w1 Hout. destruct out; try by apply runs_ret. simpl in Hout.
  apply runs_bind. unfold catchUpWithRecordedLimit. apply runs_bind, runs_call.
  destruct (GetClaim_law (ObjectKeyFromObject pm) w1) as (G & L & _). destruct (GetClaim _ w1) as [w2 got]. simpl in *.
  destruct got; apply runs_ret, runs_ret; [|done]. intros _. exists limits. split; [done|].
  eapply readyCard_quiet; [by split|done].
Qed.

Lemma ready_floor `{HL : ClusterLaws W} pod ledger limits waking w e :
  planInRange (plannableBytes ledger) (engines ledger) →
  planKVLimits (plannableBytes ledger) (engines ledger) = Ok limits → readyCard pod limits waking w →
  e ∈ engines ledger → eng_claimName e = waking → 0 ≤ eng_kvCapacityBytes e →
  ∃ limit, limitOf w (pod_IP pod) (eng_modelName e) = Some limit ∧
    (eng_withoutWakeReserve e = false → effectiveKVFloorBytes e ≤ limit).
Proof.
  intros Hr Hp [_ Hown] He Hn Hc. pose proof (planKVLimits_engines _ _ _ Hr Hp) as HF.
  apply (elem_of_sortBy byClaimName) in He. apply list_elem_of_lookup in He as [i Hi].
  destruct (Forall2_lookup_l _ _ _ _ _ HF Hi) as (l & Hl & Hf). destruct Hf as (Hfn & Hfm & Hfc & _ & Hh & _).
  exists (lim_kvLimitBytes l). rewrite <-Hfm.
  split; [apply Hown; [by eapply list_elem_of_lookup_2|congruence|lia]|]. intros Hk.
  unfold plannedKVHeldBytes in Hh. rewrite Hk, kvHeldBytes_max in Hh. lia.
Qed.

(** An engine wakes into room that nobody else can take.  When
    [cardArrangedForWake] lets an engine wake on a card whose account can be
    judged, then at that moment what the card's engines hold besides KV, and
    everything they can map, the waking engine with its reserve included, fits
    in the card; and the waking engine is held to its planned limit, which is no
    lower than its floor unless it keeps no reserve. *)
Theorem wakes_into_its_own_room `{HL : ClusterLaws W} readings pm pod ledger w :
  judgeable ledger = true → podHasGPUs pod (accelerators ledger) = true →
  planInRange (plannableBytes ledger) (engines ledger) → cardAsRead pod (engines ledger) w →
  let m := cardArrangedForWake readings pm pod ledger in
  (value m w).2 = true →
  ∃ limits, planKVLimits (plannableBytes ledger) (engines ledger) = Ok limits ∧
    sumZ (fun e => heldBytes e - plannedKVHeldBytes e) (engines ledger) + sumZ (promised pod (final m w)) limits
      ≤ plannableBytes ledger ∧
    ∀ e, e ∈ engines ledger → eng_claimName e = mc_Name pm → 0 ≤ eng_kvCapacityBytes e →
      ∃ limit, limitOf (final m w) (pod_IP pod) (eng_modelName e) = Some limit ∧
        (eng_withoutWakeReserve e = false → effectiveKVFloorBytes e ≤ limit).
Proof.
  intros Hj Hg Hr Hread m Hv. destruct (cardArrangedForWake_ready readings pm pod ledger w Hj Hg Hr Hread Hv) as (limits & Hp & Hc).
  exists limits. split; [done|]. split; [|intros; by eapply ready_floor].
  exact (insidePlan_fits pod (engines ledger) limits _ _ Hr Hp (proj1 Hc)).
Qed.

Section RoomWitness.
Local Existing Instance NanoK8s.
Local Existing Instance fakeCluster.
Local Existing Instance fakeLaws.

(** The second engine is to wake; the card is divided for it first. *)
Definition exWakes : Run fakeWorld (runtimeReadings * ModelClaim * bool) :=
  cardArrangedForWake newRuntimeReadings (exClaim "beta" ModelClaimSleeping) exPod exLedger.

Lemma wakes_into_its_own_room_witness :
  (0 <? length (visited exWakes exWorld))%nat = true ∧ (value exWakes exWorld).2 = true ∧
  ∃ limits, planKVLimits (plannableBytes exLedger) (engines exLedger) = Ok limits ∧
    sumZ (fun e => heldBytes e - plannedKVHeldBytes e) (engines exLedger) + sumZ (promised exPod (final exWakes exWorld)) limits
      ≤ plannableBytes exLedger.
Proof.
  split; [vm_compute; reflexivity|]. assert ((value exWakes exWorld).2 = true) as Hv by (vm_compute; reflexivity).
  split; [exact Hv|].
  destruct (wakes_into_its_own_room newRuntimeReadings (exClaim "beta" ModelClaimSleeping) exPod exLedger exWorld
    ltac:(vm_compute; reflexivity) ltac:(vm_compute; reflexivity) exPlan_range exWorld_asRead Hv) as (limits & Hp & Hfit & _).
  exists limits. exact (conj Hp Hfit).
Defined.
End RoomWitness.
