(* ===== verification/RoomHandler.v ===== *)
(** * Making room for a claim that no pod has room for ([makeRoomToPlace] of
    [pkg/controller/modelclaim/makeroom.go], [makeRoomByPrioritySleep] of
    [preemption.go], and the placement turns of [priority.go]).

    Room is made for one claim at a time: a card is held for it, and one engine
    there is put to sleep in a pass.  The plans themselves are in [MakeRoom]; here
    are the readings they are made from, the turns, and what is done.  A message
    for the claim is left to what it is worded from: the plan carried out. *)

From S2P Require Import Prelude Api Claims Ledger KVPlan Placement Reservations Backoff Runtime ArrangeCard PoolPolicy Division MakeRoom Rfc3339 WakeTurn SleepEngine WakeHandler.

Section RoomRecords.
Context `{K8s}.

(** What a pass works with when it makes room. *)
Record roomState : Type := MkRoomState {
  rs_pass : passState;
  rs_held : cardReservations;
  rs_backoff : placementBackoff;
}.

Definition roomPass (s : roomState) (pass : passState) : roomState := MkRoomState pass s.(rs_held) s.(rs_backoff).
Definition roomHeld (s : roomState) (held : cardReservations) : roomState := MkRoomState s.(rs_pass) held s.(rs_backoff).
End RoomRecords.

Section Room.
Context `{PodApi W}.

(** The claims of the engines asleep on a card that requests ask for. *)
Fixpoint wakersOn (pod : Pod) (es : list engineOnPod) : Run W (list ModelClaim) :=
  match es with
  | [] => mret []
  | engine :: rest =>
      if negb engine.(eng_asleep) || negb (wakeAsked (Some pod) engine.(eng_claimName)) then wakersOn pod rest
      else
        got ← call (GetClaim (MkNN pod.(pod_Namespace) engine.(eng_claimName)));
        wakers ← wakersOn pod rest;
        mret (match got with Ok waker => waker :: wakers | Err _ => wakers end)
  end.

Fixpoint anyWakeFits (s : passState) (pod : Pod) (ledger : podLedger) (claims wakers : list ModelClaim)
  : Run W (passState * bool) :=
  match wakers with
  | [] => mret (s, false)
  | waker :: rest =>
      '(s, turn, _) ← wakeTurnOn s waker pod ledger (Some claims);
      if negb (bool_decide (turn = wakeCannotFit)) then mret (s, true) else anyWakeFits s pod ledger claims rest
  end.

Definition wakeWaitsOn (s : passState) (pod : Pod) (ledger : podLedger) : Run W (passState * bool) :=
  wakers ← wakersOn pod ledger.(engines);
  anyWakeFits s pod ledger wakers wakers.

Definition planRoom (s : passState) (pm : ModelClaim) (pod : Pod) (ledger : podLedger) (seat : Z)
  : Run W (passState * option roomPlan) :=
  if negb ledger.(judgeable) || negb (podHasGPUs pod ledger.(accelerators)) ||
     negb (fitsTopology pod ledger (instanceGPUCount pm)) then mret (s, None)
  else
    lifecycle ← roomCanBeMadeOn pm pod ledger;
    match lifecycle with
    | None => mret (s, None)
    | Some policy =>
        '(s, waits) ← wakeWaitsOn s pod ledger;
        if waits : bool then mret (s, None)
        else
          '(s, idle) ← idleEngines s pm pod (sleepToMakeRoomAfter policy);
          mret (s, planRoomWith s.(ps_footprints) pod ledger seat idle)
    end.

(** A plan for each of some pods where there is one. *)
Fixpoint planRooms (s : passState) (pm : ModelClaim) (ledgers : gmap string podLedger) (seat : Z) (pods : list Pod)
  : Run W (passState * list roomPlan) :=
  match pods with
  | [] => mret (s, [])
  | pod :: rest =>
      '(s, plan) ← planRoom s pm pod (default zeroLedger (ledgers !! pod.(pod_Name))) seat;
      '(s, plans) ← planRooms s pm ledgers seat rest;
      mret (s, match plan with Some p => p :: plans | None => plans end)
  end.

(** Whether there is one, which is looked for no further than that. *)
Fixpoint anyRoom (s : passState) (pm : ModelClaim) (ledgers : gmap string podLedger) (seat : Z) (pods : list Pod)
  : Run W (passState * bool) :=
  match pods with
  | [] => mret (s, false)
  | pod :: rest =>
      '(s, plan) ← planRoom s pm pod (default zeroLedger (ledgers !! pod.(pod_Name))) seat;
      match plan with Some _ => mret (s, true) | None => anyRoom s pm ledgers seat rest end
  end.

(** ** Preemption. *)

Definition sleepPreemptionVictims (s : passState) (preemptor : ModelClaim) (pod : Pod) (claims : list ModelClaim)
  : Run W (passState * list sleepPreemptionVictim) :=
  '(s, reply) ← readPod s pod;
  mret (s, match reply with
           | Ok (Some snapshot) => victimsOf s.(ps_manager) claims preemptor pod snapshot
           | _ => []
           end).

Definition withArtifact (plan : sleepPreemptionPlan) (cached : bool) : sleepPreemptionPlan :=
  MkPreemption plan.(pre_pod) plan.(pre_victims) plan.(pre_estimatedVictims) plan.(pre_known) cached.

(** A pod that a preemption could help at all. *)
Definition preemptionSuits (pm : ModelClaim) (pod : Pod) (ledger : podLedger) (seat : Z) : bool :=
  negb (negb (selects pm pod) || negb ledger.(judgeable) || negb (podHasGPUs pod ledger.(accelerators)) ||
        negb (fitsTopology pod ledger (instanceGPUCount pm)) || (ledger.(hbmUsableBytes) <? seat)) &&
  negb ((seat <=? maximumRoomBytes ledger) && (seat <=? heldRoomBytes ledger)).

Definition planPreemptionOn (s : passState) (pm : ModelClaim) (pod : Pod) (claims : list ModelClaim)
    (ledgers : gmap string podLedger) (states : gmap string PodPlacementState) (seat : Z) (owns : bool)
  : Run W (passState * option sleepPreemptionPlan) :=
  match ledgers !! pod.(pod_Name) with
  | None => mret (s, None)
  | Some ledger =>
      if negb (preemptionSuits pm pod ledger seat) then mret (s, None)
      else
        lifecycle ← roomCanBeMadeOn pm pod ledger;
        match lifecycle with
        | None => mret (s, None)
        | Some _ =>
            '(s, waits) ← (if owns then mret (s, false) else wakeWaitsOn s pod ledger);
            if waits : bool then mret (s, None)
            else
              '(s, victims) ← sleepPreemptionVictims s pm pod claims;
              if bool_decide (victims = []) || negb (preemptionVictimsCanMakeRoom s.(ps_footprints) ledger victims seat)
              then mret (s, None)
              else
                let cached := match states !! pod.(pod_Name) with Some state => state.(st_ArtifactCached) | None => false end in
                mret (s, plan ← planSleepPreemptionOnPod s.(ps_footprints) pod ledger victims seat; Some (withArtifact plan cached))
        end
  end.

Fixpoint planPreemptions (s : passState) (pm : ModelClaim) (claims : list ModelClaim) (ledgers : gmap string podLedger)
    (states : gmap string PodPlacementState) (seat : Z) (held : option NamespacedName) (pods : list Pod)
  : Run W (passState * list sleepPreemptionPlan) :=
  match pods with
  | [] => mret (s, [])
  | pod :: rest =>
      let owns := match held with Some card => bool_decide (card.(nn_Name) = pod.(pod_Name)) | None => false end in
      '(s, plan) ← planPreemptionOn s pm pod claims ledgers states seat owns;
      '(s, plans) ← planPreemptions s pm claims ledgers states seat held rest;
      mret (s, match plan with Some p => p :: plans | None => plans end)
  end.

Inductive preemptionError : Type := NotDeclared (why : declarationError) | BadParallelism.

(** [claims] is [None] when they could not be listed. *)
Definition planSleepPreemption (s : roomState) (pm : ModelClaim) (candidates : list Pod) (claims : option (list ModelClaim))
    (ledgers : gmap string podLedger) (states : gmap string PodPlacementState)
  : Run W (roomState * result preemptionError (option sleepPreemptionPlan)) :=
  if bool_decide (is_Some pm.(mc_DeletionTimestamp)) || negb (bool_decide (pm.(status_Instances) = [])) ||
     (desiredReplicas pm <=? 0) then mret (s, Ok None)
  else
    match claims, perGPUBytesOf pm, modelParallelism pm with
    | None, _, _ => mret (s, Ok None)
    | Some _, Err why, _ => mret (s, Err (NotDeclared why))
    | Some _, Ok _, Err _ => mret (s, Err BadParallelism)
    | Some claims, Ok perGPU, Ok _ =>
        now ← call Now;
        let '(held, card) := preemptionHeldFor s.(rs_held) pm.(mc_Namespace) pm.(mc_Name) now in
        '(pass, plans) ← planPreemptions s.(rs_pass) pm claims ledgers states (perGPU_minimumReserveBytes perGPU) card candidates;
        mret (MkRoomState pass held s.(rs_backoff), Ok (bestPreemption plans))
    end.

(** ** Whose turn it is. *)

Definition claimFeasibleForPlacement (s : roomState) (claim : ModelClaim) (candidates : list Pod) (ledgers : gmap string podLedger)
  : Run W (roomState * bool) :=
  match perGPUBytesOf claim, candidatePodsForClaim claim candidates with
  | Ok perGPU, Some shared =>
      let seat := perGPU_minimumReserveBytes perGPU in
      if (0 <? length (admissibleCandidates ledgers seat (instanceGPUCount claim) shared).1)%nat then mret (s, true)
      else
        '(pass, found) ← anyRoom s.(rs_pass) claim ledgers seat shared;
        mret (roomPass s pass, found)
  | _, _ => mret (s, false)
  end.

Definition sleepsLowerPriority (claim : ModelClaim) : bool :=
  match preemptionPolicyOf claim with PreemptionSleepLowerPriority => true | _ => false end.

Definition claimFeasibleForPlacementWithPolicy (s : roomState) (claim : ModelClaim) (candidates : list Pod)
    (claims : option (list ModelClaim)) (ledgers : gmap string podLedger) : Run W (roomState * bool) :=
  if negb (sleepsLowerPriority claim) then claimFeasibleForPlacement s claim candidates ledgers
  else
    match perGPUBytesOf claim, candidatePodsForClaim claim candidates with
    | Ok perGPU, Some shared =>
        let seat := perGPU_minimumReserveBytes perGPU in
        if (0 <? length (admissibleCandidates ledgers seat (instanceGPUCount claim) shared).1)%nat then mret (s, true)
        else
          match modelParallelism claim with
          | Err _ => mret (s, false)
          | Ok parallelism =>
              '(readings, snapshots) ← ofPods s.(rs_pass).(ps_readings) shared;
              let s := roomPass s (setReadings s.(rs_pass) readings) in
              let states := placementStatesFrom snapshots shared claim.(spec_ArtifactURL) parallelism in
              '(s, plan) ← planSleepPreemption s claim shared claims ledgers states;
              mret (s, match plan with Ok (Some _) => true | _ => false end)
          end
    | _, _ => mret (s, false)
    end.

(** The listing of a claim's namespace, and the claims that wait for a place in
    its pool, in order.  The claim is as the pass has it. *)
Definition waitingClaims (pm : ModelClaim) (candidates : list Pod) : Run W (option (list ModelClaim * list ModelClaim)) :=
  listed ← call (ListClaims pm.(mc_Namespace));
  mret (match listed with
        | Err _ => None
        | Ok items =>
            let current := fun claim => if bool_decide (claim.(mc_Name) = pm.(mc_Name)) then pm else claim in
            Some (placementPriorityFirst (List.filter (fun claim => priorityEligible claim candidates) (current <$> items)), items)
        end).

(** Whether a claim that goes before keeps its turn: it holds a card, or room
    could be made for it now. *)
Definition keepsTurn (s : roomState) (claim : ModelClaim) (candidates : list Pod) (claims : list ModelClaim)
    (ledgers : gmap string podLedger) : Run W (roomState * bool) :=
  match candidatePodsForClaim claim candidates with
  | None => mret (s, false)
  | Some shared =>
      at_ ← call Now;
      if waiting s.(rs_backoff) (ObjectKeyFromObject claim) claim.(mc_Generation)
           (Some (roomSignatureOf shared (Some claims))) ledgers at_ then mret (s, false)
      else if sleepsLowerPriority claim then
        claimFeasibleForPlacementWithPolicy s claim shared (Some claims) ledgers
      else
        match perGPUBytesOf claim with
        | Err _ => mret (s, false)
        | Ok perGPU =>
            '(pass, found) ← anyRoom s.(rs_pass) claim ledgers (perGPU_minimumReserveBytes perGPU) shared;
            mret (roomPass s pass, found)
        end
  end.

Fixpoint firstOf (s : roomState) (pm : ModelClaim) (candidates : list Pod) (claims : list ModelClaim)
    (ledgers : gmap string podLedger) (now : Time) (queue : list ModelClaim) : Run W (roomState * bool) :=
  match queue with
  | [] => mret (s, false)
  | claim :: rest =>
      if bool_decide (claim.(mc_Name) = pm.(mc_Name)) then mret (s, true)
      else
        let '(held, card) := heldFor s.(rs_held) claim.(mc_Namespace) claim.(mc_Name) now in
        let s := roomHeld s held in
        match card with
        | Some _ => mret (s, false)
        | None =>
            '(s, keeps) ← keepsTurn s claim candidates claims ledgers;
            if keeps : bool then mret (s, false) else firstOf s pm candidates claims ledgers now rest
        end
  end.

Definition firstToMakeRoomFor (s : roomState) (pm : ModelClaim) (candidates : list Pod) (ledgers : gmap string podLedger)
  : Run W (roomState * bool) :=
  now ← call Now;
  let '(held, card) := heldFor s.(rs_held) pm.(mc_Namespace) pm.(mc_Name) now in
  let s := roomHeld s held in
  match card with
  | Some _ => mret (s, true)
  | None =>
      listing ← waitingClaims pm candidates;
      match listing with
      | None => mret (s, false)
      | Some (queue, claims) => firstOf s pm candidates claims ledgers now queue
      end
  end.

(** The first claim before [current] that can be placed, or have room made. *)
Fixpoint blockerIn (s : roomState) (current : ModelClaim) (candidates : list Pod) (claims : list ModelClaim)
    (ledgers : gmap string podLedger) (now : Time) (queue : list ModelClaim) : Run W (roomState * option ModelClaim) :=
  match queue with
  | [] => mret (s, None)
  | claim :: rest =>
      if bool_decide (claim.(mc_Name) = current.(mc_Name)) then mret (s, None)
      else
        let '(held, card) := heldFor s.(rs_held) claim.(mc_Namespace) claim.(mc_Name) now in
        let s := roomHeld s held in
        match card with
        | Some _ => mret (s, Some claim)
        | None =>
            at_ ← call Now;
            if waiting s.(rs_backoff) (ObjectKeyFromObject claim) claim.(mc_Generation)
                 (Some (roomSignatureOf (default [] (candidatePodsForClaim claim candidates)) (Some claims))) ledgers at_
            then blockerIn s current candidates claims ledgers now rest
            else
              '(s, feasible) ← claimFeasibleForPlacementWithPolicy s claim candidates (Some claims) ledgers;
              if feasible : bool then mret (s, Some claim) else blockerIn s current candidates claims ledgers now rest
        end
  end.

Definition placementTurnBlocker (s : roomState) (current : ModelClaim) (candidates : list Pod) (claims : list ModelClaim)
    (ledgers : gmap string podLedger) : Run W (roomState * option ModelClaim) :=
  if negb (bool_decide (current.(status_Instances) = [])) then mret (s, None)
  else
    now ← call Now;
    let '(held, card) := heldFor s.(rs_held) current.(mc_Namespace) current.(mc_Name) now in
    let s := roomHeld s held in
    match card with
    | Some _ => mret (s, None)
    | None =>
        '(s, feasible) ← claimFeasibleForPlacementWithPolicy s current candidates (Some claims) ledgers;
        if negb feasible then mret (s, None)
        else
          let others := List.filter (fun claim =>
            bool_decide (claim.(mc_Namespace) = current.(mc_Namespace)) &&
            negb (bool_decide (claim.(mc_Name) = current.(mc_Name))) && priorityEligible claim candidates) claims in
          blockerIn s current candidates claims ledgers now (placementPriorityFirst (current :: others))
    end.

(** ** Making room. *)

Definition makeRoomToPlace (s : roomState) (pm : ModelClaim) (perGPU : perGPUBytes) (candidates : list Pod)
    (ledgers : gmap string podLedger) : Run W (roomState * option roomPlan) :=
  now ← call Now;
  '(s, first) ← firstToMakeRoomFor s pm candidates ledgers;
  if negb first then mret (s, None)
  else
    let seat := perGPU_minimumReserveBytes perGPU in
    let '(held, card) := heldFor s.(rs_held) pm.(mc_Namespace) pm.(mc_Name) now in
    let eligible := match card with
                    | Some card => List.filter (fun pod => bool_decide (pod.(pod_Name) = card.(nn_Name))) candidates
                    | None => candidates
                    end in
    '(pass, plans) ← planRooms s.(rs_pass) pm ledgers seat eligible;
    let s := MkRoomState pass held s.(rs_backoff) in
    match bestRoomPlan plans with
    | None => mret (roomHeld s (release s.(rs_held) pm.(mc_Namespace) pm.(mc_Name)), None)
    | Some best =>
        let '(held, mine) := hold s.(rs_held) (cardOf best.(plan_pod)) pm.(mc_Name) seat now in
        let s := roomHeld s held in
        match negb mine, best.(plan_sleeps) with
        | false, first :: _ =>
            '(pass, _, slept) ← putIdleEngineToSleep s.(rs_pass) first best.(plan_pod) pm;
            let s := roomPass s pass in
            if slept : bool then mret (s, Some best)
            else mret (roomHeld s (release s.(rs_held) pm.(mc_Namespace) pm.(mc_Name)), None)
        | _, _ => mret (s, None)
        end
    end.

Definition preemptionOperation (victim : sleepPreemptionVictim) (pod : Pod) (preemptor : ModelClaim) : string :=
  slashes ["preemption-sleep"; pod.(pod_UID); snapshotActivityKey victim.(vic_idle).(idle_model); preemptor.(mc_UID);
           pretty victim.(vic_idle).(idle_since)].

Definition putPreemptionVictimToSleep (s : passState) (victim : sleepPreemptionVictim) (pod : Pod) (preemptor : ModelClaim)
  : Run W (passState * bool) :=
  let idle := victim.(vic_idle) in
  '(s, pod, slept) ← putEngineToSleep s idle.(idle_claim) pod idle.(idle_port) idle.(idle_model).(sm_ModelName)
    (preemptionOperation victim pod preemptor);
  match slept with
  | Err _ => mret (s, false)
  | Ok _ =>
      '(s, asleep) ← sleptEngine s pod idle.(idle_claim);
      mret (noteFootprint s idle.(idle_claim) asleep, true)
  end.

Definition makeRoomByPrioritySleep (s : roomState) (pm : ModelClaim) (perGPU : perGPUBytes) (candidates : list Pod)
    (claims : option (list ModelClaim)) (ledgers : gmap string podLedger) (states : gmap string PodPlacementState)
  : Run W (roomState * option sleepPreemptionPlan) :=
  now ← call Now;
  let '(held, card) := heldFor s.(rs_held) pm.(mc_Namespace) pm.(mc_Name) now in
  let eligible := match card with
                  | Some card => take 1 (List.filter (fun pod => bool_decide (pod.(pod_Name) = card.(nn_Name))) candidates)
                  | None => candidates
                  end in
  '(s, plan) ← planSleepPreemption (roomHeld s held) pm eligible claims ledgers states;
  let letGo := fun s : roomState => roomHeld s (release s.(rs_held) pm.(mc_Namespace) pm.(mc_Name)) in
  match plan with
  | Ok (Some plan) =>
      match plan.(pre_victims) with
      | [] => mret (letGo s, None)
      | victim :: _ =>
          let '(held, mine) := holdPreemption s.(rs_held) (cardOf plan.(pre_pod)) pm.(mc_Name)
                                 (perGPU_minimumReserveBytes perGPU) now in
          let s := roomHeld s held in
          if negb mine then mret (s, None)
          else
            '(pass, slept) ← putPreemptionVictimToSleep s.(rs_pass) victim plan.(pre_pod) pm;
            let s := roomPass s pass in
            if slept : bool then mret (s, Some plan) else mret (letGo s, None)
      end
  | _ => mret (letGo s, None)
  end.
End Room.
