(* ===== verification/Calls.v ===== *)
(** * The calls that the handlers make.

    Most of what the reconciler does only reads, and most of the rest writes in
    one of three ways.  [ReadsIn], [StatusIn], [LimitsIn] and [SleepsIn] say that
    the calls of each kind stay within a relation on the world; a handler that
    makes no other calls then stays within it too, whatever the relation is. *)

From S2P Require Import Prelude Api Claims Ledger KVPlan Placement Reservations Backoff Runtime ArrangeCard PoolPolicy Division MakeRoom Rfc3339 WakeTurn SleepEngine WakeHandler RoomHandler.

Class ReadsIn `{PodApi W} (R : W → W → Prop) := {
  readsIn_preorder :: PreOrder R;
  in_Snapshot ip w : R w (Snapshot ip w).1;
  in_GetClaim key w : R w (GetClaim key w).1;
  in_ListClaims namespace w : R w (ListClaims namespace w).1;
  in_ListCachedClaims namespace w : R w (ListCachedClaims namespace w).1;
  in_GetReplicaSet name w : R w (GetReplicaSet name w).1;
  in_GetDeployment name w : R w (GetDeployment name w).1;
  in_Now w : R w (Now w).1;
  in_SetStatusCondition cs c w : R w (SetStatusCondition cs c w).1;
}.

Class StatusIn `{PodApi W} (R : W → W → Prop) := {
  in_StatusUpdate claim w : R w (StatusUpdate claim w).1;
}.

Class LimitsIn `{PodApi W} (R : W → W → Prop) := {
  in_SetKVLimit ip req w : R w (SetKVLimit ip req w).1;
  in_RetryOnConflict {A} (m : Run W (result apiError A)) : within R m → within R (RetryOnConflict m);
}.

(** Annotations are written, and engines put to sleep. *)
Class SleepsIn `{PodApi W} (R : W → W → Prop) := {
  in_write pod k v w : R w (PatchPod pod (setAnnotations pod (<[k := v]> (pod_Annotations pod))) w).1;
  in_Sleep ip req w : R w (Sleep ip req w).1;
}.

#[export] Hint Extern 0 (ReadsIn _) => exact _ : within.
#[export] Hint Extern 0 (StatusIn _) => exact _ : within.
#[export] Hint Extern 0 (LimitsIn _) => exact _ : within.
#[export] Hint Extern 0 (SleepsIn _) => exact _ : within.

(** One call. *)
Ltac call_in :=
  lazymatch goal with
  | |- _ _ (Snapshot _ _).1 => apply in_Snapshot
  | |- _ _ (GetClaim _ _).1 => apply in_GetClaim
  | |- _ _ (ListClaims _ _).1 => apply in_ListClaims
  | |- _ _ (ListCachedClaims _ _).1 => apply in_ListCachedClaims
  | |- _ _ (GetReplicaSet _ _).1 => apply in_GetReplicaSet
  | |- _ _ (GetDeployment _ _).1 => apply in_GetDeployment
  | |- _ _ (Now _).1 => apply in_Now
  | |- _ _ (SetStatusCondition _ _ _).1 => apply in_SetStatusCondition
  | |- _ _ (StatusUpdate _ _).1 => apply in_StatusUpdate
  | |- _ _ (SetKVLimit _ _ _).1 => apply in_SetKVLimit
  | |- _ _ (PatchPod _ _ _).1 => apply in_write
  | |- _ _ (Sleep _ _ _).1 => apply in_Sleep
  end.
#[export] Hint Extern 1 => call_in : within.

(** ** What only reads. *)

Section Reads.
Context `{HP : PodApi W} (R : W → W → Prop) `{!ReadsIn R}.

Lemma reading_of_in rr pod : within R (reading_of rr pod).
Proof. unfold reading_of. stays. Qed.
#[local] Hint Resolve reading_of_in : within.

Lemma readPod_in s pod : within R (readPod s pod).
Proof. unfold readPod. stays. Qed.

Lemma fresh_in rr pod : within R (fresh rr pod).
Proof. unfold fresh. stays. Qed.

Lemma readAll_in rr pods : within R (readAll rr pods).
Proof. revert rr. induction pods; intros rr; simpl; stays. Qed.

Lemma collectReadings_in rr snapshots pods : within R (collectReadings rr snapshots pods).
Proof. revert rr snapshots. induction pods; intros rr snapshots; simpl; stays. Qed.
#[local] Hint Resolve readPod_in readAll_in collectReadings_in : within.

Lemma ofPods_in rr pods : within R (ofPods rr pods).
Proof. unfold ofPods, readUnread. stays. Qed.

Lemma poolDeploymentForPod_in pod : within R (poolDeploymentForPod pod).
Proof. unfold poolDeploymentForPod. stays. Qed.
#[local] Hint Resolve ofPods_in poolDeploymentForPod_in : within.

Lemma withoutReserve_in pools without pods : within R (withoutReserve pools without pods).
Proof. revert pools without. induction pods; intros pools without; simpl; stays. Qed.

Lemma poolLifecycleOf_in pod : within R (poolLifecycleOf pod).
Proof. unfold poolLifecycleOf. stays. Qed.
#[local] Hint Resolve withoutReserve_in poolLifecycleOf_in : within.

Lemma podsWithoutWakeReserve_in pods : within R (podsWithoutWakeReserve pods).
Proof. unfold podsWithoutWakeReserve. stays. Qed.
#[local] Hint Resolve podsWithoutWakeReserve_in : within.

Lemma ledgersOf_in s pm pods : within R (ledgersOf s pm pods).
Proof. unfold ledgersOf. stays. Qed.
#[local] Hint Resolve ledgersOf_in : within.

Lemma ledgerOf_in s pm pod : within R (ledgerOf s pm pod).
Proof. unfold ledgerOf. stays. Qed.

Lemma canPlaceElsewhere_in s pm candidates : within R (canPlaceElsewhere s pm candidates).
Proof. unfold canPlaceElsewhere. stays. Qed.

Lemma roomCanBeMadeOn_in pm pod ledger : within R (roomCanBeMadeOn pm pod ledger).
Proof. unfold roomCanBeMadeOn. stays. Qed.

Lemma readClock_in n : within R (readClock n).
Proof. induction n; simpl; stays. Qed.
#[local] Hint Resolve ledgerOf_in canPlaceElsewhere_in roomCanBeMadeOn_in readClock_in : within.

Lemma idleEngines_in s pm pod idleFor : within R (idleEngines s pm pod idleFor).
Proof. unfold idleEngines. stays. Qed.
#[local] Hint Resolve idleEngines_in : within.

Lemma wakeIdleEngines_in s pm pod idleFor : within R (wakeIdleEngines s pm pod idleFor).
Proof. unfold wakeIdleEngines. stays. Qed.

Lemma wakeTurnOn_in s pm pod ledger claims : within R (wakeTurnOn s pm pod ledger claims).
Proof. unfold wakeTurnOn. stays. Qed.

Lemma wakeRequestExpired_in s pod key requestedAt : within R (wakeRequestExpired s pod key requestedAt).
Proof. unfold wakeRequestExpired. stays. Qed.

Lemma recomputeReadiness_in pm : within R (recomputeReadiness pm).
Proof. unfold recomputeReadiness. stays. Qed.

Lemma engineIsQuiet_in s pod claim modelName : within R (engineIsQuiet s pod claim modelName).
Proof. unfold engineIsQuiet. stays. Qed.

Lemma sleptEngine_in s pod claim : within R (sleptEngine s pod claim).
Proof. unfold sleptEngine. stays. Qed.
#[local] Hint Resolve wakeIdleEngines_in wakeTurnOn_in wakeRequestExpired_in recomputeReadiness_in engineIsQuiet_in sleptEngine_in : within.

(** The plans that make room, and whose turn it is. *)

Lemma wakersOn_in pod es : within R (wakersOn pod es).
Proof. induction es; simpl; stays. Qed.

Lemma anyWakeFits_in s pod ledger claims wakers : within R (anyWakeFits s pod ledger claims wakers).
Proof. revert s. induction wakers; intros s; simpl; stays. Qed.
#[local] Hint Resolve wakersOn_in anyWakeFits_in : within.

Lemma wakeWaitsOn_in s pod ledger : within R (wakeWaitsOn s pod ledger).
Proof. unfold wakeWaitsOn. stays. Qed.
#[local] Hint Resolve wakeWaitsOn_in : within.

Lemma planRoom_in s pm pod ledger seat : within R (planRoom s pm pod ledger seat).
Proof. unfold planRoom. stays. Qed.
#[local] Hint Resolve planRoom_in : within.

Lemma planRooms_in s pm ledgers seat pods : within R (planRooms s pm ledgers seat pods).
Proof. revert s. induction pods; intros s; simpl; stays. Qed.

Lemma anyRoom_in s pm ledgers seat pods : within R (anyRoom s pm ledgers seat pods).
Proof. revert s. induction pods; intros s; simpl; stays. Qed.

Lemma sleepPreemptionVictims_in s pm pod claims : within R (sleepPreemptionVictims s pm pod claims).
Proof. unfold sleepPreemptionVictims. stays. Qed.
#[local] Hint Resolve planRooms_in anyRoom_in sleepPreemptionVictims_in : within.

Lemma planPreemptionOn_in s pm pod claims ledgers states seat owns :
  within R (planPreemptionOn s pm pod claims ledgers states seat owns).
Proof. unfold planPreemptionOn. stays. Qed.
#[local] Hint Resolve planPreemptionOn_in : within.

Lemma planPreemptions_in s pm claims ledgers states seat held pods :
  within R (planPreemptions s pm claims ledgers states seat held pods).
Proof. revert s. induction pods; intros s; simpl; stays. Qed.
#[local] Hint Resolve planPreemptions_in : within.

Lemma planSleepPreemption_in s pm candidates claims ledgers states :
  within R (planSleepPreemption s pm candidates claims ledgers states).
Proof. unfold planSleepPreemption. stays. Qed.
#[local] Hint Resolve planSleepPreemption_in : within.

Lemma feasible_in s claim candidates claims ledgers :
  within R (claimFeasibleForPlacementWithPolicy s claim candidates claims ledgers).
Proof. unfold claimFeasibleForPlacementWithPolicy, claimFeasibleForPlacement. stays. Qed.
#[local] Hint Resolve feasible_in : within.

Lemma keepsTurn_in s claim candidates claims ledgers : within R (keepsTurn s claim candidates claims ledgers).
Proof. unfold keepsTurn. stays. Qed.
#[local] Hint Resolve keepsTurn_in : within.

Lemma firstOf_in s pm candidates claims ledgers now queue : within R (firstOf s pm candidates claims ledgers now queue).
Proof. revert s. induction queue; intros s; simpl; stays. Qed.
#[local] Hint Resolve firstOf_in : within.

Lemma firstToMakeRoomFor_in s pm candidates ledgers : within R (firstToMakeRoomFor s pm candidates ledgers).
Proof. unfold firstToMakeRoomFor, waitingClaims. stays. Qed.

Lemma blockerIn_in s current candidates claims ledgers now queue :
  within R (blockerIn s current candidates claims ledgers now queue).
Proof. revert s. induction queue; intros s; simpl; stays. Qed.
#[local] Hint Resolve firstToMakeRoomFor_in blockerIn_in : within.

Lemma placementTurnBlocker_in s current candidates claims ledgers :
  within R (placementTurnBlocker s current candidates claims ledgers).
Proof. unfold placementTurnBlocker. stays. Qed.
End Reads.

#[export] Hint Resolve reading_of_in readPod_in fresh_in readAll_in collectReadings_in ofPods_in poolDeploymentForPod_in
  withoutReserve_in poolLifecycleOf_in podsWithoutWakeReserve_in ledgersOf_in ledgerOf_in canPlaceElsewhere_in
  roomCanBeMadeOn_in readClock_in idleEngines_in wakeIdleEngines_in wakeTurnOn_in wakeRequestExpired_in
  recomputeReadiness_in engineIsQuiet_in sleptEngine_in wakersOn_in anyWakeFits_in wakeWaitsOn_in planRoom_in planRooms_in
  anyRoom_in sleepPreemptionVictims_in planPreemptionOn_in planPreemptions_in planSleepPreemption_in feasible_in
  keepsTurn_in firstOf_in firstToMakeRoomFor_in blockerIn_in placementTurnBlocker_in : within.

(** ** The arrangement of a card. *)

Section Arranges.
Context `{HP : PodApi W} (R : W → W → Prop) `{!ReadsIn R} `{!StatusIn R} `{!LimitsIn R}.

Lemma writeLimits_in pod ledger limits : within R (writeLimits pod ledger limits).
Proof. induction limits; simpl; stays. Qed.
#[local] Hint Resolve writeLimits_in : within.

Lemma writeAndConfirmKVLimits_in pod ledger rr limits : within R (writeAndConfirmKVLimits pod ledger rr limits).
Proof. unfold writeAndConfirmKVLimits. stays. Qed.

Lemma takeBackKVLimits_in pod ledger limits : within R (takeBackKVLimits pod ledger limits).
Proof. induction limits; simpl; stays. Qed.

Lemma recordKVLimit_in pod claimName bytes : within R (recordKVLimit pod claimName bytes).
Proof. apply in_RetryOnConflict. unfold recordOnce. stays. Qed.
#[local] Hint Resolve writeAndConfirmKVLimits_in takeBackKVLimits_in recordKVLimit_in : within.

Lemma recordLimits_in pod lowering limits : within R (recordLimits pod lowering limits).
Proof. induction limits; simpl; stays. Qed.
#[local] Hint Resolve recordLimits_in : within.

Lemma recordAndGrow_in pod ledger rr why limits first second : within R (recordAndGrow pod ledger rr why limits first second).
Proof. unfold recordAndGrow. stays. Qed.
#[local] Hint Resolve recordAndGrow_in : within.

Lemma arrangeCard_in pod ledger rr es why : within R (arrangeCard pod ledger rr es why).
Proof. unfold arrangeCard. stays. Qed.
#[local] Hint Resolve arrangeCard_in : within.

Lemma makeRoomOnPod_in pod ledger rr pm perGPU : within R (makeRoomOnPod pod ledger rr pm perGPU).
Proof. unfold makeRoomOnPod. stays. Qed.

Lemma cardArrangedForWake_in rr pm pod ledger : within R (cardArrangedForWake rr pm pod ledger).
Proof. unfold cardArrangedForWake, catchUpWithRecordedLimit. stays. Qed.
End Arranges.

#[export] Hint Resolve arrangeCard_in makeRoomOnPod_in cardArrangedForWake_in : within.

(** ** Routes, and putting an engine to sleep. *)

Section Writes.
Context `{HP : PodApi W} (R : W → W → Prop) `{!ReadsIn R} `{!StatusIn R} `{!SleepsIn R}.

Lemma annotate_in pm pod port state reason : within R (annotateWarmPodWithState pm pod port state reason).
Proof. unfold annotateWarmPodWithState. stays. Qed.

Lemma markClaimInstanceSleeping_in pm podName : within R (markClaimInstanceSleeping pm podName).
Proof. unfold markClaimInstanceSleeping. stays. Qed.
#[local] Hint Resolve annotate_in markClaimInstanceSleeping_in : within.

Lemma putEngineToSleep_in s claim pod port modelName op : within R (putEngineToSleep s claim pod port modelName op).
Proof. unfold putEngineToSleep. stays. Qed.
#[local] Hint Resolve putEngineToSleep_in : within.

Lemma putIdleEngineToSleep_in s idle pod pm : within R (putIdleEngineToSleep s idle pod pm).
Proof. unfold putIdleEngineToSleep. stays. Qed.

Lemma putPreemptionVictimToSleep_in s victim pod pm : within R (putPreemptionVictimToSleep s victim pod pm).
Proof. unfold putPreemptionVictimToSleep. stays. Qed.
#[local] Hint Resolve putIdleEngineToSleep_in putPreemptionVictimToSleep_in : within.

Lemma sleepToMakeRoom_in s pm pod ledger : within R (sleepToMakeRoom s pm pod ledger).
Proof. unfold sleepToMakeRoom. stays. Qed.

Lemma setWaitingForRoom_in pm slot pod waiting : within R (setWaitingForRoom pm slot pod waiting).
Proof. unfold setWaitingForRoom. stays. Qed.

Lemma markMoving_in pm slot pod reason : within R (markMoving pm slot pod reason).
Proof. unfold markMoving. stays. Qed.

Lemma callOffMove_in s pm slot pod : within R (callOffMove s pm slot pod).
Proof. unfold callOffMove. stays. Qed.

Lemma makeRoomToPlace_in s pm perGPU candidates ledgers : within R (makeRoomToPlace s pm perGPU candidates ledgers).
Proof. unfold makeRoomToPlace. stays. Qed.

Lemma makeRoomByPrioritySleep_in s pm perGPU candidates claims ledgers states :
  within R (makeRoomByPrioritySleep s pm perGPU candidates claims ledgers states).
Proof. unfold makeRoomByPrioritySleep. stays. Qed.
End Writes.

#[export] Hint Resolve annotate_in markClaimInstanceSleeping_in putEngineToSleep_in putIdleEngineToSleep_in
  putPreemptionVictimToSleep_in sleepToMakeRoom_in setWaitingForRoom_in markMoving_in callOffMove_in makeRoomToPlace_in
  makeRoomByPrioritySleep_in : within.
