(* ===== verification/WakeFacts.v ===== *)
(** * What a pass that wakes engines does to requests and engines
    ([wakeRequested] of [pkg/controller/modelclaim/wake.go]).

    [WakeLaws] is what the calls may do to the requests on the pods and to the
    engines that sleep.  A pass takes back requests of its own claim only, and
    for a reason; and it wakes engines of its own claim only, which sleep and are
    asked for. *)

From S2P Require Import Prelude Api Claims Ledger KVPlan Placement Reservations Runtime ArrangeCard PoolPolicy Division MakeRoom Rfc3339 WakeTurn SleepEngine WakeHandler RoomHandler Calls.

(** The requests on the pods, which the gateway may write at any time, and the
    engines asleep. *)
Class WakeLaws `{PodApi W} := {
  wakeAt : W → NamespacedName → string → option string;
  sleeping : W → string → string → bool;

  (** No request goes, and no engine wakes. *)
  asksKept w w' := ∀ p c, is_Some (wakeAt w p c) → is_Some (wakeAt w' p c);
  calm w w' := asksKept w w' ∧ ∀ ip m, sleeping w ip m = true → sleeping w' ip m = true;

  SetKVLimit_calm ip req w : calm w (SetKVLimit ip req w).1;
  Snapshot_calm ip w : calm w (Snapshot ip w).1;
  GetClaim_calm c w : calm w (GetClaim c w).1;
  StatusUpdate_calm claim w : calm w (StatusUpdate claim w).1;
  ListClaims_calm namespace w : calm w (ListClaims namespace w).1;
  ListCachedClaims_calm namespace w : calm w (ListCachedClaims namespace w).1;
  GetReplicaSet_calm name w : calm w (GetReplicaSet name w).1;
  GetDeployment_calm name w : calm w (GetDeployment name w).1;
  Now_calm w : calm w (Now w).1;
  GetPod_calm name w : calm w (GetPod name w).1;
  SetStatusCondition_calm cs c w : calm w (SetStatusCondition cs c w).1;
  Sleep_calm ip req w : calm w (Sleep ip req w).1;

  (** A wake wakes its engine at most. *)
  Wake_wakes ip req w : let w' := (Wake ip req w).1 in
    asksKept w w' ∧
    ∀ ip' m, sleeping w ip' m = true → sleeping w' ip' m = true ∨ (ip' = ip ∧ m = req.(wkr_ModelName));

  (** A patch removes what it says, of its pod. *)
  PatchPod_takes old new w : let w' := (PatchPod old new w).1 in
    (∀ p c, is_Some (wakeAt w p c) → is_Some (wakeAt w' p c) ∨
       (p = MkNN old.(pod_Namespace) old.(pod_Name) ∧ is_Some (old.(pod_Annotations) !! wakeKey c) ∧
        new.(pod_Annotations) !! wakeKey c = None)) ∧
    (∀ ip m, sleeping w ip m = true → sleeping w' ip m = true) ∧
    ∀ patched, (PatchPod old new w).2 = Ok patched →
      patched.(pod_Namespace) = old.(pod_Namespace) ∧ patched.(pod_Name) = old.(pod_Name) ∧
      patched.(pod_UID) = old.(pod_UID) ∧ patched.(pod_IP) = old.(pod_IP);

  GetPod_named name w pod : (GetPod name w).2 = Ok pod →
    pod.(pod_Namespace) = name.(nn_Namespace) ∧ pod.(pod_Name) = name.(nn_Name);

  (** What is stored of a status is what was sent. *)
  StatusUpdate_stores claim w stored : (StatusUpdate claim w).2 = Ok stored →
    stored.(mc_Namespace) = claim.(mc_Namespace) ∧ stored.(mc_Name) = claim.(mc_Name) ∧
    stored.(status_Instances) = claim.(status_Instances);
}.

Section Calm.
Context `{HL : ClusterLaws W} {HR : ClusterReads} {HP : PodApi} {HW : WakeLaws}.

#[local] Instance calm_preorder : PreOrder calm.
Proof.
  split; [intros w; split; [intros p c Hp; exact Hp|auto]|]. intros w w1 w2 [Ha Hb] [Hc Hd]. split; [intros p c Hp; by apply Hc, Ha|auto].
Qed.

(** ** What the handler calls and does not touch a request or wake an engine. *)

Lemma write_calm pod k v w : calm w (PatchPod pod (setAnnotations pod (<[k := v]> (pod_Annotations pod))) w).1.
Proof.
  destruct (PatchPod_takes pod (setAnnotations pod (<[k := v]> (pod_Annotations pod))) w) as (Ht & Hs & _).
  split; [|exact Hs]. intros p c Hp. destruct (Ht p c Hp) as [?|(_ & Hold & Hnew)]; [done|exfalso].
  simpl in Hnew. apply lookup_insert_None in Hnew as [Hnone _]. rewrite Hnone in Hold. by destruct Hold.
Qed.

#[export] Instance calm_reads : ReadsIn calm.
Proof.
  split; [apply _|apply Snapshot_calm|apply GetClaim_calm|apply ListClaims_calm|apply ListCachedClaims_calm
         |apply GetReplicaSet_calm|apply GetDeployment_calm|apply Now_calm|apply SetStatusCondition_calm].
Qed.
#[export] Instance calm_status : StatusIn calm.
Proof. split. apply StatusUpdate_calm. Qed.
#[export] Instance calm_limits : LimitsIn calm.
Proof. split; [apply SetKVLimit_calm|]. intros A m. apply (within_RetryOnConflict calm). Qed.
#[export] Instance calm_sleeps : SleepsIn calm.
Proof. split; [apply write_calm|apply Sleep_calm]. Qed.

(** ** What a pass may change, and why. *)

Section Pass.
Context (seen0 : gmap string Time) (pm0 : ModelClaim).

Definition identity (pod : Pod) : string * string * string * string :=
  (pod.(pod_Namespace), pod.(pod_Name), pod.(pod_UID), pod.(pod_IP)).

(** The moments of the pass, for the rest of the section. *)
Section Moments.
Context (T : W → Prop).

(** [pod] is the pod of an instance of the claim, which was read. *)
Definition podOf (inst : ModelClaimInstance) (pod : Pod) : Prop :=
  inst ∈ status_Instances pm0 ∧
  ∃ x read, T x ∧ (GetPod (MkNN (mc_Namespace pm0) (inst_Pod inst)) x).2 = Ok read ∧ identity pod = identity read.

(** A pod the server returned. *)
Definition returned (pod : Pod) : Prop :=
  ∃ x, T x ∧ ((∃ name, (GetPod name x).2 = Ok pod) ∨ ∃ old new, (PatchPod old new x).2 = Ok pod).

(** The request on a copy of a pod was on one that the server returned. *)
Definition truthful (pod : Pod) : Prop :=
  ∀ v, pod.(pod_Annotations) !! wakeKey (mc_Name pm0) = Some v →
    ∃ pod', returned pod' ∧ identity pod' = identity pod ∧ pod'.(pod_Annotations) !! wakeKey (mc_Name pm0) = Some v.

(** When a request was first seen: in this pass, or as it was remembered. *)
Definition seenAt (request : string) (t : Time) : Prop :=
  seen0 !! request = Some t ∨ ∃ x, T x ∧ (Now x).2 = t.

Definition expiredIn (pod : Pod) (requestedAt : string) : Prop :=
  ∃ x t, T x ∧ seenAt (wakeRequestKey pod (wakeKey (mc_Name pm0)) requestedAt) t ∧ wakeRequestLifetime < timeSub (Now x).2 t.

Definition refusedIn (pod : Pod) : Prop :=
  ∃ x op why, T x ∧ (Wake (pod_IP pod) (MkWakeRequest (servedModelName pm0) op) x).2 = Err why ∧ refusedByRuntime why = true.

(** Why a request may be taken back: its engine is neither asleep nor booting,
    it has expired, or the runtime refused to wake the engine. *)
Definition takenBack (p : NamespacedName) (c : string) : Prop :=
  c = mc_Name pm0 ∧ ∃ inst pod, podOf inst pod ∧ p = MkNN (pod_Namespace pod) (pod_Name pod) ∧
    ((inst_Phase inst ≠ ModelClaimSleeping ∧ inst_Phase inst ≠ ModelClaimActivating) ∨
     (∃ requestedAt, expiredIn pod requestedAt) ∨ refusedIn pod).

(** Which engines may wake: those of the claim that sleep and are asked for. *)
Definition mayWake (ip model : string) : Prop :=
  model = servedModelName pm0 ∧ ∃ inst pod, podOf inst pod ∧ ip = pod_IP pod ∧
    (∃ pod' v, returned pod' ∧ identity pod' = identity pod ∧ pod_Annotations pod' !! wakeKey (mc_Name pm0) = Some v) ∧
    (inst_Phase inst = ModelClaimSleeping ∨ (inst_Phase inst = ModelClaimFailed ∧ inst_Reason inst = instanceReasonNoRoomToWake)).

Definition changes (w w' : W) : Prop :=
  (∀ p c, is_Some (wakeAt w p c) → is_Some (wakeAt w' p c) ∨ takenBack p c) ∧
  (∀ ip m, sleeping w ip m = true → sleeping w' ip m = true ∨ mayWake ip m).

#[local] Instance changes_preorder : PreOrder changes.
Proof.
  split; [intros w; split; intros; by left|]. intros w w1 w2 [Ha Hb] [Hc Hd]. split.
  - intros p c [Hp|Hl]%Ha; [by apply Hc|by right].
  - intros ip m [Hp|Hl]%Hb; [by apply Hd|by right].
Qed.

Lemma calm_changes w w' : calm w w' → changes w w'.
Proof. intros [Ha Hb]. split; [intros p c Hp; left; by apply Ha|intros ip m Hs; left; by apply Hb]. Qed.
End Moments.
#[local] Existing Instance changes_preorder.

(** What a computation changes and returns, in terms of the moments of the pass. *)
Abbreviation tracked := (trackedBy changes).

Lemma tracked_calm {A} (m : Run W A) w (P : (W → Prop) → Prop) : within calm m → tracked m w P (fun T _ => P T).
Proof. intros Hm. apply (tracked_within calm); [exact Hm|]. intros T x _ _. apply calm_changes. Qed.

Lemma tracked_yields {A} (m : Run W A) w (P : (W → Prop) → Prop) (Y : A → Prop) :
  within calm m → yields m Y → tracked m w P (fun T a => Y a ∧ P T).
Proof. intros Hc Hy. by apply tracked_value, tracked_calm. Qed.

(** ** What the operations return. *)

Definition brief (inst : ModelClaimInstance) : string * ModelClaimPhase * string :=
  (inst.(inst_Pod), inst.(inst_Phase), inst.(inst_Reason)).

(** The same claim, with the same instances from a slot on, but for the limits. *)
Definition sameFrom (slot : nat) (pm pm' : ModelClaim) : Prop :=
  mc_Namespace pm' = mc_Namespace pm ∧ mc_Name pm' = mc_Name pm ∧
  ∀ j, (slot ≤ j)%nat → brief <$> status_Instances pm' !! j = brief <$> status_Instances pm !! j.

Lemma sameFrom_refl slot pm : sameFrom slot pm pm.
Proof. done. Qed.

Lemma sameFrom_trans slot pm1 pm2 pm3 : sameFrom slot pm1 pm2 → sameFrom slot pm2 pm3 → sameFrom slot pm1 pm3.
Proof. intros (? & ? & Ha) (? & ? & Hb). split_and!; [congruence..|]. intros j Hj. by rewrite Hb, Ha. Qed.

Lemma sameFrom_weaken slot slot' pm pm' : (slot ≤ slot')%nat → sameFrom slot pm pm' → sameFrom slot' pm pm'.
Proof. intros Hle (? & ? & Ha). split_and!; [done..|]. intros j Hj. apply Ha. lia. Qed.

Lemma setSlot_same slot pm inst : sameFrom (S slot) pm (setSlot pm slot inst).
Proof. split_and!; [done..|]. intros j Hj. simpl. by rewrite list_lookup_insert_ne by lia. Qed.

Lemma setWaitingForRoom_same pm slot pod waiting :
  yields (setWaitingForRoom pm slot pod waiting) (fun r => sameFrom (S slot) pm r.1).
Proof. unfold setWaitingForRoom. returns ltac:(first [apply setSlot_same|apply sameFrom_refl]). Qed.

Lemma StatusUpdate_same claim : yields (call (StatusUpdate claim)) (fun r => match r with Ok stored => sameFrom 0 claim stored | Err _ => True end).
Proof.
  intros w. rewrite value_call. destruct (StatusUpdate claim w).2 as [stored|] eqn:E; [|done].
  destruct (StatusUpdate_stores _ _ _ E) as (? & ? & Hi). split_and!; [done..|]. intros j _. by rewrite Hi.
Qed.

Lemma stored_same slot pm inst stored : sameFrom 0 (setSlot pm slot inst) stored → sameFrom (S slot) pm stored.
Proof. intros Hs. eapply sameFrom_trans; [apply setSlot_same|]. eapply sameFrom_weaken; [|exact Hs]. lia. Qed.

Lemma markMoving_same pm slot pod reason : yields (markMoving pm slot pod reason) (fun r => sameFrom (S slot) pm r.1.1).
Proof.
  unfold markMoving. destruct (_ !! slot) as [was|]; [|by apply yields_ret].
  eapply yields_bind; [apply StatusUpdate_same|]. intros [stored|e] Hs; [|by apply yields_ret].
  returns ltac:(by eapply stored_same).
Qed.

Lemma takeLimits_same podName fresh instances : brief <$> takeLimits podName fresh instances = brief <$> instances.
Proof.
  unfold takeLimits. revert instances. induction fresh as [|i fresh IH]; intros instances; [done|]. simpl. rewrite IH.
  destruct (negb _); [done|]. rewrite <-list_fmap_compose. apply list_fmap_ext. intros j inst _. simpl. by destruct (bool_decide _).
Qed.

Lemma cardArrangedForWake_same rr pm pod ledger :
  yields (cardArrangedForWake rr pm pod ledger) (fun r => sameFrom 0 pm r.1.2).
Proof.
  assert (yields (catchUpWithRecordedLimit pm (pod_Name pod)) (fun r => sameFrom 0 pm r.1)) as Hc.
  { unfold catchUpWithRecordedLimit. returns ltac:(idtac); [|done]. split_and!; [done..|]. intros j _. simpl.
    rewrite <-!list_lookup_fmap. by rewrite takeLimits_same. }
  unfold cardArrangedForWake. destruct (_ || _); [by apply yields_ret|]. destruct (planKVLimits _ _); [|by apply yields_ret].
  destruct (heldAsPlannedForWake _ _ _); [by apply yields_ret|].
  apply (yields_bind _ _ (fun _ => True)); [done|]. intros [rr' out] _. destruct out; try by apply yields_ret.
  eapply yields_bind; [exact Hc|]. intros [pm' b] Hs. by apply yields_ret.
Qed.

Lemma ledgersOf_seen s pm pods : yields (ledgersOf s pm pods) (fun r => ws_seen r.1 = ws_seen s).
Proof. unfold ledgersOf. returns ltac:(done). Qed.

Lemma ledgerOf_seen s pm pod : yields (ledgerOf s pm pod) (fun r => ws_seen r.1 = ws_seen s).
Proof. unfold ledgerOf. eapply yields_bind; [apply ledgersOf_seen|]. intros [s' ls] Hs. by apply yields_ret. Qed.

Lemma canPlaceElsewhere_seen s pm candidates : yields (canPlaceElsewhere s pm candidates) (fun r => ws_seen r.1 = ws_seen s).
Proof.
  unfold canPlaceElsewhere. destruct (perGPUBytesOf pm); [|by apply yields_ret].
  destruct (List.filter _ _) as [|o os] eqn:Eo; [by apply yields_ret|]. rewrite <-Eo.
  eapply yields_bind; [apply ledgersOf_seen|]. intros [s' ls] Hs. by apply yields_ret.
Qed.

(** ** One instance, step by step. *)

Definition seenOk (T : W → Prop) (s : wakeState) : Prop := ∀ request t, ws_seen s !! request = Some t → seenAt T request t.

(** What holds between two instances. *)
Definition going (T : W → Prop) (s : wakeState) (pm : ModelClaim) (slot : nat) : Prop := sameFrom slot pm0 pm ∧ seenOk T s.
Definition goingOn (slot : nat) (T : W → Prop) (r : wakeOutcome) : Prop := going T r.1.1.1 r.1.1.2 slot.

Abbreviation key := (wakeKey (mc_Name pm0)).

Lemma wakeRequestExpired_tracked s pod requestedAt w (P : (W → Prop) → Prop) :
  tracked (wakeRequestExpired s pod key requestedAt) w (fun T => P T ∧ seenOk T s)
    (fun T r => P T ∧ seenOk T r.1 ∧ (r.2 = true → expiredIn T pod requestedAt)).
Proof.
  unfold wakeRequestExpired. eapply tracked_bind;
    [apply (tracked_call Now w _ (fun T now => (P T ∧ seenOk T s) ∧ T w ∧ now = (Now w).2))|].
  { intros T Hpre Hw. split; [apply calm_changes, Now_calm|done]. }
  intros now w1. unfold firstSeen. set (kept := filter _ (ws_seen s)). set (request := wakeRequestKey _ _ _).
  assert (∀ T, seenOk T s → ∀ r t, kept !! r = Some t → seenAt T r t) as Hkept.
  { intros T Hs r t. unfold kept. intros [Hl _]%map_lookup_filter_Some. by apply Hs. }
  destruct (kept !! request) as [at_|] eqn:Ek; apply tracked_ret; intros T ((Hpre & Hs) & Hw & ->); cbn [fst snd].
  - split; [exact Hpre|]. split; [exact (Hkept T Hs)|]. intros Hlt%Z.ltb_lt. exists w, at_.
    split; [exact Hw|]. split; [by apply Hkept|exact Hlt].
  - assert (seenAt T request (Now w).2) as Hnow by (right; by exists w).
    split; [exact Hpre|]. split.
    + intros r t. cbn [ws_seen]. destruct (decide (r = request)) as [->|]; [rewrite lookup_insert_eq; by intros [= <-]|].
      rewrite lookup_insert_ne by done. by apply Hkept.
    + intros Hlt%Z.ltb_lt. exists w, (Now w).2. exact (conj Hw (conj Hnow Hlt)).
Qed.

Lemma takeBack_tracked pod w (P : (W → Prop) → Prop) :
  (∀ T, P T → takenBack T (MkNN (pod_Namespace pod) (pod_Name pod)) (mc_Name pm0)) →
  tracked (takeBackWakeRequest pod key) w P (fun T _ => P T).
Proof.
  intros Hback. unfold takeBackWakeRequest. apply (tracked_bind _ _ _ _ (fun T _ => P T)); [|intros; by apply tracked_ret].
  apply tracked_call. intros T Hpre Hw. split; [|exact Hpre].
  destruct (PatchPod_takes pod (setAnnotations pod (delete key (pod_Annotations pod))) w) as (Ht & Hs & _).
  split; [|intros; left; by apply Hs]. intros p c Hp. destruct (Ht p c Hp) as [?|(-> & [v Hold] & Hnew)]; [by left|right].
  simpl in Hnew. apply lookup_delete_None in Hnew as [Hk|Hn]; [|congruence].
  assert (c = mc_Name pm0) as ->; [|by apply Hback].
  unfold wakeKey in Hk. by apply (inj (String.append ModelClaimWakeAnnotationPrefix)) in Hk.
Qed.

Lemma moveOrElse_tracked candidates s pm slot pod reason woke otherwise w (P : (W → Prop) → Prop) :
  (∀ T, P T → going T s pm (S slot)) →
  (∀ s' w', ws_seen s' = ws_seen s → tracked (otherwise s') w' P (goingOn (S slot))) →
  tracked (moveOrElse candidates s pm slot pod reason woke otherwise) w P (goingOn (S slot)).
Proof.
  intros Hgo Helse. unfold moveOrElse. eapply tracked_bind.
  { apply tracked_yields; [apply (canPlaceElsewhere_in calm)|apply canPlaceElsewhere_seen]. }
  intros [s' elsewhere] w1. simpl. destruct elsewhere.
  - eapply tracked_bind; [apply tracked_yields; [apply (markMoving_in calm)|apply markMoving_same]|].
    intros [[pm' pod'] err] w2. simpl. apply tracked_ret. intros T (Hs & He & Hpre). destruct (Hgo T Hpre) as [Hg Hsn].
    split; simpl; [by eapply sameFrom_trans|]. unfold seenOk. by rewrite He.
  - eapply (tracked_conseq _ _ (fun T => ws_seen s' = ws_seen s ∧ P T)); [|done|done].
    destruct (decide (ws_seen s' = ws_seen s)) as [E|E].
    + eapply tracked_conseq; [by apply Helse|by intros T [_ ?]|done].
    + intros. unfold trackedBy, runs. intros T [? _]. done.
Qed.

Lemma annotate_identity pm pod port state reason :
  yields (annotateWarmPodWithState pm pod port state reason) (fun r => identity r.1 = identity pod).
Proof.
  unfold annotateWarmPodWithState. destruct (bool_decide _); [by apply yields_ret|].
  set (changed := setAnnotations _ _). intros w. rewrite value_bind, value_call.
  destruct (PatchPod pod changed w).2 as [patched|e] eqn:E; [|done].
  destruct (PatchPod_takes pod changed w) as (_ & _ & Hp). destruct (Hp _ E) as (Ha & Hb & Hc & Hd).
  unfold identity. simpl. by rewrite Ha, Hb, Hc, Hd.
Qed.

Lemma wake_not_route c c' : wakeKey c ≠ routeKey c'.
Proof. by intros [=]. Qed.

Lemma annotate_truthful pm pod port state reason w (P : (W → Prop) → Prop) :
  tracked (annotateWarmPodWithState pm pod port state reason) w (fun T => P T ∧ truthful T pod)
    (fun T r => P T ∧ truthful T r.1).
Proof.
  pose proof (annotate_identity pm pod port state reason w) as Hid. revert Hid.
  unfold annotateWarmPodWithState. destruct (bool_decide _); [intros _; by apply tracked_ret|].
  set (changed := setAnnotations _ _). intros Hid.
  apply (tracked_bind _ _ _ _ (fun T answer => (P T ∧ truthful T pod) ∧ T w ∧ answer = (PatchPod pod changed w).2)).
  { apply tracked_call. intros T Hpre Hw. split; [apply calm_changes, write_calm|done]. }
  intros answer w1. apply tracked_ret. intros T ((Hpre & Htr) & Hw & ->). split; [done|].
  rewrite value_bind, value_call in Hid. unfold value in Hid. simpl in Hid.
  destruct (PatchPod pod changed w).2 as [patched|e] eqn:E; simpl in *.
  - intros v Hv. exists patched. split; [|done]. exists w. split; [done|]. right. eauto.
  - intros v Hv. unfold changed in Hv. simpl in Hv. rewrite lookup_insert_ne in Hv by (intros Hk; by apply (wake_not_route (mc_Name pm0) (mc_Name pm))).
    by apply Htr.
Qed.

(** A move called off puts its instance back to sleep, and changes nothing else. *)
Definition calledOff (slot : nat) (pm pm' : ModelClaim) : Prop :=
  ∀ inst, status_Instances pm !! slot = Some inst → ∃ inst', status_Instances pm' !! slot = Some inst' ∧
    (inst_Phase inst' = inst_Phase inst ∨
     (inst_Phase inst = ModelClaimFailed ∧ inst_Reason inst = instanceReasonNoRoomToWake ∧ inst_Phase inst' = ModelClaimSleeping)).

Lemma calledOff_refl slot pm : calledOff slot pm pm.
Proof. intros inst Hi. exists inst. auto. Qed.

Lemma callOffMove_value s pm slot pod :
  yields (callOffMove s pm slot pod) (fun r =>
    identity r.1.2 = identity pod ∧ sameFrom (S slot) pm r.1.1.2 ∧ ws_seen r.1.1.1 = ws_seen s ∧ calledOff slot pm r.1.1.2).
Proof.
  assert (∀ s', ws_seen s' = ws_seen s →
    identity pod = identity pod ∧ sameFrom (S slot) pm pm ∧ ws_seen s' = ws_seen s ∧ calledOff slot pm pm) as Hsame
    by (intros; split_and!; [done|apply sameFrom_refl|done|apply calledOff_refl]).
  unfold callOffMove. destruct (_ !! slot) as [inst|] eqn:Ei; [|apply yields_ret; by apply Hsame].
  destruct (_ || _) eqn:Eg; [apply yields_ret; by apply Hsame|].
  apply orb_false_iff in Eg as [[Ep%negb_false_iff%bool_decide_eq_true Er%negb_false_iff%bool_decide_eq_true]%orb_false_iff _].
  apply (yields_bind _ _ (fun _ => True)); [done|]. intros [pass [snapshot|e]] _; [|apply yields_ret; by apply Hsame].
  cbv zeta. destruct (snapshotModelForClaim _ _ _); [|apply yields_ret; by apply Hsame].
  destruct (_ || _); [apply yields_ret; by apply Hsame|].
  eapply yields_bind; [apply ledgerOf_seen|]. intros [s' ledger] Hs'. simpl in Hs'.
  destruct (_ || _); [apply yields_ret; by apply Hsame|].
  eapply yields_bind; [apply StatusUpdate_same|]. intros [stored|e] Hst; [|apply yields_ret; by apply Hsame].
  eapply yields_bind; [apply annotate_identity|]. intros [pod' answer] Hid. apply yields_ret. simpl in *.
  split_and!; [done|by eapply stored_same|done|]. intros inst0 Hi0. destruct Hst as (_ & _ & Hst).
  specialize (Hst slot ltac:(lia)). simpl in Hst. rewrite list_lookup_insert_eq in Hst by (by eapply lookup_lt_Some).
  apply fmap_Some in Hst as (inst' & Hi' & Hb). simpl in Hb. exists inst'. split; [done|]. right.
  rewrite Ei in Hi0. injection Hi0 as <-. unfold brief in Hb. simpl in Hb. injection Hb as _ Hb _. done.
Qed.

Lemma callOffMove_tracked s pm slot pod w (P : (W → Prop) → Prop) :
  tracked (callOffMove s pm slot pod) w (fun T => P T ∧ truthful T pod) (fun T r => P T ∧ truthful T r.1.2).
Proof.
  unfold callOffMove. destruct (_ !! slot) as [inst|]; [|by apply tracked_ret].
  destruct (_ || _); [by apply tracked_ret|].
  eapply tracked_bind; [apply tracked_calm, (readPod_in calm)|]. intros [pass [snapshot|e]] w1; [|by apply tracked_ret].
  cbv zeta. destruct (snapshotModelForClaim _ _ _); [|by apply tracked_ret]. destruct (_ || _); [by apply tracked_ret|].
  eapply tracked_bind; [apply tracked_calm, (ledgerOf_in calm)|]. intros [s' ledger] w2. destruct (_ || _); [by apply tracked_ret|].
  eapply tracked_bind; [apply tracked_calm, (within_call calm), StatusUpdate_calm|].
  intros [stored|e] w3; [|by apply tracked_ret].
  eapply tracked_bind; [apply annotate_truthful|]. intros [pod' answer] w4. by apply tracked_ret.
Qed.

Lemma setWaitingForRoom_identity pm slot pod waiting :
  yields (setWaitingForRoom pm slot pod waiting) (fun r => identity r.2 = identity pod).
Proof.
  unfold setWaitingForRoom. destruct (_ !! slot) as [inst|]; [|by apply yields_ret].
  destruct (_ || _); [by apply yields_ret|]. cbv zeta.
  eapply yields_bind; [apply annotate_identity|]. intros [pod' answer] Hid. by apply yields_ret.
Qed.

Lemma setWaitingForRoom_value pm slot pod waiting :
  yields (setWaitingForRoom pm slot pod waiting) (fun r => sameFrom (S slot) pm r.1 ∧ identity r.2 = identity pod).
Proof. intros w. split; [apply setWaitingForRoom_same|apply setWaitingForRoom_identity]. Qed.

(** [pod] is the pod of an instance that sleeps, or moves for want of room, and
    that a request asks for. *)
Definition asleepOn (T : W → Prop) (inst : ModelClaimInstance) (pod : Pod) : Prop :=
  podOf T inst pod ∧
  (∃ pod' v, returned T pod' ∧ identity pod' = identity pod ∧ pod_Annotations pod' !! key = Some v) ∧
  (inst_Phase inst = ModelClaimSleeping ∨ (inst_Phase inst = ModelClaimFailed ∧ inst_Reason inst = instanceReasonNoRoomToWake)).

Lemma podOf_same T inst pod pod' : identity pod' = identity pod → podOf T inst pod → podOf T inst pod'.
Proof. intros Hid (Hin & x & read & ? & ? & Hr). split; [done|]. exists x, read. by rewrite Hid. Qed.

Lemma asleepOn_same T inst pod pod' : identity pod' = identity pod → asleepOn T inst pod → asleepOn T inst pod'.
Proof. intros Hid (Hp & Ha & Hs). split; [by eapply podOf_same|]. by rewrite Hid. Qed.

Lemma going_same T s s' pm pm' slot :
  going T s pm slot → ws_seen s' = ws_seen s → sameFrom slot pm pm' → going T s' pm' slot.
Proof. intros [Hg Hs] He Hp. split; [by eapply sameFrom_trans|]. unfold seenOk. by rewrite He. Qed.

Section Slot.
Context (candidates : list Pod) (slot : nat) (inst : ModelClaimInstance) (woke : bool).
Abbreviation served := (servedModelName pm0).

(** The request of an instance asleep, taken back for a reason. *)
Lemma takeBack_asleep pod w (P : (W → Prop) → Prop) :
  (∀ T, P T → podOf T inst pod ∧ ((∃ requestedAt, expiredIn T pod requestedAt) ∨ refusedIn T pod)) →
  tracked (takeBackWakeRequest pod key) w P (fun T _ => P T).
Proof.
  intros Hwhy. apply takeBack_tracked. intros T Hpre. destruct (Hwhy T Hpre) as [Hp Hr]. split; [done|].
  exists inst, pod. split_and!; [done|done|by right].
Qed.

Lemma wake_tracked pod op w (P : (W → Prop) → Prop) :
  (∀ T, P T → asleepOn T inst pod) →
  tracked (call (Wake (pod_IP pod) (MkWakeRequest served op))) w P (fun T answer => P T ∧
    match answer with Ok _ => True | Err why => refusedByRuntime why = true → refusedIn T pod end).
Proof.
  intros Has. apply tracked_call. intros T Hpre Hw. split.
  - destruct (Wake_wakes (pod_IP pod) (MkWakeRequest served op) w) as [Ha Hs]. split; [intros p c Hp; left; by apply Ha|].
    intros ip m Hm. destruct (Hs ip m Hm) as [?|[-> ->]]; [by left|right]. simpl.
    destruct (Has T Hpre) as (Hp & Hask & Hph). split; [done|]. by exists inst, pod.
  - split; [done|]. destruct (Wake _ _ w).2 as [|why] eqn:E; [done|]. intros Href. by exists w, op, why.
Qed.

Lemma wait_tracked s pm pod waiting w (P : (W → Prop) → Prop) woke' :
  (∀ T, P T → going T s pm (S slot)) →
  tracked ('(pm, _) ← setWaitingForRoom pm slot pod waiting; mret (s, pm, woke', None)) w P (goingOn (S slot)).
Proof.
  intros Hgo. eapply tracked_bind; [apply tracked_yields; [apply (setWaitingForRoom_in calm)|apply setWaitingForRoom_same]|].
  intros [pm' pod'] w1. apply tracked_ret. intros T [Hs Hpre]. by eapply going_same; [apply Hgo|..].
Qed.

Lemma wakeNowOn_tracked s pm pod requestedAt ledger w :
  tracked (wakeNowOn key served candidates s pm slot pod requestedAt ledger woke) w
    (fun T => going T s pm (S slot) ∧ asleepOn T inst pod) (goingOn (S slot)).
Proof.
  unfold wakeNowOn. eapply tracked_bind; [apply tracked_yields; [apply (setWaitingForRoom_in calm)|apply setWaitingForRoom_value]|].
  intros [pm1 pod1] w1. eapply tracked_bind;
    [apply tracked_yields; [apply (cardArrangedForWake_in calm)|apply cardArrangedForWake_same]|].
  intros [[rr pm2] arranged] w2. cbn [fst snd]. cbv zeta.
  set (s2 := onPass s _).
  assert (∀ T, sameFrom 0 pm1 pm2 ∧ (sameFrom (S slot) pm pm1 ∧ identity pod1 = identity pod) ∧ going T s pm (S slot) ∧ asleepOn T inst pod →
    going T s2 pm2 (S slot) ∧ asleepOn T inst pod1) as Hnow.
  { intros T (Ha & (Hb & Hid) & Hg & Hs). split; [|by eapply asleepOn_same]. eapply going_same; [exact Hg|done|].
    eapply sameFrom_trans; [exact Hb|]. eapply sameFrom_weaken; [|exact Ha]. lia. }
  destruct (negb arranged); [apply tracked_ret; intros T Hpre; apply (Hnow T Hpre)|].
  eapply tracked_bind.
  { eapply tracked_conseq; [|exact Hnow|intros T a Hq; exact Hq]. apply wake_tracked. by intros T [_ ?]. }
  intros [applied|why] w3; [apply tracked_ret; by intros T ((Hg & _) & _)|].
  destruct (refusedByRuntime why) eqn:Er; simpl; [|apply tracked_ret; by intros T ((Hg & _) & _)].
  apply moveOrElse_tracked; [by intros T ((Hg & _) & _)|]. intros s' w' Hs'.
  eapply tracked_bind; [apply (takeBack_asleep pod1 w')|].
  - intros T ((_ & Hp & _) & Href). split; [done|]. right. by apply Href.
  - intros p w4. apply tracked_ret. intros T ((Hg & _) & _). by eapply going_same; [exact Hg|..].
Qed.

Lemma wakeWithoutRoom_tracked s pm pod ledger turn w (P : (W → Prop) → Prop) :
  (∀ T, P T → going T s pm (S slot)) →
  tracked (wakeWithoutRoom candidates s pm slot pod ledger turn woke) w P (goingOn (S slot)).
Proof.
  intros Hgo. unfold wakeWithoutRoom. eapply tracked_bind.
  { apply tracked_calm. destruct (bool_decide _); [apply (sleepToMakeRoom_in calm)|apply (within_ret calm)]. }
  intros [[pass pod'] slept] w1. cbv zeta. destruct slept; [by apply wait_tracked|].
  apply moveOrElse_tracked; [done|]. intros s' w' Hs'. apply wait_tracked. intros T Hpre.
  by eapply going_same; [apply (Hgo T Hpre)|..].
Qed.

Lemma wakeAsleep_tracked s pm pod requestedAt w :
  tracked (wakeAsleep key served candidates s pm slot pod requestedAt woke) w
    (fun T => going T s pm (S slot) ∧ asleepOn T inst pod) (goingOn (S slot)).
Proof.
  unfold wakeAsleep. destruct (bool_decide _); [apply tracked_ret; by intros T [? _]|].
  eapply tracked_bind.
  { eapply tracked_conseq; [apply (wakeRequestExpired_tracked s pod requestedAt w (fun T => sameFrom (S slot) pm0 pm ∧ asleepOn T inst pod))
      |intros T [[Hg Hs] Ha]; done|intros T a Hq; exact Hq]. }
  intros [s1 expired] w1. cbn [fst snd]. destruct expired.
  - eapply tracked_bind; [apply (takeBack_asleep pod w1)|].
    + intros T ((_ & Hp & _) & _ & He). split; [done|]. left. eexists. by apply He.
    + intros pod' w2. apply wait_tracked. intros T ((Hg & _) & Hs & _). by split.
  - eapply tracked_bind; [apply tracked_yields; [apply (ledgerOf_in calm)|apply ledgerOf_seen]|].
    intros [s2 ledger] w2. cbn [fst snd].
    assert (∀ T, ws_seen s2 = ws_seen s1 ∧ (sameFrom (S slot) pm0 pm ∧ asleepOn T inst pod) ∧ seenOk T s1 ∧
      (false = true → expiredIn T pod requestedAt) → going T s2 pm (S slot) ∧ asleepOn T inst pod) as Hgo.
    { intros T (He & (Hg & Ha) & Hs & _). split; [|done]. split; [done|]. unfold seenOk. by rewrite He. }
    destruct (_ && _); [apply wait_tracked; intros T Hpre; by apply Hgo|].
    eapply tracked_bind.
    { apply tracked_calm. destruct (judgeable ledger); [apply (wakeTurnOn_in calm)|apply (within_ret calm)]. }
    intros [[pass turn] ledger'] w3. cbv zeta. destruct (negb _); [apply wakeWithoutRoom_tracked; intros T Hpre; by apply Hgo|].
    eapply tracked_conseq; [apply wakeNowOn_tracked|exact Hgo|done].
Qed.

(** The instance once its move may have been called off. *)
Definition readyToWake (T : W → Prop) (s : wakeState) (pm : ModelClaim) (pod : Pod) : Prop :=
  going T s pm (S slot) ∧ podOf T inst pod ∧ truthful T pod ∧
  ∃ now, status_Instances pm !! slot = Some now ∧
    (inst_Phase now = inst_Phase inst ∨
     (inst_Phase inst = ModelClaimFailed ∧ inst_Reason inst = instanceReasonNoRoomToWake ∧ inst_Phase now = ModelClaimSleeping)).

Lemma calledOff_ready T s s1 pm pm1 pod pod1 :
  status_Instances pm0 !! slot = Some inst → going T s pm slot → podOf T inst pod → truthful T pod1 →
  identity pod1 = identity pod → sameFrom (S slot) pm pm1 → ws_seen s1 = ws_seen s → calledOff slot pm pm1 →
  readyToWake T s1 pm1 pod1.
Proof.
  intros Hinst [Hsame Hs] Hp Htr Hid Hsame1 Hseen Hoff. split; [|split; [by eapply podOf_same|split; [done|]]].
  - split; [eapply sameFrom_trans; [eapply sameFrom_weaken; [|exact Hsame]; lia|done]|]. unfold seenOk. by rewrite Hseen.
  - destruct Hsame as (_ & _ & Hb). specialize (Hb slot (le_n _)). rewrite Hinst in Hb.
    apply fmap_Some in Hb as (now & Hnow & Hb). injection Hb as _ Hph Hre.
    destruct (Hoff now Hnow) as (now1 & Hnow1 & Hwhy). exists now1. rewrite <-Hph, <-Hre in Hwhy. done.
Qed.

(** The rest of an iteration, by the phase the instance has then. *)
Lemma wakeByPhase_tracked s pm pod requestedAt now w :
  status_Instances pm !! slot = Some now → pod_Annotations pod !! key = Some requestedAt →
  tracked (match inst_Phase now with
           | ModelClaimSleeping => wakeAsleep key served candidates s pm slot pod requestedAt woke
           | ModelClaimActivating =>
               '(s, expired) ← wakeRequestExpired s pod key requestedAt;
               _ ← (if expired : bool then takeBackWakeRequest pod key else mret pod);
               mret (s, pm, woke, None)
           | _ => _ ← takeBackWakeRequest pod key; mret (s, pm, woke, None)
           end) w (fun T => readyToWake T s pm pod) (goingOn (S slot)).
Proof.
  intros Hnow Hann.
  assert (inst_Phase now ≠ ModelClaimSleeping → inst_Phase now ≠ ModelClaimActivating →
    tracked (_ ← takeBackWakeRequest pod key; mret (s, pm, woke, None)) w (fun T => readyToWake T s pm pod) (goingOn (S slot))) as Hgone.
  { intros Hns Hna. eapply tracked_bind; [apply takeBack_tracked|].
    - intros T (_ & Hp & _ & now' & Hn & Hph). rewrite Hnow in Hn. injection Hn as <-. split; [done|]. exists inst, pod.
      split_and!; [done|done|left]. destruct Hph as [<-|(_ & _ & Hph)]; [by split|by rewrite Hph in Hns].
    - intros pod' w1. apply tracked_ret. by intros T (Hg & _). }
  destruct (inst_Phase now) eqn:Eph; try (by apply Hgone).
  - eapply tracked_bind.
    { eapply tracked_conseq; [apply (wakeRequestExpired_tracked s pod requestedAt w (fun T => sameFrom (S slot) pm0 pm ∧ podOf T inst pod))
        |intros T ((Hg & Hs) & Hp & _); done|intros T a Hq; exact Hq]. }
    intros [s1 expired] w1. cbn [fst snd]. destruct expired.
    + eapply tracked_bind; [apply (takeBack_asleep pod w1)|].
      * intros T ((_ & Hp) & _ & He). split; [done|]. left. eexists. by apply He.
      * intros pod' w2. apply tracked_ret. intros T ((Hg & _) & Hs & _). by split.
    + eapply tracked_bind; [apply tracked_calm, (within_ret calm)|]. intros pod' w2. apply tracked_ret.
      intros T ((Hg & _) & Hs & _). by split.
  - eapply tracked_conseq; [apply wakeAsleep_tracked| |done]. intros T (Hg & Hp & Htr & now' & Hn & Hph). split; [done|].
    rewrite Hnow in Hn. injection Hn as <-. rewrite Eph in Hph.
    split; [done|]. split; [destruct (Htr _ Hann) as (pod' & ? & ? & ?); by exists pod', requestedAt|].
    destruct Hph as [<-|(? & ? & _)]; auto.
Qed.

Lemma wakeInstance_tracked s pm w :
  status_Instances pm0 !! slot = Some inst →
  tracked (wakeInstance key served candidates s pm slot woke) w (fun T => going T s pm slot) (goingOn (S slot)).
Proof.
  intros Hinst. unfold wakeInstance.
  assert (∀ T, going T s pm slot → going T s pm (S slot)) as Hnext.
  { intros T [Hg Hs]. split; [eapply sameFrom_weaken; [|exact Hg]; lia|done]. }
  destruct (status_Instances pm !! slot) as [now|] eqn:Enow; [|by apply tracked_ret].
  apply (tracked_bind _ _ _ _ (fun T got => going T s pm slot ∧ T w ∧ got = (GetPod (MkNN (mc_Namespace pm) (inst_Pod now)) w).2)).
  { apply tracked_call. intros T Hg Hw. split; [apply calm_changes, GetPod_calm|done]. }
  intros [pod|e] w1; [|apply tracked_ret; intros T [Hg _]; by apply Hnext].
  eapply tracked_bind.
  { eapply tracked_conseq; [eapply tracked_value; [apply callOffMove_value|]|..].
    - apply (callOffMove_tracked s pm slot pod w1 (fun T => going T s pm slot ∧ podOf T inst pod)).
    - intros T (Hg & Hw & Hgot). destruct Hg as [Hsame Hs]. pose proof Hsame as (Hns & _ & Hb).
      specialize (Hb slot (le_n _)). rewrite Enow, Hinst in Hb. simpl in Hb. injection Hb as Hpod _ _.
      rewrite Hns, Hpod in Hgot. split.
      + split; [by split|]. split; [by eapply list_elem_of_lookup_2|]. by exists w, pod.
      + intros v Hv. exists pod. split; [|done]. exists w. split; [done|]. left. eauto.
    - intros T a Hq. exact Hq. }
  intros [[[s1 pm1] pod1] err] w2. cbn [fst snd].
  eapply (tracked_conseq _ _ (fun T => readyToWake T s1 pm1 pod1));
    [|intros T ((? & ? & ? & ?) & (? & ?) & ?); by eapply calledOff_ready|by intros].
  destruct err as [e|]; [apply tracked_ret; by intros T (Hg & _)|].
  destruct (pod_Annotations pod1 !! key) as [requestedAt|] eqn:Ea; [|apply wait_tracked; by intros T (Hg & _)].
  destruct (status_Instances pm1 !! slot) as [now1|] eqn:E1; cbn [fmap option_fmap option_map].
  - exact (wakeByPhase_tracked s1 pm1 pod1 requestedAt now1 w2 E1 Ea).
  - unfold trackedBy, runs. intros T (_ & _ & _ & now1 & Hn & _). congruence.
Qed.
End Slot.

(** Every instance in turn. *)
Lemma wakeInstances_tracked candidates s pm slot n woke w :
  (slot + n = length (status_Instances pm0))%nat →
  tracked (wakeInstances key (servedModelName pm0) candidates s pm slot n woke) w (fun T => going T s pm slot) (fun _ _ => True).
Proof.
  revert s pm slot woke w. induction n as [|n IH]; intros s pm slot woke w Hlen; simpl; [by apply tracked_ret|].
  destruct (lookup_lt_is_Some_2 (status_Instances pm0) slot) as [inst Hinst]; [lia|].
  eapply tracked_bind; [by apply (wakeInstance_tracked candidates slot inst woke)|].
  intros [[[s1 pm1] woke1] err] w1. destruct err as [e|]; [by apply tracked_ret|]. apply IH. lia.
Qed.
End Pass.

End Calm.

(** ** A request on the cluster with pods, for the witness. *)

Section WakeWitness.
Local Existing Instance NanoK8s.
Local Existing Instance podCluster.
Local Existing Instance podReads.
Local Existing Instance podApi.

Definition podClusterLaws : ClusterLaws (W := podWorld).
Proof.
  refine {| limitOf w := limitOf (ClusterLaws := fakeLaws) w.(pw_cards);
            usedOf w := usedOf (ClusterLaws := fakeLaws) w.(pw_cards);
            recordsOf w := recordsOf (ClusterLaws := fakeLaws) w.(pw_cards) |}.
  - intros w. apply (usedOf_nonneg (ClusterLaws := fakeLaws)).
  - intros ip req w. pose proof (SetKVLimit_law (ClusterLaws := fakeLaws) ip req w.(pw_cards)) as Hlaw.
    cbn in *. unfold onCards. cbn. destruct (fw_limits (pw_cards w) !! (ip, req_ModelName req)); exact Hlaw.
  - intros ip w. exact (Snapshot_law (ClusterLaws := fakeLaws) ip w.(pw_cards)).
  - intros c w. exact (GetClaim_law (ClusterLaws := fakeLaws) c w.(pw_cards)).
  - intros claim w. exact (StatusUpdate_law (ClusterLaws := fakeLaws) claim w.(pw_cards)).
  - intros A m w. constructor.
Defined.
Local Existing Instance podClusterLaws.

Definition podWakes : WakeLaws.
Proof.
  refine {| wakeAt w p c := w.(pw_pods) !! p ≫= fun pod => pod.(pod_Annotations) !! wakeKey c;
            sleeping w ip m := bool_decide ((ip, m) ∈ w.(pw_asleep)) |}.
  1: { intros ip req w. cbn. unfold onCards. cbn. destruct (fw_limits _ !! _); by split. }
  1-10: intros; by split.
  - intros ip req w. split; [done|]. intros ip' m. rewrite !bool_decide_eq_true. cbn. set_solver.
  - intros ip req w. split; [done|]. intros ip' m. rewrite !bool_decide_eq_true. cbn. intros Hin.
    destruct (decide ((ip', m) = (ip, wkr_ModelName req))) as [[= -> ->]|Hne]; [by right|left]. set_solver.
  - intros old new w. cbn. set (at_ := MkNN _ _). destruct (pw_pods w !! at_) as [pod|] eqn:Ep; cbn; [|by split_and!; [| |]; auto].
    split; [|split; [done|]].
    + intros p c. destruct (decide (p = at_)) as [->|]; [|rewrite lookup_insert_ne by done; by left].
      rewrite lookup_insert_eq, Ep. cbn. rewrite applyPatch_lookup. intros Hs.
      case_bool_decide as E; [by left|]. destruct (pod_Annotations new !! wakeKey c) eqn:En; [left; eauto|right].
      split_and!; [done| |done]. destruct (pod_Annotations old !! wakeKey c) eqn:Eo; [eauto|done].
    + by intros patched [= <-].
  - intros name w pod. cbn. destruct (pw_pods w !! name) as [pod'|]; [|done].
    case_bool_decide as E; [|done]. cbn [andb]. case_bool_decide; [|done]. intros [= <-]. by rewrite <-E.
  - intros claim w stored. cbn. by intros [= <-].
Defined.
Local Existing Instance podWakes.

(** The engine sleeps, and a request on its pod asks for it. *)
Definition exAsked : Pod := setAnnotations exPod {[wakeKey "alpha" := "2026-10-01T08:00:00Z"]}.
Definition exAsleepWorld : podWorld :=
  MkPodWorld (MkFake ∅ ∅ {[MkNN "ns" "alpha" := exClaim "alpha" ModelClaimSleeping]})
    {[MkNN "ns" "pod-a" := exAsked]} {[("10.0.0.1", "alpha")]} true ∅.
Definition exWakePass : Run podWorld wakeOutcome :=
  wakeRequested exPass ∅ ∅ (exClaim "alpha" ModelClaimSleeping) [].

End WakeWitness.
