(* ===== verification/RoomFacts.v ===== *)
(** * What making room does: which card is held, and whose engine sleeps.

    The turns follow the priorities, room is made on a card held for the claim
    and nowhere else, one engine at most is put to sleep in a pass, and a
    preemption touches no engine of a claim that is not of lower priority. *)

From S2P Require Import Prelude Api Claims Ledger KVPlan Placement Reservations Backoff Runtime ArrangeCard PoolPolicy Division MakeRoom Rfc3339 WakeTurn SleepEngine WakeHandler RoomHandler Calls.

(** The reads that [PodLaws] does not speak of. *)
Class ReadLaws `{HP : PodLaws W} := {
  ListClaims_podKept namespace w : podKept w (ListClaims namespace w).1;
  ListCachedClaims_podKept namespace w : podKept w (ListCachedClaims namespace w).1;
  GetReplicaSet_podKept name w : podKept w (GetReplicaSet name w).1;
  GetDeployment_podKept name w : podKept w (GetDeployment name w).1;
}.

(** ** Holds. *)

Definition noneHeld (namespace claim : string) (held : cardReservations) : Prop :=
  ∀ card r, held !! card = Some r → ¬ heldBy namespace claim (card, r).

Definition shrinks (held held' : cardReservations) : Prop := ∀ card r, held' !! card = Some r → held !! card = Some r.

#[export] Instance shrinks_preorder : PreOrder shrinks.
Proof. split; [by intros h c r|]. intros h1 h2 h3 Ha Hb c r Hc. by apply Ha, Hb. Qed.

Lemma prune_shrinks held now : shrinks held (prune held now).
Proof. intros c r Hc. by apply prune_lookup in Hc as [? _]. Qed.

Lemma release_shrinks held namespace claim : shrinks held (release held namespace claim).
Proof. intros c r Hc. by apply release_lookup in Hc as [? _]. Qed.

Lemma noneHeld_shrinks namespace claim held held' : noneHeld namespace claim held → shrinks held held' → noneHeld namespace claim held'.
Proof. intros Hn Hs c r Hc. by apply Hn, Hs. Qed.

Lemma release_noneHeld held namespace claim : noneHeld namespace claim (release held namespace claim).
Proof. intros c r Hc. by apply release_lookup in Hc as [_ ?]. Qed.

Lemma heldFor_none held namespace claim now :
  (heldFor held namespace claim now).2 = None → noneHeld namespace claim (heldFor held namespace claim now).1.
Proof.
  unfold heldFor. cbn [fst snd]. intros Hf c r Hc. pose proof (firstHeld_none _ _ Hf c r Hc) as Hb.
  by apply bool_decide_eq_false in Hb.
Qed.

Lemma heldFor_some held namespace claim now card :
  (heldFor held namespace claim now).2 = Some card →
  ∃ r, (heldFor held namespace claim now).1 !! card = Some r ∧ heldBy namespace claim (card, r).
Proof.
  unfold heldFor. cbn [fst snd]. intros (r & Hr & Hb)%firstHeld_some. exists r. split; [done|]. by apply bool_decide_eq_true in Hb.
Qed.

(** A hold that is made is the claim's, and one that is not leaves the card to
    the claim that has it.  The hold of no other claim is made. *)
Lemma hold_outcome held card claim bytes now p :
  let '(held', mine) := holdWithWakeProtection held card claim bytes now p in
  (∀ c r, held' !! c = Some r → heldBy card.(nn_Namespace) claim (c, r) ∨ held !! c = Some r) ∧
  (mine = true → ∃ r, held' !! card = Some r ∧ res_claim r = claim) ∧
  (mine = false → shrinks held held' ∧ ∃ r, held !! card = Some r ∧ res_claim r ≠ claim).
Proof.
  unfold holdWithWakeProtection. pose proof (prune_shrinks held now) as Hp. set (h := prune held now) in *.
  destruct (h !! card) as [cur|] eqn:Ec.
  - case_bool_decide as Hcl; simpl; [|split_and!; [auto|done|eauto]].
    destruct (p && _); simpl; split_and!; try done; try (intros; right; auto; fail); eauto.
    + intros c r [[<- <-]|[? Hc]]%lookup_insert_Some; [left; by split|auto].
    + intros _. eexists. by rewrite lookup_insert_eq.
  - simpl. split_and!; [|intros _; eexists; by rewrite lookup_insert_eq|done].
    intros c r [[<- <-]|[? Hc]]%lookup_insert_Some; [left; by split|].
    apply map_lookup_filter_Some in Hc as [Hc _]. auto.
Qed.

(** The pods that a claim which may hold a card looks at. *)
Definition onCard `{K8s} (card : option NamespacedName) (pod : Pod) : Prop :=
  match card with Some card => pod.(pod_Name) = card.(nn_Name) | None => True end.

Lemma refused_holds_nothing `{K8s} held held' namespace claim bytes now p pod :
  let '(held0, card) := heldFor held namespace claim now in
  shrinks held0 held' → onCard card pod → pod.(pod_Namespace) = namespace →
  (holdWithWakeProtection held' (cardOf pod) claim bytes now p).2 = false →
  noneHeld namespace claim (holdWithWakeProtection held' (cardOf pod) claim bytes now p).1.
Proof.
  destruct (heldFor held namespace claim now) as [held0 card] eqn:Eh. intros Hs Hon Hns Hf.
  pose proof (hold_outcome held' (cardOf pod) claim bytes now p) as Ho.
  destruct (holdWithWakeProtection held' (cardOf pod) claim bytes now p) as [h mine]. cbn [fst snd] in *. subst mine.
  destruct Ho as (_ & _ & [Hs' (r & Hr & Hne)]%(fun f => f eq_refl)).
  pose proof (heldFor_none held namespace claim now) as Hnone. pose proof (heldFor_some held namespace claim now) as Hsome.
  rewrite Eh in Hnone, Hsome. cbn [fst snd] in *. destruct card as [card|].
  - exfalso. destruct (Hsome card eq_refl) as (r' & Hr' & Hcns & Hcl). cbn in Hon, Hcns, Hcl.
    assert (cardOf pod = card) as Hc by (unfold cardOf; rewrite Hns, Hon, <-Hcns; by destruct card).
    apply Hs in Hr. rewrite Hc in Hr. congruence.
  - eapply noneHeld_shrinks; [by apply Hnone|]. by etrans.
Qed.

Section RoomFacts.
Context `{HL : ReadLaws W}.

(** ** Which engines' sleep a computation may change: one at most. *)

Definition sleepsOnly (engine : option (string * string)) (w w' : W) : Prop :=
  ∀ ip m, asleepAt w' ip m = asleepAt w ip m ∨ engine = Some (ip, m).

#[local] Instance sleepsOnly_preorder engine : PreOrder (sleepsOnly engine).
Proof.
  split; [by left|]. intros w w1 w2 Ha Hb ip m. destruct (Ha ip m) as [Ha'|]; [|by right].
  destruct (Hb ip m) as [Hb'|]; [|by right]. left. congruence.
Qed.

Lemma sleepsOnly_any engine w w' : sleepsOnly None w w' → sleepsOnly engine w w'.
Proof. intros Hn ip m. by destruct (Hn ip m) as [?|?]; [left|]. Qed.

Lemma kept_sleeps engine w w' : podKept w w' → sleepsOnly engine w w'.
Proof. intros [_ Ha] ip m. by left. Qed.

Lemma Snapshot_sleeps e ip w : sleepsOnly e w (Snapshot ip w).1.
Proof. apply kept_sleeps, Snapshot_podKept. Qed.
Lemma GetClaim_sleeps e c w : sleepsOnly e w (GetClaim c w).1.
Proof. apply kept_sleeps, GetClaim_podKept. Qed.
Lemma StatusUpdate_sleeps e claim w : sleepsOnly e w (StatusUpdate claim w).1.
Proof. apply kept_sleeps, StatusUpdate_podKept. Qed.
Lemma Now_sleeps e w : sleepsOnly e w (Now w).1.
Proof. apply kept_sleeps, Now_podKept. Qed.
Lemma SetStatusCondition_sleeps e cs c w : sleepsOnly e w (SetStatusCondition cs c w).1.
Proof. apply kept_sleeps, SetStatusCondition_podKept. Qed.
Lemma ListClaims_sleeps e namespace w : sleepsOnly e w (ListClaims namespace w).1.
Proof. apply kept_sleeps, ListClaims_podKept. Qed.
Lemma ListCachedClaims_sleeps e namespace w : sleepsOnly e w (ListCachedClaims namespace w).1.
Proof. apply kept_sleeps, ListCachedClaims_podKept. Qed.
Lemma GetReplicaSet_sleeps e name w : sleepsOnly e w (GetReplicaSet name w).1.
Proof. apply kept_sleeps, GetReplicaSet_podKept. Qed.
Lemma GetDeployment_sleeps e name w : sleepsOnly e w (GetDeployment name w).1.
Proof. apply kept_sleeps, GetDeployment_podKept. Qed.
Lemma PatchPod_sleeps e old new w : sleepsOnly e w (PatchPod old new w).1.
Proof. destruct (PatchPod_law old new w) as [Ha _]. intros ip m. by left. Qed.
Lemma Sleep_sleeps ip req w : sleepsOnly (Some (ip, req.(slr_ModelName))) w (Sleep ip req w).1.
Proof. destruct (Sleep_law ip req w) as (_ & Ha & _). intros ip' m. destruct (Ha ip' m) as [?|[-> ->]]; auto. Qed.

#[export] Instance sleepsOnly_reads e : ReadsIn (sleepsOnly e).
Proof.
  split; [apply _|apply Snapshot_sleeps|apply GetClaim_sleeps|apply ListClaims_sleeps|apply ListCachedClaims_sleeps
         |apply GetReplicaSet_sleeps|apply GetDeployment_sleeps|apply Now_sleeps|apply SetStatusCondition_sleeps].
Qed.
#[export] Instance sleepsOnly_status e : StatusIn (sleepsOnly e).
Proof. split. apply StatusUpdate_sleeps. Qed.

Abbreviation touchesNone := (within (sleepsOnly None)) (only parsing).

(** The two ways of putting an engine to sleep touch that engine only. *)

Lemma annotate_sleeps e claim pod port state reason : within (sleepsOnly e) (annotateWarmPodWithState claim pod port state reason).
Proof.
  unfold annotateWarmPodWithState. case_bool_decide; [apply (within_ret _)|].
  apply (within_bind _); [apply (within_call _); intros w; apply PatchPod_sleeps|intros answer; apply (within_ret _)].
Qed.

Lemma markSleeping_sleeps e claim podName : within (sleepsOnly e) (markClaimInstanceSleeping claim podName).
Proof. unfold markClaimInstanceSleeping. stays. Qed.
#[local] Hint Resolve annotate_sleeps markSleeping_sleeps : within.

Lemma annotate_ip claim pod port state reason :
  yields (annotateWarmPodWithState claim pod port state reason) (fun r => pod_IP r.1 = pod_IP pod).
Proof.
  unfold annotateWarmPodWithState. case_bool_decide; [by apply yields_ret|]. intros w. rewrite value_bind, value_call.
  set (new := setAnnotations _ _). destruct (PatchPod pod new w).2 as [patched|] eqn:E; [|done].
  destruct (PatchPod_law pod new w) as (_ & _ & Hp).
  by destruct (Hp _ E) as (_ & _ & ? & _).
Qed.

Lemma within_bind_value {A B} (R : W → W → Prop) `{!PreOrder R} (m : Run W A) (f : A → Run W B) (X : A → Prop) :
  within R m → yields m X → (∀ a, X a → within R (f a)) → within R (m ≫= f).
Proof.
  intros Hm Hy Hf w. apply runs_bind. pose proof (Hm w) as Ha. pose proof (Hf _ (Hy w) (final m w)) as Hb.
  exact (within_app R _ _ _ _ _ Ha Hb).
Qed.

Lemma putEngineToSleep_sleeps s claim pod port modelName op :
  within (sleepsOnly (Some (pod_IP pod, modelName))) (putEngineToSleep s claim pod port modelName op).
Proof.
  unfold putEngineToSleep. eapply within_bind_value; [apply _|apply annotate_sleeps|apply annotate_ip|].
  intros [pod' taken] Hip. cbn [fst] in Hip. destruct taken; [|apply (within_ret _)].
  apply (within_bind _); [apply (engineIsQuiet_in _)|]. intros [s' quiet]. destruct quiet; [|stays].
  apply (within_bind _); [|intros answer; stays]. apply (within_call _). intros w. rewrite Hip. apply Sleep_sleeps.
Qed.

Lemma putIdle_sleeps s idle pod pm :
  within (sleepsOnly (Some (pod_IP pod, sm_ModelName (idle_model idle)))) (putIdleEngineToSleep s idle pod pm).
Proof. unfold putIdleEngineToSleep, sleptEngine. apply (within_bind _); [apply putEngineToSleep_sleeps|]. intros [[s' pod'] slept]. stays. Qed.

Lemma putVictim_sleeps s victim pod pm :
  within (sleepsOnly (Some (pod_IP pod, sm_ModelName (idle_model (vic_idle victim))))) (putPreemptionVictimToSleep s victim pod pm).
Proof. unfold putPreemptionVictimToSleep, sleptEngine. apply (within_bind _); [apply putEngineToSleep_sleeps|]. intros [[s' pod'] slept]. stays. Qed.

(** ** What the readings and the turns return. *)

Lemma planSleeps_some fp ledger seat f h idle r : planSleeps fp ledger seat f h idle = Some r → r.1 ≠ [] ∧ ∀ e, e ∈ r.1 → e ∈ idle.
Proof.
  revert f h r. induction idle as [|sleeper rest IH]; intros f h r; simpl; [done|].
  destruct (chargedTo _ _); [|intros [? Hin]%IH; split; [done|set_solver]].
  destruct (seenAsleep _ _); [|intros [= <-]; set_solver]. destruct (_ && _); [intros [= <-]; set_solver|].
  destruct (planSleeps _ _ _ _ _ rest) as [[sleeps known]|] eqn:E; simpl; [|done]. intros [= <-].
  destruct (IH _ _ _ E) as [_ Hin]. set_solver.
Qed.

Lemma planRoom_plan s pm pod ledger seat :
  yields (planRoom s pm pod ledger seat) (fun r => ∀ plan, r.2 = Some plan → plan_pod plan = pod ∧ plan_sleeps plan ≠ []).
Proof.
  unfold planRoom. returns ltac:(intros plan Hp; cbn [snd] in Hp; try discriminate Hp). revert Hp. unfold planRoomWith.
  destruct (negb (sleepsMakeRoom _ _ _ _)); [done|]. destruct (planSleeps _ _ _ _ _ _) as [[sleeps known]|] eqn:E; simpl; [|done].
  intros [= <-]. split; [done|]. by apply planSleeps_some in E as [? _].
Qed.

Lemma planRooms_plans s pm ledgers seat pods :
  yields (planRooms s pm ledgers seat pods) (fun r => ∀ plan, plan ∈ r.2 → plan_pod plan ∈ pods ∧ plan_sleeps plan ≠ []).
Proof.
  revert s. induction pods as [|pod rest IH]; intros s; simpl; [apply yields_ret; set_solver|].
  eapply yields_bind; [apply planRoom_plan|]. intros [s1 plan] Hplan. eapply yields_bind; [apply IH|]. intros [s2 plans] Hplans.
  apply yields_ret. cbn [snd] in *. destruct plan as [p|]; [|set_solver].
  intros q [->|Hq]%elem_of_cons; [destruct (Hplan p eq_refl); set_solver|set_solver].
Qed.

(** A victim: it serves nothing, and its claim is of lower priority. *)
Definition yieldsTo (pm : ModelClaim) (v : sleepPreemptionVictim) : Prop :=
  spec_Priority (idle_claim (vic_idle v)) < spec_Priority pm ∧ mc_Namespace (idle_claim (vic_idle v)) = mc_Namespace pm ∧
  requestIdle (idle_model (vic_idle v)) = true.

Lemma victims_yield s pm pod claims :
  yields (sleepPreemptionVictims s pm pod claims) (fun r => ∀ v, v ∈ r.2 → yieldsTo pm v).
Proof.
  unfold sleepPreemptionVictims. apply (yields_bind _ _ (fun _ => True)); [done|]. intros [s' reply] _. apply yields_ret. cbn [snd].
  destruct reply as [[snapshot|]|]; [|set_solver..]. intros v (? & Hpr & ? & ? & _)%victimsOf_elem. unfold yieldsTo. by rewrite <-Hpr.
Qed.

Lemma planVictims_taken fp ledger seat f h u tk es vs r (P : sleepPreemptionVictim → Prop) :
  planVictims fp ledger seat f h u tk es vs = Some r → Forall P tk → Forall P vs → Forall P r.1.1.
Proof.
  revert f h u tk es. induction vs as [|v vs IH]; intros f h u tk es; simpl; [done|]. intros Hp Ht [Hv Hvs]%Forall_cons.
  destruct (chargedTo _ _); [|by eapply IH].
  assert (Forall P (if u then tk else tk ++ [v])) as Ht'.
  { destruct u; [done|]. apply Forall_app. split; [done|]. by apply Forall_singleton. }
  destruct (seenAsleep _ _); simpl in Hp; destruct (_ && _); try (by eapply IH); by simplify_eq.
Qed.

Lemma planPreemptionOn_plan s pm pod claims ledgers states seat owns :
  yields (planPreemptionOn s pm pod claims ledgers states seat owns)
    (fun r => ∀ plan, r.2 = Some plan → pre_pod plan = pod ∧ Forall (yieldsTo pm) (pre_victims plan)).
Proof.
  unfold planPreemptionOn. destruct (ledgers !! _) as [ledger|]; [|by apply yields_ret].
  destruct (negb _); [by apply yields_ret|]. apply (yields_bind _ _ (fun _ => True)); [done|]. intros [policy|] _; [|by apply yields_ret].
  apply (yields_bind _ _ (fun _ => True)); [done|]. intros [s1 waits] _. destruct waits; [by apply yields_ret|].
  eapply yields_bind; [apply victims_yield|]. intros [s2 victims] Hv. cbn [snd] in Hv. destruct (_ || _); [by apply yields_ret|].
  apply yields_ret. cbn [snd]. unfold planSleepPreemptionOnPod. intros plan.
  destruct (planVictims _ _ _ _ _ _ _ _ _) as [[[tk es] known]|] eqn:E; simpl; [|done]. intros [= <-]. split; [done|].
  apply (planVictims_taken _ _ _ _ _ _ _ _ _ _ (yieldsTo pm) E); [done|by apply Forall_forall].
Qed.

Lemma planPreemptions_plans s pm claims ledgers states seat held pods :
  yields (planPreemptions s pm claims ledgers states seat held pods)
    (fun r => ∀ plan, plan ∈ r.2 → pre_pod plan ∈ pods ∧ Forall (yieldsTo pm) (pre_victims plan)).
Proof.
  revert s. induction pods as [|pod rest IH]; intros s; simpl; [apply yields_ret; set_solver|].
  eapply yields_bind; [apply planPreemptionOn_plan|]. intros [s1 plan] Hplan. eapply yields_bind; [apply IH|]. intros [s2 plans] Hplans.
  apply yields_ret. cbn [snd] in *. destruct plan as [p|]; [|set_solver].
  intros q [->|Hq]%elem_of_cons; [destruct (Hplan p eq_refl); set_solver|set_solver].
Qed.

Lemma planSleepPreemption_plan s pm candidates claims ledgers states :
  yields (planSleepPreemption s pm candidates claims ledgers states)
    (fun r => shrinks (rs_held s) (rs_held r.1) ∧
       ∀ plan, r.2 = Ok (Some plan) → pre_pod plan ∈ candidates ∧ Forall (yieldsTo pm) (pre_victims plan)).
Proof.
  unfold planSleepPreemption. destruct (_ || _); [by apply yields_ret|]. destruct claims as [claims|]; [|by apply yields_ret].
  destruct (perGPUBytesOf pm); [|by apply yields_ret]. destruct (modelParallelism pm); [|by apply yields_ret].
  apply (yields_bind _ _ (fun _ => True)); [done|]. intros now _. unfold preemptionHeldFor.
  eapply yields_bind; [apply planPreemptions_plans|]. intros [pass plans] Hplans. apply yields_ret. cbn [fst snd rs_held] in *.
  split; [apply prune_shrinks|]. intros plan [= Hb]. apply Hplans. unfold bestPreemption in Hb.
  pose proof (keepBest_least betterSleepPreemptionPlan plans) as Hl. rewrite Hb in Hl. apply Hl.
Qed.

(** The turns only drop holds that ran out. *)

Abbreviation drops s m := (yields m (fun r => shrinks (rs_held s) (rs_held r.1))) (only parsing).

Lemma feasible_drops s claim candidates claims ledgers :
  drops s (claimFeasibleForPlacementWithPolicy s claim candidates claims ledgers).
Proof.
  unfold claimFeasibleForPlacementWithPolicy. destruct (negb _).
  { unfold claimFeasibleForPlacement. by returns ltac:(done). }
  destruct (perGPUBytesOf claim); [|by apply yields_ret]. destruct (candidatePodsForClaim _ _); [|by apply yields_ret].
  destruct (0 <? _)%nat; [by apply yields_ret|]. destruct (modelParallelism _); [|by apply yields_ret].
  apply (yields_bind _ _ (fun _ => True)); [done|]. intros [readings snapshots] _.
  eapply yields_bind; [apply planSleepPreemption_plan|]. intros [s' plan] [Hs _]. apply yields_ret. exact Hs.
Qed.

Lemma keepsTurn_drops s claim candidates claims ledgers : drops s (keepsTurn s claim candidates claims ledgers).
Proof.
  unfold keepsTurn. destruct (candidatePodsForClaim _ _); [|by apply yields_ret].
  apply (yields_bind _ _ (fun _ => True)); [done|]. intros at_ _. destruct (waiting _ _ _ _ _ _); [by apply yields_ret|].
  destruct (sleepsLowerPriority claim); [apply feasible_drops|]. by returns ltac:(done).
Qed.

Lemma firstOf_drops s pm candidates claims ledgers now queue : drops s (firstOf s pm candidates claims ledgers now queue).
Proof.
  revert s. induction queue as [|claim rest IH]; intros s; simpl; [by apply yields_ret|].
  case_bool_decide; [by apply yields_ret|]. unfold heldFor. pose proof (prune_shrinks (rs_held s) now) as Hp.
  destruct (firstHeld _ _); [by apply yields_ret|]. eapply yields_bind; [apply keepsTurn_drops|].
  intros [s1 keeps] Hk. cbn [fst rs_held roomHeld] in Hk. destruct keeps; [apply yields_ret; cbn; by etrans|].
  eapply yields_mono; [apply IH|]. intros r Hr. etrans; [exact Hp|]. by etrans.
Qed.

Lemma firstToMakeRoomFor_drops s pm candidates ledgers :
  yields (firstToMakeRoomFor s pm candidates ledgers) (fun r => shrinks (rs_held s) (rs_held r.1) ∧
    (r.2 = false → noneHeld (mc_Namespace pm) (mc_Name pm) (rs_held r.1))).
Proof.
  unfold firstToMakeRoomFor. apply (yields_bind _ _ (fun _ => True)); [done|]. intros now _.
  pose proof (heldFor_none (rs_held s) (mc_Namespace pm) (mc_Name pm) now) as Hn.
  pose proof (prune_shrinks (rs_held s) now) as Hp.
  destruct (heldFor _ _ _ _) as [held card] eqn:Eh. assert (held = prune (rs_held s) now) as -> by (by injection Eh).
  destruct card; [by apply yields_ret|]. specialize (Hn eq_refl). cbn [fst] in Hn.
  apply (yields_bind _ _ (fun _ => True)); [done|]. intros [[queue claims]|] _; [|by apply yields_ret].
  eapply yields_mono; [apply firstOf_drops|]. intros r Hr. cbn [rs_held roomHeld] in Hr.
  split; [by etrans|]. intros _. by eapply noneHeld_shrinks.
Qed.

(** ** Making room. *)

(** A computation during which one engine at most may fall asleep, and what is
    known of its value and that engine. *)
Definition makes {A} (m : Run W A) (w : W) (Q : A → option (string * string) → Prop) : Prop :=
  runs m w (fun t r w' => ∃ engine, Forall (sleepsOnly engine w) (w' :: t) ∧ Q r engine).

Lemma makes_within {A} e (m : Run W A) w (Q : A → option (string * string) → Prop) :
  within (sleepsOnly e) m → yields m (fun r => Q r e) → makes m w Q.
Proof. intros Hm Hy. exists e. destruct (Hm w) as (? & ? & _). split; [by apply Forall_cons|apply Hy]. Qed.

Lemma makes_ret {A} (a : A) w (Q : A → option (string * string) → Prop) : Q a None → makes (mret a) w Q.
Proof. intros HQ. apply (makes_within None); [apply (within_ret _)|by apply yields_ret]. Qed.

Lemma makes_bind {A B} (m : Run W A) (f : A → Run W B) w (X : A → Prop) (Q : B → option (string * string) → Prop) :
  touchesNone m → yields m X → (∀ a w1, X a → makes (f a) w1 Q) → makes (m ≫= f) w Q.
Proof.
  intros Hm Hy Hf. apply runs_bind. destruct (Hm w) as (Ht & Hw & _). unfold runs at 1.
  eapply runs_mono; [apply (Hf _ _ (Hy w))|]. intros t b w2 (e & [He Hes]%Forall_cons & HQ). exists e. split; [|exact HQ].
  apply (sleepsOnly_any e) in Hw. apply Forall_cons. split; [by etrans|]. apply Forall_app. split.
  - eapply Forall_impl; [exact Ht|]. intros x. apply sleepsOnly_any.
  - eapply Forall_impl; [exact Hes|]. intros x Hx. by etrans.
Qed.

(** What is held after room was made, on [card], or was not, and where the
    engine is that sleeps. *)
Definition heldAfter (held held' : cardReservations) (pm : ModelClaim) (candidates : list Pod) (card : option Pod)
    (engine : option (string * string)) : Prop :=
  (∀ c r, held' !! c = Some r → heldBy (mc_Namespace pm) (mc_Name pm) (c, r) ∨ held !! c = Some r) ∧
  match card with
  | Some pod => pod ∈ candidates ∧ ∃ r, held' !! cardOf pod = Some r ∧ res_claim r = mc_Name pm
  | None => noneHeld (mc_Namespace pm) (mc_Name pm) held'
  end ∧
  ∀ ip model, engine = Some (ip, model) → ∃ pod, pod ∈ candidates ∧ ip = pod_IP pod ∧ ∀ pod', card = Some pod' → pod' = pod.

Lemma nothing_made held held' pm candidates :
  shrinks held held' → noneHeld (mc_Namespace pm) (mc_Name pm) held' → heldAfter held held' pm candidates None None.
Proof. intros Hs Hn. split_and!; [auto|done|done]. Qed.

(** The card is held for the claim while the engine is put to sleep, and stays
    held only when it was. *)
Lemma held_and_slept held held' pm candidates pod bytes now p model (slept : bool) :
  shrinks held held' → pod ∈ candidates → pod_Namespace pod = mc_Namespace pm →
  let '(h, mine) := holdWithWakeProtection held' (cardOf pod) (mc_Name pm) bytes now p in
  mine = true →
  heldAfter held (if slept then h else release h (mc_Namespace pm) (mc_Name pm)) pm candidates
    (if slept then Some pod else None) (Some (pod_IP pod, model)).
Proof.
  intros Hs Hin Hns. pose proof (hold_outcome held' (cardOf pod) (mc_Name pm) bytes now p) as Ho.
  destruct (holdWithWakeProtection _ _ _ _ _ _) as [h mine]. destruct Ho as (Hothers & Hmine & _). intros ->.
  destruct (Hmine eq_refl) as (r & Hr & Hc). cbn [nn_Namespace cardOf] in Hothers. rewrite Hns in Hothers.
  assert (∀ c r, h !! c = Some r → heldBy (mc_Namespace pm) (mc_Name pm) (c, r) ∨ held !! c = Some r) as Hall.
  { intros c r' [?|?]%Hothers; [by left|right; by apply Hs]. }
  split_and!.
  - destruct slept; [exact Hall|]. intros c r' [Hc' _]%release_lookup. by apply Hall.
  - destruct slept; [eauto|apply release_noneHeld].
  - intros ip m [= <- <-]. exists pod. split_and!; [done..|]. destruct slept; by intros ? [= <-].
Qed.

Definition roomMade (s : roomState) (pm : ModelClaim) (candidates : list Pod) (r : roomState * option roomPlan)
    (engine : option (string * string)) : Prop :=
  heldAfter (rs_held s) (rs_held r.1) pm candidates (plan_pod <$> r.2) engine ∧
  ∀ plan, r.2 = Some plan → ∃ first rest, plan_sleeps plan = first :: rest ∧
    engine = Some (pod_IP (plan_pod plan), sm_ModelName (idle_model first)).

Lemma makeRoomToPlace_makes s pm perGPU candidates ledgers w :
  (∀ pod, pod ∈ candidates → pod_Namespace pod = mc_Namespace pm) →
  makes (makeRoomToPlace s pm perGPU candidates ledgers) w (roomMade s pm candidates).
Proof.
  intros Hns. unfold makeRoomToPlace. eapply makes_bind; [stays|apply yields_any|]. intros now w1 _.
  eapply makes_bind; [apply (firstToMakeRoomFor_in _)|apply firstToMakeRoomFor_drops|]. intros [s1 first] w2 [Hs1 Hn1].
  cbn [fst snd] in Hs1, Hn1. destruct first; cbn [negb]; [|apply makes_ret; split; [by apply nothing_made, Hn1|done]].
  pose proof (refused_holds_nothing (rs_held s1) (prune (rs_held s1) now) (mc_Namespace pm) (mc_Name pm)
    (perGPU_minimumReserveBytes perGPU) now false) as Hrefused.
  destruct (heldFor _ _ _ _) as [held card] eqn:Eh. assert (held = prune (rs_held s1) now) as -> by (by injection Eh).
  pose proof (prune_shrinks (rs_held s1) now) as Hp. set (eligible := match card with Some _ => _ | None => _ end).
  assert (∀ pod, pod ∈ eligible → pod ∈ candidates ∧ onCard card pod) as Hel.
  { intros pod. unfold eligible. destruct card; [|done]. intros [Hin Hb]%list_elem_of_In%List.filter_In.
    apply bool_decide_eq_true in Hb. split; [by apply list_elem_of_In|done]. }
  eapply makes_bind; [apply (planRooms_in _)|apply planRooms_plans|]. intros [pass plans] w3 Hplans.
  assert (shrinks (rs_held s) (prune (rs_held s1) now)) as Hs by (by etrans).
  destruct (bestRoomPlan plans) as [best|] eqn:Eb.
  2: { apply makes_ret. split; [|done]. apply nothing_made; [|apply release_noneHeld]. etrans; [exact Hs|apply release_shrinks]. }
  assert (best ∈ plans) as Hbest.
  { unfold bestRoomPlan in Eb. pose proof (keepBest_least betterPlan plans) as Hl. rewrite Eb in Hl. apply Hl. }
  destruct (Hplans _ Hbest) as [[Hin Hon]%Hel Hne]. cbn [rs_held roomHeld]. unfold hold.
  specialize (Hrefused (plan_pod best) (reflexivity _) Hon (Hns _ Hin)).
  pose proof (hold_outcome (prune (rs_held s1) now) (cardOf (plan_pod best)) (mc_Name pm) (perGPU_minimumReserveBytes perGPU) now false) as Ho.
  pose proof (fun slept model => held_and_slept _ _ pm candidates (plan_pod best) (perGPU_minimumReserveBytes perGPU) now false model slept
    Hs Hin (Hns _ Hin)) as Hslept.
  destruct (holdWithWakeProtection _ _ _ _ _ _) as [h mine]. cbn [fst snd] in Hrefused.
  destruct mine; cbn [negb].
  2: { apply makes_ret. split; [|done]. apply nothing_made; [|by apply Hrefused]. cbn. etrans; [exact Hs|]. by apply Ho. }
  destruct (plan_sleeps best) as [|sleeper rest] eqn:Es; [done|].
  apply (makes_within (Some (pod_IP (plan_pod best), sm_ModelName (idle_model sleeper)))).
  - apply (within_bind _); [apply putIdle_sleeps|]. intros [[pass' pod'] slept]. destruct slept; apply (within_ret _).
  - apply (yields_bind _ _ (fun _ => True)); [done|]. intros [[pass' pod'] slept] _.
    pose proof (Hslept slept (sm_ModelName (idle_model sleeper)) eq_refl) as Hh. destruct slept; apply yields_ret.
    + split; [exact Hh|]. intros plan [= <-]. eauto.
    + split; [exact Hh|done].
Qed.

Definition preempted (s : roomState) (pm : ModelClaim) (candidates : list Pod) (r : roomState * option sleepPreemptionPlan)
    (engine : option (string * string)) : Prop :=
  heldAfter (rs_held s) (rs_held r.1) pm candidates (pre_pod <$> r.2) engine ∧
  (∀ plan, r.2 = Some plan → engine ≠ None) ∧
  ∀ ip model, engine = Some (ip, model) → ∃ victim, yieldsTo pm victim ∧ model = sm_ModelName (idle_model (vic_idle victim)).

Lemma nothing_preempted s s' pm candidates :
  shrinks (rs_held s) (rs_held s') → noneHeld (mc_Namespace pm) (mc_Name pm) (rs_held s') → preempted s pm candidates (s', None) None.
Proof. intros Hs Hn. split_and!; [by apply nothing_made|done|done]. Qed.

Lemma released_preempted s s' pm candidates :
  shrinks (rs_held s) (rs_held s') →
  preempted s pm candidates (roomHeld s' (release (rs_held s') (mc_Namespace pm) (mc_Name pm)), None) None.
Proof. intros Hs. apply nothing_preempted; [|apply release_noneHeld]. etrans; [exact Hs|apply release_shrinks]. Qed.

Lemma makeRoomByPrioritySleep_makes s pm perGPU candidates claims ledgers states w :
  (∀ pod, pod ∈ candidates → pod_Namespace pod = mc_Namespace pm) →
  makes (makeRoomByPrioritySleep s pm perGPU candidates claims ledgers states) w (preempted s pm candidates).
Proof.
  intros Hns. unfold makeRoomByPrioritySleep. eapply makes_bind; [stays|apply yields_any|]. intros now w1 _.
  pose proof (fun held' => refused_holds_nothing (rs_held s) held' (mc_Namespace pm) (mc_Name pm)
    (perGPU_minimumReserveBytes perGPU) now true) as Hrefused.
  destruct (heldFor _ _ _ _) as [held card] eqn:Eh. assert (held = prune (rs_held s) now) as -> by (by injection Eh).
  pose proof (prune_shrinks (rs_held s) now) as Hp. set (eligible := match card with Some _ => _ | None => _ end).
  assert (∀ pod, pod ∈ eligible → pod ∈ candidates ∧ onCard card pod) as Hel.
  { intros pod. unfold eligible. destruct card; [|done]. intros (i & Hl%list_elem_of_lookup_2 & _)%elem_of_take.
    apply list_elem_of_In, List.filter_In in Hl as [Hin Hb].
    apply bool_decide_eq_true in Hb. split; [by apply list_elem_of_In|done]. }
  eapply makes_bind; [apply (planSleepPreemption_in _)|apply planSleepPreemption_plan|]. intros [s1 plan] w2 [Hs1 Hplan].
  cbn [fst snd rs_held roomHeld] in Hs1, Hplan. assert (shrinks (rs_held s) (rs_held s1)) as Hs by (by etrans).
  destruct plan as [[plan|]|]; [|by apply makes_ret, released_preempted..].
  destruct (Hplan _ eq_refl) as [[Hin Hon]%Hel Hyield].
  destruct (pre_victims plan) as [|victim rest] eqn:Ev; [by apply makes_ret, released_preempted|].
  apply Forall_cons in Hyield as [Hyield _]. unfold holdPreemption. cbn [rs_held roomHeld].
  specialize (Hrefused _ (pre_pod plan) Hs1 Hon (Hns _ Hin)).
  pose proof (hold_outcome (rs_held s1) (cardOf (pre_pod plan)) (mc_Name pm) (perGPU_minimumReserveBytes perGPU) now true) as Ho.
  pose proof (fun slept model => held_and_slept _ _ pm candidates (pre_pod plan) (perGPU_minimumReserveBytes perGPU) now true model slept
    Hs Hin (Hns _ Hin)) as Hslept.
  destruct (holdWithWakeProtection _ _ _ _ _ _) as [h mine]. cbn [fst snd] in Hrefused.
  destruct mine; cbn [negb].
  2: { apply makes_ret, nothing_preempted; [|by apply Hrefused]. cbn. etrans; [exact Hs|]. by apply Ho. }
  apply (makes_within (Some (pod_IP (pre_pod plan), sm_ModelName (idle_model (vic_idle victim))))).
  - apply (within_bind _); [apply putVictim_sleeps|]. intros [pass' slept]. destruct slept; apply (within_ret _).
  - apply (yields_bind _ _ (fun _ => True)); [done|]. intros [pass' slept] _.
    pose proof (Hslept slept (sm_ModelName (idle_model (vic_idle victim))) eq_refl) as Hh.
    destruct slept; apply yields_ret; (split_and!; [exact Hh|done|intros ip model [= _ <-]; eauto]).
Qed.

(** ** The turns. *)

(** Looked at in the order of the queue, up to the claim itself. *)
Lemma blockerIn_before s current candidates claims ledgers now queue :
  yields (blockerIn s current candidates claims ledgers now queue) (fun r =>
    shrinks (rs_held s) (rs_held r.1) ∧
    ∀ blocker, r.2 = Some blocker → ∃ pre post, queue = pre ++ blocker :: post ∧
      ∀ claim, claim ∈ pre ++ [blocker] → mc_Name claim ≠ mc_Name current).
Proof.
  revert s. induction queue as [|claim rest IH]; intros s; simpl; [by apply yields_ret|].
  case_bool_decide as Hname; [by apply yields_ret|]. unfold heldFor. pose proof (prune_shrinks (rs_held s) now) as Hp.
  assert (∃ pre post, claim :: rest = pre ++ claim :: post ∧ ∀ c, c ∈ pre ++ [claim] → mc_Name c ≠ mc_Name current) as Hhere.
  { exists [], rest. split; [done|]. set_solver. }
  assert (∀ s1, shrinks (rs_held s) (rs_held s1) → yields (blockerIn s1 current candidates claims ledgers now rest) (fun r =>
    shrinks (rs_held s) (rs_held r.1) ∧ ∀ blocker, r.2 = Some blocker → ∃ pre post, claim :: rest = pre ++ blocker :: post ∧
      ∀ c, c ∈ pre ++ [blocker] → mc_Name c ≠ mc_Name current)) as Hrest.
  { intros s1 Hs1. eapply yields_mono; [apply IH|]. intros r [Hr Hb]. split; [by etrans|]. intros blocker E.
    destruct (Hb _ E) as (pre & post & -> & Hpre). exists (claim :: pre), post. split; [done|].
    intros c [->|Hc]%elem_of_cons; [done|by apply Hpre]. }
  destruct (firstHeld _ _); [apply yields_ret; split; [done|by intros ? [= <-]]|].
  apply (yields_bind _ _ (fun _ => True)); [done|]. intros at_ _. destruct (waiting _ _ _ _ _ _); [by apply Hrest|].
  eapply yields_bind; [apply feasible_drops|]. intros [s1 feasible] Hs1. cbn [fst rs_held roomHeld] in Hs1.
  assert (shrinks (rs_held s) (rs_held s1)) as Hs by (by etrans).
  destruct feasible; [apply yields_ret; split; [done|by intros ? [= <-]]|by apply Hrest].
Qed.

Lemma sorted_before (claims pre post : list ModelClaim) a b :
  placementPriorityFirst claims = pre ++ a :: post → b ∈ post → notAfter priorityLess a b.
Proof.
  intros E Hb. pose proof (sortBy_sorted priorityLess claims) as HS. fold (placementPriorityFirst claims) in HS. rewrite E in HS.
  apply list_elem_of_lookup in Hb as [j Hj]. eapply (StronglySorted_lookup _ _ HS (length pre) (length pre + S j)%nat); [| |lia].
  - by rewrite lookup_app_r, Nat.sub_diag by lia.
  - rewrite lookup_app_r by lia. by replace (length pre + S j - length pre)%nat with (S j) by lia.
Qed.

(** Whose turn it is to be placed follows the priorities.  The claim that
    another one waits for is a different claim of its namespace that is listed
    and eligible for the pool, and the order of placement does not put the one
    that waits before it: its priority is not lower, and of the same priority it
    was not made later.  A claim that has an instance, or holds a card, waits
    for none. *)
Theorem turns_follow_priority s current candidates claims ledgers w :
  let r := value (placementTurnBlocker s current candidates claims ledgers) w in
  shrinks (rs_held s) (rs_held r.1) ∧
  ∀ blocker, r.2 = Some blocker →
    status_Instances current = [] ∧ blocker ∈ claims ∧ mc_Namespace blocker = mc_Namespace current ∧
    mc_Name blocker ≠ mc_Name current ∧ priorityEligible blocker candidates = true ∧
    spec_Priority current ≤ spec_Priority blocker ∧
    (spec_Priority current = spec_Priority blocker → mc_CreationTimestamp blocker ≤ mc_CreationTimestamp current).
Proof.
  revert w. change (yields (placementTurnBlocker s current candidates claims ledgers) (fun r => shrinks (rs_held s) (rs_held r.1) ∧
    ∀ blocker, r.2 = Some blocker → status_Instances current = [] ∧ blocker ∈ claims ∧ mc_Namespace blocker = mc_Namespace current ∧
    mc_Name blocker ≠ mc_Name current ∧ priorityEligible blocker candidates = true ∧
    spec_Priority current ≤ spec_Priority blocker ∧
    (spec_Priority current = spec_Priority blocker → mc_CreationTimestamp blocker ≤ mc_CreationTimestamp current))).
  unfold placementTurnBlocker. case_bool_decide as Hi; cbn [negb]; [|by apply yields_ret].
  apply (yields_bind _ _ (fun _ => True)); [done|]. intros now _. unfold heldFor. pose proof (prune_shrinks (rs_held s) now) as Hp.
  destruct (firstHeld _ _); [by apply yields_ret|]. eapply yields_bind; [apply feasible_drops|]. intros [s1 feasible] Hs1.
  cbn [fst rs_held roomHeld] in Hs1. assert (shrinks (rs_held s) (rs_held s1)) as Hs by (by etrans).
  destruct feasible; cbn [negb]; [|by apply yields_ret]. set (others := List.filter _ claims).
  eapply yields_mono; [apply blockerIn_before|]. intros r [Hr Hb]. split; [by etrans|]. intros blocker E.
  destruct (Hb _ E) as (pre & post & Eq & Hpre). assert (mc_Name blocker ≠ mc_Name current) as Hne by (apply Hpre; set_solver).
  pose proof (sortBy_perm priorityLess (current :: others)) as Hperm. fold (placementPriorityFirst (current :: others)) in Hperm.
  assert (blocker ∈ others) as Hin.
  { assert (blocker ∈ current :: others) as [->|?]%elem_of_cons by (rewrite <-Hperm, Eq; set_solver); done. }
  apply list_elem_of_In, List.filter_In in Hin as [Hin Hf]. breflect.
  assert (current ∈ post) as Hpost.
  { assert (current ∈ pre ++ blocker :: post) as Hc by (rewrite <-Eq, Hperm; left).
    apply elem_of_app in Hc as [Hc|[->|Hc]%elem_of_cons]; [|done..]. exfalso. apply (Hpre current); [set_solver|done]. }
  pose proof (sorted_before _ _ _ _ _ Eq Hpost) as Hna. unfold notAfter, priorityLess in Hna.
  split_and!; try done; [by apply list_elem_of_In|..]; destruct (Z.eqb_spec (spec_Priority current) (spec_Priority blocker)); simpl in Hna;
    try lia; destruct (Z.eqb_spec (mc_CreationTimestamp current) (mc_CreationTimestamp blocker)); simpl in Hna; lia.
Qed.

(** Room is made for a claim on a card held for it, and nowhere else.  Of
    all engines one at most falls asleep while [makeRoomToPlace] runs, on a pod
    of the claim's pool.  When room is made, that engine is the first sleep of
    the plan and the plan's card is held for the claim at the end; when it is
    not, the claim holds no card, so none is kept from the others for nothing.
    No hold of another claim is made. *)
Theorem room_is_made_on_a_held_card s pm perGPU candidates ledgers w :
  (∀ pod, pod ∈ candidates → pod_Namespace pod = mc_Namespace pm) →
  let m := makeRoomToPlace s pm perGPU candidates ledgers in
  ∃ engine, Forall (sleepsOnly engine w) (final m w :: visited m w) ∧ roomMade s pm candidates (value m w) engine.
Proof. apply makeRoomToPlace_makes. Qed.

End RoomFacts.

(** ** A pool where room can be made, for the witnesses. *)

Section RoomWitness.
Local Existing Instance NanoK8s.
Local Existing Instance podCluster.

Local Existing Instance podReads.
Local Existing Instance podApi.
Local Existing Instance podLaws.

Definition exOwned : Pod :=
  MkPod "ns" "pod-a" "pod-uid" ∅ (pod_Annotations exRouted) "node-1" "10.0.0.1" [] [MkContainer {["nvidia.com/gpu" := 10 ^ 9]} ∅]
    (Some ("ReplicaSet", "rs")) "Running" None.
Definition exNeedy : ModelClaim :=
  MkModelClaim "ns" "gamma" "uid-gamma" 1 0 None None (Some []) "hf://m" "vllm" None 5 "SleepLowerPriority"
    ∅ (Some (MkPerGPU (57 * exGiB * 10 ^ 9) (2 * exGiB * 10 ^ 9))) ModelClaimPending [] [] 0 0 1 "1" [ModelClaimFinalizer].
Definition exNeedyBytes : perGPUBytes := MkPerGPUBytes (57 * exGiB) (2 * exGiB).
Definition exRoomState : roomState :=
  MkRoomState (MkPass (MkReadings {["pod-a" := MkReading (Ok (Some (MkSnapshot 1000 [] [exIdleModel "alpha"] []))) 0]} 0)
                 exManager exFootprints) ∅ ∅.
Definition exRoomWorld : podWorld := MkPodWorld exWorld {[MkNN "ns" "pod-a" := exOwned]} ∅ true ∅.
Definition exHolding : roomState := roomHeld exRoomState {[MkNN "ns" "pod-a" := MkReservation "gamma" (59 * exGiB) (200 * Second) false]}.
Definition exMakeRoom : Run podWorld (roomState * option roomPlan) := makeRoomToPlace exHolding exNeedy exNeedyBytes [exOwned] exLedgers.
Definition exPreempt : Run podWorld (roomState * option sleepPreemptionPlan) :=
  makeRoomByPrioritySleep exRoomState exNeedy exNeedyBytes [exOwned] (Some [exClaim "alpha" ModelClaimActive]) exLedgers ∅.

Definition roomReadLaws : ReadLaws.
Proof. split; intros; by split. Defined.
Local Existing Instance roomReadLaws.

Lemma exOwned_namespace pod : pod ∈ [exOwned] → pod_Namespace pod = mc_Namespace exNeedy.
Proof. intros ->%list_elem_of_singleton. reflexivity. Qed.

(** The claim that needs the card holds it, and [alpha] falls asleep. *)
Lemma room_is_made_on_a_held_card_witness :
  asleepAt (final exMakeRoom exRoomWorld) "10.0.0.1" "alpha" = true ∧
  ∃ engine, Forall (sleepsOnly engine exRoomWorld) (final exMakeRoom exRoomWorld :: visited exMakeRoom exRoomWorld) ∧
    roomMade exHolding exNeedy [exOwned] (value exMakeRoom exRoomWorld) engine.
Proof.
  split; [vm_compute; reflexivity|].
  exact (room_is_made_on_a_held_card exHolding exNeedy exNeedyBytes [exOwned] exLedgers exRoomWorld exOwned_namespace).
Defined.


(** Two claims that fit the card, one of them of higher priority. *)
Definition exWaiting (name : string) (priority : Z) : ModelClaim :=
  MkModelClaim "ns" name (String.append "uid-" name) 1 0 None None (Some []) "hf://m" "vllm" None priority ""
    ∅ (Some (MkPerGPU (20 * exGiB * 10 ^ 9) (2 * exGiB * 10 ^ 9))) ModelClaimPending [] [] 0 0 1 "1" [ModelClaimFinalizer].

Definition exTurn : Run podWorld (roomState * option ModelClaim) :=
  placementTurnBlocker exRoomState (exWaiting "low" 1) [exOwned] [exWaiting "high" 5] exLedgers.

Lemma turns_follow_priority_witness :
  ∃ blocker, (value exTurn exRoomWorld).2 = Some blocker ∧ mc_Name blocker = "high" ∧
    spec_Priority (exWaiting "low" 1) ≤ spec_Priority blocker.
Proof.
  destruct ((value exTurn exRoomWorld).2) as [blocker|] eqn:Eb.
  - exists blocker. split; [reflexivity|]. split.
    + apply (f_equal (option_map mc_Name)) in Eb. assert (option_map mc_Name (value exTurn exRoomWorld).2 = Some "high") as Hn
        by (vm_compute; reflexivity). rewrite Hn in Eb. by injection Eb.
    + apply (turns_follow_priority exRoomState (exWaiting "low" 1) [exOwned] [exWaiting "high" 5] exLedgers exRoomWorld). exact Eb.
  - exfalso. apply (f_equal (option_map mc_Name)) in Eb. assert (option_map mc_Name (value exTurn exRoomWorld).2 = Some "high") as Hn
      by (vm_compute; reflexivity). rewrite Hn in Eb. discriminate Eb.
Defined.
End RoomWitness.
