(* ===== verification/PodWatch.v ===== *)
(** * The events of pods that the controller listens to (the watches of [Add]
    and their predicates, in [modelclaim_controller.go] and [wake.go]).

    Three watches of the pool's pods put claims on the controller's queue: every
    claim of the namespace when a pod comes, goes or changes in more than its
    annotations, the claims on a pod whose routes changed, and the claims that a
    wake request asks for.  [equality.Semantic.DeepEqual] of two pods is a
    parameter, since a [Pod] has the fields that the controller reads only. *)

From S2P Require Import Prelude Api Claims Ledger KVPlan Placement Reservations Backoff Runtime ArrangeCard PoolPolicy Division MakeRoom Rfc3339 WakeTurn SleepEngine WakeHandler.

(** The events of a watch. *)
Inductive watchEvent (A : Type) : Type :=
| Created (object : A)
| Updated (old new : A)
| Deleted (object : A)
| Generic (object : A).
Arguments Created {A} _.
Arguments Updated {A} _ _.
Arguments Deleted {A} _.
Arguments Generic {A} _.

(** [handler.EnqueueRequestsFromMapFunc]: both objects of an update are mapped. *)
Definition enqueued {A} (f : A → list NamespacedName) (e : watchEvent A) : list NamespacedName :=
  match e with Created x | Deleted x | Generic x => f x | Updated old new => f old ++ f new end.

Abbreviation ModelPoolLabelName := "claim.model.aibrix.ai/pool" (only parsing).
Abbreviation ModelPoolLabelEnabled := "claim.model.aibrix.ai/enabled" (only parsing).
Abbreviation ModelPoolLabelEnabledValue := "true" (only parsing).

Section PodWatch.
Context `{K8s}.
Context (DeepEqual : Pod → Pod → bool).

Definition matters (pod : Pod) : bool :=
  (bool_decide (is_Some (pod.(pod_Labels) !! ModelPoolLabelName)) &&
   bool_decide (default "" (pod.(pod_Labels) !! ModelPoolLabelEnabled) = ModelPoolLabelEnabledValue)) ||
  existsb (fun kv => String.prefix ModelClaimPodAnnotationPrefix kv.1) (map_to_list pod.(pod_Annotations)).

Definition modelPoolPodFilter (e : watchEvent Pod) : bool :=
  match e with
  | Updated old new => matters new || matters old
  | Created pod | Deleted pod | Generic pod => matters pod
  end.

(** The resource version and the managed fields are not fields of a [Pod]. *)
Definition sameApartFromAnnotations (old new : Pod) : bool := DeepEqual (setAnnotations old ∅) (setAnnotations new ∅).

Definition notOnlyAnnotationsChanged (e : watchEvent Pod) : bool :=
  match e with Updated old new => negb (sameApartFromAnnotations old new) | _ => true end.

Definition onlyAnnotationsChanged (e : watchEvent Pod) : bool :=
  match e with
  | Updated old new =>
      sameApartFromAnnotations old new && negb (bool_decide (old.(pod_Annotations) = new.(pod_Annotations)))
  | _ => false
  end.

Definition wakeRequestsOf (pod : Pod) : gmap string string :=
  filter (fun kv => String.prefix ModelClaimWakeAnnotationPrefix kv.1 = true) pod.(pod_Annotations).

Definition withoutWakeRequests (pod : Pod) : Pod :=
  setAnnotations pod (filter (fun kv => kv.1 ∉ dom (wakeRequestsOf pod)) pod.(pod_Annotations)).

Definition notOnlyWakeRequests (e : watchEvent Pod) : bool :=
  match e with
  | Updated old new =>
      if bool_decide (wakeRequestsOf old = wakeRequestsOf new) then true
      else negb (DeepEqual (withoutWakeRequests old) (withoutWakeRequests new))
  | _ => true
  end.

(** A key that a Go map does not have reads as the empty string. *)
Definition wakeRequestsChanged (e : watchEvent Pod) : bool :=
  match e with
  | Created pod => (0 <? size (wakeRequestsOf pod))%nat
  | Updated old new =>
      let now := wakeRequestsOf new in
      if (size now =? 0)%nat then false
      else let before := wakeRequestsOf old in
           existsb (fun kv => negb (bool_decide (default "" (before !! kv.1) = kv.2))) (map_to_list now)
  | Deleted _ | Generic _ => false
  end.

(** [strings.TrimPrefix] of a key that has the prefix. *)
Definition claimOfKey (key : string) : string :=
  String.substring (String.length ModelClaimWakeAnnotationPrefix)
    (String.length key - String.length ModelClaimWakeAnnotationPrefix) key.

Definition enqueueRequestedWakes (pod : Pod) : list NamespacedName :=
  (fun kv => MkNN pod.(pod_Namespace) (claimOfKey kv.1)) <$> map_to_list (wakeRequestsOf pod).

(** [claims] is [None] when they could not be listed. *)
Definition enqueueModelClaimsOnPod (claims : option (list ModelClaim)) (pod : Pod) : list NamespacedName :=
  match claims with
  | None => []
  | Some claims =>
      ObjectKeyFromObject <$> List.filter (fun claim =>
        existsb (fun inst => bool_decide (inst.(inst_Pod) = pod.(pod_Name))) claim.(status_Instances)) claims
  end.

Definition enqueueModelClaimsForPod (claims : option (list ModelClaim)) (pod : Pod) : list NamespacedName :=
  match claims with
  | None => []
  | Some claims =>
      let placed := fun claim => (0 <? length claim.(status_Instances))%nat in
      let existing := List.filter placed claims in
      let unplaced := List.filter (fun claim => negb (placed claim)) claims in
      ObjectKeyFromObject <$> oldestFirst existing ++ placementPriorityFirst unplaced
  end.

(** The watches of [Add] on pods, with what each enqueues. *)
Definition podWatches (claims : option (list ModelClaim)) (e : watchEvent Pod) : list NamespacedName :=
  if negb (modelPoolPodFilter e) then []
  else
    (if notOnlyAnnotationsChanged e then enqueued (enqueueModelClaimsForPod claims) e else []) ++
    (if onlyAnnotationsChanged e && notOnlyWakeRequests e then enqueued (enqueueModelClaimsOnPod claims) e else []) ++
    (if wakeRequestsChanged e then enqueued enqueueRequestedWakes e else []).

(** The watch on claims; [enqueueWaitingClaims] is with the backoff. *)
Definition roomMayHaveFreed (e : watchEvent ModelClaim) : bool :=
  match e with
  | Created _ | Generic _ => false
  | Deleted _ => true
  | Updated before after => freesRoom before after
  end.
End PodWatch.

(** ** Who hears of a change. *)

(** What is relied on of the comparison of pods. *)
Class PodEquality `{K8s} (DeepEqual : Pod → Pod → bool) := {
  DeepEqual_refl pod : DeepEqual pod pod = true;
  DeepEqual_annotations p q : DeepEqual p q = true → p.(pod_Annotations) = q.(pod_Annotations);
}.

Lemma prefix_append p s : String.prefix p (String.append p s) = true.
Proof. induction p as [|a p IH]; simpl; [by destruct s|]. destruct (Ascii.ascii_dec a a); [exact IH|done]. Qed.

Lemma substring_append p s n : n = String.length s → String.substring (String.length p) n (String.append p s) = s.
Proof.
  intros ->. induction p as [|a p IH]; simpl; [|done]. change (String.append "" s) with s. induction s as [|b s IHs]; simpl; [done|].
  by rewrite IHs.
Qed.

Lemma length_append p s : String.length (String.append p s) = (String.length p + String.length s)%nat.
Proof. induction p as [|a p IH]; [done|]. simpl. by rewrite IH. Qed.

Lemma claimOfKey_wakeKey claim : claimOfKey (wakeKey claim) = claim.
Proof.
  unfold claimOfKey, wakeKey. apply substring_append. rewrite length_append. lia.
Qed.

Section PodWatchFacts.
Context `{PodEquality DeepEqual}.

Lemma wakeRequestsOf_key pod claim : wakeRequestsOf pod !! wakeKey claim = pod.(pod_Annotations) !! wakeKey claim.
Proof.
  unfold wakeRequestsOf. destruct (pod_Annotations pod !! wakeKey claim) as [v|] eqn:E.
  - apply map_lookup_filter_Some. split; [done|]. apply prefix_append.
  - apply map_lookup_filter_None. by left.
Qed.

Lemma existsb_intro {A} (f : A → bool) l x : x ∈ l → f x = true → existsb f l = true.
Proof. intros Hin Hf. apply existsb_exists. exists x. split; [by apply list_elem_of_In|done]. Qed.

(** A request that is new, or new in its time, reaches its claim. *)
Lemma request_heard claims old new claim v :
  modelPoolPodFilter (Updated old new) = true →
  new.(pod_Annotations) !! wakeKey claim = Some v → default "" (old.(pod_Annotations) !! wakeKey claim) ≠ v →
  MkNN new.(pod_Namespace) claim ∈ podWatches DeepEqual claims (Updated old new).
Proof.
  intros Hf Hnew Hold. unfold podWatches. rewrite Hf. cbn [negb]. rewrite !elem_of_app. right; right.
  assert (wakeRequestsOf new !! wakeKey claim = Some v) as Hreq by (by rewrite wakeRequestsOf_key).
  assert (wakeRequestsChanged (Updated old new) = true) as ->.
  { unfold wakeRequestsChanged. destruct (size (wakeRequestsOf new)) eqn:Es; cbn [Nat.eqb].
    - apply map_size_empty_inv in Es. by rewrite Es in Hreq.
    - apply (existsb_intro _ _ (wakeKey claim, v)); [by apply elem_of_map_to_list|]. cbn [fst snd].
      rewrite wakeRequestsOf_key. by rewrite bool_decide_false. }
  cbn [enqueued]. apply elem_of_app. right. unfold enqueueRequestedWakes. apply list_elem_of_fmap. exists (wakeKey claim, v).
  split; [cbn [fst]; by rewrite claimOfKey_wakeKey|]. by apply elem_of_map_to_list.
Qed.

(** A pod that changed in more than its annotations reaches every claim. *)
Lemma change_heard claims old new claim :
  modelPoolPodFilter (Updated old new) = true → sameApartFromAnnotations DeepEqual old new = false →
  claim ∈ claims → ObjectKeyFromObject claim ∈ podWatches DeepEqual (Some claims) (Updated old new).
Proof.
  intros Hf Hs Hin. unfold podWatches. rewrite Hf. cbn [negb notOnlyAnnotationsChanged enqueued]. rewrite Hs. cbn [negb].
  rewrite !elem_of_app. left; left. unfold enqueueModelClaimsForPod. apply list_elem_of_fmap_2.
  rewrite elem_of_app. unfold oldestFirst, placementPriorityFirst. rewrite !elem_of_sortBy, !list_elem_of_In, !List.filter_In.
  rewrite <-!list_elem_of_In. destruct (0 <? length (status_Instances claim))%nat eqn:E; [left|right]; by rewrite ?E.
Qed.

(** A route that changed reaches the claims on the pod. *)
Lemma route_heard claims old new key claim inst :
  modelPoolPodFilter (Updated old new) = true → sameApartFromAnnotations DeepEqual old new = true →
  String.prefix ModelClaimWakeAnnotationPrefix key = false → old.(pod_Annotations) !! key ≠ new.(pod_Annotations) !! key →
  claim ∈ claims → inst ∈ claim.(status_Instances) → inst.(inst_Pod) = new.(pod_Name) →
  ObjectKeyFromObject claim ∈ podWatches DeepEqual (Some claims) (Updated old new).
Proof.
  intros Hf Hs Hkey Hne Hin Hinst Hpod. unfold podWatches. rewrite Hf. cbn [negb]. rewrite !elem_of_app. right; left.
  assert (onlyAnnotationsChanged DeepEqual (Updated old new) = true) as ->.
  { cbn. rewrite Hs, bool_decide_false; [done|]. intros Heq. by rewrite Heq in Hne. }
  assert (∀ pod, pod_Annotations (withoutWakeRequests pod) !! key = pod_Annotations pod !! key) as Hkept.
  { intros pod. cbn. destruct (pod_Annotations pod !! key) as [v|] eqn:E.
    - apply map_lookup_filter_Some. split; [done|]. cbn. intros [u Hu]%elem_of_dom.
      apply map_lookup_filter_Some in Hu as [_ Hu]. cbn in Hu. congruence.
    - apply map_lookup_filter_None. by left. }
  assert (notOnlyWakeRequests DeepEqual (Updated old new) = true) as ->.
  { cbn. case_bool_decide; [done|]. destruct (DeepEqual _ _) eqn:E; [|done]. exfalso. apply DeepEqual_annotations in E.
    by rewrite <-(Hkept old), E, Hkept in Hne. }
  cbn [andb enqueued]. apply elem_of_app. right. unfold enqueueModelClaimsOnPod. apply list_elem_of_fmap_2.
  apply list_elem_of_In, List.filter_In. split; [by apply list_elem_of_In|]. eapply existsb_intro; [exact Hinst|].
  by rewrite bool_decide_true.
Qed.


(** A write of a wake request alone is heard by claims that requests ask for. *)
Theorem request_wakes_no_other claims pod claim v key :
  let written := setAnnotations pod (<[wakeKey claim := v]> pod.(pod_Annotations)) in
  pod.(pod_Annotations) !! wakeKey claim = None →
  key ∈ podWatches DeepEqual claims (Updated pod written) →
  ∃ k, is_Some (wakeRequestsOf written !! k) ∧ key = MkNN pod.(pod_Namespace) (claimOfKey k).
Proof.
  intros written Hnone. unfold podWatches. destruct (negb _); [set_solver|].
  assert (sameApartFromAnnotations DeepEqual pod written = true) as Hsame
    by (unfold sameApartFromAnnotations; cbn; apply DeepEqual_refl).
  cbn [notOnlyAnnotationsChanged]. rewrite Hsame. cbn [negb app].
  assert (withoutWakeRequests pod = withoutWakeRequests written) as Hwo.
  { unfold withoutWakeRequests. cbn. apply (f_equal (setAnnotations pod)). apply map_eq. intros k.
    assert (∀ p, p = pod ∨ p = written → filter (fun kv => kv.1 ∉ dom (wakeRequestsOf p)) (pod_Annotations p) !! k =
      if String.prefix ModelClaimWakeAnnotationPrefix k then None else pod_Annotations pod !! k) as Hlook.
    { intros p Hp. destruct (String.prefix _ k) eqn:Ep.
      - apply map_lookup_filter_None. right. intros x Hx Hn. cbn in Hn. apply Hn, elem_of_dom. exists x. by apply map_lookup_filter_Some.
      - assert (pod_Annotations p !! k = pod_Annotations pod !! k) as <-.
        { destruct Hp as [->| ->]; [done|]. cbn. apply lookup_insert_ne. intros <-. by rewrite prefix_append in Ep. }
        destruct (pod_Annotations p !! k) as [x|] eqn:Ex; [|apply map_lookup_filter_None; by left].
        apply map_lookup_filter_Some. split; [done|]. cbn. intros (y & [_ Hy]%map_lookup_filter_Some)%elem_of_dom. cbn in Hy. congruence. }
    rewrite (Hlook pod); [|by left]. symmetry. apply (Hlook written). by right. }
  assert (notOnlyWakeRequests DeepEqual (Updated pod written) = false) as ->.
  { cbn. rewrite bool_decide_false; [by rewrite Hwo, DeepEqual_refl|]. intros Heq.
    apply (f_equal (.!! wakeKey claim)) in Heq. rewrite !wakeRequestsOf_key, Hnone in Heq. cbn in Heq. by rewrite lookup_insert_eq in Heq. }
  rewrite andb_false_r. cbn [app]. destruct (wakeRequestsChanged _); [|set_solver]. cbn [enqueued].
  assert (∀ k x, wakeRequestsOf pod !! k = Some x → is_Some (wakeRequestsOf written !! k)) as Hsub.
  { intros k x [Hx Hp]%map_lookup_filter_Some. destruct (decide (k = wakeKey claim)) as [->|Hne]; [congruence|].
    exists x. apply map_lookup_filter_Some. cbn. by rewrite lookup_insert_ne. }
  intros [Hin|Hin]%elem_of_app; apply list_elem_of_fmap in Hin as ([k x] & -> & Hk%elem_of_map_to_list); exists k; (split; [|done]);
    [by eapply Hsub|by exists x].
Qed.
End PodWatchFacts.

(** ** A pod, for the witness. *)

Section WatchWitness.
Local Existing Instance NanoK8s.

(** A comparison of what a pod shows of itself. *)
Definition shownEqual (p q : Pod) : bool :=
  bool_decide (p.(pod_Annotations) = q.(pod_Annotations)) && bool_decide (p.(pod_Labels) = q.(pod_Labels)) &&
  bool_decide (p.(pod_IP) = q.(pod_IP)).

Definition shownEquality : PodEquality shownEqual.
Proof.
  split.
  - intros pod. unfold shownEqual. by rewrite !bool_decide_true.
  - intros p q. unfold shownEqual. intros [[E _]%andb_prop _]%andb_prop. by apply bool_decide_eq_true in E.
Defined.
Local Existing Instance shownEquality.

Definition exWritten : Pod :=
  setAnnotations exRouted (<[wakeKey "alpha" := "2026-10-01T08:00:00Z"]> exRouted.(pod_Annotations)).

End WatchWitness.
