(* ===== verification/PoolTick.v ===== *)
(** * One tick of a pool's policy ([reconcilePoolPolicies] of
    [pkg/controller/modelclaim/pool_policy_controller.go]).

    At the end of a pass every pool of the pass's pods has its policy run, once
    and not more often than the passes are spaced.  The reclaim part writes the
    limits that [computePoolKVTargets] plans, unless a claim holds the limits on
    the pod; the lifecycle part puts engines to sleep that were idle for long.
    Metrics, Events and log lines are left out, but for the Events that say
    whether a policy is valid. *)

From S2P Require Import Prelude Api Claims Ledger KVPlan Placement Reservations Backoff Runtime ArrangeCard PoolPolicy Division MakeRoom Rfc3339 WakeTurn SleepEngine WakeHandler WakeFacts RoomHandler Calls RoomFacts.

(** [poolPolicyErrorClass]: the class of what [parsePoolPolicy] rejects. *)
Definition poolPolicyErrorClass (e : poolPolicyError) : string :=
  match e with
  | UnsupportedMode => "unsupported_mode"
  | InvalidCapacity => "invalid_capacity"
  | InvalidFloor => "invalid_floor"
  | InvalidSleep _ => "invalid_sleep_window"
  end.

Inductive policyEvent : Type :=
| InvalidPoolPolicy (class : string)
| PoolPolicyValid.

(** The policy, or the class of the error. *)
Definition parseAnnotation (deployment : Deployment) : result string poolPolicy :=
  match deployment.(dep_Decoded) with
  | Err class => Err class
  | Ok raw => match parsePoolPolicy raw with Ok policy => Ok policy | Err e => Err (poolPolicyErrorClass e) end
  end.

Definition resolvePoolPolicy (manager : poolPolicyManager) (deployment : Deployment)
  : poolPolicyManager * option policyEvent * option poolPolicy :=
  let pool := MkNN deployment.(dep_Namespace) deployment.(dep_Name) in
  let raw := deployment.(dep_PolicyText) in
  if bool_decide (raw = "") then ((forgetConfig manager pool).1, None, None)
  else
    match parseAnnotation deployment with
    | Err errorClass =>
        let '(manager, warn, _) := observeConfig manager pool raw errorClass in
        (manager, if warn then Some (InvalidPoolPolicy errorClass) else None, None)
    | Ok policy =>
        let '(manager, _, recovered) := observeConfig manager pool raw "" in
        (manager, if recovered then Some PoolPolicyValid else None, Some policy)
    end.

(** The pods a Deployment selects.  A Deployment whose selector cannot be used
    is a listing that fails. *)
Class PoolPods `{HP : PodApi W} := {
  ListSelectedPods : Deployment → W → W * result apiError (list Pod);
}.

Section Tick.
Context `{HP : PoolPods W}.

Definition setManager (s : passState) (manager : poolPolicyManager) : passState :=
  MkPass s.(ps_readings) manager s.(ps_footprints).

Definition poolPolicyPods (deployment : Deployment) : Run W (result apiError (list Pod)) :=
  listed ← call (ListSelectedPods deployment);
  mret (match listed with
        | Err e => Err e
        | Ok pods =>
            Ok (List.filter (fun pod =>
              bool_decide (default "" (pod.(pod_Labels) !! "claim.model.aibrix.ai/enabled") = "true") &&
              bool_decide (pod.(pod_Phase) = "Running") && negb (bool_decide (pod.(pod_IP) = "")) &&
              bool_decide (pod.(pod_DeletionTimestamp) = None)) pods)
        end).

Record poolPolicySource : Type := MkSource {
  src_key : NamespacedName;
  src_deployment : Deployment;
  src_policy : poolPolicy;
}.

(** ** Limits. *)

Definition policyOperation (source : poolPolicySource) (pod : Pod) (model : RuntimeSnapshotModel) (target : Z) (decisionTime : Time)
  : operationID :=
  MkOperation "pool-policy-kv" (concat [source.(src_key).(nn_Namespace); "/"; source.(src_key).(nn_Name)]) pod.(pod_UID)
    (snapshotActivityKey model) target decisionTime.

(** The numbers of the limits applied and failed. *)
Fixpoint writeTargets (source : poolPolicySource) (pod : Pod) (decisionTime : Time) (targets : gmap string Z)
    (models : list RuntimeSnapshotModel) : Run W (nat * nat) :=
  match models with
  | [] => mret (0, 0)%nat
  | model :: rest =>
      match targets !! model.(sm_ModelName) with
      | None => writeTargets source pod decisionTime targets rest
      | Some target =>
          if target =? model.(sm_KVCapacityBytes) then writeTargets source pod decisionTime targets rest
          else
            answer ← call (SetKVLimit pod.(pod_IP) (MkSetKVLimit model.(sm_ModelName) target
                             (policyOperation source pod model target decisionTime)));
            '(applied, failed) ← writeTargets source pod decisionTime targets rest;
            mret (match answer with
                  | Err _ => (applied, S failed)
                  | Ok true => (S applied, failed)
                  | Ok false => (applied, failed)
                  end)
      end
  end.

(** [activities] is [None] when some engine could not be observed. *)
Definition reconcilePoolKVPolicy (s : passState) (source : poolPolicySource) (pod : Pod) (snapshot : RuntimeSnapshot)
    (activities : option (gmap string poolRequestActivity)) (decisionTime : Time) : Run W passState :=
  match source.(src_policy).(pol_Reclaim) with
  | None => mret s
  | Some reclaim =>
      if negb (length snapshot.(snap_Accelerators) =? 1)%nat then mret s
      else
        listed ← call (ListClaims pod.(pod_Namespace));
        if claimHoldsAKVLimitOn (match listed with Ok claims => Some claims | Err _ => None end) pod then mret s
        else
          match activities with
          | None => mret s
          | Some activities =>
              match computePoolKVTargets reclaim.(pol_CapacityBytes) reclaim.(pol_GuaranteedFloorPercent)
                      (modelsForKVPolicy snapshot activities) with
              | Err _ => mret s
              | Ok targets =>
                  '(applied, failed) ← writeTargets source pod decisionTime (default ∅ targets) snapshot.(snap_Models);
                  mret (if (0 <? applied)%nat || (0 <? failed)%nat then forgetReading s pod.(pod_Name) else s)
              end
          end
  end.

(** ** Idle engines. *)

Definition sleepOperation (source : poolPolicySource) (pod : Pod) (model : RuntimeSnapshotModel) (idleSince : Time) : string :=
  slashes ["pool-policy-sleep"; concat [source.(src_key).(nn_Namespace); "/"; source.(src_key).(nn_Name)]; pod.(pod_UID);
           snapshotActivityKey model; pretty idleSince].

(** A listed engine that may be idle, with its claim, and since when. *)
Definition idleCandidate (claims : list ModelClaim) (activities : gmap string poolRequestActivity) (model : RuntimeSnapshotModel)
  : option (ModelClaim * Time) :=
  if negb (servesNow model) then None
  else
    activity ← activities !! snapshotActivityKey model;
    if negb activity.(act_Initialized) || activity.(act_Active) then None
    else
      claim ← claimForRuntimeSnapshot claims model;
      if negb (isVLLMModel claim) then None
      else
        let idleSince := idleSinceOf activity.(act_LastActive) model claim in
        if idleSince =? zeroTime then None else Some (claim, idleSince).

Fixpoint sleepIdle (s : passState) (source : poolPolicySource) (idleAfter : Duration) (claims : list ModelClaim)
    (activities : gmap string poolRequestActivity) (pod : Pod) (models : list RuntimeSnapshotModel) : Run W (passState * Pod) :=
  match models with
  | [] => mret (s, pod)
  | model :: rest =>
      match idleCandidate claims activities model with
      | None => sleepIdle s source idleAfter claims activities pod rest
      | Some (claim, idleSince) =>
          now ← call Now;
          if timeSub now idleSince <? idleAfter then sleepIdle s source idleAfter claims activities pod rest
          else
            match activeClaimInstancePort claim pod.(pod_Name) with
            | None => sleepIdle s source idleAfter claims activities pod rest
            | Some port =>
                '(s, pod, slept) ← putEngineToSleep s claim pod port model.(sm_ModelName) (sleepOperation source pod model idleSince);
                match slept with
                | Err _ => sleepIdle s source idleAfter claims activities pod rest
                | Ok _ =>
                    '(s, _) ← sleptEngine s pod claim;
                    sleepIdle s source idleAfter claims activities pod rest
                end
            end
      end
  end.

Definition reconcilePoolIdleSleep (s : passState) (source : poolPolicySource) (lifecycle : poolLifecyclePolicy) (pod : Pod)
    (snapshot : RuntimeSnapshot) (activities : gmap string poolRequestActivity) : Run W passState :=
  listed ← call (ListCachedClaims pod.(pod_Namespace));
  match listed with
  | Err _ => mret s
  | Ok claims =>
      '(s, _) ← sleepIdle s source (durationOfSeconds lifecycle.(pol_SleepAfterSeconds)) claims activities pod snapshot.(snap_Models);
      mret s
  end.

(** ** A tick. *)

Definition reconcilePoolPod (s : passState) (source : poolPolicySource) (pod : Pod) : Run W passState :=
  '(s, reply) ← readPod s pod;
  match reply with
  | Ok (Some snapshot) =>
      decisionTime ← (if snapshot.(snap_ObservedAt) =? zeroTime then call Now else mret snapshot.(snap_ObservedAt));
      times ← readClock (length snapshot.(snap_Models));
      let '(manager, activities) :=
        observeSnapshot s.(ps_manager) pod snapshot (fun i => default zeroTime (times !! i)) in
      s ← reconcilePoolKVPolicy (setManager s manager) source pod snapshot activities decisionTime;
      match source.(src_policy).(pol_Lifecycle), activities with
      | Some lifecycle, Some activities =>
          if 0 <? lifecycle.(pol_SleepAfterSeconds) then reconcilePoolIdleSleep s source lifecycle pod snapshot activities else mret s
      | _, _ => mret s
      end
  | _ => mret s
  end.

Fixpoint reconcilePoolPods (s : passState) (source : poolPolicySource) (pods : list Pod) : Run W passState :=
  match pods with
  | [] => mret s
  | pod :: rest => s ← reconcilePoolPod s source pod; reconcilePoolPods s source rest
  end.

Definition reconcilePoolPolicy (s : passState) (source : poolPolicySource) : Run W (passState * option apiError) :=
  match source.(src_policy).(pol_Reclaim), source.(src_policy).(pol_Lifecycle) with
  | None, None => mret (s, None)
  | _, _ =>
      pods ← poolPolicyPods source.(src_deployment);
      match pods with
      | Err e => mret (s, Some e)
      | Ok pods =>
          rr ← readUnread s.(ps_readings) pods;
          s ← reconcilePoolPods (setReadings s rr) source pods;
          mret (s, None)
      end
  end.

(** The Events raised on the Deployments, in order. *)
Fixpoint poolPoliciesLoop (s : passState) (seen : gset NamespacedName) (candidates : list Pod)
  : Run W (passState * list (NamespacedName * policyEvent)) :=
  match candidates with
  | [] => mret (s, [])
  | pod :: rest =>
      got ← poolDeploymentForPod pod;
      match got with
      | Ok (Some deployment) =>
          let key := MkNN deployment.(dep_Namespace) deployment.(dep_Name) in
          if bool_decide (key ∈ seen) then poolPoliciesLoop s seen rest
          else
            let '(manager, event, policy) := resolvePoolPolicy s.(ps_manager) deployment in
            let s := setManager s manager in
            s ← match policy with
                | None => mret s
                | Some policy =>
                    now ← call Now;
                    let '(manager, due) := begin s.(ps_manager) key now in
                    let s := setManager s manager in
                    if due : bool then '(s, _) ← reconcilePoolPolicy s (MkSource key deployment policy); mret s else mret s
                end;
            '(s, events) ← poolPoliciesLoop s ({[key]} ∪ seen) rest;
            mret (s, match event with Some e => (key, e) :: events | None => events end)
      | _ => poolPoliciesLoop s seen rest
      end
  end.

Definition reconcilePoolPolicies (s : passState) (candidates : list Pod) : Run W (passState * list (NamespacedName * policyEvent)) :=
  poolPoliciesLoop s ∅ candidates.
End Tick.

(** ** What a tick may write. *)

(** The listing changes no limit. *)
Class LimitLaws `{ClusterLaws W} `{!ClusterReads} := {
  ListClaims_limitsKept namespace w : limitsKept w (ListClaims namespace w).1;
}.

Section LimitFacts.
Context `{HL : ClusterLaws W} {HR : ClusterReads} {HA : PodApi} {HP : PoolPods} {HM : LimitLaws}.

(** The limits of one pod become what [G] allows. *)
Definition limitsTo (ip : string) (G : string → Z → Prop) (w w' : W) : Prop :=
  ∀ ip' m, limitOf w' ip' m = limitOf w ip' m ∨ (ip' = ip ∧ ∃ t, G m t ∧ limitOf w' ip' m = Some t).

#[local] Instance limitsTo_preorder ip G : PreOrder (limitsTo ip G).
Proof.
  split; [by left|]. intros w w1 w2 Ha Hb ip' m. destruct (Hb ip' m) as [E|?]; [|by right]. rewrite E. apply Ha.
Qed.

Lemma kept_limitsTo ip G w w' : limitsKept w w' → limitsTo ip G w w'.
Proof. intros Hk ip' m. left. apply Hk. Qed.

Lemma writeTargets_within source pod decisionTime targets models (G : string → Z → Prop) :
  (∀ m t, targets !! m = Some t → G m t) →
  within (limitsTo (pod_IP pod) G) (writeTargets source pod decisionTime targets models).
Proof.
  intros HG. induction models as [|model rest IH]; simpl; [apply (within_ret _)|].
  destruct (targets !! sm_ModelName model) as [t|] eqn:Et; [|exact IH]. destruct (t =? _); [exact IH|].
  apply (within_bind _).
  - apply (within_call _). intros w ip' m. destruct (SetKVLimit_law (pod_IP pod)
      (MkSetKVLimit (sm_ModelName model) t (policyOperation source pod model t decisionTime)) w) as (_ & _ & Hl).
    destruct (Hl ip' m) as [?|(-> & -> & _ & Hset)]; [by left|right]. cbn in Hset |- *. eauto.
  - intros answer. apply (within_bind _); [exact IH|]. intros [applied failed]. apply (within_ret _).
Qed.

(** That [t] is the target planned for a model, from the claims listed at [w]. *)
Definition targetAt (source : poolPolicySource) (pod : Pod) (snapshot : RuntimeSnapshot)
    (activities : option (gmap string poolRequestActivity)) (w : W) (model : string) (t : Z) : Prop :=
  ∃ reclaim claims observed targets,
    pol_Reclaim (src_policy source) = Some reclaim ∧ length (snap_Accelerators snapshot) = 1%nat ∧
    (ListClaims (pod_Namespace pod) w).2 = Ok claims ∧ claimHoldsAKVLimitOn (Some claims) pod = false ∧
    activities = Some observed ∧
    computePoolKVTargets (pol_CapacityBytes reclaim) (pol_GuaranteedFloorPercent reclaim) (modelsForKVPolicy snapshot observed) =
      Ok (Some targets) ∧
    targets !! model = Some t.

Lemma reconcilePoolKVPolicy_runs s source pod snapshot activities decisionTime w :
  runs (reconcilePoolKVPolicy s source pod snapshot activities decisionTime) w (fun t _ w' =>
    Forall (limitsTo (pod_IP pod) (targetAt source pod snapshot activities w) w) (w' :: t)).
Proof.
  set (G := targetAt source pod snapshot activities w). unfold reconcilePoolKVPolicy.
  assert (∀ a : passState, runs (mret a) w (fun t _ w' => Forall (limitsTo (pod_IP pod) G w) (w' :: t))) as Hret
    by (intros a; apply runs_ret, Forall_singleton; reflexivity).
  destruct (pol_Reclaim (src_policy source)) as [reclaim|] eqn:Er; [|apply Hret].
  destruct (length (snap_Accelerators snapshot) =? 1)%nat eqn:Ea; cbn [negb]; [|apply Hret]. apply Nat.eqb_eq in Ea.
  apply runs_bind, runs_call. pose proof (kept_limitsTo (pod_IP pod) G _ _ (ListClaims_limitsKept (pod_Namespace pod) w)) as Hk.
  destruct (ListClaims (pod_Namespace pod) w) as [w1 listed] eqn:El. cbn [fst snd] in *.
  assert (∀ a : passState, runs (mret a) w1 (fun t _ w' => Forall (limitsTo (pod_IP pod) G w) (w' :: [w1] ++ t))) as Hret1
    by (intros a; apply runs_ret; apply Forall_cons; split; [exact Hk|]; by apply Forall_singleton).
  destruct listed as [claims|]; [|apply Hret1]. destruct (claimHoldsAKVLimitOn _ pod) eqn:Ec; [apply Hret1|].
  destruct activities as [observed|]; [|apply Hret1].
  destruct (computePoolKVTargets _ _ _) as [targets|] eqn:Et; [|apply Hret1]. apply runs_bind.
  eapply runs_mono; [apply (writeTargets_within source pod decisionTime (default ∅ targets) (snap_Models snapshot) G)|].
  - intros m t Ht. destruct targets as [targets|]; [|done]. exists reclaim, claims, observed, targets. by rewrite El.
  - intros t [applied failed] w2 (Ht & Hw2 & _). apply runs_ret. rewrite app_nil_r. apply Forall_cons. split; [by etrans|].
    apply Forall_cons. split; [exact Hk|]. eapply Forall_impl; [exact Ht|]. intros x Hx. by etrans.
Qed.

(** The reclaim policy of a pool stands down where a claim holds the limits,
    and writes only what is planned.  At every moment of its turn on a pod a
    limit is what it was, or is the target planned for a model of that pod; and
    then the plan was made for the policy's capacity, on a single card, from a
    complete reading, and the claims, as the API server listed them, had no
    limit recorded there.  When they could not be listed nothing is written. *)
Theorem pool_limits_yield_to_claims s source pod snapshot activities decisionTime w x :
  let m := reconcilePoolKVPolicy s source pod snapshot activities decisionTime in
  x ∈ final m w :: visited m w →
  ∀ ip model, limitOf x ip model = limitOf w ip model ∨
    (ip = pod_IP pod ∧ ∃ t, targetAt source pod snapshot activities w model t ∧ limitOf x ip model = Some t).
Proof.
  intros m Hx. pose proof (reconcilePoolKVPolicy_runs s source pod snapshot activities decisionTime w) as Hr.
  unfold runs in Hr. rewrite Forall_forall in Hr. by apply Hr.
Qed.
End LimitFacts.

(** ** Whom a tick may put to sleep. *)

Section IdleFacts.
Context `{HL : ReadLaws W} {HPP : PoolPods}.
#[local] Existing Instance sleepsOnly_preorder.

(** An engine that was read to serve nothing, and that the clock, read in the
    tick, showed to be idle for long enough. *)
Definition idleLong (idleAfter : Duration) (claims : list ModelClaim) (activities : gmap string poolRequestActivity)
    (models : list RuntimeSnapshotModel) (T : W → Prop) (model : string) : Prop :=
  ∃ m claim since x, m ∈ models ∧ sm_ModelName m = model ∧ idleCandidate claims activities m = Some (claim, since) ∧
    T x ∧ idleAfter ≤ timeSub (Now x).2 since.

Section OnPod.
Context (ip0 : string) (idleAfter : Duration) (claims : list ModelClaim) (activities : gmap string poolRequestActivity)
        (models : list RuntimeSnapshotModel).

(** Of all engines, those fall asleep that were idle for long. *)
Definition sleepsIdle (T : W → Prop) (w w' : W) : Prop :=
  ∀ ip m, asleepAt w' ip m = asleepAt w ip m ∨ (ip = ip0 ∧ idleLong idleAfter claims activities models T m).

#[local] Instance sleepsIdle_preorder T : PreOrder (sleepsIdle T).
Proof.
  split; [by left|]. intros w w1 w2 Ha Hb ip m. destruct (Ha ip m) as [Ha'|]; [|by right].
  destruct (Hb ip m) as [Hb'|]; [|by right]. left. congruence.
Qed.

Lemma none_sleepsIdle T w w' : sleepsOnly None w w' → sleepsIdle T w w'.
Proof. intros Hn ip m. by destruct (Hn ip m) as [?|?]; [left|]. Qed.

Lemma putEngineToSleep_ip s claim pod port modelName op :
  yields (putEngineToSleep s claim pod port modelName op) (fun r => pod_IP r.1.2 = pod_IP pod).
Proof.
  unfold putEngineToSleep. eapply yields_bind; [apply annotate_ip|]. intros [pod1 taken] Hip. cbn [fst] in Hip.
  destruct taken; [|by apply yields_ret]. apply (yields_bind _ _ (fun _ => True)); [done|]. intros [s1 quiet] _.
  assert (yields (annotateWarmPodWithState claim pod1 port ModelClaimRoutingStateActive "") (fun r => pod_IP r.1 = pod_IP pod)) as Hback
    by (eapply yields_mono; [apply annotate_ip|]; intros r Hr; congruence).
  destruct quiet; [|eapply yields_bind; [exact Hback|]; intros [pod2 b] Hp; by apply yields_ret].
  apply (yields_bind _ _ (fun _ => True)); [done|]. intros answer _.
  destruct answer; [|eapply yields_bind; [exact Hback|]; intros [pod2 b] Hp; by apply yields_ret].
  apply (yields_bind _ _ (fun _ => True)); [done|]. intros marked _. by apply yields_ret.
Qed.

Lemma sleepIdle_tracked s source pod rest w :
  pod_IP pod = ip0 → (∀ m, m ∈ rest → m ∈ models) →
  trackedBy sleepsIdle (sleepIdle s source idleAfter claims activities pod rest) w (fun _ => True) (fun _ _ => True).
Proof.
  revert s pod w. induction rest as [|model rest IH]; intros s pod w Hip Hall; simpl; [by apply tracked_ret|].
  assert (∀ s' pod' w', pod_IP pod' = ip0 →
    trackedBy sleepsIdle (sleepIdle s' source idleAfter claims activities pod' rest) w' (fun _ => True) (fun _ _ => True)) as Hrest
    by (intros; apply IH; [done|]; intros m Hm; apply Hall; by right).
  destruct (idleCandidate claims activities model) as [[claim since]|] eqn:Ei; [|by apply Hrest].
  apply (tracked_bind _ _ _ _ (fun T now => ∃ x, T x ∧ now = (Now x).2)).
  { apply tracked_call. intros T _ Hw. split; [apply none_sleepsIdle, Now_sleeps|by exists w]. }
  intros now w1. destruct (Z.ltb_spec (timeSub now since) idleAfter) as [Hlt|Hlong].
  { eapply tracked_conseq; [by apply Hrest|done|done]. }
  destruct (activeClaimInstancePort claim (pod_Name pod)) as [port|]; [|eapply tracked_conseq; [by apply Hrest|done|done]].
  apply (tracked_bind _ _ _ _ (fun T r => pod_IP r.1.2 = pod_IP pod ∧ ∃ x, T x ∧ now = (Now x).2)).
  { apply tracked_value; [apply putEngineToSleep_ip|]. eapply tracked_within; [apply putEngineToSleep_sleeps|].
    intros T x (y & Hy & ->) _ Hx ip m. destruct (Hx ip m) as [?|[= <- <-]]; [by left|right]. split; [done|].
    exists model, claim, since, y. split_and!; [apply Hall; by left|done..]. }
  intros [[s1 pod1] slept] w2. cbn [fst snd]. destruct slept.
  - apply (tracked_bind _ _ _ _ (fun T _ => pod_IP pod1 = pod_IP pod)).
    { eapply tracked_conseq; [apply (tracked_within (sleepsOnly None)) with (P := fun _ => pod_IP pod1 = pod_IP pod)| |].
      - unfold sleptEngine. apply (within_bind _); [apply (readPod_in _)|]. intros [s2 reply]. apply (within_ret _).
      - intros T x _ _. apply none_sleepsIdle.
      - by intros T [? _].
      - done. }
    intros [s2 b] w3. unfold trackedBy, runs. intros T Hp. by apply (Hrest s2 pod1 w3 ltac:(congruence) T).
  - unfold trackedBy, runs. intros T [Hp _]. by apply (Hrest s1 pod1 w2 ltac:(congruence) T).
Qed.
End OnPod.

#[local] Existing Instance sleepsIdle_preorder.

Lemma reconcilePoolIdleSleep_runs s source lifecycle pod snapshot activities w :
  runs (reconcilePoolIdleSleep s source lifecycle pod snapshot activities) w (fun t _ _ => ∀ T : W → Prop, T w → Forall T t →
    ∀ x, x ∈ t → ∀ ip model, asleepAt x ip model = asleepAt w ip model ∨
      (ip = pod_IP pod ∧ ∃ claims, (ListCachedClaims (pod_Namespace pod) w).2 = Ok claims ∧
         idleLong (durationOfSeconds (pol_SleepAfterSeconds lifecycle)) claims activities (snap_Models snapshot) T model)).
Proof.
  unfold reconcilePoolIdleSleep. apply runs_bind, runs_call. pose proof (ListCachedClaims_sleeps None (pod_Namespace pod) w) as Hl.
  destruct (ListCachedClaims (pod_Namespace pod) w) as [w1 listed]. cbn [fst snd] in *.
  assert (∀ ip model, asleepAt w1 ip model = asleepAt w ip model) as Hsame by (intros ip m; by destruct (Hl ip m)).
  destruct listed as [claims|].
  2: { apply runs_ret. intros T _ _ x Hx ip m. apply list_elem_of_singleton in Hx as ->. left. apply Hsame. }
  apply runs_bind. eapply runs_mono; [apply (sleepIdle_tracked (pod_IP pod) (durationOfSeconds (pol_SleepAfterSeconds lifecycle))
    claims activities (snap_Models snapshot) s source pod (snap_Models snapshot) w1); done|].
  intros t [s' pod'] w2 Ht. apply runs_ret. rewrite app_nil_r. intros T Hw [Hw1 HT]%Forall_cons x Hx ip m.
  destruct (Ht T I Hw1 HT) as (_ & [_ Hall]%Forall_cons & _). rewrite Forall_forall in Hall.
  apply elem_of_cons in Hx as [->|Hx]; [left; apply Hsame|]. rewrite <-Hsame. destruct (Hall x Hx ip m) as [?|[-> ?]]; [by left|right]. eauto.
Qed.

End IdleFacts.

(** ** A pool, for the witnesses. *)

Section TickWitness.
Local Existing Instance NanoK8s.
Local Existing Instance podCluster.
Local Existing Instance podReads.
Local Existing Instance podApi.
Local Existing Instance podLaws.
Local Existing Instance roomReadLaws.
Local Existing Instance podClusterLaws.

Definition podPool : PoolPods (W := podWorld) := {| ListSelectedPods deployment w := (w, Ok [exOwned]) |}.
Local Existing Instance podPool.

Definition podLimits : LimitLaws (W := podWorld).
Proof. by split. Defined.
Local Existing Instance podLimits.

Definition exSource : poolPolicySource :=
  MkSource (MkNN "ns" "pool") (MkDeployment "ns" "pool" "{}" (Ok (MkPolicy None (Some exLifecycle))))
    (MkPolicy (Some (MkReclaim "" (12 * exGiB) 10)) (Some exLifecycle)).
Definition exObserved : gmap string poolRequestActivity := {["kvc_alpha" := MkActivity false 0 0 (50 * Second) true]}.
Definition exIdleSleep : Run podWorld passState :=
  reconcilePoolIdleSleep exPass exSource exLifecycle exOwned (MkSnapshot 1000 [] [exIdleModel "alpha"] []) exObserved.


(** The engine of [alpha] serves on a pod where no claim records a limit. *)
Definition exFree : Pod := MkPod "ns" "pod-c" "pod-uid" ∅ ∅ "node-1" "10.0.0.1" [] [] None "Running" None.
Definition exServing : gmap string poolRequestActivity := {["kvc_alpha" := MkActivity true 1 0 (50 * Second) true]}.
Definition exReclaim : Run podWorld passState :=
  reconcilePoolKVPolicy exPass exSource exFree (MkSnapshot 1000 [MkAccelerator 0 0 0] [exIdleModel "alpha"] []) (Some exServing) 1000.

Lemma pool_limits_yield_to_claims_witness :
  limitOf (final exReclaim exRoomWorld) "10.0.0.1" "alpha" = Some (12 * exGiB) ∧
  ∃ t, targetAt exSource exFree (MkSnapshot 1000 [MkAccelerator 0 0 0] [exIdleModel "alpha"] []) (Some exServing) exRoomWorld "alpha" t ∧
    t = 12 * exGiB.
Proof.
  assert (limitOf (final exReclaim exRoomWorld) "10.0.0.1" "alpha" = Some (12 * exGiB)) as Ha by (vm_compute; reflexivity).
  split; [exact Ha|]. assert (limitOf exRoomWorld "10.0.0.1" "alpha" = Some (8 * exGiB)) as Hb by (vm_compute; reflexivity).
  destruct (pool_limits_yield_to_claims exPass exSource exFree (MkSnapshot 1000 [MkAccelerator 0 0 0] [exIdleModel "alpha"] [])
    (Some exServing) 1000 exRoomWorld (final exReclaim exRoomWorld) (list_elem_of_here _ _) "10.0.0.1" "alpha") as [Hs|(_ & t & Ht & Hx)].
  - rewrite Ha, Hb in Hs. vm_compute in Hs. discriminate Hs.
  - exists t. split; [exact Ht|]. rewrite Ha in Hx. injection Hx as <-. reflexivity.
Defined.
End TickWitness.
