(* ===== verification/Engines.v ===== *)
(** * Starting and stopping engines
    ([pkg/controller/modelclaim/modelclaim_controller.go]).

    [EngineApi] is what the reconciler calls besides [PodApi]: the runtime starts
    and stops an engine, and the API server lists the pods, reads a claim from
    the cache, updates it and takes annotations off a pod by their names.  Here
    are the operations that the health check, placement and deletion share. *)

From S2P Require Import Prelude Api Claims Ledger KVPlan Placement Reservations Backoff Runtime ArrangeCard PoolPolicy Division MakeRoom Rfc3339 WakeTurn SleepEngine WakeHandler.

Section EngineRequests.
Context `{K8s}.

Record ActivateRequest : Type := MkActivate {
  act_ModelName : string;
  act_ArtifactURL : string;
  act_Engine : string;
  act_IPCName : string;
  act_EngineConfig : gmap string string;
  act_ClaimRef : ModelClaimRef;
}.

Inductive DeactivateMode : Type := DeactivateStop.
Record DeactivateRequest : Type := MkDeactivate {
  dea_ModelName : string;
  dea_Mode : DeactivateMode;
}.

(** What the runtime is asked to start for a claim. *)
Definition activateRequest (pm : ModelClaim) : ActivateRequest :=
  MkActivate (servedModelName pm) pm.(spec_ArtifactURL) pm.(spec_Engine) (ipcNameFor pm) pm.(spec_EngineArgs)
    (MkClaimRef pm.(mc_Namespace) pm.(mc_Name) pm.(mc_UID)).

Definition stopRequest (pm : ModelClaim) : DeactivateRequest := MkDeactivate (servedModelName pm) DeactivateStop.

End EngineRequests.

Abbreviation PodRunning := "Running" (only parsing).

(** [errors.Is] of the error of a runtime that is left alone for now. *)
Definition isRuntimeSilent (err : callError) : bool :=
  existsb (fun e => match e with errRuntimeSilent => true | _ => false end) err.

Class EngineApi `{PodApi W} := {
  (** The port of the engine, which is started once and then found running. *)
  Activate : string → ActivateRequest → W → W * result callError Z;
  Deactivate : string → DeactivateRequest → W → W * result callError unit;
  (** A merge patch that takes annotations off a pod by their names. *)
  RemoveAnnotations : NamespacedName → gset string → W → W * result apiError unit;
  GetCachedClaim : NamespacedName → W → W * result apiError ModelClaim;
  (** An update of the claim itself, its finalizers included. *)
  UpdateClaim : ModelClaim → W → W * result apiError ModelClaim;
  (** The pods of a namespace that a selector matches, from the cache. *)
  ListPods : string → LabelSelector → W → W * result apiError (list Pod);
}.

(** ** Events. *)

(** What is said of a claim, to its users. *)
Inductive claimEvent : Type :=
| EventEngineFailed (pod message : string)
| EventActivated (pod : string) (port : Z)
| EventWoken (pod : string) (port : Z)
| EventSleeping (pod : string) (footprint : option Z)
| EventSleepingFootprintUnknown (pod : string)
| EventKVLimitNotHeld (pod : string) (limit : Z)
| EventUnhealthy (pod : string)
| EventKVLimitWritten (pod : string) (limit over : Z)
| EventKVLimitSet (pod : string) (limit from : Z)
| EventKVLimitNotTaken (pod : string) (limit reported : Z)
| EventKVLimitNotWritten (pod : string) (limit : Z)
| EventCardNotDivided (pod : string) (why : makeRoomError)
| EventStartFailed (pod : string) (why : callError)
| EventStartedAgain (pod : string) (port : Z)
| EventActivating (pod : string) (port : Z)
| EventRescheduled (reason from to_ : string)
| EventScheduled (reason : string)
| EventDrainTimedOut (pod : string) (requests : Z)
| EventActivateFailed
| EventRescheduleFailed
| EventInvalidEngineConfig.

Section Engines.
Context `{EngineApi W}.

(** The IP of a pod whose runtime can be called, or none. *)
Definition podIP (namespace name : string) : Run W string :=
  got ← call (GetPod (MkNN namespace name));
  mret (match got with
        | Err _ => ""
        | Ok pod =>
            if negb (bool_decide (pod.(pod_Phase) = PodRunning)) || bool_decide (is_Some pod.(pod_DeletionTimestamp))
            then "" else pod.(pod_IP)
        end).

Definition deannotateWarmPod (namespace podName pmName : string) : Run W unit :=
  got ← call (GetPod (MkNN namespace podName));
  match got with
  | Err _ => mret ()
  | Ok pod =>
      let key := routeKey pmName in
      let wakeKey := wakeKey pmName in
      if negb (bool_decide (is_Some (pod.(pod_Annotations) !! key))) &&
         negb (bool_decide (is_Some (pod.(pod_Annotations) !! wakeKey))) then mret ()
      else
        _ ← call (RemoveAnnotations (MkNN pod.(pod_Namespace) pod.(pod_Name)) {[key; wakeKey]});
        mret ()
  end.

Definition annotateWarmPod (pm : ModelClaim) (pod : Pod) (port : Z) : Run W (Pod * result apiError unit) :=
  annotateWarmPodWithState pm pod port
    (if port =? 0 then ModelClaimRoutingStateActivating else ModelClaimRoutingStateActive) "".

(** Takes a claim's route on a pod back, and stops its engine there. *)
Definition stopEngineOn (pm : ModelClaim) (podName : string) (readings : runtimeReadings) : Run W runtimeReadings :=
  _ ← deannotateWarmPod pm.(mc_Namespace) podName pm.(mc_Name);
  ip ← podIP pm.(mc_Namespace) podName;
  if bool_decide (ip = "") then mret readings
  else
    _ ← call (Deactivate ip (stopRequest pm));
    mret (forget readings podName).

Definition stopFailedEngine (pm : ModelClaim) (podName : string) (readings : runtimeReadings) : Run W runtimeReadings :=
  stopEngineOn pm podName readings.
End Engines.
