(* ===== verification/InstanceHealth.v ===== *)
(** * The health check ([reconcileInstanceHealth] of
    [pkg/controller/modelclaim/modelclaim_controller.go]).

    A pass reads the runtime of each of a claim's instances and moves the
    instance to the phase its engine is in: an engine is routed once it is ready,
    has a port and is held to the KV limit its instance records, and loses its
    route when it is held to more.  A limit that is not in force is written, an
    engine that is missing is started again, and an instance whose start is known
    not to have happened is dropped.

    [limitWarningClock] paces what is said of a limit that does not take. *)

From S2P Require Import Prelude Api Claims Ledger KVPlan Placement Reservations Backoff Runtime ArrangeCard PoolPolicy Division MakeRoom Rfc3339 WakeTurn SleepEngine WakeHandler Engines.

(** ** The pace of the warnings. *)

Definition limitWarningEvery : Duration := 5 * Minute.
Abbreviation limitWarningClock := (gmap string Time) (only parsing).

Definition warningDue (warned : limitWarningClock) (engine : string) (now : Time) : limitWarningClock * bool :=
  let warned := filter (fun known => negb (limitWarningEvery <=? timeSub now known.2) = true) warned in
  match warned !! engine with
  | Some _ => (warned, false)
  | None => (<[engine := now]> warned, true)
  end.

Definition forgetWarning (warned : limitWarningClock) (engine : string) : limitWarningClock := delete engine warned.

(** ** What one reading says of an engine. *)

Definition ActivatingRequeueDuration : Duration := 2 * Second.
Definition ActivatingRequeueWindow : Duration := 5 * Minute.

Section Judgement.
Context `{K8s}.

Definition limitWarningKey (pm : ModelClaim) (inst : ModelClaimInstance) : string :=
  slashes [pm.(mc_Namespace); pm.(mc_Name); inst.(inst_Pod)].

Definition kvLimitInForce (inst : ModelClaimInstance) (observed : option RuntimeSnapshotModel) : bool :=
  if inst.(inst_KVLimitBytes) <=? 0 then true
  else match observed with
       | None => false
       | Some model => model.(sm_KVCapacityBytes) =? clampKVLimit inst.(inst_KVLimitBytes) model.(sm_KVInitialCapacityBytes)
       end.

Definition kvLimitWithinRecord (inst : ModelClaimInstance) (observed : option RuntimeSnapshotModel) : bool :=
  if inst.(inst_KVLimitBytes) <=? 0 then true
  else match observed with
       | None => false
       | Some model =>
           (0 <=? model.(sm_KVCapacityBytes)) &&
           (model.(sm_KVCapacityBytes) <=? clampKVLimit inst.(inst_KVLimitBytes) model.(sm_KVInitialCapacityBytes))
       end.

Definition observedIn (observed : option RuntimeSnapshotModel) (phase : string) : bool :=
  match observed with Some model => bool_decide (model.(sm_Phase) = phase) | None => false end.

Definition desiredInstanceState (inst : ModelClaimInstance) (observed : option RuntimeSnapshotModel) (observedPort : Z)
    (serving limitInForce limitWithinRecord : bool) : ModelClaimPhase * Z :=
  if bool_decide (inst.(inst_Phase) = ModelClaimFailed) then (ModelClaimFailed, 0)
  else if observedIn observed runtimePhaseFailed then (ModelClaimFailed, 0)
  else if observedIn observed runtimePhaseSleeping then (ModelClaimSleeping, 0)
  else if serving && limitInForce then (ModelClaimActive, observedPort)
  else if serving && bool_decide (inst.(inst_Phase) = ModelClaimActive) && limitWithinRecord then (ModelClaimActive, observedPort)
  else (ModelClaimActivating, 0).

Definition routingStateForPhase (phase : ModelClaimPhase) : string :=
  match phase with
  | ModelClaimActive => ModelClaimRoutingStateActive
  | ModelClaimSleeping => ModelClaimRoutingStateSleeping
  | ModelClaimFailed => ModelClaimRoutingStateFailed
  | _ => ModelClaimRoutingStateActivating
  end.

Definition engineBooting (snapshot : option RuntimeSnapshot) (observed : option RuntimeSnapshotModel) : bool :=
  match snapshot, observed with
  | Some snapshot, Some observed =>
      match observed.(sm_LastTransition) with
      | None => false
      | Some since =>
          if negb observed.(sm_Alive) || observed.(sm_Ready) || bool_decide (snapshot.(snap_ObservedAt) = zeroTime) then false
          else if bool_decide (observed.(sm_Phase) = runtimePhaseStopping) && negb (bool_decide (observed.(sm_LastError) = ""))
          then false
          else
            let age := timeSub snapshot.(snap_ObservedAt) since in
            (0 <=? age) && (age <? ActivatingRequeueWindow)
      end
  | _, _ => false
  end.

Definition engineMissing (inst : ModelClaimInstance) (snapshot : option RuntimeSnapshot)
    (observed : option RuntimeSnapshotModel) : bool :=
  bool_decide (inst.(inst_Phase) = ModelClaimActivating) && bool_decide (is_Some snapshot) && bool_decide (observed = None).

Record engineState : Type := MkEngineState {
  es_observedPort : Z;
  es_serving : bool;
  es_limitInForce : bool;
  es_limitWithinRecord : bool;
  es_phase : ModelClaimPhase;
  es_routingPort : Z;
  es_booting : bool;
}.

Definition setKVLimit (inst : ModelClaimInstance) (bytes : Z) : ModelClaimInstance :=
  MkInstance inst.(inst_Pod) inst.(inst_Port) inst.(inst_Phase) bytes inst.(inst_Reason).
Definition setPort (inst : ModelClaimInstance) (port : Z) : ModelClaimInstance :=
  MkInstance inst.(inst_Pod) port inst.(inst_Phase) inst.(inst_KVLimitBytes) inst.(inst_Reason).

(** A record above what the engine could ever map is lowered to that, once the
    engine is seen to fit. *)
Definition lowerRecord (inst : ModelClaimInstance) (observed : option RuntimeSnapshotModel) : ModelClaimInstance :=
  match observed with
  | None => inst
  | Some model =>
      let target := clampKVLimit inst.(inst_KVLimitBytes) model.(sm_KVInitialCapacityBytes) in
      if (0 <? target) && (target <? inst.(inst_KVLimitBytes)) && (0 <=? model.(sm_KVCapacityBytes)) &&
         (model.(sm_KVCapacityBytes) <=? target) && (model.(sm_KVUsedBytes) <=? target)
      then setKVLimit inst target else inst
  end.

(** Phases the health check looks at. *)
Definition checkedPhase (phase : ModelClaimPhase) : bool :=
  match phase with
  | ModelClaimActivating | ModelClaimActive | ModelClaimSleeping | ModelClaimFailed => true
  | _ => false
  end.

(** The Event of an instance that has just changed phase. *)
Definition announcePhase (inst : ModelClaimInstance) (previousPhase : ModelClaimPhase)
    (observed : option RuntimeSnapshotModel) (serving : bool) : list claimEvent :=
  match inst.(inst_Phase) with
  | ModelClaimFailed =>
      [EventEngineFailed inst.(inst_Pod)
         (match observed with
          | Some model => if bool_decide (model.(sm_LastError) = "") then "runtime reported terminal engine failure"
                          else model.(sm_LastError)
          | None => "runtime reported terminal engine failure"
          end)]
  | ModelClaimActive =>
      if bool_decide (previousPhase = ModelClaimActivating) then [EventActivated inst.(inst_Pod) inst.(inst_Port)]
      else [EventWoken inst.(inst_Pod) inst.(inst_Port)]
  | ModelClaimSleeping => [EventSleeping inst.(inst_Pod) (observed ≫= sleepingFootprintOf)]
  | ModelClaimActivating =>
      if bool_decide (previousPhase = ModelClaimActive) && serving then
        [EventKVLimitNotHeld inst.(inst_Pod)
           (clampKVLimit inst.(inst_KVLimitBytes) (observed ≫= sm_KVInitialCapacityBytes))]
      else if serving then []
      else if negb (bool_decide (previousPhase = ModelClaimActivating)) then [EventUnhealthy inst.(inst_Pod)]
      else []
  | _ => []
  end.
End Judgement.

(** ** The pass. *)

Section HealthRecords.
Context `{K8s}.

(** What a pass of the health check works with. *)
Record healthState : Type := MkHealth {
  hs_pass : passState;
  hs_warned : limitWarningClock;
  hs_dropped : gmap string bool;
  hs_events : list claimEvent;
}.

Definition healthPass (s : healthState) (pass : passState) : healthState :=
  MkHealth pass s.(hs_warned) s.(hs_dropped) s.(hs_events).
Definition healthForget (s : healthState) (podName : string) : healthState :=
  healthPass s (forgetReading s.(hs_pass) podName).
Definition healthWarned (s : healthState) (warned : limitWarningClock) : healthState :=
  MkHealth s.(hs_pass) warned s.(hs_dropped) s.(hs_events).
Definition say (s : healthState) (events : list claimEvent) : healthState :=
  MkHealth s.(hs_pass) s.(hs_warned) s.(hs_dropped) (s.(hs_events) ++ events).
Definition drops (s : healthState) (podName : string) (drop : bool) : healthState :=
  MkHealth s.(hs_pass) s.(hs_warned) (<[podName := drop]> s.(hs_dropped)) s.(hs_events).
End HealthRecords.

Section Health.
Context `{EngineApi W}.

(** The record of a claim's instance on a pod, around the cache. *)
Definition freshKVLimitRecord (pm : ModelClaim) (pod : string) : Run W (option Z) :=
  got ← call (GetClaim (ObjectKeyFromObject pm));
  mret (match got with
        | Err _ => None
        | Ok fresh =>
            inst_KVLimitBytes <$> List.find (fun instance => bool_decide (instance.(inst_Pod) = pod)) fresh.(status_Instances)
        end).

(** The instance takes the record as it is now; whether the engine is held to
    it, and to no more than it. *)
Definition judgeKVLimit (pm : ModelClaim) (inst : ModelClaimInstance) (observed : option RuntimeSnapshotModel)
    (serving : bool) : Run W (ModelClaimInstance * bool * bool) :=
  let inForce := kvLimitInForce inst observed in
  '(inst, inForce) ←
    (if serving && negb inForce then
       fresh ← freshKVLimitRecord pm inst.(inst_Pod);
       mret (match fresh with
             | Some bytes =>
                 if bytes =? inst.(inst_KVLimitBytes) then (inst, inForce)
                 else let inst := setKVLimit inst bytes in (inst, kvLimitInForce inst observed)
             | None => (inst, inForce)
             end)
     else mret (inst, inForce));
  let inst := lowerRecord inst observed in
  mret (inst, inForce, kvLimitWithinRecord inst observed).

Definition judgeEngine (pm : ModelClaim) (inst : ModelClaimInstance) (snapshot : option RuntimeSnapshot)
    (observed : option RuntimeSnapshotModel) : Run W (ModelClaimInstance * engineState) :=
  let observedPort := match observed with Some model => model.(sm_Port) | None => inst.(inst_Port) end in
  let serving := match observed with Some model => model.(sm_Ready) && (0 <? observedPort) | None => false end in
  '(inst, inForce, within) ← judgeKVLimit pm inst observed serving;
  let '(phase, routingPort) := desiredInstanceState inst observed observedPort serving inForce within in
  mret (inst, MkEngineState observedPort serving inForce within phase routingPort
                (bool_decide (phase = ModelClaimActivating) && engineBooting snapshot observed)).

Definition limitOperation (pm : ModelClaim) (pod : Pod) (bytes : Z) (observedAt : Time) : operationID :=
  MkOperation "kv-limit" pm.(mc_Namespace) pod.(pod_UID) pm.(mc_Name) bytes observedAt.

(** Whether the runtime took the request. *)
Definition writeKVLimit (s : healthState) (pm : ModelClaim) (inst : ModelClaimInstance) (pod : Pod)
    (snapshot : option RuntimeSnapshot) (observed : option RuntimeSnapshotModel) : Run W (healthState * bool) :=
  match observed with
  | None => mret (s, false)
  | Some model =>
      if model.(sm_KVCapacityBytes) <? 0 then mret (s, false)
      else
        let observedAt := match snapshot with Some snapshot => snapshot.(snap_ObservedAt) | None => zeroTime end in
        answer ← call (SetKVLimit pod.(pod_IP) (MkSetKVLimit (servedModelName pm) inst.(inst_KVLimitBytes)
          (limitOperation pm pod inst.(inst_KVLimitBytes) observedAt)));
        match answer with
        | Ok _ => mret (s, true)
        | Err _ =>
            now ← call Now;
            let '(warned, due) := warningDue s.(hs_warned) (limitWarningKey pm inst) now in
            let s := healthWarned s warned in
            mret (if due then say s [EventKVLimitNotWritten inst.(inst_Pod) inst.(inst_KVLimitBytes)] else s, false)
        end
  end.

(** What the reading taken after a write shows of the limit. *)
Definition reportKVLimit (s : healthState) (pm : ModelClaim) (inst : ModelClaimInstance) (writtenOver : Z)
    (observed : option RuntimeSnapshotModel) : Run W healthState :=
  match observed with
  | None => mret s
  | Some model =>
      if model.(sm_KVCapacityBytes) <? 0 then mret s
      else if model.(sm_KVCapacityBytes) =? inst.(inst_KVLimitBytes) then
        mret (say (healthWarned s (forgetWarning s.(hs_warned) (limitWarningKey pm inst)))
                [EventKVLimitSet inst.(inst_Pod) inst.(inst_KVLimitBytes) writtenOver])
      else
        now ← call Now;
        let '(warned, due) := warningDue s.(hs_warned) (limitWarningKey pm inst) now in
        let s := healthWarned s warned in
        mret (if due then say s [EventKVLimitNotTaken inst.(inst_Pod) inst.(inst_KVLimitBytes) model.(sm_KVCapacityBytes)] else s)
  end.

Definition holdToKVLimit (s : healthState) (pm : ModelClaim) (inst : ModelClaimInstance) (pod : Pod)
    (snapshot : option RuntimeSnapshot) (observed : option RuntimeSnapshotModel) (state : engineState)
  : Run W (healthState * ModelClaimInstance * engineState * option RuntimeSnapshotModel) :=
  let target := match observed with
                | Some model => setKVLimit inst (clampKVLimit inst.(inst_KVLimitBytes) model.(sm_KVInitialCapacityBytes))
                | None => inst
                end in
  let writtenOver := match observed with Some model => model.(sm_KVCapacityBytes) | None => 0 end in
  '(s, written) ← writeKVLimit s pm target pod snapshot observed;
  let s := healthForget s pod.(pod_Name) in
  if negb written then mret (s, inst, state, observed)
  else if bool_decide (inst.(inst_Phase) = ModelClaimActive) then
    mret (say s [EventKVLimitWritten inst.(inst_Pod) target.(inst_KVLimitBytes) writtenOver], inst, state, observed)
  else
    '(pass, confirmed) ← readPod s.(hs_pass) pod;
    let s := healthPass s pass in
    match confirmed with
    | Err _ => mret (s, inst, state, observed)
    | Ok confirmed =>
        let observed := snapshotModelForClaim confirmed pm (servedModelName pm) in
        s ← reportKVLimit s pm target writtenOver observed;
        '(inst, state) ← judgeEngine pm inst confirmed observed;
        mret (s, inst, state, observed)
    end.

(** Whether the instance is to stay, and whether its engine was started. *)
Definition startMissingEngine (s : healthState) (pm : ModelClaim) (inst : ModelClaimInstance) (ip : string)
  : Run W (healthState * ModelClaimInstance * bool * bool) :=
  answer ← call (Activate ip (activateRequest pm));
  match answer with
  | Err why =>
      if isRuntimeSilent why then mret (s, inst, true, false)
      else mret (say s [EventStartFailed inst.(inst_Pod) why], inst, negb (callNotDone why), false)
  | Ok port => mret (say s [EventStartedAgain inst.(inst_Pod) port], setPort inst port, true, true)
  end.

Definition warnOfAnUnmeasuredSleep (s : healthState) (podName : string) (observed : option RuntimeSnapshotModel)
    (withoutWakeReserve : bool) : healthState :=
  if negb withoutWakeReserve || bool_decide (is_Some (observed ≫= sleepingFootprintOf)) then s
  else say s [EventSleepingFootprintUnknown podName].

(** The instance as judged is put on its route or off it, and takes its phase. *)
Definition settlePhase (s : healthState) (pm : ModelClaim) (slot : nat) (inst : ModelClaimInstance) (pod : Pod)
    (state : engineState) (observed : option RuntimeSnapshotModel) : Run W (healthState * ModelClaim) :=
  let reason := if bool_decide (state.(es_phase) = inst.(inst_Phase)) then bindingReason inst else "" in
  '(pod, annotated) ← annotateWarmPodWithState pm pod state.(es_routingPort) (routingStateForPhase state.(es_phase)) reason;
  match annotated with
  | Err _ => mret (s, setSlot pm slot inst)
  | Ok _ =>
      let previous := inst.(inst_Phase) in
      let inst := setPort inst state.(es_observedPort) in
      if bool_decide (previous = state.(es_phase)) then mret (s, setSlot pm slot inst)
      else
        let inst := setPhase inst state.(es_phase) "" in
        let s := say s (announcePhase inst previous observed state.(es_serving)) in
        if bool_decide (state.(es_phase) = ModelClaimSleeping) then
          without ← podsWithoutWakeReserve [pod];
          mret (warnOfAnUnmeasuredSleep s inst.(inst_Pod) observed (bool_decide (pod.(pod_Name) ∈ without)), setSlot pm slot inst)
        else mret (s, setSlot pm slot inst)
  end.

(** One instance whose runtime was read; whether its engine boots. *)
Definition settleInstance (s : healthState) (pm : ModelClaim) (slot : nat) (inst : ModelClaimInstance) (pod : Pod)
    (snapshot : option RuntimeSnapshot) : Run W (healthState * ModelClaim * bool) :=
  let observed := snapshotModelForClaim snapshot pm (servedModelName pm) in
  let s := healthPass s (noteFootprint s.(hs_pass) pm observed) in
  if engineMissing inst snapshot observed then
    '(s, inst, stays, started) ← startMissingEngine s pm inst pod.(pod_IP);
    mret (healthForget (drops s inst.(inst_Pod) (negb stays)) pod.(pod_Name), setSlot pm slot inst, started)
  else
    '(inst, state) ← judgeEngine pm inst snapshot observed;
    '(s, inst, state, observed) ←
      (if state.(es_serving) && negb state.(es_limitInForce) &&
          (negb state.(es_limitWithinRecord) || negb (bool_decide (inst.(inst_Phase) = ModelClaimActive)))
       then holdToKVLimit s pm inst pod snapshot observed state
       else mret (s, inst, state, observed));
    '(s, pm) ← settlePhase s pm slot inst pod state observed;
    mret (s, pm, state.(es_booting)).

Definition checkInstance (s : healthState) (pm : ModelClaim) (slot : nat) : Run W (healthState * ModelClaim * bool) :=
  match pm.(status_Instances) !! slot with
  | None => mret (s, pm, false)
  | Some inst =>
      if negb (checkedPhase inst.(inst_Phase)) then mret (s, pm, false)
      else
        got ← call (GetPod (MkNN pm.(mc_Namespace) inst.(inst_Pod)));
        match got with
        | Err _ => mret (s, pm, false)
        | Ok pod =>
            if bool_decide (pod.(pod_IP) = "") then mret (s, pm, false)
            else
              '(pass, reply) ← readPod s.(hs_pass) pod;
              let s := healthPass s pass in
              match reply with
              | Err _ => mret (s, pm, false)
              | Ok snapshot => settleInstance s pm slot inst pod snapshot
              end
        end
  end.

(** The instances from [slot] on, [n] of them. *)
Fixpoint checkInstances (s : healthState) (pm : ModelClaim) (slot n : nat) (booting : bool)
  : Run W (healthState * ModelClaim * bool) :=
  match n with
  | O => mret (s, pm, booting)
  | S n =>
      '(s, pm, boots) ← checkInstance s pm slot;
      checkInstances s pm (S slot) n (booting || boots)
  end.

(** The instances that stay; the routes of the others are taken back. *)
Fixpoint dropInstancesOf (pm : ModelClaim) (dropped : gmap string bool) (instances : list ModelClaimInstance)
  : Run W (list ModelClaimInstance) :=
  match instances with
  | [] => mret []
  | inst :: rest =>
      if default false (dropped !! inst.(inst_Pod)) then
        _ ← deannotateWarmPod pm.(mc_Namespace) inst.(inst_Pod) pm.(mc_Name);
        dropInstancesOf pm dropped rest
      else
        kept ← dropInstancesOf pm dropped rest;
        mret (inst :: kept)
  end.

Definition dropInstances (pm : ModelClaim) (dropped : gmap string bool) : Run W (ModelClaim * nat) :=
  kept ← dropInstancesOf pm dropped pm.(status_Instances);
  mret (setInstances pm kept, (length pm.(status_Instances) - length kept)%nat).

Definition reconcileInstanceHealth (pass : passState) (warned : limitWarningClock) (backoff : placementBackoff)
    (pm : ModelClaim) : Run W (healthState * placementBackoff * ModelClaim * bool) :=
  '(s, pm, booting) ← checkInstances (MkHealth pass warned ∅ []) pm 0 (length pm.(status_Instances)) false;
  '(pm, gone) ← dropInstances pm s.(hs_dropped);
  mret (s, if (0 <? gone)%nat then startOver backoff (ObjectKeyFromObject pm) else backoff, pm, booting).
End Health.
