(* ===== verification/HealthFacts.v ===== *)
(** * What the health check guarantees ([InstanceHealth]).

    An engine goes on its route only when the pass has read it ready, at the port
    it is routed to, and its runtime holds it to no more than the limit recorded
    for its instance.  [EngineLaws] states what the calls of [EngineApi] do to the
    limits, the records and the routes. *)

From S2P Require Import Prelude Api Claims Ledger KVPlan Placement Reservations Backoff Runtime ArrangeCard PoolPolicy Division MakeRoom Rfc3339 WakeTurn SleepEngine WakeHandler RoomHandler Calls WakeFacts Engines InstanceHealth.

Section Untouched.
Context `{HL : ClusterLaws W} {HR : ClusterReads} {HP : PodApi} {HPL : PodLaws}.

Definition routesKept (w w' : W) : Prop := ∀ p c, routeAt w' p c = routeAt w p c.

(** Limits, records and routes as they were. *)
Definition untouched (w w' : W) : Prop := limitsKept w w' ∧ recordsKept w w' ∧ routesKept w w'.

#[export] Instance untouched_preorder : PreOrder untouched.
Proof.
  split; [done|]. intros x y z (L & R & K) (L' & R' & K').
  split; [|split]; repeat intro; [by rewrite L', L|by rewrite R', R|by rewrite K', K].
Qed.
End Untouched.

Class EngineLaws `{HL : ClusterLaws W} {HR : ClusterReads} {HP : PodApi} {HPL : PodLaws} {HE : EngineApi} := {
  (** Each pod has an address of its own. *)
  ipOf : NamespacedName → string;
  ipOf_inj p q : nn_Namespace p = nn_Namespace q → ipOf p = ipOf q → p = q;
  GetPod_pod key w pod : (GetPod key w).2 = Ok pod →
    cardOf pod = key ∧ (pod_IP pod = "" ∨ pod_IP pod = ipOf key);

  GetPod_untouched key w : untouched w (GetPod key w).1;
  Now_untouched w : untouched w (Now w).1;
  GetReplicaSet_untouched name w : untouched w (GetReplicaSet name w).1;
  GetDeployment_untouched name w : untouched w (GetDeployment name w).1;
  SetKVLimit_routes ip req w : routesKept w (SetKVLimit ip req w).1;
  PatchPod_limits old new w : limitsKept w (PatchPod old new w).1 ∧ recordsKept w (PatchPod old new w).1;

  (** A start may change the limit of its engine, which builds a new segment. *)
  Activate_touches ip req w : let w' := (Activate ip req w).1 in
    recordsKept w w' ∧ routesKept w w' ∧
    ∀ ip' m, limitOf w' ip' m = limitOf w ip' m ∨ (ip' = ip ∧ m = act_ModelName req);

  RemoveAnnotations_law key names w : let w' := (RemoveAnnotations key names w).1 in
    limitsKept w w' ∧ recordsKept w w' ∧
    (∀ p c, routeAt w' p c = routeAt w p c ∨ (p = key ∧ routeKey c ∈ names ∧ routeAt w' p c = None)) ∧
    ((RemoveAnnotations key names w).2 = Ok () → ∀ c, routeKey c ∈ names → routeAt w' key c = None);
}.

Lemma snapshotModel_listed `{K8s} snapshot pm served x :
  snapshotModelForClaim snapshot pm served = Some x → ∃ s, snapshot = Some s ∧ x ∈ snap_Models s.
Proof.
  unfold snapshotModelForClaim. destruct snapshot as [s|]; [|done]. intros Hf. exists s. split; [done|].
  enough (∀ models legacy, findModelForClaim (mc_UID pm) served legacy models = Some x → x ∈ models ∨ legacy = Some x) as Hgen.
  { by destruct (Hgen _ _ Hf). }
  clear Hf. induction models as [|m models IH]; intros legacy Hf; simpl in Hf; [by right|].
  repeat case_match; simplify_eq; try (apply IH in Hf as [?|?]; [left; by right|simplify_eq; auto using list_elem_of_here]);
    first [left; by left|auto].
Qed.

Lemma setInstances_id `{K8s} claim : setInstances claim (status_Instances claim) = claim.
Proof. by destruct claim. Qed.

Section Held.
Context `{HEL : EngineLaws W} (pm : ModelClaim).
#[local] Abbreviation ns := (mc_Namespace pm).
#[local] Abbreviation c := (mc_Name pm).

(** A limit recorded for an instance on a pod: in the claim as the pass began, or
    at the API server at one of the moments [T]. *)
Definition recordedFor (T : W → Prop) (podName : string) (bytes : Z) : Prop :=
  (∃ inst, inst ∈ status_Instances pm ∧ inst_Pod inst = podName ∧ inst_KVLimitBytes inst = bytes) ∨
  ∃ y, T y ∧ (podName, bytes) ∈ recordsOf y (ObjectKeyFromObject pm).

(** An instance never goes above a limit recorded for it. *)
Definition backed (T : W → Prop) (inst : ModelClaimInstance) : Prop :=
  ∃ bytes, recordedFor T (inst_Pod inst) bytes ∧
    (inst_KVLimitBytes inst = bytes ∨ 0 < inst_KVLimitBytes inst ≤ bytes).

(** The claim's engine on a pod, read ready at [port], is held at [y] to no more
    than a limit recorded for it, if one is. *)
Definition heldOpen (T : W → Prop) (y : W) (p : NamespacedName) (port : Z) : Prop :=
  ∃ z snapshot x bytes, T z ∧ (Snapshot (ipOf p) z).2 = Ok snapshot ∧
    snapshotModelForClaim snapshot pm (servedModelName pm) = Some x ∧ sm_Ready x = true ∧ sm_Port x = port ∧ 0 < port ∧
    recordedFor T (nn_Name p) bytes ∧
    (bytes ≤ 0 ∨ ∃ cap, limitOf y (ipOf p) (sm_ModelName x) = Some cap ∧ cap ≤ bytes).

(** A route that sends nothing to the engine. *)
Definition closedRoute (route : option string) : Prop :=
  route = None ∨ ∃ state reason, state ≠ ModelClaimRoutingStateActive ∧ route = Some (routeValue pm 0 state reason).

(** The claim's routes at [x] are the ones of [w], closed, or were opened at one
    of the moments. *)
Definition routedWell (T : W → Prop) (w x : W) : Prop :=
  ∀ p, routeAt x p c = routeAt w p c ∨ closedRoute (routeAt x p c) ∨
    ∃ y port reason, T y ∧ heldOpen T y p port ∧
      routeAt y p c = Some (routeValue pm port ModelClaimRoutingStateActive reason) ∧ routeAt x p c = routeAt y p c.

#[local] Instance routedWell_preorder T : PreOrder (routedWell T).
Proof.
  split; [by left|]. intros x y z Hxy Hyz p. destruct (Hyz p) as [E|[?|?]]; [|by right; left|by right; right].
  rewrite E. apply Hxy.
Qed.

Lemma untouched_routed T w x : untouched w x → routedWell T w x.
Proof. intros (_ & _ & Hk) p. left. apply Hk. Qed.

(** ** Readings. *)

Definition seen (T : W → Prop) (w : W) (p : NamespacedName) (reply : result runtimeError (option RuntimeSnapshot)) : Prop :=
  (∃ z, T z ∧ (Snapshot (ipOf p) z).2 = reply) ∧
  ∀ snapshot x, reply = Ok (Some snapshot) → x ∈ snap_Models snapshot → 0 ≤ sm_KVCapacityBytes x →
    limitOf w (ipOf p) (sm_ModelName x) = Some (sm_KVCapacityBytes x).

(** The readings kept are of the pods they are kept for, and the limits they
    show are still the ones in force. *)
Definition truthful (T : W → Prop) (w : W) (rr : runtimeReadings) : Prop :=
  ∀ name reading, rr_byPod rr !! name = Some reading → seen T w (MkNN ns name) (rd_reply reading).

Lemma seen_kept T w w' p reply : limitsKept w w' → seen T w p reply → seen T w' p reply.
Proof. intros Hk [Hz Hl]. split; [done|]. intros snapshot x Hr Hx Hc. rewrite (Hk _ _). by eapply Hl. Qed.

Lemma truthful_kept T w w' rr : limitsKept w w' → truthful T w rr → truthful T w' rr.
Proof. intros Hk Ht name reading Hr. eapply seen_kept; [done|]. by apply Ht. Qed.

(** A change on one pod, whose reading is dropped. *)
Lemma truthful_forget T w w' rr name :
  (∀ ip m, ip ≠ ipOf (MkNN ns name) → limitOf w' ip m = limitOf w ip m) → truthful T w rr → truthful T w' (forget rr name).
Proof.
  intros Hk Ht name' reading Hd. cbn in Hd. apply lookup_delete_Some in Hd as [Hne Hr]. destruct (Ht _ _ Hr) as [Hz Hl].
  split; [done|]. intros snapshot x Hs Hx Hc. rewrite Hk; [by eapply Hl|].
  intros Heq%ipOf_inj; [|done]. by injection Heq.
Qed.

Lemma truthful_insert T w rr name reply changes :
  truthful T w rr → seen T w (MkNN ns name) reply →
  truthful T w (MkReadings (<[name := MkReading reply changes]> (rr_byPod rr)) (rr_changes rr)).
Proof.
  intros Ht Hs name' reading Hi. cbn in Hi. apply lookup_insert_Some in Hi as [[<- <-]|[_ Hr]]; [done|by apply Ht].
Qed.

#[local] Abbreviation tracks := (trackedAt routedWell).

Lemma Snapshot_untouched ip w : untouched w (Snapshot ip w).1.
Proof.
  destruct (Snapshot_law ip w) as (_ & Hl & Hr & _). destruct (Snapshot_podKept ip w) as [Hk _]. done.
Qed.

Lemma GetClaim_untouched key w : untouched w (GetClaim key w).1.
Proof. destruct (GetClaim_law key w) as (_ & Hl & Hr & _). destruct (GetClaim_podKept key w) as [Hk _]. done. Qed.

Lemma Snapshot_seen T ip p w : ip = ipOf p → T w → seen T (Snapshot ip w).1 p (Snapshot ip w).2.
Proof.
  intros -> Hw. split; [by exists w|]. intros snapshot x Hs Hx Hc.
  destruct (Snapshot_law (ipOf p) w) as (_ & _ & _ & Hlaw). by destruct (Hlaw snapshot x Hs Hx Hc).
Qed.

Lemma readPod_at s pod w :
  cardOf pod = MkNN ns (pod_Name pod) → pod_IP pod = ipOf (cardOf pod) →
  tracks (readPod s pod) w (fun T => truthful T w (ps_readings s)) (fun T r w' =>
    untouched w w' ∧ truthful T w' (ps_readings r.1) ∧ seen T w' (cardOf pod) r.2).
Proof.
  intros Hcard Hip. unfold readPod, reading_of. destruct (rr_byPod (ps_readings s) !! pod_Name pod) as [reading|] eqn:Er.
  - apply at_ret. intros T Ht _. split_and!; [done..|]. rewrite Hcard. by apply Ht.
  - eapply at_bind with (Q := fun T r w' => untouched w w' ∧ truthful T w' r.1 ∧ seen T w' (cardOf pod) r.2).
    + eapply at_bind with (Q := fun T reply w' => untouched w w' ∧ truthful T w' (ps_readings s) ∧ seen T w' (cardOf pod) reply).
      * apply at_call. intros T Ht Hw _. pose proof (Snapshot_untouched (pod_IP pod) w) as Hu.
        split; [by apply untouched_routed|]. split; [done|]. split; [|by apply Snapshot_seen].
        eapply truthful_kept; [apply Hu|done].
      * intros reply w1. apply at_ret. intros T (Hu & Ht & Hs) _. split_and!; [done| |done].
        apply truthful_insert; [done|]. by rewrite <-Hcard.
    + intros [rr reply] w1. apply at_ret. intros T ? _. done.
Qed.

(** ** The judgement. *)

Definition heldRecord (inst : ModelClaimInstance) (observed : option RuntimeSnapshotModel) : Prop :=
  inst_KVLimitBytes inst ≤ 0 ∨ ∃ x, observed = Some x ∧ 0 ≤ sm_KVCapacityBytes x ≤ inst_KVLimitBytes inst.

Lemma clamp_between limit ceiling : 0 < limit → 0 ≤ clampKVLimit limit ceiling ≤ limit.
Proof. unfold clampKVLimit. destruct ceiling as [bound|]; [|lia]. destruct (_ && _) eqn:E; [|lia]. breflect. lia. Qed.

Lemma lowerRecord_same inst observed :
  inst_Pod (lowerRecord inst observed) = inst_Pod inst ∧ inst_Phase (lowerRecord inst observed) = inst_Phase inst.
Proof. unfold lowerRecord. repeat case_match; done. Qed.

Lemma lowerRecord_cases inst observed :
  lowerRecord inst observed = inst ∨
  ∃ x, observed = Some x ∧ 0 < inst_KVLimitBytes (lowerRecord inst observed) < inst_KVLimitBytes inst ∧
    0 ≤ sm_KVCapacityBytes x ≤ inst_KVLimitBytes (lowerRecord inst observed).
Proof.
  unfold lowerRecord. destruct observed as [x|]; [|by left]. destruct (_ && _ && _ && _ && _) eqn:E; [|by left].
  right. exists x. breflect. cbn [setKVLimit inst_KVLimitBytes]. split; [done|]. lia.
Qed.

Lemma lowerRecord_backed T inst observed : backed T inst → backed T (lowerRecord inst observed).
Proof.
  intros (bytes & Hr & Hb). exists bytes. rewrite (proj1 (lowerRecord_same inst observed)). split; [done|].
  destruct (lowerRecord_cases inst observed) as [->|(x & _ & ? & _)]; [done|]. right. lia.
Qed.

Lemma inForce_held inst observed : kvLimitInForce inst observed = true → heldRecord (lowerRecord inst observed) observed.
Proof.
  intros Hf. destruct (lowerRecord_cases inst observed) as [->|(x & -> & _ & ?)]; [|right; eauto].
  unfold kvLimitInForce in Hf. destruct (Z.leb_spec (inst_KVLimitBytes inst) 0); [by left|].
  destruct observed as [x|]; [|done]. right. exists x. split; [done|]. apply Z.eqb_eq in Hf. rewrite Hf. by apply clamp_between.
Qed.

Lemma within_held inst observed : kvLimitWithinRecord inst observed = true → heldRecord inst observed.
Proof.
  unfold kvLimitWithinRecord. destruct (Z.leb_spec (inst_KVLimitBytes inst) 0); [by left|].
  destruct observed as [x|]; [|done]. intros Hw. breflect. right. exists x. split; [done|].
  pose proof (clamp_between (inst_KVLimitBytes inst) (sm_KVInitialCapacityBytes x)). lia.
Qed.

(** What an engine judged routable was read to be; any other is given port 0. *)
Record judged (inst : ModelClaimInstance) (observed : option RuntimeSnapshotModel) (state : engineState) : Prop := MkJudged {
  judged_active : es_phase state = ModelClaimActive →
    heldRecord inst observed ∧
    (es_limitInForce state = true ∨ inst_Phase inst = ModelClaimActive ∧ es_limitWithinRecord state = true) ∧
    ∃ x, observed = Some x ∧ es_routingPort state = sm_Port x ∧ 0 < sm_Port x ∧ sm_Ready x = true;
  judged_closed : es_phase state ≠ ModelClaimActive →
    es_routingPort state = 0 ∧ routingStateForPhase (es_phase state) ≠ ModelClaimRoutingStateActive;
}.

Lemma fresh_at claim podName w :
  ObjectKeyFromObject claim = ObjectKeyFromObject pm →
  tracks (freshKVLimitRecord claim podName) w (fun _ => True) (fun T r w' =>
    untouched w w' ∧ ∀ bytes, r = Some bytes → recordedFor T podName bytes).
Proof.
  intros Hkey. unfold freshKVLimitRecord. rewrite Hkey.
  eapply at_bind with (Q := fun T got w' => untouched w w' ∧ T w' ∧ ∀ fresh, got = Ok fresh →
    recordsOf w' (ObjectKeyFromObject pm) = (fun i => (inst_Pod i, inst_KVLimitBytes i)) <$> status_Instances fresh).
  - apply at_call. intros T _ Hw HT. pose proof (GetClaim_untouched (ObjectKeyFromObject pm) w) as Hu.
    split; [by apply untouched_routed|]. split_and!; [done..|]. intros fresh Hok.
    destruct (GetClaim_law (ObjectKeyFromObject pm) w) as (_ & _ & _ & Hlaw). by destruct (Hlaw fresh Hok).
  - intros got w1. apply at_ret. intros T (Hu & HT & Hrec) _. split; [done|]. intros bytes.
    destruct got as [fresh|]; [|done]. intros (i & Hi & ->)%fmap_Some. apply find_some in Hi as [Hin Hp].
    apply bool_decide_eq_true in Hp. right. exists w1. split; [done|]. rewrite (Hrec fresh eq_refl).
    apply list_elem_of_fmap. exists i. split; [by rewrite Hp|by apply list_elem_of_In].
Qed.

Lemma judgeKVLimit_at claim inst observed serving w :
  ObjectKeyFromObject claim = ObjectKeyFromObject pm →
  tracks (judgeKVLimit claim inst observed serving) w (fun T => backed T inst) (fun T r w' =>
    untouched w w' ∧ backed T r.1.1 ∧ inst_Pod r.1.1 = inst_Pod inst ∧ inst_Phase r.1.1 = inst_Phase inst ∧
    (r.1.2 = true → heldRecord r.1.1 observed) ∧ r.2 = kvLimitWithinRecord r.1.1 observed).
Proof.
  intros Hkey. unfold judgeKVLimit. cbv zeta.
  eapply at_bind with (Q := fun T r w' => untouched w w' ∧ backed T r.1 ∧ inst_Pod r.1 = inst_Pod inst ∧
    inst_Phase r.1 = inst_Phase inst ∧ r.2 = kvLimitInForce r.1 observed).
  - destruct (serving && negb _); [|by apply at_ret].
    eapply at_then; [by apply (fresh_at claim (inst_Pod inst))|done|]. intros r w1. apply at_ret. intros T (Hb & Hu & Hrec) _.
    destruct r as [bytes|]; [|by split_and!]. destruct (bytes =? _); [by split_and!|]. cbn. split_and!; [done| |done..].
    exists bytes. split; [by apply Hrec|by left].
  - intros [inst1 inForce] w1. apply at_ret. cbn. intros T (Hu & Hb & Hp & Hph & ->) _.
    destruct (lowerRecord_same inst1 observed) as [Hp' Hph']. rewrite Hp', Hph'. split_and!; [done|by apply lowerRecord_backed|done|done| |done].
    apply inForce_held.
Qed.

Lemma judgeEngine_at claim inst snapshot observed w :
  ObjectKeyFromObject claim = ObjectKeyFromObject pm →
  tracks (judgeEngine claim inst snapshot observed) w (fun T => backed T inst) (fun T r w' =>
    untouched w w' ∧ backed T r.1 ∧ inst_Pod r.1 = inst_Pod inst ∧ inst_Phase r.1 = inst_Phase inst ∧ judged r.1 observed r.2).
Proof.
  intros Hkey. unfold judgeEngine. cbv zeta. set (serving := match observed with Some _ => _ | None => false end).
  eapply at_then; [by apply (judgeKVLimit_at claim inst observed serving)|done|].
  intros [[inst1 inForce] within] w1. cbn [fst snd]. destruct (desiredInstanceState _ _ _ _ _ _) as [phase port] eqn:Ed.
  apply at_ret. cbn [fst snd]. intros T (_ & Hu & Hb & Hp & Hph & Hf & Hw) _. split_and!; [done..|].
  assert (serving = true → ∃ x, observed = Some x ∧ sm_Ready x = true ∧ 0 < sm_Port x) as Hserving.
  { unfold serving. destruct observed as [x|]; [|done]. intros Hs. breflect. eauto. }
  clearbody serving. unfold desiredInstanceState in Ed. split; cbn [es_phase es_routingPort es_limitInForce es_limitWithinRecord].
  - intros ->. repeat (case_match; simplify_eq).
    + breflect. destruct (Hserving ltac:(done)) as (x & [= <-] & ? & ?). split_and!; [by apply Hf|by left|]. by eexists.
    + by destruct (Hserving ltac:(by breflect)) as (x & ? & _).
    + breflect. destruct (Hserving ltac:(done)) as (x & [= <-] & ? & ?). split_and!; [by apply within_held|by right|]. by eexists.
    + breflect. by destruct (Hserving ltac:(done)) as (x & ? & _).
  - intros Hne. repeat (case_match; simplify_eq); done.
Qed.

(** The claim as the pass has it: only its instances change. *)
Definition likeClaim (claim : ModelClaim) : Prop := ∃ instances, claim = setInstances pm instances.

Lemma likeClaim_slot claim slot inst : likeClaim claim → likeClaim (setSlot claim slot inst).
Proof. intros [l ->]. unfold setSlot. by eexists. Qed.

Definition grounded (T : W → Prop) (w : W) (p : NamespacedName) (observed : option RuntimeSnapshotModel) : Prop :=
  ∃ snapshot, seen T w p (Ok snapshot) ∧ snapshotModelForClaim snapshot pm (servedModelName pm) = observed.

Lemma grounded_kept T w w' p observed : limitsKept w w' → grounded T w p observed → grounded T w' p observed.
Proof. intros Hk (snapshot & Hs & Ho). exists snapshot. split; [by eapply seen_kept|done]. Qed.

Lemma judged_heldOpen T w p inst observed state :
  judged inst observed state → es_phase state = ModelClaimActive → backed T inst → inst_Pod inst = nn_Name p →
  grounded T w p observed → heldOpen T w p (es_routingPort state).
Proof.
  intros Hj Ha (bytes & Hrec & Hb) Hp (snapshot & [(z & HT & Hz) Hl] & Ho).
  destruct (judged_active _ _ _ Hj Ha) as (Hheld & _ & x & -> & Hport & Hpos & Hready).
  exists z, snapshot, x, bytes. rewrite Hport, <-Hp. split_and!; [done..|].
  destruct Hheld as [?|(x' & [= <-] & Hc)]; [left; lia|]. destruct (decide (bytes ≤ 0)); [by left|right].
  exists (sm_KVCapacityBytes x). split; [|lia]. destruct (snapshotModel_listed _ _ _ _ Ho) as (s & -> & Hin).
  by eapply Hl; [|..|lia].
Qed.

Lemma annotate_at claim pod port state reason w :
  likeClaim claim →
  tracks (annotateWarmPodWithState claim pod port state reason) w
    (fun T => if bool_decide (state = ModelClaimRoutingStateActive)
              then ∀ y, limitsKept w y → heldOpen T y (cardOf pod) port else port = 0)
    (fun T _ w' => limitsKept w w').
Proof.
  intros [l ->]. unfold annotateWarmPodWithState. change (routeValue (setInstances pm l)) with (routeValue pm). cbv zeta.
  case_bool_decide; [by apply at_ret|]. eapply (at_bind _ _ _ _ (fun T _ w' => limitsKept w w')); [apply at_call|intros answer w1; apply at_ret; auto].
  intros T Hopen Hw Hw'. set (changed := setAnnotations _ _) in *. destruct (PatchPod_limits pod changed w) as [Hk _].
  split; [|done]. intros p. destruct (PatchPod_law pod changed w) as (_ & Hrt & _).
  destruct (Hrt p c) as [?|(-> & _ & Hr)]; [by left|right]. rewrite (lookup_insert_eq _ _ _ : pod_Annotations changed !! routeKey c = _) in Hr.
  case (bool_decide_reflect (state = ModelClaimRoutingStateActive)) in Hopen; [right|left].
  - subst state. eexists _, port, reason. split_and!; [exact Hw'|by apply Hopen|exact Hr|done].
  - subst port. right. by exists state, reason.
Qed.

(** ** One instance. *)

#[local] Hint Resolve Snapshot_untouched GetClaim_untouched GetPod_untouched Now_untouched GetReplicaSet_untouched
  GetDeployment_untouched : within.

Lemma poolDeploymentForPod_untouched pod : within untouched (poolDeploymentForPod pod).
Proof. unfold poolDeploymentForPod. stays. Qed.
#[local] Hint Resolve poolDeploymentForPod_untouched : within.

Lemma withoutReserve_untouched pools without pods : within untouched (withoutReserve pools without pods).
Proof. revert pools without. induction pods; intros pools without; simpl; stays. Qed.

(** The runtime of a pod was read to have no engine for the claim, and is known
    not to have started one when it was asked to. *)
Definition neverStarted (T : W → Prop) (podName : string) : Prop :=
  ∃ z z' snapshot why, T z ∧ T z' ∧ (Snapshot (ipOf (MkNN ns podName)) z).2 = Ok (Some snapshot) ∧
    snapshotModelForClaim (Some snapshot) pm (servedModelName pm) = None ∧
    (Activate (ipOf (MkNN ns podName)) (activateRequest pm) z').2 = Err why ∧ callNotDone why = true.

Definition droppedWell (T : W → Prop) (dropped : gmap string bool) : Prop :=
  ∀ podName, dropped !! podName = Some true → neverStarted T podName.

(** What is kept from one instance to the next. *)
Definition passKept (T : W → Prop) (w : W) (s : healthState) (claim : ModelClaim) : Prop :=
  (likeClaim claim ∧ inst_Pod <$> status_Instances claim = inst_Pod <$> status_Instances pm) ∧
  truthful T w (ps_readings (hs_pass s)) ∧ Forall (backed T) (status_Instances claim) ∧ droppedWell T (hs_dropped s).

Lemma setSlot_pods claim slot inst podName :
  inst_Pod <$> status_Instances claim !! slot = Some podName → inst_Pod inst = podName →
  inst_Pod <$> status_Instances (setSlot claim slot inst) = inst_Pod <$> status_Instances claim.
Proof.
  intros Hl Hp. cbn. rewrite list_fmap_insert. apply list_insert_id. by rewrite list_lookup_fmap, Hl, Hp.
Qed.

Lemma passKept_set T w w' s s' claim slot inst :
  passKept T w s claim → limitsKept w w' → ps_readings (hs_pass s') = ps_readings (hs_pass s) → hs_dropped s' = hs_dropped s →
  backed T inst → inst_Pod <$> status_Instances claim !! slot = Some (inst_Pod inst) →
  passKept T w' s' (setSlot claim slot inst).
Proof.
  intros ([Hl Hps] & Ht & Hb & Hd) Hk Hs Hds Hi Hslot.
  split_and!; [by apply likeClaim_slot|by erewrite setSlot_pods|rewrite Hs; by eapply truthful_kept| |by rewrite Hds].
  cbn. by apply Forall_insert.
Qed.

Lemma settlePhase_at s claim slot inst pod state observed w :
  likeClaim claim → inst_Pod <$> status_Instances claim !! slot = Some (inst_Pod inst) →
  tracks (settlePhase s claim slot inst pod state observed) w
    (fun T => passKept T w s claim ∧ backed T inst ∧ inst_Pod inst = pod_Name pod ∧ judged inst observed state ∧
              (es_phase state = ModelClaimActive → grounded T w (cardOf pod) observed))
    (fun T r w' => passKept T w' r.1 r.2).
Proof.
  intros Hlike Hslot. unfold settlePhase. cbv zeta. eapply at_then; [by apply annotate_at|..].
  { intros T (_ & Hb & Hp & Hj & Hg) _. case_bool_decide as Ea.
    - assert (es_phase state = ModelClaimActive) as Ha by (by destruct (es_phase state)). intros y Hk.
      eapply judged_heldOpen; [done..| |]; [done|]. eapply grounded_kept; [done|by apply Hg].
    - apply (judged_closed _ _ _ Hj). intros Ha. by rewrite Ha in Ea. }
  intros [pod' annotated] w1. cbn [fst snd]. destruct annotated.
  2: { apply at_ret. intros T ((Hkeep & Hb & _) & Hk) _. by eapply passKept_set. }
  case_bool_decide as Ep. { apply at_ret. intros T ((Hkeep & Hb & _) & Hk) _. by eapply passKept_set. }
  case_bool_decide.
  - eapply at_then with (P0 := fun _ => True) (Q := fun T _ w' => untouched w1 w'); [|done|].
    + eapply at_within; [apply withoutReserve_untouched|intros; by apply untouched_routed|done].
    + intros without w2. apply at_ret. intros T (((Hkeep & Hb & _) & Hk) & Hu) _. eapply passKept_set; [done| |..].
      * intros ip m. by rewrite (proj1 Hu ip m).
      * unfold warnOfAnUnmeasuredSleep. by destruct (_ || _).
      * unfold warnOfAnUnmeasuredSleep. by destruct (_ || _).
      * done.
      * done.
  - apply at_ret. intros T ((Hkeep & Hb & _) & Hk) _. by eapply passKept_set.
Qed.

Lemma writeKVLimit_at s claim inst pod snapshot observed w :
  tracks (writeKVLimit s claim inst pod snapshot observed) w (fun _ => True) (fun T r w' =>
    (hs_pass r.1 = hs_pass s ∧ hs_dropped r.1 = hs_dropped s) ∧ ∀ ip m, ip ≠ pod_IP pod → limitOf w' ip m = limitOf w ip m).
Proof.
  unfold writeKVLimit. destruct observed as [x|]; [|by apply at_ret]. destruct (_ <? 0); [by apply at_ret|]. cbv zeta.
  eapply at_then with (P0 := fun _ => True) (Q := fun T _ w' => ∀ ip m, ip ≠ pod_IP pod → limitOf w' ip m = limitOf w ip m); [|done|].
  { apply at_call. intros T _ _ _. split; [intros p; left; apply SetKVLimit_routes|]. intros ip m Hne.
    match goal with |- limitOf (SetKVLimit ?ip ?req w).1 _ _ = _ => destruct (SetKVLimit_law ip req w) as (_ & _ & Hl) end.
    destruct (Hl ip m) as [?|(-> & _)]; done. }
  intros answer w1. destruct answer; [apply at_ret; intros T [_ Hk] _; done|].
  eapply at_then with (P0 := fun _ => True) (Q := fun T _ w' => untouched w1 w'); [|done|].
  { apply at_call. intros. pose proof (Now_untouched w1). split; [by apply untouched_routed|done]. }
  intros now w2. destruct (warningDue _ _ _) as [warned due]. apply at_ret. intros T [[_ Hk] Hu] _. split; [by destruct due|].
  intros ip m Hne. rewrite (proj1 Hu ip m). by apply Hk.
Qed.

Lemma reportKVLimit_at s claim inst over observed w :
  tracks (reportKVLimit s claim inst over observed) w (fun _ => True) (fun T r w' =>
    (hs_pass r = hs_pass s ∧ hs_dropped r = hs_dropped s) ∧ untouched w w').
Proof.
  unfold reportKVLimit. destruct observed as [x|]; [|by apply at_ret]. repeat case_match; try by apply at_ret.
  eapply at_then with (P0 := fun _ => True) (Q := fun T _ w' => untouched w w'); [|done|].
  { apply at_call. intros. pose proof (Now_untouched w). split; [by apply untouched_routed|done]. }
  intros now w1. destruct (warningDue _ _ _) as [warned due]. apply at_ret. intros T [_ Hu] _. by destruct due.
Qed.

(** What is known of an instance once it is judged, and held if it was to be. *)
Definition settled (T : W → Prop) (w : W) (pod : Pod) (dropped : gmap string bool)
    (r : healthState * ModelClaimInstance * engineState * option RuntimeSnapshotModel) : Prop :=
  let '(s, inst, state, observed) := r in
  truthful T w (ps_readings (hs_pass s)) ∧ hs_dropped s = dropped ∧ backed T inst ∧ inst_Pod inst = pod_Name pod ∧
  judged inst observed state ∧ (es_phase state = ModelClaimActive → grounded T w (cardOf pod) observed).

Lemma readBack_at s claim inst pod target over state observed w :
  likeClaim claim → cardOf pod = MkNN ns (pod_Name pod) → pod_IP pod = ipOf (cardOf pod) → inst_Pod inst = pod_Name pod →
  tracks ('(pass, confirmed) ← readPod s.(hs_pass) pod;
          let s := healthPass s pass in
          match confirmed with
          | Err _ => mret (s, inst, state, observed)
          | Ok confirmed =>
              let observed := snapshotModelForClaim confirmed claim (servedModelName claim) in
              s ← reportKVLimit s claim target over observed;
              '(inst, state) ← judgeEngine claim inst confirmed observed;
              mret (s, inst, state, observed)
          end) w
    (fun T => truthful T w (ps_readings (hs_pass s)) ∧ backed T inst ∧ judged inst observed state ∧ es_phase state ≠ ModelClaimActive)
    (fun T r w' => settled T w' pod (hs_dropped s) r).
Proof.
  intros Hlike Hcard Hip Hpod. eapply at_then; [by apply readPod_at|by intros T (? & _) _|].
  intros [pass confirmed] w1. cbv zeta. cbn [fst snd]. destruct confirmed as [confirmed|e].
  - set (observed' := snapshotModelForClaim _ _ _).
    eapply at_then; [apply reportKVLimit_at|done|]. intros s1 w2.
    eapply at_then; [apply (judgeEngine_at claim inst confirmed observed'); by destruct Hlike as [l ->]
                    |by intros T (((_ & Hb & _) & _) & _) _|].
    intros [inst' state'] w3. cbn [fst snd]. apply at_ret. cbn.
    intros T ((((_ & Hb & _) & Hu1 & Ht & Hs) & [Hs1 Hd1] & Hu2) & Hu3 & Hb' & Hp & _ & Hj) _.
    split_and!; [|done..|congruence|done|].
    + rewrite Hs1. cbn. eapply truthful_kept; [apply Hu3|]. eapply truthful_kept; [apply Hu2|done].
    + intros _. exists confirmed. split; [|unfold observed'; by destruct Hlike as [l ->]].
      eapply seen_kept; [apply Hu3|]. eapply seen_kept; [apply Hu2|done].
  - apply at_ret. cbn. intros T ((Ht0 & Hb & Hj & Hna) & Hu & Ht & _) _. by split_and!.
Qed.

Lemma holdToKVLimit_at s claim inst pod snapshot observed state w :
  likeClaim claim → cardOf pod = MkNN ns (pod_Name pod) → pod_IP pod = ipOf (cardOf pod) → inst_Pod inst = pod_Name pod →
  tracks (holdToKVLimit s claim inst pod snapshot observed state) w
    (fun T => truthful T w (ps_readings (hs_pass s)) ∧ backed T inst ∧ judged inst observed state ∧ es_phase state ≠ ModelClaimActive)
    (fun T r w' => settled T w' pod (hs_dropped s) r).
Proof.
  intros Hlike Hcard Hip Hpod. unfold holdToKVLimit. cbv zeta. eapply at_then; [apply writeKVLimit_at|done|].
  intros [s1 written] w1. cbn [fst snd]. apply (at_assume (hs_dropped s1 = hs_dropped s)); [by intros T (_ & [_ ?] & _) _|]. intros <-.
  eapply at_conseq with (P := fun T => truthful T w1 (ps_readings (hs_pass (healthForget s1 (pod_Name pod)))) ∧ backed T inst ∧
    judged inst observed state ∧ es_phase state ≠ ModelClaimActive); [| |intros T a w' HQ _; exact HQ].
  2: { intros T ((Ht & Hb & Hj & Hna) & [Hs _] & Hk) _. split_and!; [|done..]. cbn. rewrite Hs.
       eapply truthful_forget; [|exact Ht]. intros ip m Hne. apply Hk. by rewrite Hip, Hcard. }
  change (hs_dropped s1) with (hs_dropped (healthForget s1 (pod_Name pod))). set (s2 := healthForget s1 (pod_Name pod)). clearbody s2.
  destruct written; cbn [negb]; [|apply at_ret; cbn; intros T (Ht & Hb & Hj & Hna) _; by split_and!].
  case_bool_decide; [apply at_ret; cbn; intros T (Ht & Hb & Hj & Hna) _; by split_and!|]. by apply readBack_at.
Qed.

Lemma startMissingEngine_at s claim inst ip w :
  tracks (startMissingEngine s claim inst ip) w (fun T => backed T inst) (fun T r w' =>
    (hs_pass r.1.1.1 = hs_pass s ∧ hs_dropped r.1.1.1 = hs_dropped s) ∧ (backed T r.1.1.2 ∧ inst_Pod r.1.1.2 = inst_Pod inst) ∧
    (∀ ip' m, ip' ≠ ip → limitOf w' ip' m = limitOf w ip' m) ∧
    (r.1.2 = false → ∃ z' why, T z' ∧ (Activate ip (activateRequest claim) z').2 = Err why ∧ callNotDone why = true)).
Proof.
  unfold startMissingEngine.
  eapply at_then with (P0 := fun _ => True) (Q := fun T answer w' => (∀ ip' m, ip' ≠ ip → limitOf w' ip' m = limitOf w ip' m) ∧
    ∃ z', T z' ∧ (Activate ip (activateRequest claim) z').2 = answer); [|done|].
  { apply at_call. intros T _ Hw _. destruct (Activate_touches ip (activateRequest claim) w) as (_ & Hr & Hl).
    split; [intros p; left; apply Hr|]. split; [|by exists w]. intros ip' m Hne. destruct (Hl ip' m) as [?|[-> _]]; done. }
  intros answer w1. destruct answer as [port|why]; [|destruct (isRuntimeSilent why)]; apply at_ret; cbn;
    intros T (Hb & Hk & z' & HT & Hz) _; split_and!; try done.
  intros Hn%negb_false_iff. by exists z', why.
Qed.

Lemma judged_not_held inst observed state :
  judged inst observed state → es_limitInForce state = false →
  es_limitWithinRecord state = false ∨ inst_Phase inst ≠ ModelClaimActive → es_phase state ≠ ModelClaimActive.
Proof.
  intros Hj Hf Hor Ha. destruct (judged_active _ _ _ Hj Ha) as (_ & [?|[? ?]] & _); [congruence|]. destruct Hor; congruence.
Qed.

Lemma settleInstance_at s claim slot inst pod snapshot w :
  likeClaim claim → cardOf pod = MkNN ns (pod_Name pod) → pod_IP pod = ipOf (cardOf pod) → inst_Pod inst = pod_Name pod →
  status_Instances claim !! slot = Some inst →
  tracks (settleInstance s claim slot inst pod snapshot) w
    (fun T => passKept T w s claim ∧ backed T inst ∧ seen T w (cardOf pod) (Ok snapshot))
    (fun T r w' => passKept T w' r.1.1 r.1.2).
Proof.
  intros Hlike Hcard Hip Hpod Hslot. unfold settleInstance. cbv zeta. set (observed := snapshotModelForClaim _ _ _).
  set (s0 := healthPass _ _). assert (ps_readings (hs_pass s0) = ps_readings (hs_pass s)) as Hs0.
  { unfold s0, noteFootprint. by destruct (_ ≫= _). }
  assert (hs_dropped s0 = hs_dropped s) as Hd0 by done. clearbody s0. destruct (engineMissing _ _ _) eqn:Em.
  - eapply at_then; [apply startMissingEngine_at|by intros T (_ & ? & _) _|]. intros [[[s1 inst1] stays] started] w1. cbn [fst snd].
    apply at_ret. cbn [fst snd].
    intros T ((([Hl Hps] & Ht & Hall & Hdw) & _ & [(z & HTz & Hz) _]) & [Hs1 Hd1] & [Hb1 Hp1] & Hk & Hstart) _.
    split_and!; [by apply likeClaim_slot|by erewrite setSlot_pods; [done|by rewrite Hslot|done]| |cbn; by apply Forall_insert|].
    + cbn. rewrite Hs1, Hs0. eapply truthful_forget; [|exact Ht]. intros ip m Hne. apply Hk. by rewrite Hip, Hcard.
    + cbn. rewrite Hd1, Hd0, Hp1. intros name [[<- Hst%negb_true_iff]|[_ Hd]]%lookup_insert_Some; [|by apply Hdw].
      destruct (Hstart Hst) as (z' & why & HTz' & Hz' & Hnd). unfold engineMissing in Em. destruct snapshot as [snapshot|]; [|by rewrite andb_false_r in Em].
      assert (ipOf (MkNN ns (inst_Pod inst)) = ipOf (cardOf pod)) as Hadr by (by rewrite Hpod, Hcard).
      exists z, z', snapshot, why. rewrite Hadr. rewrite Hip in Hz'. breflect. destruct Hlike as [l ->]. by split_and!.
  - eapply at_then; [apply (judgeEngine_at claim inst snapshot observed)|by intros T (_ & ? & _) _|]; [by destruct Hlike as [l ->]|].
    intros [inst1 state] w1. cbn [fst snd].
    eapply at_then with (P0 := fun T => truthful T w1 (ps_readings (hs_pass s)) ∧ backed T inst1 ∧ inst_Pod inst1 = inst_Pod inst ∧
        judged inst1 observed state ∧ grounded T w1 (cardOf pod) observed)
      (Q := fun T r w' => settled T w' pod (hs_dropped s) r).
    + apply (at_assume (inst_Pod inst1 = pod_Name pod)); [intros T (_ & _ & -> & _) _; exact Hpod|]. intros Hpod1. rewrite <-Hd0.
      destruct (_ && _ && _) eqn:Eh.
      * eapply at_conseq; [by apply holdToKVLimit_at| |auto]. intros T (Ht & Hb & _ & Hj & _) _. rewrite Hs0. split_and!; [done..|].
        eapply judged_not_held; [done|..]; breflect; [done|].
        match goal with H : _ || _ = true |- _ => apply orb_true_iff in H as [?|?] end; breflect; auto.
      * apply at_ret. cbn. intros T (Ht & Hb & _ & Hj & Hg) _. rewrite Hs0. by split_and!.
    + intros T (((_ & Ht & _) & _ & Hseen) & Hu & Hb & Hp & _ & Hj) _. split_and!; [|done..|].
      * eapply truthful_kept; [apply Hu|done].
      * exists snapshot. split; [by eapply seen_kept; [apply Hu|]|unfold observed; by destruct Hlike as [l ->]].
    + intros [[[s2 inst2] state2] observed2] w2. apply (at_assume (inst_Pod inst2 = pod_Name pod)); [by intros T (_ & _ & _ & _ & ? & _) _|].
      intros Hp2. eapply at_then; [apply settlePhase_at; [done|by rewrite Hslot; cbn; congruence]| |intros [s3 claim3] w3; apply at_ret; cbn [fst snd]; by intros T [_ ?] _].
      intros T (((([Hl Hps] & _ & Hall & Hdw) & _) & _) & Ht & Hd & Hb & _ & Hj & Hg) _.
      split_and!; try done. unfold passKept. rewrite Hd. by split_and!.
Qed.

Lemma checkInstance_at s claim slot w :
  likeClaim claim →
  tracks (checkInstance s claim slot) w (fun T => passKept T w s claim) (fun T r w' => passKept T w' r.1.1 r.1.2).
Proof.
  intros Hlike. unfold checkInstance. destruct (status_Instances claim !! slot) as [inst|] eqn:Ei; [|by apply at_ret].
  destruct (negb _); [by apply at_ret|].
  eapply at_then with (P0 := fun _ => True) (Q := fun T got w' => untouched w w' ∧ ∀ pod, got = Ok pod →
    cardOf pod = MkNN ns (inst_Pod inst) ∧ (pod_IP pod = "" ∨ pod_IP pod = ipOf (MkNN ns (inst_Pod inst)))); [|done|].
  { apply at_call. intros T _ _ _. pose proof (GetPod_untouched (MkNN (mc_Namespace claim) (inst_Pod inst)) w) as Hu.
    split; [by apply untouched_routed|]. split; [done|]. intros pod Hok%GetPod_pod. by destruct Hlike as [l ->]. }
  intros got w1. assert (∀ T, passKept T w s claim ∧ untouched w w1 → passKept T w1 s claim) as Hkept.
  { intros T [([Hl Hps] & Ht & Hb & Hd) Hu]. split_and!; try done. eapply truthful_kept; [apply Hu|done]. }
  destruct got as [pod|]; [|apply at_ret; intros T (? & ? & _) _; by apply Hkept].
  case_bool_decide as Eip; [apply at_ret; intros T (? & ? & _) _; by apply Hkept|].
  apply (at_assume (cardOf pod = MkNN ns (inst_Pod inst) ∧ pod_IP pod = ipOf (MkNN ns (inst_Pod inst)))).
  { intros T (_ & _ & Hpod) _. by destruct (Hpod pod eq_refl) as [? [?|?]]. }
  intros [Hc Hip].
  assert (pod_Name pod = inst_Pod inst) as Hname by (by injection Hc).
  eapply at_then; [apply readPod_at; [by rewrite Hname|by rewrite Hip, Hc]| |].
  { intros T (Hp & Hu & _) _. by apply Hkept. }
  intros [pass reply] w2. cbn [fst snd]. destruct reply as [snapshot|e].
  - eapply at_conseq; [apply settleInstance_at; [done|by rewrite Hname|by rewrite Hip, Hc|done|done]| |auto].
    intros T ((([Hl Hps] & _ & Hb & Hd) & _) & Hu & Ht & Hs) _. split_and!; try done. by eapply Forall_lookup_1 in Hb.
  - apply at_ret. cbn [fst snd]. intros T ((([Hl Hps] & _ & Hb & Hd) & _) & Hu & Ht & _) _. by split_and!.
Qed.

Lemma checkInstances_at s claim slot n booting w :
  tracks (checkInstances s claim slot n booting) w (fun T => passKept T w s claim) (fun T r w' => passKept T w' r.1.1 r.1.2).
Proof.
  revert s claim slot booting w. induction n as [|n IH]; intros s claim slot booting w; simpl; [by apply at_ret|].
  apply (at_assume (likeClaim claim)); [by intros T ([? _] & _) _|]. intros Hlike.
  eapply at_bind; [by apply checkInstance_at|]. intros [[s1 claim1] boots] w1. apply IH.
Qed.

Lemma deannotate_at podName claimName w :
  tracks (deannotateWarmPod ns podName claimName) w (fun _ => True) (fun _ _ _ => True).
Proof.
  unfold deannotateWarmPod. eapply at_then with (P0 := fun _ => True) (Q := fun _ _ _ => True); [|done|].
  { apply at_call. intros. split; [|done]. apply untouched_routed, GetPod_untouched. }
  intros got w1. destruct got as [pod|]; [|by apply at_ret]. cbv zeta. destruct (_ && _); [by apply at_ret|].
  eapply at_then with (P0 := fun _ => True) (Q := fun _ _ _ => True); [|done|intros; by apply at_ret].
  apply at_call. intros T _ _ _. split; [|done]. intros p.
  destruct (RemoveAnnotations_law (MkNN (pod_Namespace pod) (pod_Name pod)) {[routeKey claimName; wakeKey claimName]} w1)
    as (_ & _ & Hr & _). destruct (Hr p c) as [?|(_ & _ & ->)]; [by left|]. right. left. by left.
Qed.

(** An instance is gone only when it was to be dropped. *)
Lemma dropInstancesOf_at claim dropped instances w :
  likeClaim claim → tracks (dropInstancesOf claim dropped instances) w (fun _ => True) (fun _ kept _ =>
    ∀ inst, inst ∈ instances → inst ∈ kept ∨ dropped !! inst_Pod inst = Some true).
Proof.
  intros Hlike. assert (mc_Namespace claim = ns) as Hns by (by destruct Hlike as [l ->]). revert w.
  induction instances as [|inst rest IH]; intros w; simpl; [apply at_ret; intros T _ _ i Hi; by apply not_elem_of_nil in Hi|].
  rewrite Hns. destruct (dropped !! inst_Pod inst) as [[|]|] eqn:Ed; simpl.
  1: { eapply at_then; [by apply deannotate_at|done|]. intros u w1. eapply at_conseq; [apply IH|done|].
       intros T kept w' Hk _ i [->|Hi]%elem_of_cons; [by right|by apply Hk]. }
  all: eapply at_then; [apply IH|done|]; intros kept w1; apply at_ret; intros T [_ Hk] _ i [->|Hi]%elem_of_cons;
    [left; left|destruct (Hk i Hi); [left; by right|by right]].
Qed.

Lemma health_at pass warned backoff w :
  tracks (reconcileInstanceHealth pass warned backoff pm) w (fun T => truthful T w (ps_readings pass)) (fun T r _ =>
    ∀ inst, inst ∈ status_Instances pm →
      inst_Pod inst ∈ inst_Pod <$> status_Instances r.1.2 ∨ neverStarted T (inst_Pod inst)).
Proof.
  unfold reconcileInstanceHealth. eapply at_then; [apply checkInstances_at|..].
  { intros T Ht _. split_and!; [exists (status_Instances pm); by rewrite setInstances_id|done|done| |].
    - apply Forall_forall. intros inst Hi. exists (inst_KVLimitBytes inst). split; [|by left]. left. by exists inst.
    - intros name Hn. cbn in Hn; by rewrite lookup_empty in Hn. }
  intros [[s claim] booting] w1. cbn [fst snd]. apply (at_assume (likeClaim claim)); [by intros T (_ & [? _] & _) _|]. intros Hlike.
  unfold dropInstances. eapply at_then with (P0 := fun _ => True) (Q := fun _ r _ =>
    ∀ inst, inst ∈ status_Instances claim → inst ∈ status_Instances r.1 ∨ hs_dropped s !! inst_Pod inst = Some true); [|done|].
  { eapply at_then; [by apply dropInstancesOf_at|done|]. intros kept w2. apply at_ret. by intros T [_ Hk] _. }
  intros [claim' gone] w2. apply at_ret. cbn [fst snd]. intros T ((_ & [_ Hps] & _ & _ & Hd) & Hk) _ inst Hi.
  assert (inst_Pod inst ∈ inst_Pod <$> status_Instances claim) as (i & -> & Hi')%list_elem_of_fmap.
  { rewrite Hps. by apply list_elem_of_fmap_2. }
  destruct (Hk i Hi') as [?|?]; [left; by apply list_elem_of_fmap_2|right; by apply Hd].
Qed.
End Held.

Lemma truthful_mono `{HEL : EngineLaws W} pm (T T' : W → Prop) w rr :
  (∀ x, T x → T' x) → truthful pm T w rr → truthful pm T' w rr.
Proof. intros Hi Ht name reading Hr. destruct (Ht name reading Hr) as [(z & Hz & Hs) Hl]. split; [|done]. exists z. auto. Qed.

(** The moments of a pass, with those that the readings it began with were taken at. *)
Definition momentsOf {W A} (before : W → Prop) (m : Run W A) (w : W) : W → Prop :=
  fun x => before x ∨ x ∈ w :: visited m w.

(** C10: An engine goes on its route only as it was read.  At every moment of a
    health check, the route of the claim on a pod is the one it had before, sends
    nothing to the engine (it is gone, or gives port 0 with another state), or was
    opened in this pass: the engine was then read ready at the very port, and was
    held to no more than a limit recorded for its instance, if one was. *)
Theorem routes_open_on_held_engines `{HEL : EngineLaws W} pm pass warned backoff (before : W → Prop) w :
  truthful pm before w (ps_readings pass) →
  let m := reconcileInstanceHealth pass warned backoff pm in
  let T := momentsOf before m w in
  ∀ x p, x ∈ final m w :: visited m w →
    routeAt x p (mc_Name pm) = routeAt w p (mc_Name pm) ∨ closedRoute pm (routeAt x p (mc_Name pm)) ∨
    ∃ y port reason, T y ∧ heldOpen pm T y p port ∧
      routeAt y p (mc_Name pm) = Some (routeValue pm port ModelClaimRoutingStateActive reason) ∧
      routeAt x p (mc_Name pm) = routeAt y p (mc_Name pm).
Proof.
  intros Ht m T x p Hx. destruct (health_at pm pass warned backoff w T) as (_ & Hall & _).
  - eapply truthful_mono; [|exact Ht]. intros. by left.
  - right. left.
  - apply Forall_forall. intros y Hy. right. by right.
  - eapply Forall_forall in Hall; [|exact Hx]. apply Hall.
Qed.

(** C31: The health check drops no engine that may run.  An instance is no longer
    recorded after it only when the runtime of its pod was read to have no engine
    for the claim and, asked to start one, is known not to have started it. *)
Theorem health_drops_only_the_unstarted `{HEL : EngineLaws W} pm pass warned backoff (before : W → Prop) w :
  truthful pm before w (ps_readings pass) →
  let m := reconcileInstanceHealth pass warned backoff pm in
  ∀ inst, inst ∈ status_Instances pm →
    inst_Pod inst ∈ inst_Pod <$> status_Instances (value m w).1.2 ∨
    neverStarted pm (momentsOf before m w) (inst_Pod inst).
Proof.
  intros Ht m inst Hi. destruct (health_at pm pass warned backoff w (momentsOf before m w)) as (_ & _ & Hk); [..|by apply Hk].
  - eapply truthful_mono; [|exact Ht]. intros. by left.
  - right. left.
  - apply Forall_forall. intros y Hy. right. by right.
Qed.

(** ** A cluster whose runtimes start engines, for the witnesses. *)

Section EngineWitness.
Local Existing Instance NanoK8s.
Local Existing Instance podCluster.
Local Existing Instance podReads.
Local Existing Instance podApi.
Local Existing Instance podLaws.
Local Existing Instance podClusterLaws.

Definition setCards (w : podWorld) (cards : fakeWorld) : podWorld :=
  MkPodWorld cards w.(pw_pods) w.(pw_asleep) w.(pw_answers) w.(pw_engines).

(** An engine starts with most of the card, and is refused by a runtime that
    does not answer well. *)
Definition podEngines : EngineApi (W := podWorld) := {|
  Activate ip req w :=
    if w.(pw_answers) then
      (MkPodWorld (MkFake (<[(ip, act_ModelName req) := 60 * exGiB]> (fw_limits w.(pw_cards))) (fw_used w.(pw_cards))
                     (fw_claims w.(pw_cards))) w.(pw_pods) w.(pw_asleep) w.(pw_answers)
         ({[(ip, MkNN (ref_Namespace (act_ClaimRef req)) (ref_Name (act_ClaimRef req)))]} ∪ w.(pw_engines)), Ok 9000)
    else (w, Err [runtimeRefusal "no free port"]);
  Deactivate ip req w :=
    if w.(pw_answers) then
      (setCards w (MkFake (delete (ip, dea_ModelName req) (fw_limits w.(pw_cards))) (fw_used w.(pw_cards))
                     (fw_claims w.(pw_cards))), Ok ())
    else (w, Err deadlinePassed);
  RemoveAnnotations key names w :=
    match w.(pw_pods) !! key with
    | None => (w, Err ApiNotFound)
    | Some pod =>
        (MkPodWorld w.(pw_cards)
           (<[key := setAnnotations pod (filter (fun kv => kv.1 ∉ names) pod.(pod_Annotations))]> w.(pw_pods))
           w.(pw_asleep) w.(pw_answers) w.(pw_engines), Ok ())
    end;
  GetCachedClaim key := GetClaim key;
  UpdateClaim claim w :=
    (setCards w (MkFake (fw_limits w.(pw_cards)) (fw_used w.(pw_cards))
                   (<[ObjectKeyFromObject claim := claim]> (fw_claims w.(pw_cards)))), Ok claim);
  ListPods namespace selector w :=
    (w, Ok (List.filter (fun pod => bool_decide (pod.(pod_Namespace) = namespace) &&
                                    bool_decide (selectorMatches selector pod.(pod_Labels) = Some true))
              (map_to_list w.(pw_pods)).*2));
|}.
Local Existing Instance podEngines.

Lemma exAddress_inj a b : exAddress a = exAddress b → a = b.
Proof.
  unfold exAddress. repeat case_bool_decide; subst; try done; intros Heq; try (by discriminate Heq).
  by apply (inj (String.append "address of ")) in Heq.
Qed.

Definition podEngineLaws : EngineLaws.
Proof.
  refine {| ipOf p := exAddress (nn_Name p) |}.
  - intros [n1 a] [n2 b]. cbn. by intros -> ->%exAddress_inj.
  - intros key w pod. cbn. destruct (pw_pods w !! key) as [pod'|]; [|done].
    case_bool_decide as E; [|done]. cbn [andb]. case_bool_decide as Ea; [|done]. intros [= <-]. split; [exact E|by right].
  - done.
  - done.
  - done.
  - done.
  - intros ip req w p c. cbn. unfold onCards. cbn. by destruct (fw_limits _ !! _).
  - intros old new w. cbn. by destruct (pw_pods w !! _).
  - intros ip req w. cbn. destruct (pw_answers w); cbn; [|by split_and!; [..|left]]. split_and!; [done..|].
    intros ip' m. destruct (decide ((ip, act_ModelName req) = (ip', m))) as [[= <- <-]|Hne]; [by right|left].
    by rewrite lookup_insert_ne.
  - intros key names w. cbn. destruct (pw_pods w !! key) as [pod|] eqn:Ep; cbn; [|split_and!; [done..|by left|done]].
    split_and!; [done..| |].
    + intros p c. destruct (decide (p = key)) as [->|]; [|left; by rewrite lookup_insert_ne].
      rewrite lookup_insert_eq, Ep. cbn. destruct (decide (routeKey c ∈ names)) as [Hin|Hni].
      * right. split_and!; [done..|]. apply map_lookup_filter_None. right. intros v _. by intros [].
      * left. destruct (pod_Annotations pod !! routeKey c) as [v|] eqn:Ev;
          [by apply map_lookup_filter_Some|apply map_lookup_filter_None; by left].
    + intros _ c Hin. rewrite lookup_insert_eq. cbn. apply map_lookup_filter_None. right. intros v _. by intros [].
Defined.
Local Existing Instance podEngineLaws.

(** An engine that has started with most of the card, and its instance, which
    records 8 GiB. *)
Definition exStarting : ModelClaim := exClaim "alpha" ModelClaimActivating.
Definition exStarted (limit : gmap (string * string) Z) (answers : bool) : podWorld :=
  MkPodWorld (MkFake limit ∅ {[MkNN "ns" "alpha" := exStarting]}) {[MkNN "ns" "pod-a" := exPod]} ∅ answers ∅.
Definition exHealth : Run podWorld (healthState * placementBackoff * ModelClaim * bool) :=
  reconcileInstanceHealth exPass ∅ ∅ exStarting.
Definition exBooted : podWorld := exStarted {[("10.0.0.1", "alpha") := 60 * exGiB]} true.

Lemma noReadings_truthful pm (T : podWorld → Prop) w : truthful pm T w (ps_readings exPass).
Proof. intros name reading Hr. cbn in Hr. by rewrite lookup_empty in Hr. Qed.

Lemma routes_open_on_held_engines_witness :
  let x := final exHealth exBooted in
  let p := MkNN "ns" "pod-a" in
  limitOf exBooted "10.0.0.1" "alpha" = Some (60 * exGiB) ∧ limitOf x "10.0.0.1" "alpha" = Some (8 * exGiB) ∧
  routeAt exBooted p "alpha" = None ∧ routeAt x p "alpha" = Some (routeValue exStarting 9000 ModelClaimRoutingStateActive "") ∧
  (routeAt x p "alpha" = routeAt exBooted p "alpha" ∨ closedRoute exStarting (routeAt x p "alpha") ∨
   ∃ y port reason, momentsOf (fun _ => False) exHealth exBooted y ∧
     heldOpen exStarting (momentsOf (fun _ => False) exHealth exBooted) y p port ∧
     routeAt y p "alpha" = Some (routeValue exStarting port ModelClaimRoutingStateActive reason) ∧
     routeAt x p "alpha" = routeAt y p "alpha").
Proof.
  split; [vm_compute; reflexivity|]. split; [vm_compute; reflexivity|]. split; [vm_compute; reflexivity|].
  split; [vm_compute; reflexivity|].
  exact (routes_open_on_held_engines exStarting exPass ∅ ∅ (fun _ => False) exBooted (noReadings_truthful _ _ _)
    (final exHealth exBooted) (MkNN "ns" "pod-a") ltac:(left)).
Defined.

(** No engine, and a runtime that refuses to start one. *)
Lemma health_drops_only_the_unstarted_witness :
  let w := exStarted ∅ false in
  status_Instances (value exHealth w).1.2 = [] ∧
  (∀ inst, inst ∈ status_Instances exStarting →
    inst_Pod inst ∈ inst_Pod <$> status_Instances (value exHealth w).1.2 ∨
    neverStarted exStarting (momentsOf (fun _ => False) exHealth w) (inst_Pod inst)).
Proof.
  split; [vm_compute; reflexivity|].
  exact (health_drops_only_the_unstarted exStarting exPass ∅ ∅ (fun _ => False) (exStarted ∅ false) (noReadings_truthful _ _ _)).
Defined.
End EngineWitness.
