(* ===== verification/Activation.v ===== *)
(** * Placing a claim's instances ([ensureActivated] of
    [pkg/controller/modelclaim/modelclaim_controller.go]).

    A claim short of instances is placed where a card's account shows the room
    for it: the card is divided, the instance is recorded, and only then is its
    engine started.  A start known not to have happened is taken back from the
    record; after any other failure the record stays.  An instance whose engine
    failed for good is replaced in its place.

    The wording of the conditions' messages is left open ([worded]): no decision
    reads it. *)

From S2P Require Import Prelude Api Claims Ledger KVPlan Placement Reservations Backoff Runtime ArrangeCard PoolPolicy Division MakeRoom Rfc3339 WakeTurn SleepEngine WakeHandler RoomHandler Engines.

Abbreviation ModelClaimConditionTypeScheduled := "Scheduled" (only parsing).
Abbreviation scheduledReasonWaitingForPlacementTurn := "WaitingForPlacementTurn" (only parsing).

(** ** What a claim is told. *)

Section Messages.
Context `{K8s}.

Inductive refusalMessage : Type :=
| NoPlacement (why : placementMessage)
| TooLarge (needs largest : Z)
| SleepsToMakeRoom (plan : roomPlan)
| PreemptsToMakeRoom (plan : sleepPreemptionPlan)
| CannotMove (from : string) (couldNotWake : bool) (why : refusalMessage).

Inductive scheduleMessage : Type :=
| NotPlacedFor (why : declarationError)
| WaitingBehind (claim : string) (priority : Z)
| PlacedOn (pod : string)
| PlacementRefused (why : refusalMessage).

Record placementRefused : Type := MkPlacementRefused {
  rf_reason : refusedBecause;
  rf_message : refusalMessage;
  rf_rescheduling : bool;
}.

Definition reasonText (reason : refusedBecause) : string :=
  match reason with
  | TooLargeForAnyCard => "TooLargeForAnyCard"
  | MakingRoom => "MakingRoom"
  | NoRoom => "NoMatchingPods"
  end.

(** ** Errors. *)

Inductive activationError : Type :=
| InvalidParallelism (why : engineArgError)
| placementAdmissionReadError (why : apiError)
| NotReserved (why : apiError)
| NotTakenBack (why : apiError)
| NotStarted (why : callError)
| ReplacementNotStarted (why : callError)
| NotAnnotated (why : apiError).

Definition isConflict (err : activationError) : bool :=
  match err with
  | placementAdmissionReadError Conflict | NotReserved Conflict | NotTakenBack Conflict | NotAnnotated Conflict => true
  | _ => false
  end.

(** ** The claim's own lists. *)

Definition podLoadFrom (claims : option (list ModelClaim)) : gmap string Z :=
  match claims with
  | None => ∅
  | Some items =>
      foldl (fun load claim =>
        foldl (fun load inst => <[inst.(inst_Pod) := default 0 (load !! inst.(inst_Pod)) + 1]> load)
          load claim.(status_Instances)) ∅ items
  end.

Definition instancePods (pm : ModelClaim) : gset string := list_to_set (inst_Pod <$> pm.(status_Instances)).

Fixpoint failedFrom (slot : nat) (instances : list ModelClaimInstance) : list nat :=
  match instances with
  | [] => []
  | inst :: rest =>
      if bool_decide (inst.(inst_Phase) = ModelClaimFailed) then slot :: failedFrom (S slot) rest else failedFrom (S slot) rest
  end.
Definition failedInstanceSlots (pm : ModelClaim) : list nat := failedFrom 0 pm.(status_Instances).

Definition setConditions (pm : ModelClaim) (conditions : list Condition) : ModelClaim :=
  setStatus pm pm.(status_Phase) pm.(status_ReadyReplicas) conditions.

(** What a pass works with when it places a claim. *)
Record placeState : Type := MkPlaceState {
  pl_room : roomState;
  pl_divisions : cardDivisionState;
  pl_events : list claimEvent;
}.

Definition onRoom (s : placeState) (room : roomState) : placeState := MkPlaceState room s.(pl_divisions) s.(pl_events).
Definition onBackoff (s : placeState) (b : placementBackoff) : placeState :=
  onRoom s (MkRoomState s.(pl_room).(rs_pass) s.(pl_room).(rs_held) b).
Definition onReadings (s : placeState) (rr : runtimeReadings) : placeState :=
  onRoom s (roomPass s.(pl_room) (setReadings s.(pl_room).(rs_pass) rr)).
Definition onDivisions (s : placeState) (d : cardDivisionState) : placeState := MkPlaceState s.(pl_room) d s.(pl_events).
Definition tell (s : placeState) (events : list claimEvent) : placeState :=
  MkPlaceState s.(pl_room) s.(pl_divisions) (s.(pl_events) ++ events).

(** The variables of the loop. *)
Record placing : Type := MkPlacing {
  pg_claim : ModelClaim;
  pg_admissible : list Pod;
  pg_refusals : list podRefusal;
  pg_alreadyOn : gset string;
  pg_load : gmap string Z;
  pg_failed : list nat;
  pg_stopped : gset string;
}.

Definition withClaim (l : placing) (pm : ModelClaim) : placing :=
  MkPlacing pm l.(pg_admissible) l.(pg_refusals) l.(pg_alreadyOn) l.(pg_load) l.(pg_failed) l.(pg_stopped).

(** The pod is passed over for the rest of the pass. *)
Definition passOver (l : placing) (pod : Pod) (ledger : podLedger) (why : refusalReason) : placing :=
  MkPlacing l.(pg_claim) (withoutPod l.(pg_admissible) pod.(pod_Name))
    (l.(pg_refusals) ++ [MkRefusal pod.(pod_Name) (maximumRoomBytes ledger) true true why])
    l.(pg_alreadyOn) l.(pg_load) l.(pg_failed) l.(pg_stopped).
End Messages.

Section Activation.
Context `{EngineApi W} (locality : option LocalityProvider) (worded : scheduleMessage → string).

(** Sets the Scheduled condition; whether that changed the conditions. *)
Definition setScheduled (pm : ModelClaim) (status : ConditionStatus) (reason : string) (message : scheduleMessage)
  : Run W (ModelClaim * bool) :=
  conditions ← call (SetStatusCondition pm.(status_Conditions)
                       (MkCondition ModelClaimConditionTypeScheduled status zeroTime reason (worded message)));
  mret (setConditions pm conditions, negb (bool_decide (conditions = pm.(status_Conditions)))).

Definition markPlaced (pm : ModelClaim) (pod : Pod) : Run W ModelClaim :=
  '(pm, _) ← setScheduled pm ConditionTrue "Placed" (PlacedOn pod.(pod_Name));
  mret pm.

(** ** A refusal. *)

(** What a pass has read before the loop. *)
Context (perGPU : perGPUBytes) (candidates : list Pod) (claims : option (list ModelClaim))
  (ledgers : gmap string podLedger) (states : gmap string PodPlacementState) (room : option roomSignature).

Definition refusePlacement (s : placeState) (l : placing) : Run W (placeState * placementRefused) :=
  let pm := l.(pg_claim) in
  let needs := perGPU_minimumReserveBytes perGPU in
  let nothing := MkPlacementRefused NoRoom (NoPlacement (noPlacementMessage NoAvailableCandidate l.(pg_admissible) l.(pg_refusals) needs)) false in
  '(s, refused) ←
    (match tooLargeForEveryCard ledgers needs candidates with
     | Some largest =>
         if bool_decide (l.(pg_admissible) = []) then mret (s, Some (MkPlacementRefused TooLargeForAnyCard (TooLarge needs largest) false))
         else mret (s, None)
     | None => mret (s, None)
     end);
  '(s, refused) ←
    (match refused, l.(pg_failed) with
     | None, [] =>
         if sleepsLowerPriority pm then
           '(r, plan) ← makeRoomByPrioritySleep s.(pl_room) pm perGPU candidates claims ledgers states;
           mret (onRoom s r, match plan with
                             | Some plan => MkPlacementRefused MakingRoom (PreemptsToMakeRoom plan) false
                             | None => nothing
                             end)
         else
           '(r, plan) ← makeRoomToPlace s.(pl_room) pm perGPU candidates ledgers;
           mret (onRoom s r, match plan with
                             | Some plan => MkPlacementRefused MakingRoom (SleepsToMakeRoom plan) false
                             | None => nothing
                             end)
     | _, _ => mret (s, default nothing refused)
     end);
  mret (s, match l.(pg_failed) with
           | [] => refused
           | slot :: _ =>
               match pm.(status_Instances) !! slot with
               | Some from => MkPlacementRefused refused.(rf_reason)
                                (CannotMove from.(inst_Pod) (movingReason from.(inst_Reason)) refused.(rf_message)) true
               | None => refused
               end
           end).

(** No pod could be chosen: the claim is told why, and waits. *)
Definition giveUp (s : placeState) (l : placing) : Run W (placeState * placing * option (result activationError Duration)) :=
  let pm := l.(pg_claim) in
  let key := ObjectKeyFromObject pm in
  '(s, refused) ← refusePlacement s l;
  '(pm, changed) ← setScheduled pm ConditionFalse (reasonText refused.(rf_reason)) (PlacementRefused refused.(rf_message));
  let s := if changed : bool
           then tell s [EventScheduled (if refused.(rf_rescheduling) then "ReschedulePending" else reasonText refused.(rf_reason))]
           else s in
  let refusedOn := match claims with Some items => Some (roomSignatureOf candidates (Some items)) | None => room end in
  now ← call Now;
  let '(b, wait) := placementRefusalWait s.(pl_room).(rs_backoff) key pm refused.(rf_reason) room refusedOn now in
  let s := onBackoff s (refusedWithoutReading b key (unreadPods candidates ledgers)) in
  mret (s, withClaim l pm, Some (Ok wait)).

(** ** One instance. *)

(** The limit the newcomer is to run under, once its card is divided. *)
Definition divideFor (s : placeState) (l : placing) (pod : Pod) : Run W (placeState * result makeRoomError Z) :=
  let pm := l.(pg_claim) in
  let ledger := Placement.ledgerOf ledgers pod.(pod_Name) in
  if negb (podHasGPUs pod ledger.(accelerators)) then mret (s, Ok 0)
  else
    '(readings, planned) ← makeRoomOnPod pod ledger s.(pl_room).(rs_pass).(ps_readings) pm perGPU;
    let s := onReadings s readings in
    match planned with
    | Err e => mret (tell s [EventCardNotDivided pod.(pod_Name) e], Err e)
    | Ok bytes =>
        now ← call Now;
        let composition := cardComposition claims pod [compositionEntry pm ModelClaimActivating false] in
        mret (onDivisions s (divided s.(pl_divisions) (cardOf pod) composition now), Ok bytes)
    end.

(** The instances with the new record, where it is, and what it replaces. *)
Definition recordIn (l : placing) (record : ModelClaimInstance) : ModelClaim * nat * option ModelClaimInstance :=
  let pm := l.(pg_claim) in
  match l.(pg_failed) with
  | slot :: _ => (setSlot pm slot record, slot, pm.(status_Instances) !! slot)
  | [] => (setInstances pm (pm.(status_Instances) ++ [record]), length pm.(status_Instances), None)
  end.

(** The record is taken back. *)
Definition takeBack (pm : ModelClaim) (slot : nat) (replaced : option ModelClaimInstance) : ModelClaim :=
  match replaced with
  | Some previous => setSlot pm slot previous
  | None => setInstances pm (take slot pm.(status_Instances))
  end.

(** The engine whose replacement is recorded is stopped, once in a pass. *)
Definition stopReplaced (s : placeState) (l : placing) (replaced : option ModelClaimInstance) : Run W (placeState * placing) :=
  match replaced with
  | None => mret (s, l)
  | Some previous =>
      if bool_decide (previous.(inst_Pod) ∈ l.(pg_stopped)) then mret (s, l)
      else
        readings ← stopFailedEngine l.(pg_claim) previous.(inst_Pod) s.(pl_room).(rs_pass).(ps_readings);
        mret (onReadings s readings,
              MkPlacing l.(pg_claim) l.(pg_admissible) l.(pg_refusals) l.(pg_alreadyOn) l.(pg_load) l.(pg_failed)
                ({[previous.(inst_Pod)]} ∪ l.(pg_stopped)))
  end.

Definition placeOutcome : Type := placeState * placing * option (result activationError Duration).

(** The runtime has answered that it started the engine. *)
Definition started (s : placeState) (l : placing) (pm : ModelClaim) (pod : Pod) (slot : nat)
    (replaced : option ModelClaimInstance) (port : Z) : Run W placeOutcome :=
  let key := ObjectKeyFromObject pm in
  pm ← markPlaced pm pod;
  let s := onBackoff s (placed s.(pl_room).(rs_backoff) key) in
  let s := onRoom s (roomHeld s.(pl_room) (release s.(pl_room).(rs_held) pm.(mc_Namespace) pm.(mc_Name))) in
  let pm := match pm.(status_Instances) !! slot with
            | Some inst => setSlot pm slot (MkInstance inst.(inst_Pod) port inst.(inst_Phase) inst.(inst_KVLimitBytes) inst.(inst_Reason))
            | None => pm
            end in
  '(_, annotated) ← annotateWarmPod pm pod 0;
  match annotated with
  | Err e => mret (s, withClaim l pm, Some (Err (NotAnnotated e)))
  | Ok _ =>
      let name := pod.(pod_Name) in
      let l := MkPlacing pm l.(pg_admissible) l.(pg_refusals) ({[name]} ∪ l.(pg_alreadyOn))
                 (<[name := default 0 (l.(pg_load) !! name) + 1]> l.(pg_load))
                 (match replaced with Some _ => tail l.(pg_failed) | None => l.(pg_failed) end) l.(pg_stopped) in
      mret (tell s [match replaced with
                    | Some previous => EventRescheduled previous.(inst_Reason) previous.(inst_Pod) name
                    | None => EventActivating name port
                    end], l, None)
  end.

(** The start failed. *)
Definition notStarted (s : placeState) (l : placing) (pm : ModelClaim) (pod : Pod) (slot : nat)
    (replaced : option ModelClaimInstance) (why : callError) : Run W placeOutcome :=
  if isRuntimeSilent why then
    updated ← call (StatusUpdate (takeBack pm slot replaced));
    match updated with
    | Err e => mret (s, withClaim l (takeBack pm slot replaced), Some (Err (NotTakenBack e)))
    | Ok pm => mret (s, passOver (withClaim l pm) pod (Placement.ledgerOf ledgers pod.(pod_Name)) CannotBeAskedYet, None)
    end
  else
    pm ← (if negb (callNotDone why) then markPlaced pm pod else mret (takeBack pm slot replaced));
    mret (s, withClaim l pm, Some (Err (match replaced with
                                        | Some _ => ReplacementNotStarted why
                                        | None => NotStarted why
                                        end))).

(** The card is divided: the instance is recorded, and its engine started. *)
Definition placeOn (s : placeState) (l : placing) (pod : Pod) (kvLimitBytes : Z) : Run W placeOutcome :=
  let record := MkInstance pod.(pod_Name) 0 ModelClaimActivating kvLimitBytes "" in
  let '(recorded, slot, replaced) := recordIn l record in
  '(s, l) ← stopReplaced s l replaced;
  updated ← call (StatusUpdate recorded);
  match updated with
  | Err e => mret (s, withClaim l recorded, Some (Err (NotReserved e)))
  | Ok pm =>
      answer ← call (Activate pod.(pod_IP) (activateRequest pm));
      let s := onReadings s (forget s.(pl_room).(rs_pass).(ps_readings) pod.(pod_Name)) in
      match answer with
      | Ok port => started s l pm pod slot replaced port
      | Err why => notStarted s l pm pod slot replaced why
      end
  end.

(** One round of the loop; nothing to return when it goes on. *)
Definition placeOnce (s : placeState) (l : placing) : Run W placeOutcome :=
  let pm := l.(pg_claim) in
  match selectPodForActivationWithState l.(pg_alreadyOn) l.(pg_load) (servedModelName pm) locality states l.(pg_admissible) with
  | None => giveUp s l
  | Some pod =>
      '(s, planned) ← divideFor s l pod;
      match planned with
      | Err _ => mret (s, passOver l pod (Placement.ledgerOf ledgers pod.(pod_Name)) CardNotDivided, None)
      | Ok bytes => placeOn s l pod bytes
      end
  end.

(** Whether the claim is short of an instance. *)
Definition shortOfInstances (l : placing) : bool :=
  wrap32 (Z.of_nat (length l.(pg_claim).(status_Instances)) - Z.of_nat (length l.(pg_failed))) <? desiredReplicas l.(pg_claim).

(** The loop, at most [fuel] rounds of it. *)
Fixpoint placeAll (fuel : nat) (s : placeState) (l : placing) : Run W placeOutcome :=
  if negb (shortOfInstances l) then mret (s, l, Some (Ok 0))
  else
    match fuel with
    | O => mret (s, l, None)
    | S fuel =>
        '(s, l, out) ← placeOnce s l;
        match out with
        | Some r => mret (s, l, Some r)
        | None => placeAll fuel s l
        end
    end.
End Activation.

Section EnsureActivated.
Context `{EngineApi W} (locality : option LocalityProvider) (worded : scheduleMessage → string).

(** The loop, from the accounts. *)
Definition placeWith (s : placeState) (pm : ModelClaim) (perGPU : perGPUBytes) (candidates : list Pod)
    (claims cached : option (list ModelClaim)) (ledgers : gmap string podLedger) (states : gmap string PodPlacementState)
    (room : option roomSignature) : Run W (placeState * ModelClaim * option (result activationError Duration)) :=
  let '(admissible, refusals) := admissibleCandidates ledgers (perGPU_minimumReserveBytes perGPU) (instanceGPUCount pm) candidates in
  '(s, l, out) ← placeAll locality worded perGPU candidates claims ledgers (rankByRoom states ledgers) room
                   (S (length admissible)) s
                   (MkPlacing pm admissible refusals (instancePods pm) (podLoadFrom cached) (failedInstanceSlots pm) ∅);
  mret (s, l.(pg_claim), out).

(** The accounts are read, and the claim is placed when it has its turn. *)
Definition placeInTurn (s : placeState) (pm : ModelClaim) (perGPU : perGPUBytes) (parallelism : Z) (candidates : list Pod)
    (cached : option (list ModelClaim)) (room : option roomSignature)
  : Run W (placeState * ModelClaim * option (result activationError Duration)) :=
  '(readings, snapshots) ← ofPods s.(pl_room).(rs_pass).(ps_readings) candidates;
  let s := onReadings s readings in
  let states := placementStatesFrom snapshots candidates pm.(spec_ArtifactURL) parallelism in
  listed ← call (ListClaims pm.(mc_Namespace));
  let claims := match listed with Ok items => Some items | Err _ => None end in
  without ← podsWithoutWakeReserve candidates;
  let ledgers := podLedgersFrom snapshots without claims candidates in
  now ← call Now;
  let '(held, ledgers) := takeFrom s.(pl_room).(rs_held) ledgers pm.(mc_Namespace) pm.(mc_Name) now in
  later ← call Now;
  let '(held, ledgers) := keepWakesOutOfPreemption held ledgers claims (Some pm) later in
  let s := onRoom s (roomHeld s.(pl_room) held) in
  if bool_decide (pm.(status_Instances) = []) then
    match listed with
    | Err e => mret (s, pm, Some (Err (placementAdmissionReadError e)))
    | Ok items =>
        '(r, blocker) ← placementTurnBlocker s.(pl_room) pm candidates items ledgers;
        let s := onRoom s r in
        match blocker with
        | None => placeWith s pm perGPU candidates claims cached ledgers states room
        | Some blocker =>
            '(pm, changed) ← setScheduled worded pm ConditionFalse scheduledReasonWaitingForPlacementTurn
                               (WaitingBehind blocker.(mc_Name) blocker.(spec_Priority));
            let s := if changed : bool then tell s [EventScheduled scheduledReasonWaitingForPlacementTurn] else s in
            mret (s, pm, Some (Ok DefaultRequeueDuration))
        end
    end
  else placeWith s pm perGPU candidates claims cached ledgers states room.

Definition ensureActivated (s : placeState) (pm : ModelClaim) (candidates : list Pod)
  : Run W (placeState * ModelClaim * option (result activationError Duration)) :=
  let key := ObjectKeyFromObject pm in
  listed ← call (ListCachedClaims pm.(mc_Namespace));
  let cached := match listed with Ok items => Some items | Err _ => None end in
  let room := Some (roomSignatureOf candidates cached) in
  now ← call Now;
  let '(b, (isDue, remaining)) := due s.(pl_room).(rs_backoff) key pm.(mc_Generation) room now in
  let s := onBackoff s b in
  if negb isDue then mret (s, pm, Some (Ok remaining))
  else
    match modelParallelism pm with
    | Err why => mret (s, pm, Some (Err (InvalidParallelism why)))
    | Ok parallelism =>
        match perGPUBytesOf pm with
        | Err why =>
            '(pm, changed) ← setScheduled worded pm ConditionFalse "InvalidPerGPU" (NotPlacedFor why);
            let s := if changed : bool then tell s [EventScheduled "InvalidPerGPU"] else s in
            mret (s, pm, Some (Ok 0))
        | Ok perGPU => placeInTurn s pm perGPU parallelism candidates cached room
        end
    end.

(** An instance whose engine failed for good is replaced in the pass that found
    it. *)
Definition rescheduleFailedInstances (s : placeState) (pm : ModelClaim) (candidates : list Pod)
  : Run W (placeState * ModelClaim * option activationError) :=
  if bool_decide (failedInstanceSlots pm = []) then mret (s, pm, None)
  else
    '(s, pm, out) ← ensureActivated s pm candidates;
    mret (s, pm, match out with Some (Err e) => Some e | _ => None end).
End EnsureActivated.
