(* ===== verification/ActivationFacts.v ===== *)
(** * What placement guarantees ([Activation]).

    The loop that places a claim ends: each round uses up a pod.  An engine is
    started only while its instance is recorded at the API server, and every
    engine that a placement may have started is on a pod that the claim records
    when the placement is over, whatever failed on the way. *)

From S2P Require Import Prelude Api Claims Ledger KVPlan Placement Reservations Backoff Runtime ArrangeCard PoolPolicy Division MakeRoom Rfc3339 WakeTurn SleepEngine WakeHandler RoomHandler Calls WakeFacts Engines InstanceHealth HealthFacts Activation.

(** ** The loop ends. *)

Section Ends.
Context `{EngineApi W} (locality : option LocalityProvider) (worded : scheduleMessage → string)
  (perGPU : perGPUBytes) (candidates : list Pod) (claims : option (list ModelClaim))
  (ledgers : gmap string podLedger) (states : gmap string PodPlacementState) (room : option roomSignature).

(** The pods that are left to try. *)
Definition podsLeft (l : placing) : nat :=
  length (List.filter (fun pod => negb (bool_decide (pod_Name pod ∈ pg_alreadyOn l))) (pg_admissible l)).

Lemma filter_length_lt {A} (f g : A → bool) (l : list A) x :
  (∀ y, g y = true → f y = true) → x ∈ l → f x = true → g x = false →
  (length (List.filter g l) < length (List.filter f l))%nat.
Proof.
  intros Hfg Hx Hf Hg. assert (∀ l, (length (List.filter g l) ≤ length (List.filter f l))%nat) as Hle.
  { clear Hx. intros l'. induction l' as [|y l' IH]; simpl; [done|]. destruct (g y) eqn:E; [rewrite (Hfg y E); simpl; lia|].
    destruct (f y); simpl; lia. }
  induction l as [|y l IH]; [by apply not_elem_of_nil in Hx|]. simpl. specialize (Hle l).
  apply elem_of_cons in Hx as [<-|Hx]; [rewrite Hf, Hg; simpl; lia|]. specialize (IH Hx).
  destruct (g y) eqn:E; [rewrite (Hfg y E); simpl; lia|]. destruct (f y); simpl; lia.
Qed.

Lemma filter_filter {A} (f g : A → bool) l : List.filter f (List.filter g l) = List.filter (fun x => g x && f x) l.
Proof. induction l as [|x l IH]; simpl; [done|]. destruct (g x); simpl; [|done]. destruct (f x); by rewrite IH. Qed.

Lemma select_listed alreadyOn load model pods pod :
  selectPodForActivationWithState alreadyOn load model locality states pods = Some pod → pod ∈ pods ∧ pod_Name pod ∉ alreadyOn.
Proof.
  unfold selectPodForActivationWithState. set (step := fun best pod => _). intros (r & Hr & ->)%fmap_Some.
  enough (∀ rest best, (∀ b, best = Some b → rk_pod b ∈ pods ∧ pod_Name (rk_pod b) ∉ alreadyOn) → (∀ p, p ∈ rest → p ∈ pods) →
    ∀ b, foldl step best rest = Some b → rk_pod b ∈ pods ∧ pod_Name (rk_pod b) ∉ alreadyOn) as Hgen.
  { by apply (Hgen pods None). }
  induction rest as [|p rest IH]; intros best Hbest Hrest b Hf; simpl in Hf; [by apply Hbest|].
  eapply IH; [| |exact Hf]; [|intros q Hq; apply Hrest; by right]. intros b' Hb'. unfold step in Hb'. case_bool_decide; [by apply Hbest|].
  unfold keepBest in Hb'. repeat case_match; simplify_eq; try by apply Hbest.
  all: by (split; [apply Hrest; left|]).
Qed.

(** A round that goes on has used up a pod. *)
Lemma placeOnce_uses s l :
  yields (placeOnce locality worded perGPU candidates claims ledgers states room s l) (fun r => r.2 = None → (podsLeft r.1.2 < podsLeft l)%nat).
Proof.
  unfold placeOnce. destruct (selectPodForActivationWithState _ _ _ _ _ _) as [pod|] eqn:Es.
  2: { unfold giveUp. returns idtac; done. }
  apply select_listed in Es as [Hin Hnot].
  assert (∀ l', pg_admissible l' = withoutPod (pg_admissible l) (pod_Name pod) → pg_alreadyOn l' = pg_alreadyOn l →
    (podsLeft l' < podsLeft l)%nat) as Hover.
  { intros l' Ha Ho. unfold podsLeft, withoutPod in *. rewrite Ha, Ho, filter_filter. apply (filter_length_lt _ _ _ pod).
    - by intros y [_ ?]%andb_true_iff.
    - done.
    - by rewrite negb_true_iff, bool_decide_eq_false.
    - by rewrite bool_decide_true. }
  assert (∀ l', pg_admissible l' = pg_admissible l → pg_alreadyOn l' = {[pod_Name pod]} ∪ pg_alreadyOn l →
    (podsLeft l' < podsLeft l)%nat) as Hon.
  { intros l' Ha Ho. unfold podsLeft. rewrite Ha, Ho. apply (filter_length_lt _ _ _ pod).
    - intros y. rewrite !negb_true_iff, !bool_decide_eq_false. set_solver.
    - done.
    - by rewrite negb_true_iff, bool_decide_eq_false.
    - rewrite negb_false_iff, bool_decide_eq_true. set_solver. }
  unfold divideFor. eapply (yields_bind _ _ (fun _ => True)); [apply yields_any|]. intros [s1 planned] _.
  destruct planned as [bytes|e]; [|apply yields_ret; intros _; by apply Hover].
  unfold placeOn. destruct (recordIn _ _) as [[recorded slot] replaced].
  apply (yields_bind _ _ (fun r => pg_admissible r.2 = pg_admissible l ∧ pg_alreadyOn r.2 = pg_alreadyOn l)).
  { unfold stopReplaced. destruct replaced; [|by apply yields_ret]. returns idtac; done. }
  intros [s2 l2] [Ha2 Ho2]. cbn [snd] in Ha2, Ho2. eapply (yields_bind _ _ (fun _ => True)); [apply yields_any|]. intros updated _.
  destruct updated as [pm|e]; [|by apply yields_ret]. eapply (yields_bind _ _ (fun _ => True)); [apply yields_any|]. intros answer _.
  destruct answer as [port|why].
  - unfold started. returns idtac; intros ?; try done. apply Hon; cbn [fst snd pg_admissible pg_alreadyOn]; by rewrite ?Ha2, ?Ho2.
  - unfold notStarted. destruct (isRuntimeSilent why); returns idtac; intros ?; try done. apply Hover; cbn [fst snd pg_admissible pg_alreadyOn passOver withClaim]; by rewrite ?Ha2, ?Ho2.
Qed.

(** With a round for each pod, and one more, the loop comes to its end. *)
Lemma placeAll_returns fuel s l :
  (podsLeft l < fuel)%nat →
  yields (placeAll locality worded perGPU candidates claims ledgers states room fuel s l) (fun r => is_Some r.2).
Proof.
  revert s l. induction fuel as [|fuel IH]; intros s l Hf; [lia|]. simpl. destruct (negb _); [by apply yields_ret|].
  eapply yields_bind; [apply placeOnce_uses|]. intros [[s1 l1] out] Hu. cbn [fst snd] in Hu.
  destruct out; [by apply yields_ret|]. apply IH. specialize (Hu eq_refl). lia.
Qed.
End Ends.

Lemma placeWith_returns `{EngineApi W} locality worded s pm perGPU candidates claims cached ledgers states room :
  yields (placeWith locality worded s pm perGPU candidates claims cached ledgers states room) (fun r => is_Some r.2).
Proof.
  unfold placeWith. destruct (admissibleCandidates _ _ _ _) as [admissible refusals].
  eapply yields_bind; [apply placeAll_returns|].
  - unfold podsLeft. cbn [pg_admissible pg_alreadyOn]. apply Nat.lt_succ_r, List.filter_length_le.
  - intros [[s1 l] out] Hout. by apply yields_ret.
Qed.

Lemma placeInTurn_returns `{EngineApi W} locality worded s pm perGPU parallelism candidates cached room :
  yields (placeInTurn locality worded s pm perGPU parallelism candidates cached room) (fun r => is_Some r.2).
Proof.
  unfold placeInTurn. cbv zeta.
  repeat first [apply placeWith_returns | by apply yields_ret | eapply (yields_bind _ _ (fun _ => True)); [apply yields_any|intros ? _]
               | match goal with |- yields (match ?x with _ => _ end) _ => destruct x end].
Qed.

(** Placement comes to an end.  Every round of the loop of [ensureActivated]
    that does not return uses up a candidate, so it returns, with a wait or an
    error, after as many rounds as there are admissible candidates and one. *)
Theorem placement_ends `{EngineApi W} locality worded s pm candidates w :
  ∃ r, (value (ensureActivated locality worded s pm candidates) w).2 = Some r.
Proof.
  enough (yields (ensureActivated locality worded s pm candidates) (fun r => is_Some r.2)) as Hy.
  { destruct (Hy w) as [r Hr]. by exists r. }
  unfold ensureActivated. cbv zeta. do 2 (eapply (yields_bind _ _ (fun _ => True)); [apply yields_any|intros ? _]).
  destruct (due _ _ _ _ _) as [b [isDue remaining]]. destruct (negb isDue); [by apply yields_ret|].
  destruct (modelParallelism pm); [|by apply yields_ret]. destruct (perGPUBytesOf pm); [apply placeInTurn_returns|].
  returns idtac; done.
Qed.

(** ** Engines and their records. *)

(** Which claims have an engine at a runtime's address, however it fares. *)
Class StartLaws `{HL : ClusterLaws W} {HR : ClusterReads} {HP : PodApi} {HE : EngineApi} := {
  engineAt : W → string → NamespacedName → bool;
  fewer w w' := ∀ ip key, engineAt w' ip key = true → engineAt w ip key = true;

  (** Only a start makes an engine, and not one that is known not to have
      happened. *)
  fewer_reads :: ReadsIn fewer;
  fewer_status :: StatusIn fewer;
  SetKVLimit_fewer ip req w : fewer w (SetKVLimit ip req w).1;
  fewer_sleeps :: SleepsIn fewer;
  GetPod_fewer key w : fewer w (GetPod key w).1;
  Deactivate_fewer ip req w : fewer w (Deactivate ip req w).1;
  RemoveAnnotations_fewer key names w : fewer w (RemoveAnnotations key names w).1;
  Activate_starts ip req w ip' key :
    engineAt (Activate ip req w).1 ip' key = true → engineAt w ip' key = true ∨
      (ip' = ip ∧ key = MkNN (ref_Namespace (act_ClaimRef req)) (ref_Name (act_ClaimRef req)) ∧
       ∀ why, (Activate ip req w).2 = Err why → callNotDone why = false);

  (** What is stored of a status is what was sent. *)
  StatusUpdate_returns claim w stored : (StatusUpdate claim w).2 = Ok stored →
    ObjectKeyFromObject stored = ObjectKeyFromObject claim ∧ status_Instances stored = status_Instances claim;
}.

#[export] Instance fewer_limits `{HS : StartLaws W} : LimitsIn fewer.
Proof. split; [apply SetKVLimit_fewer|]. intros A m. apply (within_RetryOnConflict fewer). Qed.

Section Accounted.
Context `{HS : StartLaws W} (locality : option LocalityProvider) (worded : scheduleMessage → string).
Context (key : NamespacedName) (candidates : list Pod) (w0 : W).

(** The start of an engine on a pod was asked for at [y], while the claim's
    instance there was recorded. *)
Definition startedOnRecord (T : W → Prop) (ip : string) : Prop :=
  ∃ y pod bytes req, T y ∧ T (Activate ip req y).1 ∧ pod ∈ candidates ∧ pod_IP pod = ip ∧
    (pod_Name pod, bytes) ∈ recordsOf y key.

Definition startsWell (T : W → Prop) (w x : W) : Prop :=
  ∀ ip, engineAt x ip key = true → engineAt w ip key = true ∨ startedOnRecord T ip.

#[local] Instance startsWell_preorder T : PreOrder (startsWell T).
Proof.
  split; [by left|]. intros x y z Hxy Hyz ip Hz. destruct (Hyz ip Hz) as [Hy|?]; [by apply Hxy|by right].
Qed.

Lemma fewer_starts T w x : fewer w x → startsWell T w x.
Proof. intros Hf ip Hx. left. by apply Hf. Qed.

(** An engine that is new is on a pod that the claim records, in a slot that is
    not to be replaced. *)
Definition recordedAt (claim : ModelClaim) (failed : list nat) (ip : string) : Prop :=
  ∃ i inst pod, status_Instances claim !! i = Some inst ∧ (i ∉ failed) ∧ pod ∈ candidates ∧
    inst_Pod inst = pod_Name pod ∧ pod_IP pod = ip.

Definition accounted (w : W) (claim : ModelClaim) (failed : list nat) : Prop :=
  ObjectKeyFromObject claim = key ∧
  ∀ ip, engineAt w ip key = true → engineAt w0 ip key = true ∨ recordedAt claim failed ip.

Record wellPlaced (w : W) (l : placing) : Prop := MkWellPlaced {
  wp_accounted : accounted w (pg_claim l) (pg_failed l);
  wp_nodup : NoDup (pg_failed l);
  wp_slots : Forall (fun slot => (slot < length (status_Instances (pg_claim l)))%nat) (pg_failed l);
  wp_admissible : ∀ pod, pod ∈ pg_admissible l → pod ∈ candidates;
}.

Lemma accounted_fewer w w' claim failed : fewer w w' → accounted w claim failed → accounted w' claim failed.
Proof. intros Hf [Hk Ha]. split; [done|]. intros ip Hip. by apply Ha, Hf. Qed.

Lemma accounted_less w claim failed failed' : failed' ⊆ failed → accounted w claim failed → accounted w claim failed'.
Proof.
  intros Hs [Hk Ha]. split; [done|]. intros ip Hip. destruct (Ha ip Hip) as [?|(i & inst & pod & ? & Hi & ?)]; [by left|right].
  exists i, inst, pod. set_solver.
Qed.

(** ** The record of a new instance. *)

Lemma takeBack_instances l record pm :
  Forall (fun slot => (slot < length (status_Instances (pg_claim l)))%nat) (pg_failed l) →
  let '(recorded, slot, replaced) := recordIn l record in
  status_Instances pm = status_Instances recorded → status_Instances (takeBack pm slot replaced) = status_Instances (pg_claim l).
Proof.
  intros Hf. unfold recordIn. destruct (pg_failed l) as [|slot rest].
  - cbn. intros ->. by rewrite take_app_length.
  - apply Forall_cons in Hf as [Hlt _]. destruct (lookup_lt_is_Some_2 _ _ Hlt) as [previous Hp]. rewrite Hp. cbn. intros ->.
    rewrite list_insert_insert_eq. by apply list_insert_id.
Qed.

Lemma recordIn_at l record :
  Forall (fun slot => (slot < length (status_Instances (pg_claim l)))%nat) (pg_failed l) →
  let '(recorded, slot, replaced) := recordIn l record in
  status_Instances recorded !! slot = Some record ∧
  ∀ i inst, i ∉ pg_failed l → status_Instances (pg_claim l) !! i = Some inst → i ≠ slot ∧ status_Instances recorded !! i = Some inst.
Proof.
  intros Hf. unfold recordIn. destruct (pg_failed l) as [|slot rest] eqn:Ef; cbn.
  - split; [by rewrite lookup_app_r, Nat.sub_diag by done|]. intros i inst _ Hi. pose proof (lookup_lt_Some _ _ _ Hi).
    split; [lia|]. by rewrite lookup_app_l.
  - apply Forall_cons in Hf as [Hlt _]. split; [by rewrite list_lookup_insert_eq|]. intros i inst Hni Hi.
    split; [set_solver|]. rewrite list_lookup_insert_ne; [done|set_solver].
Qed.

(** What is still to be replaced after a new record. *)
Definition failedAfter (l : placing) (replaced : option ModelClaimInstance) : list nat :=
  match replaced with Some _ => tail (pg_failed l) | None => pg_failed l end.

Lemma recordIn_failed l record :
  NoDup (pg_failed l) → Forall (fun slot => (slot < length (status_Instances (pg_claim l)))%nat) (pg_failed l) →
  let '(recorded, slot, replaced) := recordIn l record in
  (slot ∉ failedAfter l replaced) ∧ failedAfter l replaced ⊆ pg_failed l ∧ NoDup (failedAfter l replaced) ∧
  Forall (fun slot => (slot < length (status_Instances recorded))%nat) (failedAfter l replaced).
Proof.
  intros Hnd Hf. unfold recordIn, failedAfter. destruct (pg_failed l) as [|slot rest] eqn:Ef; cbn.
  - split_and!; [set_solver|done|done|done].
  - apply Forall_cons in Hf as [Hlt Hf]. apply NoDup_cons in Hnd as [Hni Hnd].
    destruct (lookup_lt_is_Some_2 _ _ Hlt) as [previous Hp]. rewrite Hp. cbn. rewrite length_insert. split_and!; [done|set_solver|done|done].
Qed.

(** A new record, and an engine that may have started there. *)
Lemma accounted_recorded w w' l pod record pm :
  wellPlaced w l → pod ∈ candidates → inst_Pod record = pod_Name pod →
  let '(recorded, slot, replaced) := recordIn l record in
  status_Instances pm = status_Instances recorded → ObjectKeyFromObject pm = key →
  (∀ ip, engineAt w' ip key = true → engineAt w ip key = true ∨ ip = pod_IP pod) →
  accounted w' pm (failedAfter l replaced).
Proof.
  intros [[_ Ha] Hnd Hf _] Hpod Hrec. pose proof (recordIn_at l record Hf) as Hat. pose proof (recordIn_failed l record Hnd Hf) as Hfa.
  destruct (recordIn l record) as [[recorded slot] replaced]. destruct Hat as [Hslot Hold]. destruct Hfa as (Hns & Hsub & _).
  intros Hi Hk Hw. split; [done|]. intros ip Hip. destruct (Hw ip Hip) as [Hin| ->].
  - destruct (Ha ip Hin) as [?|(i & inst & q & Hq & Hni & Hrest)]; [by left|right]. exists i, inst, q. rewrite Hi.
    destruct (Hold i inst Hni Hq) as [_ ->]. split_and!; [done|set_solver|apply Hrest..].
  - right. exists slot, record, pod. by rewrite Hi.
Qed.

Lemma accounted_as_before w w' l pm :
  wellPlaced w l → status_Instances pm = status_Instances (pg_claim l) → ObjectKeyFromObject pm = key →
  (∀ ip, engineAt w' ip key = true → engineAt w ip key = true) → accounted w' pm (pg_failed l).
Proof.
  intros [[_ Ha] _ _ _] Hi Hk Hw. split; [done|]. intros ip Hip. destruct (Ha ip (Hw ip Hip)) as [?|(i & inst & q & Hq & Hrest)]; [by left|right].
  exists i, inst, q. by rewrite Hi.
Qed.

Lemma silent_notDone why : isRuntimeSilent why = true → callNotDone why = true.
Proof.
  intros Hs. unfold callNotDone. destruct (refusedByRuntime why); [done|]. rewrite bool_decide_true; [done|].
  unfold errorsAs, isRuntimeSilent in *. induction why as [|e why IH]; [done|]. simpl in *. destruct e; simpl; eauto.
Qed.

(** ** The rounds. *)

#[local] Abbreviation tracks := (trackedAt startsWell).

Lemma at_fewer {A} (m : Run W A) w P : within fewer m → tracks m w P (fun _ _ w' => fewer w w').
Proof. intros Hm. eapply at_within; [exact Hm|intros; by apply fewer_starts|done]. Qed.

#[local] Hint Resolve GetPod_fewer Deactivate_fewer RemoveAnnotations_fewer : within.

Lemma setScheduled_fewer pm status reason message : within fewer (setScheduled worded pm status reason message).
Proof. unfold setScheduled. stays. Qed.
#[local] Hint Resolve setScheduled_fewer : within.

Lemma markPlaced_fewer pm pod : within fewer (markPlaced worded pm pod).
Proof. unfold markPlaced. stays. Qed.

Lemma stopFailedEngine_fewer pm podName rr : within fewer (stopFailedEngine pm podName rr).
Proof. unfold stopFailedEngine, stopEngineOn, deannotateWarmPod, podIP. stays. Qed.
#[local] Hint Resolve markPlaced_fewer stopFailedEngine_fewer : within.

Lemma stopReplaced_fewer s l replaced : within fewer (stopReplaced s l replaced).
Proof. unfold stopReplaced. stays. Qed.

Lemma annotateWarmPod_fewer pm pod port : within fewer (annotateWarmPod pm pod port).
Proof. unfold annotateWarmPod. stays. Qed.
#[local] Hint Resolve stopReplaced_fewer annotateWarmPod_fewer : within.

Lemma setScheduled_keeps pm status reason message :
  yields (setScheduled worded pm status reason message) (fun r => ObjectKeyFromObject r.1 = ObjectKeyFromObject pm ∧
    status_Instances r.1 = status_Instances pm).
Proof. unfold setScheduled. returns idtac; done. Qed.

Lemma markPlaced_keeps pm pod :
  yields (markPlaced worded pm pod) (fun r => ObjectKeyFromObject r = ObjectKeyFromObject pm ∧ status_Instances r = status_Instances pm).
Proof. unfold markPlaced. eapply yields_bind; [apply setScheduled_keeps|]. intros [pm' changed] Hk. by apply yields_ret. Qed.

Lemma stopReplaced_keeps s l replaced :
  yields (stopReplaced s l replaced) (fun r => pg_claim r.2 = pg_claim l ∧ pg_failed r.2 = pg_failed l ∧
    pg_admissible r.2 = pg_admissible l).
Proof. unfold stopReplaced. destruct replaced; [|by apply yields_ret]. returns idtac; done. Qed.

(** How a round is left. *)
Definition roundLeft (w : W) (r : placeState * placing * option (result activationError Duration)) : Prop :=
  match r.2 with
  | None => wellPlaced w r.1.2
  | Some _ => accounted w (pg_claim r.1.2) []
  end.

Lemma setPort_pods pm slot port :
  let pm' := match status_Instances pm !! slot with
             | Some inst => setSlot pm slot (MkInstance (inst_Pod inst) port (inst_Phase inst) (inst_KVLimitBytes inst) (inst_Reason inst))
             | None => pm
             end in
  ObjectKeyFromObject pm' = ObjectKeyFromObject pm ∧ length (status_Instances pm') = length (status_Instances pm) ∧
  ∀ i inst, status_Instances pm !! i = Some inst → ∃ inst', status_Instances pm' !! i = Some inst' ∧ inst_Pod inst' = inst_Pod inst.
Proof.
  destruct (status_Instances pm !! slot) as [inst0|] eqn:E0; cbn; [|split_and!; [done..|]; eauto]. split_and!; [done|by rewrite length_insert|].
  intros i inst Hi. destruct (decide (slot = i)) as [<-|Hne].
  - rewrite list_lookup_insert_eq by (by eapply lookup_lt_Some). eexists. split; [done|]. cbn. congruence.
  - rewrite list_lookup_insert_ne by done. eauto.
Qed.

Lemma accounted_setPort w pm slot port failed :
  accounted w pm failed →
  accounted w (match status_Instances pm !! slot with
               | Some inst => setSlot pm slot (MkInstance (inst_Pod inst) port (inst_Phase inst) (inst_KVLimitBytes inst) (inst_Reason inst))
               | None => pm
               end) failed.
Proof.
  intros [Hk Ha]. destruct (setPort_pods pm slot port) as (Hk' & _ & Hpods). split; [congruence|]. intros ip Hip.
  destruct (Ha ip Hip) as [?|(i & inst & pod & Hi & Hni & Hp & Hname & Hadr)]; [by left|right].
  destruct (Hpods i inst Hi) as (inst' & Hi' & Hn'). exists i, inst', pod. split_and!; [done|done|done|congruence|done].
Qed.

(** The engine has started, and its instance is recorded. *)
Lemma started_at s l pm pod slot replaced port w :
  accounted w pm (failedAfter l replaced) → NoDup (failedAfter l replaced) →
  Forall (fun slot => (slot < length (status_Instances pm))%nat) (failedAfter l replaced) →
  (∀ pod, pod ∈ pg_admissible l → pod ∈ candidates) →
  tracks (started worded s l pm pod slot replaced port) w (fun _ => True) (fun T r w' => roundLeft w' r).
Proof.
  intros Hacc Hnd Hf Hadm. unfold started. cbv zeta.
  eapply at_then with (P0 := fun _ => True); [apply at_value; [apply markPlaced_keeps|apply at_fewer, markPlaced_fewer]|done|].
  intros pm1 w1. set (pm2 := match _ with Some _ => _ | None => pm1 end).
  eapply at_then with (P0 := fun _ => True); [apply at_fewer, annotateWarmPod_fewer|done|].
  intros [pod' annotated] w2. apply (at_assume ((ObjectKeyFromObject pm1 = ObjectKeyFromObject pm ∧ status_Instances pm1 = status_Instances pm) ∧
    fewer w w1 ∧ fewer w1 w2)); [by intros T ((_ & ? & ?) & ?) _|]. intros ([Hk Hi] & Hw1 & Hw2).
  assert (accounted w2 pm2 (failedAfter l replaced)) as Hacc2.
  { eapply accounted_fewer; [exact Hw2|]. eapply accounted_fewer; [exact Hw1|]. apply accounted_setPort.
    destruct Hacc as [Hk0 Ha]. split; [congruence|]. unfold recordedAt. by rewrite Hi. }
  destruct annotated.
  - apply at_ret. intros T _ _. cbn. split; cbn; [done|done| |done].
    destruct (setPort_pods pm1 slot port) as (_ & Hlen & _). fold pm2 in Hlen. rewrite Hlen, Hi. done.
  - apply at_ret. intros T _ _. cbn. eapply accounted_less; [|exact Hacc2]. set_solver.
Qed.

(** The start has failed. *)
Lemma notStarted_at ledgers s l pm pod slot replaced why w :
  (callNotDone why = true → wellPlaced w l) → ObjectKeyFromObject pm = key →
  status_Instances (takeBack pm slot replaced) = status_Instances (pg_claim l) ∧
  ObjectKeyFromObject (takeBack pm slot replaced) = key →
  (callNotDone why = false → accounted w pm (failedAfter l replaced)) →
  tracks (notStarted worded ledgers s l pm pod slot replaced why) w (fun _ => True) (fun T r w' => roundLeft w' r).
Proof.
  intros Hwp Hk [Hti Htk] Hdone. unfold notStarted. destruct (isRuntimeSilent why) eqn:Es.
  - specialize (Hwp (silent_notDone why Es)). eapply at_then with (P0 := fun _ => True) (Q := fun T updated w' => fewer w w' ∧ ∀ stored, updated = Ok stored →
      ObjectKeyFromObject stored = key ∧ status_Instances stored = status_Instances (pg_claim l)); [|done|].
    { apply at_call. intros T _ _ _. pose proof (in_StatusUpdate (takeBack pm slot replaced) w) as Hf. split; [by apply fewer_starts|].
      split; [exact Hf|]. intros stored [Hsk Hsi]%StatusUpdate_returns. split; congruence. }
    intros updated w1. destruct updated as [stored|e]; apply at_ret; intros T (_ & Hf & Hst) _; cbn.
    + destruct (Hst stored eq_refl) as [Hsk Hsi]. pose proof Hwp as [_ Hnd Hsl Hadm]. split; cbn; [|done|by rewrite Hsi|].
      * apply (accounted_as_before w w1 l); [done..|]. intros ip. apply Hf.
      * intros q [Hq _]%list_elem_of_In%filter_In. by apply Hadm, list_elem_of_In.
    + eapply accounted_less; [|apply (accounted_as_before w w1 l); [done..|intros ip; apply Hf]]. set_solver.
  - eapply at_then with (P0 := fun _ => True) (Q := fun T pm' w' => accounted w' pm' []); [|done|intros pm' w1; apply at_ret; by intros T [_ ?] _].
    destruct (callNotDone why) eqn:En; cbn [negb].
    + specialize (Hwp eq_refl). apply at_ret. intros T _ _. eapply accounted_less; [|apply (accounted_as_before w w l); [done..|by intros ip]]. set_solver.
    + eapply at_conseq; [apply at_value; [apply markPlaced_keeps|apply (at_fewer _ _ (fun _ => True)), markPlaced_fewer]|done|].
      intros T pm' w' ([Hk' Hi'] & Hf) _. eapply accounted_fewer; [exact Hf|].
      destruct (accounted_less _ _ (failedAfter l replaced) [] ltac:(set_solver) (Hdone eq_refl)) as [_ Ha]. split; [congruence|]. unfold recordedAt. by rewrite Hi'.
Qed.

Lemma recordIn_key l record : ObjectKeyFromObject (recordIn l record).1.1 = ObjectKeyFromObject (pg_claim l).
Proof. unfold recordIn. by destruct (pg_failed l). Qed.

Lemma takeBack_key pm slot replaced : ObjectKeyFromObject (takeBack pm slot replaced) = ObjectKeyFromObject pm.
Proof. by destruct replaced. Qed.

(** The call that reserves the card. *)
Lemma reserve_at recorded record slot pod bytes w :
  ObjectKeyFromObject recorded = key → status_Instances recorded !! slot = Some record →
  inst_Pod record = pod_Name pod → inst_KVLimitBytes record = bytes →
  tracks (call (StatusUpdate recorded)) w (fun _ => True) (fun T updated w' => fewer w w' ∧ T w' ∧
    ∀ pm, updated = Ok pm → ObjectKeyFromObject pm = key ∧ status_Instances pm = status_Instances recorded ∧
      (pod_Name pod, bytes) ∈ recordsOf w' key).
Proof.
  intros Hk Hslot Hp Hb. apply at_call. intros T _ _ HT. pose proof (in_StatusUpdate recorded w) as Hf.
  split; [by apply fewer_starts|]. split_and!; [exact Hf|exact HT|]. intros pm Hok.
  destruct (StatusUpdate_returns _ _ _ Hok) as [Hk' Hi']. split_and!; [congruence|done|].
  destruct (StatusUpdate_law recorded w) as (_ & _ & _ & _ & Hlaw). rewrite Hk in Hlaw. rewrite (Hlaw pm Hok).
  apply list_elem_of_fmap. exists record. split; [by rewrite Hp, Hb|by eapply list_elem_of_lookup_2].
Qed.

(** The call that starts the engine. *)
Lemma activate_at pod req bytes w :
  MkNN (ref_Namespace (act_ClaimRef req)) (ref_Name (act_ClaimRef req)) = key → pod ∈ candidates →
  (pod_Name pod, bytes) ∈ recordsOf w key →
  tracks (call (Activate (pod_IP pod) req)) w (fun _ => True) (fun T answer w' =>
    ∀ ip, engineAt w' ip key = true → engineAt w ip key = true ∨
      (ip = pod_IP pod ∧ ∀ why, answer = Err why → callNotDone why = false)).
Proof.
  intros Hk Hpod Hrec. apply at_call. intros T _ HT HT'. split.
  - intros ip Hip. destruct (Activate_starts (pod_IP pod) req w ip key Hip) as [?|(-> & _)]; [by left|right].
    exists w, pod, bytes, req. by split_and!.
  - intros ip Hip. destruct (Activate_starts (pod_IP pod) req w ip key Hip) as [?|(-> & _ & ?)]; [by left|by right].
Qed.

Lemma wellPlaced_fewer w w' l : fewer w w' → wellPlaced w l → wellPlaced w' l.
Proof. intros Hf [Ha Hn Hs Hadm]. split; [by eapply accounted_fewer|done..]. Qed.

(** The record stands: the engine is started, and what comes of it. *)
Lemma ask_at ledgers s l record recorded slot replaced pm pod bytes w :
  wellPlaced w l → pod ∈ candidates → inst_Pod record = pod_Name pod → recordIn l record = (recorded, slot, replaced) →
  ObjectKeyFromObject pm = key → status_Instances pm = status_Instances recorded → (pod_Name pod, bytes) ∈ recordsOf w key →
  tracks (answer ← call (Activate (pod_IP pod) (activateRequest pm));
          let s := onReadings s (forget (ps_readings (rs_pass (pl_room s))) (pod_Name pod)) in
          match answer with
          | Ok port => started worded s l pm pod slot replaced port
          | Err why => notStarted worded ledgers s l pm pod slot replaced why
          end) w (fun _ => True) (fun T r w' => roundLeft w' r).
Proof.
  intros Hwp Hpod Hname Hr Hk Hi Hrec. pose proof Hwp as [[_ _] Hnd Hsl Hadm].
  pose proof (recordIn_failed l record Hnd Hsl) as Hfa. pose proof (takeBack_instances l record pm Hsl) as Htb.
  pose proof (fun w' => accounted_recorded w w' l pod record pm Hwp Hpod Hname) as Hacc. rewrite Hr in Hfa, Htb, Hacc.
  destruct Hfa as (_ & _ & Hnd' & Hsl'). eapply at_then with (P0 := fun _ => True);
    [by apply (activate_at pod (activateRequest pm) bytes)|done|].
  intros answer w3. apply (at_assume (∀ ip, engineAt w3 ip key = true → engineAt w ip key = true ∨
    (ip = pod_IP pod ∧ ∀ why, answer = Err why → callNotDone why = false))); [by intros T (_ & ?) _|]. intros Hw3.
  assert (accounted w3 pm (failedAfter l replaced)) as Hacc3.
  { apply Hacc; [done..|]. intros ip Hip. destruct (Hw3 ip Hip) as [?|[? _]]; auto. }
  destruct answer as [port|why].
  - eapply at_conseq; [apply started_at; [done|done|by rewrite Hi|done]|done..].
  - eapply at_conseq; [apply notStarted_at; [|done|by rewrite takeBack_key, (Htb Hi)|done]|done..]. intros Hn.
    destruct Hwp as [[Hkey Ha] ? ? ?]. split; [|done..]. split; [done|]. intros ip Hip. apply Ha.
    destruct (Hw3 ip Hip) as [?|[_ Hd]]; [done|]. by rewrite (Hd why eq_refl) in Hn.
Qed.

Lemma placeOn_at ledgers s l pod bytes w :
  wellPlaced w l → pod ∈ candidates →
  tracks (placeOn worded ledgers s l pod bytes) w (fun _ => True) (fun T r w' => roundLeft w' r).
Proof.
  intros Hwp Hpod. unfold placeOn. set (record := MkInstance _ _ _ _ _). pose proof Hwp as [[Hkey _] Hnd Hsl Hadm].
  pose proof (recordIn_at l record Hsl) as Hat. pose proof (recordIn_key l record) as Hrk.
  pose proof (fun w' => accounted_recorded w w' l pod record (recordIn l record).1.1 Hwp Hpod eq_refl) as Hacc.
  destruct (recordIn l record) as [[recorded slot] replaced] eqn:Er. cbn [fst] in Hrk, Hacc. destruct Hat as [Hslot _].
  eapply at_then with (P0 := fun _ => True); [apply at_value; [apply stopReplaced_keeps|apply at_fewer, stopReplaced_fewer]|done|].
  intros [s1 l1] w1. cbn [fst snd]. apply (at_assume ((pg_claim l1 = pg_claim l ∧ pg_failed l1 = pg_failed l ∧
    pg_admissible l1 = pg_admissible l) ∧ fewer w w1)); [by intros T (_ & ?) _|]. intros [(Hc1 & Hf1 & Ha1) Hw1].
  eapply at_then; [by apply (reserve_at recorded record slot pod bytes); [congruence|..]|done|].
  intros updated w2. apply (at_assume (fewer w1 w2)); [by intros T (_ & ? & _) _|]. intros Hw2. destruct updated as [pm|e].
  - apply (at_assume (ObjectKeyFromObject pm = key ∧ status_Instances pm = status_Instances recorded ∧
      (pod_Name pod, bytes) ∈ recordsOf w2 key)); [intros T (_ & _ & _ & Hok) _; by apply Hok|]. intros (Hpk & Hpi & Hrec).
    eapply at_conseq; [apply (ask_at ledgers s1 l1 record recorded slot replaced pm pod bytes)|done..]; try done.
    + eapply wellPlaced_fewer; [exact Hw2|]. eapply wellPlaced_fewer; [exact Hw1|].
      destruct Hwp as [? ? ? ?]. split; by rewrite ?Hc1, ?Hf1, ?Ha1.
    + rewrite <-Er. unfold recordIn. by rewrite Hc1, Hf1.
  - apply at_ret. intros T _ _. cbn. eapply accounted_less; [|apply Hacc]; [set_solver|done|congruence|].
    intros ip Hip. left. by apply Hw1, Hw2.
Qed.

Lemma refusePlacement_fewer perGPU claims ledgers states s l :
  within fewer (refusePlacement perGPU candidates claims ledgers states s l).
Proof. unfold refusePlacement. stays. Qed.
#[local] Hint Resolve refusePlacement_fewer : within.

Lemma giveUp_at perGPU claims ledgers states room s l w :
  wellPlaced w l →
  tracks (giveUp worded perGPU candidates claims ledgers states room s l) w (fun _ => True) (fun T r w' => roundLeft w' r).
Proof.
  intros Hwp. eapply at_conseq with (P := fun _ => True) (Q := fun T r w' => (r.2 ≠ None ∧ ObjectKeyFromObject (pg_claim r.1.2) = ObjectKeyFromObject (pg_claim l) ∧
    status_Instances (pg_claim r.1.2) = status_Instances (pg_claim l)) ∧ fewer w w').
  - apply at_value; [|apply at_fewer; unfold giveUp; stays]. unfold giveUp.
    eapply (yields_bind _ _ (fun _ => True)); [apply yields_any|]. intros [s1 refused] _.
    eapply yields_bind; [apply setScheduled_keeps|]. intros [pm changed] [Hk Hi]. returns idtac; done.
  - done.
  - intros T [[s1 l1] out] w' ((Hn & Hk & Hi) & Hf) _. unfold roundLeft. cbn [fst snd] in *. destruct out; [|done].
    destruct Hwp as [[Hkey Ha] _ _ _]. eapply accounted_fewer; [exact Hf|].
    destruct (accounted_less w (pg_claim l) (pg_failed l) [] ltac:(set_solver) (conj Hkey Ha)) as [_ Ha'].
    split; [congruence|]. unfold recordedAt. by rewrite Hi.
Qed.

Lemma placeOnce_at perGPU claims ledgers states room s l w :
  wellPlaced w l →
  tracks (placeOnce locality worded perGPU candidates claims ledgers states room s l) w (fun _ => True) (fun T r w' => roundLeft w' r).
Proof.
  intros Hwp. unfold placeOnce. destruct (selectPodForActivationWithState _ _ _ _ _ _) as [pod|] eqn:Es; [|by apply giveUp_at].
  apply select_listed in Es as [Hin _]. eapply at_then with (P0 := fun _ => True); [apply at_fewer; unfold divideFor; stays|done|].
  intros [s1 planned] w1. apply (at_assume (fewer w w1)); [by intros T (_ & ?) _|]. intros Hf.
  pose proof (wellPlaced_fewer _ _ _ Hf Hwp) as Hwp1. destruct planned as [bytes|e].
  - eapply at_conseq; [apply placeOn_at; [done|by apply (wp_admissible _ _ Hwp)]|done..].
  - apply at_ret. intros T _ _. destruct Hwp1 as [Ha Hnd Hsl Hadm]. cbn. split; cbn; [done..|].
    intros q [Hq _]%list_elem_of_In%filter_In. by apply Hadm, list_elem_of_In.
Qed.

Lemma placeAll_at perGPU claims ledgers states room fuel s l w :
  wellPlaced w l →
  tracks (placeAll locality worded perGPU candidates claims ledgers states room fuel s l) w (fun _ => True)
    (fun T r w' => accounted w' (pg_claim r.1.2) []).
Proof.
  revert s l w. induction fuel as [|fuel IH]; intros s l w Hwp; simpl.
  all: assert (accounted w (pg_claim l) []) as Hnow by (eapply accounted_less; [|apply Hwp]; set_solver).
  all: destruct (negb _); try by apply at_ret.
  eapply at_then; [by apply placeOnce_at|done|]. intros [[s1 l1] out] w1. apply (at_assume (roundLeft w1 (s1, l1, out))); [by intros T (_ & ?) _|].
  intros Hleft. destruct out; [by apply at_ret|]. eapply at_conseq; [by apply IH|done..].
Qed.

Lemma read_then {A B} (m : Run W A) (f : A → Run W B) w (Q : (W → Prop) → B → W → Prop) :
  within fewer m → fewer w0 w → (∀ a w1, fewer w0 w1 → tracks (f a) w1 (fun _ => True) Q) → tracks (m ≫= f) w (fun _ => True) Q.
Proof.
  intros Hm Hw Hf. eapply at_then with (P0 := fun _ => True); [by apply at_fewer|done|]. intros a w1.
  apply (at_assume (fewer w w1)); [by intros T (_ & ?) _|]. intros Hw1. eapply at_conseq; [apply Hf|done..].
  intros ip k Hk. by apply Hw, Hw1.
Qed.

Lemma failedFrom_slots n instances :
  NoDup (failedFrom n instances) ∧ Forall (fun slot => (n ≤ slot < n + length instances)%nat) (failedFrom n instances).
Proof.
  revert n. induction instances as [|inst rest IH]; intros n; simpl; [by split; constructor|].
  destruct (IH (S n)) as [Hnd Hf]. assert (Forall (fun slot => (n ≤ slot < n + S (length rest))%nat) (failedFrom (S n) rest)) as Hf'
    by (eapply Forall_impl; [exact Hf|]; simpl; lia).
  case_bool_decide; [|done]. split; [|constructor; [lia|done]]. constructor; [|done]. intros Hin.
  eapply Forall_forall in Hf; [|exact Hin]. simpl in Hf. lia.
Qed.

Lemma admissible_listed ledgers needs gpus pods pod :
  pod ∈ (admissibleCandidates ledgers needs gpus pods).1 → pod ∈ pods.
Proof.
  induction pods as [|q pods IH]; simpl; [done|]. destruct (admissibleCandidates ledgers needs gpus pods) as [admissible refusals].
  destruct (refusalOf _ _ _ q); cbn [fst] in *; [intros ?; right; auto|]. intros [->|?]%elem_of_cons; [left|right; auto].
Qed.

Lemma placeWith_at s pm perGPU claims cached ledgers states room w :
  ObjectKeyFromObject pm = key → fewer w0 w →
  tracks (placeWith locality worded s pm perGPU candidates claims cached ledgers states room) w (fun _ => True)
    (fun T r w' => accounted w' r.1.2 []).
Proof.
  intros Hk Hw. unfold placeWith. pose proof (admissible_listed ledgers (perGPU_minimumReserveBytes perGPU) (instanceGPUCount pm) candidates) as Hadm.
  destruct (admissibleCandidates _ _ _ _) as [admissible refusals]. cbn [fst] in Hadm.
  eapply at_then; [apply placeAll_at|done|].
  - destruct (failedFrom_slots 0 (status_Instances pm)) as [Hnd Hf]. split; cbn; [|done| |by intros pod ?%Hadm].
    + split; [done|]. intros ip Hip. left. by apply Hw.
    + eapply Forall_impl; [exact Hf|]. simpl. lia.
  - intros [[s1 l] out] w1. apply at_ret. by intros T [_ ?] _.
Qed.

(** Nothing was started. *)
Lemma accounted_start pm w : ObjectKeyFromObject pm = key → fewer w0 w → accounted w pm [].
Proof. intros Hk Hw. split; [done|]. intros ip Hip. left. by apply Hw. Qed.

Lemma placeInTurn_at s pm perGPU parallelism cached room w :
  ObjectKeyFromObject pm = key → fewer w0 w →
  tracks (placeInTurn locality worded s pm perGPU parallelism candidates cached room) w (fun _ => True)
    (fun T r w' => accounted w' r.1.2 []).
Proof.
  intros Hk Hw. unfold placeInTurn. cbv zeta.
  apply read_then; [stays|done|]. intros [readings snapshots] w1 Hw1. apply read_then; [stays|done|]. intros listed w2 Hw2.
  apply read_then; [stays|done|]. intros without w3 Hw3. apply read_then; [stays|done|]. intros now w4 Hw4.
  destruct (takeFrom _ _ _ _ _) as [held1 ledgers1]. apply read_then; [stays|done|]. intros later w5 Hw5.
  destruct (keepWakesOutOfPreemption _ _ _ _ _) as [held2 ledgers2]. case_bool_decide; [|by apply placeWith_at].
  destruct listed as [items|e]; [|apply at_ret; intros T _ _; by apply accounted_start].
  apply read_then; [stays|done|]. intros [r blocker] w6 Hw6. destruct blocker as [blocker|]; [|by apply placeWith_at].
  eapply at_then with (P0 := fun _ => True); [apply at_value; [apply setScheduled_keeps|apply at_fewer, setScheduled_fewer]|done|].
  intros [pm' changed] w7. apply at_ret. cbn. intros T (_ & [Hk' _] & Hf) _. apply accounted_start; [congruence|].
  intros ip k Hip. by apply Hw6, Hf.
Qed.

Lemma ensureActivated_at s pm :
  ObjectKeyFromObject pm = key →
  tracks (ensureActivated locality worded s pm candidates) w0 (fun _ => True) (fun T r w' => accounted w' r.1.2 []).
Proof.
  intros Hk. assert (fewer w0 w0) as Hw by done. unfold ensureActivated. cbv zeta.
  apply read_then; [stays|done|]. intros listed w1 Hw1. apply read_then; [stays|done|]. intros now w2 Hw2.
  destruct (due _ _ _ _ _) as [b [isDue remaining]]. destruct (negb isDue); [apply at_ret; intros T _ _; by apply accounted_start|].
  destruct (modelParallelism pm); [|apply at_ret; intros T _ _; by apply accounted_start].
  destruct (perGPUBytesOf pm); [by apply placeInTurn_at|].
  eapply at_then with (P0 := fun _ => True); [apply at_value; [apply setScheduled_keeps|apply at_fewer, setScheduled_fewer]|done|].
  intros [pm' changed] w3. apply at_ret. cbn. intros T (_ & [Hk' _] & Hf) _. apply accounted_start; [congruence|].
  intros ip k Hip. by apply Hw2, Hf.
Qed.
End Accounted.

(** C8: An engine is started on its record.  Whenever an engine of the claim is
    there during a placement and was not before, its start was asked for at a
    moment when the claim's instance on that pod was recorded at the API server,
    so that no other claim is placed against the same memory. *)
Theorem engines_start_on_record `{HS : StartLaws W} locality worded s pm candidates w :
  let m := ensureActivated locality worded s pm candidates in
  let key := ObjectKeyFromObject pm in
  ∀ x ip, x ∈ final m w :: visited m w → engineAt x ip key = true →
    engineAt w ip key = true ∨ startedOnRecord key candidates (fun y => y ∈ w :: visited m w) ip.
Proof.
  intros m key x ip Hx Hip. destruct (ensureActivated_at locality worded key candidates w s pm eq_refl (fun y => y ∈ w :: visited m w))
    as (_ & Hall & _); [done|left|apply Forall_forall; intros y Hy; by right|].
  eapply Forall_forall in Hall; [|exact Hx]. by apply Hall.
Qed.

(** C9: No engine is left without a record.  Whatever fails during a placement,
    every engine of the claim that is there when it is over, and was not before, is
    on a pod that the claim, as it is handed on, records an instance for. *)
Theorem started_engines_are_recorded `{HS : StartLaws W} locality worded s pm candidates w :
  let m := ensureActivated locality worded s pm candidates in
  let key := ObjectKeyFromObject pm in
  ∀ ip, engineAt (final m w) ip key = true → engineAt w ip key = false →
    ∃ inst pod, inst ∈ status_Instances (value m w).1.2 ∧ pod ∈ candidates ∧ inst_Pod inst = pod_Name pod ∧ pod_IP pod = ip.
Proof.
  intros m key ip Hip Hno. destruct (ensureActivated_at locality worded key candidates w s pm eq_refl (fun y => y ∈ w :: visited m w))
    as (_ & _ & _ & Hacc); [done|left|apply Forall_forall; intros y Hy; by right|].
  destruct (Hacc ip Hip) as [?|(i & inst & pod & Hi & _ & Hpod & Hname & Hadr)]; [congruence|].
  exists inst, pod. split_and!; [by eapply list_elem_of_lookup_2|done..].
Qed.

(** ** A pool with a pod that has no card, for the witnesses. *)

Section StartWitness.
Local Existing Instance NanoK8s.
Local Existing Instance podCluster.
Local Existing Instance podReads.
Local Existing Instance podApi.
Local Existing Instance podLaws.
Local Existing Instance podClusterLaws.
Local Existing Instance podEngines.

Definition podEngineAt (w : podWorld) (ip : string) (key : NamespacedName) : bool := bool_decide ((ip, key) ∈ w.(pw_engines)).
Definition podFewer (w w' : podWorld) : Prop := ∀ ip key, podEngineAt w' ip key = true → podEngineAt w ip key = true.

Lemma podFewer_reads : ReadsIn podFewer.
Proof.
  split; [split; [intros w ip key Hk; exact Hk|intros x y z Hxy Hyz ip key Hz; by apply Hxy, Hyz]|..]; intros; intros ip' k Hk; exact Hk.
Qed.
Lemma podFewer_status : StatusIn podFewer.
Proof. split. intros claim w ip' k Hk. exact Hk. Qed.
Lemma podFewer_sleeps : SleepsIn podFewer.
Proof. split; [|intros ip req w ip' k Hk; exact Hk]. intros pod k v w ip key. unfold podEngineAt. cbn. by destruct (pw_pods w !! _). Qed.

Definition podStarts : StartLaws.
Proof.
  refine {| engineAt := podEngineAt; fewer_reads := podFewer_reads; fewer_status := podFewer_status; fewer_sleeps := podFewer_sleeps |}.
  - intros ip req w ip' key. unfold podEngineAt. cbn. unfold onCards. cbn. by destruct (fw_limits _ !! _).
  - intros key w ip' k Hk. exact Hk.
  - intros ip req w ip' key. unfold podEngineAt. cbn. by destruct (pw_answers w).
  - intros key names w ip' key'. unfold podEngineAt. cbn. by destruct (pw_pods w !! key).
  - intros ip req w ip' key. unfold podEngineAt. cbn. destruct (pw_answers w); cbn; [|by left]. rewrite !bool_decide_eq_true.
    intros [[= -> ->]%elem_of_singleton|?]%elem_of_union; [right; by split_and!|by left].
  - intros claim w stored. cbn. by intros [= <-].
Defined.
Local Existing Instance podStarts.

Definition exPlain : Pod := MkPod "ns" "pod-b" "pod-b-uid" ∅ ∅ "node-1" "10.0.0.2" [] [] None "Running" None.
Definition exToPlace : ModelClaim :=
  MkModelClaim "ns" "gamma" "uid-gamma" 1 0 None None (Some []) "hf://m" "vllm" None 5 ""
    ∅ (Some (MkPerGPU (20 * exGiB * 10 ^ 9) (2 * exGiB * 10 ^ 9))) ModelClaimPending [] [] 0 0 1 "1" [ModelClaimFinalizer].
Definition exToPlaceWorld : podWorld :=
  MkPodWorld (MkFake ∅ ∅ {[MkNN "ns" "gamma" := exToPlace]}) {[MkNN "ns" "pod-b" := exPlain]} ∅ true ∅.
Definition exPlaceState : placeState := MkPlaceState (MkRoomState exPass ∅ ∅) newCardDivisionState [].
Definition exGamma : NamespacedName := ObjectKeyFromObject exToPlace.
Definition exPlacing : Run podWorld (placeState * ModelClaim * option (result activationError Duration)) :=
  ensureActivated None (fun _ => "") exPlaceState exToPlace [exPlain].

Lemma engines_start_on_record_witness :
  engineAt exToPlaceWorld "10.0.0.2" exGamma = false ∧ engineAt (final exPlacing exToPlaceWorld) "10.0.0.2" exGamma = true ∧
  startedOnRecord exGamma [exPlain] (fun y => y ∈ exToPlaceWorld :: visited exPlacing exToPlaceWorld) "10.0.0.2".
Proof.
  pose proof (engines_start_on_record None (fun _ => "") exPlaceState exToPlace [exPlain] exToPlaceWorld) as Hs.
  cbv zeta in Hs. fold exPlacing exGamma in Hs. specialize (Hs (final exPlacing exToPlaceWorld) "10.0.0.2" ltac:(left)).
  assert (engineAt (final exPlacing exToPlaceWorld) "10.0.0.2" exGamma = true) as He by (vm_compute; reflexivity).
  assert (engineAt exToPlaceWorld "10.0.0.2" exGamma = false) as Hno by (vm_compute; reflexivity).
  split; [exact Hno|]. split; [exact He|]. destruct (Hs He) as [Hw|Hr]; [|exact Hr]. rewrite Hno in Hw. discriminate Hw.
Defined.

Lemma started_engines_are_recorded_witness :
  (value exPlacing exToPlaceWorld).2 = Some (Ok 0) ∧
  ∃ inst pod, inst ∈ status_Instances (value exPlacing exToPlaceWorld).1.2 ∧ pod ∈ [exPlain] ∧ inst_Pod inst = pod_Name pod ∧
    pod_IP pod = "10.0.0.2".
Proof.
  pose proof (started_engines_are_recorded None (fun _ => "") exPlaceState exToPlace [exPlain] exToPlaceWorld) as Hs.
  cbv zeta in Hs. fold exPlacing exGamma in Hs. specialize (Hs "10.0.0.2").
  assert (engineAt (final exPlacing exToPlaceWorld) "10.0.0.2" exGamma = true) as He by (vm_compute; reflexivity).
  assert (engineAt exToPlaceWorld "10.0.0.2" exGamma = false) as Hno by (vm_compute; reflexivity).
  split; [vm_compute; reflexivity|]. exact (Hs He Hno).
Defined.
End StartWitness.
