(* ===== verification/Reconcile.v ===== *)
(** * The reconcile loop ([Reconcile] of
    [pkg/controller/modelclaim/modelclaim_controller.go]).

    A pass drives one claim towards its desired state.  A claim that is being
    deleted gives its routes back, lets its engines finish their requests, stops
    them and only then drops its finalizer.  Any other claim takes the finalizer
    first; then its candidates are listed, instances whose pods are gone are
    dropped, and it is placed or scaled down; the engines are checked and woken,
    failed instances are replaced, the status is written, and at the end the
    policies of the pools run and the cards are divided.

    Metrics and log lines are left out, and so is the deadline of a stop, which
    shows as an answer that is an error. *)

From S2P Require Import Prelude Api Claims Ledger KVPlan Placement Reservations Backoff Runtime ArrangeCard PoolPolicy Division MakeRoom Rfc3339 WakeTurn SleepEngine WakeHandler RoomHandler Calls WakeFacts RoomFacts PodWatch PoolTick Engines InstanceHealth Activation.

(** ** Results. *)

Record ctrlResult : Type := MkResult {
  res_Requeue : bool;
  res_RequeueAfter : Duration;
}.

(** A result with nothing set. *)
Definition doneResult : ctrlResult := MkResult false 0.
Definition requeueAfter (wait : Duration) : ctrlResult := MkResult false wait.
Definition requeueNow : ctrlResult := MkResult true 0.

Inductive candidatesError : Type :=
| NoPodSelector
| InvalidEngineArgs (why : engineArgError)
| InvalidPodSelector
| PodsNotListed (why : apiError).

(** An engine of a deleted claim that could not be stopped. *)
Inductive stopError : Type :=
| NotReadBeforeStop (pod : string) (why : runtimeError)
| NotStopped (pod : string) (why : callError).

Inductive reconcileError : Type :=
| ClaimNotRead (why : apiError)
| ClaimNotWritten (why : apiError)
| NoCandidates (why : candidatesError)
| NotAdmitted (why : activationError)
| EnginesNotStopped (why : list stopError).

Definition reconcileResult : Type := result reconcileError ctrlResult.

Definition requeueOnConflict (err : apiError) : reconcileResult :=
  match err with
  | Conflict => Ok requeueNow
  | _ => Err (ClaimNotWritten err)
  end.

Abbreviation ModelClaimConditionTypeInitialized := "Initialized" (only parsing).
Abbreviation ModelClaimConditionReady := "Ready" (only parsing).

Definition deletionStopTimeout : Duration := 10 * Second.
Definition deletionDrainGrace : Duration := 5 * Second.
Definition deletionDrainTimeout : Duration := 90 * Second.
Definition deletionDrainPoll : Duration := Second.

(** ** What the controller keeps between passes. *)

Section Records.
Context `{K8s}.

Record controllerState : Type := MkController {
  cs_place : placeState;
  cs_warned : limitWarningClock;
  cs_seen : gmap string Time;
}.

Definition csRoom (s : controllerState) : roomState := s.(cs_place).(pl_room).
Definition csPass (s : controllerState) : passState := (csRoom s).(rs_pass).
Definition csBackoff (s : controllerState) : placementBackoff := (csRoom s).(rs_backoff).
Definition csHeld (s : controllerState) : cardReservations := (csRoom s).(rs_held).
Definition csReadings (s : controllerState) : runtimeReadings := (csPass s).(ps_readings).

Definition csPlace (s : controllerState) (place : placeState) : controllerState := MkController place s.(cs_warned) s.(cs_seen).
Definition csOnPass (s : controllerState) (pass : passState) : controllerState :=
  csPlace s (onRoom s.(cs_place) (roomPass (csRoom s) pass)).
Definition csOnHeld (s : controllerState) (held : cardReservations) : controllerState :=
  csPlace s (onRoom s.(cs_place) (roomHeld (csRoom s) held)).
Definition csOnBackoff (s : controllerState) (b : placementBackoff) : controllerState := csPlace s (onBackoff s.(cs_place) b).
Definition csOnReadings (s : controllerState) (rr : runtimeReadings) : controllerState := csPlace s (onReadings s.(cs_place) rr).
Definition csTell (s : controllerState) (events : list claimEvent) : controllerState := csPlace s (tell s.(cs_place) events).

(** [r.forgetClaim]: the wait, the holds and the measured footprint. *)
Definition csForget (s : controllerState) (key : NamespacedName) : controllerState :=
  let '(b, held, footprints) := forgetClaim (csBackoff s) (csHeld s) (csPass s).(ps_footprints) key in
  csOnPass (csOnHeld (csOnBackoff s b) held) (MkPass (csReadings s) (csPass s).(ps_manager) footprints).

(** ** The claim's own fields. *)

(** [ContainsFinalizer], [AddFinalizer] and [RemoveFinalizer] of controllerutil. *)
Definition ContainsFinalizer (pm : ModelClaim) (finalizer : string) : bool := bool_decide (finalizer ∈ pm.(mc_Finalizers)).
Definition AddFinalizer (pm : ModelClaim) (finalizer : string) : ModelClaim :=
  if ContainsFinalizer pm finalizer then pm else setFinalizers pm (pm.(mc_Finalizers) ++ [finalizer]).
Definition RemoveFinalizer (pm : ModelClaim) (finalizer : string) : ModelClaim :=
  setFinalizers pm (List.filter (fun f => negb (bool_decide (f = finalizer))) pm.(mc_Finalizers)).

Definition setCounts (pm : ModelClaim) (candidates desired : Z) (conditions : list Condition) : ModelClaim :=
  MkModelClaim pm.(mc_Namespace) pm.(mc_Name) pm.(mc_UID) pm.(mc_Generation) pm.(mc_CreationTimestamp)
    pm.(mc_DeletionTimestamp) pm.(spec_ModelName) pm.(spec_PodSelector) pm.(spec_ArtifactURL) pm.(spec_Engine)
    pm.(spec_Replicas) pm.(spec_Priority) pm.(spec_PreemptionPolicy) pm.(spec_EngineArgs) pm.(spec_PerGPU)
    pm.(status_Phase) pm.(status_Instances) conditions candidates
    pm.(status_ReadyReplicas) desired pm.(mc_ResourceVersion) pm.(mc_Finalizers).

Definition setClaimPhase (pm : ModelClaim) (phase : ModelClaimPhase) : ModelClaim :=
  setStatus pm phase pm.(status_ReadyReplicas) pm.(status_Conditions).

Definition instanceCount (pm : ModelClaim) : Z := wrap32 (Z.of_nat (length pm.(status_Instances))).

(** [meta.FindStatusCondition]. *)
Definition FindStatusCondition (conditions : list Condition) (type : string) : option Condition :=
  List.find (fun c => bool_decide (c.(cond_Type) = type)) conditions.

(** A pod that a new instance may go to. *)
Definition isCandidate (pm : ModelClaim) (parallelism : Z) (pod : Pod) : bool :=
  bool_decide (default "" (pod.(pod_Labels) !! ModelPoolLabelEnabled) = ModelPoolLabelEnabledValue) &&
  bool_decide (pod.(pod_Phase) = PodRunning) &&
  negb (bool_decide (pod.(pod_IP) = "")) &&
  bool_decide (pod.(pod_DeletionTimestamp) = None) &&
  negb (isVLLMModel pm && negb (podSupportsVLLMParallelism pod parallelism)).

(** The requests that the runtime shows for an engine, when it shows any. *)
Definition requestsLeft (snapshot : option RuntimeSnapshot) (pm : ModelClaim) : option Z :=
  match snapshotModelForClaim snapshot pm (servedModelName pm) with
  | None => None
  | Some model =>
      let requests := wrap64 (model.(sm_RequestsRunning) + model.(sm_RequestsWaiting)) in
      if negb model.(sm_RequestMetricsObserved) || (requests <=? 0) then None else Some requests
  end.
End Records.

(** ** A deleted claim. *)

Section Finalize.
Context `{EngineApi W}.

(** The routes are taken back; whether an instance served. *)
Fixpoint takeRoutesBack (pm : ModelClaim) (instances : list ModelClaimInstance) (served : bool) : Run W bool :=
  match instances with
  | [] => mret served
  | inst :: rest =>
      _ ← deannotateWarmPod pm.(mc_Namespace) inst.(inst_Pod) pm.(mc_Name);
      takeRoutesBack pm rest (served || bool_decide (inst.(inst_Phase) = ModelClaimActive))
  end.

(** The engines that served are read; how long they are given still. *)
Fixpoint waitForRequests (pm : ModelClaim) (since : Duration) (instances : list ModelClaimInstance) (events : list claimEvent)
  : Run W (list claimEvent * Duration) :=
  match instances with
  | [] => mret (events, 0)
  | inst :: rest =>
      if negb (bool_decide (inst.(inst_Phase) = ModelClaimActive)) then waitForRequests pm since rest events
      else
        ip ← podIP pm.(mc_Namespace) inst.(inst_Pod);
        if bool_decide (ip = "") then waitForRequests pm since rest events
        else
          read ← call (Snapshot ip);
          match read with
          | Err _ => waitForRequests pm since rest events
          | Ok snapshot =>
              match requestsLeft snapshot pm with
              | None => waitForRequests pm since rest events
              | Some requests =>
                  if since <? deletionDrainTimeout then mret (events, deletionDrainPoll)
                  else waitForRequests pm since rest (events ++ [EventDrainTimedOut inst.(inst_Pod) requests])
              end
          end
  end.

Definition drainBeforeStop (pm : ModelClaim) : Run W (list claimEvent * Duration) :=
  served ← takeRoutesBack pm pm.(status_Instances) false;
  if negb served then mret ([], 0)
  else
    now ← call Now;
    let since := timeSub now (default zeroTime pm.(mc_DeletionTimestamp)) in
    if since <? deletionDrainGrace then mret ([], wrap64 (deletionDrainGrace - since))
    else waitForRequests pm since pm.(status_Instances) [].

Definition deactivateInstance (pm : ModelClaim) (podName : string) : Run W (option stopError) :=
  _ ← deannotateWarmPod pm.(mc_Namespace) podName pm.(mc_Name);
  ip ← podIP pm.(mc_Namespace) podName;
  if bool_decide (ip = "") then mret None
  else
    read ← call (Snapshot ip);
    match read with
    | Err why => mret (Some (NotReadBeforeStop podName why))
    | Ok _ =>
        stopped ← call (Deactivate ip (stopRequest pm));
        mret (match stopped with Err why => Some (NotStopped podName why) | Ok _ => None end)
    end.

(** The errors of the engines that could not be stopped. *)
Fixpoint deactivateEach (pm : ModelClaim) (instances : list ModelClaimInstance) (errs : list stopError) : Run W (list stopError) :=
  match instances with
  | [] => mret errs
  | inst :: rest =>
      err ← deactivateInstance pm inst.(inst_Pod);
      deactivateEach pm rest (errs ++ option_list err)
  end.

Definition deactivateInstances (pm : ModelClaim) : Run W (list stopError) := deactivateEach pm pm.(status_Instances) [].

Definition finalize (s : controllerState) (pm : ModelClaim) (key : NamespacedName) : Run W (controllerState * reconcileResult) :=
  if negb (ContainsFinalizer pm ModelClaimFinalizer) then mret (s, Ok doneResult)
  else
    '(events, wait) ← drainBeforeStop pm;
    let s := csTell s events in
    if 0 <? wait then mret (s, Ok (requeueAfter wait))
    else
      errs ← deactivateInstances pm;
      if negb (bool_decide (errs = [])) then mret (s, Err (EnginesNotStopped errs))
      else
        let s := csForget s key in
        updated ← call (UpdateClaim (RemoveFinalizer pm ModelClaimFinalizer));
        mret (s, match updated with Err e => requeueOnConflict e | Ok _ => Ok doneResult end).

(** ** The candidates, and the instances that are lost. *)

Definition listCandidateWarmPods (pm : ModelClaim) : Run W (result candidatesError (list Pod)) :=
  match pm.(spec_PodSelector) with
  | None => mret (Err NoPodSelector)
  | Some selector =>
      match modelParallelism pm with
      | Err why => mret (Err (InvalidEngineArgs why))
      | Ok parallelism =>
          (* [LabelSelectorAsSelector] fails on the selector alone. *)
          if bool_decide (selectorMatches selector ∅ = None) then mret (Err InvalidPodSelector)
          else
            listed ← call (ListPods pm.(mc_Namespace) selector);
            mret (match listed with
                  | Err e => Err (PodsNotListed e)
                  | Ok pods => Ok (List.filter (isCandidate pm parallelism) pods)
                  end)
      end
  end.

Definition stillRuns (pm : ModelClaim) (podName : string) : Run W bool :=
  got ← call (GetPod (MkNN pm.(mc_Namespace) podName));
  match got with
  | Err ApiNotFound => mret false
  | Err _ => mret true
  | Ok pod =>
      if bool_decide (pod.(pod_Phase) = PodRunning) && negb (bool_decide (pod.(pod_IP) = "")) &&
         bool_decide (pod.(pod_DeletionTimestamp) = None) then mret true
      else
        _ ← deannotateWarmPod pm.(mc_Namespace) podName pm.(mc_Name);
        mret false
  end.

Fixpoint keepRunning (pm : ModelClaim) (alive : gset string) (instances kept : list ModelClaimInstance)
  : Run W (list ModelClaimInstance) :=
  match instances with
  | [] => mret kept
  | inst :: rest =>
      runs ← (if bool_decide (inst.(inst_Pod) ∈ alive) then mret true else stillRuns pm inst.(inst_Pod));
      keepRunning pm alive rest (if runs : bool then kept ++ [inst] else kept)
  end.

Definition dropLostInstances (pm : ModelClaim) (candidates : list Pod) : Run W ModelClaim :=
  kept ← keepRunning pm (list_to_set (pod_Name <$> candidates)) pm.(status_Instances) [];
  mret (setInstances pm kept).

Definition setStatusFields (pm : ModelClaim) (candidates : list Pod) : Run W ModelClaim :=
  conditions ← call (SetStatusCondition pm.(status_Conditions)
    (MkCondition ModelClaimConditionTypeInitialized ConditionTrue zeroTime "ModelClaimInitialized"
       "ModelClaim has entered the reconciliation loop"));
  mret (setCounts pm (wrap32 (Z.of_nat (length candidates))) (desiredReplicas pm) conditions).

(** ** Scaling down. *)

(** At most as many rounds as there are instances. *)
Fixpoint scaleDownBy (rounds : nat) (pm : ModelClaim) (target : Z) (readings : runtimeReadings)
  : Run W (ModelClaim * runtimeReadings) :=
  match rounds with
  | O => mret (pm, readings)
  | S rounds =>
      match last pm.(status_Instances) with
      | Some inst =>
          if target <? instanceCount pm then
            readings ← stopEngineOn pm inst.(inst_Pod) readings;
            scaleDownBy rounds (setInstances pm (removelast pm.(status_Instances))) target readings
          else mret (pm, readings)
      | None => mret (pm, readings)
      end
  end.

Definition scaleDown (pm : ModelClaim) (target : Z) (readings : runtimeReadings) : Run W (ModelClaim * runtimeReadings) :=
  scaleDownBy (length pm.(status_Instances)) pm target readings.

Definition roomAsCached (namespace : string) (candidates : list Pod) : Run W roomSignature :=
  listed ← call (ListCachedClaims namespace);
  mret (roomSignatureOf candidates (match listed with Ok items => Some items | Err _ => None end)).
End Finalize.

(** ** A pass. *)

Section Reconcile.
Context `{HE : EngineApi W} {HPP : PoolPods} (locality : option LocalityProvider) (worded : scheduleMessage → string)
  (wordedError : activationError → string).

Definition setReady (pm : ModelClaim) (status : ConditionStatus) (reason message : string) : Run W ModelClaim :=
  conditions ← call (SetStatusCondition pm.(status_Conditions)
                       (MkCondition ModelClaimConditionReady status zeroTime reason message));
  mret (setConditions pm conditions).

(** An error of the start: the wait before the next try begins. *)
Definition handleActivationError (s : controllerState) (pm : ModelClaim) (candidates : list Pod) (key : NamespacedName)
    (err : activationError) : Run W (controllerState * reconcileResult) :=
  if isConflict err then mret (s, Ok requeueNow)
  else
    match err with
    | placementAdmissionReadError _ => mret (s, Err (NotAdmitted err))
    | _ =>
        let s := csTell s [EventActivateFailed] in
        pm ← setReady pm ConditionFalse "ActivateFailed" (wordedError err);
        updated ← call (StatusUpdate (setClaimPhase pm ModelClaimFailed));
        match updated with
        | Err e => mret (s, requeueOnConflict e)
        | Ok pm =>
            let s := csOnHeld s (release (csHeld s) key.(nn_Namespace) key.(nn_Name)) in
            '(divisions, held, readings) ← divideCardsAsListed s.(cs_place).(pl_divisions) (csHeld s) (csReadings s) candidates;
            let s := csOnReadings (csOnHeld (csPlace s (onDivisions s.(cs_place) divisions)) held) readings in
            room ← roomAsCached pm.(mc_Namespace) candidates;
            now ← call Now;
            let '(b, wait) := failedToStart (csBackoff s) key pm.(mc_Generation) (Some room) now in
            mret (csOnBackoff s b,
                  Ok (requeueAfter (if bool_decide (pm.(status_Instances) = []) then wait else DefaultRequeueDuration)))
        end
    end.

Definition reconcileHealthAndWakes (s : controllerState) (pm : ModelClaim) (candidates : list Pod)
  : Run W (controllerState * ModelClaim * bool * option apiError) :=
  '(h, b, pm, booting) ← reconcileInstanceHealth (csPass s) s.(cs_warned) (csBackoff s) pm;
  let s := csTell (csOnBackoff (csOnPass s h.(hs_pass)) b) h.(hs_events) in
  '(w, pm, woke, err) ← wakeRequested (csPass s) (csHeld s) s.(cs_seen) pm candidates;
  let s := csOnHeld (csOnPass s w.(ws_pass)) w.(ws_held) in
  mret (MkController s.(cs_place) h.(hs_warned) w.(ws_seen), pm, booting || woke, err).

(** Places or scales down; how long the claim waits, or what failed. *)
Definition towardsDesired (s : controllerState) (pm : ModelClaim) (candidates : list Pod) (key : NamespacedName)
  : Run W (controllerState * ModelClaim * result activationError Duration) :=
  if instanceCount pm <? desiredReplicas pm then
    '(place, pm, out) ← ensureActivated locality worded s.(cs_place) pm candidates;
    mret (csPlace s place, pm,
          match out with
          | Some (Ok wait) =>
              Ok (if (0 <? wait) && bool_decide (pm.(status_Instances) = []) then wait else DefaultRequeueDuration)
          | Some (Err e) => Err e
          | None => Ok DefaultRequeueDuration
          end)
  else if desiredReplicas pm <? instanceCount pm then
    '(pm, readings) ← scaleDown pm (desiredReplicas pm) (csReadings s);
    let s := csOnReadings s readings in
    mret (csOnBackoff s (placed (csBackoff s) key), pm, Ok DefaultRequeueDuration)
  else
    mret (if bool_decide (failedInstanceSlots pm = []) then csOnBackoff s (placed (csBackoff s) key) else s,
          pm, Ok DefaultRequeueDuration).

(** The phase the claim is written with, from its instances and its wait. *)
Definition settleClaim (s : controllerState) (pm : ModelClaim) (key : NamespacedName) : Run W ModelClaim :=
  let failedRetryWaiting :=
    bool_decide (pm.(status_Phase) = ModelClaimFailed) &&
    match FindStatusCondition pm.(status_Conditions) ModelClaimConditionTypeScheduled with
    | Some scheduled => bool_decide (scheduled.(cond_Reason) = scheduledReasonWaitingForPlacementTurn)
    | None => false
    end in
  pm ← recomputeReadiness pm;
  mret (if bool_decide (pm.(status_Instances) = []) && (failedRetryWaiting || waitsAfterAFailedStart (csBackoff s) key)
        then setClaimPhase pm ModelClaimFailed else pm).

(** Once the status is written: the wait, the pools and the cards. *)
Definition afterStatus (s : controllerState) (pm : ModelClaim) (candidates : list Pod) (key : NamespacedName)
    (replacementFailed : bool) : Run W controllerState :=
  s ← (if replacementFailed then
         room ← roomAsCached pm.(mc_Namespace) candidates;
         now ← call Now;
         mret (csOnBackoff s (failedToStart (csBackoff s) key pm.(mc_Generation) (Some room) now).1)
       else mret s);
  let s := csOnBackoff s (statusWritten (csBackoff s) key) in
  '(pass, _) ← reconcilePoolPolicies (csPass s) candidates;
  let s := csOnPass s pass in
  '(divisions, held, readings) ← divideCards s.(cs_place).(pl_divisions) (csHeld s) (csReadings s) candidates;
  mret (csOnReadings (csOnHeld (csPlace s (onDivisions s.(cs_place) divisions)) held) readings).

(** The status is written, and the pass ends. *)
Definition writeStatus (s : controllerState) (pm : ModelClaim) (candidates : list Pod) (key : NamespacedName)
    (wait : Duration) (booting replacementFailed : bool) : Run W (controllerState * reconcileResult) :=
  pm ← settleClaim s pm key;
  updated ← call (StatusUpdate pm);
  match updated with
  | Err e => mret (s, requeueOnConflict e)
  | Ok pm =>
      s ← afterStatus s pm candidates key replacementFailed;
      mret (s, Ok (requeueAfter (if booting then Z.min wait ActivatingRequeueDuration else wait)))
  end.

(** From the health check to the end. *)
Definition finishPass (s : controllerState) (pm : ModelClaim) (candidates : list Pod) (key : NamespacedName)
    (wait : Duration) : Run W (controllerState * reconcileResult) :=
  '(s, pm, booting, err) ← reconcileHealthAndWakes s pm candidates;
  match err with
  | Some e => mret (s, requeueOnConflict e)
  | None =>
      let failed := length (failedInstanceSlots pm) in
      '(place, pm, err) ← rescheduleFailedInstances locality worded s.(cs_place) pm candidates;
      let s := csPlace s place in
      let booting := booting || (length (failedInstanceSlots pm) <? failed)%nat in
      match err with
      | None => writeStatus s pm candidates key wait booting false
      | Some e =>
          if isConflict e then mret (s, Ok requeueNow)
          else writeStatus (csTell s [EventRescheduleFailed]) pm candidates key wait booting true
      end
  end.

(** A claim that stays, once its pods are listed. *)
Definition reconcileWith (s : controllerState) (pm : ModelClaim) (candidates : list Pod) (key : NamespacedName)
  : Run W (controllerState * reconcileResult) :=
  let recorded := length pm.(status_Instances) in
  pm ← dropLostInstances pm candidates;
  let s := if (length pm.(status_Instances) <? recorded)%nat then csOnBackoff s (startOver (csBackoff s) key) else s in
  pm ← setStatusFields pm candidates;
  let s := csOnReadings s newRuntimeReadings in
  '(s, pm, out) ← towardsDesired s pm candidates key;
  match out with
  | Err e => handleActivationError s pm candidates key e
  | Ok wait => finishPass s pm candidates key wait
  end.

Definition refuseEngineConfig (s : controllerState) (pm : ModelClaim) (why : engineArgError)
  : Run W (controllerState * reconcileResult) :=
  let s := csTell s [EventInvalidEngineConfig] in
  pm ← setReady pm ConditionFalse "InvalidEngineConfig" (wordedError (InvalidParallelism why));
  updated ← call (StatusUpdate (setClaimPhase pm ModelClaimFailed));
  mret (s, match updated with Err e => requeueOnConflict e | Ok _ => Ok doneResult end).

Definition Reconcile (s : controllerState) (key : NamespacedName) : Run W (controllerState * reconcileResult) :=
  got ← call (GetCachedClaim key);
  match got with
  | Err ApiNotFound => mret (csForget s key, Ok doneResult)
  | Err e => mret (s, Err (ClaimNotRead e))
  | Ok pm =>
      if bool_decide (is_Some pm.(mc_DeletionTimestamp)) then finalize s pm key
      else if negb (ContainsFinalizer pm ModelClaimFinalizer) then
        updated ← call (UpdateClaim (AddFinalizer pm ModelClaimFinalizer));
        mret (s, match updated with Err e => requeueOnConflict e | Ok _ => Ok requeueNow end)
      else
        match modelParallelism pm with
        | Err why => refuseEngineConfig s pm why
        | Ok _ =>
            listed ← listCandidateWarmPods pm;
            match listed with
            | Err e => mret (s, Err (NoCandidates e))
            | Ok candidates => reconcileWith s pm candidates key
            end
        end
  end.
End Reconcile.
