(* ===== verification/EngineCalls.v ===== *)
(** * A pass, call by call.

    [CallsIn] says of a relation on the world that every call of the reconciler
    stays within it, but for the update of the claim itself.  A pass then stays
    within the relation too, as it only places, checks, wakes, divides and runs
    the policies of the pools; its steps are taken here one after the other. *)

From S2P Require Import Prelude Api Claims Ledger KVPlan Placement Reservations Backoff Runtime ArrangeCard PoolPolicy Division MakeRoom Rfc3339 WakeTurn SleepEngine WakeHandler RoomHandler Calls WakeFacts RoomFacts PodWatch PoolTick Engines InstanceHealth Activation Reconcile.

Class CallsIn `{HE : EngineApi W} {HPP : PoolPods} (R : W → W → Prop) := {
  callsIn_reads :: ReadsIn R;
  callsIn_status :: StatusIn R;
  callsIn_limits :: LimitsIn R;
  in_PatchPod old new w : R w (PatchPod old new w).1;
  in_PutToSleep ip req w : R w (Sleep ip req w).1;
  in_Wake ip req w : R w (Wake ip req w).1;
  in_GetPod key w : R w (GetPod key w).1;
  in_Activate ip req w : R w (Activate ip req w).1;
  in_Deactivate ip req w : R w (Deactivate ip req w).1;
  in_RemoveAnnotations key names w : R w (RemoveAnnotations key names w).1;
  in_GetCachedClaim key w : R w (GetCachedClaim key w).1;
  in_ListPods namespace selector w : R w (ListPods namespace selector w).1;
  in_ListSelectedPods deployment w : R w (ListSelectedPods deployment w).1;
}.

#[export] Instance callsIn_sleeps `{HC : CallsIn W R} : SleepsIn R.
Proof. split; intros; [apply in_PatchPod|apply in_PutToSleep]. Qed.

(** One call more. *)
Ltac engine_call_in :=
  lazymatch goal with
  | |- _ _ (PatchPod _ _ _).1 => apply in_PatchPod
  | |- _ _ (Wake _ _ _).1 => apply in_Wake
  | |- _ _ (GetPod _ _).1 => apply in_GetPod
  | |- _ _ (Activate _ _ _).1 => apply in_Activate
  | |- _ _ (Deactivate _ _ _).1 => apply in_Deactivate
  | |- _ _ (RemoveAnnotations _ _ _).1 => apply in_RemoveAnnotations
  | |- _ _ (GetCachedClaim _ _).1 => apply in_GetCachedClaim
  | |- _ _ (ListPods _ _ _).1 => apply in_ListPods
  | |- _ _ (ListSelectedPods _ _).1 => apply in_ListSelectedPods
  end.
#[export] Hint Extern 1 => engine_call_in : within.

Section Pass.
Context `{HE : EngineApi W} {HPP : PoolPods} (R : W → W → Prop) `{!CallsIn R}.

(** ** The engines of a pod. *)

Lemma podIP_in namespace name : within R (podIP namespace name).
Proof. unfold podIP. stays. Qed.

Lemma deannotateWarmPod_in namespace podName pmName : within R (deannotateWarmPod namespace podName pmName).
Proof. unfold deannotateWarmPod. stays. Qed.
#[local] Hint Resolve podIP_in deannotateWarmPod_in : within.

Lemma stopEngineOn_in pm podName rr : within R (stopEngineOn pm podName rr).
Proof. unfold stopEngineOn. stays. Qed.
#[local] Hint Resolve stopEngineOn_in : within.

(** ** The health check. *)

Lemma judgeEngine_in pm inst snapshot observed : within R (judgeEngine pm inst snapshot observed).
Proof. unfold judgeEngine, judgeKVLimit, freshKVLimitRecord. stays. Qed.

#[local] Hint Resolve judgeEngine_in : within.

Lemma holdToKVLimit_in s pm inst pod snapshot observed state : within R (holdToKVLimit s pm inst pod snapshot observed state).
Proof. unfold holdToKVLimit, writeKVLimit, reportKVLimit. stays. Qed.

Lemma settlePhase_in s pm slot inst pod state observed : within R (settlePhase s pm slot inst pod state observed).
Proof. unfold settlePhase. stays. Qed.
#[local] Hint Resolve holdToKVLimit_in settlePhase_in : within.

Lemma settleInstance_in s pm slot inst pod snapshot : within R (settleInstance s pm slot inst pod snapshot).
Proof. unfold settleInstance, startMissingEngine. stays. Qed.
#[local] Hint Resolve settleInstance_in : within.

Lemma checkInstances_in s pm slot n booting : within R (checkInstances s pm slot n booting).
Proof. revert s pm slot booting. induction n; intros; simpl; [stays|]. unfold checkInstance. stays. Qed.

Lemma dropInstancesOf_in pm dropped instances : within R (dropInstancesOf pm dropped instances).
Proof. induction instances; simpl; stays. Qed.
#[local] Hint Resolve checkInstances_in dropInstancesOf_in : within.

Lemma reconcileInstanceHealth_in pass warned backoff pm : within R (reconcileInstanceHealth pass warned backoff pm).
Proof. unfold reconcileInstanceHealth, dropInstances. stays. Qed.

(** ** Wake requests. *)

Lemma takeBackWakeRequest_in pod key : within R (takeBackWakeRequest pod key).
Proof. unfold takeBackWakeRequest. stays. Qed.
#[local] Hint Resolve takeBackWakeRequest_in : within.

Lemma wakeNowOn_in key served candidates s pm slot pod requestedAt ledger woke :
  within R (wakeNowOn key served candidates s pm slot pod requestedAt ledger woke).
Proof. unfold wakeNowOn, moveOrElse. stays. Qed.
#[local] Hint Resolve wakeNowOn_in : within.

Lemma wakeInstances_in key served candidates s pm slot n woke : within R (wakeInstances key served candidates s pm slot n woke).
Proof.
  revert s pm slot woke. induction n; intros; simpl; [stays|]. unfold wakeInstance, wakeAsleep, wakeWithoutRoom, moveOrElse. stays.
Qed.
#[local] Hint Resolve wakeInstances_in : within.

Lemma wakeRequested_in pass held seen pm candidates : within R (wakeRequested pass held seen pm candidates).
Proof. unfold wakeRequested. stays. Qed.
#[local] Hint Resolve reconcileInstanceHealth_in wakeRequested_in : within.

Lemma reconcileHealthAndWakes_in s pm candidates : within R (reconcileHealthAndWakes s pm candidates).
Proof. unfold reconcileHealthAndWakes. stays. Qed.
#[local] Hint Resolve reconcileHealthAndWakes_in : within.

(** ** Placement. *)

Section Placing.
Context (locality : option LocalityProvider) (worded : scheduleMessage → string).

Lemma setScheduled_in pm status reason message : within R (setScheduled worded pm status reason message).
Proof. unfold setScheduled. stays. Qed.
#[local] Hint Resolve setScheduled_in : within.

Lemma giveUp_in perGPU candidates claims ledgers states room s l :
  within R (giveUp worded perGPU candidates claims ledgers states room s l).
Proof. unfold giveUp, refusePlacement. stays. Qed.

Lemma divideFor_in perGPU claims ledgers s l pod : within R (divideFor perGPU claims ledgers s l pod).
Proof. unfold divideFor. stays. Qed.

Lemma placeOn_in ledgers s l pod bytes : within R (placeOn worded ledgers s l pod bytes).
Proof. unfold placeOn, stopReplaced, stopFailedEngine, started, notStarted, markPlaced, annotateWarmPod. stays. Qed.
#[local] Hint Resolve giveUp_in divideFor_in placeOn_in : within.

Lemma placeAll_in perGPU candidates claims ledgers states room fuel s l :
  within R (placeAll locality worded perGPU candidates claims ledgers states room fuel s l).
Proof. revert s l. induction fuel; intros; simpl; [stays|]. unfold placeOnce. stays. Qed.
#[local] Hint Resolve placeAll_in : within.

Lemma ensureActivated_in s pm candidates : within R (ensureActivated locality worded s pm candidates).
Proof. unfold ensureActivated, placeInTurn, placeWith. stays. Qed.
End Placing.
#[local] Hint Resolve ensureActivated_in : within.

(** ** The policies of the pools. *)

Lemma writeTargets_in source pod at_ targets models : within R (writeTargets source pod at_ targets models).
Proof. induction models; simpl; stays. Qed.

Lemma sleepIdle_in s source idleAfter claims activities pod models :
  within R (sleepIdle s source idleAfter claims activities pod models).
Proof. revert s pod. induction models; intros; simpl; stays. Qed.
#[local] Hint Resolve writeTargets_in sleepIdle_in : within.

Lemma reconcilePoolPod_in s source pod : within R (reconcilePoolPod s source pod).
Proof. unfold reconcilePoolPod, reconcilePoolKVPolicy, reconcilePoolIdleSleep. stays. Qed.
#[local] Hint Resolve reconcilePoolPod_in : within.

Lemma reconcilePoolPods_in s source pods : within R (reconcilePoolPods s source pods).
Proof. revert s. induction pods; intros; simpl; stays. Qed.
#[local] Hint Resolve reconcilePoolPods_in : within.

Lemma poolPoliciesLoop_in s seen candidates : within R (poolPoliciesLoop s seen candidates).
Proof. revert s seen. induction candidates; intros; simpl; [stays|]. unfold reconcilePoolPolicy, poolPolicyPods, readUnread. stays. Qed.
#[local] Hint Resolve poolPoliciesLoop_in : within.

(** ** The division of the cards. *)

Lemma collectDue_in claims s pods : within R (collectDue claims s pods).
Proof. revert s. induction pods; intros; simpl; stays. Qed.

Lemma divideDue_in claims without s held rr due : within R (divideDue claims without s held rr due).
Proof. revert s held rr. induction due; intros; simpl; [stays|]. unfold divideOne, noteArrangement. stays. Qed.
#[local] Hint Resolve collectDue_in divideDue_in : within.

Lemma divideCardsAsListed_in s held rr candidates : within R (divideCardsAsListed s held rr candidates).
Proof. unfold divideCardsAsListed. stays. Qed.

Lemma mayAnyBeDue_in s cached pods : within R (mayAnyBeDue s cached pods).
Proof. induction pods; simpl; stays. Qed.
#[local] Hint Resolve divideCardsAsListed_in mayAnyBeDue_in : within.

Lemma divideCards_in s held rr candidates : within R (divideCards s held rr candidates).
Proof. unfold divideCards, anyCardMayBeDue. stays. Qed.
#[local] Hint Resolve divideCards_in : within.

(** ** The steps of a pass. *)

Lemma takeRoutesBack_in pm instances served : within R (takeRoutesBack pm instances served).
Proof. revert served. induction instances; intros; simpl; stays. Qed.

Lemma waitForRequests_in pm since instances events : within R (waitForRequests pm since instances events).
Proof. revert events. induction instances; intros; simpl; stays. Qed.
#[local] Hint Resolve takeRoutesBack_in waitForRequests_in : within.

Lemma drainBeforeStop_in pm : within R (drainBeforeStop pm).
Proof. unfold drainBeforeStop. stays. Qed.

Lemma deactivateEach_in pm instances errs : within R (deactivateEach pm instances errs).
Proof. revert errs. induction instances; intros; simpl; [stays|]. unfold deactivateInstance. stays. Qed.

Lemma keepRunning_in pm alive instances kept : within R (keepRunning pm alive instances kept).
Proof. revert kept. induction instances; intros; simpl; [stays|]. unfold stillRuns. stays. Qed.
#[local] Hint Resolve keepRunning_in : within.

Lemma scaleDownBy_in rounds pm target rr : within R (scaleDownBy rounds pm target rr).
Proof. revert pm rr. induction rounds; intros; simpl; stays. Qed.
#[local] Hint Resolve scaleDownBy_in : within.

Lemma listCandidateWarmPods_in pm : within R (listCandidateWarmPods pm).
Proof. unfold listCandidateWarmPods. stays. Qed.

Section Steps.
Context (locality : option LocalityProvider) (worded : scheduleMessage → string) (wordedError : activationError → string).

Lemma handleActivationError_in s pm candidates key err : within R (handleActivationError wordedError s pm candidates key err).
Proof. unfold handleActivationError, setReady, roomAsCached. stays. Qed.

Lemma towardsDesired_in s pm candidates key : within R (towardsDesired locality worded s pm candidates key).
Proof. unfold towardsDesired, scaleDown. stays. Qed.

Lemma writeStatus_in s pm candidates key wait booting failed : within R (writeStatus s pm candidates key wait booting failed).
Proof. unfold writeStatus, settleClaim, afterStatus, roomAsCached, reconcilePoolPolicies. stays. Qed.
#[local] Hint Resolve handleActivationError_in towardsDesired_in writeStatus_in : within.

Lemma finishPass_in s pm candidates key wait : within R (finishPass locality worded s pm candidates key wait).
Proof. unfold finishPass, rescheduleFailedInstances. stays. Qed.
#[local] Hint Resolve finishPass_in : within.

Lemma reconcileWith_in s pm candidates key : within R (reconcileWith locality worded wordedError s pm candidates key).
Proof. unfold reconcileWith, dropLostInstances, setStatusFields. stays. Qed.

Lemma refuseEngineConfig_in s pm why : within R (refuseEngineConfig wordedError s pm why).
Proof. unfold refuseEngineConfig, setReady. stays. Qed.
End Steps.
End Pass.

#[export] Hint Resolve podIP_in deannotateWarmPod_in drainBeforeStop_in deactivateEach_in listCandidateWarmPods_in reconcileWith_in
  refuseEngineConfig_in : within.
