(* ===== verification/ReconcileFacts.v ===== *)
(** * What a pass guarantees ([Reconcile]).

    An engine is started only for a claim that carries the finalizer, and the
    finalizer goes only when the engine of every recorded instance was stopped,
    so no engine outlives its claim.  Before an engine that served is stopped,
    the gateway is given the time to stop sending it requests, and the engine to
    finish those it has.  A pass over a claim that stays asks for another one. *)

From S2P Require Import Prelude Api Claims Ledger KVPlan Placement Reservations Backoff Runtime ArrangeCard PoolPolicy Division MakeRoom Rfc3339 WakeTurn SleepEngine WakeHandler RoomHandler Calls WakeFacts RoomFacts PodWatch PoolTick Engines InstanceHealth HealthFacts Activation ActivationFacts Reconcile EngineCalls.

(** ** Engines and finalizers. *)

Class LifeLaws `{HE : EngineApi W} {HPP : PoolPods} := {
  (** Whether the claim has the controller's finalizer, at the API server. *)
  finalizerAt : W → NamespacedName → bool;
  (** Whether a runtime has an engine of a model. *)
  runsModel : W → string → string → bool;

  finalizersKept w w' := ∀ key, finalizerAt w' key = finalizerAt w key;
  enginesKept w w' := ∀ ip m, runsModel w' ip m = runsModel w ip m;

  (** Only an update of the claim itself changes its finalizers. *)
  calls_finalizers :: CallsIn finalizersKept;
  UpdateClaim_finalizer claim w key :
    finalizerAt (UpdateClaim claim w).1 key = finalizerAt w key ∨
    finalizerAt (UpdateClaim claim w).1 key = ContainsFinalizer claim ModelClaimFinalizer;

  (** Reading, and writing objects, starts and stops no engine. *)
  reads_engines :: ReadsIn enginesKept;
  status_engines :: StatusIn enginesKept;
  GetPod_engines key w : enginesKept w (GetPod key w).1;
  RemoveAnnotations_engines key names w : enginesKept w (RemoveAnnotations key names w).1;
  GetCachedClaim_engines key w : enginesKept w (GetCachedClaim key w).1;
  UpdateClaim_engines claim w : enginesKept w (UpdateClaim claim w).1;
  Deactivate_stops ip req w : let w' := (Deactivate ip req w).1 in
    (∀ ip' m, runsModel w' ip' m = true → runsModel w ip' m = true) ∧
    ((Deactivate ip req w).2 = Ok () → runsModel w' ip (dea_ModelName req) = false);
}.

Section Life.
Context `{HF : LifeLaws W}.

#[local] Hint Resolve GetPod_engines RemoveAnnotations_engines GetCachedClaim_engines UpdateClaim_engines : within.

Lemma deannotateWarmPod_engines namespace podName pmName : within enginesKept (deannotateWarmPod namespace podName pmName).
Proof. unfold deannotateWarmPod. stays. Qed.
#[local] Hint Resolve deannotateWarmPod_engines : within.

Lemma takeRoutesBack_engines pm instances served : within enginesKept (takeRoutesBack pm instances served).
Proof. revert served. induction instances; intros; simpl; stays. Qed.

(** ** A deleted claim. *)

Context (pm : ModelClaim).

(** The address of an instance's pod at a moment; none when it cannot be
    called. *)
Definition addressAt (y : W) (inst : ModelClaimInstance) : string := value (podIP pm.(mc_Namespace) inst.(inst_Pod)) y.

(** The instance's engine shows no request: its pod cannot be called, or what
    its runtime answers shows none. *)
Definition quietAt (T : W → Prop) (inst : ModelClaimInstance) : Prop :=
  ∃ y, T y ∧ (addressAt y inst = "" ∨ ∃ z, T z ∧
    match (Snapshot (addressAt y inst) z).2 with Ok snapshot => requestsLeft snapshot pm = None | Err _ => True end).

(** The clock is not more than a century behind the deletion. *)
Definition clockSane : Prop := ∀ y, default zeroTime pm.(mc_DeletionTimestamp) ≤ (Now y).2 + 2 ^ 62.

(** No instance served, or the clock has shown at [y] that the gateway had its
    time; and then each engine that served is quiet or has had its time too. *)
Definition drained (T : W → Prop) : Prop :=
  (∀ inst, inst ∈ pm.(status_Instances) → inst.(inst_Phase) ≠ ModelClaimActive) ∨
  ∃ y, T y ∧ let since := timeSub (Now y).2 (default zeroTime pm.(mc_DeletionTimestamp)) in
    deletionDrainGrace ≤ since ∧
    ∀ inst, inst ∈ pm.(status_Instances) → inst.(inst_Phase) = ModelClaimActive → deletionDrainTimeout ≤ since ∨ quietAt T inst.

Definition drainedInTime (T : W → Prop) : Prop := clockSane → drained T.

(** No engine starts, and one stops only once they are drained. *)
Definition stopsDrained (T : W → Prop) (w w' : W) : Prop :=
  ∀ ip m, (runsModel w' ip m = true → runsModel w ip m = true) ∧
    (runsModel w ip m = true → runsModel w' ip m = false → drainedInTime T).

#[export] Instance stopsDrained_preorder T : PreOrder (stopsDrained T).
Proof.
  split; [intros w ip m; split; [done|congruence]|]. intros x y z Hxy Hyz ip m.
  destruct (Hxy ip m) as [Hup Hdown], (Hyz ip m) as [Hup' Hdown']. split; [auto|]. intros Hx Hz.
  destruct (runsModel y ip m) eqn:Ey; auto.
Qed.

Lemma kept_drained T w w' : enginesKept w w' → stopsDrained T w w'.
Proof. intros Hk ip m. rewrite (Hk ip m). split; [done|congruence]. Qed.

#[local] Abbreviation tracks := (trackedAt stopsDrained).

Lemma at_kept {A} (m : Run W A) w P : within enginesKept m → tracks m w P (fun _ _ w' => enginesKept w w').
Proof. intros Hm. eapply at_within; [exact Hm|intros; by apply kept_drained|done]. Qed.

Lemma podIP_at inst w P :
  tracks (podIP pm.(mc_Namespace) inst.(inst_Pod)) w P (fun T ip w' => T w ∧ ip = addressAt w inst ∧ enginesKept w w').
Proof.
  unfold podIP. eapply at_bind with (Q := fun T got w' => T w ∧ got = (GetPod (MkNN (mc_Namespace pm) (inst_Pod inst)) w).2 ∧ enginesKept w w').
  { apply at_call. intros T _ Hw _. split; [apply kept_drained|split_and!; [done..|]]; apply GetPod_engines. }
  intros got w1. apply at_ret. intros T (Hw & -> & Hk) _. split_and!; [done| |done].
  unfold addressAt, podIP. by rewrite value_bind, value_call.
Qed.

Lemma takeRoutesBack_served instances served :
  yields (takeRoutesBack pm instances served) (fun r => r = false → ∀ inst, inst ∈ instances → inst_Phase inst ≠ ModelClaimActive).
Proof.
  enough (yields (takeRoutesBack pm instances served) (fun r => r = false → served = false ∧
    ∀ inst, inst ∈ instances → inst_Phase inst ≠ ModelClaimActive)) as Hy.
  { eapply yields_mono; [exact Hy|]. intros r Hr Hf. by apply Hr. }
  revert served. induction instances as [|inst rest IH]; intros served; simpl.
  { apply yields_ret. intros ->. split; [done|]. intros inst []%elem_of_nil. }
  eapply yields_bind; [apply yields_any|]. intros _ _. eapply yields_mono; [apply IH|]. intros r Hr Hf.
  destruct (Hr Hf) as [[-> Hn%bool_decide_eq_false]%orb_false_iff Hrest]. split; [done|].
  intros inst' [->|Hin]%elem_of_cons; auto.
Qed.

(** The engines that served are read one after the other. *)
Lemma waitForRequests_at since instances events w P :
  tracks (waitForRequests pm since instances events) w P (fun T r _ => r.2 ≤ 0 →
    ∀ inst, inst ∈ instances → inst_Phase inst = ModelClaimActive → deletionDrainTimeout ≤ since ∨ quietAt T inst).
Proof.
  revert events w P. induction instances as [|inst rest IH]; intros events w P; simpl.
  { apply at_ret. intros T _ _ _ inst []%elem_of_nil. }
  assert (∀ events w P, (∀ T, P T → inst_Phase inst = ModelClaimActive → deletionDrainTimeout ≤ since ∨ quietAt T inst) →
    tracks (waitForRequests pm since rest events) w P (fun T r _ => r.2 ≤ 0 → ∀ inst', inst' ∈ inst :: rest →
      inst_Phase inst' = ModelClaimActive → deletionDrainTimeout ≤ since ∨ quietAt T inst')) as Hgo.
  { intros events' w' P' HP. eapply at_conseq; [apply at_keeps, IH|done|]. cbn beta.
    intros T r x [HT Hr] _ Hle inst' [->|Hin]%elem_of_cons; [by apply HP|by apply Hr]. }
  destruct (bool_decide_reflect (inst_Phase inst = ModelClaimActive)) as [Ea|Ea]; cbn [negb]; [|by apply Hgo].
  eapply at_bind; [apply podIP_at|]. intros ip w1. cbn beta.
  destruct (bool_decide_reflect (ip = "")) as [->|Hip].
  { apply Hgo. intros T (Hw & Hadr & _) _. right. exists w. split; [done|by left]. }
  eapply at_bind with (Q := fun T read _ => T w ∧ T w1 ∧ ip = addressAt w inst ∧ read = (Snapshot ip w1).2).
  { apply at_call. intros T (Hw & Hadr & _) Hw1 _. split; [apply kept_drained, in_Snapshot|done]. }
  intros read w2. cbn beta. destruct read as [snapshot|e].
  2: { apply Hgo. intros T (Hw & Hw1 & -> & Hread) _. right. exists w. split; [done|right]. exists w1. by rewrite <- Hread. }
  destruct (requestsLeft snapshot pm) as [n|] eqn:En.
  2: { apply Hgo. intros T (Hw & Hw1 & -> & Hread) _. right. exists w. split; [done|right]. exists w1. by rewrite <- Hread. }
  destruct (Z.ltb_spec since deletionDrainTimeout); [apply at_ret; intros T _ _ Hle; exfalso; cbn in Hle; by destruct Hle|].
  apply Hgo. by left.
Qed.

(** Nothing is stopped before the drain is over. *)
Lemma drainBeforeStop_at w P : tracks (drainBeforeStop pm) w P (fun T r _ => r.2 ≤ 0 → drainedInTime T).
Proof.
  unfold drainBeforeStop.
  eapply at_bind; [apply at_value; [apply takeRoutesBack_served|apply at_kept, takeRoutesBack_engines]|].
  intros served w1. cbn beta. destruct served; cbn [negb].
  2: { apply at_ret. intros T [Hs _] _ _ _. left. by apply Hs. }
  eapply at_bind with (Q := fun T now _ => T w1 ∧ now = (Now w1).2).
  { apply at_call. intros T _ Hw _. split; [apply kept_drained, in_Now|done]. }
  intros now w2. cbn beta zeta.
  destruct (Z.ltb_spec (timeSub now (default zeroTime (mc_DeletionTimestamp pm))) deletionDrainGrace) as [Hlt|Hge].
  - apply at_ret. intros T [_ ->] _. cbn [snd]. intros Hle Hclock. specialize (Hclock w1).
    unfold timeSub, MinInt64, MaxInt64, deletionDrainGrace, Second in *. rewrite wrap64_id in Hle; [exfalso; lia|].
    unfold in_int64, MinInt64, MaxInt64. lia.
  - eapply at_conseq; [apply at_keeps, waitForRequests_at|intros T HT _; exact HT|]. cbn beta. intros T r x [[Hw1 ->] Hr] _ Hle _. right. exists w1.
    split; [done|]. cbv zeta. split; [exact Hge|by apply Hr].
Qed.

(** ** The engines are stopped. *)

(** At some moment the instance's pod could not be called, or by now its runtime
    has no engine of the model at the address it had then. *)
Definition stoppedBy (T : W → Prop) (inst : ModelClaimInstance) (w : W) : Prop :=
  ∃ y, T y ∧ (addressAt y inst = "" ∨ runsModel w (addressAt y inst) (servedModelName pm) = false).

Lemma stoppedBy_later T inst w w' : stopsDrained T w w' → stoppedBy T inst w → stoppedBy T inst w'.
Proof.
  intros Hs (y & Hy & [Ha|Hr]); exists y; (split; [done|]); [by left|right].
  destruct (Hs (addressAt y inst) (servedModelName pm)) as [Hup _]. apply not_true_iff_false. intros Hr'. rewrite (Hup Hr') in Hr. done.
Qed.

Lemma deactivateInstance_at inst w :
  tracks (deactivateInstance pm (inst_Pod inst)) w drainedInTime (fun T err w' => drainedInTime T ∧ (err = None → stoppedBy T inst w')).
Proof.
  unfold deactivateInstance. eapply at_then with (P0 := fun _ => True); [apply at_kept, deannotateWarmPod_engines|done|].
  intros u w1. eapply at_then with (P0 := fun _ => True); [apply podIP_at|done|]. intros ip w2. cbn beta.
  destruct (bool_decide_reflect (ip = "")) as [->|Hip].
  { apply at_ret. intros T ([Hd _] & Hw1 & Hadr & _) _. split; [done|]. intros _. exists w1. split; [done|by left]. }
  eapply at_then with (P0 := fun _ => True) (Q := fun _ _ w' => enginesKept w2 w').
  { apply at_call. intros T _ _ _. split; [apply kept_drained|]; apply in_Snapshot. }
  { done. }
  intros read w3. cbn beta. destruct read as [snapshot|e]; [|apply at_ret; by intros T [[[Hd _] _] _] _].
  eapply at_then with (P0 := drainedInTime) (Q := fun _ stopped w' => stopped = Ok () → runsModel w' ip (servedModelName pm) = false).
  { apply at_call. intros T Hd _ _. destruct (Deactivate_stops ip (stopRequest pm) w3) as [Hup Hoff]. split; [|done].
    intros ip' m. split; [apply Hup|done]. }
  { by intros T [[[Hd _] _] _] _. }
  intros stopped w4. cbn beta. apply at_ret. intros T ([[[Hd _] (Hw1 & -> & _)] _] & Hoff) _. split; [done|].
  destruct stopped as [[]|why]; [|done]. intros _. exists w1. split; [done|right]. by apply Hoff.
Qed.

Lemma deactivateEach_at instances errs w :
  tracks (deactivateEach pm instances errs) w drainedInTime (fun T r w' => r = [] → errs = [] ∧ ∀ inst, inst ∈ instances → stoppedBy T inst w').
Proof.
  revert errs w. induction instances as [|inst rest IH]; intros errs w; simpl.
  { apply at_ret. intros T _ _ ->. split; [done|]. intros inst []%elem_of_nil. }
  eapply at_bind; [apply deactivateInstance_at|]. intros err w1. cbn beta.
  eapply at_conseq; [apply at_keeps, at_end; eapply at_conseq; [apply IH|..]|intros T HT _; exact HT|].
  { by intros T [Hd _] _. }
  { intros T r x Hr _. exact Hr. }
  cbn beta. intros T r x ([_ Hone] & Hr & Hlater) _ Hnil. destruct (Hr Hnil) as [[-> Herr]%app_nil Hrest]. split; [done|].
  intros inst' [->|Hin]%elem_of_cons; [|by apply Hrest]. apply (stoppedBy_later T inst w1 x Hlater), Hone. by destruct err.
Qed.

Definition finalized (T : W → Prop) (w w' : W) : Prop :=
  finalizersKept w w' ∨
  ∃ x, finalizersKept w x ∧ w' = (UpdateClaim (RemoveFinalizer pm ModelClaimFinalizer) x).1 ∧
    ∀ inst, inst ∈ pm.(status_Instances) → stoppedBy T inst w'.

Lemma finalize_at s key w :
  tracks (finalize s pm key) w (fun _ => True) (fun T _ w' => finalized T w w').
Proof.
  unfold finalize. destruct (ContainsFinalizer pm ModelClaimFinalizer); cbn [negb].
  2: { apply at_ret. intros T _ _. by left. }
  eapply at_bind; [apply (at_also stopsDrained finalizersKept); [apply drainBeforeStop_in; exact _|apply drainBeforeStop_at]|].
  intros [events wait] w1. cbn beta zeta iota. cbn [snd]. destruct (Z.ltb_spec 0 wait) as [Hlt|Hle].
  { apply at_ret. intros T [Hk _] _. by left. }
  eapply at_then with (P0 := drainedInTime); [apply (at_also stopsDrained finalizersKept); [apply deactivateEach_in; exact _|apply deactivateEach_at]|..].
  { intros T [_ Hd] _. by apply Hd. }
  intros errs w2. cbn beta. destruct (bool_decide_reflect (errs = [])) as [->|Hne]; cbn [negb].
  2: { apply at_ret. intros T ([Hk1 _] & Hk2 & _) _. left. by etrans. }
  eapply at_then with (P0 := fun _ => True) (Q := fun _ _ w' => w' = (UpdateClaim (RemoveFinalizer pm ModelClaimFinalizer) w2).1).
  { apply at_call. intros T _ _ _. split; [apply kept_drained, UpdateClaim_engines|done]. }
  { done. }
  intros updated w3. cbn beta. apply at_ret. intros T (([Hk1 _] & Hk2 & Hst) & ->) _. right. exists w2.
  split_and!; [by etrans|done|]. intros inst Hin. apply (stoppedBy_later T inst w2); [apply kept_drained, UpdateClaim_engines|].
  by apply Hst.
Qed.
End Life.

Section Passes.
Context `{HF : LifeLaws W} (locality : option LocalityProvider) (worded : scheduleMessage → string)
  (wordedError : activationError → string).

Lemma contains_added pm finalizer : ContainsFinalizer (AddFinalizer pm finalizer) finalizer = true.
Proof.
  unfold AddFinalizer. destruct (ContainsFinalizer pm finalizer) eqn:E; [done|]. unfold ContainsFinalizer. cbn.
  apply bool_decide_eq_true. set_solver.
Qed.

#[local] Hint Resolve GetPod_engines RemoveAnnotations_engines GetCachedClaim_engines UpdateClaim_engines : within.

(** The moments of a deleted claim's pass. *)
Lemma reconcile_deleted s key w pm :
  (GetCachedClaim key w).2 = Ok pm → is_Some (mc_DeletionTimestamp pm) →
  let m := Reconcile locality worded wordedError s key in
  let T := fun y => y ∈ w :: visited m w in
  Forall (stopsDrained pm T w) (visited m w) ∧
  finalized pm T (GetCachedClaim key w).1 (final m w).
Proof.
  intros Hread Hdel. cbv zeta. unfold Reconcile.
  set (m := call (GetCachedClaim key) ≫= _). change (runs m w (fun t _ w' => Forall (stopsDrained pm (fun y => y ∈ w :: t) w) t ∧
    finalized pm (fun y => y ∈ w :: t) (GetCachedClaim key w).1 w')).
  apply runs_bind, runs_call. rewrite Hread, bool_decide_true by done.
  eapply runs_mono; [apply (finalize_at pm s key)|]. intros t r w' Ht.
  destruct (Ht (fun y => y ∈ w :: [(GetCachedClaim key w).1] ++ t)) as (_ & [_ HR]%Forall_cons & HQ); [done|set_solver|apply Forall_forall; set_solver|].
  split; [|done]. assert (stopsDrained pm (fun y => y ∈ w :: [(GetCachedClaim key w).1] ++ t) w (GetCachedClaim key w).1) as Hfirst
    by apply kept_drained, GetCachedClaim_engines.
  apply Forall_cons. split; [exact Hfirst|]. eapply Forall_impl; [exact HR|]. intros x Hx. by etrans.
Qed.

(** What a pass does with a claim that stays, or is gone, keeps its finalizer. *)
Lemma reconcile_keeps_finalizer s key w :
  (∀ pm, (GetCachedClaim key w).2 = Ok pm → mc_DeletionTimestamp pm = None) →
  finalizerAt w key = true → finalizerAt (final (Reconcile locality worded wordedError s key) w) key = true.
Proof.
  intros Hlive Hw. unfold Reconcile. rewrite final_bind, final_call, value_call.
  assert (finalizerAt (GetCachedClaim key w).1 key = true) as Hw1 by (rewrite (in_GetCachedClaim (R := finalizersKept) key w key); done).
  assert (∀ A (m : Run W A) x, within finalizersKept m → finalizerAt x key = true → finalizerAt (final m x) key = true) as Hkeep.
  { intros A m x Hm Hx. destruct (Hm x) as (_ & Hk & _). by rewrite (Hk key). }
  destruct (GetCachedClaim key w).2 as [pm|[]] eqn:Er; [|by apply Hkeep; [apply within_ret; exact _|]..].
  rewrite (Hlive pm eq_refl), bool_decide_false by (by intros [? ?]). destruct (ContainsFinalizer pm ModelClaimFinalizer) eqn:Ec; cbn [negb].
  - destruct (modelParallelism pm); [|by apply Hkeep; [apply refuseEngineConfig_in; exact _|]]. rewrite final_bind.
    destruct (value _ _); (apply Hkeep; [|apply Hkeep; [apply listCandidateWarmPods_in; exact _|done]]);
      [apply reconcileWith_in; exact _|apply within_ret; exact _].
  - rewrite final_bind, final_call. unfold final at 1. cbn.
    destruct (UpdateClaim_finalizer (AddFinalizer pm ModelClaimFinalizer) (GetCachedClaim key w).1 key) as [->| ->]; [done|].
    apply contains_added.
Qed.



(** Without a claim, or without the finalizer on it, no engine is touched. *)
Lemma reconcile_without_finalizer s key w :
  (∀ pm, (GetCachedClaim key w).2 = Ok pm → mc_DeletionTimestamp pm = None ∧ ContainsFinalizer pm ModelClaimFinalizer = false) →
  Forall (enginesKept w) (visited (Reconcile locality worded wordedError s key) w).
Proof.
  intros Hread. unfold Reconcile. set (m := call (GetCachedClaim key) ≫= _). change (runs m w (fun t _ _ => Forall (enginesKept w) t)).
  pose proof (GetCachedClaim_engines key w) as Hfirst. apply runs_bind, runs_call.
  destruct (GetCachedClaim key w).2 as [pm|[]]; [|by apply runs_ret, Forall_singleton..].
  destruct (Hread pm eq_refl) as [-> ->]. rewrite bool_decide_false by (by intros [? ?]). cbn [negb].
  apply runs_bind, runs_call, runs_ret. cbn. apply Forall_cons. split; [done|]. apply Forall_singleton. etrans; [exact Hfirst|].
  apply UpdateClaim_engines.
Qed.

(** An engine is started only behind the finalizer.  When a runtime has an
    engine at a moment of a pass that it did not have before, the claim was read
    with the controller's finalizer on it, and was not being deleted. *)
Theorem engines_start_behind_the_finalizer s key w x ip model :
  x ∈ visited (Reconcile locality worded wordedError s key) w → runsModel w ip model = false → runsModel x ip model = true →
  ∃ pm, (GetCachedClaim key w).2 = Ok pm ∧ mc_DeletionTimestamp pm = None ∧ ModelClaimFinalizer ∈ mc_Finalizers pm.
Proof.
  intros Hx Hw Hrun.
  assert (∀ pm, (GetCachedClaim key w).2 = Ok pm → mc_DeletionTimestamp pm = None) as Hlive.
  { intros pm Hread. destruct (mc_DeletionTimestamp pm) as [d|] eqn:Ed; [exfalso|done].
    destruct (reconcile_deleted s key w pm Hread (ltac:(by rewrite Ed))) as [HR _]. eapply Forall_forall in HR; [|exact Hx].
    destruct (HR ip model) as [Hup _]. rewrite (Hup Hrun) in Hw. done. }
  destruct (GetCachedClaim key w).2 as [pm|e] eqn:Er; [destruct (ContainsFinalizer pm ModelClaimFinalizer) eqn:Ec|].
  { exists pm. split_and!; [done|by apply Hlive|]. by apply bool_decide_eq_true in Ec. }
  all: assert (enginesKept w x) as Hk by (eapply Forall_forall; [apply (reconcile_without_finalizer s key)|exact Hx]; rewrite Er;
    intros pm' Hpm; by simplify_eq; auto).
  all: by rewrite (Hk ip model), Hw in Hrun.
Qed.

(** ** The next pass. *)

Definition comesBack (r : controllerState * reconcileResult) : Prop :=
  match r.2 with
  | Ok res => res_Requeue res = true ∨ 0 < res_RequeueAfter res
  | Err _ => True
  end.

Lemma comesBack_conflict s e : comesBack (s, requeueOnConflict e).
Proof. destruct e; [by left|done..]. Qed.

Lemma backoffWait_pos n : 0 < backoffWait n.
Proof.
  unfold backoffWait. destruct (Z.ltb_spec maximumPlacementBackoff (wrap64 (Z.shiftl DefaultRequeueDuration (Z.min (n - 1) 16)))); cbn [orb]; [done|].
  destruct (Z.leb_spec (wrap64 (Z.shiftl DefaultRequeueDuration (Z.min (n - 1) 16))) 0); [done|lia].
Qed.

Lemma failedToStart_waits b claim generation room now b' wait : failedToStart b claim generation room now = (b', wait) → 0 < wait.
Proof. unfold failedToStart, refuse. intros [= _ <-]. apply backoffWait_pos. Qed.

Lemma towardsDesired_waits s pm candidates key :
  yields (towardsDesired locality worded s pm candidates key) (fun r => ∀ wait, r.2 = Ok wait → 0 < wait).
Proof.
  unfold towardsDesired. destruct (_ <? _).
  - eapply yields_bind; [apply yields_any|]. intros [[place pm'] out] _. apply yields_ret. cbn [snd]. intros wait.
    destruct out as [[d|e]|]; [|done|by intros [= <-]]. intros [= <-].
    destruct (Z.ltb_spec 0 d); cbn [andb]; [|done]. by destruct (bool_decide _).
  - destruct (_ <? _); [|by apply yields_ret; intros wait [= <-]]. eapply yields_bind; [apply yields_any|]. intros [pm' rr] _.
    apply yields_ret. by intros wait [= <-].
Qed.

Lemma handleActivationError_comesBack s pm candidates key err : yields (handleActivationError wordedError s pm candidates key err) comesBack.
Proof.
  unfold handleActivationError. destruct (isConflict err); [apply yields_ret; by left|].
  assert (∀ s d, 0 < d → comesBack (s, Ok (requeueAfter d))) as Hd by (by right).
  destruct err; [|by apply yields_ret|..];
    returns ltac:(first [apply comesBack_conflict | apply Hd; destruct (bool_decide _); [by eapply failedToStart_waits|done]]).
Qed.

Lemma writeStatus_comesBack s pm candidates key wait booting failed :
  0 < wait → yields (writeStatus s pm candidates key wait booting failed) comesBack.
Proof.
  intros Hw. unfold writeStatus. eapply yields_bind; [apply yields_any|]. intros pm1 _.
  eapply yields_bind; [apply yields_any|]. intros [pm2|e] _; [|apply yields_ret, comesBack_conflict].
  eapply yields_bind; [apply yields_any|]. intros s1 _. apply yields_ret. right. cbn. destruct booting; [|done].
  by apply Z.min_glb_lt.
Qed.

Lemma finishPass_comesBack s pm candidates key wait :
  0 < wait → yields (finishPass locality worded s pm candidates key wait) comesBack.
Proof.
  intros Hw. unfold finishPass. eapply yields_bind; [apply yields_any|]. intros [[[s1 pm1] booting] err] _.
  destruct err as [e|]; [apply yields_ret, comesBack_conflict|]. eapply yields_bind; [apply yields_any|]. intros [[place pm2] err] _.
  destruct err as [e|]; [destruct (isConflict e); [by apply yields_ret; left|]|]; by apply writeStatus_comesBack.
Qed.

End Passes.

(** ** The instances that stay. *)

Section Kept.
Context `{HE : EngineApi W}.

Lemma scaleDownBy_keeps rounds pm target rr :
  (length (status_Instances pm) ≤ rounds)%nat → Z.of_nat (length (status_Instances pm)) < 2 ^ 31 →
  yields (scaleDownBy rounds pm target rr) (fun r => status_Instances r.1 = take (Z.to_nat target) (status_Instances pm)).
Proof.
  revert pm rr. induction rounds as [|rounds IH]; intros pm rr Hr Hlt; simpl.
  { apply yields_ret. destruct (status_Instances pm) eqn:E; [by rewrite take_nil|cbn in Hr; lia]. }
  destruct (last (status_Instances pm)) as [inst|] eqn:El.
  2: { apply yields_ret. apply last_None in El. by rewrite El, take_nil. }
  apply last_Some in El as [l El]. unfold instanceCount. rewrite wrap32_id by (unfold in_int32; lia).
  rewrite El, length_app in *. cbn [length] in *. destruct (Z.ltb_spec target (Z.of_nat (length l + 1))).
  - eapply yields_bind; [apply yields_any|]. intros rr' _. rewrite removelast_last.
    eapply yields_mono; [apply IH; cbn; lia|]. cbn. intros r ->. rewrite take_app_le by lia. done.
  - apply yields_ret. cbn. rewrite El, take_ge by (rewrite length_app; cbn; lia). done.
Qed.

(** Scaling down keeps the first instances, as many as are wanted. *)
Theorem scale_down_keeps_the_first pm target rr w :
  Z.of_nat (length (status_Instances pm)) < 2 ^ 31 →
  status_Instances (value (scaleDown pm target rr) w).1 = take (Z.to_nat target) (status_Instances pm).
Proof. intros Hlt. by apply (scaleDownBy_keeps (length (status_Instances pm)) pm target rr). Qed.
End Kept.

(** ** A claim that is deleted, and one that is placed. *)

Section PassWitness.
Local Existing Instance NanoK8s.
Local Existing Instance podCluster.
Local Existing Instance podReads.
Local Existing Instance podApi.
Local Existing Instance podPool.
Local Existing Instance podEngines.

Definition podFinalizer (w : podWorld) (key : NamespacedName) : bool :=
  match fw_claims w.(pw_cards) !! key with Some claim => ContainsFinalizer claim ModelClaimFinalizer | None => false end.
Definition podRuns (w : podWorld) (ip m : string) : bool := bool_decide (is_Some (fw_limits w.(pw_cards) !! (ip, m))).
Definition podFinalizersKept (w w' : podWorld) : Prop := ∀ key, podFinalizer w' key = podFinalizer w key.
Definition podRunsKept (w w' : podWorld) : Prop := ∀ ip m, podRuns w' ip m = podRuns w ip m.

Lemma podFinalizersKept_preorder : PreOrder podFinalizersKept.
Proof. split; [by intros w key|]. intros x y z Hxy Hyz key. by rewrite (Hyz key). Qed.
Lemma podRunsKept_preorder : PreOrder podRunsKept.
Proof. split; [by intros w ip m|]. intros x y z Hxy Hyz ip m. by rewrite (Hyz ip m). Qed.

Lemma podStatus_finalizers claim (w : podWorld) : podFinalizersKept w (StatusUpdate claim w).1.
Proof.
  intros key. unfold podFinalizer. cbn. destruct (decide (ObjectKeyFromObject claim = key)) as [<-|Hne].
  - rewrite lookup_insert_eq. unfold fakeStored, ContainsFinalizer. cbn.
    by destruct (fw_claims (pw_cards w) !! ObjectKeyFromObject claim) as [old|].
  - by rewrite lookup_insert_ne.
Qed.

Lemma podLimit_finalizers ip req (w : podWorld) : podFinalizersKept w (SetKVLimit ip req w).1.
Proof. intros key. unfold podFinalizer. cbn. unfold onCards. cbn. by destruct (fw_limits _ !! _). Qed.

Lemma podFinalizers_reads : ReadsIn podFinalizersKept.
Proof. split; [apply podFinalizersKept_preorder|by intros..]. Qed.
Lemma podFinalizers_status : StatusIn podFinalizersKept.
Proof. split. apply podStatus_finalizers. Qed.
Lemma podFinalizers_limits : LimitsIn podFinalizersKept.
Proof. split; [apply podLimit_finalizers|]. by intros A m Hm. Qed.

Lemma podFinalizers_calls : CallsIn podFinalizersKept.
Proof.
  refine {| callsIn_reads := podFinalizers_reads; callsIn_status := podFinalizers_status; callsIn_limits := podFinalizers_limits |}.
  - intros old new w key. unfold podFinalizer. cbn. by destruct (pw_pods w !! _).
  - by intros.
  - by intros.
  - by intros.
  - intros ip req w key. unfold podFinalizer. cbn. by destruct (pw_answers w).
  - intros ip req w key. unfold podFinalizer. cbn. by destruct (pw_answers w).
  - intros k names w key. unfold podFinalizer. cbn. by destruct (pw_pods w !! _).
  - by intros.
  - by intros.
  - by intros.
Qed.

Lemma podRuns_reads : ReadsIn podRunsKept.
Proof. split; [apply podRunsKept_preorder|by intros..]. Qed.
Lemma podRuns_status : StatusIn podRunsKept.
Proof. split. by intros. Qed.

Definition podLife : LifeLaws.
Proof.
  refine {| finalizerAt := podFinalizer; runsModel := podRuns; calls_finalizers := podFinalizers_calls;
            reads_engines := podRuns_reads; status_engines := podRuns_status |}.
  - intros claim w key. unfold podFinalizer. cbn. destruct (decide (ObjectKeyFromObject claim = key)) as [<-|Hne].
    + right. by rewrite lookup_insert_eq.
    + left. by rewrite lookup_insert_ne.
  - by intros.
  - intros k names w ip m. unfold podRuns. cbn. by destruct (pw_pods w !! _).
  - by intros.
  - by intros.
  - intros ip req w. unfold podRuns. cbn. destruct (pw_answers w); cbn; [|done]. split.
    + intros ip' m. rewrite !bool_decide_eq_true. intros [z Hz]. apply lookup_delete_Some in Hz as [_ Hz]. by exists z.
    + intros _. rewrite lookup_delete_eq. apply bool_decide_eq_false. by intros [? ?].
Defined.
Local Existing Instance podLife.

(** A claim that was deleted fifty seconds ago, and its engine, which serves. *)
Definition exDeleted : ModelClaim :=
  MkModelClaim "ns" "alpha" "uid-alpha" 1 0 (Some (50 * Second)) None (Some []) "hf://m" "vllm" None 0 ""
    ∅ None ModelClaimActive [MkInstance "pod-a" 9000 ModelClaimActive (8 * exGiB) ""] [] 1 1 1 "1" [ModelClaimFinalizer].
Definition exDeletedWorld : podWorld :=
  MkPodWorld (MkFake {[("10.0.0.1", "alpha") := 8 * exGiB]} ∅ {[MkNN "ns" "alpha" := exDeleted]}) {[MkNN "ns" "pod-a" := exPod]} ∅ true ∅.
Definition exController : controllerState := MkController exPlaceState ∅ ∅.
Definition exAlpha : NamespacedName := MkNN "ns" "alpha".
Definition exFinalizing : Run podWorld (controllerState * reconcileResult) :=
  Reconcile None (fun _ => "") (fun _ => "") exController exAlpha.



(** A claim with nothing placed, whose pod has room. *)
Definition exPool : Pod :=
  MkPod "ns" "pod-b" "pod-b-uid" {["claim.model.aibrix.ai/enabled" := "true"]} ∅ "node-1" "10.0.0.2" [] [] None "Running" None.
Definition exPoolWorld : podWorld :=
  MkPodWorld (MkFake ∅ ∅ {[MkNN "ns" "gamma" := exToPlace]}) {[MkNN "ns" "pod-b" := exPool]} ∅ true ∅.
Definition exPlacingPass : Run podWorld (controllerState * reconcileResult) :=
  Reconcile None (fun _ => "") (fun _ => "") exController exGamma.

Lemma engines_start_behind_the_finalizer_witness :
  runsModel exPoolWorld "10.0.0.2" "gamma" = false ∧ runsModel (final exPlacingPass exPoolWorld) "10.0.0.2" "gamma" = true ∧
  ∃ pm, (GetCachedClaim exGamma exPoolWorld).2 = Ok pm ∧ mc_DeletionTimestamp pm = None ∧ ModelClaimFinalizer ∈ mc_Finalizers pm.
Proof.
  pose proof (engines_start_behind_the_finalizer None (fun _ => "") (fun _ => "") exController exGamma exPoolWorld
    (final exPlacingPass exPoolWorld) "10.0.0.2" "gamma") as Hs. fold exPlacingPass in Hs.
  assert (last (visited exPlacingPass exPoolWorld) = Some (final exPlacingPass exPoolWorld)) as Hl by (vm_compute; reflexivity).
  apply last_Some_elem_of in Hl.
  assert (runsModel exPoolWorld "10.0.0.2" "gamma" = false) as Hoff by (vm_compute; reflexivity). split; [exact Hoff|].
  assert (runsModel (final exPlacingPass exPoolWorld) "10.0.0.2" "gamma" = true) as Hon by (vm_compute; reflexivity). split; [exact Hon|].
  exact (Hs Hl Hoff Hon).
Defined.

End PassWitness.
