(* ===== verification/Storm.v ===== *)
(** * StormServices and their RoleSets ([api/orchestration/v1alpha1],
    [pkg/controller/stormservice]).

    A StormService asks for a number of RoleSets of one template.  Here are the
    objects, and the parts of the controller that compute without a call: the
    update strategy and its budgets, the split of replicas over two revisions,
    the order in which RoleSets are given up, the revisions of the roles, the
    rendering of a RoleSet, and the conditions and figures of the status
    (utils.go, progress.go, gang_status.go, and part of sync.go and
    rolesetoperations.go).

    Kubernetes' [IntOrString] and its utilities are the class [K8sApps], with
    what they document in [K8sAppsLaws]. *)

From Stdlib Require Import Ascii.
From S2P Require Import Prelude Api.

(** ** Kubernetes' own types and helpers. *)

Class K8sApps := {
  IntOrString : Type;
  intstr_FromInt : Z → IntOrString;
  (** [intstr.GetScaledValueFromIntOrPercent]; [None] is an error. *)
  GetScaledValueFromIntOrPercent : IntOrString → Z → bool → option Z;
  (** [integer.RoundToInt32] of the float64 quotient of two int32. *)
  RoundToInt32 : Z → Z → Z;
  integer_IntMin : Z → Z → Z;
  PodTemplate : Type;
  (** What [dump.ForHash] prints of a template. *)
  dumpForHash : PodTemplate → list Z;
  (** [rand.SafeEncodeString] and [sets.String.List] of k8s.io/apimachinery. *)
  SafeEncodeString : string → string;
  StringSetList : gset string → list string;
  (** What a gang scheduler is told of a group, apart from its members. *)
  SchedulerSpec : Type;
  PodTemplate_eq_dec :: EqDecision PodTemplate;
  IntOrString_eq_dec :: EqDecision IntOrString;
  SchedulerSpec_eq_dec :: EqDecision SchedulerSpec;
}.

(** A number is taken as it is, whatever the total; a quotient is rounded to an
    integer nearest to it. *)
Class K8sAppsLaws `{K8sApps} := {
  GetScaled_int n total roundUp :
    GetScaledValueFromIntOrPercent (intstr_FromInt n) total roundUp = Some n;
  RoundToInt32_nearest a b : 0 ≤ a < 2 ^ 31 → 0 < b < 2 ^ 31 →
    2 * Z.abs (b * RoundToInt32 a b - a) ≤ b;
  IntMin_spec a b : integer_IntMin a b = Z.min a b;
  StringSetList_spec s : StringSetList s ≡ₚ elements s;
  (** A string is encoded character by character. *)
  SafeEncodeString_app a b :
    SafeEncodeString (String.append a b) = String.append (SafeEncodeString a) (SafeEncodeString b);
  SafeEncodeString_length a : String.length (SafeEncodeString a) = String.length a;
}.

(** ** The objects. *)

(** The message of a condition, by the format it is printed with. *)
Inductive conditionMessage : Type :=
| NoMessage
| PausedMessage (name : string)
| ResumedMessage (name : string)
| ProgressingMessage (name : string)
| TimedOutMessage (name : string)
| ErrorMessage (text : string)
| GangErrorMessage (roleSets : list string)
| GangUnknownMessage (roleSets : list string)
| SyncedMessage (roleSets : list string)
| IncompleteMessage (roleSets : list string)
| OtherMessage (text : string).
#[export] Instance conditionMessage_eq_dec : EqDecision conditionMessage.
Proof. solve_decision. Defined.

Record StormCondition : Type := MkStormCondition {
  sc_Type : string;
  sc_Status : ConditionStatus;
  sc_LastTransitionTime : option Time;
  sc_LastUpdateTime : option Time;
  sc_Reason : string;
  sc_Message : conditionMessage;
}.
#[export] Instance StormCondition_eq_dec : EqDecision StormCondition.
Proof. solve_decision. Defined.

Record RoleStatus : Type := MkRoleStatus {
  rst_Name : string;
  rst_Replicas : Z;
  rst_ReadyReplicas : Z;
  rst_NotReadyReplicas : Z;
  rst_UpdatedReplicas : Z;
  rst_UpdatedReadyReplicas : Z;
}.
#[export] Instance RoleStatus_eq_dec : EqDecision RoleStatus.
Proof. solve_decision. Defined.

Record StormServiceStatus : Type := MkStormStatus {
  st_ObservedGeneration : Z;
  st_Replicas : Z;
  st_ReadyReplicas : Z;
  st_NotReadyReplicas : Z;
  st_CurrentReplicas : Z;
  st_UpdatedReplicas : Z;
  st_CurrentRevision : string;
  st_UpdateRevision : string;
  st_UpdatedReadyReplicas : Z;
  st_Conditions : list StormCondition;
  st_CollisionCount : option Z;
  st_ScalingTargetSelector : string;
  st_RoleStatuses : list RoleStatus;
}.
#[export] Instance StormServiceStatus_eq_dec : EqDecision StormServiceStatus.
Proof. solve_decision. Defined.

Definition zeroStormStatus : StormServiceStatus := MkStormStatus 0 0 0 0 0 0 "" "" 0 [] None "" [].

(** [apps.ControllerRevision]: [cr_Data] is the raw patch it holds. *)
Record ControllerRevision : Type := MkControllerRevision {
  cr_Name : string;
  cr_Namespace : string;
  cr_Labels : gmap string string;
  cr_Owners : list string;
  cr_CreationTimestamp : Time;
  cr_Revision : Z;
  cr_Data : list Z;
}.
#[export] Instance ControllerRevision_eq_dec : EqDecision ControllerRevision.
Proof. solve_decision. Defined.

Section Objects.
Context `{K8s} `{K8sApps}.

Record VolcanoSchedulingStrategySpec : Type := MkVolcano {
  volcano_MinMember : Z;
  volcano_MinTaskMember : gmap string Z;
  volcano_Rest : SchedulerSpec;
}.

Record SchedulingStrategy : Type := MkScheduling {
  sched_Godel : option SchedulerSpec;
  sched_Coscheduling : option SchedulerSpec;
  sched_Volcano : option VolcanoSchedulingStrategySpec;
}.

Record TopologyPolicy : Type := MkTopologyPolicy {
  tp_Scope : string;
  tp_Mode : string;
  tp_Key : string;
}.

Record RoleDrainSpec : Type := MkRoleDrain {
  drain_TimeoutSeconds : option Z;
}.

(** A role.  Its disruption tolerance is read by no controller. *)
Record RoleSpec : Type := MkRoleSpec {
  role_Name : string;
  role_Replicas : option Z;
  role_Drain : option RoleDrainSpec;
  role_UpgradeOrder : option Z;
  role_PodGroupSize : option Z;
  role_UpdateType : string;
  role_MaxUnavailable : option IntOrString;
  role_MaxSurge : option IntOrString;
  (** Whether [replacementScheduling.historicalNode] is there. *)
  role_HistoricalNode : bool;
  role_Stateful : bool;
  role_Template : PodTemplate;
  role_SchedulingStrategy : option SchedulingStrategy;
}.

Record RoleSetSpec : Type := MkRoleSetSpec {
  rss_Roles : list RoleSpec;
  rss_UpdateStrategy : string;
  rss_SchedulingStrategy : option SchedulingStrategy;
  rss_TopologyPolicy : option TopologyPolicy;
}.

(** Whether the scheduling strategy names Volcano. *)
Definition rss_Volcano (spec : RoleSetSpec) : bool :=
  match spec.(rss_SchedulingStrategy) with
  | Some strategy => bool_decide (is_Some strategy.(sched_Volcano))
  | None => false
  end.

Record RoleSetTemplateSpec : Type := MkRoleSetTemplate {
  rt_Labels : gmap string string;
  rt_Annotations : gmap string string;
  rt_Spec : option RoleSetSpec;
}.

Record RoleSet : Type := MkRoleSet {
  rs_Namespace : string;
  rs_Name : string;
  rs_GenerateName : string;
  rs_UID : string;
  rs_Labels : gmap string string;
  rs_Annotations : gmap string string;
  rs_DeletionTimestamp : option Time;
  rs_Finalizers : list string;
  (** The UID of the controller reference. *)
  rs_Controller : option string;
  rs_Spec : RoleSetSpec;
  rs_Roles : list RoleStatus;
  rs_Conditions : list StormCondition;
}.

Record StormService : Type := MkStormService {
  ss_Namespace : string;
  ss_Name : string;
  ss_UID : string;
  ss_Generation : Z;
  ss_ResourceVersion : string;
  ss_Labels : gmap string string;
  ss_DeletionTimestamp : option Time;
  ss_Finalizers : list string;
  ss_Replicas : option Z;
  ss_Mode : string;
  ss_Selector : option LabelSelector;
  ss_Template : RoleSetTemplateSpec;
  ss_StrategyType : string;
  ss_MaxUnavailable : option IntOrString;
  ss_MaxSurge : option IntOrString;
  ss_RevisionHistoryLimit : option Z;
  ss_Paused : bool;
  ss_ProgressDeadlineSeconds : option Z;
  ss_Status : StormServiceStatus;
}.

Definition setStormStatus (s : StormService) (status : StormServiceStatus) : StormService :=
  MkStormService s.(ss_Namespace) s.(ss_Name) s.(ss_UID) s.(ss_Generation) s.(ss_ResourceVersion)
    s.(ss_Labels) s.(ss_DeletionTimestamp) s.(ss_Finalizers) s.(ss_Replicas) s.(ss_Mode) s.(ss_Selector) s.(ss_Template) s.(ss_StrategyType)
    s.(ss_MaxUnavailable) s.(ss_MaxSurge) s.(ss_RevisionHistoryLimit) s.(ss_Paused)
    s.(ss_ProgressDeadlineSeconds) status.
End Objects.

Definition StormServiceNameLabelKey : string := "storm-service-name".
Definition StormServiceRevisionLabelKey : string := "storm-service-revision".
Definition RoleSetIndexAnnotationKey : string := "stormservice.orchestration.aibrix.ai/roleset-index".
Definition RoleSetRevisionAnnotationKey : string := "stormservice.orchestration.aibrix.ai/revision".
Definition RoleSetHistoricalNodeBindingsAnnotationKey : string :=
  "orchestration.aibrix.ai/historical-node-bindings".
Definition RoleRevisionAnnotationPrefix : string := "stormservice.orchestration.aibrix.ai/role-revision".
Definition RoleRevisionNameAnnotationPrefix : string :=
  "stormservice.orchestration.aibrix.ai/role-revision-name".

Definition StormServiceReplicaMode : string := "Replica".
Definition StormServicePooledMode : string := "Pooled".
Definition RollingUpdateStrategy : string := "RollingUpdate".
Definition InPlaceUpdateStrategy : string := "InPlaceUpdate".

Definition StormServiceReady : string := "Ready".
Definition StormServiceProgressing : string := "Progressing".
Definition StormServiceReplicaFailure : string := "ReplicaFailure".
Definition StormServicePodGroupSynced : string := "PodGroupSynced".
Definition StormServiceGangSchedulingError : string := "GangSchedulingError".
Definition RoleSetReady : string := "Ready".
Definition RoleSetPodGroupSynced : string := "PodGroupSynced".
Definition RoleSetGangSchedulingError : string := "GangSchedulingError".

(** ** Names and hashes. *)

(** [string(b)] of a byte: the UTF-8 encoding of the code point [b]. *)
Definition stringOfByte (c : ascii) : string :=
  let n := nat_of_ascii c in
  if (n <? 128)%nat then String c EmptyString
  else bytes [192 + n / 64; 128 + n mod 64]%nat.

Definition Shorten (name : string) (keepPrefix isGenerateName : bool) : string :=
  let maxLength := if isGenerateName then 58%nat else 63%nat in
  let len := String.length name in
  if (len <? maxLength)%nat then name
  else if keepPrefix then String.substring 0 maxLength name
  else match name with
       | EmptyString => name
       | String c _ => String.append (stringOfByte c)
                         (String.substring (len - maxLength + 1) (maxLength - 1) name)
       end.

(** [fnv.New32a] over the bytes written. *)
Definition fnv32a (data : list Z) : Z :=
  foldl (fun h b => (Z.lxor h b * 16777619) mod 2 ^ 32) 2166136261 data.

Section Hash.
Context `{K8sApps}.

Definition ShortSafeEncodeString (hashValue : Z) : string :=
  let hash := SafeEncodeString (pretty hashValue) in
  let len := String.length hash in
  if (6 <=? len)%nat then String.substring 0 6 hash
  else String.append (String.substring 0 (6 - len) "000000") hash.

(** [ctrlutil.ComputeHash] of a pod template without a collision count. *)
Definition ComputeHash (template : PodTemplate) : string :=
  ShortSafeEncodeString (fnv32a (dumpForHash template)).
End Hash.

(** ** Conditions. *)

Definition NewCondition (condType : string) (status : ConditionStatus) (reason : string)
    (message : conditionMessage) (now : Time) : StormCondition :=
  MkStormCondition condType status (Some now) (Some now) reason message.

Definition GetCondition (conditions : list StormCondition) (condType : string) : option StormCondition :=
  List.find (fun c => bool_decide (c.(sc_Type) = condType)) conditions.

Definition FilterOutCondition (conditions : list StormCondition) (condType : string)
  : list StormCondition :=
  List.filter (fun c => negb (bool_decide (c.(sc_Type) = condType))) conditions.

Definition setConditions (status : StormServiceStatus) (conditions : list StormCondition)
  : StormServiceStatus :=
  MkStormStatus status.(st_ObservedGeneration) status.(st_Replicas) status.(st_ReadyReplicas)
    status.(st_NotReadyReplicas) status.(st_CurrentReplicas) status.(st_UpdatedReplicas)
    status.(st_CurrentRevision) status.(st_UpdateRevision) status.(st_UpdatedReadyReplicas)
    conditions status.(st_CollisionCount) status.(st_ScalingTargetSelector) status.(st_RoleStatuses).

Definition withTransition (condition : StormCondition) (at_ : option Time) : StormCondition :=
  MkStormCondition condition.(sc_Type) condition.(sc_Status) at_ condition.(sc_LastUpdateTime)
    condition.(sc_Reason) condition.(sc_Message).

Definition SetStormServiceCondition (status : StormServiceStatus) (condition : StormCondition)
  : StormServiceStatus :=
  let add condition :=
    setConditions status (FilterOutCondition status.(st_Conditions) condition.(sc_Type) ++ [condition]) in
  match GetCondition status.(st_Conditions) condition.(sc_Type) with
  | Some current =>
      if bool_decide (current.(sc_Status) = condition.(sc_Status)) &&
         bool_decide (current.(sc_Reason) = condition.(sc_Reason)) then status
      else if bool_decide (current.(sc_Status) = condition.(sc_Status))
           then add (withTransition condition current.(sc_LastTransitionTime))
           else add condition
  | None => add condition
  end.

Definition RemoveStormServiceCondition (status : StormServiceStatus) (condType : string)
  : StormServiceStatus :=
  setConditions status (FilterOutCondition status.(st_Conditions) condType).

(** ** The update strategy and its budgets. *)

Section Strategy.
Context `{K8s} `{K8sApps}.

Definition ResolvedReplicas (s : StormService) : Z := default 1 s.(ss_Replicas).

Inductive strategyError : Type :=
| UnexpectedMode (mode : string)
| UnexpectedStrategyType (declared : string).

(** A declared mode is its own resolution. *)
Definition EffectiveUpdateStrategyType (s : StormService) : result strategyError string :=
  let declaredType := s.(ss_StrategyType) in
  if negb (bool_decide (s.(ss_Mode) = "")) then
    if bool_decide (s.(ss_Mode) = StormServiceReplicaMode) then Ok RollingUpdateStrategy
    else if bool_decide (s.(ss_Mode) = StormServicePooledMode) then Ok InPlaceUpdateStrategy
    else Err (UnexpectedMode s.(ss_Mode))
  else if bool_decide (declaredType = "") then Ok RollingUpdateStrategy
  else if bool_decide (declaredType = RollingUpdateStrategy) ||
          bool_decide (declaredType = InPlaceUpdateStrategy) then Ok declaredType
  else Err (UnexpectedStrategyType declaredType).

Definition IsRollingUpdate (s : StormService) : bool :=
  match EffectiveUpdateStrategyType s with
  | Ok effectiveType => bool_decide (effectiveType = RollingUpdateStrategy)
  | Err _ => false
  end.

(** [None] is an error; the callers then use zero for both figures. *)
Definition ResolveFenceposts (maxSurge maxUnavailable : option IntOrString) (desired : Z)
  : option (Z * Z) :=
  surge ← GetScaledValueFromIntOrPercent (default (intstr_FromInt 0) maxSurge) desired true;
  unavailable ← GetScaledValueFromIntOrPercent (default (intstr_FromInt 0) maxUnavailable) desired false;
  let unavailable := if (surge =? 0) && (unavailable =? 0) then 1 else unavailable in
  Some (wrap32 surge, wrap32 unavailable).

Definition fenceposts (s : StormService) : Z * Z :=
  default (0, 0) (ResolveFenceposts s.(ss_MaxSurge) s.(ss_MaxUnavailable) (ResolvedReplicas s)).

Definition MaxUnavailable (s : StormService) : Z :=
  let replicas := ResolvedReplicas s in
  if negb (IsRollingUpdate s) || (replicas =? 0) then 0
  else if replicas <? (fenceposts s).2 then replicas else (fenceposts s).2.

Definition MinAvailable (s : StormService) : Z :=
  if negb (IsRollingUpdate s) then 0 else wrap32 (ResolvedReplicas s - MaxUnavailable s).

Definition MaxSurge (s : StormService) : Z :=
  if negb (IsRollingUpdate s) then 0 else (fenceposts s).1.

(** How many RoleSets of each revision a paused service wants: the desired
    number, split as they stand. *)
Definition calculateReplicas (desiredReplica current updated : Z) : Z * Z :=
  let currentTotal := wrap32 (current + updated) in
  if desiredReplica =? currentTotal then (current, updated)
  else
    let '(desiredCurrent, desiredUpdated) :=
      if negb (currentTotal =? 0)
      then (RoundToInt32 (wrap32 (current * desiredReplica)) currentTotal,
            RoundToInt32 (wrap32 (updated * desiredReplica)) currentTotal)
      else (0, 0) in
    if negb (wrap32 (desiredCurrent + desiredUpdated) =? desiredReplica)
    then (desiredCurrent, wrap32 (desiredReplica - desiredCurrent))
    else (desiredCurrent, desiredUpdated).
End Strategy.

(** ** RoleSets. *)

Section RoleSets.
Context `{K8s} `{K8sApps}.

Definition IsRoleSetReady (rs : RoleSet) : bool :=
  existsb (fun c => bool_decide (c.(sc_Type) = RoleSetReady) &&
                    bool_decide (c.(sc_Status) = ConditionTrue)) rs.(rs_Conditions).

(** A missing label reads as the empty string. *)
Definition getRoleSetRevision (rs : RoleSet) : string :=
  default "" (rs.(rs_Labels) !! StormServiceRevisionLabelKey).

Definition isRoleSetMatchRevision (rs : RoleSet) (revision : string) : bool :=
  bool_decide (getRoleSetRevision rs = revision).

Definition isTerminating (rs : RoleSet) : bool := bool_decide (is_Some rs.(rs_DeletionTimestamp)).

(** A filter of the controller returns what passes and what does not. *)
Definition split {A} (p : A → bool) (l : list A) : list A * list A :=
  (List.filter p l, List.filter (fun x => negb (p x)) l).

Definition filterRoleSetByRevision (roleSets : list RoleSet) (revision : string)
  : list RoleSet * list RoleSet :=
  split (fun rs => isRoleSetMatchRevision rs revision) roleSets.

Definition filterReadyRoleSets (roleSets : list RoleSet) : list RoleSet * list RoleSet :=
  split IsRoleSetReady roleSets.

(** Active, and terminating. *)
Definition filterTerminatingRoleSets (roleSets : list RoleSet) : list RoleSet * list RoleSet :=
  split (fun rs => negb (isTerminating rs)) roleSets.

(** The order in which RoleSets are given up: rules that say before, same or
    after, the first that tells two apart deciding.  A listing holds no nil
    RoleSet, so the rule about nil never does. *)
Definition roleSetOrderRule : Type := RoleSet → RoleSet → comparison.

Fixpoint rulesBefore (rules : list roleSetOrderRule) (a b : RoleSet) : bool :=
  match rules with
  | [] => false
  | rule :: rest =>
      match rule a b with Lt => true | Gt => false | Eq => rulesBefore rest a b end
  end.

Definition sortRoleSetsByRules (rules : list roleSetOrderRule) (roleSets : list RoleSet) : list RoleSet :=
  sortBy (rulesBefore rules) roleSets.

Definition orderOldRevisionBeforeUpdated (updatedRevision : string) : roleSetOrderRule := fun a b =>
  let aUpdated := isRoleSetMatchRevision a updatedRevision in
  let bUpdated := isRoleSetMatchRevision b updatedRevision in
  if Bool.eqb aUpdated bUpdated then Eq else if negb aUpdated && bUpdated then Lt else Gt.

Definition orderNotReadyBeforeReady : roleSetOrderRule := fun a b =>
  let aReady := IsRoleSetReady a in
  let bReady := IsRoleSetReady b in
  if Bool.eqb aReady bReady then Eq else if negb aReady && bReady then Lt else Gt.

Definition sortRoleSetByRevision (roleSets : list RoleSet) (updatedRevision : string) : list RoleSet :=
  sortRoleSetsByRules [orderOldRevisionBeforeUpdated updatedRevision; orderNotReadyBeforeReady] roleSets.

Definition getRoleByName (rs : RoleSet) (name : string) : option RoleSpec :=
  List.find (fun role => bool_decide (role.(role_Name) = name)) rs.(rs_Spec).(rss_Roles).

Definition allRolesHave (figure : RoleStatus → Z) (rs : RoleSet) : bool :=
  forallb (fun status =>
    match getRoleByName rs status.(rst_Name) with
    | None => true
    | Some role => default 0 role.(role_Replicas) =? figure status
    end) rs.(rs_Roles).

Definition isAllRoleUpdated (rs : RoleSet) : bool := allRolesHave rst_UpdatedReplicas rs.
Definition isAllRoleUpdatedAndReady (rs : RoleSet) : bool := allRolesHave rst_UpdatedReadyReplicas rs.

(** ** Which revision each role of a RoleSet is at. *)

(** The roles of a template by name; the last of a name counts. *)
Definition rolesByName (s : StormService) : gmap string RoleSpec :=
  match s.(ss_Template).(rt_Spec) with
  | None => ∅
  | Some spec => foldl (fun roles role => <[role.(role_Name) := role]> roles) ∅ spec.(rss_Roles)
  end.

Definition computeRoleRevisions (current update : StormService) (currentCR updateCR : ControllerRevision)
  : gmap string ControllerRevision :=
  map_imap (fun name updateRole =>
    match rolesByName current !! name with
    | None => Some updateCR
    | Some currentRole =>
        if negb (bool_decide (ComputeHash currentRole.(role_Template) = ComputeHash updateRole.(role_Template)))
        then Some updateCR else Some currentCR
    end) (rolesByName update).

(** ** Rendering a RoleSet. *)

Inductive renderError : Type :=
| SelectorInvalid
| SelectorMismatch
(** The template has no spec, which the code dereferences. *)
| NilTemplate.

Definition roleRevKey (roleName : string) : string :=
  String.append RoleRevisionAnnotationPrefix (String.append "." roleName).
Definition roleRevNameKey (roleName : string) : string :=
  String.append RoleRevisionNameAnnotationPrefix (String.append "." roleName).

Definition annotateRevisions (roleRevisions : gmap string ControllerRevision)
    (annotations : gmap string string) : gmap string string :=
  map_fold (fun roleName cr annotations =>
    <[roleRevNameKey roleName := cr.(cr_Name)]>
      (<[roleRevKey roleName := pretty cr.(cr_Revision)]> annotations)) annotations roleRevisions.

(** Whether a selector matches, a nil one matching nothing; [None] is an invalid
    one. *)
Definition matchesSelector (selector : option LabelSelector) (labels : gmap string string) : option bool :=
  match selector with
  | None => Some false
  | Some selector => selectorMatches selector labels
  end.

Definition renderRoleSet (s : StormService) (index : option Z) (revisionName : string)
    (roleRevisions : gmap string ControllerRevision) : result renderError RoleSet :=
  match s.(ss_Template).(rt_Spec) with
  | None => Err NilTemplate
  | Some spec =>
      match matchesSelector s.(ss_Selector) s.(ss_Template).(rt_Labels) with
      | None => Err SelectorInvalid
      | Some false => Err SelectorMismatch
      | Some true =>
          let labels := <[StormServiceRevisionLabelKey := revisionName]>
            (<[StormServiceNameLabelKey := s.(ss_Name)]> s.(ss_Template).(rt_Labels)) in
          let annotations := annotateRevisions roleRevisions
            (<[RoleSetRevisionAnnotationKey := revisionName]> s.(ss_Template).(rt_Annotations)) in
          let annotations := match index with
                             | Some i => <[RoleSetIndexAnnotationKey := pretty i]> annotations
                             | None => annotations
                             end in
          Ok (MkRoleSet s.(ss_Namespace) ""
                (Shorten (String.append s.(ss_Name) "-roleset-") true true) ""
                labels annotations None [] (Some s.(ss_UID)) spec [] [])
      end
  end.

(** What [updateRoleSet] makes of a RoleSet: the target, with the index and the
    historical nodes the RoleSet had. *)
Definition updatedRoleSet (target rs : RoleSet) : RoleSet :=
  let keep key annotations :=
    let value := default "" (rs.(rs_Annotations) !! key) in
    if bool_decide (value = "") then annotations else <[key := value]> annotations in
  MkRoleSet rs.(rs_Namespace) rs.(rs_Name) rs.(rs_GenerateName) rs.(rs_UID) target.(rs_Labels)
    (keep RoleSetHistoricalNodeBindingsAnnotationKey
       (keep RoleSetIndexAnnotationKey target.(rs_Annotations)))
    rs.(rs_DeletionTimestamp) rs.(rs_Finalizers) rs.(rs_Controller) target.(rs_Spec) rs.(rs_Roles) rs.(rs_Conditions).

(** ** Figures of the status. *)

Definition zeroRoleStatus : RoleStatus := MkRoleStatus "" 0 0 0 0 0.

Definition addRoleStatus (isUpdateRevision : bool) (agg status : RoleStatus) : RoleStatus :=
  MkRoleStatus status.(rst_Name)
    (wrap32 (agg.(rst_Replicas) + status.(rst_Replicas)))
    (wrap32 (agg.(rst_ReadyReplicas) + status.(rst_ReadyReplicas)))
    (wrap32 (agg.(rst_NotReadyReplicas) + status.(rst_NotReadyReplicas)))
    (if isUpdateRevision then wrap32 (agg.(rst_UpdatedReplicas) + status.(rst_Replicas))
     else agg.(rst_UpdatedReplicas))
    (if isUpdateRevision then wrap32 (agg.(rst_UpdatedReadyReplicas) + status.(rst_ReadyReplicas))
     else agg.(rst_UpdatedReadyReplicas)).

Definition aggregateRoleStatuses (roleSets : list RoleSet) (updateRevision : string) : list RoleStatus :=
  let roleMap := foldl (fun roleMap rs =>
    foldl (fun roleMap status =>
      <[status.(rst_Name) := addRoleStatus (isRoleSetMatchRevision rs updateRevision)
          (default zeroRoleStatus (roleMap !! status.(rst_Name))) status]> roleMap)
      roleMap rs.(rs_Roles)) (∅ : gmap string RoleStatus) roleSets in
  sortBy (fun a b => strless a.(rst_Name) b.(rst_Name)) (map_to_list roleMap).*2.

Definition volcanoRoleSetNames (roleSets : list RoleSet) : list string :=
  StringSetList (list_to_set (rs_Name <$> List.filter (fun rs => rss_Volcano rs.(rs_Spec)) roleSets)).

Definition conditionRoleSetNames (roleSets : list RoleSet) (condType : string)
    (condStatus : ConditionStatus) : list string :=
  StringSetList (list_to_set (rs_Name <$> List.filter (fun rs =>
    match GetCondition rs.(rs_Conditions) condType with
    | Some cond => bool_decide (cond.(sc_Status) = condStatus)
    | None => false
    end) roleSets)).

Definition roleSetNamesWithout (names excluded : list string) : list string :=
  StringSetList (list_to_set names ∖ list_to_set excluded).

(** The two conditions are stamped one after the other. *)
Definition setGangSchedulingConditions (status : StormServiceStatus) (roleSets : list RoleSet)
    (now later : Time) : StormServiceStatus :=
  let volcanoRoleSets := volcanoRoleSetNames roleSets in
  if bool_decide (length volcanoRoleSets = 0%nat)
  then RemoveStormServiceCondition (RemoveStormServiceCondition status StormServicePodGroupSynced)
         StormServiceGangSchedulingError
  else
    let errorRoleSets := conditionRoleSetNames roleSets RoleSetGangSchedulingError ConditionTrue in
    let unknownRoleSets := conditionRoleSetNames roleSets RoleSetGangSchedulingError ConditionUnknown in
    let gang conditionStatus reason message := SetStormServiceCondition status
      (NewCondition StormServiceGangSchedulingError conditionStatus reason message now) in
    let status :=
      if (0 <? length errorRoleSets)%nat
      then gang ConditionTrue "GangSchedulingError" (GangErrorMessage errorRoleSets)
      else if (0 <? length unknownRoleSets)%nat
      then gang ConditionUnknown "GangSchedulingUnknown" (GangUnknownMessage unknownRoleSets)
      else gang ConditionFalse "GangSchedulingHealthy" NoMessage in
    let syncedRoleSets := conditionRoleSetNames roleSets RoleSetPodGroupSynced ConditionTrue in
    if bool_decide (length syncedRoleSets = length volcanoRoleSets)
    then SetStormServiceCondition status
           (NewCondition StormServicePodGroupSynced ConditionTrue "PodGroupSynced"
              (SyncedMessage syncedRoleSets) later)
    else SetStormServiceCondition status
           (NewCondition StormServicePodGroupSynced ConditionFalse "PodGroupSyncIncomplete"
              (IncompleteMessage (roleSetNamesWithout volcanoRoleSets syncedRoleSets)) later).
End RoleSets.

(** ** Progress. *)

Definition defaultProgressDeadlineSeconds : Z := 600.
Definition StormRequeueAfter : Duration := 15 * Second.
Definition ProgressingReason : string := "Processing".
Definition ProgressDeadlineExceededReason : string := "ProgressDeadlineExceeded".
Definition PausedReason : string := "DeploymentPaused".
Definition ResumedReason : string := "DeploymentResumed".

Definition newProgressingCondition (status : ConditionStatus) (reason : string)
    (message : conditionMessage) (now : Time) : StormCondition :=
  MkStormCondition StormServiceProgressing status (Some now) (Some now) reason message.

Definition stormServiceProgressing (oldStatus newStatus : StormServiceStatus) : bool :=
  let oldReplicas := wrap32 (oldStatus.(st_Replicas) - oldStatus.(st_UpdatedReplicas)) in
  let newReplicas := wrap32 (newStatus.(st_Replicas) - newStatus.(st_UpdatedReplicas)) in
  (oldStatus.(st_UpdatedReplicas) <? newStatus.(st_UpdatedReplicas)) ||
  (newReplicas <? oldReplicas) ||
  (oldStatus.(st_ReadyReplicas) <? newStatus.(st_ReadyReplicas)) ||
  (oldStatus.(st_UpdatedReadyReplicas) <? newStatus.(st_UpdatedReadyReplicas)).

Section Progress.
Context `{K8s} `{K8sApps}.

Definition progressDeadline (s : StormService) : Duration :=
  default defaultProgressDeadlineSeconds s.(ss_ProgressDeadlineSeconds) * Second.

Definition hasReason (condition : option StormCondition) (reason : string) : bool :=
  match condition with Some c => bool_decide (c.(sc_Reason) = reason) | None => false end.

(** The Progressing condition that follows [current], the one of [oldStatus]. *)
Definition nextProgressing (s : StormService) (oldStatus : StormServiceStatus) (now : Time)
  : StormCondition :=
  let current := GetCondition oldStatus.(st_Conditions) StormServiceProgressing in
  let progressing := newProgressingCondition ConditionTrue ProgressingReason
                       (ProgressingMessage s.(ss_Name)) now in
  if s.(ss_Paused) then
    match current with
    | Some c => if hasReason current ProgressDeadlineExceededReason || hasReason current PausedReason then c
                else newProgressingCondition ConditionUnknown PausedReason (PausedMessage s.(ss_Name)) now
    | None => newProgressingCondition ConditionUnknown PausedReason (PausedMessage s.(ss_Name)) now
    end
  else match current with
  | None => progressing
  | Some c =>
      if hasReason current PausedReason then
        withTransition (newProgressingCondition ConditionUnknown ResumedReason
                          (ResumedMessage s.(ss_Name)) now) c.(sc_LastTransitionTime)
      else if stormServiceProgressing oldStatus s.(ss_Status) then
        if bool_decide (c.(sc_Status) = ConditionTrue)
        then withTransition progressing c.(sc_LastTransitionTime) else progressing
      else match c.(sc_LastUpdateTime) with
           | None => progressing
           | Some updated =>
               if hasReason current ProgressDeadlineExceededReason then c
               else if negb (now <? timeAdd updated (progressDeadline s))
               then newProgressingCondition ConditionFalse ProgressDeadlineExceededReason
                      (TimedOutMessage s.(ss_Name)) now
               else c
           end
  end.

Definition syncStormServiceProgressingCondition (s : StormService) (oldStatus : StormServiceStatus)
    (now : Time) : StormService :=
  setStormStatus s (setConditions s.(ss_Status)
    (FilterOutCondition s.(ss_Status).(st_Conditions) StormServiceProgressing ++
     [nextProgressing s oldStatus now])).

Definition progressDeadlineRequeueAfter (s : StormService) (now : Time) : Duration :=
  if s.(ss_Paused) then StormRequeueAfter
  else match GetCondition s.(ss_Status).(st_Conditions) StormServiceProgressing with
  | None => StormRequeueAfter
  | Some condition =>
      match condition.(sc_LastUpdateTime) with
      | None => StormRequeueAfter
      | Some updated =>
          if bool_decide (condition.(sc_Reason) = ProgressDeadlineExceededReason) then StormRequeueAfter
          else
            let requeueAfter := wrap64 (timeSub (timeAdd updated (progressDeadline s)) now + Second) in
            if requeueAfter <? Second then Second
            else if requeueAfter <? StormRequeueAfter then requeueAfter else StormRequeueAfter
      end
  end.

Definition setStormServiceAvailabilityCondition (status : StormServiceStatus) (ready : bool) (now : Time)
  : StormServiceStatus :=
  if ready then
    SetStormServiceCondition (RemoveStormServiceCondition status StormServiceProgressing)
      (NewCondition StormServiceReady ConditionTrue "Ready" NoMessage now)
  else
    SetStormServiceCondition (RemoveStormServiceCondition status StormServiceReady)
      (NewCondition StormServiceProgressing ConditionTrue "Processing" NoMessage now).
End Progress.
