(* ===== verification/StormSync.v ===== *)
(** * One pass over a StormService ([pkg/controller/stormservice/sync.go],
    [rolesetoperations.go], and [SlowStartBatch] and [UpdateStatus] of
    [pkg/controller/util/orchestration/util.go]).

    [scaling] brings the number of RoleSets to the number asked for, [rollout]
    replaces the ones of an old revision or updates them in place, and
    [updateStatus] reports.  The API server is the class [StormApi]; each
    handler is a computation [Run] over it, as the ModelClaim controller's
    are. *)

From S2P Require Import Prelude Api Claims Ledger KVPlan Placement Reservations Runtime Storm.

(** ** The API server. *)

(** [NamespaceTerminating] is a refusal with that status cause. *)
Inductive kubeError : Type := NotFound | AlreadyExists | KubeConflict | NamespaceTerminating | KubeFailed.

(** A headless service, as far as it is compared. *)
Record Service : Type := MkService {
  svc_Namespace : string;
  svc_Name : string;
  svc_Labels : gmap string string;
  svc_Owner : option string;
  svc_Type : string;
  svc_ClusterIP : string;
  svc_Selector : gmap string string;
  svc_PublishNotReadyAddresses : bool;
}.

Inductive stormError : Type :=
| ApiError (e : kubeError)
| BadTemplate
| RenderFailed (e : renderError)
| StrategyFailed (e : strategyError)
| CodecFailed
(** A slice bound out of range, which panics. *)
| SlicePanic.

(** *** Encodings. *)

#[local] Unset Elimination Schemes.

(** A decoded JSON value.  An object is a map: its keys are distinct. *)
Inductive json : Type :=
| JNull
| JBool (b : bool)
| JNumber (text : string)
| JString (s : string)
| JArray (items : list json)
| JObject (fields : list (string * json)).

#[local] Set Elimination Schemes.

Definition jsonField (fields : list (string * json)) (key : string) : option json :=
  snd <$> List.find (fun kv => bool_decide (kv.1 = key)) fields.

Definition setJsonField (key : string) (v : json) (fields : list (string * json)) : list (string * json) :=
  List.filter (fun kv => negb (bool_decide (kv.1 = key))) fields ++ [(key, v)].

(** Kubernetes' converters and Go's encoding/json; [None] is an error. *)
Class StormCodec `{K8s} `{K8sApps} := {
  ToUnstructured : StormService → option (list (string * json));
  MarshalJson : json → option (list Z);
  MarshalStorm : StormService → option (list Z);
  StrategicMergePatch : list Z → list Z → option (list Z);
  UnmarshalStorm : list Z → option StormService;
  (** What an error prints. *)
  errorText : stormError → string;
}.

(** The patch a revision holds: the template, to replace the one there is. *)
Definition getPatch `{StormCodec} (s : StormService) : option (list Z) :=
  raw ← ToUnstructured s;
  match jsonField raw "spec" with
  | Some (JObject spec) =>
      match jsonField spec "template" with
      | Some (JObject template) =>
          MarshalJson (JObject [("spec", JObject [("template",
            JObject (setJsonField "$patch" (JString "replace") template))])])
      | _ => None
      end
  | _ => None
  end.

(** The service with the template of a revision. *)
Definition applyRevision `{StormCodec} (s : StormService) (revision : ControllerRevision) : option StormService :=
  cloneBytes ← MarshalStorm s;
  patched ← StrategicMergePatch cloneBytes revision.(cr_Data);
  UnmarshalStorm patched.

(** *** Calls. *)

Class StormApi `{StormCodec} (W : Type) := {
  (** By namespace and by the value of the name label. *)
  ListRoleSets : string → string → W → W * result kubeError (list RoleSet);
  CreateRoleSet : RoleSet → W → W * result kubeError unit;
  DeleteRoleSet : RoleSet → W → W * result kubeError unit;
  UpdateRoleSet : RoleSet → W → W * result kubeError unit;
  GetService : NamespacedName → W → W * result kubeError Service;
  CreateService : Service → W → W * result kubeError unit;
  UpdateService : Service → W → W * result kubeError unit;
  GetStormService : NamespacedName → W → W * result kubeError StormService;
  UpdateStormStatus : StormService → W → W * result kubeError unit;
  StormNow : W → W * Time;
  (** [retry.RetryOnConflict] of a closure, with the variables it captures. *)
  RetryKube : ∀ {S A}, (S → Run W (S * result kubeError A)) → S → Run W (S * result kubeError A);
}.

(** A closure is run again only after a conflict, and what the last run gave is
    the result. *)
Class RetryLaws `{StormApi W} := {
  RetryKube_law {S A} (f : S → Run W (S * result kubeError A)) (I : W → Prop) (P : S → W → Prop) st w
      (Q : S * result kubeError A → W → Prop) :
    (∀ st w, P st w → holds I (f st) w (fun r w' => Q r w' ∧ (r.2 = Err KubeConflict → P r.1 w'))) →
    P st w → holds I (RetryKube f st) w Q;
}.

(** ** Calls in batches. *)

Section Batches.
Context `{K8sApps} {W E : Type}.

(** The calls of one batch and the errors they gave.  The goroutines of a batch
    act on different objects; they are run in the order of their indices. *)
Fixpoint runBatch (fn : Z → Run W (result E unit)) (first : Z) (n : nat) : Run W (list E) :=
  match n with
  | O => mret []
  | S n' =>
      r ← fn first;
      errs ← runBatch fn (first + 1) n';
      mret (match r with Ok _ => errs | Err e => e :: errs end)
  end.

Fixpoint slowStart (fuel : nat) (fn : Z → Run W (result E unit))
    (remaining batchSize finished successes : Z) : Run W (Z * option E) :=
  match fuel with
  | O => mret (successes, None)
  | S fuel' =>
      if negb (0 <? batchSize) then mret (successes, None)
      else
        errs ← runBatch fn finished (Z.to_nat batchSize);
        let successes := successes + (batchSize - Z.of_nat (length errs)) in
        match errs with
        | e :: _ => mret (successes, Some e)
        | [] =>
            let remaining := remaining - batchSize in
            slowStart fuel' fn remaining (integer_IntMin (2 * batchSize) remaining)
              (finished + batchSize) successes
        end
  end.

(** Every round makes at least one call, so [count] rounds are enough. *)
Definition SlowStartBatch (count initialBatchSize : Z) (fn : Z → Run W (result E unit))
  : Run W (Z * option E) :=
  slowStart (S (Z.to_nat count)) fn count (integer_IntMin count initialBatchSize) 0 0.
End Batches.

Definition SlowStartInitialBatchSize : Z := 1.

(** ** The operations on RoleSets. *)

Section Operations.
Context `{StormApi W}.

Definition ofKube {A} (r : result kubeError A) : result stormError A :=
  match r with Ok a => Ok a | Err e => Err (ApiError e) end.

Definition getRoleSetList (s : StormService) : Run W (result stormError (list RoleSet)) :=
  listed ← call (ListRoleSets s.(ss_Namespace) s.(ss_Name));
  mret (match listed with
        | Err e => Err (ApiError e)
        | Ok items => Ok (List.filter (fun rs => bool_decide (rs.(rs_Controller) = Some s.(ss_UID))) items)
        end).

(** The call for the [i]th of a list. *)
Definition onIndex {A E} (l : list A) (f : A → Run W (result E unit)) (i : Z) : Run W (result E unit) :=
  match l !! Z.to_nat i with Some x => f x | None => mret (Ok ()) end.

Fixpoint renderAll (s : StormService) (revisionName : string)
    (roleRevisions : gmap string ControllerRevision) (i : Z) (count : nat)
  : result renderError (list RoleSet) :=
  match count with
  | O => Ok []
  | S count' =>
      roleSet ← renderRoleSet s (Some i) revisionName roleRevisions;
      rest ← renderAll s revisionName roleRevisions (i + 1) count';
      Ok (roleSet :: rest)
  end.

(** How many were created, and the first error. *)
Definition createRoleSet (s : StormService) (count : Z) (revisionName : string)
    (roleRevisions : gmap string ControllerRevision) : Run W (Z * option stormError) :=
  match s.(ss_Template).(rt_Spec) with
  | None => mret (0, Some BadTemplate)
  | Some _ =>
      match renderAll s revisionName roleRevisions 0 (Z.to_nat count) with
      | Err e => mret (0, Some (RenderFailed e))
      | Ok toCreate =>
          SlowStartBatch (Z.of_nat (length toCreate)) SlowStartInitialBatchSize
            (onIndex toCreate (fun rs => r ← call (CreateRoleSet rs); mret (ofKube r)))
      end
  end.

Definition deleteOne (rs : RoleSet) : Run W (result stormError unit) :=
  r ← call (DeleteRoleSet rs);
  mret (match r with Err NotFound => Ok () | r => ofKube r end).

Definition deleteRoleSet (toDelete : list RoleSet) : Run W (Z * option stormError) :=
  SlowStartBatch (Z.of_nat (length toDelete)) SlowStartInitialBatchSize (onIndex toDelete deleteOne).

Definition updateRoleSet (s : StormService) (toUpdate : list RoleSet) (revisionName : string)
    (roleRevisions : gmap string ControllerRevision) : Run W (Z * option stormError) :=
  match renderRoleSet s None revisionName roleRevisions with
  | Err e => mret (0, Some (RenderFailed e))
  | Ok target =>
      SlowStartBatch (Z.of_nat (length toUpdate)) SlowStartInitialBatchSize
        (onIndex toUpdate (fun rs => r ← call (UpdateRoleSet (updatedRoleSet target rs)); mret (ofKube r)))
  end.
End Operations.

(** ** Scaling. *)

Section Scaling.
Context `{StormApi W}.

(** The RoleSets to give up, in order: until [diff] are found, or the next one is
    ready and no more ready ones can be spared. *)
Fixpoint givenUp (minAvailable diff readyCount : Z) (roleSets : list RoleSet) : list RoleSet :=
  match roleSets with
  | [] => []
  | rs :: rest =>
      if diff =? 0 then []
      else if IsRoleSetReady rs && (readyCount <=? minAvailable) then []
      else rs :: givenUp minAvailable (diff - 1)
                   (if IsRoleSetReady rs then readyCount - 1 else readyCount) rest
  end.

(** The RoleSets a paused service with two revisions gives up when it has too
    many, and whether only ones that are not ready. *)
Definition givenUpPaused (expectReplica diff : Z) (updatedRevision : string) (activeRoleSets : list RoleSet)
  : result stormError (bool * list RoleSet) :=
  let '(ready, notReady) := filterReadyRoleSets activeRoleSets in
  if diff <=? Z.of_nat (length notReady) then
    match sliceTo notReady diff with
    | None => Err SlicePanic
    | Some toDelete => Ok (true, toDelete)
    end
  else
    let '(updatedReady, currentReady) := filterRoleSetByRevision ready updatedRevision in
    let '(expectCurrent, expectUpdated) := calculateReplicas expectReplica
      (wrap32 (Z.of_nat (length currentReady))) (wrap32 (Z.of_nat (length updatedReady))) in
    match sliceTo currentReady (Z.of_nat (length currentReady) - expectCurrent),
          sliceTo updatedReady (Z.of_nat (length updatedReady) - expectUpdated) with
    | Some ofCurrent, Some ofUpdated => Ok (false, notReady ++ ofCurrent ++ ofUpdated)
    | _, _ => Err SlicePanic
    end.

Definition scaleOut (s current : StormService) (currentCR updateCR : ControllerRevision)
    (allRoleSets activeRoleSets : list RoleSet) (diff : Z) : Run W (result stormError bool) :=
  let expectReplica := ResolvedReplicas s in
  let updatedRevision := updateCR.(cr_Name) in
  if bool_decide (currentCR.(cr_Name) = updatedRevision) || negb s.(ss_Paused) then
    let createBudget := Z.min diff
      (wrap32 (expectReplica + MaxSurge s - wrap32 (Z.of_nat (length allRoleSets)))) in
    r ← createRoleSet s createBudget updatedRevision (computeRoleRevisions current s currentCR updateCR);
    mret (match r with (_, Some e) => Err e | (count, None) => Ok (0 <? count) end)
  else
    let '(updatedRevisionSets, currentRevisionSets) := filterRoleSetByRevision activeRoleSets updatedRevision in
    let '(expectCurrent, expectUpdated) := calculateReplicas expectReplica
      s.(ss_Status).(st_CurrentReplicas) s.(ss_Status).(st_UpdatedReplicas) in
    c ← createRoleSet current (expectCurrent - Z.of_nat (length currentRevisionSets)) currentCR.(cr_Name)
          (computeRoleRevisions current current currentCR currentCR);
    match c with
    | (_, Some e) => mret (Err e)
    | (currentCreated, None) =>
        u ← createRoleSet s (expectUpdated - Z.of_nat (length updatedRevisionSets)) updatedRevision
              (computeRoleRevisions current s currentCR updateCR);
        mret (match u with
              | (_, Some e) => Err e
              | (updatedCreated, None) => Ok ((0 <? currentCreated) || (0 <? updatedCreated))
              end)
    end.

Definition scaleIn (s : StormService) (currentCR updateCR : ControllerRevision)
    (activeRoleSets : list RoleSet) (diff : Z) : Run W (result stormError bool) :=
  let updatedRevision := updateCR.(cr_Name) in
  if bool_decide (currentCR.(cr_Name) = updatedRevision) || negb s.(ss_Paused) then
    let readyCount := Z.of_nat (length (filterReadyRoleSets activeRoleSets).1) in
    let toDelete := givenUp (MinAvailable s) diff readyCount
                      (sortRoleSetByRevision activeRoleSets updatedRevision) in
    r ← deleteRoleSet toDelete;
    mret (match r with (_, Some e) => Err e | (count, None) => Ok (0 <? count) end)
  else
    match givenUpPaused (ResolvedReplicas s) diff updatedRevision activeRoleSets with
    | Err e => mret (Err e)
    | Ok (onlyNotReady, toDelete) =>
        r ← deleteRoleSet toDelete;
        mret (match r with
              | (_, Some e) => Err e
              | (count, None) => Ok (negb onlyNotReady && (0 <? count))
              end)
    end.

(** Whether the number of RoleSets was changed. *)
Definition scaling (s current : StormService) (currentCR updateCR : ControllerRevision)
  : Run W (result stormError bool) :=
  listed ← getRoleSetList s;
  match listed with
  | Err e => mret (Err e)
  | Ok allRoleSets =>
      let activeRoleSets := (filterTerminatingRoleSets allRoleSets).1 in
      let diff := Z.of_nat (length activeRoleSets) - ResolvedReplicas s in
      if diff <? 0 then scaleOut s current currentCR updateCR allRoleSets activeRoleSets (- diff)
      else if 0 <? diff then scaleIn s currentCR updateCR activeRoleSets diff
      else mret (Ok false)
  end.

(** ** Rollout. *)

Fixpoint outdatedToDelete (minAvailable readyCount : Z) (outdated : list RoleSet) : list RoleSet :=
  match outdated with
  | [] => []
  | rs :: rest =>
      if IsRoleSetReady rs && (readyCount <=? minAvailable) then []
      else rs :: outdatedToDelete minAvailable
                   (if IsRoleSetReady rs then readyCount - 1 else readyCount) rest
  end.

Definition rollingUpdate (allRoleSets : list RoleSet) (s current : StormService)
    (currentCR updateCR : ControllerRevision) : Run W (option stormError) :=
  let updatedRevision := updateCR.(cr_Name) in
  let activeRoleSets := (filterTerminatingRoleSets allRoleSets).1 in
  let readyCount := Z.of_nat (length (filterReadyRoleSets activeRoleSets).1) in
  let '(updated, outdated) := filterRoleSetByRevision activeRoleSets updatedRevision in
  let toDelete := outdatedToDelete (MinAvailable s) readyCount
                    (sortRoleSetByRevision outdated updatedRevision) in
  r ← deleteRoleSet toDelete;
  match r.2 with
  | Some e => mret (Some e)
  | None =>
      let expectedReplica := ResolvedReplicas s in
      let surge := Z.min (expectedReplica + MaxSurge s - Z.of_nat (length allRoleSets))
                         (expectedReplica - Z.of_nat (length updated)) in
      let surge := if surge <? 0 then 0 else surge in
      c ← createRoleSet s surge updatedRevision (computeRoleRevisions current s currentCR updateCR);
      mret c.2
  end.

Definition inPlaceUpdate (allRoleSets : list RoleSet) (s current : StormService)
    (currentCR updateCR : ControllerRevision) : Run W (option stormError) :=
  let outdated := (filterRoleSetByRevision allRoleSets updateCR.(cr_Name)).2 in
  r ← updateRoleSet s outdated updateCR.(cr_Name) (computeRoleRevisions current s currentCR updateCR);
  mret r.2.

Definition rollout (s current : StormService) (currentCR updateCR : ControllerRevision)
  : Run W (option stormError) :=
  listed ← getRoleSetList s;
  match listed with
  | Err e => mret (Some e)
  | Ok allRoleSets =>
      let updated := (filterRoleSetByRevision allRoleSets updateCR.(cr_Name)).1 in
      if Z.of_nat (length updated) =? ResolvedReplicas s then mret None
      else match EffectiveUpdateStrategyType s with
      | Err e => mret (Some (StrategyFailed e))
      | Ok strategyType =>
          if bool_decide (strategyType = InPlaceUpdateStrategy)
          then inPlaceUpdate allRoleSets s current currentCR updateCR
          else rollingUpdate allRoleSets s current currentCR updateCR
      end
  end.
End Scaling.

(** ** The status. *)

Section Status.
Context `{StormApi W}.

Definition setResourceVersion (s : StormService) (version : string) : StormService :=
  MkStormService s.(ss_Namespace) s.(ss_Name) s.(ss_UID) s.(ss_Generation) version
    s.(ss_Labels) s.(ss_DeletionTimestamp) s.(ss_Finalizers) s.(ss_Replicas) s.(ss_Mode) s.(ss_Selector) s.(ss_Template) s.(ss_StrategyType)
    s.(ss_MaxUnavailable) s.(ss_MaxSurge) s.(ss_RevisionHistoryLimit) s.(ss_Paused)
    s.(ss_ProgressDeadlineSeconds) s.(ss_Status).

(** [utils.UpdateStatus]: a retry writes over what was written meanwhile.  The
    closure keeps whether it runs for the first time, and the object. *)
Definition updateStatusAttempt (st : bool * StormService) : Run W ((bool * StormService) * result kubeError unit) :=
  let '(firstTry, obj) := st in
  if firstTry then
    r ← call (UpdateStormStatus obj);
    mret ((false, obj), r)
  else
    got ← call (GetStormService (MkNN obj.(ss_Namespace) obj.(ss_Name)));
    match got with
    | Err e => mret ((false, obj), Err e)
    | Ok fresh =>
        let obj := setResourceVersion obj fresh.(ss_ResourceVersion) in
        r ← call (UpdateStormStatus obj);
        mret ((false, obj), r)
    end.

Definition UpdateStatus (s : StormService) : Run W (StormService * result kubeError unit) :=
  r ← RetryKube updateStatusAttempt (true, s);
  mret (r.1.2, r.2).

(** What every report starts from. *)
Definition observedStatus (s : StormService) (currentRevision updateRevision : ControllerRevision)
    (collisionCount : Z) : StormServiceStatus :=
  let st := s.(ss_Status) in
  MkStormStatus s.(ss_Generation) st.(st_Replicas) st.(st_ReadyReplicas) st.(st_NotReadyReplicas)
    st.(st_CurrentReplicas) st.(st_UpdatedReplicas) currentRevision.(cr_Name) updateRevision.(cr_Name)
    st.(st_UpdatedReadyReplicas) st.(st_Conditions) (Some collisionCount)
    st.(st_ScalingTargetSelector) st.(st_RoleStatuses).

Definition count32 {A} (p : A → bool) (l : list A) : Z := wrap32 (Z.of_nat (length (List.filter p l))).

(** The figures of a listing. *)
Definition countedStatus (st : StormServiceStatus) (allRoleSets : list RoleSet)
    (currentRevision updateRevision : ControllerRevision) : StormServiceStatus :=
  let matching revision rs := isRoleSetMatchRevision rs revision in
  let current := count32 (matching currentRevision.(cr_Name)) allRoleSets in
  let updated := count32 (fun rs => matching updateRevision.(cr_Name) rs && isAllRoleUpdated rs) allRoleSets in
  let updatedReady := count32 (fun rs => matching updateRevision.(cr_Name) rs && IsRoleSetReady rs &&
                                         isAllRoleUpdatedAndReady rs) allRoleSets in
  let '(ready, notReady) := filterReadyRoleSets allRoleSets in
  MkStormStatus st.(st_ObservedGeneration) (wrap32 (Z.of_nat (length allRoleSets)))
    (wrap32 (Z.of_nat (length ready))) (wrap32 (Z.of_nat (length notReady)))
    (if current =? 0 then updated else current) updated
    (if current =? 0 then st.(st_UpdateRevision) else st.(st_CurrentRevision)) st.(st_UpdateRevision)
    updatedReady (FilterOutCondition st.(st_Conditions) StormServiceReplicaFailure)
    st.(st_CollisionCount) st.(st_ScalingTargetSelector) st.(st_RoleStatuses).

Definition isStormReady (specReplica : Z) (st : StormServiceStatus) : bool :=
  (specReplica <=? st.(st_ReadyReplicas)) && (st.(st_UpdatedReplicas) =? specReplica) &&
  (st.(st_Replicas) =? specReplica) && bool_decide (st.(st_CurrentRevision) = st.(st_UpdateRevision)).

Definition withRoles (st : StormServiceStatus) (selector : string) (roles : list RoleStatus)
  : StormServiceStatus :=
  MkStormStatus st.(st_ObservedGeneration) st.(st_Replicas) st.(st_ReadyReplicas)
    st.(st_NotReadyReplicas) st.(st_CurrentReplicas) st.(st_UpdatedReplicas)
    st.(st_CurrentRevision) st.(st_UpdateRevision) st.(st_UpdatedReadyReplicas)
    st.(st_Conditions) st.(st_CollisionCount) selector roles.

(** The service with its new status, and whether it is ready. *)
Definition updateStatus (s : StormService) (reconcileErr : option stormError)
    (currentRevision updateRevision : ControllerRevision) (collisionCount : Z)
  : Run W (StormService * result stormError bool) :=
  let checkpoint := s.(ss_Status) in
  let st := observedStatus s currentRevision updateRevision collisionCount in
  match reconcileErr with
  | Some e =>
      now ← call StormNow;
      let st := SetStormServiceCondition (RemoveStormServiceCondition st StormServiceReady)
        (NewCondition StormServiceReplicaFailure ConditionTrue "Failure" (ErrorMessage (errorText e)) now) in
      later ← call StormNow;
      let s := syncStormServiceProgressingCondition (setStormStatus s st) checkpoint later in
      r ← call (UpdateStormStatus s);
      mret (s, match r with Err e => Err (ApiError e) | Ok _ => Ok false end)
  | None =>
      listed ← getRoleSetList s;
      match listed with
      | Err e => mret (setStormStatus s st, Err e)
      | Ok allRoleSets =>
          let st := countedStatus st allRoleSets currentRevision updateRevision in
          let ready := isStormReady (ResolvedReplicas s) st in
          now ← call StormNow;
          let s :=
            if ready then setStormStatus s (setStormServiceAvailabilityCondition st true now)
            else syncStormServiceProgressingCondition
                   (setStormStatus s (RemoveStormServiceCondition st StormServiceReady)) checkpoint now in
          gang ← call StormNow;
          later ← call StormNow;
          let st := withRoles (setGangSchedulingConditions s.(ss_Status) allRoleSets gang later)
            (String.append StormServiceNameLabelKey (String.append "=" s.(ss_Name)))
            (aggregateRoleStatuses allRoleSets updateRevision.(cr_Name)) in
          let s := setStormStatus s st in
          if negb (bool_decide (checkpoint = st)) then
            r ← UpdateStatus s;
            mret (r.1, match r.2 with Err e => Err (ApiError e) | Ok _ => Ok ready end)
          else mret (s, Ok ready)
      end
  end.

(** ** The pass. *)

Definition expectedService (s : StormService) : Service :=
  MkService s.(ss_Namespace) s.(ss_Name) s.(ss_Labels) (Some s.(ss_UID)) "ClusterIP" "None"
    {[ StormServiceNameLabelKey := s.(ss_Name) ]} true.

Definition isServiceEqual (a b : Service) : bool :=
  bool_decide (a.(svc_Type) = b.(svc_Type)) && bool_decide (a.(svc_Selector) = b.(svc_Selector)) &&
  bool_decide (a.(svc_ClusterIP) = b.(svc_ClusterIP)) &&
  Bool.eqb a.(svc_PublishNotReadyAddresses) b.(svc_PublishNotReadyAddresses).

Definition syncHeadlessService (s : StormService) : Run W (option stormError) :=
  let expected := expectedService s in
  got ← call (GetService (MkNN s.(ss_Namespace) s.(ss_Name)));
  match got with
  | Err NotFound =>
      r ← call (CreateService expected);
      mret (match r with Err e => Some (ApiError e) | Ok _ => None end)
  | Err e => mret (Some (ApiError e))
  | Ok found =>
      if isServiceEqual found expected then mret None
      else
        r ← call (UpdateService (MkService found.(svc_Namespace) found.(svc_Name) found.(svc_Labels)
                    found.(svc_Owner) expected.(svc_Type) expected.(svc_ClusterIP)
                    expected.(svc_Selector) expected.(svc_PublishNotReadyAddresses)));
        mret (match r with Err e => Some (ApiError e) | Ok _ => None end)
  end.

(** Scaling, and the rollout when the number is right and nothing is paused. *)
Definition scaleAndRoll (s current : StormService) (currentRevision updateRevision : ControllerRevision)
  : Run W (option stormError) :=
  scaled ← scaling s current currentRevision updateRevision;
  match scaled with
  | Err e => mret (Some e)
  | Ok changed =>
      if negb s.(ss_Paused) && negb changed then rollout s current currentRevision updateRevision
      else mret None
  end.

Definition sync (s : StormService) (currentRevision updateRevision : ControllerRevision)
    (collisionCount : Z) : Run W (result stormError Duration) :=
  match applyRevision s currentRevision with
  | None => mret (Err CodecFailed)
  | Some current =>
      serviced ← syncHeadlessService s;
      match serviced with
      | Some e => mret (Err e)
      | None =>
          reconcileErr ← scaleAndRoll s current currentRevision updateRevision;
          r ← updateStatus s reconcileErr currentRevision updateRevision collisionCount;
          match r.2 with
          | Err e => mret (Err e)
          | Ok true => mret (Ok 0)
          | Ok false =>
              now ← call StormNow;
              mret (Ok (progressDeadlineRequeueAfter r.1 now))
          end
      end
  end.
End Status.
