(* ===== verification/StormFacts.v ===== *)
(** * What a pass over a StormService keeps to.

    The laws of the API server ([StormLaws]): what a call may do, whatever it
    reports, and what may happen meanwhile.  Under them, at every moment of a
    pass, a rolling service has no more RoleSets than its surge allows and no
    fewer ready ones than its budget asks for.  On a server that does what it
    is told ([StormExact]), passes bring every service to its new revision. *)

From S2P Require Import Prelude Api Claims Ledger KVPlan Placement Reservations Runtime Storm StormSync.

(** ** Batches. *)

Section BatchFacts.
Context `{K8sAppsLaws} {W E : Type}.

(** A loop rule: [P k] holds once the calls below [k] were made. *)
Lemma runBatch_holds (I : W → Prop) (P : Z → W → Prop) (fn : Z → Run W (result E unit)) n first w :
  (∀ k w1, first ≤ k < first + Z.of_nat n → P k w1 → holds I (fn k) w1 (fun _ w2 => P (k + 1) w2)) →
  P first w →
  holds I (runBatch fn first n) w (fun _ w2 => P (first + Z.of_nat n) w2).
Proof.
  revert first w. induction n as [|n IH]; intros first w Hfn HP; cbn [runBatch].
  - apply holds_ret. by rewrite Z.add_0_r.
  - apply holds_bind. eapply holds_mono; [apply (Hfn first w); [lia|done]|done|].
    intros r w1 HP1. apply holds_bind.
    eapply holds_mono; [apply (IH (first + 1) w1); [|done]|done|].
    + intros k w2 Hk. apply Hfn. lia.
    + intros errs w2 HP2. apply holds_ret. by replace (first + Z.of_nat (S n)) with (first + 1 + Z.of_nat n) by lia.
Qed.

Lemma slowStart_holds (I : W → Prop) (P : Z → W → Prop) (fn : Z → Run W (result E unit)) count fuel
    batchSize finished successes w :
  (∀ k w1, 0 ≤ k < count → P k w1 → holds I (fn k) w1 (fun _ w2 => P (k + 1) w2)) →
  0 ≤ finished ≤ count → batchSize ≤ count - finished → P finished w →
  holds I (slowStart fuel fn (count - finished) batchSize finished successes) w
    (fun _ w2 => ∃ k, 0 ≤ k ≤ count ∧ P k w2).
Proof.
  intros Hfn. revert batchSize finished successes w.
  induction fuel as [|fuel IH]; intros batchSize finished successes w Hf Hb HP; cbn [slowStart].
  { apply holds_ret. by exists finished. }
  destruct (Z.ltb_spec 0 batchSize); simpl; [|apply holds_ret; by exists finished].
  apply holds_bind. eapply holds_mono; [apply (runBatch_holds I P); [|done]|done|].
  { intros k w1 Hk. apply Hfn. lia. }
  intros errs w1 HP1. rewrite Z2Nat.id in HP1 by lia. destruct errs as [|e errs].
  - replace (count - finished - batchSize) with (count - (finished + batchSize)) by lia.
    apply IH; [lia| |done]. rewrite IntMin_spec. lia.
  - apply holds_ret. exists (finished + batchSize). split; [lia|done].
Qed.

Lemma SlowStartBatch_holds (I : W → Prop) (P : Z → W → Prop) (fn : Z → Run W (result E unit)) count init w :
  (∀ k w1, 0 ≤ k < count → P k w1 → holds I (fn k) w1 (fun _ w2 => P (k + 1) w2)) →
  0 ≤ count → P 0 w →
  holds I (SlowStartBatch count init fn) w (fun _ w2 => ∃ k, 0 ≤ k ≤ count ∧ P k w2).
Proof.
  intros Hfn Hc HP. unfold SlowStartBatch. rewrite <- (Z.sub_0_r count) at 2.
  apply slowStart_holds; [done|lia| |done]. rewrite IntMin_spec. lia.
Qed.

(** *** What is called when calls fail. *)

(** A call that keeps the indices it was called with and answers [outcome]. *)
Definition logged (outcome : Z → result E unit) (i : Z) : Run (list Z) (result E unit) :=
  call (fun log => (log ++ [i], outcome i)).

Definition errorsOf (outcome : Z → result E unit) (l : list Z) : list E :=
  omap (fun i => match outcome i with Ok _ => None | Err e => Some e end) l.

Lemma errorsOf_app outcome l k : errorsOf outcome (l ++ k) = errorsOf outcome l ++ errorsOf outcome k.
Proof. apply omap_app. Qed.

(** The first error of a run of calls, and the call that gave it. *)
Lemma errorsOf_first outcome first n e errs :
  errorsOf outcome (seqZ first n) = e :: errs →
  ∃ f, first ≤ f < first + n ∧ outcome f = Err e ∧ ∀ i, first ≤ i < f → outcome i = Ok ().
Proof.
  destruct (Z.leb_spec 0 n) as [Hn|]; [|rewrite seqZ_nil by lia; done].
  rewrite <- (Z2Nat.id n) by done. generalize (Z.to_nat n). clear n Hn. intros n. revert first.
  induction n as [|n IH]; intros first; [done|].
  rewrite seqZ_cons by lia. replace (Z.pred (Z.of_nat (S n))) with (Z.of_nat n) by lia.
  unfold errorsOf. csimpl. fold (errorsOf outcome).
  destruct (outcome first) as [[]|e0] eqn:E0.
  - intros (f & Hf & He & Hi)%IH. exists f. split; [lia|]. split; [done|]. intros i Hif.
    destruct (decide (i = first)) as [->|]; [done|]. apply Hi. lia.
  - intros [= -> _]. exists first. split; [lia|]. split; [done|]. lia.
Qed.

Lemma runBatch_logged outcome first n log :
  final (runBatch (logged outcome) first n) log = log ++ seqZ first (Z.of_nat n) ∧
  value (runBatch (logged outcome) first n) log = errorsOf outcome (seqZ first (Z.of_nat n)).
Proof.
  revert first log. induction n as [|n IH]; intros first log.
  - simpl. by rewrite app_nil_r.
  - rewrite seqZ_cons by lia. replace (Z.pred (Z.of_nat (S n))) with (Z.of_nat n) by lia.
    destruct (IH (Z.succ first) (log ++ [first])) as [H1 H2].
    unfold final, value in *. cbn [runBatch]. unfold mbind, run_bind, logged, call in *.
    rewrite <- Z.add_1_r in H1, H2.
    destruct (runBatch _ (first + 1) n (log ++ [first])) as [[t w1] errs]. simpl in *. subst.
    rewrite <- app_assoc, <- Z.add_1_r. split; [done|]. unfold errorsOf. csimpl. by destruct (outcome first).
Qed.

(** What a run of batches that has made [finished] calls without an error ends
    with, after [k] calls. *)
Definition batchOutcome (outcome : Z → result E unit) (count k : Z) (r : Z * option E) : Prop :=
  match r.2 with
  | None => k = count ∧ r.1 = count ∧ ∀ i, 0 ≤ i < count → outcome i = Ok ()
  | Some e => ∃ f, 0 ≤ f < k ∧ k ≤ count ∧ k ≤ 2 * f + 1 ∧ outcome f = Err e ∧
      (∀ i, 0 ≤ i < f → outcome i = Ok ()) ∧
      r.1 = k - Z.of_nat (length (errorsOf outcome (seqZ 0 k)))
  end.

Lemma slowStart_logged outcome count fuel finished :
  0 ≤ finished ≤ count → count - finished < Z.of_nat fuel →
  (∀ i, 0 ≤ i < finished → outcome i = Ok ()) →
  let run := slowStart fuel (logged outcome) (count - finished)
               (Z.min (finished + 1) (count - finished)) finished finished in
  ∃ k, final run (seqZ 0 finished) = seqZ 0 k ∧ batchOutcome outcome count k (value run (seqZ 0 finished)).
Proof.
  revert finished. induction fuel as [|fuel IH]; intros finished Hf Hfuel Hok; [lia|].
  set (batch := Z.min (finished + 1) (count - finished)). cbn [slowStart]. cbv zeta.
  destruct (Z.ltb_spec 0 batch) as [Hb|Hb]; cbn [negb].
  2:{ exists finished. split; [done|]. cbn. assert (finished = count) as -> by lia. done. }
  unfold final, value, mbind, run_bind.
  destruct (runBatch_logged outcome finished (Z.to_nat batch) (seqZ 0 finished)) as [H1 H2].
  unfold final, value in H1, H2. rewrite Z2Nat.id in H1, H2 by lia.
  assert (seqZ 0 finished ++ seqZ finished batch = seqZ 0 (finished + batch)) as Happ.
  { rewrite (seqZ_app 0 finished batch) by lia. by rewrite Z.add_0_l. }
  destruct (runBatch _ finished (Z.to_nat batch) (seqZ 0 finished)) as [[t w1] errs]. simpl in H1, H2.
  subst w1. rewrite Happ. destruct errs as [|e errs].
  - assert (∀ i, 0 ≤ i < finished + batch → outcome i = Ok ()) as Hok'.
    { intros i Hi. destruct (decide (i < finished)); [apply Hok; lia|].
      destruct (outcome i) as [[]|e] eqn:Ei; [done|exfalso].
      assert (e ∈ errorsOf outcome (seqZ finished batch)) as Hin; [|rewrite <- H2 in Hin; set_solver].
      apply list_elem_of_omap. exists i. rewrite Ei. split; [|done]. apply elem_of_seqZ. lia. }
    cbn [length]. rewrite IntMin_spec, Z.sub_0_r.
    replace (count - finished - batch) with (count - (finished + batch)) by lia.
    replace (Z.min (2 * batch) (count - (finished + batch)))
      with (Z.min (finished + batch + 1) (count - (finished + batch))) by lia.
    destruct (IH (finished + batch)) as (k & Hk1 & Hk2); [lia|lia|done|]. exists k.
    unfold final, value in Hk1, Hk2.
    destruct (slowStart fuel _ _ _ (finished + batch) (finished + batch) _) as [[t2 w2] r2]. done.
  - exists (finished + batch). cbn. split; [done|].
    symmetry in H2. pose proof H2 as (f & Hff & He & Hi)%errorsOf_first. exists f.
    split_and!; [lia..|done| |].
    + intros i Hi'. destruct (decide (i < finished)); [apply Hok; lia|apply Hi; lia].
    + assert (errorsOf outcome (seqZ 0 finished) = []) as Hnil.
      { destruct (errorsOf outcome (seqZ 0 finished)) as [|e0 ?] eqn:E0; [done|].
        apply errorsOf_first in E0 as (g & Hg & Hg' & _). rewrite Hok in Hg' by lia. done. }
      rewrite <- Happ, errorsOf_app, Hnil, H2. simpl. lia.
Qed.
End BatchFacts.

(** Calls in batches.  [SlowStartBatch] starting with one call makes the
    calls 0, 1, 2, ... in order, each once, and stops.  Without an error it
    makes all of them and says so.  When call [f] is the first to fail, the
    error reported is its error, at most [f] more calls are made after it, and
    the number of successes is the number of calls made that succeeded. *)
Theorem SlowStartBatch_stops_early `{K8sAppsLaws} {E} (outcome : Z → result E unit) count :
  0 ≤ count →
  let run := SlowStartBatch count SlowStartInitialBatchSize (logged outcome) in
  ∃ k, final run [] = seqZ 0 k ∧ batchOutcome outcome count k (value run []).
Proof.
  intros Hc run. subst run. unfold SlowStartBatch, SlowStartInitialBatchSize. rewrite IntMin_spec.
  pose proof (slowStart_logged outcome count (S (Z.to_nat count)) 0) as Hs.
  rewrite Z.sub_0_r, (Z.min_comm (0 + 1)) in Hs. apply Hs; lia.
Qed.

(** ** What is given up. *)

Section GiveUpFacts.
Context `{K8s} `{K8sAppsLaws}.

Definition readyCount (l : list RoleSet) : Z := Z.of_nat (length (List.filter IsRoleSetReady l)).

Lemma readyCount_app l k : readyCount (l ++ k) = readyCount l + readyCount k.
Proof. unfold readyCount. rewrite filter_length_app. lia. Qed.

Lemma readyCount_perm l k : l ≡ₚ k → readyCount l = readyCount k.
Proof. intros Hp. unfold readyCount. by rewrite (filter_length_perm _ l k). Qed.

Lemma readyCount_bounds l : 0 ≤ readyCount l ≤ Z.of_nat (length l).
Proof. unfold readyCount. pose proof (List.filter_length_le IsRoleSetReady l). lia. Qed.

Lemma split_perm {A} (p : A → bool) l : (split p l).1 ++ (split p l).2 ≡ₚ l.
Proof.
  unfold split. simpl. induction l as [|x l IH]; simpl; [done|]. destruct (p x); simpl.
  - by rewrite IH.
  - by rewrite <- Permutation_middle, IH.
Qed.

Lemma sortRoleSets_perm rules l : sortRoleSetsByRules rules l ≡ₚ l.
Proof. apply sortBy_perm. Qed.

(** A prefix of the list, no longer than asked, that leaves the ready RoleSets
    the service has to keep. *)
Lemma givenUp_spec m diff rc l :
  let d := givenUp m diff rc l in
  (∃ rest, l = d ++ rest) ∧ readyCount d ≤ Z.max 0 (rc - m) ∧ (0 ≤ diff → Z.of_nat (length d) ≤ diff).
Proof.
  revert diff rc. induction l as [|rs l IH]; intros diff rc; simpl.
  { split; [by exists []|]. unfold readyCount. simpl. lia. }
  destruct (Z.eqb_spec diff 0) as [->|Hd].
  { split; [by exists (rs :: l)|]. unfold readyCount. simpl. lia. }
  destruct (IsRoleSetReady rs) eqn:Er; simpl.
  - destruct (Z.leb_spec rc m); [split; [by exists (rs :: l)|]; unfold readyCount; simpl; lia|].
    destruct (IH (diff - 1) (rc - 1)) as ([rest Hrest] & Hr & Hlen).
    split; [exists rest; simpl; by rewrite <- Hrest|]. unfold readyCount in *. simpl. rewrite Er. simpl.
    split; [lia|]. intros Hpos. assert (0 ≤ diff - 1) as Hp1 by lia. specialize (Hlen Hp1). lia.
  - destruct (IH (diff - 1) rc) as ([rest Hrest] & Hr & Hlen).
    split; [exists rest; simpl; by rewrite <- Hrest|]. unfold readyCount in *. simpl. rewrite Er. simpl.
    split; [lia|]. intros Hpos. assert (0 ≤ diff - 1) as Hp1 by lia. specialize (Hlen Hp1). lia.
Qed.

Lemma outdatedToDelete_spec m rc l :
  let d := outdatedToDelete m rc l in
  (∃ rest, l = d ++ rest) ∧ readyCount d ≤ Z.max 0 (rc - m).
Proof.
  revert rc. induction l as [|rs l IH]; intros rc; simpl.
  { split; [by exists []|]. unfold readyCount. simpl. lia. }
  destruct (IsRoleSetReady rs) eqn:Er; simpl.
  - destruct (Z.leb_spec rc m); [split; [by exists (rs :: l)|]; unfold readyCount; simpl; lia|].
    destruct (IH (rc - 1)) as ([rest Hrest] & Hr).
    split; [exists rest; simpl; by rewrite <- Hrest|]. unfold readyCount in *. simpl. rewrite Er. simpl. lia.
  - destruct (IH rc) as ([rest Hrest] & Hr).
    split; [exists rest; simpl; by rewrite <- Hrest|]. unfold readyCount in *. simpl. rewrite Er. done.
Qed.

(** An integer nearest to a quotient is within its bounds. *)
Lemma nearest_le t r p k : 2 * Z.abs (t * r - p) ≤ t → 2 * p < t * (2 * k + 1) → r ≤ k.
Proof. intros Hn Hp. apply Z.nlt_ge. intros Hk. assert (t * (k + 1) ≤ t * r) by nia. lia. Qed.

Lemma nearest_ge t r p k : 2 * Z.abs (t * r - p) ≤ t → t * (2 * k - 1) < 2 * p → k ≤ r.
Proof. intros Hn Hp. apply Z.nlt_ge. intros Hk. assert (t * r ≤ t * (k - 1)) by nia. lia. Qed.

(** The split of replicas over two revisions adds up and, when there are too
    many, takes no more of a revision than there is. *)
Lemma nearest_share t a des cnt r : 0 ≤ des < t → 0 ≤ cnt ≤ t → a = cnt * des →
  2 * Z.abs (t * r - a) ≤ t → 0 ≤ r ≤ cnt ∧ r ≤ des ∧ (2 * (a - t * r) = t → r < cnt).
Proof.
  intros Hd Hc -> Hn. assert (cnt * des ≤ cnt * (t - 1)) by (apply Z.mul_le_mono_nonneg_l; lia).
  assert (cnt * des ≤ t * des) by (apply Z.mul_le_mono_nonneg_r; lia).
  assert (0 ≤ cnt * des) by (apply Z.mul_nonneg_nonneg; lia).
  split; [split; [eapply nearest_ge|eapply nearest_le]; [exact Hn|lia|exact Hn|lia]|].
  split; [eapply nearest_le; [exact Hn|lia]|].
  intros Heq. apply Z.nle_gt. intros Hle. assert (t * cnt ≤ t * r) by (apply Z.mul_le_mono_nonneg_l; lia). lia.
Qed.

Lemma calculateReplicas_spec desired current updated :
  0 ≤ desired < 2 ^ 31 → 0 ≤ current → 0 ≤ updated → current + updated < 2 ^ 31 →
  current * desired < 2 ^ 31 → updated * desired < 2 ^ 31 → desired < current + updated →
  let '(c, u) := calculateReplicas desired current updated in
  c + u = desired ∧ 0 ≤ c ≤ current ∧ 0 ≤ u ≤ updated.
Proof.
  intros Hd Hc Hu Ht Hcd Hud Hlt. unfold calculateReplicas.
  assert (0 ≤ current * desired) by (apply Z.mul_nonneg_nonneg; lia).
  assert (0 ≤ updated * desired) by (apply Z.mul_nonneg_nonneg; lia).
  rewrite !(wrap32_id (current + updated)) by (unfold in_int32; lia).
  rewrite (wrap32_id (current * desired)), (wrap32_id (updated * desired)) by (unfold in_int32; lia).
  destruct (Z.eqb_spec desired (current + updated)); [lia|].
  destruct (Z.eqb_spec (current + updated) 0); [lia|]. cbn [negb].
  pose proof (RoundToInt32_nearest (current * desired) (current + updated)) as Hn1.
  pose proof (RoundToInt32_nearest (updated * desired) (current + updated)) as Hn2.
  set (c := RoundToInt32 (current * desired) (current + updated)) in *.
  set (u := RoundToInt32 (updated * desired) (current + updated)) in *.
  set (t := current + updated) in *.
  assert (current * desired + updated * desired = t * desired) as Hsum by (unfold t; ring).
  destruct (nearest_share t (current * desired) desired current c) as (? & ? & Hcs); [lia..|].
  destruct (nearest_share t (updated * desired) desired updated u) as (? & ? & Hus); [lia..|].
  assert (2 * Z.abs (t * (c + u) - t * desired) ≤ 2 * t) by (rewrite Z.mul_add_distr_l; lia).
  assert (desired - 1 ≤ c + u) by (apply Z.nlt_ge; intros ?; assert (t * (c + u) ≤ t * (desired - 2)) by
    (apply Z.mul_le_mono_nonneg_l; lia); lia).
  assert (c + u ≤ desired + 1) by (apply Z.nlt_ge; intros ?; assert (t * (desired + 2) ≤ t * (c + u)) by
    (apply Z.mul_le_mono_nonneg_l; lia); lia).
  rewrite (wrap32_id (c + u)) by (unfold in_int32; lia).
  destruct (Z.eqb_spec (c + u) desired); cbn [negb]; [lia|].
  rewrite (wrap32_id (desired - c)) by (unfold in_int32; lia).
  split; [lia|]. split; [lia|]. split; [lia|].
  destruct (decide (c + u = desired - 1)) as [Hm|]; [|lia].
  assert (t * (c + u) = t * (desired - 1)) as Hm2 by (by rewrite Hm).
  rewrite Z.mul_add_distr_l in Hm2. assert (u < updated) by (apply Hus; lia). lia.
Qed.
End GiveUpFacts.

(** ** The laws of the API server. *)

Definition keyOf `{K8s} `{K8sApps} (rs : RoleSet) : NamespacedName := MkNN rs.(rs_Namespace) rs.(rs_Name).

(** What is said of a RoleSet that only this controller changes. *)
Definition sameIdentity `{K8s} `{K8sApps} (a b : RoleSet) : Prop :=
  keyOf a = keyOf b ∧ rs_Labels a = rs_Labels b ∧ rs_Controller a = rs_Controller b ∧
  rs_DeletionTimestamp a = rs_DeletionTimestamp b.

(** What others do between two calls: report status and finish deletions.  No
    one else creates a RoleSet or asks for one to be deleted. *)
Definition meanwhile `{K8s} `{K8sApps} (m m' : gmap NamespacedName RoleSet) : Prop :=
  ∀ k, match m !! k, m' !! k with
       | None, None => True
       | None, Some _ => False
       | Some rs, Some rs' => sameIdentity rs rs'
       | Some rs, None => isTerminating rs = true
       end.

Definition named `{K8s} `{K8sApps} (rs : RoleSet) (name : string) : RoleSet :=
  MkRoleSet rs.(rs_Namespace) name rs.(rs_GenerateName) rs.(rs_UID) rs.(rs_Labels) rs.(rs_Annotations)
    rs.(rs_DeletionTimestamp) rs.(rs_Finalizers) rs.(rs_Controller) rs.(rs_Spec) rs.(rs_Roles) rs.(rs_Conditions).

Definition deletedAt `{K8s} `{K8sApps} (t : Time) (rs : RoleSet) : RoleSet :=
  MkRoleSet rs.(rs_Namespace) rs.(rs_Name) rs.(rs_GenerateName) rs.(rs_UID) rs.(rs_Labels) rs.(rs_Annotations)
    (Some t) rs.(rs_Finalizers) rs.(rs_Controller) rs.(rs_Spec) rs.(rs_Roles) rs.(rs_Conditions).

Definition created `{K8s} `{K8sApps} (rs : RoleSet) (m m' : gmap NamespacedName RoleSet) : Prop :=
  ∃ name, m !! MkNN rs.(rs_Namespace) name = None ∧
    m' = <[MkNN rs.(rs_Namespace) name := named rs name]> m.

Definition deleted `{K8s} `{K8sApps} (k : NamespacedName) (m m' : gmap NamespacedName RoleSet) : Prop :=
  m' = delete k m ∨ ∃ t, m' = alter (deletedAt t) k m.

Definition labelled `{K8s} `{K8sApps} (namespace name : string) (rs : RoleSet) : Prop :=
  rs_Namespace rs = namespace ∧ rs_Labels rs !! StormServiceNameLabelKey = Some name.

Class StormLaws `{StormApi W} := {
  stored : W → gmap NamespacedName RoleSet;
  stored_key w k rs : stored w !! k = Some rs → keyOf rs = k;

  (** A listing is current: it shows the RoleSets as they are when it returns. *)
  ListRoleSets_law namespace name w : let w' := (ListRoleSets namespace name w).1 in
    meanwhile (stored w) (stored w') ∧
    ∀ items, (ListRoleSets namespace name w).2 = Ok items →
      NoDup (keyOf <$> items) ∧
      (∀ rs, rs ∈ items ↔ stored w' !! keyOf rs = Some rs ∧ labelled namespace name rs);

  (** A write takes effect or not, whatever is reported. *)
  CreateRoleSet_law rs w : let w' := (CreateRoleSet rs w).1 in
    ∃ m, meanwhile (stored w) m ∧ (stored w' = m ∨ created rs m (stored w'));
  DeleteRoleSet_law rs w : let w' := (DeleteRoleSet rs w).1 in
    ∃ m, meanwhile (stored w) m ∧ (stored w' = m ∨ deleted (keyOf rs) m (stored w'));
}.

(** ** Reasoning about the operations: what each of their calls does. *)

Section OperationFacts.
Context `{HK : K8s} `{HX : K8sApps} {HXL : K8sAppsLaws} {HC : StormCodec} {W : Type} {HA : StormApi W}.

Lemma onIndex_holds {A E} (I : W → Prop) (P : Z → W → Prop) (l : list A) (f : A → Run W (result E unit)) k w :
  0 ≤ k < Z.of_nat (length l) →
  (∀ x, l !! Z.to_nat k = Some x → holds I (f x) w (fun _ w2 => P (k + 1) w2)) →
  holds I (onIndex l f k) w (fun _ w2 => P (k + 1) w2).
Proof.
  intros Hk Hf. unfold onIndex. destruct (lookup_lt_is_Some_2 l (Z.to_nat k)) as [x Hx]; [lia|].
  rewrite Hx. by apply Hf.
Qed.

Lemma renderAll_length s rev rr i n l : renderAll s rev rr i n = Ok l → length l = n.
Proof.
  revert i l. induction n as [|n IH]; intros i l; simpl; [by intros [= <-]|].
  intros (rs & _ & (rest & Hrest%IH & [= <-])%result_bind_ok)%result_bind_ok. simpl. by rewrite Hrest.
Qed.

Lemma createRoleSet_holds (I : W → Prop) (P : Z → W → Prop) s count rev rr w :
  (∀ k rs w1, 0 ≤ k < Z.max 0 count → P k w1 →
     I (CreateRoleSet rs w1).1 ∧ P (k + 1) (CreateRoleSet rs w1).1) →
  P 0 w →
  holds I (createRoleSet s count rev rr) w (fun _ w2 => ∃ k, 0 ≤ k ≤ Z.max 0 count ∧ P k w2).
Proof.
  intros Hc HP. unfold createRoleSet.
  destruct (rt_Spec (ss_Template s)); [|apply holds_ret; exists 0; split; [lia|done]].
  destruct (renderAll s rev rr 0 (Z.to_nat count)) as [l|e] eqn:El;
    [|apply holds_ret; exists 0; split; [lia|done]].
  apply renderAll_length in El. replace (Z.max 0 count) with (Z.of_nat (length l)) in * by lia.
  apply SlowStartBatch_holds; [|lia|done]. intros k w1 Hk HPk. apply onIndex_holds; [done|]. intros rs _.
  apply holds_bind, holds_call; [by apply (Hc k)|]. apply holds_ret. by apply (Hc k).
Qed.

Lemma deleteRoleSet_holds (I : W → Prop) (P : Z → W → Prop) l w :
  (∀ k rs w1, l !! Z.to_nat k = Some rs → 0 ≤ k < Z.of_nat (length l) → P k w1 →
     I (DeleteRoleSet rs w1).1 ∧ P (k + 1) (DeleteRoleSet rs w1).1) →
  P 0 w →
  holds I (deleteRoleSet l) w (fun _ w2 => ∃ k, 0 ≤ k ≤ Z.of_nat (length l) ∧ P k w2).
Proof.
  intros Hc HP. apply SlowStartBatch_holds; [|lia|done]. intros k w1 Hk HPk.
  apply onIndex_holds; [done|]. intros rs Hrs. unfold deleteOne.
  apply holds_bind, holds_call; [by apply (Hc k)|]. apply holds_ret. by apply (Hc k).
Qed.
End OperationFacts.

(** ** The surge. *)

Section Surge.
Context `{HK : K8s} `{HX : K8sApps} {HXL : K8sAppsLaws} {HC : StormCodec} {W : Type} {HA : StormApi W} {HL : StormLaws}.
Context (s : StormService).

(** The RoleSets the service owns. *)
Definition isOwned (rs : RoleSet) : Prop :=
  labelled s.(ss_Namespace) s.(ss_Name) rs ∧ rs_Controller rs = Some s.(ss_UID).

#[local] Instance isOwned_dec rs : Decision (isOwned rs).
Proof. unfold isOwned, labelled. apply _. Defined.

Definition ownedIn (m : gmap NamespacedName RoleSet) : Z :=
  Z.of_nat (size (filter (fun kv : NamespacedName * RoleSet => isOwned kv.2) m)).
Definition ownedBy (w : W) : Z := ownedIn (stored w).

Lemma isOwned_identity a b : sameIdentity a b → isOwned a ↔ isOwned b.
Proof.
  intros (Hk & Hl & Hc & _). unfold isOwned, labelled, keyOf in *. injection Hk as -> _. by rewrite Hl, Hc.
Qed.

Lemma ownedIn_le m m' extra :
  (∀ k rs', m' !! k = Some rs' → isOwned rs' → k ∈ extra ∨ ∃ rs, m !! k = Some rs ∧ isOwned rs) →
  ownedIn m' ≤ ownedIn m + Z.of_nat (size (extra : gset NamespacedName)).
Proof.
  intros Hsub. unfold ownedIn. rewrite <- !size_dom.
  set (f := fun kv : NamespacedName * RoleSet => isOwned kv.2).
  assert (dom (filter f m') ⊆ extra ∪ dom (filter f m)) as Hd.
  { intros k (rs' & Hk)%elem_of_dom. apply map_lookup_filter_Some in Hk as [Hk Ho].
    apply elem_of_union. destruct (Hsub k rs' Hk Ho) as [?|(rs & Hr & Hro)]; [by left|right].
    apply elem_of_dom. exists rs. by apply map_lookup_filter_Some. }
  apply subseteq_size in Hd. rewrite size_union_alt in Hd.
  pose proof (subseteq_size (dom (filter f m) ∖ extra) (dom (filter f m))) as Hs.
  assert (size (dom (filter f m) ∖ extra) ≤ size (dom (filter f m)))%nat by (apply Hs; set_solver). lia.
Qed.

Lemma ownedIn_meanwhile m m' : meanwhile m m' → ownedIn m' ≤ ownedIn m.
Proof.
  intros Hm. pose proof (ownedIn_le m m' ∅) as Hle. rewrite size_empty, Z.add_0_r in Hle. apply Hle.
  intros k rs' Hk Ho. right. specialize (Hm k). rewrite Hk in Hm.
  destruct (m !! k) as [rs|]; [|done]. exists rs. split; [done|]. by apply (isOwned_identity rs rs').
Qed.

Lemma ownedIn_created rs m m' : created rs m m' → ownedIn m' ≤ ownedIn m + 1.
Proof.
  intros (name & Hn & ->).
  pose proof (ownedIn_le m (<[MkNN (rs_Namespace rs) name:=named rs name]> m) {[ MkNN (rs_Namespace rs) name ]})
    as Hle. rewrite size_singleton in Hle. apply Hle. intros k rs' Hk Ho.
  destruct (decide (k = MkNN (rs_Namespace rs) name)) as [->|Hne]; [left; set_solver|].
  rewrite lookup_insert_ne in Hk by done. right. by exists rs'.
Qed.

Lemma ownedIn_deleted k m m' : deleted k m m' → ownedIn m' ≤ ownedIn m.
Proof.
  intros Hd. pose proof (ownedIn_le m m' ∅) as Hle. rewrite size_empty, Z.add_0_r in Hle. apply Hle.
  intros k' rs' Hk Ho. right. destruct Hd as [->|(t & ->)].
  - apply lookup_delete_Some in Hk as [_ Hk]. by exists rs'.
  - destruct (decide (k = k')) as [->|Hne]; [|rewrite lookup_alter_ne in Hk by done; by exists rs'].
    rewrite lookup_alter_eq in Hk. destruct (m !! k') as [rs|]; [|done]. injection Hk as <-. by exists rs.
Qed.

(** What the listing of a pass shows. *)
Record listedAt (w1 : W) (all : list RoleSet) : Prop := MkListed {
  listed_nodup : NoDup (keyOf <$> all);
  listed_iff rs : rs ∈ all ↔ stored w1 !! keyOf rs = Some rs ∧ isOwned rs;
}.

Lemma getRoleSetList_holds w (Q : result stormError (list RoleSet) → W → Prop) :
  (∀ w1, meanwhile (stored w) (stored w1) → (∀ e, Q (Err e) w1) ∧ ∀ all, listedAt w1 all → Q (Ok all) w1) →
  holds (fun w1 => meanwhile (stored w) (stored w1)) (getRoleSetList s) w Q.
Proof.
  intros HQ. unfold getRoleSetList. apply holds_bind.
  pose proof (ListRoleSets_law (ss_Namespace s) (ss_Name s) w) as Hl.
  apply holds_call; destruct Hl as [Hm Hl]; [done|]. apply holds_ret.
  destruct (ListRoleSets (ss_Namespace s) (ss_Name s) w) as [w1 [items|e]]; simpl in *; [|by apply HQ].
  destruct (Hl items eq_refl) as [Hnd Hiff]. apply HQ; [done|]. split.
  - eapply sublist_NoDup; [exact Hnd|]. apply fmap_sublist, sublist_filter_list.
  - intros rs. rewrite elem_of_list_filter_bool. unfold isOwned. rewrite Hiff, bool_decide_eq_true. tauto.
Qed.

Lemma listed_length w1 all : listedAt w1 all → Z.of_nat (length all) = ownedBy w1.
Proof.
  intros [Hnd Hiff]. unfold ownedBy, ownedIn. f_equal. rewrite <- size_dom.
  rewrite <- (length_fmap keyOf all), <- (size_list_to_set (C := gset NamespacedName)) by done.
  f_equal. apply set_eq. intros k. rewrite elem_of_list_to_set, list_elem_of_fmap, elem_of_dom. split.
  - intros (rs & -> & [Hk Ho]%Hiff). exists rs. by apply map_lookup_filter_Some.
  - intros [rs Hrs]. apply map_lookup_filter_Some in Hrs as [Hk Ho]. exists rs.
    pose proof (stored_key _ _ _ Hk) as Hkey. split; [done|]. apply Hiff. by rewrite Hkey.
Qed.

Lemma create_surge B s' count rev rr w :
  ownedBy w + Z.max 0 count ≤ B →
  holds (fun w' => ownedBy w' ≤ B) (createRoleSet s' count rev rr) w (fun _ w' => ownedBy w' ≤ B).
Proof.
  intros Hb. eapply holds_mono;
    [apply (createRoleSet_holds (fun w' => ownedBy w' ≤ B) (fun k w' => ownedBy w' ≤ B - Z.max 0 count + k)); [|lia]
    |done|].
  -    intros k rs w1 Hk HP. destruct (CreateRoleSet_law rs w1) as (m & Hm%ownedIn_meanwhile & Hc).
    unfold ownedBy in *.
    assert (ownedIn (stored (CreateRoleSet rs w1).1) ≤ ownedIn m + 1) by
      (destruct Hc as [->|?%ownedIn_created]; lia). lia.
  - simpl. intros _ w' (k & Hk & HP). lia.
Qed.

Lemma delete_surge B l w :
  ownedBy w ≤ B → holds (fun w' => ownedBy w' ≤ B) (deleteRoleSet l) w (fun _ w' => ownedBy w' ≤ B).
Proof.
  intros Hb. eapply holds_mono;
    [apply (deleteRoleSet_holds (fun w' => ownedBy w' ≤ B) (fun _ w' => ownedBy w' ≤ B)); [|done]|done|].
  -    intros k rs w1 _ _ HP. destruct (DeleteRoleSet_law rs w1) as (m & Hm%ownedIn_meanwhile & Hc).
    unfold ownedBy in *.
    assert (ownedIn (stored (DeleteRoleSet rs w1).1) ≤ ownedIn m) by
      (destruct Hc as [->|?%ownedIn_deleted]; lia). lia.
  - simpl. by intros _ w' (k & _ & HP).
Qed.

Lemma rolling_effective : IsRollingUpdate s = true → EffectiveUpdateStrategyType s = Ok RollingUpdateStrategy.
Proof.
  unfold IsRollingUpdate. destruct (EffectiveUpdateStrategyType s) as [t|]; [|done].
  by intros ->%bool_decide_eq_true.
Qed.

(** A rolling service whose figures are int32 with room to add them. *)
Record rollsInRange : Prop := MkRolls {
  rolls_rolling : IsRollingUpdate s = true;
  rolls_replicas : 0 ≤ ResolvedReplicas s;
  rolls_surge : 0 ≤ MaxSurge s;
  rolls_sum : ResolvedReplicas s + MaxSurge s < 2 ^ 31;
}.

Context (current : StormService) (currentCR updateCR : ControllerRevision).

(** Nothing is paused half way between two revisions. *)
Definition oneGoal : Prop := s.(ss_Paused) = false ∨ cr_Name currentCR = cr_Name updateCR.

Lemma oneGoal_branch : oneGoal →
  bool_decide (cr_Name currentCR = cr_Name updateCR) || negb (ss_Paused s) = true.
Proof. intros [->| ->]; [apply orb_true_r|]. by rewrite bool_decide_eq_true_2. Qed.

Lemma listing_surge B w {A} (f : result stormError (list RoleSet) → Run W A) Q :
  ownedBy w ≤ B →
  (∀ w1 e, ownedBy w1 ≤ B → ownedBy w1 ≤ ownedBy w → holds (fun w' => ownedBy w' ≤ B) (f (Err e)) w1 Q) →
  (∀ w1 all, ownedBy w1 ≤ B → ownedBy w1 ≤ ownedBy w → Z.of_nat (length all) = ownedBy w1 →
     holds (fun w' => ownedBy w' ≤ B) (f (Ok all)) w1 Q) →
  holds (fun w' => ownedBy w' ≤ B) (getRoleSetList s ≫= f) w Q.
Proof.
  intros Hb He Ha. apply holds_bind. eapply holds_mono;
    [apply (getRoleSetList_holds w (fun r w1 => holds (fun w' => ownedBy w' ≤ B) (f r) w1 Q))| |done].
  - intros w1 Hm%ownedIn_meanwhile. fold (ownedBy w1) (ownedBy w) in Hm. split.
    + intros e. apply He; lia.
    + intros all Hl%listed_length. apply Ha; lia.
  - simpl. intros w1 Hm%ownedIn_meanwhile. fold (ownedBy w1) (ownedBy w) in Hm. lia.
Qed.

Lemma scaling_surge B w :
  rollsInRange → oneGoal → ownedBy w < 2 ^ 31 → ownedBy w ≤ B → ResolvedReplicas s + MaxSurge s ≤ B →
  holds (fun w' => ownedBy w' ≤ B) (scaling s current currentCR updateCR) w (fun _ w' => ownedBy w' ≤ B).
Proof.
  intros [Hr HE HS Hsum] Hg Hw Hb HB. unfold scaling.
  apply listing_surge; [done|intros w1 e ? _; by apply holds_ret|]. intros w1 all Hb1 Hle Hlen.
  set (active := (filterTerminatingRoleSets all).1).
  destruct (_ <? 0) eqn:E0; [|destruct (0 <? _)]; [..|by apply holds_ret].
  - unfold scaleOut. rewrite (oneGoal_branch Hg). apply holds_bind. eapply holds_mono;
      [apply (create_surge B)|done|intros r w' Hr'; by apply holds_ret].
    rewrite Hlen. rewrite (wrap32_id (ownedBy w1)) by (unfold in_int32, ownedBy, ownedIn in *; lia).
    rewrite wrap32_id by (unfold in_int32, ownedBy, ownedIn in *; lia). lia.
  - unfold scaleIn. rewrite (oneGoal_branch Hg). apply holds_bind. eapply holds_mono;
      [apply (delete_surge B); lia|done|intros r w' Hr'; by apply holds_ret].
Qed.

Lemma rollout_surge B w :
  rollsInRange → ownedBy w ≤ B → ResolvedReplicas s + MaxSurge s ≤ B →
  holds (fun w' => ownedBy w' ≤ B) (rollout s current currentCR updateCR) w (fun _ w' => ownedBy w' ≤ B).
Proof.
  intros [Hr HE HS Hsum] Hb HB. unfold rollout.
  apply listing_surge; [done|intros w1 e ? _; by apply holds_ret|]. intros w1 all Hb1 Hle Hlen.
  destruct (_ =? _); [by apply holds_ret|]. rewrite (rolling_effective Hr), bool_decide_eq_false_2 by done.
  unfold rollingUpdate. destruct (filterRoleSetByRevision _ _) as [updated outdated].
  apply holds_bind. eapply holds_mono; [apply (delete_surge (Z.min B (ownedBy w1)))| |]; [lia|simpl; lia|].
  intros r w2 Hw2. simpl in Hw2. destruct r.2; [apply holds_ret; lia|].
  apply holds_bind. eapply holds_mono; [apply (create_surge B)|done|intros c w' Hc'; by apply holds_ret].
  rewrite Hlen. destruct (_ <? 0); lia.
Qed.
End Surge.


(** ** The ready RoleSets that are kept. *)

Section Available.
Context `{HK : K8s} `{HX : K8sApps} {HXL : K8sAppsLaws} {HC : StormCodec} {W : Type} {HA : StormApi W} {HL : StormLaws}.
Context (s : StormService).

(** A RoleSet that is there and not being deleted. *)
Definition alive (m : gmap NamespacedName RoleSet) (k : NamespacedName) : bool :=
  match m !! k with Some rs => negb (isTerminating rs) | None => false end.

Definition isActive (rs : RoleSet) : bool := negb (isTerminating rs).

(** The RoleSets that a listing shows ready and active, and those of them that
    are still there. *)
Definition readyListed (all : list RoleSet) : Z := readyCount (List.filter isActive all).
Definition readyKept (all : list RoleSet) (w : W) : Z :=
  readyCount (List.filter (fun rs => isActive rs && alive (stored w) (keyOf rs)) all).

Lemma alive_meanwhile m m' k : meanwhile m m' → alive m k = true → alive m' k = true.
Proof.
  intros Hm. specialize (Hm k). unfold alive. destruct (m !! k) as [rs|], (m' !! k) as [rs'|]; try done.
  - destruct Hm as (_ & _ & _ & Hd). unfold isTerminating. by rewrite Hd.
  - by rewrite Hm.
Qed.

Lemma alive_created rs m m' k : created rs m m' → alive m k = true → alive m' k = true.
Proof.
  intros (name & Hn & ->) Hk. unfold alive in *. rewrite lookup_insert_ne; [done|]. intros Heq. by rewrite <- Heq, Hn in Hk.
Qed.

Lemma alive_deleted k' m m' k : deleted k' m m' → k ≠ k' → alive m k = true → alive m' k = true.
Proof.
  intros [->|(t & ->)] Hne; unfold alive.
  - by rewrite lookup_delete_ne.
  - by rewrite lookup_alter_ne.
Qed.

(** The RoleSets of [rest] are all there. *)
Definition allAlive (rest : list RoleSet) (w : W) : Prop := ∀ rs, rs ∈ rest → alive (stored w) (keyOf rs) = true.

Lemma create_keeps rest s' count rev rr w :
  allAlive rest w → holds (allAlive rest) (createRoleSet s' count rev rr) w (fun _ => allAlive rest).
Proof.
  intros Ha. eapply holds_mono;
    [apply (createRoleSet_holds (allAlive rest) (fun _ => allAlive rest)); [|done]|done|by intros _ w' (k & _ & HP)].
  intros k rs w1 _ HP. destruct (CreateRoleSet_law rs w1) as (m & Hm & Hc).
  assert (allAlive rest (CreateRoleSet rs w1).1); [|done]. intros x Hx.
  pose proof (alive_meanwhile _ _ _ Hm (HP x Hx)). destruct Hc as [->|Hc]; [done|]. by eapply alive_created.
Qed.

Lemma delete_keeps D rest w :
  NoDup (keyOf <$> (D ++ rest)) →
  allAlive rest w → holds (allAlive rest) (deleteRoleSet D) w (fun _ => allAlive rest).
Proof.
  intros Hnd Ha. eapply holds_mono;
    [apply (deleteRoleSet_holds (allAlive rest) (fun _ => allAlive rest)); [|done]|done|by intros _ w' (k & _ & HP)].
  intros k rs w1 Hrs _ HP. destruct (DeleteRoleSet_law rs w1) as (m & Hm & Hc).
  assert (allAlive rest (DeleteRoleSet rs w1).1); [|done]. intros x Hx.
  pose proof (alive_meanwhile _ _ _ Hm (HP x Hx)). destruct Hc as [->|Hc]; [done|].
  eapply alive_deleted; [done| |done]. intros Heq. rewrite fmap_app in Hnd.
  apply NoDup_app in Hnd as (_ & Hd & _). apply (Hd (keyOf rs)).
  - apply list_elem_of_fmap. exists rs. split; [done|]. by eapply list_elem_of_lookup_2.
  - apply list_elem_of_fmap. by exists x.
Qed.

(** What is left when [D] of the active RoleSets are deleted. *)
Lemma readyKept_rest all D rest w :
  D ++ rest ≡ₚ List.filter isActive all → allAlive rest w →
  readyListed all - readyCount D ≤ readyKept all w.
Proof.
  intros Hp Ha. unfold readyListed, readyKept. rewrite <- (readyCount_perm _ _ Hp), readyCount_app.
  assert (List.filter (fun rs => isActive rs && alive (stored w) (keyOf rs)) all =
          List.filter (fun rs => alive (stored w) (keyOf rs)) (List.filter isActive all)) as ->.
  { clear. induction all as [|x l IH]; simpl; [done|].
    destruct (isActive x); simpl; [|done]. destruct (alive _ _); by rewrite IH. }
  assert (List.filter (fun rs => alive (stored w) (keyOf rs)) (D ++ rest) ≡ₚ
          List.filter (fun rs => alive (stored w) (keyOf rs)) (List.filter isActive all)) as Hp2
    by (clear -Hp; induction Hp; simpl; repeat case_match; eauto using Permutation).
  rewrite <- (readyCount_perm _ _ Hp2), List.filter_app, readyCount_app.
  assert (List.filter (fun rs => alive (stored w) (keyOf rs)) rest = rest) as ->.
  { clear -Ha. induction rest as [|x l IH]; simpl; [done|]. rewrite Ha by set_solver. f_equal.
    apply IH. intros y Hy. apply Ha. set_solver. }
  pose proof (readyCount_bounds (List.filter (fun rs => alive (stored w) (keyOf rs)) D)). lia.
Qed.

Lemma listed_alive w1 all rest D :
  listedAt s w1 all → D ++ rest ≡ₚ List.filter isActive all →
  allAlive rest w1 ∧ NoDup (keyOf <$> (D ++ rest)).
Proof.
  intros [Hnd Hiff] Hp. split.
  - intros rs Hrs. assert (rs ∈ List.filter isActive all) as Hin by (rewrite <- Hp; set_solver).
    apply elem_of_list_filter_bool in Hin as [Hact [Hst _]%Hiff]. unfold alive. by rewrite Hst.
  - rewrite Hp. eapply sublist_NoDup; [exact Hnd|]. apply fmap_sublist, sublist_filter_list.
Qed.

Lemma getRoleSetList_run w all :
  value (getRoleSetList s) w = Ok all →
  ∃ w1, getRoleSetList s w = ([w1], w1, Ok all) ∧ listedAt s w1 all.
Proof.
  pose proof (getRoleSetList_holds s w (fun r w1 => ∀ all, r = Ok all → listedAt s w1 all)) as [_ Hh].
  { intros w1 _. split; [done|]. intros all' Hl ? [= <-]. done. }
  intros Hv. specialize (Hh all). unfold value, final in *. unfold getRoleSetList, mbind, run_bind, call in *.
  destruct (ListRoleSets (ss_Namespace s) (ss_Name s) w) as [w1 [items|e]]; simpl in *; [|done].
  exists w1. split; [by rewrite Hv|]. by apply Hh.
Qed.

(** Every moment of a step that lists first, and then deletes [D] at most. *)
Lemma listing_keeps w all {A} (f : result stormError (list RoleSet) → Run W A) D rest Q floor :
  value (getRoleSetList s) w = Ok all →
  D ++ rest ≡ₚ List.filter isActive all → floor ≤ readyListed all - readyCount D →
  (∀ w1, allAlive rest w1 → NoDup (keyOf <$> (D ++ rest)) → holds (allAlive rest) (f (Ok all)) w1 Q) →
  ∀ w', w' ∈ visited (getRoleSetList s ≫= f) w → floor ≤ readyKept all w'.
Proof.
  intros (w1 & Hrun & Hl)%getRoleSetList_run Hp Hfl Hf w'.
  destruct (listed_alive w1 all rest D Hl Hp) as [Ha Hnd]. destruct (Hf w1 Ha Hnd) as [HF _].
  assert (visited (getRoleSetList s ≫= f) w = w1 :: visited (f (Ok all)) w1) as ->.
  { unfold visited, mbind, run_bind. rewrite Hrun. by destruct (f (Ok all) w1) as [[t w2] b]. }
  intros Hw'. assert (allAlive rest w') as Ha'.
  { apply elem_of_cons in Hw' as [->|Hw']; [done|]. rewrite Forall_forall in HF. by apply HF. }
  pose proof (readyKept_rest all D rest w' Hp Ha'). lia.
Qed.

Lemma readyCount_none l : (∀ rs, rs ∈ l → IsRoleSetReady rs = false) → readyCount l = 0.
Proof.
  intros Hl. unfold readyCount. induction l as [|x l IH]; simpl; [done|]. rewrite Hl by set_solver.
  apply IH. intros. apply Hl. set_solver.
Qed.

Lemma readyCount_all l : (∀ rs, rs ∈ l → IsRoleSetReady rs = true) → readyCount l = Z.of_nat (length l).
Proof.
  intros Hl. unfold readyCount. induction l as [|x l IH]; simpl; [done|]. rewrite Hl by set_solver. simpl.
  assert (Z.of_nat (length (List.filter IsRoleSetReady l)) = Z.of_nat (length l)); [|lia].
  apply IH. intros. apply Hl. set_solver.
Qed.

Lemma sliceTo_some {A} (l t : list A) k :
  sliceTo l k = Some t → ∃ r, l = t ++ r ∧ Z.of_nat (length t) = k.
Proof.
  unfold sliceTo. destruct (_ && _) eqn:E; [|done]. breflect. intros [= <-].
  exists (drop (Z.to_nat k) l). rewrite take_drop, length_take. split; [done|lia].
Qed.

(** What a paused service gives up. *)
Lemma givenUpPaused_spec E diff rev active b D :
  0 ≤ E < 2 ^ 31 → Z.of_nat (length active) < 2 ^ 31 → Z.of_nat (length active) * E < 2 ^ 31 →
  diff = Z.of_nat (length active) - E → 0 < diff →
  givenUpPaused E diff rev active = Ok (b, D) →
  ∃ rest, D ++ rest ≡ₚ active ∧ readyCount D ≤ Z.max 0 (readyCount active - E).
Proof.
  intros HE Hlen Hprod -> Hd. unfold givenUpPaused.
  pose proof (split_perm IsRoleSetReady active) as Hsp. unfold filterReadyRoleSets.
  set (ready := (split IsRoleSetReady active).1) in *. set (notReady := (split IsRoleSetReady active).2) in *.
  replace (split IsRoleSetReady active) with (ready, notReady) by (by destruct (split _ _)).
  assert (∀ rs, rs ∈ notReady → IsRoleSetReady rs = false) as Hnr.
  { intros rs [Hrs _]%elem_of_list_filter_bool. by apply negb_true_iff. }
  assert (∀ rs, rs ∈ ready → IsRoleSetReady rs = true) as Hrd.
  { intros rs [Hrs _]%elem_of_list_filter_bool. done. }
  assert (readyCount active = Z.of_nat (length ready)) as Hra.
  { rewrite <- (readyCount_perm _ _ Hsp), readyCount_app, (readyCount_none notReady), (readyCount_all ready); [lia|done..]. }
  assert (Z.of_nat (length active) = Z.of_nat (length ready) + Z.of_nat (length notReady)) as Hla.
  { rewrite <- Hsp, length_app. lia. }
  destruct (Z.leb_spec (Z.of_nat (length active) - E) (Z.of_nat (length notReady))).
  - destruct (sliceTo notReady _) as [t|] eqn:Et; [|done]. intros [= <- <-].
    apply sliceTo_some in Et as (r & Hr & Hlt). exists (r ++ ready). split.
    + rewrite app_assoc, <- Hr, Permutation_app_comm. done.
    + rewrite readyCount_none; [lia|]. intros rs Hrs. apply Hnr. rewrite Hr. set_solver.
  - pose proof (split_perm (fun rs => isRoleSetMatchRevision rs rev) ready) as Hrp.
    unfold filterRoleSetByRevision. set (upd := (split _ ready).1) in *. set (cur := (split _ ready).2) in *.
    replace (split (fun rs => isRoleSetMatchRevision rs rev) ready) with (upd, cur) by done.
    assert (Z.of_nat (length ready) = Z.of_nat (length cur) + Z.of_nat (length upd)) as Hlr.
    { rewrite <- Hrp, length_app. lia. }
    rewrite !wrap32_id by (unfold in_int32; lia).
    pose proof (calculateReplicas_spec E (Z.of_nat (length cur)) (Z.of_nat (length upd))) as Hc.
    destruct (calculateReplicas _ _ _) as [ec eu]. destruct Hc as (Hsum & Hec & Heu); [nia..|].
    destruct (sliceTo cur _) as [tc|] eqn:Etc; [|done]. destruct (sliceTo upd _) as [tu|] eqn:Etu; [|done].
    intros [= <- <-]. apply sliceTo_some in Etc as (rc & Hrc & Hlc), Etu as (ru & Hru & Hlu).
    exists (rc ++ ru). split.
    + rewrite <- Hsp, <- Hrp, Hrc, Hru. solve_Permutation.
    + rewrite readyCount_app, readyCount_app, (readyCount_none notReady) by done.
      pose proof (readyCount_bounds tc). pose proof (readyCount_bounds tu). lia.
Qed.

Lemma MinAvailable_le : 0 ≤ ResolvedReplicas s < 2 ^ 31 → 0 ≤ MaxUnavailable s → MinAvailable s ≤ ResolvedReplicas s.
Proof.
  intros HE HU. unfold MinAvailable. destruct (IsRollingUpdate s) eqn:Er; cbn [negb]; [|lia].
  assert (MaxUnavailable s ≤ ResolvedReplicas s).
  { unfold MaxUnavailable in *. destruct (_ || _); [lia|]. destruct (Z.ltb_spec (ResolvedReplicas s) (fenceposts s).2); lia. }
  rewrite wrap32_id; [lia|]. unfold in_int32. lia.
Qed.

Context (current : StormService) (currentCR updateCR : ControllerRevision).

(** The figures of a listing are int32, and so is their product with the
    replicas asked for. *)
Record listingInRange (all : list RoleSet) : Prop := MkInRange {
  range_replicas : 0 ≤ ResolvedReplicas s < 2 ^ 31;
  range_unavailable : 0 ≤ MaxUnavailable s;
  range_length : Z.of_nat (length all) < 2 ^ 31;
  range_product : Z.of_nat (length all) * ResolvedReplicas s < 2 ^ 31;
}.

Lemma scaleOut_keeps rest all active diff w :
  allAlive rest w →
  holds (allAlive rest) (scaleOut s current currentCR updateCR all active diff) w (fun _ _ => True).
Proof.
  intros Ha. unfold scaleOut. destruct (_ || _).
  - apply holds_bind. eapply holds_mono; [by apply create_keeps|done|]. intros r w2 _. by apply holds_ret.
  - destruct (filterRoleSetByRevision _ _), (calculateReplicas _ _ _).
    apply holds_bind. eapply holds_mono; [by apply create_keeps|done|].
    intros [n [e|]] w2 Ha2; [by apply holds_ret|].
    apply holds_bind. eapply holds_mono; [by apply create_keeps|done|]. intros r w3 _. by apply holds_ret.
Qed.

(** What [scaleIn] deletes at most. *)
Lemma scaleIn_keeps active :
  let diff := Z.of_nat (length active) - ResolvedReplicas s in
  listingInRange active → 0 < diff →
  ∃ D rest, D ++ rest ≡ₚ active ∧ readyCount D ≤ Z.max 0 (readyCount active - MinAvailable s) ∧
    ∀ w1, allAlive rest w1 → NoDup (keyOf <$> (D ++ rest)) →
      holds (allAlive rest) (scaleIn s currentCR updateCR active diff) w1 (fun _ _ => True).
Proof.
  intros diff [HE HU Hlen Hprod] Hd. pose proof (MinAvailable_le HE HU) as Hmin. unfold scaleIn.
  destruct (_ || _).
  - set (sorted := sortRoleSetByRevision active (cr_Name updateCR)). fold (readyCount active).
    destruct (givenUp_spec (MinAvailable s) diff (readyCount active) sorted) as ([rest Hrest] & Hr & _).
    set (D := givenUp _ _ _ _) in *. exists D, rest. split; [rewrite <- Hrest; apply sortBy_perm|].
    split; [done|]. intros w1 Ha Hnd. change (Z.of_nat (length (filterReadyRoleSets active).1)) with (readyCount active).
    fold sorted. fold D. apply holds_bind. eapply holds_mono; [by apply delete_keeps|done|].
    intros r w2 _. by apply holds_ret.
  - destruct (givenUpPaused _ _ _ _) as [[b D]|e] eqn:Eg.
    + destruct (givenUpPaused_spec _ _ _ _ _ _ HE Hlen Hprod eq_refl Hd Eg) as (rest & Hp & Hr).
      exists D, rest. split; [done|]. split; [lia|]. intros w1 Ha Hnd.
      apply holds_bind. eapply holds_mono; [by apply delete_keeps|done|]. intros r w2 _. by apply holds_ret.
    + exists [], active. split; [done|]. split; [unfold readyCount; simpl; lia|]. intros. by apply holds_ret.
Qed.

Lemma active_inRange all : listingInRange all → listingInRange (List.filter isActive all).
Proof.
  intros [HE HU Hlen Hprod]. pose proof (List.filter_length_le isActive all).
  split; [done..|lia|]. assert (Z.of_nat (length (List.filter isActive all)) * ResolvedReplicas s ≤
    Z.of_nat (length all) * ResolvedReplicas s) by (apply Z.mul_le_mono_nonneg_r; lia). lia.
Qed.

Lemma scaling_keeps w w' all :
  listingInRange all → value (getRoleSetList s) w = Ok all →
  w' ∈ visited (scaling s current currentCR updateCR) w →
  Z.min (MinAvailable s) (readyListed all) ≤ readyKept all w'.
Proof.
  intros Hin%active_inRange Hv. remember (List.filter isActive all) as active eqn:Ea.
  assert ((filterTerminatingRoleSets all).1 = active) as Hft by (by rewrite Ea).
  pose proof (readyCount_bounds active) as Hrb.
  destruct (Z.ltb_spec 0 (Z.of_nat (length active) - ResolvedReplicas s)) as [Hd|Hd].
  - destruct (scaleIn_keeps active Hin Hd) as (D & rest & Hp & Hr & Hh).
    eapply (listing_keeps w all _ D rest); [done|by rewrite <- Ea| |].
    + unfold readyListed. rewrite <- Ea. lia.
    + intros w1 Ha Hnd. cbv beta iota zeta. rewrite Hft, (proj2 (Z.ltb_ge _ 0)), (proj2 (Z.ltb_lt 0 _)) by lia. by apply Hh.
  - eapply (listing_keeps w all _ [] active); [done|by rewrite <- Ea| |].
    + unfold readyListed, readyCount in *. rewrite <- Ea. simpl. lia.
    + intros w1 Ha Hnd. cbv beta iota zeta. rewrite Hft, (proj2 (Z.ltb_ge 0 _)) by lia.
      destruct (_ <? 0); [by apply scaleOut_keeps|by apply holds_ret].
Qed.

Lemma rollout_keeps w w' all :
  IsRollingUpdate s = true → value (getRoleSetList s) w = Ok all →
  w' ∈ visited (rollout s current currentCR updateCR) w →
  Z.min (MinAvailable s) (readyListed all) ≤ readyKept all w'.
Proof.
  intros Hroll Hv. remember (List.filter isActive all) as active eqn:Ea.
  pose proof (split_perm (fun rs => isRoleSetMatchRevision rs (cr_Name updateCR)) active) as Hsp.
  set (updated := (split _ active).1) in *. set (outdated := (split _ active).2) in *.
  set (sorted := sortRoleSetByRevision outdated (cr_Name updateCR)).
  destruct (outdatedToDelete_spec (MinAvailable s) (readyCount active) sorted) as ([rest Hrest] & Hr).
  set (D := outdatedToDelete _ _ _) in *.
  eapply (listing_keeps w all _ D (rest ++ updated) (fun _ _ => True)); [done| | |].
  - rewrite <- Ea, <- Hsp, app_assoc, <- Hrest. transitivity (updated ++ sorted); [apply Permutation_app_comm|].
    apply Permutation_app_head, sortBy_perm.
  - unfold readyListed. rewrite <- Ea. pose proof (readyCount_bounds active). lia.
  - intros w1 Ha Hnd. cbv beta iota zeta. destruct (_ =? _); [by apply holds_ret|].
    rewrite (rolling_effective s Hroll), bool_decide_eq_false_2 by done. unfold rollingUpdate.
    replace ((filterTerminatingRoleSets all).1) with active by (by rewrite Ea).
    change (filterRoleSetByRevision active (cr_Name updateCR)) with (updated, outdated).
    change (Z.of_nat (length (filterReadyRoleSets active).1)) with (readyCount active).
    apply holds_bind. eapply holds_mono; [by apply (delete_keeps D (rest ++ updated))|done|].
    intros r w2 Ha2. simpl in Ha2. destruct r.2; [by apply holds_ret|].
    apply holds_bind. eapply holds_mono; [apply (create_keeps (rest ++ updated)); exact Ha2|done|].
    intros c w3 _. by apply holds_ret.
Qed.
End Available.

(** C13: availability.  Of the RoleSets a pass finds ready, it leaves at every
    moment as many as the service has to keep available, or all of them when
    there are fewer: deletions that fail, are lost or take effect in spite of
    an error do not change that, nor does a paused service with two revisions.
    This holds for the step that scales and for the step that rolls out. *)
Theorem pass_keeps_available `{StormLaws W} `{!K8sAppsLaws} s current currentCR updateCR w w' all :
  IsRollingUpdate s = true → listingInRange s all →
  value (getRoleSetList s) w = Ok all →
  w' ∈ visited (scaling s current currentCR updateCR) w ∨ w' ∈ visited (rollout s current currentCR updateCR) w →
  Z.min (MinAvailable s) (readyListed all) ≤ readyKept all w'.
Proof. intros Hroll Hin Hv [Hw|Hw]; [by eapply scaling_keeps|by eapply rollout_keeps]. Qed.
