(* ===== verification/StormRollout.v ===== *)
(** * A rollout ends.

    On an API server that does what it is told ([StormExact]), with RoleSets
    that become ready and deletions that finish between two passes, the passes
    over a rolling service bring it to its replicas, all of the new revision,
    and keep it there. *)

From S2P Require Import Prelude Api Claims Ledger KVPlan Placement Reservations Runtime Storm StormSync StormFacts.

(** ** Batches whose calls succeed. *)

Section BatchOk.
Context `{K8sAppsLaws} {W E : Type} (fn : Z → Run W (result E unit)) (P : Z → W → Prop) (count : Z).
Context (Hfn : ∀ k w, 0 ≤ k < count → P k w → value (fn k) w = Ok () ∧ P (k + 1) (final (fn k) w)).

Lemma runBatch_ok n first w :
  0 ≤ first → first + Z.of_nat n ≤ count → P first w →
  value (runBatch fn first n) w = [] ∧ P (first + Z.of_nat n) (final (runBatch fn first n) w).
Proof.
  revert first w. induction n as [|n IH]; intros first w Hf Hn HP.
  - rewrite Z.add_0_r. done.
  - destruct (Hfn first w) as [Hv Hp]; [lia|done|].
    destruct (IH (first + 1) (final (fn first) w)) as [Hv2 Hp2]; [lia|lia|done|].
    unfold value, final in *. cbn [runBatch]. unfold mbind, run_bind.
    destruct (fn first w) as [[t1 w1] r]. simpl in *.
    destruct (runBatch fn (first + 1) n w1) as [[t2 w2] errs]. simpl in *. subst.
    split; [done|]. by replace (first + Z.of_nat (S n)) with (first + 1 + Z.of_nat n) by lia.
Qed.

Lemma slowStart_ok fuel batchSize finished w :
  0 ≤ finished ≤ count → batchSize ≤ count - finished → (0 < count - finished → 0 < batchSize) →
  count - finished < Z.of_nat fuel → P finished w →
  let run := slowStart fuel fn (count - finished) batchSize finished finished in
  value run w = (count, None) ∧ P count (final run w).
Proof.
  revert batchSize finished w. induction fuel as [|fuel IH]; intros batchSize finished w Hf Hb Hpos Hfuel HP; [lia|].
  cbn [slowStart]. cbv zeta. destruct (Z.ltb_spec 0 batchSize) as [Hb0|Hb0]; cbn [negb].
  2:{ assert (finished = count) as -> by lia. done. }
  destruct (runBatch_ok (Z.to_nat batchSize) finished w) as [Hv Hp]; [lia|lia|exact HP|]. rewrite Z2Nat.id in Hp by lia.
  unfold value, final in Hv, Hp |- *. unfold mbind, run_bind.
  destruct (runBatch fn finished (Z.to_nat batchSize) w) as [[t1 w1] errs]. simpl in Hv, Hp. subst errs.
  cbn [length]. rewrite Z.sub_0_r. replace (count - finished - batchSize) with (count - (finished + batchSize)) by lia.
  rewrite IntMin_spec.
  destruct (IH (Z.min (2 * batchSize) (count - (finished + batchSize))) (finished + batchSize) w1)
    as [Hv2 Hp2]; try done; try lia.
  unfold value, final in Hv2, Hp2.
  destruct (slowStart fuel fn _ _ (finished + batchSize) (finished + batchSize) w1) as [[t2 w2] r]. done.
Qed.

Lemma SlowStartBatch_ok w :
  0 ≤ count → P 0 w →
  value (SlowStartBatch count SlowStartInitialBatchSize fn) w = (count, None) ∧
  P count (final (SlowStartBatch count SlowStartInitialBatchSize fn) w).
Proof.
  intros Hc HP. unfold SlowStartBatch, SlowStartInitialBatchSize.
  pose proof (slowStart_ok (S (Z.to_nat count)) (integer_IntMin count 1) 0 w) as Hs.
  rewrite Z.sub_0_r, IntMin_spec in Hs. rewrite IntMin_spec. apply Hs; try done; lia.
Qed.
End BatchOk.

(** ** The server. *)

Class StormExact `{StormLaws W} := {
  ListRoleSets_exact namespace name w :
    is_ok (ListRoleSets namespace name w).2 = true ∧
    stored (ListRoleSets namespace name w).1 = stored w;
  CreateRoleSet_exact rs w :
    (CreateRoleSet rs w).2 = Ok () ∧ created rs (stored w) (stored (CreateRoleSet rs w).1);
  DeleteRoleSet_exact rs w :
    is_Some (stored w !! keyOf rs) →
    (DeleteRoleSet rs w).2 = Ok () ∧ deleted (keyOf rs) (stored w) (stored (DeleteRoleSet rs w).1);
}.

(** ** The order in which RoleSets are given up. *)

Section Order.
Context `{HK : K8s} `{HX : K8sApps}.
Context (rev : string).

Definition isOutdated (rs : RoleSet) : bool := negb (isRoleSetMatchRevision rs rev).
Definition isUpdated (rs : RoleSet) : bool := isRoleSetMatchRevision rs rev.

Lemma rulesBefore_chain a b :
  rulesBefore [orderOldRevisionBeforeUpdated rev; orderNotReadyBeforeReady] a b =
  thenBy (byFlag isOutdated) (byFlag (fun rs => negb (IsRoleSetReady rs))) a b.
Proof.
  unfold rulesBefore, orderOldRevisionBeforeUpdated, orderNotReadyBeforeReady, thenBy, byFlag, isOutdated.
  by destruct (isRoleSetMatchRevision a rev), (isRoleSetMatchRevision b rev), (IsRoleSetReady a), (IsRoleSetReady b).
Qed.

#[export] Instance rulesBefore_weak :
  StrictWeak (rulesBefore [orderOldRevisionBeforeUpdated rev; orderNotReadyBeforeReady]).
Proof.
  split; intros *; rewrite !rulesBefore_chain; [apply less_asym|apply less_negtrans].
Qed.

(** Old revisions first. *)
Lemma sorted_old_first l :
  let sorted := sortRoleSetByRevision l rev in
  sorted = List.filter isOutdated sorted ++ List.filter isUpdated sorted.
Proof.
  intros sorted. pose proof (sortBy_sorted (rulesBefore [orderOldRevisionBeforeUpdated rev; orderNotReadyBeforeReady]) l) as Hs.
  change (sortBy _ l) with sorted in Hs. induction Hs as [|x k Hk IH Hx]; simpl; [done|].
  unfold isUpdated, isOutdated in *. destruct (isRoleSetMatchRevision x rev) eqn:Ex; simpl; [|by f_equal].
  assert (List.filter (fun rs => negb (isRoleSetMatchRevision rs rev)) k = []) as Hnil.
  { destruct (List.filter _ k) as [|y k'] eqn:Ey; [done|].
    assert (y ∈ List.filter (fun rs => negb (isRoleSetMatchRevision rs rev)) k) as Hy by (rewrite Ey; set_solver).
    apply elem_of_list_filter_bool in Hy as [Hu Hy]. rewrite Forall_forall in Hx. specialize (Hx y Hy).
    unfold notAfter in Hx. rewrite rulesBefore_chain in Hx. unfold thenBy, byFlag, isOutdated in Hx.
    rewrite Ex in Hx. apply negb_true_iff in Hu. rewrite Hu in Hx. done. }
  rewrite Hnil. rewrite Hnil in IH. simpl in *. by f_equal.
Qed.

Lemma givenUp_ready m d rc l :
  (∀ rs, rs ∈ l → IsRoleSetReady rs = true) → 0 ≤ d ≤ rc - m → givenUp m d rc l = take (Z.to_nat d) l.
Proof.
  revert d rc. induction l as [|rs l IH]; intros d rc Hr Hd; simpl; [by rewrite take_nil|].
  destruct (Z.eqb_spec d 0) as [->|]; [done|]. rewrite (Hr rs) by set_solver. simpl.
  rewrite (proj2 (Z.leb_gt rc m)) by lia. replace (Z.to_nat d) with (S (Z.to_nat (d - 1))) by lia.
  simpl. f_equal. apply IH; [set_solver|lia].
Qed.

Lemma outdatedToDelete_ready m rc l :
  (∀ rs, rs ∈ l → IsRoleSetReady rs = true) → outdatedToDelete m rc l = take (Z.to_nat (rc - m)) l.
Proof.
  revert rc. induction l as [|rs l IH]; intros rc Hr; simpl; [by rewrite take_nil|].
  rewrite (Hr rs) by set_solver. simpl. destruct (Z.leb_spec rc m).
  - by replace (Z.to_nat (rc - m)) with 0%nat by lia.
  - replace (Z.to_nat (rc - m)) with (S (Z.to_nat (rc - 1 - m))) by lia. simpl. f_equal. apply IH. set_solver.
Qed.
End Order.

(** ** Counting the RoleSets of each revision. *)

Section Counts.
Context `{HK : K8s} `{HX : K8sApps} {HXL : K8sAppsLaws} {HC : StormCodec} {W : Type} {HA : StormApi W} {HL : StormLaws}.
Context (s : StormService).
#[local] Existing Instance isOwned_dec.

(** How much a RoleSet counts. *)
Definition one (p : RoleSet → bool) (o : option RoleSet) : Z :=
  match o with Some rs => if bool_decide (isOwned s rs) && p rs then 1 else 0 | None => 0 end.

Definition countIn (p : RoleSet → bool) (m : gmap NamespacedName RoleSet) : Z :=
  Z.of_nat (size (filter (fun kv : NamespacedName * RoleSet => isOwned s kv.2 ∧ p kv.2 = true) m)).

Lemma countIn_split p m k : countIn p m = countIn p (delete k m) + one p (m !! k).
Proof.
  unfold countIn. destruct (m !! k) as [rs|] eqn:Ek; [|rewrite delete_id by done; simpl; lia].
  rewrite <- (insert_delete_id m k rs Ek) at 1. simpl.
  destruct (decide (isOwned s rs ∧ p rs = true)) as [[Ho Hp]|Hno].
  - rewrite map_filter_insert_True by done. rewrite map_size_insert_None.
    + rewrite bool_decide_eq_true_2, Hp by done. simpl. lia.
    + apply map_lookup_filter_None. left. apply lookup_delete_eq.
  - rewrite map_filter_insert_False by done. rewrite delete_delete_eq.
    assert (bool_decide (isOwned s rs) && p rs = false) as ->; [|lia].
    apply not_true_is_false. intros [Ho%bool_decide_eq_true Hp]%andb_true_iff. by apply Hno.
Qed.

(** Two maps that differ at one key. *)
Lemma countIn_change p m m' k :
  (∀ j, j ≠ k → m' !! j = m !! j) → countIn p m' = countIn p m - one p (m !! k) + one p (m' !! k).
Proof.
  intros Hj. rewrite (countIn_split p m k), (countIn_split p m' k).
  assert (delete k m' = delete k m) as ->; [|lia]. apply map_eq. intros j.
  destruct (decide (j = k)) as [->|Hne]; [by rewrite !lookup_delete_eq|].
  rewrite !lookup_delete_ne by done. by apply Hj.
Qed.

Lemma countIn_deleted p k rs m m' :
  (∀ x, p x = true → isActive x = true) → m !! k = Some rs → deleted k m m' →
  countIn p m' = countIn p m - one p (Some rs).
Proof.
  intros Hp Hk Hd. rewrite (countIn_change p m m' k), Hk.
  - assert (one p (m' !! k) = 0) as ->; [|lia]. destruct Hd as [->|(t & ->)].
    + by rewrite lookup_delete_eq.
    + rewrite lookup_alter_eq, Hk. simpl. destruct (p (deletedAt t rs)) eqn:Ep; [|by rewrite andb_false_r].
      apply Hp in Ep. done.
  - intros j Hne. destruct Hd as [->|(t & ->)]; [by rewrite lookup_delete_ne|by rewrite lookup_alter_ne].
Qed.

Lemma countIn_created p rs m m' : created rs m m' →
  ∃ name, countIn p m' = countIn p m + one p (Some (named rs name)).
Proof.
  intros (name & Hn & ->). exists name.
  rewrite (countIn_change p m _ (MkNN (rs_Namespace rs) name)), Hn, lookup_insert_eq; [simpl; lia|].
  intros j Hne. by rewrite lookup_insert_ne.
Qed.

(** What a listing shows is what is stored. *)
Lemma countIn_listed p w1 all :
  listedAt s w1 all → Z.of_nat (length (List.filter p all)) = countIn p (stored w1).
Proof.
  intros [Hnd Hiff]. unfold countIn. f_equal. rewrite <- size_dom.
  rewrite <- (length_fmap keyOf (List.filter p all)), <- (size_list_to_set (C := gset NamespacedName)).
  2:{ eapply sublist_NoDup; [exact Hnd|]. apply fmap_sublist, sublist_filter_list. }
  f_equal. apply set_eq. intros k. rewrite elem_of_list_to_set, list_elem_of_fmap, elem_of_dom. split.
  - intros (rs & -> & [Hp [Hk Ho]%Hiff]%elem_of_list_filter_bool). exists rs. by apply map_lookup_filter_Some.
  - intros [rs Hrs]. apply map_lookup_filter_Some in Hrs as [Hk [Ho Hp]]. exists rs.
    pose proof (stored_key _ _ _ Hk) as Hkey. split; [done|]. apply elem_of_list_filter_bool.
    split; [done|]. apply Hiff. by rewrite Hkey.
Qed.

(** ** The operations, on a server that does what it is told. *)

Context {HE : StormExact}.

Definition countsOf (p : RoleSet → bool) (l : list RoleSet) : Z := Z.of_nat (length (List.filter p l)).

Lemma countsOf_app p l k : countsOf p (l ++ k) = countsOf p l + countsOf p k.
Proof. unfold countsOf. rewrite filter_length_app. lia. Qed.

(** The counts after the first [k] of [D] were deleted. *)
Definition afterDeleting (D : list RoleSet) (w0 : W) (k : Z) (w : W) : Prop :=
  (∀ rs, rs ∈ drop (Z.to_nat k) D → stored w !! keyOf rs = Some rs) ∧
  ∀ p, (∀ x, p x = true → isActive x = true) →
    countIn p (stored w) = countIn p (stored w0) - countsOf p (take (Z.to_nat k) D).

Lemma deleteRoleSet_exact D w :
  NoDup (keyOf <$> D) → (∀ rs, rs ∈ D → stored w !! keyOf rs = Some rs ∧ isOwned s rs) →
  value (deleteRoleSet D) w = (Z.of_nat (length D), None) ∧
  ∀ p, (∀ x, p x = true → isActive x = true) →
    countIn p (stored (final (deleteRoleSet D) w)) = countIn p (stored w) - countsOf p D.
Proof.
  intros Hnd HD. unfold deleteRoleSet.
  destruct (SlowStartBatch_ok (onIndex D deleteOne) (afterDeleting D w) (Z.of_nat (length D))) with (w := w)
    as [Hv [_ Hp]].
  - intros k w1 Hk [Hdrop Hc]. destruct (lookup_lt_is_Some_2 D (Z.to_nat k)) as [rs Hrs]; [lia|].
    unfold onIndex. rewrite Hrs. pose proof (drop_S D rs (Z.to_nat k) Hrs) as Hds.
    assert (stored w1 !! keyOf rs = Some rs) as Hst by (apply Hdrop; rewrite Hds; set_solver).
    destruct (DeleteRoleSet_exact rs w1) as [Hok Hd]; [by rewrite Hst|].
    unfold deleteOne, value, final, mbind, run_bind, call.
    destruct (DeleteRoleSet rs w1) as [w2 r]. simpl in *. subst r. split; [done|]. split.
    + replace (Z.to_nat (k + 1)) with (S (Z.to_nat k)) by lia. intros x Hx.
      assert (keyOf x ≠ keyOf rs) as Hne.
      { intros Heq. rewrite <- (take_drop (Z.to_nat k) D), Hds, fmap_app, fmap_cons in Hnd.
        apply NoDup_app in Hnd as (_ & _ & Hnd). apply NoDup_cons in Hnd as [Hnin _]. apply Hnin.
        rewrite <- Heq. apply list_elem_of_fmap. by exists x. }
      assert (stored w1 !! keyOf x = Some x) as Hx1 by (apply Hdrop; rewrite Hds; set_solver).
      destruct Hd as [->|(t & ->)]; [by rewrite lookup_delete_ne|by rewrite lookup_alter_ne].
    + intros p Hp. rewrite (countIn_deleted p (keyOf rs) rs (stored w1)), (Hc p Hp) by done.
      replace (Z.to_nat (k + 1)) with (S (Z.to_nat k)) by lia.
      rewrite (take_S_r D _ rs) by done. rewrite countsOf_app.
      assert (isOwned s rs) as Ho by (apply HD; by eapply list_elem_of_lookup_2).
      unfold countsOf at 3. simpl. rewrite bool_decide_eq_true_2 by done. simpl. destruct (p rs); simpl; lia.
  - lia.
  - split; [intros rs Hrs; by apply HD|]. intros p _. unfold countsOf. simpl. lia.
  - split; [done|]. intros p Hpa. rewrite Hp by done. rewrite take_ge by lia. done.
Qed.

Lemma renderAll_ok s' rev rr i n :
  is_Some (rt_Spec (ss_Template s')) → matchesSelector (ss_Selector s') (rt_Labels (ss_Template s')) = Some true →
  ∃ l, renderAll s' rev rr i n = Ok l ∧ length l = n ∧
    ∀ rs, rs ∈ l → ∃ j, renderRoleSet s' (Some j) rev rr = Ok rs.
Proof.
  intros [spec Hspec] Hsel. revert i. induction n as [|n IH]; intros i; simpl.
  - exists []. split; [done|]. split; [done|]. set_solver.
  - destruct (renderRoleSet s' (Some i) rev rr) as [rs|e] eqn:Er.
    + destruct (IH (i + 1)) as (l & Hl & Hn & Hall). exists (rs :: l). simpl. rewrite Hl. simpl.
      split; [done|]. split; [by f_equal|]. intros x [->|Hx]%elem_of_cons; [by exists i|by apply Hall].
    + unfold renderRoleSet in Er. by rewrite Hspec, Hsel in Er.
Qed.

(** What is rendered for the service is its own, active, and of the revision. *)
Lemma rendered_owned rev rr i rs name : renderRoleSet s i rev rr = Ok rs → isOwned s (named rs name).
Proof.
  unfold renderRoleSet. destruct (rt_Spec _); [|done]. destruct (matchesSelector _ _) as [[]|]; [|done..].
  intros [= <-]. split; [|done]. split; [done|]. simpl. rewrite lookup_insert_ne by done. by rewrite lookup_insert_eq.
Qed.

Lemma rendered_one p rev rr i rs name :
  renderRoleSet s i rev rr = Ok rs →
  isActive (named rs name) = true ∧ isUpdated rev (named rs name) = true ∧
  one p (Some (named rs name)) = if p (named rs name) then 1 else 0.
Proof.
  intros Hr. pose proof (rendered_owned _ _ _ _ name Hr) as Ho. revert Hr.
  unfold renderRoleSet. destruct (rt_Spec _); [|done]. destruct (matchesSelector _ _) as [[]|]; [|done..].
  intros [= <-]. split; [done|]. split.
  - unfold isUpdated, isRoleSetMatchRevision, getRoleSetRevision. simpl. rewrite lookup_insert_eq.
    by apply bool_decide_eq_true.
  - unfold one. by rewrite bool_decide_eq_true_2.
Qed.

(** Of each kind, [n] new ones, or none. *)
Lemma createRoleSet_exact count rev rr w :
  is_Some (rt_Spec (ss_Template s)) → matchesSelector (ss_Selector s) (rt_Labels (ss_Template s)) = Some true →
  0 ≤ count →
  value (createRoleSet s count rev rr) w = (count, None) ∧
  ∀ p b, (∀ rs, isActive rs = true → isUpdated rev rs = true → p rs = b) →
    countIn p (stored (final (createRoleSet s count rev rr) w)) = countIn p (stored w) + if b then count else 0.
Proof.
  intros Hspec Hsel Hc. unfold createRoleSet. destruct (rt_Spec (ss_Template s)) as [spec|] eqn:Es; [|by destruct Hspec].
  rewrite <- Es in Hspec. destruct (renderAll_ok s rev rr 0 (Z.to_nat count) Hspec Hsel) as (l & -> & Hlen & Hl).
  set (P := fun (k : Z) (w' : W) => ∀ p (b : bool), (∀ rs, isActive rs = true → isUpdated rev rs = true → p rs = b) →
              countIn p (stored w') = countIn p (stored w) + if b then k else 0).
  rewrite Hlen, Z2Nat.id by lia.
  apply (SlowStartBatch_ok _ P count); [|lia|intros p b Hb; destruct b; lia].
  intros k w1 Hk HP. unfold onIndex. destruct (lookup_lt_is_Some_2 l (Z.to_nat k)) as [rs Hrs]; [lia|]. rewrite Hrs.
  destruct (CreateRoleSet_exact rs w1) as [Hok Hcr].
  unfold value, final, mbind, run_bind, call. destruct (CreateRoleSet rs w1) as [w2 r]. simpl in *. subst r.
  split; [done|]. intros p b Hp. destruct (countIn_created p rs _ _ Hcr) as [name ->]. rewrite (HP p b Hp).
  destruct (Hl rs) as [j Hj]; [by eapply list_elem_of_lookup_2|].
  destruct (rendered_one p _ _ _ _ name Hj) as (Ha & Hu & ->). rewrite (Hp _ Ha Hu). destruct b; lia.
Qed.
End Counts.

(** ** One pass over a settled service. *)

(** What the pass makes of [o] RoleSets of an old revision and [u] of the new
    one, with [E] replicas, a surge of [S] and [U] that may be unavailable. *)
Definition passCounts (E S U : Z) (ou : Z * Z) : Z * Z :=
  let '(o, u) := ou in
  if o + u <? E then (o, E - o)
  else if E <? o + u then
    let old := Z.min o (o + u - E) in (o - old, u - (o + u - E - old))
  else if u =? E then (o, u)
  else (o - Z.min o U, u + Z.min S o).

Section Pass.
Context `{HK : K8s} `{HX : K8sApps} {HXL : K8sAppsLaws} {HC : StormCodec} {W : Type} {HA : StormApi W} {HL : StormLaws}.
Context {HE : StormExact}.
Context (s current : StormService) (currentCR updateCR : ControllerRevision).
#[local] Existing Instance isOwned_dec.
Abbreviation rev := (cr_Name updateCR).

(** A service that is not paused, whose strategy is rolling, whose figures are
    int32, which may exceed or fall short of its replicas, and whose template
    can be rendered. *)
Record canRoll : Prop := MkCanRoll {
  can_range : rollsInRange s;
  can_unpaused : ss_Paused s = false;
  can_unavailable : 0 ≤ MaxUnavailable s;
  can_move : 0 < ResolvedReplicas s → 0 < MaxSurge s ∨ 0 < MaxUnavailable s;
  can_spec : is_Some (rt_Spec (ss_Template s));
  can_select : matchesSelector (ss_Selector s) (rt_Labels (ss_Template s)) = Some true;
}.
Context (Hcan : canRoll).

Definition oldActive (rs : RoleSet) : bool := isActive rs && isOutdated rev rs.
Definition newActive (rs : RoleSet) : bool := isActive rs && isUpdated rev rs.

(** The RoleSets of an old revision, and those of the new one, that are not
    being deleted. *)
Definition counts (w : W) : Z * Z := (countIn s oldActive (stored w), countIn s newActive (stored w)).

(** All that a service owns is ready, and nothing of it is being deleted. *)
Definition settled (w : W) : Prop :=
  ∀ k rs, stored w !! k = Some rs → isOwned s rs → isActive rs = true ∧ IsRoleSetReady rs = true.

Lemma MaxUnavailable_le : MaxUnavailable s ≤ ResolvedReplicas s.
Proof.
  destruct Hcan as [[Hroll HE0 _ _] _ HU _ _ _]. unfold MaxUnavailable in *.
  destruct (_ || _); [lia|]. destruct (Z.ltb_spec (ResolvedReplicas s) (fenceposts s).2); lia.
Qed.

Lemma MinAvailable_eq : MinAvailable s = ResolvedReplicas s - MaxUnavailable s.
Proof.
  pose proof MaxUnavailable_le. destruct Hcan as [[Hroll HE0 HS Hsum] _ HU _ _ _]. unfold MinAvailable.
  rewrite Hroll. cbn [negb]. apply wrap32_id. unfold in_int32. lia.
Qed.

(** The listing of a settled service. *)
Record settledListing (w : W) (all : list RoleSet) : Prop := MkSettledListing {
  sl_run : getRoleSetList s w = ([(ListRoleSets (ss_Namespace s) (ss_Name s) w).1],
                                 (ListRoleSets (ss_Namespace s) (ss_Name s) w).1, Ok all);
  sl_stored : stored (ListRoleSets (ss_Namespace s) (ss_Name s) w).1 = stored w;
  sl_active : (filterTerminatingRoleSets all).1 = all;
  sl_ready rs : rs ∈ all → IsRoleSetReady rs = true;
  sl_readyCount : Z.of_nat (length (filterReadyRoleSets all).1) = Z.of_nat (length all);
  sl_nodup : NoDup (keyOf <$> all);
  sl_lookup rs : rs ∈ all → stored w !! keyOf rs = Some rs ∧ isOwned s rs;
  sl_old : countsOf (isOutdated rev) all = (counts w).1;
  sl_new : countsOf (isUpdated rev) all = (counts w).2;
}.

Lemma countsOf_ext p q l : (∀ x, x ∈ l → p x = q x) → countsOf p l = countsOf q l.
Proof.
  intros Hpq. unfold countsOf. do 2 f_equal. induction l as [|x l IH]; simpl; [done|].
  rewrite Hpq, IH by set_solver. done.
Qed.

Lemma settled_listing w : settled w → ∃ all, settledListing w all.
Proof.
  intros Hs. destruct (ListRoleSets_exact (ss_Namespace s) (ss_Name s) w) as [Hok Hst].
  pose proof (getRoleSetList_run s w) as Hrun. unfold value, getRoleSetList, mbind, run_bind, call in Hrun |- *.
  destruct (ListRoleSets (ss_Namespace s) (ss_Name s) w) as [w1 [items|e]] eqn:El; simpl in *; [|done].
  destruct (Hrun _ eq_refl) as (w1' & [= <-] & [Hnd Hiff]). set (all := List.filter _ items) in *.
  assert (∀ rs, rs ∈ all → isActive rs = true ∧ IsRoleSetReady rs = true) as Har.
  { intros rs [Hk Ho]%Hiff. rewrite Hst in Hk. by eapply Hs. }
  exists all. split; rewrite ?El; simpl; try done.
  - unfold getRoleSetList, mbind, run_bind, call. by rewrite El.
  - apply filter_all. intros rs Hrs. by apply Har.
  - intros rs Hrs. by apply Har.
  - f_equal. f_equal. apply filter_all. intros rs Hrs. by apply Har.
  - intros rs [Hk Ho]%Hiff. by rewrite Hst in Hk.
  - unfold counts, oldActive. cbn [fst]. rewrite <- Hst, <- (countIn_listed s _ w1 all) by done. fold (countsOf (fun rs => isActive rs && isOutdated rev rs) all).
    apply countsOf_ext. intros rs [-> _]%Har. done.
  - unfold counts, newActive. cbn [snd]. rewrite <- Hst, <- (countIn_listed s _ w1 all) by done. fold (countsOf (fun rs => isActive rs && isUpdated rev rs) all).
    apply countsOf_ext. intros rs [-> _]%Har. done.
Qed.

Lemma listing_total w all : settledListing w all → Z.of_nat (length all) = (counts w).1 + (counts w).2.
Proof.
  intros Hl. rewrite <- (sl_old _ _ Hl), <- (sl_new _ _ Hl). unfold countsOf, isOutdated, isUpdated. clear Hl.
  induction all as [|x l IH]; simpl; [done|]. destruct (isRoleSetMatchRevision x rev); simpl; lia.
Qed.

(** Deleting some of the listing. *)
Lemma delete_counts w w0 all D rest :
  settledListing w all → stored w0 = stored w → D ++ rest ≡ₚ all →
  value (deleteRoleSet D) w0 = (Z.of_nat (length D), None) ∧
  counts (final (deleteRoleSet D) w0) =
    ((counts w).1 - countsOf (isOutdated rev) D, (counts w).2 - countsOf (isUpdated rev) D).
Proof.
  intros Hl Hw0 Hp. assert (∀ rs, rs ∈ D → rs ∈ all) as Hin by (intros; rewrite <- Hp; set_solver).
  destruct (deleteRoleSet_exact s D w0) as [Hv Hc].
  - pose proof (sl_nodup _ _ Hl) as Hnd. rewrite <- Hp, fmap_app in Hnd. by apply NoDup_app in Hnd as [? _].
  - intros rs Hrs. rewrite Hw0. apply (sl_lookup _ _ Hl). auto.
  - split; [done|]. unfold counts. rewrite !Hc by (intros x [? _]%andb_true_iff; done). rewrite Hw0. cbn [fst snd].
    assert (∀ rs, rs ∈ D → isActive rs = true) as Hact.
    { intros rs Hrs%Hin. rewrite <- (sl_active _ _ Hl) in Hrs. by apply elem_of_list_filter_bool in Hrs as [? _]. }
    f_equal; f_equal; apply countsOf_ext; intros rs Hrs; [unfold oldActive|unfold newActive]; by rewrite Hact.
Qed.

(** Creating new ones. *)
Lemma create_counts w n rr :
  0 ≤ n →
  value (createRoleSet s n rev rr) w = (n, None) ∧
  counts (final (createRoleSet s n rev rr) w) = ((counts w).1, (counts w).2 + n).
Proof.
  intros Hn. destruct Hcan as [_ _ _ _ Hspec Hsel].
  destruct (createRoleSet_exact s n rev rr w Hspec Hsel Hn) as [Hv Hc]. split; [done|]. unfold counts.
  rewrite (Hc oldActive false), (Hc newActive true); cbn [fst snd]; [f_equal; lia|..].
  - intros rs Ha Hu. unfold newActive. by rewrite Ha, Hu.
  - intros rs Ha Hu. unfold oldActive, isOutdated, isUpdated in *. by rewrite Ha, Hu.
Qed.

Lemma countsOf_none p l : (∀ x, x ∈ l → p x = false) → countsOf p l = 0.
Proof.
  intros Hp. unfold countsOf. induction l as [|x l IH]; simpl; [done|]. rewrite Hp by set_solver.
  apply IH. set_solver.
Qed.

Lemma countsOf_all p l : (∀ x, x ∈ l → p x = true) → countsOf p l = Z.of_nat (length l).
Proof. intros Hp. unfold countsOf. by rewrite filter_all. Qed.

(** The first [d], when the old ones come first. *)
Lemma countsOf_take old new d :
  (∀ x, x ∈ old → isUpdated rev x = false) → (∀ x, x ∈ new → isUpdated rev x = true) →
  0 ≤ d ≤ Z.of_nat (length old) + Z.of_nat (length new) →
  countsOf (isOutdated rev) (take (Z.to_nat d) (old ++ new)) = Z.min d (Z.of_nat (length old)) ∧
  countsOf (isUpdated rev) (take (Z.to_nat d) (old ++ new)) = d - Z.min d (Z.of_nat (length old)).
Proof.
  intros Ho Hn Hd. rewrite take_app, !countsOf_app. unfold isOutdated.
  assert (∀ (l : list RoleSet) x n, x ∈ take n l → x ∈ l) as Ht by (intros l x n; apply elem_of_subseteq, subseteq_take).
  fold (isUpdated rev). change (fun rs => negb (isRoleSetMatchRevision rs rev)) with (fun rs => negb (isUpdated rev rs)).
  rewrite (countsOf_all (fun rs => negb (isUpdated rev rs)) (take _ old)) by (intros x Hx%Ht; by rewrite Ho).
  rewrite (countsOf_none (fun rs => negb (isUpdated rev rs)) (take _ new)) by (intros x Hx%Ht; by rewrite Hn).
  rewrite (countsOf_none _ (take _ old)) by (intros x Hx%Ht; by rewrite Ho).
  rewrite (countsOf_all _ (take _ new)) by (intros x Hx%Ht; by rewrite Hn).
  rewrite !length_take. lia.
Qed.

Abbreviation nE := (ResolvedReplicas s).
Abbreviation nS := (MaxSurge s).
Abbreviation nU := (MaxUnavailable s).

Lemma goal_branch : bool_decide (cr_Name currentCR = rev) || negb (ss_Paused s) = true.
Proof. rewrite (can_unpaused Hcan). apply orb_true_r. Qed.

Lemma scaleOut_counts w w0 all :
  settledListing w all → stored w0 = stored w → Z.of_nat (length all) < nE →
  let run := scaleOut s current currentCR updateCR all all (nE - Z.of_nat (length all)) in
  value run w0 = Ok true ∧ counts (final run w0) = ((counts w).1, nE - (counts w).1).
Proof.
  intros Hl Hw0 Hlt. pose proof (listing_total w all Hl). unfold scaleOut. rewrite goal_branch.
  destruct (can_range Hcan) as [_ HE0 HS Hsum].
  rewrite (wrap32_id (Z.of_nat (length all))), wrap32_id by (unfold in_int32; lia).
  replace (Z.min _ _) with (nE - Z.of_nat (length all)) by lia. cbv zeta. rewrite value_bind, final_bind.
  destruct (create_counts w0 (nE - Z.of_nat (length all)) (computeRoleRevisions current s currentCR updateCR))
    as [-> Hc]; [lia|]. cbv iota. split.
  - cbn. by rewrite (proj2 (Z.ltb_lt 0 _)) by lia.
  - change (final (mret _) ?w) with w. rewrite Hc. unfold counts in *. rewrite Hw0. cbn [fst snd] in *. f_equal. lia.
Qed.

Lemma scaleIn_counts w w0 all :
  settledListing w all → stored w0 = stored w → nE < Z.of_nat (length all) →
  let d := Z.of_nat (length all) - nE in
  let run := scaleIn s currentCR updateCR all d in
  value run w0 = Ok true ∧
  counts (final run w0) = ((counts w).1 - Z.min (counts w).1 d, (counts w).2 - (d - Z.min (counts w).1 d)).
Proof.
  intros Hl Hw0 Hlt. pose proof (listing_total w all Hl). unfold scaleIn. rewrite goal_branch.
  pose proof (can_unavailable Hcan). pose proof (rolls_replicas _ (can_range Hcan)).
  rewrite MinAvailable_eq, (sl_readyCount _ _ Hl). cbv zeta.
  set (sorted := sortRoleSetByRevision all rev). pose proof (sortBy_perm (rulesBefore [orderOldRevisionBeforeUpdated rev; orderNotReadyBeforeReady]) all) as Hp.
  change (sortBy _ all) with sorted in Hp.
  rewrite givenUp_ready; [|intros rs Hrs; apply (sl_ready _ _ Hl); by rewrite <- Hp|lia].
  rewrite value_bind, final_bind.
  destruct (delete_counts w w0 all (take (Z.to_nat (Z.of_nat (length all) - nE)) sorted)
              (drop (Z.to_nat (Z.of_nat (length all) - nE)) sorted)) as [-> Hc]; [done|done|by rewrite take_drop|].
  cbv iota. change (final (mret _) ?w) with w. rewrite Hc. rewrite length_take, (Permutation_length Hp). split.
  - cbn. by rewrite (proj2 (Z.ltb_lt 0 _)) by lia.
  - assert (countsOf (isOutdated rev) sorted = (counts w).1 ∧ countsOf (isUpdated rev) sorted = (counts w).2) as [Ho Hn].
    { rewrite <- (sl_old _ _ Hl), <- (sl_new _ _ Hl). unfold countsOf. by rewrite !(filter_length_perm _ _ _ Hp). }
    unfold countsOf in Ho, Hn. pose proof (sorted_old_first rev all) as Hsplit. cbv zeta in Hsplit. fold sorted in Hsplit.
    rewrite (f_equal (take (Z.to_nat (Z.of_nat (length all) - nE))) Hsplit).
    destruct (countsOf_take (List.filter (isOutdated rev) sorted) (List.filter (isUpdated rev) sorted)
                (Z.of_nat (length all) - nE)) as [-> ->].
    + intros x [Hx _]%elem_of_list_filter_bool. by apply negb_true_iff.
    + by intros x [Hx _]%elem_of_list_filter_bool.
    + lia.
    + rewrite Ho. f_equal; lia.
Qed.

Lemma rollingUpdate_counts w w1 all :
  settledListing w all → stored w1 = stored w → (counts w).1 + (counts w).2 = nE →
  let run := rollingUpdate all s current currentCR updateCR in
  value run w1 = None ∧
  counts (final run w1) = ((counts w).1 - Z.min (counts w).1 nU, (counts w).2 + Z.min nS (counts w).1).
Proof.
  intros Hl Hw1 Htot. pose proof (listing_total w all Hl) as Hlen.
  pose proof (rolls_replicas _ (can_range Hcan)). pose proof (rolls_surge _ (can_range Hcan)).
  pose proof (can_unavailable Hcan). unfold rollingUpdate. cbv zeta.
  rewrite (sl_active _ _ Hl), (sl_readyCount _ _ Hl), MinAvailable_eq.
  pose proof (sl_old _ _ Hl) as Hold. pose proof (sl_new _ _ Hl) as Hnew. set (o := (counts w).1) in *. set (u := (counts w).2) in *.
  unfold filterRoleSetByRevision, split. change (fun rs => isRoleSetMatchRevision rs rev) with (isUpdated rev).
  change (fun x => negb (isRoleSetMatchRevision x rev)) with (isOutdated rev).
  unfold countsOf in Hold, Hnew.
  set (outdated := List.filter (isOutdated rev) all) in *. set (sorted := sortRoleSetByRevision outdated rev).
  pose proof (sortBy_perm (rulesBefore [orderOldRevisionBeforeUpdated rev; orderNotReadyBeforeReady]) outdated) as Hp.
  change (sortBy _ outdated) with sorted in Hp.
  assert (∀ x, x ∈ sorted → x ∈ all ∧ isUpdated rev x = false) as Hsorted.
  { intros x Hx. rewrite Hp in Hx. apply elem_of_list_filter_bool in Hx as [Hx ?].
    split; [done|]. by apply negb_true_iff. }
  rewrite outdatedToDelete_ready by (intros rs [Hrs _]%Hsorted; by apply (sl_ready _ _ Hl)).
  replace (Z.of_nat (length all) - (nE - nU)) with nU by lia.
  assert (sorted ++ List.filter (isUpdated rev) all ≡ₚ all) as Hpall.
  { rewrite Hp, Permutation_app_comm. apply (split_perm (isUpdated rev)). }
  rewrite value_bind, final_bind.
  destruct (delete_counts w w1 all (take (Z.to_nat nU) sorted)
              (drop (Z.to_nat nU) sorted ++ List.filter (isUpdated rev) all)) as [-> Hd];
    [done|done|by rewrite app_assoc, take_drop|].
  cbv iota. cbn [snd]. rewrite value_bind, final_bind.
  replace (if _ <? 0 then 0 else _) with (Z.min nS o) by (rewrite Hlen, Hnew; destruct (Z.ltb_spec (Z.min (nE + nS - (o + u)) (nE - u)) 0); lia).
  edestruct (create_counts (final (deleteRoleSet (take (Z.to_nat nU) sorted)) w1) (Z.min nS o)) as [-> Hcr]; [lia|].
  split; [done|]. change (final (mret _) ?w) with w. rewrite Hcr, Hd. cbn [fst snd]. fold o u.
  assert (Z.of_nat (length sorted) = o) as Hls by (by rewrite (Permutation_length Hp)).
  assert (∀ x, x ∈ take (Z.to_nat nU) sorted → isUpdated rev x = false) as Hts.
  { intros x Hx. apply Hsorted. revert Hx. apply elem_of_subseteq, subseteq_take. }
  rewrite (countsOf_all (isOutdated rev)) by (intros x Hx%Hts; unfold isOutdated, isUpdated in *; by rewrite Hx).
  rewrite (countsOf_none (isUpdated rev)) by done. rewrite length_take. f_equal; lia.
Qed.

Lemma rollout_counts w w0 :
  settled w → stored w0 = stored w → (counts w).1 + (counts w).2 = nE →
  value (rollout s current currentCR updateCR) w0 = None ∧
  counts (final (rollout s current currentCR updateCR) w0) = passCounts nE nS nU (counts w).
Proof.
  intros Hs Hw0 Htot. assert (settled w0) as Hs0 by (unfold settled; by rewrite Hw0).
  assert (counts w0 = counts w) as Hc0 by (unfold counts; by rewrite Hw0). rewrite <- Hc0 in Htot |- *. clear Hs Hw0 Hc0 w.
  destruct (settled_listing w0 Hs0) as [all Hl]. pose proof (listing_total w0 all Hl) as Hlen.
  set (w1 := (ListRoleSets (ss_Namespace s) (ss_Name s) w0).1).
  pose proof (sl_stored _ _ Hl) as Hw1. fold w1 in Hw1.
  unfold rollout. rewrite value_bind, final_bind.
  assert (value (getRoleSetList s) w0 = Ok all) as -> by (unfold value; by rewrite (sl_run _ _ Hl)).
  assert (final (getRoleSetList s) w0 = w1) as -> by (unfold final; by rewrite (sl_run _ _ Hl)).
  cbv zeta. change (Z.of_nat (length (filterRoleSetByRevision all rev).1)) with (countsOf (isUpdated rev) all).
  rewrite (sl_new _ _ Hl). unfold passCounts. destruct (counts w0) as [o u] eqn:Eou. cbn [fst snd] in *.
  rewrite (proj2 (Z.ltb_ge (o + u) nE)), (proj2 (Z.ltb_ge nE (o + u))) by lia.
  destruct (Z.eqb_spec u nE) as [Hu|Hu].
  { split; [done|]. change (final (mret _) ?w) with w. unfold counts in *. by rewrite Hw1. }
  rewrite (rolling_effective s (rolls_rolling _ (can_range Hcan))), bool_decide_eq_false_2 by done.
  pose proof (rollingUpdate_counts w0 w1 all Hl Hw1) as Hr. rewrite Eou in Hr. apply Hr. done.
Qed.

(** A pass over a settled service fails nowhere and has the effect [passCounts]. *)
Lemma pass_counts w :
  settled w →
  value (scaleAndRoll s current currentCR updateCR) w = None ∧
  counts (final (scaleAndRoll s current currentCR updateCR) w) = passCounts nE nS nU (counts w).
Proof.
  intros Hs. destruct (settled_listing w Hs) as [all Hl]. pose proof (listing_total w all Hl) as Hlen.
  set (w1 := (ListRoleSets (ss_Namespace s) (ss_Name s) w).1).
  pose proof (sl_stored _ _ Hl) as Hw1. fold w1 in Hw1.
  unfold scaleAndRoll. rewrite value_bind, final_bind.
  assert (∀ f : result stormError (list RoleSet) → Run W (result stormError bool),
    value (getRoleSetList s ≫= f) w = value (f (Ok all)) w1 ∧
    final (getRoleSetList s ≫= f) w = final (f (Ok all)) w1) as Hlist.
  { intros f. rewrite value_bind, final_bind. unfold value, final. by rewrite (sl_run _ _ Hl). }
  unfold scaling. edestruct (Hlist) as [-> ->]. cbv zeta. rewrite (sl_active _ _ Hl).
  destruct (Z.ltb_spec (Z.of_nat (length all) - nE) 0) as [Hlt|Hge].
  - replace (- (Z.of_nat (length all) - nE)) with (nE - Z.of_nat (length all)) by lia.
    destruct (scaleOut_counts w w1 all) as [-> Hc]; [done|done|lia|].
    rewrite (can_unpaused Hcan). cbn [negb andb]. split; [done|].
    change (final (mret _) ?w) with w. rewrite Hc. unfold passCounts. destruct (counts w) as [o u]. cbn [fst snd] in *.
    by rewrite (proj2 (Z.ltb_lt (o + u) nE)) by lia.
  - destruct (Z.ltb_spec 0 (Z.of_nat (length all) - nE)) as [Hgt|Hle].
    + destruct (scaleIn_counts w w1 all) as [-> Hc]; [done|done|lia|].
      rewrite (can_unpaused Hcan). cbn [negb andb]. split; [done|].
      change (final (mret _) ?w) with w. rewrite Hc. unfold passCounts. destruct (counts w) as [o u]. cbn [fst snd] in *.
      rewrite (proj2 (Z.ltb_ge (o + u) nE)), (proj2 (Z.ltb_lt nE (o + u))) by lia. f_equal; lia.
    + change (value (mret ?x) ?w) with x. change (final (mret _) ?w) with w. rewrite (can_unpaused Hcan). cbn [negb andb].
      apply rollout_counts; [done|done|lia].
Qed.
End Pass.

(** ** Passes until the end. *)

(** How far a rollout is from its end: every pass brings it down to one. *)
Definition distance (E : Z) (ou : Z * Z) : Z :=
  let '(o, u) := ou in
  3 * o + (if o + u <? E then 2 else if E <? o + u then (if o =? 0 then 2 else 0) else 1).

Lemma pass_closer E S U o u :
  0 ≤ o → 0 ≤ u → 0 ≤ S → 0 ≤ U ≤ E → (0 < E → 0 < S ∨ 0 < U) →
  let '(o', u') := passCounts E S U (o, u) in
  0 ≤ o' ≤ o ∧ 0 ≤ u' ∧ distance E (o', u') ≤ Z.max 1 (distance E (o, u) - 1).
Proof.
  intros Ho Hu HS HU Hmove. unfold passCounts, distance.
  destruct (Z.ltb_spec (o + u) E).
  - replace (o + (E - o)) with E by lia. rewrite Z.ltb_irrefl. lia.
  - destruct (Z.ltb_spec E (o + u)); [|destruct (Z.eqb_spec u E)].
    + repeat case_match; breflect; lia.
    + rewrite (proj2 (Z.ltb_ge (o + u) E)), (proj2 (Z.ltb_ge E (o + u))) by lia. lia.
    + repeat case_match; breflect; lia.
Qed.

Lemma distance_one E o u : 0 ≤ o → 0 ≤ u → distance E (o, u) ≤ 1 → o = 0 ∧ u = E.
Proof. unfold distance. intros Ho Hu. repeat case_match; breflect; lia. Qed.

Section Rounds.
Context `{HK : K8s} `{HX : K8sApps} {HXL : K8sAppsLaws} {HC : StormCodec} {W : Type} {HA : StormApi W} {HL : StormLaws}.
Context {HE : StormExact}.
Context (s current : StormService) (currentCR updateCR : ControllerRevision).

(** What the rest of the cluster does before the next pass: deletions finish and
    what is left becomes ready. *)
Definition settles (m m' : gmap NamespacedName RoleSet) : Prop :=
  ∀ k, match m !! k, m' !! k with
       | None, None => True
       | None, Some _ => False
       | Some rs, Some rs' => sameIdentity rs rs' ∧ isActive rs = true ∧ IsRoleSetReady rs' = true
       | Some rs, None => isTerminating rs = true
       end.

(** [rounds n w w']: [n] passes, each followed by the cluster settling. *)
Inductive rounds : nat → W → W → Prop :=
| rounds_done w : rounds 0 w w
| rounds_next n w w1 w2 :
    settles (stored (final (scaleAndRoll s current currentCR updateCR) w)) (stored w1) →
    rounds n w1 w2 → rounds (S n) w w2.

Lemma settles_settled w w1 : settles (stored w) (stored w1) → settled s w1.
Proof.
  intros Hs k rs' Hk _. specialize (Hs k). rewrite Hk in Hs. destruct (stored w !! k) as [rs|]; [|done].
  destruct Hs as ((_ & _ & _ & Hd) & Ha & Hr). split; [|done]. unfold isActive, isTerminating in *. by rewrite <- Hd.
Qed.

Lemma settles_count p m m' :
  (∀ a b, sameIdentity a b → p a = p b) → (∀ x, p x = true → isActive x = true) →
  settles m m' → countIn s p m = countIn s p m'.
Proof.
  intros Hid Hact Hs. unfold countIn. f_equal. rewrite <- !size_dom. f_equal. apply set_eq. intros k.
  rewrite !elem_of_dom. specialize (Hs k). split; intros [rs [Hk [Ho Hp]]%map_lookup_filter_Some]; simpl in Ho, Hp.
  - rewrite Hk in Hs. destruct (m' !! k) as [rs'|] eqn:Ek'.
    + destruct Hs as (Hsame & _). exists rs'. apply map_lookup_filter_Some. split; [done|]. simpl.
      rewrite <- (isOwned_identity s _ _ Hsame), <- (Hid _ _ Hsame). done.
    + apply Hact in Hp. unfold isActive in Hp. by rewrite Hs in Hp.
  - rewrite Hk in Hs. destruct (m !! k) as [rs0|] eqn:Ek; [|done]. destruct Hs as (Hsame & _).
    exists rs0. apply map_lookup_filter_Some. split; [done|]. simpl.
    rewrite (isOwned_identity s _ _ Hsame), (Hid _ _ Hsame). done.
Qed.

Lemma settles_counts w w1 : settles (stored w) (stored w1) → counts s updateCR w1 = counts s updateCR w.
Proof.
  intros Hs. unfold counts. f_equal; symmetry; apply settles_count; try done.
  1,3: intros a b (_ & Hl & _ & Hd); unfold oldActive, newActive, isOutdated, isUpdated, isActive, isTerminating,
       isRoleSetMatchRevision, getRoleSetRevision; by rewrite Hl, Hd.
  all: by intros x [? _]%andb_true_iff.
Qed.

Lemma counts_nonneg w : 0 ≤ (counts s updateCR w).1 ∧ 0 ≤ (counts s updateCR w).2.
Proof. unfold counts, countIn. simpl. lia. Qed.

Lemma rounds_distance n w w' :
  canRoll s → settled s w → rounds n w w' →
  settled s w' ∧
  distance (ResolvedReplicas s) (counts s updateCR w') ≤
    Z.max 1 (distance (ResolvedReplicas s) (counts s updateCR w) - Z.of_nat n).
Proof.
  intros Hcan Hs Hr. induction Hr as [w|n w w1 w2 Hset Hr IH]; [split; [done|lia]|].
  destruct (IH (settles_settled _ _ Hset)) as [Hs2 Hd]. split; [done|].
  rewrite (settles_counts _ _ Hset) in Hd.
  destruct (pass_counts s current currentCR updateCR Hcan w Hs) as [_ Hp]. rewrite Hp in Hd.
  pose proof (pass_closer (ResolvedReplicas s) (MaxSurge s) (MaxUnavailable s)
    (counts s updateCR w).1 (counts s updateCR w).2) as Hc.
  pose proof (MaxUnavailable_le s Hcan). pose proof (counts_nonneg w).
  destruct Hcan as [[_ ? ? _] _ ? ? _ _]. rewrite <- surjective_pairing in Hc.
  destruct (passCounts _ _ _ _) as [o' u']. destruct Hc as (_ & _ & Hc); [lia..|done|]. lia.
Qed.
End Rounds.

(** C24: a rollout ends.  On an API server that does what it is told, when
    between two passes deletions finish and RoleSets become ready, three passes
    for every RoleSet of an old revision, and one more, leave a service that is
    not paused with none of them and with as many of the new revision as it
    asks for replicas; and further passes keep it so. *)
Theorem rollout_converges `{StormExact W} `{!K8sAppsLaws} s current currentCR updateCR n w w' :
  canRoll s → settled s w → rounds s current currentCR updateCR n w w' →
  3 * (counts s updateCR w).1 + 1 ≤ Z.of_nat n →
  counts s updateCR w' = (0, ResolvedReplicas s).
Proof.
  intros Hcan Hs Hr Hn. destruct (rounds_distance _ _ _ _ _ _ _ Hcan Hs Hr) as [_ Hd].
  pose proof (counts_nonneg s updateCR w). pose proof (counts_nonneg s updateCR w').
  destruct (counts s updateCR w) as [o u], (counts s updateCR w') as [o' u']. cbn [fst snd] in *.
  destruct (distance_one (ResolvedReplicas s) o' u') as [-> ->]; [lia|lia| |done].
  enough (distance (ResolvedReplicas s) (o, u) ≤ 3 * o + 2) by lia. unfold distance. repeat case_match; lia.
Qed.
