(* ===== verification/StormRevision.v ===== *)
(** * The revisions of a StormService, and its reconciliation
    ([pkg/controller/stormservice/revision.go], [stormservice_controller.go],
    [finalize] of [sync.go], [pkg/controller/util/history], [pkg/controller/util/patch]
    and [Patch] of [pkg/controller/util/orchestration/util.go]).

    Every template a service has had is a ControllerRevision, named by a hash
    of its contents; a RoleSet carries the name of the revision it was made
    from.  [syncRevision] finds or makes the revision of the present template,
    [truncateHistory] deletes those no one needs, and [Reconcile] puts the
    whole pass together. *)

From Stdlib Require Import Ascii.
From S2P Require Import Prelude Api Claims Ledger KVPlan Placement Reservations Runtime Storm StormSync StormFacts.

(** ** The history helpers. *)

Definition ControllerRevisionHashLabel : string := "controller.kubernetes.io/hash".

Definition ControllerRevisionName (prefix hash : string) : string :=
  let prefix := if (223 <? String.length prefix)%nat then String.substring 0 223 prefix else prefix in
  String.append prefix (String.append "-" hash).

(** [fnv.New32] over the bytes written. *)
Definition fnv32 (data : list Z) : Z :=
  foldl (fun h b => Z.lxor ((h * 16777619) mod 2 ^ 32) b) 2166136261 data.

Definition byteCodes (s : string) : list Z := (fun c => Z.of_nat (nat_of_ascii c)) <$> String.list_ascii_of_string s.

(** The revisions made here hold raw data and no object. *)
Definition HashControllerRevision `{K8sApps} (revision : ControllerRevision) (probe : option Z) : string :=
  ShortSafeEncodeString (fnv32 (revision.(cr_Data) ++
    match probe with Some p => byteCodes (pretty p) | None => [] end)).

(** [strconv.ParseInt(s, 10, 32)]; [None] is an error. *)
Definition ParseInt32 (s : string) : option Z :=
  n ← parseInt s;
  if bool_decide (in_int32 n) then Some n else None.

Definition hashOf (cr : ControllerRevision) : option Z :=
  hs ← cr.(cr_Labels) !! ControllerRevisionHashLabel;
  hash ← ParseInt32 hs;
  Some (hash mod 2 ^ 32).

Definition EqualRevision (lhs rhs : ControllerRevision) : bool :=
  match hashOf lhs, hashOf rhs with
  | Some l, Some r => (l =? r) && bool_decide (lhs.(cr_Data) = rhs.(cr_Data))
  | _, _ => bool_decide (lhs.(cr_Data) = rhs.(cr_Data))
  end.

Definition FindEqualRevisions (revisions : list ControllerRevision) (needle : ControllerRevision)
  : list ControllerRevision :=
  List.filter (fun r => EqualRevision r needle) revisions.

(** By revision, then by the time of creation, then by name. *)
Definition byRevision : ControllerRevision → ControllerRevision → bool :=
  thenBy (byKey cr_Revision) (thenBy (byKey cr_CreationTimestamp)
    (fun a b => strless a.(cr_Name) b.(cr_Name))).

Definition SortControllerRevisions (revisions : list ControllerRevision) : list ControllerRevision :=
  sortBy byRevision revisions.

(** ** The API server's revisions and finalizers. *)

Inductive finalizerPatch : Type := RemoveFinalizers | SetFinalizers (finalizers : list string).

Class RevisionApi `{StormApi W} := {
  (** By namespace and by the value of the label [name]. *)
  ListRevisions : string → string → W → W * result kubeError (list ControllerRevision);
  CreateRevision : ControllerRevision → W → W * result kubeError ControllerRevision;
  GetRevision : NamespacedName → W → W * result kubeError ControllerRevision;
  UpdateRevision : ControllerRevision → W → W * result kubeError ControllerRevision;
  DeleteRevision : ControllerRevision → W → W * result kubeError unit;
  (** The service as the patch leaves it. *)
  PatchStormService : NamespacedName → finalizerPatch → W → W * result kubeError StormService;
}.

Section Revisions.
Context `{HR : RevisionApi W}.

(** One entry for every owner reference with the UID of the service. *)
Definition getControllerRevision (s : StormService) : Run W (result stormError (list ControllerRevision)) :=
  listed ← call (ListRevisions s.(ss_Namespace) s.(ss_Name));
  mret (match listed with
        | Err e => Err (ApiError e)
        | Ok items => Ok (flat_map (fun revision =>
            flat_map (fun owner => if bool_decide (owner = s.(ss_UID)) then [revision] else [])
              revision.(cr_Owners)) items)
        end).

Definition nextRevision (revisions : list ControllerRevision) : Z :=
  match last revisions with None => 1 | Some r => wrap64 (r.(cr_Revision) + 1) end.

Definition getRevisionLabels (s : StormService) : gmap string string := {[ "name" := s.(ss_Name) ]}.

Definition NewControllerRevision (s : StormService) (data : list Z) (revision collisionCount : Z)
  : ControllerRevision :=
  let cr labels name := MkControllerRevision name "" labels [s.(ss_UID)] 0 revision data in
  let hash := HashControllerRevision (cr (getRevisionLabels s) "") (Some collisionCount) in
  cr (<[ControllerRevisionHashLabel := hash]> (getRevisionLabels s)) (ControllerRevisionName s.(ss_Name) hash).

Definition newRevision (s : StormService) (revision collisionCount : Z) : result stormError ControllerRevision :=
  match getPatch s with
  | None => Err CodecFailed
  | Some patch => Ok (NewControllerRevision s patch revision collisionCount)
  end.

Definition withName (cr : ControllerRevision) (namespace name : string) : ControllerRevision :=
  MkControllerRevision name namespace cr.(cr_Labels) cr.(cr_Owners) cr.(cr_CreationTimestamp)
    cr.(cr_Revision) cr.(cr_Data).

(** The name of the [collisionCount]th try. *)
Definition probeName (s : StormService) (revision : ControllerRevision) (collisionCount : Z) : string :=
  ControllerRevisionName s.(ss_Name) (HashControllerRevision revision (Some collisionCount)).

(** The revision and the collision count it took.  The loop of the code has no
    bound; [None] is a loop that has not ended after [fuel] tries. *)
Fixpoint createControllerRevision (fuel : nat) (s : StormService) (revision : ControllerRevision)
    (collisionCount : Z) : Run W (option (result stormError ControllerRevision * Z)) :=
  match fuel with
  | O => mret None
  | S fuel' =>
      let clone := withName revision s.(ss_Namespace) (probeName s revision collisionCount) in
      r ← call (CreateRevision clone);
      match r with
      | Err AlreadyExists =>
          got ← call (GetRevision (MkNN clone.(cr_Namespace) clone.(cr_Name)));
          match got with
          | Err e => mret (Some (Err (ApiError e), collisionCount))
          | Ok exists_ =>
              if bool_decide (exists_.(cr_Data) = clone.(cr_Data))
              then mret (Some (Ok exists_, collisionCount))
              else createControllerRevision fuel' s revision (wrap32 (collisionCount + 1))
          end
      | Err e => mret (Some (Err (ApiError e), collisionCount))
      | Ok created => mret (Some (Ok created, collisionCount))
      end
  end.

Definition withRevision (cr : ControllerRevision) (revision : Z) : ControllerRevision :=
  MkControllerRevision cr.(cr_Name) cr.(cr_Namespace) cr.(cr_Labels) cr.(cr_Owners)
    cr.(cr_CreationTimestamp) revision cr.(cr_Data).

(** One run of the closure of [updateControllerRevision], which keeps [clone]. *)
Definition updateRevisionAttempt (newRevision : Z) (clone : ControllerRevision)
  : Run W (ControllerRevision * result kubeError unit) :=
  if clone.(cr_Revision) =? newRevision then mret (clone, Ok ())
  else
    let clone := withRevision clone newRevision in
    r ← call (UpdateRevision clone);
    match r with
    | Ok updated => mret (updated, Ok ())
    | Err e =>
        got ← call (GetRevision (MkNN clone.(cr_Namespace) clone.(cr_Name)));
        mret (match got with Ok fresh => fresh | Err _ => clone end, Err e)
    end.

Definition updateControllerRevision (revision : ControllerRevision) (newRevision : Z)
  : Run W (result stormError ControllerRevision) :=
  r ← RetryKube (updateRevisionAttempt newRevision) revision;
  mret (match r.2 with Ok _ => Ok r.1 | Err e => Err (ApiError e) end).

(** The current revision, the update revision and the collision count. *)
Definition syncRevision (fuel : nat) (s : StormService) (revisions : list ControllerRevision)
  : Run W (option (result stormError (ControllerRevision * ControllerRevision * Z))) :=
  let collisionCount := default 0 s.(ss_Status).(st_CollisionCount) in
  match newRevision s (nextRevision revisions) collisionCount with
  | Err e => mret (Some (Err e))
  | Ok updateRevision =>
      let withCurrent updateRevision collisionCount :=
        Some (Ok (default updateRevision
                    (List.find (fun r => bool_decide (r.(cr_Name) = s.(ss_Status).(st_CurrentRevision))) revisions),
                  updateRevision, collisionCount)) in
      match last (FindEqualRevisions revisions updateRevision), last revisions with
      | Some equal, Some newest =>
          if EqualRevision newest equal then mret (withCurrent newest collisionCount)
          else
            r ← updateControllerRevision equal updateRevision.(cr_Revision);
            mret (match r with Err e => Some (Err e) | Ok updated => withCurrent updated collisionCount end)
      | _, _ =>
          r ← createControllerRevision fuel s updateRevision collisionCount;
          mret (match r with
                | None => None
                | Some (Err e, _) => Some (Err e)
                | Some (Ok created, collisionCount) => withCurrent created collisionCount
                end)
      end
  end.

Definition DefaultRevisionHistoryLimit : Z := 10.

(** The revisions nobody needs, oldest first. *)
Definition historyOf (revisions : list ControllerRevision) (live : gset string) : list ControllerRevision :=
  List.filter (fun r => negb (bool_decide (r.(cr_Name) ∈ live))) revisions.

Definition liveRevisions (current update : ControllerRevision) (roleSets : list RoleSet) : gset string :=
  {[ current.(cr_Name); update.(cr_Name) ]} ∪ list_to_set (getRoleSetRevision <$> roleSets).

(** Delete in order; the first error ends it. *)
Fixpoint deleteRevisions (revisions : list ControllerRevision) : Run W (option stormError) :=
  match revisions with
  | [] => mret None
  | r :: rest =>
      d ← call (DeleteRevision r);
      match d with Err e => mret (Some (ApiError e)) | Ok _ => deleteRevisions rest end
  end.

(** A negative limit slices past the end of the history: past its capacity, the
    number of all revisions, that panics at once, and otherwise at the first
    nil, when the whole history has been deleted. *)
Definition truncateHistory (s : StormService) (revisions : list ControllerRevision)
    (current update : ControllerRevision) : Run W (option stormError) :=
  listed ← getRoleSetList s;
  match listed with
  | Err e => mret (Some e)
  | Ok roleSets =>
      let revisionHistory := historyOf revisions (liveRevisions current update roleSets) in
      let historyLen := Z.of_nat (length revisionHistory) in
      let historyLimit := default DefaultRevisionHistoryLimit s.(ss_RevisionHistoryLimit) in
      if historyLen <=? historyLimit then mret None
      else if Z.of_nat (length revisions) <? historyLen - historyLimit then mret (Some SlicePanic)
      else
        r ← deleteRevisions (take (Z.to_nat (historyLen - historyLimit)) revisionHistory);
        mret (match r with
              | Some e => Some e
              | None => if historyLimit <? 0 then Some SlicePanic else None
              end)
  end.

(** ** Finalizers. *)

Definition StormServiceFinalizer : string := "orchestration.aibrix.ai/stormservice-finalizer".

Definition ContainsFinalizer (s : StormService) : bool :=
  bool_decide (StormServiceFinalizer ∈ s.(ss_Finalizers)).

Definition RemoveFinalizerPatch (finalizers : list string) (finalizer : string) : finalizerPatch :=
  match List.filter (fun k => negb (bool_decide (k = finalizer))) finalizers with
  | [] => RemoveFinalizers
  | filtered => SetFinalizers filtered
  end.

Definition AddFinalizerPatch (finalizers : list string) (finalizer : string) : finalizerPatch :=
  SetFinalizers (StringSetList (list_to_set (finalizers ++ [finalizer]))).

(** The zero value of the type, which [resetObject] leaves in place of the object. *)
Definition zeroStormService : StormService :=
  MkStormService "" "" "" 0 "" ∅ None [] None "" None (MkRoleSetTemplate ∅ ∅ None) "" None None None false None
    zeroStormStatus.

(** One run of the closure of [utils.Patch]: it keeps whether it runs for the
    first time, and the object.  [meta] is the object itself, so that its name is
    read after it was reset. *)
Definition patchAttempt (patch : finalizerPatch) (st : bool * StormService)
  : Run W ((bool * StormService) * result kubeError unit) :=
  let '(firstTry, obj) := st in
  let patched obj :=
    r ← call (PatchStormService (MkNN obj.(ss_Namespace) obj.(ss_Name)) patch);
    mret (match r with Ok obj => ((false, obj), Ok ()) | Err e => ((false, obj), Err e) end) in
  if firstTry then patched obj
  else
    let obj := zeroStormService in
    got ← call (GetStormService (MkNN obj.(ss_Namespace) obj.(ss_Name)));
    match got with
    | Err e => mret ((false, obj), Err e)
    | Ok fresh => patched fresh
    end.

Definition Patch (obj : StormService) (patch : finalizerPatch)
  : Run W (StormService * result kubeError unit) :=
  r ← RetryKube (patchAttempt patch) (true, obj);
  mret (r.1.2, r.2).

(** Whether the service may go. *)
Definition finalize (s : StormService) : Run W (result stormError bool) :=
  listed ← getRoleSetList s;
  match listed with
  | Err e => mret (Err e)
  | Ok ((_ :: _) as allRoleSets) =>
      r ← deleteRoleSet allRoleSets;
      mret (match r.2 with Some e => Err e | None => Ok false end)
  | Ok [] =>
      if ContainsFinalizer s then
        r ← Patch s (RemoveFinalizerPatch s.(ss_Finalizers) StormServiceFinalizer);
        mret (match r.2 with Err e => Err (ApiError e) | Ok _ => Ok true end)
      else mret (Ok true)
  end.

(** ** The reconciliation. *)

Definition DefaultRequeueAfter : Duration := 15 * 10 ^ 9.

(** The revisions of the service, in order, and the ones of this pass.  [None] is
    a loop over colliding names that has not ended. *)
Definition revisionPass (fuel : nat) (s : StormService)
  : Run W (option (result stormError (list ControllerRevision * (ControllerRevision * ControllerRevision * Z)))) :=
  listed ← getControllerRevision s;
  match listed with
  | Err e => mret (Some (Err e))
  | Ok revisions =>
      let revisions := SortControllerRevisions revisions in
      synced ← syncRevision fuel s revisions;
      mret (match synced with
            | None => None
            | Some (Err e) => Some (Err e)
            | Some (Ok r) => Some (Ok (revisions, r))
            end)
  end.

Definition reconcileRevisions (fuel : nat) (s : StormService) : Run W (option (Duration * option stormError)) :=
  synced ← revisionPass fuel s;
  match synced with
  | None => mret None
  | Some (Err e) => mret (Some (0, Some e))
  | Some (Ok (revisions, (currentRevision, updateRevision, collisionCount))) =>
      r ← sync s currentRevision updateRevision collisionCount;
      match r with
      | Err e => mret (Some (0, Some e))
      | Ok requeueAfter =>
          t ← truncateHistory s revisions currentRevision updateRevision;
          mret (Some match t with Some e => (0, Some e) | None => (requeueAfter, None) end)
      end
  end.

Definition Reconcile (fuel : nat) (name : NamespacedName) : Run W (option (Duration * option stormError)) :=
  got ← call (GetStormService name);
  match got with
  | Err NotFound => mret (Some (0, None))
  | Err e => mret (Some (0, Some (ApiError e)))
  | Ok s =>
      match s.(ss_DeletionTimestamp) with
      | Some _ =>
          r ← finalize s;
          mret (Some match r with
                     | Err e => (DefaultRequeueAfter, Some e)
                     | Ok false => (DefaultRequeueAfter, None)
                     | Ok true => (0, None)
                     end)
      | None =>
          if ContainsFinalizer s then reconcileRevisions fuel s
          else
            r ← Patch s (AddFinalizerPatch s.(ss_Finalizers) StormServiceFinalizer);
            match r.2 with
            | Err e => mret (Some (DefaultRequeueAfter, Some (ApiError e)))
            | Ok _ => reconcileRevisions fuel r.1
            end
      end
  end.
End Revisions.

(** ** What the API server promises of revisions.

    The data of a revision cannot be changed, and a name stands for the same
    data as long as the world is looked at.  [revData] are the revisions there
    have been, [revKept] the ones there are. *)

Definition keyRev (cr : ControllerRevision) : NamespacedName := MkNN cr.(cr_Namespace) cr.(cr_Name).

Class RevisionLaws `{HR : RevisionApi W} := {
  revData : W → gmap NamespacedName (list Z);
  revKept : W → gset NamespacedName;

  ListRevisions_law namespace name w : let w' := (ListRevisions namespace name w).1 in
    revData w ⊆ revData w' ∧
    ∀ items cr, (ListRevisions namespace name w).2 = Ok items → cr ∈ items →
      cr_Namespace cr = namespace ∧ revData w' !! keyRev cr = Some (cr_Data cr);
  CreateRevision_law cr w : let w' := (CreateRevision cr w).1 in
    revData w ⊆ revData w' ∧
    ∀ cr', (CreateRevision cr w).2 = Ok cr' →
      keyRev cr' = keyRev cr ∧ cr_Data cr' = cr_Data cr ∧ revData w' !! keyRev cr = Some (cr_Data cr);
  GetRevision_law key w : let w' := (GetRevision key w).1 in
    revData w ⊆ revData w' ∧
    ∀ cr, (GetRevision key w).2 = Ok cr → keyRev cr = key ∧ revData w' !! key = Some (cr_Data cr);
  UpdateRevision_law cr w : let w' := (UpdateRevision cr w).1 in
    revData w ⊆ revData w' ∧
    ∀ cr', (UpdateRevision cr w).2 = Ok cr' → keyRev cr' = keyRev cr ∧ cr_Data cr' = cr_Data cr;
  DeleteRevision_law cr w : revKept w ∖ {[ keyRev cr ]} ⊆ revKept (DeleteRevision cr w).1;
  ListRoleSets_keeps namespace name w : revKept w ⊆ revKept (ListRoleSets namespace name w).1;
}.

Section RevisionFacts.
Context `{HL : RevisionLaws} {HRL : RetryLaws}.

Lemma EqualRevision_data a b : EqualRevision a b = true → cr_Data a = cr_Data b.
Proof.
  unfold EqualRevision. destruct (hashOf a), (hashOf b); rewrite ?andb_true_iff, bool_decide_eq_true; tauto.
Qed.

(** What a call hands out is what its name stands for. *)
Definition isStored (patch : list Z) (s : StormService) (cr : ControllerRevision) (w : W) : Prop :=
  cr_Namespace cr = ss_Namespace s ∧ cr_Data cr = patch ∧ revData w !! keyRev cr = Some patch.

Definition grows (w w' : W) : Prop := revData w ⊆ revData w'.

Lemma grows_refl w : grows w w.
Proof. unfold grows. reflexivity. Qed.

Lemma grows_trans w1 w2 w3 : grows w1 w2 → grows w2 w3 → grows w1 w3.
Proof. unfold grows. by intros; etrans. Qed.

Lemma isStored_grows patch s cr w w' : grows w w' → isStored patch s cr w → isStored patch s cr w'.
Proof. intros Hg (? & ? & Hs). split; [done|]. split; [done|]. by eapply lookup_weaken. Qed.

Lemma createControllerRevision_holds w0 fuel s revision cc w :
  grows w0 w →
  holds (grows w0) (createControllerRevision fuel s revision cc) w
    (fun r w' => grows w0 w' ∧ ∀ cr cc', r = Some (Ok cr, cc') → isStored (cr_Data revision) s cr w').
Proof.
  revert cc w. induction fuel as [|fuel IH]; intros cc w Hg; cbn [createControllerRevision]; [by apply holds_ret|].
  cbv zeta. set (clone := withName _ _ _).
  destruct (CreateRevision_law clone w) as [Hgc Hc]. pose proof (grows_trans _ _ _ Hg Hgc) as Hg1.
  apply holds_bind, holds_call; [done|].
  destruct (CreateRevision clone w) as [w1 [created|[]]]; cbn [fst snd] in *; try by apply holds_ret.
  { destruct (Hc created eq_refl) as (Hk & Hd & Hs). apply holds_ret. split; [done|]. intros cr cc' [= <- <-].
    unfold isStored. rewrite Hk, Hd, Hs. split; [|done]. by injection Hk. }
  destruct (GetRevision_law (MkNN (cr_Namespace clone) (cr_Name clone)) w1) as [Hgg Hget].
  pose proof (grows_trans _ _ _ Hg1 Hgg) as Hg2. apply holds_bind, holds_call; [done|].
  destruct (GetRevision _ w1) as [w2 [found|e]]; cbn [fst snd] in *; [|by apply holds_ret].
  case_bool_decide as Hd; [|by apply IH]. apply holds_ret. split; [done|]. intros cr cc' [= <- <-].
  destruct (Hget found eq_refl) as [Hk Hs]. unfold isStored. rewrite Hd, <- Hk in Hs. split; [by injection Hk|].
  split; [done|]. by rewrite Hs.
Qed.

Lemma updateRevisionAttempt_holds w0 n patch s clone w :
  grows w0 w ∧ isStored patch s clone w →
  holds (grows w0) (updateRevisionAttempt n clone) w (fun r w' => grows w0 w' ∧ isStored patch s r.1 w').
Proof.
  intros [Hg Hst]. unfold updateRevisionAttempt. destruct (_ =? _); [by apply holds_ret|]. cbv zeta.
  set (new := withRevision clone n). assert (isStored patch s new w) as Hn by exact Hst.
  destruct (UpdateRevision_law new w) as [Hgu Hu]. pose proof (grows_trans _ _ _ Hg Hgu) as Hg1.
  apply (isStored_grows _ _ _ _ _ Hgu) in Hn. apply holds_bind, holds_call; [done|].
  destruct (UpdateRevision new w) as [w1 [updated|e]]; cbn [fst snd] in *.
  { destruct (Hu updated eq_refl) as [Hk Hd]. apply holds_ret. split; [done|]. unfold isStored in *.
    cbn [fst]. rewrite Hk, Hd. split; [|apply Hn]. injection Hk as -> _. apply Hn. }
  destruct (GetRevision_law (MkNN (cr_Namespace new) (cr_Name new)) w1) as [Hgg Hget].
  pose proof (grows_trans _ _ _ Hg1 Hgg) as Hg2. apply (isStored_grows _ _ _ _ _ Hgg) in Hn.
  apply holds_bind, holds_call; [done|]. apply holds_ret. split; [done|].
  destruct (GetRevision _ w1) as [w2 [fresh|e2]]; cbn [fst snd] in *; [|done].
  destruct (Hget fresh eq_refl) as [Hk Hs]. destruct Hn as (Hns & Hd & Hrev).
  fold (keyRev new) in Hk, Hs. rewrite Hrev in Hs. injection Hs as Hs. unfold isStored. rewrite Hk.
  injection Hk as -> _. done.
Qed.

Lemma updateControllerRevision_holds w0 n patch s rev w :
  grows w0 w → isStored patch s rev w →
  holds (grows w0) (updateControllerRevision rev n) w
    (fun r w' => grows w0 w' ∧ ∀ cr, r = Ok cr → isStored patch s cr w').
Proof.
  intros Hg Hst. unfold updateControllerRevision. apply holds_bind. eapply holds_mono;
    [apply (RetryKube_law _ (grows w0) (fun clone w => grows w0 w ∧ isStored patch s clone w) rev w
              (fun r w' => grows w0 w' ∧ isStored patch s r.1 w')); [|done]|done|].
  - intros clone w1 Hc. eapply holds_mono; [by apply updateRevisionAttempt_holds|done|]. simpl. tauto.
  - intros [clone r] w1 [Hg1 Hs1]. apply holds_ret. split; [done|]. simpl in *. destruct r; [|done].
    by intros cr [= <-].
Qed.

(** The update revision of a pass holds the template of the service. *)
Lemma syncRevision_holds w0 fuel s patch revisions w :
  getPatch s = Some patch → grows w0 w →
  (∀ cr, cr ∈ revisions → isStored (cr_Data cr) s cr w) →
  holds (grows w0) (syncRevision fuel s revisions) w
    (fun r w' => grows w0 w' ∧ ∀ cur upd cc, r = Some (Ok (cur, upd, cc)) → isStored patch s upd w').
Proof.
  intros Hp Hg Hall. unfold syncRevision, newRevision. rewrite Hp. cbv zeta.
  set (new := NewControllerRevision _ _ _ _).
  destruct (last (FindEqualRevisions revisions new)) as [equal|] eqn:Ee; [destruct (last revisions) as [newest|] eqn:El|].
  - apply last_Some_elem_of, elem_of_list_filter_bool in Ee as [He%EqualRevision_data Hin].
    change (cr_Data new) with patch in He.
    assert (isStored patch s equal w) as Hst by (rewrite <- He; by apply Hall).
    destruct (EqualRevision newest equal) eqn:Een.
    + apply EqualRevision_data in Een. apply holds_ret. split; [done|]. intros cur upd cc [= _ <- _].
      apply last_Some_elem_of in El. specialize (Hall newest El). rewrite Een, He in Hall. done.
    + apply holds_bind. eapply holds_mono; [by apply (updateControllerRevision_holds w0)|done|].
      intros [updated|e] w1 [Hg1 Hu]; apply holds_ret; (split; [done|]); [|done].
      intros cur upd cc [= _ <- _]. by apply Hu.
  - by apply last_None in El as ->.
  - apply holds_bind. eapply holds_mono; [by apply (createControllerRevision_holds w0)|done|].
    intros [[[created|e] cc]|] w1 [Hg1 Hc]; apply holds_ret; (split; [done|]); [|done..].
    intros cur upd cc' [= _ <- _]. by eapply Hc.
Qed.

Lemma getControllerRevision_holds w0 s w :
  grows w0 w →
  holds (grows w0) (getControllerRevision s) w
    (fun r w' => grows w0 w' ∧ ∀ l, r = Ok l → ∀ cr, cr ∈ l → isStored (cr_Data cr) s cr w').
Proof.
  intros Hg. unfold getControllerRevision. destruct (ListRevisions_law (ss_Namespace s) (ss_Name s) w) as [Hgl Hl].
  pose proof (grows_trans _ _ _ Hg Hgl) as Hg1. apply holds_bind, holds_call; [done|]. apply holds_ret. split; [done|].
  destruct (ListRevisions _ _ w) as [w1 [items|e]]; cbn [fst snd] in *; [|done].
  intros l [= <-] cr. rewrite list_elem_of_In, in_flat_map. intros (x & Hx & Hcr). rewrite in_flat_map in Hcr.
  destruct Hcr as (o & _ & Hcr). destruct (bool_decide _); [|done]. destruct Hcr as [->|[]].
  destruct (Hl items cr eq_refl) as [Hns Hst]; [by apply list_elem_of_In|]. done.
Qed.

Lemma revisionPass_holds w0 fuel s patch w :
  getPatch s = Some patch → grows w0 w →
  holds (grows w0) (revisionPass fuel s) w
    (fun r w' => grows w0 w' ∧ ∀ l cur upd cc, r = Some (Ok (l, (cur, upd, cc))) → isStored patch s upd w').
Proof.
  intros Hp Hg. unfold revisionPass. apply holds_bind.
  eapply holds_mono; [by apply (getControllerRevision_holds w0)|done|].
  intros [l|e] w1 [Hg1 Hl]; [|by apply holds_ret]. cbv zeta. apply holds_bind.
  eapply holds_mono; [apply (syncRevision_holds w0 fuel s patch (SortControllerRevisions l)); [done|done|]|done|].
  - intros cr Hcr. apply (Hl l eq_refl). unfold SortControllerRevisions in Hcr. by rewrite sortBy_perm in Hcr.
  - intros [[[[cur upd] cc]|e]|] w2 [Hg2 Hs]; apply holds_ret; (split; [done|]); [|done..].
    intros l' cur' upd' cc' [= _ <- <- <-]. by eapply Hs.
Qed.
End RevisionFacts.


(** ** The names tried. *)

(** A server that does what it is told of revisions. *)
Class RevisionExact `{HR : RevisionApi W} := {
  revStore : W → gmap NamespacedName ControllerRevision;
  CreateRevision_exact cr w :
    match revStore w !! keyRev cr with
    | Some _ => (CreateRevision cr w).2 = Err AlreadyExists ∧ revStore (CreateRevision cr w).1 = revStore w
    | None => ∃ cr', (CreateRevision cr w).2 = Ok cr' ∧ keyRev cr' = keyRev cr ∧ cr_Data cr' = cr_Data cr ∧
        revStore (CreateRevision cr w).1 = <[keyRev cr := cr']> (revStore w)
    end;
  GetRevision_exact key w :
    revStore (GetRevision key w).1 = revStore w ∧
    (GetRevision key w).2 = match revStore w !! key with Some cr => Ok cr | None => Err NotFound end;
}.

(** The [j]th name tried, counting from [cc], and whether it may be used. *)
Definition probeKey `{K8s} `{K8sApps} (s : StormService) (revision : ControllerRevision) (cc j : Z) : NamespacedName :=
  MkNN (ss_Namespace s) (probeName s revision (wrap32 (cc + j))).

Definition usable (m : gmap NamespacedName ControllerRevision) (data : list Z) (key : NamespacedName) : Prop :=
  match m !! key with Some cr => cr_Data cr = data | None => True end.

(** The search for a name ends.  When the names of the first [k] tries are
    taken by revisions with other contents and the next is not, [k] + 1 tries
    find it: the revision that is returned has that name and the contents asked
    for, and the collision count went up by [k]. *)
Theorem createControllerRevision_ends `{RevisionExact W} fuel s revision cc k w :
  in_int32 cc → (∀ j, 0 ≤ j < Z.of_nat k → ¬ usable (revStore w) (cr_Data revision) (probeKey s revision cc j)) →
  usable (revStore w) (cr_Data revision) (probeKey s revision cc (Z.of_nat k)) → (k < fuel)%nat →
  ∃ cr, value (createControllerRevision fuel s revision cc) w = Some (Ok cr, wrap32 (cc + Z.of_nat k)) ∧
    cr_Data cr = cr_Data revision ∧
    (keyRev cr = probeKey s revision cc (Z.of_nat k) ∨
     revStore w !! probeKey s revision cc (Z.of_nat k) = Some cr).
Proof.
  revert cc k w. induction fuel as [|fuel IH]; intros cc k w Hcc Htaken Hfree Hfuel; [lia|].
  cbn [createControllerRevision]. cbv zeta. set (clone := withName _ _ _). rewrite value_bind, value_call, final_call.
  pose proof (CreateRevision_exact clone w) as Hc.
  assert (keyRev clone = probeKey s revision cc 0) as Hk0 by (unfold probeKey; by rewrite Z.add_0_r, wrap32_id).
  destruct (CreateRevision clone w) as [w1 r] eqn:Ec. cbn [fst snd] in *.
  destruct (revStore w !! keyRev clone) as [found|] eqn:Ef.
  - destruct Hc as [-> Hw1]. rewrite value_bind, value_call, final_call.
    destruct (GetRevision_exact (keyRev clone) w1) as [Hw2 Hg]. fold (keyRev clone). destruct (GetRevision (keyRev clone) w1) as [w2 r2].
    cbn [fst snd] in *. rewrite Hw1, Ef in Hg. subst r2. destruct k as [|k].
    + unfold usable in Hfree. change (Z.of_nat 0) with 0 in *. rewrite <- Hk0, Ef in Hfree.
      rewrite bool_decide_eq_true_2 by done. exists found. rewrite Z.add_0_r, wrap32_id by done.
      rewrite <- Hk0, Ef. split; [done|]. split; [done|]. by right.
    + rewrite bool_decide_eq_false_2.
      2:{ intros Hd. apply (Htaken 0); [lia|]. unfold usable. by rewrite <- Hk0, Ef. }
      assert (∀ j, probeKey s revision (wrap32 (cc + 1)) j = probeKey s revision cc (j + 1)) as Hshift.
      { intros j. unfold probeKey. rewrite wrap32_add_l. do 3 f_equal. lia. }
      destruct (IH (wrap32 (cc + 1)) k w2) as (cr & Hv & Hd & Hk).
      * apply wrap32_range.
      * intros j Hj. rewrite Hshift, Hw2, Hw1. apply Htaken. lia.
      * rewrite Hshift, Hw2, Hw1. by replace (Z.of_nat k + 1) with (Z.of_nat (S k)) by lia.
      * lia.
      * exists cr. rewrite Hshift, Hw2, Hw1, wrap32_add_l in *.
        replace (cc + 1 + Z.of_nat k) with (cc + Z.of_nat (S k)) in Hv by lia.
        replace (Z.of_nat k + 1) with (Z.of_nat (S k)) in Hk by lia. done.
  - destruct Hc as (cr & -> & Hkey & Hd & _). destruct k as [|k].
    + exists cr. change (Z.of_nat 0) with 0. rewrite Z.add_0_r, wrap32_id by done. split; [done|]. split; [done|].
      left. by rewrite Hkey.
    + destruct (Htaken 0); [lia|]. unfold usable. by rewrite <- Hk0, Ef.
Qed.

(** *** Names that do not change.

    The last digit written to FNV-1 is xored into the low bits of the hash, and
    the name keeps the first six digits of its decimal value: the tries 0 to 9
    share their name unless the low bits carry over. *)

Lemma append_assoc (a b c : string) : String.append (String.append a b) c = String.append a (String.append b c).
Proof. induction a as [|x a IH]; [done|exact (f_equal (String x) IH)]. Qed.

Lemma append_nil (a : string) : String.append a "" = a.
Proof. induction a as [|x a IH]; [done|exact (f_equal (String x) IH)]. Qed.

Lemma append_length (a b : string) : String.length (String.append a b) = (String.length a + String.length b)%nat.
Proof. induction a as [|x a IH]; [done|exact (f_equal S IH)]. Qed.

Lemma substring_prefix a b : String.substring 0 (String.length a) (String.append a b) = a.
Proof. induction a as [|x a IH]; [by destruct b|exact (f_equal (String x) IH)]. Qed.

Lemma pretty_N_go_app x s : pretty_N_go x s = String.append (pretty_N_go x "") s.
Proof.
  revert s. induction (N.lt_wf_0 x) as [x _ IH]. intros s.
  destruct (decide (0 < x)%N) as [Hx|Hx]; [|assert (x = 0)%N as -> by lia; by rewrite !pretty_N_go_0].
  rewrite !(pretty_N_go_step x) by done. assert (x `div` 10 < x)%N as Hd by (apply N.div_lt; lia).
  rewrite (IH _ Hd), (IH _ Hd (String _ "")), append_assoc. done.
Qed.

Lemma pretty_digit z : 10 ≤ z →
  ∃ c : ascii, pretty z = String.append (pretty (z / 10)) (String c "").
Proof.
  intros Hz. destruct z as [|x|x]; [lia| |lia]. set (n := N.pos x).
  assert (10 ≤ n)%N as Hn by (unfold n; lia). assert (0 < n `div` 10)%N as Hd by (apply N.div_str_pos; lia).
  exists (pretty_N_char (n `mod` 10)). change (pretty (Z.pos x)) with (pretty n).
  assert (Z.pos x / 10 = Z.of_N (n `div` 10)) as -> by (rewrite N2Z.inj_div; done).
  destruct (n `div` 10)%N as [|y] eqn:Ey; [lia|]. change (pretty (Z.of_N (N.pos y))) with (pretty (N.pos y)).
  unfold pretty, pretty_N. rewrite !decide_False by lia. rewrite pretty_N_go_step by lia. rewrite Ey.
  apply pretty_N_go_app.
Qed.

(** The decimal digits of a number of [k] + 1 digits or more: those of its
    quotient, and [k] more. *)
Lemma pretty_quotient k z : 10 ^ Z.of_nat k ≤ z →
  ∃ rest, pretty z = String.append (pretty (z / 10 ^ Z.of_nat k)) rest ∧ String.length rest = k.
Proof.
  revert z. induction k as [|k IH]; intros z Hz.
  - exists "". rewrite Z.div_1_r. split; [|done]. by rewrite append_nil.
  - rewrite Nat2Z.inj_succ, Z.pow_succ_r in Hz |- * by lia.
    assert (0 < 10 ^ Z.of_nat k) by (apply Z.pow_pos_nonneg; lia).
    destruct (pretty_digit z) as [c Hc]; [lia|].
    destruct (IH (z / 10)) as (rest & Hr & Hl); [by apply Z.div_le_lower_bound; lia|].
    exists (String.append rest (String c "")). rewrite Hc, Hr, append_assoc, append_length, Hl. simpl.
    rewrite Z.div_div by lia. split; [done|lia].
Qed.

Lemma pretty_length_digit z : 0 ≤ z < 10 → String.length (pretty z) = 1%nat.
Proof. intros Hz. assert (z ∈ seqZ 0 10) as Hin by (apply elem_of_seqZ; lia). by repeat (apply elem_of_cons in Hin as [->|Hin]; [done|]); inversion Hin. Qed.

Lemma pretty_length_six z : 10 ^ 5 ≤ z < 10 ^ 6 → String.length (pretty z) = 6%nat.
Proof.
  intros Hz. destruct (pretty_quotient 5 z) as (rest & -> & Hl); [lia|]. rewrite append_length, Hl.
  rewrite pretty_length_digit; [done|]. change (10 ^ Z.of_nat 5) with (10 ^ 5). pose proof (Z.div_mod z (10 ^ 5)).
  pose proof (Z.mod_pos_bound z (10 ^ 5)). lia.
Qed.

Section ShortNames.
Context `{HK : K8s} `{HX : K8sApps} {HXL : K8sAppsLaws}.

Lemma ShortSafeEncodeString_leading h : 10 ^ 9 ≤ h < 10 ^ 10 →
  ShortSafeEncodeString h = SafeEncodeString (pretty (h / 10 ^ 4)).
Proof.
  intros Hh. unfold ShortSafeEncodeString. destruct (pretty_quotient 4 h) as (rest & -> & Hl); [lia|].
  change (10 ^ Z.of_nat 4) with (10 ^ 4).
  pose proof (Z.div_mod h (10 ^ 4)). pose proof (Z.mod_pos_bound h (10 ^ 4)).
  assert (String.length (pretty (h / 10 ^ 4)) = 6%nat) as H6 by (apply pretty_length_six; lia).
  rewrite SafeEncodeString_app, append_length, !SafeEncodeString_length, H6, Hl. simpl.
  pose proof (substring_prefix (SafeEncodeString (pretty (h / 10 ^ 4))) (SafeEncodeString rest)) as Hs.
  by rewrite SafeEncodeString_length, H6 in Hs.
Qed.

(** The last byte reaches the low bits only. *)
Lemma fnv32_last data p : 0 ≤ p < 16 → fnv32 (data ++ [48 + p]) / 16 = fnv32 (data ++ [48]) / 16.
Proof.
  intros Hp. unfold fnv32. rewrite !foldl_app. cbn [foldl].
  generalize ((foldl (fun h b => Z.lxor ((h * 16777619) mod 2 ^ 32) b) 2166136261 data * 16777619) mod 2 ^ 32) as x.
  intros x. change 16 with (2 ^ 4). rewrite <- !Z.shiftr_div_pow2, !Z.shiftr_lxor by lia. f_equal.
  rewrite !Z.shiftr_div_pow2 by lia. change (48 / 2 ^ 4) with 3.
  symmetry. apply (Z.div_unique _ _ _ p); lia.
Qed.

Lemma byteCodes_digit p : 0 ≤ p ≤ 9 → byteCodes (pretty p) = [48 + p].
Proof. intros Hp. assert (p ∈ seqZ 0 10) as Hin by (apply elem_of_seqZ; lia). by repeat (apply elem_of_cons in Hin as [->|Hin]; [done|]); inversion Hin. Qed.

Lemma fnv32_range data : Forall (fun b => 0 ≤ b < 256) data → 0 ≤ fnv32 data < 2 ^ 32.
Proof.
  intros Hd. unfold fnv32. assert (0 ≤ 2166136261 < 2 ^ 32) as Hi by lia. revert Hi. generalize 2166136261 as i.
  induction Hd as [|b l Hb Hl IH]; intros i Hi; cbn [foldl]; [done|]. apply IH.
  generalize (Z.mod_pos_bound (i * 16777619) (2 ^ 32) eq_refl). generalize ((i * 16777619) mod 2 ^ 32) as x. intros x Hx0. assert (0 ≤ x < 2 ^ 32) as Hx by lia.
  split; [apply Z.lxor_nonneg; lia|]. destruct (decide (Z.lxor x b = 0)) as [->|Hne]; [lia|].
  apply Z.log2_lt_pow2; [pose proof (proj2 (Z.lxor_nonneg x b)); lia|].
  eapply Z.le_lt_trans; [apply Z.log2_lxor; lia|].
  apply Z.max_lub_lt; (destruct (decide (x = 0)) as [->|]; destruct (decide (b = 0)) as [->|]; try (simpl; lia); apply Z.log2_lt_pow2; lia).
Qed.

Lemma probe_hash revision p : 0 ≤ p ≤ 9 →
  HashControllerRevision revision (Some p) = ShortSafeEncodeString (fnv32 (cr_Data revision ++ [48 + p])).
Proof. intros Hp. unfold HashControllerRevision. by rewrite byteCodes_digit. Qed.

(** Two hashes that agree but for their low bits, far from a carry. *)
Lemma same_leading a b : a / 16 = b / 16 → 10 ^ 9 ≤ a / 16 * 16 → 0 ≤ a < 2 ^ 32 → 0 ≤ b < 2 ^ 32 →
  (a / 16 * 16) mod 10 ^ 4 ≤ 9984 → ShortSafeEncodeString a = ShortSafeEncodeString b.
Proof.
  intros Hab Hlow Ha Hb Hmod. set (c := a / 16 * 16) in *.
  assert (c ≤ a < c + 16) as Hac by (pose proof (Z.div_mod a 16); pose proof (Z.mod_pos_bound a 16); lia).
  assert (c ≤ b < c + 16) as Hbc by (pose proof (Z.div_mod b 16); pose proof (Z.mod_pos_bound b 16); lia).
  rewrite !ShortSafeEncodeString_leading by lia. do 2 f_equal. clearbody c.
  assert (∀ x, c ≤ x < c + 16 → x / 10 ^ 4 = c / 10 ^ 4) as Hq; [|by rewrite (Hq a Hac), (Hq b Hbc)].
  intros x Hx. symmetry. apply (Z.div_unique _ _ _ (c mod 10 ^ 4 + (x - c))).
  - left. pose proof (Z.mod_pos_bound c (10 ^ 4)). lia.
  - pose proof (Z.div_mod c (10 ^ 4)). lia.
Qed.
End ShortNames.

(** The first ten tries of a revision's name are one.  The collision count is
    written to the hash as a decimal, its last digit reaches the low four bits of
    the hash, and the name keeps its leading six digits: unless these bits carry
    over, the collision counts 0 to 9 give the same name, so that the search for
    another name only finds one at the tenth collision. *)
Theorem collision_tries_share_a_name `{K8s} `{K8sAppsLaws} s revision p q :
  let hash := fnv32 (cr_Data revision ++ [48]) / 16 * 16 in
  Forall (fun b => 0 ≤ b < 256) (cr_Data revision) → 10 ^ 9 ≤ hash → hash mod 10 ^ 4 ≤ 9984 →
  0 ≤ p ≤ 9 → 0 ≤ q ≤ 9 →
  probeName s revision p = probeName s revision q.
Proof.
  intros hash Hbytes Hlow Hmod Hp Hq. unfold probeName. rewrite !probe_hash by done. f_equal.
  assert (∀ x, 0 ≤ x ≤ 9 → 0 ≤ fnv32 (cr_Data revision ++ [48 + x]) < 2 ^ 32) as Hr.
  { intros x Hx. apply fnv32_range, Forall_app. split; [done|]. constructor; [lia|constructor]. }
  pose proof (fnv32_last (cr_Data revision) p) as Hlp. pose proof (fnv32_last (cr_Data revision) q) as Hlq.
  unfold hash in *. apply same_leading; [rewrite Hlp, Hlq by lia; done|rewrite Hlp by lia; done|auto..|rewrite Hlp by lia; done].
Qed.

(** ** The history that is kept. *)

Section History.
Context `{HL : RevisionLaws}.

Lemma deleteRevisions_keeps (K : gset NamespacedName) l w :
  (∀ r, r ∈ l → keyRev r ∉ K) → K ⊆ revKept w →
  holds (fun w' => K ⊆ revKept w') (deleteRevisions l) w (fun _ _ => True).
Proof.
  revert w. induction l as [|r l IH]; intros w Hl HK; cbn [deleteRevisions]; [by apply holds_ret|].
  assert (K ⊆ revKept (DeleteRevision r w).1) as HK1.
  { etrans; [|apply DeleteRevision_law]. specialize (Hl r). set_solver. }
  apply holds_bind, holds_call; [done|]. destruct (DeleteRevision r w) as [w1 [[]|e]]; [|by apply holds_ret].
  apply IH; [set_solver|done].
Qed.

Lemma truncateHistory_keeps_set (K : gset NamespacedName) s revisions current update roleSets w :
  value (getRoleSetList s) w = Ok roleSets → K ⊆ revKept w →
  (let history := historyOf revisions (liveRevisions current update roleSets) in
   let limit := default DefaultRevisionHistoryLimit (ss_RevisionHistoryLimit s) in
   ∀ r, r ∈ take (Z.to_nat (Z.of_nat (length history) - limit)) history → keyRev r ∉ K) →
  holds (fun w' => K ⊆ revKept w') (truncateHistory s revisions current update) w (fun _ _ => True).
Proof.
  cbv zeta. intros Hv HK Hl. unfold truncateHistory. apply holds_bind. unfold getRoleSetList in *.
  assert (K ⊆ revKept (ListRoleSets (ss_Namespace s) (ss_Name s) w).1) as HK1
    by (etrans; [done|apply ListRoleSets_keeps]).
  rewrite value_bind, value_call in Hv. apply holds_bind, holds_call; [done|]. apply holds_ret.
  change (value (mret ?x) ?w) with x in Hv. rewrite Hv. cbv zeta.
  destruct (_ <=? _); [by apply holds_ret|]. destruct (_ <? _); [by apply holds_ret|].
  apply holds_bind. eapply holds_mono; [by apply deleteRevisions_keeps|done|]. intros r w2 _. by apply holds_ret.
Qed.

(** Whether a revision is among the last [limit] that nobody needs. *)
Definition amongNewest (limit : Z) (history : list ControllerRevision) (r : ControllerRevision) : Prop :=
  r ∈ drop (Z.to_nat (Z.of_nat (length history) - limit)) history.
End History.

(** The history.  Whatever deletions fail, a pass deletes no revision that is
    current, or being rolled out, or that a RoleSet carries, and none of the
    newest ones up to the limit on the history. *)
Theorem truncateHistory_keeps `{RevisionLaws W} s revisions current update roleSets r w w' :
  NoDup (keyRev <$> revisions) → value (getRoleSetList s) w = Ok roleSets →
  r ∈ revisions → keyRev r ∈ revKept w →
  (let live := liveRevisions current update roleSets in
   cr_Name r ∈ live ∨
   amongNewest (default DefaultRevisionHistoryLimit (ss_RevisionHistoryLimit s)) (historyOf revisions live) r) →
  w' ∈ visited (truncateHistory s revisions current update) w → keyRev r ∈ revKept w'.
Proof.
  cbv zeta. intros Hnd Hv Hr HK Hsafe.
  destruct (truncateHistory_keeps_set {[ keyRev r ]} s revisions current update roleSets w Hv) as [HF _]; [set_solver| |].
  - cbv zeta. set (history := historyOf _ _) in *. set (n := Z.to_nat _). intros x Hx Heq%elem_of_singleton.
    assert (x ∈ history) as Hxh by (revert Hx; apply elem_of_subseteq, subseteq_take).
    destruct Hsafe as [Hlive|Hnew].
    + apply elem_of_list_filter_bool in Hxh as [Hx2 _]. apply negb_true_iff, bool_decide_eq_false in Hx2.
      apply Hx2. injection Heq as _ ->. done.
    + unfold amongNewest in Hnew. fold n in Hnew.
      assert (NoDup (keyRev <$> history)) as Hndh.
      { eapply sublist_NoDup; [exact Hnd|]. apply fmap_sublist, sublist_filter_list. }
      rewrite <- (take_drop n history), fmap_app in Hndh. apply NoDup_app in Hndh as (_ & Hd & _).
      apply (Hd (keyRev x)); [by apply list_elem_of_fmap_2|]. rewrite Heq. by apply list_elem_of_fmap_2.
  - rewrite Forall_forall in HF. intros Hw'. specialize (HF w' Hw'). set_solver.
Qed.

(** A negative limit ends in a panic. *)
Lemma negative_history_limit_panics `{RevisionApi W} s revisions current update w roleSets limit :
  value (getRoleSetList s) w = Ok roleSets → ss_RevisionHistoryLimit s = Some limit → limit < 0 →
  is_Some (value (truncateHistory s revisions current update) w).
Proof.
  intros Hv Hl Hneg. unfold truncateHistory. rewrite value_bind, Hv, Hl. cbv zeta. cbn [default from_option id].
  rewrite (proj2 (Z.leb_gt _ _)) by (simpl; lia). destruct (_ <? _); [done|]. rewrite value_bind.
  destruct (value (deleteRevisions _) _); [done|]. simpl. by rewrite (proj2 (Z.ltb_lt _ _)).
Qed.

(** ** Finalizers. *)

(** The finalizer goes only when a listing shows that the service owns no
    RoleSet. *)
Lemma finalize_waits_for_rolesets `{StormLaws W} `{!RevisionApi} s w :
  value (finalize s) w = Ok true →
  ∃ w1, final (getRoleSetList s) w = w1 ∧ ownedBy s w1 = 0.
Proof.
  unfold finalize. rewrite value_bind. destruct (value (getRoleSetList s) w) as [all|e] eqn:Hv; [|done].
  destruct (getRoleSetList_run s w all Hv) as (w1 & Hrun & Hl). intros Hf. exists w1.
  split; [unfold final; by rewrite Hrun|]. rewrite <- (listed_length s w1 all Hl).
  destruct all as [|rs all]; [done|]. rewrite value_bind in Hf. by destruct (value (deleteRoleSet _) _) as [n [e|]].
Qed.

(** [utils.Patch] reads the name of its object after it has reset it: every
    retry asks for the object without a name, and where there is none, which
    Kubernetes sees to, it patches nothing. *)
Theorem Patch_retry_patches_nothing `{RevisionApi W} patch obj w e :
  (GetStormService (MkNN "" "") w).2 = Err e →
  patchAttempt patch (false, obj) w =
    ([(GetStormService (MkNN "" "") w).1], (GetStormService (MkNN "" "") w).1, ((false, zeroStormService), Err e)).
Proof.
  intros Hg. unfold patchAttempt, mbind, run_bind, call. simpl.
  destruct (GetStormService (MkNN "" "") w) as [w1 r]. simpl in *. by rewrite Hg.
Qed.
