(* ===== verification/StormStatus.v ===== *)
(** * What the status of a StormService says ([updateStatus] of
    [pkg/controller/stormservice/sync.go] and what it calls).

    Every status a pass writes is well formed: its figures are int32, a
    condition is there once, Ready and Progressing exclude each other, and the
    figures of the roles are sorted by distinct names.  And it is Ready exactly
    when the RoleSets that were listed are as many as asked for, all ready and
    all of the new revision. *)

From S2P Require Import Prelude Api Claims Ledger KVPlan Placement Reservations Runtime Storm StormSync StormFacts.

(** ** Well-formed statuses. *)

Definition conditionTypes (st : StormServiceStatus) : list string := sc_Type <$> st_Conditions st.

Record wfRoleStatus (r : RoleStatus) : Prop := MkWfRole {
  wr_replicas : in_int32 (rst_Replicas r);
  wr_ready : in_int32 (rst_ReadyReplicas r);
  wr_notReady : in_int32 (rst_NotReadyReplicas r);
  wr_updated : in_int32 (rst_UpdatedReplicas r);
  wr_updatedReady : in_int32 (rst_UpdatedReadyReplicas r);
}.

Record wfConditions (st : StormServiceStatus) : Prop := MkWfConditions {
  wc_once : NoDup (conditionTypes st);
  wc_exclusive : ¬ (StormServiceReady ∈ conditionTypes st ∧ StormServiceProgressing ∈ conditionTypes st);
}.

Record wfFigures (st : StormServiceStatus) : Prop := MkWfFigures {
  wf_replicas : in_int32 (st_Replicas st);
  wf_ready : in_int32 (st_ReadyReplicas st);
  wf_notReady : in_int32 (st_NotReadyReplicas st);
  wf_current : in_int32 (st_CurrentReplicas st);
  wf_updated : in_int32 (st_UpdatedReplicas st);
  wf_updatedReady : in_int32 (st_UpdatedReadyReplicas st);
  wf_collisions : from_option in_int32 True (st_CollisionCount st);
  wf_roles : Forall wfRoleStatus (st_RoleStatuses st);
  wf_roleNames : StronglySorted (fun a b => strless (rst_Name a) (rst_Name b) = true) (st_RoleStatuses st);
}.

Definition wfStatus (st : StormServiceStatus) : Prop := wfConditions st ∧ wfFigures st.

(** ** Conditions. *)

Lemma filterOut_types l t : sc_Type <$> FilterOutCondition l t =
  List.filter (fun x => negb (bool_decide (x = t))) (sc_Type <$> l).
Proof.
  unfold FilterOutCondition. induction l as [|c l IH]; simpl; [done|].
  destruct (bool_decide (sc_Type c = t)); simpl; [done|]. by f_equal.
Qed.

Lemma elem_of_filterOut l t x : x ∈ sc_Type <$> FilterOutCondition l t ↔ x ∈ sc_Type <$> l ∧ x ≠ t.
Proof.
  rewrite filterOut_types, elem_of_list_filter_bool, negb_true_iff, bool_decide_eq_false. tauto.
Qed.

Lemma filterOut_NoDup l t : NoDup (sc_Type <$> l) → NoDup (sc_Type <$> FilterOutCondition l t).
Proof. intros Hl. rewrite filterOut_types. eapply sublist_NoDup; [exact Hl|]. apply sublist_filter_list. Qed.

(** A condition that takes the place of the one of its type. *)
Lemma replaced_NoDup l c : NoDup (sc_Type <$> l) → NoDup (sc_Type <$> FilterOutCondition l (sc_Type c) ++ [c]).
Proof.
  intros Hl. rewrite fmap_app. apply NoDup_app. split; [by apply filterOut_NoDup|]. split; [|apply NoDup_singleton].
  intros x [_ Hx]%elem_of_filterOut. simpl. by rewrite list_elem_of_singleton.
Qed.

Lemma elem_of_replaced l c x :
  x ∈ sc_Type <$> FilterOutCondition l (sc_Type c) ++ [c] ↔ x ∈ sc_Type <$> l ∨ x = sc_Type c.
Proof.
  rewrite fmap_app, elem_of_app, elem_of_filterOut. simpl. rewrite list_elem_of_singleton.
  destruct (decide (x = sc_Type c)); tauto.
Qed.

Lemma GetCondition_type l t c : GetCondition l t = Some c → sc_Type c = t ∧ c ∈ l.
Proof.
  unfold GetCondition. intros Hf. apply List.find_some in Hf as [Hin Ht%bool_decide_eq_true].
  split; [done|]. by apply list_elem_of_In.
Qed.

Lemma Set_conditions st c :
  st_Conditions (SetStormServiceCondition st c) = st_Conditions st ∨
  ∃ c', sc_Type c' = sc_Type c ∧
    st_Conditions (SetStormServiceCondition st c) = FilterOutCondition (st_Conditions st) (sc_Type c') ++ [c'].
Proof.
  unfold SetStormServiceCondition. destruct (GetCondition _ _) as [current|]; [|right; by exists c].
  destruct (_ && _); [by left|]. right. destruct (bool_decide _); [|by exists c].
  by exists (withTransition c (sc_LastTransitionTime current)).
Qed.

Lemma Set_present st c : sc_Type c ∈ conditionTypes (SetStormServiceCondition st c).
Proof.
  unfold conditionTypes, SetStormServiceCondition.
  destruct (GetCondition (st_Conditions st) (sc_Type c)) as [current|] eqn:Eg.
  - destruct (_ && _).
    + apply GetCondition_type in Eg as [<- Hin]. by apply list_elem_of_fmap_2.
    + destruct (bool_decide _); simpl; rewrite fmap_app; set_solver.
  - simpl. rewrite fmap_app. set_solver.
Qed.

Lemma Set_types st c x :
  x ∈ conditionTypes (SetStormServiceCondition st c) → x ∈ conditionTypes st ∨ x = sc_Type c.
Proof.
  unfold conditionTypes. destruct (Set_conditions st c) as [->|(c' & Hc & ->)]; [by left|].
  rewrite elem_of_replaced, Hc. done.
Qed.

Lemma Set_NoDup st c : NoDup (conditionTypes st) → NoDup (conditionTypes (SetStormServiceCondition st c)).
Proof.
  unfold conditionTypes. destruct (Set_conditions st c) as [->|(c' & _ & ->)]; [done|]. apply replaced_NoDup.
Qed.

Lemma Set_exclusive st c :
  sc_Type c ≠ StormServiceReady → sc_Type c ≠ StormServiceProgressing →
  wfConditions st → wfConditions (SetStormServiceCondition st c).
Proof.
  intros Hr Hp [Ho He]. split; [by apply Set_NoDup|]. intros [H1%Set_types H2%Set_types].
  apply He. destruct H1, H2; first [done|congruence].
Qed.

Lemma Remove_types st t x :
  x ∈ conditionTypes (RemoveStormServiceCondition st t) ↔ x ∈ conditionTypes st ∧ x ≠ t.
Proof. apply elem_of_filterOut. Qed.

Lemma Remove_wf st t : wfConditions st → wfConditions (RemoveStormServiceCondition st t).
Proof.
  intros [Ho He]. split; [by apply filterOut_NoDup|]. rewrite !Remove_types. tauto.
Qed.

(** One of the two excludes the other. *)
Lemma Set_alone st c other :
  sc_Type c ∈ [StormServiceReady; StormServiceProgressing] →
  other ∈ [StormServiceReady; StormServiceProgressing] → other ≠ sc_Type c →
  wfConditions st → wfConditions (SetStormServiceCondition (RemoveStormServiceCondition st other) c).
Proof.
  intros Hc Ho Hne Hst. pose proof (wc_once _ (Remove_wf st other Hst)) as Hnd. split; [by apply Set_NoDup|].
  assert (other ∉ conditionTypes (SetStormServiceCondition (RemoveStormServiceCondition st other) c)) as Hno.
  { intros [[_ Hx]%Remove_types|Hx]%Set_types; done. }
  intros [H1 H2]. apply Hno. by apply elem_of_cons in Ho as [->|[->|[]%elem_of_nil]%elem_of_cons].
Qed.

(** ** The figures of the roles. *)

Section Roles.
Context `{K8s} `{K8sApps}.

Lemma addRoleStatus_wf b agg status : wfRoleStatus agg → wfRoleStatus (addRoleStatus b agg status).
Proof. intros [? ? ? ? ?]. split; simpl; try apply wrap32_range; destruct b; try apply wrap32_range; done. Qed.

(** Every entry is well formed and stands under its own name. *)
Definition wfRoleMap (m : gmap string RoleStatus) : Prop :=
  map_Forall (fun name r => rst_Name r = name ∧ wfRoleStatus r) m.

Lemma zeroRole_wf : wfRoleStatus zeroRoleStatus.
Proof. split; simpl; unfold in_int32; lia. Qed.

Lemma aggregate_step b roles m :
  wfRoleMap m →
  wfRoleMap (foldl (fun m status => <[rst_Name status := addRoleStatus b
               (default zeroRoleStatus (m !! rst_Name status)) status]> m) m roles).
Proof.
  revert m. induction roles as [|r roles IH]; intros m Hm; simpl; [done|]. apply IH.
  apply map_Forall_insert_2; [|done]. split; [done|]. apply addRoleStatus_wf.
  destruct (m !! rst_Name r) as [x|] eqn:Ex; simpl; [by apply (Hm _ _ Ex)|apply zeroRole_wf].
Qed.

(** The role statuses, before they are sorted. *)
Definition roleMap (roleSets : list RoleSet) (rev : string) (m : gmap string RoleStatus) : gmap string RoleStatus :=
  foldl (fun m rs => foldl (fun m status =>
    <[rst_Name status := addRoleStatus (isRoleSetMatchRevision rs rev)
        (default zeroRoleStatus (m !! rst_Name status)) status]> m) m (rs_Roles rs)) m roleSets.

Lemma roleMap_wf roleSets rev m : wfRoleMap m → wfRoleMap (roleMap roleSets rev m).
Proof.
  revert m. induction roleSets as [|rs l IH]; intros m Hm; simpl; [done|]. apply IH. by apply aggregate_step.
Qed.

#[local] Instance byRoleName_weak : StrictWeak (fun a b : RoleStatus => strless (rst_Name a) (rst_Name b)).
Proof. split; intros *; [apply less_asym|apply less_negtrans]. Qed.

Lemma aggregate_wf roleSets rev :
  Forall wfRoleStatus (aggregateRoleStatuses roleSets rev) ∧
  StronglySorted (fun a b => strless (rst_Name a) (rst_Name b) = true) (aggregateRoleStatuses roleSets rev).
Proof.
  unfold aggregateRoleStatuses. fold (roleMap roleSets rev ∅). set (m := roleMap roleSets rev ∅).
  assert (wfRoleMap m) as Hm by (apply roleMap_wf; apply map_Forall_empty).
  assert (∀ r, r ∈ (map_to_list m).*2 → m !! rst_Name r = Some r ∧ wfRoleStatus r) as Hin.
  { intros r ([k r'] & -> & Hkr)%list_elem_of_fmap. apply elem_of_map_to_list in Hkr. simpl.
    destruct (Hm _ _ Hkr) as [Hn Hw]. simpl in Hn. by rewrite Hn. }
  set (less := fun a b => strless (rst_Name a) (rst_Name b)).
  pose proof (sortBy_perm less ((map_to_list m).*2)) as Hp.
  pose proof (sortBy_sorted less ((map_to_list m).*2)) as Hs. set (sorted := sortBy less _) in *. split.
  - apply Forall_forall. intros r Hr. rewrite Hp in Hr. by apply Hin.
  - assert (NoDup (rst_Name <$> sorted)) as Hnd.
    { rewrite Hp. replace (rst_Name <$> (map_to_list m).*2) with ((map_to_list m).*1); [apply NoDup_fst_map_to_list|].
      rewrite <- list_fmap_compose. apply list_fmap_ext. intros i [k r] Hk%list_elem_of_lookup_2%elem_of_map_to_list. simpl.
      symmetry. by apply (Hm _ _ Hk). }
    clearbody sorted. clear Hp Hin. induction Hs as [|x l Hl IH Hx]; [constructor|].
    apply NoDup_cons in Hnd as [Hnin Hnd]. constructor; [by apply IH|].
    rewrite Forall_forall in Hx |- *. intros y Hy. specialize (Hx y Hy). unfold notAfter, less in Hx.
    destruct (strless (rst_Name x) (rst_Name y)) eqn:E; [done|]. destruct Hnin.
    rewrite (strless_total _ _ E Hx). by apply list_elem_of_fmap_2.
Qed.
End Roles.

(** ** Every step of a report. *)

Section Report.
Context `{HA : StormApi W} {HRL : RetryLaws}.

Lemma figures_setConditions st l : wfFigures st → wfFigures (setConditions st l).
Proof. by intros []. Qed.

Lemma figures_Set st c : wfFigures st → wfFigures (SetStormServiceCondition st c).
Proof.
  intros Hst. unfold SetStormServiceCondition. destruct (GetCondition _ _); [|by apply figures_setConditions].
  destruct (_ && _); [done|]. destruct (bool_decide _); by apply figures_setConditions.
Qed.

Lemma Remove_status st t : wfStatus st → wfStatus (RemoveStormServiceCondition st t).
Proof. intros [? ?]. split; [by apply Remove_wf|by apply figures_setConditions]. Qed.

Lemma Set_status st c :
  sc_Type c ≠ StormServiceReady → sc_Type c ≠ StormServiceProgressing →
  wfStatus st → wfStatus (SetStormServiceCondition st c).
Proof. intros Hr Hp [? ?]. split; [by apply Set_exclusive|by apply figures_Set]. Qed.

Lemma observed_status s cur upd cc :
  in_int32 cc → wfStatus (ss_Status s) → wfStatus (observedStatus s cur upd cc).
Proof. intros Hcc [[? ?] []]. split; by split. Qed.

Lemma counted_status st all cur upd : wfStatus st → wfStatus (countedStatus st all cur upd).
Proof.
  intros [Hc Hf]. split.
  - destruct (Remove_wf st StormServiceReplicaFailure Hc) as [? ?]. by split.
  - destruct Hf. split; simpl; try done; try apply wrap32_range. destruct (_ =? _); apply wrap32_range.
Qed.

Lemma available_status st now : wfStatus st → wfStatus (setStormServiceAvailabilityCondition st true now).
Proof.
  intros [Hc Hf]. split.
  - apply Set_alone; [set_solver|set_solver|done|done].
  - apply figures_Set, figures_setConditions. done.
Qed.

Lemma nextProgressing_type s old now : sc_Type (nextProgressing s old now) = StormServiceProgressing.
Proof.
  unfold nextProgressing. destruct (GetCondition (st_Conditions old) StormServiceProgressing) as [c|] eqn:Ec.
  - apply GetCondition_type in Ec as [Ht _]. repeat case_match; done.
  - by destruct (ss_Paused s).
Qed.

Lemma progressing_status s old now :
  wfStatus (ss_Status s) → StormServiceReady ∉ conditionTypes (ss_Status s) →
  wfStatus (ss_Status (syncStormServiceProgressingCondition s old now)).
Proof.
  intros [[Ho _] Hf] Hr. split; [|by apply figures_setConditions].
  pose proof (nextProgressing_type s old now) as Ht.
  split; unfold conditionTypes, syncStormServiceProgressingCondition; simpl; rewrite <- Ht.
  - by apply replaced_NoDup.
  - rewrite !elem_of_replaced, Ht. intros [[?|?] _]; done.
Qed.

Lemma gang_status st all now later : wfStatus st → wfStatus (setGangSchedulingConditions st all now later).
Proof.
  intros Hst. unfold setGangSchedulingConditions. destruct (bool_decide _); [by do 2 apply Remove_status|].
  assert (∀ b c t1 t2 (x y : conditionMessage) s1 s2,
    wfStatus (if b : bool then SetStormServiceCondition st (NewCondition StormServiceGangSchedulingError s1 t1 x now)
              else if c : bool then SetStormServiceCondition st (NewCondition StormServiceGangSchedulingError s2 t2 y now)
              else SetStormServiceCondition st (NewCondition StormServiceGangSchedulingError ConditionFalse "GangSchedulingHealthy" NoMessage now)))
    as Hgang by (intros [] []; intros; by apply Set_status).
  destruct (bool_decide _); apply Set_status; try done; apply Hgang.
Qed.

Lemma withRoles_status st sel all rev :
  wfStatus st → wfStatus (withRoles st sel (aggregateRoleStatuses all rev)).
Proof.
  intros [[? ?] []]. destruct (aggregate_wf all rev). split; by split.
Qed.

Lemma UpdateStatus_keeps s w :
  ss_Status (value (UpdateStatus s) w).1 = ss_Status s.
Proof.
  assert (holds (fun _ => True) (UpdateStatus s) w (fun r _ => ss_Status r.1 = ss_Status s)) as [_ HU]; [|done].
  unfold UpdateStatus. apply holds_bind. eapply holds_mono;
    [apply (RetryKube_law _ (fun _ => True) (fun st _ => ss_Status st.2 = ss_Status s) (true, s) w
              (fun r _ => ss_Status r.1.2 = ss_Status s)); [|done]|done|].
  - intros [firstTry obj] w1 Hst. unfold updateStatusAttempt. destruct firstTry.
    + apply holds_bind, holds_call; [done|]. by apply holds_ret.
    + apply holds_bind, holds_call; [done|]. destruct (GetStormService _ w1) as [w2 [fresh|e]]; [|by apply holds_ret].
      apply holds_bind, holds_call; [done|]. by apply holds_ret.
  - intros r w1 Hr. by apply holds_ret.
Qed.
End Report.

(** C40: the type of the status.  Whatever the pass did, failed at or listed, the
    status it leaves has int32 figures, each condition once, not Ready and
    Progressing together, and one entry for every role name, in order. *)
Theorem updateStatus_well_formed `{StormApi W} `{!RetryLaws} s reconcileErr current update collisionCount w :
  wfStatus (ss_Status s) → in_int32 collisionCount →
  wfStatus (ss_Status (value (updateStatus s reconcileErr current update collisionCount) w).1).
Proof.
  intros Hs Hcc. pose proof (observed_status s current update collisionCount Hcc Hs) as Hst.
  unfold updateStatus. cbv zeta. set (st := observedStatus _ _ _ _) in *. destruct reconcileErr as [e|].
  - repeat (rewrite value_bind, ?value_call, ?final_call). change (value (mret ?x) ?w) with x. cbn [fst]. apply progressing_status; cbn [ss_Status setStormStatus].
    + by apply Set_status, Remove_status.
    + intros [[_ Hx]%Remove_types|Hx]%Set_types; done.
  - rewrite value_bind. destruct (value (getRoleSetList s) w) as [all|e]; [|exact Hst].
    pose proof (counted_status st all current update Hst) as Hc. set (counted := countedStatus _ _ _ _) in *.
    rewrite value_bind, value_call, final_call. set (now := (StormNow _).2).
    set (s1 := if isStormReady _ _ then _ else _).
    assert (wfStatus (ss_Status s1)) as Hs1.
    { subst s1. destruct (isStormReady _ _); [by apply available_status|].
      apply progressing_status; simpl; [by apply Remove_status|]. intros [_ Hx]%Remove_types. done. }
    repeat (rewrite value_bind, ?value_call, ?final_call). cbv beta.
    destruct (negb _); [|by apply withRoles_status, gang_status].
    rewrite value_bind. simpl. rewrite UpdateStatus_keeps. by apply withRoles_status, gang_status.
Qed.

(** ** Readiness. *)

Lemma filter_length_full {A} (p : A → bool) l :
  length (List.filter p l) = length l ↔ ∀ x, x ∈ l → p x = true.
Proof.
  split; [|intros Hp; by rewrite filter_all]. induction l as [|x l IH]; simpl; [set_solver|].
  pose proof (List.filter_length_le p l). destruct (p x) eqn:Ex; simpl; [|lia].
  intros [= Hl]. intros y [->|Hy]%elem_of_cons; [done|by apply IH].
Qed.

Lemma count32_full {A} (p : A → bool) l :
  Z.of_nat (length l) < 2 ^ 31 → count32 p l = Z.of_nat (length l) ↔ ∀ x, x ∈ l → p x = true.
Proof.
  intros Hl. pose proof (List.filter_length_le p l). unfold count32. rewrite wrap32_id by (unfold in_int32; lia).
  rewrite <- filter_length_full. lia.
Qed.

Lemma count32_none {A} (p : A → bool) l : (∀ x, x ∈ l → p x = false) → count32 p l = 0.
Proof.
  intros Hp. unfold count32. assert (List.filter p l = []) as ->; [|done].
  induction l as [|x l IH]; simpl; [done|]. rewrite Hp by set_solver. apply IH. set_solver.
Qed.

(** What Ready means.  A pass reports a service ready exactly when it lists as
    many RoleSets as the service asks for, every one of them ready, of the
    update revision, and with all its roles updated. *)
Theorem ready_means_all_updated `{K8s} `{K8sApps} s current update collisionCount all replicas :
  Z.of_nat (length all) < 2 ^ 31 →
  isStormReady replicas (countedStatus (observedStatus s current update collisionCount) all current update) = true ↔
  Z.of_nat (length all) = replicas ∧
  ∀ rs, rs ∈ all → IsRoleSetReady rs = true ∧ isRoleSetMatchRevision rs (cr_Name update) = true ∧
    isAllRoleUpdated rs = true.
Proof.
  intros Hlen. unfold isStormReady, countedStatus, filterReadyRoleSets, split, observedStatus. cbn -[wrap32].
  fold (count32 IsRoleSetReady all).
  rewrite (wrap32_id (Z.of_nat (length all))) by (unfold in_int32; lia).
  set (upd := fun rs => isRoleSetMatchRevision rs (cr_Name update) && isAllRoleUpdated rs).
  set (cur := fun rs => isRoleSetMatchRevision rs (cr_Name current)).
  pose proof (count32_full upd all Hlen) as Hu. pose proof (count32_full IsRoleSetReady all Hlen) as Hr.
  assert (count32 IsRoleSetReady all ≤ Z.of_nat (length all)) as Hle.
  { pose proof (List.filter_length_le IsRoleSetReady all). unfold count32. rewrite wrap32_id; unfold in_int32; lia. }
  rewrite !andb_true_iff, Z.leb_le, !Z.eqb_eq, bool_decide_eq_true. split.
  - intros [[[Hready Hupd] Hn] _]. split; [done|]. intros rs Hrs.
    rewrite (proj1 Hr) by (done || lia). split; [done|]. apply andb_true_iff.
    apply (proj1 Hu); [lia|done].
  - intros [Hn Hall].
    rewrite (proj2 Hr), (proj2 Hu) by (intros rs Hrs; apply Hall in Hrs as (? & ? & ?); unfold upd; by rewrite ?andb_true_iff).
    rewrite Hn. split; [lia|]. destruct (Z.eqb_spec (count32 cur all) 0) as [_|Hc]; [done|].
    destruct (decide (cr_Name current = cr_Name update)) as [?|Hne]; [done|]. destruct Hc. apply count32_none.
    intros rs Hrs. apply Hall in Hrs as (_ & Hm & _). unfold cur, isRoleSetMatchRevision in *.
    apply bool_decide_eq_true in Hm. apply bool_decide_eq_false. congruence.
Qed.
