(* ===== verification/StormExample.v ===== *)
(** * A StormService on a server of its own.

    An API server that keeps RoleSets and revisions in two maps satisfies every
    law the theorems about StormServices rest on; and the theorems, applied to
    a service on it. *)

From S2P Require Import Prelude Api Claims Ledger KVPlan Placement Reservations Runtime.
From S2P Require Import Storm StormSync StormFacts StormRollout StormRevision StormStatus.

(** ** Kubernetes' helpers. *)

Definition exApps : K8sApps := {|
  IntOrString := Z;
  intstr_FromInt n := n;
  GetScaledValueFromIntOrPercent n _ _ := Some n;
  RoundToInt32 a b := (2 * a + b) / (2 * b);
  integer_IntMin := Z.min;
  PodTemplate := string;
  dumpForHash := byteCodes;
  SafeEncodeString x := x;
  StringSetList := elements;
  SchedulerSpec := string;
|}.

Definition exAppsLaws : @K8sAppsLaws exApps.
Proof.
  split; try done. simpl. intros a b Ha Hb. pose proof (Z.div_mod (2 * a + b) (2 * b)) as Hd.
  pose proof (Z.mod_pos_bound (2 * a + b) (2 * b)). set (q := (2 * a + b) / (2 * b)) in *. lia.
Defined.

#[local] Existing Instance NanoK8s.
#[local] Existing Instance exApps.
#[local] Existing Instance exAppsLaws.

(** ** Encodings: of a service, its mode. *)

Definition exCodec : StormCodec := {|
  ToUnstructured s := Some [("spec", JObject [("template", JObject [("mode", JString (ss_Mode s))])])];
  MarshalJson j :=
    match j with
    | JObject [(_, JObject [(_, JObject [(_, JString mode); _])])] => Some (byteCodes mode)
    | _ => None
    end;
  MarshalStorm s := Some (byteCodes (ss_Mode s));
  StrategicMergePatch _ patch := Some patch;
  UnmarshalStorm _ := None;
  errorText _ := "error";
|}.
#[local] Existing Instance exCodec.

(** ** The server. *)

Record stormWorld : Type := MkEx {
  ex_sets : gmap NamespacedName RoleSet;
  ex_revs : gmap NamespacedName ControllerRevision;
}.

(** What is stored under a key has it. *)
Definition keyedSet (k : NamespacedName) (rs : RoleSet) : RoleSet :=
  MkRoleSet (nn_Namespace k) (nn_Name k) rs.(rs_GenerateName) rs.(rs_UID) rs.(rs_Labels) rs.(rs_Annotations)
    rs.(rs_DeletionTimestamp) rs.(rs_Finalizers) rs.(rs_Controller) rs.(rs_Spec) rs.(rs_Roles) rs.(rs_Conditions).

Definition exStored (w : stormWorld) : gmap NamespacedName RoleSet :=
  map_imap (fun k rs => Some (keyedSet k rs)) (ex_sets w).
Definition exRevs (w : stormWorld) : gmap NamespacedName ControllerRevision :=
  map_imap (fun k cr => Some (withName cr (nn_Namespace k) (nn_Name k))) (ex_revs w).

Definition freshName (w : stormWorld) : string := base.fresh (set_map nn_Name (dom (ex_sets w)) : gset string).

#[local] Instance labelled_dec namespace name rs : Decision (labelled namespace name rs).
Proof. unfold labelled. apply _. Defined.

Definition exApi : StormApi stormWorld := {|
  ListRoleSets namespace name w :=
    (w, Ok (List.filter (fun rs => bool_decide (labelled namespace name rs)) (map_to_list (exStored w)).*2));
  CreateRoleSet rs w :=
    (MkEx (<[MkNN (rs_Namespace rs) (freshName w) := rs]> (ex_sets w)) (ex_revs w), Ok ());
  DeleteRoleSet rs w := (MkEx (delete (keyOf rs) (ex_sets w)) (ex_revs w), Ok ());
  UpdateRoleSet rs w := (MkEx (<[keyOf rs := rs]> (ex_sets w)) (ex_revs w), Ok ());
  GetService _ w := (w, Err NotFound);
  CreateService _ w := (w, Ok ());
  UpdateService _ w := (w, Ok ());
  GetStormService _ w := (w, Err NotFound);
  UpdateStormStatus _ w := (w, Ok ());
  StormNow w := (w, 0);
  RetryKube S A f := f;
|}.
#[local] Existing Instance exApi.

Lemma exStored_key w k rs : exStored w !! k = Some rs → keyOf rs = k.
Proof.
  unfold exStored. rewrite map_lookup_imap. destruct (ex_sets w !! k); simpl; [|done]. intros [= <-].
  unfold keyOf. simpl. by destruct k.
Qed.

Lemma exStored_listed namespace name w :
  let items := List.filter (fun rs => bool_decide (labelled namespace name rs)) (map_to_list (exStored w)).*2 in
  NoDup (keyOf <$> items) ∧ ∀ rs, rs ∈ items ↔ exStored w !! keyOf rs = Some rs ∧ labelled namespace name rs.
Proof.
  intros items. split.
  - eapply sublist_NoDup; [|apply fmap_sublist, sublist_filter_list].
    replace (keyOf <$> (map_to_list (exStored w)).*2) with ((map_to_list (exStored w)).*1); [apply NoDup_fst_map_to_list|].
    rewrite <- list_fmap_compose. apply list_fmap_ext.
    intros i [k rs] Hk%list_elem_of_lookup_2%elem_of_map_to_list. simpl. symmetry. by eapply exStored_key.
  - intros rs. unfold items. rewrite elem_of_list_filter_bool, bool_decide_eq_true, list_elem_of_fmap. split.
    + intros [Hl ([k rs'] & -> & Hk%elem_of_map_to_list)]. simpl in *. by rewrite (exStored_key _ _ _ Hk).
    + intros [Hk Hl]. split; [done|]. exists (keyOf rs, rs). split; [done|]. by apply elem_of_map_to_list.
Qed.

Lemma freshName_free w namespace : ex_sets w !! MkNN namespace (freshName w) = None.
Proof.
  apply not_elem_of_dom. intros Hin. apply (is_fresh (set_map nn_Name (dom (ex_sets w)) : gset string)).
  apply elem_of_map. by exists (MkNN namespace (freshName w)).
Qed.

Lemma exStored_created rs w :
  created rs (exStored w) (exStored (CreateRoleSet rs w).1).
Proof.
  exists (freshName w). unfold exStored. simpl. split; [by rewrite map_lookup_imap, freshName_free|].
  by rewrite map_imap_insert_Some with (y := named rs (freshName w)).
Qed.

Lemma exStored_deleted rs w : deleted (keyOf rs) (exStored w) (exStored (DeleteRoleSet rs w).1).
Proof. left. unfold exStored. simpl. apply map_imap_delete. Qed.

Lemma meanwhile_refl m : meanwhile m m.
Proof. intros k. by destruct (m !! k). Qed.

Definition exLaws : StormLaws.
Proof.
  refine {| stored := exStored |}.
  - apply exStored_key.
  - intros namespace name w. split; [apply meanwhile_refl|]. intros items [= <-]. apply exStored_listed.
  - intros rs w. exists (exStored w). split; [apply meanwhile_refl|]. right. apply exStored_created.
  - intros rs w. exists (exStored w). split; [apply meanwhile_refl|]. right. apply exStored_deleted.
Defined.
#[local] Existing Instance exLaws.

Definition exExact : StormExact.
Proof.
  split.
  - done.
  - intros rs w. split; [done|]. apply exStored_created.
  - intros rs w _. split; [done|]. apply exStored_deleted.
Defined.
#[local] Existing Instance exExact.

Definition exRetry : RetryLaws.
Proof.
  split. intros S A f I P st w Q Hf HP. eapply holds_mono; [by apply Hf|done|]. by intros r w' [? _].
Defined.
#[local] Existing Instance exRetry.

Definition exRevisionApi : RevisionApi := {|
  ListRevisions namespace name w :=
    (w, Ok (List.filter (fun cr => bool_decide (cr_Namespace cr = namespace ∧ cr_Labels cr !! "name" = Some name))
              (map_to_list (exRevs w)).*2));
  CreateRevision cr w :=
    match ex_revs w !! keyRev cr with
    | Some _ => (w, Err AlreadyExists)
    | None => (MkEx (ex_sets w) (<[keyRev cr := cr]> (ex_revs w)), Ok cr)
    end;
  GetRevision key w := (w, match exRevs w !! key with Some cr => Ok cr | None => Err NotFound end);
  UpdateRevision cr w :=
    match ex_revs w !! keyRev cr with
    | Some old =>
        if bool_decide (cr_Data old = cr_Data cr)
        then (MkEx (ex_sets w) (<[keyRev cr := cr]> (ex_revs w)), Ok cr)
        else (w, Err KubeFailed)
    | None => (w, Err NotFound)
    end;
  DeleteRevision cr w := (MkEx (ex_sets w) (delete (keyRev cr) (ex_revs w)), Ok ());
  PatchStormService _ _ w := (w, Err NotFound);
|}.
#[local] Existing Instance exRevisionApi.

Definition exRevData (w : stormWorld) : gmap NamespacedName (list Z) := cr_Data <$> exRevs w.

Lemma exRevs_lookup w k : exRevs w !! k = (fun cr => withName cr (nn_Namespace k) (nn_Name k)) <$> ex_revs w !! k.
Proof. unfold exRevs. rewrite map_lookup_imap. by destruct (ex_revs w !! k). Qed.

Lemma exRevs_key w k cr : exRevs w !! k = Some cr → keyRev cr = k.
Proof. rewrite exRevs_lookup. destruct (ex_revs w !! k); [|done]. intros [= <-]. unfold keyRev. by destruct k. Qed.

Lemma exRevs_insert cr w :
  exRevs (MkEx (ex_sets w) (<[keyRev cr := cr]> (ex_revs w))) = <[keyRev cr := cr]> (exRevs w).
Proof. unfold exRevs. simpl. rewrite map_imap_insert_Some with (y := cr); [done|]. by destruct cr. Qed.

Lemma exRevData_lookup w k : exRevData w !! k = cr_Data <$> ex_revs w !! k.
Proof. unfold exRevData. rewrite lookup_fmap, exRevs_lookup. by destruct (ex_revs w !! k). Qed.

Lemma exRevData_insert cr w :
  (∀ d, exRevData w !! keyRev cr = Some d → d = cr_Data cr) →
  exRevData w ⊆ exRevData (MkEx (ex_sets w) (<[keyRev cr := cr]> (ex_revs w))).
Proof.
  intros Hd. unfold exRevData at 2. rewrite exRevs_insert, fmap_insert. fold (exRevData w).
  apply map_subseteq_spec. intros k d Hk. destruct (decide (k = keyRev cr)) as [->|Hne].
  - rewrite lookup_insert_eq. by rewrite (Hd d Hk).
  - by rewrite lookup_insert_ne.
Qed.

Definition exRevisionLaws : RevisionLaws.
Proof.
  refine {| revData := exRevData; revKept w := dom (ex_revs w) |}.
  - intros namespace name w. split; [done|]. intros items cr [= <-] Hcr.
    apply elem_of_list_filter_bool in Hcr as [[Hns _]%bool_decide_eq_true Hcr]. split; [done|].
    apply list_elem_of_fmap in Hcr as ([k cr'] & -> & Hk%elem_of_map_to_list). simpl in *.
    unfold exRevData. by rewrite (exRevs_key _ _ _ Hk), lookup_fmap, Hk.
  - intros cr w. simpl. destruct (ex_revs w !! keyRev cr) eqn:Ek; simpl; [by split|]. split.
    + apply exRevData_insert. rewrite exRevData_lookup, Ek. done.
    + intros cr' [= <-]. split; [done|]. split; [done|]. rewrite exRevData_lookup. simpl. by rewrite lookup_insert_eq.
  - intros key w. simpl. split; [done|]. destruct (exRevs w !! key) as [cr|] eqn:Ek; [|done]. intros cr' [= <-].
    split; [by eapply exRevs_key|]. unfold exRevData. by rewrite lookup_fmap, Ek.
  - intros cr w. simpl. destruct (ex_revs w !! keyRev cr) as [old|] eqn:Ek; simpl; [|by split].
    case_bool_decide as Hd; simpl; [|by split]. split; [|by intros cr' [= <-]].
    apply exRevData_insert. rewrite exRevData_lookup, Ek. by intros d [= <-].
  - intros cr w. simpl. rewrite dom_delete_L. set_solver.
  - done.
Defined.
#[local] Existing Instance exRevisionLaws.

Definition exRevisionExact : RevisionExact.
Proof.
  refine {| revStore := exRevs |}.
  - intros cr w. simpl. rewrite exRevs_lookup. destruct (ex_revs w !! keyRev cr) eqn:Ek; simpl; [done|].
    exists cr. by rewrite exRevs_insert.
  - done.
Defined.
#[local] Existing Instance exRevisionExact.

(** ** A service with two replicas. *)

Definition exSpec : RoleSetSpec := MkRoleSetSpec
  [MkRoleSpec "decode" (Some 1) None None None "" None None false false "v2" None] "" None None.

Definition exService : StormService :=
  MkStormService "ns" "llm" "uid" 1 "7" ∅ None [] (Some 2) "Replica" (Some [])
    (MkRoleSetTemplate ∅ ∅ (Some exSpec)) "" (Some (1 : Z)) (Some (0 : Z)) (Some 1) false None zeroStormStatus.

Definition exRevision (name : string) (number : Z) (data : list Z) : ControllerRevision :=
  MkControllerRevision name "ns" {[ "name" := "llm" ]} ["uid"] 0 number data.

Definition exCurrent : ControllerRevision := exRevision "llm-old" 1 [1].
Definition exUpdate : ControllerRevision := exRevision "llm-new" 2 [2].

(** A RoleSet of a revision, ready. *)
Definition exRoleSet (name revision : string) : RoleSet :=
  MkRoleSet "ns" name "" "" (<[StormServiceRevisionLabelKey := revision]> {[ StormServiceNameLabelKey := "llm" ]}) ∅
    None [] (Some "uid") exSpec [] [NewCondition RoleSetReady ConditionTrue "" NoMessage 0].

Definition exStart : stormWorld :=
  MkEx (<[MkNN "ns" "a" := exRoleSet "a" "llm-old"]> {[ MkNN "ns" "b" := exRoleSet "b" "llm-old" ]}) ∅.

Lemma exStart_stored k rs :
  exStored exStart !! k = Some rs → rs = exRoleSet "a" "llm-old" ∨ rs = exRoleSet "b" "llm-old".
Proof.
  unfold exStored. rewrite map_lookup_imap. simpl. destruct (decide (k = MkNN "ns" "a")) as [->|Ha].
  - rewrite lookup_insert_eq. intros [= <-]. by left.
  - rewrite lookup_insert_ne by done. destruct (decide (k = MkNN "ns" "b")) as [->|Hb].
    + rewrite lookup_singleton_eq. intros [= <-]. by right.
    + by rewrite lookup_singleton_ne.
Qed.

Lemma exService_rolls : rollsInRange exService.
Proof. split; vm_compute; done. Qed.

(** ** The witnesses. *)

Lemma SlowStartBatch_stops_early_witness :
  let outcome := fun k => if k =? 1 then Err "lost" else Ok () in
  let run := SlowStartBatch 5 SlowStartInitialBatchSize (logged outcome) in
  ∃ k, final run [] = seqZ 0 k ∧ batchOutcome outcome 5 k (value run []).
Proof. apply (SlowStartBatch_stops_early _ 5). lia. Defined.


(** What a listing shows is always given. *)
Definition exListed (w : stormWorld) : list RoleSet :=
  match value (getRoleSetList exService) w with Ok all => all | Err _ => [] end.

Lemma exListed_spec w : value (getRoleSetList exService) w = Ok (exListed w).
Proof. done. Qed.

Lemma pass_keeps_available_witness :
  Forall (fun w' => 1 ≤ readyKept (exListed exStart) w')
    (visited (rollout exService exService exCurrent exUpdate) exStart) ∧
  length (visited (rollout exService exService exCurrent exUpdate) exStart) = 2%nat.
Proof.
  split; [|by vm_compute]. apply Forall_forall. intros w' Hw'.
  eapply Z.le_trans; [|apply (pass_keeps_available exService exService exCurrent exUpdate exStart w' (exListed exStart))].
  - by vm_compute.
  - by vm_compute.
  - split; by vm_compute.
  - apply exListed_spec.
  - by right.
Defined.

(** The rest of the cluster, between two passes. *)
Definition exSettle (w : stormWorld) : stormWorld :=
  MkEx ((fun rs => MkRoleSet rs.(rs_Namespace) rs.(rs_Name) rs.(rs_GenerateName) rs.(rs_UID) rs.(rs_Labels) rs.(rs_Annotations)
           rs.(rs_DeletionTimestamp) rs.(rs_Finalizers) rs.(rs_Controller) rs.(rs_Spec) rs.(rs_Roles)
           [NewCondition RoleSetReady ConditionTrue "" NoMessage 0]) <$>
         filter (fun kv => isActive kv.2 = true) (ex_sets w)) (ex_revs w).

Lemma exSettle_settles w : settles (exStored w) (exStored (exSettle w)).
Proof.
  intros k. unfold exStored. rewrite !map_lookup_imap. unfold exSettle. simpl. rewrite lookup_fmap.
  destruct (ex_sets w !! k) as [rs|] eqn:Ek.
  - destruct (decide (isActive rs = true)) as [Ha|Ha].
    + rewrite (map_lookup_filter_Some_2 _ (ex_sets w) k rs) by done. simpl. done.
    + rewrite (proj2 (map_lookup_filter_None _ (ex_sets w) k)); [simpl|right; intros rs' Hrs'; by simplify_eq].
      unfold isActive in Ha. by apply not_true_is_false, negb_false_iff in Ha.
  - by rewrite (proj2 (map_lookup_filter_None _ (ex_sets w) k)) by (by left).
Qed.

Lemma exRounds n w : ∃ w', rounds exService exService exCurrent exUpdate n w w'.
Proof.
  revert w. induction n as [|n IH]; intros w; [exists w; constructor|].
  destruct (IH (exSettle (final (scaleAndRoll exService exService exCurrent exUpdate) w))) as [w' Hr].
  exists w'. econstructor; [|exact Hr]. apply exSettle_settles.
Qed.

Lemma exStart_settled : settled exService exStart.
Proof. intros k rs Hk _. by apply exStart_stored in Hk as [->| ->]. Qed.

Lemma exService_canRoll : canRoll exService.
Proof. split; [apply exService_rolls|done|by vm_compute|intros _; right; by vm_compute|by eexists|done]. Qed.

Lemma rollout_converges_witness :
  counts exService exUpdate exStart = (2, 0) ∧
  ∃ w', rounds exService exService exCurrent exUpdate 7 exStart w' ∧ counts exService exUpdate w' = (0, 2).
Proof.
  split; [by vm_compute|]. destruct (exRounds 7 exStart) as [w' Hr]. exists w'. split; [exact Hr|].
  apply (rollout_converges exService exService exCurrent exUpdate 7 exStart w').
  - apply exService_canRoll.
  - apply exStart_settled.
  - exact Hr.
  - by vm_compute.
Defined.

(** The world after a pass over an empty history, and the name a pass settles on. *)
Definition exPassed : stormWorld := final (revisionPass 1 exService) exStart.

Definition nameOf {A} (r : option (result stormError (A * (ControllerRevision * ControllerRevision * Z))))
  : option string :=
  match r with Some (Ok (_, (_, u, _))) => Some (cr_Name u) | _ => None end.

Lemma nameOf_some {A} (r : option (result stormError (A * (ControllerRevision * ControllerRevision * Z)))) name :
  nameOf r = Some name → ∃ l c u n, r = Some (Ok (l, (c, u, n))) ∧ cr_Name u = name.
Proof. destruct r as [[[l [[c u] n]]|]|]; intros [= <-]. by exists l, c, u, n. Qed.

Lemma exPatch : getPatch exService = Some (byteCodes "Replica").
Proof. reflexivity. Qed.


(** A name that is taken by other contents: the first ten tries want it. *)
Definition exNew : ControllerRevision := NewControllerRevision exService [2; 1] 2 0.
Definition exTaken : stormWorld := MkEx ∅ {[ probeKey exService exNew 0 0 := exRevision "" 1 [1] ]}.

Lemma createControllerRevision_ends_witness :
  ∃ cr, value (createControllerRevision 11 exService exNew 0) exTaken = Some (Ok cr, 10) ∧ cr_Data cr = [2; 1].
Proof.
  destruct (createControllerRevision_ends 11 exService exNew 0 10 exTaken) as (cr & Hv & Hd & _).
  - split; by vm_compute.
  - intros j Hj. assert (j ∈ seqZ 0 10) as Hin by (apply elem_of_seqZ; lia).
    repeat (apply elem_of_cons in Hin as [->|Hin]; [by vm_compute|]). inversion Hin.
  - by vm_compute.
  - lia.
  - exists cr. split; [|done]. etrans; [exact Hv|]. by vm_compute.
Defined.

Lemma collision_tries_share_a_name_witness :
  probeName exService exNew 0 = probeName exService exNew 9 ∧ probeName exService exNew 9 ≠ probeName exService exNew 10.
Proof.
  split; [|by vm_compute]. apply collision_tries_share_a_name; try lia.
  - by repeat constructor.
  - by vm_compute.
  - by vm_compute.
Defined.

(** Three revisions nobody needs, one of which is kept. *)
Definition exHistory : list ControllerRevision :=
  [exRevision "llm-1" 1 [1]; exRevision "llm-2" 2 [2]; exRevision "llm-3" 3 [3]].
Definition exOld : stormWorld :=
  MkEx ∅ (list_to_map ((fun r => (keyRev r, r)) <$> exHistory)).

Lemma truncateHistory_keeps_witness :
  Forall (fun w' => keyRev (exRevision "llm-3" 3 [3]) ∈ revKept w')
    (visited (truncateHistory exService exHistory exCurrent exUpdate) exOld) ∧
  length (visited (truncateHistory exService exHistory exCurrent exUpdate) exOld) = 3%nat.
Proof.
  split; [|by vm_compute]. apply Forall_forall. intros w' Hw'.
  apply (truncateHistory_keeps exService exHistory exCurrent exUpdate (exListed exOld) (exRevision "llm-3" 3 [3]) exOld w').
  - apply (bool_decide_unpack _). by vm_compute.
  - apply exListed_spec.
  - set_solver.
  - apply (bool_decide_unpack _). by vm_compute.
  - right. unfold amongNewest. by apply list_elem_of_here.
  - exact Hw'.
Defined.

Lemma zeroStatus_wf : wfStatus zeroStormStatus.
Proof.
  split; [split; [constructor|intros [[]%elem_of_nil _]]|]. split; simpl; unfold in_int32; try lia; constructor.
Qed.

Lemma updateStatus_well_formed_witness :
  wfStatus (ss_Status (value (updateStatus exService None exCurrent exUpdate 0) exStart).1).
Proof. apply updateStatus_well_formed; [apply zeroStatus_wf|split; by vm_compute]. Defined.

Lemma ready_means_all_updated_witness :
  isStormReady 2 (countedStatus (observedStatus exService exCurrent exUpdate 0)
    [exRoleSet "a" "llm-new"; exRoleSet "b" "llm-new"] exCurrent exUpdate) = true.
Proof.
  apply ready_means_all_updated; [by vm_compute|]. split; [done|].
  intros rs [->|[->|[]%elem_of_nil]%elem_of_cons]%elem_of_cons; by vm_compute.
Defined.
