(* ===== verification/PodTypes.v ===== *)
(** * Pods and PodSets, as the RoleSet controller reads and writes them
    ([k8s.io/api/core/v1], [api/orchestration/v1alpha1/podset_types.go],
    [pkg/utils/pod.go]).

    The structures of Kubernetes are records of the fields the controller reads
    or writes.  What it only carries along or compares is of the type [Unread]
    of the class [PodTypes], and what Kubernetes computes of it is there too. *)

From S2P Require Import Prelude Api Storm.

(** ** Kubernetes' types. *)

Class PodTypes := {
  (** The fields of a structure that the controller does not read. *)
  Unread : Type;
  Unread_eq_dec :: EqDecision Unread;
  (** [PodSecurityContext{}]. *)
  emptySecurityContext : Unread;
  (** The sources of a projected volume, [true] for a service account token;
      [None] for a volume of another kind. *)
  projectedTokens : Unread → option (list bool);
  (** Whether [NameIsDNSSubdomain(name, true)] finds nothing wrong. *)
  validNamePrefix : string → bool;
  (** The fields not read of the terms the controller builds. *)
  noFields : Unread;
}.

Section Types.
Context `{PodTypes}.

Record EnvVar : Type := MkEnv {
  env_Name : string;
  env_Value : string;
  env_ValueFrom : option Unread;
}.

Record VolumeMount : Type := MkMount {
  mount_Name : string;
  mount_Rest : Unread;
}.

Record PodContainer : Type := MkPodContainer {
  ct_Name : string;
  ct_Image : string;
  ct_Env : list EnvVar;
  ct_ImagePullPolicy : string;
  ct_TerminationMessagePath : string;
  ct_TerminationMessagePolicy : string;
  ct_VolumeMounts : list VolumeMount;
  ct_Rest : Unread;
}.

Record Toleration : Type := MkToleration {
  tol_Key : string;
  tol_Operator : string;
  tol_Value : string;
  tol_Effect : string;
  tol_TolerationSeconds : option Z;
}.

Record Volume : Type := MkVolume {
  vol_Name : string;
  vol_Source : Unread;
}.

(** A label selector by its match labels. *)
Record PodLabelSelector : Type := MkPodSelector {
  pls_MatchLabels : gmap string string;
  pls_Rest : Unread;
}.

Record PodAffinityTerm : Type := MkAffinityTerm {
  pat_TopologyKey : string;
  pat_LabelSelector : option PodLabelSelector;
  pat_Rest : Unread;
}.

Record PodAffinity : Type := MkPodAffinity {
  pa_Required : list PodAffinityTerm;
  (** With their weights. *)
  pa_Preferred : list (Z * PodAffinityTerm);
}.

Record NodeRequirement : Type := MkNodeRequirement {
  nr_Key : string;
  nr_Operator : string;
  nr_Values : list string;
}.

Record PreferredSchedulingTerm : Type := MkPreferred {
  pst_Weight : Z;
  pst_MatchExpressions : list NodeRequirement;
  pst_MatchFields : list NodeRequirement;
}.

Record NodeAffinity : Type := MkNodeAffinity {
  na_Required : option Unread;
  na_Preferred : list PreferredSchedulingTerm;
}.

Record Affinity : Type := MkAffinity {
  aff_NodeAffinity : option NodeAffinity;
  aff_PodAffinity : option PodAffinity;
  aff_PodAntiAffinity : option Unread;
}.

Record PodSpec : Type := MkPodSpec {
  psp_InitContainers : list PodContainer;
  psp_Containers : list PodContainer;
  psp_Hostname : string;
  psp_Subdomain : string;
  psp_NodeName : string;
  psp_SchedulerName : string;
  psp_RestartPolicy : string;
  psp_DNSPolicy : string;
  psp_TerminationGracePeriodSeconds : option Z;
  psp_EnableServiceLinks : option bool;
  psp_ServiceAccountName : string;
  psp_DeprecatedServiceAccount : string;
  psp_SecurityContext : option Unread;
  psp_Priority : option Z;
  psp_PreemptionPolicy : option string;
  psp_Tolerations : list Toleration;
  psp_Volumes : list Volume;
  (** The condition types of the readiness gates. *)
  psp_ReadinessGates : list string;
  psp_Affinity : option Affinity;
  psp_Rest : Unread;
}.

Record OwnerReference : Type := MkOwner {
  own_APIVersion : string;
  own_Kind : string;
  own_Name : string;
  own_UID : string;
  own_Controller : option bool;
  own_BlockOwnerDeletion : option bool;
}.

Record PodCondition : Type := MkPodCondition {
  pc_Type : string;
  pc_Status : ConditionStatus;
}.

Record ContainerStatus : Type := MkContainerStatus {
  cs_Name : string;
  cs_Ready : bool;
  cs_Image : string;
  cs_ImageID : string;
  cs_RestartCount : Z;
}.

(** A pod.  A nil map and an empty one are read alike. *)
Record RolePod : Type := MkRolePod {
  rp_Namespace : string;
  rp_Name : string;
  rp_GenerateName : string;
  rp_Labels : gmap string string;
  rp_Annotations : gmap string string;
  rp_Finalizers : list string;
  rp_Owners : list OwnerReference;
  rp_CreationTimestamp : Time;
  rp_DeletionTimestamp : option Time;
  rp_Spec : PodSpec;
  rp_Phase : string;
  rp_Conditions : list PodCondition;
  rp_ContainerStatuses : list ContainerStatus;
}.

#[export] Instance EnvVar_eq_dec : EqDecision EnvVar.
Proof. solve_decision. Defined.
#[export] Instance VolumeMount_eq_dec : EqDecision VolumeMount.
Proof. solve_decision. Defined.
#[export] Instance PodContainer_eq_dec : EqDecision PodContainer.
Proof. solve_decision. Defined.
#[export] Instance Toleration_eq_dec : EqDecision Toleration.
Proof. solve_decision. Defined.
#[export] Instance Volume_eq_dec : EqDecision Volume.
Proof. solve_decision. Defined.
#[export] Instance PodLabelSelector_eq_dec : EqDecision PodLabelSelector.
Proof. solve_decision. Defined.
#[export] Instance PodAffinityTerm_eq_dec : EqDecision PodAffinityTerm.
Proof. solve_decision. Defined.
#[export] Instance PodAffinity_eq_dec : EqDecision PodAffinity.
Proof. solve_decision. Defined.
#[export] Instance NodeRequirement_eq_dec : EqDecision NodeRequirement.
Proof. solve_decision. Defined.
#[export] Instance PreferredSchedulingTerm_eq_dec : EqDecision PreferredSchedulingTerm.
Proof. solve_decision. Defined.
#[export] Instance NodeAffinity_eq_dec : EqDecision NodeAffinity.
Proof. solve_decision. Defined.
#[export] Instance Affinity_eq_dec : EqDecision Affinity.
Proof. solve_decision. Defined.
#[export] Instance PodSpec_eq_dec : EqDecision PodSpec.
Proof. solve_decision. Defined.
#[export] Instance OwnerReference_eq_dec : EqDecision OwnerReference.
Proof. solve_decision. Defined.
#[export] Instance PodCondition_eq_dec : EqDecision PodCondition.
Proof. solve_decision. Defined.
#[export] Instance ContainerStatus_eq_dec : EqDecision ContainerStatus.
Proof. solve_decision. Defined.
#[export] Instance RolePod_eq_dec : EqDecision RolePod.
Proof. solve_decision. Defined.

(** ** Fields replaced. *)

Definition setPodContainers (spec : PodSpec) (containers : list PodContainer) : PodSpec :=
  MkPodSpec spec.(psp_InitContainers) containers spec.(psp_Hostname) spec.(psp_Subdomain)
    spec.(psp_NodeName) spec.(psp_SchedulerName) spec.(psp_RestartPolicy) spec.(psp_DNSPolicy)
    spec.(psp_TerminationGracePeriodSeconds) spec.(psp_EnableServiceLinks) spec.(psp_ServiceAccountName)
    spec.(psp_DeprecatedServiceAccount) spec.(psp_SecurityContext) spec.(psp_Priority)
    spec.(psp_PreemptionPolicy) spec.(psp_Tolerations) spec.(psp_Volumes) spec.(psp_ReadinessGates)
    spec.(psp_Affinity) spec.(psp_Rest).

Definition setPodInitContainers (spec : PodSpec) (containers : list PodContainer) : PodSpec :=
  MkPodSpec containers spec.(psp_Containers) spec.(psp_Hostname) spec.(psp_Subdomain)
    spec.(psp_NodeName) spec.(psp_SchedulerName) spec.(psp_RestartPolicy) spec.(psp_DNSPolicy)
    spec.(psp_TerminationGracePeriodSeconds) spec.(psp_EnableServiceLinks) spec.(psp_ServiceAccountName)
    spec.(psp_DeprecatedServiceAccount) spec.(psp_SecurityContext) spec.(psp_Priority)
    spec.(psp_PreemptionPolicy) spec.(psp_Tolerations) spec.(psp_Volumes) spec.(psp_ReadinessGates)
    spec.(psp_Affinity) spec.(psp_Rest).

Definition setAffinity (spec : PodSpec) (affinity : option Affinity) : PodSpec :=
  MkPodSpec spec.(psp_InitContainers) spec.(psp_Containers) spec.(psp_Hostname) spec.(psp_Subdomain)
    spec.(psp_NodeName) spec.(psp_SchedulerName) spec.(psp_RestartPolicy) spec.(psp_DNSPolicy)
    spec.(psp_TerminationGracePeriodSeconds) spec.(psp_EnableServiceLinks) spec.(psp_ServiceAccountName)
    spec.(psp_DeprecatedServiceAccount) spec.(psp_SecurityContext) spec.(psp_Priority)
    spec.(psp_PreemptionPolicy) spec.(psp_Tolerations) spec.(psp_Volumes) spec.(psp_ReadinessGates)
    affinity spec.(psp_Rest).

(** The host name, the domain and the scheduler. *)
Definition setPodHost (spec : PodSpec) (hostname subdomain schedulerName : string) : PodSpec :=
  MkPodSpec spec.(psp_InitContainers) spec.(psp_Containers) hostname subdomain
    spec.(psp_NodeName) schedulerName spec.(psp_RestartPolicy) spec.(psp_DNSPolicy)
    spec.(psp_TerminationGracePeriodSeconds) spec.(psp_EnableServiceLinks) spec.(psp_ServiceAccountName)
    spec.(psp_DeprecatedServiceAccount) spec.(psp_SecurityContext) spec.(psp_Priority)
    spec.(psp_PreemptionPolicy) spec.(psp_Tolerations) spec.(psp_Volumes) spec.(psp_ReadinessGates)
    spec.(psp_Affinity) spec.(psp_Rest).

Definition setContainerImage (c : PodContainer) (image : string) : PodContainer :=
  MkPodContainer c.(ct_Name) image c.(ct_Env) c.(ct_ImagePullPolicy) c.(ct_TerminationMessagePath)
    c.(ct_TerminationMessagePolicy) c.(ct_VolumeMounts) c.(ct_Rest).

Definition setContainerEnv (c : PodContainer) (env : list EnvVar) : PodContainer :=
  MkPodContainer c.(ct_Name) c.(ct_Image) env c.(ct_ImagePullPolicy) c.(ct_TerminationMessagePath)
    c.(ct_TerminationMessagePolicy) c.(ct_VolumeMounts) c.(ct_Rest).

Definition setPodMeta (pod : RolePod) (labels annotations : gmap string string) : RolePod :=
  MkRolePod pod.(rp_Namespace) pod.(rp_Name) pod.(rp_GenerateName) labels annotations
    pod.(rp_Finalizers) pod.(rp_Owners) pod.(rp_CreationTimestamp) pod.(rp_DeletionTimestamp)
    pod.(rp_Spec) pod.(rp_Phase) pod.(rp_Conditions) pod.(rp_ContainerStatuses).

Definition setPodAnnotations (pod : RolePod) (annotations : gmap string string) : RolePod :=
  setPodMeta pod pod.(rp_Labels) annotations.

Definition setPodSpec (pod : RolePod) (spec : PodSpec) : RolePod :=
  MkRolePod pod.(rp_Namespace) pod.(rp_Name) pod.(rp_GenerateName) pod.(rp_Labels)
    pod.(rp_Annotations) pod.(rp_Finalizers) pod.(rp_Owners) pod.(rp_CreationTimestamp)
    pod.(rp_DeletionTimestamp) spec pod.(rp_Phase) pod.(rp_Conditions) pod.(rp_ContainerStatuses).

Definition setPodConditions (pod : RolePod) (conditions : list PodCondition) : RolePod :=
  MkRolePod pod.(rp_Namespace) pod.(rp_Name) pod.(rp_GenerateName) pod.(rp_Labels)
    pod.(rp_Annotations) pod.(rp_Finalizers) pod.(rp_Owners) pod.(rp_CreationTimestamp)
    pod.(rp_DeletionTimestamp) pod.(rp_Spec) pod.(rp_Phase) conditions pod.(rp_ContainerStatuses).

Definition podKeyOf (pod : RolePod) : NamespacedName := MkNN pod.(rp_Namespace) pod.(rp_Name).

(** A label or an annotation; a missing one reads as the empty string. *)
Definition labelOf (pod : RolePod) (key : string) : string := default "" (pod.(rp_Labels) !! key).
Definition annotationOf (pod : RolePod) (key : string) : string := default "" (pod.(rp_Annotations) !! key).
End Types.

(** ** The states of a pod. *)

Definition PodSucceeded : string := "Succeeded".
Definition PodFailed : string := "Failed".
Definition PodReadyType : string := "Ready".
Definition PodDrainingAnnotationKey : string := "aibrix.ai/draining".
Definition PodDrainStartTimeAnnotationKey : string := "aibrix.ai/drain-start-time".
Definition PodDrainReasonAnnotationKey : string := "aibrix.ai/drain-reason".
Definition PodDrainTargetActionAnnotationKey : string := "aibrix.ai/drain-target-action".
Definition PodDrainReasonScaleIn : string := "scale-in".
Definition PodDrainReasonRollout : string := "rollout".
Definition PodDrainTargetActionDelete : string := "delete".
Definition drainingAnnotationValue : string := "true".

Section States.
Context `{PodTypes}.

Definition IsPodPhaseTerminal (phase : string) : bool :=
  bool_decide (phase = PodFailed) || bool_decide (phase = PodSucceeded).

Definition IsPodActive (pod : RolePod) : bool :=
  negb (bool_decide (PodSucceeded = pod.(rp_Phase))) && negb (bool_decide (PodFailed = pod.(rp_Phase))) &&
  bool_decide (pod.(rp_DeletionTimestamp) = None).

Definition IsPodDraining (pod : RolePod) : bool :=
  bool_decide (annotationOf pod PodDrainingAnnotationKey = drainingAnnotationValue).

(** [IsPodReadyConditionTrue]: the first condition of the type counts. *)
Definition IsRolePodReady (pod : RolePod) : bool :=
  match List.find (fun c => bool_decide (c.(pc_Type) = PodReadyType)) pod.(rp_Conditions) with
  | Some c => bool_decide (c.(pc_Status) = ConditionTrue)
  | None => false
  end.
End States.

(** ** Templates and PodSets. *)

(** What Kubernetes keeps in a pod template, and a template with another spec. *)
Class PodTemplates `{K8sApps} `{PodTypes} := {
  template_Labels : PodTemplate → gmap string string;
  template_Annotations : PodTemplate → gmap string string;
  template_Finalizers : PodTemplate → list string;
  template_Spec : PodTemplate → PodSpec;
  setTemplateSpec : PodTemplate → PodSpec → PodTemplate;
}.

Definition PodSetPhaseReady : string := "Ready".
Definition PodSetPhaseFailed : string := "Failed".

Section PodSets.
Context `{K8sApps} `{PodTypes}.

Record PodSet : Type := MkPodSet {
  pset_Namespace : string;
  pset_Name : string;
  pset_GenerateName : string;
  pset_UID : string;
  pset_Labels : gmap string string;
  pset_Annotations : gmap string string;
  pset_Finalizers : list string;
  pset_Owners : list OwnerReference;
  pset_DeletionTimestamp : option Time;
  pset_PodGroupSize : Z;
  pset_Template : PodTemplate;
  pset_Stateful : bool;
  pset_Drain : option RoleDrainSpec;
  pset_RecoveryPolicy : string;
  pset_SchedulingStrategy : option SchedulingStrategy;
  pset_ReadyPods : Z;
  pset_TotalPods : Z;
  pset_Phase : string;
}.

Definition podSetKeyOf (podSet : PodSet) : NamespacedName :=
  MkNN podSet.(pset_Namespace) podSet.(pset_Name).

Definition podSetLabelOf (podSet : PodSet) (key : string) : string :=
  default "" (podSet.(pset_Labels) !! key).

Definition isPodSetReady (podSet : PodSet) : bool := bool_decide (podSet.(pset_Phase) = PodSetPhaseReady).

Definition isPodSetActive (podSet : PodSet) : bool :=
  bool_decide (podSet.(pset_DeletionTimestamp) = None) &&
  negb (bool_decide (podSet.(pset_Phase) = PodSetPhaseFailed)).
End PodSets.
