(* ===== verification/RolePods.v ===== *)
(** * The pods of a role: which there are, and how many there may be
    ([pkg/controller/roleset/utils.go], and the slots of rolesyncer.go and
    podset_rollsyncer.go).

    The filters and the orders over the pods of a role, the update budget of a
    role, the slots its replicas have when it is stateful, and the order in
    which roles are upgraded. *)

From S2P Require Import Prelude Api Storm PodTypes.

Definition RoleSetNameLabelKey : string := "roleset-name".
Definition RoleNameLabelKey : string := "role-name".
Definition PodSetNameLabelKey : string := "stormservice.orchestration.aibrix.ai/podset-name".
Definition PodGroupIndexLabelKey : string := "stormservice.orchestration.aibrix.ai/pod-group-index".
Definition RoleTemplateHashLabelKey : string := "role-template-hash".
Definition RoleReplicaIndexLabelKey : string := "stormservice.orchestration.aibrix.ai/role-replica-index".
Definition RoleReplicaIndexAnnotationKey : string := "stormservice.orchestration.aibrix.ai/role-replica-index".

(** [sort.Slice].  It is not stable and asks for a strict weak order: which
    order it gives is not said otherwise, but that it loses nothing is. *)
Class SliceSort := {
  sortSlice : ∀ {A : Type}, (A → A → bool) → list A → list A;
  sortSlice_perm {A} (less : A → A → bool) l : sortSlice less l ≡ₚ l;
  sortSlice_sorted {A} (less : A → A → bool) `{!StrictWeak less} l :
    StronglySorted (notAfter less) (sortSlice less l);
}.

(** ** Filters. *)

Section Filters.
Context `{PodTypes}.

Definition filterRolePods (roleName : string) (pods : list RolePod) : list RolePod :=
  List.filter (fun pod => bool_decide (labelOf pod RoleNameLabelKey = roleName)) pods.

Definition filterActivePods (pods : list RolePod) : list RolePod * list RolePod := split IsPodActive pods.

Definition isPodTerminating (pod : RolePod) : bool := bool_decide (is_Some pod.(rp_DeletionTimestamp)).

Definition filterTerminatingPods (pods : list RolePod) : list RolePod * list RolePod :=
  split isPodTerminating pods.

Definition isActiveReady (pod : RolePod) : bool := IsPodActive pod && IsRolePodReady pod.

Definition filterReadyPods (pods : list RolePod) : list RolePod * list RolePod := split isActiveReady pods.

Definition isUpdatedTo (templateHash : string) (pod : RolePod) : bool :=
  bool_decide (labelOf pod RoleTemplateHashLabelKey = templateHash).

Definition filterUpdatedPods (pods : list RolePod) (templateHash : string) : list RolePod * list RolePod :=
  split (isUpdatedTo templateHash) pods.

Definition splitPodsByReady (pods : list RolePod) : list RolePod * list RolePod := split IsRolePodReady pods.

Definition GetReadyReplicaCountForRole (pods : list RolePod) : Z :=
  wrap32 (Z.of_nat (length (List.filter IsRolePodReady pods))).

(** The order a rollout takes outdated pods in.  It says of two pods that are
    not ready, and of two created at the same second, that each comes first. *)
Definition activeBefore (a b : RolePod) : bool :=
  if negb (IsPodActive a) then true
  else if negb (IsPodActive b) then false
  else if negb (IsRolePodReady a) then true
  else if negb (IsRolePodReady b) then false
  else negb (a.(rp_CreationTimestamp) <? b.(rp_CreationTimestamp)).

Definition sortPodsByActive `{SliceSort} (pods : list RolePod) : list RolePod := sortSlice activeBefore pods.

(** Outdated and not ready, outdated, current and not ready, current. *)
Definition templateHashBefore (targetHash : string) (a b : RolePod) : bool :=
  let hashA := labelOf a RoleTemplateHashLabelKey in
  let hashB := labelOf b RoleTemplateHashLabelKey in
  let rest :=
    if negb (IsRolePodReady a) then true
    else if negb (IsRolePodReady b) then false
    else negb (a.(rp_CreationTimestamp) <? b.(rp_CreationTimestamp)) in
  if negb (bool_decide (hashA = hashB)) then
    if bool_decide (hashA = targetHash) then false
    else if bool_decide (hashB = targetHash) then true
    else rest
  else rest.

Definition sortPodsByTemplateHash `{SliceSort} (pods : list RolePod) (targetHash : string) : list RolePod :=
  sortSlice (templateHashBefore targetHash) pods.

(** The pods marked for a scale in that is no longer wanted. *)
Definition staleScaleInDrainingPods (activePods toDelete : list RolePod) : list RolePod :=
  let deleteSet : gset NamespacedName := list_to_set (podKeyOf <$> toDelete) in
  List.filter (fun pod =>
    IsPodDraining pod &&
    bool_decide (annotationOf pod PodDrainReasonAnnotationKey = PodDrainReasonScaleIn) &&
    negb (bool_decide (podKeyOf pod ∈ deleteSet))) activePods.
End Filters.

(** ** The budget of a role. *)

Section Budget.
Context `{K8s} `{K8sApps}.

Definition getRoleReplicas (role : RoleSpec) : Z :=
  match role.(role_Replicas) with
  | Some n => if 0 <? n then n else 0
  | None => 0
  end.

(** Whether the two figures of the update strategy can be read. *)
Definition validateUpdateBudget (role : RoleSpec) : bool :=
  if getRoleReplicas role =? 0 then true
  else bool_decide (is_Some (ResolveFenceposts role.(role_MaxSurge) role.(role_MaxUnavailable) (getRoleReplicas role))).

(** Zero for both when they cannot. *)
Definition roleFenceposts (role : RoleSpec) : Z * Z :=
  default (0, 0) (ResolveFenceposts role.(role_MaxSurge) role.(role_MaxUnavailable) (getRoleReplicas role)).

Definition roleMaxUnavailable (role : RoleSpec) : Z :=
  let expectedReplicas := getRoleReplicas role in
  if expectedReplicas =? 0 then 0
  else if expectedReplicas <? (roleFenceposts role).2 then expectedReplicas else (roleFenceposts role).2.

Definition roleMaxSurge (role : RoleSpec) : Z :=
  if getRoleReplicas role =? 0 then 0 else (roleFenceposts role).1.

(** ** The order of upgrades. *)

(** A role that has no order comes after those that have one. *)
Definition upgradesBefore (a b : RoleSpec) : bool :=
  match a.(role_UpgradeOrder), b.(role_UpgradeOrder) with
  | None, _ => false
  | Some _, None => true
  | Some i, Some j => i <? j
  end.

Definition sortRolesByUpgradeOrder (roles : list RoleSpec) : list RoleSpec := sortBy upgradesBefore roles.
End Budget.

(** ** Slots. *)

Section Slots.
Context {A : Type} (indexText : A → option string).

(** [strconv.Atoi]: an int has 64 bits. *)
Definition slotIndex (slots : Z) (x : A) : option Z :=
  text ← indexText x;
  index ← parseInt text;
  if (index <? 0) || (slots <=? index) then None else Some index.

(** The members of each slot, and those that belong to none. *)
Definition slotsOf (replicas : Z) (items : list A) : list (list A) * list A :=
  ((fun i => List.filter (fun x => bool_decide (slotIndex replicas x = Some i)) items) <$> seqZ 0 replicas,
   List.filter (fun x => bool_decide (slotIndex replicas x = None)) items).
End Slots.

Section RoleSlots.
Context `{K8s} `{K8sApps} `{PodTypes}.

Definition podSlotForRole (role : RoleSpec) (activePods : list RolePod) : list (list RolePod) * list RolePod :=
  slotsOf (fun pod => pod.(rp_Annotations) !! RoleReplicaIndexAnnotationKey) (getRoleReplicas role) activePods.

Definition podSetSlotForRole (role : RoleSpec) (activePodSets : list PodSet) : list (list PodSet) * list PodSet :=
  slotsOf (fun podSet => podSet.(pset_Labels) !! RoleReplicaIndexLabelKey) (getRoleReplicas role) activePodSets.

(** A slot that has at least one ready pod. *)
Definition slotReady (slot : list RolePod) : bool := negb (bool_decide ((filterReadyPods slot).1 = [])).

Definition readySlotNum (role : RoleSpec) (allPods : list RolePod) : Z :=
  Z.of_nat (length (List.filter slotReady (podSlotForRole role (filterActivePods allPods).1).1)).

(** A slot that has a member of the new version, one that has only such a
    member, ready, and one that has only members of another version. *)
Definition slotHasNew {A} (updated : A → bool) (slot : list A) : bool := existsb updated slot.

Definition slotNewReady {A} (updated ready : A → bool) (slot : list A) : bool :=
  slotHasNew updated slot && match slot with [x] => ready x | _ => false end.

Definition slotOutdated {A} (updated : A → bool) (slot : list A) : bool :=
  negb (slotHasNew updated slot) && match slot with [] => false | _ => true end.

(** How many slots there are of each kind. *)
Definition countSlots {A} (updated ready : A → bool) (slots : list (list A)) : Z * Z * Z :=
  let count p := wrap32 (Z.of_nat (length (List.filter p slots))) in
  (count (slotHasNew updated), count (slotNewReady updated ready), count (slotOutdated updated)).

Definition updatedSlotNum (role : RoleSpec) (allPods : list RolePod) : Z * Z * Z :=
  countSlots (isUpdatedTo (ComputeHash role.(role_Template))) IsRolePodReady
    (podSlotForRole role (filterActivePods allPods).1).1.
End RoleSlots.
