(* ===== verification/RoleRender.v ===== *)
(** * What a RoleSet creates: the pods and PodSets of its roles
    ([pkg/controller/roleset/utils.go], [historical_node.go],
    [podset_rollsyncer.go], and [GetPodFromTemplate] of
    [pkg/controller/util/controller_utils.go]).

    A pod is rendered from the template of its role: named after its slot, with
    the labels it is found by, the environment its containers read, and the
    affinity that keeps a topology together or leads a replacement back to a
    node.  Go's encoding/json is the class [RoleCodec]. *)

From S2P Require Import Prelude Api Storm PodTypes RolePods.

(** ** Historical nodes. *)

Definition maxHistoricalNodesPerRole : nat := 8.
Definition historicalNodeWeight : Z := 100.

Record historicalNodeBindings : Type := MkBindings {
  hnb_ReplicaSlots : gmap string string;
  hnb_Roles : gmap string (list string);
}.
#[export] Instance historicalNodeBindings_eq_dec : EqDecision historicalNodeBindings.
Proof. solve_decision. Defined.

Definition noBindings : historicalNodeBindings := MkBindings ∅ ∅.

(** What was captured of the containers of a pod before an update in place: the
    image IDs by name. *)
Definition inPlaceUpdateState : Type := gmap string string.

(** What is written is read back. *)
Class RoleCodec := {
  MarshalBindings : historicalNodeBindings → string;
  UnmarshalBindings : string → option historicalNodeBindings;
  MarshalInPlaceState : inPlaceUpdateState → string;
  UnmarshalInPlaceState : string → option inPlaceUpdateState;
  Bindings_roundtrip b : UnmarshalBindings (MarshalBindings b) = Some b;
  InPlaceState_roundtrip s : UnmarshalInPlaceState (MarshalInPlaceState s) = Some s;
  (** An object is never printed as nothing. *)
  MarshalInPlaceState_nonempty s : MarshalInPlaceState s ≠ "";
}.

Definition historicalReplicaSlotKey (roleName : string) (index : Z) : string :=
  String.append roleName (String.append "/" (pretty index)).

Fixpoint takeNodes (nodeName : string) (room : nat) (nodes : list string) : list string :=
  match room, nodes with
  | S room', existing :: rest =>
      if bool_decide (existing = "") || bool_decide (existing = nodeName)
      then takeNodes nodeName room rest
      else existing :: takeNodes nodeName room' rest
  | _, _ => []
  end.

(** The node first, then the others, each but itself, up to the limit. *)
Definition prependUniqueNode (nodes : list string) (nodeName : string) : list string :=
  nodeName :: takeNodes nodeName (maxHistoricalNodesPerRole - 1) nodes.

Section Bindings.
Context `{K8s} `{K8sApps} `{PodTypes} `{RoleCodec}.

(** [None] is an annotation that is not valid. *)
Definition parseHistoricalNodeBindings (rs : RoleSet) : option historicalNodeBindings :=
  let value := default "" (rs.(rs_Annotations) !! RoleSetHistoricalNodeBindingsAnnotationKey) in
  if bool_decide (value = "") then Some noBindings else UnmarshalBindings value.

Definition roleReplicaIndex (pod : RolePod) : option Z :=
  let value := if bool_decide (annotationOf pod RoleReplicaIndexAnnotationKey = "")
               then labelOf pod RoleReplicaIndexLabelKey
               else annotationOf pod RoleReplicaIndexAnnotationKey in
  if bool_decide (value = "") then None
  else index ← parseInt value; if index <? 0 then None else Some index.

Definition pruneHistoricalNodeBindings (bindings : historicalNodeBindings) (roles : list RoleSpec)
  : historicalNodeBindings :=
  let validReplicaSlots : gset string := list_to_set (
    role ← roles;
    if role.(role_Stateful)
    then historicalReplicaSlotKey role.(role_Name) <$> seqZ 0 (getRoleReplicas role) else []) in
  let current roleName := existsb (fun role =>
    bool_decide (role.(role_Name) = roleName) && negb role.(role_Stateful)) roles in
  MkBindings (filter (fun kv => kv.1 ∈ validReplicaSlots) bindings.(hnb_ReplicaSlots))
    (filter (fun kv => current kv.1 = true) bindings.(hnb_Roles)).

(** The order in which the pods are remembered: oldest first. *)
Definition rememberedBefore (a b : RolePod) : bool :=
  if negb (a.(rp_CreationTimestamp) =? b.(rp_CreationTimestamp))
  then a.(rp_CreationTimestamp) <? b.(rp_CreationTimestamp)
  else if negb (bool_decide (a.(rp_Namespace) = b.(rp_Namespace)))
  then strless a.(rp_Namespace) b.(rp_Namespace)
  else strless a.(rp_Name) b.(rp_Name).

Definition rememberPod (stateful : gmap string bool) (bindings : historicalNodeBindings) (pod : RolePod)
  : historicalNodeBindings :=
  let nodeName := pod.(rp_Spec).(psp_NodeName) in
  let roleName := labelOf pod RoleNameLabelKey in
  if bool_decide (nodeName = "") || bool_decide (roleName = "") then bindings
  else if default false (stateful !! roleName) then
    match roleReplicaIndex pod with
    | None => bindings
    | Some index =>
        MkBindings (<[historicalReplicaSlotKey roleName index := nodeName]> bindings.(hnb_ReplicaSlots))
          bindings.(hnb_Roles)
    end
  else MkBindings bindings.(hnb_ReplicaSlots)
         (<[roleName := prependUniqueNode (default [] (bindings.(hnb_Roles) !! roleName)) nodeName]>
            bindings.(hnb_Roles)).

(** The bindings with what the pods show, and whether they differ from what the
    annotation says. *)
Definition refreshHistoricalNodeBindingsFromPods (rs : RoleSet) (roles : list RoleSpec) (pods : list RolePod)
  : historicalNodeBindings * bool :=
  let parsed := parseHistoricalNodeBindings rs in
  let oldBindings := default noBindings parsed in
  let roleStateful := foldl (fun m role => <[role.(role_Name) := role.(role_Stateful)]> m)
    (∅ : gmap string bool) roles in
  let bindings := pruneHistoricalNodeBindings
    (foldl (rememberPod roleStateful) oldBindings (sortBy rememberedBefore pods)) roles in
  (bindings, negb (bool_decide (is_Some parsed)) || negb (bool_decide (oldBindings = bindings))).

Definition roleSetHasHistoricalNodeScheduling (rs : RoleSet) : bool :=
  existsb role_HistoricalNode rs.(rs_Spec).(rss_Roles).

Definition historicalNodeBindingsForPodCreation (rs : RoleSet) (role : RoleSpec)
  : option historicalNodeBindings :=
  if negb role.(role_HistoricalNode) then None else parseHistoricalNodeBindings rs.
End Bindings.

(** ** Affinity. *)

Definition TopologyStormServiceScope : string := "StormService".
Definition TopologyRoleSetScope : string := "RoleSet".
Definition TopologyRoleScope : string := "Role".
Definition TopologyPolicyPreferred : string := "Preferred".
Definition TopologyPolicyRequired : string := "Required".
Definition LabelHostname : string := "kubernetes.io/hostname".
Definition NodeSelectorOpIn : string := "In".
Definition topologyPreferredAffinityWeight : Z := 100.

Section Affinities.
Context `{K8s} `{K8sApps} `{PodTypes}.

Definition noAffinity : Affinity := MkAffinity None None None.
Definition noPodAffinity : PodAffinity := MkPodAffinity [] [].
Definition noNodeAffinity : NodeAffinity := MkNodeAffinity None [].

(** A term over the pods with the labels, under the key. *)
Definition isTopologyTerm (matchLabels : gmap string string) (topologyKey : string) (term : PodAffinityTerm)
  : bool :=
  bool_decide (term.(pat_TopologyKey) = topologyKey) &&
  match term.(pat_LabelSelector) with
  | Some selector => bool_decide (selector.(pls_MatchLabels) = matchLabels)
  | None => false
  end.

(** An unset mode is the preferred one. *)
Definition modeOrPreferred (mode : string) : string :=
  if bool_decide (mode = "") then TopologyPolicyPreferred else mode.

Definition injectTopologyAffinityToPodSpec (spec : PodSpec) (matchLabels : gmap string string)
    (topologyKey mode : string) : PodSpec :=
  let affinityTerm := MkAffinityTerm topologyKey (Some (MkPodSelector matchLabels noFields)) noFields in
  let affinity := default noAffinity spec.(psp_Affinity) in
  let podAffinity := default noPodAffinity affinity.(aff_PodAffinity) in
  let withTerms required preferred := setAffinity spec (Some
    (MkAffinity affinity.(aff_NodeAffinity) (Some (MkPodAffinity required preferred))
       affinity.(aff_PodAntiAffinity))) in
  if bool_decide (modeOrPreferred mode = TopologyPolicyRequired) then
    if existsb (isTopologyTerm matchLabels topologyKey) podAffinity.(pa_Required)
    then withTerms podAffinity.(pa_Required) podAffinity.(pa_Preferred)
    else withTerms (podAffinity.(pa_Required) ++ [affinityTerm]) podAffinity.(pa_Preferred)
  else
    if existsb (fun wt => (wt.1 =? topologyPreferredAffinityWeight) &&
                          isTopologyTerm matchLabels topologyKey wt.2) podAffinity.(pa_Preferred)
    then withTerms podAffinity.(pa_Required) podAffinity.(pa_Preferred)
    else withTerms podAffinity.(pa_Required)
           (podAffinity.(pa_Preferred) ++ [(topologyPreferredAffinityWeight, affinityTerm)]).

Definition getTopologyMatchLabels (rs : RoleSet) (roleName : string) (tp : TopologyPolicy)
  : option (gmap string string) :=
  let stormServiceName := default "" (rs.(rs_Labels) !! StormServiceNameLabelKey) in
  if bool_decide (stormServiceName = "") then None
  else if bool_decide (tp.(tp_Scope) = TopologyStormServiceScope)
  then Some {[ StormServiceNameLabelKey := stormServiceName ]}
  else if bool_decide (tp.(tp_Scope) = TopologyRoleSetScope)
  then Some {[ StormServiceNameLabelKey := stormServiceName; RoleSetNameLabelKey := rs.(rs_Name) ]}
  else if bool_decide (tp.(tp_Scope) = TopologyRoleScope)
  then Some {[ StormServiceNameLabelKey := stormServiceName; RoleNameLabelKey := roleName ]}
  else None.

Definition injectTopologyAffinity (spec : PodSpec) (rs : RoleSet) (roleName : string) (tp : TopologyPolicy)
  : PodSpec :=
  if bool_decide (tp.(tp_Key) = "") then spec
  else match getTopologyMatchLabels rs roleName tp with
       | None => spec
       | Some matchLabels => injectTopologyAffinityToPodSpec spec matchLabels tp.(tp_Key) tp.(tp_Mode)
       end.

Definition podSpecHasTopologyAffinity (spec : PodSpec) (matchLabels : gmap string string) (tp : TopologyPolicy)
  : bool :=
  match spec.(psp_Affinity) ≫= aff_PodAffinity with
  | None => false
  | Some podAffinity =>
      if bool_decide (modeOrPreferred tp.(tp_Mode) = TopologyPolicyRequired)
      then existsb (isTopologyTerm matchLabels tp.(tp_Key)) podAffinity.(pa_Required)
      else existsb (fun wt => (wt.1 =? topologyPreferredAffinityWeight) &&
                              isTopologyTerm matchLabels tp.(tp_Key) wt.2) podAffinity.(pa_Preferred)
  end.

Definition hasRequiredNodeAffinity (spec : PodSpec) : bool :=
  match spec.(psp_Affinity) ≫= aff_NodeAffinity with
  | Some nodeAffinity => bool_decide (is_Some nodeAffinity.(na_Required))
  | None => false
  end.

Definition hasRequiredHostnameTopologyPolicy (rs : RoleSet) : bool :=
  match rs.(rs_Spec).(rss_TopologyPolicy) with
  | Some tp => bool_decide (tp.(tp_Mode) = TopologyPolicyRequired) && bool_decide (tp.(tp_Key) = LabelHostname)
  | None => false
  end.

Definition injectPreferredHistoricalNodeAffinity (spec : PodSpec) (nodeNames : list string) : PodSpec :=
  match nodeNames with
  | [] => spec
  | _ =>
      let affinity := default noAffinity spec.(psp_Affinity) in
      let nodeAffinity := default noNodeAffinity affinity.(aff_NodeAffinity) in
      let term := MkPreferred historicalNodeWeight
        [MkNodeRequirement LabelHostname NodeSelectorOpIn nodeNames] [] in
      let preferred := nodeAffinity.(na_Preferred) in
      let preferred := if bool_decide (term ∈ preferred) then preferred else preferred ++ [term] in
      setAffinity spec (Some (MkAffinity (Some (MkNodeAffinity nodeAffinity.(na_Required) preferred))
        affinity.(aff_PodAffinity) affinity.(aff_PodAntiAffinity)))
  end.

(** The nodes a replacement is led to; none for one that has its reasons not to
    be. *)
Definition historicalNodesFor (rs : RoleSet) (role : RoleSpec) (spec : PodSpec)
    (bindings : option historicalNodeBindings) (roleIndex : option Z) (sameSlotActive : bool) : list string :=
  match bindings with
  | None => []
  | Some bindings =>
      if negb role.(role_HistoricalNode) then []
      else if match role.(role_PodGroupSize) with Some n => 1 <? n | None => false end then []
      else if hasRequiredNodeAffinity spec || hasRequiredHostnameTopologyPolicy rs then []
      else if role.(role_Stateful) then
        match roleIndex with
        | None => []
        | Some index =>
            if sameSlotActive then []
            else let nodeName := default "" (bindings.(hnb_ReplicaSlots) !!
                                   historicalReplicaSlotKey role.(role_Name) index) in
                 if bool_decide (nodeName = "") then [] else [nodeName]
        end
      else default [] (bindings.(hnb_Roles) !! role.(role_Name))
  end.

Definition maybeInjectHistoricalNodeAffinity (rs : RoleSet) (role : RoleSpec) (pod : RolePod)
    (bindings : option historicalNodeBindings) (roleIndex : option Z) (sameSlotActive : bool) : RolePod :=
  setPodSpec pod (injectPreferredHistoricalNodeAffinity pod.(rp_Spec)
    (historicalNodesFor rs role pod.(rp_Spec) bindings roleIndex sameSlotActive)).
End Affinities.

(** ** Pods. *)

Definition GodelPodGroupNameAnnotationKey : string := "godel.bytedance.com/pod-group-name".
Definition CoschedulingPodGroupNameLabelKey : string := "scheduling.x-k8s.io/pod-group".
Definition VolcanoPodGroupNameAnnotationKey : string := "scheduling.k8s.io/group-name".
Definition VolcanoTaskSpecKey : string := "volcano.sh/task-spec".
Definition RoleRevisionLabelKey : string := "stormservice.orchestration.aibrix.ai/role-revision".
Definition RoleRevisionNameLabelKey : string := "stormservice.orchestration.aibrix.ai/role-revision-name".
Definition StormServiceNameEnvKey : string := "STORM_SERVICE_NAME".
Definition RoleSetNameEnvKey : string := "ROLESET_NAME".
Definition RoleSetIndexEnvKey : string := "ROLESET_INDEX".
Definition RoleNameEnvKey : string := "ROLE_NAME".
Definition RoleReplicaIndexEnvKey : string := "ROLE_REPLICA_INDEX".
Definition RoleTemplateHashEnvKey : string := "ROLE_TEMPLATE_HASH".
Definition RoleSetAPIVersion : string := "orchestration.aibrix.ai/v1alpha1".
Definition RoleSetKind : string := "RoleSet".

Definition ContainerInjectEnv : list string :=
  [RoleTemplateHashEnvKey; StormServiceNameEnvKey; RoleSetNameEnvKey; RoleSetIndexEnvKey; RoleNameEnvKey;
   RoleReplicaIndexEnvKey].

Section Render.
Context `{K8s} `{K8sApps} `{HT : PodTypes} `{!PodTemplates}.

(** [metav1.NewControllerRef]. *)
Definition roleSetControllerRef (rs : RoleSet) : OwnerReference :=
  MkOwner RoleSetAPIVersion RoleSetKind rs.(rs_Name) rs.(rs_UID) (Some true) (Some true).

Definition isOwnedByRoleSet (owners : list OwnerReference) (rs : RoleSet) : bool :=
  existsb (fun ref =>
    bool_decide (ref.(own_Controller) = Some true) && bool_decide (ref.(own_APIVersion) = RoleSetAPIVersion) &&
    bool_decide (ref.(own_Kind) = RoleSetKind) && bool_decide (ref.(own_UID) = rs.(rs_UID))) owners.

Definition getPodsPrefix (controllerName : string) : string :=
  let prefix := String.append controllerName "-" in
  if validNamePrefix prefix then prefix else controllerName.

(** The parent has metadata, so the accessor gives no error. *)
Definition GetPodFromTemplate (template : PodTemplate) (parentName : string) (controllerRef : OwnerReference)
  : RolePod :=
  MkRolePod "" "" (getPodsPrefix parentName) (template_Labels template) (template_Annotations template)
    (template_Finalizers template) [controllerRef] zeroTime None (template_Spec template) "" [] [].

Definition injectContainerEnvVars (rs : RoleSet) (role : RoleSpec) (roleIndex : option Z) (templateHash : string)
    (container : PodContainer) : PodContainer :=
  let env name value := MkEnv name value None in
  let builtInEnvs :=
    [env StormServiceNameEnvKey (default "" (rs.(rs_Labels) !! StormServiceNameLabelKey));
     env RoleSetNameEnvKey rs.(rs_Name);
     env RoleSetIndexEnvKey (default "" (rs.(rs_Annotations) !! RoleSetIndexAnnotationKey));
     env RoleNameEnvKey role.(role_Name);
     env RoleTemplateHashEnvKey templateHash] ++
    match roleIndex with Some i => [env RoleReplicaIndexEnvKey (pretty i)] | None => [] end in
  setContainerEnv container (builtInEnvs ++
    List.filter (fun e => negb (bool_decide (e.(env_Name) ∈ ContainerInjectEnv))) container.(ct_Env)).

(** A key set to a value where it is missing. *)
Definition setDefault (key value : string) (m : gmap string string) : gmap string string :=
  match m !! key with Some _ => m | None => <[key := value]> m end.

(** The name of the pod or PodSet of a slot. *)
Definition slotName (rs : RoleSet) (role : RoleSpec) (templateHash : string) (index : Z) : string :=
  Shorten (String.append rs.(rs_Name) (String.append "-" (String.append role.(role_Name)
    (String.append "-" (String.append templateHash (String.append "-" (pretty index))))))) false false.

Definition roleGenerateName (rs : RoleSet) (role : RoleSpec) : string :=
  Shorten (String.append rs.(rs_Name) (String.append "-" (String.append role.(role_Name) "-"))) false true.

(** The labels a RoleSet hands down. *)
Definition inheritLabels (rs : RoleSet) (labels : gmap string string) : gmap string string :=
  let inherit key labels := match rs.(rs_Labels) !! key with Some v => <[key := v]> labels | None => labels end in
  inherit "previous-owner" (inherit "name" labels).

(** The labels a gang scheduler finds a pod by. *)
Definition scheduledLabels (strategy : option SchedulingStrategy) (group roleName : string)
    (labels : gmap string string) : gmap string string :=
  match strategy with
  | None => labels
  | Some strategy =>
      let labels := if bool_decide (is_Some strategy.(sched_Coscheduling))
                    then <[CoschedulingPodGroupNameLabelKey := group]> labels else labels in
      let labels := if bool_decide (is_Some strategy.(sched_Godel))
                    then <[GodelPodGroupNameAnnotationKey := group]> labels else labels in
      if bool_decide (is_Some strategy.(sched_Volcano))
      then setDefault VolcanoTaskSpecKey roleName (<[VolcanoPodGroupNameAnnotationKey := group]> labels)
      else labels
  end.

Definition scheduledAnnotations (strategy : option SchedulingStrategy) (group roleName : string)
    (annotations : gmap string string) : gmap string string :=
  match strategy with
  | None => annotations
  | Some strategy =>
      let annotations := if bool_decide (is_Some strategy.(sched_Volcano))
        then setDefault VolcanoTaskSpecKey roleName (<[VolcanoPodGroupNameAnnotationKey := group]> annotations)
        else annotations in
      if bool_decide (is_Some strategy.(sched_Godel))
      then <[GodelPodGroupNameAnnotationKey := group]> annotations else annotations
  end.

(** The revision of the role, where the RoleSet says it. *)
Definition revisionLabels (rs : RoleSet) (role : RoleSpec) (labels : gmap string string) : gmap string string :=
  let labels := match rs.(rs_Annotations) !! roleRevKey role.(role_Name) with
                | Some rev => <[RoleRevisionLabelKey := rev]> labels
                | None => labels
                end in
  match rs.(rs_Annotations) !! roleRevNameKey role.(role_Name) with
  | Some name => <[RoleRevisionNameLabelKey := name]> labels
  | None => labels
  end.

Definition indexed (roleIndex : option Z) (key : string) (m : gmap string string) : gmap string string :=
  match roleIndex with Some i => <[key := pretty i]> m | None => m end.

Definition stormServiceNameOf (rs : RoleSet) : string := default "" (rs.(rs_Labels) !! StormServiceNameLabelKey).

Definition renderStormServicePod (rs : RoleSet) (role : RoleSpec) (pod : RolePod) (roleIndex : option Z)
  : RolePod :=
  let templateHash := ComputeHash role.(role_Template) in
  let strategy := rs.(rs_Spec).(rss_SchedulingStrategy) in
  let name := match roleIndex with Some i => slotName rs role templateHash i | None => pod.(rp_Name) end in
  let generateName := match roleIndex with Some _ => pod.(rp_GenerateName) | None => roleGenerateName rs role end in
  let labels := revisionLabels rs role (indexed roleIndex RoleReplicaIndexLabelKey
    (scheduledLabels strategy rs.(rs_Name) role.(role_Name) (inheritLabels rs
      (<[StormServiceNameLabelKey := stormServiceNameOf rs]>
        (<[RoleTemplateHashLabelKey := templateHash]>
          (<[RoleNameLabelKey := role.(role_Name)]>
            (<[RoleSetNameLabelKey := rs.(rs_Name)]> pod.(rp_Labels)))))))) in
  let annotations := scheduledAnnotations strategy rs.(rs_Name) role.(role_Name)
    (indexed roleIndex RoleReplicaIndexAnnotationKey
      (<[RoleSetIndexAnnotationKey := default "" (rs.(rs_Annotations) !! RoleSetIndexAnnotationKey)]>
         pod.(rp_Annotations))) in
  let spec := pod.(rp_Spec) in
  let schedulerName :=
    if rss_Volcano rs.(rs_Spec) && bool_decide (spec.(psp_SchedulerName) = "") then "volcano"
    else spec.(psp_SchedulerName) in
  let spec := setPodHost spec name (stormServiceNameOf rs) schedulerName in
  let spec := setPodContainers spec
    (injectContainerEnvVars rs role roleIndex templateHash <$> spec.(psp_Containers)) in
  let spec := match rs.(rs_Spec).(rss_TopologyPolicy) with
              | Some tp => injectTopologyAffinity spec rs role.(role_Name) tp
              | None => spec
              end in
  MkRolePod rs.(rs_Namespace) name generateName labels annotations pod.(rp_Finalizers) pod.(rp_Owners)
    pod.(rp_CreationTimestamp) pod.(rp_DeletionTimestamp) spec pod.(rp_Phase) pod.(rp_Conditions)
    pod.(rp_ContainerStatuses).

Definition buildRenderedPod (rs : RoleSet) (role : RoleSpec) (roleIndex : option Z) : RolePod :=
  renderStormServicePod rs role (GetPodFromTemplate role.(role_Template) rs.(rs_Name) (roleSetControllerRef rs)) roleIndex.

(** The pod a syncer creates. *)
Definition newRolePod (rs : RoleSet) (role : RoleSpec) (bindings : option historicalNodeBindings)
    (roleIndex : option Z) (sameSlotActive : bool) : RolePod :=
  maybeInjectHistoricalNodeAffinity rs role (buildRenderedPod rs role roleIndex) bindings roleIndex
    sameSlotActive.

(** ** PodSets. *)

Definition createPodSetForRole (rs : RoleSet) (role : RoleSpec) (roleIndex : Z) : PodSet :=
  let templateHash := ComputeHash role.(role_Template) in
  let name := slotName rs role templateHash roleIndex in
  let ofRoleSet := rs.(rs_Spec).(rss_SchedulingStrategy) in
  let ofRole := role.(role_SchedulingStrategy) in
  let labels := scheduledLabels ofRole name role.(role_Name)
    (scheduledLabels ofRoleSet rs.(rs_Name) role.(role_Name)
      (<[RoleReplicaIndexLabelKey := pretty roleIndex]>
        {[ RoleSetNameLabelKey := rs.(rs_Name); RoleNameLabelKey := role.(role_Name);
           RoleTemplateHashLabelKey := templateHash; StormServiceNameLabelKey := stormServiceNameOf rs ]})) in
  let annotations := scheduledAnnotations ofRole name role.(role_Name)
    (scheduledAnnotations ofRoleSet rs.(rs_Name) role.(role_Name)
      (<[RoleReplicaIndexAnnotationKey := pretty roleIndex]>
        {[ RoleSetIndexAnnotationKey := default "" (rs.(rs_Annotations) !! RoleSetIndexAnnotationKey) ]})) in
  let spec := template_Spec role.(role_Template) in
  let spec := setPodContainers spec
    (injectContainerEnvVars rs role (Some roleIndex) templateHash <$> spec.(psp_Containers)) in
  let spec := match rs.(rs_Spec).(rss_TopologyPolicy) with
              | Some tp => injectTopologyAffinity spec rs role.(role_Name) tp
              | None => spec
              end in
  MkPodSet rs.(rs_Namespace) name "" "" labels annotations [] [roleSetControllerRef rs] None
    (default 0 role.(role_PodGroupSize)) (setTemplateSpec role.(role_Template) spec) role.(role_Stateful)
    role.(role_Drain) "" role.(role_SchedulingStrategy) 0 0 "".
End Render.
