(* ===== verification/PodDrain.v ===== *)
(** * Draining pods before they are deleted ([pkg/controller/drain/drain.go]).

    A pod to be deleted is marked first, with the time the drain began; it is
    deleted once its role's timeout has passed since.  The API server is the
    class [RoleApi], for this and for the rest of the RoleSet controller.
    Events are not modelled. *)

From S2P Require Import Prelude Api Claims Ledger KVPlan Placement Reservations Runtime Rfc3339 Storm StormSync PodTypes.

(** ** The API server. *)

Class RoleApi `{K8s} `{K8sApps} `{PodTypes} (W : Type) := {
  (** By namespace and by labels. *)
  ListPods : string → gmap string string → W → W * result kubeError (list RolePod);
  CreatePod : RolePod → W → W * result kubeError unit;
  DeletePod : RolePod → W → W * result kubeError unit;
  (** The merge patch from the first to the second, of the object and of its
      status. *)
  PatchPod : RolePod → RolePod → W → W * result kubeError unit;
  PatchPodStatus : RolePod → RolePod → W → W * result kubeError unit;
  ListPodSets : string → gmap string string → W → W * result kubeError (list PodSet);
  CreatePodSet : PodSet → W → W * result kubeError unit;
  DeletePodSet : PodSet → W → W * result kubeError unit;
  RoleNow : W → W * Time;
}.

Record drainResult : Type := MkDrainResult {
  res_Changed : bool;
  res_RequeueAfter : Duration;
}.
#[export] Instance drainResult_eq_dec : EqDecision drainResult.
Proof. solve_decision. Defined.

Definition noResult : drainResult := MkDrainResult false 0.
Definition changedResult : drainResult := MkDrainResult true 0.

(** The earlier of the two requests to come back. *)
Definition mergeResult (r other : drainResult) : drainResult :=
  MkDrainResult (r.(res_Changed) || other.(res_Changed))
    (if other.(res_RequeueAfter) <=? 0 then r.(res_RequeueAfter)
     else if (r.(res_RequeueAfter) <=? 0) || (other.(res_RequeueAfter) <? r.(res_RequeueAfter))
     then other.(res_RequeueAfter) else r.(res_RequeueAfter)).

Definition drainTimeout (spec : option RoleDrainSpec) : Duration :=
  match spec ≫= drain_TimeoutSeconds with
  | Some seconds => if seconds <=? 0 then 0 else seconds * Second
  | None => 0
  end.

(** Why a drain state is not one to go by. *)
Inductive invalidDrain : Type :=
| UnexpectedTargetAction
| MissingStartTime
| MalformedStartTime (raw : string).

Section Drain.
Context `{PodTypes}.

Definition validateDrainState (pod : RolePod) : result invalidDrain Time :=
  if negb (bool_decide (annotationOf pod PodDrainTargetActionAnnotationKey = PodDrainTargetActionDelete))
  then Err UnexpectedTargetAction
  else
    let rawStart := annotationOf pod PodDrainStartTimeAnnotationKey in
    if bool_decide (rawStart = "") then Err MissingStartTime
    else match parseRFC3339 rawStart with
         | None => Err (MalformedStartTime rawStart)
         | Some startTime => Ok startTime
         end.

(** The pod marked, and the pod with the marks taken away. *)
Definition markedDraining (reason : string) (now : Time) (pod : RolePod) : RolePod :=
  setPodAnnotations pod
    (<[PodDrainTargetActionAnnotationKey := PodDrainTargetActionDelete]>
      (<[PodDrainReasonAnnotationKey := reason]>
        (<[PodDrainStartTimeAnnotationKey := formatRFC3339 now]>
          (<[PodDrainingAnnotationKey := drainingAnnotationValue]> pod.(rp_Annotations))))).

Definition unmarkedDraining (pod : RolePod) : RolePod :=
  setPodAnnotations pod
    (delete PodDrainTargetActionAnnotationKey
      (delete PodDrainReasonAnnotationKey
        (delete PodDrainStartTimeAnnotationKey
          (delete PodDrainingAnnotationKey pod.(rp_Annotations))))).
End Drain.

Section DrainCalls.
Context `{RoleApi W}.

Definition ignoreNotFound {A} (r : result kubeError A) : option kubeError :=
  match r with Ok _ | Err NotFound => None | Err e => Some e end.

Definition isDeleting (pod : RolePod) : bool := bool_decide (is_Some pod.(rp_DeletionTimestamp)).

(** What it came to, and the error it stopped at. *)
Fixpoint deletePodsImmediately (result : drainResult) (pods : list RolePod)
  : Run W (drainResult * option kubeError) :=
  match pods with
  | [] => mret (result, None)
  | pod :: rest =>
      if isDeleting pod then deletePodsImmediately result rest
      else
        r ← call (DeletePod pod);
        match ignoreNotFound r with
        | Some e => mret (result, Some e)
        | None => deletePodsImmediately (MkDrainResult true result.(res_RequeueAfter)) rest
        end
  end.

Fixpoint cancelPods (result : drainResult) (reason : string) (pods : list RolePod)
  : Run W (drainResult * option kubeError) :=
  match pods with
  | [] => mret (result, None)
  | pod :: rest =>
      if isDeleting pod || negb (IsPodDraining pod) ||
         negb (bool_decide (reason = "")) &&
         negb (bool_decide (annotationOf pod PodDrainReasonAnnotationKey = reason))
      then cancelPods result reason rest
      else
        r ← call (PatchPod pod (unmarkedDraining pod));
        match r with
        | Err NotFound => cancelPods result reason rest
        | Err e => mret (result, Some e)
        | Ok _ => cancelPods (MkDrainResult true result.(res_RequeueAfter)) reason rest
        end
  end.

Definition CancelPods (pods : list RolePod) (reason : string) : Run W (drainResult * option kubeError) :=
  cancelPods noResult reason pods.

Definition startDrain (pod : RolePod) (reason : string) (timeout : Duration) (now : Time)
  : Run W (drainResult * option kubeError) :=
  r ← call (PatchPod pod (markedDraining reason now pod));
  mret (match r with
        | Ok _ => (MkDrainResult true timeout, None)
        | Err NotFound => (noResult, None)
        | Err e => (noResult, Some e)
        end).

Definition processPod (pod : RolePod) (reason : string) (timeout : Duration) (now : Time)
  : Run W (drainResult * option kubeError) :=
  if isDeleting pod then mret (noResult, None)
  else if bool_decide (pod.(rp_Phase) = PodSucceeded) || bool_decide (pod.(rp_Phase) = PodFailed)
  then deletePodsImmediately noResult [pod]
  else if negb (IsPodDraining pod) then startDrain pod reason timeout now
  else match validateDrainState pod with
       | Err _ => startDrain pod reason timeout now
       | Ok startTime =>
           let elapsed := Z.max 0 (timeSub now startTime) in
           if timeout <=? elapsed then
             r ← call (DeletePod pod);
             mret (match ignoreNotFound r with
                   | Some e => (noResult, Some e)
                   | None => (changedResult, None)
                   end)
           else mret (MkDrainResult false (timeout - elapsed), None)
       end.

Fixpoint processPods (result : drainResult) (reason : string) (timeout : Duration) (now : Time)
    (pods : list RolePod) : Run W (drainResult * option kubeError) :=
  match pods with
  | [] => mret (result, None)
  | pod :: rest =>
      r ← processPod pod reason timeout now;
      match r.2 with
      | Some e => mret (result, Some e)
      | None => processPods (mergeResult result r.1) reason timeout now rest
      end
  end.

Definition DeletePods (pods : list RolePod) (spec : option RoleDrainSpec) (reason : string) (now : Time)
  : Run W (drainResult * option kubeError) :=
  match pods with
  | [] => mret (noResult, None)
  | _ =>
      if drainTimeout spec <=? 0 then deletePodsImmediately noResult pods
      else processPods noResult reason (drainTimeout spec) now pods
  end.
End DrainCalls.
