(* ===== verification/InPlace.v ===== *)
(** * Updating pods in place ([pkg/controller/roleset/inplace_update.go], and
    [rolloutPodsInPlace], [canRolloutPodsInPlace] and
    [selectInPlaceOutdatedPodsForStep] of rolesyncer.go).

    A pod whose images alone differ from what its role asks for has them
    patched.  Its hash label is set only when the kubelet reports other images
    than the ones recorded before the patch. *)

From Stdlib Require Import Ascii.
From S2P Require Import Prelude Api Claims Ledger KVPlan Placement Reservations Runtime Storm StormSync PodTypes RolePods RoleRender PodDrain.

Definition defaultServiceAccountName : string := "default".
Definition RecreateRoleUpdateStrategyType : string := "Recreate".
Definition InPlaceIfPossibleRoleUpdateStrategyType : string := "InPlaceIfPossible".
Definition RoleInPlaceUpdateTargetHashAnnotationKey : string :=
  "stormservice.orchestration.aibrix.ai/in-place-update-target-hash".
Definition RoleInPlaceUpdateStateAnnotationKey : string :=
  "stormservice.orchestration.aibrix.ai/in-place-update-state".
Definition RoleInPlaceUpdatePendingReasonAnnotationKey : string :=
  "stormservice.orchestration.aibrix.ai/in-place-update-pending-reason".
Definition RoleInPlaceUpdateReadyCondition : string :=
  "stormservice.orchestration.aibrix.ai/in-place-update-ready".
Definition RoleInPlaceUpdatePendingReasonPodNotReady : string := "PodNotReady".
Definition RoleInPlaceUpdatePendingReasonContainerStatusMissing : string := "ContainerStatusMissing".
Definition RoleInPlaceUpdatePendingReasonContainerNotReady : string := "ContainerNotReady".
Definition RoleInPlaceUpdatePendingReasonImageIDUnchanged : string := "ImageIDUnchanged".

(** ** Image names. *)

(** What follows the last of a byte in a string, and [strings.Contains]. *)
Fixpoint afterLast (c : ascii) (s : string) : option string :=
  match s with
  | EmptyString => None
  | String d rest =>
      match afterLast c rest with
      | Some t => Some t
      | None => if bool_decide (d = c) then Some rest else None
      end
  end.

Definition containsByte (c : ascii) (s : string) : bool := bool_decide (is_Some (afterLast c s)).

(** The part of an image after the last slash: all of it without one. *)
Definition imageBase (image : string) : string := default image (afterLast "/"%char image).

Definition imageHasTagOrDigest (image : string) : bool :=
  containsByte "@"%char image || containsByte ":"%char (imageBase image).

(** What follows the last colon, where no slash follows it. *)
Definition imageTag (image : string) : string := default "" (afterLast ":"%char (imageBase image)).

Definition PullIfNotPresent : string := "IfNotPresent".
Definition PullAlways : string := "Always".

Definition defaultImagePullPolicy (image : string) : string :=
  if containsByte "@"%char image then PullIfNotPresent
  else if negb (imageHasTagOrDigest image) || bool_decide (imageTag image = "latest") then PullAlways
  else PullIfNotPresent.

(** ** Comparing a pod with the one its role asks for. *)

Section Comparison.
Context `{PodTypes}.

(** The containers by name; the last of a name counts. *)
Definition containersByName (containers : list PodContainer) : gmap string PodContainer :=
  foldl (fun m c => <[c.(ct_Name) := c]> m) ∅ containers.

Definition normalizeContainerRuntimeDefaults (container : PodContainer) (desired : option PodContainer)
  : PodContainer :=
  let pullPolicy :=
    match desired with
    | Some d =>
        if bool_decide (d.(ct_ImagePullPolicy) = "") &&
           bool_decide (container.(ct_ImagePullPolicy) = defaultImagePullPolicy d.(ct_Image))
        then "" else container.(ct_ImagePullPolicy)
    | None => container.(ct_ImagePullPolicy)
    end in
  MkPodContainer container.(ct_Name) container.(ct_Image) container.(ct_Env) pullPolicy
    (if bool_decide (container.(ct_TerminationMessagePath) = "/dev/termination-log") then ""
     else container.(ct_TerminationMessagePath))
    (if bool_decide (container.(ct_TerminationMessagePolicy) = "File") then ""
     else container.(ct_TerminationMessagePolicy))
    container.(ct_VolumeMounts) container.(ct_Rest).

Definition normalizeContainerImage (desiredByName : gmap string PodContainer) (container : PodContainer)
  : PodContainer :=
  match desiredByName !! container.(ct_Name) with
  | Some desired =>
      normalizeContainerRuntimeDefaults (setContainerImage container desired.(ct_Image)) (Some desired)
  | None => normalizeContainerRuntimeDefaults container None
  end.

Definition normalizeContainerImages (containers desired : list PodContainer) : list PodContainer :=
  normalizeContainerImage (containersByName desired) <$> containers.

Definition clearHashEnv (container : PodContainer) : PodContainer :=
  setContainerEnv container ((fun e =>
    if bool_decide (e.(env_Name) = RoleTemplateHashEnvKey)
    then MkEnv e.(env_Name) "" e.(env_ValueFrom) else e) <$> container.(ct_Env)).

Definition normalizeContainerImagesAndHashEnv (containers desired : list PodContainer) : list PodContainer :=
  clearHashEnv <$> normalizeContainerImages containers desired.

Definition isDefaultNoExecuteToleration (t : Toleration) : bool :=
  bool_decide (t.(tol_Operator) = "Exists") && bool_decide (t.(tol_Effect) = "NoExecute") &&
  bool_decide (t.(tol_TolerationSeconds) = Some 300) &&
  (bool_decide (t.(tol_Key) = "node.kubernetes.io/not-ready") ||
   bool_decide (t.(tol_Key) = "node.kubernetes.io/unreachable")).

Definition removeDefaultNoExecuteTolerations (tolerations : list Toleration) : list Toleration :=
  List.filter (fun t => negb (isDefaultNoExecuteToleration t)) tolerations.

Definition isDefaultServiceAccountVolume (volume : Volume) : bool :=
  String.prefix "kube-api-access-" volume.(vol_Name) &&
  match projectedTokens volume.(vol_Source) with
  | Some sources => existsb id sources
  | None => false
  end.

(** The names of the volumes that are removed. *)
Definition removedVolumes (spec : PodSpec) : gset string :=
  list_to_set (vol_Name <$> List.filter isDefaultServiceAccountVolume spec.(psp_Volumes)).

Definition removeVolumeMounts (removed : gset string) (containers : list PodContainer) : list PodContainer :=
  (fun c => MkPodContainer c.(ct_Name) c.(ct_Image) c.(ct_Env) c.(ct_ImagePullPolicy)
     c.(ct_TerminationMessagePath) c.(ct_TerminationMessagePolicy)
     (List.filter (fun m => negb (bool_decide (m.(mount_Name) ∈ removed))) c.(ct_VolumeMounts))
     c.(ct_Rest)) <$> containers.

(** A field that is at its default where none is asked for reads as unset. *)
Definition unlessDefault {A} `{EqDecision A} (desired value unset dflt : A) : A :=
  if bool_decide (desired = unset) && bool_decide (value = dflt) then unset else value.

Definition normalizePodSpecRuntimeFields (spec desired : PodSpec) : PodSpec :=
  let removed := removedVolumes spec in
  MkPodSpec
    (removeVolumeMounts removed spec.(psp_InitContainers)) (removeVolumeMounts removed spec.(psp_Containers))
    spec.(psp_Hostname) spec.(psp_Subdomain)
    (if bool_decide (desired.(psp_NodeName) = "") then "" else spec.(psp_NodeName))
    (unlessDefault desired.(psp_SchedulerName) spec.(psp_SchedulerName) "" "default-scheduler")
    (unlessDefault desired.(psp_RestartPolicy) spec.(psp_RestartPolicy) "" "Always")
    (unlessDefault desired.(psp_DNSPolicy) spec.(psp_DNSPolicy) "" "ClusterFirst")
    (unlessDefault desired.(psp_TerminationGracePeriodSeconds) spec.(psp_TerminationGracePeriodSeconds)
       None (Some 30))
    (unlessDefault desired.(psp_EnableServiceLinks) spec.(psp_EnableServiceLinks) None (Some true))
    (unlessDefault desired.(psp_ServiceAccountName) spec.(psp_ServiceAccountName) ""
       defaultServiceAccountName)
    (unlessDefault desired.(psp_DeprecatedServiceAccount) spec.(psp_DeprecatedServiceAccount) ""
       defaultServiceAccountName)
    (unlessDefault desired.(psp_SecurityContext) spec.(psp_SecurityContext) None (Some emptySecurityContext))
    (unlessDefault desired.(psp_Priority) spec.(psp_Priority) None (Some 0))
    (unlessDefault desired.(psp_PreemptionPolicy) spec.(psp_PreemptionPolicy) None
       (Some "PreemptLowerPriority"))
    (removeDefaultNoExecuteTolerations spec.(psp_Tolerations))
    (List.filter (fun v => negb (isDefaultServiceAccountVolume v)) spec.(psp_Volumes))
    spec.(psp_ReadinessGates) spec.(psp_Affinity) spec.(psp_Rest).

(** The pod without what is expected to differ.  The pod asked for is compared
    with itself: where it is unset it is at no default either. *)
Definition normalizePodForInPlaceComparison (pod desired : RolePod) : RolePod :=
  let spec := normalizePodSpecRuntimeFields pod.(rp_Spec) desired.(rp_Spec) in
  let spec := MkPodSpec
    (normalizeContainerImages spec.(psp_InitContainers) desired.(rp_Spec).(psp_InitContainers))
    (normalizeContainerImagesAndHashEnv spec.(psp_Containers) desired.(rp_Spec).(psp_Containers))
    "" spec.(psp_Subdomain) spec.(psp_NodeName) spec.(psp_SchedulerName) spec.(psp_RestartPolicy)
    spec.(psp_DNSPolicy) spec.(psp_TerminationGracePeriodSeconds) spec.(psp_EnableServiceLinks)
    spec.(psp_ServiceAccountName) spec.(psp_DeprecatedServiceAccount) spec.(psp_SecurityContext)
    spec.(psp_Priority) spec.(psp_PreemptionPolicy) spec.(psp_Tolerations) spec.(psp_Volumes)
    spec.(psp_ReadinessGates) spec.(psp_Affinity) spec.(psp_Rest) in
  MkRolePod "" "" pod.(rp_GenerateName)
    (delete RoleRevisionNameLabelKey (delete RoleRevisionLabelKey
      (delete RoleTemplateHashLabelKey pod.(rp_Labels))))
    (delete RoleInPlaceUpdateTargetHashAnnotationKey pod.(rp_Annotations))
    pod.(rp_Finalizers) pod.(rp_Owners) zeroTime None spec "" [] [].

Definition containersImagesDiffer (current desired : list PodContainer) : bool :=
  existsb (fun c => match containersByName desired !! c.(ct_Name) with
                    | Some d => negb (bool_decide (c.(ct_Image) = d.(ct_Image)))
                    | None => false
                    end) current.

(** The containers with the images asked for, and whether any changed. *)
Definition updateContainerImages (current desired : list PodContainer) : list PodContainer * bool :=
  ((fun c => match containersByName desired !! c.(ct_Name) with
             | Some d => setContainerImage c d.(ct_Image)
             | None => c
             end) <$> current,
   containersImagesDiffer current desired).
End Comparison.

(** ** Whether a pod can be updated in place. *)

Inductive inPlaceRefusal : Type :=
| InvalidReplicaIndex (raw : string)
| InitImagesChanged
| OtherFieldsChanged
| AlreadyUpdated
| NoImageChanges.

Section Eligible.
Context `{K8s} `{K8sApps} `{HT : PodTypes} `{!PodTemplates}.

Definition roleUpdateStrategyTypeOrDefault (role : RoleSpec) : string :=
  if bool_decide (role.(role_UpdateType) = "") then RecreateRoleUpdateStrategyType else role.(role_UpdateType).

(** [None] is a pod that can be. *)
Definition canInPlaceUpdatePod (rs : RoleSet) (role : RoleSpec) (pod : RolePod) : option inPlaceRefusal :=
  let roleIndex : result inPlaceRefusal (option Z) :=
    match pod.(rp_Annotations) !! RoleReplicaIndexAnnotationKey with
    | None => Ok None
    | Some rawIndex =>
        match parseInt rawIndex with
        | None => Err (InvalidReplicaIndex rawIndex)
        | Some index => Ok (Some index)
        end
    end in
  match roleIndex with
  | Err e => Some e
  | Ok roleIndex =>
      let desired := buildRenderedPod rs role roleIndex in
      let template := template_Spec role.(role_Template) in
      if containersImagesDiffer pod.(rp_Spec).(psp_InitContainers) template.(psp_InitContainers)
      then Some InitImagesChanged
      else if negb (bool_decide (normalizePodForInPlaceComparison pod desired =
                                 normalizePodForInPlaceComparison desired desired))
      then Some OtherFieldsChanged
      else if negb (containersImagesDiffer pod.(rp_Spec).(psp_Containers) template.(psp_Containers)) then
        if bool_decide (labelOf pod RoleTemplateHashLabelKey = ComputeHash role.(role_Template))
        then Some AlreadyUpdated else Some NoImageChanges
      else None
  end.

Definition hasTarget (targetHash : string) (pod : RolePod) : bool :=
  bool_decide (annotationOf pod RoleInPlaceUpdateTargetHashAnnotationKey = targetHash).

(** The first pod that cannot be updated, and why. *)
Fixpoint canRolloutPodsInPlace (rs : RoleSet) (role : RoleSpec) (roleTemplateHash : string)
    (outdated : list RolePod) : option (string * inPlaceRefusal) :=
  match outdated with
  | [] => None
  | pod :: rest =>
      if hasTarget roleTemplateHash pod then canRolloutPodsInPlace rs role roleTemplateHash rest
      else match canInPlaceUpdatePod rs role pod with
           | Some reason => Some (pod.(rp_Name), reason)
           | None => canRolloutPodsInPlace rs role roleTemplateHash rest
           end
  end.

Fixpoint selectInPlaceOutdatedPodsForStep (roleTemplateHash : string) (remaining : Z) (outdated : list RolePod)
  : list RolePod :=
  match outdated with
  | [] => []
  | pod :: rest =>
      if hasTarget roleTemplateHash pod
      then pod :: selectInPlaceOutdatedPodsForStep roleTemplateHash remaining rest
      else if remaining <=? 0 then selectInPlaceOutdatedPodsForStep roleTemplateHash remaining rest
      else pod :: selectInPlaceOutdatedPodsForStep roleTemplateHash (remaining - 1) rest
  end.
End Eligible.

(** ** What is recorded, and what is waited for. *)

Section State.
Context `{K8s} `{K8sApps} `{HT : PodTypes} `{!PodTemplates} `{RoleCodec}.

(** Whether a container of the name is asked to run another image. *)
Definition changesImage (pod : RolePod) (role : RoleSpec) (name : string) : bool :=
  existsb (fun c =>
    bool_decide (c.(ct_Name) = name) &&
    match containersByName (template_Spec role.(role_Template)).(psp_Containers) !! name with
    | Some d => negb (bool_decide (d.(ct_Image) = "")) && negb (bool_decide (d.(ct_Image) = c.(ct_Image)))
    | None => false
    end) pod.(rp_Spec).(psp_Containers).

(** The image IDs of the containers whose image is about to change. *)
Definition buildInPlaceUpdateState (pod : RolePod) (role : RoleSpec) : inPlaceUpdateState :=
  foldl (fun state status =>
    if changesImage pod role status.(cs_Name) then <[status.(cs_Name) := status.(cs_ImageID)]> state else state)
    ∅ pod.(rp_ContainerStatuses).

(** No state, and one that cannot be read, are an empty one. *)
Definition getInPlaceUpdateState (pod : RolePod) : inPlaceUpdateState :=
  let raw := annotationOf pod RoleInPlaceUpdateStateAnnotationKey in
  if bool_decide (raw = "") then ∅ else default ∅ (UnmarshalInPlaceState raw).

Definition statusesByName (statuses : list ContainerStatus) : gmap string ContainerStatus :=
  foldl (fun m s => <[s.(cs_Name) := s]> m) ∅ statuses.

(** Why a container is not done yet. *)
Definition pendingContainer (state : inPlaceUpdateState) (statusByName : gmap string ContainerStatus)
    (container : PodContainer) : option string :=
  match statusByName !! container.(ct_Name) with
  | None => Some RoleInPlaceUpdatePendingReasonContainerStatusMissing
  | Some status =>
      if negb status.(cs_Ready) then Some RoleInPlaceUpdatePendingReasonContainerNotReady
      else match state !! container.(ct_Name) with
           | Some old =>
               if negb (bool_decide (old = "")) && bool_decide (status.(cs_ImageID) = old)
               then Some RoleInPlaceUpdatePendingReasonImageIDUnchanged else None
           | None => None
           end
  end.

Definition inPlaceUpdatePendingStatusForPod (pod : RolePod) : option string :=
  if negb (IsRolePodReady pod) then Some RoleInPlaceUpdatePendingReasonPodNotReady
  else head (omap (pendingContainer (getInPlaceUpdateState pod) (statusesByName pod.(rp_ContainerStatuses)))
               pod.(rp_Spec).(psp_Containers)).

Definition hasInPlaceReadinessGate (pod : RolePod) : bool :=
  existsb (fun gate => bool_decide (gate = RoleInPlaceUpdateReadyCondition)) pod.(rp_Spec).(psp_ReadinessGates).

Fixpoint setPodCondition (conditions : list PodCondition) (condition : PodCondition) : list PodCondition :=
  match conditions with
  | [] => [condition]
  | c :: rest =>
      if bool_decide (c.(pc_Type) = condition.(pc_Type)) then MkPodCondition c.(pc_Type) condition.(pc_Status) :: rest
      else c :: setPodCondition rest condition
  end.

(** The pod with the images asked for, and what the update is known by; [None]
    when there is nothing to change. *)
Definition patchedForInPlaceUpdate (pod : RolePod) (role : RoleSpec) (targetHash : string) : option RolePod :=
  let '(containers, imagesChanged) := updateContainerImages pod.(rp_Spec).(psp_Containers)
    (template_Spec role.(role_Template)).(psp_Containers) in
  let annotations :=
    if imagesChanged && bool_decide (annotationOf pod RoleInPlaceUpdateStateAnnotationKey = "")
    then <[RoleInPlaceUpdateStateAnnotationKey := MarshalInPlaceState (buildInPlaceUpdateState pod role)]>
           pod.(rp_Annotations)
    else pod.(rp_Annotations) in
  let '(annotations, changed) :=
    if hasTarget targetHash pod then (annotations, imagesChanged)
    else (<[RoleInPlaceUpdateTargetHashAnnotationKey := targetHash]> annotations, true) in
  if negb changed then None
  else Some (setPodAnnotations (setPodSpec pod (setPodContainers pod.(rp_Spec) containers)) annotations).

(** The pod without the marks of an update in place. *)
Definition clearInPlaceMarks (annotations : gmap string string) : gmap string string :=
  delete RoleInPlaceUpdatePendingReasonAnnotationKey
    (delete RoleInPlaceUpdateStateAnnotationKey (delete RoleInPlaceUpdateTargetHashAnnotationKey annotations)).
End State.

(** ** The calls. *)

Inductive roleError : Type :=
| RoleApiError (e : kubeError)
| InvalidBudget (role : string)
| NotEligible (pod : string) (reason : inPlaceRefusal).

Section Calls.
Context `{RoleApi W} `{!PodTemplates} `{RoleCodec} `{SliceSort}.

Definition errorOf {A} (r : result kubeError A) : option kubeError :=
  match r with Ok _ => None | Err e => Some e end.

Definition setInPlaceReadinessCondition (pod : RolePod) (status : ConditionStatus) : Run W (option kubeError) :=
  if negb (hasInPlaceReadinessGate pod) then mret None
  else
    let conditions := setPodCondition pod.(rp_Conditions) (MkPodCondition RoleInPlaceUpdateReadyCondition status) in
    let conditions := if bool_decide (status = ConditionFalse)
                      then setPodCondition conditions (MkPodCondition PodReadyType ConditionFalse)
                      else conditions in
    r ← call (PatchPodStatus pod (setPodConditions pod conditions));
    mret (errorOf r).

(** Whether the pod was patched, and the error. *)
Definition patchPodImagesForInPlaceUpdate (pod : RolePod) (role : RoleSpec) (targetHash : string)
  : Run W (bool * option kubeError) :=
  match patchedForInPlaceUpdate pod role targetHash with
  | None => mret (false, None)
  | Some updated =>
      e ← setInPlaceReadinessCondition pod ConditionFalse;
      match e with
      | Some e => mret (false, Some e)
      | None =>
          r ← call (PatchPod pod updated);
          mret (match r with Ok _ => (true, None) | Err e => (false, Some e) end)
      end
  end.

Definition setInPlaceUpdatePendingReason (pod : RolePod) (reason : string) : Run W (option kubeError) :=
  if bool_decide (annotationOf pod RoleInPlaceUpdatePendingReasonAnnotationKey = reason) then mret None
  else
    r ← call (PatchPod pod (setPodAnnotations pod
                (<[RoleInPlaceUpdatePendingReasonAnnotationKey := reason]> pod.(rp_Annotations))));
    mret (errorOf r).

(** The condition made true, then the pod patched. *)
Definition finishInPlaceUpdate (pod updated : RolePod) : Run W (bool * option kubeError) :=
  e ← setInPlaceReadinessCondition pod ConditionTrue;
  match e with
  | Some e => mret (false, Some e)
  | None =>
      r ← call (PatchPod pod updated);
      mret (match r with Ok _ => (true, None) | Err e => (false, Some e) end)
  end.

Definition markInPlaceUpdateComplete (rs : RoleSet) (role : RoleSpec) (pod : RolePod) (targetHash : string)
  : Run W (bool * option kubeError) :=
  let cleared := clearInPlaceMarks pod.(rp_Annotations) in
  if bool_decide (labelOf pod RoleTemplateHashLabelKey = targetHash) then
    if bool_decide (is_Some (pod.(rp_Annotations) !! RoleInPlaceUpdateTargetHashAnnotationKey))
    then finishInPlaceUpdate pod (setPodMeta pod (revisionLabels rs role pod.(rp_Labels)) cleared)
    else mret (true, None)
  else if negb (hasTarget targetHash pod) then mret (false, None)
  else match inPlaceUpdatePendingStatusForPod pod with
       | Some reason =>
           e ← setInPlaceUpdatePendingReason pod reason;
           mret (false, e)
       | None =>
           finishInPlaceUpdate pod (setPodMeta pod
             (revisionLabels rs role (<[RoleTemplateHashLabelKey := targetHash]> pod.(rp_Labels))) cleared)
       end.

(** The pods patched before are settled first: what is left of the budget, and
    the pods that are still to be patched. *)
Fixpoint settlePatched (rs : RoleSet) (role : RoleSpec) (roleTemplateHash : string) (unavailableBudget : Z)
    (candidates outdated : list RolePod) : Run W (result kubeError (Z * list RolePod)) :=
  match outdated with
  | [] => mret (Ok (unavailableBudget, candidates))
  | pod :: rest =>
      r ← markInPlaceUpdateComplete rs role pod roleTemplateHash;
      match r with
      | (_, Some e) => mret (Err e)
      | (true, None) => settlePatched rs role roleTemplateHash unavailableBudget candidates rest
      | (false, None) =>
          if hasTarget roleTemplateHash pod
          then settlePatched rs role roleTemplateHash
                 (if IsRolePodReady pod then wrap32 (unavailableBudget - 1) else unavailableBudget) candidates rest
          else settlePatched rs role roleTemplateHash unavailableBudget (candidates ++ [pod]) rest
      end
  end.

Fixpoint patchCandidates (rs : RoleSet) (role : RoleSpec) (roleTemplateHash : string) (unavailableBudget : Z)
    (candidates : list RolePod) : Run W (option roleError) :=
  match candidates with
  | [] => mret None
  | pod :: rest =>
      match canInPlaceUpdatePod rs role pod with
      | Some reason => mret (Some (NotEligible pod.(rp_Name) reason))
      | None =>
          if IsRolePodReady pod && (unavailableBudget <=? 0)
          then patchCandidates rs role roleTemplateHash unavailableBudget rest
          else
            r ← patchPodImagesForInPlaceUpdate pod role roleTemplateHash;
            match r.2 with
            | Some e => mret (Some (RoleApiError e))
            | None =>
                patchCandidates rs role roleTemplateHash
                  (if IsRolePodReady pod then wrap32 (unavailableBudget - 1) else unavailableBudget) rest
            end
      end
  end.

Definition rolloutPodsInPlace (rs : RoleSet) (role : RoleSpec) (outdated : list RolePod)
    (roleTemplateHash : string) (unavailableBudget : Z) : Run W (option roleError) :=
  settled ← settlePatched rs role roleTemplateHash unavailableBudget [] (sortPodsByActive outdated);
  match settled with
  | Err e => mret (Some (RoleApiError e))
  | Ok (unavailableBudget, candidates) => patchCandidates rs role roleTemplateHash unavailableBudget candidates
  end.

Definition hasInPlaceUpdateInProgress (namespace roleSetName : string) : Run W (result kubeError bool) :=
  pods ← call (ListPods namespace {[ RoleSetNameLabelKey := roleSetName ]});
  mret (match pods with
        | Err e => Err e
        | Ok pods => Ok (existsb (fun pod =>
            negb (bool_decide (annotationOf pod RoleInPlaceUpdateTargetHashAnnotationKey = ""))) pods)
        end).
End Calls.
