(* ===== verification/RoleSync.v ===== *)
(** * Scaling and rolling out the pods of a role
    ([pkg/controller/roleset/rolesyncer.go], and the batches and the clean up of
    utils.go).

    A role is synchronised in two steps: [Scale] brings the number of its pods
    to the one asked for, [Rollout] replaces those of an old template, or
    updates them in place.  A stateless role has interchangeable pods; a
    stateful one has a slot for each replica.  Both keep within the role's
    surge and its number of unavailable pods. *)

From S2P Require Import Prelude Api Claims Ledger KVPlan Placement Reservations Runtime Storm StormSync PodTypes RolePods RoleRender PodDrain InPlace.

(** ** The interface of the syncers. *)

Section Interface.
Context `{K8sApps} (W : Type).

Record RoleRollingSyncer : Type := MkSyncer {
  sync_Scale : RoleSet → RoleSpec → Run W (drainResult * option roleError);
  sync_Rollout : RoleSet → RoleSpec → Run W (drainResult * option roleError);
  sync_RolloutByStep : RoleSet → RoleSpec → Z → Run W (drainResult * option roleError);
  sync_AllReady : RoleSet → RoleSpec → Run W (result kubeError bool);
  (** Whether the role is done, and the step it is at. *)
  sync_CheckCurrentStep : RoleSet → RoleSpec → Run W (result kubeError (bool * Z));
}.
End Interface.
Arguments MkSyncer {_ _}.
Arguments sync_Scale {_ _}.
Arguments sync_Rollout {_ _}.
Arguments sync_RolloutByStep {_ _}.
Arguments sync_AllReady {_ _}.
Arguments sync_CheckCurrentStep {_ _}.

Definition MinInt32 (a b : Z) : Z := if a <? b then a else b.

Definition PodBurst : nat := 500.
Definition PodOperationInitBatchSize : Z := 16.

(** ** Pods listed, created and cleaned up. *)

Section Pods.
Context `{RoleApi W}.

Definition roleLabels (roleSetName roleName : string) : gmap string string :=
  {[ RoleNameLabelKey := roleName; RoleSetNameLabelKey := roleSetName ]}.

Definition getRolePods (rs : RoleSet) (role : RoleSpec) : Run W (result kubeError (list RolePod)) :=
  call (ListPods rs.(rs_Namespace) (roleLabels rs.(rs_Name) role.(role_Name))).

Definition getRolePodSets (rs : RoleSet) (role : RoleSpec) : Run W (result kubeError (list PodSet)) :=
  call (ListPodSets rs.(rs_Namespace) (roleLabels rs.(rs_Name) role.(role_Name))).

(** A pod that is there already, or that cannot be created because its namespace
    goes, is skipped. *)
Definition createOne (pod : RolePod) : Run W (result kubeError unit) :=
  r ← call (CreatePod pod);
  mret (match r with Err AlreadyExists | Err NamespaceTerminating => Ok () | r => r end).

Definition createPodsInBatch (podsToCreate : list RolePod) : Run W (Z * option kubeError) :=
  let podsToCreate := take PodBurst podsToCreate in
  SlowStartBatch (Z.of_nat (length podsToCreate)) PodOperationInitBatchSize (onIndex podsToCreate createOne).

(** Whether any was deleted, and the errors. *)
Fixpoint deleteOrphans {A} (delete : A → W → W * result kubeError unit) (orphans : list A)
  : Run W (bool * list kubeError) :=
  match orphans with
  | [] => mret (false, [])
  | x :: rest =>
      r ← call (delete x);
      others ← deleteOrphans delete rest;
      mret (match r with
            | Ok _ => (true, others.2)
            | Err NotFound => others
            | Err e => (others.1, e :: others.2)
            end)
  end.

Definition cleanupOrphanPods (rs : RoleSet) (role : RoleSpec) : Run W (bool * list kubeError) :=
  listed ← getRolePods rs role;
  match listed with
  | Err e => mret (false, [e])
  | Ok allPods =>
      deleteOrphans DeletePod (List.filter (fun pod => isOwnedByRoleSet pod.(rp_Owners) rs) allPods)
  end.

Definition cleanupOrphanPodSets (rs : RoleSet) (role : RoleSpec) : Run W (bool * list kubeError) :=
  listed ← getRolePodSets rs role;
  match listed with
  | Err e => mret (false, [e])
  | Ok allPodSets =>
      deleteOrphans DeletePodSet
        (List.filter (fun podSet => isOwnedByRoleSet podSet.(pset_Owners) rs) allPodSets)
  end.

(** A clean up of what the other kind of syncer left, and then, when there was
    none to do, the scaling. *)
Definition afterCleanup (cleanup : Run W (bool * list kubeError)) (scale : Run W (drainResult * option roleError))
  : Run W (drainResult * option roleError) :=
  cleaned ← cleanup;
  match cleaned with
  | (changed, e :: _) => mret (MkDrainResult changed 0, Some (RoleApiError e))
  | (true, []) => mret (changedResult, None)
  | (false, []) => scale
  end.

Definition deletePodsForRollout (pods : list RolePod) (spec : option RoleDrainSpec) (now : Time)
  : Run W (drainResult * option kubeError) :=
  let '(readyPods, notReadyPods) := splitPodsByReady pods in
  r ← DeletePods notReadyPods None PodDrainReasonRollout now;
  match r.2 with
  | Some e => mret r
  | None =>
      ready ← DeletePods readyPods spec PodDrainReasonRollout now;
      match ready.2 with
      | Some e => mret (r.1, Some e)
      | None => mret (mergeResult r.1 ready.1, None)
      end
  end.

(** The end of a scaling: pods are created, marks that are no longer wanted are
    taken away, and pods are drained or deleted. *)
Definition applyScale (role : RoleSpec) (activePods toCreate toDelete : list RolePod)
  : Run W (drainResult * option roleError) :=
  created ← createPodsInBatch toCreate;
  match created.2 with
  | Some e => mret (noResult, Some (RoleApiError e))
  | None =>
      cancelled ← CancelPods (staleScaleInDrainingPods activePods toDelete) PodDrainReasonScaleIn;
      match cancelled.2 with
      | Some e => mret (noResult, Some (RoleApiError e))
      | None =>
          now ← call RoleNow;
          deleted ← DeletePods toDelete role.(role_Drain) PodDrainReasonScaleIn now;
          match deleted.2 with
          | Some e => mret (noResult, Some (RoleApiError e))
          | None =>
              let merged := mergeResult deleted.1 cancelled.1 in
              mret (MkDrainResult (merged.(res_Changed) || (0 <? created.1)) merged.(res_RequeueAfter), None)
          end
      end
  end.

(** The end of a rollout. *)
Definition applyRollout (role : RoleSpec) (toCreate toDelete : list RolePod)
  : Run W (drainResult * option roleError) :=
  created ← createPodsInBatch toCreate;
  match created.2 with
  | Some e => mret (noResult, Some (RoleApiError e))
  | None =>
      now ← call RoleNow;
      deleted ← deletePodsForRollout toDelete role.(role_Drain) now;
      match deleted.2 with
      | Some e => mret (noResult, Some (RoleApiError e))
      | None => mret (MkDrainResult (deleted.1.(res_Changed) || (0 <? created.1)) deleted.1.(res_RequeueAfter), None)
      end
  end.
End Pods.

(** ** What is done of each slot.  Pods and PodSets are treated alike. *)

Section SlotPlans.
Context {A : Type} (ready updated : A → bool) (make : Z → A).

(** What is given up of a slot that has more than one member: it keeps a ready
    one of the new version, or else one of the new version and a ready one of
    an old version. *)
Definition surplusOfSlot (slot : list A) : list A :=
  let '(readyOnes, notReadyOnes) := split ready slot in
  let '(updatedReady, outdatedReady) := split updated readyOnes in
  let '(updatedNotReady, outdatedNotReady) := split updated notReadyOnes in
  outdatedNotReady ++
  match updatedReady with
  | _ :: more => outdatedReady ++ updatedNotReady ++ more
  | [] => tail outdatedReady ++ tail updatedNotReady
  end.

(** What is created for empty slots while the budget lasts, and what is given
    up. *)
Fixpoint scaleSlots (i createBudget : Z) (slots : list (list A)) : list A * list A :=
  match slots with
  | [] => ([], [])
  | [] :: rest =>
      if createBudget <=? 0 then scaleSlots (i + 1) createBudget rest
      else let '(toCreate, toDelete) := scaleSlots (i + 1) (createBudget - 1) rest in
           (make i :: toCreate, toDelete)
  | slot :: rest =>
      let '(toCreate, toDelete) := scaleSlots (i + 1) createBudget rest in
      (toCreate, (if (1 <? length slot)%nat then surplusOfSlot slot else []) ++ toDelete)
  end.

(** What a rollout deletes and creates: the outdated member of a slot of one is
    deleted when it is not ready or the budget allows it, and otherwise another
    one is created beside it. *)
Fixpoint rolloutSlots (i deleteBudget createBudget : Z) (slots : list (list A)) : list A * list A :=
  match slots with
  | [] => ([], [])
  | [x] :: rest =>
      if updated x then rolloutSlots (i + 1) deleteBudget createBudget rest
      else if negb (ready x) then
        let '(toCreate, toDelete) := rolloutSlots (i + 1) deleteBudget createBudget rest in
        (toCreate, x :: toDelete)
      else if 0 <? deleteBudget then
        let '(toCreate, toDelete) := rolloutSlots (i + 1) (deleteBudget - 1) createBudget rest in
        (toCreate, x :: toDelete)
      else if 0 <? createBudget then
        let '(toCreate, toDelete) := rolloutSlots (i + 1) deleteBudget (createBudget - 1) rest in
        (make i :: toCreate, toDelete)
      else rolloutSlots (i + 1) deleteBudget createBudget rest
  | _ :: rest => rolloutSlots (i + 1) deleteBudget createBudget rest
  end.

(** The outdated members of slots of one. *)
Definition outdatedInSlots (slots : list (list A)) : list A :=
  slot ← slots; match slot with [x] => if updated x then [] else [x] | _ => [] end.
End SlotPlans.

Definition int32Of {A} (l : list A) : Z := wrap32 (Z.of_nat (length l)).

(** The length of a step: what may be replaced at once. *)
Definition stepLength `{K8s} `{K8sApps} (role : RoleSpec) : Z :=
  let n := wrap32 (roleMaxSurge role + roleMaxUnavailable role) in if n <? 1 then 1 else n.

(** How many replicas are to be updated by the end of a step. *)
Definition updatedByStep `{K8s} `{K8sApps} (role : RoleSpec) (currentStep : Z) : Z :=
  MinInt32 (wrap32 (wrap32 (roleMaxSurge role + roleMaxUnavailable role) * currentStep)) (getRoleReplicas role).

(** The step a role is at, from how many replicas are updated and ready, updated
    and outdated, and whether anything is unsettled. *)
Definition currentStepOf (stepLen readyUpdated updated outdated replicas : Z) (settled : bool) : Z :=
  let currentStep := wrap32 (Z.quot (wrap32 (readyUpdated - 1)) stepLen + 1) in
  if (settled && (readyUpdated =? wrap32 (currentStep * stepLen))) ||
     (wrap32 (currentStep * stepLen) <? updated) ||
     (outdated <? wrap32 (replicas - wrap32 (stepLen * currentStep)))
  then wrap32 (currentStep + 1) else currentStep.

(** ** Stateful roles. *)

Section Stateful.
Context `{RoleApi W} `{!PodTemplates} `{RoleCodec} `{SliceSort}.
Context (rs : RoleSet) (role : RoleSpec).

Let roleTemplateHash : string := ComputeHash role.(role_Template).
Let isUpdated : RolePod → bool := isUpdatedTo roleTemplateHash.
Let expectedReplicas : Z := getRoleReplicas role.

Definition statefulScale : Run W (drainResult * option roleError) :=
  afterCleanup (cleanupOrphanPodSets rs role) (
    listed ← getRolePods rs role;
    match listed with
    | Err e => mret (noResult, Some (RoleApiError e))
    | Ok allPods =>
        let '(activePods, inactivePods) := filterActivePods allPods in
        let '(terminatingPods, terminatedPods) := filterTerminatingPods inactivePods in
        let '(slots, toDelete) := podSlotForRole role activePods in
        let createBudget := wrap32 (Z.of_nat (length slots) + roleMaxSurge role -
          Z.of_nat (length activePods) - Z.of_nat (length terminatingPods)) in
        let bindings := historicalNodeBindingsForPodCreation rs role in
        let '(podsToCreate, surplus) := scaleSlots isActiveReady isUpdated
          (fun i => newRolePod rs role bindings (Some i) false) 0 createBudget slots in
        applyScale role activePods podsToCreate (terminatedPods ++ toDelete ++ surplus)
    end).

(** The end of both kinds of rollout, with what may be deleted, created and
    updated. *)
Definition statefulReplace (slots : list (list RolePod)) (deleteBudget createBudget : Z)
    (inPlace : list RolePod → list RolePod) : Run W (drainResult * option roleError) :=
  let recreate :=
    let bindings := historicalNodeBindingsForPodCreation rs role in
    let '(toCreate, toDelete) := rolloutSlots IsRolePodReady isUpdated
      (fun i => newRolePod rs role bindings (Some i) true) 0 deleteBudget createBudget slots in
    applyRollout role toCreate toDelete in
  let outdatedPods := outdatedInSlots isUpdated slots in
  if bool_decide (roleUpdateStrategyTypeOrDefault role = InPlaceIfPossibleRoleUpdateStrategyType) then
    match canRolloutPodsInPlace rs role roleTemplateHash outdatedPods with
    | None =>
        e ← rolloutPodsInPlace rs role (inPlace outdatedPods) roleTemplateHash deleteBudget;
        mret (noResult, e)
    | Some _ => recreate
    end
  else recreate.

Definition statefulRollout : Run W (drainResult * option roleError) :=
  listed ← getRolePods rs role;
  match listed with
  | Err e => mret (noResult, Some (RoleApiError e))
  | Ok allPods =>
      let deleteBudget := wrap32 (readySlotNum role allPods - expectedReplicas + roleMaxUnavailable role) in
      let createBudget := wrap32 (expectedReplicas + roleMaxSurge role - Z.of_nat (length allPods)) in
      let slots := (podSlotForRole role (filterActivePods allPods).1).1 in
      statefulReplace slots deleteBudget createBudget id
  end.

Definition statefulRolloutByStep (currentStep : Z) : Run W (drainResult * option roleError) :=
  listed ← getRolePods rs role;
  match listed with
  | Err e => mret (noResult, Some (RoleApiError e))
  | Ok allPods =>
      let expectedUpdated := updatedByStep role currentStep in
      let '(updatedTotal, _, outdatedTotal) := updatedSlotNum role allPods in
      let createBudget := MinInt32
        (wrap32 (expectedReplicas + roleMaxSurge role - Z.of_nat (length allPods)))
        (wrap32 (expectedUpdated - updatedTotal)) in
      let deleteBudget := MinInt32
        (wrap32 (readySlotNum role allPods - expectedReplicas + roleMaxUnavailable role))
        (wrap32 (outdatedTotal - expectedReplicas + expectedUpdated)) in
      let slots := (podSlotForRole role (filterActivePods allPods).1).1 in
      statefulReplace slots deleteBudget createBudget
        (selectInPlaceOutdatedPodsForStep roleTemplateHash (wrap32 (expectedUpdated - updatedTotal)))
  end.

Definition isSingle {A} (slot : list A) : bool := match slot with [_] => true | _ => false end.

Definition statefulComplete (allPods : list RolePod) : bool :=
  let '(activePods, inactivePods) := filterActivePods allPods in
  let '(ready, notReady) := filterReadyPods activePods in
  let '(updated, outdated) := filterUpdatedPods ready roleTemplateHash in
  let '(slots, toDelete) := podSlotForRole role updated in
  bool_decide (inactivePods = []) && bool_decide (notReady = []) && bool_decide (outdated = []) &&
  bool_decide (toDelete = []) && forallb isSingle slots.

Definition statefulAllReady : Run W (result kubeError bool) :=
  listed ← getRolePods rs role;
  mret (match listed with Err e => Err e | Ok allPods => Ok (statefulComplete allPods) end).

Definition statefulStep (allPods : list RolePod) : bool * Z :=
  let '(activePods, inactivePods) := filterActivePods allPods in
  let '(ready, notReady) := filterReadyPods activePods in
  let outdated := (filterUpdatedPods ready roleTemplateHash).2 in
  let '(slotsActive, toDelete) := podSlotForRole role activePods in
  let '(updatedSlots, readySlots, outdatedSlots) := updatedSlotNum role activePods in
  let settled := bool_decide (toDelete = []) && bool_decide (inactivePods = []) && bool_decide (notReady = []) in
  (settled && bool_decide (outdated = []) && (readySlots =? int32Of slotsActive),
   currentStepOf (stepLength role) readySlots updatedSlots outdatedSlots (int32Of slotsActive) settled).

Definition statefulCheckCurrentStep : Run W (result kubeError (bool * Z)) :=
  listed ← getRolePods rs role;
  mret (match listed with Err e => Err e | Ok allPods => Ok (statefulStep allPods) end).
End Stateful.

(** ** Stateless roles. *)

Section Stateless.
Context `{RoleApi W} `{!PodTemplates} `{RoleCodec} `{SliceSort}.
Context (rs : RoleSet) (role : RoleSpec).

Let roleTemplateHash : string := ComputeHash role.(role_Template).
Let expectedReplicas : Z := getRoleReplicas role.

(** The draining pods go first: those taken, how many more are to go, and how
    many are ready then. *)
Fixpoint takeDraining (diff readyCount : Z) (pods : list RolePod) : list RolePod * Z * Z :=
  match pods with
  | [] => ([], diff, readyCount)
  | pod :: rest =>
      if diff =? 0 then ([], diff, readyCount)
      else if negb (IsPodDraining pod) then takeDraining diff readyCount rest
      else let '(taken, diff', readyCount') := takeDraining (diff - 1)
             (if IsRolePodReady pod then readyCount - 1 else readyCount) rest in
           (pod :: taken, diff', readyCount')
  end.

(** Then the others, up to a ready one that cannot be spared. *)
Fixpoint takeOthers (minAvailable diff readyCount : Z) (pods : list RolePod) : list RolePod :=
  match pods with
  | [] => []
  | pod :: rest =>
      if diff =? 0 then []
      else if IsPodDraining pod then takeOthers minAvailable diff readyCount rest
      else if IsRolePodReady pod && (readyCount <=? minAvailable) then []
      else pod :: takeOthers minAvailable (diff - 1)
                    (if IsRolePodReady pod then readyCount - 1 else readyCount) rest
  end.

(** The pods given up when there are too many. *)
Definition scaledIn (diff : Z) (activePods : list RolePod) : list RolePod :=
  let readyCount := Z.of_nat (length (filterReadyPods activePods).1) in
  let minAvailable := wrap32 (expectedReplicas - roleMaxUnavailable role) in
  let '(draining, diff, readyCount) := takeDraining diff readyCount activePods in
  draining ++ takeOthers minAvailable diff readyCount activePods.

Definition statelessScale : Run W (drainResult * option roleError) :=
  afterCleanup (cleanupOrphanPodSets rs role) (
    listed ← getRolePods rs role;
    match listed with
    | Err e => mret (noResult, Some (RoleApiError e))
    | Ok allPods =>
        let '(activePods, inactivePods) := filterActivePods allPods in
        let terminatedPods := (filterTerminatingPods inactivePods).2 in
        let diff := Z.of_nat (length activePods) - expectedReplicas in
        if 0 <? diff then
          let sorted := sortPodsByTemplateHash activePods roleTemplateHash in
          applyScale role sorted [] (terminatedPods ++ scaledIn diff sorted)
        else if diff <? 0 then
          let terminatingPods := (filterTerminatingPods allPods).1 in
          let createBudget := MinInt32 (wrap32 (- diff))
            (wrap32 (expectedReplicas + roleMaxSurge role - Z.of_nat (length activePods) -
                     Z.of_nat (length terminatingPods))) in
          applyScale role activePods (replicate (Z.to_nat createBudget) (buildRenderedPod rs role None))
            terminatedPods
        else applyScale role activePods [] terminatedPods
    end).

(** The outdated pods that are deleted, in order: up to a ready one that the
    budget does not allow. *)
Fixpoint outdatedTaken (deleteBudget : Z) (outdated : list RolePod) : list RolePod :=
  match outdated with
  | [] => []
  | pod :: rest =>
      if IsRolePodReady pod then
        if deleteBudget <=? 0 then [] else pod :: outdatedTaken (deleteBudget - 1) rest
      else pod :: outdatedTaken deleteBudget rest
  end.

(** The end of both kinds of rollout, with how many more updated pods are
    wanted. *)
Definition statelessReplace (allPods outdated : list RolePod) (deleteBudget wanted : Z)
    (inPlace : list RolePod → list RolePod) : Run W (drainResult * option roleError) :=
  let recreate :=
    let activePods := (filterActivePods allPods).1 in
    let terminatingPods := (filterTerminatingPods allPods).1 in
    let toDelete := outdatedTaken deleteBudget (sortPodsByActive outdated) in
    let createBudget := MinInt32
      (wrap32 (expectedReplicas + roleMaxSurge role - Z.of_nat (length activePods) -
               Z.of_nat (length terminatingPods))) wanted in
    let bindings := historicalNodeBindingsForPodCreation rs role in
    applyRollout role (replicate (Z.to_nat createBudget) (newRolePod rs role bindings None false)) toDelete in
  if bool_decide (roleUpdateStrategyTypeOrDefault role = InPlaceIfPossibleRoleUpdateStrategyType) then
    match canRolloutPodsInPlace rs role roleTemplateHash outdated with
    | None =>
        e ← rolloutPodsInPlace rs role (inPlace outdated) roleTemplateHash deleteBudget;
        mret (noResult, e)
    | Some _ => recreate
    end
  else recreate.

Definition statelessRollout : Run W (drainResult * option roleError) :=
  listed ← getRolePods rs role;
  match listed with
  | Err e => mret (noResult, Some (RoleApiError e))
  | Ok allPods =>
      let activePods := (filterActivePods allPods).1 in
      let '(updated, outdated) := filterUpdatedPods activePods roleTemplateHash in
      let ready := (filterReadyPods activePods).1 in
      let deleteBudget := wrap32 (Z.of_nat (length ready) - expectedReplicas + roleMaxUnavailable role) in
      statelessReplace allPods outdated deleteBudget
        (wrap32 (expectedReplicas - Z.of_nat (length updated))) id
  end.

(** The outdated pods are put in order before the pods to update in place are
    selected. *)
Definition statelessRolloutByStep (currentStep : Z) : Run W (drainResult * option roleError) :=
  listed ← getRolePods rs role;
  match listed with
  | Err e => mret (noResult, Some (RoleApiError e))
  | Ok allPods =>
      let activePods := (filterActivePods allPods).1 in
      let expectedUpdated := updatedByStep role currentStep in
      let '(updated, outdated) := filterUpdatedPods activePods roleTemplateHash in
      if expectedUpdated <=? int32Of updated then mret (noResult, None)
      else
        let ready := (filterReadyPods activePods).1 in
        let deleteBudget := MinInt32
          (wrap32 (Z.of_nat (length outdated) - expectedReplicas + expectedUpdated))
          (wrap32 (Z.of_nat (length ready) - expectedReplicas + roleMaxUnavailable role)) in
        let wanted := wrap32 (expectedUpdated - Z.of_nat (length updated)) in
        statelessReplace allPods outdated deleteBudget wanted
          (fun outdated => selectInPlaceOutdatedPodsForStep roleTemplateHash wanted (sortPodsByActive outdated))
  end.

Definition statelessComplete (allPods : list RolePod) : bool :=
  let '(activePods, inactivePods) := filterActivePods allPods in
  let '(ready, notReady) := filterReadyPods activePods in
  let '(updated, outdated) := filterUpdatedPods ready roleTemplateHash in
  bool_decide (inactivePods = []) && bool_decide (notReady = []) && bool_decide (outdated = []) &&
  (Z.of_nat (length updated) =? expectedReplicas).

Definition statelessAllReady : Run W (result kubeError bool) :=
  listed ← getRolePods rs role;
  mret (match listed with Err e => Err e | Ok allPods => Ok (statelessComplete allPods) end).

Definition statelessStep (allPods : list RolePod) : bool * Z :=
  let '(activePods, inactivePods) := filterActivePods allPods in
  let '(ready, notReady) := filterReadyPods activePods in
  let '(updated, outdated) := filterUpdatedPods ready roleTemplateHash in
  let '(updatedActive, outdatedActive) := filterUpdatedPods activePods roleTemplateHash in
  let settled := bool_decide (inactivePods = []) && bool_decide (notReady = []) in
  (settled && bool_decide (outdated = []) && (expectedReplicas <=? Z.of_nat (length updated)),
   currentStepOf (stepLength role) (int32Of updated) (int32Of updatedActive) (int32Of outdatedActive)
     expectedReplicas settled).

Definition statelessCheckCurrentStep : Run W (result kubeError (bool * Z)) :=
  listed ← getRolePods rs role;
  mret (match listed with Err e => Err e | Ok allPods => Ok (statelessStep allPods) end).
End Stateless.
