(* ===== verification/PodSetSync.v ===== *)
(** * Scaling and rolling out the PodSets of a role
    ([pkg/controller/roleset/podset_rollsyncer.go]).

    A role whose replicas are groups of pods has a PodSet for each of them, in
    slots, as a stateful role has pods. *)

From S2P Require Import Prelude Api Claims Ledger KVPlan Placement Reservations Runtime Storm StormSync PodTypes RolePods RoleRender PodDrain InPlace RoleSync.

(** ** Filters. *)

Section PodSetFilters.
Context `{K8sApps} `{PodTypes}.

Definition filterActivePodSets (podSets : list PodSet) : list PodSet * list PodSet := split isPodSetActive podSets.

(** Terminating, and terminated: deleted, and no finalizer left.  One that failed
    is neither. *)
Definition filterTerminatingPodSets (inactivePodSets : list PodSet) : list PodSet * list PodSet :=
  let deleting := List.filter (fun podSet => bool_decide (is_Some podSet.(pset_DeletionTimestamp))) inactivePodSets in
  let '(terminated, terminating) := split (fun podSet => bool_decide (podSet.(pset_Finalizers) = [])) deleting in
  (terminating, terminated).

Definition filterReadyPodSets (podSets : list PodSet) : list PodSet * list PodSet := split isPodSetReady podSets.

Definition isPodSetUpdatedTo (templateHash : string) (podSet : PodSet) : bool :=
  bool_decide (podSetLabelOf podSet RoleTemplateHashLabelKey = templateHash).

Definition filterUpdatedPodSets (podSets : list PodSet) (templateHash : string) : list PodSet * list PodSet :=
  split (isPodSetUpdatedTo templateHash) podSets.
End PodSetFilters.

(** ** Calls. *)

Section PodSetCalls.
Context `{RoleApi W}.

Fixpoint createPodSetsInBatch (podSets : list PodSet) : Run W (option kubeError) :=
  match podSets with
  | [] => mret None
  | podSet :: rest =>
      r ← call (CreatePodSet podSet);
      match r with
      | Err e => mret (Some e)
      | Ok _ => createPodSetsInBatch rest
      end
  end.

Fixpoint deletePodSetsInBatch (podSets : list PodSet) : Run W (option kubeError) :=
  match podSets with
  | [] => mret None
  | podSet :: rest =>
      r ← call (DeletePodSet podSet);
      match ignoreNotFound r with
      | Some e => mret (Some e)
      | None => deletePodSetsInBatch rest
      end
  end.

(** The end of a scaling and of a rollout. *)
Definition applyPodSets (toCreate toDelete : list PodSet) : Run W (drainResult * option roleError) :=
  created ← createPodSetsInBatch toCreate;
  match created with
  | Some e => mret (noResult, Some (RoleApiError e))
  | None =>
      deleted ← deletePodSetsInBatch toDelete;
      match deleted with
      | Some e => mret (noResult, Some (RoleApiError e))
      | None =>
          mret (MkDrainResult (negb (bool_decide (length toCreate = 0%nat)) ||
                               negb (bool_decide (length toDelete = 0%nat))) 0, None)
      end
  end.
End PodSetCalls.

(** ** The syncer. *)

Section PodSetSyncer.
Context `{RoleApi W} `{!PodTemplates}.
Context (rs : RoleSet) (role : RoleSpec).

Let roleTemplateHash : string := ComputeHash role.(role_Template).
Let isUpdated : PodSet → bool := isPodSetUpdatedTo roleTemplateHash.
Let expectedReplicas : Z := getRoleReplicas role.
Let make : Z → PodSet := createPodSetForRole rs role.

Definition podSetSlotReady (slot : list PodSet) : bool :=
  negb (bool_decide (length (filterReadyPodSets slot).1 = 0%nat)).

Definition podSetReadySlotNum (allPodSets : list PodSet) : Z :=
  Z.of_nat (length (List.filter podSetSlotReady (podSetSlotForRole role (filterActivePodSets allPodSets).1).1)).

Definition podSetUpdatedSlotNum (allPodSets : list PodSet) : Z * Z * Z :=
  countSlots isUpdated isPodSetReady (podSetSlotForRole role (filterActivePodSets allPodSets).1).1.

Definition podSetScale : Run W (drainResult * option roleError) :=
  afterCleanup (cleanupOrphanPods rs role) (
    listed ← getRolePodSets rs role;
    match listed with
    | Err e => mret (noResult, Some (RoleApiError e))
    | Ok allPodSets =>
        let '(activePodSets, inactivePodSets) := filterActivePodSets allPodSets in
        let '(terminatingPodSets, terminatedPodSets) := filterTerminatingPodSets inactivePodSets in
        let '(slots, toDelete) := podSetSlotForRole role activePodSets in
        let createBudget := wrap32 (Z.of_nat (length slots) + roleMaxSurge role -
          Z.of_nat (length activePodSets) - Z.of_nat (length terminatingPodSets)) in
        let '(toCreate, surplus) := scaleSlots isPodSetReady isUpdated make 0 createBudget slots in
        applyPodSets toCreate (terminatedPodSets ++ toDelete ++ surplus)
    end).

Definition podSetReplace (allPodSets : list PodSet) (deleteBudget createBudget : Z)
  : Run W (drainResult * option roleError) :=
  let slots := (podSetSlotForRole role (filterActivePodSets allPodSets).1).1 in
  let '(toCreate, toDelete) := rolloutSlots isPodSetReady isUpdated make 0 deleteBudget createBudget slots in
  applyPodSets toCreate toDelete.

Definition podSetRollout : Run W (drainResult * option roleError) :=
  listed ← getRolePodSets rs role;
  match listed with
  | Err e => mret (noResult, Some (RoleApiError e))
  | Ok allPodSets =>
      podSetReplace allPodSets
        (wrap32 (podSetReadySlotNum allPodSets - expectedReplicas + roleMaxUnavailable role))
        (wrap32 (expectedReplicas + roleMaxSurge role - Z.of_nat (length allPodSets)))
  end.

Definition podSetRolloutByStep (currentStep : Z) : Run W (drainResult * option roleError) :=
  listed ← getRolePodSets rs role;
  match listed with
  | Err e => mret (noResult, Some (RoleApiError e))
  | Ok allPodSets =>
      let expectedUpdated := updatedByStep role currentStep in
      let '(updatedTotal, _, outdatedTotal) := podSetUpdatedSlotNum allPodSets in
      podSetReplace allPodSets
        (MinInt32 (wrap32 (podSetReadySlotNum allPodSets - expectedReplicas + roleMaxUnavailable role))
           (wrap32 (outdatedTotal - expectedReplicas + expectedUpdated)))
        (MinInt32 (wrap32 (expectedReplicas + roleMaxSurge role - Z.of_nat (length allPodSets)))
           (wrap32 (expectedUpdated - updatedTotal)))
  end.

Definition podSetComplete (allPodSets : list PodSet) : bool :=
  let '(activePodSets, inactivePodSets) := filterActivePodSets allPodSets in
  let '(ready, notReady) := filterReadyPodSets activePodSets in
  let '(updated, outdated) := filterUpdatedPodSets ready roleTemplateHash in
  let '(slots, toDelete) := podSetSlotForRole role updated in
  bool_decide (length inactivePodSets = 0%nat) && bool_decide (length notReady = 0%nat) &&
  bool_decide (length outdated = 0%nat) && bool_decide (length toDelete = 0%nat) && forallb isSingle slots.

Definition podSetAllReady : Run W (result kubeError bool) :=
  listed ← getRolePodSets rs role;
  mret (match listed with Err e => Err e | Ok allPodSets => Ok (podSetComplete allPodSets) end).

Definition podSetStep (allPodSets : list PodSet) : bool * Z :=
  let '(activePodSets, inactivePodSets) := filterActivePodSets allPodSets in
  let '(ready, notReady) := filterReadyPodSets activePodSets in
  let outdated := (filterUpdatedPodSets ready roleTemplateHash).2 in
  let '(slotsActive, toDelete) := podSetSlotForRole role activePodSets in
  let '(updatedSlots, readySlots, outdatedSlots) := podSetUpdatedSlotNum allPodSets in
  let settled := bool_decide (length toDelete = 0%nat) && bool_decide (length inactivePodSets = 0%nat) &&
    bool_decide (length notReady = 0%nat) in
  (settled && bool_decide (length outdated = 0%nat) && (readySlots =? int32Of slotsActive),
   currentStepOf (stepLength role) readySlots updatedSlots outdatedSlots (int32Of slotsActive) settled).

Definition podSetCheckCurrentStep : Run W (result kubeError (bool * Z)) :=
  listed ← getRolePodSets rs role;
  mret (match listed with Err e => Err e | Ok allPodSets => Ok (podSetStep allPodSets) end).
End PodSetSyncer.
