(* ===== verification/Rolling.v ===== *)
(** * Rolling out the roles of a RoleSet ([pkg/controller/roleset/rolling.go],
    [syncPods] of sync.go, and [GetRoleSyncerWithRecorder] of rolesyncer.go).

    The roles are scaled first.  When nothing is left to scale they are rolled
    out: one after the other in the order of their upgrades, all in the same
    pass, or in steps that no role takes before the others. *)

From S2P Require Import Prelude Api Claims Ledger KVPlan Placement Reservations Runtime Storm StormSync PodTypes RolePods RoleRender PodDrain InPlace RoleSync PodSetSync.

Definition ParallelRoleSetUpdateStrategyType : string := "Parallel".
Definition SequentialRoleSetStrategyType : string := "Sequential".
Definition InterleaveRoleSetStrategyType : string := "Interleave".
Definition MaxInt32 : Z := 2 ^ 31 - 1.

(** ** The managers, over the syncer of each role. *)

Section Managers.
Context `{K8s} `{K8sApps} {W : Type} (syncerOf : RoleSpec → RoleRollingSyncer W) (rs : RoleSet).

(** The roles one after the other, up to an error. *)
Fixpoint eachRole (act : RoleSpec → Run W (drainResult * option roleError)) (result : drainResult)
    (roles : list RoleSpec) : Run W (drainResult * option roleError) :=
  match roles with
  | [] => mret (result, None)
  | role :: rest =>
      r ← act role;
      match r.2 with
      | Some e => mret (result, Some e)
      | None => eachRole act (mergeResult result r.1) rest
      end
  end.

Definition scaleRole (role : RoleSpec) : Run W (drainResult * option roleError) :=
  if negb (validateUpdateBudget role) then mret (noResult, Some (InvalidBudget role.(role_Name)))
  else (syncerOf role).(sync_Scale) rs role.

(** The rollout, once no role has anything to scale. *)
Definition afterScaling (rollout : drainResult → Run W (drainResult * option roleError))
  : Run W (drainResult * option roleError) :=
  scaled ← eachRole scaleRole noResult rs.(rs_Spec).(rss_Roles);
  match scaled with
  | (result, Some e) => mret (result, Some e)
  | (result, None) =>
      if result.(res_Changed) || (0 <? result.(res_RequeueAfter)) then mret (result, None)
      else rollout result
  end.

(** One role after the other, up to the first that is not done. *)
Fixpoint rolloutInOrder (result : drainResult) (roles : list RoleSpec) : Run W (drainResult * option roleError) :=
  match roles with
  | [] => mret (result, None)
  | role :: rest =>
      r ← (syncerOf role).(sync_Rollout) rs role;
      match r.2 with
      | Some e => mret (result, Some e)
      | None =>
          let result := mergeResult result r.1 in
          ready ← (syncerOf role).(sync_AllReady) rs role;
          match ready with
          | Err e => mret (result, Some (RoleApiError e))
          | Ok false => mret (result, None)
          | Ok true => rolloutInOrder result rest
          end
      end
  end.

Definition sequentialNext : Run W (drainResult * option roleError) :=
  afterScaling (fun result => rolloutInOrder result (sortRolesByUpgradeOrder rs.(rs_Spec).(rss_Roles))).

Definition parallelNext : Run W (drainResult * option roleError) :=
  afterScaling (fun result =>
    eachRole (fun role => (syncerOf role).(sync_Rollout) rs role) result rs.(rs_Spec).(rss_Roles)).

(** What each role says of itself, the step of the roles that are not done that
    is furthest behind, and whether there are none.  A role that cannot be
    asked is left out. *)
Fixpoint checkSteps (steps : gmap string (bool * Z)) (currentStep : Z) (allRolesReady : bool)
    (roles : list RoleSpec) : Run W (gmap string (bool * Z) * Z * bool) :=
  match roles with
  | [] => mret (steps, currentStep, allRolesReady)
  | role :: rest =>
      r ← (syncerOf role).(sync_CheckCurrentStep) rs role;
      match (r : result kubeError (bool * Z)) with
      | Err _ => checkSteps steps currentStep allRolesReady rest
      | Ok (allReady, roleStep) =>
          let steps := <[role.(role_Name) := (allReady, roleStep)]> steps in
          if (allReady : bool) then checkSteps steps currentStep allRolesReady rest
          else checkSteps steps (if roleStep <? currentStep then roleStep else currentStep) false rest
      end
  end.

(** A role that is done, or ahead of the others, waits.  One that could not be
    asked does not. *)
Definition rollsAtStep (steps : gmap string (bool * Z)) (currentStep : Z) (role : RoleSpec) : bool :=
  let '(ready, step) := default (false, 0) (steps !! role.(role_Name)) in
  negb ready && (step <=? currentStep).

Definition interleaveNext : Run W (drainResult * option roleError) :=
  afterScaling (fun result =>
    checked ← checkSteps ∅ MaxInt32 true rs.(rs_Spec).(rss_Roles);
    let '(steps, leastStep, allRolesReady) := checked in
    if (allRolesReady : bool) then mret (result, None)
    else
      let currentStep := if leastStep =? MaxInt32 then 1 else leastStep in
      eachRole (fun role => (syncerOf role).(sync_RolloutByStep) rs role currentStep) result
        (List.filter (rollsAtStep steps currentStep) rs.(rs_Spec).(rss_Roles))).

Definition syncPods : Run W (drainResult * option roleError) :=
  let strategy := rs.(rs_Spec).(rss_UpdateStrategy) in
  if bool_decide (strategy = SequentialRoleSetStrategyType) then sequentialNext
  else if bool_decide (strategy = ParallelRoleSetUpdateStrategyType) then parallelNext
  else if bool_decide (strategy = InterleaveRoleSetStrategyType) then interleaveNext
  else sequentialNext.
End Managers.

(** ** The syncers. *)

Section Syncers.
Context `{RoleApi W} `{!PodTemplates} `{RoleCodec} `{SliceSort}.

Definition StatefulRoleSyncer : RoleRollingSyncer W :=
  MkSyncer statefulScale statefulRollout statefulRolloutByStep statefulAllReady statefulCheckCurrentStep.

Definition StatelessRoleSyncer : RoleRollingSyncer W :=
  MkSyncer statelessScale statelessRollout statelessRolloutByStep statelessAllReady statelessCheckCurrentStep.

Definition PodSetRoleSyncer : RoleRollingSyncer W :=
  MkSyncer podSetScale podSetRollout podSetRolloutByStep podSetAllReady podSetCheckCurrentStep.

(** Whether the replicas of a role are groups of pods. *)
Definition usesPodSets (role : RoleSpec) : bool :=
  match role.(role_PodGroupSize) with Some n => 1 <? n | None => false end.

Definition GetRoleSyncer (role : RoleSpec) : RoleRollingSyncer W :=
  if usesPodSets role then PodSetRoleSyncer
  else if role.(role_Stateful) then StatefulRoleSyncer else StatelessRoleSyncer.
End Syncers.
