(* ===== verification/RoleSetLoop.v ===== *)
(** * The reconcile loop of a RoleSet ([pkg/controller/roleset/sync.go],
    [roleset_controller.go], [gang_status.go], [topology_policy_event.go], the
    calls of historical_node.go, and [EnsurePodGroup], [FinalizePodGroup],
    [Patch] and [UpdateStatus] of [pkg/controller/util/orchestration/util.go]).

    A pass puts the finalizer on the RoleSet, syncs its pod group, rolls out its
    roles and reports its status; one over a RoleSet that is being deleted
    deletes what it has and takes the finalizer away. *)

From Stdlib Require Import Ascii.
From S2P Require Import Prelude Api Claims Ledger KVPlan Placement Reservations Runtime Storm StormSync StormRevision PodTypes RolePods RoleRender PodDrain InPlace RoleSync PodSetSync Rolling.

Definition RoleSetFinalizer : string := "orchestration.aibrix.ai/roleset-finalizer".
Definition DefaultRequeueAfter : Duration := 15 * Second.
Definition DefaultRetryDelay : Duration := 1 * Second.
Definition PodGroupStatusRefresh : Duration := 1 * Minute.
Definition RoleSetReplicaFailure : string := "ReplicaFailure".

(** ** The API server: RoleSets and pod groups. *)

Record GroupVersionKind : Type := MkGVK {
  gvk_Group : string;
  gvk_Version : string;
  gvk_Kind : string;
}.

(** What went wrong in a pass. *)
Inductive managedError : Type :=
| PodGroupSyncError (e : kubeError)
| PodSyncError (e : roleError)
| TopologyEventError (e : kubeError).

Class RoleSetApi `{RoleApi W} := {
  GetRoleSet : NamespacedName → W → W * result kubeError RoleSet;
  (** The RoleSet as the patch leaves it. *)
  PatchRoleSet : NamespacedName → finalizerPatch → W → W * result kubeError RoleSet;
  (** The merge patch from the first to the second. *)
  PatchRoleSetAnnotations : RoleSet → RoleSet → W → W * result kubeError unit;
  UpdateRoleSetStatus : RoleSet → W → W * result kubeError unit;
  (** [retry.RetryOnConflict], as [RetryKube]. *)
  RetryRoleSet : ∀ {S A}, (S → Run W (S * result kubeError A)) → S → Run W (S * result kubeError A);
  (** Custom resource definitions by name, and pod groups as unstructured
      objects. *)
  GetCRD : string → W → W * result kubeError unit;
  GetPodGroup : GroupVersionKind → NamespacedName → W → W * result kubeError (list (string * json));
  CreatePodGroup : GroupVersionKind → NamespacedName → list (string * json) → W → W * result kubeError unit;
  UpdatePodGroup : GroupVersionKind → NamespacedName → list (string * json) → W → W * result kubeError unit;
  DeletePodGroup : GroupVersionKind → NamespacedName → W → W * result kubeError unit;
  (** The kinds of the three gang schedulers. *)
  GodelGVK : GroupVersionKind;
  CoschedulingGVK : GroupVersionKind;
  VolcanoGVK : GroupVersionKind;
  (** The unstructured pod group of a RoleSet with a spec, and one read from the
      server; an error is [None]. *)
  podGroupObject : RoleSet → GroupVersionKind → SchedulerSpec + VolcanoSchedulingStrategySpec →
    option (list (string * json));
  json_eqb : option json → option json → bool;
  (** What errors print. *)
  kubeErrorText : kubeError → string;
  managedErrorsText : list managedError → string;
}.

(** ** Pod groups. *)

(** [strings.ToLower] of ASCII. *)
Definition lowerByte (c : ascii) : ascii :=
  let n := nat_of_ascii c in
  if (65 <=? n)%nat && (n <=? 90)%nat then ascii_of_nat (n + 32) else c.

Fixpoint toLower (s : string) : string :=
  match s with
  | EmptyString => EmptyString
  | String c rest => String (lowerByte c) (toLower rest)
  end.

Definition podGroupCRD (gvk : GroupVersionKind) : string :=
  String.append (toLower gvk.(gvk_Kind)) (String.append "s." gvk.(gvk_Group)).

(** The kind an object has when nothing sets it. *)
Definition zeroGVK : GroupVersionKind := MkGVK "" "" "".

Section PodGroups.
Context `{RoleSetApi W}.

(** Whether it was created or changed. *)
Definition EnsurePodGroup (gvk : GroupVersionKind) (podGroup : option (list (string * json)))
    (key : NamespacedName) : Run W (result kubeError bool) :=
  crd ← call (GetCRD (podGroupCRD gvk));
  match crd with
  | Err NotFound => mret (Ok false)
  | Err e => mret (Err e)
  | Ok _ =>
      res ← call (GetPodGroup gvk key);
      match res, podGroup with
      | Err NotFound, Some object =>
          r ← call (CreatePodGroup gvk key object);
          mret (match r with Ok _ => Ok true | Err e => Err e end)
      | Ok _, None | Err NotFound, None => mret (Err KubeFailed)
      | Err e, _ => mret (Err e)
      | Ok stored, Some object =>
          if json_eqb (jsonField stored "spec") (jsonField object "spec") then mret (Ok false)
          else
            r ← call (UpdatePodGroup gvk key object);
            mret (match r with Ok _ => Ok true | Err e => Err e end)
      end
  end.

Definition FinalizePodGroup (gvk : GroupVersionKind) (key : NamespacedName) : Run W (result kubeError unit) :=
  crd ← call (GetCRD (podGroupCRD gvk));
  match crd with
  | Err NotFound => mret (Ok ())
  | Err e => mret (Err e)
  | Ok _ =>
      res ← call (GetPodGroup gvk key);
      match res with
      | Err NotFound => mret (Ok ())
      | Err e => mret (Err e)
      | Ok _ => call (DeletePodGroup gvk key)
      end
  end.

(** The kinds of the objects passed on are not set. *)
Definition finalizePodGroups (key : NamespacedName) : Run W (result kubeError unit) :=
  let finalizeNext r :=
    match r with
    | Err e => mret (Err e)
    | Ok _ => FinalizePodGroup zeroGVK key
    end in
  r ← FinalizePodGroup zeroGVK key;
  r ← finalizeNext r;
  finalizeNext r.

Definition roleSetKey (rs : RoleSet) : NamespacedName := MkNN rs.(rs_Namespace) rs.(rs_Name).

(** The pod groups a strategy asks for, in order. *)
Definition wantedPodGroups (strategy : SchedulingStrategy)
  : list (GroupVersionKind * (SchedulerSpec + VolcanoSchedulingStrategySpec)) :=
  match strategy.(sched_Godel) with Some spec => [(GodelGVK, inl spec)] | None => [] end ++
  match strategy.(sched_Coscheduling) with Some spec => [(CoschedulingGVK, inl spec)] | None => [] end ++
  match strategy.(sched_Volcano) with Some spec => [(VolcanoGVK, inr spec)] | None => [] end.

(** With the object made for each kind of scheduler, and its key. *)
Fixpoint ensurePodGroups
    (object : GroupVersionKind → SchedulerSpec + VolcanoSchedulingStrategySpec → option (list (string * json)))
    (key : NamespacedName) (groups : list (GroupVersionKind * (SchedulerSpec + VolcanoSchedulingStrategySpec)))
  : Run W (result kubeError unit) :=
  match groups with
  | [] => mret (Ok ())
  | (gvk, spec) :: rest =>
      r ← EnsurePodGroup gvk (object gvk spec) key;
      match r with
      | Err e => mret (Err e)
      | Ok _ => ensurePodGroups object key rest
      end
  end.

Definition syncPodGroup (rs : RoleSet) : Run W (result kubeError unit) :=
  match rs.(rs_Spec).(rss_SchedulingStrategy) with
  | None => mret (Ok ())
  | Some strategy => ensurePodGroups (podGroupObject rs) (roleSetKey rs) (wantedPodGroups strategy)
  end.
End PodGroups.

(** ** The conditions of a RoleSet. *)

Record RoleSetStatus : Type := MkRoleSetStatus {
  rsst_Roles : list RoleStatus;
  rsst_Conditions : list StormCondition;
}.
#[export] Instance RoleSetStatus_eq_dec : EqDecision RoleSetStatus.
Proof. solve_decision. Defined.

Definition SetRoleSetCondition (status : RoleSetStatus) (condition : StormCondition) : RoleSetStatus :=
  let add condition := MkRoleSetStatus status.(rsst_Roles)
    (FilterOutCondition status.(rsst_Conditions) condition.(sc_Type) ++ [condition]) in
  match GetCondition status.(rsst_Conditions) condition.(sc_Type) with
  | Some current =>
      if bool_decide (current.(sc_Status) = condition.(sc_Status)) &&
         bool_decide (current.(sc_Reason) = condition.(sc_Reason)) then status
      else if bool_decide (current.(sc_Status) = condition.(sc_Status))
           then add (withTransition condition current.(sc_LastTransitionTime))
           else add condition
  | None => add condition
  end.

Definition RemoveRoleSetCondition (status : RoleSetStatus) (condType : string) : RoleSetStatus :=
  MkRoleSetStatus status.(rsst_Roles) (FilterOutCondition status.(rsst_Conditions) condType).

(** *** Nested fields of an unstructured object; [None] is an error. *)

Fixpoint nestedField (value : json) (path : list string) : option (option json) :=
  match path with
  | [] => Some (Some value)
  | field :: rest =>
      match value with
      | JNull => Some None
      | JObject fields =>
          match jsonField fields field with
          | None => Some None
          | Some inner => nestedField inner rest
          end
      | _ => None
      end
  end.

(** A missing string is the empty one. *)
Definition NestedString (fields : list (string * json)) (path : list string) : option string :=
  match nestedField (JObject fields) path with
  | Some None => Some ""
  | Some (Some (JString s)) => Some s
  | _ => None
  end.

Definition NestedSlice (fields : list (string * json)) (path : list string) : option (list json) :=
  match nestedField (JObject fields) path with
  | Some None => Some []
  | Some (Some (JArray items)) => Some items
  | _ => None
  end.

Definition podGroupStatusMalformedReason : string := "PodGroupStatusMalformed".

(** A condition entry: malformed, unschedulable with its reason and message, or
    nothing to report. *)
Definition podGroupCondition (raw : json) : result string (option (string * string)) :=
  match raw with
  | JObject condition =>
      match NestedString condition ["type"], NestedString condition ["status"],
            NestedString condition ["reason"], NestedString condition ["message"] with
      | Some condType, Some condStatus, Some reason, Some message =>
          if bool_decide (condType = "Unschedulable") && bool_decide (condStatus = "True")
          then Ok (Some (if bool_decide (reason = "") then "PodGroupUnschedulable" else reason,
                         if bool_decide (message = "") then "volcano PodGroup is unschedulable" else message))
          else Ok None
      | None, _, _, _ => Err "failed to parse volcano PodGroup condition type"
      | _, None, _, _ => Err "failed to parse volcano PodGroup condition status"
      | _, _, None, _ => Err "failed to parse volcano PodGroup condition reason"
      | _, _, _, None => Err "failed to parse volcano PodGroup condition message"
      end
  | _ => Err "failed to parse volcano PodGroup status.conditions: condition entry is not an object"
  end.

Fixpoint firstUnschedulable (conditions : list json) : option (string * string) :=
  match conditions with
  | [] => None
  | raw :: rest =>
      match podGroupCondition raw with
      | Err message => Some (podGroupStatusMalformedReason, message)
      | Ok (Some found) => Some found
      | Ok None => firstUnschedulable rest
      end
  end.

(** The reason and the message, when the group cannot be scheduled. *)
Definition volcanoPodGroupSchedulingError (podGroup : list (string * json)) : option (string * string) :=
  match NestedString podGroup ["status"; "phase"] with
  | None => Some (podGroupStatusMalformedReason, "failed to parse volcano PodGroup status.phase")
  | Some phase =>
      if bool_decide (phase = "Unknown") then Some ("PodGroupUnknown", "volcano PodGroup is Unknown")
      else match NestedSlice podGroup ["status"; "conditions"] with
           | None => Some (podGroupStatusMalformedReason, "failed to parse volcano PodGroup status.conditions")
           | Some conditions => firstUnschedulable conditions
           end
  end.

(** The sum of the members of the tasks, when it is more than the group's. *)
Definition minTaskMemberWarning `{K8sApps} (strategy : VolcanoSchedulingStrategySpec) : option Z :=
  if bool_decide (strategy.(volcano_MinTaskMember) = ∅) then None
  else
    let total := map_fold (fun _ minMember total => wrap32 (total + minMember)) 0
      strategy.(volcano_MinTaskMember) in
    if strategy.(volcano_MinMember) <? total then Some total else None.

(** ** The status of a RoleSet. *)

Section Status.
Context `{RoleSetApi W}.

Definition setCondition (status : RoleSetStatus) (condType : string) (condStatus : ConditionStatus)
    (reason : string) (message : conditionMessage) : Run W RoleSetStatus :=
  now ← call RoleNow;
  mret (SetRoleSetCondition status (NewCondition condType condStatus reason message now)).

(** Both conditions of gang scheduling for the same reason. *)
Definition setBothGang (status : RoleSetStatus) (synced failed : ConditionStatus) (reason : string)
    (message : conditionMessage) : Run W RoleSetStatus :=
  status ← setCondition status RoleSetPodGroupSynced synced reason message;
  setCondition status RoleSetGangSchedulingError failed reason message.

Definition notObservedMessage (rs : RoleSet) : conditionMessage :=
  OtherMessage (String.append "volcano scheduling is configured but PodGroup " (String.append rs.(rs_Namespace)
    (String.append "/" (String.append rs.(rs_Name) " is not observed")))).

Definition syncedMessage (rs : RoleSet) : conditionMessage :=
  OtherMessage (String.append "volcano PodGroup " (String.append rs.(rs_Namespace)
    (String.append "/" (String.append rs.(rs_Name) " is synced")))).

Definition warningMessage (minMember total : Z) : conditionMessage :=
  OtherMessage (String.append "minMember " (String.append (pretty minMember)
    (String.append " is less than sum(minTaskMember) " (String.append (pretty total)
      "; Volcano skips task-level readiness checks in this configuration")))).

(** The reconciler is made with a dynamic client, so the branch that is there
    for a reconciler without one is not taken. *)
Definition setVolcanoGangConditions (rs : RoleSet) (status : RoleSetStatus) (podGroupSyncErr : option kubeError)
  : Run W (result kubeError RoleSetStatus) :=
  match rs.(rs_Spec).(rss_SchedulingStrategy) ≫= sched_Volcano with
  | None =>
      mret (Ok (RemoveRoleSetCondition (RemoveRoleSetCondition status RoleSetPodGroupSynced)
                  RoleSetGangSchedulingError))
  | Some volcano =>
      match podGroupSyncErr with
      | Some e =>
          status ← setBothGang status ConditionFalse ConditionTrue "PodGroupSyncFailed"
            (ErrorMessage (kubeErrorText e));
          mret (Ok status)
      | None =>
          podGroup ← call (GetPodGroup VolcanoGVK (roleSetKey rs));
          match podGroup with
          | Err NotFound =>
              status ← setBothGang status ConditionFalse ConditionTrue "PodGroupNotFound" (notObservedMessage rs);
              mret (Ok status)
          | Err e => mret (Err e)
          | Ok podGroup =>
              status ← setCondition status RoleSetPodGroupSynced ConditionTrue "PodGroupSynced" (syncedMessage rs);
              status ← match volcanoPodGroupSchedulingError podGroup with
                       | Some (reason, message) =>
                           setCondition status RoleSetGangSchedulingError ConditionTrue reason
                             (OtherMessage message)
                       | None =>
                           match minTaskMemberWarning volcano with
                           | Some total =>
                               setCondition status RoleSetGangSchedulingError ConditionTrue
                                 "MinTaskMemberNotEnforced" (warningMessage volcano.(volcano_MinMember) total)
                           | None =>
                               setCondition status RoleSetGangSchedulingError ConditionFalse
                                 "GangSchedulingHealthy" NoMessage
                           end
                       end;
              mret (Ok status)
          end
      end
  end.

Definition calculateStatusFromPodSets (rs : RoleSet) (role : RoleSpec) : Run W (result kubeError RoleStatus) :=
  listed ← getRolePodSets rs role;
  mret (match listed with
        | Err e => Err e
        | Ok podSets =>
            let count p := wrap32 (Z.of_nat (length (List.filter p podSets))) in
            let updated := isPodSetUpdatedTo (ComputeHash role.(role_Template)) in
            let total := count (fun _ => true) in
            let ready := count (fun podSet => isPodSetActive podSet && isPodSetReady podSet) in
            Ok (MkRoleStatus role.(role_Name) total ready (wrap32 (total - ready)) (count updated)
                  (count (fun podSet => updated podSet && isPodSetReady podSet)))
        end).

Definition calculateStatusForRole (rs : RoleSet) (role : RoleSpec) : Run W (result kubeError RoleStatus) :=
  if usesPodSets role then calculateStatusFromPodSets rs role
  else
    listed ← call (ListPods rs.(rs_Namespace) {[ RoleSetNameLabelKey := rs.(rs_Name) ]});
    mret (match listed with
          | Err e => Err e
          | Ok allPods =>
              let pods := (filterActivePods (filterRolePods role.(role_Name) allPods)).1 in
              let updated := (filterUpdatedPods pods (ComputeHash role.(role_Template))).1 in
              let ready := GetReadyReplicaCountForRole pods in
              Ok (MkRoleStatus role.(role_Name) (int32Of pods) ready
                    (wrap32 (Z.of_nat (length pods) - ready)) (int32Of updated)
                    (GetReadyReplicaCountForRole updated))
          end).

(** The status of each role that can be read, and the roles that are not ready. *)
Fixpoint roleStatuses (rs : RoleSet) (roles : list RoleSpec) : Run W (list RoleStatus * list string) :=
  match roles with
  | [] => mret ([], [])
  | role :: rest =>
      r ← calculateStatusForRole rs role;
      others ← roleStatuses rs rest;
      mret (match r with
            | Err _ => others
            | Ok status =>
                (status :: others.1,
                 if status.(rst_ReadyReplicas) <? getRoleReplicas role
                 then role.(role_Name) :: others.2 else others.2)
            end)
  end.

Definition notReadyMessage (roles : list string) : conditionMessage :=
  OtherMessage (String.append "role " (String.append (String.concat "," roles) " is not ready")).

Definition calculateStatus (rs : RoleSet) (managedErrors : list managedError) (podGroupSyncErr : option kubeError)
  : Run W (result kubeError RoleSetStatus) :=
  counted ← roleStatuses rs rs.(rs_Spec).(rss_Roles);
  let status := MkRoleSetStatus counted.1 rs.(rs_Conditions) in
  status ← match counted.2 with
           | [] => setCondition status RoleSetReady ConditionTrue "roleset is ready" NoMessage
           | notReadyRoles =>
               setCondition status RoleSetReady ConditionFalse "roleset is not ready"
                 (notReadyMessage notReadyRoles)
           end;
  status ← match managedErrors, GetCondition rs.(rs_Conditions) RoleSetReplicaFailure with
           | _ :: _, None =>
               setCondition status RoleSetReplicaFailure ConditionTrue "reconcile roleset error"
                 (ErrorMessage (managedErrorsText managedErrors))
           | [], Some _ => mret (RemoveRoleSetCondition status RoleSetReplicaFailure)
           | _, _ => mret status
           end;
  setVolcanoGangConditions rs status podGroupSyncErr.
End Status.

(** ** The pass. *)

Section Pass.
Context `{HX : RoleSetApi W} `{!PodTemplates} `{RoleCodec} `{SliceSort}.

Definition setRoleSetAnnotations (rs : RoleSet) (annotations : gmap string string) : RoleSet :=
  MkRoleSet rs.(rs_Namespace) rs.(rs_Name) rs.(rs_GenerateName) rs.(rs_UID) rs.(rs_Labels) annotations
    rs.(rs_DeletionTimestamp) rs.(rs_Finalizers) rs.(rs_Controller) rs.(rs_Spec) rs.(rs_Roles)
    rs.(rs_Conditions).

Definition setRoleSetStatus (rs : RoleSet) (status : RoleSetStatus) : RoleSet :=
  MkRoleSet rs.(rs_Namespace) rs.(rs_Name) rs.(rs_GenerateName) rs.(rs_UID) rs.(rs_Labels)
    rs.(rs_Annotations) rs.(rs_DeletionTimestamp) rs.(rs_Finalizers) rs.(rs_Controller) rs.(rs_Spec)
    status.(rsst_Roles) status.(rsst_Conditions).

(** The RoleSet as it is after the nodes of its pods were noted, which fails
    without consequence. *)
Definition syncHistoricalNodeBindings (rs : RoleSet) : Run W RoleSet :=
  if negb (roleSetHasHistoricalNodeScheduling rs) then mret rs
  else
    listed ← call (ListPods rs.(rs_Namespace) {[ RoleSetNameLabelKey := rs.(rs_Name) ]});
    match listed with
    | Err _ => mret rs
    | Ok pods =>
        let '(bindings, changed) := refreshHistoricalNodeBindingsFromPods rs rs.(rs_Spec).(rss_Roles) pods in
        if negb changed then mret rs
        else
          let patched := setRoleSetAnnotations rs
            (<[RoleSetHistoricalNodeBindingsAnnotationKey := MarshalBindings bindings]> rs.(rs_Annotations)) in
          r ← call (PatchRoleSetAnnotations rs patched);
          mret (match r with Ok _ => patched | Err _ => rs end)
    end.

(** The pods and PodSets that an event would report; it is not modelled. *)
Fixpoint countTopologyOutdated (rs : RoleSet) (tp : TopologyPolicy) (roles : list RoleSpec)
  : Run W (result kubeError (nat * nat)) :=
  match roles with
  | [] => mret (Ok (0, 0)%nat)
  | role :: rest =>
      match getTopologyMatchLabels rs role.(role_Name) tp with
      | None => countTopologyOutdated rs tp rest
      | Some matchLabels =>
          if bool_decide (tp.(tp_Key) = "") then countTopologyOutdated rs tp rest
          else
            pods ← getRolePods rs role;
            match pods with
            | Err e => mret (Err e)
            | Ok pods =>
                let outdatedPods := length (List.filter (fun pod => IsPodActive pod &&
                  negb (podSpecHasTopologyAffinity pod.(rp_Spec) matchLabels tp)) pods) in
                let add r k := match r with
                               | Err e => Err e
                               | Ok (p, q) => Ok (p + outdatedPods, q + k)%nat
                               end in
                if negb (usesPodSets role) then
                  others ← countTopologyOutdated rs tp rest;
                  mret (add others 0%nat)
                else
                  podSets ← getRolePodSets rs role;
                  match podSets with
                  | Err e => mret (Err e)
                  | Ok podSets =>
                      others ← countTopologyOutdated rs tp rest;
                      mret (add others (length (List.filter (fun podSet =>
                        bool_decide (podSet.(pset_DeletionTimestamp) = None) &&
                        negb (podSpecHasTopologyAffinity (template_Spec podSet.(pset_Template)) matchLabels tp))
                        podSets)))
                  end
            end
      end
  end.

Definition emitTopologyPolicyPendingReplacementEvent (rs : RoleSet) : Run W (option kubeError) :=
  match rs.(rs_Spec).(rss_TopologyPolicy) with
  | None => mret None
  | Some tp =>
      r ← countTopologyOutdated rs tp rs.(rs_Spec).(rss_Roles);
      mret (errorOf r)
  end.

(** Each is deleted, up to an error; one that is gone is passed over. *)
Fixpoint deleteEach {A} (delete : A → W → W * result kubeError unit) (items : list A)
  : Run W (result kubeError unit) :=
  match items with
  | [] => mret (Ok ())
  | x :: rest =>
      r ← call (delete x);
      match ignoreNotFound r with
      | Some e => mret (Err e)
      | None => deleteEach delete rest
      end
  end.

Definition zeroRoleSet : RoleSet := MkRoleSet "" "" "" "" ∅ ∅ None [] None (MkRoleSetSpec [] "" None None) [] [].

(** [utils.Patch] and [utils.UpdateStatus] of a RoleSet, as of a StormService. *)
Definition patchRoleSetAttempt (patch : finalizerPatch) (st : bool * RoleSet)
  : Run W ((bool * RoleSet) * result kubeError unit) :=
  let '(firstTry, obj) := st in
  let patched obj :=
    r ← call (PatchRoleSet (roleSetKey obj) patch);
    mret (match r with Ok obj => ((false, obj), Ok ()) | Err e => ((false, obj), Err e) end) in
  if firstTry then patched obj
  else
    let obj := zeroRoleSet in
    got ← call (GetRoleSet (roleSetKey obj));
    match got with
    | Err e => mret ((false, obj), Err e)
    | Ok fresh => patched fresh
    end.

Definition patchRoleSet (obj : RoleSet) (patch : finalizerPatch) : Run W (result kubeError unit) :=
  r ← RetryRoleSet (patchRoleSetAttempt patch) (true, obj);
  mret r.2.

Definition updateRoleSetStatusAttempt (st : bool * RoleSet) : Run W ((bool * RoleSet) * result kubeError unit) :=
  let '(firstTry, obj) := st in
  if firstTry then
    r ← call (UpdateRoleSetStatus obj);
    mret ((false, obj), r)
  else
    got ← call (GetRoleSet (roleSetKey obj));
    match got with
    | Err e => mret ((false, obj), Err e)
    | Ok _ =>
        r ← call (UpdateRoleSetStatus obj);
        mret ((false, obj), r)
    end.

Definition updateRoleSetStatus (obj : RoleSet) : Run W (result kubeError unit) :=
  r ← RetryRoleSet updateRoleSetStatusAttempt (true, obj);
  mret r.2.

(** Whether the RoleSet may go. *)
Definition finalizeRoleSet (rs : RoleSet) : Run W (result kubeError bool) :=
  let labels := {[ RoleSetNameLabelKey := rs.(rs_Name) ]} in
  podSets ← call (ListPodSets rs.(rs_Namespace) labels);
  match podSets with
  | Err e => mret (Err e)
  | Ok ((_ :: _) as podSets) =>
      r ← deleteEach DeletePodSet podSets;
      mret (match r with Err e => Err e | Ok _ => Ok false end)
  | Ok [] =>
      pods ← call (ListPods rs.(rs_Namespace) labels);
      match pods with
      | Err e => mret (Err e)
      | Ok ((_ :: _) as pods) =>
          r ← deleteEach DeletePod pods;
          mret (match r with Err e => Err e | Ok _ => Ok false end)
      | Ok [] =>
          r ← finalizePodGroups (roleSetKey rs);
          match r with
          | Err e => mret (Err e)
          | Ok _ =>
              if bool_decide (RoleSetFinalizer ∈ rs.(rs_Finalizers)) then
                r ← patchRoleSet rs (RemoveFinalizerPatch rs.(rs_Finalizers) RoleSetFinalizer);
                mret (match r with Err e => Err e | Ok _ => Ok true end)
              else mret (Ok true)
          end
      end
  end.

(** When to come back, and the error. *)
Definition passResult : Type := Duration * option kubeError.

Definition hasVolcanoScheduling (rs : RoleSet) : bool := rss_Volcano rs.(rs_Spec).

(** The end of a pass, where the status was reported or is as it was.  In the
    second case a RoleSet that is not ready is looked at again. *)
Definition finishRoleSetPass (rs : RoleSet) (syncResult : drainResult) (unchanged : bool) : Run W passResult :=
  inProgress ← hasInPlaceUpdateInProgress rs.(rs_Namespace) rs.(rs_Name);
  mret (match inProgress with
        | Err e => (DefaultRetryDelay, Some e)
        | Ok true => (DefaultRetryDelay, None)
        | Ok false =>
            if 0 <? syncResult.(res_RequeueAfter) then (syncResult.(res_RequeueAfter), None)
            else if unchanged && negb (IsRoleSetReady rs) then (DefaultRetryDelay, None)
            else if hasVolcanoScheduling rs then (PodGroupStatusRefresh, None)
            else (0, None)
        end).

Definition syncRoleSet (rs : RoleSet) : Run W passResult :=
  podGroup ← syncPodGroup rs;
  rs ← syncHistoricalNodeBindings rs;
  synced ← syncPods GetRoleSyncer rs;
  topology ← emitTopologyPolicyPendingReplacementEvent rs;
  let podGroupSyncErr := errorOf podGroup in
  let managedErrors :=
    match podGroupSyncErr with Some e => [PodGroupSyncError e] | None => [] end ++
    match synced.2 with Some e => [PodSyncError e] | None => [] end ++
    match topology with Some e => [TopologyEventError e] | None => [] end in
  status ← calculateStatus rs managedErrors podGroupSyncErr;
  match status with
  | Err e => mret (1 * Minute, Some e)
  | Ok status =>
      if bool_decide (MkRoleSetStatus rs.(rs_Roles) rs.(rs_Conditions) = status)
      then finishRoleSetPass rs synced.1 true
      else
        let rs := setRoleSetStatus rs status in
        r ← updateRoleSetStatus rs;
        match r with
        | Err e => mret (1 * Minute, Some e)
        | Ok _ => finishRoleSetPass rs synced.1 false
        end
  end.

Definition ReconcileRoleSet (key : NamespacedName) : Run W passResult :=
  got ← call (GetRoleSet key);
  match got with
  | Err NotFound => mret (0, None)
  | Err e => mret (0, Some e)
  | Ok rs =>
      if bool_decide (is_Some rs.(rs_DeletionTimestamp)) then
        done ← finalizeRoleSet rs;
        mret (match done with
              | Err e => (DefaultRequeueAfter, Some e)
              | Ok false => (DefaultRequeueAfter, None)
              | Ok true => (0, None)
              end)
      else if negb (bool_decide (RoleSetFinalizer ∈ rs.(rs_Finalizers))) then
        r ← patchRoleSet rs (AddFinalizerPatch rs.(rs_Finalizers) RoleSetFinalizer);
        mret (match r with Err e => (DefaultRequeueAfter, Some e) | Ok _ => (0, None) end)
      else syncRoleSet rs
  end.
End Pass.
