(* ===== verification/PodSetLoop.v ===== *)
(** * The PodSet controller ([pkg/controller/podset/podset_controller.go]).

    A PodSet is a group of pods that work together, numbered from 0.  A pass
    removes the pods that ended, creates those that are missing, or all of
    them again, takes away those that are too many, and reports how many are
    ready; one over a PodSet that is being deleted drains and deletes its pods
    and takes the finalizer away. *)

From S2P Require Import Prelude Api Claims Ledger KVPlan Placement Reservations Runtime Storm StormSync PodTypes RolePods RoleRender PodDrain InPlace RoleSync RoleSetLoop.

Definition PodSetFinalizer : string := "orchestration.aibrix.ai/podset-finalizer".
Definition PodSetKind : string := "PodSet".
Definition ReplaceUnhealthy : string := "ReplaceUnhealthy".
Definition RecreatePodRecreateStrategy : string := "Recreate".
Definition PodSetPhasePending : string := "Pending".
Definition PodSetPhaseRunning : string := "Running".
Definition PodSetNameEnvKey : string := "PODSET_NAME".
Definition PodSetIndexEnvKey : string := "POD_GROUP_INDEX".
Definition PodSetSizeEnvKey : string := "POD_GROUP_SIZE".

(** ** The API server: PodSets. *)

Class PodSetApi `{RoleSetApi W} := {
  GetPodSet : NamespacedName → W → W * result kubeError PodSet;
  UpdatePodSet : PodSet → W → W * result kubeError unit;
  UpdatePodSetStatus : PodSet → W → W * result kubeError unit;
  (** The unstructured pod group of a PodSet, as [podGroupObject]. *)
  podSetGroupObject : PodSet → GroupVersionKind → SchedulerSpec + VolcanoSchedulingStrategySpec →
    option (list (string * json));
}.

(** ** The pods of a PodSet. *)

Section GroupPods.
Context `{K8s} `{K8sApps} `{HT : PodTypes} `{!PodTemplates}.

(** [metav1.NewControllerRef]. *)
Definition podSetControllerRef (podSet : PodSet) : OwnerReference :=
  MkOwner RoleSetAPIVersion PodSetKind podSet.(pset_Name) podSet.(pset_UID) (Some true) (Some true).

Definition podHasVolcanoPodGroup (labels annotations : gmap string string) : bool :=
  bool_decide (is_Some (labels !! VolcanoPodGroupNameAnnotationKey)) ||
  bool_decide (is_Some (annotations !! VolcanoPodGroupNameAnnotationKey)).

Definition addBuiltInEnvVars (podSet : PodSet) (podIndex : Z) (container : PodContainer) : PodContainer :=
  let builtInEnvs :=
    [MkEnv PodSetNameEnvKey podSet.(pset_Name) None; MkEnv PodSetIndexEnvKey (pretty podIndex) None;
     MkEnv PodSetSizeEnvKey (pretty podSet.(pset_PodGroupSize)) None] in
  setContainerEnv container (builtInEnvs ++
    List.filter (fun e => negb (bool_decide (e.(env_Name) ∈ env_Name <$> builtInEnvs))) container.(ct_Env)).

(** The labels and annotations of the PodSet are inherited where the template
    has none. *)
Definition createPodFromTemplate (podSet : PodSet) (podIndex : Z) : RolePod :=
  let pod := GetPodFromTemplate podSet.(pset_Template) podSet.(pset_Name) (podSetControllerRef podSet) in
  let name := Shorten (String.append podSet.(pset_Name) (String.append "-" (pretty podIndex))) false false in
  let labels := <[PodGroupIndexLabelKey := pretty podIndex]>
    (<[PodSetNameLabelKey := podSet.(pset_Name)]> pod.(rp_Labels)) ∪ podSet.(pset_Labels) in
  let annotations := pod.(rp_Annotations) ∪ podSet.(pset_Annotations) in
  let spec := pod.(rp_Spec) in
  let schedulerName :=
    if bool_decide (spec.(psp_SchedulerName) = "") && podHasVolcanoPodGroup labels annotations then "volcano"
    else spec.(psp_SchedulerName) in
  let spec := setPodHost spec name (podSetLabelOf podSet StormServiceNameLabelKey) schedulerName in
  let spec := setPodInitContainers spec (addBuiltInEnvVars podSet podIndex <$> spec.(psp_InitContainers)) in
  let spec := setPodContainers spec (addBuiltInEnvVars podSet podIndex <$> spec.(psp_Containers)) in
  MkRolePod podSet.(pset_Namespace) name pod.(rp_GenerateName) labels annotations pod.(rp_Finalizers)
    pod.(rp_Owners) pod.(rp_CreationTimestamp) pod.(rp_DeletionTimestamp) spec pod.(rp_Phase)
    pod.(rp_Conditions) pod.(rp_ContainerStatuses).

(** [filterActivePods] of this package: pods that are being deleted count. *)
Definition groupActivePods (pods : list RolePod) : list RolePod :=
  List.filter (fun pod => negb (IsPodPhaseTerminal pod.(rp_Phase))) pods.

Definition groupReadyPods (pods : list RolePod) : list RolePod := List.filter IsRolePodReady pods.

Definition podGroupIndex (pod : RolePod) : option Z := pod.(rp_Labels) !! PodGroupIndexLabelKey ≫= parseInt.

Definition getPodIndexFromLabels (pod : RolePod) : Z := default MaxInt64 (podGroupIndex pod).

Definition indexBefore (a b : RolePod) : bool := getPodIndexFromLabels a <? getPodIndexFromLabels b.

Definition sortPodsByIndex `{SliceSort} (pods : list RolePod) : list RolePod := sortSlice indexBefore pods.

Definition hasRestarted (pod : RolePod) : bool :=
  existsb (fun cs => 0 <? cs.(cs_RestartCount)) pod.(rp_ContainerStatuses).

(** The numbers below the size that no active pod has. *)
Definition missingIndices (activePods : list RolePod) (desiredPodCount : Z) : list Z :=
  let existingIndices : gset Z := list_to_set (omap podGroupIndex activePods) in
  List.filter (fun i => negb (bool_decide (i ∈ existingIndices))) (seqZ 0 desiredPodCount).

Definition setPodSetFinalizers (podSet : PodSet) (finalizers : list string) : PodSet :=
  MkPodSet podSet.(pset_Namespace) podSet.(pset_Name) podSet.(pset_GenerateName) podSet.(pset_UID)
    podSet.(pset_Labels) podSet.(pset_Annotations) finalizers podSet.(pset_Owners)
    podSet.(pset_DeletionTimestamp) podSet.(pset_PodGroupSize) podSet.(pset_Template) podSet.(pset_Stateful)
    podSet.(pset_Drain) podSet.(pset_RecoveryPolicy) podSet.(pset_SchedulingStrategy) podSet.(pset_ReadyPods)
    podSet.(pset_TotalPods) podSet.(pset_Phase).

Definition setPodSetStatus (podSet : PodSet) (readyPods totalPods : Z) (phase : string) : PodSet :=
  MkPodSet podSet.(pset_Namespace) podSet.(pset_Name) podSet.(pset_GenerateName) podSet.(pset_UID)
    podSet.(pset_Labels) podSet.(pset_Annotations) podSet.(pset_Finalizers) podSet.(pset_Owners)
    podSet.(pset_DeletionTimestamp) podSet.(pset_PodGroupSize) podSet.(pset_Template) podSet.(pset_Stateful)
    podSet.(pset_Drain) podSet.(pset_RecoveryPolicy) podSet.(pset_SchedulingStrategy) readyPods totalPods phase.
End GroupPods.

(** ** The pass. *)

Section Reconcile.
Context `{PodSetApi W} `{!PodTemplates} `{SliceSort}.

Definition reconcilePodGroup (podSet : PodSet) : Run W (result kubeError unit) :=
  match podSet.(pset_SchedulingStrategy) with
  | None => mret (Ok ())
  | Some strategy => ensurePodGroups (podSetGroupObject podSet) (podSetKeyOf podSet) (wantedPodGroups strategy)
  end.

Definition getPodsForPodSet (podSet : PodSet) : Run W (result kubeError (list RolePod)) :=
  call (ListPods podSet.(pset_Namespace) {[ PodSetNameLabelKey := podSet.(pset_Name) ]}).

(** [DeletePods] at the time it is. *)
Definition deleteGroupPods (pods : list RolePod) (spec : option RoleDrainSpec) (reason : string)
  : Run W (drainResult * option kubeError) :=
  now ← call RoleNow;
  DeletePods pods spec reason now.

(** A pod that is there already is passed over. *)
Fixpoint createGroupPods (podSet : PodSet) (indices : list Z) : Run W (option kubeError) :=
  match indices with
  | [] => mret None
  | i :: rest =>
      r ← call (CreatePod (createPodFromTemplate podSet i));
      match r with
      | Ok _ | Err AlreadyExists => createGroupPods podSet rest
      | Err e => mret (Some e)
      end
  end.

Definition handleReplaceUnhealthy (podSet : PodSet) (activePods : list RolePod) (desiredPodCount : Z)
  : Run W (drainResult * option kubeError) :=
  match List.filter hasRestarted activePods with
  | (_ :: _) as podsToDelete => deleteGroupPods podsToDelete None PodDrainReasonRollout
  | [] =>
      e ← createGroupPods podSet (missingIndices (sortPodsByIndex activePods) desiredPodCount);
      mret (noResult, e)
  end.

Definition handleRecreateStrategy (podSet : PodSet) (activePods : list RolePod) (desiredPodCount : Z)
  : Run W (drainResult * option kubeError) :=
  match activePods with
  | _ :: _ => deleteGroupPods activePods podSet.(pset_Drain) PodDrainReasonRollout
  | [] =>
      e ← createGroupPods podSet (seqZ 0 desiredPodCount);
      mret (noResult, e)
  end.

(** It selects pods as [staleScaleInDrainingPods] of the RoleSet controller. *)
Definition cancelStaleScaleInDrain (activePods podsToDelete : list RolePod) : Run W (drainResult * option kubeError) :=
  CancelPods (staleScaleInDrainingPods activePods podsToDelete) PodDrainReasonScaleIn.

Definition handleScaleDown (podSet : PodSet) (activePods : list RolePod) (currentPodCount desiredPodCount : Z)
  : Run W (drainResult * option kubeError) :=
  let sorted := sortPodsByIndex activePods in
  let podList := take (Z.to_nat (currentPodCount - desiredPodCount)) (reverse sorted) in
  cancelled ← cancelStaleScaleInDrain sorted podList;
  match cancelled.2 with
  | Some e => mret cancelled
  | None =>
      deleted ← deleteGroupPods podList podSet.(pset_Drain) PodDrainReasonScaleIn;
      match deleted.2 with
      | Some e => mret deleted
      | None => mret (mergeResult deleted.1 cancelled.1, None)
      end
  end.

(** The pods that ended and are still there under their names. *)
Definition terminatedPods (pods : list RolePod) : list RolePod :=
  List.filter (fun pod => IsPodPhaseTerminal pod.(rp_Phase) && bool_decide (pod.(rp_DeletionTimestamp) = None)) pods.

Definition reconcilePods (podSet : PodSet) : Run W (drainResult * option kubeError) :=
  listed ← getPodsForPodSet podSet;
  match listed with
  | Err e => mret (noResult, Some e)
  | Ok pods =>
      match terminatedPods pods with
      | (_ :: _) as terminated => deleteGroupPods terminated None PodDrainReasonRollout
      | [] =>
          let activePods := groupActivePods pods in
          let currentPodCount := Z.of_nat (length activePods) in
          let desiredPodCount := podSet.(pset_PodGroupSize) in
          if currentPodCount <? desiredPodCount then
            if bool_decide (podSet.(pset_RecoveryPolicy) = ReplaceUnhealthy) then
              handleReplaceUnhealthy podSet activePods desiredPodCount
            else if bool_decide (podSet.(pset_RecoveryPolicy) = RecreatePodRecreateStrategy) then
              handleRecreateStrategy podSet activePods desiredPodCount
            else cancelStaleScaleInDrain activePods []
          else if desiredPodCount <? currentPodCount then
            handleScaleDown podSet activePods currentPodCount desiredPodCount
          else cancelStaleScaleInDrain activePods []
      end
  end.

Definition podSetPhaseOf (activePods readyPods : list RolePod) (podGroupSize : Z) : string :=
  if bool_decide (activePods = []) then PodSetPhasePending
  else if Z.of_nat (length readyPods) =? podGroupSize then PodSetPhaseReady
  else if bool_decide (readyPods = []) then PodSetPhasePending
  else PodSetPhaseRunning.

(** The conditions of a PodSet are left as they are. *)
Definition updatePodSetStatus (podSet : PodSet) : Run W (result kubeError unit) :=
  listed ← getPodsForPodSet podSet;
  match listed with
  | Err e => mret (Err e)
  | Ok pods =>
      let activePods := groupActivePods pods in
      let readyPods := groupReadyPods activePods in
      let updated := setPodSetStatus podSet (int32Of readyPods) (int32Of activePods)
        (podSetPhaseOf activePods readyPods podSet.(pset_PodGroupSize)) in
      if bool_decide (updated.(pset_ReadyPods) = podSet.(pset_ReadyPods)) &&
         bool_decide (updated.(pset_TotalPods) = podSet.(pset_TotalPods)) &&
         bool_decide (updated.(pset_Phase) = podSet.(pset_Phase)) then mret (Ok ())
      else call (UpdatePodSetStatus updated)
  end.

(** [ctrl.Result] and the error. *)
Record podSetResult : Type := MkPodSetResult {
  pr_Requeue : bool;
  pr_RequeueAfter : Duration;
  pr_Error : option kubeError;
}.

Definition podSetFailed (e : kubeError) : podSetResult := MkPodSetResult false 0 (Some e).
Definition podSetDone (r : result kubeError unit) : podSetResult := MkPodSetResult false 0 (errorOf r).

Definition finalizePodSet (podSet : PodSet) : Run W podSetResult :=
  listed ← getPodsForPodSet podSet;
  match listed with
  | Err e => mret (podSetFailed e)
  | Ok ((_ :: _) as pods) =>
      deleted ← deleteGroupPods pods podSet.(pset_Drain) PodDrainReasonScaleIn;
      mret (match deleted.2 with
            | Some e => podSetFailed e
            | None =>
                if 0 <? deleted.1.(res_RequeueAfter) then MkPodSetResult false deleted.1.(res_RequeueAfter) None
                else MkPodSetResult true 0 None
            end)
  | Ok [] =>
      r ← finalizePodGroups (podSetKeyOf podSet);
      match r with
      | Err e => mret (MkPodSetResult false DefaultRequeueAfter (Some e))
      | Ok _ =>
          r ← call (UpdatePodSet (setPodSetFinalizers podSet
                (List.filter (fun f => negb (bool_decide (f = PodSetFinalizer))) podSet.(pset_Finalizers))));
          mret (podSetDone r)
      end
  end.

Definition syncPodSet (podSet : PodSet) : Run W podSetResult :=
  podGroup ← reconcilePodGroup podSet;
  match podGroup with
  | Err e => mret (podSetFailed e)
  | Ok _ =>
      podResult ← reconcilePods podSet;
      match podResult.2 with
      | Some e => mret (podSetFailed e)
      | None =>
          updated ← updatePodSetStatus podSet;
          mret (match updated with
                | Err e => podSetFailed e
                | Ok _ => MkPodSetResult false (Z.max 0 podResult.1.(res_RequeueAfter)) None
                end)
      end
  end.

Definition ReconcilePodSet (key : NamespacedName) : Run W podSetResult :=
  got ← call (GetPodSet key);
  match got with
  | Err NotFound => mret (MkPodSetResult false 0 None)
  | Err e => mret (podSetFailed e)
  | Ok podSet =>
      if bool_decide (is_Some podSet.(pset_DeletionTimestamp)) then finalizePodSet podSet
      else if negb (bool_decide (PodSetFinalizer ∈ podSet.(pset_Finalizers))) then
        r ← call (UpdatePodSet (setPodSetFinalizers podSet (podSet.(pset_Finalizers) ++ [PodSetFinalizer])));
        mret (podSetDone r)
      else syncPodSet podSet
  end.
End Reconcile.
