(* ===== verification/PodLaws.v ===== *)
(** * What the calls of the RoleSet controller do to the pods of a role.

    [PodLaws] states what a call may do, whatever it reports, and what may
    happen meanwhile: others report the status of pods and finish deletions;
    no one else creates the pods of a role, deletes them or marks them.
    [PodCallsIn] collects what is to be known of the calls for a property to
    hold at every moment, and the operations of the controller are shown to
    keep it, each from the calls it makes. *)

From S2P Require Import Prelude Api Claims Ledger KVPlan Placement Reservations Runtime Storm StormSync PodTypes RolePods RoleRender PodDrain InPlace RoleSync PodSetSync.

(** ** The laws. *)

Class PodStore `{RoleApi W} := {
  podsIn : W → gmap NamespacedName RolePod;
  podsIn_key w k p : podsIn w !! k = Some p → podKeyOf p = k;
}.

Section Pods.
Context `{K8sApps} `{PodTypes}.

Definition ofRole (rs : RoleSet) (role : RoleSpec) (p : RolePod) : Prop :=
  rp_Namespace p = rs_Namespace rs ∧ roleLabels (rs_Name rs) (role_Name role) ⊆ rp_Labels p.

#[export] Instance ofRole_dec rs role p : Decision (ofRole rs role p).
Proof. unfold ofRole. apply _. Defined.

(** What is said of a pod apart from its status. *)
Record sameButStatus (p p' : RolePod) : Prop := MkSameButStatus {
  sbs_key : podKeyOf p' = podKeyOf p;
  sbs_labels : rp_Labels p' = rp_Labels p;
  sbs_annotations : rp_Annotations p' = rp_Annotations p;
  sbs_deletion : rp_DeletionTimestamp p' = rp_DeletionTimestamp p;
  sbs_containers : psp_Containers (rp_Spec p') = psp_Containers (rp_Spec p);
  (** A pod that ended does not run again. *)
  sbs_terminal : IsPodPhaseTerminal (rp_Phase p) = true → IsPodPhaseTerminal (rp_Phase p') = true;
}.

(** What others do between two calls. *)
Definition podsMeanwhile (rs : RoleSet) (role : RoleSpec) (m m' : gmap NamespacedName RolePod) : Prop :=
  ∀ k, match m !! k, m' !! k with
       | None, None => True
       | None, Some p' => ¬ ofRole rs role p'
       | Some p, Some p' => ofRole rs role p ∨ ofRole rs role p' → sameButStatus p p'
       | Some p, None => ofRole rs role p → isPodTerminating p = true
       end.

(** The pod the server makes of the one it is given. *)
Record createdFrom (p q : RolePod) : Prop := MkCreatedFrom {
  cf_namespace : rp_Namespace q = rp_Namespace p;
  cf_name : rp_Name p ≠ "" → rp_Name q = rp_Name p;
  cf_labels : rp_Labels q = rp_Labels p;
  cf_annotations : rp_Annotations q = rp_Annotations p;
  cf_deletion : rp_DeletionTimestamp q = None;
  cf_phase : IsPodPhaseTerminal (rp_Phase q) = false;
}.

Definition podCreated (p : RolePod) (m m' : gmap NamespacedName RolePod) : Prop :=
  ∃ q, createdFrom p q ∧ m !! podKeyOf q = None ∧ m' = <[podKeyOf q := q]> m.

Definition podDeletedAt (t : Time) (p : RolePod) : RolePod :=
  MkRolePod p.(rp_Namespace) p.(rp_Name) p.(rp_GenerateName) p.(rp_Labels) p.(rp_Annotations) p.(rp_Finalizers)
    p.(rp_Owners) p.(rp_CreationTimestamp) (Some t) p.(rp_Spec) p.(rp_Phase) p.(rp_Conditions)
    p.(rp_ContainerStatuses).

Definition podDeleted (k : NamespacedName) (m m' : gmap NamespacedName RolePod) : Prop :=
  m' = delete k m ∨ ∃ t, m' = alter (podDeletedAt t) k m.

(** A merge patch sets the keys that differ and replaces the lists that do. *)
Definition mergedMap (before after p q : gmap string string) : Prop :=
  ∀ k, q !! k = if bool_decide (before !! k = after !! k) then p !! k else after !! k.

Record patchedBy (before after p q : RolePod) : Prop := MkPatchedBy {
  pb_key : podKeyOf q = podKeyOf p;
  pb_labels : mergedMap (rp_Labels before) (rp_Labels after) (rp_Labels p) (rp_Labels q);
  pb_annotations : mergedMap (rp_Annotations before) (rp_Annotations after) (rp_Annotations p) (rp_Annotations q);
  pb_deletion : rp_DeletionTimestamp q = rp_DeletionTimestamp p;
  pb_containers : psp_Containers (rp_Spec q) =
    if bool_decide (psp_Containers (rp_Spec before) = psp_Containers (rp_Spec after))
    then psp_Containers (rp_Spec p) else psp_Containers (rp_Spec after);
  pb_phase : rp_Phase q = rp_Phase p;
}.

Definition podPatched (before after : RolePod) (m m' : gmap NamespacedName RolePod) : Prop :=
  ∃ p q, m !! podKeyOf before = Some p ∧ patchedBy before after p q ∧ m' = <[podKeyOf before := q]> m.
End Pods.

Class PodLaws `{PodStore W} (rs : RoleSet) (role : RoleSpec) := {
  (** A listing is current: it shows the pods as they are when it returns. *)
  ListPods_law namespace labels w : let w' := (ListPods namespace labels w).1 in
    podsMeanwhile rs role (podsIn w) (podsIn w') ∧
    ∀ items, (ListPods namespace labels w).2 = Ok items →
      NoDup (podKeyOf <$> items) ∧
      (∀ p, p ∈ items ↔ podsIn w' !! podKeyOf p = Some p ∧ rp_Namespace p = namespace ∧ labels ⊆ rp_Labels p);
  (** A write takes effect or not, whatever is reported. *)
  CreatePod_law p w : let w' := (CreatePod p w).1 in
    ∃ m, podsMeanwhile rs role (podsIn w) m ∧ (podsIn w' = m ∨ podCreated p m (podsIn w'));
  DeletePod_law p w : let w' := (DeletePod p w).1 in
    ∃ m, podsMeanwhile rs role (podsIn w) m ∧ (podsIn w' = m ∨ podDeleted (podKeyOf p) m (podsIn w'));
  PatchPod_law before after w : let w' := (PatchPod before after w).1 in
    ∃ m, podsMeanwhile rs role (podsIn w) m ∧ (podsIn w' = m ∨ podPatched before after m (podsIn w'));
  PatchPodStatus_law before after w :
    podsMeanwhile rs role (podsIn w) (podsIn (PatchPodStatus before after w).1);
  ListPodSets_law namespace labels w :
    podsMeanwhile rs role (podsIn w) (podsIn (ListPodSets namespace labels w).1);
  CreatePodSet_law podSet w : podsMeanwhile rs role (podsIn w) (podsIn (CreatePodSet podSet w).1);
  DeletePodSet_law podSet w : podsMeanwhile rs role (podsIn w) (podsIn (DeletePodSet podSet w).1);
  RoleNow_law w : podsMeanwhile rs role (podsIn w) (podsIn (RoleNow w).1);
}.

(** ** What is to be known of the calls. *)

Section Harmless.
Context `{PodTypes}.

(** A patch that leaves the labels a pod is listed by. *)
Definition keepsRole (p q : RolePod) : Prop :=
  rp_Labels q !! RoleNameLabelKey = rp_Labels p !! RoleNameLabelKey ∧
  rp_Labels q !! RoleSetNameLabelKey = rp_Labels p !! RoleSetNameLabelKey ∧
  rp_Labels q !! PodSetNameLabelKey = rp_Labels p !! PodSetNameLabelKey.

(** One that leaves the containers too, and does not mark the pod. *)
Definition harmless (p q : RolePod) : Prop :=
  keepsRole p q ∧ psp_Containers (rp_Spec q) = psp_Containers (rp_Spec p) ∧
  (rp_Annotations q !! PodDrainingAnnotationKey = rp_Annotations p !! PodDrainingAnnotationKey ∨
   rp_Annotations q !! PodDrainingAnnotationKey = None).

Lemma harmless_keepsRole p q : harmless p q → keepsRole p q.
Proof. by intros [? _]. Qed.
End Harmless.

(** [C] is what may be created, [D] what may be deleted, [P] what may be marked
    or updated. *)
Class PodCallsIn `{RoleApi W} (R : W → W → Prop) (C D P : RolePod → Prop) := {
  in_ListPods namespace labels w : R w (ListPods namespace labels w).1;
  in_CreatePod p w : C p → R w (CreatePod p w).1;
  in_DeletePod p w : D p → R w (DeletePod p w).1;
  in_PatchPod p q w : keepsRole p q → P p → R w (PatchPod p q w).1;
  in_PatchHarmless p q w : harmless p q → R w (PatchPod p q w).1;
  in_PatchPodStatus p q w : R w (PatchPodStatus p q w).1;
  in_ListPodSets namespace labels w : R w (ListPodSets namespace labels w).1;
  in_CreatePodSet podSet w : R w (CreatePodSet podSet w).1;
  in_DeletePodSet podSet w : R w (DeletePodSet podSet w).1;
  in_RoleNow w : R w (RoleNow w).1;
}.

Section HarmlessPatches.
Context `{K8s} `{K8sApps} `{PodTypes} `{!PodTemplates} `{RoleCodec}.

Lemma markedDraining_keeps reason now p : keepsRole p (markedDraining reason now p).
Proof. done. Qed.

Lemma unmarkedDraining_harmless p : harmless p (unmarkedDraining p).
Proof.
  split_and!; [done|done|]. right. cbn. rewrite !lookup_delete_ne by done. apply lookup_delete_eq.
Qed.

Lemma patchedForInPlaceUpdate_keeps p role hash q : patchedForInPlaceUpdate p role hash = Some q → keepsRole p q.
Proof.
  unfold patchedForInPlaceUpdate. destruct (updateContainerImages _ _) as [cs b].
  destruct (hasTarget hash p); [destruct b|]; intros [= <-]; done.
Qed.

Lemma revisionLabels_lookup rs role labels key :
  key ≠ RoleRevisionLabelKey → key ≠ RoleRevisionNameLabelKey → revisionLabels rs role labels !! key = labels !! key.
Proof.
  intros Hr Hn. unfold revisionLabels. cbv zeta. repeat case_match; by rewrite ?lookup_insert_ne.
Qed.

Lemma clearInPlaceMarks_lookup annotations :
  clearInPlaceMarks annotations !! PodDrainingAnnotationKey = annotations !! PodDrainingAnnotationKey.
Proof. unfold clearInPlaceMarks. by rewrite !lookup_delete_ne. Qed.

(** Labels set by the end of an update in place are not the role's. *)
Lemma relabelled_harmless rs role p labels :
  labels !! RoleNameLabelKey = rp_Labels p !! RoleNameLabelKey →
  labels !! RoleSetNameLabelKey = rp_Labels p !! RoleSetNameLabelKey →
  labels !! PodSetNameLabelKey = rp_Labels p !! PodSetNameLabelKey →
  harmless p (setPodMeta p (revisionLabels rs role labels) (clearInPlaceMarks (rp_Annotations p))).
Proof.
  intros Hn Hs Hg. split_and!; [|done|].
  - split_and!; cbn; by rewrite revisionLabels_lookup.
  - left. apply clearInPlaceMarks_lookup.
Qed.

Lemma pending_harmless p reason :
  harmless p (setPodAnnotations p (<[RoleInPlaceUpdatePendingReasonAnnotationKey := reason]> (rp_Annotations p))).
Proof. split_and!; [done|done|]. left. cbn. by rewrite lookup_insert_ne. Qed.
End HarmlessPatches.

(** ** The operations keep what their calls keep. *)

(** The calls that need no condition, and the patches that do no harm. *)
Ltac role_call :=
  first
    [ apply in_ListPods | apply in_PatchPodStatus | apply in_ListPodSets | apply in_CreatePodSet
    | apply in_DeletePodSet | apply in_RoleNow
    | apply in_PatchHarmless; first [assumption | apply unmarkedDraining_harmless | apply pending_harmless] ].

Section Operations.
Context `{HA : RoleApi W} `{!PodTemplates} `{RoleCodec} `{SliceSort}.
Context (R : W → W → Prop) `{!PreOrder R} (C D P : RolePod → Prop) `{HR : !PodCallsIn R C D P}.

#[local] Hint Extern 1 (R _ _) => role_call : within.

Lemma getRolePods_in rs role : within R (getRolePods rs role).
Proof. unfold getRolePods. stays. Qed.

Lemma getRolePodSets_in rs role : within R (getRolePodSets rs role).
Proof. unfold getRolePodSets. stays. Qed.

Lemma deletePodsImmediately_in result pods : Forall D pods → within R (deletePodsImmediately result pods).
Proof.
  revert result. induction pods as [|p pods IH]; intros result HD; [stays|].
  apply Forall_cons in HD as [Hp HD]. cbn [deletePodsImmediately]. destruct (isDeleting p); [by apply IH|].
  apply (within_bind R); [apply (within_call R); intros; by apply in_DeletePod|]. intros r.
  destruct (ignoreNotFound r); [stays|by apply IH].
Qed.

Lemma cancelPods_in result reason pods : within R (cancelPods result reason pods).
Proof.
  revert result. induction pods as [|p pods IH]; intros result; cbn [cancelPods]; [stays|].
  destruct (_ || _); [apply IH|]. apply (within_bind R); [stays|]. intros [|e]; [apply IH|].
  destruct e; stays || apply IH.
Qed.

Lemma startDrain_in p reason timeout now : P p → within R (startDrain p reason timeout now).
Proof.
  intros Hp. unfold startDrain. apply (within_bind R); [|intros; stays]. apply (within_call R). intros w.
  by apply in_PatchPod.
Qed.

(** The pods that are deleted when they are given up, and not only marked. *)
Definition drainedOut (timeout : Duration) (now : Time) (p : RolePod) : bool :=
  IsPodPhaseTerminal (rp_Phase p) ||
  IsPodDraining p && match validateDrainState p with
                     | Ok startTime => timeout <=? Z.max 0 (timeSub now startTime)
                     | Err _ => false
                     end.

Definition mayGo (timeout : Duration) (now : Time) (p : RolePod) : Prop :=
  P p ∧ (drainedOut timeout now p = true → D p).

Lemma ended_spec (phase : string) :
  bool_decide (phase = PodSucceeded) || bool_decide (phase = PodFailed) = IsPodPhaseTerminal phase.
Proof. unfold IsPodPhaseTerminal. repeat case_bool_decide; naive_solver. Qed.

Lemma processPod_in p reason timeout now : mayGo timeout now p → within R (processPod p reason timeout now).
Proof.
  intros [Hp Hd]. unfold processPod, drainedOut in *. destruct (isDeleting p); [stays|]. rewrite ended_spec.
  destruct (IsPodPhaseTerminal (rp_Phase p)); [apply deletePodsImmediately_in; constructor; auto|].
  destruct (IsPodDraining p); cbn [negb]; [|by apply startDrain_in].
  destruct (validateDrainState p); [|by apply startDrain_in].
  cbv zeta. destruct (_ <=? _); [|stays]. apply (within_bind R); [|intros; stays].
  apply (within_call R). intros w. apply in_DeletePod. by apply Hd.
Qed.

Lemma processPods_in result reason timeout now pods :
  Forall (mayGo timeout now) pods → within R (processPods result reason timeout now pods).
Proof.
  revert result. induction pods as [|p pods IH]; intros result HD; cbn [processPods]; [stays|].
  apply Forall_cons in HD as [Hp HD]. apply (within_bind R); [by apply processPod_in|]. intros r.
  destruct r.2; [stays|by apply IH].
Qed.

Lemma DeletePods_draining_in pods spec reason now :
  0 < drainTimeout spec → Forall (mayGo (drainTimeout spec) now) pods → within R (DeletePods pods spec reason now).
Proof.
  intros Ht HD. unfold DeletePods. destruct pods; [stays|].
  destruct (Z.leb_spec (drainTimeout spec) 0); [lia|by apply processPods_in].
Qed.

Lemma DeletePods_in pods spec reason now : Forall D pods → Forall P pods → within R (DeletePods pods spec reason now).
Proof.
  intros HD HP. unfold DeletePods. destruct pods; [stays|].
  destruct (_ <=? _); [by apply deletePodsImmediately_in|]. apply processPods_in, Forall_forall. intros p Hin.
  rewrite Forall_forall in HD, HP. split; auto.
Qed.

Lemma splitPodsByReady_Forall (Q : RolePod → Prop) pods :
  Forall Q pods → Forall Q (splitPodsByReady pods).1 ∧ Forall Q (splitPodsByReady pods).2.
Proof.
  rewrite !Forall_forall. intros HQ. split; intros x [_ Hx]%elem_of_list_filter_bool; by apply HQ.
Qed.

Lemma deletePodsForRollout_in pods spec now : Forall D pods → Forall P pods → within R (deletePodsForRollout pods spec now).
Proof.
  intros [Hr Hn]%splitPodsByReady_Forall [Pr Pn]%splitPodsByReady_Forall. unfold deletePodsForRollout. destruct (splitPodsByReady pods) as [ready notReady].
  apply (within_bind R); [by apply DeletePods_in|]. intros r. destruct r.2; [stays|].
  apply (within_bind R); [by apply DeletePods_in|]. intros; stays.
Qed.

Lemma runBatch_in {E} (fn : Z → Run W (result E unit)) first n : (∀ i, within R (fn i)) → within R (runBatch fn first n).
Proof.
  intros Hfn. revert first. induction n as [|n IH]; intros first; cbn [runBatch]; [stays|].
  apply (within_bind R); [apply Hfn|]. intros r. apply (within_bind R); [apply IH|]. intros; stays.
Qed.

Lemma SlowStartBatch_in {E} (fn : Z → Run W (result E unit)) count init :
  (∀ i, within R (fn i)) → within R (SlowStartBatch count init fn).
Proof.
  intros Hfn. unfold SlowStartBatch. generalize (S (Z.to_nat count)) as fuel, (integer_IntMin count init) as b, 0 at 1 2.
  intros fuel b k. generalize k at 1. revert b k count. induction fuel as [|fuel IH]; intros b k count succ; cbn [slowStart]; [stays|].
  destruct (negb _); [stays|]. apply (within_bind R); [by apply runBatch_in|]. intros errs. cbv zeta.
  destruct errs; [apply IH|stays].
Qed.

Lemma createPodsInBatch_in pods : Forall C pods → within R (createPodsInBatch pods).
Proof.
  intros HC. apply SlowStartBatch_in. intros i. unfold onIndex. destruct (_ !! _) as [p|] eqn:E; [|stays].
  unfold createOne. apply (within_bind R); [|intros; stays]. apply (within_call R). intros w. apply in_CreatePod.
  apply list_elem_of_lookup_2 in E. rewrite Forall_forall in HC. apply HC. eapply subseteq_take, E.
Qed.

Lemma deleteOrphans_in {A} (del : A → W → W * result kubeError unit) l :
  (∀ x w, x ∈ l → R w (del x w).1) → within R (deleteOrphans del l).
Proof.
  induction l as [|x l IH]; intros Hd; cbn [deleteOrphans]; [stays|].
  apply (within_bind R); [apply (within_call R); intros w; apply Hd; left|]. intros r.
  apply (within_bind R); [apply IH; intros; apply Hd; by right|]. intros; stays.
Qed.

Lemma cleanupOrphanPodSets_in rs role : within R (cleanupOrphanPodSets rs role).
Proof.
  unfold cleanupOrphanPodSets. apply (within_bind R); [apply getRolePodSets_in|]. intros [podSets|e]; [|stays].
  apply deleteOrphans_in. intros. apply in_DeletePodSet.
Qed.

Lemma applyScale_in role active toCreate toDelete :
  Forall C toCreate → Forall D toDelete → Forall P toDelete → within R (applyScale role active toCreate toDelete).
Proof.
  intros HC HD HP. unfold applyScale. apply (within_bind R); [by apply createPodsInBatch_in|]. intros c.
  destruct c.2; [stays|]. apply (within_bind R); [apply cancelPods_in|]. intros x. destruct x.2; [stays|].
  apply (within_bind R); [stays|]. intros now. apply (within_bind R); [by apply DeletePods_in|]. intros; stays.
Qed.

Lemma applyRollout_in role toCreate toDelete :
  Forall C toCreate → Forall D toDelete → Forall P toDelete → within R (applyRollout role toCreate toDelete).
Proof.
  intros HC HD HP. unfold applyRollout. apply (within_bind R); [by apply createPodsInBatch_in|]. intros c.
  destruct c.2; [stays|]. apply (within_bind R); [stays|]. intros now.
  apply (within_bind R); [by apply deletePodsForRollout_in|]. intros; stays.
Qed.

(** *** Updates in place. *)

Lemma setInPlaceReadinessCondition_in p status : within R (setInPlaceReadinessCondition p status).
Proof. unfold setInPlaceReadinessCondition. stays. Qed.
#[local] Hint Resolve setInPlaceReadinessCondition_in : within.

Lemma patchPodImages_in p role hash : P p → within R (patchPodImagesForInPlaceUpdate p role hash).
Proof.
  intros Hp. unfold patchPodImagesForInPlaceUpdate. destruct (patchedForInPlaceUpdate p role hash) as [q|] eqn:E; [|stays].
  apply (within_bind R); [stays|]. intros [e|]; [stays|]. apply (within_bind R); [|intros; stays].
  apply (within_call R). intros w. apply in_PatchPod; [|done]. by eapply patchedForInPlaceUpdate_keeps.
Qed.

Lemma finishInPlaceUpdate_in p q : harmless p q → within R (finishInPlaceUpdate p q).
Proof. intros Hh. unfold finishInPlaceUpdate. stays. Qed.

Lemma markInPlaceUpdateComplete_in rs role p hash : within R (markInPlaceUpdateComplete rs role p hash).
Proof.
  unfold markInPlaceUpdateComplete. cbv zeta. destruct (bool_decide _).
  - destruct (bool_decide _); [|stays]. apply finishInPlaceUpdate_in. by apply relabelled_harmless.
  - destruct (negb _); [stays|]. destruct (inPlaceUpdatePendingStatusForPod p) as [reason|].
    + unfold setInPlaceUpdatePendingReason. stays.
    + apply finishInPlaceUpdate_in, relabelled_harmless; by rewrite lookup_insert_ne.
Qed.

Lemma settlePatched_in rs role hash budget candidates pods : within R (settlePatched rs role hash budget candidates pods).
Proof.
  revert budget candidates. induction pods as [|p pods IH]; intros budget candidates; cbn [settlePatched]; [stays|].
  apply (within_bind R); [apply markInPlaceUpdateComplete_in|]. intros [[] [e|]]; [stays|apply IH|stays|].
  destruct (hasTarget hash p); apply IH.
Qed.

(** The pods patched of a list of candidates, while nothing fails. *)
Fixpoint patchTaken (rs : RoleSet) (role : RoleSpec) (budget : Z) (candidates : list RolePod) : list RolePod :=
  match candidates with
  | [] => []
  | p :: rest =>
      match canInPlaceUpdatePod rs role p with
      | Some _ => []
      | None =>
          if IsRolePodReady p && (budget <=? 0) then patchTaken rs role budget rest
          else p :: patchTaken rs role (if IsRolePodReady p then wrap32 (budget - 1) else budget) rest
      end
  end.

Lemma patchCandidates_in rs role hash budget candidates :
  Forall P (patchTaken rs role budget candidates) → within R (patchCandidates rs role hash budget candidates).
Proof.
  revert budget. induction candidates as [|p rest IH]; intros budget; cbn [patchCandidates patchTaken]; [intros; stays|].
  destruct (canInPlaceUpdatePod rs role p); [intros; stays|].
  destruct (IsRolePodReady p && (budget <=? 0)); [apply IH|]. intros [Hp HD]%Forall_cons.
  apply (within_bind R); [by apply patchPodImages_in|]. intros r. destruct r.2; [stays|by apply IH].
Qed.

(** *** Everything, where any pod may be touched. *)

Lemma rolloutPodsInPlace_in rs role pods hash budget :
  (∀ p, P p) → within R (rolloutPodsInPlace rs role pods hash budget).
Proof.
  intros HP. unfold rolloutPodsInPlace. apply (within_bind R); [apply settlePatched_in|].
  intros [[b cs]|e]; [|stays]. apply patchCandidates_in, Forall_true, HP.
Qed.

Lemma createPodSetsInBatch_in podSets : within R (createPodSetsInBatch podSets).
Proof.
  induction podSets as [|p podSets IH]; cbn [createPodSetsInBatch]; [stays|].
  apply (within_bind R); [stays|]. intros [|e]; [apply IH|stays].
Qed.

Lemma deletePodSetsInBatch_in podSets : within R (deletePodSetsInBatch podSets).
Proof.
  induction podSets as [|p podSets IH]; cbn [deletePodSetsInBatch]; [stays|].
  apply (within_bind R); [stays|]. intros r. destruct (ignoreNotFound r); [stays|apply IH].
Qed.

Lemma applyPodSets_in toCreate toDelete : within R (applyPodSets toCreate toDelete).
Proof.
  unfold applyPodSets. apply (within_bind R); [apply createPodSetsInBatch_in|]. intros [e|]; [stays|].
  apply (within_bind R); [apply deletePodSetsInBatch_in|]. intros [e|]; stays.
Qed.

Lemma afterCleanup_in cleanup scale : within R cleanup → within R scale → within R (afterCleanup cleanup scale).
Proof.
  intros Hc Hs. unfold afterCleanup. apply (within_bind R); [done|]. intros [[] []]; by stays || apply Hs.
Qed.

Section Syncers.
Context (rs : RoleSet) (role : RoleSpec) (HD : ∀ p, D p) (HP : ∀ p, P p).
Context (HC : ∀ bindings i b, C (newRolePod rs role bindings i b)) (HC' : C (buildRenderedPod rs role None)).

Lemma Forall_D l : Forall D l.
Proof. apply Forall_true, HD. Qed.

Lemma Forall_P l : Forall P l.
Proof. apply Forall_true, HP. Qed.

Lemma scaleSlots_C bindings b ready updated i budget slots :
  Forall C (scaleSlots ready updated (fun i => newRolePod rs role bindings (Some i) b) i budget slots).1.
Proof.
  revert i budget. induction slots as [|[|x slot] slots IH]; intros i budget; cbn [scaleSlots]; [constructor| |].
  - destruct (budget <=? 0); [apply IH|]. specialize (IH (i + 1) (budget - 1)). destruct (scaleSlots _ _ _ _ _ slots).
    cbn in *. by constructor.
  - specialize (IH (i + 1) budget). by destruct (scaleSlots _ _ _ _ _ slots).
Qed.

Lemma rolloutSlots_C bindings b ready updated i del cre slots :
  Forall C (rolloutSlots ready updated (fun i => newRolePod rs role bindings (Some i) b) i del cre slots).1.
Proof.
  revert i del cre. induction slots as [|[|x [|y slot]] slots IH]; intros i del cre; cbn [rolloutSlots];
    [constructor|apply IH| |apply IH].
  destruct (updated x); [apply IH|]. destruct (negb (ready x)); [|destruct (0 <? del); [|destruct (0 <? cre); [|apply IH]]].
  - specialize (IH (i + 1) del cre). by destruct (rolloutSlots _ _ _ _ _ _ slots).
  - specialize (IH (i + 1) (del - 1) cre). by destruct (rolloutSlots _ _ _ _ _ _ slots).
  - specialize (IH (i + 1) del (cre - 1)). destruct (rolloutSlots _ _ _ _ _ _ slots). by constructor.
Qed.

Lemma statefulScale_in : within R (statefulScale rs role).
Proof.
  apply afterCleanup_in; [apply cleanupOrphanPodSets_in|]. apply (within_bind R); [apply getRolePods_in|].
  intros [all|e]; [|stays]. destruct (filterActivePods all) as [active inactive].
  destruct (filterTerminatingPods inactive) as [terminating terminated]. destruct (podSlotForRole role active) as [slots toDelete].
  cbv zeta. pose proof (scaleSlots_C (historicalNodeBindingsForPodCreation rs role) false isActiveReady
    (isUpdatedTo (ComputeHash (role_Template role))) 0) as Hs.
  match goal with |- context [scaleSlots _ _ _ _ ?b ?s] => specialize (Hs b s) end.
  destruct (scaleSlots _ _ _ _ _ _) as [c s]. apply applyScale_in; [done|apply Forall_D|apply Forall_P].
Qed.

Lemma statefulReplace_in slots del cre sel : within R (statefulReplace rs role slots del cre sel).
Proof.
  unfold statefulReplace. cbv zeta.
  assert (within R (let bindings := historicalNodeBindingsForPodCreation rs role in
    let '(toCreate, toDelete) := rolloutSlots IsRolePodReady (isUpdatedTo (ComputeHash (role_Template role)))
      (fun i => newRolePod rs role bindings (Some i) true) 0 del cre slots in applyRollout role toCreate toDelete)) as Hr.
  { cbv zeta. pose proof (rolloutSlots_C (historicalNodeBindingsForPodCreation rs role) true IsRolePodReady
      (isUpdatedTo (ComputeHash (role_Template role))) 0 del cre slots) as Hs.
    destruct (rolloutSlots _ _ _ _ _ _ _) as [c d]. apply applyRollout_in; [done|apply Forall_D|apply Forall_P]. }
  destruct (bool_decide _); [|exact Hr]. destruct (canRolloutPodsInPlace _ _ _ _); [exact Hr|].
  apply (within_bind R); [by apply rolloutPodsInPlace_in|]. intros; stays.
Qed.

Lemma statefulRollout_in : within R (statefulRollout rs role).
Proof.
  apply (within_bind R); [apply getRolePods_in|]. intros [all|e]; [|stays]. apply statefulReplace_in.
Qed.

Lemma statefulRolloutByStep_in step : within R (statefulRolloutByStep rs role step).
Proof.
  apply (within_bind R); [apply getRolePods_in|]. intros [all|e]; [|stays]. cbv zeta.
  destruct (updatedSlotNum role all) as [[u r] o]. apply statefulReplace_in.
Qed.

Lemma statelessScale_in : within R (statelessScale rs role).
Proof.
  apply afterCleanup_in; [apply cleanupOrphanPodSets_in|]. apply (within_bind R); [apply getRolePods_in|].
  intros [all|e]; [|stays]. destruct (filterActivePods all) as [active inactive]. cbv zeta.
  destruct (0 <? _); [|destruct (_ <? 0)]; apply applyScale_in; try apply Forall_D; try apply Forall_P; try constructor.
  by apply Forall_replicate.
Qed.

Lemma statelessReplace_in all outdated del wanted sel : within R (statelessReplace rs role all outdated del wanted sel).
Proof.
  unfold statelessReplace. cbv zeta. destruct (bool_decide _); [destruct (canRolloutPodsInPlace _ _ _ _)|].
  - apply applyRollout_in; [by apply Forall_replicate|apply Forall_D|apply Forall_P].
  - apply (within_bind R); [by apply rolloutPodsInPlace_in|]. intros; stays.
  - apply applyRollout_in; [by apply Forall_replicate|apply Forall_D|apply Forall_P].
Qed.

Lemma statelessRollout_in : within R (statelessRollout rs role).
Proof.
  apply (within_bind R); [apply getRolePods_in|]. intros [all|e]; [|stays]. cbv zeta.
  destruct (filterUpdatedPods _ _). apply statelessReplace_in.
Qed.

Lemma statelessRolloutByStep_in step : within R (statelessRolloutByStep rs role step).
Proof.
  apply (within_bind R); [apply getRolePods_in|]. intros [all|e]; [|stays]. cbv zeta.
  destruct (filterUpdatedPods _ _). destruct (_ <=? _); [stays|]. apply statelessReplace_in.
Qed.

Lemma podSetScale_in : within R (podSetScale rs role).
Proof.
  apply afterCleanup_in.
  - apply (within_bind R); [apply getRolePods_in|]. intros [pods|e]; [|stays]. apply deleteOrphans_in.
    intros. by apply in_DeletePod.
  - apply (within_bind R); [apply getRolePodSets_in|]. intros [all|e]; [|stays].
    destruct (filterActivePodSets all) as [active inactive]. destruct (filterTerminatingPodSets inactive).
    destruct (podSetSlotForRole role active). cbv zeta. destruct (scaleSlots _ _ _ _ _ _). apply applyPodSets_in.
Qed.

Lemma podSetReplace_in all del cre : within R (podSetReplace rs role all del cre).
Proof. unfold podSetReplace. cbv zeta. destruct (rolloutSlots _ _ _ _ _ _ _). apply applyPodSets_in. Qed.

Lemma podSetRollout_in : within R (podSetRollout rs role).
Proof.
  apply (within_bind R); [apply getRolePodSets_in|]. intros [all|e]; [|stays]. apply podSetReplace_in.
Qed.

Lemma podSetRolloutByStep_in step : within R (podSetRolloutByStep rs role step).
Proof.
  apply (within_bind R); [apply getRolePodSets_in|]. intros [all|e]; [|stays]. cbv zeta.
  destruct (podSetUpdatedSlotNum role all) as [[u r] o]. apply podSetReplace_in.
Qed.
End Syncers.
End Operations.
