(* ===== verification/RoleSurge.v ===== *)
(** * How many pods a role has at any moment of a pass.

    [SyncerKeeps] is what the managers ask of a syncer: an invariant, kept at
    every moment of each of its operations.  Under it a whole pass keeps the
    invariant.  The syncers of pods keep this one: a role has no more pods
    that run than it had, or than its replicas and its surge allow. *)

From S2P Require Import Prelude Api Claims Ledger KVPlan Placement Reservations Runtime Storm StormSync StormFacts PodTypes RolePods RoleRender PodDrain InPlace RoleSync PodSetSync Rolling PodLaws.

(** ** The interface of the managers. *)

Definition keepsInv {W A} (I : W → Prop) (m : Run W A) : Prop := ∀ w, I w → holds I m w (fun _ w' => I w').

Class SyncerKeeps `{K8sApps} {W} (I : W → Prop) (s : RoleRollingSyncer W) (rs : RoleSet) (role : RoleSpec) := {
  keeps_Scale : keepsInv I (sync_Scale s rs role);
  keeps_Rollout : keepsInv I (sync_Rollout s rs role);
  keeps_RolloutByStep step : keepsInv I (sync_RolloutByStep s rs role step);
  keeps_AllReady : keepsInv I (sync_AllReady s rs role);
  keeps_CheckCurrentStep : keepsInv I (sync_CheckCurrentStep s rs role);
}.

Section Keeps.
Context {W : Type} (I : W → Prop).

Lemma keeps_ret {A} (a : A) : keepsInv I (mret a).
Proof. intros w Hw. by apply holds_ret. Qed.

Lemma keeps_bind {A B} (m : Run W A) (f : A → Run W B) :
  keepsInv I m → (∀ a, keepsInv I (f a)) → keepsInv I (m ≫= f).
Proof.
  intros Hm Hf w Hw. apply holds_bind. eapply holds_mono; [by apply Hm|done|]. intros a w1 Hw1. by apply Hf.
Qed.

Lemma keeps_within {A} (R : W → W → Prop) (m : Run W A) :
  within R m → (∀ w w', I w → R w w' → I w') → keepsInv I m.
Proof.
  intros Hm HR w Hw. destruct (Hm w) as (Ht & Hw' & _). split; [|by eapply HR].
  eapply Forall_impl; [exact Ht|]. intros x. by apply HR.
Qed.

(** Moments that keep the invariant if it held. *)
Definition preserves (w w' : W) : Prop := I w → I w'.

#[export] Instance preserves_preorder : PreOrder preserves.
Proof. split; [intros w Hw; exact Hw|]. intros a b c Ha Hb Hw. by apply Hb, Ha. Qed.

Lemma preserves_keeps {A} (m : Run W A) : within preserves m → keepsInv I m.
Proof. intros Hm. eapply keeps_within; [exact Hm|]. intros w w' Hw Hp. by apply Hp. Qed.

(** The invariant holds at every moment before which nothing was [seen]. *)
Definition keptUntil {A} (seen : W → Prop) (m : Run W A) (w : W) : Prop :=
  I w → (∀ t1 w' t2, visited m w = t1 ++ w' :: t2 → I w' ∨ ∃ x, x ∈ t1 ∧ seen x) ∧
        (I (final m w) ∨ ∃ x, x ∈ visited m w ∧ seen x).

Lemma keptUntil_keeps {A} seen (m : Run W A) w : keepsInv I m → keptUntil seen m w.
Proof.
  intros Hm Hw. destruct (Hm w Hw) as [Hv Hf]. split; [|by left]. intros t1 w' t2 E. left. rewrite E in Hv.
  by apply Forall_app in Hv as [_ [? _]%Forall_cons].
Qed.

Lemma keptUntil_ret {A} seen (a : A) w : keptUntil seen (mret a) w.
Proof. apply keptUntil_keeps, keeps_ret. Qed.

Lemma keptUntil_bind {A B} seen (m : Run W A) (f : A → Run W B) w :
  keptUntil seen m w → (∃ x, x ∈ visited m w ∧ seen x) ∨ keptUntil seen (f (value m w)) (final m w) →
  keptUntil seen (m ≫= f) w.
Proof.
  intros Hm Hf Hw. destruct (Hm Hw) as [Hv Hend]. rewrite visited_bind, final_bind.
  assert ((∃ x, x ∈ visited m w ∧ seen x) ∨ keptUntil seen (f (value m w)) (final m w) ∧ I (final m w)) as [(x & Hx & Hs)|[Hf' Hi]]
    by (destruct Hend, Hf; auto).
  - split; [|right; exists x; split; [apply elem_of_app; by left|done]]. intros t1 w' t2 [(t & Hv' & Hk)|(t & -> & Hk)]%app_eq_inv.
    + destruct t as [|y t]; simpl in Hk; [|injection Hk as <- _; by eapply Hv].
      rewrite app_nil_r in Hv'. subst t1. right. by exists x.
    + right. exists x. split; [apply elem_of_app; by left|done].
  - destruct (Hf' Hi) as [Hv2 Hend2]. split; [|by destruct Hend2 as [?|(x & Hx & Hs)]; [left|right; exists x; set_solver]].
    intros t1 w' t2 [(t & Hv' & Hk)|(t & -> & Hk)]%app_eq_inv.
    + destruct t as [|y t]; simpl in Hk; [|injection Hk as <- _; by eapply Hv].
      destruct (Hv2 [] w' t2) as [?|(x & Hx & _)]; [done|by left|by apply elem_of_nil in Hx].
    + destruct (Hv2 t w' t2 Hk) as [?|(x & Hx & Hs)]; [by left|right]. exists x. split; [apply elem_of_app; by right|done].
Qed.
End Keeps.

Section Managers.
Context `{K8s} `{K8sApps} {W : Type} (I : W → Prop) (syncerOf : RoleSpec → RoleRollingSyncer W) (rs : RoleSet).
Context (Hsync : ∀ role, role ∈ rss_Roles (rs_Spec rs) → SyncerKeeps I (syncerOf role) rs role).

Lemma eachRole_keeps act result roles :
  (∀ role, role ∈ roles → keepsInv I (act role)) → keepsInv I (eachRole act result roles).
Proof.
  revert result. induction roles as [|role roles IH]; intros result Ha; cbn [eachRole]; [apply keeps_ret|].
  apply keeps_bind; [apply Ha; left|]. intros r. destruct r.2; [apply keeps_ret|]. apply IH. intros. apply Ha. by right.
Qed.

Lemma afterScaling_keeps rollout : (∀ result, keepsInv I (rollout result)) → keepsInv I (afterScaling syncerOf rs rollout).
Proof.
  intros Hr. apply keeps_bind.
  - apply eachRole_keeps. intros role Hrole. unfold scaleRole. destruct (negb _); [apply keeps_ret|].
    specialize (Hsync role Hrole). by apply keeps_Scale.
  - intros [result [e|]]; [apply keeps_ret|]. destruct (_ || _); [apply keeps_ret|apply Hr].
Qed.

Lemma rolloutInOrder_keeps result roles :
  (∀ role, role ∈ roles → role ∈ rss_Roles (rs_Spec rs)) → keepsInv I (rolloutInOrder syncerOf rs result roles).
Proof.
  revert result. induction roles as [|role roles IH]; intros result Hin; cbn [rolloutInOrder]; [apply keeps_ret|].
  assert (SyncerKeeps I (syncerOf role) rs role) as Hs by (apply Hsync, Hin; left).
  apply keeps_bind; [apply keeps_Rollout|]. intros r. destruct r.2; [apply keeps_ret|]. cbv zeta.
  apply keeps_bind; [apply keeps_AllReady|]. intros [[]|e]; [|apply keeps_ret..].
  apply IH. intros. apply Hin. by right.
Qed.

Lemma checkSteps_keeps steps step ready roles :
  (∀ role, role ∈ roles → role ∈ rss_Roles (rs_Spec rs)) → keepsInv I (checkSteps syncerOf rs steps step ready roles).
Proof.
  revert steps step ready. induction roles as [|role roles IH]; intros steps step ready Hin; cbn [checkSteps]; [apply keeps_ret|].
  assert (SyncerKeeps I (syncerOf role) rs role) as Hs by (apply Hsync, Hin; left).
  apply keeps_bind; [by apply keeps_CheckCurrentStep|]. intros [[[] k]|e]; cbv zeta; apply IH;
    intros; apply Hin; by right.
Qed.

Lemma syncPods_keeps : keepsInv I (syncPods syncerOf rs).
Proof.
  assert (keepsInv I (sequentialNext syncerOf rs)) as Hseq.
  { apply afterScaling_keeps. intros result. apply rolloutInOrder_keeps. intros role.
    unfold sortRolesByUpgradeOrder. by rewrite elem_of_sortBy. }
  unfold syncPods. cbv zeta. destruct (bool_decide _); [done|]. destruct (bool_decide _); [|destruct (bool_decide _); [|done]].
  - apply afterScaling_keeps. intros result. apply eachRole_keeps. intros role Hrole. specialize (Hsync role Hrole). by apply keeps_Rollout.
  - apply afterScaling_keeps. intros result. apply keeps_bind; [by apply checkSteps_keeps|].
    intros [[steps step] []]; [apply keeps_ret|]. apply eachRole_keeps. intros role [_ Hrole]%elem_of_list_filter_bool.
    specialize (Hsync role Hrole). by apply keeps_RolloutByStep.
Qed.
End Managers.

(** ** Pods that run. *)

(** No cluster has this many pods. *)
Class SmallCluster `{PodStore W} := podsIn_small w : Z.of_nat (size (podsIn w)) < 2 ^ 30.

Section Running.
Context `{HA : RoleApi W} {HS : PodStore}.
Context (rs : RoleSet) (role : RoleSpec).

(** A pod of the role that has not ended. *)
Definition isRunning (p : RolePod) : Prop := ofRole rs role p ∧ IsPodPhaseTerminal (rp_Phase p) = false.

#[export] Instance isRunning_dec p : Decision (isRunning p).
Proof. unfold isRunning. apply _. Defined.

Definition runningIn (m : gmap NamespacedName RolePod) : Z :=
  Z.of_nat (size (filter (fun kv : NamespacedName * RolePod => isRunning kv.2) m)).

Definition running (w : W) : Z := runningIn (podsIn w).

Lemma ofRole_spec p : ofRole rs role p ↔ rp_Namespace p = rs_Namespace rs ∧
  rp_Labels p !! RoleNameLabelKey = Some (role_Name role) ∧ rp_Labels p !! RoleSetNameLabelKey = Some (rs_Name rs).
Proof.
  unfold ofRole, roleLabels. split; intros [Hns Hl]; (split; [done|]).
  - split; eapply lookup_weaken; try exact Hl; [by rewrite lookup_insert_eq|].
    by rewrite lookup_insert_ne, lookup_singleton_eq.
  - destruct Hl as [Hn Hs]. apply insert_subseteq_l; [done|]. by apply map_singleton_subseteq_l.
Qed.

(** No pod of the role runs that did not. *)
Definition noNewIn (m m' : gmap NamespacedName RolePod) : Prop :=
  ∀ k p', m' !! k = Some p' → isRunning p' → ∃ p, m !! k = Some p ∧ isRunning p.

Definition noNew (w w' : W) : Prop := noNewIn (podsIn w) (podsIn w').

#[export] Instance noNewIn_preorder : PreOrder noNewIn.
Proof.
  split; [intros m k p' Hk Hr; by exists p'|].
  intros m m1 m2 Ha Hb k p' Hk Hr. destruct (Hb k p' Hk Hr) as (p & Hp & Hr'). by eapply Ha.
Qed.

#[export] Instance noNew_preorder : PreOrder noNew.
Proof. split; [intros w; unfold noNew; reflexivity|]. intros a b c Ha Hb. unfold noNew in *. by etrans. Qed.

Lemma runningIn_mono m m' extra :
  (∀ k p', m' !! k = Some p' → isRunning p' → k ∈ extra ∨ ∃ p, m !! k = Some p ∧ isRunning p) →
  runningIn m' ≤ runningIn m + Z.of_nat (size (extra : gset NamespacedName)).
Proof.
  intros Hm. unfold runningIn. rewrite <- !size_dom. rewrite <- Nat2Z.inj_add. apply inj_le.
  etrans; [apply (subseteq_size _ (dom (filter (fun kv => isRunning kv.2) m) ∪ extra))|].
  - intros k. rewrite elem_of_union, !elem_of_dom. intros [p' [Hk Hr]%map_lookup_filter_Some].
    destruct (Hm k p' Hk Hr) as [?|(p & Hp & Hr')]; [by right|left]. exists p. by apply map_lookup_filter_Some.
  - rewrite size_union_alt. apply Nat.add_le_mono_l, subseteq_size. set_solver.
Qed.

Lemma runningIn_noNew m m' : noNewIn m m' → runningIn m' ≤ runningIn m.
Proof.
  intros Hn. pose proof (runningIn_mono m m' ∅) as Hle. rewrite size_empty, Z.add_0_r in Hle. apply Hle.
  intros k p' Hk Hr. right. by apply (Hn k p').
Qed.

Lemma meanwhile_noNew m m' : podsMeanwhile rs role m m' → noNewIn m m'.
Proof.
  intros Hm k p' Hk [Ho Ht]. specialize (Hm k). rewrite Hk in Hm. destruct (m !! k) as [p|]; [|done].
  destruct Hm as [Hkey Hl _ _ _ Hterm]; [by right|]. exists p. split; [done|]. split.
  - destruct Ho as [Hns Hlab]. split; [|by rewrite <- Hl]. by injection Hkey as <- _.
  - destruct (IsPodPhaseTerminal (rp_Phase p)); [|done]. by rewrite Hterm in Ht.
Qed.

Lemma deleted_noNew k m m' : podDeleted k m m' → noNewIn m m'.
Proof.
  intros [->|[t ->]] k' p' Hk Hr.
  - apply lookup_delete_Some in Hk as [_ Hk]. by exists p'.
  - destruct (decide (k = k')) as [->|Hne]; [|rewrite lookup_alter_ne in Hk by done; by exists p'].
    rewrite lookup_alter_eq in Hk. destruct (m !! k') as [p|]; [|done]. injection Hk as <-. by exists p.
Qed.

Lemma mergedMap_same b a p q k : mergedMap b a p q → a !! k = b !! k → q !! k = p !! k.
Proof. intros Hm Hk. rewrite (Hm k), bool_decide_true; done. Qed.

Lemma patched_noNew before after m m' : keepsRole before after → podPatched before after m m' → noNewIn m m'.
Proof.
  intros (Hn & Hs & _) (p & q & Hp & Hq & ->) k p' Hk Hr.
  destruct (decide (podKeyOf before = k)) as [<-|Hne]; [|rewrite lookup_insert_ne in Hk by done; by exists p'].
  rewrite lookup_insert_eq in Hk. injection Hk as <-. exists p. split; [done|].
  destruct Hr as [Ho Ht]. destruct Hq as [Hkey Hl _ _ _ Hph]. split; [|by rewrite <- Hph].
  apply ofRole_spec in Ho as (Hns & Hn' & Hs'). apply ofRole_spec.
  rewrite <- (mergedMap_same _ _ _ _ _ Hl Hn), <- (mergedMap_same _ _ _ _ _ Hl Hs). by injection Hkey as <- _.
Qed.

Lemma created_noNew p m m' : ¬ ofRole rs role p → podCreated p m m' → noNewIn m m'.
Proof.
  intros Hp (q & [Hns _ Hl _ _ _] & Hk & ->) k p' Hk' Hr.
  destruct (decide (podKeyOf q = k)) as [<-|Hne]; [|rewrite lookup_insert_ne in Hk' by done; by exists p'].
  rewrite lookup_insert_eq in Hk'. injection Hk' as <-. destruct Hr as [[Hns' Hl'] _]. contradict Hp.
  split; [by rewrite <- Hns|by rewrite <- Hl].
Qed.

Lemma created_runningIn p m m' : podCreated p m m' → runningIn m' ≤ runningIn m + 1.
Proof.
  intros (q & _ & Hk & ->). pose proof (runningIn_mono m (<[podKeyOf q := q]> m) {[podKeyOf q]}) as Hle.
  rewrite size_singleton in Hle. apply Hle. intros k p' Hk' Hr.
  destruct (decide (podKeyOf q = k)) as [<-|Hne]; [left; set_solver|]. right. rewrite lookup_insert_ne in Hk' by done.
  by exists p'.
Qed.

Context {HL : PodLaws rs role}.

#[export] Instance noNew_calls : PodCallsIn noNew (fun p => ¬ ofRole rs role p) (fun _ => True) (fun _ => True).
Proof.
  split.
  - intros ns labels w. by apply meanwhile_noNew, ListPods_law.
  - intros p w Hp. destruct (CreatePod_law p w) as (m & Hm%meanwhile_noNew & [E|Hc]); unfold noNew; [by rewrite E|].
    etrans; [done|]. by eapply created_noNew.
  - intros p w _. destruct (DeletePod_law p w) as (m & Hm%meanwhile_noNew & [E|Hc%deleted_noNew]); unfold noNew;
      [by rewrite E|by etrans].
  - intros p q w Hk _. destruct (PatchPod_law p q w) as (m & Hm%meanwhile_noNew & [E|Hc]); unfold noNew; [by rewrite E|].
    etrans; [done|]. by eapply patched_noNew.
  - intros p q w [Hk _]. destruct (PatchPod_law p q w) as (m & Hm%meanwhile_noNew & [E|Hc]); unfold noNew; [by rewrite E|].
    etrans; [done|]. by eapply patched_noNew.
  - intros. by apply meanwhile_noNew, PatchPodStatus_law.
  - intros. by apply meanwhile_noNew, ListPodSets_law.
  - intros. by apply meanwhile_noNew, CreatePodSet_law.
  - intros. by apply meanwhile_noNew, DeletePodSet_law.
  - intros. by apply meanwhile_noNew, RoleNow_law.
Qed.

(** ** What a listing shows. *)

Record podsListed (w1 : W) (all : list RolePod) : Prop := MkPodsListed {
  pl_nodup : NoDup (podKeyOf <$> all);
  pl_iff p : p ∈ all ↔ podsIn w1 !! podKeyOf p = Some p ∧ ofRole rs role p;
}.

Lemma getRolePods_listed w :
  podsMeanwhile rs role (podsIn w) (podsIn (final (getRolePods rs role) w)) ∧
  visited (getRolePods rs role) w = [final (getRolePods rs role) w] ∧
  ∀ all, value (getRolePods rs role) w = Ok all → podsListed (final (getRolePods rs role) w) all.
Proof.
  unfold getRolePods. pose proof (ListPods_law (rs_Namespace rs) (roleLabels (rs_Name rs) (role_Name role)) w) as [Hm Hl].
  unfold visited, final, value, call. destruct (ListPods _ _ w) as [w1 r]. simpl in *. split_and!; [done|done|].
  intros all ->. destruct (Hl all eq_refl) as [Hnd Hiff]. split; [done|]. intros p. rewrite Hiff. unfold ofRole. tauto.
Qed.

(** How many pods of the role satisfy [f]. *)
Definition roleCount (f : RolePod → bool) (w : W) : Z :=
  Z.of_nat (size (filter (fun kv : NamespacedName * RolePod => ofRole rs role kv.2 ∧ f kv.2 = true) (podsIn w))).

Lemma listed_count w1 all f : podsListed w1 all → roleCount f w1 = Z.of_nat (length (List.filter f all)).
Proof.
  intros [Hnd Hiff]. unfold roleCount. f_equal. rewrite <- size_dom.
  set (l := List.filter f all). rewrite <- (length_fmap podKeyOf l), <- (size_list_to_set (C := gset NamespacedName)).
  2:{ eapply sublist_NoDup; [exact Hnd|]. apply fmap_sublist, sublist_filter_list. }
  f_equal. apply set_eq. intros k. rewrite elem_of_list_to_set, list_elem_of_fmap, elem_of_dom. split.
  - intros [p [Hk [Ho Ht]]%map_lookup_filter_Some]. pose proof (podsIn_key _ _ _ Hk) as Hkey. exists p. split; [done|].
    unfold l. rewrite elem_of_list_filter_bool. split; [done|]. apply Hiff. by rewrite Hkey.
  - intros (p & -> & [Ht [Hk Ho]%Hiff]%elem_of_list_filter_bool). exists p. by apply map_lookup_filter_Some.
Qed.

Lemma listed_running w1 all : podsListed w1 all →
  running w1 = Z.of_nat (length (List.filter (fun p => negb (IsPodPhaseTerminal (rp_Phase p))) all)).
Proof.
  intros Hl. rewrite <- (listed_count w1 all _ Hl). unfold running, runningIn, roleCount. do 2 f_equal.
  apply map_filter_ext. intros k p _. unfold isRunning. by rewrite negb_true_iff.
Qed.

Lemma listed_small `{!SmallCluster} w1 all : podsListed w1 all → Z.of_nat (length all) < 2 ^ 30.
Proof.
  intros [Hnd Hiff]. eapply Z.le_lt_trans; [|apply (podsIn_small w1)]. apply inj_le. rewrite <- size_dom.
  rewrite <- (length_fmap podKeyOf all), <- (size_list_to_set (C := gset NamespacedName)) by done.
  apply subseteq_size. intros k. rewrite elem_of_list_to_set, list_elem_of_fmap. intros (p & -> & [Hk _]%Hiff).
  by apply elem_of_dom_2 in Hk.
Qed.
End Running.

(** Where the pods of a listing go. *)
Section Counting.
Context `{PodTypes}.

Definition notEnded (p : RolePod) : bool := negb (IsPodPhaseTerminal (rp_Phase p)).

Lemma IsPodActive_spec p : IsPodActive p = notEnded p && negb (isPodTerminating p).
Proof.
  unfold IsPodActive, notEnded, IsPodPhaseTerminal, isPodTerminating.
  rewrite (bool_decide_ext (PodSucceeded = rp_Phase p) (rp_Phase p = PodSucceeded)) by done.
  rewrite (bool_decide_ext (PodFailed = rp_Phase p) (rp_Phase p = PodFailed)) by done.
  destruct (rp_DeletionTimestamp p); cbn; repeat case_bool_decide; naive_solver.
Qed.

Lemma length_filter_le_or (p q r : RolePod → bool) l :
  (∀ x, p x = true → q x || r x = true) →
  (length (List.filter p l) ≤ length (List.filter q l) + length (List.filter r l))%nat.
Proof.
  intros Hp. induction l as [|x l IH]; simpl; [lia|]. specialize (Hp x).
  destruct (p x), (q x), (r x); simpl; try lia; by specialize (Hp eq_refl).
Qed.

Lemma filter_filter_list (p q : RolePod → bool) l :
  List.filter p (List.filter q l) = List.filter (fun x => p x && q x) l.
Proof.
  induction l as [|x l IH]; simpl; [done|]. destruct (q x) eqn:Eq; simpl; [|by rewrite andb_false_r].
  rewrite andb_true_r. by destruct (p x); simpl; rewrite IH.
Qed.

(** Every pod that has not ended is active or being deleted. *)
Lemma notEnded_active_terminating l :
  (length (List.filter notEnded l) ≤ length (filterActivePods l).1 + length (filterTerminatingPods l).1)%nat.
Proof.
  apply length_filter_le_or. intros p Hp. rewrite IsPodActive_spec, Hp. by destruct (isPodTerminating p).
Qed.

Lemma notEnded_active_inactive l :
  (length (List.filter notEnded l) ≤
   length (filterActivePods l).1 + length (filterTerminatingPods (filterActivePods l).2).1)%nat.
Proof.
  unfold filterTerminatingPods, split at 1, filterActivePods, split. simpl. rewrite filter_filter_list.
  apply length_filter_le_or. intros p Hp. rewrite IsPodActive_spec, Hp. by destruct (isPodTerminating p).
Qed.
End Counting.

(** ** The labels a new pod is listed by. *)

Section NewPods.
Context `{K8s} `{K8sApps} `{PodTypes} `{!PodTemplates} `{RoleCodec}.

Lemma newRolePod_labels rs role bindings i b :
  rp_Labels (newRolePod rs role bindings i b) = rp_Labels (buildRenderedPod rs role i).
Proof. unfold newRolePod, maybeInjectHistoricalNodeAffinity. by repeat case_match. Qed.

Lemma setDefault_ne key value m k : k ≠ key → setDefault key value m !! k = m !! k.
Proof. intros Hk. unfold setDefault. case_match; [done|]. by rewrite lookup_insert_ne. Qed.

Lemma scheduledLabels_ne strategy group name labels k :
  k ≠ CoschedulingPodGroupNameLabelKey → k ≠ GodelPodGroupNameAnnotationKey → k ≠ VolcanoTaskSpecKey →
  k ≠ VolcanoPodGroupNameAnnotationKey → scheduledLabels strategy group name labels !! k = labels !! k.
Proof.
  intros. unfold scheduledLabels. destruct strategy; [|done]. cbv zeta.
  repeat case_bool_decide; rewrite ?setDefault_ne, ?lookup_insert_ne; done.
Qed.

Lemma inheritLabels_ne rs labels k : k ≠ "previous-owner" → k ≠ "name" → inheritLabels rs labels !! k = labels !! k.
Proof. intros. unfold inheritLabels. cbv zeta. repeat case_match; by rewrite ?lookup_insert_ne. Qed.

Lemma buildRenderedPod_roleName rs role i :
  rp_Labels (buildRenderedPod rs role i) !! RoleNameLabelKey = Some (role_Name role).
Proof.
  cbn. rewrite revisionLabels_lookup by done. unfold indexed.
  assert (∀ m : gmap string string, match i with Some i => <[RoleReplicaIndexLabelKey := pretty i]> m | None => m end
    !! RoleNameLabelKey = m !! RoleNameLabelKey) as -> by (intros; destruct i; [by rewrite lookup_insert_ne|done]).
  rewrite scheduledLabels_ne, inheritLabels_ne by done. by rewrite !lookup_insert_ne, lookup_insert_eq by done.
Qed.
End NewPods.

(** ** What the calls keep, the operations of a role keep. *)

Lemma GetRoleSyncer_keeps `{HA : RoleApi W} `{!PodTemplates} `{RoleCodec} `{SliceSort} (I : W → Prop) (R : W → W → Prop)
    `{!PreOrder R} (C : RolePod → Prop) `{!PodCallsIn R C (fun _ => True) (fun _ => True)} rs role :
  (∀ w w', I w → R w w' → I w') → (∀ bindings i b, C (newRolePod rs role bindings i b)) →
  C (buildRenderedPod rs role None) → SyncerKeeps I (GetRoleSyncer role) rs role.
Proof.
  intros HI Hp Hb. unfold GetRoleSyncer. destruct (usesPodSets role); [|destruct (role_Stateful role)]; split; intros; cbn;
    (eapply (keeps_within I R); [|apply HI]).
  all: try solve [apply (within_bind R); [first [apply (getRolePods_in R _ _ _)|apply (getRolePodSets_in R _ _ _)]|intros; stays]].
  - by apply (podSetScale_in R C (fun _ => True) (fun _ => True)).
  - by apply (podSetRollout_in R C (fun _ => True) (fun _ => True)).
  - by apply (podSetRolloutByStep_in R C (fun _ => True) (fun _ => True)).
  - by apply (statefulScale_in R C (fun _ => True) (fun _ => True)).
  - by apply (statefulRollout_in R C (fun _ => True) (fun _ => True)).
  - by apply (statefulRolloutByStep_in R C (fun _ => True) (fun _ => True)).
  - by apply (statelessScale_in R C (fun _ => True) (fun _ => True)).
  - by apply (statelessRollout_in R C (fun _ => True) (fun _ => True)).
  - by apply (statelessRolloutByStep_in R C (fun _ => True) (fun _ => True)).
Qed.

(** ** The bound. *)

Section Surge.
Context `{HA : RoleApi W} `{!PodTemplates} `{RoleCodec} `{SliceSort} {HS : PodStore} `{!SmallCluster} `{!K8sAppsLaws}.
Context (rs : RoleSet) (role : RoleSpec) {HL : PodLaws rs role}.
Context (B : Z) (HB : getRoleReplicas role + roleMaxSurge role ≤ B).
Context (Hsurge : 0 ≤ roleMaxSurge role).
Context (Hfits : getRoleReplicas role + roleMaxSurge role < 2 ^ 31).

Lemma getRoleReplicas_nonneg : 0 ≤ getRoleReplicas role.
Proof. unfold getRoleReplicas. destruct (role_Replicas role); [|lia]. destruct (Z.ltb_spec 0 z); lia. Qed.

Definition withinSurge (w : W) : Prop := running rs role w ≤ B.

Lemma withinSurge_noNew w w' : withinSurge w → noNew rs role w w' → withinSurge w'.
Proof. unfold withinSurge, running. intros Hw Hn%runningIn_noNew. lia. Qed.

Lemma noNew_keeps {A} (m : Run W A) : within (noNew rs role) m → keepsInv withinSurge m.
Proof. intros Hm. eapply keeps_within; [exact Hm|]. apply withinSurge_noNew. Qed.

Lemma createOne_surge p w b : running rs role w ≤ b → b + 1 ≤ B →
  holds withinSurge (createOne p) w (fun _ w' => running rs role w' ≤ b + 1).
Proof.
  intros Hw Hb.
  assert (running rs role (CreatePod p w).1 ≤ b + 1) as Hle.
  { unfold running in *. destruct (CreatePod_law p w) as (m & Hm%meanwhile_noNew%runningIn_noNew & [->|Hc]); [lia|].
    apply (created_runningIn rs role) in Hc. lia. }
  unfold createOne. apply holds_bind, holds_call; [unfold withinSurge; lia|]. by apply holds_ret.
Qed.

Lemma createPodsInBatch_surge pods w : running rs role w + Z.of_nat (length pods) ≤ B →
  holds withinSurge (createPodsInBatch pods) w (fun _ w' => withinSurge w').
Proof.
  intros Hw. unfold createPodsInBatch. set (l := take PodBurst pods).
  assert (length l ≤ length pods)%nat as Hl by (unfold l; rewrite length_take; lia).
  eapply holds_mono; [apply (SlowStartBatch_holds withinSurge (fun k w' => running rs role w' ≤ running rs role w + k))|done|].
  - intros k w1 Hk Hw1. unfold onIndex. destruct (l !! Z.to_nat k).
    + eapply holds_mono; [apply (createOne_surge _ _ _ Hw1); lia|done|]. simpl. intros _ w2. lia.
    + apply holds_ret. lia.
  - lia.
  - lia.
  - intros r w' (k & Hk & Hw'). unfold withinSurge. lia.
Qed.

Lemma applyScale_surge active toCreate toDelete w : running rs role w + Z.of_nat (length toCreate) ≤ B →
  holds withinSurge (applyScale role active toCreate toDelete) w (fun _ w' => withinSurge w').
Proof.
  intros Hw. unfold applyScale. apply holds_bind. eapply holds_mono; [by apply createPodsInBatch_surge|done|].
  intros c w1 Hw1. revert w1 Hw1. destruct c.2; [apply keeps_ret|].
  apply noNew_keeps, (within_bind (noNew rs role)); [apply (cancelPods_in (noNew rs role) _ _ _)|].
  intros x. destruct x.2; [stays|]. apply (within_bind (noNew rs role)).
  { apply (within_call (noNew rs role)). intros; apply in_RoleNow. }
  intros now. apply (within_bind (noNew rs role)); [apply (DeletePods_in (noNew rs role) _ (fun _ => True) (fun _ => True))|intros; stays].
  all: by apply Forall_true.
Qed.

Lemma applyRollout_surge toCreate toDelete w : running rs role w + Z.of_nat (length toCreate) ≤ B →
  holds withinSurge (applyRollout role toCreate toDelete) w (fun _ w' => withinSurge w').
Proof.
  intros Hw. unfold applyRollout. apply holds_bind. eapply holds_mono; [by apply createPodsInBatch_surge|done|].
  intros c w1 Hw1. revert w1 Hw1. destruct c.2; [apply keeps_ret|].
  apply noNew_keeps, (within_bind (noNew rs role)).
  { apply (within_call (noNew rs role)). intros; apply in_RoleNow. }
  intros now. apply (within_bind (noNew rs role));
    [apply (deletePodsForRollout_in (noNew rs role) _ (fun _ => True) (fun _ => True))|intros; stays].
  all: by apply Forall_true.
Qed.

(** A listing, and what is done with it. *)
Lemma listed_surge {A} (k : result kubeError (list RolePod) → Run W A) :
  (∀ e, keepsInv withinSurge (k (Err e))) →
  (∀ all w, podsListed rs role w all → withinSurge w → holds withinSurge (k (Ok all)) w (fun _ w' => withinSurge w')) →
  keepsInv withinSurge (getRolePods rs role ≫= k).
Proof.
  intros He Hk w Hw. destruct (getRolePods_listed rs role w) as (Hm & Hv & Hl). apply holds_bind.
  assert (withinSurge (final (getRolePods rs role) w)) as Hf by (eapply withinSurge_noNew; [done|by apply meanwhile_noNew]).
  unfold holds, runs. rewrite Hv. split; [by constructor|].
  destruct (value (getRolePods rs role) w) as [all|e]; [apply Hk|apply He]; auto.
Qed.

Lemma rolloutPodsInPlace_surge pods hash budget : keepsInv withinSurge (rolloutPodsInPlace rs role pods hash budget).
Proof. by apply noNew_keeps, (rolloutPodsInPlace_in (noNew rs role) _ (fun _ => True) (fun _ => True)). Qed.

(** The budgets of the syncers leave room for what they create. *)

Lemma budget_room b : -2 ^ 31 ≤ b < 2 ^ 31 → wrap32 b = b.
Proof. intros. apply wrap32_id. unfold in_int32. lia. Qed.

Lemma listed_lengths w all : podsListed rs role w all → withinSurge w →
  running rs role w ≤ Z.of_nat (length (filterActivePods all).1) + Z.of_nat (length (filterTerminatingPods all).1) ∧
  running rs role w ≤ Z.of_nat (length (filterActivePods all).1) +
    Z.of_nat (length (filterTerminatingPods (filterActivePods all).2).1) ∧
  running rs role w ≤ Z.of_nat (length all) ∧ Z.of_nat (length all) < 2 ^ 30 ∧
  Z.of_nat (length (filterActivePods all).1) ≤ Z.of_nat (length all) ∧
  Z.of_nat (length (filterTerminatingPods all).1) ≤ Z.of_nat (length all) ∧
  Z.of_nat (length (filterTerminatingPods (filterActivePods all).2).1) ≤ Z.of_nat (length all).
Proof.
  intros Hl Hw. rewrite (listed_running rs role w all Hl). pose proof (listed_small rs role w all Hl).
  change (fun p => negb (IsPodPhaseTerminal (rp_Phase p))) with notEnded.
  pose proof (notEnded_active_terminating all). pose proof (notEnded_active_inactive all).
  assert (∀ (f : RolePod → bool) l, length (List.filter f l) ≤ length l)%nat as Hf.
  { intros f l. apply sublist_length, sublist_filter_list. }
  pose proof (Hf notEnded all). pose proof (Hf IsPodActive all).
  pose proof (Hf isPodTerminating all). pose proof (Hf isPodTerminating (filterActivePods all).2).
  assert (length (filterActivePods all).2 ≤ length all)%nat by apply Hf.
  unfold filterActivePods, filterTerminatingPods, split in *.
  cbn [fst snd] in *. split_and!; lia.
Qed.

Lemma scaleSlots_count {A} (ready updated : A → bool) make i budget slots :
  Z.of_nat (length (scaleSlots ready updated make i budget slots).1) ≤ Z.max 0 budget.
Proof.
  revert i budget. induction slots as [|[|x slot] slots IH]; intros i budget; cbn [scaleSlots]; [simpl; lia| |].
  - destruct (Z.leb_spec budget 0); [apply IH|]. specialize (IH (i + 1) (budget - 1)).
    destruct (scaleSlots _ _ _ _ _ slots). cbn [fst length] in *. lia.
  - specialize (IH (i + 1) budget). by destruct (scaleSlots _ _ _ _ _ slots).
Qed.

Lemma rolloutSlots_count {A} (ready updated : A → bool) make i del cre slots :
  Z.of_nat (length (rolloutSlots ready updated make i del cre slots).1) ≤ Z.max 0 cre.
Proof.
  revert i del cre. induction slots as [|[|x [|y slot]] slots IH]; intros i del cre; cbn [rolloutSlots];
    [simpl; lia|apply IH| |apply IH].
  destruct (updated x); [apply IH|]. destruct (negb (ready x)); [|destruct (0 <? del); [|destruct (Z.ltb_spec 0 cre); [|apply IH]]].
  - specialize (IH (i + 1) del cre). by destruct (rolloutSlots _ _ _ _ _ _ slots).
  - specialize (IH (i + 1) (del - 1) cre). by destruct (rolloutSlots _ _ _ _ _ _ slots).
  - specialize (IH (i + 1) del (cre - 1)). destruct (rolloutSlots _ _ _ _ _ _ slots). cbn [fst length] in *. lia.
Qed.

Lemma afterCleanup_surge scale : keepsInv withinSurge scale →
  keepsInv withinSurge (afterCleanup (cleanupOrphanPodSets rs role) scale).
Proof.
  intros Hs. apply keeps_bind; [apply noNew_keeps, (cleanupOrphanPodSets_in (noNew rs role) _ _ _)|].
  intros [[] []]; [apply keeps_ret..|done|apply keeps_ret].
Qed.

Lemma statefulReplace_surge slots del cre sel w : running rs role w + Z.max 0 cre ≤ B →
  holds withinSurge (statefulReplace rs role slots del cre sel) w (fun _ w' => withinSurge w').
Proof.
  intros Hw. unfold statefulReplace. cbv zeta.
  pose proof (rolloutSlots_count IsRolePodReady (isUpdatedTo (ComputeHash (role_Template role)))
    (fun i => newRolePod rs role (historicalNodeBindingsForPodCreation rs role) (Some i) true) 0 del cre slots) as Hc.
  destruct (rolloutSlots _ _ _ _ _ _ _) as [c d]. cbn [fst] in Hc.
  assert (holds withinSurge (applyRollout role c d) w (fun _ w' => withinSurge w')) as Hr by (apply applyRollout_surge; lia).
  destruct (bool_decide _); [destruct (canRolloutPodsInPlace _ _ _ _)|]; [done| |done].
  apply (keeps_bind withinSurge); [apply rolloutPodsInPlace_surge|intros; apply keeps_ret|]. unfold withinSurge. lia.
Qed.

Lemma statelessReplace_surge all outdated del wanted sel w :
  podsListed rs role w all → withinSurge w →
  holds withinSurge (statelessReplace rs role all outdated del wanted sel) w (fun _ w' => withinSurge w').
Proof.
  intros Hl Hw. pose proof getRoleReplicas_nonneg as Hreplicas.
  destruct (listed_lengths w all Hl Hw) as (Ha & _ & _ & Hsm & Hn1 & Hn2 & _). unfold withinSurge in Hw.
  unfold statelessReplace. cbv zeta.
  match goal with |- context [applyRollout role ?c ?d] =>
    assert (holds withinSurge (applyRollout role c d) w (fun _ w' => withinSurge w')) as Hr end.
  { apply applyRollout_surge. rewrite length_replicate, budget_room by lia. unfold MinInt32. case_match; lia. }
  destruct (bool_decide _); [destruct (canRolloutPodsInPlace _ _ _ _)|]; [done| |done].
  apply (keeps_bind withinSurge); [apply rolloutPodsInPlace_surge|intros; apply keeps_ret|done].
Qed.

Lemma statefulScale_surge : keepsInv withinSurge (statefulScale rs role).
Proof.
  apply afterCleanup_surge, listed_surge; [intros; apply keeps_ret|]. intros all w Hl Hw.
  pose proof getRoleReplicas_nonneg as Hreplicas.
  destruct (listed_lengths w all Hl Hw) as (_ & Ha & _ & Hsm & Hn1 & _ & Hn2). unfold withinSurge in Hw.
  destruct (filterActivePods all) as [active inactive]. cbn [fst snd] in *.
  destruct (filterTerminatingPods inactive) as [terminating terminated]. cbn [fst] in *.
  destruct (podSlotForRole role active) as [slots rest] eqn:Es. cbv zeta.
  assert (Z.of_nat (length slots) = getRoleReplicas role) as Hn.
  { unfold podSlotForRole, slotsOf in Es. injection Es as <- _. rewrite length_fmap, length_seqZ. lia. }
  rewrite Hn, budget_room by lia. match goal with |- context [scaleSlots ?r ?u ?m ?i ?b ?s] =>
    pose proof (scaleSlots_count r u m i b s); destruct (scaleSlots r u m i b s) as [c d] end.
  cbn [fst] in *. apply applyScale_surge. lia.
Qed.

Lemma statelessScale_surge : keepsInv withinSurge (statelessScale rs role).
Proof.
  apply afterCleanup_surge, listed_surge; [intros; apply keeps_ret|]. intros all w Hl Hw.
  pose proof getRoleReplicas_nonneg as Hreplicas.
  destruct (listed_lengths w all Hl Hw) as (Ha & _ & _ & Hsm & Hn1 & Hn2 & _). unfold withinSurge in Hw.
  destruct (filterActivePods all) as [active inactive]. cbn [fst snd] in *. cbv zeta.
  destruct (0 <? _); [apply applyScale_surge; simpl; lia|]. destruct (_ <? 0); apply applyScale_surge; [|simpl; lia].
  rewrite length_replicate, !budget_room by lia. unfold MinInt32. case_match; lia.
Qed.

Lemma rollouts_surge : keepsInv withinSurge (statefulRollout rs role) ∧ keepsInv withinSurge (statelessRollout rs role) ∧
  ∀ step, keepsInv withinSurge (statefulRolloutByStep rs role step) ∧
          keepsInv withinSurge (statelessRolloutByStep rs role step).
Proof.
  split_and!; [|..|intros step; split]; (apply listed_surge; [intros; apply keeps_ret|]); intros all w Hl Hw;
    pose proof getRoleReplicas_nonneg as Hreplicas;
    pose proof (listed_lengths w all Hl Hw) as (_ & _ & Ha & Hsm & _); cbv zeta; unfold withinSurge in Hw.
  - apply statefulReplace_surge. rewrite budget_room by lia. lia.
  - destruct (filterUpdatedPods _ _). by apply statelessReplace_surge.
  - destruct (updatedSlotNum role all) as [[u r] o]. apply statefulReplace_surge. rewrite (budget_room (_ - _)) by lia.
    unfold MinInt32. case_match; lia.
  - destruct (filterUpdatedPods _ _). destruct (_ <=? _); [by apply holds_ret|]. by apply statelessReplace_surge.
Qed.

Lemma own_syncer_keeps : usesPodSets role = false → SyncerKeeps withinSurge (GetRoleSyncer role) rs role.
Proof.
  intros Hu. destruct rollouts_surge as (Hf & Hl & Hs). unfold GetRoleSyncer. rewrite Hu. destruct (role_Stateful role).
  - split; cbn; [apply statefulScale_surge|done|apply Hs|..]; apply noNew_keeps, (within_bind (noNew rs role));
      solve [apply (getRolePods_in (noNew rs role) _ _ _)|intros; stays].
  - split; cbn; [apply statelessScale_surge|done|apply Hs|..]; apply noNew_keeps, (within_bind (noNew rs role));
      solve [apply (getRolePods_in (noNew rs role) _ _ _)|intros; stays].
Qed.

(** The other roles do not make pods of this one. *)
Lemma other_syncer_keeps other : role_Name other ≠ role_Name role → SyncerKeeps withinSurge (GetRoleSyncer other) rs other.
Proof.
  intros Hne. apply (GetRoleSyncer_keeps withinSurge (noNew rs role) (fun p => ¬ ofRole rs role p)); [apply withinSurge_noNew|..].
  - intros bindings i b (_ & Hn & _)%ofRole_spec. rewrite newRolePod_labels, buildRenderedPod_roleName in Hn. congruence.
  - intros (_ & Hn & _)%ofRole_spec. rewrite buildRenderedPod_roleName in Hn. congruence.
Qed.
End Surge.

(** A pass over the roles keeps to the surge of each. *)
Lemma syncPods_withinSurge `{RoleApi W} `{!PodTemplates} `{RoleCodec} `{SliceSort} `{!PodStore} `{!SmallCluster}
    `{!K8sAppsLaws} rs role `{!PodLaws rs role} B :
  NoDup (role_Name <$> rss_Roles (rs_Spec rs)) → role ∈ rss_Roles (rs_Spec rs) → usesPodSets role = false →
  0 ≤ roleMaxSurge role → getRoleReplicas role + roleMaxSurge role < 2 ^ 31 →
  getRoleReplicas role + roleMaxSurge role ≤ B → keepsInv (withinSurge rs role B) (syncPods GetRoleSyncer rs).
Proof.
  intros Hnd Hin Hu HS Hfit HB. apply syncPods_keeps. intros other Ho.
  destruct (decide (role_Name other = role_Name role)) as [E|Hne].
  - assert (other = role) as -> by (eapply NoDup_fmap_inj_elem; eauto). by apply own_syncer_keeps.
  - by apply other_syncer_keeps.
Qed.
