(* ===== verification/RoleAvail.v ===== *)
(** * The pods a role keeps while it is scaled and rolled out.

    Of the pods that serve when a role's pods are listed, an operation deletes,
    marks or updates only so many that the role's maxUnavailable is kept to, at
    every moment and whatever calls fail.  For a role of slots it is the slots
    that serve. *)

From S2P Require Import Prelude Api Claims Ledger KVPlan Placement Reservations Runtime Storm StormSync StormFacts PodTypes RolePods RoleRender PodDrain InPlace RoleSync PodSetSync Rolling PodLaws RoleSurge.

(** ** A pod that is left alone. *)

Section Alone.
Context `{K8sApps} `{PodTypes}.
Context (rs : RoleSet) (role : RoleSpec).

(** Not deleted, not marked and not updated since it was [p]. *)
Definition notTouched (m : gmap NamespacedName RolePod) (p : RolePod) : bool :=
  match m !! podKeyOf p with
  | None => false
  | Some p' =>
      bool_decide (ofRole rs role p') && bool_decide (rp_DeletionTimestamp p' = None) &&
      implb (IsPodDraining p') (IsPodDraining p) &&
      bool_decide (psp_Containers (rp_Spec p') = psp_Containers (rp_Spec p))
  end.

Record isAlone (p p' : RolePod) : Prop := MkIsAlone {
  ia_role : ofRole rs role p';
  ia_deletion : rp_DeletionTimestamp p' = None;
  ia_draining : IsPodDraining p' = true → IsPodDraining p = true;
  ia_containers : psp_Containers (rp_Spec p') = psp_Containers (rp_Spec p);
}.

Lemma notTouched_spec m p : notTouched m p = true ↔ ∃ p', m !! podKeyOf p = Some p' ∧ isAlone p p'.
Proof.
  unfold notTouched. destruct (m !! podKeyOf p) as [p'|]; [|naive_solver].
  rewrite !andb_true_iff, !bool_decide_eq_true, implb_true_iff. split.
  - intros [[[? ?] ?] ?]. exists p'. split; [done|by split].
  - intros (q & [= ->] & []). auto.
Qed.

Lemma isAlone_refl p : ofRole rs role p → rp_DeletionTimestamp p = None → isAlone p p.
Proof. by split. Qed.

Lemma draining_annotations p q :
  rp_Annotations q !! PodDrainingAnnotationKey = rp_Annotations p !! PodDrainingAnnotationKey →
  IsPodDraining q = IsPodDraining p.
Proof. intros Hl. unfold IsPodDraining, annotationOf. by rewrite Hl. Qed.

Lemma sameButStatus_alone p q q' : isAlone p q → sameButStatus q q' → isAlone p q'.
Proof.
  intros [Ho Hd Hdr Hc] [Hkey Hl Ha Hdel Hcon _]. split.
  - destruct Ho as [Hns Hlab]. split; [|by rewrite Hl]. injection Hkey as -> _. done.
  - by rewrite Hdel.
  - rewrite (draining_annotations q q'); [done|by rewrite Ha].
  - by rewrite Hcon.
Qed.

Lemma ofRole_patched before after p q : keepsRole before after → patchedBy before after p q →
  ofRole rs role p → ofRole rs role q.
Proof.
  intros (Hn & Hs & _) [Hkey Hl _ _ _ _] (Hns & Hn' & Hs')%ofRole_spec. apply ofRole_spec.
  rewrite (mergedMap_same _ _ _ _ _ Hl Hn), (mergedMap_same _ _ _ _ _ Hl Hs). injection Hkey as -> _. done.
Qed.

Lemma harmless_alone before after p0 p q : harmless before after → patchedBy before after p q →
  isAlone p0 p → isAlone p0 q.
Proof.
  intros (Hk & Hc & Hd) Hp [Ho Hdel Hdr Hcon]. pose proof (ofRole_patched _ _ _ _ Hk Hp Ho) as Ho'.
  destruct Hp as [_ _ Ha Hdel' Hcon' _]. split; [done|by rewrite Hdel'| |].
  - specialize (Ha PodDrainingAnnotationKey). destruct Hd as [Hd|Hd].
    + rewrite bool_decide_true in Ha by done. by rewrite (draining_annotations p q Ha).
    + destruct (bool_decide (_ !! _ = _)) in Ha; [by rewrite (draining_annotations p q Ha)|]. unfold IsPodDraining, annotationOf.
      rewrite Ha, Hd. intros Hf. by case_bool_decide.
  - rewrite Hcon', bool_decide_true by done. done.
Qed.
End Alone.

Section Keeping.
Context `{HA : RoleApi W} {HS : PodStore}.
Context (rs : RoleSet) (role : RoleSpec) {HL : PodLaws rs role}.

Definition keepsPod (p : RolePod) (w w' : W) : Prop :=
  notTouched rs role (podsIn w) p = true → notTouched rs role (podsIn w') p = true.

#[export] Instance keepsPod_preorder p : PreOrder (keepsPod p).
Proof. split; [intros w Hw; exact Hw|]. intros a b c Ha Hb Hw. by apply Hb, Ha. Qed.

Lemma meanwhile_alone p m m' : podsMeanwhile rs role m m' → notTouched rs role m p = true → notTouched rs role m' p = true.
Proof.
  intros Hm. rewrite !notTouched_spec. intros (q & Hq & Ha). specialize (Hm (podKeyOf p)). rewrite Hq in Hm.
  destruct (m' !! podKeyOf p) as [q'|].
  - exists q'. split; [done|]. eapply sameButStatus_alone; [done|]. apply Hm. left. apply Ha.
  - specialize (Hm (ia_role _ _ _ _ Ha)). unfold isPodTerminating in Hm. rewrite (ia_deletion _ _ _ _ Ha) in Hm.
    by case_bool_decide as Hs; [destruct Hs|].
Qed.

#[export] Instance keepsPod_calls p : PodCallsIn (keepsPod p) (fun _ => True)
  (fun q => podKeyOf q ≠ podKeyOf p) (fun q => podKeyOf q ≠ podKeyOf p).
Proof.
  split; unfold keepsPod.
  - intros ns labels w. by apply meanwhile_alone, ListPods_law.
  - intros q w _ Hw.
    destruct (CreatePod_law q w) as (m & Hm & Hc); apply (meanwhile_alone p) in Hm; [|done]; destruct Hc as [->|(c & _ & Hk & ->)]; [done|].
    unfold notTouched in *. destruct (decide (podKeyOf c = podKeyOf p)) as [E|Hne]; [|by rewrite lookup_insert_ne].
    rewrite <- E, Hk in Hm. done.
  - intros q w Hne Hw.
    destruct (DeletePod_law q w) as (m & Hm & Hc); apply (meanwhile_alone p) in Hm; [|done]; destruct Hc as [->|[->|[t ->]]]; [done| |];
      unfold notTouched in *; by rewrite ?lookup_delete_ne, ?lookup_alter_ne.
  - intros a b w _ Hne Hw.
    destruct (PatchPod_law a b w) as (m & Hm & Hc); apply (meanwhile_alone p) in Hm; [|done]; destruct Hc as [->|(x & y & _ & _ & ->)]; [done|].
    unfold notTouched in *. by rewrite lookup_insert_ne.
  - intros a b w Hh Hw.
    destruct (PatchPod_law a b w) as (m & Hm & Hc); apply (meanwhile_alone p) in Hm; [|done]; destruct Hc as [->|(x & y & Hx & Hy & ->)]; [done|].
    destruct (decide (podKeyOf a = podKeyOf p)) as [E|Hne]; [|by unfold notTouched in *; rewrite lookup_insert_ne].
    rewrite notTouched_spec in *. destruct Hm as (q & Hq & Ha). rewrite E in *. rewrite Hx in Hq. injection Hq as ->.
    exists y. split; [by rewrite lookup_insert_eq|]. by eapply harmless_alone.
  - intros. eapply meanwhile_alone; [apply PatchPodStatus_law|done].
  - intros. eapply meanwhile_alone; [apply ListPodSets_law|done].
  - intros. eapply meanwhile_alone; [apply CreatePodSet_law|done].
  - intros. eapply meanwhile_alone; [apply DeletePodSet_law|done].
  - intros. eapply meanwhile_alone; [apply RoleNow_law|done].
Qed.
End Keeping.

(** ** How many are touched. *)

Section Taken.
Context `{K8s} `{K8sApps} `{PodTypes} `{!PodTemplates} `{RoleCodec} `{SliceSort}.

Definition countReady (l : list RolePod) : Z := Z.of_nat (length (List.filter IsRolePodReady l)).

Lemma countReady_cons p l : countReady (p :: l) = (if IsRolePodReady p then 1 else 0) + countReady l.
Proof. unfold countReady. cbn [List.filter]. destruct (IsRolePodReady p); cbn [length]; lia. Qed.

Lemma countReady_nonneg l : 0 ≤ countReady l.
Proof. unfold countReady. lia. Qed.

Lemma outdatedTaken_ready budget l : countReady (outdatedTaken budget l) ≤ Z.max 0 budget.
Proof.
  revert budget. induction l as [|p l IH]; intros budget; cbn [outdatedTaken]; [unfold countReady; simpl; lia|].
  destruct (IsRolePodReady p) eqn:Hr.
  - destruct (Z.leb_spec budget 0); [unfold countReady; simpl; lia|]. rewrite countReady_cons, Hr.
    specialize (IH (budget - 1)). lia.
  - rewrite countReady_cons, Hr. apply IH.
Qed.

Lemma outdatedTaken_incl budget l : outdatedTaken budget l ⊆ l.
Proof.
  revert budget. induction l as [|p l IH]; intros budget; cbn [outdatedTaken]; [done|].
  destruct (IsRolePodReady p); [destruct (budget <=? 0); [set_solver|]|]; pose proof (IH (budget - 1));
    pose proof (IH budget); set_solver.
Qed.

Lemma patchTaken_ready rs role budget l : budget < 2 ^ 31 → countReady (patchTaken rs role budget l) ≤ Z.max 0 budget.
Proof.
  revert budget. induction l as [|p l IH]; intros budget Hb; cbn [patchTaken]; [unfold countReady; simpl; lia|].
  destruct (canInPlaceUpdatePod rs role p); [unfold countReady; simpl; lia|].
  destruct (IsRolePodReady p) eqn:Hr; cbn [andb].
  - destruct (Z.leb_spec budget 0); [by apply IH|]. rewrite countReady_cons, Hr.
    rewrite wrap32_id by (unfold in_int32; lia). specialize (IH (budget - 1) ltac:(lia)). lia.
  - rewrite countReady_cons, Hr. by apply IH.
Qed.

Lemma patchTaken_incl rs role budget l : patchTaken rs role budget l ⊆ l.
Proof.
  revert budget. induction l as [|p l IH]; intros budget; cbn [patchTaken]; [done|].
  destruct (canInPlaceUpdatePod rs role p); [set_solver|].
  destruct (IsRolePodReady p && (budget <=? 0)); [specialize (IH budget); set_solver|].
  specialize (IH (if IsRolePodReady p then wrap32 (budget - 1) else budget)). set_solver.
Qed.

Lemma selectInPlace_sublist hash remaining l : sublist (selectInPlaceOutdatedPodsForStep hash remaining l) l.
Proof.
  revert remaining. induction l as [|p l IH]; intros remaining; cbn [selectInPlaceOutdatedPodsForStep]; [constructor|].
  destruct (hasTarget hash p); [|destruct (remaining <=? 0)]; by constructor.
Qed.

Lemma countReady_submseteq l k : l ⊆+ k → countReady l ≤ countReady k.
Proof.
  intros Hlk. unfold countReady. apply inj_le. apply submseteq_Permutation in Hlk as [rest Hk].
  rewrite (filter_length_perm _ _ _ Hk), filter_length_app. lia.
Qed.

(** What a scale in takes: draining pods, and ready ones that can be spared. *)
Definition standing (p : RolePod) : bool := isActiveReady p && negb (IsPodDraining p).

Lemma takeDraining_spec diff ready l : 0 < diff →
  let '(taken, diff', ready') := takeDraining diff ready l in
  taken ⊆ l ∧ Forall (fun p => IsPodDraining p = true) taken ∧
  (diff' = 0 ∨ ready' = ready - countReady (List.filter IsPodDraining l)).
Proof.
  revert diff ready. induction l as [|p l IH]; intros diff ready Hd; cbn [takeDraining].
  { split_and!; [done|done|]. right. unfold countReady. simpl. lia. }
  destruct (Z.eqb_spec diff 0); [lia|]. destruct (IsPodDraining p) eqn:Ed; cbn [negb List.filter]; rewrite Ed.
  - destruct (decide (diff = 1)) as [->|].
    + assert (∀ r, takeDraining (1 - 1) r l = ([], 0, r)) as -> by (intros; by destruct l).
      split_and!; [set_solver|by repeat constructor|by left].
    + specialize (IH (diff - 1) (if IsRolePodReady p then ready - 1 else ready) ltac:(lia)).
      destruct (takeDraining _ _ l) as [[taken diff'] ready'] eqn:Et. destruct IH as (Hs & Hf & Hr).
      split_and!; [set_solver|by constructor|]. destruct Hr as [?|Hr]; [by left|right].
      rewrite Hr, countReady_cons. destruct (IsRolePodReady p); lia.
  - specialize (IH diff ready Hd). destruct (takeDraining _ _ l) as [[taken diff'] ready'].
    destruct IH as (Hs & Hf & Hr). split_and!; [set_solver|done|done].
Qed.

Lemma takeOthers_spec least diff ready l :
  takeOthers least diff ready l ⊆ l ∧ countReady (takeOthers least diff ready l) ≤ Z.max 0 (ready - least).
Proof.
  revert diff ready. induction l as [|p l IH]; intros diff ready; cbn [takeOthers]; [split; [done|unfold countReady; simpl; lia]|].
  assert (countReady [] ≤ Z.max 0 (ready - least)) as Hnil by (unfold countReady; simpl; lia).
  destruct (diff =? 0); [split; [set_solver|done]|].
  destruct (IsPodDraining p); [specialize (IH diff ready); split; [set_solver|apply IH]|].
  destruct (IsRolePodReady p) eqn:Hr; cbn [andb].
  - destruct (Z.leb_spec ready least); [split; [set_solver|done]|]. specialize (IH (diff - 1) (ready - 1)) as [Hs Hc].
    split; [set_solver|]. rewrite countReady_cons, Hr. lia.
  - specialize (IH (diff - 1) ready) as [Hs Hc]. split; [set_solver|]. by rewrite countReady_cons, Hr.
Qed.

Lemma countReady_serving l : Z.of_nat (length (List.filter isActiveReady l)) ≤ countReady l.
Proof.
  unfold countReady. apply inj_le. induction l as [|p l IH]; simpl; [done|]. unfold isActiveReady at 1.
  destruct (IsPodActive p), (IsRolePodReady p); simpl; lia.
Qed.

Lemma serving_active p : isActiveReady p = true → IsPodActive p = true.
Proof. by intros [? _]%andb_true_iff. Qed.

Lemma standing_active p : standing p = true → IsPodActive p = true.
Proof. by intros [?%serving_active _]%andb_true_iff. Qed.

Lemma filter_absorb (f g : RolePod → bool) l :
  (∀ p, f p = true → g p = true) → List.filter f (List.filter g l) = List.filter f l.
Proof.
  intros Hfg. induction l as [|p l IH]; simpl; [done|]. specialize (Hfg p).
  destruct (g p); simpl; destruct (f p); rewrite ?IH; try done. by specialize (Hfg eq_refl).
Qed.

Lemma active_incl (all : list RolePod) : (filterActivePods all).1 ⊆ all.
Proof. intros p. unfold filterActivePods, split. cbn [fst]. rewrite elem_of_list_filter_bool. tauto. Qed.

Lemma outdated_incl (all : list RolePod) hash : (filterUpdatedPods (filterActivePods all).1 hash).2 ⊆ all.
Proof.
  intros p Hp. apply (active_incl all). unfold filterUpdatedPods, split in Hp. cbn [snd] in Hp.
  by apply elem_of_list_filter_bool in Hp as [_ Hp].
Qed.

Lemma sortPodsByActive_incl (l : list RolePod) : sortPodsByActive l ⊆ l.
Proof. intros p. unfold sortPodsByActive. by rewrite sortSlice_perm. Qed.

Lemma countReady_outdated (all : list RolePod) hash :
  countReady (filterUpdatedPods (filterActivePods all).1 hash).2 ≤ Z.of_nat (length (filterReadyPods (filterActivePods all).1).1).
Proof.
  unfold countReady, filterUpdatedPods, filterActivePods, filterReadyPods, split. cbn [fst snd]. apply inj_le.
  induction all as [|p l IH]; simpl; [done|]. destruct (IsPodActive p) eqn:Ha; simpl; [|done].
  unfold isActiveReady at 1. rewrite Ha. destruct (isUpdatedTo hash p), (IsRolePodReady p) eqn:Hr; simpl; rewrite ?Hr; simpl; lia.
Qed.

Lemma countReady_split l :
  countReady l = Z.of_nat (length (List.filter (fun p => IsRolePodReady p && negb (IsPodDraining p)) l)) +
                 countReady (List.filter IsPodDraining l).
Proof.
  unfold countReady. induction l as [|p l IH]; simpl; [done|].
  destruct (IsPodDraining p), (IsRolePodReady p) eqn:Hr; simpl; rewrite ?Hr; simpl; lia.
Qed.

Lemma filter_filter_list_r (p q : RolePod → bool) l :
  List.filter q (List.filter p l) = List.filter (fun x => p x && q x) l.
Proof. rewrite filter_filter_list. apply List.filter_ext. intros x. apply andb_comm. Qed.

Lemma standing_count l : Forall (fun p => IsPodActive p = true) l →
  List.filter standing l = List.filter (fun p => IsRolePodReady p && negb (IsPodDraining p)) l.
Proof.
  induction 1 as [|p l Hp _ IH]; simpl; [done|]. unfold standing at 1, isActiveReady. rewrite Hp, IH. done.
Qed.

(** Pods that ended are not standing. *)
Lemma ended_standing (all : list RolePod) : List.filter standing (filterTerminatingPods (filterActivePods all).2).2 = [].
Proof.
  apply elem_of_nil_inv. intros p [Hs Hp]%elem_of_list_filter_bool. apply standing_active in Hs.
  unfold filterTerminatingPods, filterActivePods, split in Hp. cbn [snd] in Hp.
  apply elem_of_list_filter_bool in Hp as [_ [Hp _]%elem_of_list_filter_bool]. by rewrite Hs in Hp.
Qed.

Lemma ended_incl (all : list RolePod) : (filterTerminatingPods (filterActivePods all).2).2 ⊆ all.
Proof.
  intros p Hp. unfold filterTerminatingPods, filterActivePods, split in Hp. cbn [snd] in Hp.
  by apply elem_of_list_filter_bool in Hp as [_ [_ ?]%elem_of_list_filter_bool].
Qed.
End Taken.

(** ** What is kept. *)

Section Kept.
Context `{HA : RoleApi W} `{!PodTemplates} `{RoleCodec} `{SliceSort} {HS : PodStore} `{!SmallCluster}.
Context (rs : RoleSet) (role : RoleSpec) {HL : PodLaws rs role}.

(** Of the pods that satisfy [f] at [w1], those left alone at [w']. *)
Definition kept (f : RolePod → bool) (w1 w' : W) : Z :=
  roleCount rs role (fun p => f p && notTouched rs role (podsIn w') p) w1.

Lemma length_filter_taken {A} `{EqDecision A} (f g : A → bool) (l T : list A) : NoDup l →
  (∀ x, x ∈ l → f x = true → g x = false → x ∈ T) →
  (length (List.filter f l) ≤ length (List.filter (fun x => f x && g x) l) + length (List.filter f T))%nat.
Proof.
  intros Hnd HT.
  assert (length (List.filter f l) = length (List.filter (fun x => f x && g x) l) +
    length (List.filter (fun x => f x && negb (g x)) l))%nat as ->.
  { clear. induction l as [|x l IH]; simpl; [done|]. destruct (f x), (g x); simpl; lia. }
  apply Nat.add_le_mono_l, submseteq_length, NoDup_submseteq.
  - eapply sublist_NoDup; [exact Hnd|]. apply sublist_filter_list.
  - intros x [[Hf Hg%negb_true_iff]%andb_true_iff Hx]%elem_of_list_filter_bool. apply elem_of_list_filter_bool. auto.
Qed.

Lemma listed_NoDup w1 all : podsListed rs role w1 all → NoDup all.
Proof. intros [Hnd _]. by eapply NoDup_fmap_1. Qed.

Lemma kept_bound f w1 w' all (T : list RolePod) : podsListed rs role w1 all →
  (∀ p, p ∈ all → f p = true → p ∉ T → notTouched rs role (podsIn w') p = true) →
  roleCount rs role f w1 - Z.of_nat (length (List.filter f T)) ≤ kept f w1 w'.
Proof.
  intros Hl Hk. unfold kept. rewrite !(listed_count rs role w1 all) by done.
  pose proof (length_filter_taken f (notTouched rs role (podsIn w')) all T (listed_NoDup _ _ Hl)) as Hle.
  cut (length (List.filter f all) ≤ length (List.filter (fun p => f p && notTouched rs role (podsIn w') p) all) +
    length (List.filter f T))%nat; [lia|]. apply Hle. intros p Hp Hf Ha.
  destruct (decide (p ∈ T)) as [|HT]; [done|]. by rewrite Hk in Ha.
Qed.

Lemma stored_alone w1 p : podsIn w1 !! podKeyOf p = Some p → ofRole rs role p → IsPodActive p = true →
  notTouched rs role (podsIn w1) p = true.
Proof.
  intros Hk Ho Ha. rewrite IsPodActive_spec in Ha. apply andb_true_iff in Ha as [_ Ht%negb_true_iff].
  apply notTouched_spec. exists p. split; [done|]. apply isAlone_refl; [done|].
  unfold isPodTerminating in Ht. case_bool_decide as Hd; [done|]. by apply eq_None_not_Some.
Qed.

Lemma listed_alone w1 all p : podsListed rs role w1 all → p ∈ all → IsPodActive p = true →
  notTouched rs role (podsIn w1) p = true.
Proof. intros [_ Hiff] [Hk Ho]%Hiff. by apply stored_alone. Qed.

Lemma kept_self f w1 : (∀ p, f p = true → IsPodActive p = true) → kept f w1 w1 = roleCount rs role f w1.
Proof.
  intros Hf. unfold kept, roleCount. do 2 f_equal. apply map_filter_ext. intros k p Hk.
  pose proof (podsIn_key _ _ _ Hk) as <-. cbn [snd]. rewrite andb_true_iff. split; [tauto|]. intros [Ho Hfp].
  split_and!; [done|done|]. apply stored_alone; auto.
Qed.

(** The keys of what is touched are not that of a pod that is not. *)
Lemma listed_others w1 all (T : list RolePod) p : podsListed rs role w1 all → T ⊆ all → p ∈ all → p ∉ T →
  Forall (fun q => podKeyOf q ≠ podKeyOf p) T.
Proof.
  intros [Hnd _] HT Hp HpT. apply Forall_forall. intros q Hq Hk. contradict HpT.
  by rewrite <- (NoDup_fmap_inj_elem podKeyOf all q p Hnd (HT q Hq) Hp Hk).
Qed.

Lemma within_alone {A} (m : Run W A) p w : within (keepsPod rs role p) m → notTouched rs role (podsIn w) p = true →
  holds (fun x => notTouched rs role (podsIn x) p = true) m w (fun _ x => notTouched rs role (podsIn x) p = true).
Proof.
  intros Hm Hw. destruct (Hm w) as (Ht & Hf & _). split; [|by apply Hf].
  eapply Forall_impl; [exact Ht|]. intros x Hx. by apply Hx.
Qed.

(** A listing, and what is done with it. *)
Lemma listed_kept {A} f B (k : result kubeError (list RolePod) → Run W A) w w' :
  (∀ p, f p = true → IsPodActive p = true) → (∀ e w1, visited (k (Err e)) w1 = []) →
  (∀ all w1 w', podsListed rs role w1 all → w' ∈ visited (k (Ok all)) w1 →
    Z.min (roleCount rs role f w1) B ≤ kept f w1 w') →
  w' ∈ visited (getRolePods rs role ≫= k) w →
  let w1 := final (getRolePods rs role) w in Z.min (roleCount rs role f w1) B ≤ kept f w1 w'.
Proof.
  intros Hf He Hk Hw' w1. destruct (getRolePods_listed rs role w) as (_ & Hv & Hl).
  rewrite visited_bind, Hv in Hw'. apply elem_of_app in Hw' as [->%list_elem_of_singleton|Hw'].
  - fold w1. rewrite (kept_self f w1) by done. apply Z.le_min_l.
  - fold w1 in Hw'. destruct (value (getRolePods rs role) w) as [all|e]; [eapply Hk; [by apply Hl|done]|].
    rewrite He in Hw'. by apply elem_of_nil in Hw'.
Qed.

(** What an operation may do to the pods it was given a list of: all but those
    of [T] are left alone. *)
Definition touchesOnly {A} (m : Run W A) (w1 : W) (all T : list RolePod) : Prop :=
  ∀ p, p ∈ all → p ∉ T → notTouched rs role (podsIn w1) p = true →
    holds (fun x => notTouched rs role (podsIn x) p = true) m w1 (fun _ _ => True).

Lemma within_touches {A} (m : Run W A) w1 all T : podsListed rs role w1 all → T ⊆ all →
  (∀ p, Forall (fun q => podKeyOf q ≠ podKeyOf p) T → within (keepsPod rs role p) m) → touchesOnly m w1 all T.
Proof.
  intros Hl HT Hm p Hp HpT Ha. eapply holds_mono; [apply within_alone; [|done]|done|done]. apply Hm.
  by eapply listed_others.
Qed.

Lemma kept_by_touch {A} (m : Run W A) f B w1 w' all T : podsListed rs role w1 all →
  (∀ p, f p = true → IsPodActive p = true) → touchesOnly m w1 all T →
  Z.of_nat (length (List.filter f T)) ≤ Z.max 0 (roleCount rs role f w1 - B) → w' ∈ visited m w1 →
  Z.min (roleCount rs role f w1) B ≤ kept f w1 w'.
Proof.
  intros Hl Hf Ht Hc Hw'. pose proof (kept_bound f w1 w' all T Hl) as Hb. cut (roleCount rs role f w1 -
    Z.of_nat (length (List.filter f T)) ≤ kept f w1 w'); [lia|]. apply Hb. intros p Hp Hfp HpT.
  destruct (Ht p Hp HpT) as [Hv _]; [by eapply listed_alone; eauto|]. rewrite Forall_forall in Hv. by apply Hv.
Qed.

Lemma applyScale_touches active toCreate toDelete w1 all : podsListed rs role w1 all → toDelete ⊆ all →
  touchesOnly (applyScale role active toCreate toDelete) w1 all toDelete.
Proof.
  intros Hl HT. apply within_touches; [done|done|]. intros p Hp.
  apply (applyScale_in (keepsPod rs role p) (fun _ => True) _ _); [by apply Forall_true|done|done].
Qed.

Lemma applyRollout_touches toCreate toDelete w1 all : podsListed rs role w1 all → toDelete ⊆ all →
  touchesOnly (applyRollout role toCreate toDelete) w1 all toDelete.
Proof.
  intros Hl HT. apply within_touches; [done|done|]. intros p Hp.
  apply (applyRollout_in (keepsPod rs role p) (fun _ => True) _ _); [by apply Forall_true|done|done].
Qed.

(** *** Updates in place. *)

Lemma markInPlaceUpdateComplete_keeps p q hash : within (keepsPod rs role p) (markInPlaceUpdateComplete rs role q hash).
Proof. apply (markInPlaceUpdateComplete_in (keepsPod rs role p) _ _ _). Qed.

(** What is settled only lowers the budget. *)
Lemma settlePatched_yields hash budget candidates pods : countReady pods - 2 ^ 31 ≤ budget < 2 ^ 31 →
  yields (settlePatched (W := W) rs role hash budget candidates pods) (fun r =>
    match r with Ok (b, cs) => b ≤ budget ∧ cs ⊆ candidates ++ pods | Err _ => True end).
Proof.
  revert budget candidates. induction pods as [|p pods IH]; intros budget candidates Hb; cbn [settlePatched].
  { apply yields_ret. rewrite app_nil_r. split; [lia|done]. }
  rewrite countReady_cons in Hb. pose proof (countReady_nonneg pods).
  assert (∀ b cs, countReady pods - 2 ^ 31 ≤ b ≤ budget → cs ⊆ candidates ++ [p] →
    yields (settlePatched (W := W) rs role hash b cs pods) (fun r =>
      match r with Ok (b, cs) => b ≤ budget ∧ cs ⊆ candidates ++ p :: pods | Err _ => True end)) as Hgo.
  { intros b cs Hb' Hcs. eapply yields_mono; [apply IH; lia|]. intros [[b' cs']|e]; [|done]. intros [? Hs].
    split; [lia|]. set_solver. }
  apply (yields_bind _ _ (fun _ => True)); [apply yields_any|]. intros [[] [e|]] _;
    [by apply yields_ret|apply Hgo; [destruct (IsRolePodReady p); lia|set_solver]|by apply yields_ret|].
  destruct (hasTarget hash p); apply Hgo; try set_solver; destruct (IsRolePodReady p); try lia.
  rewrite wrap32_id by (unfold in_int32; lia). lia.
Qed.

Lemma rolloutPodsInPlace_touches pods hash budget w1 all : podsListed rs role w1 all → pods ⊆ all →
  countReady pods - 2 ^ 31 ≤ budget < 2 ^ 31 →
  ∃ T, T ⊆ all ∧ countReady T ≤ Z.max 0 budget ∧ touchesOnly (rolloutPodsInPlace rs role pods hash budget) w1 all T.
Proof.
  intros Hl Hpods Hb. unfold rolloutPodsInPlace.
  assert (sortPodsByActive pods ≡ₚ pods) as Hperm by apply sortSlice_perm.
  assert (countReady (sortPodsByActive pods) = countReady pods) as Hc.
  { unfold countReady. f_equal. by apply filter_length_perm. }
  pose proof (settlePatched_yields hash budget [] (sortPodsByActive pods) ltac:(rewrite Hc; lia) w1) as Hy.
  set (m := settlePatched rs role hash budget [] (sortPodsByActive pods)) in *.
  assert (∀ p, notTouched rs role (podsIn w1) p = true → holds (fun x => notTouched rs role (podsIn x) p = true) m w1
    (fun _ x => notTouched rs role (podsIn x) p = true)) as Hm.
  { intros p Ha. apply within_alone; [|done]. apply (settlePatched_in (keepsPod rs role p) _ _ _). }
  destruct (value m w1) as [[b cs]|e] eqn:Ev.
  - exists (patchTaken rs role b cs). destruct Hy as [Hle Hcs]. pose proof (patchTaken_incl rs role b cs) as Hi.
    assert (patchTaken rs role b cs ⊆ all) as HT.
    { intros x Hx%Hi%Hcs. rewrite app_nil_l, Hperm in Hx. auto. }
    split_and!; [done|etrans; [apply patchTaken_ready|]; lia|]. intros p Hp HpT Ha. apply holds_bind.
    destruct (Hm p Ha) as [Hv Hf]. split; [done|]. rewrite Ev.
    eapply holds_mono; [apply within_alone; [|exact Hf]|done|done].
    apply (patchCandidates_in (keepsPod rs role p) _ _ _). by eapply listed_others.
  - exists []. split_and!; [set_solver|unfold countReady; simpl; lia|]. intros p Hp HpT Ha. apply holds_bind.
    destruct (Hm p Ha) as [Hv Hf]. split; [done|]. rewrite Ev. by apply holds_ret.
Qed.
End Kept.

(** ** Stateless roles. *)

Section Stateless.
Context `{HA : RoleApi W} `{!PodTemplates} `{RoleCodec} `{SliceSort} {HS : PodStore} `{!SmallCluster}.
Context (rs : RoleSet) (role : RoleSpec) {HL : PodLaws rs role}.
Context (Hun : 0 ≤ roleMaxUnavailable role) (Hfits : getRoleReplicas role < 2 ^ 31).

Let leastReady : Z := getRoleReplicas role - roleMaxUnavailable role.

Lemma roleMaxUnavailable_le : roleMaxUnavailable role ≤ getRoleReplicas role.
Proof.
  unfold roleMaxUnavailable. destruct (Z.eqb_spec (getRoleReplicas role) 0); [lia|].
  destruct (Z.ltb_spec (getRoleReplicas role) (roleFenceposts role).2); lia.
Qed.

(** The ready pods of the listing, as the operations count them. *)
Lemma ready_of_listing w1 all : podsListed rs role w1 all →
  Z.of_nat (length (filterReadyPods (filterActivePods all).1).1) = roleCount rs role isActiveReady w1 ∧
  0 ≤ roleCount rs role isActiveReady w1 < 2 ^ 30.
Proof.
  intros Hl. rewrite (listed_count rs role w1 all _ Hl). unfold filterReadyPods, filterActivePods, split. cbn [fst].
  rewrite filter_absorb by apply serving_active. pose proof (listed_small rs role w1 all Hl) as Hs.
  pose proof (sublist_length _ _ (sublist_filter_list isActiveReady all)). split; [done|lia].
Qed.

Lemma statelessReplace_kept all outdated del wanted sel w1 w' : podsListed rs role w1 all → outdated ⊆ all →
  sel outdated ⊆ outdated → del ≤ roleCount rs role isActiveReady w1 - leastReady →
  countReady (sel outdated) - 2 ^ 31 ≤ del < 2 ^ 31 →
  w' ∈ visited (statelessReplace rs role all outdated del wanted sel) w1 →
  Z.min (roleCount rs role isActiveReady w1) leastReady ≤ kept rs role isActiveReady w1 w'.
Proof.
  intros Hl Hout Hsel Hdel Hrange. unfold statelessReplace. cbv zeta.
  match goal with |- context [applyRollout role ?c ?d] => set (create := c); set (T := d) end.
  assert (w' ∈ visited (applyRollout role create T) w1 →
    Z.min (roleCount rs role isActiveReady w1) leastReady ≤ kept rs role isActiveReady w1 w') as Hr.
  { intros Hw'. eapply kept_by_touch with (T := T);
      [exact Hl|apply serving_active|apply (applyRollout_touches rs role); [exact Hl|]| |exact Hw'].
    - intros p Hp%outdatedTaken_incl%sortPodsByActive_incl. auto.
    - etrans; [apply countReady_serving|]. etrans; [apply outdatedTaken_ready|]. lia. }
  destruct (bool_decide _); [|exact Hr]. destruct (canRolloutPodsInPlace _ _ _ _); [exact Hr|].
  destruct (rolloutPodsInPlace_touches rs role (sel outdated) (ComputeHash (role_Template role)) del w1 all)
    as (T' & HT & Hc & Ht); [done|set_solver|done|].
  rewrite visited_bind. cbn. rewrite app_nil_r.
  intros Hw'. eapply kept_by_touch with (T := T'); [exact Hl|apply serving_active|exact Ht| |exact Hw']. etrans; [apply countReady_serving|]. lia.
Qed.

Lemma statelessRollout_kept w w' : w' ∈ visited (statelessRollout rs role) w →
  let w1 := final (getRolePods rs role) w in
  Z.min (roleCount rs role isActiveReady w1) leastReady ≤ kept rs role isActiveReady w1 w'.
Proof.
  apply (listed_kept rs role); [apply serving_active|done|]. intros all w1 w2 Hl. cbv zeta.
  destruct (ready_of_listing w1 all Hl) as [Hr Hr']. pose proof (outdated_incl all (ComputeHash (role_Template role))) as Hout.
  pose proof (countReady_outdated all (ComputeHash (role_Template role))) as Hc. pose proof roleMaxUnavailable_le.
  pose proof (getRoleReplicas_nonneg role). destruct (filterUpdatedPods _ _) as [updated outdated]. cbn [snd] in *. rewrite Hr in *.
  rewrite wrap32_id by (unfold in_int32; lia). unfold leastReady in *.
  apply statelessReplace_kept; [done|done|done|fold leastReady; lia|]. cbn. lia.
Qed.

Lemma statelessRolloutByStep_kept step w w' : w' ∈ visited (statelessRolloutByStep rs role step) w →
  let w1 := final (getRolePods rs role) w in
  Z.min (roleCount rs role isActiveReady w1) leastReady ≤ kept rs role isActiveReady w1 w'.
Proof.
  apply (listed_kept rs role); [apply serving_active|done|]. intros all w1 w2 Hl. cbv zeta.
  destruct (ready_of_listing w1 all Hl) as [Hr Hr']. pose proof (outdated_incl all (ComputeHash (role_Template role))) as Hout.
  pose proof (countReady_outdated all (ComputeHash (role_Template role))) as Hc. pose proof roleMaxUnavailable_le.
  pose proof (getRoleReplicas_nonneg role). pose proof (listed_small rs role w1 all Hl) as Hsm.
  assert (Z.of_nat (length (filterUpdatedPods (filterActivePods all).1 (ComputeHash (role_Template role))).1) ≤ Z.of_nat (length all) ∧
    Z.of_nat (length (filterUpdatedPods (filterActivePods all).1 (ComputeHash (role_Template role))).2) ≤ Z.of_nat (length all)) as [Hlu Hlo].
  { pose proof (fun f l => sublist_length _ _ (sublist_filter_list (A := RolePod) f l)) as Hf.
    split; apply inj_le; (etrans; [apply Hf|apply Hf]). }
  destruct (filterUpdatedPods _ _) as [updated outdated]. cbn [fst snd] in *. rewrite Hr in *.
  assert (updatedByStep role step ≤ getRoleReplicas role) as Heu by (unfold updatedByStep, MinInt32; case_match; lia).
  unfold int32Of. rewrite (wrap32_id (Z.of_nat (length updated))) by (unfold in_int32; lia).
  destruct (Z.leb_spec (updatedByStep role step) (Z.of_nat (length updated))) as [|Hlt]; [intros Hw'; by apply elem_of_nil in Hw'|].
  rewrite (wrap32_id (Z.of_nat (length outdated) - _ + _)), (wrap32_id (roleCount _ _ _ _ - _ + _)) by (unfold in_int32; lia).
  assert (∀ n, countReady (selectInPlaceOutdatedPodsForStep (ComputeHash (role_Template role)) n (sortPodsByActive outdated))
    ≤ countReady outdated) as Hsel.
  { intros n. apply countReady_submseteq. etrans; [apply sublist_submseteq, selectInPlace_sublist|].
    unfold sortPodsByActive. by rewrite sortSlice_perm. }
  assert (countReady outdated ≤ Z.of_nat (length outdated)) as Hro.
  { apply inj_le, sublist_length, sublist_filter_list. }
  apply statelessReplace_kept; [done|done| |unfold leastReady; unfold MinInt32; case_match; lia|].
  - intros p Hp. apply sortPodsByActive_incl. eapply elem_of_submseteq; [exact Hp|].
    apply sublist_submseteq, selectInPlace_sublist.
  - match goal with |- countReady (selectInPlaceOutdatedPodsForStep _ ?n _) - _ ≤ _ < _ => specialize (Hsel n) end.
    unfold MinInt32. case_match; lia.
Qed.

(** A scale in gives up only standing pods that can be spared. *)
Lemma scaledIn_standing diff l : 0 < diff → Forall (fun p => IsPodActive p = true) l →
  0 ≤ leastReady < 2 ^ 31 →
  scaledIn role diff l ⊆ l ∧
  Z.of_nat (length (List.filter standing (scaledIn role diff l))) ≤
    Z.max 0 (Z.of_nat (length (List.filter standing l)) - leastReady).
Proof.
  intros Hd Ha Hleast. unfold scaledIn. cbv zeta.
  assert (Z.of_nat (length (filterReadyPods l).1) = countReady l) as ->.
  { unfold countReady. do 2 f_equal. unfold filterReadyPods, split. cbn [fst]. clear -Ha.
    induction Ha as [|p l Hp _ IH]; simpl; [done|]. unfold isActiveReady at 1. by rewrite Hp, IH. }
  rewrite wrap32_id by (unfold in_int32, leastReady in *; lia).
  pose proof (takeDraining_spec diff (countReady l) l Hd) as Ht.
  destruct (takeDraining diff (countReady l) l) as [[draining diff'] ready']. destruct Ht as (Hs & Hdr & Hr').
  destruct (takeOthers_spec (getRoleReplicas role - roleMaxUnavailable role) diff' ready' l) as [Hs' Hc].
  split; [set_solver|]. rewrite filter_length_app.
  assert (List.filter standing draining = []) as ->.
  { clear -Hdr. induction Hdr as [|p k Hp _ IH]; simpl; [done|]. unfold standing at 1. by rewrite Hp, andb_false_r. }
  cbn [length Nat.add]. destruct Hr' as [->|Hr'].
  - assert (∀ least r k, takeOthers least 0 r k = []) as -> by (intros; by destruct k). simpl. lia.
  - etrans; [|etrans; [exact Hc|]].
    + etrans; [|apply countReady_serving]. apply inj_le, sublist_length. unfold standing.
      rewrite <- filter_filter_list_r. apply sublist_filter_list.
    + rewrite standing_count by done. rewrite countReady_split in Hr'. fold leastReady. lia.
Qed.

Lemma standing_listing w1 all : podsListed rs role w1 all →
  roleCount rs role standing w1 = Z.of_nat (length (List.filter standing (filterActivePods all).1)).
Proof.
  intros Hl. rewrite (listed_count rs role w1 all _ Hl). do 2 f_equal. unfold filterActivePods, split. cbn [fst].
  by rewrite filter_absorb by apply standing_active.
Qed.

Lemma scale_kept active toCreate T all w1 w' : podsListed rs role w1 all → T ⊆ all →
  Z.of_nat (length (List.filter standing T)) ≤ Z.max 0 (roleCount rs role standing w1 - leastReady) →
  w' ∈ visited (applyScale role active toCreate T) w1 →
  Z.min (roleCount rs role standing w1) leastReady ≤ kept rs role standing w1 w'.
Proof.
  intros Hl HT Hc Hw'. eapply kept_by_touch; [exact Hl|apply standing_active|by apply (applyScale_touches rs role)|done|exact Hw'].
Qed.

Lemma statelessScale_kept w w' : let cleanup := cleanupOrphanPodSets rs role in
  let w1 := final (getRolePods rs role) (final cleanup w) in
  w' ∈ visited (statelessScale rs role) w →
  w' ∈ visited cleanup w ∨ Z.min (roleCount rs role standing w1) leastReady ≤ kept rs role standing w1 w'.
Proof.
  intros cleanup w1. unfold statelessScale, afterCleanup. fold cleanup. rewrite visited_bind. intros [Hw'|Hw']%elem_of_app; [by left|right].
  revert Hw'. destruct (value cleanup w) as [[] []]; try (intros Hw'; by apply elem_of_nil in Hw'). unfold w1. clear w1.
  generalize (final cleanup w) as w0. intros w0. apply (listed_kept rs role); [apply standing_active|done|].
  intros all w1 w2 Hl. pose proof (standing_listing w1 all Hl) as Hst. pose proof (ended_standing all) as Hes.
  pose proof (ended_incl all) as Hei. pose proof (active_incl all) as Hai. pose proof roleMaxUnavailable_le.
  assert (Forall (fun p => IsPodActive p = true) (filterActivePods all).1) as Hact.
  { apply Forall_forall. intros p [Hp _]%elem_of_list_filter_bool. done. }
  destruct (filterActivePods all) as [active inactive]. cbn [fst snd] in *. cbv zeta.
  assert (∀ T create l, T = (filterTerminatingPods inactive).2 → w2 ∈ visited (applyScale role l create T) w1 →
    Z.min (roleCount rs role standing w1) leastReady ≤ kept rs role standing w1 w2) as Hnone.
  { intros T create l ->. apply (scale_kept _ _ _ all); [done|done|]. rewrite Hes. simpl. lia. }
  destruct (Z.ltb_spec 0 (Z.of_nat (length active) - getRoleReplicas role)) as [Hd|]; [|destruct (_ <? 0); by eapply Hnone].
  set (sorted := sortPodsByTemplateHash active _). assert (sorted ≡ₚ active) as Hperm by apply sortSlice_perm.
  destruct (scaledIn_standing (Z.of_nat (length active) - getRoleReplicas role) sorted) as [Hin Hc];
    [done|by rewrite Hperm|unfold leastReady; lia|].
  apply (scale_kept _ _ _ all); [done| |].
  - intros p [Hp|Hp%Hin]%elem_of_app; [auto|]. rewrite Hperm in Hp. auto.
  - rewrite filter_length_app, Hes, Hst. cbn [length Nat.add]. by rewrite (filter_length_perm _ _ _ Hperm) in Hc.
Qed.
End Stateless.

