(* ===== verification/SlotAvail.v ===== *)
(** * The slots a stateful role keeps while it is scaled and rolled out.

    A slot serves while one of its pods is ready.  A scaling takes surplus pods
    away but leaves a ready pod to every slot that has one; a rollout stops
    only as many slots from serving as maxUnavailable allows. *)

From S2P Require Import Prelude Api Claims Ledger KVPlan Placement Reservations Runtime Storm StormSync StormFacts PodTypes RolePods RoleRender PodDrain InPlace RoleSync PodSetSync Rolling PodLaws RoleSurge RoleAvail.

(** ** What is taken of a slot. *)

Section SlotFacts.
Context {A : Type} (ready updated : A → bool).

Lemma elem_of_split (p : A → bool) l x : x ∈ l → if p x then x ∈ (split p l).1 else x ∈ (split p l).2.
Proof.
  intros Hx. unfold split. cbn [fst snd]. destruct (p x) eqn:E; apply elem_of_list_filter_bool; [done|]. by rewrite E.
Qed.

Lemma split_incl (p : A → bool) l : (split p l).1 ⊆ l ∧ (split p l).2 ⊆ l.
Proof. unfold split. cbn [fst snd]. split; intros x [_ Hx]%elem_of_list_filter_bool; done. Qed.

Lemma elem_of_tail (x : A) l : x ∈ tail l → x ∈ l.
Proof. destruct l; [done|]. by right. Qed.

Lemma surplusOfSlot_incl slot : surplusOfSlot ready updated slot ⊆ slot.
Proof.
  unfold surplusOfSlot. destruct (split ready slot) as [r n] eqn:E1.
  pose proof (split_incl ready slot) as [Hr Hn]. rewrite E1 in Hr, Hn. cbn [fst snd] in *.
  destruct (split updated r) as [ur or] eqn:E2. pose proof (split_incl updated r) as [Hur Hor]. rewrite E2 in Hur, Hor.
  destruct (split updated n) as [un on] eqn:E3. pose proof (split_incl updated n) as [Hun Hon]. rewrite E3 in Hun, Hon.
  cbn [fst snd] in *. intros x. pose proof (elem_of_tail x or). pose proof (elem_of_tail x un).
  destruct ur as [|y more]; rewrite !elem_of_app; set_solver.
Qed.

Lemma filter_NoDup_list (p : A → bool) l : NoDup l → NoDup (List.filter p l).
Proof. intros Hl. eapply sublist_NoDup; [exact Hl|]. apply sublist_filter_list. Qed.

(** A slot that has a ready member keeps one. *)
Lemma surplusOfSlot_keeps slot x : NoDup slot → x ∈ slot → ready x = true →
  ∃ y, y ∈ slot ∧ ready y = true ∧ y ∉ surplusOfSlot ready updated slot.
Proof.
  intros Hnd Hx Hrx. unfold surplusOfSlot, split. cbv zeta beta iota.
  set (r := List.filter ready slot). set (n := List.filter (fun x => negb (ready x)) slot).
  assert (∀ y, y ∈ n → ready y = false) as Hn.
  { intros y [Hy _]%elem_of_list_filter_bool. by apply negb_true_iff. }
  assert (∀ y, y ∈ r → y ∈ slot ∧ ready y = true) as Hr.
  { intros y [Hy ?]%elem_of_list_filter_bool. done. }
  assert (NoDup r) as Hndr by by apply filter_NoDup_list.
  assert (∀ p y, y ∈ List.filter p n → ready y = false) as Hn'.
  { intros p y [_ Hy]%elem_of_list_filter_bool. auto. }
  destruct (List.filter updated r) as [|u more] eqn:Eu.
  - destruct (List.filter (fun x => negb (updated x)) r) as [|o others] eqn:Eo.
    + assert (x ∈ r) as Hxr by by apply elem_of_list_filter_bool.
      exfalso. destruct (updated x) eqn:Ex.
      * assert (x ∈ List.filter updated r) as Hf by by apply elem_of_list_filter_bool. rewrite Eu in Hf. by apply elem_of_nil in Hf.
      * assert (x ∈ List.filter (fun x => negb (updated x)) r) as Hf by (apply elem_of_list_filter_bool; by rewrite Ex).
        rewrite Eo in Hf. by apply elem_of_nil in Hf.
    + assert (o ∈ r) as Ho by (eapply proj2, elem_of_list_filter_bool; rewrite Eo; left).
      assert (NoDup (o :: others)) as [Hno _]%NoDup_cons by (rewrite <- Eo; by apply filter_NoDup_list).
      destruct (Hr o Ho) as [Hos Hro]. exists o. split_and!; [done|done|]. rewrite !elem_of_app. cbn [tail].
      intros [Hf%Hn'|[Hf|Hf%elem_of_tail%Hn']]; congruence.
  - assert (u ∈ r) as Hu by (eapply proj2, elem_of_list_filter_bool; rewrite Eu; left).
    assert (updated u = true) as Huu by (eapply proj1, elem_of_list_filter_bool; rewrite Eu; left).
    assert (NoDup (u :: more)) as [Hno _]%NoDup_cons by (rewrite <- Eu; by apply filter_NoDup_list).
    destruct (Hr u Hu) as [Hus Hru]. exists u. split_and!; [done|done|]. rewrite !elem_of_app.
    intros [Hf%Hn'|[[Hf%negb_true_iff _]%elem_of_list_filter_bool|[Hf%Hn'|Hf]]]; congruence.
Qed.

Lemma scaleSlots_surplus make i budget slots x : x ∈ (scaleSlots ready updated make i budget slots).2 →
  ∃ slot, slot ∈ slots ∧ x ∈ surplusOfSlot ready updated slot.
Proof.
  revert i budget. induction slots as [|[|y slot] slots IH]; intros i budget; cbn [scaleSlots]; [by intros ?%elem_of_nil| |].
  - destruct (budget <=? 0).
    + intros (s & Hs & Hx)%IH. exists s. split; [by right|done].
    + specialize (IH (i + 1) (budget - 1)). destruct (scaleSlots _ _ _ _ _ slots). intros (s & Hs & Hx)%IH.
      exists s. split; [by right|done].
  - specialize (IH (i + 1) budget). destruct (scaleSlots _ _ _ _ _ slots). cbn [snd] in *.
    intros [Hx|Hx]%elem_of_app.
    + exists (y :: slot). split; [left|]. destruct (1 <? _)%nat; [done|by apply elem_of_nil in Hx].
    + destruct (IH Hx) as (s & Hs & Hx'). exists s. split; [by right|done].
Qed.

(** A rollout takes the only member of a slot. *)
Lemma rolloutSlots_single make i del cre slots x : x ∈ (rolloutSlots ready updated make i del cre slots).2 → [x] ∈ slots.
Proof.
  revert i del cre. induction slots as [|[|y [|z slot]] slots IH]; intros i del cre; cbn [rolloutSlots];
    [by intros ?%elem_of_nil|intros Hx; right; by eapply IH| |intros Hx; right; by eapply IH].
  destruct (updated y); [intros Hx; right; by eapply IH|].
  destruct (negb (ready y)); [|destruct (0 <? del); [|destruct (0 <? cre); [|intros Hx; right; by eapply IH]]].
  - specialize (IH (i + 1) del cre). destruct (rolloutSlots _ _ _ _ _ _ slots). cbn [snd] in *.
    intros [->|Hx]%elem_of_cons; [left|right; auto].
  - specialize (IH (i + 1) (del - 1) cre). destruct (rolloutSlots _ _ _ _ _ _ slots). cbn [snd] in *.
    intros [->|Hx]%elem_of_cons; [left|right; auto].
  - specialize (IH (i + 1) del (cre - 1)). destruct (rolloutSlots _ _ _ _ _ _ slots). cbn [snd] in *. right. auto.
Qed.

Lemma rolloutSlots_ready make i del cre slots :
  Z.of_nat (length (List.filter ready (rolloutSlots ready updated make i del cre slots).2)) ≤ Z.max 0 del.
Proof.
  revert i del cre. induction slots as [|[|y [|z slot]] slots IH]; intros i del cre; cbn [rolloutSlots];
    [simpl; lia|apply IH| |apply IH].
  destruct (updated y); [apply IH|]. destruct (ready y) eqn:Er; cbn [negb].
  - destruct (Z.ltb_spec 0 del); [|destruct (0 <? cre); [|apply IH]].
    + specialize (IH (i + 1) (del - 1) cre). destruct (rolloutSlots _ _ _ _ _ _ slots). cbn [snd List.filter] in *.
      rewrite Er. cbn [length]. lia.
    + specialize (IH (i + 1) del (cre - 1)). by destruct (rolloutSlots _ _ _ _ _ _ slots).
  - specialize (IH (i + 1) del cre). destruct (rolloutSlots _ _ _ _ _ _ slots). cbn [snd List.filter] in *. by rewrite Er.
Qed.
End SlotFacts.

(** ** The slots that serve. *)

Section Serving.
Context `{HA : RoleApi W} `{!PodTemplates} `{RoleCodec} `{SliceSort} {HS : PodStore} `{!SmallCluster}.
Context (rs : RoleSet) (role : RoleSpec) {HL : PodLaws rs role}.

Definition podIndex (p : RolePod) : option Z :=
  slotIndex (fun pod => pod.(rp_Annotations) !! RoleReplicaIndexAnnotationKey) (getRoleReplicas role) p.

(** How many slots have a pod that satisfies [f]. *)
Definition slotCount (f : RolePod → bool) (w : W) : Z :=
  Z.of_nat (length (List.filter (fun i =>
    existsb (fun p => bool_decide (ofRole rs role p) && bool_decide (podIndex p = Some i) && f p)
      (map_to_list (podsIn w)).*2) (seqZ 0 (getRoleReplicas role)))).

(** Of those, the ones that still have one that is left alone. *)
Definition slotsKept (f : RolePod → bool) (w1 w' : W) : Z :=
  slotCount (fun p => f p && notTouched rs role (podsIn w') p) w1.

Definition hasPod (f : RolePod → bool) (all : list RolePod) (i : Z) : bool :=
  existsb (fun p => bool_decide (podIndex p = Some i) && f p) all.

Lemma hasPod_spec f all i : hasPod f all i = true ↔ ∃ p, p ∈ all ∧ podIndex p = Some i ∧ f p = true.
Proof.
  unfold hasPod. rewrite existsb_exists. setoid_rewrite andb_true_iff. setoid_rewrite bool_decide_eq_true.
  by setoid_rewrite <- list_elem_of_In.
Qed.

Lemma listed_slots w1 all f : podsListed rs role w1 all →
  slotCount f w1 = Z.of_nat (length (List.filter (hasPod f all) (seqZ 0 (getRoleReplicas role)))).
Proof.
  intros [_ Hiff]. unfold slotCount. do 2 f_equal. apply List.filter_ext. intros i. apply eq_true_iff_eq.
  rewrite hasPod_spec, existsb_exists. setoid_rewrite andb_true_iff. setoid_rewrite andb_true_iff.
  setoid_rewrite bool_decide_eq_true. setoid_rewrite <- list_elem_of_In. split.
  - intros (p & [[k q] [-> Hkq%elem_of_map_to_list]]%list_elem_of_fmap & [Ho Hi] & Hf). cbn [snd] in *. exists q.
    split_and!; [|done|done]. apply Hiff. by rewrite (podsIn_key _ _ _ Hkq).
  - intros (p & [Hk Ho]%Hiff & Hi & Hf). exists p. split_and!; [|done|done|done]. apply list_elem_of_fmap.
    exists (podKeyOf p, p). split; [done|]. by apply elem_of_map_to_list.
Qed.

Lemma length_omap_le {A B} (h : A → option B) (l : list A) : (length (omap h l) ≤ length l)%nat.
Proof. induction l as [|x l IH]; csimpl; [done|]. destruct (h x); csimpl; lia. Qed.

Lemma slotsKept_bound f w1 w' all (T : list RolePod) : podsListed rs role w1 all →
  (∀ p, p ∈ all → f p = true → p ∉ T → notTouched rs role (podsIn w') p = true) →
  slotCount f w1 - Z.of_nat (length (List.filter f T)) ≤ slotsKept f w1 w'.
Proof.
  intros Hl Hk. unfold slotsKept. rewrite !(listed_slots w1 all) by done.
  set (g := fun p => f p && notTouched rs role (podsIn w') p). set (l := seqZ 0 (getRoleReplicas role)).
  assert (∀ i, hasPod g all i = true → hasPod f all i = true) as Hgf.
  { intros i (p & Hp & Hi & [Hf _]%andb_true_iff)%hasPod_spec. apply hasPod_spec. by exists p. }
  assert (length (List.filter (hasPod f all) l) = length (List.filter (hasPod g all) l) +
    length (List.filter (fun i => hasPod f all i && negb (hasPod g all i)) l))%nat as ->.
  { clearbody l. induction l as [|i l IH]; simpl; [done|]. specialize (Hgf i).
    destruct (hasPod f all i), (hasPod g all i); simpl; lia || by specialize (Hgf eq_refl). }
  cut (length (List.filter (fun i => hasPod f all i && negb (hasPod g all i)) l) ≤ length (List.filter f T))%nat; [lia|].
  etrans; [|apply (length_omap_le podIndex)]. apply submseteq_length, NoDup_submseteq.
  - apply filter_NoDup_list, NoDup_seqZ.
  - intros i [[(p & Hp & Hi & Hf)%hasPod_spec Hg%negb_true_iff]%andb_true_iff _]%elem_of_list_filter_bool.
    apply list_elem_of_omap. exists p. split; [|done]. apply elem_of_list_filter_bool. split; [done|].
    destruct (decide (p ∈ T)) as [|HT]; [done|]. apply not_true_iff_false in Hg. contradict Hg. apply hasPod_spec.
    exists p. split_and!; [done|done|]. unfold g. by rewrite Hf, Hk.
Qed.

Lemma slotsKept_self f w1 : (∀ p, f p = true → IsPodActive p = true) → slotsKept f w1 w1 = slotCount f w1.
Proof.
  intros Hf. unfold slotsKept, slotCount. do 2 f_equal. apply List.filter_ext. intros i.
  assert (∀ p, p ∈ (map_to_list (podsIn w1)).*2 → ofRole rs role p → f p = true → notTouched rs role (podsIn w1) p = true) as Ha.
  { intros p [[k q] [-> Hkq%elem_of_map_to_list]]%list_elem_of_fmap Ho Hfp. cbn [snd] in *.
    apply stored_alone; [by rewrite (podsIn_key _ _ _ Hkq)|done|auto]. }
  induction ((map_to_list (podsIn w1)).*2) as [|p l IH]; simpl; [done|]. rewrite IH by (intros; apply Ha; [by right|done..]).
  f_equal. specialize (Ha p ltac:(left)). case_bool_decide; [|done]. destruct (f p); [|done]. by rewrite Ha.
Qed.

(** A listing, and what is done with it. *)
Lemma listed_slotsKept {A} f B (k : result kubeError (list RolePod) → Run W A) w w' :
  (∀ p, f p = true → IsPodActive p = true) → (∀ e w1, visited (k (Err e)) w1 = []) →
  (∀ all w1 w', podsListed rs role w1 all → w' ∈ visited (k (Ok all)) w1 →
    Z.min (slotCount f w1) (B (slotCount f w1)) ≤ slotsKept f w1 w') →
  w' ∈ visited (getRolePods rs role ≫= k) w →
  let w1 := final (getRolePods rs role) w in Z.min (slotCount f w1) (B (slotCount f w1)) ≤ slotsKept f w1 w'.
Proof.
  intros Hf He Hk Hw' w1. destruct (getRolePods_listed rs role w) as (_ & Hv & Hl).
  rewrite visited_bind, Hv in Hw'. apply elem_of_app in Hw' as [->%list_elem_of_singleton|Hw'].
  - fold w1. rewrite (slotsKept_self f w1) by done. apply Z.le_min_l.
  - fold w1 in Hw'. destruct (value (getRolePods rs role) w) as [all|e]; [eapply Hk; [by apply Hl|done]|].
    rewrite He in Hw'. by apply elem_of_nil in Hw'.
Qed.

Lemma slotsKept_by_touch {A} (m : Run W A) f B w1 w' all T : podsListed rs role w1 all →
  (∀ p, f p = true → IsPodActive p = true) → touchesOnly rs role m w1 all T →
  Z.of_nat (length (List.filter f T)) ≤ Z.max 0 (slotCount f w1 - B) → w' ∈ visited m w1 →
  Z.min (slotCount f w1) B ≤ slotsKept f w1 w'.
Proof.
  intros Hl Hf Ht Hc Hw'. pose proof (slotsKept_bound f w1 w' all T Hl) as Hb. cut (slotCount f w1 -
    Z.of_nat (length (List.filter f T)) ≤ slotsKept f w1 w'); [lia|]. apply Hb. intros p Hp Hfp HpT.
  destruct (Ht p Hp HpT) as [Hv _]; [by eapply listed_alone; eauto|]. rewrite Forall_forall in Hv. by apply Hv.
Qed.
End Serving.

(** ** Stateful roles. *)

Section Stateful.
Context `{HA : RoleApi W} `{!PodTemplates} `{RoleCodec} `{SliceSort} {HS : PodStore} `{!SmallCluster}.
Context (rs : RoleSet) (role : RoleSpec) {HL : PodLaws rs role}.
Context (Hun : 0 ≤ roleMaxUnavailable role) (Hfits : getRoleReplicas role < 2 ^ 31).

Let leastReady : Z := getRoleReplicas role - roleMaxUnavailable role.
Let activeSlots (all : list RolePod) : list (list RolePod) := (podSlotForRole role (filterActivePods all).1).1.

Lemma slot_spec all slot : slot ∈ activeSlots all →
  ∃ i, slot = List.filter (fun p => bool_decide (podIndex role p = Some i)) (filterActivePods all).1.
Proof. intros (i & -> & _)%list_elem_of_fmap. by exists i. Qed.

Lemma slot_members all slot p : slot ∈ activeSlots all → p ∈ slot → p ∈ all ∧ IsPodActive p = true.
Proof.
  intros [i ->]%slot_spec [_ Hp]%elem_of_list_filter_bool. unfold filterActivePods, split in Hp. cbn [fst] in Hp.
  by apply elem_of_list_filter_bool in Hp as [? ?].
Qed.

Lemma filter_fmap_length {A B} (f : B → bool) (g : A → B) l :
  length (List.filter f (g <$> l)) = length (List.filter (fun x => f (g x)) l).
Proof. induction l as [|x l IH]; csimpl; [done|]. destruct (f (g x)); csimpl; congruence. Qed.

Lemma readySlotNum_spec w1 all : podsListed rs role w1 all →
  readySlotNum role all = slotCount rs role isActiveReady w1.
Proof.
  intros Hl. rewrite (listed_slots rs role w1 all) by done. unfold readySlotNum, podSlotForRole, slotsOf. cbn [fst].
  rewrite filter_fmap_length. do 2 f_equal. apply List.filter_ext. intros i. apply eq_true_iff_eq. rewrite hasPod_spec.
  unfold slotReady. rewrite negb_true_iff, bool_decide_eq_false. unfold filterReadyPods, split. cbn [fst]. split.
  - intros Hne. destruct (List.filter isActiveReady _) as [|p l] eqn:El; [done|]. exists p.
    assert (p ∈ p :: l) as Hp by left. rewrite <- El in Hp.
    apply elem_of_list_filter_bool in Hp as [Hr [Hi [_ Hp]%elem_of_list_filter_bool]%elem_of_list_filter_bool].
    split_and!; [done|by apply bool_decide_eq_true in Hi|done].
  - intros (p & Hp & Hi & Hr) Hnil. eapply (not_elem_of_nil p). rewrite <- Hnil. apply elem_of_list_filter_bool.
    split; [done|]. apply elem_of_list_filter_bool. split; [by apply bool_decide_eq_true|].
    apply elem_of_list_filter_bool. split; [by apply serving_active|done].
Qed.

Lemma outdatedInSlots_incl all hash : outdatedInSlots (isUpdatedTo hash) (activeSlots all) ⊆ all.
Proof.
  intros p (slot & Hp & Hs)%list_elem_of_bind. destruct slot as [|x [|]]; [by apply elem_of_nil in Hp| |by apply elem_of_nil in Hp].
  destruct (isUpdatedTo hash x); [by apply elem_of_nil in Hp|]. apply list_elem_of_singleton in Hp as ->.
  eapply proj1, slot_members; [exact Hs|]. left.
Qed.

Lemma countReady_app l k : countReady (l ++ k) = countReady l + countReady k.
Proof. unfold countReady. rewrite filter_length_app. lia. Qed.

(** The ready ones among them are in slots that serve, and in slots that are
    outdated. *)
Lemma countReady_outdatedInSlots (slots : list (list RolePod)) hash :
  (∀ slot p, slot ∈ slots → p ∈ slot → IsPodActive p = true) →
  countReady (outdatedInSlots (isUpdatedTo hash) slots) ≤ Z.of_nat (length (List.filter slotReady slots)) ∧
  countReady (outdatedInSlots (isUpdatedTo hash) slots) ≤
    Z.of_nat (length (List.filter (slotOutdated (isUpdatedTo hash)) slots)).
Proof.
  induction slots as [|slot slots IH]; intros Ha; [done|].
  change (outdatedInSlots ?u (slot :: slots)) with
    (match slot with [x] => if u x then [] else [x] | _ => [] end ++ outdatedInSlots u slots).
  rewrite countReady_app. cbn [List.filter].
  destruct IH as [IH1 IH2]; [intros s p Hs; apply Ha; by right|].
  assert (countReady [] = 0) as Hnil by done.
  assert (∀ s : list RolePod, 0 + countReady (outdatedInSlots (isUpdatedTo hash) slots) ≤
      Z.of_nat (length (if slotReady s then s :: List.filter slotReady slots else List.filter slotReady slots)) ∧
    ∀ u : bool, 0 + countReady (outdatedInSlots (isUpdatedTo hash) slots) ≤
      Z.of_nat (length (if u then s :: List.filter (slotOutdated (isUpdatedTo hash)) slots
                        else List.filter (slotOutdated (isUpdatedTo hash)) slots))) as Hnone.
  { intros s. split; [destruct (slotReady s)|intros []]; cbn [length]; lia. }
  destruct slot as [|x [|y slot]]; [rewrite Hnil; split; apply Hnone| |rewrite Hnil; split; apply Hnone].
  unfold slotOutdated at 1, slotHasNew. cbn [existsb]. rewrite orb_false_r.
  destruct (isUpdatedTo hash x); cbn [negb andb]; [rewrite Hnil; split; [apply Hnone|lia]|].
  rewrite countReady_cons, Hnil. assert (IsRolePodReady x = true → slotReady [x] = true) as Hr.
  { intros Hr. unfold slotReady, filterReadyPods, split, isActiveReady. simpl. by rewrite (Ha [x] x ltac:(left) ltac:(left)), Hr. }
  destruct (IsRolePodReady x); [rewrite (Hr eq_refl); cbn [length]; lia|]. destruct (slotReady [x]); cbn [length]; lia.
Qed.

Lemma statefulReplace_kept all del cre sel w1 w' : podsListed rs role w1 all →
  let outdated := outdatedInSlots (isUpdatedTo (ComputeHash (role_Template role))) (activeSlots all) in
  sel outdated ⊆ outdated → del ≤ slotCount rs role isActiveReady w1 - leastReady →
  countReady (sel outdated) - 2 ^ 31 ≤ del < 2 ^ 31 →
  w' ∈ visited (statefulReplace rs role (activeSlots all) del cre sel) w1 →
  Z.min (slotCount rs role isActiveReady w1) leastReady ≤ slotsKept rs role isActiveReady w1 w'.
Proof.
  intros Hl outdated Hsel Hdel Hrange. unfold statefulReplace. cbv zeta.
  match goal with |- context [rolloutSlots ?r ?u ?m ?i ?d ?c ?s] =>
    pose proof (rolloutSlots_ready r u m i d c s) as Hc; pose proof (rolloutSlots_single r u m i d c s) as Hi;
    destruct (rolloutSlots r u m i d c s) as [create T] end. cbn [snd] in *.
  assert (w' ∈ visited (applyRollout role create T) w1 →
    Z.min (slotCount rs role isActiveReady w1) leastReady ≤ slotsKept rs role isActiveReady w1 w') as Hr.
  { intros Hw'. eapply slotsKept_by_touch with (T := T);
      [exact Hl|apply serving_active|apply (applyRollout_touches rs role); [exact Hl|]| |exact Hw'].
    - intros p Hp%Hi. eapply proj1, slot_members; [exact Hp|left].
    - etrans; [apply countReady_serving|]. etrans; [exact Hc|]. unfold leastReady in *. lia. }
  destruct (bool_decide _); [|exact Hr]. destruct (canRolloutPodsInPlace _ _ _ _); [exact Hr|].
  destruct (rolloutPodsInPlace_touches rs role (sel outdated) (ComputeHash (role_Template role)) del w1 all)
    as (T' & HT & Hc' & Ht); [done|pose proof (outdatedInSlots_incl all (ComputeHash (role_Template role))); set_solver|done|].
  rewrite visited_bind. cbn. rewrite app_nil_r.
  intros Hw'. eapply slotsKept_by_touch with (T := T'); [exact Hl|apply serving_active|exact Ht| |exact Hw'].
  etrans; [apply countReady_serving|]. lia.
Qed.

Lemma slots_bounds w1 all : podsListed rs role w1 all →
  let outdated := outdatedInSlots (isUpdatedTo (ComputeHash (role_Template role))) (activeSlots all) in
  let outdatedTotal := (updatedSlotNum role all).2 in
  0 ≤ slotCount rs role isActiveReady w1 ≤ getRoleReplicas role ∧ 0 ≤ outdatedTotal ≤ getRoleReplicas role ∧
  countReady outdated ≤ slotCount rs role isActiveReady w1 ∧ countReady outdated ≤ outdatedTotal.
Proof.
  intros Hl outdated outdatedTotal. rewrite <- (readySlotNum_spec w1 all Hl). unfold readySlotNum.
  destruct (countReady_outdatedInSlots (activeSlots all) (ComputeHash (role_Template role))) as [Hr Ho].
  { intros slot p Hs Hp. by eapply slot_members. }
  assert (length (activeSlots all) = Z.to_nat (getRoleReplicas role)) as Hn.
  { unfold activeSlots, podSlotForRole, slotsOf. cbn [fst]. by rewrite length_fmap, length_seqZ. }
  pose proof (fun f => sublist_length _ _ (sublist_filter_list f (activeSlots all))) as Hf.
  pose proof (Hf slotReady). pose proof (Hf (slotOutdated (isUpdatedTo (ComputeHash (role_Template role))))).
  pose proof (getRoleReplicas_nonneg role).
  unfold outdatedTotal, updatedSlotNum, countSlots. cbv zeta. cbn [snd]. fold (activeSlots all).
  rewrite wrap32_id by (unfold in_int32; lia). fold outdated in Hr, Ho. split_and!; lia.
Qed.

Lemma statefulRollout_kept w w' : w' ∈ visited (statefulRollout rs role) w →
  let w1 := final (getRolePods rs role) w in
  Z.min (slotCount rs role isActiveReady w1) leastReady ≤ slotsKept rs role isActiveReady w1 w'.
Proof.
  apply (listed_slotsKept rs role isActiveReady (fun _ => leastReady)); [apply serving_active|done|]. intros all w1 w2 Hl. cbv zeta.
  pose proof (slots_bounds w1 all Hl) as (Hs & _ & Hc & _). pose proof (roleMaxUnavailable_le role).
  rewrite (readySlotNum_spec w1 all Hl), (wrap32_id (_ - _ + _)) by (unfold in_int32; lia).
  apply statefulReplace_kept; [done|done|unfold leastReady; lia|]. cbn [id]. unfold leastReady in *. lia.
Qed.

Lemma statefulRolloutByStep_kept step w w' : 0 ≤ updatedByStep role step →
  w' ∈ visited (statefulRolloutByStep rs role step) w →
  let w1 := final (getRolePods rs role) w in
  Z.min (slotCount rs role isActiveReady w1) leastReady ≤ slotsKept rs role isActiveReady w1 w'.
Proof.
  intros Hstep. apply (listed_slotsKept rs role isActiveReady (fun _ => leastReady)); [apply serving_active|done|].
  intros all w1 w2 Hl. cbv zeta. pose proof (slots_bounds w1 all Hl) as (Hs & Ht & Hc & Hc'). pose proof (roleMaxUnavailable_le role).
  assert (updatedByStep role step ≤ getRoleReplicas role) as Heu by (unfold updatedByStep, MinInt32; case_match; lia).
  destruct (updatedSlotNum role all) as [[u r] o]. cbn [snd] in *.
  rewrite (readySlotNum_spec w1 all Hl), (wrap32_id (slotCount _ _ _ _ - _ + _)), (wrap32_id (o - _ + _)) by (unfold in_int32; lia).
  match goal with |- context [selectInPlaceOutdatedPodsForStep ?h ?n] =>
    assert (∀ l, sublist (selectInPlaceOutdatedPodsForStep h n l) l) as Hsel by (intros; apply selectInPlace_sublist) end.
  apply statefulReplace_kept; [done| |unfold leastReady, MinInt32; case_match; lia|].
  - intros p Hp. eapply elem_of_submseteq; [exact Hp|]. apply sublist_submseteq, Hsel.
  - match goal with |- countReady (selectInPlaceOutdatedPodsForStep _ _ ?l) - _ ≤ _ < _ =>
      pose proof (countReady_submseteq _ _ (sublist_submseteq _ _ (Hsel l))) end.
    unfold MinInt32. case_match; lia.
Qed.

(** A scaling takes no slot's last ready pod. *)
Lemma scaled_slot_keeps all i p make budget rest : NoDup all → p ∈ all → isActiveReady p = true → podIndex role p = Some i →
  ∃ q, q ∈ all ∧ isActiveReady q = true ∧ podIndex role q = Some i ∧
    q ∉ (filterTerminatingPods (filterActivePods all).2).2 ++ (podSlotForRole role (filterActivePods all).1).2 ++
        (scaleSlots isActiveReady (isUpdatedTo (ComputeHash (role_Template role))) make rest budget (activeSlots all)).2.
Proof.
  intros Hnd Hp Hr Hi. set (slot := List.filter (fun p => bool_decide (podIndex role p = Some i)) (filterActivePods all).1).
  assert (∀ x, x ∈ slot ↔ x ∈ all ∧ IsPodActive x = true ∧ podIndex role x = Some i) as Hslot.
  { intros x. unfold slot. rewrite elem_of_list_filter_bool, bool_decide_eq_true. unfold filterActivePods, split. cbn [fst].
    rewrite elem_of_list_filter_bool. tauto. }
  destruct (surplusOfSlot_keeps isActiveReady (isUpdatedTo (ComputeHash (role_Template role))) slot p) as (q & Hq & Hrq & Hnq).
  - unfold slot. do 2 apply filter_NoDup_list. done.
  - apply Hslot. split_and!; [done|by apply serving_active|done].
  - done.
  - apply Hslot in Hq as (Hqa & Hact & Hqi). exists q. split_and!; [done|done|done|]. rewrite !elem_of_app. intros [Hf|[Hf|Hf]].
    + unfold filterTerminatingPods, filterActivePods, split in Hf. cbn [snd] in Hf.
      apply elem_of_list_filter_bool in Hf as [_ [Hf _]%elem_of_list_filter_bool]. by rewrite Hact in Hf.
    + unfold podSlotForRole, slotsOf in Hf. cbn [snd] in Hf. apply elem_of_list_filter_bool in Hf as [Hf%bool_decide_eq_true _].
      unfold podIndex in Hqi. congruence.
    + apply scaleSlots_surplus in Hf as (s & [j ->]%slot_spec & Hf).
      assert (j = i) as ->; [|done]. apply surplusOfSlot_incl, elem_of_list_filter_bool in Hf as [Hf%bool_decide_eq_true _]. congruence.
Qed.

(** What a scaling of slots gives up was listed. *)
Lemma statefulScale_incl (all : list RolePod) ready updated make i budget :
  let active := (filterActivePods all).1 in
  (filterTerminatingPods (filterActivePods all).2).2 ++ (podSlotForRole role active).2 ++
    (scaleSlots ready updated make i budget (podSlotForRole role active).1).2 ⊆ all.
Proof.
  intros active q [Hq|[Hq|Hq]%elem_of_app]%elem_of_app; [by apply ended_incl|apply active_incl|].
  - unfold podSlotForRole, slotsOf in Hq. cbn [snd] in Hq. by apply elem_of_list_filter_bool in Hq as [_ ?].
  - apply scaleSlots_surplus in Hq as (slot & Hs & Hin%surplusOfSlot_incl). by eapply slot_members.
Qed.
Lemma filter_length_mono {A} (f g : A → bool) l : (∀ x, f x = true → g x = true) →
  (length (List.filter f l) ≤ length (List.filter g l))%nat.
Proof.
  intros Hfg. induction l as [|x l IH]; simpl; [done|]. specialize (Hfg x).
  destruct (f x), (g x); simpl; lia || by specialize (Hfg eq_refl).
Qed.

Lemma statefulScale_kept w w' : let cleanup := cleanupOrphanPodSets rs role in
  let w1 := final (getRolePods rs role) (final cleanup w) in
  w' ∈ visited (statefulScale rs role) w →
  w' ∈ visited cleanup w ∨ slotCount rs role isActiveReady w1 ≤ slotsKept rs role isActiveReady w1 w'.
Proof.
  intros cleanup w1. unfold statefulScale, afterCleanup. fold cleanup. rewrite visited_bind. intros [Hw'|Hw']%elem_of_app; [by left|right].
  revert Hw'. destruct (value cleanup w) as [[] []]; try (intros Hw'; by apply elem_of_nil in Hw'). unfold w1. clear w1.
  generalize (final cleanup w) as w0. intros w0 Hw'. set (n := slotCount _ _ _ _).
  cut (Z.min n (id n) ≤ slotsKept rs role isActiveReady (final (getRolePods rs role) w0) w'); [cbn [id]; lia|].
  revert Hw'. apply (listed_slotsKept rs role isActiveReady id); [apply serving_active|done|]. clear n w w' w0 cleanup.
  intros all w1 w' Hl. pose proof (scaled_slot_keeps all) as Hkeep. pose proof (statefulScale_incl all) as HT.
  cbv zeta in HT. unfold activeSlots in Hkeep.
  destruct (filterActivePods all) as [active inactive]. cbn [fst snd] in *.
  destruct (filterTerminatingPods inactive) as [terminating ended]. cbn [fst snd] in *.
  destruct (podSlotForRole role active) as [slots none]. cbn [fst snd] in *. cbv zeta.
  match goal with |- context [scaleSlots ?r ?u ?m ?i ?b ?s] =>
    specialize (fun j p => Hkeep j p m b i); specialize (HT r u m i b);
    destruct (scaleSlots r u m i b s) as [create surplus] end. cbn [fst snd] in *. intros Hw'.
  cbn [id]. rewrite Z.min_id. unfold slotsKept. rewrite !(listed_slots rs role w1 all) by done.
  apply inj_le, filter_length_mono. intros i (p & Hp & Hi & Hr)%hasPod_spec. apply hasPod_spec.
  destruct (Hkeep i p) as (q & Hq & Hrq & Hiq & Hnq); [by eapply listed_NoDup|done|done|done|].
  exists q. split_and!; [done|done|]. rewrite Hrq. cbn [andb].
  destruct (applyScale_touches rs role active create _ w1 all Hl HT q Hq Hnq) as [Hv _];
    [eapply listed_alone; [exact Hl|done|by apply serving_active]|]. rewrite Forall_forall in Hv. by apply Hv.
Qed.
End Stateful.

(** C16: What a stateful role keeps available.  At every moment of a rollout, or
    of a step of one, of the slots that had a ready pod when the role's pods
    were listed at least as many have one that is left alone as there were or
    as the replicas less maxUnavailable come to.  A scaling leaves a ready pod
    alone in every slot that had one, surplus pods or not.  The number of
    replicas to be updated by a step has not overflowed. *)
Theorem stateful_role_keeps_slots `{RoleApi W} `{!PodTemplates} `{RoleCodec} `{SliceSort} `{!PodStore} `{!SmallCluster}
    rs role `{!PodLaws rs role} w w' step :
  0 ≤ roleMaxUnavailable role → getRoleReplicas role < 2 ^ 31 → 0 ≤ updatedByStep role step →
  let least := getRoleReplicas role - roleMaxUnavailable role in
  let listed := final (getRolePods rs role) w in
  let cleanup := cleanupOrphanPodSets rs role in
  let listed' := final (getRolePods rs role) (final cleanup w) in
  (w' ∈ visited (statefulRollout rs role) w ++ visited (statefulRolloutByStep rs role step) w →
    Z.min (slotCount rs role isActiveReady listed) least ≤ slotsKept rs role isActiveReady listed w') ∧
  (w' ∈ visited (statefulScale rs role) w → w' ∈ visited cleanup w ∨
    slotCount rs role isActiveReady listed' ≤ slotsKept rs role isActiveReady listed' w').
Proof.
  intros Hun Hfits Hstep. cbv zeta. split.
  - intros [Hw'|Hw']%elem_of_app; [by apply statefulRollout_kept|by eapply statefulRolloutByStep_kept].
  - by apply statefulScale_kept.
Qed.
