(* ===== verification/RollingFacts.v ===== *)
(** * The order a RoleSet's roles are rolled out in.

    Under the sequential strategy a role is rolled out only once those before
    it are done: they have as many pods as they ask for, all of them ready and
    of the current template.  Under the interleaved one a role that replaces
    its pods one by one waits at its first step for as long as a pod of the
    old template is not ready. *)

From S2P Require Import Prelude Api Claims Ledger KVPlan Placement Reservations Runtime Storm StormSync StormFacts PodTypes RolePods RoleRender PodDrain InPlace RoleSync PodSetSync Rolling PodLaws RoleSurge RoleAvail SlotAvail.

(** ** The order of upgrades. *)

#[export] Instance upgradesBefore_weak `{K8sApps} : StrictWeak upgradesBefore.
Proof.
  split; unfold upgradesBefore.
  - intros a b. destruct (role_UpgradeOrder a), (role_UpgradeOrder b); rewrite ?Z.ltb_lt, ?Z.ltb_ge; try done; lia.
  - intros a b c. destruct (role_UpgradeOrder a), (role_UpgradeOrder b), (role_UpgradeOrder c); rewrite ?Z.ltb_ge; try done; lia.
Qed.

#[export] Instance RoleDrainSpec_eq_dec : EqDecision RoleDrainSpec.
Proof. solve_decision. Defined.
#[export] Instance Volcano_eq_dec `{K8sApps} : EqDecision VolcanoSchedulingStrategySpec.
Proof. solve_decision. Defined.
#[export] Instance SchedulingStrategy_eq_dec `{K8sApps} : EqDecision SchedulingStrategy.
Proof. solve_decision. Defined.
#[export] Instance RoleSpec_eq_dec `{K8sApps} : EqDecision RoleSpec.
Proof. solve_decision. Defined.

(** ** A role that is done. *)

Section Done.
Context `{HA : RoleApi W} `{!PodTemplates} `{RoleCodec} `{SliceSort} {HS : PodStore}.
Context (rs : RoleSet) (role : RoleSpec) {HL : PodLaws rs role}.

Definition updatedReady (p : RolePod) : bool :=
  isActiveReady p && isUpdatedTo (ComputeHash role.(role_Template)) p.

(** It has the pods it asks for and no others, all ready and of its template,
    and one in each slot where it has slots. *)
Definition roleDone (w : W) : Prop :=
  roleCount rs role (fun _ => true) w = getRoleReplicas role ∧
  roleCount rs role updatedReady w = getRoleReplicas role ∧
  (role.(role_Stateful) = true → slotCount rs role updatedReady w = getRoleReplicas role).

Lemma split_all {A} (f : A → bool) (l : list A) : (split f l).2 = [] → (split f l).1 = l ∧ Forall (fun x => f x = true) l.
Proof.
  unfold split. cbn [fst snd]. induction l as [|x l IH]; [done|]. cbn [List.filter]. destruct (f x) eqn:E; cbn [negb]; [|done].
  intros [-> Hl]%IH. split; [done|by constructor].
Qed.

(** What both kinds of role look at. *)
Lemma all_updated all :
  (filterActivePods all).2 = [] → (filterReadyPods (filterActivePods all).1).2 = [] →
  (filterUpdatedPods (filterReadyPods (filterActivePods all).1).1 (ComputeHash (role_Template role))).2 = [] →
  (filterUpdatedPods (filterReadyPods (filterActivePods all).1).1 (ComputeHash (role_Template role))).1 = all ∧
  Forall (fun p => updatedReady p = true) all.
Proof.
  intros Ha Hr Hu. unfold filterActivePods, filterReadyPods, filterUpdatedPods in *.
  apply split_all in Ha as [Ea _]. rewrite Ea in *. apply split_all in Hr as [Er Hr]. rewrite Er in *.
  apply split_all in Hu as [Eu Hu]. split; [done|]. unfold updatedReady. rewrite Forall_forall in *. intros p Hp.
  by rewrite (Hr p Hp), (Hu p Hp).
Qed.

Lemma statelessComplete_done w1 all : podsListed rs role w1 all → role_Stateful role = false →
  statelessComplete role all = true → roleDone w1.
Proof.
  intros Hl Hs. unfold statelessComplete. pose proof (all_updated all) as Hall.
  destruct (filterActivePods all) as [active inactive]. cbn [fst snd] in *.
  destruct (filterReadyPods active) as [ready notReady]. cbn [fst snd] in *.
  destruct (filterUpdatedPods ready _) as [updated outdated]. cbn [fst snd] in *.
  intros [[[->%bool_decide_eq_true ->%bool_decide_eq_true]%andb_true_iff ->%bool_decide_eq_true]%andb_true_iff Hn%Z.eqb_eq]%andb_true_iff.
  destruct Hall as [-> Hup]; [done..|]. unfold roleDone. rewrite !(listed_count rs role w1 all) by done.
  rewrite !filter_all by (done || by apply Forall_forall). split_and!; [done|done|congruence].
Qed.

(** One pod in each slot, and none outside. *)
Lemma single_slots l : NoDup l → (podSlotForRole role l).2 = [] → forallb isSingle (podSlotForRole role l).1 = true →
  podIndex role <$> l ≡ₚ Some <$> seqZ 0 (getRoleReplicas role).
Proof.
  intros Hnd Hnone Hone. unfold podSlotForRole, slotsOf in *. cbn [fst snd] in *.
  assert (∀ p, p ∈ l → ∃ i, podIndex role p = Some i ∧ i ∈ seqZ 0 (getRoleReplicas role)) as Hin.
  { intros p Hp. destruct (podIndex role p) as [i|] eqn:E.
    - exists i. split; [done|]. unfold podIndex, slotIndex in E. destruct (_ !! _) as [t|]; [|done]. cbn in E.
      destruct (parseInt t) as [z|]; [|done]. cbn in E. destruct (_ || _) eqn:Eb; [done|]. injection E as <-.
      apply orb_false_iff in Eb as [?%Z.ltb_ge ?%Z.leb_gt]. apply elem_of_seqZ. lia.
    - exfalso. eapply (not_elem_of_nil p). rewrite <- Hnone. apply elem_of_list_filter_bool. split; [by apply bool_decide_eq_true|done]. }
  assert (∀ i, i ∈ seqZ 0 (getRoleReplicas role) → ∃ x, ∀ p, p ∈ l ∧ podIndex role p = Some i ↔ p = x) as Hslot.
  { intros i Hi. rewrite forallb_forall in Hone.
    specialize (Hone (List.filter (fun p => bool_decide (podIndex role p = Some i)) l)).
    assert (isSingle (List.filter (fun p => bool_decide (podIndex role p = Some i)) l) = true) as Hs.
    { apply Hone, list_elem_of_In, list_elem_of_fmap. by exists i. }
    destruct (List.filter (fun p =>
      bool_decide (podIndex role p = Some i)) l) as [|x [|]] eqn:E; [done| |done]. exists x. intros p. rewrite <- (list_elem_of_singleton p x), <- E.
    rewrite elem_of_list_filter_bool, bool_decide_eq_true. tauto. }
  apply NoDup_Permutation.
  - apply NoDup_fmap_2_strong; [|done]. intros x y Hx Hy Hxy. destruct (Hin x Hx) as (i & Ei & Hi).
    destruct (Hslot i Hi) as [z Hz]. transitivity z; [by apply Hz|symmetry; apply Hz]. split; [done|congruence].
  - apply NoDup_fmap_2; [congruence|apply NoDup_seqZ].
  - intros o. rewrite !list_elem_of_fmap. split.
    + intros (p & -> & Hp). destruct (Hin p Hp) as (i & Ei & Hi). by exists i.
    + intros (i & -> & Hi). destruct (Hslot i Hi) as [x Hx]. exists x. destruct (proj2 (Hx x) eq_refl). done.
Qed.

Lemma statefulComplete_done w1 all : podsListed rs role w1 all → statefulComplete role all = true → roleDone w1.
Proof.
  intros Hl. unfold statefulComplete. pose proof (all_updated all) as Hall.
  destruct (filterActivePods all) as [active inactive]. cbn [fst snd] in *.
  destruct (filterReadyPods active) as [ready notReady]. cbn [fst snd] in *.
  destruct (filterUpdatedPods ready _) as [updated outdated]. cbn [fst snd] in *.
  destruct (podSlotForRole role updated) as [slots none] eqn:Es.
  intros [[[[->%bool_decide_eq_true ->%bool_decide_eq_true]%andb_true_iff ->%bool_decide_eq_true]%andb_true_iff
    ->%bool_decide_eq_true]%andb_true_iff Hone]%andb_true_iff.
  destruct Hall as [-> Hup]; [done..|]. pose proof (single_slots all (listed_NoDup rs role w1 all Hl)) as Hp. rewrite Es in Hp.
  specialize (Hp eq_refl Hone). pose proof (getRoleReplicas_nonneg role).
  assert (Z.of_nat (length all) = getRoleReplicas role) as Hn.
  { apply Permutation_length in Hp. rewrite !length_fmap, length_seqZ in Hp. lia. }
  unfold roleDone. rewrite !(listed_count rs role w1 all) by done.
  rewrite !filter_all by (done || by apply Forall_forall). split_and!; [done|done|]. intros _.
  rewrite (listed_slots rs role w1 all) by done. rewrite filter_all, length_seqZ; [lia|]. intros i Hi.
  apply hasPod_spec. assert (Some i ∈ podIndex role <$> all) as (p & Ep & Hpa)%list_elem_of_fmap.
  { rewrite Hp. apply list_elem_of_fmap. by exists i. }
  exists p. rewrite Forall_forall in Hup. split_and!; [done|done|by apply Hup].
Qed.
End Done.

(** ** One role after the other. *)

Section InOrder.
Context `{K8s} `{K8sApps} {W : Type} (syncerOf : RoleSpec → RoleRollingSyncer W) (rs : RoleSet).

(** A moment of [m] run from [w] after which the role said it was done. *)
Definition saidDone {A} (role : RoleSpec) (m : Run W A) (w : W) : Prop :=
  ∃ x, value (sync_AllReady (syncerOf role) rs role) x = Ok true ∧
       ∀ y, y ∈ visited (sync_AllReady (syncerOf role) rs role) x → y ∈ visited m w.

Lemma saidDone_bind {A B} role (m : Run W A) (k : A → Run W B) w :
  saidDone role m w ∨ saidDone role (k (value m w)) (final m w) → saidDone role (m ≫= k) w.
Proof.
  intros [(x & Hx & Hv)|(x & Hx & Hv)]; exists x; (split; [done|]); intros y Hy%Hv; rewrite visited_bind; set_solver.
Qed.

(** The roles after [pre] are not reached, or all of [pre] are done. *)
Lemma rolloutInOrder_app result pre rest w :
  rolloutInOrder syncerOf rs result (pre ++ rest) w = rolloutInOrder syncerOf rs result pre w ∨
  ∀ role, role ∈ pre → saidDone role (rolloutInOrder syncerOf rs result (pre ++ rest)) w.
Proof.
  revert result w. induction pre as [|role pre IH]; intros result w; [by right; intros ? ?%elem_of_nil|].
  cbn [app rolloutInOrder]. set (roll := sync_Rollout (syncerOf role) rs role).
  destruct (value roll w).2 as [e|] eqn:Er.
  { left. unfold mbind, run_bind. unfold value in Er. destruct (roll w) as [[t w1] r]. cbn in Er. by rewrite Er. }
  set (ready := sync_AllReady (syncerOf role) rs role). destruct (value ready (final roll w)) as [[]|e] eqn:Ea.
  - destruct (IH (mergeResult result (value roll w).1) (final ready (final roll w))) as [Heq|Hd].
    + left. unfold mbind, run_bind. unfold value, final in *. destruct (roll w) as [[t w1] r]. cbn in *. rewrite Er. cbn in *.
      destruct (ready w1) as [[t2 w2] r2]. cbn in *. rewrite Ea. by rewrite Heq.
    + right. intros x Hx. apply saidDone_bind. right. rewrite Er. cbv zeta. apply saidDone_bind. rewrite Ea.
      apply elem_of_cons in Hx as [->|Hx]; [left|right; by apply Hd]. exists (final roll w). done.
  - left. unfold mbind, run_bind. unfold value, final in *. destruct (roll w) as [[t w1] r]. cbn in *. rewrite Er. cbn in *.
    destruct (ready w1) as [[t2 w2] r2]. cbn in *. by rewrite Ea.
  - left. unfold mbind, run_bind. unfold value, final in *. destruct (roll w) as [[t w1] r]. cbn in *. rewrite Er. cbn in *.
    destruct (ready w1) as [[t2 w2] r2]. cbn in *. by rewrite Ea.
Qed.

(** What is upgraded before a role comes before it. *)
Lemma upgradeOrder_before roles earlier later : earlier ∈ roles → later ∈ roles → upgradesBefore earlier later = true →
  ∃ pre rest, sortRolesByUpgradeOrder roles = pre ++ rest ∧ earlier ∈ pre ∧ (later ∉ pre).
Proof.
  intros He Hl Hb. unfold sortRolesByUpgradeOrder. pose proof (sortBy_sorted upgradesBefore roles) as Hs.
  rewrite <- (elem_of_sortBy upgradesBefore) in He, Hl. revert Hs He Hl. generalize (sortBy upgradesBefore roles). intros l Hs He Hl.
  destruct (list_elem_of_split_l _ _ Hl) as (pre & rest & -> & Hn). exists pre, (later :: rest). split_and!; [done| |done].
  apply elem_of_app in He as [He|[->|He]%elem_of_cons]; [done| |]; exfalso.
  - apply (less_asym (less := upgradesBefore)) in Hb as Hb'. congruence.
  - apply StronglySorted_app_1_r in Hs. apply StronglySorted_inv in Hs as [_ Hs]. rewrite Forall_forall in Hs.
    specialize (Hs earlier He). unfold notAfter in Hs. congruence.
Qed.
End InOrder.

Lemma AllReady_done `{RoleApi W} `{!PodTemplates} `{RoleCodec} `{SliceSort} `{!PodStore} rs role `{!PodLaws rs role} w :
  usesPodSets role = false → value (sync_AllReady (GetRoleSyncer role) rs role) w = Ok true →
  ∃ x, x ∈ visited (sync_AllReady (GetRoleSyncer role) rs role) w ∧ roleDone rs role x.
Proof.
  intros Hu Hv. exists (final (getRolePods rs role) w). destruct (getRolePods_listed rs role w) as (_ & Hvis & Hl).
  unfold GetRoleSyncer in *. rewrite Hu in *. destruct (role_Stateful role) eqn:Hs;
    unfold StatefulRoleSyncer, StatelessRoleSyncer, sync_AllReady, statefulAllReady, statelessAllReady in *;
    rewrite visited_bind, Hvis; (split; [set_solver|]); rewrite value_bind in Hv;
    (destruct (value (getRolePods rs role) w) as [all|e]; [|done]); cbn in Hv; injection Hv as Hv.
  - by eapply statefulComplete_done; [apply Hl|].
  - by eapply statelessComplete_done; [apply Hl|..].
Qed.


(** ** Step by step. *)

Section Stall.
Context `{HA : RoleApi W} `{!PodTemplates} `{RoleCodec} `{SliceSort}.
Context (role : RoleSpec).

Lemma split_none {A} (f : A → bool) (l : list A) : Forall (fun x => f x = false) l → split f l = ([], l).
Proof. unfold split. induction 1 as [|x l Hx _ IH]; simpl; [done|]. rewrite Hx. simpl. by injection IH as -> ->. Qed.

Lemma split_every {A} (f : A → bool) (l : list A) : Forall (fun x => f x = true) l → split f l = (l, []).
Proof. unfold split. induction 1 as [|x l Hx _ IH]; simpl; [done|]. rewrite Hx. simpl. by injection IH as -> ->. Qed.

(** Every pod active, and of an old template. *)
Definition oldPods (all : list RolePod) : Prop :=
  Forall (fun p => IsPodActive p = true ∧ isUpdatedTo (ComputeHash role.(role_Template)) p = false) all.

Lemma oldPods_split all : oldPods all → filterActivePods all = (all, []) ∧
  ∀ l, l ⊆ all → filterUpdatedPods l (ComputeHash (role_Template role)) = ([], l).
Proof.
  unfold oldPods. rewrite Forall_forall. intros Ho. split.
  - apply split_every, Forall_forall. intros p Hp. by apply Ho.
  - intros l Hl. apply split_none, Forall_forall. intros p Hp. by apply Ho, Hl.
Qed.

(** (0 - 1) / 1 + 1 is 0. *)
Lemma currentStepOf_first n : 0 ≤ n < 2 ^ 31 → currentStepOf 1 0 0 n n false = 0.
Proof.
  intros Hn. unfold currentStepOf. change (wrap32 (Z.quot (wrap32 (0 - 1)) 1 + 1)) with 0. cbv zeta.
  change (wrap32 (0 * 1)) with 0. change (wrap32 (1 * 0)) with 0. rewrite Z.sub_0_r, wrap32_id by (unfold in_int32; lia).
  by rewrite !Z.ltb_irrefl.
Qed.

Lemma statelessStep_old all : oldPods all → stepLength role = 1 → Z.of_nat (length all) = getRoleReplicas role →
  getRoleReplicas role < 2 ^ 31 → existsb (fun p => negb (IsRolePodReady p)) all = true → statelessStep role all = (false, 0).
Proof.
  intros Ho Hstep Hn Hfit Hr. destruct (oldPods_split all Ho) as [Ea Eu]. unfold statelessStep. rewrite Ea.
  destruct (filterReadyPods all) as [ready notReady] eqn:Er.
  assert (ready ⊆ all) as Hs.
  { intros p. unfold filterReadyPods, split in Er. injection Er as <- _. by intros [_ ?]%elem_of_list_filter_bool. }
  assert (notReady ≠ []) as Hne.
  { apply existsb_exists in Hr as (p & Hp%list_elem_of_In & Hp'). intros ->. eapply (not_elem_of_nil p).
    unfold filterReadyPods, split in Er. injection Er as _ <-. apply elem_of_list_filter_bool. split; [|done].
    unfold isActiveReady. apply negb_true_iff in Hp'. by rewrite Hp', andb_false_r. }
  rewrite (Eu ready Hs), (Eu all (fun p Hp => Hp)), (bool_decide_false (notReady = [])) by done. rewrite andb_false_r. cbn [andb]. f_equal.
  unfold int32Of. rewrite Hstep, Hn, !(wrap32_id (getRoleReplicas role)) by (unfold in_int32; lia).
  apply currentStepOf_first. lia.
Qed.

Lemma updatedByStep_0 : updatedByStep role 0 = 0.
Proof.
  unfold updatedByStep, MinInt32. rewrite Z.mul_0_r, wrap32_id by (unfold in_int32; lia).
  pose proof (getRoleReplicas_nonneg role). destruct (Z.ltb_spec 0 (getRoleReplicas role)); lia.
Qed.
End Stall.

(** A rollout in steps that does not begin.  A stateless role that may
    replace one pod at a time, and whose pods are all of an old template, is
    at step 0 while one of them is not ready, and step 0 does nothing: the
    pods are listed and nothing is created, deleted or updated, however often
    the step is tried. *)
Theorem interleaved_rollout_stalls `{RoleApi W} `{!PodTemplates} `{RoleCodec} `{SliceSort} rs role all w :
  oldPods role all → stepLength role = 1 → Z.of_nat (length all) = getRoleReplicas role →
  getRoleReplicas role < 2 ^ 31 → existsb (fun p => negb (IsRolePodReady p)) all = true →
  value (getRolePods rs role) w = Ok all →
  value (statelessCheckCurrentStep rs role) w = Ok (false, 0) ∧
  visited (statelessRolloutByStep rs role 0) w = visited (getRolePods rs role) w ∧
  value (statelessRolloutByStep rs role 0) w = (noResult, None).
Proof.
  intros Ho Hstep Hn Hfit Hr Hv. pose proof (getRoleReplicas_nonneg role) as Hpos. split_and!.
  - unfold statelessCheckCurrentStep. rewrite value_bind, Hv. cbn. by rewrite (statelessStep_old role all).
  - unfold statelessRolloutByStep. rewrite visited_bind, Hv. cbv zeta. destruct (oldPods_split role all Ho) as [-> Eu]. cbn [fst].
    rewrite (Eu all (fun p Hp => Hp)). rewrite (updatedByStep_0 role). cbn. by rewrite app_nil_r.
  - unfold statelessRolloutByStep. rewrite value_bind, Hv. cbv zeta. destruct (oldPods_split role all Ho) as [-> Eu]. cbn [fst].
    rewrite (Eu all (fun p Hp => Hp)). by rewrite (updatedByStep_0 role).
Qed.
