(* ===== verification/DrainFacts.v ===== *)
(** * Pods are drained before they are deleted.

    A role with a drain timeout deletes a running pod only after the pod was
    marked, and the timeout has passed since the time in the mark.  A rollout
    spares only the ready ones: the others go at once. *)

From S2P Require Import Prelude Api Claims Ledger KVPlan Placement Reservations Rfc3339 Runtime Storm StormSync StormFacts PodTypes RolePods RoleRender PodDrain InPlace RoleSync PodSetSync Rolling PodLaws RoleSurge RoleAvail SlotAvail.

(** ** A pod that stands. *)

Section Stands.
Context `{HA : RoleApi W} {HS : PodStore}.
Context (rs : RoleSet) (role : RoleSpec) {HL : PodLaws rs role} (k : NamespacedName).

(** There, of the role and not deleted. *)
Definition standsIn (m : gmap NamespacedName RolePod) : Prop :=
  ∃ p, m !! k = Some p ∧ ofRole rs role p ∧ rp_DeletionTimestamp p = None.

Definition stands (w : W) : Prop := standsIn (podsIn w).

Definition keepsStanding (w w' : W) : Prop := stands w → stands w'.

#[export] Instance keepsStanding_preorder : PreOrder keepsStanding.
Proof. split; [intros w Hw; exact Hw|]. intros a b c Ha Hb Hw. by apply Hb, Ha. Qed.

Lemma meanwhile_stands m m' : podsMeanwhile rs role m m' → standsIn m → standsIn m'.
Proof.
  intros Hm (p & Hp & Ho & Hd). specialize (Hm k). rewrite Hp in Hm. destruct (m' !! k) as [p'|] eqn:E.
  - destruct Hm as [Hkey Hl _ Hdel _ _]; [by left|]. exists p'. split_and!; [done| |by rewrite Hdel].
    destruct Ho as [Hns Hlab]. split; [|by rewrite Hl]. by injection Hkey as -> _.
  - specialize (Hm Ho). unfold isPodTerminating in Hm. rewrite Hd in Hm. by case_bool_decide as Hs; [destruct Hs|].
Qed.

Lemma patched_stands before after m m' : keepsRole before after → podPatched before after m m' → standsIn m → standsIn m'.
Proof.
  intros Hk (x & y & Hx & Hy & ->) (p & Hp & Ho & Hd). destruct (decide (podKeyOf before = k)) as [E|Hne].
  - rewrite E in *. exists y. split_and!; [by rewrite lookup_insert_eq| |].
    + eapply ofRole_patched; [done|done|]. congruence.
    + rewrite (pb_deletion _ _ _ _ Hy). congruence.
  - exists p. split_and!; [by rewrite lookup_insert_ne|done|done].
Qed.

#[export] Instance keepsStanding_calls :
  PodCallsIn keepsStanding (fun _ => True) (fun q => podKeyOf q ≠ k) (fun _ => True).
Proof.
  split; unfold keepsStanding, stands.
  - intros ns labels w. by apply meanwhile_stands, ListPods_law.
  - intros q w _ Hw. destruct (CreatePod_law q w) as (m & Hm & Hc). apply meanwhile_stands in Hm; [|done].
    destruct Hc as [->|(c & _ & Hk & ->)]; [done|]. destruct Hm as (p & Hp & Hrest). exists p. split; [|done].
    rewrite lookup_insert_ne; [done|]. congruence.
  - intros q w Hne Hw. destruct (DeletePod_law q w) as (m & Hm & Hc). apply meanwhile_stands in Hm; [|done].
    destruct Hm as (p & Hp & Hrest). destruct Hc as [->|[->|[t ->]]]; exists p; (split; [|done]);
      by rewrite ?lookup_delete_ne, ?lookup_alter_ne.
  - intros a b w Hk _ Hw. destruct (PatchPod_law a b w) as (m & Hm & Hc). apply meanwhile_stands in Hm; [|done].
    destruct Hc as [->|Hc]; [done|]. by eapply patched_stands.
  - intros a b w [Hk _] Hw. destruct (PatchPod_law a b w) as (m & Hm & Hc). apply meanwhile_stands in Hm; [|done].
    destruct Hc as [->|Hc]; [done|]. by eapply patched_stands.
  - intros a b w Hw. eapply meanwhile_stands; [apply PatchPodStatus_law|done].
  - intros a b w Hw. eapply meanwhile_stands; [apply ListPodSets_law|done].
  - intros a w Hw. eapply meanwhile_stands; [apply CreatePodSet_law|done].
  - intros a w Hw. eapply meanwhile_stands; [apply DeletePodSet_law|done].
  - intros w Hw. eapply meanwhile_stands; [apply RoleNow_law|done].
Qed.
End Stands.

(** ** An invariant, as long as something holds of every moment. *)

Section While.
Context {W : Type} (H I : W → Prop).

Definition holdsWhile {A} (m : Run W A) (w : W) : Prop :=
  (∀ x, x ∈ w :: visited m w → H x) → I w → Forall I (visited m w) ∧ I (final m w).

Lemma holdsWhile_ret {A} (a : A) w : holdsWhile (mret a) w.
Proof. intros _ Hw. by split. Qed.

Lemma holdsWhile_bind {A B} (R : W → W → Prop) (m : Run W A) (k : A → Run W B) w :
  within R m → (∀ x, I w → R w x → I x) → (H w → holdsWhile (k (value m w)) (final m w)) → holdsWhile (m ≫= k) w.
Proof.
  intros Hm HR Hk Hall Hw. destruct (Hm w) as (Ht & Hf & Hin). rewrite visited_bind, final_bind in *.
  destruct Hk as [Hv Hfin].
  - apply Hall. left.
  - intros x [->|Hx]%elem_of_cons; apply Hall.
    + apply elem_of_cons in Hin as [->|Hin]; [left|]. right. apply elem_of_app. by left.
    + right. apply elem_of_app. by right.
  - by apply HR.
  - split; [|done]. apply Forall_app. split; [|done]. eapply Forall_impl; [exact Ht|]. intros x. by apply HR.
Qed.

Lemma within_holdsWhile {A} (R : W → W → Prop) (m : Run W A) w :
  (H w → within R m) → (∀ x, I w → R w x → I x) → holdsWhile m w.
Proof.
  intros Hm HR Hall Hw. destruct (Hm (Hall w ltac:(left)) w) as (Ht & Hf & _). split; [|by apply HR].
  eapply Forall_impl; [exact Ht|]. intros x. by apply HR.
Qed.
End While.

(** ** The operations of a role. *)

Section Spared.
Context `{HA : RoleApi W} `{!PodTemplates} `{RoleCodec} `{SliceSort} {HS : PodStore}.
Context (rs : RoleSet) (role : RoleSpec) {HL : PodLaws rs role} (p : RolePod).
Context (Hdrain : 0 < drainTimeout role.(role_Drain)).

Let R : W → W → Prop := keepsStanding rs role (podKeyOf p).
Let I : W → Prop := stands rs role (podKeyOf p).

(** The pod has not ended, and it is not marked or its mark is not old enough
    by the clock. *)
Definition notDrained (w : W) : Prop := drainedOut (drainTimeout role.(role_Drain)) (RoleNow w).2 p = false.

Lemma stands_closed w x : I w → R w x → I x.
Proof. intros Hw HR. by apply HR. Qed.

(** Only the pod itself has its key among the pods listed. *)
Lemma listed_same w1 all q : podsListed rs role w1 all → p ∈ all → q ∈ all → podKeyOf q = podKeyOf p → q = p.
Proof. intros [Hnd _] Hp Hq. by apply (NoDup_fmap_inj_elem podKeyOf all). Qed.

Lemma mayGo_listed w1 all T now : podsListed rs role w1 all → p ∈ all → T ⊆ all →
  drainedOut (drainTimeout role.(role_Drain)) now p = false →
  Forall (mayGo (fun q => podKeyOf q ≠ podKeyOf p) (fun _ => True) (drainTimeout role.(role_Drain)) now) T.
Proof.
  intros Hl Hp HT Hd. apply Forall_forall. intros q Hq. split; [done|]. intros Hq' Hk.
  rewrite (listed_same w1 all q Hl Hp (HT q Hq) Hk) in Hq'. congruence.
Qed.

Lemma applyScale_spares active create T w1 all w : podsListed rs role w1 all → p ∈ all → T ⊆ all →
  holdsWhile notDrained I (applyScale role active create T) w.
Proof.
  intros Hl Hp HT. unfold applyScale.
  apply (holdsWhile_bind _ _ R); [apply (createPodsInBatch_in R (fun _ => True) _ _), Forall_true; done|apply stands_closed|].
  intros _. destruct (value _ _).2; [apply holdsWhile_ret|].
  apply (holdsWhile_bind _ _ R); [apply (cancelPods_in R _ _ _)|apply stands_closed|].
  intros _. destruct (value _ _).2; [apply holdsWhile_ret|]. set (x := final _ _).
  apply (holdsWhile_bind _ _ R); [apply (within_call R); intros; apply in_RoleNow|apply stands_closed|].
  rewrite value_call. intros Hx.
  apply (holdsWhile_bind _ _ R); [|apply stands_closed|intros _; destruct (value _ _).2; apply holdsWhile_ret].
  apply (DeletePods_draining_in R _ (fun q => podKeyOf q ≠ podKeyOf p) (fun _ => True)); [done|by eapply mayGo_listed].
Qed.

Lemma applyRollout_spares create T w1 all w : podsListed rs role w1 all → p ∈ all → T ⊆ all →
  IsRolePodReady p = true → holdsWhile notDrained I (applyRollout role create T) w.
Proof.
  intros Hl Hp HT Hr. unfold applyRollout.
  apply (holdsWhile_bind _ _ R); [apply (createPodsInBatch_in R (fun _ => True) _ _), Forall_true; done|apply stands_closed|].
  intros _. destruct (value _ _).2; [apply holdsWhile_ret|]. set (x := final _ _).
  apply (holdsWhile_bind _ _ R); [apply (within_call R); intros; apply in_RoleNow|apply stands_closed|].
  rewrite value_call. intros Hx.
  apply (holdsWhile_bind _ _ R); [|apply stands_closed|intros _; destruct (value _ _).2; apply holdsWhile_ret].
  unfold deletePodsForRollout. destruct (splitPodsByReady T) as [ready notReady] eqn:Es.
  unfold splitPodsByReady, split in Es. injection Es as <- <-.
  apply (within_bind R).
  - apply (DeletePods_in R _ (fun q => podKeyOf q ≠ podKeyOf p) (fun _ => True)); [|by apply Forall_true].
    apply Forall_forall. intros q [Hn Hq]%elem_of_list_filter_bool Hk.
    rewrite (listed_same w1 all q Hl Hp (HT q Hq) Hk), Hr in Hn. done.
  - intros r. destruct r.2; [stays|]. apply (within_bind R); [|intros r'; destruct r'.2; stays].
    apply (DeletePods_draining_in R _ (fun q => podKeyOf q ≠ podKeyOf p) (fun _ => True)); [done|].
    eapply mayGo_listed; [done|done| |done]. intros q [_ Hq]%elem_of_list_filter_bool. auto.
Qed.

Lemma rolloutPodsInPlace_spares pods hash budget w : holdsWhile notDrained I (
  e ← rolloutPodsInPlace rs role pods hash budget; mret (noResult, e)) w.
Proof.
  apply (holdsWhile_bind _ _ R); [|apply stands_closed|intros _; apply holdsWhile_ret].
  by apply (rolloutPodsInPlace_in R _ _ (fun _ => True)).
Qed.

Lemma statelessReplace_spares all outdated del wanted sel w1 w : podsListed rs role w1 all → p ∈ all → outdated ⊆ all →
  IsRolePodReady p = true → holdsWhile notDrained I (statelessReplace rs role all outdated del wanted sel) w.
Proof.
  intros Hl Hp Hout Hr. unfold statelessReplace. cbv zeta.
  match goal with |- context [applyRollout role ?c ?d] => assert (holdsWhile notDrained I (applyRollout role c d) w) as Ha end.
  { eapply applyRollout_spares; [done|done| |done]. intros q Hq%outdatedTaken_incl%sortPodsByActive_incl. auto. }
  destruct (bool_decide _); [destruct (canRolloutPodsInPlace _ _ _ _)|]; [done|apply rolloutPodsInPlace_spares|done].
Qed.

Lemma statefulReplace_spares all del cre sel w1 w : podsListed rs role w1 all → p ∈ all →
  IsRolePodReady p = true →
  holdsWhile notDrained I (statefulReplace rs role (podSlotForRole role (filterActivePods all).1).1 del cre sel) w.
Proof.
  intros Hl Hp Hr. unfold statefulReplace. cbv zeta.
  match goal with |- context [rolloutSlots ?r ?u ?m ?i ?d ?c ?s] =>
    pose proof (rolloutSlots_single r u m i d c s) as Hi; destruct (rolloutSlots r u m i d c s) as [create T] end. cbn [snd] in *.
  assert (holdsWhile notDrained I (applyRollout role create T) w) as Ha.
  { eapply applyRollout_spares; [done|done| |done]. intros q Hq%Hi. eapply proj1, slot_members; [exact Hq|left]. }
  destruct (bool_decide _); [destruct (canRolloutPodsInPlace _ _ _ _)|]; [done|apply rolloutPodsInPlace_spares|done].
Qed.

(** A listing that shows the pod, and what is done with it. *)
Lemma listed_spares {A} (k : result kubeError (list RolePod) → Run W A) w w' : let w1 := final (getRolePods rs role) w in
  podsIn w1 !! podKeyOf p = Some p → ofRole rs role p → rp_DeletionTimestamp p = None →
  (∀ e, visited (k (Err e)) w1 = []) →
  (∀ all, podsListed rs role w1 all → p ∈ all → holdsWhile notDrained I (k (Ok all)) w1) →
  (∀ x, x ∈ visited (getRolePods rs role ≫= k) w → notDrained x) →
  w' ∈ visited (getRolePods rs role ≫= k) w → I w'.
Proof.
  intros w1 Hst Ho Hd He Hk. destruct (getRolePods_listed rs role w) as (_ & Hv & Hl). fold w1 in Hv, Hl.
  rewrite visited_bind, Hv. fold w1. intros Hx Hw'.
  assert (I w1) as Hw1 by by exists p. apply elem_of_app in Hw' as [->%list_elem_of_singleton|Hw']; [done|].
  destruct (value (getRolePods rs role) w) as [all|e]; [|rewrite He in Hw'; by apply elem_of_nil in Hw'].
  specialize (Hl all eq_refl). destruct (Hk all Hl) as [Hf _]; [| |done|].
  - by apply (pl_iff _ _ _ _ Hl).
  - intros x Hin. apply Hx. apply elem_of_app. apply elem_of_cons in Hin as [->|?]; [left; by left|by right].
  - rewrite Forall_forall in Hf. by apply Hf.
Qed.

Lemma cleanup_spares (scale : Run W (drainResult * option roleError)) w w' :
  (∀ x, x ∈ visited (afterCleanup (cleanupOrphanPodSets rs role) scale) w → notDrained x) →
  ((∀ x, x ∈ visited scale (final (cleanupOrphanPodSets rs role) w) → notDrained x) →
    w' ∈ visited scale (final (cleanupOrphanPodSets rs role) w) → I w') →
  w' ∈ visited (afterCleanup (cleanupOrphanPodSets rs role) scale) w →
  w' ∈ visited (cleanupOrphanPodSets rs role) w ∨ I w'.
Proof.
  intros Hx Hs. unfold afterCleanup in *. rewrite visited_bind in *. intros [Hw'|Hw']%elem_of_app; [by left|right].
  destruct (value (cleanupOrphanPodSets rs role) w) as [[] []]; try by apply elem_of_nil in Hw'.
  apply Hs; [|done]. intros x Hin. apply Hx, elem_of_app. by right.
Qed.
End Spared.

Section Inclusions.
Context `{K8s} `{K8sApps} `{PodTypes} `{!PodTemplates} `{RoleCodec} `{SliceSort} (role : RoleSpec).

Lemma scaledIn_incl diff l q : q ∈ scaledIn role diff l → 0 < diff → q ∈ l.
Proof.
  intros Hq Hd. unfold scaledIn in Hq. cbv zeta in Hq.
  pose proof (takeDraining_spec diff (Z.of_nat (length (filterReadyPods l).1)) l Hd) as Ht.
  destruct (takeDraining _ _ l) as [[draining diff'] ready']. destruct Ht as (Hs & _ & _).
  apply elem_of_app in Hq as [Hq|Hq]; [auto|]. by eapply takeOthers_spec.
Qed.
End Inclusions.


(** ** How long a drain takes. *)

Lemma trunc_second t : t - Second < t / Second * Second ≤ t.
Proof.
  pose proof (Z.div_mod t Second ltac:(done)). pose proof (Z.mod_pos_bound t Second ltac:(done)). unfold Second in *. lia.
Qed.

Section Timing.
Context `{PodTypes}.

Lemma marked_annotation reason now p key value :
  rp_Annotations (markedDraining reason now p) !! key = Some value → annotationOf (markedDraining reason now p) key = value.
Proof. intros Hk. unfold annotationOf. by rewrite Hk. Qed.

Lemma marked_draining reason now p : IsPodDraining (markedDraining reason now p) = true.
Proof.
  unfold IsPodDraining. rewrite (marked_annotation _ _ _ _ drainingAnnotationValue); [done|].
  cbn. rewrite !lookup_insert_ne by done. apply lookup_insert_eq.
Qed.

(** The mark reads back as the second the drain began. *)
Lemma marked_valid reason now p : fourDigitYear now →
  validateDrainState (markedDraining reason now p) = Ok (now / Second * Second).
Proof.
  intros Hy. unfold validateDrainState.
  rewrite (marked_annotation _ _ _ PodDrainTargetActionAnnotationKey PodDrainTargetActionDelete) by apply lookup_insert_eq.
  rewrite bool_decide_true by done. cbn [negb]. cbv zeta.
  rewrite (marked_annotation _ _ _ PodDrainStartTimeAnnotationKey (formatRFC3339 now)).
  2:{ cbn. rewrite !lookup_insert_ne by done. apply lookup_insert_eq. }
  rewrite bool_decide_false.
  - by rewrite (wake_request_time_roundtrip now Hy).
  - unfold formatRFC3339. destruct (dateOf _) as [[y m] d]. done.
Qed.
End Timing.

(** The time that a mark written at [now] says has passed at [now']. *)
Definition sinceMark (now now' : Time) : Duration := now' - now / Second * Second.

(** C39: How long a drain lasts.  A pod marked at [now] that runs and is looked
    at again at [now'] is deleted then if the timeout has passed since the
    second of the mark, and otherwise nothing is done and the controller asks
    to come back when it will have passed.  So it is deleted once the timeout
    has passed since [now], and never a second or more before. *)
Theorem drain_lasts_its_timeout `{RoleApi W} p reason reason' timeout now now' w :
  fourDigitYear now → 0 < timeout ≤ MaxInt64 → sinceMark now now' ≤ MaxInt64 →
  rp_DeletionTimestamp p = None → IsPodPhaseTerminal (rp_Phase p) = false →
  visited (processPod (markedDraining reason now p) reason' timeout now') w =
    (if timeout <=? sinceMark now now' then [(DeletePod (markedDraining reason now p) w).1] else []) ∧
  (sinceMark now now' < timeout →
    value (processPod (markedDraining reason now p) reason' timeout now') w =
      (MkDrainResult false (timeout - Z.max 0 (sinceMark now now')), None)) ∧
  (timeout ≤ now' - now → timeout ≤ sinceMark now now') ∧
  (timeout ≤ sinceMark now now' → timeout - Second < now' - now).
Proof.
  unfold sinceMark. set (marked := markedDraining reason now p). set (elapsed := now' - now / Second * Second).
  intros Hy Ht Hmax Hd Hp. pose proof (trunc_second now) as Htr.
  assert (processPod marked reason' timeout now' = if timeout <=? Z.max 0 (timeSub now' (now / Second * Second)) then
    (r ← call (DeletePod marked); mret (match ignoreNotFound r with Some e => (noResult, Some e) | None => (changedResult, None) end))
    else mret (MkDrainResult false (timeout - Z.max 0 (timeSub now' (now / Second * Second))), None)) as ->.
  { unfold processPod. assert (isDeleting marked = false) as ->.
    { unfold isDeleting. change (rp_DeletionTimestamp marked) with (rp_DeletionTimestamp p). by rewrite Hd. }
    rewrite ended_spec. change (rp_Phase marked) with (rp_Phase p). rewrite Hp. unfold marked.
    by rewrite (marked_draining reason now p), (marked_valid reason now p Hy). }
  assert (Z.max 0 (timeSub now' (now / Second * Second)) = Z.max 0 elapsed) as ->.
  { unfold timeSub, MinInt64, MaxInt64, elapsed in *. lia. }
  split_and!; [|intros He|unfold elapsed; lia..].
  - destruct (Z.leb_spec timeout (Z.max 0 elapsed)), (Z.leb_spec timeout elapsed); try lia; [|done].
    rewrite visited_bind. unfold call, visited. by destruct (DeletePod marked w).
  - destruct (Z.leb_spec timeout (Z.max 0 elapsed)); [lia|done].
Qed.
