(* ===== verification/InPlaceFacts.v ===== *)
(** * What an update in place leads to.

    A pod that may be updated in place has, once it is patched, the images of
    its role's template, container by container.  It is taken to be of the new
    template only when the kubelet runs other images than before. *)

From S2P Require Import Prelude Api Claims Ledger KVPlan Placement Reservations Runtime Storm StormSync PodTypes RolePods RoleRender PodDrain InPlace.

(** ** The images of a patched pod. *)

Section Images.
Context `{PodTypes}.

(** What a container is called and what it runs. *)
Definition runsImage (c : PodContainer) : string * string := (c.(ct_Name), c.(ct_Image)).

Lemma containersByName_lookup l c : NoDup (ct_Name <$> l) → c ∈ l → containersByName l !! ct_Name c = Some c.
Proof.
  intros Hnd Hc. unfold containersByName.
  assert (∀ (m : gmap string PodContainer) l, ct_Name c ∉ ct_Name <$> l →
    foldl (fun m c => <[ct_Name c := c]> m) m l !! ct_Name c = m !! ct_Name c) as Hskip.
  { clear. intros m l. revert m. induction l as [|d l IH]; intros m Hn; csimpl in *; [done|].
    rewrite not_elem_of_cons in Hn. destruct Hn. rewrite IH by done. by rewrite lookup_insert_ne. }
  generalize (∅ : gmap string PodContainer) as m. revert Hnd Hc. induction l as [|d l IH]; intros Hnd Hc m; [by apply elem_of_nil in Hc|].
  apply NoDup_cons in Hnd as [Hd Hnd]. apply elem_of_cons in Hc as [->|Hc]; csimpl.
  - rewrite Hskip by done. apply lookup_insert_eq.
  - by apply IH.
Qed.

Lemma updateContainerImages_runs current desired : NoDup (ct_Name <$> desired) →
  ct_Name <$> current = ct_Name <$> desired → runsImage <$> (updateContainerImages current desired).1 = runsImage <$> desired.
Proof.
  intros Hnd Hn. unfold updateContainerImages. cbn [fst].
  assert (∀ d, d ∈ desired → containersByName desired !! ct_Name d = Some d) as Hby by (intros; by apply containersByName_lookup).
  generalize (containersByName desired), Hby. clear Hby Hnd. intros m. revert desired Hn.
  induction current as [|c current IH]; intros [|d desired] Hn Hby; csimpl in *; try done. injection Hn as Hc Hn.
  rewrite Hc, (Hby d ltac:(left)). f_equal; [unfold runsImage; simpl; by rewrite Hc|]. apply IH; [done|]. intros. apply Hby. by right.
Qed.

Lemma unchanged_runs current desired : NoDup (ct_Name <$> desired) → ct_Name <$> current = ct_Name <$> desired →
  containersImagesDiffer current desired = false → runsImage <$> current = runsImage <$> desired.
Proof.
  intros Hnd Hn Hd. rewrite <- (updateContainerImages_runs current desired) by done. unfold updateContainerImages. cbn [fst].
  rewrite <- list_fmap_compose. apply list_fmap_ext. intros i c Hc. cbn [compose].
  unfold containersImagesDiffer in Hd. destruct (containersByName desired !! ct_Name c) as [d|] eqn:E; [|done].
  assert (negb (bool_decide (ct_Image c = ct_Image d)) = false) as Hi%negb_false_iff%bool_decide_eq_true.
  { destruct (negb _) eqn:En; [|done]. exfalso. rewrite <- not_true_iff_false in Hd. apply Hd. apply existsb_exists. exists c.
    split; [by eapply list_elem_of_In, list_elem_of_lookup_2|]. by rewrite E. }
  unfold runsImage. simpl. by rewrite Hi.
Qed.

Lemma normalized_names removed containers desired :
  ct_Name <$> normalizeContainerImagesAndHashEnv (removeVolumeMounts removed containers) desired = ct_Name <$> containers.
Proof.
  unfold normalizeContainerImagesAndHashEnv, normalizeContainerImages, removeVolumeMounts. rewrite <- !list_fmap_compose.
  apply list_fmap_ext. intros i c _. cbn. unfold normalizeContainerImage. by case_match.
Qed.

Lemma normalized_init_names removed containers desired :
  ct_Name <$> normalizeContainerImages (removeVolumeMounts removed containers) desired = ct_Name <$> containers.
Proof.
  unfold normalizeContainerImages, removeVolumeMounts. rewrite <- !list_fmap_compose.
  apply list_fmap_ext. intros i c _. cbn. unfold normalizeContainerImage. by case_match.
Qed.

Lemma normalized_same p desired : normalizePodForInPlaceComparison p desired = normalizePodForInPlaceComparison desired desired →
  ct_Name <$> psp_Containers (rp_Spec p) = ct_Name <$> psp_Containers (rp_Spec desired) ∧
  ct_Name <$> psp_InitContainers (rp_Spec p) = ct_Name <$> psp_InitContainers (rp_Spec desired).
Proof.
  intros Heq. split.
  - apply (f_equal (fun q => ct_Name <$> psp_Containers (rp_Spec q))) in Heq.
    unfold normalizePodForInPlaceComparison, normalizePodSpecRuntimeFields in Heq. cbv zeta in Heq.
    cbn [rp_Spec psp_Containers psp_InitContainers] in Heq. by rewrite !normalized_names in Heq.
  - apply (f_equal (fun q => ct_Name <$> psp_InitContainers (rp_Spec q))) in Heq.
    unfold normalizePodForInPlaceComparison, normalizePodSpecRuntimeFields in Heq. cbv zeta in Heq.
    cbn [rp_Spec psp_Containers psp_InitContainers] in Heq. by rewrite !normalized_init_names in Heq.
Qed.
End Images.

Section Rendered.
Context `{K8s} `{K8sApps} `{PodTypes} `{!PodTemplates}.

Lemma injectTopologyAffinity_containers spec rs name tp :
  psp_Containers (injectTopologyAffinity spec rs name tp) = psp_Containers spec ∧
  psp_InitContainers (injectTopologyAffinity spec rs name tp) = psp_InitContainers spec.
Proof. unfold injectTopologyAffinity, injectTopologyAffinityToPodSpec. by repeat case_match. Qed.

Lemma rendered_names rs role i :
  ct_Name <$> psp_Containers (rp_Spec (buildRenderedPod rs role i)) = ct_Name <$> psp_Containers (template_Spec (role_Template role)) ∧
  psp_InitContainers (rp_Spec (buildRenderedPod rs role i)) = psp_InitContainers (template_Spec (role_Template role)).
Proof.
  unfold buildRenderedPod, renderStormServicePod. cbv zeta. cbn [rp_Spec].
  destruct (rss_TopologyPolicy (rs_Spec rs)) as [tp|];
    [match goal with |- context [injectTopologyAffinity ?s ?r ?n ?t] =>
       destruct (injectTopologyAffinity_containers s r n t) as [-> ->] end|].
  all: cbn [psp_Containers psp_InitContainers setPodContainers setPodHost GetPodFromTemplate rp_Spec].
  all: split; [|done]. all: rewrite <- list_fmap_compose; by apply list_fmap_ext.
Qed.

(** What [canInPlaceUpdatePod] makes sure of. *)
Lemma canInPlaceUpdatePod_spec rs role p : canInPlaceUpdatePod rs role p = None →
  let template := template_Spec (role_Template role) in
  ct_Name <$> psp_Containers (rp_Spec p) = ct_Name <$> psp_Containers template ∧
  ct_Name <$> psp_InitContainers (rp_Spec p) = ct_Name <$> psp_InitContainers template ∧
  containersImagesDiffer (psp_InitContainers (rp_Spec p)) (psp_InitContainers template) = false ∧
  containersImagesDiffer (psp_Containers (rp_Spec p)) (psp_Containers template) = true.
Proof.
  intros Hc template. unfold canInPlaceUpdatePod in Hc.
  match type of Hc with match ?x with _ => _ end = _ => destruct x as [i|e]; [|done] end. cbv zeta in Hc. fold template in Hc.
  destruct (containersImagesDiffer (psp_InitContainers _) _) eqn:Ei; [done|].
  destruct (negb (bool_decide _)) eqn:En; [done|]. apply negb_false_iff, bool_decide_eq_true, normalized_same in En as [Hn Hin].
  destruct (rendered_names rs role i) as [Hr Hri]. rewrite Hr in Hn. rewrite Hri in Hin.
  destruct (containersImagesDiffer (psp_Containers _) _) eqn:Ec; cbn [negb] in Hc; [done|]. by destruct (bool_decide _).
Qed.
End Rendered.

(** C22: An update in place ends at the template.  A pod the controller agrees
    to update in place is patched to a pod that has the containers of the
    role's template, in their order, each with the image the template gives
    it, and that carries the hash it is updated to; its init containers have
    the template's images already.  The names of a template's containers are
    different. *)
Theorem in_place_update_matches_template `{K8s} `{K8sApps} `{PodTypes} `{!PodTemplates} `{RoleCodec} rs role p hash :
  let template := template_Spec (role_Template role) in
  NoDup (ct_Name <$> psp_Containers template) → NoDup (ct_Name <$> psp_InitContainers template) →
  canInPlaceUpdatePod rs role p = None →
  ∃ q, patchedForInPlaceUpdate p role hash = Some q ∧
    runsImage <$> psp_Containers (rp_Spec q) = runsImage <$> psp_Containers template ∧
    runsImage <$> psp_InitContainers (rp_Spec q) = runsImage <$> psp_InitContainers template ∧
    hasTarget hash q = true ∧ rp_Labels q = rp_Labels p.
Proof.
  intros template Hnd Hndi (Hn & Hin & Hi & Hc)%canInPlaceUpdatePod_spec. fold template in Hn, Hin, Hi, Hc.
  pose proof (updateContainerImages_runs _ _ Hnd Hn) as Hu. pose proof (unchanged_runs _ _ Hndi Hin Hi) as Hui.
  unfold patchedForInPlaceUpdate. fold template.
  destruct (updateContainerImages (psp_Containers (rp_Spec p)) (psp_Containers template)) as [cs b] eqn:E. cbn [fst] in Hu.
  assert (b = true) as -> by (unfold updateContainerImages in E; injection E as _ <-; done). cbv zeta.
  unfold hasTarget at 1. case_bool_decide as Ht; (eexists; split; [done|]); (split_and!; [done|done| |done]); unfold hasTarget; apply bool_decide_eq_true.
  - unfold annotationOf in *. cbn. case_bool_decide; [by rewrite lookup_insert_ne|done].
  - unfold annotationOf. cbn. by rewrite lookup_insert_eq.
Qed.

(** ** When an update is done. *)

Section Settled.
Context `{K8s} `{K8sApps} `{PodTypes} `{!PodTemplates} `{RoleCodec}.

(** The image IDs recorded are the ones reported. *)
Lemma recorded_lookup (changes : string → bool) statuses name : changes name = true →
  ∀ (state : gmap string string) (byName : gmap string ContainerStatus), state !! name = cs_ImageID <$> byName !! name →
  foldl (fun state status => if changes (cs_Name status) then <[cs_Name status := cs_ImageID status]> state else state) state statuses !! name =
  cs_ImageID <$> foldl (fun m s => <[cs_Name s := s]> m) byName statuses !! name.
Proof.
  intros Hc. induction statuses as [|s statuses IH]; intros state byName Hs; [done|]. cbn [foldl]. apply IH.
  destruct (decide (cs_Name s = name)) as [<-|Hne].
  - by rewrite Hc, !lookup_insert_eq.
  - rewrite (lookup_insert_ne byName) by done. destruct (changes (cs_Name s)); [by rewrite lookup_insert_ne|done].
Qed.

Lemma buildInPlaceUpdateState_lookup p role c d s :
  c ∈ psp_Containers (rp_Spec p) →
  containersByName (psp_Containers (template_Spec (role_Template role))) !! ct_Name c = Some d →
  ct_Image d ≠ "" → ct_Image d ≠ ct_Image c → statusesByName (rp_ContainerStatuses p) !! ct_Name c = Some s →
  buildInPlaceUpdateState p role !! ct_Name c = Some (cs_ImageID s).
Proof.
  intros Hc Hd He Hne Hs. unfold buildInPlaceUpdateState. cbv zeta.
  etrans; [apply (recorded_lookup (changesImage p role)) with (byName := ∅); [|done]|by unfold statusesByName in Hs; rewrite Hs].
  apply existsb_exists. exists c. split; [by apply list_elem_of_In|]. rewrite bool_decide_true by done. rewrite Hd.
  by rewrite !bool_decide_false.
Qed.

Lemma patched_state p role hash q : patchedForInPlaceUpdate p role hash = Some q →
  annotationOf p RoleInPlaceUpdateStateAnnotationKey = "" →
  containersImagesDiffer (psp_Containers (rp_Spec p)) (psp_Containers (template_Spec (role_Template role))) = true →
  getInPlaceUpdateState q = buildInPlaceUpdateState p role.
Proof.
  unfold patchedForInPlaceUpdate. intros Hq Hs Hd.
  destruct (updateContainerImages _ _) as [cs b] eqn:E. unfold updateContainerImages in E. injection E as _ <-. rewrite Hd in Hq.
  rewrite bool_decide_true in Hq by done. cbn [andb] in Hq.
  assert (rp_Annotations q !! RoleInPlaceUpdateStateAnnotationKey = Some (MarshalInPlaceState (buildInPlaceUpdateState p role))) as Hl.
  { destruct (hasTarget hash p); injection Hq as <-; cbn; rewrite ?lookup_insert_ne by done; apply lookup_insert_eq. }
  unfold getInPlaceUpdateState, annotationOf. rewrite Hl. cbv zeta. cbn [from_option id].
  rewrite bool_decide_false by apply MarshalInPlaceState_nonempty. by rewrite InPlaceState_roundtrip.
Qed.

Lemma pending_none p c : inPlaceUpdatePendingStatusForPod p = None → c ∈ psp_Containers (rp_Spec p) →
  IsRolePodReady p = true ∧ pendingContainer (getInPlaceUpdateState p) (statusesByName (rp_ContainerStatuses p)) c = None.
Proof.
  unfold inPlaceUpdatePendingStatusForPod. destruct (IsRolePodReady p); [|done]. cbn [negb]. intros Hh Hc. split; [done|].
  destruct (pendingContainer _ _ c) as [reason|] eqn:E; [|done]. exfalso.
  assert (reason ∈ omap (pendingContainer (getInPlaceUpdateState p) (statusesByName (rp_ContainerStatuses p))) (psp_Containers (rp_Spec p))) as Hin.
  { apply list_elem_of_omap. by exists c. }
  destruct (omap _ _); [by apply elem_of_nil in Hin|done].
Qed.
End Settled.

(** The template has [d] for the container [c], with another image. *)
Definition imageChanges `{PodTemplates} (role : RoleSpec) (c d : PodContainer) : Prop :=
  containersByName (psp_Containers (template_Spec (role_Template role))) !! ct_Name c = Some d ∧
  ct_Image d ≠ "" ∧ ct_Image d ≠ ct_Image c.

(** C23: A pod is of the new template only once it runs it.  Where a pod [p] was
    patched and is found, as [p'], to have completed its update, it is ready,
    and each container whose image was changed is ready and runs an image of
    another ID than the one reported before the patch.  The pod kept what was
    recorded on it, and its containers are those it was patched to. *)
Theorem in_place_update_waits_for_images `{RoleApi W} `{!PodTemplates} `{RoleCodec} rs role p q p' hash w c d s :
  patchedForInPlaceUpdate p role hash = Some q → annotationOf p RoleInPlaceUpdateStateAnnotationKey = "" →
  rp_Annotations p' !! RoleInPlaceUpdateStateAnnotationKey = rp_Annotations q !! RoleInPlaceUpdateStateAnnotationKey →
  psp_Containers (rp_Spec p') = psp_Containers (rp_Spec q) →
  labelOf p' RoleTemplateHashLabelKey ≠ hash → value (markInPlaceUpdateComplete rs role p' hash) w = (true, None) →
  c ∈ psp_Containers (rp_Spec p) → imageChanges role c d →
  statusesByName (rp_ContainerStatuses p) !! ct_Name c = Some s → cs_ImageID s ≠ "" →
  IsRolePodReady p' = true ∧ ∃ s', statusesByName (rp_ContainerStatuses p') !! ct_Name c = Some s' ∧
    cs_Ready s' = true ∧ cs_ImageID s' ≠ cs_ImageID s.
Proof.
  intros Hq Hst Hkept Hcs Hlab Hdone Hc (Hd & He & Hne) Hs Hid.
  assert (containersImagesDiffer (psp_Containers (rp_Spec p)) (psp_Containers (template_Spec (role_Template role))) = true) as Hdiff.
  { unfold containersImagesDiffer. apply existsb_exists. exists c. split; [by apply list_elem_of_In|]. rewrite Hd.
    by rewrite bool_decide_false. }
  assert (inPlaceUpdatePendingStatusForPod p' = None) as Hp.
  { unfold markInPlaceUpdateComplete in Hdone. cbv zeta in Hdone. rewrite bool_decide_false in Hdone by done.
    destruct (negb _); [done|]. destruct (inPlaceUpdatePendingStatusForPod p') as [reason|]; [|done].
    exfalso. by rewrite value_bind in Hdone. }
  set (c' := setContainerImage c (ct_Image d)).
  assert (c' ∈ psp_Containers (rp_Spec p')) as Hc'.
  { rewrite Hcs. unfold patchedForInPlaceUpdate in Hq. destruct (updateContainerImages _ _) as [cs b] eqn:E.
    assert (c' ∈ cs) as Hin.
    { unfold updateContainerImages in E. injection E as <- _. apply list_elem_of_fmap. exists c. by rewrite Hd. }
    destruct (hasTarget hash p); [destruct b|]; cbn in Hq; try done; by injection Hq as <-. }
  destruct (pending_none p' c' Hp Hc') as [Hr Hpend]. split; [done|].
  assert (getInPlaceUpdateState p' = buildInPlaceUpdateState p role) as Hstate.
  { rewrite <- (patched_state p role hash q) by done. unfold getInPlaceUpdateState, annotationOf. by rewrite Hkept. }
  rewrite Hstate in Hpend. unfold pendingContainer in Hpend. change (ct_Name c') with (ct_Name c) in Hpend.
  rewrite (buildInPlaceUpdateState_lookup p role c d s) in Hpend by done.
  destruct (statusesByName (rp_ContainerStatuses p') !! ct_Name c) as [s'|]; [|done]. exists s'. split; [done|].
  destruct (cs_Ready s'); cbn [negb] in Hpend; [|done]. split; [done|]. intros Heq. rewrite bool_decide_false in Hpend by done.
  cbn [negb andb] in Hpend. by rewrite bool_decide_true in Hpend.
Qed.
