(* ===== verification/RoleSetFacts.v ===== *)
(** * What holds throughout the reconciliation of a RoleSet.

    The invariants of the pods are lifted to the whole pass of [Reconcile]:
    reading the RoleSet, its pod groups, the nodes of its pods, its roles and
    its status.  A RoleSet that is deleted keeps its finalizer until none of
    its pods are left. *)

From S2P Require Import Prelude Api Claims Ledger KVPlan Placement Reservations Runtime Storm StormSync StormFacts StormRevision PodTypes RolePods RoleRender PodDrain InPlace RoleSync PodSetSync Rolling RoleSetLoop PodLaws RoleSurge RoleAvail.

(** ** An invariant of the calls is one of the pass. *)

(** The calls for pod groups. *)
Class GangKeeps `{RoleSetApi W} (I : W → Prop) := {
  keep_GetCRD name w : I w → I (GetCRD name w).1;
  keep_GetPodGroup gvk key w : I w → I (GetPodGroup gvk key w).1;
  keep_CreatePodGroup gvk key object w : I w → I (CreatePodGroup gvk key object w).1;
  keep_UpdatePodGroup gvk key object w : I w → I (UpdatePodGroup gvk key object w).1;
  keep_DeletePodGroup gvk key w : I w → I (DeletePodGroup gvk key w).1;
}.

(** [F] is what may be done to the finalizers. *)
Class RoleSetKeeps `{RoleSetApi W} (I : W → Prop) (F : finalizerPatch → Prop) := {
  keep_gang :: GangKeeps I;
  keep_GetRoleSet key w : I w → I (GetRoleSet key w).1;
  keep_PatchRoleSet key patch w : F patch → I w → I (PatchRoleSet key patch w).1;
  keep_PatchRoleSetAnnotations rs rs' w : I w → I (PatchRoleSetAnnotations rs rs' w).1;
  keep_UpdateRoleSetStatus rs w : I w → I (UpdateRoleSetStatus rs w).1;
  keep_ListPods namespace labels w : I w → I (ListPods namespace labels w).1;
  keep_ListPodSets namespace labels w : I w → I (ListPodSets namespace labels w).1;
  keep_DeletePod p w : I w → I (DeletePod p w).1;
  keep_DeletePodSet podSet w : I w → I (DeletePodSet podSet w).1;
  keep_RoleNow w : I w → I (RoleNow w).1;
  keep_Retry {S A} (f : S → Run W (S * result kubeError A)) st : (∀ st, keepsInv I (f st)) → keepsInv I (RetryRoleSet f st);
}.

Lemma keeps_call {W A} (I : W → Prop) (f : W → W * A) : (∀ w, I w → I (f w).1) → keepsInv I (call f).
Proof. intros Hf w Hw. apply holds_call; by apply Hf. Qed.

Create HintDb keeps.

Ltac gang_call :=
  first
    [ apply keep_GetCRD | apply keep_GetPodGroup | apply keep_CreatePodGroup | apply keep_UpdatePodGroup
    | apply keep_DeletePodGroup ];
  assumption.

Ltac roleset_call :=
  first
    [ apply keep_GetRoleSet | apply keep_PatchRoleSetAnnotations | apply keep_UpdateRoleSetStatus
    | apply keep_GetPodGroup | apply keep_ListPods | apply keep_ListPodSets | apply keep_DeletePod | apply keep_DeletePodSet | apply keep_RoleNow ];
  assumption.

Ltac keeps :=
  cbv beta zeta;
  lazymatch goal with
  | |- keepsInv ?I _ =>
      first
        [ solve [eauto with keeps]
        | apply (keeps_ret I)
        | apply (keeps_call I); intros; solve [eauto with keeps]
        | apply (keeps_bind I); [keeps|intros; keeps]
        | match goal with |- keepsInv _ (match ?x with _ => _ end) => destruct x; keeps end ]
  end.

Section Gang.
Context `{HX : RoleSetApi W} (I : W → Prop) {HI : GangKeeps I}.

#[local] Hint Extern 1 (I _) => gang_call : keeps.

Lemma EnsurePodGroup_keeps gvk podGroup key : keepsInv I (EnsurePodGroup gvk podGroup key).
Proof. unfold EnsurePodGroup. keeps. Qed.

Lemma FinalizePodGroup_keeps gvk key : keepsInv I (FinalizePodGroup gvk key).
Proof. unfold FinalizePodGroup. keeps. Qed.
#[local] Hint Resolve EnsurePodGroup_keeps FinalizePodGroup_keeps : keeps.

Lemma ensurePodGroups_keeps object key groups : keepsInv I (ensurePodGroups object key groups).
Proof. induction groups as [|[gvk spec] groups IH]; cbn [ensurePodGroups]; keeps. Qed.

Lemma finalizePodGroups_keeps key : keepsInv I (finalizePodGroups key).
Proof. unfold finalizePodGroups. keeps. Qed.
End Gang.

Section Pass.
Context `{HX : RoleSetApi W} `{!PodTemplates} `{RoleCodec} `{SliceSort}.
Context (I : W → Prop) (F : finalizerPatch → Prop) {HI : RoleSetKeeps I F}.

#[local] Instance pass_gang : GangKeeps I := keep_gang (F := F).

#[local] Hint Extern 1 (I _) => roleset_call : keeps.

Lemma syncPodGroup_keeps rs : keepsInv I (syncPodGroup rs).
Proof. unfold syncPodGroup. destruct (rss_SchedulingStrategy (rs_Spec rs)); [apply (ensurePodGroups_keeps I)|keeps]. Qed.

Lemma setCondition_keeps status condType condStatus reason message :
  keepsInv I (setCondition status condType condStatus reason message).
Proof. unfold setCondition. keeps. Qed.
#[local] Hint Resolve setCondition_keeps : keeps.

Lemma setVolcanoGangConditions_keeps rs status e : keepsInv I (setVolcanoGangConditions rs status e).
Proof. unfold setVolcanoGangConditions, setBothGang. keeps. Qed.

Lemma getRolePods_keeps rs role : keepsInv I (getRolePods rs role).
Proof. unfold getRolePods. keeps. Qed.

Lemma getRolePodSets_keeps rs role : keepsInv I (getRolePodSets rs role).
Proof. unfold getRolePodSets. keeps. Qed.
#[local] Hint Resolve setVolcanoGangConditions_keeps getRolePods_keeps getRolePodSets_keeps : keeps.

Lemma roleStatuses_keeps rs roles : keepsInv I (roleStatuses rs roles).
Proof.
  induction roles as [|role roles IH]; cbn [roleStatuses]; [keeps|].
  unfold calculateStatusForRole, calculateStatusFromPodSets. keeps.
Qed.
#[local] Hint Resolve roleStatuses_keeps : keeps.

Lemma calculateStatus_keeps rs managed e : keepsInv I (calculateStatus rs managed e).
Proof. unfold calculateStatus. keeps. Qed.

Lemma countTopologyOutdated_keeps rs tp roles : keepsInv I (countTopologyOutdated rs tp roles).
Proof. induction roles as [|role roles IH]; cbn [countTopologyOutdated]; keeps. Qed.
#[local] Hint Resolve countTopologyOutdated_keeps : keeps.

Lemma emitTopology_keeps rs : keepsInv I (emitTopologyPolicyPendingReplacementEvent rs).
Proof. unfold emitTopologyPolicyPendingReplacementEvent. keeps. Qed.

Lemma deleteEach_keeps {A} (del : A → W → W * result kubeError unit) l :
  (∀ x w, I w → I (del x w).1) → keepsInv I (deleteEach del l).
Proof. intros Hd. induction l as [|x l IH]; cbn [deleteEach]; keeps. Qed.

Lemma patchRoleSet_keeps rs patch : F patch → keepsInv I (patchRoleSet rs patch).
Proof.
  intros HF. unfold patchRoleSet. apply (keeps_bind I); [|intros; keeps]. apply (keep_Retry (F := F)). intros [[] obj];
    unfold patchRoleSetAttempt; cbv zeta.
  - apply (keeps_bind I); [|intros; keeps]. apply keeps_call. intros w. by apply keep_PatchRoleSet.
  - apply (keeps_bind I); [keeps|]. intros [fresh|e]; [|keeps]. apply (keeps_bind I); [|intros; keeps].
    apply keeps_call. intros w. by apply keep_PatchRoleSet.
Qed.

Lemma updateRoleSetStatus_keeps rs : keepsInv I (updateRoleSetStatus rs).
Proof.
  unfold updateRoleSetStatus. apply (keeps_bind I); [|intros; keeps]. apply (keep_Retry (F := F)). intros [[] obj];
    unfold updateRoleSetStatusAttempt; keeps.
Qed.

Lemma finishRoleSetPass_keeps rs result unchanged : keepsInv I (finishRoleSetPass rs result unchanged).
Proof. unfold finishRoleSetPass, hasInPlaceUpdateInProgress. keeps. Qed.

Lemma syncHistorical_keeps rs : keepsInv I (syncHistoricalNodeBindings rs).
Proof. unfold syncHistoricalNodeBindings. keeps. Qed.
#[local] Hint Resolve calculateStatus_keeps updateRoleSetStatus_keeps finishRoleSetPass_keeps emitTopology_keeps : keeps.

(** What the nodes of the pods are noted in does not change what the RoleSet is. *)
Lemma syncHistorical_yields rs : yields (syncHistoricalNodeBindings (W := W) rs) (fun rs' =>
  rs_Namespace rs' = rs_Namespace rs ∧ rs_Name rs' = rs_Name rs ∧ rs_Spec rs' = rs_Spec rs).
Proof. unfold syncHistoricalNodeBindings. returns ltac:(repeat case_match; done). Qed.

Lemma syncRoleSet_keeps rs :
  (∀ rs', rs_Namespace rs' = rs_Namespace rs → rs_Name rs' = rs_Name rs → rs_Spec rs' = rs_Spec rs →
    keepsInv I (syncPods GetRoleSyncer rs')) → keepsInv I (syncRoleSet rs).
Proof.
  intros Hs. unfold syncRoleSet. apply (keeps_bind I); [apply syncPodGroup_keeps|]. intros podGroup w Hw.
  apply holds_bind. destruct (syncHistorical_keeps rs w Hw) as [Hv Hf]. split; [done|].
  destruct (syncHistorical_yields rs w) as (Hns & Hn & Hsp). revert Hf. generalize (final (syncHistoricalNodeBindings rs) w).
  generalize dependent (value (syncHistoricalNodeBindings rs) w). intros rs' Hns Hn Hsp w1 Hw1. revert w1 Hw1.
  refine (keeps_bind I (syncPods GetRoleSyncer rs') _ (Hs rs' Hns Hn Hsp) _). intros synced. keeps.
Qed.

Lemma finalizeRoleSet_keeps rs : F (RemoveFinalizerPatch (rs_Finalizers rs) RoleSetFinalizer) → keepsInv I (finalizeRoleSet rs).
Proof.
  intros HF. unfold finalizeRoleSet. cbv zeta. apply (keeps_bind I); [keeps|]. intros [[|podSet podSets]|e]; [| |keeps].
  2:{ apply (keeps_bind I); [|intros; keeps]. apply deleteEach_keeps. intros. by apply keep_DeletePodSet. }
  apply (keeps_bind I); [keeps|]. intros [[|p pods]|e]; [| |keeps].
  2:{ apply (keeps_bind I); [|intros; keeps]. apply deleteEach_keeps. intros. by apply keep_DeletePod. }
  apply (keeps_bind I); [apply (finalizePodGroups_keeps I)|]. intros [|e]; [|keeps].
  destruct (bool_decide _); [|keeps]. apply (keeps_bind I); [by apply patchRoleSet_keeps|]. intros; keeps.
Qed.

(** A pass goes the way of the RoleSet it reads. *)
Lemma ReconcileRoleSet_holds key w : I w →
  (∀ rs, (GetRoleSet key w).2 = Ok rs →
    keepsInv I (syncRoleSet rs) ∧ keepsInv I (finalizeRoleSet rs) ∧ F (AddFinalizerPatch (rs_Finalizers rs) RoleSetFinalizer)) →
  holds I (ReconcileRoleSet key) w (fun _ w' => I w').
Proof.
  intros Hw Hrs. pose proof (keep_GetRoleSet (F := F) key w Hw) as Hw1. unfold ReconcileRoleSet.
  apply holds_bind, holds_call; [done|]. destruct (GetRoleSet key w).2 as [rs|e]; [|destruct e; by apply holds_ret].
  destruct (Hrs rs eq_refl) as (Hs & Hf & HF). destruct (bool_decide _).
  - apply (keeps_bind I); [done|intros; keeps|done].
  - destruct (negb _); [|by apply Hs]. apply (keeps_bind I); [by apply patchRoleSet_keeps|intros; keeps|done].
Qed.
End Pass.

(** ** The laws of the calls of the pass. *)

(** None of them writes pods: what happens to those meanwhile others do. *)
Class RoleSetLaws `{HX : RoleSetApi W} `{!PodStore} (rs : RoleSet) (role : RoleSpec) := {
  GetRoleSet_law key w : podsMeanwhile rs role (podsIn w) (podsIn (GetRoleSet key w).1);
  PatchRoleSet_law key patch w : podsMeanwhile rs role (podsIn w) (podsIn (PatchRoleSet key patch w).1);
  PatchRoleSetAnnotations_law a b w : podsMeanwhile rs role (podsIn w) (podsIn (PatchRoleSetAnnotations a b w).1);
  UpdateRoleSetStatus_law a w : podsMeanwhile rs role (podsIn w) (podsIn (UpdateRoleSetStatus a w).1);
  GetCRD_law name w : podsMeanwhile rs role (podsIn w) (podsIn (GetCRD name w).1);
  GetPodGroup_law gvk key w : podsMeanwhile rs role (podsIn w) (podsIn (GetPodGroup gvk key w).1);
  CreatePodGroup_law gvk key object w : podsMeanwhile rs role (podsIn w) (podsIn (CreatePodGroup gvk key object w).1);
  UpdatePodGroup_law gvk key object w : podsMeanwhile rs role (podsIn w) (podsIn (UpdatePodGroup gvk key object w).1);
  DeletePodGroup_law gvk key w : podsMeanwhile rs role (podsIn w) (podsIn (DeletePodGroup gvk key w).1);
}.

(** A closure is run again only after a conflict, and what the last run gave is
    the result. *)
Class RoleSetRetryLaws `{HX : RoleSetApi W} := {
  RetryRoleSet_law {S A} (f : S → Run W (S * result kubeError A)) (I : W → Prop) (P : S → W → Prop) st w
      (Q : S * result kubeError A → W → Prop) :
    (∀ st w, P st w → holds I (f st) w (fun r w' => Q r w' ∧ (r.2 = Err KubeConflict → P r.1 w'))) →
    P st w → holds I (RetryRoleSet f st) w Q;
}.

Lemma RetryRoleSet_keeps `{RoleSetRetryLaws W} {S A} (I : W → Prop) (f : S → Run W (S * result kubeError A)) st :
  (∀ st, keepsInv I (f st)) → keepsInv I (RetryRoleSet f st).
Proof.
  intros Hf w Hw. apply (RetryRoleSet_law f I (fun _ => I)); [|done]. intros st' w' Hw'.
  eapply holds_mono; [by apply Hf|done|]. by intros r x Hx.
Qed.

Section SameRoleSet.
Context `{HA : RoleApi W} {HS : PodStore} (rs rs' : RoleSet) (role : RoleSpec).
Context (Hns : rs_Namespace rs' = rs_Namespace rs) (Hn : rs_Name rs' = rs_Name rs).

(** The pods of a role are told by the names alone. *)
Lemma ofRole_same p : ofRole rs' role p ↔ ofRole rs role p.
Proof. unfold ofRole. by rewrite Hns, Hn. Qed.

Lemma podsMeanwhile_same m m' : podsMeanwhile rs role m m' → podsMeanwhile rs' role m m'.
Proof.
  intros Hm k. specialize (Hm k). destruct (m !! k), (m' !! k); [|by rewrite ofRole_same..|done].
  by rewrite !ofRole_same.
Qed.

Lemma running_same w : running rs' role w = running rs role w.
Proof.
  unfold running, runningIn. do 2 f_equal. apply map_filter_ext. intros k p _. unfold isRunning. by rewrite ofRole_same.
Qed.

Lemma PodLaws_same : PodLaws rs role → PodLaws rs' role.
Proof.
  intros HL. split; intros.
  - destruct (ListPods_law namespace labels w) as [Hm Hl]. split; [by apply podsMeanwhile_same|done].
  - destruct (CreatePod_law p w) as (m & Hm & Hc). exists m. split; [by apply podsMeanwhile_same|done].
  - destruct (DeletePod_law p w) as (m & Hm & Hc). exists m. split; [by apply podsMeanwhile_same|done].
  - destruct (PatchPod_law before after w) as (m & Hm & Hc). exists m. split; [by apply podsMeanwhile_same|done].
  - apply podsMeanwhile_same, PatchPodStatus_law.
  - apply podsMeanwhile_same, ListPodSets_law.
  - apply podsMeanwhile_same, CreatePodSet_law.
  - apply podsMeanwhile_same, DeletePodSet_law.
  - apply podsMeanwhile_same, RoleNow_law.
Qed.
End SameRoleSet.

Section SurgeOfPass.
Context `{HX : RoleSetApi W} `{!PodTemplates} `{RoleCodec} `{SliceSort} `{!PodStore} `{!SmallCluster} `{!K8sAppsLaws}.
Context (rs : RoleSet) (role : RoleSpec) `{!PodLaws rs role} `{!RoleSetLaws rs role} `{!RoleSetRetryLaws}.

Lemma surge_meanwhile B w w' : withinSurge rs role B w → podsMeanwhile rs role (podsIn w) (podsIn w') → withinSurge rs role B w'.
Proof. intros Hw Hm. eapply withinSurge_noNew; [done|]. by apply meanwhile_noNew. Qed.

#[export] Instance surge_keeps B : RoleSetKeeps (withinSurge rs role B) (fun _ => True).
Proof.
  split; [split|..]; intros; try (by apply RetryRoleSet_keeps);
    lazymatch goal with
    | |- withinSurge _ _ _ (DeletePod _ _).1 => eapply withinSurge_noNew; [done|]
    | |- _ => eapply surge_meanwhile; [done|]
    end.
  - apply GetCRD_law.
  - apply GetPodGroup_law.
  - apply CreatePodGroup_law.
  - apply UpdatePodGroup_law.
  - apply DeletePodGroup_law.
  - apply GetRoleSet_law.
  - apply PatchRoleSet_law.
  - apply PatchRoleSetAnnotations_law.
  - apply UpdateRoleSetStatus_law.
  - by destruct (ListPods_law namespace labels w).
  - apply ListPodSets_law.
  - by apply (in_DeletePod (PodCallsIn := noNew_calls rs role)).
  - apply DeletePodSet_law.
  - apply RoleNow_law.
Qed.
End SurgeOfPass.


(** ** The finalizer. *)

Class RoleSetStore `{RoleSetApi W} := roleSetsIn : W → gmap NamespacedName RoleSet.

Section Held.
Context `{K8sApps}.

(** The RoleSet is there, and has the controller's finalizer. *)
Definition heldIn (m : gmap NamespacedName RoleSet) (k : NamespacedName) : Prop :=
  ∃ rs, m !! k = Some rs ∧ RoleSetFinalizer ∈ rs.(rs_Finalizers).

(** An object that has a finalizer stays, and no one else takes this one away. *)
Definition roleSetsMeanwhile (m m' : gmap NamespacedName RoleSet) : Prop := ∀ k, heldIn m k → heldIn m' k.

Definition withFinalizers (finalizers : list string) (rs : RoleSet) : RoleSet :=
  MkRoleSet rs.(rs_Namespace) rs.(rs_Name) rs.(rs_GenerateName) rs.(rs_UID) rs.(rs_Labels) rs.(rs_Annotations)
    rs.(rs_DeletionTimestamp) finalizers rs.(rs_Controller) rs.(rs_Spec) rs.(rs_Roles) rs.(rs_Conditions).

Definition patchedFinalizers (patch : finalizerPatch) : list string :=
  match patch with RemoveFinalizers => [] | SetFinalizers finalizers => finalizers end.

Definition leavesFinalizer (patch : finalizerPatch) : Prop := RoleSetFinalizer ∈ patchedFinalizers patch.
End Held.

Class FinalizerLaws `{RoleSetStore W} := {
  held_ListPods namespace labels w : roleSetsMeanwhile (roleSetsIn w) (roleSetsIn (ListPods namespace labels w).1);
  held_CreatePod p w : roleSetsMeanwhile (roleSetsIn w) (roleSetsIn (CreatePod p w).1);
  held_DeletePod p w : roleSetsMeanwhile (roleSetsIn w) (roleSetsIn (DeletePod p w).1);
  held_PatchPod p q w : roleSetsMeanwhile (roleSetsIn w) (roleSetsIn (PatchPod p q w).1);
  held_PatchPodStatus p q w : roleSetsMeanwhile (roleSetsIn w) (roleSetsIn (PatchPodStatus p q w).1);
  held_ListPodSets namespace labels w : roleSetsMeanwhile (roleSetsIn w) (roleSetsIn (ListPodSets namespace labels w).1);
  held_CreatePodSet podSet w : roleSetsMeanwhile (roleSetsIn w) (roleSetsIn (CreatePodSet podSet w).1);
  held_DeletePodSet podSet w : roleSetsMeanwhile (roleSetsIn w) (roleSetsIn (DeletePodSet podSet w).1);
  held_RoleNow w : roleSetsMeanwhile (roleSetsIn w) (roleSetsIn (RoleNow w).1);
  held_GetRoleSet key w : roleSetsMeanwhile (roleSetsIn w) (roleSetsIn (GetRoleSet key w).1);
  held_PatchRoleSetAnnotations a b w : roleSetsMeanwhile (roleSetsIn w) (roleSetsIn (PatchRoleSetAnnotations a b w).1);
  held_UpdateRoleSetStatus a w : roleSetsMeanwhile (roleSetsIn w) (roleSetsIn (UpdateRoleSetStatus a w).1);
  held_GetCRD name w : roleSetsMeanwhile (roleSetsIn w) (roleSetsIn (GetCRD name w).1);
  held_GetPodGroup gvk key w : roleSetsMeanwhile (roleSetsIn w) (roleSetsIn (GetPodGroup gvk key w).1);
  held_CreatePodGroup gvk key object w : roleSetsMeanwhile (roleSetsIn w) (roleSetsIn (CreatePodGroup gvk key object w).1);
  held_UpdatePodGroup gvk key object w : roleSetsMeanwhile (roleSetsIn w) (roleSetsIn (UpdatePodGroup gvk key object w).1);
  held_DeletePodGroup gvk key w : roleSetsMeanwhile (roleSetsIn w) (roleSetsIn (DeletePodGroup gvk key w).1);
  (** The patch replaces the list of finalizers, or not, whatever is reported; a
      RoleSet may be gone with the last of them. *)
  held_PatchRoleSet key patch w : let w' := (PatchRoleSet key patch w).1 in
    ∃ m, roleSetsMeanwhile (roleSetsIn w) m ∧
      (roleSetsIn w' = m ∨ roleSetsIn w' = alter (withFinalizers (patchedFinalizers patch)) key m ∨
       patchedFinalizers patch = [] ∧ roleSetsIn w' = delete key m);
}.

Section Finalizer.
Context `{HX : RoleSetApi W} `{!PodTemplates} `{RoleCodec} `{SliceSort} `{!RoleSetStore} `{HF : !FinalizerLaws}.
Context `{HR : !RoleSetRetryLaws} (k : NamespacedName).

Definition held (w : W) : Prop := heldIn (roleSetsIn w) k.

#[export] Instance preservesHeld_pods : PodCallsIn (preserves held) (fun _ => True) (fun _ => True) (fun _ => True).
Proof.
  split; unfold preserves, held; intros.
  - by apply held_ListPods.
  - by apply held_CreatePod.
  - by apply held_DeletePod.
  - by apply held_PatchPod.
  - by apply held_PatchPod.
  - by apply held_PatchPodStatus.
  - by apply held_ListPodSets.
  - by apply held_CreatePodSet.
  - by apply held_DeletePodSet.
  - by apply held_RoleNow.
Qed.

#[export] Instance held_keeps : RoleSetKeeps held leavesFinalizer.
Proof.
  split; [split|..]; unfold held; intros.
  - by apply held_GetCRD.
  - by apply held_GetPodGroup.
  - by apply held_CreatePodGroup.
  - by apply held_UpdatePodGroup.
  - by apply held_DeletePodGroup.
  - by apply held_GetRoleSet.
  - destruct (held_PatchRoleSet key patch w) as (m & Hm & Hc).
    rename select (heldIn _ _) into Hh. destruct (Hm k Hh) as (rs & Hk & Hin).
    rename select (leavesFinalizer _) into Hl. unfold leavesFinalizer in Hl.
    destruct Hc as [->|[->|[Hnil _]]]; [by exists rs| |rewrite Hnil in Hl; by apply elem_of_nil in Hl]. destruct (decide (key = k)) as [->|Hne].
    + exists (withFinalizers (patchedFinalizers patch) rs). split; [by rewrite lookup_alter_eq, Hk|done].
    + exists rs. by rewrite lookup_alter_ne.
  - by apply held_PatchRoleSetAnnotations.
  - by apply held_UpdateRoleSetStatus.
  - by apply held_ListPods.
  - by apply held_ListPodSets.
  - by apply held_DeletePod.
  - by apply held_DeletePodSet.
  - by apply held_RoleNow.
  - by apply RetryRoleSet_keeps.
Qed.

Lemma syncRoleSet_held rs : keepsInv held (syncRoleSet rs).
Proof.
  apply (syncRoleSet_keeps held leavesFinalizer). intros rs' _ _ _. apply syncPods_keeps. intros role _.
  apply (GetRoleSyncer_keeps held (preserves held) (fun _ => True)); [intros w w' Hw HR'; by apply HR'|done|done].
Qed.

Lemma AddFinalizerPatch_leaves `{!K8sAppsLaws} finalizers : leavesFinalizer (AddFinalizerPatch finalizers RoleSetFinalizer).
Proof.
  unfold leavesFinalizer, AddFinalizerPatch. cbn [patchedFinalizers]. rewrite StringSetList_spec. apply elem_of_elements. set_solver.
Qed.

(** No pod of the RoleSet. *)
Definition noPods `{!PodStore} (rs : RoleSet) (w : W) : Prop :=
  ∀ key p, podsIn w !! key = Some p → rp_Namespace p = rs_Namespace rs → rp_Labels p !! RoleSetNameLabelKey ≠ Some (rs_Name rs).

Lemma finalizeRoleSet_heldUntil `{!PodStore} rs role `{!PodLaws rs role} w : keptUntil held (noPods rs) (finalizeRoleSet rs) w.
Proof.
  unfold finalizeRoleSet. cbv zeta. set (labels := {[ RoleSetNameLabelKey := rs_Name rs ]}).
  apply keptUntil_bind; [apply keptUntil_keeps, keeps_call; intros; by apply (keep_ListPodSets (F := leavesFinalizer))|right].
  destruct (value _ w) as [[|podSet podSets]|e]; [| |by apply keptUntil_ret].
  2:{ apply keptUntil_keeps, keeps_bind; [|intros; apply keeps_ret]. apply (deleteEach_keeps held).
      intros. by apply (keep_DeletePodSet (F := leavesFinalizer)). }
  generalize (final (call (ListPodSets (rs_Namespace rs) labels)) w). intros w1.
  apply keptUntil_bind; [apply keptUntil_keeps, keeps_call; intros; by apply (keep_ListPods (F := leavesFinalizer))|].
  rewrite value_call. destruct (ListPods_law (rs_Namespace rs) labels w1) as [_ Hl].
  destruct (ListPods (rs_Namespace rs) labels w1) as [w2 r] eqn:E. cbn [fst snd] in *.
  destruct r as [[|p pods]|e]; [left|right|right; by apply keptUntil_ret].
  2:{ apply keptUntil_keeps, keeps_bind; [|intros; apply keeps_ret]. apply (deleteEach_keeps held).
      intros. by apply (keep_DeletePod (F := leavesFinalizer)). }
  exists w2. split; [unfold visited, call; rewrite E; set_solver|]. intros key p Hk Hns Hlab.
  destruct (Hl [] eq_refl) as [_ Hiff]. eapply (not_elem_of_nil p), Hiff. rewrite (podsIn_key _ _ _ Hk). split_and!; [done|done|].
  by apply map_singleton_subseteq_l.
Qed.
End Finalizer.

(** C17: A RoleSet outlives its pods.  In a pass over a RoleSet that has the
    controller's finalizer, the RoleSet is there with its finalizer at every
    moment, up to one before which the server was seen to have no pod of it:
    the pass that finds pods left deletes them, whatever fails, and leaves the
    finalizer. *)
Theorem roleset_finalizer_outlives_pods `{HX : RoleSetApi W} `{!PodTemplates} `{RoleCodec} `{SliceSort} `{!PodStore}
    `{!RoleSetStore} `{!FinalizerLaws} `{!RoleSetRetryLaws} `{!K8sAppsLaws} rs role `{!PodLaws rs role} key w t1 w' t2 :
  (GetRoleSet key w).2 = Ok rs → held key w → visited (ReconcileRoleSet key) w = t1 ++ w' :: t2 →
  held key w' ∨ ∃ x, x ∈ t1 ∧ noPods rs x.
Proof.
  intros Hget. cut (keptUntil (held key) (noPods rs) (ReconcileRoleSet key) w); [intros Hc Hw; by apply (proj1 (Hc Hw))|]. unfold ReconcileRoleSet.
  apply keptUntil_bind; [apply keptUntil_keeps, keeps_call; intros; by apply (keep_GetRoleSet (F := leavesFinalizer))|right].
  rewrite value_call, Hget. destruct (bool_decide _).
  - apply keptUntil_bind; [by eapply finalizeRoleSet_heldUntil|right; apply keptUntil_ret].
  - destruct (negb _); [|apply keptUntil_keeps, syncRoleSet_held]. apply keptUntil_keeps, keeps_bind; [|intros; apply keeps_ret].
    apply (patchRoleSet_keeps _ leavesFinalizer), AddFinalizerPatch_leaves.
Qed.
