(* ===== verification/PodSetFacts.v ===== *)
(** * What holds throughout the reconciliation of a PodSet.

    The pods of a PodSet that is recreated as a whole start afresh, all of
    them after the last of the old ones; and a PodSet that is deleted keeps
    its finalizer until none of its pods are left. *)

From S2P Require Import Prelude Api Claims Ledger KVPlan Placement Reservations Runtime Storm StormSync PodTypes RolePods RoleRender PodDrain InPlace RoleSync RoleSetLoop PodSetLoop PodLaws RoleSurge RoleSetFacts.

(** ** An invariant of the calls is one of the pass. *)

(** [F] is how a PodSet may be updated, [C] what pods may be created. *)
Class PodSetKeeps `{PodSetApi W} (I : W → Prop) (F : PodSet → Prop) (C : RolePod → Prop) := {
  podSet_gang : GangKeeps I;
  podSet_pods : PodCallsIn (preserves I) C (fun _ => True) (fun _ => True);
  keep_GetPodSet key w : I w → I (GetPodSet key w).1;
  keep_UpdatePodSet podSet w : F podSet → I w → I (UpdatePodSet podSet w).1;
  keep_UpdatePodSetStatus podSet w : I w → I (UpdatePodSetStatus podSet w).1;
}.

Section Pass.
Context `{HX : PodSetApi W} `{!PodTemplates} `{SliceSort}.
Context (I : W → Prop) (F : PodSet → Prop) (C : RolePod → Prop) {HI : PodSetKeeps I F C}.

#[local] Instance pass_gang_keeps : GangKeeps I := podSet_gang (F := F) (C := C).
#[local] Instance pass_pods_keep : PodCallsIn (preserves I) C (fun _ => True) (fun _ => True) := podSet_pods (F := F).

Lemma getPodsForPodSet_keeps podSet : keepsInv I (getPodsForPodSet podSet).
Proof. apply keeps_call. intros. by apply (in_ListPods (R := preserves I) (C := C)). Qed.

Lemma deleteGroupPods_keeps pods spec reason : keepsInv I (deleteGroupPods pods spec reason).
Proof.
  apply (keeps_bind I); [apply keeps_call; intros; by apply (in_RoleNow (R := preserves I) (C := C))|]. intros now.
  apply preserves_keeps. apply (DeletePods_in (preserves I) C (fun _ => True) (fun _ => True)); by apply Forall_true.
Qed.

Lemma cancelStale_keeps active pods : keepsInv I (cancelStaleScaleInDrain active pods).
Proof. apply preserves_keeps. apply (cancelPods_in (preserves I) C (fun _ => True) (fun _ => True)). Qed.

Lemma createGroupPods_keeps podSet indices : (∀ i, C (createPodFromTemplate podSet i)) → keepsInv I (createGroupPods podSet indices).
Proof.
  intros HC. induction indices as [|i indices IH]; cbn [createGroupPods]; [apply (keeps_ret I)|].
  apply (keeps_bind I); [apply keeps_call; intros; by apply (in_CreatePod (R := preserves I) (C := C))|].
  intros [|e]; [done|]. destruct e; done || apply (keeps_ret I).
Qed.

Lemma updatePodSetStatus_keeps podSet : keepsInv I (updatePodSetStatus podSet).
Proof.
  apply (keeps_bind I); [apply getPodsForPodSet_keeps|]. intros [pods|e]; [|apply (keeps_ret I)]. cbv zeta.
  destruct (_ && _); [apply (keeps_ret I)|]. apply keeps_call. intros. by apply (keep_UpdatePodSetStatus (F := F) (C := C)).
Qed.

Lemma reconcilePodGroup_keeps podSet : keepsInv I (reconcilePodGroup podSet).
Proof.
  unfold reconcilePodGroup. destruct (pset_SchedulingStrategy podSet); [apply (ensurePodGroups_keeps I)|apply (keeps_ret I)].
Qed.

Lemma handleScaleDown_keeps podSet active current desired : keepsInv I (handleScaleDown podSet active current desired).
Proof.
  apply (keeps_bind I); [apply cancelStale_keeps|]. intros cancelled. destruct cancelled.2; [apply (keeps_ret I)|].
  apply (keeps_bind I); [apply deleteGroupPods_keeps|]. intros deleted. destruct deleted.2; apply (keeps_ret I).
Qed.

(** What is done of a listing, apart from creating pods. *)
Lemma handleReplaceUnhealthy_keeps podSet active desired :
  (∀ i, C (createPodFromTemplate podSet i)) → keepsInv I (handleReplaceUnhealthy podSet active desired).
Proof.
  intros HC. unfold handleReplaceUnhealthy. destruct (List.filter _ _); [|apply deleteGroupPods_keeps].
  apply (keeps_bind I); [by apply createGroupPods_keeps|intros; apply (keeps_ret I)].
Qed.

Lemma reconcilePods_until seen podSet w :
  (pset_RecoveryPolicy podSet = ReplaceUnhealthy → ∀ i, C (createPodFromTemplate podSet i)) →
  (∀ pods, value (getPodsForPodSet podSet) w = Ok pods → terminatedPods pods = [] → groupActivePods pods = [] →
    (∀ i, C (createPodFromTemplate podSet i)) ∨ seen (final (getPodsForPodSet podSet) w)) →
  keptUntil I seen (reconcilePods podSet) w.
Proof.
  intros HC Hseen. unfold reconcilePods.
  pose proof (keptUntil_keeps I seen _ w (getPodsForPodSet_keeps podSet)) as Hget.
  apply keptUntil_bind; [exact Hget|].
  destruct (value (getPodsForPodSet podSet) w) as [pods|e]; [|right; apply keptUntil_ret].
  destruct (terminatedPods pods) as [|t ts] eqn:Et; [|right; apply keptUntil_keeps, deleteGroupPods_keeps]. cbv zeta.
  destruct (_ <? _); [|right; destruct (_ <? _); apply keptUntil_keeps; [apply handleScaleDown_keeps|apply cancelStale_keeps]].
  case_bool_decide as Hr; [right; by apply keptUntil_keeps, handleReplaceUnhealthy_keeps, HC|].
  case_bool_decide as Hp; [|right; apply keptUntil_keeps, cancelStale_keeps].
  destruct (groupActivePods pods) as [|p ps] eqn:Ea; [|right; apply keptUntil_keeps, deleteGroupPods_keeps].
  destruct (Hseen pods eq_refl Et Ea) as [Hc|Hs].
  - right. apply keptUntil_keeps, (keeps_bind I); [by apply createGroupPods_keeps|intros; apply (keeps_ret I)].
  - left. exists (final (getPodsForPodSet podSet) w). split; [|done]. unfold getPodsForPodSet, visited, final, call.
    destruct (ListPods _ _ w). apply list_elem_of_singleton. done.
Qed.

Lemma syncPodSet_until seen podSet w :
  (∀ w, keptUntil I seen (reconcilePods podSet) w) → keptUntil I seen (syncPodSet podSet) w.
Proof.
  intros Hp. unfold syncPodSet. apply keptUntil_bind; [apply keptUntil_keeps, reconcilePodGroup_keeps|right].
  destruct (value _ w); [|apply keptUntil_ret]. apply keptUntil_bind; [apply Hp|right].
  destruct (value (reconcilePods podSet) _).2; [apply keptUntil_ret|].
  apply keptUntil_bind; [apply keptUntil_keeps, updatePodSetStatus_keeps|right; apply keptUntil_ret].
Qed.

Lemma finalizePodSet_until seen podSet w :
  (value (getPodsForPodSet podSet) w = Ok [] →
    F (setPodSetFinalizers podSet (List.filter (fun f => negb (bool_decide (f = PodSetFinalizer))) (pset_Finalizers podSet))) ∨
    seen (final (getPodsForPodSet podSet) w)) →
  keptUntil I seen (finalizePodSet podSet) w.
Proof.
  intros Hseen. unfold finalizePodSet.
  pose proof (keptUntil_keeps I seen _ w (getPodsForPodSet_keeps podSet)) as Hget.
  apply keptUntil_bind; [exact Hget|]. destruct (value (getPodsForPodSet podSet) w) as [[|p ps]|e]; [| |right; apply keptUntil_ret].
  2:{ right. apply keptUntil_keeps, (keeps_bind I); [apply deleteGroupPods_keeps|intros; apply (keeps_ret I)]. }
  destruct (Hseen eq_refl) as [Hf|Hs].
  - right. apply keptUntil_keeps, (keeps_bind I); [apply (finalizePodGroups_keeps I)|]. intros [|e]; [|apply (keeps_ret I)].
    apply (keeps_bind I); [|intros; apply (keeps_ret I)]. apply keeps_call. intros. by apply (keep_UpdatePodSet (F := F) (C := C)).
  - left. exists (final (getPodsForPodSet podSet) w). split; [|done]. unfold getPodsForPodSet, visited, final, call.
    destruct (ListPods _ _ w). apply list_elem_of_singleton. done.
Qed.

(** A pass goes the way of the PodSet it reads. *)
Lemma ReconcilePodSet_until seen key podSet w :
  (GetPodSet key w).2 = Ok podSet → F (setPodSetFinalizers podSet (pset_Finalizers podSet ++ [PodSetFinalizer])) →
  (∀ w, keptUntil I seen (reconcilePods podSet) w) → (∀ w, keptUntil I seen (finalizePodSet podSet) w) →
  keptUntil I seen (ReconcilePodSet key) w.
Proof.
  intros Hget HF Hp Hf. unfold ReconcilePodSet.
  apply keptUntil_bind; [apply keptUntil_keeps, keeps_call; intros; by apply (keep_GetPodSet (F := F) (C := C))|right].
  rewrite value_call, Hget. destruct (bool_decide _); [apply Hf|]. destruct (negb _); [|by apply syncPodSet_until].
  apply keptUntil_keeps, (keeps_bind I); [|intros; apply (keeps_ret I)]. apply keeps_call. intros.
  by apply (keep_UpdatePodSet (F := F) (C := C)).
Qed.
End Pass.

(** ** The members of a group. *)

Section Members.
Context `{K8sApps} `{PodTypes}.

Definition inGroup (podSet : PodSet) (p : RolePod) : Prop :=
  rp_Namespace p = pset_Namespace podSet ∧ rp_Labels p !! PodSetNameLabelKey = Some (pset_Name podSet).

(** No pod is of the group that was not. *)
Definition noNewMemberIn (podSet : PodSet) (m m' : gmap NamespacedName RolePod) : Prop :=
  ∀ k p', m' !! k = Some p' → inGroup podSet p' → ∃ p, m !! k = Some p ∧ inGroup podSet p.

#[export] Instance noNewMemberIn_preorder podSet : PreOrder (noNewMemberIn podSet).
Proof.
  split; [intros m k p' Hk Hg; by exists p'|].
  intros a b c Hab Hbc k p' Hk Hg. destruct (Hbc k p' Hk Hg) as (p & Hp & Hg'). by apply (Hab k p).
Qed.

Lemma noNewMember_deleted podSet k m m' : podDeleted k m m' → noNewMemberIn podSet m m'.
Proof.
  intros [->|[t ->]] k' p' Hk Hg; [apply lookup_delete_Some in Hk as [_ Hk]; by exists p'|].
  destruct (decide (k = k')) as [->|Hne]; [|rewrite lookup_alter_ne in Hk by done; by exists p'].
  rewrite lookup_alter_eq in Hk. apply fmap_Some in Hk as (p & Hp & ->). by exists p.
Qed.

Lemma noNewMember_patched podSet before after m m' :
  keepsRole before after → podPatched before after m m' → noNewMemberIn podSet m m'.
Proof.
  intros (_ & _ & Hl) (p & q & Hp & Hq & ->) k p' Hk [Hns Hlab].
  destruct (decide (podKeyOf before = k)) as [<-|Hne]; [|rewrite lookup_insert_ne in Hk by done; by exists p'].
  rewrite lookup_insert_eq in Hk. injection Hk as <-. exists p. split; [done|]. destruct Hq as [Hkey Hm _ _ _ _].
  injection Hkey as Hn _. split; [congruence|]. by rewrite <- (mergedMap_same _ _ _ _ _ Hm Hl).
Qed.
End Members.

(** What the calls do to the members of a group: no one else makes pods of it,
    and listings are current. *)
Class GroupLaws `{HX : PodSetApi W} `{!PodStore} (podSet : PodSet) := {
  group_ListPods namespace labels w : let w' := (ListPods namespace labels w).1 in
    noNewMemberIn podSet (podsIn w) (podsIn w') ∧
    ∀ items, (ListPods namespace labels w).2 = Ok items →
      ∀ p, p ∈ items ↔ podsIn w' !! podKeyOf p = Some p ∧ rp_Namespace p = namespace ∧ labels ⊆ rp_Labels p;
  group_DeletePod p w : let w' := (DeletePod p w).1 in
    ∃ m, noNewMemberIn podSet (podsIn w) m ∧ (podsIn w' = m ∨ podDeleted (podKeyOf p) m (podsIn w'));
  group_PatchPod before after w : let w' := (PatchPod before after w).1 in
    ∃ m, noNewMemberIn podSet (podsIn w) m ∧ (podsIn w' = m ∨ podPatched before after m (podsIn w'));
  group_PatchPodStatus p q w : noNewMemberIn podSet (podsIn w) (podsIn (PatchPodStatus p q w).1);
  group_ListPodSets namespace labels w : noNewMemberIn podSet (podsIn w) (podsIn (ListPodSets namespace labels w).1);
  group_CreatePodSet p w : noNewMemberIn podSet (podsIn w) (podsIn (CreatePodSet p w).1);
  group_DeletePodSet p w : noNewMemberIn podSet (podsIn w) (podsIn (DeletePodSet p w).1);
  group_RoleNow w : noNewMemberIn podSet (podsIn w) (podsIn (RoleNow w).1);
  group_GetPodSet key w : noNewMemberIn podSet (podsIn w) (podsIn (GetPodSet key w).1);
  group_UpdatePodSet p w : noNewMemberIn podSet (podsIn w) (podsIn (UpdatePodSet p w).1);
  group_UpdatePodSetStatus p w : noNewMemberIn podSet (podsIn w) (podsIn (UpdatePodSetStatus p w).1);
  group_GetCRD name w : noNewMemberIn podSet (podsIn w) (podsIn (GetCRD name w).1);
  group_GetPodGroup gvk key w : noNewMemberIn podSet (podsIn w) (podsIn (GetPodGroup gvk key w).1);
  group_CreatePodGroup gvk key object w : noNewMemberIn podSet (podsIn w) (podsIn (CreatePodGroup gvk key object w).1);
  group_UpdatePodGroup gvk key object w : noNewMemberIn podSet (podsIn w) (podsIn (UpdatePodGroup gvk key object w).1);
  group_DeletePodGroup gvk key w : noNewMemberIn podSet (podsIn w) (podsIn (DeletePodGroup gvk key w).1);
}.

Section Recreate.
Context `{HX : PodSetApi W} `{!PodTemplates} `{SliceSort} `{!PodStore} (podSet : PodSet) `{HL : !GroupLaws podSet}.

Definition noNewMember (w w' : W) : Prop := noNewMemberIn podSet (podsIn w) (podsIn w').

(** Every pod of the group that is left has ended and is being deleted. *)
Definition groupEnded (w : W) : Prop :=
  ∀ k p, podsIn w !! k = Some p → inGroup podSet p →
    IsPodPhaseTerminal (rp_Phase p) = true ∧ is_Some (rp_DeletionTimestamp p).

#[local] Instance noNewMember_gang w0 : GangKeeps (noNewMember w0).
Proof.
  split; unfold noNewMember; intros; (etrans; [eassumption|]).
  - apply group_GetCRD.
  - apply group_GetPodGroup.
  - apply group_CreatePodGroup.
  - apply group_UpdatePodGroup.
  - apply group_DeletePodGroup.
Qed.

#[local] Instance noNewMember_pods w0 : PodCallsIn (preserves (noNewMember w0)) (fun _ => False) (fun _ => True) (fun _ => True).
Proof.
  split; unfold preserves, noNewMember; intros; try done;
    lazymatch goal with H : noNewMemberIn _ (podsIn w0) _ |- _ => etrans; [exact H|] end.
  - apply group_ListPods.
  - destruct (group_DeletePod p w) as (m & Hm & [->|Hd]); [done|]. etrans; [exact Hm|by eapply noNewMember_deleted].
  - destruct (group_PatchPod p q w) as (m & Hm & [->|Hd]); [done|]. etrans; [exact Hm|by eapply noNewMember_patched].
  - destruct (group_PatchPod p q w) as (m & Hm & [->|Hd]); [done|]. etrans; [exact Hm|].
    eapply noNewMember_patched; [|done]. by apply harmless_keepsRole.
  - apply group_PatchPodStatus.
  - apply group_ListPodSets.
  - apply group_CreatePodSet.
  - apply group_DeletePodSet.
  - apply group_RoleNow.
Qed.

#[export] Instance noNewMember_keeps w0 : PodSetKeeps (noNewMember w0) (fun _ => True) (fun _ => False).
Proof.
  split; [apply _|apply _|..]; unfold noNewMember; intros; (etrans; [eassumption|]).
  - apply group_GetPodSet.
  - apply group_UpdatePodSet.
  - apply group_UpdatePodSetStatus.
Qed.

(** A listing has all the members. *)
Lemma listed_members w pods k p : value (getPodsForPodSet podSet) w = Ok pods →
  podsIn (final (getPodsForPodSet podSet) w) !! k = Some p → inGroup podSet p → p ∈ pods.
Proof.
  unfold getPodsForPodSet. rewrite value_call, final_call. intros Hl Hk [Hns Hlab].
  destruct (group_ListPods (pset_Namespace podSet) {[ PodSetNameLabelKey := pset_Name podSet ]} w) as [_ Hiff].
  apply (Hiff pods Hl). rewrite (podsIn_key _ _ _ Hk). split_and!; [done|done|by apply map_singleton_subseteq_l].
Qed.

(** One in which no pod is active and none is to be removed. *)
Lemma listed_ended w pods : value (getPodsForPodSet podSet) w = Ok pods →
  terminatedPods pods = [] → groupActivePods pods = [] → groupEnded (final (getPodsForPodSet podSet) w).
Proof.
  intros Hl Ht Ha k p Hk Hg. pose proof (listed_members w pods k p Hl Hk Hg) as Hin.
  destruct (IsPodPhaseTerminal (rp_Phase p)) eqn:Ep.
  - split; [done|]. destruct (rp_DeletionTimestamp p) eqn:Ed; [done|]. exfalso. apply (not_elem_of_nil p). rewrite <- Ht.
    apply elem_of_list_filter_bool. by rewrite Ep, Ed.
  - exfalso. apply (not_elem_of_nil p). rewrite <- Ha. apply elem_of_list_filter_bool. by rewrite Ep.
Qed.
End Recreate.

(** C19: A group that is recreated starts afresh.  In a pass over a PodSet whose
    policy is to recreate its pods together, no pod of the group appears,
    whatever calls fail, before a moment at which every pod of it that was
    left had ended and was being deleted: old and new pods never run side by
    side. *)
Theorem recreated_group_starts_afresh `{HX : PodSetApi W} `{!PodTemplates} `{SliceSort} `{!PodStore}
    podSet `{HL : !GroupLaws podSet} key w t1 w' t2 :
  (GetPodSet key w).2 = Ok podSet → pset_RecoveryPolicy podSet = RecreatePodRecreateStrategy →
  visited (ReconcilePodSet key) w = t1 ++ w' :: t2 →
  noNewMember podSet w w' ∨ ∃ x, x ∈ t1 ∧ groupEnded podSet x.
Proof.
  intros Hget Hp.
  cut (keptUntil (noNewMember podSet w) (groupEnded podSet) (ReconcilePodSet key) w).
  { intros Hc. apply Hc. unfold noNewMember. done. }
  eapply (ReconcilePodSet_until _ (fun _ => True) (fun _ => False)); [exact Hget|done| |].
  - intros w1. apply (reconcilePods_until _ (fun _ => True) (fun _ => False)); [by rewrite Hp|]. intros pods Hl Ht Ha. right.
    by apply (listed_ended podSet w1 pods).
  - intros w1. apply (finalizePodSet_until _ (fun _ => True) (fun _ => False)). intros _. by left.
Qed.

(** ** The finalizer. *)

Class PodSetStore `{PodSetApi W} := podSetsIn : W → gmap NamespacedName PodSet.

Section GroupHeld.
Context `{K8sApps} `{PodTypes}.

(** The PodSet is there, and has the controller's finalizer. *)
Definition groupHeldIn (m : gmap NamespacedName PodSet) (k : NamespacedName) : Prop :=
  ∃ podSet, m !! k = Some podSet ∧ PodSetFinalizer ∈ podSet.(pset_Finalizers).

(** An object that has a finalizer stays, and no one else takes this one away. *)
Definition podSetsMeanwhile (m m' : gmap NamespacedName PodSet) : Prop := ∀ k, groupHeldIn m k → groupHeldIn m' k.

(** An update replaces the finalizers; a PodSet may be gone with the last of
    them. *)
Definition podSetUpdated (podSet : PodSet) (m m' : gmap NamespacedName PodSet) : Prop :=
  (∃ q, pset_Finalizers q = pset_Finalizers podSet ∧ m' = <[podSetKeyOf podSet := q]> m) ∨
  pset_Finalizers podSet = [] ∧ m' = delete (podSetKeyOf podSet) m.
End GroupHeld.

Class PodSetFinalizerLaws `{PodSetStore W} := {
  set_ListPods namespace labels w : podSetsMeanwhile (podSetsIn w) (podSetsIn (ListPods namespace labels w).1);
  set_CreatePod p w : podSetsMeanwhile (podSetsIn w) (podSetsIn (CreatePod p w).1);
  set_DeletePod p w : podSetsMeanwhile (podSetsIn w) (podSetsIn (DeletePod p w).1);
  set_PatchPod p q w : podSetsMeanwhile (podSetsIn w) (podSetsIn (PatchPod p q w).1);
  set_PatchPodStatus p q w : podSetsMeanwhile (podSetsIn w) (podSetsIn (PatchPodStatus p q w).1);
  set_ListPodSets namespace labels w : podSetsMeanwhile (podSetsIn w) (podSetsIn (ListPodSets namespace labels w).1);
  set_CreatePodSet podSet w : podSetsMeanwhile (podSetsIn w) (podSetsIn (CreatePodSet podSet w).1);
  set_DeletePodSet podSet w : podSetsMeanwhile (podSetsIn w) (podSetsIn (DeletePodSet podSet w).1);
  set_RoleNow w : podSetsMeanwhile (podSetsIn w) (podSetsIn (RoleNow w).1);
  set_GetPodSet key w : podSetsMeanwhile (podSetsIn w) (podSetsIn (GetPodSet key w).1);
  set_UpdatePodSet podSet w : let w' := (UpdatePodSet podSet w).1 in
    ∃ m, podSetsMeanwhile (podSetsIn w) m ∧ (podSetsIn w' = m ∨ podSetUpdated podSet m (podSetsIn w'));
  set_UpdatePodSetStatus podSet w : podSetsMeanwhile (podSetsIn w) (podSetsIn (UpdatePodSetStatus podSet w).1);
  set_GetCRD name w : podSetsMeanwhile (podSetsIn w) (podSetsIn (GetCRD name w).1);
  set_GetPodGroup gvk key w : podSetsMeanwhile (podSetsIn w) (podSetsIn (GetPodGroup gvk key w).1);
  set_CreatePodGroup gvk key object w : podSetsMeanwhile (podSetsIn w) (podSetsIn (CreatePodGroup gvk key object w).1);
  set_UpdatePodGroup gvk key object w : podSetsMeanwhile (podSetsIn w) (podSetsIn (UpdatePodGroup gvk key object w).1);
  set_DeletePodGroup gvk key w : podSetsMeanwhile (podSetsIn w) (podSetsIn (DeletePodGroup gvk key w).1);
}.

Section GroupFinalizer.
Context `{HX : PodSetApi W} `{!PodTemplates} `{SliceSort} `{!PodSetStore} `{HF : !PodSetFinalizerLaws}.
Context (k : NamespacedName).

Definition groupHeld (w : W) : Prop := groupHeldIn (podSetsIn w) k.

Definition leavesPodSetFinalizer (podSet : PodSet) : Prop := PodSetFinalizer ∈ pset_Finalizers podSet.

#[local] Instance groupHeld_gang : GangKeeps groupHeld.
Proof.
  split; unfold groupHeld; intros.
  - by apply set_GetCRD.
  - by apply set_GetPodGroup.
  - by apply set_CreatePodGroup.
  - by apply set_UpdatePodGroup.
  - by apply set_DeletePodGroup.
Qed.

#[local] Instance groupHeld_pods : PodCallsIn (preserves groupHeld) (fun _ => True) (fun _ => True) (fun _ => True).
Proof.
  split; unfold preserves, groupHeld; intros.
  - by apply set_ListPods.
  - by apply set_CreatePod.
  - by apply set_DeletePod.
  - by apply set_PatchPod.
  - by apply set_PatchPod.
  - by apply set_PatchPodStatus.
  - by apply set_ListPodSets.
  - by apply set_CreatePodSet.
  - by apply set_DeletePodSet.
  - by apply set_RoleNow.
Qed.

Lemma groupHeld_updated podSet m m' :
  leavesPodSetFinalizer podSet → podSetUpdated podSet m m' → groupHeldIn m k → groupHeldIn m' k.
Proof.
  unfold leavesPodSetFinalizer. intros Hl [(q & Hq & ->)|[Hnil _]] (s & Hk & Hs); [|rewrite Hnil in Hl; by apply elem_of_nil in Hl].
  destruct (decide (podSetKeyOf podSet = k)) as [<-|Hne].
  - exists q. by rewrite lookup_insert_eq, Hq.
  - exists s. by rewrite lookup_insert_ne.
Qed.

#[export] Instance groupHeld_keeps : PodSetKeeps groupHeld leavesPodSetFinalizer (fun _ => True).
Proof.
  split; [apply _|apply _|..]; unfold groupHeld; intros.
  - by apply set_GetPodSet.
  - destruct (set_UpdatePodSet podSet w) as (m & Hm & [->|Hu]); [by apply Hm|]. eapply groupHeld_updated; [done|exact Hu|by apply Hm].
  - by apply set_UpdatePodSetStatus.
Qed.
End GroupFinalizer.

(** C20: A PodSet outlives its pods.  In a pass over a PodSet that has the
    controller's finalizer, the PodSet is there with its finalizer at every
    moment, whatever fails, up to one before which the server was seen to
    have no pod of the group. *)
Theorem podset_finalizer_outlives_pods `{HX : PodSetApi W} `{!PodTemplates} `{SliceSort} `{!PodStore} `{!PodSetStore}
    `{!PodSetFinalizerLaws} podSet `{HL : !GroupLaws podSet} key w t1 w' t2 :
  (GetPodSet key w).2 = Ok podSet → groupHeld key w → visited (ReconcilePodSet key) w = t1 ++ w' :: t2 →
  groupHeld key w' ∨ ∃ x, x ∈ t1 ∧ ∀ k p, podsIn x !! k = Some p → ¬ inGroup podSet p.
Proof.
  intros Hget Hh. set (seen x := ∀ k p, podsIn x !! k = Some p → ¬ inGroup podSet p).
  cut (keptUntil (groupHeld key) seen (ReconcilePodSet key) w); [intros Hc; by apply Hc|].
  eapply (ReconcilePodSet_until _ leavesPodSetFinalizer (fun _ => True)); [exact Hget| | |].
  - unfold leavesPodSetFinalizer. cbn. apply elem_of_app. right. by left.
  - intros w1. apply (reconcilePods_until _ leavesPodSetFinalizer (fun _ => True)); [done|]. intros. by left.
  - intros w1. apply (finalizePodSet_until _ leavesPodSetFinalizer (fun _ => True)). intros Hl. right. intros k p Hk Hg.
    by apply (not_elem_of_nil p), (listed_members podSet w1 [] k p Hl).
Qed.
