(* ===== verification/RoleExample.v ===== *)
(** * A RoleSet on a server of its own.

    An API server that keeps pods, RoleSets and PodSets in maps, with a quota,
    satisfies every law the theorems about RoleSets rest on; and the theorems,
    applied to a RoleSet on it. *)

From Stdlib Require Import Ascii.
From S2P Require Import Prelude Api Claims Ledger KVPlan Placement Reservations Rfc3339 Runtime Storm StormSync StormFacts StormRevision.
From S2P Require Import PodTypes RolePods RoleRender PodDrain InPlace RoleSync PodSetSync Rolling RoleSetLoop PodLaws RoleSurge.
From S2P Require Import RoleAvail SlotAvail RollingFacts DrainFacts InPlaceFacts RoleSetFacts.

(** ** Kubernetes' types and helpers. *)

Definition rxTypes : PodTypes := {|
  Unread := string;
  emptySecurityContext := "";
  projectedTokens _ := None;
  validNamePrefix _ := true;
  noFields := "";
|}.
#[local] Existing Instance rxTypes.

Record rxTemplate : Type := MkTemplate {
  rx_Labels : gmap string string;
  rx_Annotations : gmap string string;
  rx_Spec : PodSpec;
}.
#[local] Instance rxTemplate_eq_dec : EqDecision rxTemplate.
Proof. solve_decision. Defined.

(** A template is hashed by the images of its containers. *)
Definition rxApps : K8sApps := {|
  IntOrString := Z;
  intstr_FromInt n := n;
  GetScaledValueFromIntOrPercent n _ _ := Some n;
  RoundToInt32 a b := (2 * a + b) / (2 * b);
  integer_IntMin := Z.min;
  PodTemplate := rxTemplate;
  dumpForHash t := c ← psp_Containers (rx_Spec t); byteCodes (ct_Image c);
  SafeEncodeString x := x;
  StringSetList := elements;
  SchedulerSpec := string;
|}.

Definition rxAppsLaws : @K8sAppsLaws rxApps.
Proof.
  split; try done. simpl. intros a b Ha Hb. pose proof (Z.div_mod (2 * a + b) (2 * b)) as Hd.
  pose proof (Z.mod_pos_bound (2 * a + b) (2 * b)). set (q := (2 * a + b) / (2 * b)) in *. lia.
Defined.

#[local] Existing Instance NanoK8s.
#[local] Existing Instance rxApps.
#[local] Existing Instance rxAppsLaws.

Definition rxTemplates : PodTemplates := {|
  template_Labels := rx_Labels : PodTemplate → _;
  template_Annotations := rx_Annotations : PodTemplate → _;
  template_Finalizers _ := [];
  template_Spec := rx_Spec : PodTemplate → _;
  setTemplateSpec t spec := MkTemplate (rx_Labels t) (rx_Annotations t) spec : PodTemplate;
|}.
#[local] Existing Instance rxTemplates.

Definition rxSort : SliceSort.
Proof.
  refine {| sortSlice A less := sortBy less |}; intros; [apply sortBy_perm|by apply sortBy_sorted].
Defined.
#[local] Existing Instance rxSort.

(** ** The server. *)

Record roleWorld : Type := MkRoleWorld {
  rw_pods : gmap NamespacedName RolePod;
  rw_sets : gmap NamespacedName RoleSet;
  rw_now : Time;
  (** How many pods were created. *)
  rw_created : nat;
  rw_groups : gmap NamespacedName PodSet;
}.

(** What is stored under a key has it, and there is a quota. *)
Definition rxGood (m : gmap NamespacedName RolePod) : Prop :=
  map_Forall (fun k p => podKeyOf p = k) m ∧ (size m ≤ 1000)%nat.

#[local] Instance rxGood_dec m : Decision (rxGood m).
Proof. unfold rxGood. apply _. Defined.

Definition rxPods (w : roleWorld) : gmap NamespacedName RolePod := if decide (rxGood (rw_pods w)) then rw_pods w else ∅.

Lemma rxPods_good w : rxGood (rxPods w).
Proof. unfold rxPods. destruct (decide _); [done|]. split; [apply map_Forall_empty|by rewrite map_size_empty; lia]. Qed.

Definition withPods (w : roleWorld) (m : gmap NamespacedName RolePod) : roleWorld :=
  MkRoleWorld m (rw_sets w) (rw_now w) (rw_created w) (rw_groups w).

Lemma rxPods_with w m : rxGood m → rxPods (withPods w m) = m.
Proof. intros Hm. unfold rxPods. simpl. by rewrite decide_True. Qed.

(** The pod as it is stored: with a name, and pending. *)
Definition rxNamed (w : roleWorld) (p : RolePod) : RolePod :=
  MkRolePod p.(rp_Namespace)
    (if bool_decide (p.(rp_Name) = "") then String.append p.(rp_GenerateName) (pretty (Z.of_nat (rw_created w))) else p.(rp_Name))
    p.(rp_GenerateName) p.(rp_Labels) p.(rp_Annotations) p.(rp_Finalizers) p.(rp_Owners) (rw_now w) None p.(rp_Spec) "Pending"
    [] [].

Definition rxMerged (before after m : gmap string string) : gmap string string :=
  let changed := merge (fun b a => if bool_decide (b = a) then None else Some a) before after in
  merge (fun c x => match c with Some a => a | None => x end) changed m.

Definition rxPatched (before after p : RolePod) : RolePod :=
  let spec := if bool_decide (psp_Containers (rp_Spec before) = psp_Containers (rp_Spec after)) then rp_Spec p
              else setPodContainers (rp_Spec p) (psp_Containers (rp_Spec after)) in
  setPodMeta (setPodSpec p spec) (rxMerged (rp_Labels before) (rp_Labels after) (rp_Labels p))
    (rxMerged (rp_Annotations before) (rp_Annotations after) (rp_Annotations p)).

Definition rxSelected (namespace : string) (labels : gmap string string) (p : RolePod) : bool :=
  bool_decide (rp_Namespace p = namespace ∧ labels ⊆ rp_Labels p).

Definition rxApi : RoleApi roleWorld := {|
  ListPods namespace labels w := (w, Ok (List.filter (rxSelected namespace labels) (map_to_list (rxPods w)).*2));
  CreatePod p w :=
    let q := rxNamed w p in
    if bool_decide (is_Some (rxPods w !! podKeyOf q)) then (w, Err AlreadyExists)
    else if (1000 <=? size (rxPods w))%nat then (w, Err KubeFailed)
    else (MkRoleWorld (<[podKeyOf q := q]> (rxPods w)) (rw_sets w) (rw_now w) (S (rw_created w)) (rw_groups w), Ok ());
  DeletePod p w :=
    match rxPods w !! podKeyOf p with
    | Some _ => (withPods w (delete (podKeyOf p) (rxPods w)), Ok ())
    | None => (w, Err NotFound)
    end;
  PatchPod before after w :=
    match rxPods w !! podKeyOf before with
    | Some p => (withPods w (<[podKeyOf before := rxPatched before after p]> (rxPods w)), Ok ())
    | None => (w, Err NotFound)
    end;
  PatchPodStatus before after w :=
    match rxPods w !! podKeyOf before with
    | Some p => (withPods w (<[podKeyOf before := setPodConditions p (rp_Conditions after)]> (rxPods w)), Ok ())
    | None => (w, Err NotFound)
    end;
  ListPodSets _ _ w := (w, Ok []);
  CreatePodSet _ w := (w, Ok ());
  DeletePodSet _ w := (w, Ok ());
  RoleNow w := (w, rw_now w);
|}.
#[local] Existing Instance rxApi.

Definition rxStore : PodStore.
Proof. refine {| podsIn := rxPods : roleWorld → _ |}. intros w k p Hk. by apply (proj1 (rxPods_good w)) in Hk. Defined.
#[local] Existing Instance rxStore.

Definition rxSmall : SmallCluster.
Proof. intros w. destruct (rxPods_good w) as [_ Hs]. change (podsIn w) with (rxPods w). lia. Defined.
#[local] Existing Instance rxSmall.

Lemma podsMeanwhile_refl rs role m : podsMeanwhile rs role m m.
Proof. intros k. destruct (m !! k); [by intros|done]. Qed.

Lemma rxGood_insert m p : rxGood m → (is_Some (m !! podKeyOf p) ∨ (size m < 1000)%nat) → rxGood (<[podKeyOf p := p]> m).
Proof.
  intros [Hk Hs] Hroom. split; [by apply map_Forall_insert_2|]. destruct (m !! podKeyOf p) eqn:E.
  - by rewrite map_size_insert_Some.
  - rewrite map_size_insert_None by done. destruct Hroom as [[? ?]|?]; [congruence|lia].
Qed.

Lemma rxGood_delete m k : rxGood m → rxGood (delete k m).
Proof.
  intros [Hk Hs]. split; [by apply map_Forall_delete|]. etrans; [|exact Hs]. apply map_subseteq_size, delete_subseteq.
Qed.

Lemma rxMerged_spec before after m : mergedMap before after m (rxMerged before after m).
Proof.
  intros k. unfold rxMerged. rewrite !lookup_merge. unfold diag_None.
  destruct (before !! k) as [b|], (after !! k) as [a|], (m !! k) as [x|]; try done; by case_bool_decide.
Qed.

Lemma rxSelected_listed namespace labels w :
  let items := List.filter (rxSelected namespace labels) (map_to_list (rxPods w)).*2 in
  NoDup (podKeyOf <$> items) ∧
  ∀ p, p ∈ items ↔ rxPods w !! podKeyOf p = Some p ∧ rp_Namespace p = namespace ∧ labels ⊆ rp_Labels p.
Proof.
  intros items. destruct (rxPods_good w) as [Hkey _]. split.
  - eapply sublist_NoDup; [|apply fmap_sublist, sublist_filter_list].
    replace (podKeyOf <$> (map_to_list (rxPods w)).*2) with ((map_to_list (rxPods w)).*1); [apply NoDup_fst_map_to_list|].
    rewrite <- list_fmap_compose. apply list_fmap_ext. intros i [k p] Hk%list_elem_of_lookup_2%elem_of_map_to_list. simpl.
    symmetry. by apply Hkey in Hk.
  - intros p. unfold items. rewrite elem_of_list_filter_bool. unfold rxSelected. rewrite bool_decide_eq_true, list_elem_of_fmap. split.
    + intros [Hl ([k q] & -> & Hk%elem_of_map_to_list)]. simpl in *. pose proof (Hkey _ _ Hk) as Hq. simpl in Hq. by rewrite Hq.
    + intros [Hk Hl]. split; [done|]. exists (podKeyOf p, p). split; [done|]. by apply elem_of_map_to_list.
Qed.

(** A pod replaced by one of its key. *)
Lemma rxStored w k p q : rxPods w !! k = Some p → podKeyOf q = podKeyOf p →
  rxPods (withPods w (<[k := q]> (rxPods w))) = <[k := q]> (rxPods w).
Proof.
  intros E Hq. pose proof (proj1 (rxPods_good w) _ _ E) as Hkey. simpl in Hkey. apply rxPods_with. subst k. rewrite <- Hq.
  apply rxGood_insert; [apply rxPods_good|left]. by rewrite Hq, E.
Qed.

Lemma rxPatched_stored before after w p : rxPods w !! podKeyOf before = Some p →
  patchedBy before after p (rxPatched before after p) ∧
  rxPods (withPods w (<[podKeyOf before := rxPatched before after p]> (rxPods w))) =
    <[podKeyOf before := rxPatched before after p]> (rxPods w).
Proof.
  intros E. split; [|by apply (rxStored w _ p)].
  split; try done; try apply rxMerged_spec. unfold rxPatched. cbn. by case_bool_decide.
Qed.

(** The laws hold whatever the RoleSet and the role. *)
Lemma rxPodLaws rs role : PodLaws rs role.
Proof.
  split; cbv zeta; intros; cbn [podsIn rxStore rxApi ListPods CreatePod DeletePod PatchPod PatchPodStatus ListPodSets CreatePodSet
    DeletePodSet RoleNow fst snd]; try apply podsMeanwhile_refl; cbv zeta.
  - split; [apply podsMeanwhile_refl|]. intros items [= <-]. apply (rxSelected_listed namespace labels w).
  - exists (rxPods w). split; [apply podsMeanwhile_refl|]. set (q := rxNamed w p).
    case_bool_decide as Hfree; [by left|]. destruct (Nat.leb_spec 1000 (size (rxPods w))); [by left|right].
    exists q. apply eq_None_not_Some in Hfree. split_and!; [|done|].
    + split; try done. intros Hn. simpl. by rewrite bool_decide_false.
    + apply (rxPods_with (MkRoleWorld ∅ (rw_sets w) (rw_now w) (S (rw_created w)) (rw_groups w))), rxGood_insert; [apply rxPods_good|by right].
  - exists (rxPods w). split; [apply podsMeanwhile_refl|]. destruct (rxPods w !! podKeyOf p); [right; left|by left].
    apply rxPods_with, rxGood_delete, rxPods_good.
  - exists (rxPods w). split; [apply podsMeanwhile_refl|]. destruct (rxPods w !! podKeyOf before) as [p|] eqn:E; [right|by left].
    destruct (rxPatched_stored before after w p E) as [Hq Hs]. by exists p, (rxPatched before after p).
  - destruct (rxPods w !! podKeyOf before) as [p|] eqn:E; [|apply podsMeanwhile_refl].
    cbn. rewrite (rxStored w _ p) by done. intros k. destruct (decide (podKeyOf before = k)) as [<-|Hne].
    + rewrite E, lookup_insert_eq. by intros.
    + rewrite lookup_insert_ne by done. apply podsMeanwhile_refl.
Qed.
#[local] Existing Instance rxPodLaws.

(** ** Encodings: any value of a countable type, by its number in binary. *)

Fixpoint posText (p : positive) : string :=
  match p with
  | xH => "."
  | xO q => String "0"%char (posText q)
  | xI q => String "1"%char (posText q)
  end.

Fixpoint readPos (s : string) : option positive :=
  match s with
  | String c rest =>
      if bool_decide (c = "."%char) then Some xH
      else p ← readPos rest; Some (if bool_decide (c = "1"%char) then xI p else xO p)
  | EmptyString => None
  end.

Lemma readPos_text p : readPos (posText p) = Some p.
Proof. induction p as [p IH|p IH|]; simpl; [by rewrite IH..|done]. Qed.

#[local] Instance hnb_countable : Countable historicalNodeBindings.
Proof.
  by apply (inj_countable' (fun b => (hnb_ReplicaSlots b, hnb_Roles b)) (fun x => MkBindings x.1 x.2)); intros [].
Defined.

Definition rxCodec : RoleCodec.
Proof.
  refine {| MarshalBindings b := posText (encode b); UnmarshalBindings s := readPos s ≫= decode;
            MarshalInPlaceState s := posText (encode s); UnmarshalInPlaceState s := readPos s ≫= decode |};
    intros; rewrite ?readPos_text; simpl; try apply decode_encode. by destruct (encode s).
Defined.
#[local] Existing Instance rxCodec.

(** ** The calls for RoleSets.  There are no gang schedulers. *)

Definition rxSetApi : RoleSetApi := {|
  GetRoleSet key w := (w, match rw_sets w !! key with Some rs => Ok rs | None => Err NotFound end);
  PatchRoleSet key patch w :=
    match rw_sets w !! key with
    | Some rs =>
        let rs := withFinalizers (patchedFinalizers patch) rs in
        (MkRoleWorld (rw_pods w) (<[key := rs]> (rw_sets w)) (rw_now w) (rw_created w) (rw_groups w), Ok rs)
    | None => (w, Err NotFound)
    end;
  PatchRoleSetAnnotations _ _ w := (w, Ok ());
  UpdateRoleSetStatus _ w := (w, Ok ());
  RetryRoleSet S A f := f;
  GetCRD _ w := (w, Err NotFound);
  GetPodGroup _ _ w := (w, Err NotFound);
  CreatePodGroup _ _ _ w := (w, Ok ());
  UpdatePodGroup _ _ _ w := (w, Ok ());
  DeletePodGroup _ _ w := (w, Ok ());
  GodelGVK := zeroGVK;
  CoschedulingGVK := zeroGVK;
  VolcanoGVK := zeroGVK;
  podGroupObject _ _ _ := None;
  json_eqb _ _ := true;
  kubeErrorText _ := "error";
  managedErrorsText _ := "error";
|}.
#[local] Existing Instance rxSetApi.

Lemma rxSetLaws rs role : RoleSetLaws rs role.
Proof.
  split; intros; cbn [podsIn rxStore rxSetApi GetRoleSet PatchRoleSet PatchRoleSetAnnotations UpdateRoleSetStatus GetCRD
    GetPodGroup CreatePodGroup UpdatePodGroup DeletePodGroup fst]; try apply podsMeanwhile_refl.
  destruct (rw_sets w !! key); apply podsMeanwhile_refl.
Qed.
#[local] Existing Instance rxSetLaws.

Lemma rxRetryLaws : RoleSetRetryLaws.
Proof.
  split. intros S A f I P st w Q Hf HP. cbn. eapply holds_mono; [by apply Hf|done|]. by intros r x [? _].
Qed.
#[local] Existing Instance rxRetryLaws.

#[local] Instance rxSets : RoleSetStore := rw_sets.

Lemma rxFinalizerLaws : FinalizerLaws.
Proof.
  assert (∀ m, roleSetsMeanwhile m m) as Hrefl by by intros m k.
  split; cbv zeta; intros; cbn [roleSetsIn rxSets rxApi rxSetApi ListPods CreatePod DeletePod PatchPod PatchPodStatus ListPodSets
    CreatePodSet DeletePodSet RoleNow GetRoleSet PatchRoleSet PatchRoleSetAnnotations UpdateRoleSetStatus GetCRD GetPodGroup
    CreatePodGroup UpdatePodGroup DeletePodGroup fst]; try apply Hrefl; try (repeat case_match; apply Hrefl).
  exists (rw_sets w). split; [apply Hrefl|]. destruct (rw_sets w !! key) as [rs|] eqn:E; [right; left|by left].
  unfold roleSetsIn, rxSets. cbn. apply map_eq. intros k. destruct (decide (key = k)) as [->|Hne].
  - by rewrite lookup_insert_eq, lookup_alter_eq, E.
  - by rewrite lookup_insert_ne, lookup_alter_ne.
Qed.
#[local] Existing Instance rxFinalizerLaws.

(** ** A RoleSet with two roles. *)

Definition rxContainer (image : string) : PodContainer := MkPodContainer "engine" image [] "" "" "" [] "".

Definition rxPodSpec (image : string) : PodSpec :=
  MkPodSpec [] [rxContainer image] "" "" "" "" "" "" None None "" "" None None None [] [] [] None "".

Definition rxTemplateOf (image : string) : PodTemplate := MkTemplate ∅ ∅ (rxPodSpec image).

(** Three prefill pods, one more at most and one less, drained for a minute; and
    two decode pods in slots. *)
Definition rxPrefill : RoleSpec :=
  MkRoleSpec "prefill" (Some 3) (Some (MkRoleDrain (Some 60))) (Some 1) None InPlaceIfPossibleRoleUpdateStrategyType
    (Some 1) (Some 1) false false (rxTemplateOf "engine:v2") None.
Definition rxDecode : RoleSpec :=
  MkRoleSpec "decode" (Some 2) None (Some 2) None "" (Some 1) (Some 0) false true (rxTemplateOf "engine:v2") None.

Definition rxSet : RoleSet :=
  MkRoleSet "ns" "rs" "" "uid" ∅ ∅ None [RoleSetFinalizer] None
    (MkRoleSetSpec [rxPrefill; rxDecode] SequentialRoleSetStrategyType None None) [] [].

Definition rxKey : NamespacedName := MkNN "ns" "rs".

(** A ready pod of a role that runs an image. *)
Definition rxPod (name role image : string) (annotations : gmap string string) : RolePod :=
  MkRolePod "ns" name "" (<[RoleTemplateHashLabelKey := ComputeHash (rxTemplateOf image)]> (roleLabels "rs" role)) annotations []
    [] 0 None (rxPodSpec image) "Running" [MkPodCondition PodReadyType ConditionTrue]
    [MkContainerStatus "engine" true image (String.append "id-" image) 0].

Definition rxOf (pods : list RolePod) (rs : RoleSet) (now : Time) : roleWorld :=
  MkRoleWorld (list_to_map ((fun p => (podKeyOf p, p)) <$> pods)) {[ rxKey := rs ]} now 0 ∅.

(** ** The theorems at work. *)

(** From no pods to three: never more than four. *)
Definition rxEmpty : roleWorld := rxOf [] rxSet 1000000000.

Lemma rx_roles_distinct : NoDup (role_Name <$> rss_Roles (rs_Spec rxSet)).
Proof. apply (bool_decide_unpack _). vm_compute. exact I. Qed.


(** Three ready pods of an old image. *)
Definition rxOldPods : list RolePod :=
  (fun name => rxPod name "prefill" "engine:v1" ∅) <$> ["rs-prefill-a"; "rs-prefill-b"; "rs-prefill-c"].
Definition rxOld : roleWorld := rxOf rxOldPods rxSet 1000000000.

(** With one pod more than is asked for. *)
Definition rxMore : roleWorld := rxOf (rxPod "rs-prefill-d" "prefill" "engine:v2" ∅ :: rxOldPods) rxSet 1000000000.


(** Two slots of an old image, one of them with a pod too many. *)
Definition rxSlotPod (name image index : string) : RolePod :=
  rxPod name "decode" image {[ RoleReplicaIndexAnnotationKey := index ]}.
Definition rxSlots : roleWorld := rxOf [rxSlotPod "rs-decode-0" "engine:v1" "0"; rxSlotPod "rs-decode-1" "engine:v1" "1"] rxSet 0.
Definition rxSurplus : roleWorld :=
  rxOf [rxSlotPod "rs-decode-0" "engine:v1" "0"; rxSlotPod "rs-decode-0b" "engine:v2" "0"; rxSlotPod "rs-decode-1" "engine:v1" "1"]
    rxSet 0.

Lemma stateful_role_keeps_slots_witness :
  Forall (fun w' => 1 ≤ slotsKept rxSet rxDecode isActiveReady rxSlots w') (visited (statefulRollout rxSet rxDecode) rxSlots) ∧
  slotsKept rxSet rxDecode isActiveReady rxSlots (final (statefulRollout rxSet rxDecode) rxSlots) = 1 ∧
  Forall (fun w' => w' ∈ [rxSurplus] ∨ 2 ≤ slotsKept rxSet rxDecode isActiveReady rxSurplus w')
    (visited (statefulScale rxSet rxDecode) rxSurplus) ∧
  size (rxPods (final (statefulScale rxSet rxDecode) rxSurplus)) = 2%nat.
Proof.
  split_and!; [|vm_compute; reflexivity| |vm_compute; reflexivity]; apply Forall_forall; intros w' Hw'.
  - change 1 with (Z.min (slotCount rxSet rxDecode isActiveReady rxSlots) (getRoleReplicas rxDecode - roleMaxUnavailable rxDecode)).
    refine (proj1 (stateful_role_keeps_slots rxSet rxDecode rxSlots w' 1 _ _ _) _);
      [vm_compute; discriminate|vm_compute; reflexivity|vm_compute; discriminate|]. apply elem_of_app. left. exact Hw'.
  - change 2 with (slotCount rxSet rxDecode isActiveReady rxSurplus).
    refine (proj2 (stateful_role_keeps_slots rxSet rxDecode rxSurplus w' 1 _ _ _) Hw');
      [vm_compute; discriminate|vm_compute; reflexivity|vm_compute; discriminate].
Defined.

(** The prefill role is done, and the decode role is rolled out. *)
Definition rxHalfway : roleWorld :=
  rxOf (((fun name => rxPod name "prefill" "engine:v2" ∅) <$> ["rs-prefill-a"; "rs-prefill-b"; "rs-prefill-c"]) ++
        [rxSlotPod "rs-decode-0" "engine:v1" "0"; rxSlotPod "rs-decode-1" "engine:v1" "1"]) rxSet 0.


(** A pod that is given up is marked, and stands. *)
Definition rxSpared : RolePod := rxPod "rs-prefill-a" "prefill" "engine:v1" ∅.


(** Marked 0.789 seconds into a second, a pod is deleted 59.3 seconds later. *)
Definition rxNow : Time := 1709210096789000000.

Lemma drain_lasts_its_timeout_witness :
  let marked := markedDraining "scale-in" rxNow rxSpared in
  visited (processPod marked "scale-in" (60 * Second) (rxNow + 59300000000)) rxMore = [(DeletePod marked rxMore).1] ∧
  value (processPod marked "scale-in" (60 * Second) (rxNow + 59200000000)) rxMore = (MkDrainResult false 11000000, None).
Proof.
  assert (fourDigitYear rxNow) as Hy by (split; vm_compute; [discriminate|reflexivity]). split.
  - refine (proj1 (drain_lasts_its_timeout rxSpared "scale-in" "scale-in" (60 * Second) rxNow (rxNow + 59300000000) rxMore Hy _ _ _ _));
      try reflexivity; try (vm_compute; discriminate). split; vm_compute; [reflexivity|discriminate].
  - refine (proj1 (proj2 (drain_lasts_its_timeout rxSpared "scale-in" "scale-in" (60 * Second) rxNow (rxNow + 59200000000) rxMore Hy _ _ _ _)) _);
      try reflexivity; try (vm_compute; discriminate). split; vm_compute; [reflexivity|discriminate].
Defined.

(** The pod an earlier version of the role made, as the server stored it. *)
Definition rxPrefillOld : RoleSpec :=
  MkRoleSpec "prefill" (Some 3) (Some (MkRoleDrain (Some 60))) (Some 1) None InPlaceIfPossibleRoleUpdateStrategyType
    (Some 1) (Some 1) false false (rxTemplateOf "engine:v1") None.

Definition rxReported (image : string) (p : RolePod) : RolePod :=
  MkRolePod p.(rp_Namespace) "rs-prefill-a" p.(rp_GenerateName) p.(rp_Labels) p.(rp_Annotations) p.(rp_Finalizers) p.(rp_Owners)
    p.(rp_CreationTimestamp) p.(rp_DeletionTimestamp) p.(rp_Spec) "Running" [MkPodCondition PodReadyType ConditionTrue]
    [MkContainerStatus "engine" true image (String.append "id-" image) 0].

Definition rxMade : RolePod := rxReported "engine:v1" (buildRenderedPod rxSet rxPrefillOld None).

Lemma in_place_update_matches_template_witness :
  ∃ q, patchedForInPlaceUpdate rxMade rxPrefill "hash" = Some q ∧
    runsImage <$> psp_Containers (rp_Spec q) = [("engine", "engine:v2")] ∧
    runsImage <$> psp_InitContainers (rp_Spec q) = [] ∧ hasTarget "hash" q = true ∧ rp_Labels q = rp_Labels rxMade.
Proof.
  change [("engine", "engine:v2")] with (runsImage <$> psp_Containers (template_Spec (role_Template rxPrefill))).
  change (@nil (string * string)) with (runsImage <$> psp_InitContainers (template_Spec (role_Template rxPrefill))).
  apply (in_place_update_matches_template rxSet rxPrefill rxMade "hash");
    [apply (bool_decide_unpack _); vm_compute; exact I|apply (bool_decide_unpack _); vm_compute; exact I|vm_compute; reflexivity].
Defined.

(** Patched, and then reported with the image it was patched to. *)
Definition rxHash : string := ComputeHash (role_Template rxPrefill).
Definition rxInPlace : RolePod := default rxMade (patchedForInPlaceUpdate rxMade rxPrefill rxHash).
Definition rxRunning : RolePod := rxReported "engine:v2" rxInPlace.
Definition rxUpdating : roleWorld := rxOf [rxRunning] rxSet 0.

Definition rxMadeContainer : PodContainer := default (rxContainer "") (head (psp_Containers (rp_Spec rxMade))).

Lemma in_place_update_waits_for_images_witness :
  value (markInPlaceUpdateComplete rxSet rxPrefill rxInPlace rxHash) (rxOf [rxInPlace] rxSet 0) = (false, None) ∧
  value (markInPlaceUpdateComplete rxSet rxPrefill rxRunning rxHash) rxUpdating = (true, None) ∧
  IsRolePodReady rxRunning = true ∧ ∃ s', statusesByName (rp_ContainerStatuses rxRunning) !! "engine" = Some s' ∧
    cs_Ready s' = true ∧ cs_ImageID s' ≠ "id-engine:v1".
Proof.
  split; [vm_compute; reflexivity|split; [vm_compute; reflexivity|]].
  apply (in_place_update_waits_for_images rxSet rxPrefill rxMade rxInPlace rxRunning rxHash rxUpdating rxMadeContainer
    (rxContainer "engine:v2") (MkContainerStatus "engine" true "engine:v1" "id-engine:v1" 0));
    [vm_compute; reflexivity|vm_compute; reflexivity|reflexivity|reflexivity|vm_compute; discriminate|vm_compute; reflexivity|
     left|split; [vm_compute; reflexivity|split; vm_compute; discriminate]|vm_compute; reflexivity|discriminate].
Defined.

(** A RoleSet that goes, and has a pod left. *)
Definition rxGoing : RoleSet :=
  MkRoleSet "ns" "rs" "" "uid" ∅ ∅ (Some 1) [RoleSetFinalizer] None (rs_Spec rxSet) [] [].
Definition rxLast : roleWorld := rxOf [rxPod "rs-prefill-a" "prefill" "engine:v1" ∅] rxGoing 0.

Lemma roleset_finalizer_outlives_pods_witness :
  let w' := final (ReconcileRoleSet rxKey) rxLast in
  (held rxKey w' ∨ ∃ x, x ∈ [rxLast; rxLast; rxLast] ∧ noPods rxGoing x) ∧ rxPods w' = ∅.
Proof.
  split; [|vm_compute; reflexivity].
  apply (roleset_finalizer_outlives_pods rxGoing rxPrefill rxKey rxLast [rxLast; rxLast; rxLast]
    (final (ReconcileRoleSet rxKey) rxLast) []); [reflexivity| |vm_compute; reflexivity].
  exists rxGoing. split; [reflexivity|left].
Defined.

(** One at a time, in steps: nothing moves while a pod is not ready. *)
Definition rxStepwise : RoleSpec :=
  MkRoleSpec "prefill" (Some 2) None (Some 1) None "" (Some 1) (Some 0) false false (rxTemplateOf "engine:v2") None.
Definition rxUnready (name image : string) : RolePod :=
  setPodConditions (rxPod name "prefill" image ∅) [].
Definition rxStuck : roleWorld := rxOf [rxPod "rs-prefill-a" "prefill" "engine:v1" ∅; rxUnready "rs-prefill-b" "engine:v1"] rxSet 0.

Definition rxStuckPods : list RolePod := match value (getRolePods rxSet rxStepwise) rxStuck with Ok pods => pods | Err _ => [] end.

Lemma interleaved_rollout_stalls_witness :
  value (statelessCheckCurrentStep rxSet rxStepwise) rxStuck = Ok (false, 0) ∧
  visited (statelessRolloutByStep rxSet rxStepwise 0) rxStuck = [rxStuck] ∧
  value (statelessRolloutByStep rxSet rxStepwise 0) rxStuck = (noResult, None).
Proof.
  change [rxStuck] with (visited (getRolePods rxSet rxStepwise) rxStuck).
  apply (interleaved_rollout_stalls rxSet rxStepwise rxStuckPods rxStuck); [|vm_compute; reflexivity..].
  unfold oldPods. apply (bool_decide_unpack _). vm_compute. exact I.
Defined.
