(* ===== verification/PodSetExample.v ===== *)
(** * A PodSet on the server of [RoleExample].

    The server keeps PodSets too and satisfies the laws the theorems about them
    rest on; and the theorems, applied to a PodSet of two pods. *)

From S2P Require Import Prelude Api Claims Ledger KVPlan Placement Reservations Runtime Storm StormSync PodTypes RolePods RoleRender PodDrain RoleSetLoop PodSetLoop PodLaws RoleSurge RoleSetFacts PodSetFacts RoleExample.

#[local] Existing Instance NanoK8s.
#[local] Existing Instance rxTypes.
#[local] Existing Instance rxApps.
#[local] Existing Instance rxTemplates.
#[local] Existing Instance rxSort.
#[local] Existing Instance rxApi.
#[local] Existing Instance rxStore.
#[local] Existing Instance rxSetApi.

Definition withGroups (w : roleWorld) (m : gmap NamespacedName PodSet) : roleWorld :=
  MkRoleWorld (rw_pods w) (rw_sets w) (rw_now w) (rw_created w) m.

(** An update of an object that is not there is refused, and one that is being
    deleted goes with its last finalizer. *)
Definition pxApi : PodSetApi := {|
  GetPodSet key w := (w, match rw_groups w !! key with Some podSet => Ok podSet | None => Err NotFound end);
  UpdatePodSet podSet w :=
    match rw_groups w !! podSetKeyOf podSet with
    | Some _ =>
        if bool_decide (pset_Finalizers podSet = []) && bool_decide (is_Some (pset_DeletionTimestamp podSet))
        then (withGroups w (delete (podSetKeyOf podSet) (rw_groups w)), Ok ())
        else (withGroups w (<[podSetKeyOf podSet := podSet]> (rw_groups w)), Ok ())
    | None => (w, Err NotFound)
    end;
  UpdatePodSetStatus podSet w :=
    (withGroups w (alter (fun stored => setPodSetStatus stored (pset_ReadyPods podSet) (pset_TotalPods podSet)
                                          (pset_Phase podSet)) (podSetKeyOf podSet) (rw_groups w)), Ok ());
  podSetGroupObject _ _ _ := None;
|}.
#[local] Existing Instance pxApi.

#[local] Instance pxStore : PodSetStore := rw_groups.

Lemma pxGroupLaws podSet : GroupLaws podSet.
Proof.
  split; cbv zeta; intros; cbn [pxApi rxApi rxSetApi ListPods DeletePod PatchPod PatchPodStatus ListPodSets CreatePodSet DeletePodSet
    RoleNow GetPodSet UpdatePodSet UpdatePodSetStatus GetCRD GetPodGroup CreatePodGroup UpdatePodGroup DeletePodGroup fst snd];
    try done.
  - split; [done|]. intros items [= <-]. apply (rxSelected_listed namespace labels w).
  - exists (podsIn w). split; [done|]. cbn. destruct (rxPods w !! podKeyOf p); [right; left|by left].
    apply rxPods_with, rxGood_delete, rxPods_good.
  - exists (podsIn w). split; [done|]. cbn. destruct (rxPods w !! podKeyOf before) as [p|] eqn:E; [right|by left].
    destruct (rxPatched_stored before after w p E) as [Hq Hs]. by exists p, (rxPatched before after p).
  - cbn. destruct (rxPods w !! podKeyOf p) as [x|] eqn:E; [|done]. intros k p' Hk Hg. cbn in Hk. rewrite (rxStored w _ x) in Hk by done.
    destruct (decide (podKeyOf p = k)) as [<-|Hne]; [|rewrite lookup_insert_ne in Hk by done; by exists p'].
    rewrite lookup_insert_eq in Hk. injection Hk as <-. by exists x.
  - destruct (rw_groups w !! podSetKeyOf p); [|done]. by destruct (_ && _).
Qed.
#[local] Existing Instance pxGroupLaws.

Lemma pxFinalizerLaws : PodSetFinalizerLaws.
Proof.
  assert (∀ m, podSetsMeanwhile m m) as Hrefl by by intros m k.
  split; cbv zeta; intros; cbn [pxApi rxApi rxSetApi ListPods CreatePod DeletePod PatchPod PatchPodStatus ListPodSets CreatePodSet
    DeletePodSet RoleNow GetPodSet UpdatePodSet UpdatePodSetStatus GetCRD GetPodGroup CreatePodGroup UpdatePodGroup DeletePodGroup
    fst]; try apply Hrefl; try (repeat case_match; apply Hrefl).
  - exists (podSetsIn w). split; [apply Hrefl|]. destruct (rw_groups w !! podSetKeyOf podSet); [|by left].
    case_bool_decide; [case_bool_decide|]; right; [by right|by left; exists podSet..].
  - intros k (s & Hk & Hs). unfold podSetsIn, pxStore in *. cbn.
    destruct (decide (podSetKeyOf podSet = k)) as [<-|Hne]; [|exists s; by rewrite lookup_alter_ne].
    eexists. split; [by rewrite lookup_alter_eq, Hk|done].
Qed.
#[local] Existing Instance pxFinalizerLaws.

(** ** A group of two. *)

Definition pxKey : NamespacedName := MkNN "ns" "grp".

Definition pxSet (deletion : option Time) : PodSet :=
  MkPodSet "ns" "grp" "" "uid" ∅ ∅ [PodSetFinalizer] [] deletion 2 (rxTemplateOf "engine:v2") false None
    RecreatePodRecreateStrategy None 0 0 "".

Definition pxWorld (pods : list RolePod) (podSet : PodSet) : roleWorld :=
  withGroups (withPods rxEmpty (list_to_map ((fun p => (podKeyOf p, p)) <$> pods))) {[ pxKey := podSet ]}.

(** No pods: both are created. *)
Definition pxStart : roleWorld := pxWorld [] (pxSet None).
Definition pxMade : list roleWorld := visited (ReconcilePodSet pxKey) pxStart.
Definition pxFirst : roleWorld := default pxStart (pxMade !! 2%nat).

Lemma recreated_group_starts_afresh_witness :
  size (rxPods (final (ReconcilePodSet pxKey) pxStart)) = 2%nat ∧
  ∃ x, x ∈ take 2 pxMade ∧ groupEnded (pxSet None) x.
Proof.
  split; [vm_compute; reflexivity|].
  assert ((GetPodSet pxKey pxStart).2 = Ok (pxSet None)) as Hget by reflexivity.
  assert (visited (ReconcilePodSet pxKey) pxStart = take 2 pxMade ++ pxFirst :: drop 3 pxMade) as Hv by (vm_compute; reflexivity).
  destruct (recreated_group_starts_afresh (pxSet None) pxKey pxStart _ _ _ Hget eq_refl Hv) as [Hno|Hseen]; [|exact Hseen].
  exfalso. pose (p := createPodFromTemplate (pxSet None) 0).
  assert (podsIn pxFirst !! podKeyOf p = Some (rxNamed pxStart p)) as Hp by (vm_compute; reflexivity).
  assert (podsIn pxStart !! podKeyOf p = None) as Hn by (vm_compute; reflexivity).
  assert (inGroup (pxSet None) (rxNamed pxStart p)) as Hg by (split; vm_compute; reflexivity).
  destruct (Hno _ _ Hp Hg) as (q & Hq & _). rewrite Hn in Hq. discriminate Hq.
Defined.

(** A PodSet that goes, and has a pod left: the pass deletes the pod and the
    PodSet stays. *)
Definition pxGoing : roleWorld :=
  pxWorld [rxNamed pxStart (createPodFromTemplate (pxSet None) 0)] (pxSet (Some 1)).

Lemma podset_finalizer_outlives_pods_witness :
  let w' := final (ReconcilePodSet pxKey) pxGoing in
  (groupHeld pxKey w' ∨ ∃ x, x ∈ [pxGoing; pxGoing; pxGoing] ∧ ∀ k p, podsIn x !! k = Some p → ¬ inGroup (pxSet (Some 1)) p) ∧
  rxPods w' = ∅.
Proof.
  split; [|vm_compute; reflexivity].
  apply (podset_finalizer_outlives_pods (pxSet (Some 1)) pxKey pxGoing [pxGoing; pxGoing; pxGoing]
    (final (ReconcilePodSet pxKey) pxGoing) []); [reflexivity| |vm_compute; reflexivity].
  exists (pxSet (Some 1)). split; [reflexivity|left].
Defined.
