(* ===== verification/Concurrent.v ===== *)
(** * Goroutines on shared state.

    A goroutine is a [proc]: the atomic steps it takes on a shared state, one
    after the other, each of which may have to wait, and the goroutines it
    starts.  A pool of them, a list, runs in every interleaving.  [safe] is a
    rely-guarantee judgement with ghost state: an invariant of the shared state
    holds between any two steps, a goroutine says of every step what the others
    may rely on, and a goroutine that others may have to wait for is not made to
    wait itself.  [pool_safe] and [pool_progress] are what follows for every
    run of a pool. *)

From S2P Require Import Prelude.

Section Procs.
Context {S R : Type}.

#[local] Unset Elimination Schemes.
Inductive proc : Type :=
| Done (r : R)
(** A step; [None] where it has to wait. *)
| Step (op : S → option (S * proc))
| Fork (child rest : proc).
#[local] Set Elimination Schemes.

(** A piece of code, given what runs after it. *)
Definition Code (A : Type) : Type := (A → proc) → proc.

#[export] Instance code_ret : MRet Code := fun A a k => k a.
#[export] Instance code_bind : MBind Code := fun A B f m k => m (fun a => f a k).

Definition atomically {A} (f : S → S * A) : Code A := fun k => Step (fun s => Some ((f s).1, k (f s).2)).
Definition waitFor {A} (f : S → option (S * A)) : Code A :=
  fun k => Step (fun s => match f s with Some (s', a) => Some (s', k a) | None => None end).
Definition fork (child : Code R) : Code unit := fun k => Fork (child Done) (k ()).

(** ** Runs. *)

Inductive pstep : S * list proc → S * list proc → Prop :=
| pstep_step s ts i op s' p' :
    ts !! i = Some (Step op) → op s = Some (s', p') → pstep (s, ts) (s', <[i := p']> ts)
| pstep_fork s ts i child rest :
    ts !! i = Some (Fork child rest) → pstep (s, ts) (s, <[i := rest]> ts ++ [child]).

Definition reachable : S * list proc → S * list proc → Prop := rtc pstep.

Definition isDone (p : proc) : Prop := match p with Done _ => True | _ => False end.
#[export] Instance isDone_dec p : Decision (isDone p).
Proof. destruct p; simpl; apply _. Defined.
Definition quiescent (ts : list proc) : Prop := ∀ i p, ts !! i = Some p → isDone p.

Definition ended (p : proc) : bool := match p with Done _ => true | _ => false end.
Lemma all_ended ts : forallb ended ts = true → quiescent ts.
Proof.
  intros H%Is_true_true%forallb_True i p Hp. rewrite Forall_lookup in H. specialize (H i p Hp). by destruct p.
Qed.

(** A run, by whose turn it is; a goroutine that waits or has ended loses its turn. *)
Fixpoint runTurns (turns : list nat) (c : S * list proc) : S * list proc :=
  match turns with
  | [] => c
  | i :: rest =>
      runTurns rest
        (match c.2 !! i with
         | Some (Step op) => match op c.1 with Some (s', p') => (s', <[i := p']> c.2) | None => c end
         | Some (Fork child p') => (c.1, <[i := p']> c.2 ++ [child])
         | _ => c
         end)
  end.

Lemma runTurns_reachable turns c : reachable c (runTurns turns c).
Proof.
  revert c. induction turns as [|i turns IH]; intros [s ts]; simpl; [apply rtc_refl|].
  destruct (ts !! i) as [[r|op|child rest]|] eqn:Ei; [apply IH| | |apply IH].
  - destruct (op s) as [[s' p']|] eqn:Eop; [|apply IH]. eapply rtc_l; [by eapply pstep_step|apply IH].
  - eapply rtc_l; [by eapply pstep_fork|apply IH].
Qed.

(** ** Every run ends. *)

Fixpoint proc_ind' (P : proc → Prop) (Hdone : ∀ r, P (Done r))
    (Hstep : ∀ op, (∀ s s' p', op s = Some (s', p') → P p') → P (Step op))
    (Hfork : ∀ child rest, P child → P rest → P (Fork child rest)) (p : proc) : P p :=
  match p with
  | Done r => Hdone r
  | Step op => Hstep op (fun s s' p' =>
      match op s as o return o = Some (s', p') → P p' with
      | Some sp => fun H => match H in _ = o return match o with Some sp' => P sp'.2 | None => True end with
                            | eq_refl => proc_ind' P Hdone Hstep Hfork sp.2
                            end
      | None => fun H => match H in _ = o return match o with Some sp' => P sp'.2 | None => True end with
                         | eq_refl => I
                         end
      end)
  | Fork child rest => Hfork child rest (proc_ind' P Hdone Hstep Hfork child) (proc_ind' P Hdone Hstep Hfork rest)
  end.

(** A step, whatever the state. *)
Definition moves (ts ts' : list proc) : Prop := ∃ s s', pstep (s, ts) (s', ts').

Lemma moves_insert l1 p l2 ts' :
  moves (l1 ++ p :: l2) ts' →
  (∃ op s s' p', p = Step op ∧ op s = Some (s', p') ∧ ts' = l1 ++ p' :: l2) ∨
  (∃ child rest, p = Fork child rest ∧ ts' = l1 ++ rest :: l2 ++ [child]) ∨
  (∃ l1' l2', moves (l1 ++ l2) (l1' ++ l2') ∧ ts' = l1' ++ p :: l2').
Proof.
  intros (s & s' & Hstep).
  assert (∀ i x y, (l1 ++ p :: l2) !! i = Some x →
    (x = p ∧ <[i := y]> (l1 ++ p :: l2) = l1 ++ y :: l2) ∨
    ∃ k l1' l2', (l1 ++ l2) !! k = Some x ∧ <[k := y]> (l1 ++ l2) = l1' ++ l2' ∧
      <[i := y]> (l1 ++ p :: l2) = l1' ++ p :: l2') as Hpos.
  { intros i x y Hi. apply lookup_app_Some in Hi as [Hi|[Hge Hi]].
    - pose proof (lookup_lt_Some _ _ _ Hi). right. exists i, (<[i := y]> l1), l2.
      rewrite lookup_app_l by done. rewrite !insert_app_l by done. done.
    - replace i with (length l1 + (i - length l1))%nat by lia. rewrite insert_app_r.
      destruct (i - length l1)%nat as [|k] eqn:Ek; simpl in *; [left; by injection Hi as ->|].
      right. exists (length l1 + k)%nat, l1, (<[k := y]> l2). rewrite lookup_app_r, insert_app_r by lia.
      by replace (length l1 + k - length l1)%nat with k by lia. }
  inversion Hstep as [s0 ts0 i op s1 p' Hi Hop|s0 ts0 i child rest Hi]; subst.
  - destruct (Hpos i _ p' Hi) as [[<- ->]|(k & l1' & l2' & Hk & Heq & ->)]; [left; by exists op, s, s', p'|].
    right; right. exists l1', l2'. split; [|done]. rewrite <-Heq. exists s, s'. by eapply pstep_step.
  - destruct (Hpos i _ rest Hi) as [[<- ->]|(k & l1' & l2' & Hk & Heq & ->)].
    + right; left. exists child, rest. split; [done|]. by rewrite <-app_assoc.
    + right; right. exists l1', (l2' ++ [child]). split; [|by rewrite <-app_assoc].
      rewrite app_assoc, <-Heq. exists s', s'. by eapply pstep_fork.
Qed.

Lemma moves_end_insert p l1 l2 : sn moves (l1 ++ l2) → sn moves (l1 ++ p :: l2).
Proof.
  revert l1 l2. induction p as [r|op IHp|child rest IHc IHr] using proc_ind'; intros l1 l2 Hsn.
  all: remember (l1 ++ l2) as ts eqn:Ets; revert l1 l2 Ets; induction Hsn as [ts Hts IH]; intros l1 l2 ->.
  all: constructor; intros ts' [(op' & s & s' & p' & Heq & Hop & ->)|[(c & q & Heq & ->)|(l1' & l2' & Hm & ->)]]%moves_insert;
    try discriminate Heq; try exact (IH _ Hm l1' l2' eq_refl).
  - injection Heq as ->. apply (IHp s s' p' Hop). constructor. exact Hts.
  - injection Heq as -> ->. apply IHr. rewrite app_assoc. apply IHc. rewrite app_nil_r. constructor. exact Hts.
Qed.

(** No pool runs for ever. *)
Theorem runs_end c : sn pstep c.
Proof.
  destruct c as [s ts]. assert (sn moves ts) as Hsn.
  { induction ts as [|p ts IH]; [|by apply (moves_end_insert p [])]. constructor. intros ts' (s0 & s1 & Hm).
    by inversion Hm as [? ? i ? ? ? Hi|? ? i ? ? Hi]; rewrite lookup_nil in Hi. }
  revert s. induction Hsn as [ts _ IH]. intros s. constructor. intros [s' ts'] Hst. apply IH. by exists s, s'.
Qed.

(** ** Rely and guarantee. *)

Context {G : Type}.
Context (Inv : S → G → Prop).
(** What goroutine [i] may rely on a step of another to keep to. *)
Context (rely : nat → S * G → S * G → Prop).
(** That a goroutine has something left to do. *)
Context (pending : S → G → nat → Prop).
(** That it is what others may wait for. *)
Context (busy : G → nat → Prop).
Context (busy_pending : ∀ s g i, Inv s g → busy g i → pending s g i).
(** The number of goroutines the pool starts with. *)
Context (base : nat).
(** What holds when goroutine [i] has ended with a result. *)
Context (post : nat → R → S → G → Prop).

Definition stable (i : nat) (P : S → G → Prop) : Prop :=
  ∀ s g s' g', Inv s g → Inv s' g' → rely i (s, g) (s', g') → P s g → P s' g'.

(** A step of [i] as the others see it. *)
Definition guaranteed (i : nat) (sg sg' : S * G) : Prop :=
  Inv sg'.1 sg'.2 ∧ (∀ j, j ≠ i → rely j sg sg') ∧ (∀ j, j ≠ i → pending sg'.1 sg'.2 j → pending sg.1 sg.2 j).

(** Starting [j], as the others see it. *)
Definition forked (i j : nat) (s : S) (g g' : G) : Prop :=
  Inv s g' ∧ (∀ k, k ≠ i → k ≠ j → rely k (s, g) (s, g')) ∧
  (∀ k, k ≠ i → k ≠ j → pending s g' k → pending s g k).

Fixpoint safe (i : nat) (p : proc) (P : S → G → Prop) : Prop :=
  match p with
  | Done r => ∀ s g, Inv s g → P s g → post i r s g ∧ ¬ pending s g i
  | Step op => ∀ s g, Inv s g → P s g →
      match op s with
      | Some (s', p') => ∃ g' P', guaranteed i (s, g) (s', g') ∧ stable i P' ∧ P' s' g' ∧ safe i p' P'
      | None => ¬ busy g i ∧ ∃ j, busy g j
      end
  | Fork child rest => ∀ s g, Inv s g → P s g →
      ∀ j, ¬ pending s g j → j ≠ i → (base ≤ j)%nat →
      ∃ g' P' Pc, forked i j s g g' ∧ (stable i P' ∧ P' s g' ∧ safe i rest P') ∧
        (stable j Pc ∧ Pc s g' ∧ safe j child Pc)
  end.

(** A pool whose goroutines are safe where they stand. *)
Record pool_ok (s : S) (g : G) (ts : list proc) : Prop := MkPoolOk {
  ok_inv : Inv s g;
  ok_base : (base ≤ length ts)%nat;
  ok_pending i : pending s g i → (i < length ts)%nat;
  ok_safe i p : ts !! i = Some p → ∃ P, stable i P ∧ P s g ∧ safe i p P;
}.

Lemma pool_ok_step s g ts s' ts' :
  pool_ok s g ts → pstep (s, ts) (s', ts') → ∃ g', pool_ok s' g' ts'.
Proof.
  intros [Hinv Hbase Hpend Hsafe] Hstep. inversion Hstep as [s0 ts0 i op s1 p' Hi Hop|s0 ts0 i child rest Hi]; subst.
  all: assert (i < length ts)%nat as Hlt by (by eapply lookup_lt_Some).
  - destruct (Hsafe i _ Hi) as (P & Hst & HP & Hs). specialize (Hs s g Hinv HP). rewrite Hop in Hs.
    destruct Hs as (g' & P' & (Hinv' & Hrely & Hb) & Hst' & HP' & Hs'). cbn [fst snd] in *.
    exists g'. split; [done|by rewrite length_insert| |].
    + intros j Hj. rewrite length_insert. destruct (decide (j = i)) as [->|Hne]; [done|]. auto.
    + intros j p Hp. destruct (decide (i = j)) as [<-|Hne].
      * rewrite list_lookup_insert_eq in Hp by done. injection Hp as <-. by exists P'.
      * rewrite list_lookup_insert_ne in Hp by done. destruct (Hsafe j p Hp) as (Pj & Hstj & HPj & Hsj).
        exists Pj. split; [done|]. split; [|done]. eapply Hstj; [exact Hinv|exact Hinv'|by apply Hrely|done].
  - destruct (Hsafe i _ Hi) as (P & Hst & HP & Hs). set (n := length ts).
    destruct (Hs s' g Hinv HP n) as (g' & P' & Pc & (Hinv' & Hrely & Hb) & (Hst' & HP' & Hs') & Hc);
      [intros Hn%Hpend; subst n; lia|subst n; lia|done|].
    exists g'. split; [done|rewrite length_app, length_insert; lia| |].
    + intros j Hj. rewrite length_app, length_insert. simpl. destruct (decide (j = n)) as [->|Hn]; [subst n; lia|].
      destruct (decide (j = i)) as [->|Hne]; [lia|]. enough (j < length ts)%nat by lia. auto.
    + intros j p Hp. apply lookup_app_Some in Hp as [Hp|[Hge Hp]].
      * destruct (decide (i = j)) as [<-|Hne].
        -- rewrite list_lookup_insert_eq in Hp by done. injection Hp as <-. by exists P'.
        -- rewrite list_lookup_insert_ne in Hp by done. destruct (Hsafe j p Hp) as (Pj & Hstj & HPj & Hsj).
           pose proof (lookup_lt_Some _ _ _ Hp) as Hjlt.
           exists Pj. split; [done|]. split; [|done]. eapply Hstj; [exact Hinv|exact Hinv'|apply Hrely; [done|subst n; lia]|done].
      * apply list_lookup_singleton_Some in Hp as [Hj <-]. rewrite length_insert in Hj, Hge.
        assert (j = n) as -> by (subst n; lia). by exists Pc.
Qed.

(** In every run of a safe pool the invariant holds, and what a goroutine that
    has ended promises. *)
Theorem pool_safe s g ts s' ts' :
  pool_ok s g ts → reachable (s, ts) (s', ts') →
  ∃ g', pool_ok s' g' ts' ∧ (∀ i r, ts' !! i = Some (Done r) → post i r s' g') ∧
    (quiescent ts' → ∀ i, ¬ pending s' g' i).
Proof.
  intros Hok Hr. assert (∃ g', pool_ok s' g' ts') as [g' Hok'].
  { revert Hok. remember (s, ts) as c eqn:Ec. remember (s', ts') as c' eqn:Ec'. revert s g ts Ec.
    induction Hr as [c|c c1 c2 Hstep Hr IH]; intros s g ts -> Hok; [injection Ec' as -> ->; by exists g|].
    destruct c1 as [s1 ts1]. destruct (pool_ok_step _ _ _ _ _ Hok Hstep) as [g1 Hok1].
    by apply (IH Ec' s1 g1 ts1 eq_refl). }
  assert (∀ i r, ts' !! i = Some (Done r) → post i r s' g' ∧ ¬ pending s' g' i) as Hdone.
  { intros i r Hi. destruct Hok' as [Hinv _ _ Hs]. destruct (Hs i _ Hi) as (P & _ & HP & Hsafe). by apply Hsafe. }
  exists g'. split; [done|]. split; [intros i r Hi; by apply Hdone|]. intros Hq i Hb.
  pose proof (ok_pending _ _ _ Hok' i Hb) as Hlt. destruct (lookup_lt_is_Some_2 _ _ Hlt) as [p Hp].
  specialize (Hq i p Hp). destruct p as [r| |]; [|done..]. by eapply Hdone.
Qed.

(** A safe pool goes on until every goroutine has ended. *)
Theorem pool_progress s g ts :
  pool_ok s g ts → ¬ quiescent ts → ∃ c, pstep (s, ts) c.
Proof.
  intros [Hinv _ Hpend Hsafe] Hq.
  assert (∀ i p, ts !! i = Some p → ¬ isDone p → (∃ c, pstep (s, ts) c) ∨ (¬ busy g i ∧ ∃ j, busy g j)) as Hone.
  { intros i p Hi Hnd. destruct p as [r|op|child rest]; [by destruct Hnd| |left; eexists; by eapply pstep_fork].
    destruct (Hsafe i _ Hi) as (P & _ & HP & Hs). specialize (Hs s g Hinv HP).
    destruct (op s) as [[s' p']|] eqn:Eop; [left; eexists; by eapply pstep_step|by right]. }
  destruct (decide (Exists (fun p => ¬ isDone p) ts)) as [He|He].
  2:{ destruct Hq. intros i p Hi. apply not_Exists_Forall in He; [|apply _].
      rewrite Forall_lookup in He. by apply dec_stable, (He i). }
  apply Exists_exists in He as (p & Hin & Hnd). apply list_elem_of_lookup in Hin as [i Hi].
  destruct (Hone i p Hi Hnd) as [?|(_ & j & Hj)]; [done|].
  destruct (lookup_lt_is_Some_2 _ _ (Hpend j (busy_pending _ _ _ Hinv Hj))) as [q Hq'].
  destruct (Hone j q Hq') as [?|[Hnb _]]; [|done|done]. intros Hd. destruct q as [r| |]; [|done..].
  destruct (Hsafe j _ Hq') as (P & _ & HP & Hs). destruct (Hs s g Hinv HP) as [_ Hnp]. by apply Hnp, busy_pending.
Qed.

(** ** Reasoning about code. *)

Lemma safe_weaken i p (P P' : S → G → Prop) :
  (∀ s g, Inv s g → P' s g → P s g) → safe i p P → safe i p P'.
Proof. intros HP. destruct p as [r|op|child rest]; cbn [safe]; intros Hs s g Hinv HP'; by apply Hs, HP. Qed.

(** From [P], [m] is safe, and [Q] of its value holds when it has run. *)
Definition triple {A} (i : nat) (P : S → G → Prop) (m : Code A) (Q : A → S → G → Prop) : Prop :=
  ∀ k, (∀ a, safe i (k a) (Q a)) → safe i (m k) P.

Lemma triple_ret {A} i (a : A) (P : S → G → Prop) Q :
  (∀ s g, Inv s g → P s g → Q a s g) → triple i P (mret a) Q.
Proof. intros HP k Hk. eapply safe_weaken; [exact HP|apply Hk]. Qed.

Lemma triple_bind {A B} i P Q Q' (m : Code A) (f : A → Code B) :
  triple i P m Q → (∀ a, triple i (Q a) (f a) Q') → triple i P (m ≫= f) Q'.
Proof. intros Hm Hf k Hk. apply Hm. intros a. by apply Hf. Qed.

Lemma triple_weaken {A} i (P P' : S → G → Prop) (Q Q' : A → S → G → Prop) m :
  (∀ s g, Inv s g → P' s g → P s g) → (∀ a s g, Inv s g → Q a s g → Q' a s g) →
  triple i P m Q → triple i P' m Q'.
Proof.
  intros HP HQ Hm k Hk. eapply safe_weaken; [exact HP|]. apply Hm. intros a.
  eapply safe_weaken; [|apply Hk]. apply HQ.
Qed.

Lemma triple_atomically {A} i P (f : S → S * A) Q :
  (∀ a, stable i (Q a)) →
  (∀ s g, Inv s g → P s g → ∃ g', guaranteed i (s, g) ((f s).1, g') ∧ Q (f s).2 (f s).1 g') →
  triple i P (atomically f) Q.
Proof.
  intros Hst Hf k Hk. cbn [atomically safe]. intros s g Hinv HP. destruct (Hf s g Hinv HP) as (g' & Hg & HQ).
  exists g', (Q (f s).2). split; [done|]. split; [apply Hst|]. split; [done|apply Hk].
Qed.

Lemma triple_waitFor {A} i P (f : S → option (S * A)) Q :
  (∀ a, stable i (Q a)) →
  (∀ s g, Inv s g → P s g →
     match f s with
     | Some (s', a) => ∃ g', guaranteed i (s, g) (s', g') ∧ Q a s' g'
     | None => ¬ busy g i ∧ ∃ j, busy g j
     end) →
  triple i P (waitFor f) Q.
Proof.
  intros Hst Hf k Hk. cbn [waitFor safe]. intros s g Hinv HP. specialize (Hf s g Hinv HP).
  destruct (f s) as [[s' a]|]; [|done]. destruct Hf as (g' & Hg & HQ).
  exists g', (Q a). split; [done|]. split; [apply Hst|]. split; [done|apply Hk].
Qed.

Lemma triple_fork i P (child : Code R) Q :
  (∀ s g j, Inv s g → P s g → ¬ pending s g j → j ≠ i → (base ≤ j)%nat →
     ∃ g' Pc, forked i j s g g' ∧ (stable i Q ∧ Q s g') ∧ (stable j Pc ∧ Pc s g' ∧ safe j (child Done) Pc)) →
  triple i P (fork child) (fun _ => Q).
Proof.
  intros Hf k Hk. cbn [fork safe]. intros s g Hinv HP j Hj Hne Hb.
  destruct (Hf s g j Hinv HP Hj Hne Hb) as (g' & Pc & Hfk & [Hst HQ] & Hc). by exists g', Q, Pc.
Qed.
End Procs.

Arguments proc : clear implicits.
Arguments Code : clear implicits.
