(* ===== verification/PDLeg.v ===== *)
(** * The prefill and decode legs of a request ([pkg/types/pd_leg_state.go],
    [pkg/plugins/gateway/algorithms/pd/abort.go] and [decode_watchdog.go], and the
    prefill goroutine of [prefill/default.go]).

    A disaggregated request has two legs.  The goroutine that posts the prefill
    request outlives the client stream; it reports on the leg state it captured,
    through atomic fields and channels, while the stream goroutine marks the
    decode leg's answers on the same object.  The methods are code on that
    object, one step for every atomic access; [time.Now] and what the prefill
    pod answers are arguments. *)

From S2P Require Import Prelude Concurrent.

(** ** The state of a leg. *)

Record PrefillFailure : Type := MkPrefillFailure {
  pf_Class : string;
  pf_StatusCode : Z;
  pf_Message : string;
  pf_At : Time;
}.

(** The overrides the leg's code reads. *)
Record PDOverrides : Type := MkPDOverrides {
  po_AbortTimeout : Duration;
  po_AbortRetryDelay : Duration;
}.

Inductive chan : Type := ChanOpen | ChanClosed.
(** A [sync.Once]. *)
Inductive once : Type := OnceFresh | OnceRunning | OnceDone.

Record PDLegState : Type := MkLeg {
  leg_rid : option string;
  leg_decodeResponded : bool;
  leg_resetAfterHeaders : bool;
  leg_prefillFailure : option PrefillFailure;
  leg_prefillFailed : chan;
  leg_prefillSucceededNanos : Z;
  leg_prefillSucceeded : chan;
  leg_lastChunkNanos : Z;
  leg_decodeTarget : option (string * string);
  leg_pdOverrides : option PDOverrides;
  leg_abortMu : bool;
  (** The abort context and its cancel function, once built: whether it is
      cancelled. *)
  leg_abortCtx : option bool;
  leg_abortDone : chan;
  leg_abortDoneOnce : once;
}.

Definition newPDLegState : PDLegState :=
  MkLeg None false false None ChanOpen 0 ChanOpen 0 None None false None ChanOpen OnceFresh.

(** The process: a leg, whether a goroutine panicked, and the aborts posted, each
    with the address, the rid and the state of the context it was posted on. *)
Record legProcess : Type := MkProcess {
  lp_leg : PDLegState;
  lp_panic : bool;
  lp_posts : list (string * string * option bool);
}.

Section Updates.
Context (l : PDLegState).

Definition setRid v := MkLeg v l.(leg_decodeResponded) l.(leg_resetAfterHeaders) l.(leg_prefillFailure)
  l.(leg_prefillFailed) l.(leg_prefillSucceededNanos) l.(leg_prefillSucceeded) l.(leg_lastChunkNanos)
  l.(leg_decodeTarget) l.(leg_pdOverrides) l.(leg_abortMu) l.(leg_abortCtx) l.(leg_abortDone) l.(leg_abortDoneOnce).
Definition setResponded v := MkLeg l.(leg_rid) v l.(leg_resetAfterHeaders) l.(leg_prefillFailure)
  l.(leg_prefillFailed) l.(leg_prefillSucceededNanos) l.(leg_prefillSucceeded) l.(leg_lastChunkNanos)
  l.(leg_decodeTarget) l.(leg_pdOverrides) l.(leg_abortMu) l.(leg_abortCtx) l.(leg_abortDone) l.(leg_abortDoneOnce).
Definition setReset v := MkLeg l.(leg_rid) l.(leg_decodeResponded) v l.(leg_prefillFailure)
  l.(leg_prefillFailed) l.(leg_prefillSucceededNanos) l.(leg_prefillSucceeded) l.(leg_lastChunkNanos)
  l.(leg_decodeTarget) l.(leg_pdOverrides) l.(leg_abortMu) l.(leg_abortCtx) l.(leg_abortDone) l.(leg_abortDoneOnce).
Definition setFailure f c := MkLeg l.(leg_rid) l.(leg_decodeResponded) l.(leg_resetAfterHeaders) f
  c l.(leg_prefillSucceededNanos) l.(leg_prefillSucceeded) l.(leg_lastChunkNanos)
  l.(leg_decodeTarget) l.(leg_pdOverrides) l.(leg_abortMu) l.(leg_abortCtx) l.(leg_abortDone) l.(leg_abortDoneOnce).
Definition setSucceeded n c := MkLeg l.(leg_rid) l.(leg_decodeResponded) l.(leg_resetAfterHeaders) l.(leg_prefillFailure)
  l.(leg_prefillFailed) n c l.(leg_lastChunkNanos)
  l.(leg_decodeTarget) l.(leg_pdOverrides) l.(leg_abortMu) l.(leg_abortCtx) l.(leg_abortDone) l.(leg_abortDoneOnce).
Definition setChunk n := MkLeg l.(leg_rid) l.(leg_decodeResponded) l.(leg_resetAfterHeaders) l.(leg_prefillFailure)
  l.(leg_prefillFailed) l.(leg_prefillSucceededNanos) l.(leg_prefillSucceeded) n
  l.(leg_decodeTarget) l.(leg_pdOverrides) l.(leg_abortMu) l.(leg_abortCtx) l.(leg_abortDone) l.(leg_abortDoneOnce).
Definition setTarget t := MkLeg l.(leg_rid) l.(leg_decodeResponded) l.(leg_resetAfterHeaders) l.(leg_prefillFailure)
  l.(leg_prefillFailed) l.(leg_prefillSucceededNanos) l.(leg_prefillSucceeded) l.(leg_lastChunkNanos)
  t l.(leg_pdOverrides) l.(leg_abortMu) l.(leg_abortCtx) l.(leg_abortDone) l.(leg_abortDoneOnce).
Definition setOverrides o := MkLeg l.(leg_rid) l.(leg_decodeResponded) l.(leg_resetAfterHeaders) l.(leg_prefillFailure)
  l.(leg_prefillFailed) l.(leg_prefillSucceededNanos) l.(leg_prefillSucceeded) l.(leg_lastChunkNanos)
  l.(leg_decodeTarget) o l.(leg_abortMu) l.(leg_abortCtx) l.(leg_abortDone) l.(leg_abortDoneOnce).
Definition setAbort mu ctx := MkLeg l.(leg_rid) l.(leg_decodeResponded) l.(leg_resetAfterHeaders) l.(leg_prefillFailure)
  l.(leg_prefillFailed) l.(leg_prefillSucceededNanos) l.(leg_prefillSucceeded) l.(leg_lastChunkNanos)
  l.(leg_decodeTarget) l.(leg_pdOverrides) mu ctx l.(leg_abortDone) l.(leg_abortDoneOnce).
Definition setDone c o := MkLeg l.(leg_rid) l.(leg_decodeResponded) l.(leg_resetAfterHeaders) l.(leg_prefillFailure)
  l.(leg_prefillFailed) l.(leg_prefillSucceededNanos) l.(leg_prefillSucceeded) l.(leg_lastChunkNanos)
  l.(leg_decodeTarget) l.(leg_pdOverrides) l.(leg_abortMu) l.(leg_abortCtx) c o.
End Updates.

Abbreviation LegCode := (Code legProcess unit).

Definition onLeg (f : PDLegState → PDLegState) (p : legProcess) : legProcess :=
  MkProcess (f p.(lp_leg)) p.(lp_panic) p.(lp_posts).

(** An atomic read, and an atomic write. *)
Definition load {A} (f : PDLegState → A) : LegCode A := atomically (fun p => (p, f p.(lp_leg))).
Definition store (f : PDLegState → PDLegState) : LegCode unit := atomically (fun p => (onLeg f p, ())).

(** [close]: of a closed channel, a panic. *)
Definition closeChan (get : PDLegState → chan) (set : PDLegState → PDLegState) : LegCode unit :=
  atomically (fun p =>
    match get p.(lp_leg) with
    | ChanOpen => (onLeg set p, ())
    | ChanClosed => (MkProcess p.(lp_leg) true p.(lp_posts), ())
    end).

Definition lockAbort : LegCode unit := waitFor (fun p =>
  if p.(lp_leg).(leg_abortMu) then None
  else Some (onLeg (fun l => setAbort l true l.(leg_abortCtx)) p, ())).
Definition unlockAbort : LegCode unit := store (fun l => setAbort l false l.(leg_abortCtx)).

(** [abortCancel()]: cancelling twice is cancelling. *)
Definition cancelCtx : LegCode unit := store (fun l => setAbort l l.(leg_abortMu) (Some true)).

(** ** The methods of a leg. *)

(** The pointer is stored for a rid that is not empty. *)
Definition SetRID (rid : string) : LegCode unit :=
  if bool_decide (rid = "") then mret () else store (fun l => setRid l (Some rid)).
Definition RID : LegCode string := load (fun l => default "" l.(leg_rid)).

Definition cancelAbort : LegCode unit :=
  lockAbort;;
  cancel ← load (fun l => bool_decide (is_Some l.(leg_abortCtx)));
  unlockAbort;;
  if (cancel : bool) then cancelCtx else mret ().

Definition MarkDecodeResponded : LegCode unit :=
  store (fun l => setResponded l true);;
  cancelAbort.

Definition DecodeResponded : LegCode bool := load leg_decodeResponded.

(** The context is the leg's own; it is looked at through the leg. *)
Definition AbortContext : LegCode unit :=
  lockAbort;;
  built ← load (fun l => bool_decide (is_Some l.(leg_abortCtx)));
  (if (built : bool) then mret ()
   else
     store (fun l => setAbort l l.(leg_abortMu) (Some false));;
     responded ← DecodeResponded;
     if (responded : bool) then cancelCtx else mret ());;
  unlockAbort.

(** [abortDoneOnce.Do] of the close: a second caller waits for the first. *)
Definition closeAbortDone : LegCode unit :=
  first ← waitFor (fun p =>
    match p.(lp_leg).(leg_abortDoneOnce) with
    | OnceFresh => Some (onLeg (fun l => setDone l l.(leg_abortDone) OnceRunning) p, true)
    | OnceRunning => None
    | OnceDone => Some (p, false)
    end);
  if (first : bool) then
    closeChan leg_abortDone (fun l => setDone l ChanClosed l.(leg_abortDoneOnce));;
    store (fun l => setDone l l.(leg_abortDone) OnceDone)
  else mret ().

Definition FinishDecodeAbort : LegCode unit :=
  cancelAbort;;
  closeAbortDone.

Definition SetResetAfterHeaders (reset : bool) : LegCode unit := store (fun l => setReset l reset).
Definition ResetAfterHeaders : LegCode bool := load leg_resetAfterHeaders.

(** Whether this call was the first. *)
Definition SetPrefillFailure (failure : PrefillFailure) : LegCode bool :=
  swapped ← atomically (fun p =>
    match p.(lp_leg).(leg_prefillFailure) with
    | None => (onLeg (fun l => setFailure l (Some failure) l.(leg_prefillFailed)) p, true)
    | Some _ => (p, false)
    end);
  if (swapped : bool) then
    closeChan leg_prefillFailed (fun l => setFailure l l.(leg_prefillFailure) ChanClosed);;
    mret true
  else mret false.

Definition nanosOf (now : Z) : Z := if now =? 0 then 1 else now.

Definition MarkPrefillSucceeded (now : Z) : LegCode unit :=
  let at_ := nanosOf now in
  swapped ← atomically (fun p =>
    if p.(lp_leg).(leg_prefillSucceededNanos) =? 0
    then (onLeg (fun l => setSucceeded l at_ l.(leg_prefillSucceeded)) p, true)
    else (p, false));
  if (swapped : bool) then
    closeChan leg_prefillSucceeded (fun l => setSucceeded l l.(leg_prefillSucceededNanos) ChanClosed)
  else mret ().

Definition MarkDecodeChunk (now : Z) : LegCode unit := store (fun l => setChunk l (nanosOf now)).

(** The zero time is [None]. *)
Definition timeOfNanos (nanos : Z) : option Time := if nanos =? 0 then None else Some nanos.
Definition PrefillSucceededAt : LegCode (option Time) := load (fun l => timeOfNanos l.(leg_prefillSucceededNanos)).
Definition LastDecodeChunk : LegCode (option Time) := load (fun l => timeOfNanos l.(leg_lastChunkNanos)).

Definition SetDecodeTarget (addr podName : string) : LegCode unit :=
  if bool_decide (addr = "") then mret () else store (fun l => setTarget l (Some (addr, podName))).
Definition DecodeTarget : LegCode (string * string) := load (fun l => default ("", "") l.(leg_decodeTarget)).

Definition SetPDOverrides (o : PDOverrides) : LegCode unit := store (fun l => setOverrides l (Some o)).
Definition LegOverrides (defaults : PDOverrides) : LegCode PDOverrides :=
  load (fun l => default defaults l.(leg_pdOverrides)).

(** ** Prefill failures. *)

(** What [errors.As] and [errors.Is] find in an error's chain. *)
Record prefillError : Type := MkPrefillError {
  pe_http : option Z;
  pe_body : bool;
  pe_setup : bool;
  pe_deadline : bool;
  pe_canceled : bool;
  pe_timeout : bool;
  pe_text : string;
}.

Abbreviation PrefillFailureRequestSetup := "request_setup" (only parsing).
Abbreviation PrefillFailureTimeout := "timeout" (only parsing).
Abbreviation PrefillFailureCanceled := "canceled" (only parsing).
Abbreviation PrefillFailureTransport := "transport" (only parsing).
Abbreviation PrefillFailureHTTPStatus := "http_status" (only parsing).
Abbreviation PrefillFailureBadResponse := "bad_response" (only parsing).

Definition classifyPrefillFailure (err : prefillError) : string * Z :=
  match err.(pe_http) with
  | Some code => (PrefillFailureHTTPStatus, code)
  | None =>
      if err.(pe_body) then (PrefillFailureBadResponse, 0)
      else if err.(pe_setup) then (PrefillFailureRequestSetup, 0)
      else if err.(pe_deadline) then (PrefillFailureTimeout, 0)
      else if err.(pe_canceled) then (PrefillFailureCanceled, 0)
      else if err.(pe_timeout) then (PrefillFailureTimeout, 0)
      else (PrefillFailureTransport, 0)
  end.

Definition PrefillFailureIsTerminalFor (class : string) (resetAfterHeaders : bool) : bool :=
  if bool_decide (class = PrefillFailureBadResponse) then resetAfterHeaders
  else negb (bool_decide (class = "")).
Definition PrefillFailureIsTerminal (class : string) : bool := PrefillFailureIsTerminalFor class false.

Definition RecordPrefillFailure (err : prefillError) (now : Z) : LegCode PrefillFailure :=
  let '(class, statusCode) := classifyPrefillFailure err in
  let failure := MkPrefillFailure class statusCode err.(pe_text) now in
  SetPrefillFailure failure;;
  mret failure.

(** ** Aborts. *)

(** [postDecodeAbort] on the leg's context, and on the background. *)
Definition postDecodeAbort (onLegCtx : bool) (addr rid : string) : LegCode unit :=
  atomically (fun p =>
    (MkProcess p.(lp_leg) p.(lp_panic)
       (p.(lp_posts) ++ [(addr, rid, if onLegCtx then p.(lp_leg).(leg_abortCtx) else None)]), ())).

Definition attemptAbort (addr rid : string) : LegCode unit :=
  responded ← DecodeResponded;
  if (responded : bool) then mret () else postDecodeAbort true addr rid.

(** The goroutine [OnPrefillLegFailed] starts.  Its wait for the retry ends with
    the timer or with the context, whichever is first. *)
Definition abortDecodeLeg (addr rid : string) (retryDelay : Duration) : LegCode unit :=
  attemptAbort addr rid;;
  (if retryDelay <=? 0 then mret () else attemptAbort addr rid);;
  FinishDecodeAbort.

Definition OnPrefillLegFailed (defaults : PDOverrides) (err : prefillError) (now : Z) : LegCode PrefillFailure :=
  failure ← RecordPrefillFailure err now;
  if negb (PrefillFailureIsTerminal failure.(pf_Class)) then FinishDecodeAbort;; mret failure
  else
    rid ← RID;
    target ← DecodeTarget;
    let addr : string := (target : string * string).1 in
    if bool_decide (rid = "") then FinishDecodeAbort;; mret failure
    else
      overrides ← LegOverrides defaults;
      if po_AbortTimeout overrides <=? 0 then FinishDecodeAbort;; mret failure
      else if bool_decide (addr = "") then FinishDecodeAbort;; mret failure
      else
        responded ← DecodeResponded;
        if (responded : bool) then FinishDecodeAbort;; mret failure
        else
          again ← LegOverrides defaults;
          delay ← LegOverrides defaults;
          AbortContext;;
          fork (abortDecodeLeg addr rid (po_AbortRetryDelay delay));;
          mret failure.

(** The watchdog's abort, on a context of its own. *)
Definition AbortDecodeLegOnWatchdog (defaults : PDOverrides) : LegCode unit :=
  rid ← RID;
  target ← DecodeTarget;
  let addr : string := (target : string * string).1 in
  overrides ← LegOverrides defaults;
  if bool_decide (rid = "") then FinishDecodeAbort
  else if po_AbortTimeout overrides <=? 0 then FinishDecodeAbort
  else if bool_decide (addr = "") then FinishDecodeAbort
  else fork (postDecodeAbort false addr rid;; FinishDecodeAbort).

(** ** The prefill goroutine. *)

Record AsyncDispatchPolicy : Type := MkAsyncPolicy {
  ap_KeepClientCancel : bool;
  ap_AbortDecode : bool;
  ap_ResetAfterHeaders : bool;
}.

Definition DefaultAsyncDispatchPolicy : AsyncDispatchPolicy := MkAsyncPolicy false true false.

(** What it does to the leg with the answer of the prefill pod, at [now];
    the charges it releases elsewhere and its metrics are left out. *)
Definition prefillGoroutine (defaults : PDOverrides) (policy : AsyncDispatchPolicy) (answer : option prefillError)
    (now : Z) : LegCode unit :=
  match answer with
  | Some err =>
      failure ← (if ap_AbortDecode policy then OnPrefillLegFailed defaults err now
                 else f ← RecordPrefillFailure err now; FinishDecodeAbort;; mret f);
      if negb (PrefillFailureIsTerminalFor (pf_Class failure) (ap_ResetAfterHeaders policy))
      then MarkPrefillSucceeded now else mret ()
  | None => MarkPrefillSucceeded now
  end.

(** ** Goroutines on a leg. *)

Inductive call : Type :=
| CallSetRID (rid : string)
| CallSetDecodeTarget (addr podName : string)
| CallSetPDOverrides (o : PDOverrides)
| CallSetResetAfterHeaders (reset : bool)
| CallMarkDecodeResponded
| CallMarkDecodeChunk (now : Z)
| CallFinishDecodeAbort
| CallWatchdog (defaults : PDOverrides)
| CallPrefill (defaults : PDOverrides) (policy : AsyncDispatchPolicy) (answer : option prefillError) (now : Z).

Definition runCall (c : call) : LegCode unit :=
  match c with
  | CallSetRID rid => SetRID rid
  | CallSetDecodeTarget addr podName => SetDecodeTarget addr podName
  | CallSetPDOverrides o => SetPDOverrides o
  | CallSetResetAfterHeaders reset => SetResetAfterHeaders reset
  | CallMarkDecodeResponded => MarkDecodeResponded
  | CallMarkDecodeChunk now => MarkDecodeChunk now
  | CallFinishDecodeAbort => FinishDecodeAbort
  | CallWatchdog defaults => AbortDecodeLegOnWatchdog defaults
  | CallPrefill defaults policy answer now => prefillGoroutine defaults policy answer now
  end.

(** A goroutine makes its calls one after the other. *)
Fixpoint runCalls (cs : list call) : LegCode unit :=
  match cs with
  | [] => mret ()
  | c :: rest => runCall c;; runCalls rest
  end.

Definition startLeg (goroutines : list (list call)) : legProcess * list (proc legProcess unit) :=
  (MkProcess newPDLegState false [], map (fun cs => runCalls cs Done) goroutines).

(** ** What the goroutines keep to. *)

(** Ghost state: who holds the abort mutex, who is closing each of the three
    channels, whether a [MarkDecodeResponded] has passed its critical section,
    and the goroutines that were started to see an abort through. *)
Record legGhost : Type := MkGhost {
  g_owner : option nat;
  g_once : option nat;
  g_fail : option nat;
  g_succ : option nat;
  g_seen : bool;
  g_owes : gset nat;
}.

Section Legs.
(** The number of goroutines at the start. *)
Context (base : nat).

Record legInv (p : legProcess) (g : legGhost) : Prop := MkLegInv {
  inv_panic : lp_panic p = false;
  inv_mutex : match g_owner g with Some _ => leg_abortMu (lp_leg p) = true | None => leg_abortMu (lp_leg p) = false end;
  inv_once : match leg_abortDoneOnce (lp_leg p) with
             | OnceFresh => g_once g = None ∧ leg_abortDone (lp_leg p) = ChanOpen
             | OnceRunning => g_once g ≠ None
             | OnceDone => g_once g = None ∧ leg_abortDone (lp_leg p) = ChanClosed
             end;
  inv_fail : match leg_prefillFailure (lp_leg p), g_fail g with
             | None, None | Some _, Some _ => leg_prefillFailed (lp_leg p) = ChanOpen
             | Some _, None => leg_prefillFailed (lp_leg p) = ChanClosed
             | None, Some _ => False
             end;
  inv_succ : match leg_prefillSucceededNanos (lp_leg p) =? 0, g_succ g with
             | true, None | false, Some _ => leg_prefillSucceeded (lp_leg p) = ChanOpen
             | false, None => leg_prefillSucceeded (lp_leg p) = ChanClosed
             | true, Some _ => False
             end;
  inv_seen : g_seen g = true → leg_decodeResponded (lp_leg p) = true;
  inv_abort : g_seen g = true → g_owner g = None → leg_abortCtx (lp_leg p) ≠ Some false;
  inv_owes j : j ∈ g_owes g → (base ≤ j)%nat;
}.

(** What no step undoes. *)
Record mono (c c' : legProcess * legGhost) : Prop := MkMono {
  mono_responded : leg_decodeResponded (lp_leg c.1) = true → leg_decodeResponded (lp_leg c'.1) = true;
  mono_seen : g_seen c.2 = true → g_seen c'.2 = true;
  mono_built : leg_abortCtx (lp_leg c.1) ≠ None → leg_abortCtx (lp_leg c'.1) ≠ None;
  mono_cancelled : leg_abortCtx (lp_leg c.1) = Some true → leg_abortCtx (lp_leg c'.1) = Some true;
  mono_failure f : leg_prefillFailure (lp_leg c.1) = Some f → leg_prefillFailure (lp_leg c'.1) = Some f;
  mono_succeeded : leg_prefillSucceededNanos (lp_leg c.1) ≠ 0 → leg_prefillSucceededNanos (lp_leg c'.1) ≠ 0;
  mono_done : leg_abortDoneOnce (lp_leg c.1) = OnceDone → leg_abortDoneOnce (lp_leg c'.1) = OnceDone;
  mono_owes : g_owes c.2 ⊆ g_owes c'.2;
}.

Record legRely (i : nat) (c c' : legProcess * legGhost) : Prop := MkRely {
  rely_mono : mono c c';
  rely_owner : g_owner c.2 = Some i ↔ g_owner c'.2 = Some i;
  rely_held : g_owner c.2 = Some i →
    (leg_abortCtx (lp_leg c.1) = None → leg_abortCtx (lp_leg c'.1) = None) ∧
    (leg_abortCtx (lp_leg c'.1) ≠ Some true → g_seen c'.2 = g_seen c.2);
  rely_once : g_once c.2 = Some i ↔ g_once c'.2 = Some i;
  rely_closing : g_once c.2 = Some i → leg_abortDone (lp_leg c'.1) = leg_abortDone (lp_leg c.1);
  rely_fail : g_fail c.2 = Some i ↔ g_fail c'.2 = Some i;
  rely_succ : g_succ c.2 = Some i ↔ g_succ c'.2 = Some i;
}.

Definition legBusy (g : legGhost) (i : nat) : Prop :=
  g_owner g = Some i ∨ g_once g = Some i ∨ g_fail g = Some i ∨ g_succ g = Some i.

(** Nobody waits for the one who is to see an abort through. *)
Definition legPending (p : legProcess) (g : legGhost) (i : nat) : Prop :=
  legBusy g i ∨ (i ∈ g_owes g ∧ leg_abortDoneOnce (lp_leg p) ≠ OnceDone).

Lemma legBusy_pending p g i : legInv p g → legBusy g i → legPending p g i.
Proof. by left. Qed.

Abbreviation legStable := (stable legInv legRely).
Abbreviation legGuaranteed := (guaranteed legInv legRely legPending).

(** Facts that last. *)
Definition lasting (F : legProcess → legGhost → Prop) : Prop :=
  ∀ p g p' g', mono (p, g) (p', g') → F p g → F p' g'.

(** The goroutine is in no critical section, and [F]. *)
Definition idle (i : nat) (F : legProcess → legGhost → Prop) (p : legProcess) (g : legGhost) : Prop :=
  ¬ legBusy g i ∧ F p g.

Lemma idle_stable i F : lasting F → legStable i (idle i F).
Proof.
  intros HF p g p' g' _ _ [Hm Ho _ Hc _ Hf Hs] [Hb HP]. cbn [fst snd] in *.
  split; [|by eapply HF]. unfold legBusy in *. intuition.
Qed.

(** ** Steps. *)

(** What a goroutine ends with. *)
Context (legPost : nat → unit → legProcess → legGhost → Prop).
Abbreviation legTriple := (triple (R := unit) legInv legRely legPending legBusy base legPost).

Lemma load_triple {A} i F (f : PDLegState → A) (Q : A → legProcess → legGhost → Prop) :
  (∀ a, lasting (Q a)) → (∀ p g, legInv p g → F p g → Q (f (lp_leg p)) p g) →
  legTriple i (idle i F) (load f) (fun a => idle i (Q a)).
Proof.
  intros HQ Hf. apply triple_atomically; [intros a; by apply idle_stable|].
  intros p g Hinv [Hb HF]. exists g. cbn [fst snd]. split; [|by split; [|apply Hf]].
  split; [done|]. split; [|done]. intros j Hj. by split; cbn.
Qed.

(** A write that changes none of the fields the invariant is about. *)
Lemma store_triple i F (f : PDLegState → PDLegState) :
  lasting F →
  (∀ l, leg_decodeResponded l = true → leg_decodeResponded (f l) = true) →
  (∀ l, leg_abortCtx (f l) = leg_abortCtx l ∧ leg_abortMu (f l) = leg_abortMu l ∧ leg_abortDone (f l) = leg_abortDone l ∧
        leg_abortDoneOnce (f l) = leg_abortDoneOnce l ∧ leg_prefillFailure (f l) = leg_prefillFailure l ∧
        leg_prefillFailed (f l) = leg_prefillFailed l ∧ leg_prefillSucceeded (f l) = leg_prefillSucceeded l ∧
        leg_prefillSucceededNanos (f l) = leg_prefillSucceededNanos l) →
  legTriple i (idle i F) (store f) (fun _ => idle i F).
Proof.
  intros HF Hr Hf. apply triple_atomically; [intros a; by apply idle_stable|].
  intros p g Hinv [Hb HFp]. exists g. cbn [fst snd].
  destruct (Hf (lp_leg p)) as (H1 & H2 & H3 & H4 & H5 & H6 & H7 & H8). specialize (Hr (lp_leg p)).
  assert (mono (p, g) (onLeg f p, g)) as Hm by (split; cbn; rewrite ?H1, ?H2, ?H3, ?H4, ?H5, ?H6, ?H7, ?H8; auto).
  split; [|split; [done|by eapply HF]]. split; [|split; [|intros j _; unfold legPending; cbn; by rewrite H4]].
  - destruct Hinv. split; cbn; rewrite ?H1, ?H2, ?H3, ?H4, ?H5, ?H6, ?H7, ?H8; auto.
  - intros j Hj. split; cbn; rewrite ?H1, ?H3; try done.
Qed.

(** Holding the mutex: nobody else passes or builds the context. *)
Definition holding (i : nat) (F : legProcess → legGhost → Prop) (p : legProcess) (g : legGhost) : Prop :=
  (g_owner g = Some i ∧ g_once g ≠ Some i ∧ g_fail g ≠ Some i ∧ g_succ g ≠ Some i) ∧ F p g.

(** Facts that last while [i] holds the mutex. *)
Definition heldLasting (i : nat) (F : legProcess → legGhost → Prop) : Prop :=
  ∀ p g p' g', legRely i (p, g) (p', g') → g_owner g = Some i → F p g → F p' g'.

Lemma lasting_held i F : lasting F → heldLasting i F.
Proof. intros HF p g p' g' [Hm _ _ _ _ _ _] _. by apply HF. Qed.

Lemma holding_stable i F : heldLasting i F → legStable i (holding i F).
Proof.
  intros HF p g p' g' _ _ Hr [(Ho & Hc & Hf & Hs) HP]. pose proof Hr as [_ Ro _ Rc _ Rf Rs]. cbn [fst snd] in *.
  split; [|by eapply HF]. intuition.
Qed.

(** A call that is marked as passing has seen the decode leg's answer. *)
Definition responded (p : legProcess) (g : legGhost) : Prop := leg_decodeResponded (lp_leg p) = true.

Lemma lasting_and F F' : lasting F → lasting F' → lasting (fun p g => F p g ∧ F' p g).
Proof. intros HF HF' p g p' g' Hm [? ?]. split; [by eapply HF|by eapply HF']. Qed.

Lemma lasting_responded : lasting responded.
Proof. intros p g p' g' Hm. apply (mono_responded _ _ Hm). Qed.

Lemma lasting_true : lasting (fun _ _ => True).
Proof. done. Qed.

Lemma lasting_built : lasting (fun p g => leg_abortCtx (lp_leg p) ≠ None).
Proof. intros p g p' g' Hm. apply (mono_built _ _ Hm). Qed.

Lemma lasting_cancelled : lasting (fun p g => leg_abortCtx (lp_leg p) = Some true).
Proof. intros p g p' g' Hm. apply (mono_cancelled _ _ Hm). Qed.

Lemma lasting_seen : lasting (fun p g => g_seen g = true).
Proof. intros p g p' g' Hm. apply (mono_seen _ _ Hm). Qed.

Lemma lasting_pure (X : Prop) : lasting (fun _ _ => X).
Proof. unfold lasting. auto. Qed.

Create HintDb leg.
#[local] Hint Resolve lasting_and lasting_responded lasting_true lasting_built lasting_cancelled lasting_seen
  lasting_pure lasting_held : leg.

(** No live context is left to one who has passed. *)
Definition settledCtx (p : legProcess) (g : legGhost) : Prop :=
  g_seen g = true → leg_abortCtx (lp_leg p) ≠ Some false.

Lemma held_settledCtx i : heldLasting i settledCtx.
Proof.
  intros p g p' g' Hr Ho Hs Hseen Hctx. destruct (rely_held _ _ _ Hr Ho) as [Hnone Hsame]. cbn [fst snd] in *.
  rewrite Hsame in Hseen by congruence. pose proof (mono_cancelled _ _ (rely_mono _ _ _ Hr)) as Hc. cbn in Hc.
  specialize (Hs Hseen). destruct (leg_abortCtx (lp_leg p)) as [[]|]; [|done|]; naive_solver.
Qed.

Lemma held_none i : heldLasting i (fun p g => leg_abortCtx (lp_leg p) = None).
Proof. intros p g p' g' Hr Ho Hn. by apply (rely_held _ _ _ Hr Ho). Qed.

Lemma held_and i F F' : heldLasting i F → heldLasting i F' → heldLasting i (fun p g => F p g ∧ F' p g).
Proof. intros HF HF' p g p' g' Hr Ho [? ?]. split; [by eapply HF|by eapply HF']. Qed.

Lemma lockAbort_triple i F :
  lasting F → legTriple i (idle i F) lockAbort (fun _ => holding i (fun p g => F p g ∧ settledCtx p g)).
Proof.
  intros HF. apply triple_waitFor; [intros _; by apply holding_stable, held_and, held_settledCtx; apply lasting_held|].
  intros p g Hinv [Hb HFp]. unfold lockAbort. pose proof (inv_mutex _ _ Hinv) as Hmu. pose proof (inv_abort _ _ Hinv) as Ha.
  destruct (leg_abortMu (lp_leg p)) eqn:Emu.
  - split; [done|]. destruct (g_owner g) as [j|] eqn:Eo; [|done]. exists j. by left.
  - destruct (g_owner g) as [j|] eqn:Eo; [done|].
    exists (MkGhost (Some i) (g_once g) (g_fail g) (g_succ g) (g_seen g) (g_owes g)).
    set (p' := onLeg _ p). set (g' := MkGhost _ _ _ _ _ _).
    assert (mono (p, g) (p', g')) as Hm by (by split; cbn).
    split; [|split; [unfold legBusy in Hb; cbn; tauto|split; [by eapply HF|by intros ?; apply Ha]]].
    split; [|split].
    + destruct Hinv. split; cbn; auto; done.
    + intros j Hj. split; cbn; try done; rewrite ?Eo; split; congruence.
    + intros j Hj. unfold legPending, legBusy. cbn. naive_solver.
Qed.

(** Reading while holding the mutex. *)
Lemma held_load_triple {A} i F (f : PDLegState → A) (Q : A → legProcess → legGhost → Prop) :
  (∀ a, heldLasting i (Q a)) →
  (∀ p g, legInv p g → g_owner g = Some i → F p g → Q (f (lp_leg p)) p g) →
  legTriple i (holding i F) (load f) (fun a => holding i (Q a)).
Proof.
  intros HQ Hf. apply triple_atomically; [intros a; by apply holding_stable|].
  intros p g Hinv [Ho HF]. exists g. cbn [fst snd]. split; [|by split; [|apply Hf; [..|tauto|]]].
  split; [done|]. split; [|done]. intros j Hj. by split; cbn.
Qed.

(** Leaving the critical section with the context settled.  One who leaves it
    having seen the decode leg's answer, and no live context, has passed. *)
Lemma unlockAbort_triple i F F' (passes : bool) :
  lasting F' →
  (∀ p g, holding i F p g → legInv p g →
     F' p g ∧ ((g_seen g || passes) = true → leg_abortCtx (lp_leg p) ≠ Some false) ∧
     (passes = true → leg_decodeResponded (lp_leg p) = true)) →
  legTriple i (holding i F) unlockAbort
    (fun _ => idle i (fun p g => F' p g ∧ (passes = true → g_seen g = true))).
Proof.
  intros HF Hpass. apply triple_atomically.
  - intros _. apply idle_stable. intros p g p' g' Hm [H1 H2]. split; [by eapply HF|]. intros Hp.
    apply (mono_seen _ _ Hm). auto.
  - intros p g Hinv Hh. destruct (Hpass p g Hh Hinv) as (HFp & Hctx & Hresp). destruct Hh as [(Ho & Hc & Hf & Hs) _].
    exists (MkGhost None (g_once g) (g_fail g) (g_succ g) (g_seen g || passes) (g_owes g)). cbn [fst snd].
    set (p' := onLeg _ p). set (g' := MkGhost _ _ _ _ _ _).
    assert (mono (p, g) (p', g')) as Hm by (split; cbn; try done; by intros ->).
    split; [|split; [unfold legBusy; cbn; naive_solver|]].
    + split; [|split].
      * destruct Hinv. split; cbn; auto; try done.
        intros [?| ->]%orb_true_iff; auto.
      * intros j Hj. split; cbn; try done; [rewrite Ho; split; congruence|]. rewrite Ho. congruence.
      * intros j Hj. unfold legPending, legBusy. cbn. naive_solver.
    + split; [by eapply HF|]. intros ->. cbn. apply orb_true_r.
Qed.

(** Cancelling the context, in and out of the critical section. *)
Lemma cancelCtx_triple i F (passes : bool) :
  lasting F →
  (∀ p g, F p g → passes = true → leg_decodeResponded (lp_leg p) = true) →
  legTriple i (idle i (fun p g => F p g ∧ leg_abortCtx (lp_leg p) ≠ None)) cancelCtx
    (fun _ => idle i (fun p g => F p g ∧ (passes = true → g_seen g = true))).
Proof.
  intros HF Hpass. apply triple_atomically.
  - intros _. apply idle_stable. intros p g p' g' Hm [H1 H2]. split; [by eapply HF|]. intros Hp.
    apply (mono_seen _ _ Hm). auto.
  - intros p g Hinv [Hb [HFp Hne]]. exists (MkGhost (g_owner g) (g_once g) (g_fail g) (g_succ g) (g_seen g || passes) (g_owes g)).
    cbn [fst snd]. set (p' := onLeg _ p). set (g' := MkGhost _ _ _ _ _ _).
    assert (mono (p, g) (p', g')) as Hm by (split; cbn; try done; by intros ->).
    split; [|split; [done|split; [by eapply HF|intros ->; apply orb_true_r]]]. split; [|split; [|done]].
    + destruct Hinv. split; cbn; try done. intros [?| ->]%orb_true_iff; eauto.
    + intros j Hj. split; cbn; try done.
Qed.

Lemma held_cancelCtx_triple i F :
  lasting F →
  legTriple i (holding i (fun p g => F p g ∧ leg_abortCtx (lp_leg p) ≠ None)) cancelCtx
    (fun _ => holding i (fun p g => F p g ∧ settledCtx p g)).
Proof.
  intros HF. apply triple_atomically.
  - intros _. apply holding_stable, held_and, held_settledCtx. by apply lasting_held.
  - intros p g Hinv [Ho [HFp Hne]]. exists g. cbn [fst snd]. set (p' := onLeg _ p).
    assert (mono (p, g) (p', g)) as Hm by (by split; cbn).
    split; [|split; [done|split; [by eapply HF|by intros _]]]. split; [|split; [|done]].
    + destruct Hinv. by split; cbn.
    + intros j Hj. by split; cbn.
Qed.

(** Building it, in the critical section. *)
Lemma buildCtx_triple i F :
  lasting F →
  legTriple i (holding i (fun p g => (F p g ∧ settledCtx p g) ∧ leg_abortCtx (lp_leg p) = None))
    (store (fun l => setAbort l (leg_abortMu l) (Some false)))
    (fun _ => holding i (fun p g => F p g ∧ leg_abortCtx (lp_leg p) ≠ None)).
Proof.
  intros HF. apply triple_atomically.
  - intros _. apply holding_stable, held_and; apply lasting_held; [done|apply lasting_built].
  - intros p g Hinv [Ho [[HFp _] Hnone]]. exists g. cbn [fst snd]. set (p' := onLeg _ p).
    assert (mono (p, g) (p', g)) as Hm by (split; cbn; try done; congruence).
    split; [|split; [done|split; [by eapply HF|done]]]. destruct Ho as (Ho & _). split; [|split; [|done]].
    + destruct Hinv. split; cbn; try done. congruence.
    + intros j Hj. split; cbn; try done. rewrite Ho. congruence.
Qed.

(** ** The methods. *)

(** After [cancelAbort] of one who has said that the decode leg answered, it has
    passed: no live context is left, and none will be. *)
Lemma cancelAbort_triple i F (passes : bool) :
  lasting F → (∀ p g, F p g → passes = true → leg_decodeResponded (lp_leg p) = true) →
  legTriple i (idle i F) cancelAbort (fun _ => idle i (fun p g => F p g ∧ (passes = true → g_seen g = true))).
Proof.
  intros HF Hpass. unfold cancelAbort. eapply triple_bind; [by apply lockAbort_triple|]. intros []. cbv beta.
  eapply triple_bind; [apply (held_load_triple i _ _ (fun b p g =>
    (F p g ∧ settledCtx p g) ∧ (if b : bool then leg_abortCtx (lp_leg p) ≠ None else leg_abortCtx (lp_leg p) = None)))|].
  - intros b. apply held_and; [apply held_and, held_settledCtx; auto with leg|]. destruct b; [auto with leg|apply held_none].
  - intros p g _ _ HFp. split; [done|]. case_bool_decide as Hb; [by destruct Hb as [? ->]|]. by apply eq_None_not_Some.
  - intros b. cbv beta. eapply triple_bind.
    + apply (unlockAbort_triple i _ (fun p g => F p g ∧ (if b : bool then leg_abortCtx (lp_leg p) ≠ None else True))
               (passes && negb b)).
      * destruct b; auto with leg.
      * intros p g [_ [[HFp Hset] Hb]] Hinv. split; [split; [done|by destruct b]|]. split.
        -- destruct b; simpl; [rewrite andb_false_r, orb_false_r; apply Hset|by rewrite Hb].
        -- intros [-> _]%andb_true_iff. by eapply Hpass.
    + intros []. cbv beta. destruct b; simpl.
      * eapply triple_weaken; [| |apply (cancelCtx_triple i F passes); done]; [|done].
        intros p g _ [Hi [[? ?] _]]. done.
      * rewrite andb_true_r. apply triple_ret. intros p g _ [Hi [[? _] ?]]. done.
Qed.

Lemma MarkDecodeResponded_triple i F :
  lasting F →
  legTriple i (idle i F) MarkDecodeResponded (fun _ => idle i (fun p g => F p g ∧ g_seen g = true)).
Proof.
  intros HF. unfold MarkDecodeResponded. eapply triple_bind.
  - eapply triple_atomically with (Q := fun _ => idle i (fun p g => F p g ∧ responded p g)).
    { intros _. apply idle_stable. auto with leg. }
    intros p g Hinv [Hb HFp]. exists g. cbn [fst snd].
    assert (mono (p, g) (onLeg (fun l => setResponded l true) p, g)) as Hm by (by split; cbn).
    split; [|split; [done|split; [by eapply HF|done]]]. split; [|split; [|done]].
    + destruct Hinv. by split; cbn.
    + intros j Hj. by split; cbn.
  - intros []. cbv beta. eapply triple_weaken; [| |apply (cancelAbort_triple i (fun p g => F p g ∧ responded p g) true)]; [done| |auto with leg|by intros ? ? []].
    intros [] p g _ [Hi [[? _] ?]]. split; [done|]. auto.
Qed.

Lemma AbortContext_triple i F :
  lasting F →
  legTriple i (idle i F) AbortContext (fun _ => idle i F).
Proof.
  intros HF. unfold AbortContext. eapply triple_bind; [by apply lockAbort_triple|]. intros []. cbv beta.
  eapply triple_bind; [apply (held_load_triple i _ _ (fun b p g =>
    (F p g ∧ settledCtx p g) ∧ (if b : bool then True else leg_abortCtx (lp_leg p) = None)))|].
  - intros b. apply held_and; [apply held_and, held_settledCtx; auto with leg|]. destruct b; [auto with leg|apply held_none].
  - intros p g _ _ HFp. split; [done|]. case_bool_decide as Hb; [done|]. by apply eq_None_not_Some.
  - intros b. cbv beta. eapply triple_bind with (Q := fun _ => holding i (fun p g => F p g ∧ settledCtx p g)).
    + destruct b; [apply triple_ret; intros p g _ [? [? ?]]; done|]. 
      eapply triple_bind; [by apply buildCtx_triple|]. intros []. cbv beta.
      eapply triple_bind; [apply (held_load_triple i _ _ (fun r p g =>
        F p g ∧ if r : bool then leg_abortCtx (lp_leg p) ≠ None else settledCtx p g))|].
      * intros r. apply held_and; [auto with leg|]. destruct r; [auto with leg|apply held_settledCtx].
      * intros p g Hinv _ [HFp Hb]. split; [done|]. destruct (leg_decodeResponded (lp_leg p)) eqn:E; [done|].
        intros Hs%(inv_seen _ _ Hinv). congruence.
      * intros r. cbv beta. destruct r; [by apply held_cancelCtx_triple|by apply triple_ret].
    + intros []. cbv beta. eapply triple_weaken; [| |apply (unlockAbort_triple i (fun p g => F p g ∧ settledCtx p g) F false)]; [done| |done|].
      * by intros [] p g _ [Hi [? _]].
      * intros p g [_ [HFp Hs]] Hinv. split; [done|]. split; [|done]. by rewrite orb_false_r.
Qed.

(** ** Closing the channels. *)

Inductive section : Type := InAbort | InOnce | InFail | InSucc.
Definition sectionOf (g : legGhost) (s : section) : option nat :=
  match s with InAbort => g_owner g | InOnce => g_once g | InFail => g_fail g | InSucc => g_succ g end.

(** The goroutine is in this section and in no other, and [F]. *)
Definition within (i : nat) (s : section) (F : legProcess → legGhost → Prop) (p : legProcess) (g : legGhost) : Prop :=
  (∀ s', sectionOf g s' = Some i ↔ s' = s) ∧ F p g.

Lemma rely_section i c c' s : legRely i c c' → sectionOf c.2 s = Some i ↔ sectionOf c'.2 s = Some i.
Proof. intros [_ ? _ ? _ ? ?]. by destruct s. Qed.

Lemma within_stable i s F :
  (∀ p g p' g', legRely i (p, g) (p', g') → sectionOf g s = Some i → F p g → F p' g') →
  legStable i (within i s F).
Proof.
  intros HF p g p' g' _ _ Hr [Hs HP]. split; [|eapply HF; [done|by apply Hs|done]].
  intros s'. rewrite <-(Hs s'). symmetry. apply (rely_section _ _ _ s' Hr).
Qed.

Lemma within_lasting_stable i s F : lasting F → legStable i (within i s F).
Proof. intros HF. apply within_stable. intros p g p' g' Hr _. eapply HF, (rely_mono _ _ _ Hr). Qed.

Lemma idle_section i F p g s : idle i F p g → sectionOf g s ≠ Some i.
Proof. intros [Hb _]. unfold legBusy in Hb. destruct s; simpl; tauto. Qed.

Lemma lasting_failure : lasting (fun p g => leg_prefillFailure (lp_leg p) ≠ None).
Proof.
  intros p g p' g' Hm. destruct (leg_prefillFailure (lp_leg p)) eqn:E; [|done].
  intros _. by rewrite (mono_failure _ _ Hm _ E : leg_prefillFailure (lp_leg p') = _).
Qed.

Lemma lasting_succeeded : lasting (fun p g => leg_prefillSucceededNanos (lp_leg p) ≠ 0).
Proof. intros p g p' g' Hm. apply (mono_succeeded _ _ Hm). Qed.

Lemma lasting_done : lasting (fun p g => leg_abortDoneOnce (lp_leg p) = OnceDone).
Proof. intros p g p' g' Hm. apply (mono_done _ _ Hm). Qed.
#[local] Hint Resolve lasting_failure lasting_succeeded lasting_done : leg.

Definition setSection (g : legGhost) (s : section) (v : option nat) : legGhost :=
  match s with
  | InAbort => MkGhost v (g_once g) (g_fail g) (g_succ g) (g_seen g) (g_owes g)
  | InOnce => MkGhost (g_owner g) v (g_fail g) (g_succ g) (g_seen g) (g_owes g)
  | InFail => MkGhost (g_owner g) (g_once g) v (g_succ g) (g_seen g) (g_owes g)
  | InSucc => MkGhost (g_owner g) (g_once g) (g_fail g) v (g_seen g) (g_owes g)
  end.

Lemma enter_section i s p g p' :
  sectionOf g s = None → ¬ legBusy g i →
  let g' := setSection g s (Some i) in
  legInv p' g' → mono (p, g) (p', g') →
  leg_abortCtx (lp_leg p') = leg_abortCtx (lp_leg p) → leg_abortDone (lp_leg p') = leg_abortDone (lp_leg p) →
  legGuaranteed i (p, g) (p', g') ∧ ∀ s', sectionOf g' s' = Some i ↔ s' = s.
Proof.
  intros Hs Hb g' Hinv Hm Hctx Hdone. unfold legBusy in Hb. split.
  - split; [done|]. split.
    + intros j Hj. split; [done|..]; cbn; rewrite ?Hctx, ?Hdone; destruct s; cbn in *; rewrite ?Hs; try done;
        split; congruence.
    + intros j Hj. pose proof (mono_done _ _ Hm). unfold legPending, legBusy. destruct s; cbn in *; naive_solver.
  - intros s'. destruct s, s'; cbn; split; try done; tauto.
Qed.

Lemma leave_section i s p g p' :
  (∀ s', sectionOf g s' = Some i ↔ s' = s) →
  let g' := setSection g s None in
  legInv p' g' → mono (p, g) (p', g') →
  leg_abortCtx (lp_leg p') = leg_abortCtx (lp_leg p) → leg_abortDone (lp_leg p') = leg_abortDone (lp_leg p) →
  legGuaranteed i (p, g) (p', g') ∧ ¬ legBusy g' i.
Proof.
  intros Hsec g' Hinv Hm Hctx Hdone. pose proof (proj2 (Hsec s) eq_refl) as Hs.
  assert (∀ s', sectionOf g' s' ≠ Some i) as Hout.
  { intros s'. specialize (Hsec s'). destruct s, s'; cbn in *; try done; intros Hc; by apply Hsec in Hc. }
  split.
  - split; [done|]. split.
    + intros j Hj. split; [done|..]; cbn; rewrite ?Hctx, ?Hdone; destruct s; cbn in *; rewrite ?Hs; try done;
        split; congruence.
    + intros j Hj. pose proof (mono_done _ _ Hm). unfold legPending, legBusy. destruct s; cbn in *; naive_solver.
  - intros Hb. pose proof (Hout InAbort). pose proof (Hout InOnce). pose proof (Hout InFail). pose proof (Hout InSucc).
    unfold legBusy in Hb. cbn in *. tauto.
Qed.

(** A step that changes nothing. *)
Lemma same_guaranteed i p g : legInv p g → legGuaranteed i (p, g) (p, g).
Proof. intros Hinv. split; [done|]. split; [|done]. intros j Hj. by split; cbn. Qed.

(** The one call that stores the failure closes the channel. *)
Lemma SetPrefillFailure_triple i F failure :
  lasting F →
  legTriple i (idle i F) (SetPrefillFailure failure)
    (fun _ => idle i (fun p g => F p g ∧ leg_prefillFailure (lp_leg p) ≠ None)).
Proof.
  intros HF. set (Q := fun p g => F p g ∧ leg_prefillFailure (lp_leg p) ≠ None). assert (lasting Q) as HQ by (unfold Q; auto with leg).
  unfold SetPrefillFailure. eapply triple_bind with (Q := fun b => if b : bool then within i InFail Q else idle i Q).
  - apply triple_atomically; [intros []; [by apply within_lasting_stable|by apply idle_stable]|].
    intros p g Hinv [Hb HFp]. pose proof (inv_fail _ _ Hinv) as Hi.
    destruct (leg_prefillFailure (lp_leg p)) as [f|] eqn:Ef; cbn [fst snd].
    + exists g. split; [by apply same_guaranteed|split; [done|split; [done|by rewrite Ef]]].
    + destruct (g_fail g) eqn:Eg; [done|]. exists (setSection g InFail (Some i)). set (p' := onLeg _ p).
      assert (mono (p, g) (p', setSection g InFail (Some i))) as Hm by (split; cbn; try done; congruence).
      destruct (enter_section i InFail p g p') as [Hg Hin]; try done; [destruct Hinv; by split; cbn|].
      split; [done|split; [done|split; [by eapply HF|done]]].
  - intros b. cbv beta. destruct b; [|by apply triple_ret].
    eapply triple_bind with (Q := fun _ => idle i Q); [|intros []; by apply triple_ret].
    apply triple_atomically; [intros _; by apply idle_stable|].
    intros p g Hinv [Hsec HQp]. pose proof (inv_fail _ _ Hinv) as Hi. pose proof (proj2 (Hsec InFail) eq_refl) as Hg.
    cbn in Hg. rewrite Hg in Hi. destruct (leg_prefillFailure (lp_leg p)) as [f|] eqn:Ef; [|done]. rewrite Hi. cbn [fst snd].
    exists (setSection g InFail None). set (p' := onLeg _ p).
    assert (mono (p, g) (p', setSection g InFail None)) as Hm by (by split; cbn).
    destruct (leave_section i InFail p g p') as [Hgu Hout]; try done.
    { destruct Hinv. split; cbn; try done. by rewrite Ef. }
    split; [done|]. split; [done|]. by eapply HQ.
Qed.

Lemma MarkPrefillSucceeded_triple i F now :
  lasting F →
  legTriple i (idle i F) (MarkPrefillSucceeded now)
    (fun _ => idle i (fun p g => F p g ∧ leg_prefillSucceededNanos (lp_leg p) ≠ 0)).
Proof.
  intros HF. set (Q := fun p g => F p g ∧ leg_prefillSucceededNanos (lp_leg p) ≠ 0). assert (lasting Q) as HQ by (unfold Q; auto with leg).
  assert (nanosOf now ≠ 0) as Hnz by (unfold nanosOf; destruct (Z.eqb_spec now 0); lia).
  unfold MarkPrefillSucceeded. eapply triple_bind with (Q := fun b => if b : bool then within i InSucc Q else idle i Q).
  - apply triple_atomically; [intros []; [by apply within_lasting_stable|by apply idle_stable]|].
    intros p g Hinv [Hb HFp]. pose proof (inv_succ _ _ Hinv) as Hi.
    destruct (Z.eqb_spec (leg_prefillSucceededNanos (lp_leg p)) 0) as [Ef|Ef]; cbn [fst snd].
    + destruct (g_succ g) eqn:Eg; [done|]. exists (setSection g InSucc (Some i)). set (p' := onLeg _ p).
      assert (mono (p, g) (p', setSection g InSucc (Some i))) as Hm by (split; cbn; try done; congruence).
      destruct (enter_section i InSucc p g p') as [Hg Hin]; try done.
      { destruct Hinv. split; cbn; try done. by rewrite (proj2 (Z.eqb_neq _ _) Hnz). }
      split; [done|split; [done|split; [by eapply HF|done]]].
    + exists g. split; [by apply same_guaranteed|split; [done|split; [done|done]]].
  - intros b. cbv beta. destruct b; [|by apply triple_ret].
    apply triple_atomically; [intros _; by apply idle_stable|].
    intros p g Hinv [Hsec HQp]. pose proof (inv_succ _ _ Hinv) as Hi. pose proof (proj2 (Hsec InSucc) eq_refl) as Hg.
    cbn in Hg. rewrite Hg in Hi. pose proof HQp as [_ Hne]. rewrite (proj2 (Z.eqb_neq _ _) Hne) in Hi. rewrite Hi. cbn [fst snd].
    exists (setSection g InSucc None). set (p' := onLeg _ p).
    assert (mono (p, g) (p', setSection g InSucc None)) as Hm by (by split; cbn).
    destruct (leave_section i InSucc p g p') as [Hgu Hout]; try done.
    { destruct Hinv. split; cbn; try done. by rewrite (proj2 (Z.eqb_neq _ _) Hne). }
    split; [done|]. split; [done|]. by eapply HQ.
Qed.

Lemma within_done_stable i F c :
  lasting F → legStable i (within i InOnce (fun p g => F p g ∧ leg_abortDone (lp_leg p) = c)).
Proof.
  intros HF. apply within_stable. intros p g p' g' Hr Hs [HFp Hc]. split; [eapply HF; [apply (rely_mono _ _ _ Hr)|done]|].
  by rewrite (rely_closing _ _ _ Hr Hs : leg_abortDone (lp_leg p') = _).
Qed.

(** The close of [abortDoneOnce], run by the first caller. *)
Lemma onceClose_triple i F :
  lasting F →
  legTriple i (within i InOnce (fun p g => F p g ∧ leg_abortDone (lp_leg p) = ChanOpen))
    (closeChan leg_abortDone (fun l => setDone l ChanClosed (leg_abortDoneOnce l)))
    (fun _ => within i InOnce (fun p g => F p g ∧ leg_abortDone (lp_leg p) = ChanClosed)).
Proof.
  intros HF. apply triple_atomically; [intros _; by apply within_done_stable|].
  intros p g Hinv [Hsec [HFp Hopen]]. pose proof (proj2 (Hsec InOnce) eq_refl) as Hg. cbn in Hg.
  rewrite Hopen. cbn [fst snd]. exists g. set (p' := onLeg _ p).
  assert (mono (p, g) (p', g)) as Hm by (by split; cbn).
  split; [|split; [done|split; [by eapply HF|done]]]. split; [|split; [|done]].
  - destruct Hinv as [? ? Ho]. split; cbn; try done. rewrite Hg in *. destruct (leg_abortDoneOnce (lp_leg p)); naive_solver.
  - intros j Hj. split; cbn; try done. rewrite Hg. congruence.
Qed.

Lemma onceFinish_triple i F :
  lasting F →
  legTriple i (within i InOnce (fun p g => F p g ∧ leg_abortDone (lp_leg p) = ChanClosed))
    (store (fun l => setDone l (leg_abortDone l) OnceDone))
    (fun _ => idle i (fun p g => F p g ∧ leg_abortDoneOnce (lp_leg p) = OnceDone)).
Proof.
  intros HF. apply triple_atomically; [intros _; apply idle_stable; auto with leg|].
  intros p g Hinv [Hsec [HFp Hclosed]]. cbn [fst snd]. exists (setSection g InOnce None). set (p' := onLeg _ p).
  assert (mono (p, g) (p', setSection g InOnce None)) as Hm by (by split; cbn).
  destruct (leave_section i InOnce p g p') as [Hgu Hout]; try done; [destruct Hinv; by split; cbn|].
  split; [done|]. split; [done|]. split; [by eapply HF|done].
Qed.

Lemma closeAbortDone_triple i F :
  lasting F →
  legTriple i (idle i F) closeAbortDone
    (fun _ => idle i (fun p g => F p g ∧ leg_abortDoneOnce (lp_leg p) = OnceDone)).
Proof.
  intros HF. unfold closeAbortDone.
  eapply triple_bind with (Q := fun first : bool =>
    if first then within i InOnce (fun p g => F p g ∧ leg_abortDone (lp_leg p) = ChanOpen)
    else idle i (fun p g => F p g ∧ leg_abortDoneOnce (lp_leg p) = OnceDone)).
  - apply triple_waitFor; [intros []; [by apply within_done_stable|apply idle_stable; auto with leg]|].
    intros p g Hinv [Hb HFp]. pose proof (inv_once _ _ Hinv) as Ho. destruct (leg_abortDoneOnce (lp_leg p)) eqn:E.
    + destruct Ho as [Hnone Hopen]. exists (setSection g InOnce (Some i)). set (p' := onLeg _ p).
      assert (mono (p, g) (p', setSection g InOnce (Some i))) as Hm by (split; cbn; try done; congruence).
      destruct (enter_section i InOnce p g p') as [Hg Hin]; try done; [destruct Hinv; by split; cbn|].
      split; [done|split; [done|split; [by eapply HF|done]]].
    + split; [done|]. destruct (g_once g) as [j|] eqn:Eg; [|done]. exists j. right. by left.
    + exists g. split; [by apply same_guaranteed|]. by split.
  - intros []; [|by apply triple_ret]. eapply triple_bind; [by apply onceClose_triple|]. intros []. by apply onceFinish_triple.
Qed.

Lemma FinishDecodeAbort_triple i F :
  lasting F →
  legTriple i (idle i F) FinishDecodeAbort
    (fun _ => idle i (fun p g => F p g ∧ leg_abortDoneOnce (lp_leg p) = OnceDone)).
Proof.
  intros HF. unfold FinishDecodeAbort. eapply triple_bind; [by apply (cancelAbort_triple i F false)|]. intros [].
  eapply triple_weaken; [| |by apply closeAbortDone_triple]; [|done]. by intros p g _ [? [? _]].
Qed.

Lemma RecordPrefillFailure_triple i F err now :
  lasting F →
  legTriple i (idle i F) (RecordPrefillFailure err now)
    (fun failure => idle i (fun p g => (F p g ∧ leg_prefillFailure (lp_leg p) ≠ None) ∧
                              pf_Class failure = (classifyPrefillFailure err).1)).
Proof.
  intros HF. unfold RecordPrefillFailure. destruct (classifyPrefillFailure err) as [class code].
  eapply triple_bind; [by apply SetPrefillFailure_triple|]. intros b. apply triple_ret. by intros p g _ [? ?].
Qed.

(** An abort is over, or a goroutine was started to see it through. *)
Definition owed (p : legProcess) (g : legGhost) : Prop :=
  leg_abortDoneOnce (lp_leg p) = OnceDone ∨ g_owes g ≠ ∅.

Lemma lasting_owed : lasting owed.
Proof.
  intros p g p' g' Hm [Hd|Ho]; [left; by apply (mono_done _ _ Hm)|right].
  pose proof (mono_owes _ _ Hm : g_owes g ⊆ g_owes g'). set_solver.
Qed.
#[local] Hint Resolve lasting_owed : leg.

Context (legPost_child : ∀ j p g, (base ≤ j)%nat → leg_abortDoneOnce (lp_leg p) = OnceDone → legPost j () p g).

Lemma launch_triple i F (m : LegCode unit) :
  lasting F →
  (∀ j, legTriple j (idle j (fun _ _ => True)) m
     (fun _ => idle j (fun p g => True ∧ leg_abortDoneOnce (lp_leg p) = OnceDone))) →
  legTriple i (idle i F) (fork m) (fun _ => idle i (fun p g => F p g ∧ owed p g)).
Proof.
  intros HF Hm. apply triple_fork. intros p g j Hinv [Hb HFp] Hj Hne Hbase.
  set (g' := MkGhost (g_owner g) (g_once g) (g_fail g) (g_succ g) (g_seen g) ({[j]} ∪ g_owes g)).
  assert (mono (p, g) (p, g')) as Hmo by (split; cbn; try done; set_solver).
  exists g', (idle j (fun _ _ => True)). split; [|split; [|split; [|split]]].
  - split; [destruct Hinv; split; try done; cbn; set_solver|]. split; [intros k _ _; by split|].
    intros k _ Hk [?|[[?|?]%elem_of_union ?]]; [by left|set_solver|by right].
  - split; [apply idle_stable; auto with leg|]. split; [done|]. split; [by eapply HF|]. right. cbn. set_solver.
  - apply idle_stable. auto with leg.
  - split; [|done]. intros Hbj. apply Hj. by left.
  - apply Hm. intros []. cbn [safe]. intros p2 g2 _ [Hb2 [_ Hd]]. split; [by apply legPost_child|]. by intros [?|[_ ?]].
Qed.

Lemma postDecodeAbort_triple i F onLegCtx addr rid :
  lasting F → legTriple i (idle i F) (postDecodeAbort onLegCtx addr rid) (fun _ => idle i F).
Proof.
  intros HF. apply triple_atomically; [intros _; by apply idle_stable|]. intros p g Hinv [Hb HFp]. exists g. cbn [fst snd].
  set (p' := MkProcess _ _ _). assert (mono (p, g) (p', g)) as Hm by (by split).
  split; [|split; [done|by eapply HF]]. split; [destruct Hinv; by split|]. split; [|done]. intros j Hj. by split.
Qed.

(** A read that nothing is remembered of. *)
Lemma read_triple {A} i F (f : PDLegState → A) : lasting F → legTriple i (idle i F) (load f) (fun _ => idle i F).
Proof. intros HF. by apply load_triple. Qed.

Lemma attemptAbort_triple i F addr rid : lasting F → legTriple i (idle i F) (attemptAbort addr rid) (fun _ => idle i F).
Proof.
  intros HF. eapply triple_bind; [by apply read_triple|]. intros []; [by apply triple_ret|by apply postDecodeAbort_triple].
Qed.

Lemma abortDecodeLeg_triple i F addr rid delay :
  lasting F →
  legTriple i (idle i F) (abortDecodeLeg addr rid delay)
    (fun _ => idle i (fun p g => F p g ∧ leg_abortDoneOnce (lp_leg p) = OnceDone)).
Proof.
  intros HF. eapply triple_bind; [by apply attemptAbort_triple|]. intros [].
  eapply triple_bind with (Q := fun _ => idle i F); [destruct (delay <=? 0); [by apply triple_ret|by apply attemptAbort_triple]|].
  intros []. by apply FinishDecodeAbort_triple.
Qed.

Lemma finished_triple {A} i F (a : A) :
  lasting F → legTriple i (idle i F) (FinishDecodeAbort;; mret a) (fun _ => idle i (fun p g => F p g ∧ owed p g)).
Proof.
  intros HF. eapply triple_bind; [by apply FinishDecodeAbort_triple|]. intros []. apply triple_ret.
  intros p g _ [? [? ?]]. split; [done|]. split; [done|]. by left.
Qed.

Lemma AbortDecodeLegOnWatchdog_triple i F defaults :
  lasting F →
  legTriple i (idle i F) (AbortDecodeLegOnWatchdog defaults) (fun _ => idle i (fun p g => F p g ∧ owed p g)).
Proof.
  intros HF. assert (legTriple i (idle i F) FinishDecodeAbort (fun _ => idle i (fun p g => F p g ∧ owed p g))) as Hfin.
  { eapply triple_weaken; [| |by apply FinishDecodeAbort_triple]; [done|]. intros [] p g _ [? [? ?]].
    split; [done|]. split; [done|]. by left. }
  unfold AbortDecodeLegOnWatchdog. do 3 (eapply triple_bind; [by apply read_triple|]; intros ?). cbv zeta.
  case_bool_decide; [done|]. destruct (_ <=? 0); [done|]. case_bool_decide; [done|].
  apply launch_triple; [done|]. intros j. eapply triple_bind; [apply postDecodeAbort_triple; auto with leg|].
  intros []. apply FinishDecodeAbort_triple. auto with leg.
Qed.

Lemma OnPrefillLegFailed_triple i F defaults err now :
  lasting F →
  legTriple i (idle i F) (OnPrefillLegFailed defaults err now)
    (fun failure => idle i (fun p g => ((F p g ∧ leg_prefillFailure (lp_leg p) ≠ None) ∧
                              pf_Class failure = (classifyPrefillFailure err).1) ∧ owed p g)).
Proof.
  intros HF. unfold OnPrefillLegFailed. eapply triple_bind; [by apply RecordPrefillFailure_triple|].
  intros failure. cbv beta. set (F' := fun p g => _ ∧ pf_Class failure = _). assert (lasting F') as HF' by (unfold F'; auto with leg).
  assert (legTriple i (idle i F') (FinishDecodeAbort;; mret failure)
            (fun f => idle i (fun p g => ((F p g ∧ leg_prefillFailure (lp_leg p) ≠ None) ∧
               pf_Class f = (classifyPrefillFailure err).1) ∧ owed p g))) as Hfin.
  { eapply triple_bind; [by apply FinishDecodeAbort_triple|]. intros []. apply triple_ret.
    intros p g _ [? [? ?]]. split; [done|]. split; [done|]. by left. }
  destruct (negb _); [done|]. do 2 (eapply triple_bind; [by apply read_triple|]; intros ?). cbv zeta.
  case_bool_decide; [done|]. eapply triple_bind; [by apply read_triple|]. intros overrides.
  destruct (_ <=? 0); [done|]. case_bool_decide; [done|].
  eapply triple_bind; [by apply read_triple|]. intros []; [done|].
  do 2 (eapply triple_bind; [by apply read_triple|]; intros ?).
  eapply triple_bind; [by apply AbortContext_triple|]. intros []. eapply triple_bind; [apply launch_triple; [done|]|].
  { intros j. apply abortDecodeLeg_triple. auto with leg. }
  intros []. by apply triple_ret.
Qed.

Definition callPost (c : call) (p : legProcess) (g : legGhost) : Prop :=
  match c with
  | CallMarkDecodeResponded => g_seen g = true
  | CallFinishDecodeAbort => leg_abortDoneOnce (lp_leg p) = OnceDone
  | CallWatchdog _ => owed p g
  | CallPrefill _ policy (Some err) _ =>
      (leg_prefillFailure (lp_leg p) ≠ None ∧ owed p g) ∧
      (if PrefillFailureIsTerminalFor (classifyPrefillFailure err).1 (ap_ResetAfterHeaders policy) then True
       else leg_prefillSucceededNanos (lp_leg p) ≠ 0)
  | CallPrefill _ _ None _ => leg_prefillSucceededNanos (lp_leg p) ≠ 0
  | _ => True
  end.

Lemma lasting_callPost c : lasting (callPost c).
Proof.
  destruct c as [| | | | | | | |? policy [err|] ?]; unfold callPost; auto with leg.
  destruct (PrefillFailureIsTerminalFor _ _); auto with leg.
Qed.
#[local] Hint Resolve lasting_callPost : leg.

Lemma prefillGoroutine_triple i F defaults policy answer now :
  lasting F →
  legTriple i (idle i F) (prefillGoroutine defaults policy answer now)
    (fun _ => idle i (fun p g => F p g ∧ callPost (CallPrefill defaults policy answer now) p g)).
Proof.
  intros HF. destruct answer as [err|]; simpl; [|by apply MarkPrefillSucceeded_triple].
  eapply triple_bind with (Q := fun failure => idle i (fun p g => ((F p g ∧ leg_prefillFailure (lp_leg p) ≠ None) ∧
    pf_Class failure = (classifyPrefillFailure err).1) ∧ owed p g)).
  - destruct (ap_AbortDecode policy); [by apply OnPrefillLegFailed_triple|].
    eapply triple_bind; [by apply RecordPrefillFailure_triple|]. intros f. cbv beta.
    eapply triple_bind; [apply FinishDecodeAbort_triple; auto with leg|]. intros []. apply triple_ret.
    intros p g _ [? [? ?]]. split; [done|]. split; [done|]. by left.
  - intros failure. cbv beta. destruct (PrefillFailureIsTerminalFor (pf_Class failure) _) eqn:Et; simpl.
    + apply triple_ret. intros p g _ [? [[[? ?] Hc] ?]]. rewrite <-Hc, Et. done.
    + eapply triple_weaken; [| |apply MarkPrefillSucceeded_triple with (F := fun p g => ((F p g ∧ leg_prefillFailure (lp_leg p) ≠ None) ∧
        pf_Class failure = (classifyPrefillFailure err).1) ∧ owed p g); auto with leg]; [done|].
      intros [] p g _ [? [[[[? ?] Hc] ?] ?]]. rewrite <-Hc, Et. done.
Qed.

Lemma runCall_triple i F c :
  lasting F → legTriple i (idle i F) (runCall c) (fun _ => idle i (fun p g => F p g ∧ callPost c p g)).
Proof.
  intros HF. assert (∀ (f : PDLegState → PDLegState),
    legTriple i (idle i F) (store f) (fun _ => idle i F) →
    legTriple i (idle i F) (store f) (fun _ => idle i (fun p g => F p g ∧ True))) as Hst.
  { intros f Hf. eapply triple_weaken; [| |exact Hf]; [done|]. by intros [] p g _ [? ?]. }
  destruct c; simpl.
  - unfold SetRID. case_bool_decide; [apply triple_ret; by intros p g _ [? ?]|]. by apply Hst, store_triple.
  - unfold SetDecodeTarget. case_bool_decide; [apply triple_ret; by intros p g _ [? ?]|]. by apply Hst, store_triple.
  - by apply Hst, store_triple.
  - by apply Hst, store_triple.
  - by apply MarkDecodeResponded_triple.
  - by apply Hst, store_triple.
  - by apply FinishDecodeAbort_triple.
  - by apply AbortDecodeLegOnWatchdog_triple.
  - by apply prefillGoroutine_triple.
Qed.

Lemma runCalls_triple i F cs :
  lasting F →
  legTriple i (idle i F) (runCalls cs) (fun _ => idle i (fun p g => F p g ∧ ∀ c, c ∈ cs → callPost c p g)).
Proof.
  revert F. induction cs as [|c cs IH]; intros F HF; simpl.
  - apply triple_ret. intros p g _ [? ?]. split; [done|]. split; [done|]. set_solver.
  - eapply triple_bind; [by apply runCall_triple|]. intros [].
    eapply triple_weaken; [| |apply (IH (fun p g => F p g ∧ callPost c p g)); auto with leg]; [done|]. intros [] p g _ [? [[? ?] Hcs]].
    split; [done|]. split; [done|]. intros c' [->|?]%elem_of_cons; auto.
Qed.
End Legs.

(** ** What the calls on a leg come to. *)

Definition goroutinePost (goroutines : list (list call)) (i : nat) (_ : unit) (p : legProcess) (g : legGhost) : Prop :=
  match goroutines !! i with
  | Some cs => ∀ c, c ∈ cs → callPost c p g
  | None => leg_abortDoneOnce (lp_leg p) = OnceDone
  end.

Definition ghost0 : legGhost := MkGhost None None None None false ∅.

Abbreviation legOk goroutines :=
  (pool_ok (legInv (length goroutines)) legRely legPending legBusy (length goroutines) (goroutinePost goroutines)).

Lemma startLeg_ok goroutines : legOk goroutines (startLeg goroutines).1 ghost0 (startLeg goroutines).2.
Proof.
  assert (∀ i, ¬ legBusy ghost0 i) as Hb by (intros i; unfold legBusy; simpl; naive_solver).
  split; simpl; [by split|by rewrite length_map| |].
  - intros i [?%Hb|[? _]]; [done|set_solver].
  - intros i p. rewrite list_lookup_fmap, fmap_Some. intros (cs & Hcs & ->).
    exists (idle i (fun _ _ => True)). split; [apply idle_stable; apply lasting_true|]. split; [done|].
    apply runCalls_triple; [|apply lasting_true|].
    + intros j p g Hj Hd. unfold goroutinePost. by rewrite lookup_ge_None_2.
    + intros []. cbn [safe]. intros p g Hinv [Hnb [_ Hcalls]]. split; [unfold goroutinePost; by rewrite Hcs|].
      intros [?|[Ho _]]; [done|]. apply (inv_owes _ _ _ Hinv) in Ho. apply lookup_lt_Some in Hcs. lia.
Qed.

(** Where a run has come to: the invariant holds, a goroutine that has ended has
    the results of its calls to show, and no one has anything left to do when
    all have. *)
Lemma leg_run goroutines p ts :
  reachable (startLeg goroutines) (p, ts) →
  ∃ g, legOk goroutines p g ts ∧ legInv (length goroutines) p g ∧
    (∀ i cs c r, goroutines !! i = Some cs → c ∈ cs → ts !! i = Some (Done r) → callPost c p g) ∧
    (quiescent ts → ∀ i, ¬ legPending p g i).
Proof.
  intros Hr. rewrite (surjective_pairing (startLeg goroutines)) in Hr.
  destruct (pool_safe _ _ _ _ _ _ _ _ _ _ _ (startLeg_ok goroutines) Hr) as (g & Hok & Hpost & Hend).
  exists g. split; [done|]. split; [apply (ok_inv _ _ _ _ _ _ _ _ _ Hok)|]. split; [|done].
  intros i cs c r Hcs Hc Hi. specialize (Hpost i r Hi). unfold goroutinePost in Hpost. rewrite Hcs in Hpost. auto.
Qed.

(** At the end every call has its result. *)
Lemma leg_end goroutines p ts :
  reachable (startLeg goroutines) (p, ts) → quiescent ts →
  ∃ g, legInv (length goroutines) p g ∧ (∀ i, ¬ legPending p g i) ∧
    ∀ cs c, cs ∈ goroutines → c ∈ cs → callPost c p g.
Proof.
  intros (g & Hok & Hinv & Hpost & Hend)%leg_run Hq. exists g. split; [done|]. split; [auto|].
  intros cs c [i Hi]%list_elem_of_lookup Hc.
  assert (i < length ts)%nat as [q Hts]%lookup_lt_is_Some_2.
  { apply lookup_lt_Some in Hi. pose proof (ok_base _ _ _ _ _ _ _ _ _ Hok). lia. }
  pose proof (Hq i q Hts) as Hd. destruct q; [|done..]. by eapply Hpost.
Qed.

Lemma owed_closed base p g :
  legInv base p g → (∀ i, ¬ legPending p g i) → owed p g → leg_abortDone (lp_leg p) = ChanClosed.
Proof.
  intros Hinv Hend Ho. assert (leg_abortDoneOnce (lp_leg p) = OnceDone) as Hd.
  { destruct Ho as [?|[j Hj]%set_choose_L]; [done|]. destruct (leg_abortDoneOnce (lp_leg p)) eqn:E; [| |done].
    all: destruct (Hend j); right; split; [done|congruence]. }
  pose proof (inv_once _ _ _ Hinv) as Hi. rewrite Hd in Hi. by destruct Hi.
Qed.

Lemma end_announced base p g :
  legInv base p g → (∀ i, ¬ legPending p g i) →
  (leg_prefillFailure (lp_leg p) ≠ None ↔ leg_prefillFailed (lp_leg p) = ChanClosed) ∧
  (leg_prefillSucceededNanos (lp_leg p) ≠ 0 ↔ leg_prefillSucceeded (lp_leg p) = ChanClosed).
Proof.
  intros Hinv Hend. pose proof (inv_fail _ _ _ Hinv) as Hf. pose proof (inv_succ _ _ _ Hinv) as Hs.
  destruct (g_fail g) as [j|] eqn:Ef; [destruct (Hend j); left; unfold legBusy; tauto|].
  destruct (g_succ g) as [j|] eqn:Es; [destruct (Hend j); left; unfold legBusy; tauto|].
  split; [destruct (leg_prefillFailure (lp_leg p)); rewrite Hf; naive_solver|].
  destruct (Z.eqb_spec (leg_prefillSucceededNanos (lp_leg p)) 0); rewrite Hs; naive_solver.
Qed.

(** C26: Any number of goroutines make any calls on a leg, in any interleaving:
    none of them panics (no channel is closed twice), no run goes on for ever,
    and a run that cannot go on has ended every goroutine, the ones it started
    included. *)
Theorem leg_calls_never_panic_or_hang goroutines p ts :
  reachable (startLeg goroutines) (p, ts) →
  lp_panic p = false ∧ sn pstep (p, ts) ∧ ((¬ ∃ c, pstep (p, ts) c) → quiescent ts).
Proof.
  intros (g & Hok & Hinv & _)%leg_run. split; [apply (inv_panic _ _ _ Hinv)|]. split; [apply runs_end|].
  intros Hstuck i q Hi. destruct (decide (isDone q)) as [|Hnd]; [done|]. destruct Hstuck.
  eapply pool_progress; [apply legBusy_pending|exact Hok|]. intros Hq. by apply Hnd, (Hq i).
Qed.

(** C27: When the goroutines have ended, what became of the prefill leg has been
    announced: a failure was recorded if and only if [PrefillFailed] is closed, a
    success if and only if [PrefillSucceeded] is; a prefill goroutine whose pod
    answered has closed the latter, and one that failed the former and
    [AbortDone], whichever way the abort went. *)
Theorem prefill_outcome_is_announced goroutines p ts :
  reachable (startLeg goroutines) (p, ts) → quiescent ts →
  let l := lp_leg p in
  (leg_prefillFailure l ≠ None ↔ leg_prefillFailed l = ChanClosed) ∧
  (leg_prefillSucceededNanos l ≠ 0 ↔ leg_prefillSucceeded l = ChanClosed) ∧
  ∀ cs defaults policy answer now, cs ∈ goroutines → CallPrefill defaults policy answer now ∈ cs →
    match answer with
    | None => leg_prefillSucceeded l = ChanClosed
    | Some err =>
        leg_prefillFailed l = ChanClosed ∧ leg_abortDone l = ChanClosed ∧
        (PrefillFailureIsTerminalFor (classifyPrefillFailure err).1 (ap_ResetAfterHeaders policy) = false →
         leg_prefillSucceeded l = ChanClosed)
    end.
Proof.
  intros Hr Hq l. destruct (leg_end _ _ _ Hr Hq) as (g & Hinv & Hend & Hcalls).
  destruct (end_announced _ _ _ Hinv Hend) as [Hf Hs]. split; [done|]. split; [done|].
  intros cs defaults policy answer now Hcs Hc. pose proof (Hcalls cs _ Hcs Hc) as Hpost. simpl in Hpost.
  destruct answer as [err|]; [|by apply Hs]. destruct Hpost as [[Hrec Ho] Hsucc].
  split; [by apply Hf|]. split; [by eapply owed_closed|]. intros Ht. rewrite Ht in Hsucc. by apply Hs.
Qed.

(** Once [MarkDecodeResponded] has returned, a decode leg that answers is not
    aborted: outside the critical section there is no live abort context, and
    none comes up any more, however a prefill failure raced the answer. *)
Theorem answered_leg_has_no_live_abort goroutines p ts i cs r :
  reachable (startLeg goroutines) (p, ts) →
  goroutines !! i = Some cs → CallMarkDecodeResponded ∈ cs → ts !! i = Some (Done r) →
  leg_decodeResponded (lp_leg p) = true ∧
  (leg_abortMu (lp_leg p) = false → leg_abortCtx (lp_leg p) ≠ Some false).
Proof.
  intros (g & _ & Hinv & Hpost & _)%leg_run Hi Hc Hd. pose proof (Hpost i cs _ r Hi Hc Hd) as Hseen. simpl in Hseen.
  split; [by apply (inv_seen _ _ _ Hinv)|]. intros Hmu. apply (inv_abort _ _ _ Hinv Hseen).
  pose proof (inv_mutex _ _ _ Hinv) as Hm. destruct (g_owner g); congruence.
Qed.

(** ** A prefill failure that races the decode leg's answer. *)

Definition exOverrides : PDOverrides := MkPDOverrides 5000000000 100000000.
Definition exFailure : prefillError := MkPrefillError (Some 500) false false false false false "status 500".

Definition exGoroutines : list (list call) :=
  [[CallSetRID "rid-1"; CallSetDecodeTarget "10.0.0.2:8000" "decode-0"; CallMarkDecodeResponded; CallMarkDecodeChunk 7];
   [CallSetRID "rid-1"; CallSetDecodeTarget "10.0.0.2:8000" "decode-0"; CallPrefill exOverrides DefaultAsyncDispatchPolicy (Some exFailure) 5]].

(** The prefill goroutine goes first, and the abort it starts posts once; then
    the decode leg answers. *)
Definition exTurns : list nat := replicate 22 1%nat ++ [2; 2]%nat ++ replicate 12 0%nat ++ concat (replicate 40 [1; 2; 0]%nat).

Definition exRun : legProcess * list (proc legProcess unit) := runTurns exTurns (startLeg exGoroutines).

Lemma exRun_reachable : reachable (startLeg exGoroutines) (exRun.1, exRun.2).
Proof. rewrite <-surjective_pairing. apply runTurns_reachable. Qed.

Lemma exRun_quiescent : quiescent exRun.2.
Proof. apply all_ended. vm_compute. reflexivity. Qed.

(** One abort was posted, on a context that was live then; the retry was not. *)
Example exRun_aborts : lp_posts exRun.1 = [("10.0.0.2:8000", "rid-1", Some false)] ∧ length exRun.2 = 3%nat.
Proof. vm_compute. done. Qed.

Lemma leg_calls_never_panic_or_hang_witness :
  lp_panic exRun.1 = false ∧ sn pstep (exRun.1, exRun.2) ∧ ((¬ ∃ c, pstep (exRun.1, exRun.2) c) → quiescent exRun.2).
Proof. apply (leg_calls_never_panic_or_hang exGoroutines). apply exRun_reachable. Defined.

Lemma prefill_outcome_is_announced_witness :
  leg_prefillFailed (lp_leg exRun.1) = ChanClosed ∧ leg_abortDone (lp_leg exRun.1) = ChanClosed.
Proof.
  destruct (prefill_outcome_is_announced exGoroutines exRun.1 exRun.2 exRun_reachable exRun_quiescent)
    as (_ & _ & Hcalls).
  destruct (Hcalls (nth 1 exGoroutines []) exOverrides DefaultAsyncDispatchPolicy (Some exFailure) 5) as (Hf & Hd & _).
  - apply list_elem_of_lookup. by exists 1%nat.
  - apply list_elem_of_lookup. by exists 2%nat.
  - by split.
Defined.

Lemma answered_leg_has_no_live_abort_witness :
  leg_abortMu (lp_leg exRun.1) = false ∧ leg_abortCtx (lp_leg exRun.1) ≠ Some false.
Proof.
  assert (leg_abortMu (lp_leg exRun.1) = false) as Hmu by (vm_compute; reflexivity).
  split; [exact Hmu|].
  apply (answered_leg_has_no_live_abort exGoroutines exRun.1 exRun.2 0 (nth 0 exGoroutines []) ()).
  - apply exRun_reachable.
  - reflexivity.
  - apply list_elem_of_lookup. by exists 2%nat.
  - vm_compute. reflexivity.
  - exact Hmu.
Defined.
