(* ===== verification/GatewayWake.v ===== *)
(** * How a sleeping model is asked for
    ([pkg/plugins/gateway/modelclaim_wake.go]).

    A gateway that meets a request for a sleeping model writes a wake request on
    the pod, or asks the runtime, in a goroutine of its own, and remembers in two
    [sync.Map]s what it is doing and what it wrote.  Every access of a map is one
    step.  The API server and the runtimes are the parameter [WakeServer].  How a
    request that was written reaches the controller is in [PodWatch]. *)

From Stdlib Require Import Ascii.
From S2P Require Import Prelude Api Claims Ledger KVPlan Placement Reservations Backoff Runtime ArrangeCard PoolPolicy Division MakeRoom Rfc3339 WakeTurn SleepEngine WakeHandler Concurrent.

Section Gateway.
Context `{K8s}.

(** A pod as the gateway's cache has it. *)
Record cachedPod : Type := MkCachedPod {
  cp_pod : Pod;
  cp_ResourceVersion : string;
}.

(** [utils.ModelClaimBinding], the fields a wake reads. *)
Record ModelClaimBinding : Type := MkBinding {
  bind_Model : string;
  bind_Claim : string;
  bind_WakeByRequest : bool;
}.

Definition modelClaimWakeRequestRecheck : Duration := 30 * Second.

Record wakeRequestWritten : Type := MkWritten {
  wrw_at : Time;
  wrw_over : string;
}.
#[export] Instance wakeRequestWritten_eq_dec : EqDecision wakeRequestWritten.
Proof. solve_decision. Defined.

(** The body of a request to wake a model, and what comes back. *)
Record wakePayload : Type := MkWakePayload {
  wp_model_name : string;
  wp_operation_id : string;
}.
Inductive httpError : Type := NoAnswer | BadStatus (code : Z).

(** The API server and the runtimes, with their state. *)
Class WakeServer (W : Type) := {
  (** A merge patch of one annotation; a version that is not empty is the one it
      is to be made over. *)
  PatchAnnotation : NamespacedName → string → string → string → W → W * result apiError unit;
  (** [client.Do] of a POST, by URL: the status of the answer. *)
  PostWake : string → wakePayload → W → W * option Z;
}.

(** A write of a wake request, as the server saw it. *)
Record wakeWrite : Type := MkWakeWrite {
  wwr_pod : NamespacedName;
  wwr_annotation : string;
  wwr_over : string;
  wwr_value : string;
}.

(** [runtimeModelWakeRequester], with the server and the writes sent to it, each
    with the state it found there. *)
Record gatewayState (W : Type) : Type := MkGateway {
  gw_inFlight : gset string;
  gw_asked : gmap string wakeRequestWritten;
  gw_server : W;
  gw_writes : list (W * wakeWrite * W);
}.
End Gateway.

Arguments MkGateway {W} _ _ _ _.
Arguments gw_inFlight {W} _.
Arguments gw_asked {W} _.
Arguments gw_server {W} _.
Arguments gw_writes {W} _.

Section Requester.
Context `{K8s} `{WakeServer W}.
Abbreviation GwCode := (Code (gatewayState W) unit).

Definition setInFlight (s : gatewayState W) keys : gatewayState W := MkGateway keys (gw_asked s) (gw_server s) (gw_writes s).
Definition setAskedMap (s : gatewayState W) asked : gatewayState W := MkGateway (gw_inFlight s) asked (gw_server s) (gw_writes s).

(** The operations of the maps. *)
Definition LoadOrStore (key : string) : GwCode bool :=
  atomically (fun s => (setInFlight s ({[key]} ∪ gw_inFlight s), bool_decide (key ∈ gw_inFlight s))).
Definition deleteInFlight (key : string) : GwCode unit := atomically (fun s => (setInFlight s (gw_inFlight s ∖ {[key]}), ())).
Definition loadAsked (key : string) : GwCode (option wakeRequestWritten) := atomically (fun s => (s, gw_asked s !! key)).
Definition storeAsked (key : string) (written : wakeRequestWritten) : GwCode unit :=
  atomically (fun s => (setAskedMap s (<[key := written]> (gw_asked s)), ())).
Definition deleteAsked (key : string) : GwCode unit := atomically (fun s => (setAskedMap s (delete key (gw_asked s)), ())).
Definition compareAndDelete (key : string) (written : wakeRequestWritten) : GwCode unit :=
  atomically (fun s => (if bool_decide (gw_asked s !! key = Some written) then setAskedMap s (delete key (gw_asked s)) else s, ())).
Definition askedKeys : GwCode (list string) := atomically (fun s => (s, (map_to_list (gw_asked s)).*1)).

(** [Range]: the keys, and the value of each when it is visited. *)
Fixpoint forgetOld (now : Time) (keys : list string) : GwCode unit :=
  match keys with
  | [] => mret ()
  | key :: rest =>
      written ← loadAsked key;
      match written with
      | Some written =>
          (if modelClaimWakeRequestRecheck <=? timeSub now (wrw_at written) then compareAndDelete key written else mret ());;
          forgetOld now rest
      | None => forgetOld now rest
      end
  end.

Definition forgetOldWakeRequests (now : Time) : GwCode unit := keys ← askedKeys; forgetOld now keys.

(** [net.JoinHostPort]. *)
Definition JoinHostPort (host port : string) : string :=
  if existsb (fun c => Ascii.eqb c ":"%char) (String.list_ascii_of_string host)
  then concat ["["; host; "]:"; port] else concat [host; ":"; port].

Definition wakeURL (podIP : string) (port : Z) : string :=
  concat ["http://"; JoinHostPort podIP (pretty port); "/v1/runtime/models/wake"].

Definition wake (port : Z) (podIP model operationID : string) : GwCode (result httpError unit) :=
  answer ← atomically (fun s =>
    let '(w, answer) := PostWake (wakeURL podIP port) (MkWakePayload model operationID) (gw_server s) in
    (MkGateway (gw_inFlight s) (gw_asked s) w (gw_writes s), answer));
  mret (match answer with
        | None => Err NoAnswer
        | Some code => if (code <? 200) || (300 <=? code) then Err (BadStatus code) else Ok ()
        end).

Definition askedKeyOf (pod : Pod) (claim : string) : string :=
  concat ["wake-request/"; pod.(pod_UID); "/"; pod.(pod_Namespace); "/"; pod.(pod_Name); "/"; claim].

Definition patchRequest (write : wakeWrite) : GwCode (result apiError unit) :=
  atomically (fun s =>
    let '(w, answer) := PatchAnnotation (wwr_pod write) (wwr_over write) (wwr_annotation write) (wwr_value write) (gw_server s) in
    (MkGateway (gw_inFlight s) (gw_asked s) w (gw_writes s ++ [(gw_server s, write, w)]), answer)).

Definition requestOn (pod : cachedPod) (claim : string) (now : Time) : wakeWrite :=
  MkWakeWrite (MkNN pod.(cp_pod).(pod_Namespace) pod.(cp_pod).(pod_Name)) (wakeKey claim) pod.(cp_ResourceVersion) (formatRFC3339 now).

(** The goroutine that writes the request. *)
Definition writeRequest (pod : cachedPod) (claim : string) (now : Time) : GwCode unit :=
  let askedKey := askedKeyOf pod.(cp_pod) claim in
  answer ← patchRequest (requestOn pod claim now);
  match answer with
  | Ok _ => storeAsked askedKey (MkWritten now pod.(cp_ResourceVersion))
  | Err _ => mret ()
  end;;
  deleteInFlight askedKey.

(** [now] is when the clock is read. *)
Definition requestWakeOnPod (pod : cachedPod) (claim : string) (now : Time) : GwCode bool :=
  let askedKey := askedKeyOf pod.(cp_pod) claim in
  match pod.(cp_pod).(pod_Annotations) !! wakeKey claim with
  | Some _ => deleteAsked askedKey;; mret false
  | None =>
      forgetOldWakeRequests now;;
      written ← loadAsked askedKey;
      if match written with Some written => bool_decide (wrw_over written = pod.(cp_ResourceVersion)) | None => false end
      then mret false
      else
        alreadyRunning ← LoadOrStore askedKey;
        if (alreadyRunning : bool) then mret false
        else fork (writeRequest pod claim now);; mret true
  end.

Definition modelClaimWakeKey (pod : Pod) (model : string) : string :=
  let podID := if bool_decide (pod.(pod_UID) = "") then concat [pod.(pod_Namespace); "/"; pod.(pod_Name)] else pod.(pod_UID) in
  concat ["gateway-wake/"; podID; "/"; model].

(** The goroutine that asks the runtime. *)
Definition wakeRuntime (port : Z) (podIP model wakeKey operationID : string) : GwCode unit :=
  _ ← wake port podIP model operationID;
  deleteInFlight wakeKey.

(** [pods] is whether the gateway runs with Kubernetes, [uuid] a new one. *)
Definition RequestWake (port : Z) (pods : bool) (pod : option cachedPod) (binding : ModelClaimBinding) (now : Time) (uuid : string)
  : GwCode bool :=
  match pod with
  | None => mret false
  | Some pod =>
      if binding.(bind_WakeByRequest) && negb (bool_decide (binding.(bind_Claim) = "")) && pods
      then requestWakeOnPod pod binding.(bind_Claim) now
      else
        let model := binding.(bind_Model) in
        if bool_decide (pod.(cp_pod).(pod_IP) = "") || bool_decide (model = "") then mret false
        else
          let key := modelClaimWakeKey pod.(cp_pod) model in
          alreadyRunning ← LoadOrStore key;
          if (alreadyRunning : bool) then mret false
          else fork (wakeRuntime port pod.(cp_pod).(pod_IP) model key (concat [key; "/"; uuid]));; mret true
  end.
End Requester.

(** ** What the server promises. *)

(** The pods as they are stored, with their versions, and every version a pod
    was ever at: a version stands for one content. *)
Class WakeServerLaws `{WakeServer W} := {
  stored : W → NamespacedName → option (string * gmap string string);
  wasAt : W → NamespacedName → string → gmap string string → Prop;
  version_identifies w k v a a' : wasAt w k v a → wasAt w k v a' → a = a';
  stored_wasAt w k v a : stored w k = Some (v, a) → wasAt w k v a;
  historyKept w w' := ∀ k v a, wasAt w k v a → wasAt w' k v a;

  (** The annotation is written, whatever is answered, or nothing is; a patch
      that names a version is made over that version only. *)
  PatchAnnotation_law pod over annotation v w : let w' := (PatchAnnotation pod over annotation v w).1 in
    historyKept w w' ∧
    ∀ k, stored w' k = stored w k ∨
      (k = pod ∧ ∃ version a version', stored w k = Some (version, a) ∧ (over = "" ∨ over = version) ∧
         stored w' k = Some (version', <[annotation := v]> a));
  PostWake_law url payload w : historyKept w (PostWake url payload w).1;
}.

Section GatewayRuns.
Context `{K8s} `{HL : WakeServerLaws W}.
Abbreviation GwCode := (Code (gatewayState W) unit).
Abbreviation GwState := (gatewayState W).

(** What goes on at once: requests for sleeping models, each with the pod that
    the cache shows when it comes, and what others do to the server. *)
Inductive gatewayCall : Type :=
| CallRequestWake (port : Z) (pods : bool) (view : W → option cachedPod) (binding : ModelClaimBinding) (now : Time) (uuid : string)
| CallOthers (change : W → W).

(** The cache shows a version that the pod was at, and pods have versions. *)
Definition genuine (w : W) (pod : cachedPod) : Prop :=
  pod.(cp_ResourceVersion) ≠ "" ∧
  wasAt w (MkNN pod.(cp_pod).(pod_Namespace) pod.(cp_pod).(pod_Name)) pod.(cp_ResourceVersion) pod.(cp_pod).(pod_Annotations).

Definition callOk (c : gatewayCall) : Prop :=
  match c with
  | CallRequestWake _ _ view _ _ _ => ∀ w pod, view w = Some pod → genuine w pod
  | CallOthers change => ∀ w, historyKept w (change w)
  end.

Definition runGatewayCall (c : gatewayCall) : GwCode unit :=
  match c with
  | CallRequestWake port pods view binding now uuid =>
      pod ← atomically (fun s => (s, view (gw_server s)));
      _ ← RequestWake port pods pod binding now uuid;
      mret ()
  | CallOthers change =>
      atomically (fun s => (MkGateway (gw_inFlight s) (gw_asked s) (change (gw_server s)) (gw_writes s), ()))
  end.

Fixpoint runGatewayCalls (cs : list gatewayCall) : GwCode unit :=
  match cs with
  | [] => mret ()
  | c :: rest => runGatewayCall c;; runGatewayCalls rest
  end.

Definition startGateway (w : W) (goroutines : list (list gatewayCall)) : GwState * list (proc GwState unit) :=
  (MkGateway ∅ ∅ w [], (fun cs => runGatewayCalls cs Done) <$> goroutines).

(** A write that puts a request where there was none, over the version it was
    decided on, or changes nothing. *)
Definition firstRequest (before : W) (write : wakeWrite) (after : W) : Prop :=
  ∀ k, stored after k = stored before k ∨
    (k = wwr_pod write ∧ ∃ a version', stored before k = Some (wwr_over write, a) ∧ a !! wwr_annotation write = None ∧
       stored after k = Some (version', <[wwr_annotation write := wwr_value write]> a)).

(** ** What the goroutines keep to: ghost state says whose each mark is. *)

Record gatewayInv (s : GwState) (g : gmap string nat) : Prop := MkGatewayInv {
  gi_marks k : k ∈ gw_inFlight s ↔ is_Some (g !! k);
  gi_writes : Forall (fun e => firstRequest e.1.1 e.1.2 e.2) (gw_writes s);
}.

Definition gatewayRely (i : nat) (c c' : GwState * gmap string nat) : Prop :=
  (∀ k, c.2 !! k = Some i ↔ c'.2 !! k = Some i) ∧ historyKept (gw_server c.1) (gw_server c'.1).
Definition gatewayPending (s : GwState) (g : gmap string nat) (i : nat) : Prop := ∃ k, g !! k = Some i.
Definition gatewayBusy (g : gmap string nat) (i : nat) : Prop := False.

Lemma gatewayBusy_pending s g i : gatewayInv s g → gatewayBusy g i → gatewayPending s g i.
Proof. done. Qed.

Context (base : nat).
Abbreviation gwTriple := (triple (R := unit) gatewayInv gatewayRely gatewayPending gatewayBusy base (fun _ _ _ _ => True)).
Abbreviation gwStable := (stable gatewayInv gatewayRely).

(** Goroutine [i] has the marks [K], and [F] of the server, which lasts. *)
Definition owning (i : nat) (K : gset string) (F : W → Prop) (s : GwState) (g : gmap string nat) : Prop :=
  (∀ k, g !! k = Some i ↔ k ∈ K) ∧ F (gw_server s).
Definition lastingAt (F : W → Prop) : Prop := ∀ w w', historyKept w w' → F w → F w'.

Lemma historyKept_refl w : historyKept w w.
Proof. by intros k v a. Qed.

Lemma owning_stable i K F : lastingAt F → gwStable i (owning i K F).
Proof. intros HF s g s' g' _ _ [Hk Hh] [Ho HFs]. split; [|by eapply HF]. intros k. by rewrite <-(Hk k). Qed.

Lemma genuine_lasting pod : lastingAt (fun w => genuine w pod).
Proof. intros w w' Hh [Hv Hw]. split; [done|]. by apply Hh. Qed.

(** A step that leaves the marks alone. *)
Lemma step_triple {A} i K F (f : GwState → GwState * A) (F' : A → W → Prop) :
  (∀ a, lastingAt (F' a)) →
  (∀ s, F (gw_server s) → gw_inFlight (f s).1 = gw_inFlight s ∧ historyKept (gw_server s) (gw_server (f s).1) ∧
     F' (f s).2 (gw_server (f s).1) ∧
     (Forall (fun e => firstRequest e.1.1 e.1.2 e.2) (gw_writes s) → Forall (fun e => firstRequest e.1.1 e.1.2 e.2) (gw_writes (f s).1))) →
  gwTriple i (owning i K F) (atomically f) (fun a => owning i K (F' a)).
Proof.
  intros HF' Hf. apply triple_atomically; [intros a; by apply owning_stable|].
  intros s g [Hm Hwr] [Ho HF]. exists g. destruct (Hf s HF) as (Hin & Hh & HFa & Hw). split; [|by split].
  unfold guaranteed. cbn [fst snd]. split; [split; [intros k; by rewrite Hin|by apply Hw]|]. split; [|done]. intros j _. by split.
Qed.

Lemma LoadOrStore_triple i key F : lastingAt F →
  gwTriple i (owning i ∅ F) (LoadOrStore key) (fun already => owning i (if already then ∅ else {[key]}) F).
Proof.
  intros HF. apply triple_atomically; [intros a; by apply owning_stable|]. intros s g [Hm Hwr] [Ho HFs]. cbn [fst snd].
  case_bool_decide as Hin.
  - exists g. split; [|by split]. split; [|split; [|done]].
    + split; [|done]. intros k. cbn. rewrite elem_of_union, elem_of_singleton, Hm. split; [|by right]. intros [->|?]; [by apply Hm|done].
    + intros j _. split; [done|apply historyKept_refl].
  - assert (g !! key = None) as Hg by (apply eq_None_not_Some; by rewrite <-Hm).
    exists (<[key := i]> g). split; [split; [|split]|].
    + split; [|done]. intros k. cbn. rewrite elem_of_union, elem_of_singleton, Hm.
      destruct (decide (k = key)) as [->|Hne]; [rewrite lookup_insert_eq; naive_solver|rewrite lookup_insert_ne by done; naive_solver].
    + intros j Hj. split; [|apply historyKept_refl]. intros k. cbn. destruct (decide (k = key)) as [->|Hne].
      * rewrite lookup_insert_eq, Hg. naive_solver.
      * by rewrite lookup_insert_ne.
    + intros j Hj [k Hk]. exists k. cbn in *. destruct (decide (k = key)) as [->|Hne];
        [rewrite lookup_insert_eq in Hk; congruence|by rewrite lookup_insert_ne in Hk].
    + split; [|done]. intros k. destruct (decide (k = key)) as [->|Hne];
        [rewrite lookup_insert_eq; set_solver|rewrite lookup_insert_ne by done; rewrite Ho; set_solver].
Qed.

Lemma deleteInFlight_triple i key :
  gwTriple i (owning i {[key]} (fun _ => True)) (deleteInFlight key) (fun _ => owning i ∅ (fun _ => True)).
Proof.
  apply triple_atomically; [intros a; by apply owning_stable|]. intros s g [Hm Hwr] [Ho _]. cbn [fst snd].
  assert (g !! key = Some i) as Hg by (apply Ho; set_solver). exists (delete key g). split; [split; [|split]|].
  - split; [|done]. intros k. cbn. rewrite elem_of_difference, elem_of_singleton, Hm.
    destruct (decide (k = key)) as [->|Hne]; [rewrite lookup_delete_eq|rewrite lookup_delete_ne by done]; naive_solver.
  - intros j Hj. split; [|apply historyKept_refl]. intros k. cbn. destruct (decide (k = key)) as [->|Hne].
    + rewrite lookup_delete_eq, Hg. naive_solver.
    + by rewrite lookup_delete_ne.
  - intros j Hj [k Hk]. exists k. cbn in *. by apply lookup_delete_Some in Hk as [_ ?].
  - split; [|done]. intros k. destruct (decide (k = key)) as [->|Hne];
      [rewrite lookup_delete_eq; set_solver|rewrite lookup_delete_ne by done; rewrite Ho; set_solver].
Qed.

(** A goroutine is handed the mark of the one that starts it. *)
Lemma fork_triple i key F (child : GwCode unit) : lastingAt F →
  (∀ j, gwTriple j (owning j {[key]} F) child (fun _ => owning j ∅ (fun _ => True))) →
  gwTriple i (owning i {[key]} F) (fork child) (fun _ => owning i ∅ (fun _ => True)).
Proof.
  intros HF Hc. apply triple_fork. intros s g j [Hm Hwr] [Ho HFs] Hp Hne _.
  assert (g !! key = Some i) as Hg by (apply Ho; set_solver).
  assert (∀ k, g !! k = Some i → k = key) as Honly by (intros k Hk; apply Ho in Hk; set_solver).
  assert (∀ k, g !! k ≠ Some j) as Hnone by (intros k Hk; apply Hp; by exists k).
  assert (∀ k x, <[key := j]> g !! k = Some x ↔ (k = key ∧ x = j) ∨ (k ≠ key ∧ g !! k = Some x)) as Hlook.
  { intros k x. rewrite lookup_insert_Some. naive_solver. }
  exists (<[key := j]> g), (owning j {[key]} F). split; [|split].
  - split; [|split].
    + split; [|done]. intros k. rewrite Hm. destruct (decide (k = key)) as [->|Hk];
        [rewrite lookup_insert_eq, Hg|rewrite lookup_insert_ne by done]; naive_solver.
    + intros k Hki Hkj. split; [|apply historyKept_refl]. intros k'. cbn. rewrite Hlook. naive_solver.
    + intros k Hki Hkj [k' Hk']. exists k'. apply Hlook in Hk'. naive_solver.
  - split; [by apply owning_stable|]. split; [|done]. intros k. rewrite Hlook. split; [|set_solver]. intros [[_ <-]|[Hk Hi]]; [done|].
    by apply Honly in Hi.
  - split; [by apply owning_stable|]. split.
    + split; [|done]. intros k. rewrite Hlook, elem_of_singleton. split; [|naive_solver]. intros [[-> _]|[_ Hj]]; [done|].
      by apply Hnone in Hj.
    + apply (Hc j). intros []. cbn [safe]. intros s' g' _ [Ho' _]. split; [done|]. intros [k Hk]. apply Ho' in Hk. set_solver.
Qed.

(** ** The code. *)

Abbreviation quietly := (fun i K F (m : GwCode _) => gwTriple i (owning i K F) m (fun _ => owning i K F)) (only parsing).

Lemma asked_triple {A} i K F (f : GwState → GwState * A) : lastingAt F →
  (∀ s, gw_inFlight (f s).1 = gw_inFlight s ∧ gw_server (f s).1 = gw_server s ∧ gw_writes (f s).1 = gw_writes s) →
  quietly i K F (atomically f).
Proof.
  intros HF Hf. apply step_triple; [done|]. intros s HFs. destruct (Hf s) as (-> & -> & ->). split_and!; [done|apply historyKept_refl|done|done].
Qed.

Lemma then_triple {A B} i P Q R (m : GwCode A) (f : GwCode B) :
  gwTriple i P m (fun _ => Q) → gwTriple i Q f R → gwTriple i P (m ≫= fun _ => f) R.
Proof. intros Hm Hf. eapply triple_bind; [exact Hm|]. by intros a. Qed.

Lemma forgetOld_triple i K F now keys : lastingAt F → quietly i K F (forgetOld now keys).
Proof.
  intros HF. induction keys as [|key rest IH]; simpl; [by apply triple_ret|].
  eapply triple_bind; [by apply asked_triple|]. intros [written|]; [|exact IH].
  eapply then_triple; [|exact IH]. destruct (_ <=? _); [|by apply triple_ret].
  apply asked_triple; [done|]. intros s. cbn [fst]. by case_bool_decide.
Qed.

Lemma patchRequest_triple i key pod claim now :
  pod_Annotations (cp_pod pod) !! wakeKey claim = None →
  gwTriple i (owning i {[key]} (fun w => genuine w pod)) (patchRequest (requestOn pod claim now)) (fun _ => owning i {[key]} (fun _ => True)).
Proof.
  intros Hnone. apply step_triple; [done|]. intros s [Hv Hw].
  pose proof (PatchAnnotation_law (wwr_pod (requestOn pod claim now)) (wwr_over (requestOn pod claim now))
    (wwr_annotation (requestOn pod claim now)) (wwr_value (requestOn pod claim now)) (gw_server s)) as [Hh Hp].
  destruct (PatchAnnotation _ _ _ _ (gw_server s)) as [w answer]. cbn [fst snd gw_inFlight gw_server gw_writes] in *.
  split_and!; [done|done|done|]. intros Hall. apply Forall_app. split; [done|]. apply Forall_singleton. cbn [fst snd].
  intros k. destruct (Hp k) as [?|(Hk & version & a & version' & Hst & Hover & Hst')]; [by left|right]. rewrite Hk in Hst, Hst' |- *.
  destruct Hover as [Hover|Hover]; [by destruct Hv|]. split; [done|]. exists a, version'. rewrite Hover. split_and!; [done| |done].
  rewrite (version_identifies _ _ _ _ _ (stored_wasAt _ _ _ _ Hst) (eq_ind _ (fun v => wasAt _ _ v _) Hw _ Hover)). exact Hnone.
Qed.

Lemma writeRequest_triple i pod claim now :
  pod_Annotations (cp_pod pod) !! wakeKey claim = None →
  gwTriple i (owning i {[askedKeyOf (cp_pod pod) claim]} (fun w => genuine w pod)) (writeRequest pod claim now)
    (fun _ => owning i ∅ (fun _ => True)).
Proof.
  intros Hnone. unfold writeRequest. eapply triple_bind; [by apply patchRequest_triple|]. intros answer.
  eapply then_triple; [|apply deleteInFlight_triple]. destruct answer; [by apply asked_triple|by apply triple_ret].
Qed.

(** Marked, started, and on: what both ways of waking share. *)
Lemma marked_triple i key F (child : GwCode unit) : lastingAt F →
  (∀ j, gwTriple j (owning j {[key]} F) child (fun _ => owning j ∅ (fun _ => True))) →
  gwTriple i (owning i ∅ F) (alreadyRunning ← LoadOrStore key; if (alreadyRunning : bool) then mret false else fork child;; mret true)
    (fun _ => owning i ∅ (fun _ => True)).
Proof.
  intros HF Hc. eapply triple_bind; [by apply LoadOrStore_triple|]. intros [|].
  - apply triple_ret. intros s g _ [? _]. by split.
  - eapply then_triple; [by apply (fork_triple _ _ F)|]. by apply triple_ret.
Qed.

Lemma weaken_owning {A} i K F (m : GwCode A) Q :
  gwTriple i (owning i K (fun _ => True)) m Q → gwTriple i (owning i K F) m Q.
Proof. apply triple_weaken; [|done]. intros s g _ [? _]. by split. Qed.

Lemma RequestWake_triple i port pods pod binding now uuid :
  gwTriple i (owning i ∅ (fun w => ∀ p, pod = Some p → genuine w p)) (RequestWake port pods pod binding now uuid)
    (fun _ => owning i ∅ (fun _ => True)).
Proof.
  unfold RequestWake. destruct pod as [pod|]; [|apply weaken_owning; by apply triple_ret]. destruct (_ && _).
  - apply triple_weaken with (P := owning i ∅ (fun w => genuine w pod)) (Q := fun _ => owning i ∅ (fun _ => True));
      [intros s g _ [? Hg]; split; [done|by apply Hg]|done|].
    unfold requestWakeOnPod. destruct (pod_Annotations (cp_pod pod) !! wakeKey _) eqn:Ha.
    + apply weaken_owning. eapply then_triple; [by apply asked_triple|]. by apply triple_ret.
    + eapply then_triple.
      { unfold forgetOldWakeRequests. eapply triple_bind; [apply asked_triple; [apply genuine_lasting|done]|].
        intros keys. apply forgetOld_triple, genuine_lasting. }
      eapply triple_bind; [apply asked_triple; [apply genuine_lasting|done]|]. intros written.
      destruct (match written with Some _ => _ | None => _ end); [apply weaken_owning; by apply triple_ret|].
      apply marked_triple; [apply genuine_lasting|]. intros j. by apply writeRequest_triple.
  - apply weaken_owning. destruct (_ || _); [by apply triple_ret|]. apply marked_triple; [done|]. intros j. unfold wakeRuntime, wake.
    eapply then_triple; [|apply deleteInFlight_triple].
    eapply triple_bind; [apply (step_triple _ _ _ _ (fun _ _ => True)); [done|]|intros answer; by apply triple_ret]. intros s _.
    set (payload := MkWakePayload _ _). pose proof (PostWake_law (wakeURL (pod_IP (cp_pod pod)) port) payload (gw_server s)) as Hh.
    destruct (PostWake _ payload (gw_server s)) as [w answer]. cbn [fst snd] in *. by split_and!.
Qed.

Lemma runGatewayCalls_triple i cs : Forall callOk cs →
  gwTriple i (owning i ∅ (fun _ => True)) (runGatewayCalls cs) (fun _ => owning i ∅ (fun _ => True)).
Proof.
  induction cs as [|c rest IH]; simpl; [intros _; by apply triple_ret|]. intros [Hc Hrest]%Forall_cons.
  eapply then_triple; [|by apply IH]. destruct c as [port pods view binding now uuid|change]; simpl in *.
  - eapply triple_bind.
    + apply (step_triple i ∅ (fun _ => True) (fun s => (s, view (gw_server s))) (fun pod w => ∀ p, pod = Some p → genuine w p)).
      * intros pod w w' Hh Hg p ->. eapply genuine_lasting; [exact Hh|by apply Hg].
      * intros s _. cbn [fst snd]. split_and!; [done|apply historyKept_refl|intros p Hp; by apply Hc|done].
    + intros pod. eapply triple_bind; [apply RequestWake_triple|]. intros b. by apply triple_ret.
  - apply (step_triple _ _ _ _ (fun _ _ => True)); [done|]. intros s _. cbn. split_and!; [done|apply Hc|done|done].
Qed.
End GatewayRuns.

Lemma startGateway_ok `{K8s} `{HL : WakeServerLaws W} (w : W) goroutines :
  Forall (Forall callOk) goroutines →
  pool_ok gatewayInv gatewayRely gatewayPending gatewayBusy (length goroutines) (fun _ _ _ _ => True)
    (startGateway w goroutines).1 ∅ (startGateway w goroutines).2.
Proof.
  intros Hok. split.
  - split; [intros k; cbn; rewrite lookup_empty; split; [set_solver|by intros [? ?]]|constructor].
  - cbn. by rewrite length_fmap.
  - intros i [k Hk]. by rewrite lookup_empty in Hk.
  - intros i p Hp. cbn in Hp. apply list_lookup_fmap_Some in Hp as (cs & -> & Hcs). rewrite Forall_lookup in Hok.
    exists (owning i ∅ (fun _ => True)). split; [by apply owning_stable|].
    split; [split; [intros k; rewrite lookup_empty; set_solver|done]|].
    apply (runGatewayCalls_triple (length goroutines) i cs (Hok i cs Hcs)). intros []. cbn [safe]. intros s g _ [Ho _].
    split; [done|]. intros [k Hk]. apply Ho in Hk. set_solver.
Qed.

(** C32: whatever requests for sleeping models come at once, and whatever else
    happens to the pods, every wake request a gateway writes is put on a pod
    that had none, over the version of the pod it was decided on, so that none
    replaces the time an earlier one was first asked at and none is left for a
    claim whose route changed since.  No run goes on for ever, one that has not
    ended goes on, and when the goroutines have ended nothing is marked as in
    flight, so that no later request is held up. *)
Theorem wake_requests_are_first `{K8s} `{WakeServerLaws W} (w : W) goroutines s ts :
  Forall (Forall callOk) goroutines → reachable (startGateway w goroutines) (s, ts) →
  (∀ before write after, (before, write, after) ∈ gw_writes s → firstRequest before write after) ∧
  sn pstep (s, ts) ∧ (¬ quiescent ts → ∃ c, pstep (s, ts) c) ∧ (quiescent ts → gw_inFlight s = ∅).
Proof.
  intros Hok Hr. pose proof (startGateway_ok w goroutines Hok) as Hpool. unfold startGateway in Hr, Hpool. cbn [fst snd] in Hpool.
  destruct (pool_safe _ _ _ _ _ _ _ _ _ _ _ Hpool Hr) as (g & Hp & _ & Hend).
  split_and!; [|apply runs_end|intros Hq; by eapply pool_progress; [apply gatewayBusy_pending|..]|].
  - intros before write after Hin. destruct Hp as [[_ Hw] _ _ _]. rewrite Forall_forall in Hw. exact (Hw _ Hin).
  - intros Hq. destruct Hp as [[Hm _] _ _ _]. apply set_eq. intros k. rewrite Hm. split; [|set_solver].
    intros [i Hk]. destruct (Hend Hq i). by exists k.
Qed.

(** ** A server, for the witness. *)

Section GatewayWitness.
Local Existing Instance NanoK8s.

(** The contents each pod had, the version of the [n]th being [n]. *)
Abbreviation historyServer := (gmap NamespacedName (list (gmap string string))).

Definition versionOf (n : nat) : string := String "v" (pretty n).
#[local] Instance versionOf_inj : Inj (=) (=) versionOf.
Proof. intros n m [= E]. by apply (inj pretty) in E. Qed.

Definition patchStored (over annotation v : string) (contents : list (gmap string string)) : option (list (gmap string string)) :=
  a ← last contents;
  if bool_decide (over = "") || bool_decide (over = versionOf (pred (length contents))) then Some (contents ++ [<[annotation := v]> a]) else None.

Definition historyWakes : WakeServer historyServer := {|
  PatchAnnotation pod over annotation v w :=
    match w !! pod ≫= patchStored over annotation v with
    | Some contents => (<[pod := contents]> w, Ok ())
    | None => (w, Err ApiFailed)
    end;
  PostWake url payload w := (w, Some 200);
|}.
Local Existing Instance historyWakes.

Definition historyLaws : WakeServerLaws.
Proof.
  refine {| stored (w : historyServer) k := contents ← w !! k; a ← last contents; Some (versionOf (pred (length contents)), a);
            wasAt (w : historyServer) k v a := ∃ contents n, w !! k = Some contents ∧ contents !! n = Some a ∧ v = versionOf n |}.
  - intros w k v a a' (c & n & Hc & Ha & ->) (c' & n' & Hc' & Ha' & Hn). apply (inj versionOf) in Hn as <-. congruence.
  - intros w k v a Hs. destruct (w !! k) as [contents|] eqn:Ek; simpl in Hs; [|done]. rewrite last_lookup in Hs.
    destruct (contents !! _) as [x|] eqn:Ex; simpl in Hs; [|done]. injection Hs as <- <-. by exists contents, (pred (length contents)).
  - intros pod over annotation v w. cbn. destruct (w !! pod) as [contents|] eqn:Ep; cbn; [|by split; auto].
    unfold patchStored. destruct (last contents) as [a|] eqn:El; cbn; [|by split; auto].
    destruct (_ || _) eqn:Eo; cbn; [|by split; auto]. split.
    + intros k u b (c & n & Hc & Hb & ->). destruct (decide (k = pod)) as [->|Hne].
      * rewrite Ep in Hc. injection Hc as <-. exists (contents ++ [<[annotation := v]> a]), n. rewrite lookup_insert_eq.
        split_and!; [done|by apply lookup_app_l_Some|done].
      * exists c, n. by rewrite lookup_insert_ne.
    + intros k. destruct (decide (k = pod)) as [->|Hne]; [|left; by rewrite lookup_insert_ne]. right. split; [done|].
      rewrite lookup_insert_eq, Ep. cbn. rewrite last_snoc, El. cbn. eexists _, a, _. split_and!; [done| |done].
      apply orb_prop in Eo as [Eo|Eo]; apply bool_decide_eq_true in Eo; auto.
  - by intros url payload w k v a.
Defined.
Local Existing Instance historyLaws.

Definition exBinding : ModelClaimBinding := MkBinding "alpha" "alpha" true.
(** The pod as the server has it last. *)
Definition exView (w : historyServer) : option cachedPod :=
  contents ← w !! MkNN "ns" "pod-a"; a ← last contents; Some (MkCachedPod (setAnnotations exPod a) (versionOf (pred (length contents)))).

Lemma exView_ok : Forall (Forall callOk) (replicate 2 [CallRequestWake 8080 true exView exBinding (100 * Second) "u"]).
Proof.
  apply Forall_replicate, Forall_singleton. intros w pod. unfold exView. destruct (w !! _) as [contents|] eqn:Ec; simpl; [|done].
  rewrite last_lookup. destruct (contents !! _) as [a|] eqn:Ea; simpl; [|done]. intros [= <-]. split.
  - discriminate.
  - by exists contents, (pred (length contents)).
Qed.

(** The pod has no request; two ask at once, and one request is written. *)
Definition exServer : historyServer := {[MkNN "ns" "pod-a" := [pod_Annotations exRouted]]}.
Definition exRun : gatewayState historyServer * list (proc (gatewayState historyServer) unit) :=
  runTurns (mjoin (replicate 12 [0; 1; 2; 3]%nat)) (startGateway exServer (replicate 2 [CallRequestWake 8080 true exView exBinding (100 * Second) "u"])).


Lemma wake_requests_are_first_witness :
  length (gw_writes exRun.1) = 1%nat ∧ gw_inFlight exRun.1 = ∅ ∧
  ∀ before write after, (before, write, after) ∈ gw_writes exRun.1 → firstRequest before write after.
Proof.
  assert (reachable (startGateway exServer (replicate 2 [CallRequestWake 8080 true exView exBinding (100 * Second) "u"]))
    (exRun.1, exRun.2)) as Hr by (rewrite <-surjective_pairing; apply runTurns_reachable).
  destruct (wake_requests_are_first exServer _ _ _ exView_ok Hr) as (Hw & _ & _ & Hq).
  split; [vm_compute; reflexivity|]. split; [|exact Hw]. apply Hq, all_ended. vm_compute. reflexivity.
Defined.
End GatewayWitness.
